(* ===== verification/_CoqProject ===== *)
-Q . S2P
Prelude.v
Event.v
MemStore.v
Operation.v
Workflow.v
Graph.v
WorkflowRun.v
Task.v
TaskProject.v
Prog.v
TaskStore.v
SchedLocal.v
Completion.v
WorkerText.v
Scheduler.v
Service.v
TaskOps.v
Edits.v
Protocol.v
Pool.v
SystemSpec.v
System.v
Stranding.v
Thread.v
ThreadViews.v
ThreadIndex.v
ThreadStore.v
ThreadSystem.v
Threads.v
Conversation.v
Continuity.v
Compaction.v
Exchanges.v
Projection.v
OpModel.v
NamedInstance.v
Authorization.v
Safety.v
Executor.v
Instances.v
Guarded.v
Authority.v
StateLogic.v
AgentModel.v
Goal.v
GoalOps.v
GoalRaces.v
SessionData.v
StopCondition.v
SessionItems.v
SessionTurn.v
SessionLoop.v
SessionInvariant.v
SessionBounds.v
SessionGate.v
Usage.v
ModelTools.v
Assembler.v
Sse.v
ModelStream.v
Streaming.v
ModelReplay.v
ReplayTurns.v
LLMAgent.v
ModelRequests.v
Resource.v
Resolution.v
ToolProjection.v
ProjectedTools.v
Materializer.v
ContextView.v
Skill.v
SkillReplay.v
Surface.v
SurfaceModel.v
SurfaceSession.v
SurfaceUse.v
Command.v
SessionCommands.v
CommandDispatch.v
