(* ===== verification/Prelude.v ===== *)
(** * Verification of the execution core of fluxplane-core

    The repository is a Go runtime for agents. The part with logic of its own is how work is
    described, stored and executed: append-only event streams with optimistic concurrency, workflow
    graphs run in one process, and tasks whose steps are run by any number of schedulers that share
    nothing but the event store. This library models that part and proves it correct.

    ** How the parts interact

    A workflow runner ([src/orchestration/workflow/runner.go]) executes a [workflow.Spec] step by
    step through callbacks and appends its events. A task ([src/core/task]) lives in a stream of an
    event store; its state is the projection of that stream ([src/runtime/task/projector.go]); the
    task store ([src/runtime/task/store.go]) reads and appends streams, expecting the sequence it
    has read; schedulers ([src/orchestration/taskexecutor/executor.go]) claim ready tasks, dispatch
    their steps to workers, and write the results back. Everything a scheduler knows about a task it
    reads from the stream, and everything it decides it writes with the expectation that the stream
    has not moved; so the correctness of the system is a property of the interleaving of appends.

    ** Files

    - [Prelude]: results ([Result E A] for [(A, error)]), record update, lemmas on lists and options.
    - [Event]: records, streams and options of package event (module fluxplane-event), the class
      [EventStore] with its laws [EventStoreLaws]: what every store promises its clients.
    - [MemStore]: [src/runtime/eventstore/memory.go] and the proof that it satisfies those laws.
      Record normalisation is not in this repository: it is the class [EventCodec].
    - [Operation]: operation references, values and errors.
    - [Workflow], [WorkflowRun]: [Spec.Validate] of [src/core/workflow/workflow.go] and the runner.
      Step callbacks are arbitrary functions of the history. The outer loop has fuel: the number of
      steps plus one, which [workflow_run_terminates] shows to be enough.
    - [Graph]: depth-first search and paths, shared by the two validations.
    - [Task]: [src/core/task/task.go] and [events.go]: data, statuses, [Task.Validate] with its
      depth-first search (fuel: the number of nodes plus one, enough by [task_validate_exact]).
    - [TaskProject]: [src/runtime/task/projector.go]: [Apply] for every event, [Project], the ready
      and terminal tests and the cancellation of dependents (its loop ends by itself;
      [cancel_waiting_exact] shows that the fuel is enough).
    - [Prog]: programs over a shared event store as trees of calls (appends of one stream and of
      batches of streams), their interleavings ([pool_step]),
      and the rely-guarantee logic [wp] with its soundness theorem [wp_pool].
    - [TaskStore]: [src/runtime/task/store.go] as such programs, with their [wp] rules.
    - [SchedLocal]: what a scheduler keeps in memory under its mutex: pools, reservations, cursors.
    - [Completion]: the pure functions between a worker's result and the completion of a task.
    - [WorkerText]: prompts and evidence texts.
    - [Scheduler]: the methods of a scheduler that write to task streams, as programs. Clocks, fresh
      identifiers, mutex sections, workers and publishers are effects ([SchedEff]) whose answers are
      only constrained by [sched_responds].
    - [Service]: the entry points: [Start], [Tick], [SubmitTask], [NotifyTaskReady], [Status].
    - [TaskOps]: [src/contrib/task/plugin.go]: what users and agents do to tasks (create, modify with
      fourteen kinds of modification, review, run, validate), as programs over the same store. The
      search for a free artifact identifier has fuel, and says so when it runs out.
    - [Edits]: the abstract specification of the events a modification may write ([edit]); every
      modification meets it ([modification_edits]); the two completion tests of the repository agree.
    - [Protocol]: the abstract specification of a task stream, as the batches of events that may be
      appended in each projected state ([allowed]); every program of [Scheduler] and [Service] obeys
      it ([obeys_RunTask] and its neighbours, by the tactic [obey]); invariants of allowed batches.
    - [Pool]: any number of schedulers making any calls at the same time; the safety theorems.
    - [SystemSpec]: the protocol extended by the batches of users, and what these preserve and undo.
    - [System]: users and schedulers on one store; the theorems of [Pool] for the whole system.
    - [Stranding]: states in which no scheduler will touch a ready or running task again, and the two
      modifications that lead there.

    - [Thread], [ThreadViews], [ThreadIndex], [ThreadStore], [ThreadSystem], [Threads]: threads with
      branches over the same store ([src/core/thread], [src/runtime/thread]): the projection of a
      stream and the windows of its branches, the index of threads, the operations as programs, their
      protocol and [wp] rules, and the theorems for any number of clients. The walk over the parents
      of a branch has fuel: [branch_fuel] is enough on every stream the store writes, and no fuel is
      on others ([self_parent_diverges]).
    - [Conversation], [Continuity], [Compaction], [Exchanges], [Projection]: transcripts of model
      providers on top of threads ([src/core/conversation], [src/runtime/conversation]): validation of
      tool calls and results, projection of a branch, and compaction. The loop over groups has the
      length of the transcript as fuel; every turn moves on ([group_shape]).
    - [OpModel], [NamedInstance], [Authorization], [Safety], [Executor], [Instances], [Guarded],
      [Authority]: the operation runtime ([src/runtime/operation]): access evaluation and
      authorization, the safety envelope, the executor, named instances. What a call does outside the
      runtime (authorizers, gates, approvers, handlers, event sinks) is written to a log ([Audit]), on
      which theorems are proved with the rules of [post]. [OpDemo] of [Executor] has concrete collaborators.
    - [Goal], [GoalOps], [GoalRaces]: goals of threads and their reviews ([src/core/goal],
      [src/core/review], [src/runtime/goal], [src/contrib/goal]): the projected state, the command and
      the decision of a reviewer as programs over the thread store, and what happens when two of them
      meet.
    - [StateLogic]: functions of a state, triples on them ([triple]) and what they may do to the state
      ([moves]); the turn of a session is written and verified with it.
    - [AgentModel], [SessionData], [StopCondition], [SessionItems]: agents
      ([src/core/agent]), inbound envelopes ([src/core/channel]), stop conditions
      ([src/orchestration/sessioncontrol]), transcript items of a session and the check of requested
      operations.
    - [SessionTurn], [SessionLoop]: an inbound message from its arrival to its result
      ([executeInboundInput] of [src/orchestration/session/session.go]): the event sink, the
      transcript, the operations of a step, the inner loop over steps, the outer loop over
      continuations. The agent, operations, the thread store, environment phases, reactions, the
      context materializer, evaluator and reviewer are arbitrary functions of the log of calls.
    - [SessionInvariant], [SessionBounds], [SessionGate]: what a turn writes and shows, that it ends,
      and which operations it runs; [SessionDemo] of [SessionGate] has a concrete session.
    - [ModelTools], [Assembler]: tools and tool sets ([src/core/tool], [src/core/invocation])
      and what model adapters share ([src/adapters/llm]): the assembler that makes requests of streamed
      tool calls, and the redactor of streams.
    - [Sse], [ModelStream], [Streaming], [ModelReplay], [ReplayTurns]: a provider of
      messages ([src/adapters/llm/anthropicmessages]), from the bytes of an answer to the response, whole
      and streamed, and from a transcript to the messages of a request. Its JSON is a class of parameters.
    - [Usage]: usage records, prices, costs and the tracker ([src/core/usage], [src/runtime/usage],
      [src/core/llm/pricing.go]). Quantities are binary64 numbers ([SpecFloat]).
    - [LLMAgent], [ModelRequests]: the step of an agent on any model ([src/runtime/agent/llmagent]);
      [ModelDemo] of [ModelRequests] has a concrete message, transcript and agent.
    - [Resource], [Resolution]: identities of resources, the references they match, the index and the
      resolver with its memory ([src/core/resource]), whose sections interleave ([client_step]).
    - [ToolProjection], [ProjectedTools]: catalogs of operations and their resolution in a
      session, the projector ([src/orchestration/toolprojection]), the catalogs of an application
      ([src/orchestration/appresources]), and the way from a catalog through the tools of a model and
      its streamed calls back to the operation a session runs; [CatalogDemo] of [ProjectedTools] has a concrete application.
      A step runs the operations of the session's surface first, then those of the catalog, and those of
      the registry only when there is no catalog ([operation_to_run]).
    - [Materializer], [ContextView]: the context materializer ([src/runtime/context]), which renders the
      blocks of providers and shows a model what differs from the last render; [ContextDemo] has providers
      that change, fail and keep still. Fingerprints of blocks are a class of parameters ([ContextModule]).
    - [Skill], [SkillReplay]: skills of a session ([src/runtime/skill], the operation of
      [src/contrib/skills]), the events they emit and their replay
      ([src/orchestration/sessionenv/reactions.go]); [SkillDemo] has a concrete repository.
    - [Surface], [SurfaceModel]: the events of a surface and their read model ([src/core/activation]), and
      the state of what is active in a turn ([ActiveState] of [src/orchestration/sessionenv/reactions.go]).
      References to operations are a class ([RefModule]), because they carry versions there.
    - [SurfaceSession], [SurfaceUse]: preparing a surface and using it ([activation.go] and
      [surface_tools.go] of [src/orchestration/session]): terms, the resources they mean, what becomes
      active, the tools of a turn; [SurfaceDemo] has a concrete session.
    - [Command], [SessionCommands], [CommandDispatch]: commands ([src/core/command]): how a line is read
      and printed and arguments are bound to typed inputs; which command of a session a line means, the
      built-in ones included ([available_commands.go] and [session.go] of [src/orchestration/session],
      [src/orchestration/sessioncontrol]); and their execution, as that of direct operations
      ([ExecuteInboundCommand], [ExecuteInboundOperation]). [CommandDemo] has a concrete session.

    ** What the theorems show

    - Users and schedulers: every stream refines the abstract specification ([system_refines_spec]);
      the task of every stream stays valid ([system_tasks_valid]); claims exclude each other
      ([system_claims_separated]) and results are final ([system_result_final]) but for what a user
      undoes; a modification is atomic ([modify_atomic]).
    - Schedulers among themselves: the schedulers refine the protocol under every interleaving
      ([scheduler_refines_protocol]); claims of a task exclude each other ([claims_separated]); a step
      of an execution gets at most one result ([step_result_once]); the retry loop is linearizable
      ([retry_linearizes]); tasks that were not released are left alone ([idle_task_untouched]).
    - Stores: batches are atomic, sequences contiguous, concurrent writers conflict
      ([memory_batch_atomic], [memory_store_invariant], [memory_compare_and_swap]); creation is
      exclusive ([task_create_exclusive]); listings are the latest entries ([task_list_latest]).
    - Workflows: the trace of a run respects the graph ([workflow_run_trace]); a run terminates and
      succeeds exactly on acyclic graphs when nothing fails ([workflow_succeeds_iff_acyclic]).
    - Task state: validation is exact, projected states are well formed, events touch only what they
      name, a valid task never deadlocks silently, cancellation is exact and drains the graph.
    - Threads, as long as clients append only events of their own: a branch shows what an eager copy would
      hold ([branch_views_exact]); index and streams agree under every interleaving ([threads_consistent]); a successful append can be read
      ([append_reads_back]); archiving is effective once ([archive_once]); the two listings agree.
    - Conversations: a transcript is accepted exactly when calls and results match by position
      ([continuity_exact]); a projection is what was written since the last compaction
      ([projection_exact], [written_items_project]); compaction keeps instructions and recent items
      ([omission_keeps]) and complete exchanges ([compaction_continuous]), but not others
      ([compaction_splits_exchange]).
    - Operations: no handler runs unless every applicable check has passed before in the same call
      ([no_unguarded_run]); the lifecycle events enclose the run ([execution_lifecycle]);
      authorization is exact ([authorize_exact]), filters by instance are ([filtered_instances_exact]),
      and what wrappers leave unchecked is stated as such ([wrapped_operation_unchecked]).
    - Sessions: whatever a turn meets, its conversation stays well paired after every append
      ([turn_keeps_conversation]) as long as operations do not write to it ([noisy_operation] shows
      why); every input is answered within the limits of its policy ([turn_ends]); operations of
      the agent run only when projected, and with a thread after they are recorded ([operations_gated]); requested operations are
      exactly the open tool calls ([requests_exact]), and their results complete the transcript
      ([results_close_calls]); a tree of stop conditions is its formula ([stop_condition_formula]).
    - Goals: a projection is the last goal set as later events left it ([goal_projection_exact]); a
      command does what it says ([goal_command_effect]); a review overrides a concurrent command
      ([cleared_goal_revived]) and misses goals of branches ([review_misses_branch]).
    - Models: a message gives the same response streamed in interleaved pieces and whole
      ([streaming_exact]), frames are read back ([sse_roundtrip]), requests are made of the pieces of their
      own calls ([assembler_exact]) for operations that were projected ([requests_projected]); what a
      session sees of a stream is exact ([exposed_exact]); replayed calls are answered at once
      ([replay_answered]), with all of the transcript in order; a session accepts what an agent decides on exactly when no two calls share an
      id ([step_accepted]); usage adds up ([tracker_exact]).
    - Resources: the memory of a resolver never changes an answer while the index stays
      ([resolver_transparent]); derived addresses find what they name ([derived_resolvable]), unless a
      name has a colon ([colon_name_unreachable]); a catalog resolves to the one best match whatever its
      order ([catalog_resolution_exact]) and has exactly what was contributed
      ([collected_operations_exact]); what a model's calls run was checked by the projection
      ([projected_requests_checked]) when names are not shared, and need not be otherwise
      ([scope_confusion]); an activated operation of an instance the policy excludes is described to a model,
      and none of its calls runs ([described_never_runs]).
    - Contexts: the differences a model is shown add up to exactly the active blocks
      ([context_view_exact]); what it is not told is stated as such ([retired_provider_kept],
      [compaction_forgets_context]).
    - Skills: the events of a session restore its skills, replayed once or again ([skills_restored]);
      blocks of references may collide ([reference_blocks_collide]), and a skill that left the repository
      fails the replay ([removed_skill_fails]).
    - Surfaces: the read model lists exactly what was prepared and has not expired
      ([surface_model_exact]), nothing of a run outlives it there ([run_surface_gone]); a preparation
      lists exactly the selected resources its terms resolve to, and activates them and all of its sets
      ([prepare_exact]); the next input
      starts with it unless it was for a run ([preparation_survives]); tools of a turn are new ones ([turn_tools_new]). Lifetimes
      are not all kept ([session_surface_lost], [turn_surface_stays]), nor are refusals
      ([refused_becomes_active]).
    - Commands: the invocations a line can stand for are known, and each has a line that is read as it
      ([slash_lines_exact]); a line means the longest known path and its remaining words are arguments
      ([command_line_exact]); typed inputs are bound exactly as their tags say ([bind_exact]); what a
      command runs was admitted by the policy before ([commands_gated]), and every command is answered
      ([command_ends]). Some commands offered cannot be run ([offered_unreachable]), one that runs an
      operation loses its arguments ([arguments_dropped]), prompts refuse typed inputs ([typed_prompt_fails]), a path and its
      text may differ ([path_text_confused]), and a flag takes the word that follows ([flag_takes_word]).
    - Scheduler: limits are respected, profiles rotate fairly, recovery and completion tests are
      exact, a finalizer round completes a task whose outputs have identifiers.

    ** Bounds and fuel

    Counters and lengths are [Z] or [nat]: the modelled code only increments and compares lengths of
    slices and attempt numbers, far from 2^63. Times are nanoseconds in [Z], zero being the zero time.
    [RunTask] and [Start] have
    fuel because nothing bounds their loops when other writers interfere: their theorems are
    safety theorems and hold for every fuel; what one round achieves is stated in [Completion].
    The outer loop of a session's input has fuel: one more than the continuations allowed is enough
    ([turn_ends], for stores that answer with streams the store writes).
    The loops of the streamed body ([stream_loop]) and of the transcript ([messagesFromTranscript]) have the
    size of the body and the number of items as fuel, which [stream_ends] and [messages_total] show to be
    enough.

    ** What is not modelled

    Of the model providers the other adapters, HTTP and what a request says besides its messages.
    Adapters (storage drivers, channels, user interfaces), command-line programs,
    plugins and the remaining packages: they are listed in the project's manifest with the
    reason. Of sessions: reactions and environment phases (their answers are given), compaction
    after the result of an input, and triggers. Of commands the handlers of built-in ones, runs of
    workflows, sessions of agents, templates and the security context are given by their answers or are
    parameters. The loop of [SessionTurn] takes
    the context, the tools and what is active as answers; the files on contexts, skills and surfaces say
    what these answers are, without being called by it. Of surfaces the texts shown to models, the
    providers of schemas, the planning of reactions and the JSON of payloads are left out. Contexts are modelled by the answers of [ctx.Err] and of the calls they are passed to;
    texts rendered for models ([ModelText]) are left out, except the prompts of [WorkerText]. *)

From stdpp Require Export base tactics list gmap strings pretty fin_maps.
From Stdlib Require Export ZArith Lia.
From Stdlib Require Export Ascii.

#[global] Open Scope Z_scope.
#[global] Open Scope nat_scope.
#[global] Open Scope list_scope.

(** ** Scope and notations of the development *)

Declare Scope go_scope.
Delimit Scope go_scope with go.
#[global] Open Scope go_scope.

(** ** Results: Go's [(value, error)] pairs *)

Inductive Result (E A : Type) : Type :=
| Ok (a : A)
| Err (e : E).
Arguments Ok {E A} a.
Arguments Err {E A} e.

Definition res_bind {E A B} (r : Result E A) (k : A -> Result E B) : Result E B :=
  match r with
  | Ok a => k a
  | Err e => Err e
  end.

(** [let? x := r in k] is the early return [if err != nil { return err }]. *)
Notation "'let?' x ':=' r 'in' k" := (res_bind r (fun x => k))
  (at level 10, x pattern, r at level 100, k at level 200) : go_scope.

Definition is_ok {E A} (r : Result E A) : bool :=
  match r with Ok _ => true | Err _ => false end.

#[global] Instance Result_eq_dec {E A} `{EqDecision E, EqDecision A} : EqDecision (Result E A).
Proof. solve_decision. Defined.

(** [injection] computes in the type of a value; this does not. *)
Lemma Ok_inj {E A} (x y : A) : Ok (E := E) x = Ok y -> x = y.
Proof. by intros [= ->]. Qed.

Lemma res_bind_ok {E A B} (r : Result E A) (k : A -> Result E B) b :
  res_bind r k = Ok b <-> exists a, r = Ok a /\ k a = Ok b.
Proof.
  destruct r as [a|e]; simpl; split.
  - intros H. by exists a.
  - by intros (a' & [= ->] & H).
  - done.
  - by intros (a' & [=] & _).
Qed.

Lemma res_bind_err {E A B} (r : Result E A) (k : A -> Result E B) e :
  res_bind r k = Err e <-> r = Err e \/ exists a, r = Ok a /\ k a = Err e.
Proof.
  destruct r as [a|e']; simpl; split.
  - intros H. right. by exists a.
  - by intros [[=]|(a' & [= ->] & H)].
  - intros [= ->]. by left.
  - by intros [[= ->]|(a' & [=] & _)].
Qed.

(** ** Record update

    Go code assigns one field of a copied struct at a time; [r <| f := v |>] is that assignment.
    A record type declares how it is rebuilt from its fields once ([Rebuild]); the setter of a
    field is found by abstracting that field in the rebuilding term. *)

Class Rebuild (R : Type) : Type := rebuild : R -> R.
Class FieldSetter {R T : Type} (proj : R -> T) : Type := update_field : (T -> T) -> R -> R.

Ltac solve_field_setter :=
  match goal with
  | |- @FieldSetter ?R ?T ?proj =>
      let inst := constr:(_ : Rebuild R) in
      let body := eval hnf in inst in
      let pat := eval pattern proj in body in
      match pat with
      | ?mk proj => exact (fun (upd : T -> T) (r : R) => mk (fun r' : R => upd (proj r')) r)
      end
  end.
#[global] Hint Extern 1 (FieldSetter _) => solve_field_setter : typeclass_instances.

Notation "r '<|' f ':=' v '|>'" := (update_field (proj := f) (fun _ => v) r)
  (at level 1, left associativity, f at level 0, v at level 200) : go_scope.
Arguments update_field {R T} proj {_} _ _ /.

(** ** Time

    [time.Time] as nanoseconds since the zero instant; the zero [time.Time] is [0]. *)

Abbreviation Time := Z.
Definition time_IsZero (t : Time) : bool := (t =? 0)%Z.
(** [t.After(u)]. *)
Definition time_After (t u : Time) : bool := (u <? t)%Z.
Definition time_Add (t d : Time) : Time := (t + d)%Z.

(** ** Go strings: byte strings

    [strings.TrimSpace] trims [unicode.IsSpace] runes: the six ASCII ones and the UTF-8 encodings
    of U+0085, U+00A0, U+1680, U+2000..U+200A, U+2028, U+2029, U+202F, U+205F and U+3000. *)

Definition byte_is (c : ascii) (n : nat) : bool := Nat.eqb (nat_of_ascii c) n.
Definition is_space1 (c : ascii) : bool :=
  let n := nat_of_ascii c in ((9 <=? n) && (n <=? 13)) || (n =? 32).
Definition is_space2 (c1 c2 : ascii) : bool :=
  byte_is c1 194 && (byte_is c2 133 || byte_is c2 160).
Definition is_space3 (c1 c2 c3 : ascii) : bool :=
  let n := nat_of_ascii c3 in
  (byte_is c1 225 && byte_is c2 154 && byte_is c3 128)
  || (byte_is c1 226 && byte_is c2 128 &&
        (((128 <=? n) && (n <=? 138)) || byte_is c3 168 || byte_is c3 169 || byte_is c3 175))
  || (byte_is c1 226 && byte_is c2 129 && byte_is c3 159)
  || (byte_is c1 227 && byte_is c2 128 && byte_is c3 128).

Fixpoint trim_left (l : list ascii) : list ascii :=
  match l with
  | [] => []
  | c1 :: l1 =>
      if is_space1 c1 then trim_left l1 else
      match l1 with
      | [] => l
      | c2 :: l2 =>
          if is_space2 c1 c2 then trim_left l2 else
          match l2 with
          | [] => l
          | c3 :: l3 => if is_space3 c1 c2 c3 then trim_left l3 else l
          end
      end
  end.

(** The same on a reversed byte list, where the encodings appear backwards. *)
Fixpoint trim_left_rev (l : list ascii) : list ascii :=
  match l with
  | [] => []
  | c1 :: l1 =>
      if is_space1 c1 then trim_left_rev l1 else
      match l1 with
      | [] => l
      | c2 :: l2 =>
          if is_space2 c2 c1 then trim_left_rev l2 else
          match l2 with
          | [] => l
          | c3 :: l3 => if is_space3 c3 c2 c1 then trim_left_rev l3 else l
          end
      end
  end.

Definition TrimSpace (s : string) : string :=
  String.string_of_list_ascii (rev (trim_left_rev (rev (trim_left (String.list_ascii_of_string s))))).

(** [strings.TrimSpace(s) == ""]. *)
Definition blank (s : string) : bool := bool_decide (TrimSpace s = EmptyString).

(** [strings.Join]. *)
Fixpoint Join (parts : list string) (sep : string) : string :=
  match parts with
  | [] => EmptyString
  | [p] => p
  | p :: ps => (p ++ sep ++ Join ps sep)%string
  end.

(** [strings.HasPrefix], [strings.TrimPrefix] and [strings.Cut] on one separator byte. *)
Definition HasPrefix (s p : string) : bool := String.prefix p s.
Definition TrimPrefix (s p : string) : string :=
  if String.prefix p s then String.substring (String.length p) (String.length s - String.length p) s else s.

(** [strings.Split(s, sep)] for a separator of one byte: never empty. *)
Fixpoint Split (s : string) (sep : ascii) : list string :=
  match s with
  | String.EmptyString => [EmptyString]
  | String.String c s' =>
      if Ascii.eqb c sep then EmptyString :: Split s' sep
      else match Split s' sep with
           | [] => [String.String c EmptyString]
           | p :: ps => String.String c p :: ps
           end
  end.

(** The zero value is returned by a read of an absent map key: [m !!! k] with the type's
    [Inhabited] instance set to its zero value. *)


Definition is_empty_string (s : string) : bool := bool_decide (s = EmptyString).
Abbreviation emp := EmptyString.

(** [first(a, b)]: the first non-empty of two strings. *)
Definition first_nonzero (a b : string) : string :=
  if decide (a = EmptyString) then b else a.

(** ** Generic lemmas on lists *)

Lemma nodup_fmap_inj {A B} (f : A -> B) (l : list A) x y :
  NoDup (f <$> l) -> x ∈ l -> y ∈ l -> f x = f y -> x = y.
Proof.
  induction l as [|a l IH]; simpl; [by intros _ ?%not_elem_of_nil|].
  intros [Hnin Hnd]%NoDup_cons Hx Hy Hf.
  apply elem_of_cons in Hx as [->|Hx]; apply elem_of_cons in Hy as [->|Hy]; auto.
  - exfalso. apply Hnin. rewrite Hf. by apply list_elem_of_fmap_2.
  - exfalso. apply Hnin. rewrite <- Hf. by apply list_elem_of_fmap_2.
Qed.

Lemma elem_of_flat_map {A B} (f : A -> list B) (l : list A) b :
  b ∈ flat_map f l <-> exists a, a ∈ l /\ b ∈ f a.
Proof.
  rewrite list_elem_of_In, in_flat_map.
  split; intros (a & ? & ?); exists a; by rewrite ?list_elem_of_In in *.
Qed.

Lemma lookup_take_snoc {A} (l : list A) (x : A) : (l ++ [x]) !! length l = Some x.
Proof. by rewrite lookup_app_r, Nat.sub_diag by lia. Qed.

(** [strings.TrimSuffix] and [strings.Trim(s, cutset)] for a cutset of one byte. *)
Definition HasSuffix (s suf : string) : bool :=
  let n := String.length s in let k := String.length suf in
  (k <=? n) && bool_decide (String.substring (n - k) k s = suf).
Definition TrimSuffix (s suf : string) : string :=
  if HasSuffix s suf then String.substring 0 (String.length s - String.length suf) s else s.
Fixpoint drop_byte (c : ascii) (l : list ascii) : list ascii :=
  match l with
  | [] => []
  | c' :: l' => if Ascii.eqb c c' then drop_byte c l' else l
  end.
Definition TrimByte (s : string) (c : ascii) : string :=
  String.string_of_list_ascii (rev (drop_byte c (rev (drop_byte c (String.list_ascii_of_string s))))).

(** [strconv.Quote], as used by the verb [%q] in error texts. *)
Class GoFmt := { Quote : string -> string }.

(** Concatenation of strings. *)
Lemma append_assoc (a b c : string) : ((a ++ b) ++ c)%string = (a ++ b ++ c)%string.
Proof. induction a as [|x a IH]; [done|]. change (String x ((a ++ b) ++ c) = String x (a ++ b ++ c))%string. by rewrite IH. Qed.
Lemma append_nil_r (a : string) : (a ++ emp)%string = a.
Proof. induction a as [|x a IH]; [done|]. change (String x (a ++ emp) = String x a)%string. by rewrite IH. Qed.

(** [n = size X] for the set of the elements of a list without repetition. *)
Lemma size_list_to_set_nodup (l : list string) :
  NoDup l -> size (list_to_set l : gset string) = length l.
Proof. intros. by rewrite size_list_to_set. Qed.

(** Two lists of the same length, one without repetition and contained in the other, have the same
    elements. *)
Lemma nodup_incl_length {A} (l k : list A) :
  NoDup l -> l ⊆ k -> length l <= length k.
Proof.
  intros Hnd Hsub. apply submseteq_length, NoDup_submseteq; [done|]. intros x Hx. by apply Hsub.
Qed.

Lemma nodup_incl_full {A} (l k : list A) :
  NoDup l -> l ⊆ k -> length k <= length l -> k ⊆ l.
Proof.
  intros Hnd Hsub Hlen x Hx. assert (l ⊆+ k) as Hm.
  { apply NoDup_submseteq; [done|]. intros y Hy. by apply Hsub. }
  by rewrite (submseteq_length_Permutation _ _ Hm Hlen).
Qed.

(** A filter that keeps no more than another one, and drops at least one element it keeps, is
    shorter. *)
Lemma filter_length_le {A} (P Q : A -> Prop) `{forall x, Decision (P x), forall x, Decision (Q x)} (l : list A) :
  (forall x, x ∈ l -> P x -> Q x) -> length (filter P l) <= length (filter Q l).
Proof.
  induction l as [|x l IH]; intros Hpq; [done|]. rewrite !filter_cons.
  assert (length (filter P l) <= length (filter Q l)) by (apply IH; set_solver).
  destruct (decide (P x)) as [HP|]; [rewrite decide_True by (apply Hpq; [by left|done])|case_decide];
    simpl; lia.
Qed.

Lemma filter_length_lt {A} (P Q : A -> Prop) `{forall x, Decision (P x), forall x, Decision (Q x)} (l : list A) y :
  (forall x, x ∈ l -> P x -> Q x) -> y ∈ l -> Q y -> ~ P y -> length (filter P l) < length (filter Q l).
Proof.
  intros Hpq Hy HQ HP. apply list_elem_of_split in Hy as (l1 & l2 & ->).
  rewrite !filter_app, !filter_cons, !length_app, decide_False, decide_True by done. simpl.
  pose proof (filter_length_le P Q l1 ltac:(set_solver)).
  pose proof (filter_length_le P Q l2 ltac:(set_solver)). lia.
Qed.

(** Two different members of a list stand one after the other. *)
Lemma two_elements {A} (l : list A) x y :
  x ∈ l -> y ∈ l -> x <> y ->
  exists l1 a l2 b l3, l = l1 ++ a :: l2 ++ b :: l3 /\ ((a = x /\ b = y) \/ (a = y /\ b = x)).
Proof.
  intros (l1 & l2 & ->)%list_elem_of_split Hy Hne.
  apply elem_of_app in Hy as [(l3 & l4 & ->)%list_elem_of_split|[->|(l3 & l4 & ->)%list_elem_of_split]%elem_of_cons].
  - exists l3, y, l4, x, l2. rewrite <- app_assoc. auto.
  - done.
  - exists l1, x, l3, y, l4. auto.
Qed.
