(* ===== verification/Event.v ===== *)
(** * Event records and the event-store interface

    [event.Record], [event.StoredRecord], the append and load options and [event.Store] belong to
    the module fluxplane-event; the code under src/ builds them with literals and reads their
    fields. This file declares those data with the fields the code uses, and the two interfaces the
    rest of the development is written against: [EventCodec] (package eventcodec) and [EventStore]
    (interface event.Store) with the laws its clients rely on. *)

From S2P Require Import Prelude.

(** ** Records *)

Record Scope := mkScope { scope_ThreadID : string; scope_TurnID : string; scope_OperationID : string }.
#[global] Instance Scope_eq_dec : EqDecision Scope.
Proof. solve_decision. Defined.
Definition zero_Scope : Scope := mkScope emp emp emp.

Section Records.
Context {P : Type}.

Record EventRecord := mkRecord {
  rec_ID : string;
  rec_Name : string;
  rec_Time : Time;
  rec_Scope : Scope;
  rec_Payload : P;
  rec_Attributes : gmap string string
}.

Record StoredRecord := mkStored {
  st_Stream : string;
  st_Sequence : Z;
  st_Record : EventRecord
}.
End Records.
Arguments EventRecord : clear implicits.
Arguments StoredRecord : clear implicits.
#[global] Instance rebuild_EventRecord {P} : Rebuild (EventRecord P) := fun r =>
  mkRecord r.(rec_ID) r.(rec_Name) r.(rec_Time) r.(rec_Scope) r.(rec_Payload) r.(rec_Attributes).

(** ** Options, requests and errors *)

Record AppendOptions := mkAppendOptions { CheckExpectedSequence : bool; ExpectedSequence : Z }.
(** [event.AppendOptions{}] and [event.ExpectSequence(n)]. *)
Definition zero_AppendOptions : AppendOptions := mkAppendOptions false 0.
Definition ExpectSequence (n : Z) : AppendOptions := mkAppendOptions true n.

Record AppendRequest (P : Type) := mkRequest {
  req_Stream : string; req_Options : AppendOptions; req_Records : list (EventRecord P) }.
Record AppendResult (P : Type) := mkResult {
  res_Stream : string; res_Records : list (StoredRecord P) }.
Arguments mkRequest {P}. Arguments req_Stream {P}. Arguments req_Options {P}. Arguments req_Records {P}.
Arguments mkResult {P}. Arguments res_Stream {P}. Arguments res_Records {P}.

Inductive Direction := DirectionForward | DirectionBackward.
Record LoadOptions := mkLoadOptions {
  lo_After : Z; lo_Before : Z; lo_Direction : Direction; lo_Limit : Z }.
(** [event.LoadOptions{}]. *)
Definition zero_LoadOptions : LoadOptions := mkLoadOptions 0 0 DirectionForward 0.

Inductive StoreError :=
| ErrCtx (msg : string)
| ErrStreamEmpty
| ErrDuplicateStream (stream : string)
| ErrAppendConflict (stream : string) (expected actual : Z)
| ErrDuplicateRecord (stream id : string)
| ErrNormalize (msg : string).
#[global] Instance StoreError_eq_dec : EqDecision StoreError.
Proof. solve_decision. Defined.

(** [errors.Is(err, event.ErrAppendConflict)] and [errors.Is(err, event.ErrDuplicateRecord)]. *)
Definition is_append_conflict (e : StoreError) : bool :=
  match e with ErrAppendConflict _ _ _ => true | _ => false end.
Definition is_duplicate_record (e : StoreError) : bool :=
  match e with ErrDuplicateRecord _ _ => true | _ => false end.

(** What one call to a store reads from its surroundings: [ctx.Err()], [time.Now()] and the random
    text drawn for its [i]-th record. *)
Abbreviation Ctx := (option string).
Record CallEnv := mkEnv { ce_ctx : Ctx; ce_now : Time; ce_rand : nat -> string }.

(** ** Package eventcodec *)

Class EventCodec (P : Type) := {
  NormalizeRecord : string -> EventRecord P -> Time -> Result string (EventRecord P);
  CloneStoredRecords : list (StoredRecord P) -> list (StoredRecord P)
}.

(** Normalizing a record completes the empty identifier, time and name and keeps the rest; cloning
    copies. *)
Class EventCodecLaws (P : Type) `{EventCodec P} : Prop := {
  normalize_payload rnd r now n :
    NormalizeRecord rnd r now = Ok n -> rec_Payload n = rec_Payload r;
  normalize_scope rnd r now n :
    NormalizeRecord rnd r now = Ok n -> rec_Scope n = rec_Scope r;
  normalize_attributes rnd r now n :
    NormalizeRecord rnd r now = Ok n -> rec_Attributes n = rec_Attributes r;
  normalize_time rnd r now n :
    NormalizeRecord rnd r now = Ok n -> rec_Time r <> 0%Z -> rec_Time n = rec_Time r;
  normalize_id rnd r now n :
    NormalizeRecord rnd r now = Ok n -> rec_ID n <> emp;
  clone_records l : CloneStoredRecords l = l
}.

(** ** The interface event.Store *)

Class EventStore (S P : Type) := {
  AppendBatch : CallEnv -> S -> list (AppendRequest P) -> S * Result StoreError (list (AppendResult P));
  Append : CallEnv -> S -> string -> AppendOptions -> list (EventRecord P) ->
           S * Result StoreError (list (StoredRecord P));
  Load : Ctx -> S -> string -> LoadOptions -> Result StoreError (list (StoredRecord P))
}.

(** The records of [results] that belong to stream [st]. *)
Definition records_for {P} (st : string) (results : list (AppendResult P)) : list (StoredRecord P) :=
  flat_map (fun r => if decide (res_Stream r = st) then res_Records r else []) results.

(** A stored record is the normal form of the record it was requested with: same payload, scope and
    attributes. *)
Definition stored_as {P} (r : EventRecord P) (s : StoredRecord P) : Prop :=
  rec_Payload (st_Record s) = rec_Payload r /\
  rec_Scope (st_Record s) = rec_Scope r /\
  rec_Attributes (st_Record s) = rec_Attributes r /\
  (rec_Time r <> 0%Z -> rec_Time (st_Record s) = rec_Time r).

Definition accepts {P} (view : string -> list (StoredRecord P)) (q : AppendRequest P) (a : AppendResult P) : Prop :=
  res_Stream a = req_Stream q /\
  (CheckExpectedSequence (req_Options q) = true ->
     ExpectedSequence (req_Options q) = Z.of_nat (length (view (req_Stream q)))) /\
  Forall2 stored_as (req_Records q) (res_Records a).

(** What clients rely on. [view] is the sequence of records of a stream; [store_ok] is an invariant
    of the store. A batch either changes nothing or appends every request to its own stream, checks
    the expected length of each, and numbers the records of a stream from one. *)
Class EventStoreLaws (S P : Type) `{EventStore S P} := {
  view : S -> string -> list (StoredRecord P);
  store_ok : S -> Prop;
  batch_error env s qs s' e :
    AppendBatch env s qs = (s', Err e) -> s' = s;
  batch_ok env s qs s' rs :
    store_ok s -> AppendBatch env s qs = (s', Ok rs) ->
    store_ok s' /\
    (forall st, view s' st = view s st ++ records_for st rs) /\
    NoDup (req_Stream <$> qs) /\
    Forall2 (accepts (view s)) qs rs;
  batch_conflict env s st opts recs :
    ce_ctx env = None -> st <> emp -> CheckExpectedSequence opts = true ->
    ExpectedSequence opts <> Z.of_nat (length (view s st)) ->
    AppendBatch env s [mkRequest st opts recs] =
      (s, Err (ErrAppendConflict st (ExpectedSequence opts) (Z.of_nat (length (view s st)))));
  append_single env s st opts recs :
    Append env s st opts recs =
      match AppendBatch env s [mkRequest st opts recs] with
      | (s', Err e) => (s', Err e)
      | (s', Ok []) => (s', Ok [])
      | (s', Ok (r :: _)) => (s', Ok (res_Records r))
      end;
  load_all s st : st <> emp -> Load None s st zero_LoadOptions = Ok (view s st);
  load_last s st : st <> emp ->
    Load None s st (mkLoadOptions 0 0 DirectionBackward 1) =
      Ok (match last (view s st) with Some r => [r] | None => [] end);
  load_cancelled s st opts m : Load (Some m) s st opts = Err (ErrCtx m);
  load_empty_name s opts : Load None s emp opts = Err ErrStreamEmpty;
  view_numbered s st i r :
    store_ok s -> view s st !! i = Some r -> st_Sequence r = (Z.of_nat i + 1)%Z
}.

Section Laws.
Context {S P : Type} `{EventStoreLaws S P}.

Lemma append_error env s st opts recs s' e :
  Append env s st opts recs = (s', Err e) -> s' = s.
Proof.
  rewrite append_single.
  destruct (AppendBatch _ _ _) as [s1 [[|r rs]|e1]] eqn:E; intros [=]; subst.
  by eapply batch_error.
Qed.

Lemma append_ok env s st opts recs s' out :
  store_ok s -> Append env s st opts recs = (s', Ok out) ->
  store_ok s' /\
  view s' st = view s st ++ out /\
  (forall st', st' <> st -> view s' st' = view s st') /\
  (CheckExpectedSequence opts = true -> ExpectedSequence opts = Z.of_nat (length (view s st))) /\
  Forall2 stored_as recs out.
Proof.
  intros Hok. rewrite append_single.
  destruct (AppendBatch _ _ _) as [s1 [rs|e1]] eqn:E; [|intros [=]].
  apply batch_ok in E as (Hok' & Hview & _ & Hacc); [|done].
  apply Forall2_cons_inv_l in Hacc as (a & rs' & (Hs & Hexp & Hrec) & Hnil & ->).
  apply Forall2_nil_inv_l in Hnil as ->.
  intros [= <- <-]. cbn in *. split_and!; auto.
  - rewrite Hview; cbn. rewrite Hs, decide_True by done. by rewrite app_nil_r.
  - intros st' Hne. rewrite Hview; cbn. rewrite decide_False by congruence.
    cbn. by rewrite app_nil_r.
Qed.

Lemma append_conflict env s st opts recs :
  ce_ctx env = None -> st <> emp -> CheckExpectedSequence opts = true ->
  ExpectedSequence opts <> Z.of_nat (length (view s st)) ->
  Append env s st opts recs =
    (s, Err (ErrAppendConflict st (ExpectedSequence opts) (Z.of_nat (length (view s st))))).
Proof. intros. rewrite append_single. by rewrite batch_conflict. Qed.

(** The sequence of the last record is the length of the stream. *)
Lemma last_sequence s st r :
  store_ok s -> last (view s st) = Some r -> st_Sequence r = Z.of_nat (length (view s st)).
Proof.
  intros Hok Hl. rewrite last_lookup in Hl.
  pose proof (lookup_lt_Some _ _ _ Hl). apply view_numbered in Hl; [lia|done].
Qed.
End Laws.
