(* ===== verification/MemStore.v ===== *)
(** * The in-memory event store (src/runtime/eventstore/memory.go)

    [MemoryStore] is the append-only store behind every in-process session. Its state is the map of
    streams; [AppendBatch] validates and numbers a whole batch before it writes anything and [Load]
    filters, reverses and truncates one stream. The mutex makes each call one atomic step. *)

From S2P Require Import Prelude Event.

Section MemoryStore.
Context {P : Type} `{EventCodec P}.
Abbreviation Rec := (EventRecord P).
Abbreviation SRec := (StoredRecord P).

(** ** Operations *)

Record MemoryStore := mkMemoryStore { streams : gmap string (list SRec) }.

Definition NewMemoryStore : MemoryStore := mkMemoryStore ∅.

(** [s.streams[stream]]: nil when absent. *)
Definition stream_records (s : MemoryStore) (st : string) : list SRec :=
  default [] (streams s !! st).

(** The loop that collects the record identifiers already stored. *)
Definition note_ids (stream : string) (stored : list SRec) (seen : gmap string string) : gmap string string :=
  fold_left (fun acc r =>
    if decide (rec_ID (st_Record r) = emp) then acc else <[rec_ID (st_Record r) := stream]> acc) stored seen.
Definition collect_ids (m : gmap string (list SRec)) : gmap string string := map_fold note_ids ∅ m.

(** The inner loop over [request.Records]; [i] counts the records of the whole batch, [base] is
    [len(current)] and [acc] is [result.Records]. *)
Fixpoint append_records (env : CallEnv) (stream : string) (base : nat) (recs : list Rec)
    (i : nat) (acc : list SRec) (seenIDs : gmap string string)
    : Result StoreError (list SRec * gmap string string * nat) :=
  match recs with
  | [] => Ok (acc, seenIDs, i)
  | r :: rs =>
      match NormalizeRecord (ce_rand env i) r (ce_now env) with
      | Err m => Err (ErrNormalize m)
      | Ok normalized =>
          match seenIDs !! rec_ID normalized with
          | Some existing => Err (ErrDuplicateRecord existing (rec_ID normalized))
          | None =>
              let stored := mkStored stream (Z.of_nat (base + length acc + 1)) normalized in
              append_records env stream base rs (S i) (acc ++ [stored])
                (<[rec_ID normalized := stream]> seenIDs)
          end
      end
  end.

(** The loop over the requests of a batch. *)
Fixpoint append_requests (env : CallEnv) (s : MemoryStore) (requests : list (AppendRequest P))
    (i : nat) (seenStreams : gset string) (seenIDs : gmap string string) (results : list (AppendResult P))
    : Result StoreError (list (AppendResult P)) :=
  match requests with
  | [] => Ok results
  | q :: qs =>
      let stream := req_Stream q in
      if decide (stream = emp) then Err ErrStreamEmpty
      else if decide (stream ∈ seenStreams) then Err (ErrDuplicateStream stream)
      else
        let current := stream_records s stream in
        let actual := Z.of_nat (length current) in
        if CheckExpectedSequence (req_Options q) && negb (ExpectedSequence (req_Options q) =? actual)%Z
        then Err (ErrAppendConflict stream (ExpectedSequence (req_Options q)) actual)
        else
          match append_records env stream (length current) (req_Records q) i [] seenIDs with
          | Err e => Err e
          | Ok (stored, seenIDs', i') =>
              append_requests env s qs i' ({[stream]} ∪ seenStreams) seenIDs'
                (results ++ [mkResult stream stored])
          end
  end.

(** [s.streams[result.Stream] = append(s.streams[result.Stream], result.Records...)]. *)
Definition commit (s : MemoryStore) (results : list (AppendResult P)) : MemoryStore :=
  fold_left (fun s r =>
    mkMemoryStore (<[res_Stream r := stream_records s (res_Stream r) ++ res_Records r]> (streams s)))
    results s.

Definition cloneAppendResults (results : list (AppendResult P)) : list (AppendResult P) :=
  map (fun r => mkResult (res_Stream r) (CloneStoredRecords (res_Records r))) results.

Definition MemoryStore_AppendBatch (env : CallEnv) (s : MemoryStore) (requests : list (AppendRequest P))
    : MemoryStore * Result StoreError (list (AppendResult P)) :=
  match ce_ctx env with
  | Some m => (s, Err (ErrCtx m))
  | None =>
      match requests with
      | [] => (s, Ok [])
      | _ =>
          match append_requests env s requests 0 ∅ (collect_ids (streams s)) [] with
          | Err e => (s, Err e)
          | Ok results => (commit s results, Ok (cloneAppendResults results))
          end
      end
  end.

Definition MemoryStore_Append (env : CallEnv) (s : MemoryStore) (stream : string) (opts : AppendOptions)
    (records : list Rec) : MemoryStore * Result StoreError (list SRec) :=
  match MemoryStore_AppendBatch env s [mkRequest stream opts records] with
  | (s', Err e) => (s', Err e)
  | (s', Ok []) => (s', Ok [])
  | (s', Ok (r :: _)) => (s', Ok (res_Records r))
  end.

(** The in-place reversal [for i, j := 0, len-1; i < j; i, j = i+1, j-1]. *)
Fixpoint reverse_loop (fuel i j : nat) (l : list SRec) : list SRec :=
  match fuel with
  | O => l
  | S fuel' =>
      if decide (i < j) then
        match l !! i, l !! j with
        | Some a, Some b => reverse_loop fuel' (S i) (pred j) (<[j := a]> (<[i := b]> l))
        | _, _ => l
        end
      else l
  end.

(** The filter of [Load]: [After] and [Before] are exclusive and zero means unbounded. *)
Definition load_keeps (opts : LoadOptions) (r : SRec) : bool :=
  negb ((0 <? lo_After opts)%Z && (st_Sequence r <=? lo_After opts)%Z)
  && negb ((0 <? lo_Before opts)%Z && (lo_Before opts <=? st_Sequence r)%Z).

Definition MemoryStore_Load (ctx : Ctx) (s : MemoryStore) (stream : string) (opts : LoadOptions)
    : Result StoreError (list SRec) :=
  match ctx with
  | Some m => Err (ErrCtx m)
  | None =>
      if decide (stream = emp) then Err ErrStreamEmpty
      else
        let filtered := List.filter (load_keeps opts) (stream_records s stream) in
        let directed :=
          match lo_Direction opts with
          | DirectionBackward => reverse_loop (length filtered) 0 (pred (length filtered)) filtered
          | DirectionForward => filtered
          end in
        let limited :=
          if ((0 <? lo_Limit opts)%Z && (lo_Limit opts <? Z.of_nat (length directed))%Z)
          then take (Z.to_nat (lo_Limit opts)) directed else directed in
        Ok (CloneStoredRecords limited)
  end.

#[export] Instance MemoryStore_EventStore : EventStore MemoryStore P := {
  AppendBatch := MemoryStore_AppendBatch;
  Append := MemoryStore_Append;
  Load := MemoryStore_Load
}.
End MemoryStore.
Arguments MemoryStore : clear implicits.

(** ** Correctness *)

Section MemoryStoreProofs.
Context {P : Type} `{EventCodecLaws P}.
Abbreviation Rec := (EventRecord P).
Abbreviation SRec := (StoredRecord P).
Abbreviation MStore := (MemoryStore P).
Implicit Types (s : MStore) (st : string) (r : SRec).

Definition record_id (r : SRec) : string := rec_ID (st_Record r).
Definition all_records (rs : list (AppendResult P)) : list SRec := flat_map res_Records rs.

(** Records are numbered from one, carry the name of their stream and a non-empty identifier; an
    identifier belongs to one record of the whole store. *)
Definition store_wf (s : MStore) : Prop :=
  (forall st i r, stream_records s st !! i = Some r ->
     st_Sequence r = (Z.of_nat i + 1)%Z /\ st_Stream r = st /\ record_id r <> emp) /\
  (forall st1 st2 r1 r2, r1 ∈ stream_records s st1 -> r2 ∈ stream_records s st2 ->
     record_id r1 = record_id r2 -> r1 = r2).

Lemma note_ids_spec stream stored seen id :
  is_Some (note_ids stream stored seen !! id) <->
  is_Some (seen !! id) \/ (id <> emp /\ id ∈ (record_id <$> stored)).
Proof.
  unfold note_ids. revert seen.
  induction stored as [|r l IH]; intros seen; simpl; [set_solver|].
  rewrite IH. fold (record_id r). destruct (decide (record_id r = emp)) as [E|E].
  - set_solver.
  - destruct (decide (record_id r = id)) as [<-|Hne].
    + rewrite lookup_insert_eq. set_solver.
    + rewrite lookup_insert_ne by done. set_solver.
Qed.

Lemma collect_ids_spec s id :
  is_Some (collect_ids (streams s) !! id) <->
  id <> emp /\ exists st r, r ∈ stream_records s st /\ record_id r = id.
Proof.
  destruct s as [m]. unfold collect_ids, stream_records; cbn.
  apply (map_fold_weak_ind (fun acc m => is_Some (acc !! id) <->
    id <> emp /\ exists st r, r ∈ default [] (m !! st) /\ record_id r = id)).
  - rewrite lookup_empty. split; [by intros [? [=]]|].
    intros (_ & st & r & Hr & _). rewrite lookup_empty in Hr. by apply not_elem_of_nil in Hr.
  - intros st l m' acc Hnone IH. rewrite note_ids_spec, IH. split.
    + intros [(Hne & st' & r & Hr & Hid)|(Hne & Hin)]; (split; [done|]).
      * exists st', r. split; [|done]. rewrite lookup_insert_ne; [done|].
        intros ->. rewrite Hnone in Hr. by apply not_elem_of_nil in Hr.
      * apply list_elem_of_fmap in Hin as (r & -> & Hr).
        exists st, r. by rewrite lookup_insert_eq.
    + intros (Hne & st' & r & Hr & Hid).
      destruct (decide (st = st')) as [<-|Hst].
      * right. split; [done|]. rewrite lookup_insert_eq in Hr; cbn in Hr.
        apply list_elem_of_fmap. eauto.
      * left. split; [done|]. rewrite lookup_insert_ne in Hr by done. eauto.
Qed.

Lemma commit_stream s rs st :
  stream_records (commit s rs) st = stream_records s st ++ records_for st rs.
Proof.
  unfold commit. revert s. induction rs as [|a rs IH]; intros s; simpl.
  - by rewrite app_nil_r.
  - rewrite IH. unfold stream_records at 1; cbn.
    destruct (decide (res_Stream a = st)) as [<-|Hne].
    + rewrite lookup_insert_eq; cbn. by rewrite app_assoc.
    + rewrite lookup_insert_ne by done. done.
Qed.

(** *** The inner loop *)

Lemma append_records_ok env stream base recs i acc seen acc' seen' i' :
  append_records env stream base recs i acc seen = Ok (acc', seen', i') ->
  exists new, acc' = acc ++ new /\
    Forall2 stored_as recs new /\
    (forall k r, new !! k = Some r ->
       st_Sequence r = (Z.of_nat (base + length acc + k) + 1)%Z /\ st_Stream r = stream /\
       record_id r <> emp /\ seen !! record_id r = None) /\
    NoDup (record_id <$> new) /\
    (forall id, is_Some (seen' !! id) <-> is_Some (seen !! id) \/ id ∈ (record_id <$> new)).
Proof.
  revert i acc seen. induction recs as [|r recs IH]; intros i acc seen; simpl.
  - intros [= <- <- <-]. exists []. rewrite app_nil_r. split_and!; auto; [|constructor|set_solver].
    intros k r Hk. by rewrite lookup_nil in Hk.
  - destruct (NormalizeRecord _ _ _) as [n|] eqn:Hn; [|done].
    destruct (seen !! rec_ID n) as [|] eqn:Hseen; [done|].
    intros (new & -> & Hst & Hall & Hnd & Hdom)%IH.
    set (sr := mkStored _ _ n) in *. exists (sr :: new).
    rewrite length_app in Hall; cbn in Hall. split_and!.
    + by rewrite <- app_assoc.
    + constructor; [|done]. split_and!; cbn.
      * by eapply normalize_payload. * by eapply normalize_scope.
      * by eapply normalize_attributes. * intros. by eapply normalize_time.
    + intros [|k] r' Hk; cbn in Hk.
      * injection Hk as <-. cbn. split_and!; [lia|done|by eapply normalize_id|done].
      * apply Hall in Hk as (Hseq & Hstr & Hne & Hnone). split_and!; [|done|done|].
        -- rewrite Hseq. lia.
        -- apply lookup_insert_None in Hnone. tauto.
    + rewrite fmap_cons. apply NoDup_cons. split; [|done].
      intros (r' & Hid & Hr')%list_elem_of_fmap. apply list_elem_of_lookup in Hr' as (k & Hk).
      apply Hall in Hk as (_ & _ & _ & Hnone). rewrite <- Hid in Hnone.
      by rewrite lookup_insert_eq in Hnone.
    + intros id. rewrite Hdom, fmap_cons, elem_of_cons. cbn.
      destruct (decide (rec_ID n = id)) as [<-|Hne].
      * rewrite lookup_insert_eq. unfold record_id at 2; cbn. set_solver.
      * rewrite lookup_insert_ne by done. unfold record_id at 2; cbn. naive_solver.
Qed.

(** *** The outer loop *)

Definition result_ok (s : MStore) (q : AppendRequest P) (a : AppendResult P) : Prop :=
  accepts (stream_records s) q a /\ req_Stream q <> emp /\
  (forall k r, res_Records a !! k = Some r ->
     st_Sequence r = (Z.of_nat (length (stream_records s (req_Stream q)) + k) + 1)%Z /\
     st_Stream r = req_Stream q /\ record_id r <> emp).

Lemma append_requests_ok env s qs i seenS seen results results' :
  append_requests env s qs i seenS seen results = Ok results' ->
  exists new, results' = results ++ new /\
    Forall2 (result_ok s) qs new /\
    NoDup (req_Stream <$> qs) /\
    (forall st, st ∈ (req_Stream <$> qs) -> st ∉ seenS) /\
    NoDup (record_id <$> all_records new) /\
    (forall id, id ∈ (record_id <$> all_records new) -> seen !! id = None).
Proof.
  revert i seenS seen results. induction qs as [|q qs IH]; intros i seenS seen results; simpl.
  - intros [= <-]. exists []. rewrite app_nil_r. split_and!; auto; first [constructor | set_solver].
  - destruct (decide (req_Stream q = emp)) as [|Hne]; [done|].
    destruct (decide (req_Stream q ∈ seenS)) as [|Hnin]; [done|].
    destruct (CheckExpectedSequence _ && _) eqn:Hexp; [done|].
    destruct (append_records _ _ _ _ _ _ _) as [[[stored seen'] i']|] eqn:Hrec; [|done].
    intros (new & -> & Hall & Hnd & Hfresh & Hids & Hnone)%IH.
    apply append_records_ok in Hrec as (recs' & Hst & Hrecs & Hnum & Hndr & Hdom).
    cbn in Hst; subst stored.
    exists (mkResult (req_Stream q) recs' :: new). rewrite <- app_assoc.
    split_and!; [done|..].
    + constructor; [|done]. split_and!; [split_and!|..]; cbn; auto.
      * intros Hc. rewrite Hc in Hexp. cbn in Hexp. apply negb_false_iff, Z.eqb_eq in Hexp. done.
      * intros k r Hk. apply Hnum in Hk as (-> & ? & ? & _). split_and!; auto. cbn. lia.
    + apply NoDup_cons. split; [|done].
      intros Hin%Hfresh. set_solver.
    + intros st [->|Hst]%elem_of_cons; [done|].
      apply Hfresh in Hst. set_solver.
    + cbn. rewrite fmap_app. apply NoDup_app. split_and!; [done| |done].
      intros id Hid Hid'. apply Hnone in Hid'.
      assert (is_Some (seen' !! id)) as [? E] by (apply Hdom; by right). congruence.
    + cbn. rewrite fmap_app. intros id [Hid|Hid]%elem_of_app.
      * apply list_elem_of_fmap in Hid as (r & -> & Hr).
        apply list_elem_of_lookup in Hr as (k & Hk). by apply Hnum in Hk as (_ & _ & _ & ?).
      * apply Hnone in Hid. apply eq_None_not_Some. intros Hs.
        apply eq_None_not_Some in Hid. apply Hid, Hdom. by left.
Qed.

Lemma clone_results rs : cloneAppendResults rs = rs.
Proof.
  unfold cloneAppendResults. induction rs as [|[st l] rs IH]; [done|].
  cbn. by rewrite clone_records, IH.
Qed.

(** What a successful batch did: every property of the new records, before the store is rebuilt. *)
Lemma batch_results env s qs s' rs :
  MemoryStore_AppendBatch env s qs = (s', Ok rs) ->
  s' = commit s rs /\ Forall2 (result_ok s) qs rs /\ NoDup (req_Stream <$> qs) /\
  NoDup (record_id <$> all_records rs) /\
  (forall id, id ∈ (record_id <$> all_records rs) -> collect_ids (streams s) !! id = None).
Proof.
  unfold MemoryStore_AppendBatch. destruct (ce_ctx env); [done|].
  destruct qs as [|q qs].
  { intros [= <- <-]. split_and!; auto; first [constructor | set_solver]. }
  destruct (append_requests _ _ _ _ _ _ _) as [results|] eqn:E; [|done].
  apply append_requests_ok in E as (new & -> & ? & ? & _ & ? & ?).
  intros [= <- <-]. by rewrite clone_results.
Qed.

Lemma elem_records_for rs st r :
  r ∈ records_for st rs <-> exists a, a ∈ rs /\ res_Stream a = st /\ r ∈ res_Records a.
Proof.
  unfold records_for. rewrite elem_of_flat_map. split.
  - intros (a & Ha & Hr). exists a. destruct (decide _); [done|by apply not_elem_of_nil in Hr].
  - intros (a & Ha & <- & Hr). exists a. by rewrite decide_True.
Qed.

Lemma records_for_all rs st r : r ∈ records_for st rs -> r ∈ all_records rs.
Proof.
  rewrite elem_records_for. intros (a & Ha & _ & Hr). apply elem_of_flat_map. eauto.
Qed.

Lemma accepted_streams s qs rs :
  Forall2 (result_ok s) qs rs -> res_Stream <$> rs = req_Stream <$> qs.
Proof. induction 1 as [|q a qs rs [[Hs _] _] _ IH]; [done|]. by rewrite !fmap_cons, IH, Hs. Qed.

(** The position of a new record in its stream, when the streams of a batch are distinct. *)
Lemma records_for_lookup s qs rs st k r :
  Forall2 (result_ok s) qs rs -> NoDup (req_Stream <$> qs) ->
  records_for st rs !! k = Some r ->
  st_Sequence r = (Z.of_nat (length (stream_records s st) + k) + 1)%Z /\
  st_Stream r = st /\ record_id r <> emp.
Proof.
  intros Hall. induction Hall as [|q a qs rs (Hacc & Hne & Hnum) Hall IH]; [done|].
  change (records_for st (a :: rs)) with
    ((if decide (res_Stream a = st) then res_Records a else []) ++ records_for st rs).
  rewrite fmap_cons, NoDup_cons. intros [Hnin Hnd]. destruct Hacc as [Hs _].
  destruct (decide (res_Stream a = st)) as [<-|Hst]; [|by apply IH].
  assert (records_for (res_Stream a) rs = []) as ->.
  { destruct (records_for (res_Stream a) rs) as [|x l] eqn:E; [done|].
    exfalso. apply Hnin. assert (x ∈ records_for (res_Stream a) rs) as Hx by (rewrite E; by left).
    apply elem_records_for in Hx as (a' & Ha' & Hs' & _).
    rewrite <- (accepted_streams _ _ _ Hall), <- Hs, <- Hs'. by apply list_elem_of_fmap_2. }
  rewrite app_nil_r, Hs. apply Hnum.
Qed.

Lemma batch_preserves_wf env s qs s' rs :
  store_wf s -> MemoryStore_AppendBatch env s qs = (s', Ok rs) -> store_wf s'.
Proof.
  intros [Hnum Huniq] (-> & Hall & Hnd & Hids & Hfresh)%batch_results.
  assert (Hnew : forall st1 st2 r1 r2, r1 ∈ stream_records s st1 -> r2 ∈ records_for st2 rs ->
    record_id r1 <> record_id r2).
  { intros st1 st2 r1 r2 Hr1 Hr2 Heq.
    assert (collect_ids (streams s) !! record_id r2 = None) as Hnone.
    { apply Hfresh, list_elem_of_fmap_2. by eapply records_for_all. }
    apply eq_None_not_Some in Hnone. apply Hnone, collect_ids_spec. split; [|eauto].
    apply list_elem_of_lookup in Hr1 as (k & Hk). rewrite <- Heq. by apply Hnum in Hk as (_ & _ & ?). }
  split.
  - intros st i r. rewrite commit_stream. intros [Hi|[Hge Hi]]%lookup_app_Some; [by apply Hnum|].
    eapply records_for_lookup in Hi as (-> & ? & ?); eauto. split_and!; auto. lia.
  - intros st1 st2 r1 r2. rewrite !commit_stream, !elem_of_app.
    intros [H1|H1] [H2|H2] Heq.
    + by eapply Huniq.
    + by exfalso; eapply Hnew.
    + by exfalso; eapply Hnew.
    + eapply nodup_fmap_inj; eauto using records_for_all.
Qed.

Lemma result_ok_accepts s qs rs :
  Forall2 (result_ok s) qs rs -> Forall2 (accepts (stream_records s)) qs rs.
Proof. intros Hall. eapply Forall2_impl; [done|]. by intros q a [? _]. Qed.

(** *** Reversal and loading *)

(** The loop swaps the outside in: with [p] and [q] already exchanged, the middle is reversed. *)
Lemma reverse_loop_middle fuel (p m q : list SRec) :
  length m <= 2 * fuel ->
  reverse_loop fuel (length p) (length p + length m - 1) (p ++ m ++ q) = p ++ rev m ++ q.
Proof.
  revert p m q. induction fuel as [|fuel IH]; intros p m q Hlen.
  { destruct m; [done|cbn in Hlen; lia]. }
  destruct m as [|a m]; cbn -[Nat.sub].
  { destruct (decide _); [lia|done]. }
  destruct m as [|b m _] using rev_ind; cbn -[Nat.sub].
  { destruct (decide _); [lia|done]. }
  rewrite length_app in *; cbn -[Nat.sub] in *.
  destruct (decide _) as [_|]; [|lia].
  replace (length p + S (length m + 1) - 1) with (length p + S (length m)) by lia.
  rewrite !list_lookup_middle by done.
  replace (p ++ a :: (m ++ [b]) ++ q) with ((p ++ a :: m) ++ b :: q) by (by rewrite <- !app_assoc).
  rewrite list_lookup_middle by (rewrite length_app; cbn; lia).
  assert (E : <[length p + S (length m):=a]> (<[length p:=b]> ((p ++ a :: m) ++ b :: q)) =
              (p ++ [b]) ++ m ++ a :: q).
  { rewrite <- !app_assoc; cbn. rewrite insert_app_r_alt by done. rewrite Nat.sub_diag; cbn.
    rewrite insert_app_r_alt by lia.
    replace (length p + S (length m) - length p) with (S (length m)) by lia. simpl.
    rewrite insert_app_r_alt by lia. by rewrite Nat.sub_diag. }
  rewrite E.
  replace (S (length p)) with (length (p ++ [b])) by (rewrite length_app; cbn; lia).
  replace (pred (length p + S (length m))) with (length (p ++ [b]) + length m - 1)
    by (rewrite length_app; cbn; lia).
  rewrite IH by (rewrite length_app in Hlen; cbn in Hlen; lia). rewrite rev_app_distr; cbn. by rewrite <- !app_assoc.
Qed.

Lemma reverse_loop_rev (l : list SRec) : reverse_loop (length l) 0 (pred (length l)) l = rev l.
Proof.
  pose proof (reverse_loop_middle (length l) [] l []) as E. cbn in E.
  rewrite !app_nil_r in E. replace (pred (length l)) with (length l - 1) by lia. apply E; lia.
Qed.

(** [Load] written with list functions. *)
Definition load_spec (opts : LoadOptions) (l : list SRec) : list SRec :=
  let kept := List.filter (load_keeps opts) l in
  let directed := match lo_Direction opts with DirectionBackward => rev kept | DirectionForward => kept end in
  if (0 <? lo_Limit opts)%Z then take (Z.to_nat (lo_Limit opts)) directed else directed.

Lemma load_as_spec s st opts :
  st <> emp -> MemoryStore_Load None s st opts = Ok (load_spec opts (stream_records s st)).
Proof.
  intros Hne. unfold MemoryStore_Load, load_spec. rewrite decide_False by done.
  rewrite clone_records, reverse_loop_rev.
  set (d := match lo_Direction opts with DirectionForward => _ | DirectionBackward => _ end).
  destruct (Z.ltb_spec 0 (lo_Limit opts)); cbn; [|done].
  destruct (Z.ltb_spec (lo_Limit opts) (Z.of_nat (length d))); [done|].
  rewrite take_ge by lia. done.
Qed.

Lemma filter_all (f : SRec -> bool) (l : list SRec) : (forall r, f r = true) -> List.filter f l = l.
Proof. intros Hf. induction l as [|r l IH]; cbn; [done|]. by rewrite Hf, IH. Qed.

Lemma load_backward_one s st : st <> emp ->
  MemoryStore_Load None s st (mkLoadOptions 0 0 DirectionBackward 1) =
    Ok (match last (stream_records s st) with Some r => [r] | None => [] end).
Proof.
  intros Hne. rewrite load_as_spec by done. unfold load_spec; cbn.
  rewrite filter_all by done. induction (stream_records s st) as [|r l _] using rev_ind; [done|].
  rewrite rev_app_distr, last_snoc. done.
Qed.

Lemma batch_conflict_single env s st opts recs :
  ce_ctx env = None -> st <> emp -> CheckExpectedSequence opts = true ->
  ExpectedSequence opts <> Z.of_nat (length (stream_records s st)) ->
  MemoryStore_AppendBatch env s [mkRequest st opts recs] =
    (s, Err (ErrAppendConflict st (ExpectedSequence opts) (Z.of_nat (length (stream_records s st))))).
Proof.
  intros Hctx Hne Hc He. unfold MemoryStore_AppendBatch; cbn. rewrite Hctx.
  rewrite decide_False by done. rewrite decide_False by set_solver.
  apply Z.eqb_neq in He. by rewrite Hc, He.
Qed.

#[export] Program Instance MemoryStore_laws : EventStoreLaws (MemoryStore P) P := {
  view := stream_records;
  store_ok := store_wf
}.
Next Obligation.
  intros env s qs s' e. cbn. unfold MemoryStore_AppendBatch.
  destruct (ce_ctx env); [by intros [= ->]|]. destruct qs; [done|].
  destruct (append_requests _ _ _ _ _ _ _); by intros [= ->].
Qed.
Next Obligation.
  intros env s qs s' rs Hwf Hb. cbn in Hb. pose proof (batch_preserves_wf _ _ _ _ _ Hwf Hb).
  apply batch_results in Hb as (-> & Hall & Hnd & _ & _).
  split_and!; auto using commit_stream, result_ok_accepts.
Qed.
Next Obligation. intros. by apply batch_conflict_single. Qed.
Next Obligation. done. Qed.
Next Obligation.
  intros s st Hne. etransitivity; [by apply load_as_spec|].
  unfold load_spec; cbn. by rewrite filter_all.
Qed.
Next Obligation. intros. by apply load_backward_one. Qed.
Next Obligation. done. Qed.
Next Obligation. done. Qed.
Next Obligation. intros s st i r [Hnum _] Hi. by apply Hnum in Hi as (? & _). Qed.

Lemma new_store_wf : store_wf NewMemoryStore.
Proof.
  unfold store_wf, stream_records; cbn. split.
  - intros st i r. rewrite lookup_empty. by destruct i.
  - intros st1 st2 r1 r2 H1. rewrite lookup_empty in H1. by apply not_elem_of_nil in H1.
Qed.

(** The interface's laws, stated on the operations of this store. *)
Definition memory_error := batch_error (S := MStore) (P := P).
Definition memory_ok := batch_ok (S := MStore) (P := P).
Definition memory_append_ok := append_ok (S := MStore) (P := P).
Definition memory_conflict := append_conflict (S := MStore) (P := P).

(** *** Histories of a store *)

(** Batches applied one after the other, each with its own surroundings. *)
Definition run_batches (s : MStore) (calls : list (CallEnv * list (AppendRequest P))) : MStore :=
  fold_left (fun s '(env, qs) => fst (MemoryStore_AppendBatch env s qs)) calls s.

Lemma run_batches_wf s calls : store_wf s -> store_wf (run_batches s calls).
Proof.
  unfold run_batches. revert s. induction calls as [|[env qs] calls IH]; intros s Hwf; [done|]; cbn.
  apply IH. destruct (MemoryStore_AppendBatch env s qs) as [s' [rs|e]] eqn:E; cbn.
  - by eapply batch_preserves_wf.
  - by rewrite (memory_error env s qs s' e E).
Qed.

(** every store obtained from [NewMemoryStore] by any sequence of [AppendBatch] calls, failed
    ones included, is well formed: in each stream the records are numbered 1, 2, 3, ... without a
    gap, each carries the name of its stream and a non-empty identifier, and no identifier is
    shared by two records of the store, whatever their streams. *)
Theorem memory_store_invariant calls : store_wf (run_batches NewMemoryStore calls).
Proof. apply run_batches_wf, new_store_wf. Qed.

(** a batch is atomic. On any error (cancelled context, empty or repeated stream, conflict,
    rejected or duplicate record) the store is exactly the one before the call; on success every
    stream is the old stream followed by the records of its request and nothing else, in order,
    with the payload, scope and attributes they were given; the streams of the batch are
    distinct, and every expected sequence was the length of its stream before the batch. *)
Theorem memory_batch_atomic env s qs :
  store_wf s ->
  match MemoryStore_AppendBatch env s qs with
  | (s', Err _) => s' = s
  | (s', Ok rs) =>
      (forall st, stream_records s' st = stream_records s st ++ records_for st rs) /\
      NoDup (req_Stream <$> qs) /\
      Forall2 (accepts (stream_records s)) qs rs
  end.
Proof.
  intros Hwf. destruct (MemoryStore_AppendBatch env s qs) as [s' [rs|e]] eqn:E.
  - by destruct (memory_ok env s qs s' rs Hwf E) as (_ & ? & ? & ?).
  - by apply (memory_error env s qs s' e).
Qed.

(** optimistic concurrency is a compare-and-swap. When two writers have read the same length of
    a stream and the first one appends at least one record, the second one's append is refused
    with a conflict that reports both lengths, and writes nothing. *)
Theorem memory_compare_and_swap env1 env2 s s1 st n recs1 recs2 out :
  store_wf s -> ce_ctx env2 = None -> st <> emp -> recs1 <> [] ->
  MemoryStore_Append env1 s st (ExpectSequence n) recs1 = (s1, Ok out) ->
  MemoryStore_Append env2 s1 st (ExpectSequence n) recs2 =
    (s1, Err (ErrAppendConflict st n (n + Z.of_nat (length recs1)))).
Proof.
  intros Hwf Hctx Hne Hrec H1.
  destruct (memory_append_ok env1 s st _ _ s1 out Hwf H1)
    as (_ & Hview & _ & Hn & Hall).
  specialize (Hn eq_refl). cbn in Hn, Hview. apply Forall2_length in Hall.
  assert (Hlen : length (stream_records s1 st) = length (stream_records s st) + length recs1)
    by (rewrite Hview, length_app; lia).
  etransitivity; [apply (memory_conflict env2 s1 st (ExpectSequence n) recs2 Hctx Hne eq_refl)|].
  - cbn. rewrite Hlen, Hn. destruct recs1; [done|]; cbn; lia.
  - cbn. rewrite Hlen, Hn. do 3 f_equal. lia.
Qed.

(** [Load] returns the records strictly between the two bounds (zero is no bound), in stream
    order or, backward, in the opposite order, and at most [Limit] of them when it is positive;
    the in-place swapping loop reverses the list. *)
Theorem memory_load_spec s st opts :
  st <> emp ->
  MemoryStore_Load None s st opts =
    Ok (let kept := List.filter (fun r =>
              (implb (0 <? lo_After opts)%Z (lo_After opts <? st_Sequence r)%Z)
              && (implb (0 <? lo_Before opts)%Z (st_Sequence r <? lo_Before opts)%Z)) (stream_records s st) in
        let directed := match lo_Direction opts with
                        | DirectionBackward => rev kept | DirectionForward => kept end in
        if (0 <? lo_Limit opts)%Z then take (Z.to_nat (lo_Limit opts)) directed else directed).
Proof.
  intros Hne. rewrite load_as_spec by done. unfold load_spec. do 2 f_equal.
  assert (E : List.filter (load_keeps opts) (stream_records s st) =
    List.filter (fun r => (implb (0 <? lo_After opts)%Z (lo_After opts <? st_Sequence r)%Z)
              && (implb (0 <? lo_Before opts)%Z (st_Sequence r <? lo_Before opts)%Z)) (stream_records s st)).
  { apply filter_ext. intros r. unfold load_keeps. f_equal.
    - destruct (0 <? lo_After opts)%Z; cbn; [|done]. by rewrite Z.leb_antisym, negb_involutive.
    - destruct (0 <? lo_Before opts)%Z; cbn; [|done]. by rewrite Z.leb_antisym, negb_involutive. }
  by rewrite E.
Qed.
End MemoryStoreProofs.

(** ** Concrete instances *)

(** A codec that completes an empty identifier with the random text of the call. *)
#[export] Instance stamp_codec {P} : EventCodec P := {
  NormalizeRecord rnd r now :=
    Ok (r <| rec_ID := if decide (rec_ID r = emp) then String.append "evt_" rnd else rec_ID r |>
          <| rec_Time := if decide (rec_Time r = 0%Z) then now else rec_Time r |>);
  CloneStoredRecords l := l
}.
#[export] Program Instance stamp_codec_laws {P} : EventCodecLaws P.
Next Obligation. by intros ????? [= <-]. Qed.
Next Obligation. by intros ????? [= <-]. Qed.
Next Obligation. by intros ????? [= <-]. Qed.
Next Obligation. intros ????? [= <-] ?; cbn. by rewrite decide_False. Qed.
Next Obligation. intros ????? [= <-]; cbn. by case_decide. Qed.
Next Obligation. done. Qed.

Definition demo_env (tag : string) : CallEnv := mkEnv None 7 (fun i => String.append tag (pretty i)).
Definition demo_record (p : string) : EventRecord string := mkRecord emp "test.event" 0 zero_Scope p ∅.

Example memory_batch_atomic_witness :
  store_wf (P := string) NewMemoryStore /\
  (forall st, stream_records
     (fst (MemoryStore_AppendBatch (demo_env "a") NewMemoryStore
        [mkRequest "s" (ExpectSequence 0) [demo_record "x"; demo_record "y"]])) st =
    [] ++ records_for st
     (match snd (MemoryStore_AppendBatch (demo_env "a") NewMemoryStore
        [mkRequest "s" (ExpectSequence 0) [demo_record "x"; demo_record "y"]]) with
      | Ok rs => rs | Err _ => [] end)).
Proof.
  split; [apply new_store_wf|].
  pose proof (memory_batch_atomic (demo_env "a") NewMemoryStore
    [mkRequest "s" (ExpectSequence 0) [demo_record "x"; demo_record "y"]] new_store_wf) as W.
  vm_compute in W. destruct W as [W _]. intros st. specialize (W st). vm_compute. exact W.
Defined.

Example memory_compare_and_swap_witness :
  let s1 := fst (MemoryStore_Append (demo_env "a") NewMemoryStore "s" (ExpectSequence 0) [demo_record "x"]) in
  MemoryStore_Append (demo_env "b") s1 "s" (ExpectSequence 0) [demo_record "y"] =
    (s1, Err (ErrAppendConflict "s" 0 1)).
Proof.
  refine (memory_compare_and_swap (demo_env "a") (demo_env "b") NewMemoryStore _ "s" 0
    [demo_record "x"] [demo_record "y"] _ new_store_wf eq_refl _ _ _).
  - discriminate.
  - discriminate.
  - vm_compute. reflexivity.
Defined.

Example memory_load_spec_witness :
  let s1 := fst (MemoryStore_Append (demo_env "a") NewMemoryStore "s" (ExpectSequence 0)
                   [demo_record "x"; demo_record "y"; demo_record "z"]) in
  match MemoryStore_Load None s1 "s" (mkLoadOptions 1 0 DirectionBackward 1) with
  | Ok l => map (fun r => rec_Payload (st_Record r)) l = ["z"%string]
  | Err _ => False
  end.
Proof.
  cbv zeta. rewrite memory_load_spec by discriminate. vm_compute. reflexivity.
Defined.

Definition demo_calls : list (CallEnv * list (AppendRequest string)) :=
  [(demo_env "a", [mkRequest "s" (ExpectSequence 0) [demo_record "x"]; mkRequest "t" zero_AppendOptions [demo_record "y"]]);
   (demo_env "b", [mkRequest "s" (ExpectSequence 0) [demo_record "lost"]]);
   (demo_env "c", [mkRequest "s" (ExpectSequence 1) [demo_record "z"]])].

Example memory_store_invariant_witness :
  store_wf (run_batches NewMemoryStore demo_calls) /\
  map (fun r => rec_Payload (st_Record r)) (stream_records (run_batches NewMemoryStore demo_calls) "s") =
    ["x"%string; "z"%string].
Proof. split; [apply (memory_store_invariant demo_calls)|vm_compute; reflexivity]. Defined.
