(* ===== verification/Operation.v ===== *)
(** * Operation values and results

    [operation.Value], [operation.Error], [operation.Result] and [operation.Ref] belong to the module
    fluxplane-operation. The data are declared here with the fields the code under src/ reads or
    writes; the constructors of results are the parameters of the class [OperationApi]. *)

From S2P Require Import Prelude.

(** [*operation.Error] is [option OpError]: nil is [None]. *)
Record OpError := mkOpError { err_Code : string; err_Message : string }.
#[global] Instance OpError_eq_dec : EqDecision OpError.
Proof. solve_decision. Defined.

(** [operation.Value] is [any]; these are the dynamic types the code builds or tests. *)
Inductive Value : Type :=
| VNil
| VBool (b : bool)
| VInt (z : Z)
| VString (s : string)
| VBytes (s : string)
| VError (e : OpError)
| VList (l : list Value)
| VMap (m : gmap string Value).
#[global] Instance Value_inhabited : Inhabited Value := populate VNil.

(** [reflect.DeepEqual] on these values is equality. *)
#[global] Instance Value_eq_dec : EqDecision Value.
Proof.
  refine (fix go (v1 v2 : Value) : Decision (v1 = v2) :=
    let _ : EqDecision Value := go in
    match v1, v2 with
    | VNil, VNil => left eq_refl
    | VBool b1, VBool b2 => cast_if (decide (b1 = b2))
    | VInt z1, VInt z2 => cast_if (decide (z1 = z2))
    | VString s1, VString s2 => cast_if (decide (s1 = s2))
    | VBytes s1, VBytes s2 => cast_if (decide (s1 = s2))
    | VError e1, VError e2 => cast_if (decide (e1 = e2))
    | VList l1, VList l2 => cast_if (decide (l1 = l2))
    | VMap m1, VMap m2 => cast_if (decide (m1 = m2))
    | _, _ => right _
    end); abstract congruence.
Defined.

Definition is_nil (v : Value) : bool := match v with VNil => true | _ => false end.

Record OpRef := mkOpRef { ref_Name : string }.
#[global] Instance OpRef_eq_dec : EqDecision OpRef.
Proof. solve_decision. Defined.

Record OpResult := mkOpResult {
  or_Status : string;
  or_Output : Value;
  or_Error : option OpError
}.
#[global] Instance rebuild_OpResult : Rebuild OpResult := fun r =>
  mkOpResult r.(or_Status) r.(or_Output) r.(or_Error).

Class OperationApi := {
  StatusOK : string;
  OpOK : Value -> OpResult;
  Failed : string -> string -> gmap string Value -> OpResult;
  Canceled : string -> OpResult;
  IsError : OpResult -> bool
}.

Class OperationLaws `{OperationApi} : Prop := {
  failed_error code msg details : or_Error (Failed code msg details) = Some (mkOpError code msg);
  failed_is_error code msg details : IsError (Failed code msg details) = true;
  failed_status code msg details : or_Status (Failed code msg details) <> emp;
  ok_status v : or_Status (OpOK v) = StatusOK;
  ok_output v : or_Output (OpOK v) = v;
  ok_not_error r : or_Status r = StatusOK -> IsError r = false
}.

(** A concrete implementation, for the evaluated examples. *)
Module DemoApi.
#[export] Instance demo_api : OperationApi := {
  StatusOK := "ok";
  OpOK v := mkOpResult "ok" v None;
  Failed code msg _ := mkOpResult "failed" VNil (Some (mkOpError code msg));
  Canceled msg := mkOpResult "canceled" VNil (Some (mkOpError "canceled" msg));
  IsError r := bool_decide (or_Status r <> "ok"%string)
}.
#[export] Instance demo_laws : OperationLaws.
Proof. split; intros; cbn; try done. by rewrite bool_decide_eq_false_2 by (rewrite H; auto). Qed.
End DemoApi.
