(* ===== verification/Workflow.v ===== *)
(** * Workflow graphs (src/core/workflow/workflow.go)

    The inert workflow specification, its structural validation and the events of a run. *)

From S2P Require Import Prelude Operation.

(** ** Data *)

Abbreviation StepKind := string.
Definition StepOperation : StepKind := "operation".
Definition StepAgent : StepKind := "agent".
Definition StepKinds : list StepKind := [StepOperation; StepAgent].

Abbreviation StepErrorPolicy := string.
Definition StepErrorFail : StepErrorPolicy := "".
Definition StepErrorContinue : StepErrorPolicy := "continue".
Definition StepErrorPolicies : list StepErrorPolicy := [StepErrorFail; StepErrorContinue].

Record Condition := mkCondition {
  cond_StepID : string;
  cond_Equals : Value;
  cond_Exists : bool;
  cond_Not : bool
}.
Definition zero_Condition : Condition := mkCondition emp VNil false false.

Record RetryPolicy := mkRetry { retry_MaxAttempts : Z; retry_Backoff : Z }.

Record AgentRef := mkAgentRef { agent_Name : string }.
#[global] Instance AgentRef_eq_dec : EqDecision AgentRef.
Proof. solve_decision. Defined.

Record WStep := mkWStep {
  ws_ID : string;
  ws_Kind : StepKind;
  ws_Operation : OpRef;
  ws_Agent : AgentRef;
  ws_Input : Value;
  ws_InputMap : gmap string string;
  ws_DependsOn : list string;
  ws_When : Condition;
  ws_Retry : RetryPolicy;
  ws_Timeout : Z;
  ws_ErrorPolicy : StepErrorPolicy;
  ws_IdempotencyKey : string;
  ws_Raw : gmap string Value
}.

Record WSpec := mkWSpec {
  wf_Name : string;
  wf_Description : string;
  wf_Version : string;
  wf_Inputs : Value;
  wf_Outputs : Value;
  wf_Steps : list WStep;
  wf_Raw : gmap string Value;
  wf_Annotations : gmap string string
}.

(** ** Run status and events *)

Abbreviation WStatus := string.
Definition WStatusQueued : WStatus := "queued".
Definition WStatusRunning : WStatus := "running".
Definition WStatusSucceeded : WStatus := "succeeded".
Definition WStatusFailed : WStatus := "failed".
Definition WStatusCanceled : WStatus := "canceled".

Inductive WEvent :=
| EvQueued (runID workflow : string) (input : Value)
| EvStarted (runID workflow : string)
| EvStepStarted (runID workflow step : string) (kind : StepKind) (op : OpRef) (ag : AgentRef)
    (input : Value) (attempt : Z)
| EvStepCompleted (runID workflow step : string) (kind : StepKind) (op : OpRef) (ag : AgentRef)
    (output : Value) (attempt : Z)
| EvStepFailed (runID workflow step : string) (kind : StepKind) (op : OpRef) (ag : AgentRef)
    (error : option OpError) (attempt : Z)
| EvCompleted (runID workflow : string) (output : Value)
| EvFailed (runID workflow : string) (error : option OpError)
| EvCanceled (runID workflow : string) (error : option OpError).

(** ** Validation *)

Inductive WError :=
| WErrNameEmpty
| WErrStepIDEmpty (i : nat)
| WErrDuplicateStep (id : string)
| WErrOperationEmpty (id : string)
| WErrAgentEmpty (id : string)
| WErrKindInvalid (id : string) (kind : StepKind)
| WErrUnknownDep (id dep : string).
#[global] Instance WError_eq_dec : EqDecision WError.
Proof. solve_decision. Defined.

(** The switch on the step kind inside the first loop; [None] is "no error". *)
Definition validate_step_dispatch (step : WStep) : option WError :=
  let kind :=
    if decide (ws_Kind step = emp)
    then if decide (agent_Name (ws_Agent step) <> emp) then StepAgent else StepOperation
    else ws_Kind step in
  if decide (kind = StepOperation)
  then if decide (ref_Name (ws_Operation step) = emp) then Some (WErrOperationEmpty (ws_ID step)) else None
  else if decide (kind = StepAgent)
  then if decide (agent_Name (ws_Agent step) = emp) then Some (WErrAgentEmpty (ws_ID step)) else None
  else Some (WErrKindInvalid (ws_ID step) kind).

(** The first loop, from step index [i] with the set [seen]. *)
Fixpoint validate_steps (steps : list WStep) (i : nat) (seen : gset string)
    : Result WError (gset string) :=
  match steps with
  | [] => Ok seen
  | step :: rest =>
      if blank (ws_ID step) then Err (WErrStepIDEmpty i)
      else if decide (ws_ID step ∈ seen) then Err (WErrDuplicateStep (ws_ID step))
      else match validate_step_dispatch step with
           | Some e => Err e
           | None => validate_steps rest (S i) ({[ws_ID step]} ∪ seen)
           end
  end.

(** The second loop: the first dependency that names no step. *)
Fixpoint first_unknown (deps : list string) (seen : gset string) : option string :=
  match deps with
  | [] => None
  | d :: ds => if decide (d ∈ seen) then first_unknown ds seen else Some d
  end.

Fixpoint validate_deps (steps : list WStep) (seen : gset string) : Result WError unit :=
  match steps with
  | [] => Ok tt
  | step :: rest =>
      match first_unknown (ws_DependsOn step) seen with
      | Some dep => Err (WErrUnknownDep (ws_ID step) dep)
      | None => validate_deps rest seen
      end
  end.

(** [Spec.Validate]. *)
Definition WSpec_Validate (s : WSpec) : Result WError unit :=
  if blank (wf_Name s) then Err WErrNameEmpty
  else let? seen := validate_steps (wf_Steps s) 0 ∅ in validate_deps (wf_Steps s) seen.

(** ** What validation establishes *)

Lemma first_unknown_none deps seen : first_unknown deps seen = None <-> forall d, d ∈ deps -> d ∈ seen.
Proof.
  induction deps as [|d ds IH]; simpl; [set_solver|].
  destruct (decide (d ∈ seen)); [rewrite IH; set_solver|]. split; [done|]. set_solver.
Qed.

Lemma validate_steps_ok steps i seen seen' :
  validate_steps steps i seen = Ok seen' ->
  seen' = list_to_set (ws_ID <$> steps) ∪ seen /\
  NoDup (ws_ID <$> steps) /\ (forall id, id ∈ (ws_ID <$> steps) -> id ∉ seen) /\
  Forall (fun st => blank (ws_ID st) = false /\ validate_step_dispatch st = None) steps.
Proof.
  revert i seen. induction steps as [|st steps IH]; intros i seen; simpl.
  - intros [= <-]. split_and!; [set_solver|constructor|set_solver|constructor].
  - destruct (blank _) eqn:Hb; [done|].
    destruct (decide _) as [|Hnin]; [done|].
    destruct (validate_step_dispatch st) eqn:Hd; [done|].
    intros (-> & Hnd & Hfresh & Hall)%IH. split_and!.
    + set_solver.
    + constructor; [|done]. intros Hin%Hfresh. set_solver.
    + set_solver.
    + by constructor.
Qed.

Lemma validate_deps_ok steps seen :
  validate_deps steps seen = Ok tt <->
  forall st d, st ∈ steps -> d ∈ ws_DependsOn st -> d ∈ seen.
Proof.
  induction steps as [|st steps IH]; simpl; [set_solver|].
  destruct (first_unknown _ _) eqn:E.
  - split; [done|]. intros Hall. exfalso.
    assert (first_unknown (ws_DependsOn st) seen = None) by (apply first_unknown_none; set_solver).
    congruence.
  - rewrite first_unknown_none in E. rewrite IH. set_solver.
Qed.

(** A well-formed workflow: the property [Validate] decides. *)
Definition wf_spec (s : WSpec) : Prop :=
  blank (wf_Name s) = false /\
  Forall (fun st => blank (ws_ID st) = false /\ validate_step_dispatch st = None) (wf_Steps s) /\
  NoDup (ws_ID <$> wf_Steps s) /\
  (forall st d, st ∈ wf_Steps s -> d ∈ ws_DependsOn st -> d ∈ (ws_ID <$> wf_Steps s)).

Lemma validate_steps_complete steps i seen :
  NoDup (ws_ID <$> steps) -> (forall id, id ∈ (ws_ID <$> steps) -> id ∉ seen) ->
  Forall (fun st => blank (ws_ID st) = false /\ validate_step_dispatch st = None) steps ->
  validate_steps steps i seen = Ok (list_to_set (ws_ID <$> steps) ∪ seen).
Proof.
  revert i seen. induction steps as [|st steps IH]; intros i seen; simpl.
  - intros. f_equal. set_solver.
  - intros [Hn Hnd]%NoDup_cons Hfresh [[Hb Hd] Hall]%Forall_cons.
    rewrite Hb, decide_False, Hd by set_solver. rewrite IH; [f_equal; set_solver|done| |done].
    set_solver.
Qed.

Lemma wspec_validate_spec s : WSpec_Validate s = Ok tt <-> wf_spec s.
Proof.
  unfold WSpec_Validate, wf_spec. destruct (blank (wf_Name s)); [split; [done|by intros [? _]]|].
  rewrite res_bind_ok. split.
  - intros (seen & (-> & Hnd & _ & Hall)%validate_steps_ok & Hdeps).
    rewrite validate_deps_ok in Hdeps. split_and!; auto. intros st d Hst Hd.
    specialize (Hdeps st d Hst Hd). set_solver.
  - intros (_ & Hall & Hnd & Hdeps). eexists. split.
    + apply validate_steps_complete; [done|set_solver|done].
    + apply validate_deps_ok. intros st d Hst Hd. specialize (Hdeps st d Hst Hd). set_solver.
Qed.

(** [Spec.Validate] accepts exactly the well-formed workflows: a non-blank name, non-blank and
    pairwise distinct step identifiers, for every step a known kind with the matching operation or
    agent reference (an absent kind is inferred from the agent reference), and dependencies that
    all name a step of the workflow, before or after the step that declares them. *)
Theorem workflow_validate_exact s : WSpec_Validate s = Ok tt <-> wf_spec s.
Proof. apply wspec_validate_spec. Qed.

