(* ===== verification/Graph.v ===== *)
(** * Dependency graphs

    Both workflows and tasks declare steps with lists of dependencies. A graph is the list of
    (identifier, dependencies) pairs; this file has what the two components share about cycles,
    topological orders and steps that can run. *)

From stdpp Require Import relations sets fin_sets.
From S2P Require Import Prelude.

Abbreviation graph := (list (string * list string)).

Section Graph.
Implicit Types (g : graph) (x y : string) (X : gset string).

Definition depends g x y : Prop := exists ds, (x, ds) ∈ g /\ y ∈ ds.
#[export] Instance depends_dec g x y : Decision (depends g x y).
Proof.
  refine (cast_if (decide (Exists (fun p => p.1 = x /\ y ∈ p.2) g)));
  [abstract (apply Exists_exists in e as ([? ds] & Hin & <- & Hy); by exists ds)
  |abstract (intros (ds & Hin & Hy); apply n, Exists_exists; by exists (x, ds))].
Defined.
Definition acyclic g : Prop := forall x, ~ tc (depends g) x x.
Definition nodes g : gset string := list_to_set g.*1.
(** Every dependency names a node. *)
Definition closed g : Prop := forall x y, depends g x y -> y ∈ nodes g.

Lemma depends_node g x y : depends g x y -> x ∈ nodes g.
Proof.
  intros (ds & Hin & _). apply elem_of_list_to_set, list_elem_of_fmap. by exists (x, ds).
Qed.

Lemma tc_node g x y : tc (depends g) x y -> x ∈ nodes g.
Proof. destruct 1; eauto using depends_node. Qed.

Lemma tc_target g x y : closed g -> tc (depends g) x y -> y ∈ nodes g.
Proof. intros Hc. induction 1; eauto. Qed.

(** In an acyclic closed graph every descent along dependencies ends. *)
Lemma acyclic_sn g x : closed g -> acyclic g -> sn (depends g) x.
Proof.
  intros Hc Ha. apply tc_finite_sn.
  - intros y Hy. by apply (Ha y).
  - exists (elements (nodes g)). intros y Hy. apply elem_of_elements. eauto using tc_target.
Qed.

(** A non-empty set of nodes of an acyclic graph has a node that depends on nothing in it. *)
Lemma acyclic_sink g X :
  closed g -> acyclic g -> X <> ∅ ->
  exists x, x ∈ X /\ forall y, depends g x y -> y ∉ X.
Proof.
  intros Hc Ha HX. apply set_choose_L in HX as [x0 Hx0].
  assert (Hsn : sn (depends g) x0) by by apply acyclic_sn.
  induction Hsn as [x _ IH].
  destruct (decide (set_Exists (depends g x) X)) as [Hex|Hno].
  - destruct Hex as (y & Hy & Hd). apply (IH y); [done|]. done.
  - exists x. split; [done|]. intros y Hd Hy. apply Hno. by exists y.
Qed.

(** [order] lists identifiers so that each one's dependencies come before it. *)
Definition topological g (order : list string) : Prop :=
  forall l1 x l2, order = l1 ++ x :: l2 -> forall y, depends g x y -> y ∈ l1.

Lemma topological_app g l1 l2 : topological g (l1 ++ l2) -> topological g l1.
Proof.
  intros Ht a x b -> y Hy. apply (Ht a x (b ++ l2)); [|done]. by rewrite <- app_assoc.
Qed.

Lemma topological_snoc g l x :
  topological g l -> (forall y, depends g x y -> y ∈ l) -> topological g (l ++ [x]).
Proof.
  intros Ht Hx a z b Heq y Hy. destruct b as [|w b _] using rev_ind.
  - apply app_inj_tail in Heq as [<- <-]. auto.
  - rewrite app_comm_cons, app_assoc in Heq. apply app_inj_tail in Heq as [-> ->].
    eapply Ht; eauto.
Qed.

(** An order that is topological and lists every node rules out cycles. *)
Lemma topological_acyclic g order :
  NoDup order -> (forall x, x ∈ nodes g -> x ∈ order) -> topological g order -> acyclic g.
Proof.
  intros Hnd Hall Ht.
  assert (Hpos : forall x y, tc (depends g) x y ->
    forall l1 l2, order = l1 ++ x :: l2 -> y ∈ l1).
  { induction 1 as [x y Hd|x z y Hd Htc IH]; intros l1 l2 Heq; [by eapply Ht|].
    assert (Hz : z ∈ l1) by by eapply Ht.
    apply list_elem_of_split in Hz as (a & b & ->).
    rewrite <- app_assoc in Heq. apply IH in Heq. rewrite elem_of_app. by left. }
  intros x Hx. pose proof (Hall x (tc_node _ _ _ Hx)) as Hin.
  apply list_elem_of_split in Hin as (a & b & Heq).
  pose proof (Hpos x x Hx a b Heq) as Hxa. subst order.
  apply NoDup_app in Hnd as (_ & Hdis & _). apply (Hdis x Hxa). by left.
Qed.

Lemma depends_functional g x ds y :
  NoDup g.*1 -> (x, ds) ∈ g -> depends g x y <-> y ∈ ds.
Proof.
  intros Hnd Hin. split.
  - intros (ds' & Hin' & Hy).
    assert ((x, ds) = (x, ds')) as [= ->] by (eapply (nodup_fmap_inj fst); eauto). done.
  - intros Hy. by exists ds.
Qed.

(** The same graph given by two lists with the same pairs. *)
Lemma acyclic_ext g1 g2 :
  (forall x y, depends g1 x y <-> depends g2 x y) -> acyclic g1 <-> acyclic g2.
Proof.
  intros E. assert (Ht : forall x y, tc (depends g1) x y <-> tc (depends g2) x y).
  { intros x y. split; induction 1; [apply tc_once|eapply tc_l|apply tc_once|eapply tc_l]; try done;
    by apply E. }
  unfold acyclic. split; intros Ha x Hx; by apply (Ha x), Ht.
Qed.
End Graph.
