(* ===== verification/WorkflowRun.v ===== *)
(** * Running a workflow (src/orchestration/workflow/runner.go)

    [Run] executes a workflow in dependency order: it sweeps over the steps, runs each one whose
    dependencies are done, and repeats until every step is done, a step fails for good, the context
    is cancelled, or a whole sweep makes no progress. The event sink is the list of the events
    emitted so far, and the two dispatch callbacks may answer differently at every call (they are
    given that list). *)

From S2P Require Import Prelude Operation Workflow Graph.

Section Runner.
Context `{OperationApi, GoFmt}.

(** ** Data *)

Record WConfig := mkWConfig {
  cfg_Spec : WSpec;
  cfg_RunID : string;
  cfg_Input : Value;
  cfg_RunOperation : option (list WEvent -> WStep -> Value -> string -> OpResult * option string);
  cfg_RunAgent : option (list WEvent -> WStep -> Value -> Value * option string)
}.

Record WStepResult := mkWStepResult {
  sr_Status : WStatus; sr_Output : Value; sr_Error : option OpError }.

Record WResult := mkWResult {
  wr_Status : WStatus; wr_Output : Value; wr_Error : option OpError;
  wr_Steps : gmap string WStepResult }.

Implicit Types (cfg : WConfig) (step : WStep) (results : gmap string WStepResult) (events : list WEvent).

(** ** Conditions and inputs *)

Definition dependenciesDone step (done : gset string) : bool :=
  forallb (fun dep => bool_decide (dep ∈ done)) (ws_DependsOn step).

Definition stepOutputValue (result : WStepResult) : Value :=
  match sr_Error result with
  | Some e => VMap {[ "error"%string := VError e ]}
  | None => sr_Output result
  end.

Definition valuesEqual (got want : Value) : bool :=
  match got, want with
  | VString g, VString w => bool_decide (TrimSpace g = TrimSpace w)
  | _, _ => bool_decide (got = want)
  end.

Definition conditionMatches (c : Condition) results : bool :=
  if bool_decide (cond_StepID c = emp) && is_nil (cond_Equals c) && negb (cond_Exists c) then true
  else
    let result := results !! cond_StepID c in
    let ok := bool_decide (is_Some result) in
    let value := match result with Some r => stepOutputValue r | None => VNil end in
    let matches := if cond_Exists c then ok && negb (is_nil value) else true in
    let matches := if negb (is_nil (cond_Equals c)) then ok && valuesEqual value (cond_Equals c) else matches in
    if cond_Not c then negb matches else matches.

Definition stepKind step : StepKind :=
  if decide (ws_Kind step <> emp) then ws_Kind step
  else if decide (agent_Name (ws_Agent step) <> emp) then StepAgent
  else StepOperation.

Definition mappedInputValue (ref : string) (runInput : Value) results : Value :=
  let ref := TrimSpace ref in
  if decide (ref = "$input" \/ ref = "workflow.input")%string then runInput
  else if decide (ref = "$steps"%string) then VMap (stepOutputValue <$> results)
  else
    let ref := TrimSuffix (TrimPrefix ref "steps.") ".output" in
    match results !! ref with
    | Some result => stepOutputValue result
    | None => VNil
    end.

Definition stepInput step (runInput : Value) results : Value :=
  if decide (ws_InputMap step <> ∅) then
    let base : gmap string Value :=
      match ws_Input step with
      | VNil => ∅
      | VMap mapped => mapped
      | v => {[ "input"%string := v ]}
      end in
    VMap (((fun ref => mappedInputValue ref runInput results) <$> ws_InputMap step) ∪ base)
  else if negb (is_nil (ws_Input step)) then ws_Input step
  else runInput.

Definition stepCallID (runID stepID : string) : string :=
  TrimByte (runID ++ ":workflow:" ++ stepID)%string ":".

Definition workflowOutput results : Value :=
  VMap ((fun result : WStepResult =>
    match sr_Error result with
    | Some e => VMap {[ "error"%string := VError e ]}
    | None => sr_Output result
    end) <$> results).

(** ** One step *)

(** The [switch kind] of [runStep]: output, result and error of the dispatch. *)
Definition dispatch events cfg step (kind : StepKind) (input : Value) : Value * OpResult * option string :=
  if decide (kind = StepOperation) then
    match cfg_RunOperation cfg with
    | None =>
        let result := Failed "workflow_operation_runner_missing" "workflow operation runner is not configured" ∅ in
        (or_Output result, result, None)
    | Some f =>
        let '(result, err) := f events step input (stepCallID (cfg_RunID cfg) (ws_ID step)) in
        (or_Output result, result, err)
    end
  else if decide (kind = StepAgent) then
    match cfg_RunAgent cfg with
    | None => (VNil, Failed "workflow_agent_runner_missing" "workflow agent runner is not configured" ∅, None)
    | Some f => let '(output, err) := f events step input in (output, OpOK output, err)
    end
  else
    (VNil, Failed "workflow_step_kind_invalid"
       ("workflow step " ++ Quote (ws_ID step) ++ " kind " ++ Quote kind ++ " is invalid")%string ∅, None).

Definition runStep events cfg step results : WStepResult * option OpResult * list WEvent :=
  let kind := stepKind step in
  let input := stepInput step (cfg_Input cfg) results in
  let events := events ++ [EvStepStarted (cfg_RunID cfg) (wf_Name (cfg_Spec cfg)) (ws_ID step) kind
                             (ws_Operation step) (ws_Agent step) input 1] in
  let '(output, result, err) := dispatch events cfg step kind input in
  let result := match err with
                | Some msg => Failed "workflow_step_failed" msg {[ "step_id"%string := VString (ws_ID step) ]}
                | None => result
                end in
  let result := if decide (or_Status result = emp) then result <| or_Status := StatusOK |> else result in
  if IsError result then
    let events := events ++ [EvStepFailed (cfg_RunID cfg) (wf_Name (cfg_Spec cfg)) (ws_ID step) kind
                               (ws_Operation step) (ws_Agent step) (or_Error result) 1] in
    let stepResult := mkWStepResult WStatusFailed VNil (or_Error result) in
    if decide (ws_ErrorPolicy step = StepErrorContinue) then (stepResult, None, events)
    else (stepResult, Some result, events)
  else
    let events := events ++ [EvStepCompleted (cfg_RunID cfg) (wf_Name (cfg_Spec cfg)) (ws_ID step) kind
                               (ws_Operation step) (ws_Agent step) output 1] in
    (mkWStepResult WStatusSucceeded output None, None, events).

(** ** The run *)

Definition fail events cfg (result : OpResult) steps : list WEvent * WResult :=
  (events ++ [EvFailed (cfg_RunID cfg) (wf_Name (cfg_Spec cfg)) (or_Error result)],
   mkWResult WStatusFailed VNil (or_Error result) steps).

Definition cancel events cfg (result : OpResult) steps : list WEvent * WResult :=
  (events ++ [EvCanceled (cfg_RunID cfg) (wf_Name (cfg_Spec cfg)) (or_Error result)],
   mkWResult WStatusCanceled VNil (or_Error result) steps).

Record RunState := mkRunState {
  rs_events : list WEvent; rs_done : gset string; rs_results : gmap string WStepResult }.

Inductive Sweep :=
| SweepDone (st : RunState) (progress : bool)
| SweepReturn (out : list WEvent * WResult).

(** The inner [for _, step := range cfg.Spec.Steps]. *)
Fixpoint sweep cfg (steps : list WStep) (st : RunState) (progress : bool) : Sweep :=
  match steps with
  | [] => SweepDone st progress
  | step :: rest =>
      if bool_decide (ws_ID step ∈ rs_done st) || negb (dependenciesDone step (rs_done st))
      then sweep cfg rest st progress
      else if negb (conditionMatches (ws_When step) (rs_results st)) then
        sweep cfg rest
          (mkRunState (rs_events st) ({[ws_ID step]} ∪ rs_done st)
             (<[ws_ID step := mkWStepResult WStatusSucceeded VNil None]> (rs_results st))) true
      else
        let '(stepResult, terminal, events) := runStep (rs_events st) cfg step (rs_results st) in
        let st' := mkRunState events ({[ws_ID step]} ∪ rs_done st)
                     (<[ws_ID step := stepResult]> (rs_results st)) in
        match terminal with
        | Some result => SweepReturn (fail events cfg result (rs_results st'))
        | None => sweep cfg rest st' true
        end
  end.

(** The outer [for len(done) < len(cfg.Spec.Steps)]; [ctxErr round] is [ctx.Err()] as read at the
    beginning of a round. [None] is "out of fuel". *)
Fixpoint run_loop (fuel round : nat) (ctxErr : nat -> option string) cfg (st : RunState)
    : option (list WEvent * WResult) :=
  match fuel with
  | O => None
  | S fuel' =>
      if decide (size (rs_done st) < length (wf_Steps (cfg_Spec cfg))) then
        match ctxErr round with
        | Some msg => Some (cancel (rs_events st) cfg (Canceled msg) (rs_results st))
        | None =>
            match sweep cfg (wf_Steps (cfg_Spec cfg)) st false with
            | SweepReturn out => Some out
            | SweepDone st' true => run_loop fuel' (S round) ctxErr cfg st'
            | SweepDone st' false =>
                Some (fail (rs_events st') cfg
                  (Failed "workflow_stalled" "no runnable workflow steps remain"
                     {[ "workflow"%string := VString (wf_Name (cfg_Spec cfg)) ]}) (rs_results st'))
            end
        end
      else
        let output := workflowOutput (rs_results st) in
        Some (rs_events st ++ [EvCompleted (cfg_RunID cfg) (wf_Name (cfg_Spec cfg)) output],
              mkWResult WStatusSucceeded output None (rs_results st))
  end.

Definition default_run_id cfg : WConfig :=
  if decide (cfg_RunID cfg = emp)
  then mkWConfig (cfg_Spec cfg) "workflow" (cfg_Input cfg) (cfg_RunOperation cfg) (cfg_RunAgent cfg)
  else cfg.

(** [Run]; [describe] is [err.Error()] of a validation error. *)
Definition Run (describe : WError -> string) (fuel : nat) (ctxErr : nat -> option string) (cfg0 : WConfig)
    : option (list WEvent * WResult) :=
  let cfg := default_run_id cfg0 in
  match WSpec_Validate (cfg_Spec cfg) with
  | Err e => Some (fail [] cfg (Failed "workflow_invalid" (describe e) ∅) ∅)
  | Ok _ =>
      let events := [EvQueued (cfg_RunID cfg) (wf_Name (cfg_Spec cfg)) (cfg_Input cfg);
                     EvStarted (cfg_RunID cfg) (wf_Name (cfg_Spec cfg))] in
      run_loop fuel 0 ctxErr cfg (mkRunState events ∅ ∅)
  end.
End Runner.

(** ** Executions as a transition system *)

Section Execution.
Context `{OperationApi, GoFmt}.
Implicit Types (cfg : WConfig) (step : WStep) (order : list WStep) (events : list WEvent).

(** The events of one executed step: a start, and one completion or failure. *)
Inductive step_events cfg step : list WEvent -> Prop :=
| step_ok input output :
    step_events cfg step
      [EvStepStarted (cfg_RunID cfg) (wf_Name (cfg_Spec cfg)) (ws_ID step) (stepKind step)
         (ws_Operation step) (ws_Agent step) input 1;
       EvStepCompleted (cfg_RunID cfg) (wf_Name (cfg_Spec cfg)) (ws_ID step) (stepKind step)
         (ws_Operation step) (ws_Agent step) output 1]
| step_failed input err :
    step_events cfg step
      [EvStepStarted (cfg_RunID cfg) (wf_Name (cfg_Spec cfg)) (ws_ID step) (stepKind step)
         (ws_Operation step) (ws_Agent step) input 1;
       EvStepFailed (cfg_RunID cfg) (wf_Name (cfg_Spec cfg)) (ws_ID step) (stepKind step)
         (ws_Operation step) (ws_Agent step) err 1].

(** A step that is done was either executed or skipped by its condition. *)
Definition block cfg step (evs : list WEvent) : Prop := evs = [] \/ step_events cfg step evs.

(** [executed cfg base order blocks st]: starting from the events [base], the steps [order] became
    done in this order, with these events each, and led to [st]. *)
Inductive executed cfg (base : list WEvent) : list WStep -> list (list WEvent) -> RunState -> Prop :=
| executed_nil : executed cfg base [] [] (mkRunState base ∅ ∅)
| executed_step order blocks st step r evs :
    executed cfg base order blocks st ->
    step ∈ wf_Steps (cfg_Spec cfg) ->
    ws_ID step ∉ rs_done st ->
    (forall d, d ∈ ws_DependsOn step -> d ∈ rs_done st) ->
    block cfg step evs ->
    executed cfg base (order ++ [step]) (blocks ++ [evs])
      (mkRunState (rs_events st ++ evs) ({[ws_ID step]} ∪ rs_done st) (<[ws_ID step := r]> (rs_results st))).

Definition spec_graph (s : WSpec) : graph := (fun st => (ws_ID st, ws_DependsOn st)) <$> wf_Steps s.

Lemma spec_graph_depends s x y :
  depends (spec_graph s) x y <-> exists st, st ∈ wf_Steps s /\ ws_ID st = x /\ y ∈ ws_DependsOn st.
Proof.
  unfold depends, spec_graph. split.
  - intros (ds & Hin & Hy). apply list_elem_of_fmap in Hin as (st & [= -> ->] & Hin). eauto.
  - intros (st & Hin & <- & Hy). exists (ws_DependsOn st). split; [|done].
    apply list_elem_of_fmap. eauto.
Qed.

Lemma spec_graph_nodes s : (spec_graph s).*1 = ws_ID <$> wf_Steps s.
Proof. unfold spec_graph. by rewrite <- list_fmap_compose. Qed.

Lemma spec_graph_closed s : wf_spec s -> closed (spec_graph s).
Proof.
  intros (_ & _ & _ & Hdeps) x y (st & Hin & <- & Hy)%spec_graph_depends.
  unfold nodes. rewrite spec_graph_nodes. apply elem_of_list_to_set. eauto.
Qed.

Lemma executed_facts cfg base order blocks st :
  executed cfg base order blocks st ->
  rs_events st = base ++ concat blocks /\
  Forall2 (block cfg) order blocks /\
  rs_done st = list_to_set (ws_ID <$> order) /\
  dom (rs_results st) = rs_done st /\
  NoDup (ws_ID <$> order) /\
  order ⊆ wf_Steps (cfg_Spec cfg).
Proof.
  induction 1 as [|order blocks st step r evs _ (He & Hb & Hd & Hdom & Hnd & Hsub) Hin Hfresh Hdeps Hblk]; cbn.
  { split_and!; first [by rewrite app_nil_r | by constructor | apply dom_empty_L | by intros ? ?%not_elem_of_nil | done]. }
  rewrite fmap_app, list_to_set_app_L, concat_app; cbn. split_and!.
  - by rewrite He, app_nil_r, <- app_assoc.
  - apply Forall2_app; [done|]. constructor; [done|constructor].
  - rewrite Hd. set_solver.
  - by rewrite dom_insert_L, Hdom.
  - apply NoDup_app. split_and!; [done| |apply NoDup_singleton].
    intros x Hx Hx'. apply list_elem_of_singleton in Hx' as ->.
    apply Hfresh. rewrite Hd. by apply elem_of_list_to_set.
  - intros x [Hx|Hx]%elem_of_app; [by apply Hsub|]. by apply list_elem_of_singleton in Hx as ->.
Qed.

Lemma executed_topological cfg base order blocks st :
  NoDup (ws_ID <$> wf_Steps (cfg_Spec cfg)) ->
  executed cfg base order blocks st -> topological (spec_graph (cfg_Spec cfg)) (ws_ID <$> order).
Proof.
  intros Hnd. induction 1 as [|order blocks st step r evs Hex IH Hin Hfresh Hdeps Hblk].
  { intros l1 x l2 Heq. by destruct l1. }
  rewrite fmap_app. apply topological_snoc; [done|].
  intros y (st' & Hin' & Hid & Hy)%spec_graph_depends.
  assert (st' = step) as -> by (eapply (nodup_fmap_inj ws_ID); eauto).
  apply executed_facts in Hex as (_ & _ & Hd & _). apply Hdeps in Hy. rewrite Hd in Hy.
  by apply elem_of_list_to_set in Hy.
Qed.

Lemma executed_size cfg base order blocks st :
  executed cfg base order blocks st -> size (rs_done st) = length order.
Proof.
  intros (_ & _ & -> & _ & Hnd & _)%executed_facts.
  by rewrite size_list_to_set, length_fmap.
Qed.

Lemma executed_length cfg base order blocks st :
  executed cfg base order blocks st -> length order <= length (wf_Steps (cfg_Spec cfg)).
Proof.
  intros (_ & _ & _ & _ & Hnd%NoDup_fmap_1 & Hsub)%executed_facts.
  by apply NoDup_submseteq, submseteq_length in Hsub.
Qed.
End Execution.

(** ** The sweep and the loop follow the transition system *)

Section RunProofs.
Context `{OperationApi, GoFmt}.
Implicit Types (cfg : WConfig) (step : WStep) (order : list WStep) (events : list WEvent).

Lemma runStep_block events cfg step results r t events' :
  runStep events cfg step results = (r, t, events') ->
  exists blk, events' = events ++ blk /\ step_events cfg step blk.
Proof.
  unfold runStep. destruct (dispatch _ _ _ _ _) as [[output result] err].
  destruct (IsError _); [case_decide|]; intros [= <- <- <-]; eexists; rewrite <- app_assoc; cbn;
    (split; [done|constructor]).
Qed.

Lemma dependenciesDone_spec step done :
  dependenciesDone step done = true <-> forall d, d ∈ ws_DependsOn step -> d ∈ done.
Proof.
  unfold dependenciesDone. rewrite forallb_forall. split.
  - intros Hall d Hd. apply list_elem_of_In, Hall in Hd. by apply bool_decide_eq_true in Hd.
  - intros Hall d Hd. apply bool_decide_eq_true. by apply Hall, list_elem_of_In.
Qed.

(** Whether a step is skipped by the sweep, as a proposition. *)
Lemma sweep_guard step (d : gset string) :
  bool_decide (ws_ID step ∈ d) || negb (dependenciesDone step d) = false <->
  ws_ID step ∉ d /\ forall x, x ∈ ws_DependsOn step -> x ∈ d.
Proof.
  rewrite orb_false_iff, bool_decide_eq_false, negb_false_iff. by rewrite dependenciesDone_spec.
Qed.

Lemma sweep_executed cfg steps base order blocks st p :
  steps ⊆ wf_Steps (cfg_Spec cfg) ->
  executed cfg base order blocks st ->
  match sweep cfg steps st p with
  | SweepDone st' p' =>
      exists order' blocks', executed cfg base (order ++ order') (blocks ++ blocks') st' /\
        (p' = true <-> p = true \/ order' <> [])
  | SweepReturn out =>
      exists order' blocks' st' result, executed cfg base (order ++ order') (blocks ++ blocks') st' /\
        out = fail (rs_events st') cfg result (rs_results st')
  end.
Proof.
  revert order blocks st p. induction steps as [|step steps IH]; intros order blocks st p Hsub Hex; cbn.
  { exists [], []. rewrite !app_nil_r. split; [done|]. naive_solver. }
  assert (Hstep : step ∈ wf_Steps (cfg_Spec cfg)) by (apply Hsub; by left).
  assert (Hsub' : steps ⊆ wf_Steps (cfg_Spec cfg)) by (intros x Hx; apply Hsub; by right).
  destruct (_ || _) eqn:Hguard; [by apply IH|].
  apply sweep_guard in Hguard as [Hfresh Hdeps].
  destruct (negb (conditionMatches _ _)).
  - pose proof (executed_step cfg base _ _ _ _ (mkWStepResult WStatusSucceeded VNil None) []
      Hex Hstep Hfresh Hdeps (or_introl eq_refl)) as Hex'. rewrite app_nil_r in Hex'.
    apply (IH _ _ _ true Hsub') in Hex'. destruct (sweep _ _ _ _) as [st' p'|out].
    + destruct Hex' as (o & b & Hex' & Hp). exists (step :: o), ([] :: b).
      rewrite <- !app_assoc in Hex'. split; [done|]. naive_solver.
    + destruct Hex' as (o & b & st' & res & Hex' & Hout). exists (step :: o), ([] :: b), st', res.
      rewrite <- !app_assoc in Hex'. done.
  - destruct (runStep _ _ _ _) as [[r t] evs] eqn:Hrun.
    apply runStep_block in Hrun as (blk & -> & Hblk).
    pose proof (executed_step cfg base _ _ _ _ r blk Hex Hstep Hfresh Hdeps (or_intror Hblk)) as Hex'.
    destruct t as [result|].
    { eexists [step], [blk], _, result. split; [exact Hex'|]. done. }
    apply (IH _ _ _ true Hsub') in Hex'. destruct (sweep _ _ _ _) as [st' p'|out].
    + destruct Hex' as (o & b & Hex' & Hp). exists (step :: o), (blk :: b).
      rewrite <- !app_assoc in Hex'. split; [done|]. naive_solver.
    + destruct Hex' as (o & b & st' & res & Hex' & Hout). exists (step :: o), (blk :: b), st', res.
      rewrite <- !app_assoc in Hex'. done.
Qed.

Lemma sweep_progress_true cfg steps st st' p' : sweep cfg steps st true = SweepDone st' p' -> p' = true.
Proof.
  revert st. induction steps as [|step steps IH]; intros st; cbn; [by intros [= _ <-]|].
  destruct (_ || _); [apply IH|]. destruct (negb (conditionMatches _ _)); [apply IH|].
  destruct (runStep _ _ _ _) as [[r [t|]] evs]; [done|apply IH].
Qed.

(** A sweep without progress changed nothing, and every step is done or waits for another one. *)
Lemma sweep_stuck cfg steps st st' :
  sweep cfg steps st false = SweepDone st' false ->
  st' = st /\ forall step, step ∈ steps ->
    ws_ID step ∈ rs_done st \/ ~ (forall d, d ∈ ws_DependsOn step -> d ∈ rs_done st).
Proof.
  induction steps as [|step steps IH]; cbn.
  { intros [= ->]. split; [done|]. by intros ? ?%not_elem_of_nil. }
  destruct (_ || _) eqn:Hguard.
  - intros (-> & Hall)%IH. split; [done|]. intros x [->|Hx]%elem_of_cons; [|by apply Hall].
    destruct (decide (ws_ID step ∈ rs_done st)) as [|Hn]; [by left|right]. intros Hd.
    assert (bool_decide (ws_ID step ∈ rs_done st) || negb (dependenciesDone step (rs_done st)) = false)
      as Hc by (by apply sweep_guard). congruence.
  - destruct (negb (conditionMatches _ _)); [intros Hs; by apply sweep_progress_true in Hs|].
    destruct (runStep _ _ _ _) as [[r [t|]] evs]; [done|]. intros Hs. by apply sweep_progress_true in Hs.
Qed.

(** How a run can end: the terminal event, the status of the result, and the state it reports. *)
Inductive ending cfg (st : RunState) : WEvent -> WResult -> Prop :=
| ending_completed :
    length (wf_Steps (cfg_Spec cfg)) <= size (rs_done st) ->
    ending cfg st (EvCompleted (cfg_RunID cfg) (wf_Name (cfg_Spec cfg)) (workflowOutput (rs_results st)))
      (mkWResult WStatusSucceeded (workflowOutput (rs_results st)) None (rs_results st))
| ending_failed err :
    ending cfg st (EvFailed (cfg_RunID cfg) (wf_Name (cfg_Spec cfg)) err)
      (mkWResult WStatusFailed VNil err (rs_results st))
| ending_canceled err :
    ending cfg st (EvCanceled (cfg_RunID cfg) (wf_Name (cfg_Spec cfg)) err)
      (mkWResult WStatusCanceled VNil err (rs_results st)).

Lemma run_loop_ends fuel round ctxErr cfg base order blocks st out :
  executed cfg base order blocks st ->
  run_loop fuel round ctxErr cfg st = Some out ->
  exists order' blocks' st' ev, executed cfg base order' blocks' st' /\
    out.1 = rs_events st' ++ [ev] /\ ending cfg st' ev out.2.
Proof.
  revert round order blocks st. induction fuel as [|fuel IH]; intros round order blocks st Hex; [done|].
  cbn. destruct (decide _) as [Hlt|Hge].
  - destruct (ctxErr round) as [msg|].
    { intros [= <-]. eexists _, _, st, _. split_and!; [done|done|constructor]. }
    pose proof (sweep_executed cfg _ base order blocks st false (fun x Hx => Hx) Hex) as Hsw.
    destruct (sweep _ _ _ _) as [st' [|]|out'].
    + destruct Hsw as (o & b & Hex' & _). by apply (IH (S round) _ _ _ Hex').
    + destruct Hsw as (o & b & Hex' & _). intros [= <-]. eexists _, _, st', _.
      split_and!; [done|done|constructor].
    + destruct Hsw as (o & b & st' & res & Hex' & ->). intros [= <-]. eexists _, _, st', _.
      split_and!; [done|done|constructor].
  - intros [= <-]. eexists _, _, st, _. split_and!; [done|done|]. constructor. lia.
Qed.

(** Fuel for the steps not yet done is enough. *)
Lemma run_loop_total fuel round ctxErr cfg base order blocks st :
  executed cfg base order blocks st ->
  length (wf_Steps (cfg_Spec cfg)) < fuel + length order ->
  is_Some (run_loop fuel round ctxErr cfg st).
Proof.
  revert round order blocks st. induction fuel as [|fuel IH]; intros round order blocks st Hex Hlen.
  { apply executed_length in Hex. lia. }
  cbn. destruct (decide _); [|done]. destruct (ctxErr round); [done|].
  pose proof (sweep_executed cfg _ base order blocks st false (fun x Hx => Hx) Hex) as Hsw.
  destruct (sweep _ _ _ _) as [st' [|]|out']; [|done|done].
  destruct Hsw as (o & b & Hex' & [Hp _]). apply (IH _ _ _ _ Hex').
  destruct Hp as [?|Ho]; [done|done|]. rewrite length_app. destruct o; [done|]; cbn; lia.
Qed.

(** When no step fails for good and the context is never cancelled, the loop either completes or
    reaches a state in which every remaining step waits for a remaining step. *)
Definition never_fails cfg : Prop :=
  forall events step results, step ∈ wf_Steps (cfg_Spec cfg) ->
    (runStep events cfg step results).1.2 = None.

Lemma sweep_never_returns cfg steps st p out :
  never_fails cfg -> steps ⊆ wf_Steps (cfg_Spec cfg) -> sweep cfg steps st p <> SweepReturn out.
Proof.
  intros Hnf. revert st p. induction steps as [|step steps IH]; intros st p Hsub; cbn; [done|].
  assert (steps ⊆ wf_Steps (cfg_Spec cfg)) by (intros x Hx; apply Hsub; by right).
  destruct (_ || _); [by apply IH|]. destruct (negb (conditionMatches _ _)); [by apply IH|].
  pose proof (Hnf (rs_events st) step (rs_results st) (Hsub _ (list_elem_of_here _ _))) as Hn.
  destruct (runStep _ _ _ _) as [[r t] evs]; cbn in Hn; subst t. by apply IH.
Qed.

Lemma run_loop_completes fuel round ctxErr cfg base order blocks st out :
  wf_spec (cfg_Spec cfg) -> acyclic (spec_graph (cfg_Spec cfg)) -> never_fails cfg ->
  (forall n, ctxErr n = None) ->
  executed cfg base order blocks st ->
  run_loop fuel round ctxErr cfg st = Some out -> wr_Status out.2 = WStatusSucceeded.
Proof.
  intros Hwf Hac Hnf Hctx. revert round order blocks st.
  induction fuel as [|fuel IH]; intros round order blocks st Hex; [done|].
  cbn. destruct (decide _) as [Hlt|Hge]; [|by intros [= <-]]. rewrite Hctx.
  pose proof (sweep_executed cfg _ base order blocks st false (fun x Hx => Hx) Hex) as Hsw.
  destruct (sweep _ _ _ _) as [st' [|]|out'] eqn:Es.
  - destruct Hsw as (o & b & Hex' & _). by apply (IH _ _ _ _ Hex').
  - exfalso. apply sweep_stuck in Es as [-> Hstuck].
    set (X := (nodes (spec_graph (cfg_Spec cfg)) ∖ rs_done st : gset string)).
    pose proof (spec_graph_closed _ Hwf) as Hcl.
    assert (HX : X <> ∅).
    { intros HX. assert (nodes (spec_graph (cfg_Spec cfg)) ⊆ rs_done st) as Hs by set_solver.
      apply subseteq_size in Hs. unfold nodes in Hs. rewrite spec_graph_nodes in Hs.
      destruct Hwf as (_ & _ & Hnd & _).
      rewrite size_list_to_set_nodup, length_fmap in Hs by done. lia. }
    destruct (acyclic_sink _ X Hcl Hac HX) as (x & Hx & Hsink).
    apply elem_of_difference in Hx as [Hnode Hnd'].
    unfold nodes in Hnode. rewrite spec_graph_nodes in Hnode.
    apply elem_of_list_to_set, list_elem_of_fmap in Hnode as (step & -> & Hin).
    destruct (Hstuck step Hin) as [|Hd]; [done|]. apply Hd. intros d Hdd.
    destruct (decide (d ∈ rs_done st)) as [|Hnot]; [done|]. exfalso.
    assert (Hdep : depends (spec_graph (cfg_Spec cfg)) (ws_ID step) d)
      by (apply spec_graph_depends; eauto).
    apply (Hsink d Hdep). apply elem_of_difference. split; [by eapply Hcl|done].
  - by apply sweep_never_returns in Es.
Qed.

(** ** Properties of runs *)

Definition start_events cfg : list WEvent :=
  [EvQueued (cfg_RunID cfg) (wf_Name (cfg_Spec cfg)) (cfg_Input cfg);
   EvStarted (cfg_RunID cfg) (wf_Name (cfg_Spec cfg))].

Lemma default_run_id_spec cfg : cfg_Spec (default_run_id cfg) = cfg_Spec cfg.
Proof. unfold default_run_id. by case_decide. Qed.

Lemma Run_valid describe fuel ctxErr cfg :
  WSpec_Validate (cfg_Spec cfg) = Ok tt ->
  Run describe fuel ctxErr cfg =
    run_loop fuel 0 ctxErr (default_run_id cfg) (mkRunState (start_events (default_run_id cfg)) ∅ ∅).
Proof.
  intros Hval. unfold Run.
  assert (WSpec_Validate (cfg_Spec (default_run_id cfg)) = Ok tt) as -> by by rewrite default_run_id_spec.
  done.
Qed.

(** [Run] always returns, whatever the workflow (cyclic or not), the callbacks and the
    cancellations: one more round than there are steps is enough. *)
Theorem workflow_run_terminates describe ctxErr cfg :
  exists out, Run describe (S (length (wf_Steps (cfg_Spec cfg)))) ctxErr cfg = Some out.
Proof.
  destruct (WSpec_Validate (cfg_Spec cfg)) as [[]|e] eqn:Hval.
  2: { unfold Run. rewrite default_run_id_spec, Hval. eauto. }
  rewrite Run_valid by done. eapply run_loop_total; [apply executed_nil|]. rewrite default_run_id_spec; cbn. lia.
Qed.

(** C12: the events of a run of a valid workflow. They are Queued, Started, then for some order of
    distinct steps in which every step comes after all its dependencies, at most one execution of
    each step (StepStarted directly followed by StepCompleted or StepFailed; nothing when its
    condition skips it), then exactly one terminal event, which agrees with the status of the
    result; the result lists exactly the steps that are done, and a run that succeeded did every
    step of the workflow. *)
Theorem workflow_run_trace describe fuel ctxErr cfg0 events result :
  WSpec_Validate (cfg_Spec cfg0) = Ok tt ->
  Run describe fuel ctxErr cfg0 = Some (events, result) ->
  let cfg := default_run_id cfg0 in
  exists order blocks st ev,
    events = start_events cfg ++ concat blocks ++ [ev] /\
    Forall2 (block cfg) order blocks /\
    NoDup (ws_ID <$> order) /\ order ⊆ wf_Steps (cfg_Spec cfg) /\
    topological (spec_graph (cfg_Spec cfg)) (ws_ID <$> order) /\
    ending cfg st ev result /\
    dom (wr_Steps result) = list_to_set (ws_ID <$> order) /\
    (wr_Status result = WStatusSucceeded -> wf_Steps (cfg_Spec cfg) ⊆ order).
Proof.
  intros Hval Hrun cfg. rewrite Run_valid in Hrun by done.
  pose proof (run_loop_ends _ _ _ cfg _ _ _ _ _ (executed_nil cfg (start_events cfg)) Hrun)
    as (order & blocks & st & ev & Hex & Hev & Hend). cbn in Hev, Hend.
  pose proof (executed_facts _ _ _ _ _ Hex) as (He & Hb & Hd & Hdom & Hnd & Hsub).
  assert (Hwf : wf_spec (cfg_Spec cfg)) by (apply workflow_validate_exact; by unfold cfg; rewrite default_run_id_spec).
  exists order, blocks, st, ev. split_and!; auto.
  - by rewrite Hev, He, <- app_assoc.
  - eapply executed_topological; [|exact Hex]. apply Hwf.
  - rewrite <- Hd, <- Hdom. by destruct Hend.
  - intros Hs. destruct Hend as [Hlen|err|err]; [|done..].
    apply nodup_incl_full; [by eapply NoDup_fmap_1|done|].
    by rewrite <- (executed_size _ _ _ _ _ Hex).
Qed.

(** C13: without a step that fails for good and without cancellation, a valid workflow succeeds
    exactly when its dependency graph has no cycle; a cyclic one ends as stalled instead of
    running for ever. *)
Theorem workflow_succeeds_iff_acyclic describe ctxErr cfg0 events result :
  WSpec_Validate (cfg_Spec cfg0) = Ok tt ->
  never_fails (default_run_id cfg0) -> (forall n, ctxErr n = None) ->
  Run describe (S (length (wf_Steps (cfg_Spec cfg0)))) ctxErr cfg0 = Some (events, result) ->
  wr_Status result = WStatusSucceeded <-> acyclic (spec_graph (cfg_Spec cfg0)).
Proof.
  intros Hval Hnf Hctx Hrun. set (cfg := default_run_id cfg0).
  assert (Hspec : cfg_Spec cfg = cfg_Spec cfg0) by apply default_run_id_spec.
  assert (Hwf : wf_spec (cfg_Spec cfg)) by (apply workflow_validate_exact; by rewrite Hspec).
  rewrite Run_valid in Hrun by done. split.
  - intros Hs.
    pose proof (run_loop_ends _ _ _ cfg _ _ _ _ _ (executed_nil cfg (start_events cfg)) Hrun)
      as (order & blocks & st & ev & Hex & _ & Hend). cbn in Hend.
    destruct Hend as [Hlen|err|err]; [|done..].
    pose proof (executed_facts _ _ _ _ _ Hex) as (_ & _ & _ & _ & Hnd & Hsub).
    rewrite <- Hspec. apply (topological_acyclic _ (ws_ID <$> order)); [done| |].
    + intros x Hx. unfold nodes in Hx. rewrite spec_graph_nodes in Hx.
      apply elem_of_list_to_set, list_elem_of_fmap in Hx as (step & -> & Hin).
      apply list_elem_of_fmap_2.
      apply (nodup_incl_full order (wf_Steps (cfg_Spec cfg))); [by eapply NoDup_fmap_1|done| |done].
      by rewrite <- (executed_size _ _ _ _ _ Hex).
    + eapply executed_topological; [apply Hwf|exact Hex].
  - intros Hac. rewrite <- Hspec in Hac.
    exact (run_loop_completes _ _ _ cfg _ _ _ _ _ Hwf Hac Hnf Hctx (executed_nil cfg (start_events cfg)) Hrun).
Qed.
End RunProofs.

(** ** Evaluated runs *)

Module WorkflowDemo.
Import DemoApi.
#[export] Instance demo_fmt : GoFmt := { Quote s := s }.

Definition demo_step (id : string) (deps : list string) : WStep :=
  mkWStep id "operation" (mkOpRef "echo") (mkAgentRef "") VNil ∅ deps zero_Condition
    (mkRetry 0 0) 0 "" "" ∅.
(** [b] is declared before the step [a] it depends on. *)
Definition demo_spec : WSpec :=
  mkWSpec "demo" "" "" VNil VNil [demo_step "b" ["a"%string]; demo_step "a" []] ∅ ∅.
Definition loop_spec : WSpec :=
  mkWSpec "loop" "" "" VNil VNil [demo_step "b" ["a"%string]; demo_step "a" ["b"%string]] ∅ ∅.
Definition demo_config (s : WSpec) : WConfig :=
  mkWConfig s "run-1" (VString "in")
    (Some (fun _ step input _ => (OpOK (VString (ws_ID step)), None))) None.
Definition alive : nat -> option string := fun _ => None.
Definition demo_out (s : WSpec) : list WEvent * WResult :=
  default ([], mkWResult "" VNil None ∅) (Run (fun _ => ""%string) 3 alive (demo_config s)).

Lemma demo_never_fails s : (forall st, st ∈ wf_Steps s -> ws_Kind st = "operation"%string) ->
  never_fails (default_run_id (demo_config s)).
Proof.
  intros Hk events step results Hin. cbn in Hin.
  unfold runStep, dispatch, stepKind. rewrite (Hk step Hin). reflexivity.
Qed.

Example workflow_run_trace_witness :
  wr_Status (demo_out demo_spec).2 = WStatusSucceeded /\
  exists order, NoDup (ws_ID <$> order) /\ wf_Steps demo_spec ⊆ order.
Proof.
  split; [vm_compute; reflexivity|].
  destruct (workflow_run_trace (fun _ => ""%string) 3 alive (demo_config demo_spec)
    (demo_out demo_spec).1 (demo_out demo_spec).2 ltac:(vm_compute; reflexivity)
    ltac:(vm_compute; reflexivity))
    as (order & blocks & st & ev & _ & _ & Hnd & _ & _ & _ & _ & Hall).
  exists order. split; [exact Hnd|]. apply Hall. vm_compute. reflexivity.
Defined.

(** The cyclic workflow is valid, so it is cyclic because the run failed. *)
Example workflow_succeeds_iff_acyclic_witness :
  acyclic (spec_graph demo_spec) /\ ~ acyclic (spec_graph loop_spec).
Proof.
  split.
  - apply (workflow_succeeds_iff_acyclic (fun _ => ""%string) alive (demo_config demo_spec)
      (demo_out demo_spec).1 (demo_out demo_spec).2).
    + vm_compute; reflexivity.
    + apply demo_never_fails. intros st Hst. cbn in Hst.
      apply elem_of_cons in Hst as [->|Hst]; [reflexivity|].
      apply list_elem_of_singleton in Hst as ->. reflexivity.
    + reflexivity.
    + vm_compute; reflexivity.
    + vm_compute; reflexivity.
  - intros Hac.
    apply (workflow_succeeds_iff_acyclic (fun _ => ""%string) alive (demo_config loop_spec)
      (demo_out loop_spec).1 (demo_out loop_spec).2) in Hac.
    + vm_compute in Hac. discriminate.
    + vm_compute; reflexivity.
    + apply demo_never_fails. intros st Hst. cbn in Hst.
      apply elem_of_cons in Hst as [->|Hst]; [reflexivity|].
      apply list_elem_of_singleton in Hst as ->. reflexivity.
    + reflexivity.
    + vm_compute; reflexivity.
Defined.
End WorkflowDemo.
