(* ===== verification/Task.v ===== *)
(** * The task model (src/core/task/task.go and events.go)

    Tasks, their steps, executions, artifacts and events, and the structural validation of a task,
    with the depth-first search that rejects dependency cycles. Identifiers, statuses, roles and
    priorities are Go string types: any string can occur, the empty one is "unset". *)

From stdpp Require Import relations.
From S2P Require Import Prelude Operation Workflow Graph.

(** ** Vocabulary *)

Abbreviation Role := string.
Definition RoleHuman : Role := "human".
Definition RoleDeveloper : Role := "developer".
Definition RoleReviewer : Role := "reviewer".
Definition RoleTester : Role := "tester".
Definition RoleExplorer : Role := "explorer".

Abbreviation Priority := string.
Definition PriorityLow : Priority := "low".
Definition PriorityNormal : Priority := "normal".
Definition PriorityHigh : Priority := "high".
Definition PriorityUrgent : Priority := "urgent".

Abbreviation ArtifactKind := string.
Definition ArtifactText : ArtifactKind := "text".
Definition ArtifactReport : ArtifactKind := "report".
Definition ArtifactReference : ArtifactKind := "reference".

Abbreviation Status := string.
Definition StatusDraft : Status := "draft".
Definition StatusReady : Status := "ready".
Definition StatusRunning : Status := "running".
Definition StatusBlocked : Status := "blocked".
Definition StatusCompleted : Status := "completed".
Definition StatusFailed : Status := "failed".
Definition StatusCancelled : Status := "cancelled".
Definition StatusInterrupted : Status := "interrupted".

Abbreviation StepStatus := string.
Definition StepStatusWaiting : StepStatus := "waiting".
Definition StepStatusRunning : StepStatus := "running".
Definition StepStatusBlocked : StepStatus := "blocked".
Definition StepStatusSkipped : StepStatus := "skipped".
Definition StepStatusCompleted : StepStatus := "completed".
Definition StepStatusFailed : StepStatus := "failed".
Definition StepStatusCancelled : StepStatus := "cancelled".

(** ** Data *)

Record Diagnostic := mkDiagnostic { d_Code : string; d_Message : string; d_Target : string }.
#[global] Instance Diagnostic_eq_dec : EqDecision Diagnostic.
Proof. solve_decision. Defined.

Record ArtifactSpec := mkArtifact {
  a_ID : string;
  a_Name : string;
  a_Kind : ArtifactKind;
  a_Description : string;
  a_Required : bool;
  a_Schema : Value;
  a_Ref : string;
  a_Value : Value;
  a_Metadata : gmap string string
}.
#[global] Instance rebuild_ArtifactSpec : Rebuild ArtifactSpec := fun a =>
  mkArtifact a.(a_ID) a.(a_Name) a.(a_Kind) a.(a_Description) a.(a_Required) a.(a_Schema) a.(a_Ref)
    a.(a_Value) a.(a_Metadata).
Definition zero_Artifact : ArtifactSpec := mkArtifact emp emp emp emp false VNil emp VNil ∅.

Record Step := mkStep {
  s_ID : string;
  s_Title : string;
  s_Description : string;
  s_Objective : string;
  s_AcceptanceCriteria : list string;
  s_Inputs : list ArtifactSpec;
  s_Outputs : list ArtifactSpec;
  s_DependsOn : list string;
  s_Assignee : Role;
  s_Profile : string;
  s_Scope : list string;
  s_Metadata : gmap string string
}.

Record Task := mkTask {
  t_ID : string;
  t_Title : string;
  t_Description : string;
  t_Objective : string;
  t_AcceptanceCriteria : list string;
  t_Inputs : list ArtifactSpec;
  t_Outputs : list ArtifactSpec;
  t_Artifacts : list ArtifactSpec;
  t_Scope : list string;
  t_Constraints : list string;
  t_Status : Status;
  t_Priority : Priority;
  t_Assignee : Role;
  t_Creator : Role;
  t_Owner : Role;
  t_WorkspaceID : string;
  t_ProjectID : string;
  t_WorkflowRef : string;
  t_Workflow : option WSpec;
  t_Steps : list Step;
  t_Labels : list string;
  t_Diagnostics : list Diagnostic;
  t_Metadata : gmap string string;
  t_CreatedAt : Time;
  t_UpdatedAt : Time
}.
#[global] Instance rebuild_Task : Rebuild Task := fun t =>
  mkTask t.(t_ID) t.(t_Title) t.(t_Description) t.(t_Objective) t.(t_AcceptanceCriteria) t.(t_Inputs)
    t.(t_Outputs) t.(t_Artifacts) t.(t_Scope) t.(t_Constraints) t.(t_Status) t.(t_Priority) t.(t_Assignee)
    t.(t_Creator) t.(t_Owner) t.(t_WorkspaceID) t.(t_ProjectID) t.(t_WorkflowRef) t.(t_Workflow) t.(t_Steps)
    t.(t_Labels) t.(t_Diagnostics) t.(t_Metadata) t.(t_CreatedAt) t.(t_UpdatedAt).
Definition zero_Task : Task :=
  mkTask emp emp emp emp [] [] [] [] [] [] emp emp emp emp emp emp emp emp None [] [] [] ∅ 0 0.

Record StepExecution := mkStepExecution {
  se_StepID : string;
  se_Status : StepStatus;
  se_Assignee : Role;
  se_Profile : string;
  se_ExternalID : string;
  se_StartedAt : Time;
  se_UpdatedAt : Time;
  se_CompletedAt : Time;
  se_LastProgress : string;
  se_Output : Value;
  se_Artifacts : list ArtifactSpec;
  se_Error : option OpError;
  se_Diagnostics : list Diagnostic;
  se_Metadata : gmap string string
}.
#[global] Instance rebuild_StepExecution : Rebuild StepExecution := fun s =>
  mkStepExecution s.(se_StepID) s.(se_Status) s.(se_Assignee) s.(se_Profile) s.(se_ExternalID)
    s.(se_StartedAt) s.(se_UpdatedAt) s.(se_CompletedAt) s.(se_LastProgress) s.(se_Output)
    s.(se_Artifacts) s.(se_Error) s.(se_Diagnostics) s.(se_Metadata).
Definition zero_StepExecution : StepExecution :=
  mkStepExecution emp emp emp emp emp 0 0 0 emp VNil [] None [] ∅.
#[global] Instance StepExecution_inhabited : Inhabited StepExecution := populate zero_StepExecution.

Record Execution := mkExecution {
  x_ID : string;
  x_TaskID : string;
  x_Status : Status;
  x_Steps : gmap string StepExecution;
  x_Artifacts : list ArtifactSpec;
  x_WorkflowRef : string;
  x_Workflow : option WSpec;
  x_StartedAt : Time;
  x_CompletedAt : Time;
  x_Attempt : Z;
  x_WorkerID : string;
  x_LeaseID : string;
  x_LeaseExpiresAt : Time;
  x_Output : Value;
  x_Error : option OpError;
  x_Diagnostics : list Diagnostic;
  x_Metadata : gmap string string
}.
#[global] Instance rebuild_Execution : Rebuild Execution := fun x =>
  mkExecution x.(x_ID) x.(x_TaskID) x.(x_Status) x.(x_Steps) x.(x_Artifacts) x.(x_WorkflowRef)
    x.(x_Workflow) x.(x_StartedAt) x.(x_CompletedAt) x.(x_Attempt) x.(x_WorkerID) x.(x_LeaseID)
    x.(x_LeaseExpiresAt) x.(x_Output) x.(x_Error) x.(x_Diagnostics) x.(x_Metadata).
Definition zero_Execution : Execution :=
  mkExecution emp emp emp ∅ [] emp None 0 0 0 emp emp 0 VNil None [] ∅.
#[global] Instance Execution_inhabited : Inhabited Execution := populate zero_Execution.

Record ScopedArtifact := mkScoped {
  sc_TaskID : string; sc_ExecutionID : string; sc_StepID : string; sc_Artifact : ArtifactSpec }.

Record TaskCheck := mkCheck { c_Code : string; c_Message : string; c_OK : bool; c_Target : string }.
Record TaskValidationResult := mkValidation {
  v_TaskID : string; v_Ready : bool; v_Completable : bool; v_Checks : list TaskCheck }.

Record TaskSummary := mkSummary {
  sum_ID : string;
  sum_Title : string;
  sum_Objective : string;
  sum_Description : string;
  sum_Status : Status;
  sum_Priority : Priority;
  sum_Assignee : Role;
  sum_Owner : Role;
  sum_WorkspaceID : string;
  sum_ProjectID : string;
  sum_Labels : list string;
  sum_Metadata : gmap string string
}.
#[global] Instance rebuild_TaskSummary : Rebuild TaskSummary := fun s =>
  mkSummary s.(sum_ID) s.(sum_Title) s.(sum_Objective) s.(sum_Description) s.(sum_Status)
    s.(sum_Priority) s.(sum_Assignee) s.(sum_Owner) s.(sum_WorkspaceID) s.(sum_ProjectID)
    s.(sum_Labels) s.(sum_Metadata).

Record WorkerStatus := mkWorker {
  w_WorkerID : string;
  w_RegisteredAt : Time;
  w_LeaseExpiresAt : Time;
  w_Active : bool;
  w_Capacity : Z;
  w_MaxParallel : Z;
  w_CapacityByRole : gmap Role Z;
  w_MaxParallelByRole : gmap Role Z;
  w_ProfilesByRole : gmap Role (list string)
}.

Record TaskCreateRequest := mkCreateRequest {
  r_ID : string;
  r_Kind : string;
  r_Instruction : string;
  r_Intent : string;
  r_Objective : string;
  r_Title : string;
  r_Description : string;
  r_AcceptanceCriteria : list string;
  r_Inputs : list ArtifactSpec;
  r_Outputs : list ArtifactSpec;
  r_Scope : list string;
  r_Constraints : list string;
  r_Labels : list string;
  r_Priority : Priority;
  r_Assignee : Role;
  r_Owner : Role;
  r_WorkspaceID : string;
  r_ProjectID : string;
  r_WorkflowRef : string;
  r_SuggestedSteps : list Step;
  r_Status : Status;
  r_Metadata : gmap string string
}.

(** ** Events (events.go) *)

Inductive TaskEvent :=
| CreateRequested (taskID : string) (request : TaskCreateRequest)
| Created (taskID : string) (task : Task)
| Revised (taskID : string) (task : Task) (reason : string)
| StatusChanged (taskID : string) (previous current : Status) (reason : string)
| ArtifactAdded (taskID executionID stepID : string) (artifact : ArtifactSpec)
| ArtifactUpdated (taskID executionID stepID artifactID : string) (artifact : ArtifactSpec)
| ArtifactRemoved (taskID executionID stepID artifactID reason : string)
| StepStatusChanged (taskID executionID stepID : string) (previous current : StepStatus)
    (reason : string) (output : Value)
| Indexed (taskID : string) (summary : TaskSummary)
| ExecutionStarted (taskID executionID : string) (execution : Execution)
| ExecutionLeaseRenewed (taskID executionID workerID leaseID : string) (leaseExpiresAt : Time)
| ExecutionInterrupted (taskID executionID reason : string)
| StepDispatched (taskID executionID stepID title : string) (assignee : Role) (profile externalID : string)
| StepProgressed (taskID executionID stepID message : string)
| StepCompleted (taskID executionID stepID : string) (output : Value)
| StepFailed (taskID executionID stepID : string) (error : option OpError)
| StepCancelled (taskID executionID stepID reason : string)
| ExecutionCompleted (taskID executionID : string) (output : Value)
| ExecutionFailed (taskID executionID : string) (error : option OpError)
| ExecutionCancelled (taskID executionID reason : string)
| SchedulerDiagnostic (taskID executionID stepID : string) (diagnostic : Diagnostic)
| WorkerRegistered (worker : WorkerStatus).

(** [EventName] of each payload. *)
Definition EventName (e : TaskEvent) : string :=
  match e with
  | CreateRequested _ _ => "task.create_requested"
  | Created _ _ => "task.created"
  | Revised _ _ _ => "task.revised"
  | StatusChanged _ _ _ _ => "task.status_changed"
  | ArtifactAdded _ _ _ _ => "task.artifact_added"
  | ArtifactUpdated _ _ _ _ _ => "task.artifact_updated"
  | ArtifactRemoved _ _ _ _ _ => "task.artifact_removed"
  | StepStatusChanged _ _ _ _ _ _ _ => "task.step_status_changed"
  | Indexed _ _ => "task.indexed"
  | ExecutionStarted _ _ _ => "task.execution_started"
  | ExecutionLeaseRenewed _ _ _ _ _ => "task.execution_lease_renewed"
  | ExecutionInterrupted _ _ _ => "task.execution_interrupted"
  | StepDispatched _ _ _ _ _ _ _ => "task.step_dispatched"
  | StepProgressed _ _ _ _ => "task.step_progressed"
  | StepCompleted _ _ _ _ => "task.step_completed"
  | StepFailed _ _ _ _ => "task.step_failed"
  | StepCancelled _ _ _ _ => "task.step_cancelled"
  | ExecutionCompleted _ _ _ => "task.execution_completed"
  | ExecutionFailed _ _ _ => "task.execution_failed"
  | ExecutionCancelled _ _ _ => "task.execution_cancelled"
  | SchedulerDiagnostic _ _ _ _ => "task.scheduler_diagnostic"
  | WorkerRegistered _ => "task.worker_registered"
  end.

(** ** Known statuses *)

Definition ValidStatus (status : Status) : bool :=
  bool_decide (status ∈ [StatusDraft; StatusReady; StatusRunning; StatusBlocked; StatusCompleted;
                         StatusFailed; StatusCancelled; StatusInterrupted]).
Definition ValidStepStatus (status : StepStatus) : bool :=
  bool_decide (status ∈ [StepStatusWaiting; StepStatusRunning; StepStatusBlocked; StepStatusSkipped;
                         StepStatusCompleted; StepStatusFailed; StepStatusCancelled]).
Definition ValidPriority (priority : Priority) : bool :=
  bool_decide (priority ∈ [PriorityLow; PriorityNormal; PriorityHigh; PriorityUrgent]).
(** A status that cannot make more progress. *)
Definition Terminal (status : Status) : bool :=
  bool_decide (status ∈ [StatusCompleted; StatusFailed; StatusCancelled]).
Definition StepTerminal (status : StepStatus) : bool :=
  bool_decide (status ∈ [StepStatusCompleted; StepStatusFailed; StepStatusCancelled; StepStatusSkipped]).

(** ** Validation *)

Inductive TaskError :=
| TErrTitleOrObjective
| TErrStatus (status : Status)
| TErrPriority (priority : Priority)
| TErrStepIDEmpty (i : nat)
| TErrDuplicateStep (id : string)
| TErrUnknownDep (id dep : string)
| TErrCycle (id : string)
| TErrSelfDep (id : string)
| TErrWorkflow (e : WError)
| TErrExecutionIDEmpty
| TErrExecutionTaskIDEmpty
| TErrExecutionStatus (status : Status)
| TErrStepKey (key id : string)
| TErrStepStatus (key : string) (status : StepStatus).

Fixpoint task_steps_ids (steps : list Step) (i : nat) (seen : gset string) : Result TaskError (gset string) :=
  match steps with
  | [] => Ok seen
  | step :: rest =>
      if blank (s_ID step) then Err (TErrStepIDEmpty i)
      else if decide (s_ID step ∈ seen) then Err (TErrDuplicateStep (s_ID step))
      else task_steps_ids rest (S i) ({[s_ID step]} ∪ seen)
  end.

Fixpoint task_steps_deps (steps : list Step) (seen : gset string) : Result TaskError unit :=
  match steps with
  | [] => Ok tt
  | step :: rest =>
      match first_unknown (s_DependsOn step) seen with
      | Some dep => Err (TErrUnknownDep (s_ID step) dep)
      | None => task_steps_deps rest seen
      end
  end.

(** *** The search for cycles

    [visiting] and [visited] are the two maps of the closure; [None] is "out of fuel". *)

Definition dep_map (steps : list Step) : gmap string (list string) :=
  fold_left (fun m step => <[s_ID step := s_DependsOn step]> m) steps ∅.

Abbreviation marks := (gset string * gset string)%type.

(** The loop [for _, dep := range deps[id]]; [visit] is the recursive call. *)
Fixpoint visit_deps (visit : string -> marks -> option (Result TaskError marks)) (id : string)
    (ds : list string) (st : marks) : option (Result TaskError marks) :=
  match ds with
  | [] => Some (Ok st)
  | dep :: rest =>
      if decide (dep = id) then Some (Err (TErrSelfDep id))
      else match visit dep st with
           | Some (Ok st') => visit_deps visit id rest st'
           | other => other
           end
  end.

Fixpoint visit (fuel : nat) (deps : gmap string (list string)) (id : string) (st : marks)
    : option (Result TaskError marks) :=
  match fuel with
  | O => None
  | S fuel' =>
      let '(visiting, visited) := st in
      if decide (id ∈ visiting) then Some (Err (TErrCycle id))
      else if decide (id ∈ visited) then Some (Ok st)
      else match visit_deps (visit fuel' deps) id (default [] (deps !! id)) ({[id]} ∪ visiting, visited) with
           | Some (Ok (visiting', visited')) => Some (Ok (visiting' ∖ {[id]}, {[id]} ∪ visited'))
           | other => other
           end
  end.

Fixpoint visit_all (fuel : nat) (deps : gmap string (list string)) (ids : list string) (st : marks)
    : option (Result TaskError marks) :=
  match ids with
  | [] => Some (Ok st)
  | id :: rest =>
      match visit fuel deps id st with
      | Some (Ok st') => visit_all fuel deps rest st'
      | other => other
      end
  end.

Definition validateAcyclic (fuel : nat) (steps : list Step) : option (Result TaskError unit) :=
  match visit_all fuel (dep_map steps) (s_ID <$> steps) (∅, ∅) with
  | Some (Ok _) => Some (Ok tt)
  | Some (Err e) => Some (Err e)
  | None => None
  end.

(** [Task.Validate]; one more level of recursion than there are steps is enough
    ([task_validate_total]). *)
Definition Task_Validate (t : Task) : option (Result TaskError unit) :=
  if blank (t_Title t) && blank (t_Objective t) then Some (Err TErrTitleOrObjective)
  else if bool_decide (t_Status t <> emp) && negb (ValidStatus (t_Status t)) then Some (Err (TErrStatus (t_Status t)))
  else if bool_decide (t_Priority t <> emp) && negb (ValidPriority (t_Priority t))
  then Some (Err (TErrPriority (t_Priority t)))
  else
    match task_steps_ids (t_Steps t) 0 ∅ with
    | Err e => Some (Err e)
    | Ok seen =>
        match task_steps_deps (t_Steps t) seen with
        | Err e => Some (Err e)
        | Ok _ =>
            match validateAcyclic (S (length (t_Steps t))) (t_Steps t) with
            | Some (Ok _) =>
                match t_Workflow t with
                | None => Some (Ok tt)
                | Some w => match WSpec_Validate w with
                            | Ok _ => Some (Ok tt)
                            | Err e => Some (Err (TErrWorkflow e))
                            end
                end
            | other => other
            end
        end
    end.

(** The loop over [e.Steps] of [Execution.Validate]; Go visits a map in an unspecified order, here
    given as [order]. *)
Fixpoint execution_steps_valid (order : list string) (steps : gmap string StepExecution) : Result TaskError unit :=
  match order with
  | [] => Ok tt
  | id :: rest =>
      let step := steps !!! id in
      if decide (se_StepID step <> emp /\ se_StepID step <> id) then Err (TErrStepKey id (se_StepID step))
      else if bool_decide (se_Status step <> emp) && negb (ValidStepStatus (se_Status step))
      then Err (TErrStepStatus id (se_Status step))
      else execution_steps_valid rest steps
  end.

Definition Execution_Validate (order : list string) (e : Execution) : Result TaskError unit :=
  if blank (x_ID e) then Err TErrExecutionIDEmpty
  else if blank (x_TaskID e) then Err TErrExecutionTaskIDEmpty
  else if bool_decide (x_Status e <> emp) && negb (ValidStatus (x_Status e)) then Err (TErrExecutionStatus (x_Status e))
  else
    let? _ := execution_steps_valid order (x_Steps e) in
    match x_Workflow e with
    | None => Ok tt
    | Some w => match WSpec_Validate w with Ok _ => Ok tt | Err err => Err (TErrWorkflow err) end
    end.

(** ** The depth-first search decides acyclicity *)

Definition task_graph (steps : list Step) : graph := (fun s => (s_ID s, s_DependsOn s)) <$> steps.

Section Search.
Context (g : graph) (deps : gmap string (list string)).
Hypothesis deps_graph : forall x ds, (x, ds) ∈ g <-> deps !! x = Some ds.
Hypothesis deps_closed : closed g.

(** The finished nodes, in the order they were finished, are a topological order; no node on the
    stack is finished. *)
Definition search_inv (visiting visited : gset string) : Prop :=
  visiting ## visited /\
  exists order, visited = list_to_set order /\ NoDup order /\ topological g order.

Lemma search_inv_empty : search_inv ∅ ∅.
Proof using g. clear deps_graph deps_closed deps. split; [set_solver|]. exists []. split_and!; [done|constructor|]. by intros [|??] ??. Qed.

(** What a call on [id] with the stack [visiting] promises. *)
Definition search_post (visiting visited : gset string) (targets : list string)
    (r : option (Result TaskError marks)) : Prop :=
  match r with
  | None => False
  | Some (Ok (visiting', visited')) =>
      visiting' = visiting /\ visited ⊆ visited' /\ search_inv visiting visited' /\
      forall x, x ∈ targets -> x ∈ visited'
  | Some (Err _) => ~ acyclic g
  end.

Lemma search_finish id visiting visited ds :
  id ∉ visiting -> deps !! id = Some ds -> (forall y, y ∈ ds -> y ∈ visited) ->
  search_inv ({[id]} ∪ visiting) visited -> search_inv visiting ({[id]} ∪ visited).
Proof.
  intros Hid Hds Hall (Hdis & order & -> & Hnd & Ht). split; [set_solver|].
  exists (order ++ [id]). split; [rewrite list_to_set_app_L; set_solver|]. split.
  - apply NoDup_app. split; [done|]. split; [set_solver|apply NoDup_singleton].
  - apply topological_snoc; [done|]. intros y (ds' & Hin & Hy).
    apply deps_graph in Hin. simplify_eq. set_solver.
Qed.

Lemma visit_deps_spec rec id visiting ds visited :
  (forall dep visited1, depends g id dep -> dep <> id -> search_inv visiting visited1 ->
     search_post visiting visited1 [dep] (rec dep (visiting, visited1))) ->
  (forall dep, dep ∈ ds -> depends g id dep) ->
  search_inv visiting visited ->
  search_post visiting visited ds (visit_deps rec id ds (visiting, visited)).
Proof.
  intros Hrec. revert visited. induction ds as [|dep ds IH]; intros visited Hds Hinv; simpl.
  { split_and!; set_solver. }
  case_decide as Heq.
  { subst. intros Ha. apply (Ha id), tc_once, Hds. by left. }
  specialize (Hrec dep visited). destruct (rec dep _) as [[[vg vd]|e]|]; simpl in Hrec;
    [|by apply Hrec; [apply Hds; left| |] ..].
  destruct Hrec as (-> & Hsub & Hinv' & Hdep); [apply Hds; by left|done..|].
  specialize (IH vd). destruct (visit_deps rec id ds _) as [[[vg' vd']|e]|]; simpl in IH |- *;
    [|by apply IH; [set_solver|] ..].
  destruct IH as (-> & Hsub' & Hinv'' & Hall); [set_solver|done|]. split_and!; set_solver.
Qed.

Lemma visit_spec fuel : forall id visiting visited,
  id ∈ nodes g -> size (nodes g ∖ visiting) < fuel ->
  (forall x, x ∈ visiting -> tc (depends g) x id) ->
  search_inv visiting visited ->
  search_post visiting visited [id] (visit fuel deps id (visiting, visited)).
Proof.
  induction fuel as [|fuel IH]; intros id visiting visited Hid Hsz Hpath Hinv; [lia|]. simpl.
  case_decide as Hvg; [intros Ha; by apply (Ha id), Hpath|].
  case_decide as Hvd; [split_and!; set_solver|].
  apply elem_of_list_to_set, list_elem_of_fmap in Hid as ([? ds] & -> & Hin). simpl in *.
  pose proof (proj1 (deps_graph _ _) Hin) as Hds. rewrite Hds. simpl.
  assert (Hn : s ∈ nodes g) by (apply elem_of_list_to_set, list_elem_of_fmap; by exists (s, ds)).
  assert (Hspec : search_post ({[s]} ∪ visiting) visited ds
                    (visit_deps (visit fuel deps) s ds ({[s]} ∪ visiting, visited))).
  { apply visit_deps_spec.
    - intros dep visited1 Hd Hne Hi. apply IH; [by apply (deps_closed s)| | |done].
      + apply Nat.lt_le_trans with (size (nodes g ∖ visiting)); [|lia].
        apply subset_size. set_solver.
      + intros x [->%elem_of_singleton|Hx]%elem_of_union; [by apply tc_once|].
        eapply tc_r; [by apply Hpath|done].
    - intros dep Hdep. by exists ds.
    - destruct Hinv as (? & o & -> & ? & ?). split; [set_solver|]. by exists o. }
  destruct (visit_deps _ _ _ _) as [[[vg vd]|e]|]; simpl in Hspec |- *; [|done..].
  destruct Hspec as (-> & Hsub & Hinv' & Hall).
  split_and!; [set_solver..| |set_solver]. by eapply search_finish.
Qed.

Lemma visit_all_spec fuel ids visited :
  (forall id, id ∈ ids -> id ∈ nodes g) -> size (nodes g) < fuel -> search_inv ∅ visited ->
  search_post ∅ visited ids (visit_all fuel deps ids (∅, visited)).
Proof.
  intros Hids Hsz. revert visited. induction ids as [|id ids IH]; intros visited Hinv; simpl.
  { split_and!; set_solver. }
  assert (Hv : search_post ∅ visited [id] (visit fuel deps id (∅, visited))).
  { apply visit_spec; [apply Hids; by left| |set_solver|done].
    by rewrite difference_empty_L. }
  destruct (visit _ _ _ _) as [[[vg vd]|e]|]; simpl in Hv |- *; [|done..].
  destruct Hv as (-> & Hsub & Hinv' & Hid).
  specialize (IH (fun y Hy => Hids y (list_elem_of_further _ _ _ Hy)) vd Hinv').
  destruct (visit_all _ _ _ _) as [[[vg' vd']|e]|]; simpl in IH |- *; [|done..].
  destruct IH as (-> & Hsub' & Hinv'' & Hall). split_and!; set_solver.
Qed.
End Search.

Lemma task_graph_fst steps : (task_graph steps).*1 = s_ID <$> steps.
Proof. unfold task_graph. by rewrite <- list_fmap_compose. Qed.

Lemma task_graph_depends steps x y :
  depends (task_graph steps) x y <-> exists st, st ∈ steps /\ s_ID st = x /\ y ∈ s_DependsOn st.
Proof.
  unfold depends, task_graph. setoid_rewrite list_elem_of_fmap. split.
  - intros (ds & (st & [= -> ->] & Hin) & Hy). by exists st.
  - intros (st & Hin & <- & Hy). eexists. split; [by exists st|done].
Qed.

Lemma dep_map_lookup_aux steps (m : gmap string (list string)) x :
  x ∉ (s_ID <$> steps) ->
  fold_left (fun m step => <[s_ID step := s_DependsOn step]> m) steps m !! x = (m !! x : option (list string)).
Proof.
  revert m. induction steps as [|st steps IH]; intros m Hx; simpl; [done|]. simpl in Hx.
  rewrite IH by set_solver. rewrite lookup_insert_ne by set_solver. done.
Qed.

Lemma dep_map_lookup steps x ds :
  NoDup (s_ID <$> steps) -> (x, ds) ∈ task_graph steps <-> dep_map steps !! x = Some ds.
Proof.
  unfold dep_map. assert (Hgen : forall m : gmap string (list string), (forall id, id ∈ (s_ID <$> steps) -> m !! id = None) ->
    NoDup (s_ID <$> steps) ->
    (x, ds) ∈ task_graph steps \/ m !! x = Some ds <->
    fold_left (fun m step => <[s_ID step := s_DependsOn step]> m) steps m !! x = Some ds).
  { induction steps as [|st steps IH]; intros m Hm Hnd; simpl; [set_solver|].
    simpl in Hm, Hnd. apply NoDup_cons in Hnd as [Hnin Hnd].
    destruct (decide (x ∈ s_ID <$> steps)) as [Hx|Hx].
    - rewrite <- IH; [|intros id Hid; rewrite lookup_insert_ne by set_solver; set_solver|done].
      rewrite lookup_insert_ne by set_solver. unfold task_graph. simpl. rewrite elem_of_cons. naive_solver.
    - rewrite dep_map_lookup_aux by done. unfold task_graph. simpl. rewrite elem_of_cons.
      destruct (decide (s_ID st = x)) as [<-|Hne].
      + rewrite lookup_insert_eq, Hm by set_solver. split.
        * intros [[[= <-]|Hin]|[=]]; [done|]. destruct Hx. rewrite <- (task_graph_fst steps).
          apply list_elem_of_fmap. by exists (s_ID st, ds).
        * intros [= <-]. by left; left.
      + rewrite lookup_insert_ne by done. split; [|by right].
        intros [[[= -> ->]|Hin]|?]; [done| |done]. destruct Hx. rewrite <- (task_graph_fst steps).
        apply list_elem_of_fmap. by exists (x, ds). }
  intros Hnd. rewrite <- Hgen by (done || intros; apply lookup_empty). rewrite lookup_empty. naive_solver.
Qed.

(** The search of a task whose step identifiers are distinct and whose dependencies are known
    never runs out of fuel, and accepts exactly the acyclic graphs. *)
Lemma validateAcyclic_spec steps fuel :
  NoDup (s_ID <$> steps) -> closed (task_graph steps) -> length steps < fuel ->
  match validateAcyclic fuel steps with
  | None => False
  | Some (Ok _) => acyclic (task_graph steps)
  | Some (Err _) => ~ acyclic (task_graph steps)
  end.
Proof.
  intros Hnd Hc Hf. unfold validateAcyclic.
  pose proof (visit_all_spec (task_graph steps) (dep_map steps)
    (fun x ds => dep_map_lookup steps x ds Hnd) Hc fuel (s_ID <$> steps) ∅) as Hv.
  unfold nodes in Hv. rewrite task_graph_fst in Hv.
  rewrite size_list_to_set_nodup, length_fmap in Hv by done.
  specialize (Hv ltac:(set_solver) Hf (search_inv_empty _)).
  destruct (visit_all _ _ _ _) as [[[vg vd]|e]|]; [|done..].
  destruct Hv as (_ & _ & (_ & order & -> & Hno & Ht) & Hall).
  apply topological_acyclic with order; [done| |done]. unfold nodes. rewrite task_graph_fst.
  intros x Hx. specialize (Hall x). set_solver.
Qed.

(** ** What task validation establishes *)

Lemma task_steps_ids_ok steps i seen seen' :
  task_steps_ids steps i seen = Ok seen' <->
  seen' = list_to_set (s_ID <$> steps) ∪ seen /\ NoDup (s_ID <$> steps) /\
  (forall id, id ∈ (s_ID <$> steps) -> id ∉ seen) /\ Forall (fun st => blank (s_ID st) = false) steps.
Proof.
  revert i seen. induction steps as [|st steps IH]; intros i seen; simpl.
  - rewrite union_empty_l_L. split; [intros [= ->]; split_and!; [done|constructor|set_solver|constructor]|].
    by intros (-> & _).
  - destruct (blank (s_ID st)) eqn:Hb.
    { split; [done|]. intros (_ & _ & _ & H%Forall_cons). destruct H. congruence. }
    case_decide as Hin.
    { split; [done|]. intros (_ & _ & H & _). exfalso. set_solver. }
    rewrite IH, NoDup_cons, Forall_cons. split.
    + intros (-> & Hnd & Hall & Hf). split_and!; [set_solver|set_solver|done|set_solver|done|done].
    + intros (-> & [Hnin Hnd] & Hall & _ & Hf). split_and!; [set_solver|done|set_solver|done].
Qed.

Lemma task_steps_deps_ok steps seen :
  task_steps_deps steps seen = Ok tt <->
  forall st d, st ∈ steps -> d ∈ s_DependsOn st -> d ∈ seen.
Proof.
  induction steps as [|st steps IH]; simpl; [set_solver|].
  destruct (first_unknown _ _) eqn:E.
  - split; [done|]. intros Hall. exfalso.
    assert (first_unknown (s_DependsOn st) seen = None) by (apply first_unknown_none; set_solver).
    congruence.
  - rewrite first_unknown_none in E. rewrite IH. set_solver.
Qed.

(** The steps of a well-formed task: a finite acyclic graph with distinct nodes. *)
Definition steps_ok (steps : list Step) : Prop :=
  Forall (fun st => blank (s_ID st) = false) steps /\
  NoDup (s_ID <$> steps) /\
  (forall st d, st ∈ steps -> d ∈ s_DependsOn st -> d ∈ (s_ID <$> steps)) /\
  acyclic (task_graph steps).

Definition task_ok (t : Task) : Prop :=
  (blank (t_Title t) = false \/ blank (t_Objective t) = false) /\
  (t_Status t = emp \/ ValidStatus (t_Status t) = true) /\
  (t_Priority t = emp \/ ValidPriority (t_Priority t) = true) /\
  steps_ok (t_Steps t) /\
  match t_Workflow t with None => True | Some w => wf_spec w end.

Lemma task_graph_closed steps :
  closed (task_graph steps) <->
  forall st d, st ∈ steps -> d ∈ s_DependsOn st -> d ∈ (s_ID <$> steps).
Proof.
  unfold closed, nodes. rewrite task_graph_fst. setoid_rewrite task_graph_depends.
  setoid_rewrite elem_of_list_to_set. naive_solver.
Qed.

Lemma unset_or_valid (s : string) (valid : string -> bool) :
  bool_decide (s <> emp) && negb (valid s) = false <-> s = emp \/ valid s = true.
Proof.
  destruct (decide (s = emp)) as [->|Hne].
  - rewrite bool_decide_eq_false_2 by (intros H; by apply H). naive_solver.
  - rewrite bool_decide_eq_true_2 by done. destruct (valid s); naive_solver.
Qed.

Lemma task_validate_cases t :
  exists r, Task_Validate t = Some r /\ (r = Ok tt <-> task_ok t).
Proof.
  unfold Task_Validate, task_ok, steps_ok.
  destruct (blank (t_Title t) && blank (t_Objective t)) eqn:E1.
  { apply andb_true_iff in E1 as [-> ->]. eexists; split; [done|]. naive_solver. }
  apply andb_false_iff in E1.
  destruct (bool_decide (t_Status t <> emp) && _) eqn:E2.
  { eexists; split; [done|]. rewrite <- (unset_or_valid (t_Status t)), E2. naive_solver. }
  apply unset_or_valid in E2. destruct (bool_decide (t_Priority t <> emp) && _) eqn:E3.
  { eexists; split; [done|]. rewrite <- (unset_or_valid (t_Priority t)), E3. naive_solver. }
  apply unset_or_valid in E3. destruct (task_steps_ids _ _ _) as [seen|e] eqn:E4.
  2: { eexists; split; [done|]. split; [done|]. intros (_ & _ & _ & (Hf & Hnd & _) & _).
       pose proof (proj2 (task_steps_ids_ok (t_Steps t) 0 ∅ _) ltac:(split_and!; [done..|set_solver|done])).
       congruence. }
  apply task_steps_ids_ok in E4 as (-> & Hnd & _ & Hf). rewrite union_empty_r_L.
  destruct (task_steps_deps _ _) as [[]|e] eqn:E5.
  2: { eexists; split; [done|]. split; [done|]. intros (_ & _ & _ & (_ & _ & Hdeps & _) & _).
       assert (task_steps_deps (t_Steps t) (list_to_set (s_ID <$> t_Steps t)) = Ok tt); [|congruence].
       apply task_steps_deps_ok. set_solver. }
  assert (Hdeps := proj1 (task_steps_deps_ok _ _) E5). setoid_rewrite elem_of_list_to_set in Hdeps.
  pose proof (validateAcyclic_spec (t_Steps t) (S (length (t_Steps t))) Hnd
                (proj2 (task_graph_closed _) Hdeps) ltac:(lia)) as Hac.
  destruct (validateAcyclic _ _) as [[[]|e]|]; [| |done].
  2: { eexists; split; [done|]. naive_solver. }
  destruct (t_Workflow t) as [w|].
  - pose proof (wspec_validate_spec w) as Hw. destruct (WSpec_Validate w) as [[]|e];
      eexists; (split; [done|]); naive_solver.
  - eexists; split; [done|]. naive_solver.
Qed.

(** [Task.Validate] always returns: the recursive cycle search ends within one level of
    recursion per step plus one. It returns no error exactly for the well-formed tasks: a non-blank
    title or objective; unset or known status and priority; non-blank, pairwise distinct step
    identifiers; dependencies that name steps of the task; an acyclic dependency relation (its
    transitive closure is irreflexive); and a valid embedded workflow. *)
Theorem task_validate_exact t :
  exists r, Task_Validate t = Some r /\ (r = Ok tt <-> task_ok t).
Proof. apply task_validate_cases. Qed.

Lemma execution_steps_valid_ok order steps :
  execution_steps_valid order steps = Ok tt <->
  forall id, id ∈ order ->
    (se_StepID (steps !!! id) = emp \/ se_StepID (steps !!! id) = id) /\
    (se_Status (steps !!! id) = emp \/ ValidStepStatus (se_Status (steps !!! id)) = true).
Proof.
  induction order as [|id rest IH]; simpl; [set_solver|].
  case_decide as Hid.
  { split; [done|]. intros H. destruct (H id); [by left|]. naive_solver. }
  destruct (bool_decide _ && _) eqn:E.
  { split; [done|]. intros H. destruct (H id) as [_ Hs]; [by left|].
    apply unset_or_valid in Hs. congruence. }
  apply unset_or_valid in E. rewrite IH. split.
  - intros H id' [->|Hin]%elem_of_cons; [|by apply H]. split; [|done].
    destruct (decide (se_StepID (steps !!! id) = emp)); [by left|]. right.
    destruct (decide (se_StepID (steps !!! id) = id)); naive_solver.
  - intros H id' Hin. apply H. by right.
Qed.

(** A well-formed execution. *)
Definition execution_ok (e : Execution) : Prop :=
  blank (x_ID e) = false /\ blank (x_TaskID e) = false /\
  (x_Status e = emp \/ ValidStatus (x_Status e) = true) /\
  (forall id se, x_Steps e !! id = Some se ->
     (se_StepID se = emp \/ se_StepID se = id) /\
     (se_Status se = emp \/ ValidStepStatus (se_Status se) = true)) /\
  match x_Workflow e with None => True | Some w => wf_spec w end.

Lemma execution_validate_ok order e :
  order ≡ₚ (map_to_list (x_Steps e)).*1 -> Execution_Validate order e = Ok tt <-> execution_ok e.
Proof.
  intros Hord. unfold Execution_Validate, execution_ok.
  destruct (blank (x_ID e)); [naive_solver|]. destruct (blank (x_TaskID e)); [naive_solver|].
  destruct (bool_decide _ && _) eqn:E.
  { rewrite <- (unset_or_valid (x_Status e)), E. naive_solver. }
  apply unset_or_valid in E.
  assert (Hs : execution_steps_valid order (x_Steps e) = Ok tt <->
    forall id se, x_Steps e !! id = Some se ->
     (se_StepID se = emp \/ se_StepID se = id) /\
     (se_Status se = emp \/ ValidStepStatus (se_Status se) = true)).
  { rewrite execution_steps_valid_ok. setoid_rewrite Hord. setoid_rewrite list_elem_of_fmap. split.
    - intros H id se Hl. pose proof (lookup_total_correct _ _ _ Hl) as Ht.
      rewrite <- Ht. apply H. exists (id, se). by rewrite elem_of_map_to_list.
    - intros H id ([? se] & -> & Hl%elem_of_map_to_list). simpl.
      rewrite (lookup_total_correct _ _ _ Hl). by apply H. }
  destruct (execution_steps_valid _ _) as [[]|err]; simpl; [|naive_solver].
  destruct (x_Workflow e) as [w|]; [|naive_solver].
  pose proof (wspec_validate_spec w). destruct (WSpec_Validate w) as [[]|]; naive_solver.
Qed.
