(* ===== verification/TaskProject.v ===== *)
(** * The task projector (src/runtime/task/projector.go)

    The state of a task is the fold of its events. [Apply] has one case per event payload;
    [ReadySteps], [AllStepsTerminal], [FailedStepIDs] and [CancelWaitingDependents] are the queries
    the executor schedules with. *)

From stdpp Require Import relations.
From S2P Require Import Prelude Event Operation Workflow Graph Task.

Abbreviation ExecutionID := string.

(** [State]. A Go map read at an absent key yields the zero value of its type ([!!!]). *)
Record State := mkState {
  st_Task : Task;
  st_Current : ExecutionID;
  st_Executions : gmap ExecutionID Execution
}.
#[global] Instance rebuild_State : Rebuild State := fun s =>
  mkState s.(st_Task) s.(st_Current) s.(st_Executions).
Definition zero_State : State := mkState zero_Task emp ∅.

(** ** Copies

    The projector never mutates its argument: it copies every map and slice it may write. A copy
    has the same value ([cloneState_id]); slices and maps that are nil stay nil. *)

Definition cloneStringMap (m : gmap string string) : gmap string string := list_to_map (map_to_list m).
Definition cloneArtifact (a : ArtifactSpec) : ArtifactSpec :=
  if 0 <? size (a_Metadata a) then a <| a_Metadata := cloneStringMap (a_Metadata a) |> else a.
Definition cloneArtifacts (l : list ArtifactSpec) : list ArtifactSpec :=
  if length l =? 0 then [] else cloneArtifact <$> l.
Definition cloneDiagnostics (l : list Diagnostic) : list Diagnostic :=
  if length l =? 0 then [] else l.
Definition cloneStepExecution (s : StepExecution) : StepExecution :=
  let s := s <| se_Artifacts := cloneArtifacts (se_Artifacts s) |> in
  let s := s <| se_Diagnostics := cloneDiagnostics (se_Diagnostics s) |> in
  if 0 <? size (se_Metadata s) then s <| se_Metadata := cloneStringMap (se_Metadata s) |> else s.
Definition cloneStepExecutions (m : gmap string StepExecution) : gmap string StepExecution :=
  if size m =? 0 then ∅ else cloneStepExecution <$> m.
Definition cloneExecution (x : Execution) : Execution :=
  let x := x <| x_Steps := cloneStepExecutions (x_Steps x) |> in
  let x := x <| x_Artifacts := cloneArtifacts (x_Artifacts x) |> in
  let x := x <| x_Diagnostics := cloneDiagnostics (x_Diagnostics x) |> in
  if 0 <? size (x_Metadata x) then x <| x_Metadata := cloneStringMap (x_Metadata x) |> else x.
Definition cloneStep (s : Step) : Step :=
  mkStep (s_ID s) (s_Title s) (s_Description s) (s_Objective s) ([] ++ s_AcceptanceCriteria s)
    (cloneArtifacts (s_Inputs s)) (cloneArtifacts (s_Outputs s)) ([] ++ s_DependsOn s) (s_Assignee s)
    (s_Profile s) ([] ++ s_Scope s)
    (if 0 <? size (s_Metadata s) then cloneStringMap (s_Metadata s) else s_Metadata s).
Definition cloneTask (t : Task) : Task :=
  let t := t <| t_AcceptanceCriteria := [] ++ t_AcceptanceCriteria t |> in
  let t := t <| t_Inputs := cloneArtifacts (t_Inputs t) |> in
  let t := t <| t_Outputs := cloneArtifacts (t_Outputs t) |> in
  let t := t <| t_Artifacts := cloneArtifacts (t_Artifacts t) |> in
  let t := t <| t_Diagnostics := cloneDiagnostics (t_Diagnostics t) |> in
  let t := t <| t_Scope := [] ++ t_Scope t |> in
  let t := t <| t_Constraints := [] ++ t_Constraints t |> in
  let t := t <| t_Labels := [] ++ t_Labels t |> in
  let t := if 0 <? size (t_Metadata t) then t <| t_Metadata := cloneStringMap (t_Metadata t) |> else t in
  if 0 <? length (t_Steps t) then t <| t_Steps := cloneStep <$> t_Steps t |> else t.
Definition cloneState (s : State) : State :=
  let s := s <| st_Task := cloneTask (st_Task s) |> in
  s <| st_Executions := cloneExecution <$> st_Executions s |>.

(** ** Helpers *)

Definition eventTime (at_ fallback : Time) : Time := if negb (time_IsZero at_) then at_ else fallback.
Definition firstTaskID (a b : string) : string := if decide (a <> emp) then a else b.
Definition firstNonEmpty (a b : string) : string := if decide (a <> emp) then a else b.

Definition appendDiagnostic (l : list Diagnostic) (d : Diagnostic) : list Diagnostic :=
  if decide (d_Code d = emp /\ d_Message d = emp /\ d_Target d = emp) then cloneDiagnostics l
  else cloneDiagnostics l ++ [d].

Definition appendArtifact (l : list ArtifactSpec) (a : ArtifactSpec) : list ArtifactSpec :=
  cloneArtifacts l ++ [cloneArtifact a].

(** The loop of [updateArtifact]: the first artifact with the identifier is replaced. *)
Fixpoint replace_first (l : list ArtifactSpec) (id : string) (a : ArtifactSpec) : list ArtifactSpec :=
  match l with
  | [] => []
  | x :: rest =>
      if decide (a_ID x = id)
      then cloneArtifact (if decide (a_ID a = emp) then a <| a_ID := id |> else a) :: rest
      else x :: replace_first rest id a
  end.
Definition updateArtifact (l : list ArtifactSpec) (id : string) (a : ArtifactSpec) : list ArtifactSpec :=
  replace_first (cloneArtifacts l) id a.
Definition removeArtifact (l : list ArtifactSpec) (id : string) : list ArtifactSpec :=
  cloneArtifact <$> filter (fun a => a_ID a <> id) l.

(** [State.setExecution] and [State.execution]. *)
Definition setExecution (s : State) (x : Execution) : State :=
  s <| st_Executions := <[x_ID x := x]> (st_Executions s) |>.
Definition execution (s : State) (id : ExecutionID) : Execution :=
  let x := match st_Executions s !! id with
           | Some x => x
           | None => zero_Execution <| x_ID := id |> <| x_TaskID := t_ID (st_Task s) |>
           end in
  x <| x_Steps := cloneStepExecutions (x_Steps x) |>.

(** The body shared by the loops of [ensureExecutionSteps] and [reconcileExecutionSteps]: fill the
    unset fields of a step's entry. *)
Definition fill_step (step : Step) (e : StepExecution) : StepExecution :=
  let e := if decide (se_StepID e = emp) then e <| se_StepID := s_ID step |> else e in
  let e := if decide (se_Status e = emp) then e <| se_Status := StepStatusWaiting |> else e in
  let e := if decide (se_Assignee e = emp) then e <| se_Assignee := s_Assignee step |> else e in
  if decide (se_Profile e = emp) then e <| se_Profile := s_Profile step |> else e.

Definition ensureExecutionSteps (steps : list Step) (existing : gmap string StepExecution)
    : gmap string StepExecution :=
  fold_left (fun out step => <[s_ID step := fill_step step (out !!! s_ID step)]> out) steps
    (cloneStepExecutions existing).
Definition reconcileExecutionSteps (steps : list Step) (existing : gmap string StepExecution)
    : gmap string StepExecution :=
  fold_left (fun out step => <[s_ID step := fill_step step (existing !!! s_ID step)]> out) steps ∅.
Definition reconcileExecutions (s : State) : State :=
  s <| st_Executions :=
    (fun x => x <| x_Steps := reconcileExecutionSteps (t_Steps (st_Task s)) (x_Steps x) |>)
      <$> st_Executions s |>.

(** [exec.Steps[id] = step]. *)
Definition set_step (x : Execution) (id : string) (e : StepExecution) : Execution :=
  x <| x_Steps := <[id := e]> (x_Steps x) |>.
(** [state.CurrentExecution = id; state.setExecution(exec)]. *)
Definition make_current (s : State) (id : ExecutionID) (x : Execution) : State :=
  setExecution (s <| st_Current := id |>) x.
Definition task_error (code message : string) : option OpError := Some (mkOpError code message).

Definition applyStepTerminal (s : State) (xid : ExecutionID) (sid : string) (status : StepStatus)
    (output : Value) (err : option OpError) (at_ : Time) : State :=
  let x := execution s xid in
  let e := x_Steps x !!! sid in
  let e := e <| se_StepID := sid |> <| se_Status := status |> <| se_Output := output |> <| se_Error := err |> in
  let e := e <| se_UpdatedAt := eventTime at_ (se_UpdatedAt e) |> in
  let e := e <| se_CompletedAt := eventTime at_ (se_CompletedAt e) |> in
  make_current s xid (set_step x sid e).

Definition applyExecutionTerminal (s : State) (xid : ExecutionID) (status : Status) (output : Value)
    (err : option OpError) (at_ : Time) : State :=
  let x := execution s xid in
  let x := x <| x_Status := status |> <| x_Output := output |> <| x_Error := err |> in
  let x := x <| x_CompletedAt := eventTime at_ (x_CompletedAt x) |> in
  let t := (st_Task s) <| t_Status := status |> in
  let t := t <| t_UpdatedAt := eventTime at_ (t_UpdatedAt t) |> in
  make_current (s <| st_Task := t |>) xid x.

(** The scope switch of the three artifact events, with the list operation as an argument. *)
Definition on_artifacts (f : list ArtifactSpec -> list ArtifactSpec) (s : State) (xid sid : string)
    (at_ : Time) : State :=
  if decide (xid <> emp /\ sid <> emp) then
    let x := execution s xid in
    let e := x_Steps x !!! sid in
    let e := e <| se_StepID := sid |> <| se_Artifacts := f (se_Artifacts e) |> in
    let e := e <| se_UpdatedAt := eventTime at_ (se_UpdatedAt e) |> in
    make_current s xid (set_step x sid e)
  else if decide (xid <> emp) then
    let x := execution s xid in
    make_current s xid (x <| x_Artifacts := f (x_Artifacts x) |>)
  else
    let t := (st_Task s) <| t_Artifacts := f (t_Artifacts (st_Task s)) |> in
    s <| st_Task := t <| t_UpdatedAt := eventTime at_ (t_UpdatedAt t) |> |>.
Definition updateScopedArtifact (s : State) (xid sid aid : string) (a : ArtifactSpec) (at_ : Time) : State :=
  on_artifacts (fun l => updateArtifact l aid a) s xid sid at_.
Definition removeScopedArtifact (s : State) (xid sid aid : string) (at_ : Time) : State :=
  on_artifacts (fun l => removeArtifact l aid) s xid sid at_.

Definition with_task_id (s : State) (id : string) : State :=
  s <| st_Task := (st_Task s) <| t_ID := firstTaskID (t_ID (st_Task s)) id |> |>.
Definition with_owner (x : Execution) (xid tid : string) : Execution :=
  let x := if decide (x_ID x = emp) then x <| x_ID := xid |> else x in
  if decide (x_TaskID x = emp) then x <| x_TaskID := tid |> else x.

(** ** Applying one event *)

Definition apply_created (s : State) (tid : string) (task : Task) (at_ : Time) : State :=
  let t := cloneTask task in
  let t := if decide (t_ID t = emp) then t <| t_ID := tid |> else t in
  let t := if decide (t_Status t = emp) then t <| t_Status := StatusDraft |> else t in
  let t := if time_IsZero (t_CreatedAt t) then t <| t_CreatedAt := at_ |> else t in
  s <| st_Task := t <| t_UpdatedAt := eventTime at_ (t_UpdatedAt t) |> |>.

Definition apply_revised (s : State) (tid : string) (task : Task) (at_ : Time) : State :=
  let t := cloneTask task in
  let t := if decide (t_ID t = emp) then t <| t_ID := tid |> else t in
  let t := if decide (t_Status t = emp) then t <| t_Status := t_Status (st_Task s) |> else t in
  let t := if time_IsZero (t_CreatedAt t) then t <| t_CreatedAt := t_CreatedAt (st_Task s) |> else t in
  let t := t <| t_UpdatedAt := eventTime at_ (t_UpdatedAt t) |> in
  reconcileExecutions (s <| st_Task := t |>).

Definition apply_execution_started (s : State) (tid xid : string) (started : Execution) (at_ : Time) : State :=
  let xid := if decide (xid = emp) then x_ID started else xid in
  if decide (xid = emp) then s else
  let x := cloneExecution started in
  let x := x <| x_ID := xid |> in
  let x := if decide (x_TaskID x = emp) then x <| x_TaskID := tid |> else x in
  let x := if decide (x_Status x = emp) then x <| x_Status := StatusRunning |> else x in
  let x := if time_IsZero (x_StartedAt x) then x <| x_StartedAt := at_ |> else x in
  let x := x <| x_Steps := ensureExecutionSteps (t_Steps (st_Task s)) (x_Steps x) |> in
  let s := with_task_id s tid in
  let s := s <| st_Task := (st_Task s) <| t_Status := StatusRunning |> |> in
  make_current s (x_ID x) x.

Definition apply_lease_renewed (s : State) (tid xid wid lid : string) (expires : Time) : State :=
  let x := with_owner (execution s xid) xid tid in
  if decide (x_Status x = StatusRunning) then
    let x := if decide (wid <> emp) then x <| x_WorkerID := wid |> else x in
    let x := if decide (lid <> emp) then x <| x_LeaseID := lid |> else x in
    setExecution s (x <| x_LeaseExpiresAt := expires |>)
  else s.

Definition apply_interrupted (s : State) (tid xid reason : string) : State :=
  let x := execution s xid in
  let x := x <| x_ID := xid |> <| x_TaskID := tid |> <| x_Status := StatusInterrupted |> in
  let x := x <| x_Error := task_error "task_execution_interrupted" reason |> in
  let s := s <| st_Task := (st_Task s) <| t_Status := StatusInterrupted |> |> in
  make_current s xid x.

Definition apply_dispatched (s : State) (xid sid : string) (assignee : Role) (profile external : string)
    (at_ : Time) : State :=
  let x := execution s xid in
  let e := x_Steps x !!! sid in
  let e := e <| se_StepID := sid |> <| se_Status := StepStatusRunning |> <| se_Assignee := assignee |> in
  let e := e <| se_Profile := profile |> <| se_ExternalID := external |> in
  let e := e <| se_StartedAt := eventTime at_ (se_StartedAt e) |> in
  let e := e <| se_UpdatedAt := eventTime at_ (se_UpdatedAt e) |> in
  make_current s xid ((set_step x sid e) <| x_Status := StatusRunning |>).

Definition apply_progressed (s : State) (xid sid message : string) (at_ : Time) : State :=
  let x := execution s xid in
  let e := x_Steps x !!! sid in
  let e := e <| se_StepID := sid |> in
  let e := if decide (se_Status e = emp) then e <| se_Status := StepStatusRunning |> else e in
  let e := e <| se_LastProgress := message |> in
  let e := e <| se_UpdatedAt := eventTime at_ (se_UpdatedAt e) |> in
  make_current s xid (set_step x sid e).

Definition apply_step_status (s : State) (tid xid sid : string) (current : StepStatus) (output : Value)
    (at_ : Time) : State :=
  let xid := if decide (xid = emp) then st_Current s else xid in
  let xid := if decide (xid = emp) then "manual"%string else xid in
  let x := with_owner (execution s xid) xid tid in
  let e := x_Steps x !!! sid in
  let e := e <| se_StepID := sid |> <| se_Status := current |> in
  let e := e <| se_UpdatedAt := eventTime at_ (se_UpdatedAt e) |> in
  let e := if StepTerminal current
           then let e := e <| se_Output := output |> in
                e <| se_CompletedAt := eventTime at_ (se_CompletedAt e) |>
           else e <| se_Output := VNil |> <| se_CompletedAt := 0%Z |> <| se_Error := None |> in
  make_current s xid (set_step x sid e).

(** [state.Task.UpdatedAt = eventTime(at, state.Task.UpdatedAt)]. *)
Definition touch (s : State) (at_ : Time) : State :=
  s <| st_Task := (st_Task s) <| t_UpdatedAt := eventTime at_ (t_UpdatedAt (st_Task s)) |> |>.

Definition apply_diagnostic (s : State) (tid xid sid : string) (d : Diagnostic) (at_ : Time) : State :=
  let s := touch (with_task_id s tid) at_ in
  let xid := if decide (xid = emp) then st_Current s else xid in
  if decide (xid = emp) then
    s <| st_Task := (st_Task s) <| t_Diagnostics := appendDiagnostic (t_Diagnostics (st_Task s)) d |> |>
  else
    let x := with_owner ((execution s xid) <| x_ID := xid |>) xid tid in
    if decide (sid <> emp) then
      let e := x_Steps x !!! sid in
      let e := e <| se_StepID := sid |> <| se_Diagnostics := appendDiagnostic (se_Diagnostics e) d |> in
      let e := e <| se_UpdatedAt := eventTime at_ (se_UpdatedAt e) |> in
      setExecution s (set_step x sid e)
    else setExecution s (x <| x_Diagnostics := appendDiagnostic (x_Diagnostics x) d |>).

(** [Apply]. *)
Definition Apply (state : State) (payload : TaskEvent) (at_ : Time) : State :=
  let s := cloneState state in
  match payload with
  | Created tid task => apply_created s tid task at_
  | Revised tid task _ => apply_revised s tid task at_
  | StatusChanged tid _ current _ =>
      let s := with_task_id s tid in
      let t := (st_Task s) <| t_Status := current |> in
      s <| st_Task := t <| t_UpdatedAt := eventTime at_ (t_UpdatedAt t) |> |>
  | ArtifactAdded tid xid sid a => on_artifacts (fun l => appendArtifact l a) (with_task_id s tid) xid sid at_
  | ArtifactUpdated tid xid sid aid a => updateScopedArtifact (with_task_id s tid) xid sid aid a at_
  | ArtifactRemoved tid xid sid aid _ => removeScopedArtifact (with_task_id s tid) xid sid aid at_
  | ExecutionStarted tid xid x => apply_execution_started s tid xid x at_
  | ExecutionLeaseRenewed tid xid wid lid expires => apply_lease_renewed s tid xid wid lid expires
  | ExecutionInterrupted tid xid reason => apply_interrupted s tid xid reason
  | StepDispatched _ xid sid _ assignee profile external =>
      apply_dispatched s xid sid assignee profile external at_
  | StepProgressed _ xid sid message => apply_progressed s xid sid message at_
  | StepStatusChanged tid xid sid _ current _ output => apply_step_status s tid xid sid current output at_
  | StepCompleted _ xid sid output => applyStepTerminal s xid sid StepStatusCompleted output None at_
  | StepFailed _ xid sid err => applyStepTerminal s xid sid StepStatusFailed VNil err at_
  | StepCancelled _ xid sid reason =>
      applyStepTerminal s xid sid StepStatusCancelled VNil (task_error "task_step_cancelled" reason) at_
  | ExecutionCompleted _ xid output => applyExecutionTerminal s xid StatusCompleted output None at_
  | ExecutionFailed _ xid err => applyExecutionTerminal s xid StatusFailed VNil err at_
  | ExecutionCancelled _ xid reason =>
      applyExecutionTerminal s xid StatusCancelled VNil (task_error "task_execution_cancelled" reason) at_
  | SchedulerDiagnostic tid xid sid d => apply_diagnostic s tid xid sid d at_
  | CreateRequested _ _ | Indexed _ _ | WorkerRegistered _ => s
  end.

(** [Project]; a record is seen as its payload and its time. *)
Definition Project (records : list (TaskEvent * Time)) : State :=
  fold_left (fun s r => Apply s r.1 r.2) records zero_State.

(** ** Queries *)

Definition current_execution (s : State) : option Execution := st_Executions s !! st_Current s.
Definition step_status (x : Execution) (id : string) : StepStatus := se_Status (x_Steps x !!! id).
Definition is_waiting (status : StepStatus) : bool := bool_decide (status = emp \/ status = StepStatusWaiting).

Definition dependenciesCompleted (step : Step) (x : Execution) : bool :=
  forallb (fun dep => bool_decide (step_status x dep = StepStatusCompleted)) (s_DependsOn step).

Definition hasBlockedDependency (step : Step) (x : Execution) : bool :=
  existsb (fun dep => bool_decide (step_status x dep ∈
             [StepStatusFailed; StepStatusCancelled; StepStatusSkipped])) (s_DependsOn step).

Definition ReadySteps (s : State) : list Step :=
  match current_execution s with
  | None => []
  | Some x =>
      filter (fun step => is_waiting (step_status x (s_ID step)) && dependenciesCompleted step x = true)
        (t_Steps (st_Task s))
  end.

Definition AllStepsTerminal (s : State) : bool :=
  match current_execution s with
  | None => false
  | Some x =>
      if length (t_Steps (st_Task s)) =? 0 then false
      else forallb (fun step =>
             let status := step_status x (s_ID step) in
             StepTerminal status || (is_waiting status && hasBlockedDependency step x)) (t_Steps (st_Task s))
  end.

Definition FailedStepIDs (s : State) : list string :=
  match current_execution s with
  | None => []
  | Some x => s_ID <$> filter (fun step => step_status x (s_ID step) = StepStatusFailed) (t_Steps (st_Task s))
  end.

(** *** Cancelling the dependents of failed steps *)

(** The cancelled entry of a step whose dependency [dep] failed. *)
Definition cancelled_entry (id dep reason : string) (at_ : Time) (e : StepExecution) : StepExecution :=
  let e := e <| se_StepID := id |> <| se_Status := StepStatusCancelled |> in
  let e := e <| se_Error := task_error "task_step_cancelled"
                              (firstNonEmpty reason ("dependency failed: " ++ dep)%string) |> in
  e <| se_CompletedAt := eventTime at_ (se_CompletedAt e) |>.

(** One round of the outer loop: the entries, the set [failed] and the flag [changed]. *)
Definition cancel_one (reason : string) (at_ : Time)
    (acc : gmap string StepExecution * gset string * bool) (step : Step)
    : gmap string StepExecution * gset string * bool :=
  let '(m, failed, changed) := acc in
  let current := m !!! s_ID step in
  if is_waiting (se_Status current) then
    match list_find (fun dep => dep ∈ failed) (s_DependsOn step) with
    | None => acc
    | Some (_, dep) =>
        (<[s_ID step := cancelled_entry (s_ID step) dep reason at_ current]> m, {[s_ID step]} ∪ failed, true)
    end
  else acc.
Definition cancel_round (reason : string) (at_ : Time) (steps : list Step)
    (m : gmap string StepExecution) (failed : gset string) : gmap string StepExecution * gset string * bool :=
  fold_left (cancel_one reason at_) steps (m, failed, false).

Fixpoint cancel_loop (fuel : nat) (reason : string) (at_ : Time) (steps : list Step)
    (m : gmap string StepExecution) (failed : gset string) : option (gmap string StepExecution) :=
  match fuel with
  | O => None
  | S fuel' =>
      let '(m', failed', changed) := cancel_round reason at_ steps m failed in
      if (changed : bool) then cancel_loop fuel' reason at_ steps m' failed' else Some m'
  end.

Definition failed_ids (m : gmap string StepExecution) : gset string :=
  dom (filter (fun p => se_Status p.2 = StepStatusFailed) m).

(** [CancelWaitingDependents]; [None] is "out of fuel", excluded by [cancel_waiting_exact]. *)
Definition CancelWaitingDependents (state : State) (reason : string) (at_ : Time) : option State :=
  let s := cloneState state in
  match current_execution s with
  | None => Some s
  | Some x =>
      let steps := t_Steps (st_Task s) in
      match cancel_loop (S (length steps)) reason at_ steps (x_Steps x) (failed_ids (x_Steps x)) with
      | None => None
      | Some m => Some (s <| st_Executions := <[st_Current s := x <| x_Steps := m |>]> (st_Executions s) |>)
      end
  end.

(** [MarkInterrupted]. *)
Definition MarkInterrupted (state : State) (reason : string) (at_ : Time) : State :=
  let s := cloneState state in
  match current_execution s with
  | None => s
  | Some x =>
      if decide (x_Status x <> StatusRunning) then s else
      let x := x <| x_Status := StatusInterrupted |>
                 <| x_Error := task_error "task_execution_interrupted" reason |> in
      let t := (st_Task s) <| t_Status := StatusInterrupted |> in
      let s := s <| st_Task := t <| t_UpdatedAt := eventTime at_ (t_UpdatedAt t) |> |> in
      s <| st_Executions := <[st_Current s := x]> (st_Executions s) |>
  end.

(** ** Copies are equal to what they copy *)

Lemma fmap_same {A} (f : A -> A) (l : list A) : (forall x, f x = x) -> f <$> l = l.
Proof. intros Hf. rewrite <- (list_fmap_id l) at 2. apply list_fmap_ext. intros. apply Hf. Qed.

Lemma cloneStringMap_id m : cloneStringMap m = m.
Proof. apply list_to_map_to_list. Qed.
#[export] Hint Rewrite cloneStringMap_id : clone.

Lemma cloneArtifact_id a : cloneArtifact a = a.
Proof. unfold cloneArtifact. destruct a; simpl. autorewrite with clone. by case_match. Qed.
#[export] Hint Rewrite cloneArtifact_id : clone.

Lemma cloneArtifacts_id l : cloneArtifacts l = l.
Proof.
  unfold cloneArtifacts. case_match; [by destruct l|]. apply fmap_same. intros. apply cloneArtifact_id.
Qed.
#[export] Hint Rewrite cloneArtifacts_id : clone.

Lemma cloneDiagnostics_id l : cloneDiagnostics l = l.
Proof. by destruct l. Qed.
#[export] Hint Rewrite cloneDiagnostics_id : clone.

Lemma cloneStepExecution_id e : cloneStepExecution e = e.
Proof. unfold cloneStepExecution. destruct e; simpl. autorewrite with clone. by case_match. Qed.
#[export] Hint Rewrite cloneStepExecution_id : clone.

Lemma cloneStepExecutions_id m : cloneStepExecutions m = m.
Proof.
  unfold cloneStepExecutions. destruct (size m =? 0) eqn:E.
  - apply Nat.eqb_eq, map_size_empty_inv in E. done.
  - apply map_eq. intros i. rewrite lookup_fmap. destruct (m !! i); simpl; by autorewrite with clone.
Qed.
#[export] Hint Rewrite cloneStepExecutions_id : clone.

Lemma cloneExecution_id x : cloneExecution x = x.
Proof. unfold cloneExecution. destruct x; simpl. autorewrite with clone. by case_match. Qed.
#[export] Hint Rewrite cloneExecution_id : clone.

Lemma cloneStep_id s : cloneStep s = s.
Proof. unfold cloneStep. destruct s; simpl. autorewrite with clone. by case_match. Qed.
#[export] Hint Rewrite cloneStep_id : clone.

Lemma cloneTask_id t : cloneTask t = t.
Proof.
  unfold cloneTask. rewrite (fmap_same cloneStep _ cloneStep_id). destruct t. simpl.
  autorewrite with clone. by repeat case_match.
Qed.
#[export] Hint Rewrite cloneTask_id : clone.

Lemma cloneState_id s : cloneState s = s.
Proof.
  unfold cloneState. destruct s as [t c xs]; simpl. autorewrite with clone. f_equal.
  apply map_eq. intros i. rewrite lookup_fmap. destruct (xs !! i); simpl; by autorewrite with clone.
Qed.
#[export] Hint Rewrite cloneState_id : clone.

(** ** Reading the state after a write *)

Lemma execution_spec s id :
  execution s id = default (zero_Execution <| x_ID := id |> <| x_TaskID := t_ID (st_Task s) |>)
                           (st_Executions s !! id).
Proof.
  unfold execution. destruct (st_Executions s !! id) as [[]|]; simpl; by autorewrite with clone.
Qed.

Lemma setExecution_lookup s x id :
  st_Executions (setExecution s x) !! id = if decide (id = x_ID x) then Some x else st_Executions s !! id.
Proof.
  unfold setExecution. simpl. case_decide; subst; [apply lookup_insert_eq|by apply lookup_insert_ne].
Qed.

Lemma lookup_total_step (m : gmap string StepExecution) i (e : StepExecution) j :
  <[i := e]> m !!! j = if decide (i = j) then e else m !!! j.
Proof. case_decide; subst; [apply lookup_total_insert_eq|by apply lookup_total_insert_ne]. Qed.

(** ** The invariant of projected states *)

Definition known (valid : string -> bool) (s : string) : Prop := s = emp \/ valid s = true.

Record step_entry_ok (sid : string) (e : StepExecution) : Prop := {
  entry_step_id : se_StepID e = emp \/ se_StepID e = sid;
  entry_status : known ValidStepStatus (se_Status e)
}.
Record execution_entry_ok (xid : string) (x : Execution) : Prop := {
  entry_id : x_ID x = xid;
  entry_x_status : known ValidStatus (x_Status x);
  entry_steps : map_Forall step_entry_ok (x_Steps x)
}.
Record state_ok (s : State) : Prop := {
  state_status : known ValidStatus (t_Status (st_Task s));
  state_executions : map_Forall execution_entry_ok (st_Executions s);
  state_current : st_Current s = emp \/ is_Some (st_Executions s !! st_Current s)
}.

(** The statuses an event carries are known ones. *)
Definition event_ok (e : TaskEvent) : Prop :=
  match e with
  | Created _ t | Revised _ t _ => known ValidStatus (t_Status t)
  | StatusChanged _ _ current _ => known ValidStatus current
  | ExecutionStarted _ _ x => known ValidStatus (x_Status x) /\ map_Forall step_entry_ok (x_Steps x)
  | StepStatusChanged _ _ _ _ current _ _ => known ValidStepStatus current
  | _ => True
  end.

Lemma known_valid (valid : string -> bool) s : valid s = true -> known valid s.
Proof. by right. Qed.


Ltac known_status := first [assumption | by left | apply known_valid; by vm_compute].

Section Invariant.
Implicit Types (s : State) (x : Execution) (e : StepExecution).

Lemma step_entry_lookup xid x sid : execution_entry_ok xid x -> step_entry_ok sid (x_Steps x !!! sid).
Proof.
  intros Hx. rewrite lookup_total_alt. destruct (x_Steps x !! sid) as [e|] eqn:E; simpl.
  - by apply (entry_steps _ _ Hx).
  - split; by left.
Qed.

Lemma set_step_ok xid x sid e :
  execution_entry_ok xid x -> step_entry_ok sid e -> execution_entry_ok xid (set_step x sid e).
Proof. intros [] He. split; [done..|]. by apply map_Forall_insert_2. Qed.

Lemma execution_entry s xid : state_ok s -> execution_entry_ok xid (execution s xid).
Proof.
  intros Hs. rewrite execution_spec. destruct (st_Executions s !! xid) as [x|] eqn:E; simpl.
  - by apply (state_executions _ Hs).
  - split; [done|by left|apply map_Forall_empty].
Qed.

Lemma with_task_ok s t :
  state_ok s -> known ValidStatus (t_Status t) -> state_ok (s <| st_Task := t |>).
Proof. intros [] ?. by split. Qed.

Lemma setExecution_ok s xid x :
  state_ok s -> execution_entry_ok xid x -> state_ok (setExecution s x).
Proof.
  intros [] Hx. pose proof (entry_id _ _ Hx) as <-. split; [done|by apply map_Forall_insert_2|].
  destruct state_current0 as [|[x' ?]]; [by left|right].
  rewrite setExecution_lookup. case_decide; by eexists.
Qed.

Lemma make_current_ok s xid x :
  state_ok s -> execution_entry_ok xid x -> state_ok (make_current s xid x).
Proof.
  intros [] Hx. pose proof (entry_id _ _ Hx) as Hid. subst xid.
  split; [done|by apply map_Forall_insert_2|]. right. unfold make_current.
  rewrite setExecution_lookup. by rewrite decide_True by done.
Qed.

Lemma fill_step_ok step e : step_entry_ok (s_ID step) e -> step_entry_ok (s_ID step) (fill_step step e).
Proof.
  intros [[Hid|Hid] Hst]; unfold fill_step; split; repeat case_decide; simpl in *; auto;
    try (by right); try known_status; congruence.
Qed.

Lemma fill_fold_ok steps (src : gmap string StepExecution -> gmap string StepExecution) m :
  (forall m', map_Forall step_entry_ok m' -> map_Forall step_entry_ok (src m')) ->
  map_Forall step_entry_ok m ->
  map_Forall step_entry_ok
    (fold_left (fun out step => <[s_ID step := fill_step step (src out !!! s_ID step)]> out) steps m).
Proof.
  intros Hsrc. revert m. induction steps as [|step steps IH]; intros m Hm; simpl; [done|].
  apply IH. apply map_Forall_insert_2; [|done]. apply fill_step_ok.
  rewrite lookup_total_alt. destruct (src m !! s_ID step) as [e|] eqn:E; simpl.
  - by apply (Hsrc m Hm).
  - split; by left.
Qed.

Lemma ensure_ok steps m : map_Forall step_entry_ok m -> map_Forall step_entry_ok (ensureExecutionSteps steps m).
Proof.
  intros Hm. unfold ensureExecutionSteps. rewrite cloneStepExecutions_id. by apply (fill_fold_ok steps id).
Qed.

Lemma reconcile_ok steps m : map_Forall step_entry_ok m -> map_Forall step_entry_ok (reconcileExecutionSteps steps m).
Proof.
  intros Hm. unfold reconcileExecutionSteps. apply (fill_fold_ok steps (fun _ => m)); [done|].
  apply map_Forall_empty.
Qed.

Lemma reconcileExecutions_ok s : state_ok s -> state_ok (reconcileExecutions s).
Proof.
  intros []. split; simpl; [done| |].
  - intros id x. rewrite lookup_fmap. intros (x' & Hx & ->)%fmap_Some. simpl.
    destruct (state_executions0 id x' Hx). split; [done..|]. by apply reconcile_ok.
  - destruct state_current0 as [|[x Hx]]; [by left|right]. rewrite lookup_fmap, Hx. by eexists.
Qed.

Lemma applyStepTerminal_ok s xid sid status output err at_ :
  state_ok s -> known ValidStepStatus status -> state_ok (applyStepTerminal s xid sid status output err at_).
Proof.
  intros Hs Hst. apply make_current_ok; [done|]. apply set_step_ok; [by apply execution_entry|].
  split; [by right|done].
Qed.

Lemma on_artifacts_ok f s xid sid at_ : state_ok s -> state_ok (on_artifacts f s xid sid at_).
Proof.
  intros Hs. unfold on_artifacts. pose proof (execution_entry s xid Hs) as Hx. repeat case_decide.
  - apply make_current_ok; [done|]. apply set_step_ok; [done|]. split; [by right|].
    simpl. apply (step_entry_lookup _ _ sid Hx).
  - apply make_current_ok; [done|]. by destruct Hx.
  - apply with_task_ok; [done|]. apply Hs.
Qed.

Lemma with_owner_ok x xid tid : execution_entry_ok xid x -> execution_entry_ok xid (with_owner x xid tid).
Proof. intros []. unfold with_owner. repeat case_decide; split; done. Qed.
End Invariant.

Lemma apply_started_ok s tid xid x at_ :
  state_ok s -> event_ok (ExecutionStarted tid xid x) -> state_ok (apply_execution_started s tid xid x at_).
Proof.
  intros Hs [Hst Hsteps]. unfold apply_execution_started.
  generalize (if decide (xid = emp) then x_ID x else xid). intros id. case_decide; [done|]. apply make_current_ok.
  - apply (with_task_ok (with_task_id s tid)); [|simpl; known_status].
    apply with_task_ok; [done|]. apply Hs.
  - rewrite cloneExecution_id. repeat case_match; (split; simpl;
      [done|first [done|known_status]|by apply ensure_ok]).
Qed.


Lemma with_task_id_ok s tid : state_ok s -> state_ok (with_task_id s tid).
Proof. intros Hs. apply with_task_ok; [done|]. apply Hs. Qed.

Lemma apply_created_ok s tid t at_ :
  state_ok s -> known ValidStatus (t_Status t) -> state_ok (apply_created s tid t at_).
Proof.
  intros Hs Ht. apply with_task_ok; [done|]. rewrite cloneTask_id.
  repeat case_match; simpl; first [done|known_status].
Qed.

Lemma apply_revised_ok s tid t at_ :
  state_ok s -> known ValidStatus (t_Status t) -> state_ok (apply_revised s tid t at_).
Proof.
  intros Hs Ht. apply reconcileExecutions_ok, with_task_ok; [done|]. rewrite cloneTask_id.
  repeat case_match; simpl; first [done|apply Hs].
Qed.

Lemma apply_lease_renewed_ok s tid xid wid lid expires :
  state_ok s -> state_ok (apply_lease_renewed s tid xid wid lid expires).
Proof.
  intros Hs. unfold apply_lease_renewed.
  pose proof (with_owner_ok _ xid tid (execution_entry s xid Hs)) as Hx.
  case_decide; [|done]. apply setExecution_ok with xid; [done|].
  destruct Hx. repeat case_decide; by split.
Qed.

Lemma apply_interrupted_ok s tid xid reason : state_ok s -> state_ok (apply_interrupted s tid xid reason).
Proof.
  intros Hs. pose proof (execution_entry s xid Hs) as Hx. apply make_current_ok.
  - apply with_task_ok; [done|]. known_status.
  - split; [done|known_status|apply Hx].
Qed.

Lemma apply_dispatched_ok s xid sid assignee profile external at_ :
  state_ok s -> state_ok (apply_dispatched s xid sid assignee profile external at_).
Proof.
  intros Hs. apply make_current_ok; [done|].
  match goal with |- execution_entry_ok _ ((set_step ?x ?i ?e) <| x_Status := _ |>) =>
    assert (Hx : execution_entry_ok xid (set_step x i e)) end.
  { apply set_step_ok; [by apply execution_entry|]. split; [by right|known_status]. }
  split; [apply Hx|known_status|apply Hx].
Qed.

Lemma apply_progressed_ok s xid sid message at_ :
  state_ok s -> state_ok (apply_progressed s xid sid message at_).
Proof.
  intros Hs. pose proof (execution_entry s xid Hs) as Hx. apply make_current_ok; [done|].
  apply set_step_ok; [done|]. pose proof (step_entry_lookup _ _ sid Hx) as [_ Hst].
  case_match; (split; [by right|]); [known_status|done].
Qed.

Lemma apply_step_status_ok s tid xid sid current output at_ :
  state_ok s -> known ValidStepStatus current -> state_ok (apply_step_status s tid xid sid current output at_).
Proof.
  intros Hs Hc. unfold apply_step_status.
  generalize (if decide (xid = emp) then st_Current s else xid). intros id.
  generalize (if decide (id = emp) then "manual"%string else id). intros id'.
  apply make_current_ok; [done|]. apply set_step_ok; [by apply with_owner_ok, execution_entry|].
  case_match; (split; [by right|done]).
Qed.

Lemma applyExecutionTerminal_ok s xid status output err at_ :
  state_ok s -> known ValidStatus status -> state_ok (applyExecutionTerminal s xid status output err at_).
Proof.
  intros Hs Hst. pose proof (execution_entry s xid Hs) as Hx. apply make_current_ok.
  - by apply with_task_ok.
  - split; [apply Hx|done|apply Hx].
Qed.

Lemma apply_diagnostic_ok s tid xid sid d at_ : state_ok s -> state_ok (apply_diagnostic s tid xid sid d at_).
Proof.
  intros Hs. unfold apply_diagnostic.
  assert (Hs1 : state_ok (touch (with_task_id s tid) at_)).
  { apply with_task_ok; [by apply with_task_id_ok|apply Hs]. }
  revert Hs1. generalize (touch (with_task_id s tid) at_). intros s1 Hs1.
  generalize (if decide (xid = emp) then st_Current s1 else xid). intros id.
  case_decide; [apply with_task_ok; [done|apply Hs1]|].
  assert (Hx : execution_entry_ok id (with_owner ((execution s1 id) <| x_ID := id |>) id tid)).
  { apply with_owner_ok. pose proof (execution_entry s1 id Hs1) as Hx. split; [done|apply Hx..]. }
  case_decide; apply setExecution_ok with id; try done.
  - apply set_step_ok; [done|]. split; [by right|]. apply (step_entry_lookup _ _ sid Hx).
  - split; apply Hx.
Qed.

Lemma apply_ok s e at_ : state_ok s -> event_ok e -> state_ok (Apply s e at_).
Proof.
  intros Hs He. unfold Apply. rewrite cloneState_id. destruct e; simpl in He |- *.
  - done.
  - by apply apply_created_ok.
  - by apply apply_revised_ok.
  - by apply (with_task_ok (with_task_id s taskID)); [apply with_task_id_ok|].
  - by apply on_artifacts_ok, with_task_id_ok.
  - by apply on_artifacts_ok, with_task_id_ok.
  - by apply on_artifacts_ok, with_task_id_ok.
  - by apply apply_step_status_ok.
  - done.
  - by apply apply_started_ok.
  - by apply apply_lease_renewed_ok.
  - by apply apply_interrupted_ok.
  - by apply apply_dispatched_ok.
  - by apply apply_progressed_ok.
  - apply applyStepTerminal_ok; [done|known_status].
  - apply applyStepTerminal_ok; [done|known_status].
  - apply applyStepTerminal_ok; [done|known_status].
  - apply applyExecutionTerminal_ok; [done|known_status].
  - apply applyExecutionTerminal_ok; [done|known_status].
  - apply applyExecutionTerminal_ok; [done|known_status].
  - by apply apply_diagnostic_ok.
  - done.
Qed.

(** *** Keys, whatever the events say *)

(** Executions are stored under their own identifiers, and the current one, once set, exists. *)
Definition keyed (s : State) : Prop :=
  (forall xid x, st_Executions s !! xid = Some x -> x_ID x = xid) /\ (st_Current s = emp \/ is_Some (st_Executions s !! st_Current s)).

Lemma keyed_execution s xid : keyed s -> x_ID (execution s xid) = xid.
Proof. intros [Hk _]. rewrite execution_spec. destruct (st_Executions s !! xid) as [x|] eqn:E; [by apply Hk|done]. Qed.
Lemma keyed_set s x : keyed s -> keyed (setExecution s x).
Proof.
  intros [Hk Hc]. split.
  - intros id y. rewrite setExecution_lookup. case_decide as E; [by intros [= <-]|apply Hk].
  - destruct Hc as [|[y Hy]]; [by left|right]. rewrite setExecution_lookup. case_decide; by eexists.
Qed.
Lemma keyed_current s xid x : keyed s -> x_ID x = xid -> keyed (make_current s xid x).
Proof.
  intros [Hk _] <-. split.
  - intros id y. unfold make_current. rewrite setExecution_lookup. case_decide; [by intros [= <-]|apply Hk].
  - right. unfold make_current. rewrite setExecution_lookup. by rewrite decide_True by done.
Qed.
Lemma owned_id x xid tid : x_ID x = xid -> x_ID (with_owner x xid tid) = xid.
Proof. intros E. unfold with_owner. repeat case_decide; done. Qed.
Lemma keyed_reconcile s : keyed s -> keyed (reconcileExecutions s).
Proof.
  intros [Hk Hc]. split; cbn.
  - intros xid x. rewrite lookup_fmap. intros (y & Hy & ->)%fmap_Some. exact (Hk xid y Hy).
  - rewrite lookup_fmap, fmap_is_Some. exact Hc.
Qed.
Lemma keyed_artifacts f s xid sid at_ : keyed s -> keyed (on_artifacts f s xid sid at_).
Proof. intros Hs. unfold on_artifacts. repeat case_decide; [apply keyed_current; [done|exact (keyed_execution s xid Hs)]..|exact Hs]. Qed.
Lemma keyed_started s tid xid x at_ : keyed s -> keyed (apply_execution_started s tid xid x at_).
Proof. intros Hs. unfold apply_execution_started. case_decide; [done|]. by apply keyed_current. Qed.
Lemma keyed_diagnostic s tid xid sid d at_ : keyed s -> keyed (apply_diagnostic s tid xid sid d at_).
Proof. intros Hs. unfold apply_diagnostic. generalize (if decide (xid = emp) then st_Current (touch (with_task_id s tid) at_) else xid). intros id.
  case_decide; [exact Hs|]. case_decide; apply keyed_set, Hs.
Qed.
Lemma apply_keyed s e at_ : keyed s -> keyed (Apply s e at_).
Proof.
  intros Hs. unfold Apply. rewrite cloneState_id.
  assert (Hx : forall xid, x_ID (execution s xid) = xid) by (intros xid; by apply keyed_execution).
  destruct e; cbn; first [exact Hs|by apply keyed_artifacts|by apply keyed_started|by apply keyed_diagnostic|apply keyed_reconcile; exact Hs
    |apply keyed_current; [exact Hs|first [apply Hx|apply owned_id, Hx|reflexivity]]|idtac].
  unfold apply_lease_renewed. case_decide; [by apply keyed_set|done].
Qed.
Lemma project_keyed records : keyed (Project records).
Proof.
  unfold Project. assert (H : keyed zero_State) by (split; [done|by left]). revert H. generalize zero_State.
  induction records as [|r records IH]; intros s Hs; [done|]. by apply IH, apply_keyed.
Qed.

Lemma state_ok_zero : state_ok zero_State.
Proof. split; [by left|apply map_Forall_empty|by left]. Qed.

Lemma project_ok records : Forall (fun r => event_ok r.1) records -> state_ok (Project records).
Proof.
  unfold Project. generalize zero_State state_ok_zero. induction records as [|[e at_] rs IH];
    intros s Hs Hall; simpl; [done|]. apply Forall_cons in Hall as [He Hrs]. apply IH; [|done].
  by apply apply_ok.
Qed.

(** ** Events touch one execution and one step *)

(** The execution an event is about, with the fallbacks of the code; [Revised] is about them all. *)
Definition event_target (s : State) (e : TaskEvent) : option ExecutionID :=
  let nonempty id := if decide (id = emp) then None else Some id in
  match e with
  | ArtifactAdded _ xid _ _ | ArtifactUpdated _ xid _ _ _ | ArtifactRemoved _ xid _ _ _ => nonempty xid
  | ExecutionStarted _ xid x => nonempty (if decide (xid = emp) then x_ID x else xid)
  | ExecutionLeaseRenewed _ xid _ _ _ | ExecutionInterrupted _ xid _ | StepDispatched _ xid _ _ _ _ _
  | StepProgressed _ xid _ _ | StepCompleted _ xid _ _ | StepFailed _ xid _ _ | StepCancelled _ xid _ _
  | ExecutionCompleted _ xid _ | ExecutionFailed _ xid _ | ExecutionCancelled _ xid _ => Some xid
  | StepStatusChanged _ xid _ _ _ _ _ =>
      let xid := if decide (xid = emp) then st_Current s else xid in
      Some (if decide (xid = emp) then "manual"%string else xid)
  | SchedulerDiagnostic _ xid _ _ => nonempty (if decide (xid = emp) then st_Current s else xid)
  | _ => None
  end.

(** The step an event is about. *)
Definition event_step (e : TaskEvent) : option string :=
  match e with
  | ArtifactAdded _ _ sid _ | ArtifactUpdated _ _ sid _ _ | ArtifactRemoved _ _ sid _ _
  | SchedulerDiagnostic _ _ sid _ => if decide (sid = emp) then None else Some sid
  | StepDispatched _ _ sid _ _ _ _ | StepProgressed _ _ sid _ | StepStatusChanged _ _ sid _ _ _ _
  | StepCompleted _ _ sid _ | StepFailed _ _ sid _ | StepCancelled _ _ sid _ => Some sid
  | _ => None
  end.
Definition is_revision (e : TaskEvent) : bool := match e with Revised _ _ _ => true | _ => false end.
Definition is_start (e : TaskEvent) : bool := match e with ExecutionStarted _ _ _ => true | _ => false end.

(** [s'] differs from [s] at most in execution [target], and there at most in step [step]. *)
Definition only_touches (target : option ExecutionID) (step : option string) (s s' : State) : Prop :=
  (forall id, target <> Some id -> st_Executions s' !! id = st_Executions s !! id) /\
  (forall id sid, step <> Some sid ->
     x_Steps (execution s' id) !! sid = x_Steps (execution s id) !! sid).

Section Isolation.
Implicit Types (s : State) (x : Execution) (e : StepExecution).

Lemma steps_execution s id :
  x_Steps (execution s id) = default ∅ (x_Steps <$> st_Executions s !! id).
Proof. rewrite execution_spec. by destruct (st_Executions s !! id). Qed.

Lemma only_touches_same target step s s' :
  st_Executions s' = st_Executions s -> only_touches target step s s'.
Proof. intros H. split; [by rewrite H|]. intros. by rewrite !steps_execution, H. Qed.

(** A write of an execution whose entry at every other step is the old one. *)
Lemma only_touches_write xid step s s' x :
  st_Executions s' = <[xid := x]> (st_Executions s) ->
  (forall sid, step <> Some sid -> x_Steps x !! sid = x_Steps (execution s xid) !! sid) ->
  only_touches (Some xid) step s s'.
Proof.
  intros H Hx. split.
  - intros id Hid. rewrite H, lookup_insert_ne; congruence.
  - intros id sid Hsid. destruct (decide (id = xid)) as [->|Hne].
    + rewrite <- Hx by done. by rewrite steps_execution, H, lookup_insert_eq.
    + by rewrite !steps_execution, H, lookup_insert_ne by congruence.
Qed.

Lemma only_touches_step xid sid s s' x e :
  st_Executions s' = <[xid := x]> (st_Executions s) ->
  x_Steps x = <[sid := e]> (x_Steps (execution s xid)) ->
  only_touches (Some xid) (Some sid) s s'.
Proof.
  intros H Hx. eapply only_touches_write; [done|]. intros sid' Hne.
  rewrite Hx. apply lookup_insert_ne. congruence.
Qed.

Lemma execution_id s xid : state_ok s -> x_ID (execution s xid) = xid.
Proof. intros Hs. apply (entry_id _ _ (execution_entry s xid Hs)). Qed.

Lemma with_owner_id x xid tid : x_ID x = xid -> x_ID (with_owner x xid tid) = xid.
Proof. intros. unfold with_owner. repeat case_decide; done. Qed.
Lemma with_owner_steps x xid tid : x_Steps (with_owner x xid tid) = x_Steps x.
Proof. unfold with_owner. repeat case_decide; done. Qed.
Lemma with_task_execution s tid xid :
  x_Steps (execution (with_task_id s tid) xid) = x_Steps (execution s xid).
Proof. by rewrite !steps_execution. Qed.

Lemma setExecution_executions s0 s xid x :
  st_Executions s = st_Executions s0 -> x_ID x = xid ->
  st_Executions (setExecution s x) = <[xid := x]> (st_Executions s0).
Proof. by intros <- <-. Qed.
Lemma make_current_executions s0 s xid x :
  st_Executions s = st_Executions s0 -> x_ID x = xid ->
  st_Executions (make_current s xid x) = <[xid := x]> (st_Executions s0).
Proof. by intros <- <-. Qed.

Lemma on_artifacts_touches f s tid xid sid at_ :
  state_ok s ->
  only_touches (if decide (xid = emp) then None else Some xid) (if decide (sid = emp) then None else Some sid)
    s (on_artifacts f (with_task_id s tid) xid sid at_).
Proof.
  intros Hs. pose proof (execution_id (with_task_id s tid) xid (with_task_id_ok _ _ Hs)) as Hid.
  unfold on_artifacts. destruct (decide (xid = emp)) as [->|Hx].
  { rewrite (decide_False (P := _ /\ _)), (decide_False (P := _ <> _)) by naive_solver.
    by apply only_touches_same. }
  destruct (decide (sid = emp)) as [->|Hsid].
  - rewrite (decide_False (P := _ /\ _)), (decide_True (P := _ <> _)) by naive_solver.
    eapply only_touches_write; [by apply make_current_executions|]. intros sid' _. by rewrite <- (with_task_execution s tid).
  - rewrite (decide_True (P := _ /\ _)) by done. eapply only_touches_step; [by apply make_current_executions|].
    by rewrite <- (with_task_execution s tid).
Qed.
End Isolation.

Lemma apply_touches s e at_ :
  state_ok s -> is_revision e = false -> is_start e = false ->
  only_touches (event_target s e) (event_step e) s (Apply s e at_).
Proof.
  intros Hs Hr Hst. unfold Apply. rewrite cloneState_id.
  destruct e; try done; simpl; try (by apply only_touches_same); try (by apply on_artifacts_touches).
  - unfold apply_step_status.
    generalize (if decide (executionID = emp) then st_Current s else executionID). intros id.
    generalize (if decide (id = emp) then "manual"%string else id). intros xid.
    eapply only_touches_step.
    + apply make_current_executions; [done|]. simpl. by apply with_owner_id, execution_id.
    + simpl. by rewrite with_owner_steps.
  - unfold apply_lease_renewed. destruct (decide (x_Status _ = StatusRunning)); [|by apply only_touches_same].
    eapply only_touches_write.
    + apply setExecution_executions; [done|]. repeat case_decide; simpl; by apply with_owner_id, execution_id.
    + intros sid _. repeat case_decide; simpl; by rewrite with_owner_steps.
  - by eapply only_touches_write.
  - by eapply only_touches_step; [apply make_current_executions; [|by apply execution_id]|].
  - eapply only_touches_step; [apply make_current_executions; [done|]|].
    + case_decide; by apply execution_id.
    + reflexivity.
  - by eapply only_touches_step; [apply make_current_executions; [|by apply execution_id]|].
  - by eapply only_touches_step; [apply make_current_executions; [|by apply execution_id]|].
  - by eapply only_touches_step; [apply make_current_executions; [|by apply execution_id]|].
  - by eapply only_touches_write; [apply make_current_executions; [|by apply execution_id]|].
  - by eapply only_touches_write; [apply make_current_executions; [|by apply execution_id]|].
  - by eapply only_touches_write; [apply make_current_executions; [|by apply execution_id]|].
  - unfold apply_diagnostic.
    assert (Hs1 : state_ok (touch (with_task_id s taskID) at_)).
    { apply with_task_ok; [by apply with_task_id_ok|apply Hs]. }
    change (st_Current (touch (with_task_id s taskID) at_)) with (st_Current s).
    generalize (if decide (executionID = emp) then st_Current s else executionID). intros xid.
    assert (Hx : x_Steps (execution (touch (with_task_id s taskID) at_) xid) = x_Steps (execution s xid))
      by by rewrite !steps_execution.
    destruct (decide (xid = emp)); [by apply only_touches_same|].
    destruct (decide (stepID = emp)) as [->|Hsid].
    + rewrite (decide_False (P := _ <> _)) by naive_solver. eapply only_touches_write.
      * apply setExecution_executions; [done|]. simpl. by apply with_owner_id.
      * intros sid _. rewrite <- Hx. simpl. by rewrite with_owner_steps.
    + rewrite (decide_True (P := _ <> _)) by done. eapply only_touches_step.
      * apply setExecution_executions; [done|]. simpl. by apply with_owner_id.
      * rewrite <- Hx. simpl. by rewrite with_owner_steps.
Qed.

(** ** What the scheduler's queries mean *)

Lemma current_execution_spec s x : current_execution s = Some x -> st_Executions s !! st_Current s = Some x.
Proof. done. Qed.

Lemma is_waiting_spec status : is_waiting status = true <-> status = emp \/ status = StepStatusWaiting.
Proof. apply bool_decide_eq_true. Qed.

Lemma dependencies_completed_spec step x :
  dependenciesCompleted step x = true <->
  forall dep, dep ∈ s_DependsOn step -> step_status x dep = StepStatusCompleted.
Proof.
  unfold dependenciesCompleted. rewrite forallb_forall. setoid_rewrite bool_decide_eq_true.
  split; intros H d Hd; apply H; by apply list_elem_of_In.
Qed.

Lemma has_blocked_spec step x :
  hasBlockedDependency step x = true <->
  exists dep, dep ∈ s_DependsOn step /\
    step_status x dep ∈ [StepStatusFailed; StepStatusCancelled; StepStatusSkipped].
Proof.
  unfold hasBlockedDependency. rewrite existsb_exists. setoid_rewrite bool_decide_eq_true.
  split; intros (d & Hd & ?); exists d; (split; [|done]); by apply list_elem_of_In.
Qed.

(** A step of the task that is waiting. *)
Definition waiting_step (steps : list Step) (x : Execution) (id : string) : Prop :=
  exists st, st ∈ steps /\ s_ID st = id /\ is_waiting (step_status x id) = true.
Definition waits_for (steps : list Step) (x : Execution) (a b : string) : Prop :=
  depends (task_graph steps) a b /\ waiting_step steps x b.

Lemma ready_steps_elem s x st :
  current_execution s = Some x ->
  st ∈ ReadySteps s <->
  st ∈ t_Steps (st_Task s) /\ is_waiting (step_status x (s_ID st)) = true /\
  forall dep, dep ∈ s_DependsOn st -> step_status x dep = StepStatusCompleted.
Proof.
  intros Hx. unfold ReadySteps. rewrite Hx, list_elem_of_filter, andb_true_iff, dependencies_completed_spec.
  naive_solver.
Qed.

(** When nothing is ready, a waiting step waits, through waiting steps, for one that is neither
    waiting nor completed. *)
Lemma stall_explained s x id :
  steps_ok (t_Steps (st_Task s)) -> current_execution s = Some x -> ReadySteps s = [] ->
  waiting_step (t_Steps (st_Task s)) x id ->
  exists z dep, rtc (waits_for (t_Steps (st_Task s)) x) id z /\ depends (task_graph (t_Steps (st_Task s))) z dep /\
    is_waiting (step_status x dep) = false /\ step_status x dep <> StepStatusCompleted /\
    waiting_step (t_Steps (st_Task s)) x z.
Proof.
  intros (_ & _ & Hdeps & Hac) Hx Hready.
  assert (Hsn : sn (depends (task_graph (t_Steps (st_Task s)))) id).
  { apply acyclic_sn; [|done]. by apply task_graph_closed. }
  induction Hsn as [id _ IH]. intros Hw. pose proof Hw as (st & Hst & <- & Hwait).
  destruct (decide (Forall (fun dep => step_status x dep = StepStatusCompleted) (s_DependsOn st))) as [Hall|Hno].
  { exfalso. rewrite Forall_forall in Hall.
    assert (st ∈ ReadySteps s) as Hin by by apply (ready_steps_elem s x).
    rewrite Hready in Hin. by apply not_elem_of_nil in Hin. }
  apply not_Forall_Exists, Exists_exists in Hno as (dep & Hdep & Hnc); [|apply _].
  assert (Hd : depends (task_graph (t_Steps (st_Task s))) (s_ID st) dep).
  { apply task_graph_depends. by exists st. }
  destruct (is_waiting (step_status x dep)) eqn:Hwd.
  - assert (Hws : waiting_step (t_Steps (st_Task s)) x dep).
    { destruct (proj1 (list_elem_of_fmap _ _ _) (Hdeps st dep Hst Hdep)) as (st' & -> & Hst'). by exists st'. }
    destruct (IH dep Hd Hws) as (z & d & Hrtc & ?). exists z, d. split; [|done].
    by apply rtc_l with dep.
  - exists (s_ID st), dep. split_and!; done || apply rtc_refl.
Qed.

(** ** Cancelling dependents *)

(** A waiting step that reaches a failed one through waiting steps. *)
Inductive doomed (steps : list Step) (m : gmap string StepExecution) : string -> Prop :=
| doomed_failed st dep :
    st ∈ steps -> is_waiting (se_Status (m !!! s_ID st)) = true -> dep ∈ s_DependsOn st ->
    dep ∈ failed_ids m -> doomed steps m (s_ID st)
| doomed_step st dep :
    st ∈ steps -> is_waiting (se_Status (m !!! s_ID st)) = true -> dep ∈ s_DependsOn st ->
    doomed steps m dep -> doomed steps m (s_ID st).

Lemma failed_ids_spec m id : id ∈ failed_ids m <-> se_Status (m !!! id) = StepStatusFailed.
Proof.
  unfold failed_ids. rewrite elem_of_dom, lookup_total_alt. unfold is_Some.
  setoid_rewrite map_lookup_filter_Some. simpl. destruct (m !! id) as [e|]; simpl; naive_solver.
Qed.

Lemma doomed_waiting steps m id : doomed steps m id -> is_waiting (se_Status (m !!! id)) = true.
Proof. by destruct 1. Qed.

Section Cancel.
Context (reason : string) (at_ : Time) (steps : list Step) (m0 : gmap string StepExecution).
Implicit Types (m : gmap string StepExecution) (failed : gset string).

(** What the rounds have done to the entry of [id]. *)
Definition cancelled_or_same m failed id : Prop :=
  (doomed steps m0 id /\ id ∈ failed /\
   exists dep, (dep ∈ failed_ids m0 \/ doomed steps m0 dep) /\
     m !! id = Some (cancelled_entry id dep reason at_ (m0 !!! id))) \/
  ((id ∈ failed <-> id ∈ failed_ids m0) /\ m !! id = m0 !! id).
Definition cancel_inv m failed : Prop :=
  failed_ids m0 ⊆ failed /\ forall id, cancelled_or_same m failed id.

Definition waiting_count m : nat :=
  length (filter (fun st => is_waiting (se_Status (m !!! s_ID st)) = true) steps).

Lemma cancelled_not_waiting m id dep :
  m !! id = Some (cancelled_entry id dep reason at_ (m0 !!! id)) -> is_waiting (se_Status (m !!! id)) = false.
Proof. intros H. by rewrite (lookup_total_correct _ _ _ H). Qed.

Lemma cancel_inv_failed m failed id :
  cancel_inv m failed -> id ∈ failed -> id ∈ failed_ids m0 \/ doomed steps m0 id.
Proof. intros [_ H] Hid. destruct (H id) as [(Hd & _)|[Hiff _]]; [by right|]. left. by apply Hiff. Qed.

Lemma cancel_one_inv m failed b st m' failed' b' :
  st ∈ steps -> cancel_inv m failed -> cancel_one reason at_ (m, failed, b) st = (m', failed', b') ->
  cancel_inv m' failed' /\ waiting_count m' <= waiting_count m /\
  ((b' = b /\ m' = m /\ failed' = failed /\
      (is_waiting (se_Status (m !!! s_ID st)) = true -> forall dep, dep ∈ s_DependsOn st -> dep ∉ failed))
   \/ (b' = true /\ waiting_count m' < waiting_count m)).
Proof.
  intros Hst [Hsub Hinv]. unfold cancel_one.
  destruct (is_waiting _) eqn:Hw; [|intros [= <- <- <-]; split; [by split|]; split; [done|by left]].
  destruct (list_find _ _) as [[i dep]|] eqn:Hf.
  2: { intros [= <- <- <-]. split; [by split|]. split; [done|left]. split_and!; [done..|].
       intros _ dep Hdep. apply list_find_None in Hf. rewrite Forall_forall in Hf. by apply Hf. }
  apply list_find_Some in Hf as (Hdep%list_elem_of_lookup_2 & Hfd & _).
  intros [= <- <- <-].
  assert (Hsame : m !! s_ID st = m0 !! s_ID st).
  { destruct (Hinv (s_ID st)) as [(_ & _ & d & _ & Hd)|[_ ?]]; [|done].
    apply cancelled_not_waiting in Hd. congruence. }
  assert (Ht : m !!! s_ID st = m0 !!! s_ID st) by by rewrite !lookup_total_alt, Hsame.
  assert (Hlt : waiting_count (<[s_ID st:=cancelled_entry (s_ID st) dep reason at_ (m !!! s_ID st)]> m)
                < waiting_count m).
  { apply filter_length_lt with st; [|done|done|].
    - intros st' _. rewrite lookup_total_step. by case_decide.
    - by rewrite lookup_total_insert_eq. }
  split; [|split; [lia|by right]]. split; [set_solver|]. intros id.
  destruct (decide (id = s_ID st)) as [->|Hne].
  - left. assert (Hor := cancel_inv_failed _ _ _ (conj Hsub Hinv) Hfd). split; [|split; [set_solver|]].
    + rewrite Ht in Hw. destruct Hor; [eapply doomed_failed|eapply doomed_step]; done.
    + exists dep. split; [done|]. by rewrite lookup_insert_eq, Ht.
  - destruct (Hinv id) as [(? & ? & d & ? & ?)|[? ?]]; [left|right].
    + split_and!; [done|set_solver|]. exists d. by rewrite lookup_insert_ne by done.
    + rewrite lookup_insert_ne by done. split; [set_solver|done].
Qed.

Lemma cancel_round_inv rest m failed b m' failed' b' :
  rest ⊆ steps -> cancel_inv m failed ->
  fold_left (cancel_one reason at_) rest (m, failed, b) = (m', failed', b') ->
  cancel_inv m' failed' /\ waiting_count m' <= waiting_count m /\
  ((b' = b /\ m' = m /\ failed' = failed /\
      forall st, st ∈ rest -> is_waiting (se_Status (m !!! s_ID st)) = true ->
        forall dep, dep ∈ s_DependsOn st -> dep ∉ failed)
   \/ (b' = true /\ waiting_count m' < waiting_count m)).
Proof.
  revert m failed b. induction rest as [|st rest IH]; intros m failed b Hsub Hinv; cbn [fold_left].
  { intros [= <- <- <-]. split; [done|]. split; [done|left]. split_and!; set_solver. }
  destruct (cancel_one reason at_ (m, failed, b) st) as [[m1 failed1] b1] eqn:E.
  intros Hr. apply cancel_one_inv in E as (Hinv1 & Hle1 & H1); [|set_solver|done].
  apply IH in Hr as (Hinv2 & Hle2 & H2); [|set_solver|done].
  split; [done|]. split; [lia|].
  destruct H1 as [(-> & -> & -> & H1)|[-> H1]], H2 as [(-> & -> & -> & H2)|[-> H2]];
    [left|right; split; [done|lia]..]. split_and!; [done..|]. set_solver.
Qed.

(** The loop ends, at a point where no waiting step depends on a failed or cancelled one. *)
Lemma cancel_loop_spec fuel m failed :
  cancel_inv m failed -> waiting_count m < fuel ->
  exists m' failed', cancel_loop fuel reason at_ steps m failed = Some m' /\ cancel_inv m' failed' /\
    forall st, st ∈ steps -> is_waiting (se_Status (m' !!! s_ID st)) = true ->
      forall dep, dep ∈ s_DependsOn st -> dep ∉ failed'.
Proof.
  revert m failed. induction fuel as [|fuel IH]; intros m failed Hinv Hc; [lia|]. simpl.
  unfold cancel_round. destruct (fold_left _ _ _) as [[m1 failed1] b1] eqn:E.
  apply cancel_round_inv in E as (Hinv1 & Hle & H); [|done..].
  destruct H as [(-> & -> & -> & Hfix)|[-> Hlt]].
  - by exists m, failed.
  - apply IH; [done|lia].
Qed.

Lemma cancel_loop_exact fuel :
  length steps < fuel ->
  exists m, cancel_loop fuel reason at_ steps m0 (failed_ids m0) = Some m /\
    forall id,
      (doomed steps m0 id -> exists dep, (dep ∈ failed_ids m0 \/ doomed steps m0 dep) /\
         m !! id = Some (cancelled_entry id dep reason at_ (m0 !!! id))) /\
      (~ doomed steps m0 id -> m !! id = m0 !! id).
Proof.
  intros Hf. destruct (cancel_loop_spec fuel m0 (failed_ids m0)) as (m & failed & -> & [Hsub Hinv] & Hfix).
  - split; [done|]. intros id. by right.
  - eapply Nat.le_lt_trans; [|done]. unfold waiting_count. apply length_filter.
  - exists m. split; [done|]. intros id. split.
    + intros Hd. assert (Hcase : forall st dep, st ∈ steps -> is_waiting (se_Status (m0 !!! s_ID st)) = true ->
        dep ∈ s_DependsOn st -> dep ∈ failed ->
        doomed steps m0 (s_ID st) /\ s_ID st ∈ failed /\ exists dep, (dep ∈ failed_ids m0 \/ doomed steps m0 dep) /\
          m !! s_ID st = Some (cancelled_entry (s_ID st) dep reason at_ (m0 !!! s_ID st))).
      { intros st dep Hst Hw Hdep Hin. destruct (Hinv (s_ID st)) as [?|[_ Hs]]; [done|].
        exfalso. apply (Hfix st Hst) with dep; [|done..]. by rewrite lookup_total_alt, Hs, <- lookup_total_alt. }
      enough (doomed steps m0 id /\ id ∈ failed /\ exists dep, (dep ∈ failed_ids m0 \/ doomed steps m0 dep) /\
          m !! id = Some (cancelled_entry id dep reason at_ (m0 !!! id))) by naive_solver.
      induction Hd as [st dep Hst Hw Hdep Hin|st dep Hst Hw Hdep Hd IH].
      * apply (Hcase st dep); [done..|]. by apply Hsub.
      * apply (Hcase st dep); [done..|]. apply IH.
    + intros Hnd. by destruct (Hinv id) as [(? & _)|[_ ?]].
Qed.
End Cancel.

Lemma cancel_waiting_spec s x reason at_ :
  current_execution s = Some x ->
  exists m, CancelWaitingDependents s reason at_ =
      Some (s <| st_Executions := <[st_Current s := x <| x_Steps := m |>]> (st_Executions s) |>) /\
    forall id,
      (doomed (t_Steps (st_Task s)) (x_Steps x) id -> exists dep,
         (dep ∈ failed_ids (x_Steps x) \/ doomed (t_Steps (st_Task s)) (x_Steps x) dep) /\
         m !! id = Some (cancelled_entry id dep reason at_ (x_Steps x !!! id))) /\
      (~ doomed (t_Steps (st_Task s)) (x_Steps x) id -> m !! id = x_Steps x !! id).
Proof.
  intros Hx. unfold CancelWaitingDependents. rewrite cloneState_id, Hx.
  destruct (cancel_loop_exact reason at_ (t_Steps (st_Task s)) (x_Steps x) (S (length (t_Steps (st_Task s)))))
    as (m & -> & Hm); [lia|]. by exists m.
Qed.

(** *** The properties *)

(** C34: Whatever events a task stream holds, every execution of the projected state is stored under its own
    identifier, and the current execution, once set, exists. As long as the statuses that the events carry are known
    or unset ones, and executions start with step entries under their own steps, the task,
    every execution and every step entry have a known or unset status, and step entries are under their own steps. *)
Theorem project_invariant records :
  keyed (Project records) /\ (Forall (fun r => event_ok r.1) records -> state_ok (Project records)).
Proof. split; [apply project_keyed|apply project_ok]. Qed.

(** Applying an event other than a task revision or an execution start changes at most one
    execution (the one the event names, or the current one, or ["manual"], as the code falls back),
    and in it at most the entry of the step the event names; every other execution and step entry
    keeps its value. *)
Theorem apply_isolated s e at_ :
  state_ok s -> is_revision e = false -> is_start e = false ->
  (forall id, event_target s e <> Some id -> st_Executions (Apply s e at_) !! id = st_Executions s !! id) /\
  (forall id sid, event_step e <> Some sid ->
     x_Steps (execution (Apply s e at_) id) !! sid = x_Steps (execution s id) !! sid).
Proof. apply apply_touches. Qed.

(** No deadlock: in a task that passes validation, when no step is ready, every waiting step
    waits (directly, or through other waiting steps it depends on) for a step that has left the
    waiting state without completing: one that is running, blocked, failed, cancelled or skipped. *)
Theorem ready_steps_progress s x id :
  steps_ok (t_Steps (st_Task s)) -> current_execution s = Some x -> ReadySteps s = [] ->
  waiting_step (t_Steps (st_Task s)) x id ->
  exists z dep, rtc (waits_for (t_Steps (st_Task s)) x) id z /\
    depends (task_graph (t_Steps (st_Task s))) z dep /\
    is_waiting (step_status x dep) = false /\ step_status x dep <> StepStatusCompleted.
Proof.
  intros Hok Hx Hr Hw. destruct (stall_explained s x id Hok Hx Hr Hw) as (z & dep & ? & ? & ? & ? & _).
  by exists z, dep.
Qed.

(** [CancelWaitingDependents] always returns, and cancels exactly the waiting steps that reach a
    failed step through waiting steps. Each gets the status cancelled, an error that names the
    reason or a dependency that failed or was cancelled with it, and a completion time; every other
    entry, the task and the other executions are unchanged. *)
Theorem cancel_waiting_exact s x reason at_ :
  current_execution s = Some x ->
  exists m, CancelWaitingDependents s reason at_ =
      Some (s <| st_Executions := <[st_Current s := x <| x_Steps := m |>]> (st_Executions s) |>) /\
    forall id,
      (doomed (t_Steps (st_Task s)) (x_Steps x) id -> exists dep,
         (dep ∈ failed_ids (x_Steps x) \/ doomed (t_Steps (st_Task s)) (x_Steps x) dep) /\
         m !! id = Some (cancelled_entry id dep reason at_ (x_Steps x !!! id))) /\
      (~ doomed (t_Steps (st_Task s)) (x_Steps x) id -> m !! id = x_Steps x !! id).
Proof. apply cancel_waiting_spec. Qed.

Lemma waits_for_doomed steps x id z dep :
  rtc (waits_for steps x) id z -> waiting_step steps x id -> depends (task_graph steps) z dep ->
  step_status x dep = StepStatusFailed -> doomed steps (x_Steps x) id.
Proof.
  intros Hrtc Hw Hd Hf. revert Hw.
  induction Hrtc as [z|a b z [Hab Hb] _ IH]; intros (st & Hst & <- & Hw).
  - apply task_graph_depends in Hd as (st' & Hst' & Heq & Hdep). rewrite <- Heq in *.
    eapply doomed_failed; [done..|]. by apply failed_ids_spec.
  - apply task_graph_depends in Hab as (st' & Hst' & Heq & Hdep). rewrite <- Heq in *.
    eapply doomed_step; [done..|]. by apply IH.
Qed.

(** Failure drains the execution: in a validated task whose steps are all waiting, completed or
    failed, when no step is ready, cancelling the waiting dependents leaves no step to wait for -
    [AllStepsTerminal] holds of the result. *)
Theorem cancel_waiting_drains s x reason at_ :
  steps_ok (t_Steps (st_Task s)) -> t_Steps (st_Task s) <> [] -> current_execution s = Some x ->
  ReadySteps s = [] ->
  (forall st, st ∈ t_Steps (st_Task s) ->
     is_waiting (step_status x (s_ID st)) = true \/
     step_status x (s_ID st) ∈ [StepStatusCompleted; StepStatusFailed]) ->
  exists s', CancelWaitingDependents s reason at_ = Some s' /\ AllStepsTerminal s' = true.
Proof.
  intros Hok Hne Hx Hready Hst. destruct (cancel_waiting_spec s x reason at_ Hx) as (m & -> & Hm).
  eexists; split; [done|]. unfold AllStepsTerminal, current_execution. simpl.
  rewrite lookup_insert_eq. destruct (t_Steps (st_Task s)) as [|st0 steps0] eqn:Esteps; [done|].
  rewrite <- Esteps in *. replace (length (t_Steps (st_Task s)) =? 0) with false by by rewrite Esteps.
  apply forallb_forall. intros st Hin%list_elem_of_In. apply orb_true_iff. left.
  unfold step_status. simpl. destruct (Hst st Hin) as [Hw|Hdone].
  - assert (Hws : waiting_step (t_Steps (st_Task s)) x (s_ID st)) by by exists st.
    destruct (stall_explained s x _ Hok Hx Hready Hws) as (z & dep & Hrtc & Hd & Hnw & Hnc & _).
    assert (Hf : step_status x dep = StepStatusFailed).
    { destruct Hok as (_ & _ & Hdeps & _). apply task_graph_depends in Hd as (st' & Hst' & <- & Hdep).
      destruct (proj1 (list_elem_of_fmap _ _ _) (Hdeps st' dep Hst' Hdep)) as (st2 & -> & Hst2).
      destruct (Hst st2 Hst2) as [?|?]; [congruence|]. set_solver. }
    destruct (proj1 (Hm (s_ID st)) (waits_for_doomed _ _ _ _ _ Hrtc Hws Hd Hf)) as (d & _ & Hl).
    by rewrite (lookup_total_correct _ _ _ Hl).
  - assert (Hl : m !! s_ID st = x_Steps x !! s_ID st).
    { apply (Hm (s_ID st)). intros Hd%doomed_waiting%is_waiting_spec.
      unfold step_status in Hdone. apply elem_of_cons in Hdone as [E|[E|[]%not_elem_of_nil]%elem_of_cons];
        rewrite E in Hd; by destruct Hd. }
    rewrite lookup_total_alt, Hl, <- lookup_total_alt. unfold step_status in Hdone.
    apply elem_of_cons in Hdone as [E|[E|[]%not_elem_of_nil]%elem_of_cons]; by rewrite E.
Qed.

(** ** A concrete stream *)

Module ProjectDemo.
Definition step (id : string) (deps : list string) : Step :=
  mkStep id emp emp "work" [] [] [] deps RoleDeveloper emp [] ∅.
(** Four steps: build, then test, then release; and lint on its own. *)
Definition steps : list Step := [step "release" ["test"]; step "build" []; step "test" ["build"]; step "lint" []].
Definition task : Task := zero_Task <| t_Title := "ship" |> <| t_Steps := steps |>.
Definition started : Execution := zero_Execution <| x_WorkerID := "w1" |>.
Definition stream : list (TaskEvent * Time) :=
  [(Created "t1" task, 10%Z); (ExecutionStarted "t1" "x1" started, 20%Z);
   (StepDispatched "t1" "x1" "build" emp RoleDeveloper emp "job", 30%Z);
   (StepFailed "t1" "x1" "build" (task_error "task_step_failed" "boom"), 40%Z);
   (StepDispatched "t1" "x1" "lint" emp RoleDeveloper emp "job", 50%Z);
   (StepCompleted "t1" "x1" "lint" (VString "ok"), 60%Z)].
Definition final : State := Project stream.
Definition current : Execution := st_Executions final !!! "x1"%string.

Lemma steps_wf : steps_ok steps.
Proof.
  split_and!.
  - by repeat constructor.
  - by apply (bool_decide_unpack _).
  - assert (Hall : Forall (fun st => Forall (fun d => d ∈ (s_ID <$> steps)) (s_DependsOn st)) steps)
      by by apply (bool_decide_unpack _).
    intros st d Hst. rewrite Forall_forall in Hall. specialize (Hall st Hst). rewrite Forall_forall in Hall.
    apply Hall.
  - apply topological_acyclic with ["build"; "test"; "release"; "lint"]%string.
    + by apply (bool_decide_unpack _).
    + intros x. unfold nodes. rewrite task_graph_fst, elem_of_list_to_set. simpl.
      rewrite !elem_of_cons. tauto.
    + intros l1 x l2 E y (st & Hst & <- & Hy)%task_graph_depends. unfold steps in Hst.
      repeat (apply elem_of_cons in Hst as [->|Hst]); try (by apply not_elem_of_nil in Hst); simpl in *;
        try (by apply not_elem_of_nil in Hy); apply list_elem_of_singleton in Hy as ->;
        repeat (destruct l1 as [|? l1]; simplify_eq/=; try set_solver).
Qed.

Lemma final_current : current_execution final = Some current.
Proof. by vm_compute. Qed.
Lemma final_steps : t_Steps (st_Task final) = steps.
Proof. by vm_compute. Qed.
Lemma final_not_ready : ReadySteps final = [].
Proof. by vm_compute. Qed.

Lemma stream_ok : Forall (fun r => event_ok r.1) stream.
Proof.
  unfold stream. rewrite !Forall_cons. simpl.
  split_and!; [by left|by left|apply map_Forall_empty|done..|by apply Forall_nil].
Qed.
End ProjectDemo.

Lemma project_invariant_witness : state_ok ProjectDemo.final.
Proof. apply (project_invariant ProjectDemo.stream). exact ProjectDemo.stream_ok. Defined.

Lemma apply_isolated_witness :
  x_Steps (execution (Apply ProjectDemo.final (StepStatusChanged "t1" emp "test" emp StepStatusSkipped emp VNil) 70) "x1")
    !! "build"%string = x_Steps (execution ProjectDemo.final "x1") !! "build"%string.
Proof.
  refine (proj2 (apply_isolated ProjectDemo.final
    (StepStatusChanged "t1" emp "test" emp StepStatusSkipped emp VNil) 70 _ eq_refl eq_refl) "x1"%string "build"%string _).
  - exact (project_ok _ ProjectDemo.stream_ok).
  - done.
Defined.

Lemma ready_steps_progress_witness :
  exists z dep, rtc (waits_for ProjectDemo.steps ProjectDemo.current) "release" z /\
    depends (task_graph ProjectDemo.steps) z dep /\
    is_waiting (step_status ProjectDemo.current dep) = false /\
    step_status ProjectDemo.current dep <> StepStatusCompleted.
Proof.
  rewrite <- ProjectDemo.final_steps.
  apply (ready_steps_progress ProjectDemo.final ProjectDemo.current "release").
  - rewrite ProjectDemo.final_steps. exact ProjectDemo.steps_wf.
  - exact ProjectDemo.final_current.
  - exact ProjectDemo.final_not_ready.
  - rewrite ProjectDemo.final_steps. exists (ProjectDemo.step "release" ["test"%string]).
    split; [by left|]. by vm_compute.
Defined.

Lemma cancel_waiting_exact_witness :
  exists m, CancelWaitingDependents ProjectDemo.final emp 70 =
      Some (ProjectDemo.final <| st_Executions :=
        <["x1"%string := ProjectDemo.current <| x_Steps := m |>]> (st_Executions ProjectDemo.final) |>) /\
    se_Status (m !!! "release"%string) = StepStatusCancelled.
Proof.
  destruct (cancel_waiting_exact ProjectDemo.final ProjectDemo.current emp 70 ProjectDemo.final_current)
    as (m & Heq & Hm).
  exists m. split; [exact Heq|]. rewrite ProjectDemo.final_steps in Hm.
  destruct (proj1 (Hm "release"%string)) as (dep & _ & Hl).
  - apply (doomed_step _ _ (ProjectDemo.step "release" ["test"%string]) "test"%string);
      [by left|by vm_compute|by left|].
    apply (doomed_failed _ _ (ProjectDemo.step "test" ["build"%string]) "build"%string);
      [by right; right; left|by vm_compute|by left|by apply failed_ids_spec].
  - by rewrite (lookup_total_correct _ _ _ Hl).
Defined.

Lemma cancel_waiting_drains_witness :
  exists s', CancelWaitingDependents ProjectDemo.final emp 70 = Some s' /\ AllStepsTerminal s' = true.
Proof.
  apply (cancel_waiting_drains ProjectDemo.final ProjectDemo.current).
  - rewrite ProjectDemo.final_steps. exact ProjectDemo.steps_wf.
  - by rewrite ProjectDemo.final_steps.
  - exact ProjectDemo.final_current.
  - exact ProjectDemo.final_not_ready.
  - rewrite ProjectDemo.final_steps. intros st Hst. unfold ProjectDemo.steps in Hst.
    repeat (apply elem_of_cons in Hst as [->|Hst]); try (by apply not_elem_of_nil in Hst).
    + by left.
    + right. by right; left.
    + by left.
    + right. by left.
Defined.

(** A skipped step leaves its dependents' dependents waiting: [AllStepsTerminal] looks at direct
    dependencies only, so a chain of two waiting steps behind a skipped one is not terminal, while
    a single waiting step behind it is, although neither can ever be dispatched. *)
Definition skip_build (steps : list Step) : State :=
  Project [(Created "t1" (zero_Task <| t_Title := "ship" |> <| t_Steps := steps |>), 10%Z);
           (ExecutionStarted "t1" "x1" ProjectDemo.started, 20%Z);
           (StepStatusChanged "t1" "x1" "build" emp StepStatusSkipped emp VNil, 30%Z)].
Lemma skipped_chain_stalls :
  let one := skip_build [ProjectDemo.step "build" []; ProjectDemo.step "test" ["build"%string]] in
  let two := skip_build [ProjectDemo.step "build" []; ProjectDemo.step "test" ["build"%string];
                         ProjectDemo.step "release" ["test"%string]] in
  ReadySteps one = [] /\ AllStepsTerminal one = true /\
  ReadySteps two = [] /\ AllStepsTerminal two = false /\ CancelWaitingDependents two emp 40 = Some two.
Proof. split_and!; by vm_compute. Qed.
