(* ===== verification/Prog.v ===== *)
(** * Programs over a shared event store

    Code that calls an event store while other goroutines and processes write to it is a [Prog]: a
    tree whose nodes are the calls it makes, in order, each followed by what it does with the
    answer. Programs are values: [bind] composes them, [run] executes one alone, [pool_step]
    interleaves many at the granularity of one call, and [wp] is the rely-guarantee logic the
    safety theorems are proved in ([wp_pool] is its soundness for every interleaving). *)

From S2P Require Import Prelude Event.

Section Programs.
Context {P : Type} {O : Type -> Type}.

(** [background] marks a call whose context is [context.WithoutCancel(ctx)]; other effects (clocks,
    identifiers, callbacks, mutex-protected fields) are the constructors of [O]. *)
Inductive Prog (A : Type) : Type :=
| Ret (a : A)
| DoLoad (background : bool) (stream : string) (opts : LoadOptions)
    (k : Result StoreError (list (StoredRecord P)) -> Prog A)
| DoAppend (background : bool) (stream : string) (opts : AppendOptions) (records : list (EventRecord P))
    (k : Result StoreError (list (StoredRecord P)) -> Prog A)
| DoBatch (background : bool) (requests : list (AppendRequest P))
    (k : Result StoreError (list (AppendResult P)) -> Prog A)
| DoOther {X : Type} (o : O X) (k : X -> Prog A).
Arguments Ret {A} a.
Arguments DoLoad {A} background stream opts k.
Arguments DoAppend {A} background stream opts records k.
Arguments DoBatch {A} background requests k.
Arguments DoOther {A X} o k.

Fixpoint bind {A B} (p : Prog A) (k : A -> Prog B) : Prog B :=
  match p with
  | Ret a => k a
  | DoLoad b st o k' => DoLoad b st o (fun r => bind (k' r) k)
  | DoAppend b st o recs k' => DoAppend b st o recs (fun r => bind (k' r) k)
  | DoBatch b reqs k' => DoBatch b reqs (fun r => bind (k' r) k)
  | DoOther o k' => DoOther o (fun x => bind (k' x) k)
  end.

Definition load (background : bool) (stream : string) (opts : LoadOptions)
    : Prog (Result StoreError (list (StoredRecord P))) := DoLoad background stream opts Ret.
Definition append (background : bool) (stream : string) (opts : AppendOptions) (recs : list (EventRecord P))
    : Prog (Result StoreError (list (StoredRecord P))) := DoAppend background stream opts recs Ret.
Definition append_batch (background : bool) (requests : list (AppendRequest P))
    : Prog (Result StoreError (list (AppendResult P))) := DoBatch background requests Ret.
Definition effect {X} (o : O X) : Prog X := DoOther o Ret.

(** ** Running alone *)

Section Run.
Context {S : Type} `{EventStore S P}.
Context (handle : forall X, O X -> X) (envs : nat -> CallEnv).

(** [n] counts the calls made, so that each one reads its own clock and random text. *)
Fixpoint run {A} (n : nat) (s : S) (p : Prog A) : S * A :=
  match p with
  | Ret a => (s, a)
  | DoLoad b st o k =>
      run (Datatypes.S n) s (k (Load (if b then None else ce_ctx (envs n)) s st o))
  | DoAppend b st o recs k =>
      let '(s', r) := Append (envs n) s st o recs in run (Datatypes.S n) s' (k r)
  | DoBatch b reqs k =>
      let '(s', r) := AppendBatch (envs n) s reqs in run (Datatypes.S n) s' (k r)
  | DoOther o k => run (Datatypes.S n) s (k (handle _ o))
  end.
End Run.

(** ** Interleaving

    The log of a run: who appended what to which stream, what the stream was before, and the whole
    batch the append was part of. *)
Record Entry := mkPart {
  en_owner : nat;
  en_stream : string;
  en_before : list (StoredRecord P);
  en_out : list (StoredRecord P);
  en_batch : list (AppendResult P)
}.

(** An append of its own. *)
Definition mkEntry (owner : nat) (stream : string) (before out : list (StoredRecord P)) : Entry :=
  mkPart owner stream before out [mkResult stream out].

(** The entries one batch makes, in its order. *)
Definition part_result (e : Entry) : AppendResult P := mkResult (en_stream e) (en_out e).
Definition whole (g : list Entry) : Prop :=
  NoDup (en_stream <$> g) /\ Forall (fun e => en_batch e = part_result <$> g) g.

Section Pool.
Context {S : Type} {ES : EventStore S P} {Laws : EventStoreLaws S P}.
Context (responds : forall X, O X -> X -> Prop).

Record World := mkWorld { w_store : S; w_log : list Entry }.

Definition batch_entries (i : nat) (s : S) (rs : list (AppendResult P)) : list Entry :=
  (fun r => mkPart i (res_Stream r) (view s (res_Stream r)) (res_Records r) rs) <$> rs.

Definition call_ctx (background : bool) (c : Ctx) : Prop := background = true -> c = None.

(** One call of thread [i]: the store serves it atomically. *)
Inductive step_by (i : nat) {A} : World -> Prog A -> World -> Prog A -> Prop :=
| step_load w c b st o k :
    call_ctx b c -> step_by i w (DoLoad b st o k) w (k (Load c (w_store w) st o))
| step_append_ok w env b st o recs k s' out :
    call_ctx b (ce_ctx env) -> Append env (w_store w) st o recs = (s', Ok out) ->
    step_by i w (DoAppend b st o recs k)
      (mkWorld s' (w_log w ++ [mkEntry i st (view (w_store w) st) out])) (k (Ok out))
| step_append_err w env b st o recs k s' e :
    call_ctx b (ce_ctx env) -> Append env (w_store w) st o recs = (s', Err e) ->
    step_by i w (DoAppend b st o recs k) (mkWorld s' (w_log w)) (k (Err e))
| step_batch_ok w env b reqs k s' rs :
    call_ctx b (ce_ctx env) -> AppendBatch env (w_store w) reqs = (s', Ok rs) ->
    step_by i w (DoBatch b reqs k)
      (mkWorld s' (w_log w ++ batch_entries i (w_store w) rs)) (k (Ok rs))
| step_batch_err w env b reqs k s' e :
    call_ctx b (ce_ctx env) -> AppendBatch env (w_store w) reqs = (s', Err e) ->
    step_by i w (DoBatch b reqs k) (mkWorld s' (w_log w)) (k (Err e))
| step_other w X (o : O X) k x :
    responds X o x -> step_by i w (DoOther o k) w (k x).

Inductive pool_step {A} : World * list (Prog A) -> World * list (Prog A) -> Prop :=
| pool_thread i w w' ps p p' :
    ps !! i = Some p -> step_by i w p w' p' -> pool_step (w, ps) (w', <[i := p']> ps).

(** ** The history of a stream is its initial records and then the logged ones *)

Definition entries_for (st : string) (log : list Entry) : list Entry :=
  filter (fun e => en_stream e = st) log.
Definition outs (log : list Entry) : list (StoredRecord P) := flat_map en_out log.

Record world_ok (v0 : string -> list (StoredRecord P)) (w : World) : Prop := {
  world_store : store_ok (w_store w);
  world_views : forall st, view (w_store w) st = v0 st ++ outs (entries_for st (w_log w));
  world_before : forall l1 e l2, w_log w = l1 ++ e :: l2 ->
    en_before e = v0 (en_stream e) ++ outs (entries_for (en_stream e) l1);
  world_batches : exists gs, w_log w = concat gs /\ Forall whole gs
}.

(** [w1] is [w] after other threads made some calls; what they appended satisfies [G]. *)
Definition later (v0 : string -> list (StoredRecord P)) (G : Entry -> Prop) (i : nat) (w w1 : World) : Prop :=
  world_ok v0 w1 /\
  exists l, w_log w1 = w_log w ++ l /\ Forall (fun e => en_owner e <> i /\ G e) l.

(** ** Rely-guarantee

    [wp v0 G i p Q w]: run as thread [i] from [w], among threads whose appends satisfy [G], the
    program appends only entries that satisfy [G], and if it finishes, its result and the world
    satisfy [Q]. *)
Fixpoint wp (v0 : string -> list (StoredRecord P)) (G : Entry -> Prop) (i : nat) {A} (p : Prog A)
    (Q : A -> World -> Prop) (w : World) : Prop :=
  match p with
  | Ret a => Q a w
  | DoLoad b st o k =>
      forall c w1, later v0 G i w w1 -> call_ctx b c -> wp v0 G i (k (Load c (w_store w1) st o)) Q w1
  | DoAppend b st o recs k =>
      forall env w1, later v0 G i w w1 -> call_ctx b (ce_ctx env) ->
        match Append env (w_store w1) st o recs with
        | (s', Ok out) =>
            let e := mkEntry i st (view (w_store w1) st) out in
            world_ok v0 (mkWorld s' (w_log w1 ++ [e])) ->
            G e /\ wp v0 G i (k (Ok out)) Q (mkWorld s' (w_log w1 ++ [e]))
        | (s', Err e) => s' = w_store w1 -> wp v0 G i (k (Err e)) Q w1
        end
  | DoBatch b reqs k =>
      forall env w1, later v0 G i w w1 -> call_ctx b (ce_ctx env) ->
        match AppendBatch env (w_store w1) reqs with
        | (s', Ok rs) =>
            let es := batch_entries i (w_store w1) rs in
            world_ok v0 (mkWorld s' (w_log w1 ++ es)) ->
            Forall G es /\ wp v0 G i (k (Ok rs)) Q (mkWorld s' (w_log w1 ++ es))
        | (s', Err e) => s' = w_store w1 -> wp v0 G i (k (Err e)) Q w1
        end
  | DoOther o k => forall x w1, later v0 G i w w1 -> responds _ o x -> wp v0 G i (k x) Q w1
  end.

Section Logic.
Context (v0 : string -> list (StoredRecord P)) (G : Entry -> Prop).

Lemma later_refl i w : world_ok v0 w -> later v0 G i w w.
Proof. intros Hw. split; [done|]. exists []. by rewrite app_nil_r. Qed.

Lemma later_trans i w1 w2 w3 : later v0 G i w1 w2 -> later v0 G i w2 w3 -> later v0 G i w1 w3.
Proof.
  intros [_ (l1 & E1 & F1)] [H3 (l2 & E2 & F2)]. split; [done|]. exists (l1 ++ l2).
  rewrite E2, E1, app_assoc. split; [done|]. by apply Forall_app.
Qed.

Lemma later_ok i w w1 : later v0 G i w w1 -> world_ok v0 w1.
Proof. by intros [? _]. Qed.

Lemma entries_for_app st l1 l2 : entries_for st (l1 ++ l2) = entries_for st l1 ++ entries_for st l2.
Proof. apply filter_app. Qed.
Lemma outs_app (l1 l2 : list Entry) : outs (l1 ++ l2) = outs l1 ++ outs l2.
Proof. apply flat_map_app. Qed.
Lemma outs_single (e : Entry) : outs [e] = en_out e.
Proof. apply app_nil_r. Qed.

(** A served append or batch extends the history of its streams by its own entries. *)
Lemma entries_for_batch st i s rs :
  outs (entries_for st (batch_entries i s rs)) = records_for st rs.
Proof.
  unfold batch_entries. generalize rs at 1. intros all. induction rs as [|r rs IH]; [done|].
  rewrite fmap_cons. unfold entries_for. rewrite filter_cons. unfold records_for. simpl. case_decide; simpl; [f_equal|]; exact IH.
Qed.

Lemma entries_ordered_batch (g : list Entry) l1 e l2 :
  NoDup (en_stream <$> g) -> g = l1 ++ e :: l2 -> entries_for (en_stream e) l1 = [].
Proof.
  intros Hnd ->. rewrite fmap_app, fmap_cons in Hnd. apply NoDup_app in Hnd as (_ & Hnd & _).
  unfold entries_for. induction l1 as [|e1 l1 IH]; [done|]. rewrite filter_cons, decide_False.
  - apply IH. intros x Hx. apply Hnd. by right.
  - intros Heq. apply (Hnd (en_stream e1)); [by left|]. rewrite Heq. by left.
Qed.

Lemma batch_entries_whole i s rs : NoDup (res_Stream <$> rs) -> whole (batch_entries i s rs).
Proof.
  intros Hnd. unfold batch_entries. split.
  - rewrite <- list_fmap_compose. exact Hnd.
  - apply Forall_fmap, Forall_forall. intros r _. cbn. rewrite <- list_fmap_compose.
    rewrite <- (list_fmap_id rs) at 1. apply list_fmap_ext. by intros ? [] ?.
Qed.

Lemma accepts_streams (v : string -> list (StoredRecord P)) qs rs :
  Forall2 (accepts v) qs rs -> res_Stream <$> rs = req_Stream <$> qs.
Proof. induction 1 as [|q a qs rs [Hs _] _ IH]; [done|]. by rewrite !fmap_cons, IH, Hs. Qed.

Lemma batch_world_ok w env reqs s' rs i :
  world_ok v0 w -> AppendBatch env (w_store w) reqs = (s', Ok rs) ->
  world_ok v0 (mkWorld s' (w_log w ++ batch_entries i (w_store w) rs)).
Proof.
  intros [Hs Hv Hb (gs & Hgs & Hwhole)] Ha. apply batch_ok in Ha as (Hs' & Hview & Hnd & Hacc); [|done].
  assert (Hwb : whole (batch_entries i (w_store w) rs)).
  { apply batch_entries_whole. by rewrite (accepts_streams _ _ _ Hacc). }
  split; simpl.
  - done.
  - intros st. by rewrite entries_for_app, outs_app, entries_for_batch, Hview, Hv, <- app_assoc.
  - intros l1 e l2 Heq. destruct (app_eq_inv _ _ _ _ Heq) as [(k & E1 & E2)|(k & E1 & E2)].
    + destruct k as [|e' k].
      * cbn in E2. rewrite app_nil_r in E1. subst l1.
        assert (He : e ∈ batch_entries i (w_store w) rs) by (rewrite <- E2; by left).
        apply list_elem_of_fmap in He as (r & -> & _). apply Hv.
      * injection E2 as <- _. by eapply Hb.
    + assert (He : e ∈ batch_entries i (w_store w) rs) by (rewrite E2; apply elem_of_app; right; by left).
      rewrite E1, entries_for_app, outs_app, (entries_ordered_batch _ _ _ _ (proj1 Hwb) E2), app_nil_r.
      apply list_elem_of_fmap in He as (r & -> & _). apply Hv.
  - exists (gs ++ [batch_entries i (w_store w) rs]). rewrite concat_app, Hgs. cbn. rewrite app_nil_r.
    split; [done|]. apply Forall_app. by rewrite Forall_singleton.
Qed.

Lemma append_world_ok w env st o recs s' out i :
  world_ok v0 w -> Append env (w_store w) st o recs = (s', Ok out) ->
  world_ok v0 (mkWorld s' (w_log w ++ [mkEntry i st (view (w_store w) st) out])).
Proof.
  intros Hw. rewrite append_single.
  destruct (AppendBatch _ _ _) as [s1 [rs|e]] eqn:Ha; [|intros [=]].
  pose proof (batch_ok _ _ _ _ _ (world_store _ _ Hw) Ha) as (_ & _ & _ & Hacc).
  apply Forall2_cons_inv_l in Hacc as (a & rs' & (Hst & _) & Hnil & ->).
  apply Forall2_nil_inv_l in Hnil as ->. intros [= <- <-].
  pose proof (batch_world_ok _ _ _ _ _ i Hw Ha) as Hw'. destruct a as [st' out']. cbn in Hst. by subst st'.
Qed.

Lemma world_ok_same w s' : s' = w_store w -> world_ok v0 w -> world_ok v0 (mkWorld s' (w_log w)).
Proof. intros -> Hw. by destruct w. Qed.

Lemma wp_mono {A} i (p : Prog A) (Q1 Q2 : A -> World -> Prop) w :
  (forall a w', Q1 a w' -> Q2 a w') -> wp v0 G i p Q1 w -> wp v0 G i p Q2 w.
Proof.
  intros HQ. revert w. induction p as [a|b st o k IH|b st o recs k IH|b reqs k IH|X o k IH]; intros w; simpl.
  - apply HQ.
  - intros H c w1 Hl Hc. by apply IH, H.
  - intros H env w1 Hl Hc. specialize (H env w1 Hl Hc).
    destruct (Append _ _ _ _ _) as [s' [out|e]].
    + intros Hw. destruct (H Hw). split; [done|]. by apply IH.
    + intros Hs. by apply IH, H.
  - intros H env w1 Hl Hc. specialize (H env w1 Hl Hc).
    destruct (AppendBatch _ _ _) as [s' [rs|e]].
    + intros Hw. destruct (H Hw). split; [done|]. by apply IH.
    + intros Hs. by apply IH, H.
  - intros H x w1 Hl Hx. by apply IH, H.
Qed.

Lemma wp_bind {A B} i (p : Prog A) (k : A -> Prog B) (Q : B -> World -> Prop) w :
  wp v0 G i p (fun a w' => wp v0 G i (k a) Q w') w -> wp v0 G i (bind p k) Q w.
Proof.
  revert w. induction p as [a|b st o k' IH|b st o recs k' IH|b reqs k' IH|X o k' IH]; intros w; simpl.
  - done.
  - intros H c w1 Hl Hc. by apply IH, H.
  - intros H env w1 Hl Hc. specialize (H env w1 Hl Hc).
    destruct (Append _ _ _ _ _) as [s' [out|e]].
    + intros Hw. destruct (H Hw). split; [done|]. by apply IH.
    + intros Hs. by apply IH, H.
  - intros H env w1 Hl Hc. specialize (H env w1 Hl Hc).
    destruct (AppendBatch _ _ _) as [s' [rs|e]].
    + intros Hw. destruct (H Hw). split; [done|]. by apply IH.
    + intros Hs. by apply IH, H.
  - intros H x w1 Hl Hx. by apply IH, H.
Qed.

(** What holds of a run still holds when it starts after others have moved. *)
Lemma wp_later {A} i (p : Prog A) (Q : A -> World -> Prop) w w1 :
  (forall a w w1, later v0 G i w w1 -> Q a w -> Q a w1) ->
  later v0 G i w w1 -> wp v0 G i p Q w -> wp v0 G i p Q w1.
Proof.
  intros HQ Hl. destruct p as [a|b st o k|b st o recs k|b reqs k|X o k]; simpl.
  - by apply HQ.
  - intros H c w2 Hl2. apply H. by eapply later_trans.
  - intros H env w2 Hl2. apply H. by eapply later_trans.
  - intros H env w2 Hl2. apply H. by eapply later_trans.
  - intros H x w2 Hl2. apply H. by eapply later_trans.
Qed.

(** One step of thread [i] keeps its [wp], and is an interference for the others. *)
Lemma wp_step {A} i (p p' : Prog A) (Q : A -> World -> Prop) w w' :
  world_ok v0 w -> step_by i w p w' p' -> wp v0 G i p Q w ->
  wp v0 G i p' Q w' /\ forall j, j <> i -> later v0 G j w w'.
Proof.
  intros Hw Hstep. pose proof (later_refl i w Hw) as Hl.
  destruct Hstep as [w c b st o k Hc|w env b st o recs k s' out Hc Ha|w env b st o recs k s' e Hc Ha
                      |w env b reqs k s' rs Hc Ha|w env b reqs k s' e Hc Ha|w X o k x Hx];
    simpl; intros Hwp.
  - split; [by apply Hwp|]. intros j _. by apply later_refl.
  - specialize (Hwp env w Hl Hc). rewrite Ha in Hwp.
    pose proof (append_world_ok _ _ _ _ _ _ _ i Hw Ha) as Hw'. destruct (Hwp Hw') as [HG Hk].
    split; [done|]. intros j Hj. split; [done|]. eexists. split; [done|].
    apply Forall_singleton. simpl. split; [congruence|done].
  - specialize (Hwp env w Hl Hc). rewrite Ha in Hwp. apply append_error in Ha as ->.
    destruct w as [s l]. split; [by apply Hwp|]. intros j _. by apply later_refl.
  - specialize (Hwp env w Hl Hc). rewrite Ha in Hwp.
    pose proof (batch_world_ok _ _ _ _ _ i Hw Ha) as Hw'. destruct (Hwp Hw') as [HG Hk].
    split; [done|]. intros j Hj. split; [done|]. eexists. split; [done|].
    apply Forall_forall. intros e He. split; [|by eapply Forall_forall in HG].
    apply list_elem_of_fmap in He as (r & -> & _). cbn. congruence.
  - specialize (Hwp env w Hl Hc). rewrite Ha in Hwp. apply batch_error in Ha as ->.
    destruct w as [s l]. split; [by apply Hwp|]. intros j _. by apply later_refl.
  - split; [by apply Hwp|]. intros j _. by apply later_refl.
Qed.

(** Soundness for every interleaving of any number of threads. *)
Lemma wp_pool {A} (Q : nat -> A -> World -> Prop) w ps w' ps' :
  (forall i a w w1, later v0 G i w w1 -> Q i a w -> Q i a w1) ->
  rtc pool_step (w, ps) (w', ps') ->
  world_ok v0 w -> Forall G (w_log w) ->
  (forall i p, ps !! i = Some p -> wp v0 G i p (Q i) w) ->
  world_ok v0 w' /\ Forall G (w_log w') /\
  (forall i p, ps' !! i = Some p -> wp v0 G i p (Q i) w').
Proof.
  intros HQ Hrtc. remember (w, ps) as c eqn:Ec. remember (w', ps') as c' eqn:Ec'.
  revert w ps Ec. induction Hrtc as [c|c1 c2 c3 Hstep _ IH]; intros w ps ->.
  { simplify_eq. done. }
  intros Hw HG Hwp. inversion Hstep as [i w0 w2 ps0 p p' Hi Hby]; subst.
  pose proof (Hwp i p Hi) as Hwpi.
  destruct (wp_step i p p' (Q i) w w2 Hw Hby Hwpi) as [Hwp' Hothers].
  assert (Hw2 : world_ok v0 w2 /\ Forall G (w_log w2)).
  { destruct (Hothers (Datatypes.S i)) as [Hw2 (l & -> & Hl)]; [lia|]. split; [done|].
    apply Forall_app. split; [done|]. eapply Forall_impl; [done|]. by intros ? []. }
  destruct Hw2 as [Hw2 HG2]. apply (IH eq_refl w2 (<[i:=p']> ps) eq_refl); [done..|].
  intros j q Hj. destruct (decide (j = i)) as [->|Hne].
  - rewrite list_lookup_insert_eq in Hj by (by eapply lookup_lt_Some). by simplify_eq.
  - rewrite list_lookup_insert_ne in Hj by done. eapply wp_later; [apply HQ|by apply Hothers|by apply Hwp].
Qed.

(** [w1] comes after [w], whoever moved. *)
Definition grows (w w1 : World) : Prop := world_ok v0 w1 /\ exists l, w_log w1 = w_log w ++ l.

Lemma grows_refl w : world_ok v0 w -> grows w w.
Proof. intros Hw. split; [done|]. exists []. by rewrite app_nil_r. Qed.
Lemma grows_trans w1 w2 w3 : grows w1 w2 -> grows w2 w3 -> grows w1 w3.
Proof.
  intros [_ (l1 & E1)] [H3 (l2 & E2)]. split; [done|]. exists (l1 ++ l2). by rewrite E2, E1, app_assoc.
Qed.
Lemma later_grows i w w1 : later v0 G i w w1 -> grows w w1.
Proof. intros [Hw (l & E & _)]. split; [done|by exists l]. Qed.
Lemma grows_entry w w1 e : grows w w1 -> e ∈ w_log w -> e ∈ w_log w1.
Proof. intros [_ (l & ->)] He. apply elem_of_app. by left. Qed.
Lemma grows_view w w1 st :
  world_ok v0 w -> grows w w1 -> exists rest, view (w_store w1) st = view (w_store w) st ++ rest.
Proof.
  intros [_ Hv _ _] [[_ Hv1 _ _] (l & E)]. rewrite Hv, Hv1, E, entries_for_app, outs_app, app_assoc. by eexists.
Qed.

(** The entries thread [i] made on stream [st] between [w] and [w1]. *)
Definition added (i : nat) (st : string) (w w1 : World) : list Entry :=
  filter (fun e => en_owner e = i /\ en_stream e = st) (drop (length (w_log w)) (w_log w1)).

Lemma added_refl i st w : added i st w w = [].
Proof. unfold added. by rewrite drop_all. Qed.
Lemma added_trans i st w1 w2 w3 :
  grows w1 w2 -> grows w2 w3 -> added i st w1 w3 = added i st w1 w2 ++ added i st w2 w3.
Proof.
  intros [_ (l1 & E1)] [_ (l2 & E2)]. unfold added.
  rewrite <- filter_app. f_equal. rewrite E2, (drop_app_length (w_log w2)), E1, <- app_assoc.
  by rewrite !drop_app_length.
Qed.
Lemma added_later i st w w1 : later v0 G i w w1 -> added i st w w1 = [].
Proof.
  intros [_ (l & E & Hl)]. unfold added. rewrite E, drop_app_length.
  clear E. induction Hl as [|e l [Hne _] _ IH]; [done|]. rewrite filter_cons, decide_False; [exact IH|].
  by intros [? _].
Qed.
Lemma added_entry i st w w1 e :
  w_log w1 = w_log w ++ [e] ->
  added i st w w1 = if decide (en_owner e = i /\ en_stream e = st) then [e] else [].
Proof. intros E. unfold added. by rewrite E, drop_app_length, filter_cons, filter_nil. Qed.

(** What is in the log stays there. *)
Lemma later_entry i w w1 e : later v0 G i w w1 -> e ∈ w_log w -> e ∈ w_log w1.
Proof. intros [_ (l & -> & _)] He. apply elem_of_app. by left. Qed.

(** The stream a thread reads extends every entry it has seen. *)
Lemma entry_prefix w e :
  world_ok v0 w -> e ∈ w_log w ->
  exists rest, view (w_store w) (en_stream e) = en_before e ++ en_out e ++ rest.
Proof.
  intros [_ Hv Hb _] (l1 & l2 & Heq)%list_elem_of_split. rewrite Hv, (Hb _ _ _ Heq), Heq.
  rewrite entries_for_app, outs_app. unfold entries_for at 2. rewrite filter_cons, decide_True by done.
  exists (outs (entries_for (en_stream e) l2)). simpl. by rewrite <- app_assoc.
Qed.

(** Two entries of a stream do not overlap: the later one was appended after the earlier one's
    records and those of the entries in between. *)
Lemma entries_ordered w l1 e1 l2 e2 l3 :
  world_ok v0 w -> w_log w = l1 ++ e1 :: l2 ++ e2 :: l3 -> en_stream e1 = en_stream e2 ->
  en_before e2 = en_before e1 ++ en_out e1 ++ outs (entries_for (en_stream e2) l2).
Proof.
  intros [_ _ Hb _] Heq Hst. rewrite (Hb _ _ _ Heq).
  rewrite app_comm_cons, app_assoc in Heq. rewrite (Hb _ _ _ Heq), Hst.
  rewrite entries_for_app, outs_app. unfold entries_for at 2. rewrite filter_cons, decide_True by done.
  fold (entries_for (en_stream e2) l2). simpl. by rewrite <- app_assoc.
Qed.

(** What every batch preserves holds of the streams of a reachable store: induction over the batches
    of the log, each applied to the streams it found. *)
Lemma world_ind w (I : (string -> list (StoredRecord P)) -> Prop) :
  world_ok v0 w -> Forall G (w_log w) ->
  (forall v v', (forall st, v st = v' st) -> I v -> I v') ->
  I v0 ->
  (forall v g, I v -> whole g -> Forall G g -> Forall (fun e => en_before e = v (en_stream e)) g ->
     I (fun st => v st ++ outs (entries_for st g))) ->
  I (view (w_store w)).
Proof.
  intros [_ Hv Hb (gs & Hgs & Hwhole)] HG Hext H0 Hstep.
  assert (Hprefix : forall gs1 gs2, gs = gs1 ++ gs2 -> I (fun st => v0 st ++ outs (entries_for st (concat gs1)))).
  { induction gs1 as [|g gs1 IH] using rev_ind; intros gs2 Heq.
    - eapply Hext, H0. intros st. by rewrite app_nil_r.
    - rewrite <- app_assoc in Heq. cbn in Heq. specialize (IH _ Heq).
      rewrite Heq, concat_app in Hgs. cbn in Hgs. rewrite Hgs in HG, Hb.
      apply Forall_app in HG as [_ [HG _]%Forall_app].
      rewrite Heq in Hwhole. apply Forall_app in Hwhole as [_ [Hw _]%Forall_cons].
      eapply Hext, (Hstep _ g IH Hw HG).
      + intros st. by rewrite concat_app, entries_for_app, outs_app, app_assoc; cbn; rewrite app_nil_r.
      + apply Forall_forall. intros e He. destruct (list_elem_of_split _ _ He) as (a & b & Hg).
        rewrite (Hb (concat gs1 ++ a) e (b ++ concat gs2)), entries_for_app, outs_app.
        * by rewrite (entries_ordered_batch _ _ _ _ (proj1 Hw) Hg), app_nil_r.
        * by rewrite Hg, <- !app_assoc. }
  eapply Hext, (Hprefix gs []); [|by rewrite app_nil_r]. intros st. by rewrite Hv, Hgs.
Qed.
End Logic.

(** ** Programs that do not touch the store *)

(** What a program can answer without any call to the store. *)
Fixpoint may_return {A} (p : Prog A) (a : A) : Prop :=
  match p with
  | Ret b => a = b
  | DoLoad _ _ _ _ | DoAppend _ _ _ _ _ | DoBatch _ _ _ => False
  | DoOther o k => exists x, responds _ o x /\ may_return (k x) a
  end.
Fixpoint storeless {A} (p : Prog A) : Prop :=
  match p with
  | Ret _ => True
  | DoLoad _ _ _ _ | DoAppend _ _ _ _ _ | DoBatch _ _ _ => False
  | DoOther _ k => forall x, storeless (k x)
  end.

Lemma may_return_bind {A B} (p : Prog A) (k : A -> Prog B) b :
  may_return (bind p k) b -> exists a, may_return p a /\ may_return (k a) b.
Proof.
  induction p as [a|bg st o k' IH|bg st o recs k' IH|bg reqs k' IH|X o k' IH]; cbn; try done.
  - intros H. by exists a.
  - intros (x & Hx & (a & Ha & Hk)%IH). exists a. split; [by exists x|done].
Qed.
Lemma may_return_seq {A B} (p : Prog A) (k : A -> Prog B) a b :
  may_return p a -> may_return (k a) b -> may_return (bind p k) b.
Proof.
  induction p as [a'|bg st o k' IH|bg st o recs k' IH|bg reqs k' IH|X o k' IH]; cbn; try done.
  - by intros ->.
  - intros (x & Hx & Ha) Hk. exists x. split; [done|by apply IH].
Qed.
Lemma storeless_bind {A B} (p : Prog A) (k : A -> Prog B) :
  storeless p -> (forall a, storeless (k a)) -> storeless (bind p k).
Proof. intros Hp Hk. induction p as [a|bg st o k' IH|bg st o recs k' IH|bg reqs k' IH|X o k' IH]; cbn in *; try done. intros x. by apply IH. Qed.

Lemma wp_storeless v0 G i {A} (p : Prog A) (Q : A -> World -> Prop) w :
  world_ok v0 w -> storeless p -> (forall a w1, later v0 G i w w1 -> may_return p a -> Q a w1) -> wp v0 G i p Q w.
Proof.
  revert w. induction p as [a|bg st o k' IH|bg st o recs k' IH|bg reqs k' IH|X o k' IH]; intros w Hw Hp HQ; cbn in *; try done.
  - apply HQ; [by apply later_refl|done].
  - intros x w1 Hl Hx. apply IH; [by apply Hl|done|]. intros a w2 Hl2 Ha. apply HQ; [by eapply later_trans|].
    by exists x.
Qed.

(** ** Executing an interleaving

    [schedule] says which thread makes the next call (a thread that has finished makes none);
    [handle n] answers the other effects of the [n]-th call. *)
Section Schedule.
Context (handle : nat -> forall X, O X -> X) (envs : nat -> CallEnv).
Hypothesis handle_responds : forall n X o, responds X o (handle n X o).

Definition exec_step {A} (i n : nat) (w : World) (p : Prog A) : option (World * Prog A) :=
  match p with
  | Ret _ => None
  | DoLoad b st o k => Some (w, k (Load (if b then None else ce_ctx (envs n)) (w_store w) st o))
  | DoAppend b st o recs k =>
      let env := if b then mkEnv None (ce_now (envs n)) (ce_rand (envs n)) else envs n in
      match Append env (w_store w) st o recs with
      | (s', Ok out) => Some (mkWorld s' (w_log w ++ [mkEntry i st (view (w_store w) st) out]), k (Ok out))
      | (s', Err e) => Some (mkWorld s' (w_log w), k (Err e))
      end
  | DoBatch b reqs k =>
      let env := if b then mkEnv None (ce_now (envs n)) (ce_rand (envs n)) else envs n in
      match AppendBatch env (w_store w) reqs with
      | (s', Ok rs) => Some (mkWorld s' (w_log w ++ batch_entries i (w_store w) rs), k (Ok rs))
      | (s', Err e) => Some (mkWorld s' (w_log w), k (Err e))
      end
  | DoOther o k => Some (w, k (handle n _ o))
  end.

Fixpoint run_pool {A} (schedule : list nat) (n : nat) (c : World * list (Prog A)) : World * list (Prog A) :=
  match schedule with
  | [] => c
  | i :: rest =>
      run_pool rest (Datatypes.S n)
        match c.2 !! i with
        | None => c
        | Some p =>
            match exec_step i n c.1 p with
            | None => c
            | Some (w', p') => (w', <[i := p']> c.2)
            end
        end
  end.

Lemma exec_step_sound {A} i n w (p : Prog A) w' p' :
  exec_step i n w p = Some (w', p') -> step_by i w p w' p'.
Proof using handle_responds.
  destruct p as [a|b st o k|b st o recs k|b reqs k|X o k]; simpl.
  - done.
  - intros [= <- <-]. constructor. unfold call_ctx. by intros ->.
  - destruct (Append _ _ _ _ _) as [s' [out|e]] eqn:E; intros [= <- <-].
    + eapply step_append_ok; [|done]. unfold call_ctx. by intros ->.
    + eapply step_append_err; [|done]. unfold call_ctx. by intros ->.
  - destruct (AppendBatch _ _ _) as [s' [rs|e]] eqn:E; intros [= <- <-].
    + eapply step_batch_ok; [|done]. unfold call_ctx. by intros ->.
    + eapply step_batch_err; [|done]. unfold call_ctx. by intros ->.
  - intros [= <- <-]. by constructor.
Qed.

Lemma run_pool_sound {A} schedule n (c : World * list (Prog A)) :
  rtc pool_step c (run_pool schedule n c).
Proof using handle_responds.
  revert n c. induction schedule as [|i rest IH]; intros n [w ps]; simpl; [apply rtc_refl|].
  destruct (ps !! i) as [p|] eqn:Hi; [|apply IH].
  destruct (exec_step i n w p) as [[w1 p1]|] eqn:E; [|apply IH].
  eapply rtc_l; [|by apply IH]. by eapply pool_thread, exec_step_sound.
Qed.
End Schedule.
End Pool.
End Programs.
Arguments Prog : clear implicits.
Arguments Ret {P O A} a.
Arguments DoLoad {P O A} background stream opts k.
Arguments DoAppend {P O A} background stream opts records k.
Arguments DoBatch {P O A} background requests k.
Arguments DoOther {P O A X} o k.
Arguments Entry : clear implicits.
Arguments World : clear implicits.

(** The world a pool starts in: nobody has written yet. *)
Definition fresh {P S} {ES : EventStore S P} (s : S) : World P S := mkWorld s [].
Lemma fresh_ok {P S} {ES : EventStore S P} {Laws : EventStoreLaws S P} (s : S) :
  store_ok s -> world_ok (view s) (fresh s).
Proof.
  intros Hs. split; simpl; [done| | |by exists []].
  - intros st. by rewrite app_nil_r.
  - intros l1 e l2 Heq. by destruct l1.
Qed.

(** No other effects. *)
Inductive NoEffect : Type -> Type := .
Definition no_response (X : Type) (o : NoEffect X) (x : X) : Prop := False.
Definition no_handle (X : Type) (o : NoEffect X) : X := match o with end.

(** [let! x := p in k] runs [p] and continues with its answer. *)
Notation "'let!' x ':=' p 'in' k" := (bind p (fun x => k))
  (at level 10, x pattern, p at level 100, k at level 200) : go_scope.
