(* ===== verification/TaskStore.v ===== *)
(** * The task store (src/runtime/task/store.go)

    [EventStore], the task store on top of an event store: a stream per task, an index stream of
    task summaries and a stream of worker registrations. Each method is a program over the event
    store ([Prog]); its receiver is never nil, since [NewStore] rejects a nil event store. *)

From S2P Require Import Prelude Event MemStore Operation Task TaskProject Prog.

(** The payloads of an event store hold any event; the task store builds task events and tests for
    them with type assertions. *)
Class TaskPayload (P : Type) := {
  task_payload : TaskEvent -> P;
  as_task : P -> option TaskEvent;
  payload_name : P -> string
}.
Class TaskPayloadLaws (P : Type) `{TaskPayload P} : Prop := {
  as_task_payload e : as_task (task_payload e) = Some e;
  task_payload_name e : payload_name (task_payload e) = EventName e
}.
#[export] Program Instance task_event_payload : TaskPayload TaskEvent :=
  { task_payload e := e; as_task e := Some e; payload_name := EventName }.
#[export] Instance task_event_payload_laws : TaskPayloadLaws TaskEvent.
Proof. by split. Qed.

Inductive TSError :=
| TSErrNil
| TSErrTaskIDEmpty
| TSErrWorkerIDEmpty
| TSErrStore (e : StoreError).
(** [errors.Is(err, event.ErrAppendConflict)]. *)
Definition ts_conflict (e : TSError) : bool :=
  match e with TSErrStore e => is_append_conflict e | _ => false end.

Record SequencedState := mkSequenced { sq_State : State; sq_Sequence : Z }.

(** ** Streams *)

Definition StreamID (taskID : string) : string :=
  if decide (taskID = emp) then emp else ("task:" ++ taskID)%string.
Definition IndexStreamID : string := "task.index".
Definition WorkerStreamID : string := "task.workers".

Section Store.
Context {P : Type} {TP : TaskPayload P} {O : Type -> Type}.
Abbreviation Act := (Prog P O).

(** [NewStore]; the event store itself is the one the programs run on. *)
Definition NewStore (events : option unit) : Result TSError unit :=
  match events with None => Err TSErrNil | Some _ => Ok tt end.

(** A nil payload is [None]. *)
Definition task_record (taskID : string) (payload : P) : EventRecord P :=
  mkRecord emp (payload_name payload) 0 zero_Scope payload {[ "task.id"%string := taskID ]}.
Definition taskRecords (taskID : string) (payloads : list (option P)) : list (EventRecord P) :=
  omap (fun payload => task_record taskID <$> payload) payloads.

(** [Project] over stored records: a record whose payload is not a task event falls through the
    type switch of [Apply]. *)
Definition apply_record (s : State) (r : EventRecord P) : State :=
  match as_task (rec_Payload r) with
  | Some e => Apply s e (rec_Time r)
  | None => cloneState s
  end.
Definition ProjectRecords (records : list (EventRecord P)) : State :=
  fold_left apply_record records zero_State.

Definition lift {A} (r : Result StoreError A) : Result TSError A :=
  match r with Ok a => Ok a | Err e => Err (TSErrStore e) end.
Definition discard {A} (r : Result StoreError A) : Result TSError unit :=
  match r with Ok _ => Ok tt | Err e => Err (TSErrStore e) end.

(** [AppendExpected]. *)
Definition AppendExpected (taskID : string) (expected : Z) (payloads : list (option P)) : Act (Result TSError unit) :=
  let stream := StreamID taskID in
  if decide (stream = emp) then Ret (Err TSErrTaskIDEmpty) else
  match taskRecords taskID payloads with
  | [] => Ret (Ok tt)
  | records => let! r := append false stream (ExpectSequence expected) records in Ret (discard r)
  end.

(** The method [append] shared by [Append] and [Create]. *)
Definition ts_append (bg : bool) (taskID : string) (create : bool) (payloads : list (option P))
    : Act (Result TSError unit) :=
  let stream := StreamID taskID in
  if decide (stream = emp) then Ret (Err TSErrTaskIDEmpty) else
  match payloads with
  | [] => Ret (Ok tt)
  | _ =>
      let! current :=
        (if create then Ret (Ok 0%Z)
         else let! r := load bg stream (mkLoadOptions 0 0 DirectionBackward 1) in
              Ret (match r with
                   | Err e => Err e
                   | Ok [] => Ok 0%Z
                   | Ok (record :: _) => Ok (st_Sequence record)
                   end)) in
      match current with
      | Err e => Ret (Err (TSErrStore e))
      | Ok sequence =>
          match taskRecords taskID payloads with
          | [] => Ret (Ok tt)
          | records => let! r := append bg stream (ExpectSequence sequence) records in Ret (discard r)
          end
      end
  end.
Definition TaskAppend (bg : bool) (taskID : string) (payloads : list (option P)) : Act (Result TSError unit) :=
  ts_append bg taskID false payloads.
Definition Create (taskID : string) (payloads : list (option P)) : Act (Result TSError unit) :=
  ts_append false taskID true payloads.

(** [Index]. *)
Definition Index (bg : bool) (summary : TaskSummary) : Act (Result TSError unit) :=
  if decide (sum_ID summary = emp) then Ret (Err TSErrTaskIDEmpty) else
  let! r := append bg IndexStreamID zero_AppendOptions
              [task_record (sum_ID summary) (task_payload (Indexed (sum_ID summary) summary))] in
  Ret (discard r).

(** The loop of [List]: the latest summary of each task and the order of first appearance. *)
Definition list_one (acc : gmap string TaskSummary * list string) (r : StoredRecord P)
    : gmap string TaskSummary * list string :=
  let '(latest, order) := acc in
  match as_task (rec_Payload (st_Record r)) with
  | Some (Indexed taskID summary) =>
      let id := if decide (taskID = emp) then sum_ID summary else taskID in
      if decide (id = emp) then acc else
      let order := match latest !! id with None => order ++ [id] | Some _ => order end in
      let summary := if decide (sum_ID summary = emp) then summary <| sum_ID := id |> else summary in
      (<[id := summary]> latest, order)
  | _ => acc
  end.
Definition latest_summaries (records : list (StoredRecord P)) : list TaskSummary :=
  let '(latest, order) := fold_left list_one records (∅, []) in
  omap (fun id => latest !! id) order.
Definition TaskList (bg : bool) : Act (Result TSError (list TaskSummary)) :=
  let! r := load bg IndexStreamID zero_LoadOptions in
  Ret (match r with Err e => Err (TSErrStore e) | Ok stored => Ok (latest_summaries stored) end).

(** [RegisterWorker]. *)
Definition RegisterWorker (worker : WorkerStatus) : Act (Result TSError unit) :=
  if decide (w_WorkerID worker = emp) then Ret (Err TSErrWorkerIDEmpty) else
  let payload := task_payload (WorkerRegistered worker) in
  let! r := append false WorkerStreamID zero_AppendOptions
              [mkRecord emp (payload_name payload) 0 zero_Scope payload
                 {[ "task.worker_id"%string := w_WorkerID worker ]}] in
  Ret (discard r).

(** The loop of [ListWorkers]. *)
Definition worker_one (acc : gmap string WorkerStatus * list string) (r : StoredRecord P)
    : gmap string WorkerStatus * list string :=
  let '(latest, order) := acc in
  match as_task (rec_Payload (st_Record r)) with
  | Some (WorkerRegistered worker) =>
      let id := w_WorkerID worker in
      if decide (id = emp) then acc else
      (<[id := worker]> latest, match latest !! id with None => order ++ [id] | Some _ => order end)
  | _ => acc
  end.
Definition latest_workers (records : list (StoredRecord P)) : list WorkerStatus :=
  let '(latest, order) := fold_left worker_one records (∅, []) in
  omap (fun id => latest !! id) order.
Definition ListWorkers (bg : bool) : Act (Result TSError (list WorkerStatus)) :=
  let! r := load bg WorkerStreamID zero_LoadOptions in
  Ret (match r with Err e => Err (TSErrStore e) | Ok stored => Ok (latest_workers stored) end).

(** [Load], [Project] and [ProjectWithSequence] of a task stream. *)
Definition TaskLoad (bg : bool) (taskID : string) : Act (Result TSError (list (EventRecord P))) :=
  let stream := StreamID taskID in
  if decide (stream = emp) then Ret (Err TSErrTaskIDEmpty) else
  let! r := load bg stream zero_LoadOptions in
  Ret (match r with Err e => Err (TSErrStore e) | Ok stored => Ok (st_Record <$> stored) end).
Definition TaskProject (bg : bool) (taskID : string) : Act (Result TSError State) :=
  let! r := TaskLoad bg taskID in
  Ret (match r with Err e => Err e | Ok records => Ok (ProjectRecords records) end).

Definition sequence_of (stored : list (StoredRecord P)) : Z :=
  fold_left (fun _ r => st_Sequence r) stored 0%Z.
Definition ProjectWithSequence (taskID : string) : Act (Result TSError SequencedState) :=
  let stream := StreamID taskID in
  if decide (stream = emp) then Ret (Err TSErrTaskIDEmpty) else
  let! r := load false stream zero_LoadOptions in
  Ret (match r with
       | Err e => Err (TSErrStore e)
       | Ok stored => Ok (mkSequenced (ProjectRecords (st_Record <$> stored)) (sequence_of stored))
       end).
End Store.

(** The payload arguments of a call that passes task events. *)
Definition payloads {P} {TP : TaskPayload P} (events : list TaskEvent) : list (option P) :=
  (fun e => Some (task_payload e)) <$> events.

(** ** Streams of different purposes are different streams *)

Lemma StreamID_nonempty tid : tid <> emp -> StreamID tid <> emp.
Proof. intros. unfold StreamID. by rewrite decide_False. Qed.
Lemma StreamID_inj a b : a <> emp -> StreamID a = StreamID b -> a = b.
Proof.
  intros Ha. unfold StreamID. rewrite (decide_False (P := a = emp)) by done.
  case_decide; [done|]. intros E. by apply (inj (String.append "task:")) in E.
Qed.
Lemma StreamID_index tid : StreamID tid <> IndexStreamID.
Proof. unfold StreamID, IndexStreamID. by case_decide. Qed.
Lemma StreamID_workers tid : StreamID tid <> WorkerStreamID.
Proof. unfold StreamID, WorkerStreamID. by case_decide. Qed.

Section Projection.
Context {P : Type} {TP : TaskPayload P} {TL : TaskPayloadLaws P}.

(** The task events of a stream, with their times. *)
Definition task_view (l : list (StoredRecord P)) : list (TaskEvent * Time) :=
  omap (fun r => (fun e => (e, rec_Time (st_Record r))) <$> as_task (rec_Payload (st_Record r))) l.
Definition events_of (l : list (StoredRecord P)) : list TaskEvent := (task_view l).*1.

Lemma project_view l : ProjectRecords (st_Record <$> l) = Project (task_view l).
Proof.
  unfold ProjectRecords, Project. generalize zero_State. induction l as [|r l IH]; intros s; simpl; [done|].
  unfold apply_record at 2. destruct (as_task _) as [e|]; simpl; [apply IH|].
  by rewrite cloneState_id, IH.
Qed.

Lemma task_view_app l1 l2 : task_view (l1 ++ l2) = task_view l1 ++ task_view l2.
Proof. apply omap_app. Qed.
Lemma events_of_app l1 l2 : events_of (l1 ++ l2) = events_of l1 ++ events_of l2.
Proof. unfold events_of. by rewrite task_view_app, fmap_app. Qed.

Lemma stored_events tid events out :
  Forall2 stored_as (taskRecords tid (payloads events)) out -> events_of out = events.
Proof.
  revert out. induction events as [|e events IH]; intros out; simpl.
  - by intros ->%Forall2_nil_inv_l.
  - intros (r & out' & (Hp & _) & Hout & ->)%Forall2_cons_inv_l. simpl in Hp.
    unfold events_of. simpl. rewrite Hp, as_task_payload. simpl. f_equal. by apply IH.
Qed.

Lemma taskRecords_payloads tid events : taskRecords tid (payloads events) = [] -> events = [].
Proof. by destruct events. Qed.

Lemma project_app rs1 rs2 :
  Project (rs1 ++ rs2) = fold_left (fun s r => Apply s r.1 r.2) rs2 (Project rs1).
Proof. apply fold_left_app. Qed.
End Projection.

(** ** What the methods do while others write *)

Section Calls.
Context {P : Type} {TP : TaskPayload P} {TL : TaskPayloadLaws P} {O : Type -> Type}.
Context {S : Type} {ES : EventStore S P} {Laws : EventStoreLaws S P}.
Context (responds : forall X, O X -> X -> Prop).
Context (v0 : string -> list (StoredRecord P)) (G : Entry P -> Prop) (i : nat).
Abbreviation wpi := (wp responds v0 G i).
Abbreviation W := (World P S).
Implicit Types (w : W).

Definition task_stream w tid : list (StoredRecord P) := view (w_store w) (StreamID tid).

Lemma later_view w w1 st :
  world_ok v0 w -> later v0 G i w w1 -> exists rest, view (w_store w1) st = view (w_store w) st ++ rest.
Proof.
  intros [_ Hv _ _] [[_ Hv1 _ _] (l & E & _)]. rewrite Hv, Hv1, E, entries_for_app, outs_app, app_assoc.
  by eexists.
Qed.

(** [v] was the content of the task stream at some earlier point. *)
Definition snapshot w tid (v : list (StoredRecord P)) : Prop := v `prefix_of` task_stream w tid.
Lemma snapshot_later w w1 tid v : world_ok v0 w -> later v0 G i w w1 -> snapshot w tid v -> snapshot w1 tid v.
Proof.
  intros Hw Hl [r E]. destruct (later_view w w1 (StreamID tid) Hw Hl) as [rest E1].
  unfold snapshot, task_stream. rewrite E1. unfold task_stream in E. rewrite E, <- app_assoc. by eexists.
Qed.

Lemma sequence_of_view w st : store_ok (w_store w) ->
  sequence_of (view (w_store w) st) = Z.of_nat (length (view (w_store w) st)).
Proof.
  intros Hs. unfold sequence_of. destruct (view (w_store w) st) as [|r l _] eqn:E using rev_ind; [done|].
  rewrite fold_left_app. simpl. rewrite <- E. apply last_sequence; [done|]. by rewrite E, last_snoc.
Qed.

Lemma wp_ProjectWithSequence tid Q w :
  world_ok v0 w ->
  (forall w1, later v0 G i w w1 -> tid <> emp ->
     Q (Ok (mkSequenced (Project (task_view (task_stream w1 tid))) (Z.of_nat (length (task_stream w1 tid))))) w1) ->
  (forall w1 e, later v0 G i w w1 -> Q (Err e) w1) ->
  wpi (ProjectWithSequence tid) Q w.
Proof.
  intros Hw Hok Herr. unfold ProjectWithSequence. case_decide as Hst.
  { apply Herr, later_refl, Hw. }
  assert (Htid : tid <> emp) by (intros ->; done).
  simpl. intros c w1 Hl _. destruct c as [m|].
  - rewrite load_cancelled. by apply Herr.
  - rewrite load_all by done. rewrite project_view, sequence_of_view by by apply Hl. by apply Hok.
Qed.

Lemma wp_TaskProject bg tid Q w :
  world_ok v0 w ->
  (forall w1, later v0 G i w w1 -> tid <> emp -> Q (Ok (Project (task_view (task_stream w1 tid)))) w1) ->
  (forall w1 e, later v0 G i w w1 -> Q (Err e) w1) ->
  wpi (TaskProject bg tid) Q w.
Proof.
  intros Hw Hok Herr. unfold TaskProject, TaskLoad. case_decide as Hst.
  { simpl. apply Herr, later_refl, Hw. }
  assert (Htid : tid <> emp) by (intros ->; done).
  simpl. intros c w1 Hl _. destruct c as [m|].
  - rewrite load_cancelled. by apply Herr.
  - rewrite load_all by done. rewrite project_view. by apply Hok.
Qed.

(** The world after thread [i] appended [out] to [st]. *)
Definition appended w (w2 : W) st (out : list (StoredRecord P)) : Prop :=
  world_ok v0 w2 /\ w_log w2 = w_log w ++ [mkEntry i st (view (w_store w) st) out].

(** An append that expects the length of a snapshot succeeds only right after the snapshot. *)
Lemma wp_AppendExpected tid v events Q w :
  world_ok v0 w -> snapshot w tid v -> events <> [] ->
  (forall w1 w2 out, later v0 G i w w1 -> task_stream w1 tid = v -> events_of out = events ->
     appended w1 w2 (StreamID tid) out ->
     G (mkEntry i (StreamID tid) v out) /\ Q (Ok tt) w2) ->
  (forall w1 e, later v0 G i w w1 -> Q (Err e) w1) ->
  wpi (AppendExpected tid (Z.of_nat (length v)) (payloads events)) Q w.
Proof.
  intros Hw Hsnap Hne Hok Herr. unfold AppendExpected. case_decide as Hst.
  { apply Herr, later_refl, Hw. }
  destruct (taskRecords tid (payloads events)) as [|r rs] eqn:Er.
  { by apply taskRecords_payloads in Er. }
  rewrite <- Er. simpl. intros env w1 Hl _.
  destruct (Append env (w_store w1) _ _ _) as [s' [out|e]] eqn:Ea.
  2: { intros _. by apply Herr. }
  intros Hw2. pose proof Ea as Ea'. apply append_ok in Ea as (_ & _ & _ & Hexp & Hrecs); [|by apply Hl].
  specialize (Hexp eq_refl). simpl in Hexp.
  assert (Hv : task_stream w1 tid = v).
  { destruct (snapshot_later w w1 tid v Hw Hl Hsnap) as [rest E]. unfold task_stream in *.
    rewrite E in Hexp |- *. rewrite length_app in Hexp. destruct rest; [apply app_nil_r|simpl in Hexp; lia]. }
  apply stored_events in Hrecs. unfold task_stream in Hv. 
  destruct (Hok w1 (mkWorld s' (w_log w1 ++ [mkEntry i (StreamID tid) (view (w_store w1) (StreamID tid)) out])) out)
    as [HG HQ]; [done|done|done|by split|]. rewrite Hv in *. done.
Qed.

(** An append without a snapshot ([TaskAppend] re-reads the tail itself). *)
Lemma wp_TaskAppend bg tid events Q w :
  world_ok v0 w -> events <> [] ->
  (forall w1 w2 out, later v0 G i w w1 -> events_of out = events -> appended w1 w2 (StreamID tid) out ->
     G (mkEntry i (StreamID tid) (task_stream w1 tid) out) /\ Q (Ok tt) w2) ->
  (forall w1 e, later v0 G i w w1 -> Q (Err e) w1) ->
  wpi (TaskAppend bg tid (payloads events)) Q w.
Proof.
  intros Hw Hne Hok Herr. unfold TaskAppend, ts_append. case_decide as Hst.
  { apply Herr, later_refl, Hw. }
  destruct (payloads events) as [|p ps] eqn:Ep; [by destruct events|]. rewrite <- Ep.
  simpl. intros c w1 Hl _. destruct (Load _ _ _ _) as [l|e]; [|simpl; by apply Herr].
  assert (Happ : forall n, wpi (match taskRecords tid (payloads events) with
     | [] => Ret (Ok tt)
     | records => bind (append bg (StreamID tid) (ExpectSequence n) records) (fun r => Ret (discard r))
     end) Q w1).
  { intros n. destruct (taskRecords tid (payloads events)) as [|r rs] eqn:Er.
    { by apply taskRecords_payloads in Er. }
    rewrite <- Er. simpl. intros env w2 Hl2 _.
    destruct (Append env (w_store w2) _ _ _) as [s' [out|e]] eqn:Ea.
    - intros Hw3. apply append_ok in Ea as (_ & _ & _ & _ & Hrecs); [|by apply Hl2].
      apply stored_events in Hrecs. apply Hok; [by eapply later_trans|done|by split].
    - intros _. apply Herr. by eapply later_trans. }
  destruct l as [|r l]; simpl; apply Happ.
Qed.

(** [Create] succeeds only on an empty stream. *)
Lemma wp_Create tid events Q w :
  world_ok v0 w -> events <> [] ->
  (forall w1 w2 out, later v0 G i w w1 -> task_stream w1 tid = [] -> events_of out = events ->
     appended w1 w2 (StreamID tid) out -> G (mkEntry i (StreamID tid) [] out) /\ Q (Ok tt) w2) ->
  (forall w1 e, later v0 G i w w1 -> Q (Err e) w1) ->
  wpi (Create tid (payloads events)) Q w.
Proof.
  intros Hw Hne Hok Herr. pose proof (wp_AppendExpected tid [] events Q w Hw (prefix_nil _) Hne) as Ha.
  unfold Create, ts_append, AppendExpected in *. case_decide; [by apply Herr, later_refl|].
  destruct (payloads events) eqn:Ep; [by destruct events|]. rewrite <- Ep in *. simpl bind. by apply Ha.
Qed.

Lemma wp_Index bg summary Q w :
  world_ok v0 w ->
  (forall w1 w2 out, later v0 G i w w1 -> appended w1 w2 IndexStreamID out ->
     G (mkEntry i IndexStreamID (view (w_store w1) IndexStreamID) out) /\ Q (Ok tt) w2) ->
  (forall w1 e, later v0 G i w w1 -> Q (Err e) w1) ->
  wpi (Index bg summary) Q w.
Proof.
  intros Hw Hok Herr. unfold Index. case_decide; [by apply Herr, later_refl|].
  simpl. intros env w1 Hl _. destruct (Append _ _ _ _ _) as [s' [out|e]]; intros Hw2.
  - by apply Hok.
  - by apply Herr.
Qed.
End Calls.

(** ** The properties *)

Section Properties.
Context {P : Type} {TP : TaskPayload P} {TL : TaskPayloadLaws P} {O : Type -> Type}.
Context {S : Type} {ES : EventStore S P} {Laws : EventStoreLaws S P}.
Context (responds : forall X, O X -> X -> Prop).

(** Appends to a task stream happen on the empty stream. *)
Definition create_guard (tid : string) (e : Entry P) : Prop :=
  en_stream e = StreamID tid -> en_before e = [] /\ en_out e <> [].
Definition created_by (tid : string) (creates : list (list TaskEvent)) (i : nat) (r : Result TSError unit)
    (w : World P S) : Prop :=
  r = Ok tt -> exists e, e ∈ w_log w /\ en_owner e = i /\ en_stream e = StreamID tid /\
    creates !! i = Some (events_of (en_out e)).

(** Two entries of one stream that both start it are the same entry. *)
Lemma first_entry_unique v0 w tid e1 e2 :
  world_ok v0 w -> Forall (create_guard tid) (w_log w) -> e1 ∈ w_log w -> e2 ∈ w_log w ->
  en_stream e1 = StreamID tid -> en_stream e2 = StreamID tid -> e1 = e2.
Proof.
  intros Hw HG (l1 & l2 & Heq)%list_elem_of_split He2 H1 H2. rewrite Forall_forall in HG.
  assert (Hg : forall e, e ∈ w_log w -> create_guard tid e) by auto.
  rewrite Heq in He2. apply elem_of_app in He2 as [Hin|[->|Hin]%elem_of_cons]; [|done|].
  - apply list_elem_of_split in Hin as (a & b & ->). rewrite <- app_assoc in Heq. simpl in Heq.
    pose proof (entries_ordered _ _ _ _ _ _ _ Hw Heq (eq_trans H2 (eq_sym H1))) as Ho.
    destruct (Hg e1) as [Hb1 _]; [rewrite Heq; set_solver|done|].
    destruct (Hg e2) as [_ Hn2]; [rewrite Heq; set_solver|done|].
    rewrite Hb1 in Ho. symmetry in Ho. apply app_eq_nil in Ho as [_ [? _]%app_eq_nil]. done.
  - apply list_elem_of_split in Hin as (a & b & ->).
    pose proof (entries_ordered _ _ _ _ _ _ _ Hw Heq (eq_trans H1 (eq_sym H2))) as Ho.
    destruct (Hg e2) as [Hb2 _]; [rewrite Heq; set_solver|done|].
    destruct (Hg e1) as [_ Hn1]; [rewrite Heq; set_solver|done|].
    rewrite Hb2 in Ho. symmetry in Ho. apply app_eq_nil in Ho as [_ [? _]%app_eq_nil]. done.
Qed.

(** However calls interleave, of any number of concurrent [Create] calls for one task at most
    one succeeds, and if one does the stream was empty and holds exactly what that call passed at
    its start. *)
Theorem task_create_exclusive (s : S) tid (creates : list (list TaskEvent)) w' ps' i j :
  store_ok s -> Forall (fun es => es <> []) creates ->
  rtc (pool_step responds) (fresh s, (fun es => Create (O := O) tid (payloads es)) <$> creates) (w', ps') ->
  ps' !! i = Some (Ret (Ok tt)) -> ps' !! j = Some (Ret (Ok tt)) ->
  i = j /\ view s (StreamID tid) = [] /\
  exists events out rest, creates !! i = Some events /\
    view (w_store w') (StreamID tid) = out ++ rest /\ events_of out = events.
Proof.
  intros Hs Hne Hrun Hi Hj.
  destruct (wp_pool responds (view s) (create_guard tid) (created_by tid creates) (fresh s)
              ((fun es => Create (O := O) tid (payloads es)) <$> creates) w' ps')
    as (Hw' & HG & Hwp).
  - intros k r w w1 Hl Hc Hr. destruct (Hc Hr) as (e & He & ?). exists e. split; [|done]. by eapply later_entry.
  - exact Hrun.
  - by apply fresh_ok.
  - constructor.
  - intros k p. rewrite list_lookup_fmap. intros (es & Hes & ->)%fmap_Some.
    rewrite Forall_lookup in Hne. specialize (Hne k es Hes). apply wp_Create; [by apply fresh_ok|done| |done].
    intros w1 w2 out Hl Hv Hout [Hw2 Hlog]. split.
    + intros _. split; [done|]. simpl. intros ->. by apply Hne.
    + intros _. eexists. split; [rewrite Hlog; apply elem_of_app; right; by left|].
      split_and!; [done..|]. simpl. by rewrite Hes, Hout.
  - destruct (Hwp i _ Hi eq_refl) as (e1 & He1 & <- & Hs1 & Hes).
    destruct (Hwp j _ Hj eq_refl) as (e2 & He2 & <- & Hs2 & _).
    split; [by rewrite (first_entry_unique _ _ _ _ _ Hw' HG He1 He2 Hs1 Hs2)|].
    rewrite Forall_forall in HG. destruct (HG e1 He1 Hs1) as [Hb _].
    destruct (entry_prefix _ _ _ Hw' He1) as [rest Hrest]. rewrite Hs1, Hb in Hrest.
    apply list_elem_of_split in He1 as (l1 & l2 & Heq). rewrite (world_before _ _ Hw' _ _ _ Heq), Hs1 in Hb.
    apply app_eq_nil in Hb as [? _]. split; [done|]. by exists (events_of (en_out e1)), (en_out e1), rest.
Qed.
End Properties.

(** ** Listing: the latest entry of each key, in order of first appearance *)

Section Latest.
Context {A : Type}.
Implicit Types (kvs : list (string * A)).

(** The loop of [List] and of [ListWorkers] on (key, value) pairs. *)
Definition latest_one (acc : gmap string A * list string) (kv : string * A) : gmap string A * list string :=
  let '(latest, order) := acc in
  (<[kv.1 := kv.2]> latest, match latest !! kv.1 with None => order ++ [kv.1] | Some _ => order end).

(** The reference: keys in order of first appearance, each with its last value. *)
Definition first_seen kvs : list string := reverse (remove_dups (reverse kvs.*1)).
Definition last_value kvs (k : string) : option A := snd <$> last (filter (fun kv => kv.1 = k) kvs).

Lemma last_value_snoc kvs kv k :
  last_value (kvs ++ [kv]) k = if decide (kv.1 = k) then Some kv.2 else last_value kvs k.
Proof.
  unfold last_value. rewrite filter_app, filter_cons, filter_nil. case_decide.
  - by rewrite last_snoc.
  - by rewrite app_nil_r.
Qed.

Lemma first_seen_snoc kvs kv :
  first_seen (kvs ++ [kv]) = if decide (kv.1 ∈ kvs.*1) then first_seen kvs else first_seen kvs ++ [kv.1].
Proof.
  unfold first_seen. rewrite fmap_app, reverse_app. simpl.
  destruct (decide_rel _ kv.1 (reverse kvs.*1)) as [Hin|Hin]; rewrite elem_of_reverse in Hin.
  - by rewrite decide_True.
  - rewrite decide_False by done. by rewrite reverse_cons.
Qed.

Lemma last_value_some kvs k : is_Some (last_value kvs k) <-> k ∈ kvs.*1.
Proof.
  induction kvs as [|kv kvs IH] using rev_ind; [split; [by intros []|by intros ?%not_elem_of_nil]|].
  rewrite last_value_snoc, fmap_app, elem_of_app, <- IH. simpl. rewrite list_elem_of_singleton.
  case_decide; naive_solver.
Qed.

Lemma latest_fold kvs :
  let '(latest, order) := fold_left latest_one kvs (∅, []) in
  order = first_seen kvs /\ forall k, latest !! k = last_value kvs k.
Proof.
  induction kvs as [|kv kvs IH] using rev_ind; [by split|].
  rewrite fold_left_app. destruct (fold_left latest_one kvs (∅, [])) as [latest order].
  destruct IH as [-> Hl]. simpl. split.
  - rewrite first_seen_snoc, Hl. destruct (last_value kvs kv.1) eqn:E.
    + rewrite decide_True; [done|]. apply last_value_some. by eexists.
    + rewrite decide_False; [done|]. rewrite <- last_value_some, E. by intros [].
  - intros k. rewrite last_value_snoc. case_decide as Hk.
    + subst. apply lookup_insert_eq.
    + rewrite lookup_insert_ne by done. apply Hl.
Qed.
End Latest.

Section Listing.
Context {P : Type} {TP : TaskPayload P}.

(** What [List] takes from a record, and what [ListWorkers] does. *)
Definition indexed_summary (r : StoredRecord P) : option (string * TaskSummary) :=
  match as_task (rec_Payload (st_Record r)) with
  | Some (Indexed taskID summary) =>
      let id := if decide (taskID = emp) then sum_ID summary else taskID in
      if decide (id = emp) then None
      else Some (id, if decide (sum_ID summary = emp) then summary <| sum_ID := id |> else summary)
  | _ => None
  end.
Definition registered_worker (r : StoredRecord P) : option (string * WorkerStatus) :=
  match as_task (rec_Payload (st_Record r)) with
  | Some (WorkerRegistered worker) =>
      if decide (w_WorkerID worker = emp) then None else Some (w_WorkerID worker, worker)
  | _ => None
  end.

Lemma fold_omap {A B C} (f : C -> B -> C) (g : A -> option B) (h : C -> A -> C) l c :
  (forall c a, h c a = match g a with Some b => f c b | None => c end) ->
  fold_left h l c = fold_left f (omap g l) c.
Proof.
  intros Hh. revert c. induction l as [|a l IH]; intros c; simpl; [done|].
  rewrite Hh. destruct (g a); simpl; apply IH.
Qed.

(** The task list is built from the index stream: one summary per task that was ever indexed, in
    the order the tasks were first indexed, each the last one recorded for its task; the worker
    list likewise. Records of other kinds and entries without an identifier do not matter. *)
Theorem task_list_latest (records : list (StoredRecord P)) :
  latest_summaries records =
    omap (last_value (omap indexed_summary records)) (first_seen (omap indexed_summary records)) /\
  latest_workers records =
    omap (last_value (omap registered_worker records)) (first_seen (omap registered_worker records)).
Proof.
  split.
  - unfold latest_summaries. rewrite (fold_omap latest_one indexed_summary list_one).
    + pose proof (latest_fold (omap indexed_summary records)) as Hf. destruct (fold_left _ _ _) as [latest order].
      destruct Hf as [-> Hl]. apply list_omap_ext, Forall_Forall2_diag, Forall_true. intros. apply Hl.
    + intros [latest order] r. unfold list_one, indexed_summary.
      destruct (as_task _) as [[]|]; try done. simpl. by case_match.
  - unfold latest_workers. rewrite (fold_omap latest_one registered_worker worker_one).
    + pose proof (latest_fold (omap registered_worker records)) as Hf. destruct (fold_left _ _ _) as [latest order].
      destruct Hf as [-> Hl]. apply list_omap_ext, Forall_Forall2_diag, Forall_true. intros. apply Hl.
    + intros [latest order] r. unfold worker_one, registered_worker.
      destruct (as_task _) as [[]|]; try done. simpl. by case_match.
Qed.
End Listing.

Module StoreDemo.
Definition created (title : string) : list TaskEvent := [Created "t1" (zero_Task <| t_Title := title |>)].
Definition creates : list (list TaskEvent) := [created "one"; created "two"].
Definition initial : World TaskEvent (MemoryStore TaskEvent) * list (Prog TaskEvent NoEffect (Result TSError unit)) :=
  (fresh NewMemoryStore, (fun es => Create "t1" (payloads es)) <$> creates).
(** Both calls are made before either returns; the second one loses. *)
Definition final : World TaskEvent (MemoryStore TaskEvent) * list (Prog TaskEvent NoEffect (Result TSError unit)) :=
  run_pool (fun _ => no_handle) (fun n => demo_env (pretty n)) [0; 1] 0 initial.
End StoreDemo.

Lemma task_create_exclusive_witness :
  StoreDemo.final.2 !! 0 = Some (Ret (Ok tt)) /\
  exists events out rest, StoreDemo.creates !! 0 = Some events /\
    view (w_store StoreDemo.final.1) (StreamID "t1") = out ++ rest /\ events_of out = events.
Proof.
  assert (H0 : StoreDemo.final.2 !! 0 = Some (Ret (Ok tt))) by (vm_compute; done).
  split; [exact H0|].
  refine (proj2 (proj2 (task_create_exclusive (fun _ _ _ => True) NewMemoryStore "t1" StoreDemo.creates
    StoreDemo.final.1 StoreDemo.final.2 0 0 _ _ _ H0 H0))).
  - apply new_store_wf.
  - by repeat constructor.
  - rewrite <- surjective_pairing. by apply (run_pool_sound (fun _ _ _ => True)).
Defined.
