(* ===== verification/SchedLocal.v ===== *)
(** * The scheduler's own state (src/orchestration/taskexecutor/executor.go)

    What one scheduler keeps in memory under its mutex: the tasks it is running, the worker pools
    with their round-robin cursors, the enabled flag and the last diagnostics. Every operation here
    holds the mutex from start to end, so it is one atomic function on [Sched]. *)

From stdpp Require Import sorting.
From S2P Require Import Prelude Event Operation Task TaskProject.

(** ** Configuration *)

Definition Second : Z := 1000000000.
Definition defaultReconcileInterval : Z := 2 * Second.
Definition defaultMaxParallel : Z := 2.
Definition defaultLeaseDuration : Z := 30 * Second.
Definition defaultWorker : string := "worker".
Definition defaultExplorer : string := "explorer".
Definition defaultReviewer : string := "reviewer".
Definition finalizerStepID : string := "task-finalize".
Definition maxAppendRetries : nat := 8.

Record WorkerPoolConfig := mkPoolConfig { pc_Profiles : list string; pc_MaxParallel : Z }.
Record workerPool := mkPool { wp_Profiles : list string; wp_MaxParallel : Z; wp_Next : nat }.
#[global] Instance workerPool_inhabited : Inhabited workerPool := populate (mkPool [] 0 0).
Record runningTask := mkRunning { rt_Role : Role; rt_Profile : string }.

Record Config := mkConfig {
  cfg_HasStore : bool;
  cfg_HasWorker : bool;
  cfg_ReconcileInterval : Z;
  cfg_MaxParallel : Z;
  cfg_RoleProfiles : gmap Role string;
  cfg_WorkerPools : gmap Role WorkerPoolConfig;
  cfg_WorkerID : string;
  cfg_LeaseDuration : Z;
  cfg_LeaseHeartbeat : Z;
  cfg_MaxAttempts : Z
}.

Record Sched := mkSched {
  sd_reconcileInterval : Z;
  sd_maxParallel : Z;
  sd_roleProfiles : gmap Role string;
  sd_workerPools : gmap Role workerPool;
  sd_workerID : string;
  sd_leaseDuration : Z;
  sd_leaseHeartbeat : Z;
  sd_maxAttempts : Z;
  sd_enabled : bool;
  sd_active : bool;
  sd_running : gmap string runningTask;
  sd_diagnostics : list Diagnostic
}.
#[global] Instance rebuild_Sched : Rebuild Sched := fun s =>
  mkSched s.(sd_reconcileInterval) s.(sd_maxParallel) s.(sd_roleProfiles) s.(sd_workerPools)
    s.(sd_workerID) s.(sd_leaseDuration) s.(sd_leaseHeartbeat) s.(sd_maxAttempts) s.(sd_enabled)
    s.(sd_active) s.(sd_running) s.(sd_diagnostics).

(** ** Helpers *)

(** The scheduler's [firstNonEmpty] trims; an absent map key reads as the empty string. *)
Fixpoint first_nonempty (values : list string) : string :=
  match values with
  | [] => emp
  | v :: rest => if blank v then first_nonempty rest else TrimSpace v
  end.
Fixpoint firstRole (values : list Role) : Role :=
  match values with
  | [] => emp
  | v :: rest => if decide (v <> emp) then v else firstRole rest
  end.
Definition firstProfile (profiles : list string) : string := default emp (head profiles).
Definition str_at (m : gmap Role string) (k : Role) : string := default emp (m !! k).

Fixpoint compact_loop (l : list string) (seen : gset string) : list string :=
  match l with
  | [] => []
  | p :: rest =>
      let p := TrimSpace p in
      if decide (p = emp) then compact_loop rest seen
      else if decide (p ∈ seen) then compact_loop rest seen
      else p :: compact_loop rest ({[p]} ∪ seen)
  end.
Definition compactProfiles (l : list string) : list string := compact_loop l ∅.

Definition cloneRoleProfiles (m : gmap Role string) : gmap Role string :=
  omap (fun p => if blank p then None else Some (TrimSpace p)) m ∪
  {[ RoleDeveloper := defaultWorker; RoleTester := defaultWorker;
     RoleExplorer := defaultExplorer; RoleReviewer := defaultReviewer ]}.

(** The loops of [cloneWorkerPools]: a default pool for each of four roles, then the configured
    ones, each of which reads only the default of its own role. *)
Definition default_pools (roleProfiles : gmap Role string) (globalMax : Z) : gmap Role workerPool :=
  let defaults := cloneRoleProfiles roleProfiles in
  list_to_map ((fun role => (role, mkPool [first_nonempty [str_at defaults role; defaultWorker]] globalMax 0))
                 <$> [RoleDeveloper; RoleTester; RoleExplorer; RoleReviewer]).
Definition configured_pool (base : gmap Role workerPool) (globalMax : Z) (role : Role) (cfg : WorkerPoolConfig)
    : workerPool :=
  let profiles := compactProfiles (pc_Profiles cfg) in
  let profiles := if decide (length profiles = 0) then wp_Profiles (base !!! role) else profiles in
  mkPool profiles (if (pc_MaxParallel cfg <=? 0)%Z then globalMax else pc_MaxParallel cfg) 0.
Definition cloneWorkerPools (roleProfiles : gmap Role string) (cfgs : gmap Role WorkerPoolConfig) (globalMax : Z)
    : gmap Role workerPool :=
  let base := default_pools roleProfiles globalMax in
  map_imap (fun role cfg => Some (configured_pool base globalMax role cfg)) cfgs ∪ base.

(** [New]; [fresh] is [cfg.NewID("scheduler_")]. *)
Definition New (cfg : Config) (fresh : string) : Result string Sched :=
  if negb (cfg_HasStore cfg) then Err "taskexecutor: store is nil"%string
  else if negb (cfg_HasWorker cfg) then Err "taskexecutor: worker is nil"%string
  else
    let interval := if (cfg_ReconcileInterval cfg <=? 0)%Z then defaultReconcileInterval else cfg_ReconcileInterval cfg in
    let parallel := if (cfg_MaxParallel cfg <=? 0)%Z then defaultMaxParallel else cfg_MaxParallel cfg in
    let workerID := if decide (cfg_WorkerID cfg = emp) then fresh else cfg_WorkerID cfg in
    let lease := if (cfg_LeaseDuration cfg <=? 0)%Z then defaultLeaseDuration else cfg_LeaseDuration cfg in
    let heartbeat := if (cfg_LeaseHeartbeat cfg <=? 0)%Z then (lease ÷ 3)%Z else cfg_LeaseHeartbeat cfg in
    let heartbeat := if (heartbeat <=? 0)%Z then Second else heartbeat in
    let attempts := if (cfg_MaxAttempts cfg <=? 0)%Z then 1%Z else cfg_MaxAttempts cfg in
    Ok (mkSched interval parallel (cloneRoleProfiles (cfg_RoleProfiles cfg))
          (cloneWorkerPools (cfg_RoleProfiles cfg) (cfg_WorkerPools cfg) parallel)
          workerID lease heartbeat attempts true false ∅ []).

(** ** Reservations *)

Definition runningForRole (s : Sched) (role : Role) : Z :=
  Z.of_nat (size (filter (fun p : string * runningTask => rt_Role p.2 = role) (sd_running s))).
Definition capacity (s : Sched) : Z := (sd_maxParallel s - Z.of_nat (size (sd_running s)))%Z.
Definition isRunning (s : Sched) (taskID : string) : bool := bool_decide (is_Some (sd_running s !! taskID)).
Definition isEnabled (s : Sched) : bool := sd_enabled s.

Definition reserve (taskID : string) (role : Role) (s : Sched) : Sched * bool :=
  if (sd_maxParallel s <=? Z.of_nat (size (sd_running s)))%Z then (s, false)
  else match sd_running s !! taskID with
  | Some _ => (s, false)
  | None =>
      let role := firstRole [role; RoleDeveloper] in
      let pool := sd_workerPools s !!! role in
      if (0 <? wp_MaxParallel pool)%Z && (wp_MaxParallel pool <=? runningForRole s role)%Z then (s, false)
      else
        let profile := first_nonempty [firstProfile (wp_Profiles pool); str_at (sd_roleProfiles s) role; defaultWorker] in
        (s <| sd_running := <[taskID := mkRunning role profile]> (sd_running s) |>, true)
  end.
Definition release (taskID : string) (s : Sched) : Sched :=
  s <| sd_running := delete taskID (sd_running s) |>.
Definition SetEnabled (enabled : bool) (s : Sched) : Sched := s <| sd_enabled := enabled |>.

(** [recordError]: the last eight diagnostics are kept. *)
Definition maxDiagnostics : nat := 8.
Definition recordError (code message : string) (s : Sched) : Sched :=
  let l := sd_diagnostics s ++ [mkDiagnostic code message emp] in
  s <| sd_diagnostics := if decide (maxDiagnostics < length l) then drop (length l - maxDiagnostics) l else l |>.

(** ** Profiles *)

Definition nextProfiles (role : Role) (s : Sched) : Sched * list string :=
  let role := firstRole [role; RoleDeveloper] in
  let pool := sd_workerPools s !!! role in
  let n := length (wp_Profiles pool) in
  if decide (n = 0) then
    let profile := TrimSpace (str_at (sd_roleProfiles s) role) in
    (s, if decide (profile <> emp) then [profile] else [defaultWorker])
  else
    let start := wp_Next pool mod n in
    let pool' := mkPool (wp_Profiles pool) (wp_MaxParallel pool) ((wp_Next pool + 1) mod n) in
    (s <| sd_workerPools := <[role := pool']> (sd_workerPools s) |>,
     (fun i => nth ((start + i) mod n) (wp_Profiles pool) emp) <$> seq 0 n).

(** [resolveProfiles]: the profiles to try and whether the step waits for a human. *)
Definition resolveProfiles (task : Task) (step : Step) (s : Sched) : Sched * (list string * bool) :=
  if negb (blank (s_Profile step)) then (s, ([TrimSpace (s_Profile step)], false))
  else
    let role := firstRole [s_Assignee step; t_Assignee task] in
    if decide (role = RoleHuman) then (s, ([], true))
    else
      let '(s, profiles) := nextProfiles role s in
      (s, (if decide (length profiles = 0) then [defaultWorker] else profiles, false)).

(** ** Worker registrations *)

Definition localWorkerStatus (now : Time) (s : Sched) : WorkerStatus :=
  mkWorker (sd_workerID s) now (time_Add now (2 * sd_reconcileInterval s)) true (capacity s) (sd_maxParallel s)
    (map_imap (fun role pool => Some (wp_MaxParallel pool - runningForRole s role)%Z) (sd_workerPools s))
    (wp_MaxParallel <$> sd_workerPools s) (wp_Profiles <$> sd_workerPools s).

Definition worker_le (a b : WorkerStatus) : Prop := String.le (w_WorkerID a) (w_WorkerID b).
#[global] Instance worker_le_dec a b : Decision (worker_le a b) := _ : Decision (Is_true _).

(** [mergeWorkerStatuses]: a map by worker, its values sorted by worker. *)
Definition merge_worker (latest : gmap string WorkerStatus) (w : WorkerStatus) : gmap string WorkerStatus :=
  if blank (w_WorkerID w) then latest else <[w_WorkerID w := w]> latest.
Definition mergeWorkerStatuses (stored : list WorkerStatus) (local : WorkerStatus) : list WorkerStatus :=
  merge_sort worker_le (map_to_list (fold_left merge_worker (stored ++ [local]) ∅)).*2.

Fixpoint workerRegistrationExpired_loop (workerID : string) (workers : list WorkerStatus) (now : Time) : bool :=
  match workers with
  | [] => false
  | w :: rest =>
      if decide (w_WorkerID w <> workerID) then workerRegistrationExpired_loop workerID rest now
      else negb (time_IsZero (w_LeaseExpiresAt w)) && negb (time_After (w_LeaseExpiresAt w) now)
  end.
Definition workerRegistrationExpired (workerID : string) (workers : list WorkerStatus) (now : Time) : bool :=
  if blank workerID then false else workerRegistrationExpired_loop workerID workers now.

(** [executionRecoveryReason]: the reason and the diagnostic code, when the execution can be
    recovered. *)
Definition executionRecoveryReason (x : Execution) (workers : list WorkerStatus) (now : Time)
    : option (string * string) :=
  let workerID := first_nonempty [x_WorkerID x; "unknown"%string] in
  if negb (time_IsZero (x_LeaseExpiresAt x)) then
    if negb (time_After (x_LeaseExpiresAt x) now)
    then Some (("task execution lease expired for worker " ++ workerID)%string, "task_execution_lease_expired"%string)
    else None
  else if workerRegistrationExpired (x_WorkerID x) workers now
  then Some (("task execution worker registration expired for worker " ++ workerID)%string,
             "task_execution_worker_expired"%string)
  else None.

(** ** Reservations stay within bounds *)

(** The operations that take the mutex, in the order they take it. *)
Inductive LocalOp :=
| OpReserve (taskID : string) (role : Role)
| OpRelease (taskID : string)
| OpResolve (task : Task) (step : Step)
| OpSetEnabled (enabled : bool)
| OpRecordError (code message : string).
Definition local_op (s : Sched) (op : LocalOp) : Sched :=
  match op with
  | OpReserve taskID role => (reserve taskID role s).1
  | OpRelease taskID => release taskID s
  | OpResolve task step => (resolveProfiles task step s).1
  | OpSetEnabled enabled => SetEnabled enabled s
  | OpRecordError code message => recordError code message s
  end.
Definition local_ops (ops : list LocalOp) (s : Sched) : Sched := fold_left local_op ops s.

Record within_bounds (s : Sched) : Prop := {
  bound_total : (Z.of_nat (size (sd_running s)) <= sd_maxParallel s)%Z;
  bound_role role : (0 < wp_MaxParallel (sd_workerPools s !!! role))%Z ->
    (runningForRole s role <= wp_MaxParallel (sd_workerPools s !!! role))%Z
}.

Lemma reserve_cases taskID role s :
  let role' := firstRole [role; RoleDeveloper] in
  let max := wp_MaxParallel (sd_workerPools s !!! role') in
  (exists profile, reserve taskID role s =
     (s <| sd_running := <[taskID := mkRunning role' profile]> (sd_running s) |>, true) /\
     (Z.of_nat (size (sd_running s)) < sd_maxParallel s)%Z /\ sd_running s !! taskID = None /\
     ((0 < max)%Z -> (runningForRole s role' < max)%Z)) \/
  (reserve taskID role s = (s, false) /\
     ((sd_maxParallel s <= Z.of_nat (size (sd_running s)))%Z \/ is_Some (sd_running s !! taskID) \/
      (0 < max <= runningForRole s role')%Z)).
Proof.
  intros role' max. unfold reserve. destruct (Z.leb_spec (sd_maxParallel s) (Z.of_nat (size (sd_running s)))).
  { right. split; [done|by left]. }
  destruct (sd_running s !! taskID) eqn:E; [right; split; [done|right; left; by eexists]|].
  fold role' max. destruct (Z.ltb_spec 0 max), (Z.leb_spec max (runningForRole s role')); simpl;
    [right; split; [done|right; right; lia]|left; eexists; split_and!; [done|lia|done|lia]..].
Qed.

Lemma running_insert (s : Sched) taskID role profile r :
  sd_running s !! taskID = None ->
  runningForRole (s <| sd_running := <[taskID := mkRunning role profile]> (sd_running s) |>) r =
  (if decide (role = r) then runningForRole s r + 1 else runningForRole s r)%Z.
Proof.
  intros Hn. unfold runningForRole. simpl. case_decide as Hr.
  - rewrite map_filter_insert_True by done. rewrite map_size_insert_None; [lia|].
    apply map_lookup_filter_None. by left.
  - rewrite map_filter_insert_False by done. rewrite delete_id by done. done.
Qed.

Lemma running_pools (s : Sched) m : sd_workerPools (s <| sd_running := m |>) = sd_workerPools s.
Proof. done. Qed.

Lemma running_delete (s : Sched) taskID r : (runningForRole (release taskID s) r <= runningForRole s r)%Z.
Proof.
  unfold runningForRole, release. simpl. rewrite map_filter_delete.
  apply Nat2Z.inj_le, map_subseteq_size, delete_subseteq.
Qed.

Lemma nextProfiles_frame role s :
  let s' := (nextProfiles role s).1 in
  sd_running s' = sd_running s /\ sd_maxParallel s' = sd_maxParallel s /\
  forall r, wp_MaxParallel (sd_workerPools s' !!! r) = wp_MaxParallel (sd_workerPools s !!! r) /\
            wp_Profiles (sd_workerPools s' !!! r) = wp_Profiles (sd_workerPools s !!! r).
Proof.
  unfold nextProfiles. case_decide; [done|]. simpl. split_and!; [done..|].
  intros r. destruct (decide (r = firstRole [role; RoleDeveloper])) as [->|Hne].
  - by rewrite lookup_total_insert_eq.
  - by rewrite lookup_total_insert_ne.
Qed.

Lemma resolve_frame task step s :
  let s' := (resolveProfiles task step s).1 in
  sd_running s' = sd_running s /\ sd_maxParallel s' = sd_maxParallel s /\
  forall r, wp_MaxParallel (sd_workerPools s' !!! r) = wp_MaxParallel (sd_workerPools s !!! r) /\
            wp_Profiles (sd_workerPools s' !!! r) = wp_Profiles (sd_workerPools s !!! r).
Proof.
  unfold resolveProfiles. case_match; [done|]. case_decide; [done|].
  pose proof (nextProfiles_frame (firstRole [s_Assignee step; t_Assignee task]) s) as Hf.
  by destruct (nextProfiles _ s).
Qed.

Lemma bounds_same s s' :
  sd_running s' = sd_running s -> sd_maxParallel s' = sd_maxParallel s ->
  (forall r, wp_MaxParallel (sd_workerPools s' !!! r) = wp_MaxParallel (sd_workerPools s !!! r)) ->
  within_bounds s -> within_bounds s'.
Proof.
  intros Hr Hm Hp []. split; [by rewrite Hr, Hm|]. intros r. unfold runningForRole. rewrite Hp, Hr. apply bound_role0.
Qed.

Lemma local_op_bounds s op : within_bounds s -> within_bounds (local_op s op).
Proof.
  intros Hb. destruct op as [taskID role|taskID|task step|enabled|code message]; simpl.
  - destruct (reserve_cases taskID role s) as [(profile & -> & Hlt & Hn & Hr)|[-> _]]; [|done]. cbn [fst]. split.
    + simpl. rewrite map_size_insert_None by done. lia.
    + intros r Hmax. rewrite running_insert by done. rewrite running_pools in Hmax |- *.
      pose proof (bound_role _ Hb r Hmax). case_decide as Hrole; [|done]. subst r. specialize (Hr Hmax). lia.
  - destruct Hb as [Ht Hr]. split; simpl.
    + pose proof (map_subseteq_size _ _ (delete_subseteq (sd_running s) taskID)). lia.
    + intros r Hmax. pose proof (running_delete s taskID r). specialize (Hr r Hmax). lia.
  - destruct (resolve_frame task step s) as (Hr & Hm & Hp). apply (bounds_same s); try done. apply Hp.
  - by apply (bounds_same s).
  - by apply (bounds_same s).
Qed.

Lemma local_ops_bounds ops s : within_bounds s -> within_bounds (local_ops ops s).
Proof. revert s. induction ops as [|op ops IH]; intros s Hb; [done|]. by apply IH, local_op_bounds. Qed.

Lemma new_bounds cfg fresh s : New cfg fresh = Ok s -> within_bounds s.
Proof.
  unfold New. destruct (negb (cfg_HasStore cfg)), (negb (cfg_HasWorker cfg)); try done.
  intros [= <-]. split; simpl.
  - rewrite map_size_empty. case_match eqn:E; [unfold defaultMaxParallel; lia|]. apply Z.leb_gt in E. lia.
  - intros r Hmax. unfold runningForRole. simpl. rewrite map_filter_empty, map_size_empty. lia.
Qed.

(** C36: Whatever calls a scheduler's goroutines make, in whatever order they take its mutex, a
    scheduler built by [New] never runs more tasks than its parallel limit, nor more tasks of a role
    than the limit of that role's pool. *)
Theorem reservations_bounded cfg fresh s ops :
  New cfg fresh = Ok s ->
  (Z.of_nat (size (sd_running (local_ops ops s))) <= sd_maxParallel (local_ops ops s))%Z /\
  (0 <= capacity (local_ops ops s))%Z /\
  forall role, (0 < wp_MaxParallel (sd_workerPools (local_ops ops s) !!! role))%Z ->
    (runningForRole (local_ops ops s) role <= wp_MaxParallel (sd_workerPools (local_ops ops s) !!! role))%Z.
Proof.
  intros Hn. destruct (local_ops_bounds ops s (new_bounds _ _ _ Hn)) as [Ht Hr].
  split_and!; [done| |done]. unfold capacity. lia.
Qed.

Lemma local_op_keeps s op taskID :
  op <> OpRelease taskID -> is_Some (sd_running s !! taskID) -> is_Some (sd_running (local_op s op) !! taskID).
Proof.
  intros Hne Hs. destruct op as [id role|id|task step|enabled|code message]; simpl.
  - destruct (reserve_cases id role s) as [(profile & -> & _)|[-> _]]; [|done]. simpl.
    destruct (decide (id = taskID)) as [->|]; [rewrite lookup_insert_eq; by eexists|].
    by rewrite lookup_insert_ne.
  - rewrite lookup_delete_ne; [done|]. by intros ->.
  - destruct (resolve_frame task step s) as (-> & _). done.
  - done.
  - done.
Qed.

(** A task is reserved by one runner at a time: after a successful [reserve], no [reserve] of the
    same task succeeds, whatever happens in between, until its [release]. *)
Theorem reserve_exclusive taskID role1 role2 s s1 ops :
  reserve taskID role1 s = (s1, true) -> OpRelease taskID ∉ ops ->
  reserve taskID role2 (local_ops ops s1) = (local_ops ops s1, false).
Proof.
  intros Hres Hno. assert (Hs : is_Some (sd_running s1 !! taskID)).
  { destruct (reserve_cases taskID role1 s) as [(p & E & _)|[E _]]; rewrite E in Hres; [|done].
    injection Hres as <-. simpl. rewrite lookup_insert_eq. by eexists. }
  clear Hres. revert s1 Hs Hno. induction ops as [|op ops IH]; intros s1 Hs Hno.
  - destruct (reserve_cases taskID role2 s1) as [(p & _ & _ & Hn & _)|[E _]]; [|done].
    simpl. rewrite Hn in Hs. by destruct Hs.
  - apply IH; [|set_solver]. apply local_op_keeps; [|done]. intros ->. apply Hno. by left.
Qed.

(** ** Round robin *)

Lemma rotation_spec (l : list string) start :
  start < length l ->
  (fun i => nth ((start + i) mod length l) l emp) <$> seq 0 (length l) = drop start l ++ take start l.
Proof.
  intros Hlt. apply list_eq. intros i. rewrite list_lookup_fmap.
  destruct (decide (i < length l)) as [Hi|Hi].
  2: { rewrite !lookup_ge_None_2; [done|rewrite length_app, length_drop, length_take; lia|rewrite length_seq; lia]. }
  rewrite lookup_seq_lt by done. simpl. rewrite nth_lookup.
  assert (Hl : forall k, k < length l -> Some (default emp (l !! k)) = l !! k).
  { intros k Hk. destruct (lookup_lt_is_Some_2 l k Hk) as [x ->]. done. }
  destruct (decide (start + i < length l)) as [Hw|Hw].
  - rewrite Nat.mod_small, Hl by lia. rewrite lookup_app_l by (rewrite length_drop; lia). by rewrite lookup_drop.
  - replace (start + i) with (start + i - length l + 1 * length l) by lia.
    rewrite Nat.Div0.mod_add, Nat.mod_small, Hl by lia.
    rewrite lookup_app_r by (rewrite length_drop; lia). rewrite length_drop, lookup_take_lt by lia. f_equal. lia.
Qed.

(** The answers of [k] consecutive calls for one role. *)
Fixpoint next_calls (role : Role) (k : nat) (s : Sched) : list (list string) :=
  match k with
  | 0 => []
  | S k' => let '(s', l) := nextProfiles role s in l :: next_calls role k' s'
  end.

(** Profile selection is round robin: with a pool of [n] profiles and its cursor at [c], the
    [k]-th consecutive call for the role answers the pool's profiles rotated by [(c + k) mod n], so
    each profile comes first once in any [n] consecutive calls, and every answer tries them all. *)
Theorem next_profiles_round_robin role s k i l :
  let pool := sd_workerPools s !!! firstRole [role; RoleDeveloper] in
  let n := length (wp_Profiles pool) in
  n <> 0 -> next_calls role k s !! i = Some l ->
  l = drop ((wp_Next pool + i) mod n) (wp_Profiles pool) ++ take ((wp_Next pool + i) mod n) (wp_Profiles pool).
Proof.
  intros pool n Hn. revert s i pool n Hn. induction k as [|k IH]; intros s i pool n Hn; [done|]. simpl.
  destruct (nextProfiles role s) as [s' l0] eqn:E. pose proof E as E'. unfold nextProfiles in E.
  fold pool n in E. rewrite decide_False in E by done. injection E as <- <-.
  destruct i as [|i]; simpl.
  - intros [= <-]. rewrite Nat.add_0_r. apply rotation_spec. by apply Nat.mod_upper_bound.
  - intros Hl. apply IH in Hl; simpl in Hl |- *; rewrite lookup_total_insert_eq in *; simpl in *; [|done].
    rewrite Hl. fold n. replace ((((wp_Next pool + 1) mod n) + i) mod n) with ((wp_Next pool + S i) mod n); [done|].
    rewrite Nat.Div0.add_mod_idemp_l. f_equal. lia.
Qed.

(** ** Recovery *)

(** An execution is recoverable exactly when it has a lease that has expired, or has none and the
    first registration of its (non-blank) worker has expired; a lease that is still valid always
    protects it, whatever the registrations say. *)
Theorem recovery_reason_exact x workers now :
  is_Some (executionRecoveryReason x workers now) <->
  (x_LeaseExpiresAt x <> 0 /\ x_LeaseExpiresAt x <= now)%Z \/
  (x_LeaseExpiresAt x = 0%Z /\ blank (x_WorkerID x) = false /\
   exists l1 w l2, workers = l1 ++ w :: l2 /\ Forall (fun w' => w_WorkerID w' <> x_WorkerID x) l1 /\
     w_WorkerID w = x_WorkerID x /\ (w_LeaseExpiresAt w <> 0 /\ w_LeaseExpiresAt w <= now)%Z).
Proof.
  assert (Hexp : forall t, negb (time_IsZero t) && negb (time_After t now) = true <-> (t <> 0 /\ t <= now)%Z).
  { intros t. unfold time_IsZero, time_After. destruct (Z.eqb_spec t 0), (Z.ltb_spec now t); simpl; lia. }
  assert (Hloop : workerRegistrationExpired_loop (x_WorkerID x) workers now = true <->
    exists l1 w l2, workers = l1 ++ w :: l2 /\ Forall (fun w' => w_WorkerID w' <> x_WorkerID x) l1 /\
     w_WorkerID w = x_WorkerID x /\ (w_LeaseExpiresAt w <> 0 /\ w_LeaseExpiresAt w <= now)%Z).
  { induction workers as [|w workers IH]; simpl.
    - split; [done|]. by intros ([|??] & ? & ? & ? & _).
    - case_decide as Hw.
      + rewrite IH. split.
        * intros (l1 & w' & l2 & -> & Hl1 & ?). exists (w :: l1), w', l2. split; [done|]. split; [by constructor|done].
        * intros ([|w1 l1] & w' & l2 & Heq & Hl1 & ?); simplify_eq/=; [naive_solver|].
          apply Forall_cons in Hl1 as [_ ?]. by exists l1, w', l2.
      + rewrite Hexp. split.
        * intros ?. exists [], w, workers. split; [done|]. split; [apply Forall_nil_2|done].
        * intros ([|w1 l1] & w' & l2 & Heq & Hl1 & ? & ?); simplify_eq/=; [done|].
          apply Forall_cons in Hl1 as [? _]. done. }
  unfold executionRecoveryReason, workerRegistrationExpired. rewrite <- Hloop, <- (Hexp (x_LeaseExpiresAt x)).
  unfold time_IsZero. destruct (Z.eqb_spec (x_LeaseExpiresAt x) 0) as [E|E]; simpl.
  - destruct (blank (x_WorkerID x)); simpl; [split; [by intros []|naive_solver]|].
    destruct (workerRegistrationExpired_loop _ _ _); (split; [|naive_solver]).
    + intros _. by right.
    + by intros [].
  - destruct (time_After _ _); simpl; split; try naive_solver; by intros [].
Qed.

Module LocalDemo.
Definition cfg : Config :=
  mkConfig true true 0 2 ∅ {[ RoleReviewer := mkPoolConfig ["alice"; " bob "; "alice"; "carol"]%string 1 ]} "w1" 0 0 0.
Definition sched : Sched := match New cfg "fresh" with Ok s => s | Err _ => mkSched 0 0 ∅ ∅ emp 0 0 0 false false ∅ [] end.
Lemma sched_new : New cfg "fresh" = Ok sched.
Proof. by vm_compute. Qed.
Definition ops : list LocalOp :=
  [OpReserve "t1" RoleReviewer; OpReserve "t2" RoleReviewer; OpReserve "t3" emp; OpRelease "t3"; OpReserve "t4" RoleTester].
End LocalDemo.

Lemma reservations_bounded_witness :
  (0 <= capacity (local_ops LocalDemo.ops LocalDemo.sched))%Z /\
  size (sd_running (local_ops LocalDemo.ops LocalDemo.sched)) = 2.
Proof.
  split; [|by vm_compute].
  apply (proj1 (proj2 (reservations_bounded LocalDemo.cfg "fresh" LocalDemo.sched LocalDemo.ops LocalDemo.sched_new))).
Defined.

Lemma reserve_exclusive_witness :
  let s1 := (reserve "t1" RoleReviewer LocalDemo.sched).1 in
  let s2 := local_ops [OpReserve "t3" emp; OpRelease "t3"] s1 in
  reserve "t1" RoleTester s2 = (s2, false).
Proof.
  apply (reserve_exclusive "t1" RoleReviewer RoleTester LocalDemo.sched).
  - by vm_compute.
  - rewrite !not_elem_of_cons. split_and!; [done|congruence|apply not_elem_of_nil].
Defined.

Lemma next_profiles_round_robin_witness :
  next_calls RoleReviewer 4 LocalDemo.sched !! 2 = Some ["carol"; "alice"; "bob"]%string /\
  ["carol"; "alice"; "bob"]%string = drop 2 ["alice"; "bob"; "carol"]%string ++ take 2 ["alice"; "bob"; "carol"]%string.
Proof.
  assert (H : next_calls RoleReviewer 4 LocalDemo.sched !! 2 = Some ["carol"; "alice"; "bob"]%string) by by vm_compute.
  split; [exact H|]. exact (next_profiles_round_robin RoleReviewer LocalDemo.sched 4 2 _ ltac:(by vm_compute) H).
Defined.
