(* ===== verification/Completion.v ===== *)
(** * Outputs and completion (src/orchestration/taskexecutor/executor.go)

    The pure part of the executor: which artifacts a worker result declares, whether a task has
    produced its required outputs, what is missing, and the events and summaries derived from that. *)

From S2P Require Import Prelude Event Operation Graph Task TaskProject SchedLocal.

(** [strings.EqualFold] compares under Unicode case folding, an equivalence on strings. *)
Class CaseFold := { EqualFold : string -> string -> bool }.
Class CaseFoldLaws `{CaseFold} : Prop := {
  fold_refl s : EqualFold s s = true;
  fold_sym s t : EqualFold s t = EqualFold t s;
  fold_empty s : EqualFold emp s = true -> s = emp
}.

Record StepRunResult := mkRunResult { sr_Output : Value; sr_Artifacts : list ArtifactSpec }.

(** The fields of [operationruntime.ResultReplacement] the executor copies. *)
Record Replacement := mkReplacement {
  rp_Kind : string; rp_Path : string; rp_SizeBytes : Z; rp_ThresholdBytes : Z; rp_Digest : string;
  rp_MediaType : string; rp_Preview : string; rp_Tail : string; rp_OmittedBytes : Z; rp_ModelText : string }.

(** ** State predicates *)

Definition executionActive (s : State) : bool :=
  if decide (st_Current s = emp) then false else
  match current_execution s with
  | Some x => bool_decide (x_Status x = StatusRunning)
  | None => false
  end.
Definition resumableExecution (s : State) : bool :=
  if decide (st_Current s = emp) then false else
  match current_execution s with
  | Some x => bool_decide (x_Status x = StatusInterrupted)
  | None => false
  end.
Definition executionAttempt (x : Execution) : Z := if (x_Attempt x <=? 0)%Z then 1%Z else x_Attempt x.
Definition nextAttempt (attempt : Z) : Z := if (attempt <=? 0)%Z then 2%Z else (attempt + 1)%Z.

Definition summary (t : Task) : TaskSummary :=
  mkSummary (t_ID t) (t_Title t) (t_Objective t) (t_Description t) (t_Status t) (t_Priority t)
    (t_Assignee t) (t_Owner t) (t_WorkspaceID t) (t_ProjectID t) ([] ++ t_Labels t)
    (if size (t_Metadata t) =? 0 then ∅ else cloneStringMap (t_Metadata t)).

(** ** Artifacts *)

Definition artifactEvents (tid xid sid : string) (artifacts : list ArtifactSpec) : list TaskEvent :=
  omap (fun a => if decide (a_ID a = emp /\ a_Name a = emp /\ a_Value a = VNil /\ a_Ref a = emp) then None
                 else Some (ArtifactAdded tid xid sid a)) artifacts.

Definition workerReplacementCallID (xid sid suffix : string) : string :=
  Join ([xid] ++ (if decide (sid <> emp) then [sid] else []) ++ (if decide (suffix <> emp) then [suffix] else [])) ":".

(** [normalizeWorkerArtifact] and [normalizeWorkerOutput], given the replacement (if any) that
    [ReplaceLargeResult] made for the value. *)
Definition replaced_metadata (r : Replacement) (m : gmap string string) : gmap string string :=
  let m := <["replaced"%string := "true"%string]> m in
  let m := <["replacement_kind"%string := rp_Kind r]> m in
  let m := <["replacement_path"%string := rp_Path r]> m in
  let m := <["replacement_size_bytes"%string := pretty (rp_SizeBytes r)]> m in
  let m := <["replacement_threshold_bytes"%string := pretty (rp_ThresholdBytes r)]> m in
  let m := <["replacement_digest"%string := rp_Digest r]> m in
  let m := <["replacement_media_type"%string := rp_MediaType r]> m in
  let m := <["replacement_preview"%string := rp_Preview r]> m in
  let m := if decide (rp_Tail r <> emp) then <["replacement_tail"%string := rp_Tail r]> m else m in
  if (0 <? rp_OmittedBytes r)%Z then <["replacement_omitted_bytes"%string := pretty (rp_OmittedBytes r)]> m else m.
Definition normalizeWorkerArtifact (a : ArtifactSpec) (replacement : option Replacement) : ArtifactSpec :=
  if decide (a_Value a = VNil) then a else
  match replacement with
  | None => a
  | Some r =>
      let a := if decide (a_Kind a = emp) then a <| a_Kind := ArtifactReference |> else a in
      a <| a_Ref := rp_Path r |> <| a_Value := VString (rp_Preview r) |>
        <| a_Metadata := replaced_metadata r (a_Metadata a) |>
  end.
Definition normalizeWorkerOutput (v : Value) (replacement : option Replacement) : Value :=
  if decide (v = VNil) then VNil else
  match replacement with None => v | Some r => VString (rp_ModelText r) end.

Section Outputs.
Context `{CaseFold}.

Definition artifactSpecSatisfied (required : ArtifactSpec) (produced : list ArtifactSpec) : bool :=
  existsb (fun a => (bool_decide (a_ID required <> emp) && bool_decide (a_ID a = a_ID required)) ||
                    (bool_decide (a_Name required <> emp) && EqualFold (a_Name a) (a_Name required))) produced.

(** The loop of [bindDeclaredOutputs]: each declared output that has a name and is not there yet is
    added, with the worker's output as its value. *)
Definition bind_output (output : Value) (artifacts : list ArtifactSpec) (o : ArtifactSpec) : list ArtifactSpec :=
  if decide (a_ID o = emp /\ a_Name o = emp) then artifacts
  else if artifactSpecSatisfied o artifacts then artifacts
  else
    let a := if decide (a_Kind o = emp) then o <| a_Kind := ArtifactReport |> else o in
    let a := if decide (a_Value a = VNil /\ a_Ref a = emp) then a <| a_Value := output |> else a in
    artifacts ++ [a].
Definition bindDeclaredOutputs (result : StepRunResult) (outputs : list ArtifactSpec) : list ArtifactSpec :=
  fold_left (bind_output (sr_Output result)) outputs (sr_Artifacts result).

(** [normalizeWorkerResult]; [replacements] answers for the output and for each artifact. *)
Definition normalizeWorkerResult (result : StepRunResult) (outputs : list ArtifactSpec)
    (replace_output : option Replacement) (replace_artifact : nat -> option Replacement)
    : StepRunResult * list ArtifactSpec :=
  (mkRunResult (normalizeWorkerOutput (sr_Output result) replace_output) (sr_Artifacts result),
   imap (fun i a => normalizeWorkerArtifact a (replace_artifact i)) (bindDeclaredOutputs result outputs)).

(** All artifacts of a task: its own, its executions' and their steps'. Go visits the two maps in an
    unspecified order; only membership is used. *)
Definition scopedArtifacts (s : State) : list ScopedArtifact :=
  (mkScoped (t_ID (st_Task s)) emp emp <$> t_Artifacts (st_Task s)) ++
  flat_map (fun p : string * Execution =>
    (mkScoped (t_ID (st_Task s)) p.1 emp <$> x_Artifacts p.2) ++
    flat_map (fun q : string * StepExecution =>
      mkScoped (t_ID (st_Task s)) p.1 q.1 <$> se_Artifacts q.2) (map_to_list (x_Steps p.2)))
    (map_to_list (st_Executions s)).
Definition scopedArtifactSatisfied (required : ArtifactSpec) (produced : list ScopedArtifact) : bool :=
  existsb (fun scoped => artifactSpecSatisfied required [sc_Artifact scoped]) produced.

Definition required_check (produced : list ScopedArtifact) (o : ArtifactSpec) : option TaskCheck :=
  if negb (a_Required o) then None
  else Some (mkCheck "required_output"
               ("required output " ++ first_nonempty [a_ID o; a_Name o; a_Description o; a_Ref o])
               (scopedArtifactSatisfied o produced) (a_ID o)).
Definition validateCompletion (s : State) : TaskValidationResult :=
  let outputs := omap (required_check (scopedArtifacts s)) (t_Outputs (st_Task s)) in
  let steps := if decide (0 < length (t_Steps (st_Task s)))
               then [mkCheck "steps_terminal" "all declared task steps have terminal execution state"
                       (AllStepsTerminal s) emp]
               else [] in
  let checks := outputs ++ steps in
  mkValidation (t_ID (st_Task s))
    (bool_decide (t_Status (st_Task s) = StatusReady \/ t_Status (st_Task s) = StatusRunning))
    (forallb c_OK checks)
    (if decide (length checks = 0)
     then [mkCheck "task_shape" "task has no required outputs or steps" true emp] else checks).

Definition missingRequiredOutputs (s : State) (validation : TaskValidationResult) : list ArtifactSpec :=
  if v_Completable validation then []
  else filter (fun o => a_Required o = true /\ scopedArtifactSatisfied o (scopedArtifacts s) = false)
         (t_Outputs (st_Task s)).

(** [completionBlockedReason]: a loop that returns at the first failed check that is not a required
    output. *)
Fixpoint blocked_loop (checks : list TaskCheck) (missing : list string) : string :=
  match checks with
  | [] => match missing with
          | [] => "task completion blocked: validation did not pass"
          | _ => "task completion blocked: missing required outputs " ++ Join missing ", "
          end
  | c :: rest =>
      if c_OK c then blocked_loop rest missing
      else
        let target := first_nonempty [c_Target c; c_Message c; c_Code c] in
        if decide (c_Code c = "required_output"%string) then blocked_loop rest (missing ++ [target])
        else match missing with
             | [] => "task completion blocked: " ++ target
             | _ => "task completion blocked: missing required outputs " ++ Join missing ", " ++
                    "; also failed " ++ target
             end
  end%string.
Definition completionBlockedReason (v : TaskValidationResult) : string := blocked_loop (v_Checks v) [].

(** [finalizerInputs]: the evidence of completed steps. *)
Definition finalizer_step_inputs (x : Execution) (step : Step) : list ArtifactSpec :=
  let e := x_Steps x !!! s_ID step in
  let label := first_nonempty [s_Title step; s_ID step] in
  ((fun a =>
      let a := if decide (a_ID a = emp) then a <| a_ID := s_ID step |> else a in
      let a := if decide (a_Name a = emp) then a <| a_Name := label |> else a in
      let a := if decide (a_Description a = emp)
               then a <| a_Description := ("Output from completed step " ++ label)%string |> else a in
      a <| a_Required := false |>) <$> se_Artifacts e) ++
  (if decide (se_Output e = VNil) then []
   else [mkArtifact (s_ID step ++ "-output") (label ++ " output") ArtifactText
           ("Final response from completed step " ++ label) false VNil emp (se_Output e) ∅]).
Definition finalizerInputs (s : State) : list ArtifactSpec :=
  match current_execution s with
  | None => []
  | Some x => flat_map (finalizer_step_inputs x) (t_Steps (st_Task s))
  end.
End Outputs.

(** ** What completion means *)

Section Completion.
Context `{CaseFoldLaws}.
Implicit Types (s : State) (o a : ArtifactSpec).

(** [a] is the artifact the output [o] asks for: same identifier, or same name up to case. *)
Definition delivers a o : Prop :=
  (a_ID o <> emp /\ a_ID a = a_ID o) \/ (a_Name o <> emp /\ EqualFold (a_Name a) (a_Name o) = true).
Definition named o : Prop := a_ID o <> emp \/ a_Name o <> emp.

(** Somewhere in the task, an execution or a step. *)
Definition has_artifact s a : Prop :=
  a ∈ t_Artifacts (st_Task s) \/
  exists xid x, st_Executions s !! xid = Some x /\
    (a ∈ x_Artifacts x \/ exists sid e, x_Steps x !! sid = Some e /\ a ∈ se_Artifacts e).

Lemma spec_satisfied_iff o l : artifactSpecSatisfied o l = true <-> exists a, a ∈ l /\ delivers a o.
Proof.
  unfold artifactSpecSatisfied. rewrite existsb_exists. setoid_rewrite orb_true_iff.
  setoid_rewrite andb_true_iff. setoid_rewrite bool_decide_eq_true.
  split; intros (a & Ha & Hd); exists a; split; first [by apply list_elem_of_In|apply Hd].
Qed.

Lemma scoped_artifacts_iff s a : (exists sc, sc ∈ scopedArtifacts s /\ sc_Artifact sc = a) <-> has_artifact s a.
Proof.
  unfold scopedArtifacts, has_artifact. setoid_rewrite elem_of_app. setoid_rewrite elem_of_flat_map.
  setoid_rewrite elem_of_app. setoid_rewrite elem_of_flat_map. setoid_rewrite list_elem_of_fmap. split.
  - intros (sc & [(b & -> & Hb)|([xid x] & Hx%elem_of_map_to_list & Hin)] & <-); simpl in *; [by left|right].
    exists xid, x. split; [done|]. destruct Hin as [(b & -> & Hb)|([sid e] & He%elem_of_map_to_list & (b & -> & Hb))];
      simpl in *; [by left|right]. by exists sid, e.
  - intros [Ha|(xid & x & Hx & [Ha|(sid & e & He & Ha)])].
    + eexists. split; [left; by exists a|done].
    + eexists. split; [right; exists (xid, x); split; [by apply elem_of_map_to_list|left; by exists a]|done].
    + exists (mkScoped (t_ID (st_Task s)) xid sid a). split; [|done]. right. exists (xid, x). split; [by apply elem_of_map_to_list|]. right.
      exists (sid, e). split; [by apply elem_of_map_to_list|by exists a].
Qed.

Lemma scoped_satisfied_iff o s :
  scopedArtifactSatisfied o (scopedArtifacts s) = true <-> exists a, has_artifact s a /\ delivers a o.
Proof.
  unfold scopedArtifactSatisfied. rewrite existsb_exists. setoid_rewrite spec_satisfied_iff.
  setoid_rewrite <- scoped_artifacts_iff. split.
  - intros (sc & Hin%list_elem_of_In & a & ->%list_elem_of_singleton & Hd). exists (sc_Artifact sc).
    split; [by exists sc|done].
  - intros (a & (sc & Hin & <-) & Hd). exists sc. split; [by apply list_elem_of_In|].
    exists (sc_Artifact sc). split; [by left|done].
Qed.

(** Every required output is there. *)
Definition outputs_delivered s : Prop :=
  forall o, o ∈ t_Outputs (st_Task s) -> a_Required o = true -> exists a, has_artifact s a /\ delivers a o.

Lemma completable_iff s :
  v_Completable (validateCompletion s) = true <->
  outputs_delivered s /\ (t_Steps (st_Task s) <> [] -> AllStepsTerminal s = true).
Proof.
  unfold validateCompletion. simpl. rewrite forallb_app, andb_true_iff. f_equiv.
  - rewrite forallb_forall. unfold outputs_delivered. setoid_rewrite <- scoped_satisfied_iff. split.
    + intros Hall o Ho Hr. specialize (Hall (mkCheck "required_output"
        ("required output " ++ first_nonempty [a_ID o; a_Name o; a_Description o; a_Ref o])
        (scopedArtifactSatisfied o (scopedArtifacts s)) (a_ID o))). apply Hall.
      apply list_elem_of_In, list_elem_of_omap. exists o. split; [done|]. unfold required_check. by rewrite Hr.
    + intros Hall c Hc%list_elem_of_In. apply list_elem_of_omap in Hc as (o & Ho & Hc).
      unfold required_check in Hc. destruct (a_Required o) eqn:Hr; [|done]. simplify_eq/=. by apply Hall.
  - destruct (t_Steps (st_Task s)); simpl; [naive_solver|]. rewrite andb_true_r. naive_solver.
Qed.

Lemma missing_elem s o :
  o ∈ missingRequiredOutputs s (validateCompletion s) <->
  v_Completable (validateCompletion s) = false /\ o ∈ t_Outputs (st_Task s) /\ a_Required o = true /\
  ~ exists a, has_artifact s a /\ delivers a o.
Proof.
  unfold missingRequiredOutputs. rewrite <- scoped_satisfied_iff, not_true_iff_false.
  destruct (v_Completable _).
  - split; [by intros ?%not_elem_of_nil|by intros [? _]].
  - rewrite list_elem_of_filter. naive_solver.
Qed.

(** ** Declared outputs are bound *)

Lemma delivers_self o a : named o -> a_ID a = a_ID o -> a_Name a = a_Name o -> delivers a o.
Proof. intros [?|?] Hi Hn; [by left|right]. split; [done|]. rewrite Hn. apply fold_refl. Qed.

Lemma bind_output_spec v l o :
  exists l', bind_output v l o = l ++ l' /\ (named o -> artifactSpecSatisfied o (l ++ l') = true) /\
    Forall (fun a => named a) l'.
Proof.
  unfold bind_output. case_decide as Hn.
  { exists []. rewrite app_nil_r. split; [done|]. split; [|constructor]. intros [?|?]; naive_solver. }
  assert (Hnamed : named o) by (unfold named; destruct (decide (a_ID o = emp)); naive_solver).
  destruct (artifactSpecSatisfied o l) eqn:E.
  { exists []. by rewrite app_nil_r. }
  eexists. split; [done|]. split.
  - intros _. apply spec_satisfied_iff. eexists. split; [apply elem_of_app; right; by left|].
    apply delivers_self; [done|..]; repeat case_decide; done.
  - apply Forall_singleton. unfold named in *. repeat case_decide; done.
Qed.

Lemma satisfied_app o l l' : artifactSpecSatisfied o l = true -> artifactSpecSatisfied o (l ++ l') = true.
Proof. rewrite !spec_satisfied_iff. intros (a & Ha & ?). exists a. split; [set_solver|done]. Qed.

Lemma bind_outputs_spec v outputs l :
  exists l', fold_left (bind_output v) outputs l = l ++ l' /\
    forall o, o ∈ outputs -> named o -> artifactSpecSatisfied o (l ++ l') = true.
Proof.
  revert l. induction outputs as [|o outputs IH]; intros l; cbn [fold_left].
  { exists []. split; [by rewrite app_nil_r|]. by intros ? ?%not_elem_of_nil. }
  destruct (bind_output_spec v l o) as (l1 & -> & Ho & _). destruct (IH (l ++ l1)) as (l2 & -> & Hall).
  exists (l1 ++ l2). rewrite app_assoc. split; [done|].
  intros o' [->|Hin]%elem_of_cons Hn; [by apply satisfied_app, Ho|by apply Hall].
Qed.

Lemma normalize_artifact_names a r :
  a_ID (normalizeWorkerArtifact a r) = a_ID a /\ a_Name (normalizeWorkerArtifact a r) = a_Name a.
Proof. unfold normalizeWorkerArtifact. repeat case_match; done. Qed.

Lemma normalize_satisfied o l ra :
  artifactSpecSatisfied o l = true ->
  artifactSpecSatisfied o (imap (fun i a => normalizeWorkerArtifact a (ra i)) l) = true.
Proof.
  rewrite !spec_satisfied_iff. intros (a & (i & Hi)%list_elem_of_lookup & Hd).
  exists (normalizeWorkerArtifact a (ra i)). split.
  - apply list_elem_of_lookup. exists i. rewrite list_lookup_imap, Hi. done.
  - unfold delivers. destruct (normalize_artifact_names a (ra i)) as [-> ->]. done.
Qed.

(** ** One round of artifact events *)

Lemma apply_artifact_added s tid xid a at_ :
  state_ok s -> xid <> emp ->
  let s' := Apply s (ArtifactAdded tid xid emp a) at_ in
  state_ok s' /\ t_Outputs (st_Task s') = t_Outputs (st_Task s) /\
  (forall b, has_artifact s b -> has_artifact s' b) /\ has_artifact s' a.
Proof.
  intros Hs Hx s'. assert (Hok : state_ok s') by by apply apply_ok.
  assert (Hs' : s' = on_artifacts (fun l => appendArtifact l a) (with_task_id s tid) xid emp at_).
  { unfold s', Apply. by rewrite cloneState_id. }
  unfold on_artifacts in Hs'. rewrite (decide_False (P := _ /\ _)) in Hs' by naive_solver.
  rewrite (decide_True (P := _ <> _)) in Hs' by done.
  set (x := execution (with_task_id s tid) xid) in Hs'.
  assert (HE : st_Executions s' = <[xid := x <| x_Artifacts := x_Artifacts x ++ [a] |>]> (st_Executions s)).
  { rewrite Hs'. erewrite (make_current_executions s); [|done|].
    - unfold appendArtifact. by rewrite cloneArtifacts_id, cloneArtifact_id.
    - change (x_ID x = xid). apply execution_id. by apply with_task_id_ok. }
  split; [done|]. split; [by rewrite Hs'|]. split.
  - intros b [Hb|(xid' & x' & Hx' & Hb)]; [left; by rewrite Hs'|right].
    destruct (decide (xid' = xid)) as [->|Hne].
    + assert (E : x = x').
      { unfold x. rewrite execution_spec. change (st_Executions (with_task_id s tid)) with (st_Executions s).
        by rewrite Hx'. }
      rewrite E in HE. exists xid, (x' <| x_Artifacts := x_Artifacts x' ++ [a] |>).
      rewrite HE, lookup_insert_eq. split; [done|]. simpl.
      destruct Hb as [Hb|Hb]; [left; apply elem_of_app; by left|right; exact Hb].
    + exists xid', x'. by rewrite HE, lookup_insert_ne.
  - right. exists xid, (x <| x_Artifacts := x_Artifacts x ++ [a] |>). rewrite HE, lookup_insert_eq.
    split; [done|]. left. simpl. apply elem_of_app. right. by left.
Qed.

Lemma apply_artifact_events rs s tid xid artifacts :
  state_ok s -> xid <> emp -> rs.*1 = artifactEvents tid xid emp artifacts ->
  let s' := fold_left (fun s r => Apply s r.1 r.2) rs s in
  t_Outputs (st_Task s') = t_Outputs (st_Task s) /\
  (forall b, has_artifact s b -> has_artifact s' b) /\
  (forall a, a ∈ artifacts -> named a -> has_artifact s' a).
Proof.
  intros Hs Hx. revert rs s Hs. induction artifacts as [|a artifacts IH]; intros rs s Hs Hrs.
  { apply fmap_nil_inv in Hrs as ->. simpl. split_and!; [done..|]. by intros ? ?%not_elem_of_nil. }
  unfold artifactEvents in Hrs. simpl in Hrs. case_decide as Hskip.
  - simpl in Hrs. destruct (IH rs s Hs Hrs) as (Ho & Hm & Ha). split_and!; [done..|].
    intros a' [->|Hin]%elem_of_cons Hn; [|by apply Ha]. destruct Hskip as (? & ? & _). by destruct Hn.
  - simpl in Hrs. destruct rs as [|[e at_] rs]; [done|]. injection Hrs as -> Hrs. cbn [fold_left fst snd].
    destruct (apply_artifact_added s tid xid a at_ Hs Hx) as (Hs1 & Ho1 & Hm1 & Ha1).
    destruct (IH rs _ Hs1 Hrs) as (Ho & Hm & Ha). split_and!.
    + by rewrite Ho.
    + intros b Hb. by apply Hm, Hm1.
    + intros a' [->|Hin]%elem_of_cons Hn; [by apply Hm|by apply Ha].
Qed.

Lemma delivers_named a o : delivers a o -> named a.
Proof.
  intros [[? Hid]|[? Hf]]; [left; congruence|right]. intros Hn. rewrite Hn in Hf.
  by apply fold_empty in Hf.
Qed.
End Completion.

(** ** The properties *)

(** Completion is validated exactly: a task is completable when every required output is
    delivered by some artifact of the task, of an execution or of a step (same identifier, or same
    name up to case), and, if it has steps, all of them are terminal; and what the executor reports
    missing are exactly the required outputs nothing delivers. *)
Theorem completion_exact `{CaseFoldLaws} s :
  (v_Completable (validateCompletion s) = true <->
     outputs_delivered s /\ (t_Steps (st_Task s) <> [] -> AllStepsTerminal s = true)) /\
  (forall o, o ∈ missingRequiredOutputs s (validateCompletion s) <->
     v_Completable (validateCompletion s) = false /\ o ∈ t_Outputs (st_Task s) /\ a_Required o = true /\
     ~ exists a, has_artifact s a /\ delivers a o).
Proof. split; [apply completable_iff|intros o; apply missing_elem]. Qed.

(** One finalizer round is enough: when every missing required output has an identifier or a name,
    the artifacts bound to whatever the finalizing worker returned, recorded as events on the
    current execution, leave no required output missing. *)
Theorem finalizer_round_completes `{CaseFoldLaws} s tid result ro ra rs :
  state_ok s -> st_Current s <> emp ->
  Forall named (missingRequiredOutputs s (validateCompletion s)) ->
  rs.*1 = artifactEvents tid (st_Current s) emp
    (normalizeWorkerResult result (missingRequiredOutputs s (validateCompletion s)) ro ra).2 ->
  let s' := fold_left (fun s r => Apply s r.1 r.2) rs s in
  v_Completable (validateCompletion s) = false -> missingRequiredOutputs s' (validateCompletion s') = [].
Proof.
  intros Hs Hc Hn Hrs s' Hnc. destruct (apply_artifact_events rs s tid _ _ Hs Hc Hrs) as (Ho & Hm & Ha).
  apply elem_of_nil_inv. intros o (_ & Hin & Hreq & Hno)%missing_elem. apply Hno. fold s' in Ho, Hm, Ha.
  rewrite Ho in Hin. destruct (scopedArtifactSatisfied o (scopedArtifacts s)) eqn:E.
  - apply scoped_satisfied_iff in E as (a & Hart & Hd). exists a. split; [by apply Hm|done].
  - assert (Hmiss : o ∈ missingRequiredOutputs s (validateCompletion s)).
    { apply missing_elem. rewrite <- scoped_satisfied_iff, not_true_iff_false. done. }
    rewrite Forall_forall in Hn.
    destruct (bind_outputs_spec (sr_Output result) (missingRequiredOutputs s (validateCompletion s)) (sr_Artifacts result))
      as (l' & Hl & Hall).
    pose proof (normalize_satisfied o _ ra (Hall o Hmiss (Hn o Hmiss))) as Hsat. rewrite <- Hl in Hsat.
    apply spec_satisfied_iff in Hsat as (a & Hina & Hd). exists a. split; [|done].
    apply Ha; [exact Hina|by eapply delivers_named].
Qed.

(** A required output without identifier and without name is never delivered, whatever artifacts
    the workers produce: such a task can never complete, and the finalizer binds nothing to it. *)
Theorem anonymous_output_never_completes `{CaseFoldLaws} s o result :
  o ∈ t_Outputs (st_Task s) -> a_Required o = true -> a_ID o = emp -> a_Name o = emp ->
  v_Completable (validateCompletion s) = false /\
  o ∈ missingRequiredOutputs s (validateCompletion s) /\
  bindDeclaredOutputs result [o] = sr_Artifacts result.
Proof.
  intros Ho Hr Hid Hname. assert (Hno : ~ exists a, has_artifact s a /\ delivers a o).
  { intros (a & _ & [[? _]|[? _]]); done. }
  assert (Hf : v_Completable (validateCompletion s) = false).
  { apply not_true_iff_false. intros [Hall _]%completable_iff. by apply Hno, Hall. }
  split_and!; [done|by apply missing_elem|]. unfold bindDeclaredOutputs. cbn [fold_left]. unfold bind_output.
  by rewrite decide_True.
Qed.

Module CompletionDemo.
(** Case folding restricted to ASCII letters. *)
Definition lower (c : ascii) : ascii :=
  let n := nat_of_ascii c in if (65 <=? n) && (n <=? 90) then ascii_of_nat (n + 32) else c.
Fixpoint lower_string (s : string) : string :=
  match s with EmptyString => EmptyString | String.String c s' => String.String (lower c) (lower_string s') end.
#[export] Instance ascii_fold : CaseFold := { EqualFold a b := bool_decide (lower_string a = lower_string b) }.
#[export] Instance ascii_fold_laws : CaseFoldLaws.
Proof.
  split; simpl.
  - intros s. by apply bool_decide_eq_true.
  - intros s t. by apply bool_decide_ext.
  - intros s Hs%bool_decide_eq_true. by destruct s.
Qed.

Definition output (id name : string) : ArtifactSpec := zero_Artifact <| a_ID := id |> <| a_Name := name |> <| a_Required := true |>.
Definition stream (outputs : list ArtifactSpec) : list (TaskEvent * Time) :=
  [(Created "t1" (zero_Task <| t_Title := "ship" |> <| t_Outputs := outputs |>), 10%Z);
   (ExecutionStarted "t1" "x1" zero_Execution, 20%Z)].
Definition before : State := Project (stream [output "report" emp; output emp "Build Log"]).
Definition result : StepRunResult := mkRunResult (VString "done") [zero_Artifact <| a_Name := "BUILD log" |>].
Definition events : list (TaskEvent * Time) :=
  (fun e => (e, 30%Z)) <$> artifactEvents "t1" (st_Current before) emp
    (normalizeWorkerResult result (missingRequiredOutputs before (validateCompletion before)) None (fun _ => None)).2.
Lemma stream_state_ok outputs : state_ok (Project (stream outputs)).
Proof.
  apply project_ok. unfold stream. rewrite !Forall_cons. simpl.
  split_and!; [by left|by left|apply map_Forall_empty|by apply Forall_nil].
Qed.
End CompletionDemo.
Import CompletionDemo.

Lemma finalizer_round_completes_witness :
  length (missingRequiredOutputs CompletionDemo.before (validateCompletion CompletionDemo.before)) = 2 /\
  let s' := fold_left (fun s r => Apply s r.1 r.2) CompletionDemo.events CompletionDemo.before in
  missingRequiredOutputs s' (validateCompletion s') = [].
Proof.
  split; [by vm_compute|].
  refine (finalizer_round_completes CompletionDemo.before "t1" CompletionDemo.result None (fun _ => None)
    CompletionDemo.events _ _ _ _ _).
  - exact (CompletionDemo.stream_state_ok _).
  - by vm_compute.
  - change (Forall named [CompletionDemo.output "report" emp; CompletionDemo.output emp "Build Log"]).
    apply Forall_cons; split; [by left|]. apply Forall_cons; split; [by right|apply Forall_nil_2].
  - by vm_compute.
  - by vm_compute.
Defined.

Lemma anonymous_output_never_completes_witness :
  v_Completable (validateCompletion (Project (CompletionDemo.stream [CompletionDemo.output emp emp]))) = false.
Proof.
  apply (anonymous_output_never_completes _ (CompletionDemo.output emp emp) CompletionDemo.result);
    [by left|reflexivity|reflexivity|reflexivity].
Defined.
Lemma completion_exact_witness :
  v_Completable (validateCompletion CompletionDemo.before) = false.
Proof.
  apply not_true_iff_false. intros [Hd _]%(completion_exact CompletionDemo.before).
  destruct (Hd (CompletionDemo.output "report" emp)) as (a & Ha & _); [by left|done|].
  apply scoped_artifacts_iff in Ha as (sc & Hsc & _). vm_compute in Hsc. by apply not_elem_of_nil in Hsc.
Defined.
