(* ===== verification/WorkerText.v ===== *)
(** * Texts for workers (src/orchestration/taskexecutor/executor.go)

    The prompt of a step, the description of the finalizing step and the compaction of evidence to a
    byte budget without cutting a UTF-8 rune. *)

From S2P Require Import Prelude Event Operation Task TaskProject SchedLocal Completion.

(** [workerValueText]: strings and byte strings as they are, other values as [json.Marshal] encodes
    them. *)
Class ValueJson := { json_text : Value -> string }.
Definition workerValueText `{ValueJson} (v : Value) : string :=
  match v with
  | VNil => emp
  | VString s | VBytes s => s
  | _ => json_text v
  end.

Definition nl : string := String.String (ascii_of_nat 10) EmptyString.

(** [strings.Fields]: the maximal runs of non-space characters; [cur] is the current run, reversed. *)
Definition flush (cur : list ascii) : list string :=
  match cur with [] => [] | _ => [String.string_of_list_ascii (rev cur)] end.
Fixpoint fields_loop (l cur : list ascii) : list string :=
  match l with
  | [] => flush cur
  | c1 :: l1 =>
      if is_space1 c1 then flush cur ++ fields_loop l1 [] else
      match l1 with
      | [] => flush (c1 :: cur)
      | c2 :: l2 =>
          if is_space2 c1 c2 then flush cur ++ fields_loop l2 [] else
          match l2 with
          | [] => fields_loop l1 (c1 :: cur)
          | c3 :: l3 =>
              if is_space3 c1 c2 c3 then flush cur ++ fields_loop l3 [] else fields_loop l1 (c1 :: cur)
          end
      end
  end.
Definition Fields (s : string) : list string := fields_loop (String.list_ascii_of_string s) [].

(** [utf8.RuneStart]: not a continuation byte. *)
Definition RuneStart (c : ascii) : bool :=
  let n := nat_of_ascii c in negb ((128 <=? n) && (n <? 192)).
Fixpoint rune_boundary (text : string) (max : nat) : nat :=
  match max with
  | O => O
  | S max' =>
      match String.get max text with
      | Some c => if RuneStart c then max else rune_boundary text max'
      | None => max
      end
  end.
Definition trimToRuneBoundary (text : string) (max : nat) : string :=
  if decide (max = 0 \/ String.length text <= max) then text
  else String.substring 0 (rune_boundary text max) text.
Definition compactWorkerEvidence (text : string) (max : nat) : string :=
  let text := Join (Fields text) " " in
  if decide (max = 0 \/ String.length text <= max) then text
  else if decide (max <= 3) then trimToRuneBoundary text max
  else (trimToRuneBoundary text (max - 3) ++ "...")%string.

Definition write_artifact (a : ArtifactSpec) : string :=
  ("- " ++ first_nonempty [a_ID a; a_Name a; a_Kind a; "artifact"] ++
   (if decide (a_Kind a <> emp) then " [" ++ a_Kind a ++ "]" else "") ++
   (if a_Required a then " required" else "") ++
   (if decide (a_Description a <> emp) then ": " ++ a_Description a else "") ++
   (if decide (a_Ref a <> emp) then " (" ++ a_Ref a ++ ")" else "") ++ nl)%string.
Definition concat_all (l : list string) : string := foldr String.append emp l.
Definition writeArtifacts (l : list ArtifactSpec) : string := concat_all (write_artifact <$> l).

Section Texts.
Context `{ValueJson}.

Definition evidence_line (x : Execution) (step : Step) : string :=
  let e := x_Steps x !!! s_ID step in
  ("- " ++ first_nonempty [s_Title step; s_ID step] ++ ": " ++ se_Status e ++
   (if decide (se_Output e = VNil) then ""
    else "; output=" ++ compactWorkerEvidence (workerValueText (se_Output e)) 240) ++
   (if decide (se_Artifacts e = []) then ""
    else "; artifacts=" ++
         Join ((fun a => first_nonempty [a_ID a; a_Name a; a_Kind a; "artifact"]) <$> se_Artifacts e) ", ") ++ nl)%string.
Definition finalizerDescription (s : State) (missing : list ArtifactSpec) : string :=
  TrimSpace
    ("All declared task steps are terminal. Create the missing required task-level output artifacts from the completed step evidence. Do not rerun completed steps."
     ++ nl ++ nl ++ "Missing required outputs:" ++ nl ++ writeArtifacts missing ++
     match current_execution s with
     | None => emp
     | Some x => nl ++ "Completed step evidence:" ++ nl ++ concat_all (evidence_line x <$> t_Steps (st_Task s))
     end)%string.
End Texts.

(** [stepPrompt]. *)
Definition bullet (item : string) : string := ("- " ++ item ++ nl)%string.
Definition section (header : string) (body : string) (present : bool) : string :=
  if present then (nl ++ header ++ nl ++ body)%string else emp.
Definition nonempty {A} (l : list A) : bool := 0 <? length l.
Definition stepPrompt (t : Task) (step : Step) : string :=
  TrimSpace
    ("Task: " ++ first_nonempty [t_Title t; t_ID t] ++ nl ++ nl ++ "Objective:" ++ nl ++
     first_nonempty [s_Objective step; t_Objective t; s_Description step; t_Description t] ++ nl ++
     (if decide (s_Title step <> emp) then nl ++ "Step: " ++ s_Title step ++ nl else "") ++
     (if decide (s_Description step <> emp) then nl ++ "Step details:" ++ nl ++ s_Description step ++ nl else "") ++
     section "Scope:" (concat_all (bullet <$> (t_Scope t ++ s_Scope step)%list))
       (nonempty (s_Scope step) || nonempty (t_Scope t)) ++
     section "Inputs:" (writeArtifacts ((t_Inputs t ++ s_Inputs step)%list))
       (nonempty (s_Inputs step) || nonempty (t_Inputs t)) ++
     section "Expected outputs:" (writeArtifacts ((t_Outputs t ++ s_Outputs step)%list))
       (nonempty (s_Outputs step) || nonempty (t_Outputs t)) ++
     section "Acceptance criteria:" (concat_all (bullet <$> (t_AcceptanceCriteria t ++ s_AcceptanceCriteria step)%list))
       (nonempty (t_AcceptanceCriteria t ++ s_AcceptanceCriteria step)%list) ++
     nl ++ "Return a concise final response with the evidence, outputs, and any blockers.")%string.

(** ** The budget is respected and runes are not cut *)

Lemma rune_boundary_le text max : rune_boundary text max <= max.
Proof.
  induction max as [|max IH]; cbn [rune_boundary]; [lia|].
  destruct (String.get _ _) as [c|]; [destruct (RuneStart c)|]; lia.
Qed.

Lemma rune_boundary_start text max :
  rune_boundary text max = 0 \/ String.get (rune_boundary text max) text = None \/
  exists c, String.get (rune_boundary text max) text = Some c /\ RuneStart c = true.
Proof.
  induction max as [|max IH]; [by left|]. cbn [rune_boundary].
  destruct (String.get (S max) text) as [c|] eqn:E.
  - destruct (RuneStart c) eqn:Ec; [right; right; by exists c|done].
  - right. by left.
Qed.

Lemma rune_boundary_max text max k c :
  rune_boundary text max < k -> k <= max -> String.get k text = Some c -> RuneStart c = false.
Proof.
  induction max as [|max IH]; cbn [rune_boundary]; [lia|]. intros Hlt Hle Hk.
  destruct (decide (k = S max)) as [->|Hne].
  - rewrite Hk in Hlt. destruct (RuneStart c); [lia|done].
  - destruct (String.get (S max) text) as [c'|]; [destruct (RuneStart c')|]; [lia| |lia]. apply IH; [done|lia|done].
Qed.

Lemma get_none_length text n : String.get n text = None -> String.length text <= n.
Proof.
  revert n. induction text as [|c text IH]; intros n; simpl; [lia|]. destruct n; [done|]. intros ?%IH. lia.
Qed.

Lemma length_substring_prefix text n : n <= String.length text -> String.length (String.substring 0 n text) = n.
Proof.
  revert n. induction text as [|c text IH]; intros [|n]; simpl; try lia. intros. rewrite IH; lia.
Qed.

Lemma substring_prefix text n : exists rest, text = (String.substring 0 n text ++ rest)%string.
Proof.
  revert n. induction text as [|c text IH]; intros [|n]; simpl; try by eexists.
  destruct (IH n) as [rest Hr]. exists rest. exact (f_equal (String.String c) Hr).
Qed.

(** Trimming a text to a positive byte budget returns a prefix of it within the budget, and cuts
    only where a UTF-8 rune starts (or at the very beginning); it is the longest such prefix. *)
Theorem trim_rune_boundary text max :
  0 < max ->
  String.length (trimToRuneBoundary text max) <= max /\
  exists rest, text = (trimToRuneBoundary text max ++ rest)%string /\
    (rest = emp \/ String.length (trimToRuneBoundary text max) = 0 \/
     exists c, String.get (String.length (trimToRuneBoundary text max)) text = Some c /\ RuneStart c = true) /\
    (forall k c, String.length (trimToRuneBoundary text max) < k -> k <= max -> k < String.length text ->
       String.get k text = Some c -> RuneStart c = false).
Proof.
  intros Hmax. unfold trimToRuneBoundary. case_decide as Hd.
  - split; [lia|]. exists emp. split; [|split; [by left|lia]]. clear. induction text as [|c text IH]; [done|]. exact (f_equal (String.String c) IH).
  - pose proof (rune_boundary_le text max). rewrite length_substring_prefix by lia. split; [done|].
    destruct (substring_prefix text (rune_boundary text max)) as [rest Hr]. exists rest. split; [done|]. split.
    + destruct (rune_boundary_start text max) as [Hz|[Hn|Hc]]; [right; by left| |right; by right].
      apply get_none_length in Hn. lia.
    + intros k c Hlt Hle _ Hk. by eapply rune_boundary_max.
Qed.

Lemma trim_rune_boundary_witness :
  String.length (trimToRuneBoundary (String.String (ascii_of_nat 195) (String.String (ascii_of_nat 169) "t")) 1) <= 1 /\
  trimToRuneBoundary (String.String (ascii_of_nat 195) (String.String (ascii_of_nat 169) "t")) 1 = emp.
Proof.
  split; [|by vm_compute].
  exact (proj1 (trim_rune_boundary (String.String (ascii_of_nat 195) (String.String (ascii_of_nat 169) "t")) 1 ltac:(lia))).
Defined.
