(* ===== verification/Scheduler.v ===== *)
(** * The task scheduler (src/orchestration/taskexecutor/executor.go)

    Claiming and running tasks, as programs over the shared event store. Every write to a task
    stream goes through a projection of the stream and an append that expects exactly the projected
    length ([withExpectedRetry], [claim]), or is a diagnostic ([appendSchedulerDiagnostic]). *)

From S2P Require Import Prelude Event Operation Graph Task TaskProject Prog TaskStore SchedLocal Completion WorkerText.

(** ** Effects other than the event store *)

Record StepRunRequest := mkRunRequest {
  rq_Task : Task; rq_ExecutionID : string; rq_Step : Step; rq_Profile : string; rq_Profiles : list string;
  rq_ExternalID : string }.

Record ThreadRef := mkThreadRef { th_ID : string; th_BranchID : string }.
#[global] Instance ThreadRef_eq_dec : EqDecision ThreadRef.
Proof. solve_decision. Defined.
Definition MainBranch : string := "main".
Record taskRuntimeDestination := mkDestination { de_thread : ThreadRef; de_runID : string }.

(** [ECtxErr] is [ctx.Err()]; [ESleep] waits for a timer or the context, whichever is first; [ESched]
    is a section under the scheduler's mutex; [EGo] starts the goroutine that runs a task and then
    releases it; [EAwaitTick] waits for the ticker (true) or the end of the context; [EEmit] shows an event to the
    caller of a task operation; [ERunStep] is the worker client, during which the
    heartbeat goroutine registers the worker and renews the lease as threads of their own. *)
Inductive SchedEff : Type -> Type :=
| ENow : SchedEff Time
| ENewID (prefix : string) : SchedEff string
| ECtxErr : SchedEff Ctx
| ESleep (milliseconds : nat) : SchedEff Ctx
| ESched {X : Type} (f : Sched -> Sched * X) : SchedEff X
| ERunStep (req : StepRunRequest) : SchedEff (Result string StepRunResult)
| EReplace (v : Value) (callID : string) : SchedEff (option Replacement)
| EHasPublisher : SchedEff bool
| EPublish (destination : taskRuntimeDestination) (payload : TaskEvent) : SchedEff (option string)
| EOnError (message : string) : SchedEff unit
| EGo (taskID : string) : SchedEff unit
| EAwaitTick : SchedEff bool
| EEmit (payload : TaskEvent) : SchedEff unit.

(** A mutex section answers what its function computes on some state of the scheduler; a generated
    identifier starts with its prefix, so it is not empty. *)
Definition sched_responds (X : Type) (o : SchedEff X) : X -> Prop :=
  match o with
  | ESched f => fun x => exists s, x = (f s).2
  | ENewID _ => fun x => x <> emp
  | _ => fun _ => True
  end.

Inductive SError :=
| SErrCtx (msg : string)
| SErrStore (e : TSError)
| SErrConflict (e : TSError)
| SErrTaskIDRequired
| SErrNotFound (taskID : string)
| SErrWorker (msg : string)
| SErrTaskBlocked
| SErrOutOfFuel.

(** The texts of errors, used inside diagnostics, and [errors.Is(err, context.Canceled)]. *)
Class ErrorTexts := { ts_text : TSError -> string; s_text : SError -> string; s_canceled : SError -> bool }.

(** ** Runtime destinations *)

Definition MetadataOriginThreadID : string := "origin_thread_id".
Definition MetadataOriginBranchID : string := "origin_branch_id".
Definition MetadataOriginRunID : string := "origin_run_id".
Definition MetadataWatchThreadID : string := "watch_thread_id".
Definition MetadataWatchBranchID : string := "watch_branch_id".
Definition MetadataWatchRunID : string := "watch_run_id".

Definition meta (t : Task) (k : string) : string := TrimSpace (default emp (t_Metadata t !! k)).
Definition taskRuntimeDestinationFromMetadata (t : Task) (threadKey branchKey runKey : string)
    : option (ThreadRef * string) :=
  if decide (meta t threadKey = emp) then None
  else Some (mkThreadRef (meta t threadKey)
               (if decide (meta t branchKey = emp) then MainBranch else meta t branchKey), meta t runKey).
(** The map [seen] has a key made of the three parts separated by NUL bytes. *)
Definition destination_key (d : taskRuntimeDestination) : string :=
  let nul := String.String (ascii_of_nat 0) emp in
  (th_ID (de_thread d) ++ nul ++ th_BranchID (de_thread d) ++ nul ++ de_runID d)%string.
Definition add_destination (t : Task) (acc : list taskRuntimeDestination * gset string)
    (keys : string * string * string) : list taskRuntimeDestination * gset string :=
  let '(destinations, seen) := acc in
  let '(threadKey, branchKey, runKey) := keys in
  match taskRuntimeDestinationFromMetadata t threadKey branchKey runKey with
  | None => acc
  | Some (thread, runID) =>
      let d := mkDestination thread runID in
      if decide (destination_key d ∈ seen) then acc
      else (destinations ++ [d], {[destination_key d]} ∪ seen)
  end.
Definition taskRuntimeDestinations (t : Task) : list taskRuntimeDestination :=
  (fold_left (add_destination t)
     [(MetadataOriginThreadID, MetadataOriginBranchID, MetadataOriginRunID);
      (MetadataWatchThreadID, MetadataWatchBranchID, MetadataWatchRunID)] ([], ∅)).1.

Section Programs.
Context {P : Type} {TP : TaskPayload P} {TX : ErrorTexts} {CF : CaseFold} {VJ : ValueJson}.
Context (self : Sched).
Abbreviation Act := (Prog P SchedEff).

Fixpoint each {A} (f : A -> Act unit) (l : list A) : Act unit :=
  match l with [] => Ret tt | a :: rest => let! _ := f a in each f rest end.

Definition record_error (code message : string) : Act unit :=
  let! _ := effect (EOnError message) in
  effect (ESched (fun s => (recordError code message s, tt))).

Definition publishTaskRuntimeEvents (t : Task) (events : list TaskEvent) : Act unit :=
  match events with
  | [] => Ret tt
  | _ =>
      match taskRuntimeDestinations t with
      | [] => Ret tt
      | destinations =>
          let! configured := effect EHasPublisher in
          if negb configured then Ret tt else
          each (fun payload =>
            each (fun d =>
              let! err := effect (EPublish d payload) in
              match err with
              | Some m => record_error "task_runtime_event_publish_failed" m
              | None => Ret tt
              end) destinations) events
      end
  end.

Definition index (bg : bool) (taskID : string) : Act (Result TSError unit) :=
  let! r := TaskProject bg taskID in
  match r with
  | Err e => Ret (Err e)
  | Ok state => Index bg (summary (st_Task state))
  end.

(** [appendSchedulerDiagnostic]. *)
Definition diagnostic_event (taskID execID stepID code message : string) : TaskEvent :=
  SchedulerDiagnostic taskID execID stepID
    (mkDiagnostic code message (if decide (stepID = emp) then execID else stepID)).
Definition appendSchedulerDiagnostic (taskID execID stepID code message : string) : Act unit :=
  if decide (taskID = emp \/ blank message = true) then Ret tt else
  let payload := diagnostic_event taskID execID stepID code message in
  let! r := TaskAppend true taskID (payloads [payload]) in
  match r with
  | Err e => record_error "task_scheduler_diagnostic_append_failed" (ts_text e)
  | Ok _ =>
      let! r := index true taskID in
      let! _ := (match r with
                 | Err e => record_error "task_scheduler_diagnostic_index_failed" (ts_text e)
                 | Ok _ => Ret tt
                 end) in
      let! r := TaskProject true taskID in
      match r with
      | Err e => record_error "task_scheduler_diagnostic_project_failed" (ts_text e)
      | Ok state => publishTaskRuntimeEvents (st_Task state) [payload]
      end
  end.

(** [withExpectedRetry]: at most [maxAppendRetries] rounds; [build] decides on each projection
    whether to append and what. *)
Fixpoint retry_loop (taskID : string) (build : State -> Act (bool * list TaskEvent))
    (rounds attempt : nat) (lastConflict : option TSError) : Act (Result SError bool) :=
  match rounds with
  | O =>
      match lastConflict with
      | None => Ret (Ok false)
      | Some e =>
          let! _ := appendSchedulerDiagnostic taskID emp emp "task_append_conflict"
                      ("taskexecutor: append conflict after " ++ pretty maxAppendRetries ++ " retries: " ++ ts_text e) in
          Ret (Err (SErrConflict e))
      end
  | S rounds' =>
      let! c := effect ECtxErr in
      match c with
      | Some m => Ret (Err (SErrCtx m))
      | None =>
          let! r := ProjectWithSequence taskID in
          match r with
          | Err e => Ret (Err (SErrStore e))
          | Ok projected =>
              let! (ok, events) := build (sq_State projected) in
              if negb ok || (length events =? 0) then Ret (Ok false) else
              let! r := AppendExpected taskID (sq_Sequence projected) (payloads events) in
              match r with
              | Err e =>
                  if ts_conflict e then
                    let! c := effect (ESleep (attempt + 1)) in
                    match c with
                    | Some m => Ret (Err (SErrCtx m))
                    | None => retry_loop taskID build rounds' (attempt + 1) (Some e)
                    end
                  else Ret (Err (SErrStore e))
              | Ok _ =>
                  let! r := index false taskID in
                  match r with
                  | Err e => Ret (Err (SErrStore e))
                  | Ok _ =>
                      let! _ := publishTaskRuntimeEvents (st_Task (sq_State projected)) events in
                      Ret (Ok true)
                  end
              end
          end
      end
  end.
Definition withExpectedRetry (taskID : string) (build : State -> Act (bool * list TaskEvent)) : Act (Result SError bool) :=
  retry_loop taskID build maxAppendRetries 0 None.

(** [if err == nil && !appended { append a diagnostic }; return err]. *)
Definition or_stale (r : Result SError bool) (taskID execID stepID code message : string) : Act (Result SError unit) :=
  match r with
  | Ok false => let! _ := appendSchedulerDiagnostic taskID execID stepID code message in Ret (Ok tt)
  | Ok true => Ret (Ok tt)
  | Err e => Ret (Err e)
  end.
Definition drop_flag (r : Result SError bool) : Result SError unit :=
  match r with Ok _ => Ok tt | Err e => Err e end.

(** The guard every builder starts with: the task and its execution [execID] are running. *)
Definition running_execution (s : State) (execID : string) : option Execution :=
  match st_Executions s !! execID with
  | Some x =>
      if decide (t_Status (st_Task s) = StatusRunning /\ st_Current s = execID /\ x_Status x = StatusRunning)
      then Some x else None
  | None => None
  end.

Definition build_dispatch (execID stepID : string) (evt : TaskEvent) (s : State) : Act (bool * list TaskEvent) :=
  Ret (match running_execution s execID with
       | Some x => if decide (step_status x stepID = StepStatusWaiting) then (true, [evt]) else (false, [])
       | None => (false, [])
       end).
Definition appendStepDispatch (taskID execID stepID : string) (evt : TaskEvent) : Act (Result SError bool) :=
  withExpectedRetry taskID (build_dispatch execID stepID evt).

Definition build_step_terminal (execID stepID : string) (events : list TaskEvent) (s : State)
    : Act (bool * list TaskEvent) :=
  Ret (match running_execution s execID with
       | Some x => if decide (step_status x stepID = StepStatusRunning) then (true, events) else (false, [])
       | None => (false, [])
       end).
Definition appendStepTerminal (taskID execID stepID : string) (events : list TaskEvent) : Act (Result SError unit) :=
  let! r := withExpectedRetry taskID (build_step_terminal execID stepID events) in
  or_stale r taskID execID stepID "task_stale_step_result_ignored"
    "worker step result ignored because the task step is no longer running".

Definition build_while_running (execID : string) (events : list TaskEvent) (s : State)
    : Act (bool * list TaskEvent) :=
  Ret (match running_execution s execID with Some _ => (true, events) | None => (false, []) end).
Definition appendExecutionTerminal (taskID execID : string) (events : list TaskEvent) : Act (Result SError unit) :=
  let! r := withExpectedRetry taskID (build_while_running execID events) in
  or_stale r taskID execID emp "task_stale_execution_result_ignored"
    "worker execution result ignored because the task execution is no longer running".

(** [cancelWaitingDependents]: the events for the steps that the pure function newly cancelled. *)
Definition cancel_events (before after : State) (reason : string) : list TaskEvent :=
  let prev id := step_status (default zero_Execution (current_execution before)) id in
  let next := default zero_Execution (current_execution after) in
  omap (fun step =>
    if decide (prev (s_ID step) <> step_status next (s_ID step) /\ step_status next (s_ID step) = StepStatusCancelled)
    then
      let message := match se_Error (x_Steps next !!! s_ID step) with
                     | Some e => if decide (err_Message e <> emp) then err_Message e else reason
                     | None => reason
                     end in
      Some (StepCancelled (t_ID (st_Task after)) (st_Current after) (s_ID step) message)
    else None) (t_Steps (st_Task after)).
Definition cancelWaitingDependents (state : State) (reason : string) : Act (Result SError unit) :=
  let! now := effect ENow in
  match CancelWaitingDependents state reason now with
  | None => Ret (Err SErrOutOfFuel)
  | Some after =>
      match cancel_events state after reason with
      | [] => Ret (Ok tt)
      | events =>
          let! r := withExpectedRetry (t_ID (st_Task after)) (fun current =>
            Ret (if decide (t_Status (st_Task current) = StatusRunning /\ st_Current current = st_Current after /\
                            x_Status (default zero_Execution (current_execution current)) = StatusRunning)
                 then (true, events) else (false, []))) in
          Ret (drop_flag r)
      end
  end.

Definition blocked_events (taskID execID reason : string) : list TaskEvent :=
  [ExecutionInterrupted taskID execID reason; StatusChanged taskID StatusRunning StatusBlocked reason].
Definition build_block_step (taskID execID stepID reason : string) (s : State) : Act (bool * list TaskEvent) :=
  Ret (match running_execution s execID with
       | Some x =>
           if decide (step_status x stepID = StepStatusWaiting)
           then (true, StepStatusChanged taskID execID stepID emp StepStatusBlocked reason VNil ::
                       blocked_events taskID execID reason)
           else (false, [])
       | None => (false, [])
       end).
Definition blockStep (taskID execID stepID reason : string) : Act (Result SError unit) :=
  let! r := withExpectedRetry taskID (build_block_step taskID execID stepID reason) in Ret (drop_flag r).
Definition blockTask (taskID execID reason : string) : Act (Result SError unit) :=
  let! r := withExpectedRetry taskID (build_while_running execID (blocked_events taskID execID reason)) in
  Ret (drop_flag r).
Definition blockCompletion (taskID execID : string) (validation : TaskValidationResult) : Act (Result SError unit) :=
  blockTask taskID execID (completionBlockedReason validation).

(** ** Registration and leases *)

Definition registerWorker : Act (Result TSError unit) :=
  let! now := effect ENow in
  let! status := effect (ESched (fun s => (s, localWorkerStatus now s))) in
  RegisterWorker status.

Definition build_renew (taskID execID : string) (s : State) : Act (bool * list TaskEvent) :=
  match running_execution s execID with
  | None => Ret (false, [])
  | Some x =>
      if decide (x_WorkerID x <> emp /\ x_WorkerID x <> sd_workerID self) then Ret (false, [])
      else if decide (x_LeaseID x = emp) then Ret (false, [])
      else
        let! now := effect ENow in
        Ret (true, [ExecutionLeaseRenewed taskID execID (sd_workerID self) (x_LeaseID x)
                      (time_Add now (sd_leaseDuration self))])
  end.
Definition renewExecutionLease (taskID execID : string) : Act (Result SError unit) :=
  let! r := withExpectedRetry taskID (build_renew taskID execID) in Ret (drop_flag r).

(** [retryStepEvents]; Go visits the steps in an unspecified order, here that of [map_to_list]. *)
Definition retryStepEvents (taskID execID : string) (x : Execution) : list TaskEvent :=
  omap (fun p : string * StepExecution =>
    if decide (se_Status p.2 = StepStatusRunning \/ se_Status p.2 = StepStatusBlocked)
    then Some (StepStatusChanged taskID execID p.1 (se_Status p.2) StepStatusWaiting
                 "execution lease expired; step will be retried" VNil)
    else None) (map_to_list (x_Steps x)).
Definition build_recover (taskID : string) (workers : list WorkerStatus) (s : State) : Act (bool * list TaskEvent) :=
  match running_execution s (st_Current s) with
  | None => Ret (false, [])
  | Some x =>
      if decide (st_Current s = emp) then Ret (false, []) else
      let! now := effect ENow in
      match executionRecoveryReason x workers now with
      | None => Ret (false, [])
      | Some (reason, code) =>
          if (executionAttempt x <? sd_maxAttempts self)%Z then
            Ret (true, retryStepEvents taskID (x_ID x) x ++
              [ExecutionInterrupted taskID (x_ID x) reason;
               StatusChanged taskID StatusRunning StatusReady (reason ++ "; retry scheduled")%string;
               SchedulerDiagnostic taskID (x_ID x) emp
                 (mkDiagnostic (code ++ "_requeued")%string (reason ++ "; retry scheduled")%string (x_ID x))])
          else
            Ret (true,
              [ExecutionInterrupted taskID (x_ID x) reason;
               StatusChanged taskID StatusRunning StatusInterrupted reason;
               SchedulerDiagnostic taskID (x_ID x) emp (mkDiagnostic code reason (x_ID x))])
      end
  end.
Definition reconcileRecoverableExecution (taskID : string) : Act (Result SError unit) :=
  let! running := effect (ESched (fun s => (s, isRunning s taskID))) in
  if (running : bool) then Ret (Ok tt) else
  let! r := ListWorkers false in
  match r with
  | Err e => Ret (Err (SErrStore e))
  | Ok workers => let! r := withExpectedRetry taskID (build_recover taskID workers) in Ret (drop_flag r)
  end.

(** ** Claiming *)

Definition claim_append (taskID : string) (projected : SequencedState) (events : list TaskEvent)
    : Act (Result SError bool) :=
  let! r := AppendExpected taskID (sq_Sequence projected) (payloads events) in
  match r with
  | Err e => Ret (if ts_conflict e then Ok false else Err (SErrStore e))
  | Ok _ =>
      let! r := index false taskID in
      match r with
      | Err e => Ret (Err (SErrStore e))
      | Ok _ => let! _ := publishTaskRuntimeEvents (st_Task (sq_State projected)) events in Ret (Ok true)
      end
  end.
(** [applyLease], and the execution a claim starts: the interrupted one again, or a new one. *)
Definition applyLease (x : Execution) (now : Time) (lease : string) : Execution :=
  x <| x_WorkerID := sd_workerID self |> <| x_LeaseID := lease |>
    <| x_LeaseExpiresAt := time_Add now (sd_leaseDuration self) |>.
Definition resumed_execution (x : Execution) (now : Time) (lease : string) : Execution :=
  let x := x <| x_Status := StatusRunning |> <| x_Error := None |> <| x_CompletedAt := 0%Z |> in
  applyLease (x <| x_Attempt := nextAttempt (x_Attempt x) |>) now lease.
Definition new_execution (t : Task) (execID : string) (now : Time) (lease : string) : Execution :=
  zero_Execution <| x_ID := execID |> <| x_TaskID := t_ID t |> <| x_Status := StatusRunning |>
    <| x_WorkflowRef := t_WorkflowRef t |> <| x_Workflow := t_Workflow t |> <| x_StartedAt := now |>
    <| x_Attempt := 1%Z |> <| x_WorkerID := sd_workerID self |> <| x_LeaseID := lease |>
    <| x_LeaseExpiresAt := time_Add now (sd_leaseDuration self) |>.

Definition claim (taskID : string) : Act (Result SError bool) :=
  let! r := ProjectWithSequence taskID in
  match r with
  | Err e => Ret (Err (SErrStore e))
  | Ok projected =>
      let state := sq_State projected in
      if decide (t_Status (st_Task state) <> StatusReady) then Ret (Ok false)
      else if resumableExecution state then
        let x := default zero_Execution (current_execution state) in
        let! now := effect ENow in
        let! lease := effect (ENewID "lease_") in
        claim_append taskID projected [ExecutionStarted taskID (x_ID x) (resumed_execution x now lease)]
      else if executionActive state then Ret (Ok false)
      else
        let! execID := effect (ENewID "exec_") in
        let! now := effect ENow in
        let! lease := effect (ENewID "lease_") in
        claim_append taskID projected
          [ExecutionStarted taskID execID (new_execution (st_Task state) execID now lease)]
  end.

(** ** Running *)

(** [normalizeWorkerResult]: large values are replaced one by one. *)
Definition replace_value (v : Value) (callID : string) : Act (option Replacement) :=
  if decide (v = VNil) then Ret None else effect (EReplace v callID).
Fixpoint replace_artifacts (execID stepID : string) (i : nat) (l : list ArtifactSpec) : Act (list (option Replacement)) :=
  match l with
  | [] => Ret []
  | a :: rest =>
      let! r := replace_value (a_Value a) (workerReplacementCallID execID stepID ("artifact-" ++ pretty i)) in
      let! rs := replace_artifacts execID stepID (S i) rest in
      Ret (r :: rs)
  end.
Definition normalize_result (result : StepRunResult) (outputs : list ArtifactSpec) (execID stepID : string)
    : Act (StepRunResult * list ArtifactSpec) :=
  let! ro := replace_value (sr_Output result) (workerReplacementCallID execID stepID "output") in
  let! ras := replace_artifacts execID stepID 0 (bindDeclaredOutputs result outputs) in
  Ret (normalizeWorkerResult result outputs ro (fun i => default None (ras !! i))).

Definition resolve (t : Task) (step : Step) : Act (list string * bool) :=
  effect (ESched (resolveProfiles t step)).
Definition worker_failed (taskID execID code msg : string) : list TaskEvent :=
  [ExecutionFailed taskID execID (task_error code msg)].

Definition whole_step (t : Task) : Step :=
  mkStep "task" (first_nonempty [t_Title t; t_Objective t; t_ID t]) (t_Description t) (t_Objective t)
    ([] ++ t_AcceptanceCriteria t) (cloneArtifacts (t_Inputs t)) (cloneArtifacts (t_Outputs t)) [] (t_Assignee t)
    emp ([] ++ t_Scope t) ∅.
Definition complete_whole (taskID execID : string) (output : Value) : Act (Result SError unit) :=
  let! r := TaskProject false taskID in
  match r with
  | Err e => Ret (Err (SErrStore e))
  | Ok projected =>
      let validation := validateCompletion projected in
      if negb (v_Completable validation) then blockCompletion taskID execID validation
      else appendExecutionTerminal taskID execID [ExecutionCompleted taskID execID output]
  end.
Definition runWholeTask (state : State) : Act (Result SError unit) :=
  let t := st_Task state in
  let taskID := t_ID t in
  let execID := st_Current state in
  let step := whole_step t in
  let! (profiles, blocked) := resolve t step in
  if (blocked : bool) then blockTask taskID execID "task is assigned to a human" else
  let! result := effect (ERunStep (mkRunRequest t execID step (firstProfile profiles) profiles (execID ++ ":task"))) in
  match result with
  | Err m =>
      let! r := appendExecutionTerminal taskID execID (worker_failed taskID execID "task_worker_failed" m) in
      match r with
      | Err e => Ret (Err e)
      | Ok _ => Ret (Err (SErrWorker m))
      end
  | Ok result =>
      let! (result, artifacts) := normalize_result result (s_Outputs step) execID emp in
      match artifactEvents taskID execID emp artifacts with
      | [] => complete_whole taskID execID (sr_Output result)
      | events =>
          let! r := withExpectedRetry taskID (build_while_running execID events) in
          match r with
          | Err e => Ret (Err e)
          | Ok false =>
              let! _ := appendSchedulerDiagnostic taskID execID emp "task_stale_artifacts_ignored"
                          "worker artifacts ignored because the task execution is no longer running" in
              Ret (Ok tt)
          | Ok true => complete_whole taskID execID (sr_Output result)
          end
      end
  end.

Definition dispatch_event (t : Task) (execID : string) (step : Step) (profiles : list string) : TaskEvent :=
  StepDispatched (t_ID t) execID (s_ID step) (first_nonempty [s_Title step; s_Objective step; s_ID step])
    (firstRole [s_Assignee step; t_Assignee t]) (firstProfile profiles) (execID ++ ":" ++ s_ID step).
Definition runStep (t : Task) (execID : string) (step : Step) : Act (Result SError unit) :=
  let taskID := t_ID t in
  let! (profiles, blocked) := resolve t step in
  if (blocked : bool) then
    let! r := blockStep taskID execID (s_ID step) "step is assigned to a human" in
    match r with
    | Err e => Ret (Err e)
    | Ok _ => Ret (Err SErrTaskBlocked)
    end
  else
    let! r := appendStepDispatch taskID execID (s_ID step) (dispatch_event t execID step profiles) in
    match r with
    | Err e => Ret (Err e)
    | Ok false => Ret (Ok tt)
    | Ok true =>
        let! result := effect (ERunStep (mkRunRequest t execID step (firstProfile profiles) profiles
                                           (execID ++ ":" ++ s_ID step))) in
        match result with
        | Err m =>
            appendStepTerminal taskID execID (s_ID step)
              [StepFailed taskID execID (s_ID step) (task_error "task_worker_failed" m)]
        | Ok result =>
            let! (result, artifacts) := normalize_result result (s_Outputs step) execID (s_ID step) in
            appendStepTerminal taskID execID (s_ID step)
              (artifactEvents taskID execID (s_ID step) artifacts ++
               [StepCompleted taskID execID (s_ID step) (sr_Output result)])
        end
    end.

Definition finalizer_step (s : State) (missing : list ArtifactSpec) : Step :=
  let t := st_Task s in
  mkStep finalizerStepID "Finalize task outputs" (finalizerDescription s missing)
    "Produce missing required task-level outputs from completed step evidence." ([] ++ t_AcceptanceCriteria t)
    (finalizerInputs s) (cloneArtifacts missing) [] (t_Assignee t) emp ([] ++ t_Scope t) ∅.
Definition build_finalize (execID : string) (events : list TaskEvent) (s : State) : Act (bool * list TaskEvent) :=
  Ret (match running_execution s execID with
       | Some _ => if AllStepsTerminal s then (true, events) else (false, [])
       | None => (false, [])
       end).
Definition finalizeMissingOutputs (state : State) (missing : list ArtifactSpec) : Act (Result SError bool) :=
  let t := st_Task state in
  let taskID := t_ID t in
  let execID := st_Current state in
  let step := finalizer_step state missing in
  let! (profiles, blocked) := resolve t step in
  if (blocked : bool) then Ret (Ok false) else
  let! _ := appendSchedulerDiagnostic taskID execID emp "task_finalizing_outputs"
              ("all steps are terminal; producing " ++ pretty (length missing) ++ " missing required task output(s)") in
  let! result := effect (ERunStep (mkRunRequest (t <| t_Outputs := [] |>) execID step (firstProfile profiles) profiles
                                     (execID ++ ":" ++ finalizerStepID))) in
  match result with
  | Err m =>
      let! r := appendExecutionTerminal taskID execID (worker_failed taskID execID "task_finalizer_failed" m) in
      match r with
      | Err e => Ret (Err e)
      | Ok _ => Ret (Ok false)
      end
  | Ok result =>
      let! (_, artifacts) := normalize_result result missing execID emp in
      match artifactEvents taskID execID emp artifacts with
      | [] => Ret (Ok false)
      | events =>
          let! r := withExpectedRetry taskID (build_finalize execID events) in
          let! _ := (match r with
                     | Ok false => appendSchedulerDiagnostic taskID execID emp "task_stale_finalizer_result_ignored"
                         "finalizer output ignored because the task execution is no longer running"
                     | _ => Ret tt
                     end) in
          Ret r
      end
  end.

(** The loop over the ready steps: a blocked step ends the run without error. *)
Fixpoint run_ready (t : Task) (execID : string) (ready : list Step) : Act (option (Result SError unit)) :=
  match ready with
  | [] => Ret None
  | step :: rest =>
      let! r := runStep t execID step in
      match r with
      | Err SErrTaskBlocked => Ret (Some (Ok tt))
      | Err e => Ret (Some (Err e))
      | Ok _ => run_ready t execID rest
      end
  end.

(** [runStepDAG]; [fuel] bounds the rounds of its loop. *)
Fixpoint runStepDAG (fuel : nat) (taskID : string) : Act (Result SError unit) :=
  match fuel with
  | O => Ret (Err SErrOutOfFuel)
  | S fuel' =>
      let! r := TaskProject false taskID in
      match r with
      | Err e => Ret (Err (SErrStore e))
      | Ok state =>
          let execID := st_Current state in
          if 0 <? length (FailedStepIDs state) then
            let! r := cancelWaitingDependents state "dependency failed" in
            match r with
            | Err e => Ret (Err e)
            | Ok _ => appendExecutionTerminal taskID execID
                        (worker_failed taskID execID "task_step_failed" "one or more task steps failed")
            end
          else if AllStepsTerminal state then
            let validation := validateCompletion state in
            if negb (v_Completable validation) then
              match missingRequiredOutputs state validation with
              | [] => blockCompletion taskID execID validation
              | missing =>
                  let! r := finalizeMissingOutputs state missing in
                  match r with
                  | Err e => Ret (Err e)
                  | Ok true => runStepDAG fuel' taskID
                  | Ok false => blockCompletion taskID execID validation
                  end
              end
            else appendExecutionTerminal taskID execID [ExecutionCompleted taskID execID VNil]
          else
            match ReadySteps state with
            | [] => appendExecutionTerminal taskID execID
                      (worker_failed taskID execID "task_stalled" "no runnable task steps remain")
            | ready =>
                let! r := run_ready (st_Task state) execID ready in
                match r with
                | Some r => Ret r
                | None => runStepDAG fuel' taskID
                end
            end
      end
  end.

(** [RunTask]. *)
Definition RunTask (fuel : nat) (taskID : string) : Act (Result SError unit) :=
  let! r := registerWorker in
  match r with
  | Err e => Ret (Err (SErrStore e))
  | Ok _ =>
      let! r := claim taskID in
      match r with
      | Err e => Ret (Err e)
      | Ok false => Ret (Ok tt)
      | Ok true =>
          let! r := TaskProject false taskID in
          match r with
          | Err e => Ret (Err (SErrStore e))
          | Ok state =>
              if length (t_Steps (st_Task state)) =? 0 then runWholeTask state
              else runStepDAG fuel (t_ID (st_Task state))
          end
      end
  end.
End Programs.
