(* ===== verification/Service.v ===== *)
(** * The entry points of a scheduler (src/orchestration/taskexecutor/executor.go)

    What the application calls: the reconciliation loop ([Start], [Tick]), the submission of one task
    ([SubmitTask], [NotifyTaskReady]) and the status report. *)

From stdpp Require Import sorting.
From S2P Require Import Prelude Event Operation Task TaskProject Prog TaskStore SchedLocal Completion WorkerText Scheduler.

Record SubmitResult := mkSubmit {
  sub_TaskID : string; sub_Status : Status; sub_Started : bool; sub_Running : bool; sub_Summary : string }.

Record ExecutionLease := mkLease {
  le_TaskID : string; le_ExecutionID : string; le_Status : Status; le_WorkerID : string; le_LeaseID : string;
  le_LeaseExpiresAt : Time; le_Expired : bool }.

(** [ReconcileInterval] is the duration's text in Go. *)
Record SchedulerStatusResult := mkStatus {
  ss_Enabled : bool; ss_Active : bool; ss_Running : list string; ss_RunningByRole : gmap Role (list string);
  ss_Queued : list string; ss_Leases : list ExecutionLease; ss_Workers : list WorkerStatus;
  ss_Capacity : Z; ss_MaxParallel : Z; ss_CapacityByRole : gmap Role Z; ss_MaxParallelByRole : gmap Role Z;
  ss_ProfilesByRole : gmap Role (list string); ss_ReconcileInterval : Z; ss_Diagnostics : list Diagnostic }.

(** ** Sections under the mutex *)

Definition setActive (active : bool) (s : Sched) : Sched := s <| sd_active := active |>.
Definition clearActive (s : Sched) : Sched := s <| sd_active := false |>.

Definition sort_ids (ids : list string) : list string := merge_sort String.le ids.
(** The part of [Status] that runs under the mutex. *)
Definition runningByRole (s : Sched) : gmap Role (list string) :=
  fold_left (fun m (p : string * runningTask) => <[rt_Role p.2 := (m !!! rt_Role p.2) ++ [p.1]]> m)
    (map_to_list (sd_running s)) ∅.
Definition local_status (s : Sched) : SchedulerStatusResult :=
  mkStatus (sd_enabled s) (sd_active s) (sort_ids (map_to_list (sd_running s)).*1) (sort_ids <$> runningByRole s)
    [] [] [] (capacity s) (sd_maxParallel s)
    (map_imap (fun role pool => Some (wp_MaxParallel pool - runningForRole s role)%Z) (sd_workerPools s))
    (wp_MaxParallel <$> sd_workerPools s) (wp_Profiles <$> sd_workerPools s) (sd_reconcileInterval s) (sd_diagnostics s).

(** [sort.Slice(leases, ...)]: by task and then by execution. *)
Definition lease_le (a b : ExecutionLease) : Prop :=
  if decide (le_TaskID a = le_TaskID b) then String.le (le_ExecutionID a) (le_ExecutionID b)
  else String.le (le_TaskID a) (le_TaskID b).
#[global] Instance lease_le_dec a b : Decision (lease_le a b).
Proof. unfold lease_le. case_decide; unfold String.le; apply _. Defined.

Section Service.
Context {P : Type} {TP : TaskPayload P} {TX : ErrorTexts} {CF : CaseFold} {VJ : ValueJson}.
Context (self : Sched).
Abbreviation Act := (Prog P SchedEff).

Definition in_mutex {X} (f : Sched -> X) : Act X := effect (ESched (fun s => (s, f s))).
Definition update (f : Sched -> Sched) : Act unit := effect (ESched (fun s => (f s, tt))).
(** [if err != nil && !errors.Is(err, context.Canceled) { s.recordError(code, err) }]. *)
Definition record_unless_canceled (code : string) (r : Result SError unit) : Act unit :=
  match r with
  | Ok _ => Ret tt
  | Err e => if s_canceled e then Ret tt else record_error code (s_text e)
  end.
Definition store_error {A} (r : Result TSError A) : Result SError A :=
  match r with Ok a => Ok a | Err e => Err (SErrStore e) end.

(** ** The reconciliation loop *)

(** The goroutine of [Tick] and [submitTask]; [EGo] starts it. *)
Definition run_and_release (fuel : nat) (taskID : string) : Act unit :=
  let! r := RunTask self fuel taskID in
  let! _ := record_unless_canceled "task_run_failed" r in
  update (release taskID).

Fixpoint tick_loop (summaries : list TaskSummary) : Act (Result SError unit) :=
  match summaries with
  | [] => Ret (Ok tt)
  | summary :: rest =>
      let! c := effect ECtxErr in
      match c with
      | Some m => Ret (Err (SErrCtx m))
      | None =>
          let! free := in_mutex capacity in
          if (free <=? 0)%Z then
            let! c := effect ECtxErr in
            Ret (match c with Some m => Err (SErrCtx m) | None => Ok tt end)
          else if decide (sum_ID summary = emp \/ sum_Status summary <> StatusReady) then
            if decide (sum_ID summary <> emp /\ sum_Status summary = StatusRunning) then
              let! r := reconcileRecoverableExecution self (sum_ID summary) in
              let! _ := (match r with
                         | Err e => record_error "task_lease_reconcile_failed" (s_text e)
                         | Ok _ => Ret tt
                         end) in
              tick_loop rest
            else tick_loop rest
          else
            let! ok := effect (ESched (reserve (sum_ID summary) (firstRole [sum_Assignee summary; RoleDeveloper]))) in
            if negb ok then tick_loop rest
            else let! _ := effect (EGo (sum_ID summary)) in tick_loop rest
      end
  end.
Definition Tick : Act (Result SError unit) :=
  let! enabled := in_mutex isEnabled in
  if negb enabled then Ret (Ok tt) else
  let! r := TaskList false in
  match r with
  | Err e => Ret (Err (SErrStore e))
  | Ok summaries => tick_loop summaries
  end.

(** [Start]; [rounds] bounds the turns of its loop, which only the context ends. *)
Fixpoint start_loop (rounds : nat) : Act unit :=
  match rounds with
  | O => Ret tt
  | S rounds' =>
      let! r := registerWorker in
      let! _ := record_unless_canceled "task_worker_register_failed" (store_error r) in
      let! r := Tick in
      let! _ := record_unless_canceled "task_scheduler_tick_failed" r in
      let! again := effect EAwaitTick in
      if negb again then Ret tt else start_loop rounds'
  end.
Definition Start (rounds : nat) : Act unit :=
  let! _ := update (setActive true) in
  let! _ := start_loop rounds in
  update clearActive.

(** ** Submitting a task *)

Definition submitTask (taskID : string) : Act (Result SError SubmitResult) :=
  if blank taskID then Ret (Err SErrTaskIDRequired) else
  let! r := TaskProject false taskID in
  match r with
  | Err e => Ret (Err (SErrStore e))
  | Ok state =>
      let status := t_Status (st_Task state) in
      if decide (t_ID (st_Task state) = emp) then Ret (Err (SErrNotFound taskID))
      else if decide (status <> StatusReady) then
        if decide (status = StatusRunning) then
          Ret (Ok (mkSubmit taskID status false true ("Task " ++ taskID ++ " is already running in background.")))
        else Ret (Ok (mkSubmit taskID status false false ("Task " ++ taskID ++ " is " ++ status ++ ", not ready.")))
      else
        let! ok := effect (ESched (reserve taskID (firstRole [t_Assignee (st_Task state); RoleDeveloper]))) in
        if negb ok then
          let! running := in_mutex (fun s => isRunning s taskID) in
          Ret (Ok (mkSubmit taskID status false running
                     (if (running : bool) then "Task " ++ taskID ++ " is already running."
                      else "Task " ++ taskID ++ " is ready but waiting for scheduler capacity.")))
        else
          let! r := registerWorker in
          match r with
          | Err e => let! _ := update (release taskID) in Ret (Err (SErrStore e))
          | Ok _ =>
              let! _ := effect (EGo taskID) in
              Ret (Ok (mkSubmit taskID status true true ("Task " ++ taskID ++ " scheduled and running in background.")))
          end
  end.
Definition SubmitTask (taskID : string) : Act (Result SError SubmitResult) := submitTask taskID.

Definition NotifyTaskReady (taskID : string) : Act (Result SError unit) :=
  let! enabled := in_mutex isEnabled in
  if negb enabled then
    let! _ := appendSchedulerDiagnostic taskID emp emp "task_auto_schedule_disabled"
      "ready task was not auto-scheduled because automatic task scheduling is disabled; use task_run to start it manually" in
    Ret (Ok tt)
  else
    let! r := submitTask taskID in
    match r with
    | Err e => Ret (Err e)
    | Ok submitted =>
        let! _ := (if negb (sub_Started submitted) && negb (sub_Running submitted)
                      && bool_decide (sub_Status submitted = StatusReady)
                   then appendSchedulerDiagnostic taskID emp emp "task_auto_schedule_deferred"
                          (if blank (sub_Summary submitted) then "ready task was not auto-scheduled"
                           else sub_Summary submitted)
                   else Ret tt) in
        Ret (Ok tt)
    end.

(** ** Status *)

Definition lease_of (now : Time) (state : State) : option ExecutionLease :=
  let x := default zero_Execution (current_execution state) in
  if decide (x_ID x = emp \/ x_LeaseID x = emp) then None
  else Some (mkLease (t_ID (st_Task state)) (x_ID x) (x_Status x) (x_WorkerID x) (x_LeaseID x) (x_LeaseExpiresAt x)
               (negb (time_IsZero (x_LeaseExpiresAt x)) && negb (time_After (x_LeaseExpiresAt x) now))).
Fixpoint durable_loop (now : Time) (summaries : list TaskSummary) (queued : list string) (leases : list ExecutionLease)
    : Act (Result SError (list string * list ExecutionLease)) :=
  match summaries with
  | [] => Ret (Ok (queued, leases))
  | summary :: rest =>
      if decide (sum_ID summary = emp) then durable_loop now rest queued leases
      else if decide (sum_Status summary = StatusReady) then durable_loop now rest (queued ++ [sum_ID summary]) leases
      else if decide (sum_Status summary <> StatusRunning) then durable_loop now rest queued leases
      else
        let! r := TaskProject true (sum_ID summary) in
        match r with
        | Err e => Ret (Err (SErrStore e))
        | Ok state =>
            match lease_of now state with
            | None => durable_loop now rest queued leases
            | Some l => durable_loop now rest queued (leases ++ [l])
            end
        end
  end.
Definition refresh_worker (now : Time) (w : WorkerStatus) : WorkerStatus :=
  mkWorker (w_WorkerID w) (w_RegisteredAt w) (w_LeaseExpiresAt w)
    (time_IsZero (w_LeaseExpiresAt w) || time_After (w_LeaseExpiresAt w) now) (w_Capacity w) (w_MaxParallel w)
    (w_CapacityByRole w) (w_MaxParallelByRole w) (w_ProfilesByRole w).
Definition durableSchedulerState (now : Time)
    : Act (Result SError (list string * list ExecutionLease * list WorkerStatus)) :=
  let! r := TaskList true in
  match r with
  | Err e => Ret (Err (SErrStore e))
  | Ok summaries =>
      let! r := durable_loop now summaries [] [] in
      match r with
      | Err e => Ret (Err e)
      | Ok (queued, leases) =>
          let! r := ListWorkers true in
          Ret (match r with
               | Err e => Err (SErrStore e)
               | Ok workers =>
                   Ok (sort_ids queued, merge_sort lease_le leases, merge_sort worker_le (refresh_worker now <$> workers))
               end)
      end
  end.

Definition SchedStatus : Act SchedulerStatusResult :=
  let! result := in_mutex local_status in
  let! now := effect ENow in
  let! r := durableSchedulerState now in
  match r with
  | Err e =>
      Ret (mkStatus (ss_Enabled result) (ss_Active result) (ss_Running result) (ss_RunningByRole result) [] [] []
             (ss_Capacity result) (ss_MaxParallel result) (ss_CapacityByRole result) (ss_MaxParallelByRole result)
             (ss_ProfilesByRole result) (ss_ReconcileInterval result)
             (ss_Diagnostics result ++ [mkDiagnostic "task_scheduler_status_state_failed" (s_text e) emp]))
  | Ok (queued, leases, workers) =>
      let! now := effect ENow in
      let! local := in_mutex (localWorkerStatus now) in
      Ret (mkStatus (ss_Enabled result) (ss_Active result) (ss_Running result) (ss_RunningByRole result)
             queued leases (mergeWorkerStatuses workers local)
             (ss_Capacity result) (ss_MaxParallel result) (ss_CapacityByRole result) (ss_MaxParallelByRole result)
             (ss_ProfilesByRole result) (ss_ReconcileInterval result) (ss_Diagnostics result))
  end.
Definition SchedSetEnabled (enabled : bool) : Act SchedulerStatusResult :=
  let! _ := update (SetEnabled enabled) in SchedStatus.
End Service.
