(* ===== verification/TaskOps.v ===== *)
(** * Task operations (src/contrib/task/plugin.go)

    What users and agents do to tasks: create them, request reviews, modify them, run them. Each
    operation is a program over the shared event store, like those of [Scheduler]; a modification is
    tried on the projected state first and its events are appended with the expectation that the
    stream has not moved. *)

From stdpp Require Import sorting.
From S2P Require Import Prelude Event Operation Workflow Task TaskProject Prog TaskStore SchedLocal Completion Scheduler Service.

(** ** Requests and results (core/task/task.go) *)

Record TaskModification := mkModification {
  m_Op : string; m_Title : string; m_Description : string; m_Objective : string;
  m_AcceptanceCriteria : list string; m_Inputs : list ArtifactSpec; m_Outputs : list ArtifactSpec;
  m_Scope : list string; m_Constraints : list string; m_Labels : list string; m_Priority : Priority;
  m_Assignee : Role; m_Owner : Role; m_WorkspaceID : string; m_ProjectID : string; m_WorkflowRef : string;
  m_Metadata : gmap string string; m_Criterion : string; m_Step : Step; m_StepID : string; m_Status : Status;
  m_StepStatus : StepStatus; m_ExecutionID : string; m_Artifact : ArtifactSpec; m_Artifacts : list ArtifactSpec;
  m_ArtifactID : string; m_Output : ArtifactSpec; m_StepOutput : Value; m_ForceOverrides : list string;
  m_Reason : string }.
#[global] Instance rebuild_TaskModification : Rebuild TaskModification := fun m =>
  mkModification m.(m_Op) m.(m_Title) m.(m_Description) m.(m_Objective) m.(m_AcceptanceCriteria) m.(m_Inputs)
    m.(m_Outputs) m.(m_Scope) m.(m_Constraints) m.(m_Labels) m.(m_Priority) m.(m_Assignee) m.(m_Owner)
    m.(m_WorkspaceID) m.(m_ProjectID) m.(m_WorkflowRef) m.(m_Metadata) m.(m_Criterion) m.(m_Step) m.(m_StepID)
    m.(m_Status) m.(m_StepStatus) m.(m_ExecutionID) m.(m_Artifact) m.(m_Artifacts) m.(m_ArtifactID) m.(m_Output)
    m.(m_StepOutput) m.(m_ForceOverrides) m.(m_Reason).
Definition zero_Step : Step := mkStep emp emp emp emp [] [] [] [] emp emp [] ∅.
#[global] Instance rebuild_Step : Rebuild Step := fun s =>
  mkStep s.(s_ID) s.(s_Title) s.(s_Description) s.(s_Objective) s.(s_AcceptanceCriteria) s.(s_Inputs) s.(s_Outputs)
    s.(s_DependsOn) s.(s_Assignee) s.(s_Profile) s.(s_Scope) s.(s_Metadata).
Definition zero_Modification : TaskModification :=
  mkModification emp emp emp emp [] [] [] [] [] [] emp emp emp emp emp emp ∅ emp zero_Step emp emp emp emp
    zero_Artifact [] emp zero_Artifact VNil [] emp.

Record TaskModifyRequest := mkModifyRequest {
  mr_ID : string; mr_Modifications : list TaskModification; mr_Reason : string }.
Record TaskModificationResult := mkModResult { mo_Op : string; mo_OK : bool; mo_Error : string }.
Record TaskModifyResult := mkModifyResult {
  mf_Results : list TaskModificationResult; mf_State : State; mf_Validation : TaskValidationResult;
  mf_Artifacts : list ScopedArtifact }.
Record ReviewRequest := mkReview {
  rv_TaskID : string; rv_Instruction : string; rv_Reviewer : Role; rv_Labels : list string; rv_Status : Status }.
Record ExecutionRequest := mkRun { er_TaskID : string; er_Action : string; er_DryRun : bool }.
Record ExecutionResult := mkRunRes {
  ex_TaskID : string; ex_Status : Status; ex_Started : bool; ex_Running : bool; ex_WaitingForCapacity : bool;
  ex_Background : bool; ex_Summary : string }.

(** [operation.OK] and [operation.Failed]; the details of a failure repeat the request. *)
Inductive Outcome (A : Type) : Type :=
| OutOK (a : A)
| OutFailed (code message : string).
Arguments OutOK {A} a.
Arguments OutFailed {A} code message.

Inductive ModError :=
| MErrTask (e : TaskError)
| MErrMismatch (next id : string)
| MErrCriterion
| MErrArtifactShape
| MErrStepRequired
| MErrStepNotFound (id : string)
| MErrStepHasState (id : string)
| MErrStepStatus (status : StepStatus)
| MErrStepTerminal (id : string)
| MErrStepNotTerminal (id : string)
| MErrReopenStepStatus (status : StepStatus)
| MErrArtifactRequired
| MErrArtifactNotFound (id : string)
| MErrArtifactScope (id : string)
| MErrArtifactExists (id : string)
| MErrStatus (status : Status)
| MErrTerminal
| MErrRunning (status : Status)
| MErrNotTerminal
| MErrReopenStatus (status : Status)
| MErrNotCompletable
| MErrUnsupported (op : string)
| MErrOutOfFuel.
(** The texts of these errors, of task validation and of unexpected statuses. *)
Class ModTexts := { mod_text : ModError -> string; task_text : TaskError -> string }.

Definition defaultPrefix : string := "task_".
Definition artifactPrefix : string := "artifact_".
Definition taskModifyRetries : nat := 16.
Definition MetadataOriginDelegateThreadID : string := "origin_delegate_thread_id".

(** The session of the caller, with the parent thread recorded in its thread's metadata. *)
Record SessionScope := mkScope { sn_ThreadID : string; sn_BranchID : string; sn_RunID : string; sn_Parent : string }.

(** ** Helpers *)

(** [firstNonEmpty] of this file skips blank values. *)
Fixpoint first_nonblank (values : list string) : string :=
  match values with
  | [] => emp
  | v :: rest => if blank v then first_nonblank rest else v
  end.
Definition taskSummary (t : Task) : TaskSummary :=
  mkSummary (t_ID t) (t_Title t) (t_Objective t) (t_Description t) (t_Status t) (t_Priority t)
    (t_Assignee t) (t_Owner t) (t_WorkspaceID t) (t_ProjectID t) ([] ++ t_Labels t) (cloneStringMap (t_Metadata t)).

Definition activeTaskStatus (status : Status) : bool :=
  bool_decide (status ∈ [StatusDraft; StatusReady; StatusRunning; StatusBlocked; StatusInterrupted]).
Definition activeStepStatus (status : StepStatus) : bool :=
  bool_decide (status ∈ [StepStatusWaiting; StepStatusRunning; StepStatusBlocked]).
Definition stepExists (steps : list Step) (id : string) : bool := existsb (fun st => bool_decide (s_ID st = id)) steps.
Definition stepHasExecutionState (s : State) (id : string) : bool :=
  bool_decide (map_Exists (fun _ x => is_Some (x_Steps x !! id)) (st_Executions s)).

(** [scopedArtifacts] of this file: executions and steps in the order of their identifiers. *)
Definition sorted_keys {A} (m : gmap string A) : list string := merge_sort String.le (map_to_list m).*1.
Definition step_artifacts (s : State) (xid : string) (x : Execution) (sid : string) : list ScopedArtifact :=
  mkScoped (t_ID (st_Task s)) xid sid <$> se_Artifacts (x_Steps x !!! sid).
Definition execution_artifacts (s : State) (xid : string) : list ScopedArtifact :=
  let x := st_Executions s !!! xid in
  (mkScoped (t_ID (st_Task s)) xid emp <$> x_Artifacts x) ++ flat_map (step_artifacts s xid x) (sorted_keys (x_Steps x)).
Definition scopedArtifactsSorted (s : State) : list ScopedArtifact :=
  (mkScoped (t_ID (st_Task s)) emp emp <$> t_Artifacts (st_Task s)) ++
  flat_map (execution_artifacts s) (sorted_keys (st_Executions s)).

Definition artifactScopeForID (s : State) (artifactID : string) : option ScopedArtifact :=
  find (fun scoped => bool_decide (a_ID (sc_Artifact scoped) = artifactID)) (scopedArtifactsSorted s).
Definition artifactIDExists (s : State) (artifactID : string) : bool :=
  if decide (artifactID = emp) then false
  else match artifactScopeForID s artifactID with Some _ => true | None => false end.
Definition normalizeArtifactScope (s : State) (executionID stepID : string) : string * string :=
  if decide (stepID = emp) then (executionID, stepID)
  else if decide (executionID <> emp) then (executionID, stepID)
  else if decide (st_Current s <> emp) then (st_Current s, stepID)
  else ("manual"%string, stepID).
Definition validateArtifact (a : ArtifactSpec) : Result ModError unit :=
  if blank (a_Name a) && blank (a_Description a) && blank (a_Ref a) then Err MErrArtifactShape else Ok tt.
Definition artifactList (m : TaskModification) : list ArtifactSpec :=
  match m_Artifacts m with
  | _ :: _ => m_Artifacts m
  | [] =>
      match m_Outputs m with
      | _ :: _ => m_Outputs m
      | [] =>
          let a := m_Artifact m in
          if decide (a_Name a <> emp \/ a_Description a <> emp \/ a_Ref a <> emp \/ a_ID a <> emp) then [a] else []
      end
  end.

(** ** The completion test *)

Section Validation.
Context {CF : CaseFold}.

Definition artifactSatisfied (required : ArtifactSpec) (produced : list ScopedArtifact) : bool :=
  existsb (fun scoped =>
    let a := sc_Artifact scoped in
    (bool_decide (a_ID required <> emp) && bool_decide (a_ID a = a_ID required)) ||
    (bool_decide (a_Name required <> emp) && EqualFold (a_Name a) (a_Name required))) produced.
Definition output_check (produced : list ScopedArtifact) (o : ArtifactSpec) : option TaskCheck :=
  if negb (a_Required o) then None
  else Some (mkCheck "required_output"
               ("required output " ++ first_nonblank [a_ID o; a_Name o; a_Description o; a_Ref o])
               (artifactSatisfied o produced) (a_ID o)).
Definition validateState (s : State) : TaskValidationResult :=
  let t := st_Task s in
  let outputs := omap (output_check (scopedArtifactsSorted s)) (t_Outputs t) in
  let steps := if decide (0 < length (t_Steps t))
               then [mkCheck "steps_terminal" "all declared task steps have terminal execution state"
                       (AllStepsTerminal s) emp]
               else [] in
  let manual := if decide (0 < length (t_AcceptanceCriteria t))
                then [mkCheck "acceptance_manual" "acceptance criteria require reviewer or caller judgment" true emp]
                else [] in
  let checks := outputs ++ steps ++ manual in
  mkValidation (t_ID t) (bool_decide (t_Status t = StatusReady \/ t_Status t = StatusRunning))
    (forallb c_OK (outputs ++ steps))
    (if decide (length checks = 0)
     then [mkCheck "task_shape" "task has no required outputs or steps" true emp] else checks).
Definition completionAllowed (v : TaskValidationResult) (overrides : list string) : bool :=
  if v_Completable v then true
  else
    let allowed : gset string := list_to_set (TrimSpace <$> overrides) in
    if forallb (fun c => c_OK c || bool_decide (c_Code c ∈ allowed)) (v_Checks v)
    then bool_decide (0 < size allowed) else false.
End Validation.

(** ** Modifications

    The copies made by [cloneTask], [cloneSteps] and their like have the same values as those of the
    projector, which are used here. *)

Section Ops.
Context {P : Type} {TP : TaskPayload P} {TX : ErrorTexts} {CF : CaseFold} {MT : ModTexts}.
Abbreviation Act := (Prog P SchedEff).
(** The state after the modification and the events it produced. *)
Abbreviation Modified := (Result ModError (State * list TaskEvent)).

(** The state is replaced by its successor, [runtimetask.Apply] at [timeNow()]. *)
Definition emit (s : State) (payload : TaskEvent) : Act Modified :=
  let! now := effect ENow in Ret (Ok (Apply s payload now, [payload])).

Definition revise (taskID : string) (next : Task) (reason : string) (s : State) : Act Modified :=
  let next := if decide (t_ID next = emp) then next <| t_ID := taskID |> else next in
  if decide (t_ID next <> taskID) then Ret (Err (MErrMismatch (t_ID next) taskID))
  else match Task_Validate next with
       | Some (Ok _) => emit s (Revised taskID next reason)
       | Some (Err e) => Ret (Err (MErrTask e))
       | None => Ret (Err MErrOutOfFuel)
       end.

(** [ensureArtifactID] draws identifiers until one is free; [fuel] bounds the draws. *)
Fixpoint ensureArtifactID (fuel : nat) (s : State) (a : ArtifactSpec) : Act (Result ModError ArtifactSpec) :=
  if decide (a_ID a <> emp) then Ret (Ok a) else
  match fuel with
  | O => Ret (Err MErrOutOfFuel)
  | S fuel' =>
      let! id := effect (ENewID artifactPrefix) in
      if artifactIDExists s id then ensureArtifactID fuel' s a
      else ensureArtifactID fuel' s (a <| a_ID := id |>)
  end.

(** Checks shared by [add_artifact] and [complete], then the event. *)
Definition add_artifact (fuel : nat) (taskID xid sid : string) (a : ArtifactSpec) (s : State) : Act Modified :=
  match validateArtifact a with
  | Err e => Ret (Err e)
  | Ok _ =>
      if bool_decide (a_ID a <> emp) && artifactIDExists s (a_ID a) then Ret (Err (MErrArtifactExists (a_ID a)))
      else
        let! r := ensureArtifactID fuel s a in
        match r with
        | Err e => Ret (Err e)
        | Ok a => emit s (ArtifactAdded taskID xid sid a)
        end
  end.

Definition set_nonempty {R} (v : string) (f : R -> R) (r : R) : R := if decide (v <> emp) then f r else r.
Definition set_list {R A} (l : list A) (f : R -> R) (r : R) : R := if decide (0 < length l) then f r else r.
Definition updated_metadata (m : TaskModification) (t : Task) : Task :=
  let t := set_nonempty (m_Title m) (fun t => t <| t_Title := TrimSpace (m_Title m) |>) (cloneTask t) in
  let t := set_nonempty (m_Description m) (fun t => t <| t_Description := TrimSpace (m_Description m) |>) t in
  let t := set_nonempty (m_Objective m) (fun t => t <| t_Objective := TrimSpace (m_Objective m) |>) t in
  let t := set_list (m_AcceptanceCriteria m) (fun t => t <| t_AcceptanceCriteria := [] ++ m_AcceptanceCriteria m |>) t in
  let t := set_list (m_Inputs m) (fun t => t <| t_Inputs := cloneArtifacts (m_Inputs m) |>) t in
  let t := set_list (m_Outputs m) (fun t => t <| t_Outputs := cloneArtifacts (m_Outputs m) |>) t in
  let t := set_list (m_Scope m) (fun t => t <| t_Scope := [] ++ m_Scope m |>) t in
  let t := set_list (m_Constraints m) (fun t => t <| t_Constraints := [] ++ m_Constraints m |>) t in
  let t := set_list (m_Labels m) (fun t => t <| t_Labels := [] ++ m_Labels m |>) t in
  let t := set_nonempty (m_Priority m) (fun t => t <| t_Priority := m_Priority m |>) t in
  let t := set_nonempty (m_Assignee m) (fun t => t <| t_Assignee := m_Assignee m |>) t in
  let t := set_nonempty (m_Owner m) (fun t => t <| t_Owner := m_Owner m |>) t in
  let t := set_nonempty (m_WorkspaceID m) (fun t => t <| t_WorkspaceID := m_WorkspaceID m |>) t in
  let t := set_nonempty (m_ProjectID m) (fun t => t <| t_ProjectID := m_ProjectID m |>) t in
  let t := set_nonempty (m_WorkflowRef m) (fun t => t <| t_WorkflowRef := m_WorkflowRef m |>) t in
  t <| t_Metadata := m_Metadata m ∪ t_Metadata t |>.

(** The loop of [update_step]: the first step with the identifier is replaced. *)
Fixpoint replace_step (steps : list Step) (id : string) (step : Step) : option (list Step) :=
  match steps with
  | [] => None
  | st :: rest =>
      if decide (s_ID st = id) then Some (step :: rest)
      else match replace_step rest id step with Some rest' => Some (st :: rest') | None => None end
  end.

(** The execution a step status is set in, and the status before. *)
Definition status_execution (m : TaskModification) (s : State) : string :=
  let xid := if decide (m_ExecutionID m = emp) then st_Current s else m_ExecutionID m in
  if decide (xid = emp) then "manual"%string else xid.
Definition previous_status (s : State) (xid sid : string) : StepStatus :=
  match st_Executions s !! xid with Some x => step_status x sid | None => emp end.

(** The artifact an update or a removal is about. *)
Definition find_artifact (m : TaskModification) (s : State) : Result ModError ScopedArtifact :=
  if decide (m_ArtifactID m = emp) then Err MErrArtifactRequired else
  match artifactScopeForID s (m_ArtifactID m) with
  | None => Err (MErrArtifactNotFound (m_ArtifactID m))
  | Some scoped =>
      if decide (m_ExecutionID m <> emp /\ m_ExecutionID m <> sc_ExecutionID scoped)
      then Err (MErrArtifactScope (m_ArtifactID m))
      else if decide (m_StepID m <> emp /\ m_StepID m <> sc_StepID scoped)
      then Err (MErrArtifactScope (m_ArtifactID m))
      else Ok scoped
  end.

(** The artifacts of [complete]. *)
Fixpoint complete_artifacts (fuel : nat) (taskID : string) (l : list ArtifactSpec) (s : State) (events : list TaskEvent)
    : Act Modified :=
  match l with
  | [] => Ret (Ok (s, events))
  | a :: rest =>
      let! r := add_artifact fuel taskID emp emp a s in
      match r with
      | Err e => Ret (Err e)
      | Ok (s', es) => complete_artifacts fuel taskID rest s' (events ++ es)
      end
  end.

Section Apply.
Context (fuel : nat) (taskID batchReason : string) (m : TaskModification) (s : State).
Let reason : string := first_nonblank [m_Reason m; batchReason].
Let t : Task := st_Task s.

Definition mod_add_criterion : Act Modified :=
  if blank (m_Criterion m) then Ret (Err MErrCriterion)
  else revise taskID ((cloneTask t) <| t_AcceptanceCriteria := t_AcceptanceCriteria (cloneTask t) ++ [TrimSpace (m_Criterion m)] |>) reason s.

Definition mod_add_output : Act Modified :=
  match validateArtifact (m_Output m) with
  | Err e => Ret (Err e)
  | Ok _ =>
      let! artifact := (if decide (a_ID (m_Output m) = emp)
                        then let! id := effect (ENewID artifactPrefix) in Ret ((m_Output m) <| a_ID := id |>)
                        else Ret (m_Output m)) in
      revise taskID ((cloneTask t) <| t_Outputs := t_Outputs (cloneTask t) ++ [artifact] |>) reason s
  end.

Definition mod_add_step : Act Modified :=
  if blank (s_ID (m_Step m)) then Ret (Err MErrStepRequired)
  else revise taskID ((cloneTask t) <| t_Steps := t_Steps (cloneTask t) ++ [cloneStep (m_Step m)] |>) reason s.

Definition mod_update_step : Act Modified :=
  if decide (m_StepID m = emp) then Ret (Err MErrStepRequired) else
  let step := cloneStep (m_Step m) in
  let step := if decide (s_ID step = emp) then step <| s_ID := m_StepID m |> else step in
  match replace_step (t_Steps (cloneTask t)) (m_StepID m) step with
  | None => Ret (Err (MErrStepNotFound (m_StepID m)))
  | Some steps => revise taskID ((cloneTask t) <| t_Steps := steps |>) reason s
  end.

Definition mod_remove_step : Act Modified :=
  if decide (m_StepID m = emp) then Ret (Err MErrStepRequired)
  else if stepHasExecutionState s (m_StepID m) then Ret (Err (MErrStepHasState (m_StepID m)))
  else if negb (stepExists (t_Steps t) (m_StepID m)) then Ret (Err (MErrStepNotFound (m_StepID m)))
  else
    let steps := cloneStep <$> filter (fun st => s_ID st <> m_StepID m) (t_Steps (cloneTask t)) in
    revise taskID ((cloneTask t) <| t_Steps := steps |>) reason s.

Definition mod_set_step_status : Act Modified :=
  if decide (m_StepID m = emp) then Ret (Err MErrStepRequired)
  else if negb (stepExists (t_Steps t) (m_StepID m)) then Ret (Err (MErrStepNotFound (m_StepID m)))
  else if bool_decide (m_StepStatus m = emp) || negb (ValidStepStatus (m_StepStatus m))
  then Ret (Err (MErrStepStatus (m_StepStatus m)))
  else
    let xid := status_execution m s in
    let previous := previous_status s xid (m_StepID m) in
    if StepTerminal previous && activeStepStatus (m_StepStatus m) then Ret (Err (MErrStepTerminal (m_StepID m)))
    else emit s (StepStatusChanged taskID xid (m_StepID m) previous (m_StepStatus m) reason (m_StepOutput m)).

Definition mod_reopen_step : Act Modified :=
  if decide (m_StepID m = emp) then Ret (Err MErrStepRequired)
  else if negb (stepExists (t_Steps t) (m_StepID m)) then Ret (Err (MErrStepNotFound (m_StepID m)))
  else
    let xid := status_execution m s in
    let previous := previous_status s xid (m_StepID m) in
    if negb (StepTerminal previous) then Ret (Err (MErrStepNotTerminal (m_StepID m)))
    else
      let status := if decide (m_StepStatus m = emp) then StepStatusWaiting else m_StepStatus m in
      if negb (activeStepStatus status) then Ret (Err (MErrReopenStepStatus status))
      else emit s (StepStatusChanged taskID xid (m_StepID m) previous status reason VNil).

Definition mod_add_artifact : Act Modified :=
  let '(xid, sid) := normalizeArtifactScope s (m_ExecutionID m) (m_StepID m) in
  if bool_decide (sid <> emp) && negb (stepExists (t_Steps t) sid) then Ret (Err (MErrStepNotFound sid))
  else add_artifact fuel taskID xid sid (m_Artifact m) s.

Definition mod_update_artifact : Act Modified :=
  match find_artifact m s with
  | Err e => Ret (Err e)
  | Ok scoped =>
      match validateArtifact (m_Artifact m) with
      | Err e => Ret (Err e)
      | Ok _ =>
          let a := m_Artifact m in
          if decide (a_ID a = emp)
          then emit s (ArtifactUpdated taskID (sc_ExecutionID scoped) (sc_StepID scoped) (m_ArtifactID m)
                         (a <| a_ID := m_ArtifactID m |>))
          else if bool_decide (a_ID a <> m_ArtifactID m) && artifactIDExists s (a_ID a)
          then Ret (Err (MErrArtifactExists (a_ID a)))
          else emit s (ArtifactUpdated taskID (sc_ExecutionID scoped) (sc_StepID scoped) (m_ArtifactID m) a)
      end
  end.

Definition mod_remove_artifact : Act Modified :=
  match find_artifact m s with
  | Err e => Ret (Err e)
  | Ok scoped =>
      emit s (ArtifactRemoved taskID (sc_ExecutionID scoped) (sc_StepID scoped) (m_ArtifactID m) reason)
  end.

Definition mod_set_status : Act Modified :=
  if bool_decide (m_Status m = emp) || negb (ValidStatus (m_Status m)) then Ret (Err (MErrStatus (m_Status m)))
  else if decide (t_Status t = m_Status m) then Ret (Ok (s, []))
  else if Terminal (t_Status t) && activeTaskStatus (m_Status m) then Ret (Err MErrTerminal)
  else if decide (t_Status t = StatusRunning /\ (m_Status m = StatusReady \/ m_Status m = StatusDraft))
  then Ret (Err (MErrRunning (m_Status m)))
  else emit s (StatusChanged taskID (t_Status t) (m_Status m) reason).

Definition mod_reopen : Act Modified :=
  if negb (Terminal (t_Status t)) then Ret (Err MErrNotTerminal)
  else
    let status := if decide (m_Status m = emp) then StatusReady else m_Status m in
    if negb (activeTaskStatus status) then Ret (Err (MErrReopenStatus status))
    else emit s (StatusChanged taskID (t_Status t) status reason).

Definition mod_complete : Act Modified :=
  let! r := complete_artifacts fuel taskID (artifactList m) s [] in
  match r with
  | Err e => Ret (Err e)
  | Ok (s', events) =>
      if negb (completionAllowed (validateState s') (m_ForceOverrides m)) then Ret (Err MErrNotCompletable)
      else if decide (t_Status (st_Task s') <> StatusCompleted) then
        let! r := emit s' (StatusChanged taskID (t_Status (st_Task s')) StatusCompleted reason) in
        match r with
        | Err e => Ret (Err e)
        | Ok (s'', es) => Ret (Ok (s'', events ++ es))
        end
      else Ret (Ok (s', events))
  end.

Definition applyModification : Act Modified :=
  let op := TrimSpace (m_Op m) in
  if decide (op = "update_metadata"%string) then revise taskID (updated_metadata m t) reason s
  else if decide (op = "add_acceptance_criterion"%string) then mod_add_criterion
  else if decide (op = "add_output"%string) then mod_add_output
  else if decide (op = "add_step"%string) then mod_add_step
  else if decide (op = "update_step"%string) then mod_update_step
  else if decide (op = "remove_step"%string) then mod_remove_step
  else if decide (op = "set_step_status"%string) then mod_set_step_status
  else if decide (op = "add_artifact"%string) then mod_add_artifact
  else if decide (op = "update_artifact"%string) then mod_update_artifact
  else if decide (op = "remove_artifact"%string) then mod_remove_artifact
  else if decide (op = "set_status"%string) then mod_set_status
  else if decide (op = "reopen"%string) then mod_reopen
  else if decide (op = "reopen_step"%string) then mod_reopen_step
  else if decide (op = "complete"%string) then mod_complete
  else Ret (Err (MErrUnsupported (m_Op m))).
End Apply.

Fixpoint apply_all (fuel : nat) (taskID batchReason : string) (items : list TaskModification) (s : State)
    (events : list TaskEvent) (results : list TaskModificationResult)
    : Act (Result ModError (State * list TaskEvent * list TaskModificationResult)) :=
  match items with
  | [] => Ret (Ok (s, events, results))
  | m :: rest =>
      let! r := applyModification fuel taskID batchReason m s in
      match r with
      | Err e => Ret (Err e)
      | Ok (s', es) => apply_all fuel taskID batchReason rest s' (events ++ es) (results ++ [mkModResult (m_Op m) true emp])
      end
  end.

(** ** Operations

    The store is there: a nil store is answered with [task_store_missing] before anything else. *)

Definition isAppendConflict (e : TSError) : bool := ts_conflict e.

Definition loadTask (taskID : string) : Act (Outcome State) :=
  if blank taskID then Ret (OutFailed "task_id_required" "task id is required") else
  let! r := TaskLoad false taskID in
  Ret (match r with
       | Err e => OutFailed "task_store_load_failed" (ts_text e)
       | Ok [] => OutFailed "task_not_found" "task was not found"
       | Ok records =>
           let state := ProjectRecords records in
           if decide (t_ID (st_Task state) = emp) then OutFailed "task_not_found" "task was not found" else OutOK state
       end).
Definition loadTaskWithSequence (taskID : string) : Act (Outcome SequencedState) :=
  if blank taskID then Ret (OutFailed "task_id_required" "task id is required") else
  let! r := ProjectWithSequence taskID in
  Ret (match r with
       | Err e => OutFailed "task_store_load_failed" (ts_text e)
       | Ok projected =>
           if decide (t_ID (st_Task (sq_State projected)) = emp) then OutFailed "task_not_found" "task was not found"
           else OutOK projected
       end).

Definition emit_all (events : list TaskEvent) : Act unit := each (fun e => effect (EEmit e)) events.

(** What follows the append of [modifyTask], at its label [appended]. *)
Definition modify_finish (taskID : string) (s : State) (events : list TaskEvent) (results : list TaskModificationResult)
    : Act (Outcome TaskModifyResult) :=
  let! r := Index false (taskSummary (st_Task s)) in
  match r with
  | Err e => Ret (OutFailed "task_index_append_failed" (ts_text e))
  | Ok _ =>
      let! _ := emit_all events in
      let! r := TaskProject false taskID in
      Ret (match r with
           | Err e => OutFailed "task_store_project_failed" (ts_text e)
           | Ok projected => OutOK (mkModifyResult results projected (validateState projected) (scopedArtifactsSorted projected))
           end)
  end.
Fixpoint modify_loop (fuel : nat) (req : TaskModifyRequest) (rounds : nat) : Act (Outcome TaskModifyResult) :=
  match rounds with
  | O => Ret (OutFailed "task_conflict_retry" "task was modified concurrently; retry task_modify")
  | S rounds' =>
      let! r := loadTaskWithSequence (mr_ID req) in
      match r with
      | OutFailed code message => Ret (OutFailed code message)
      | OutOK projected =>
          let! r := apply_all fuel (mr_ID req) (mr_Reason req) (mr_Modifications req) (sq_State projected) [] [] in
          match r with
          | Err e => Ret (OutFailed "task_modify_invalid" (mod_text e))
          | Ok (s, events, results) =>
              if length events =? 0 then Ret (OutFailed "task_modify_noop" "task_modify did not produce any changes") else
              let! r := AppendExpected (mr_ID req) (sq_Sequence projected) (payloads events) in
              match r with
              | Err e => if isAppendConflict e then modify_loop fuel req rounds'
                         else Ret (OutFailed "task_store_append_failed" (ts_text e))
              | Ok _ => modify_finish (mr_ID req) s events results
              end
          end
      end
  end.
Definition modifyTask (fuel : nat) (req : TaskModifyRequest) : Act (Outcome TaskModifyResult) :=
  match mr_Modifications req with
  | [] => Ret (OutFailed "task_modify_empty" "task_modify requires at least one modification")
  | _ => modify_loop fuel req taskModifyRetries
  end.

(** *** Creation *)

Definition set_unset (k v : string) (m : gmap string string) : gmap string string :=
  if decide (default emp (m !! k) = emp) then <[k := v]> m else m.
Definition attachOriginMetadata (scope : option SessionScope) (t : Task) : Task :=
  match scope with
  | None => t
  | Some sc =>
      let m := t_Metadata t in
      let m := if decide (sn_Parent sc <> emp) then set_unset MetadataOriginDelegateThreadID (sn_ThreadID sc) m else m in
      let origin := if decide (sn_Parent sc <> emp) then sn_Parent sc else sn_ThreadID sc in
      let m := set_unset MetadataOriginThreadID origin m in
      let m := if decide (sn_BranchID sc <> emp) then set_unset MetadataOriginBranchID (sn_BranchID sc) m else m in
      let m := if decide (sn_RunID sc <> emp) then set_unset MetadataOriginRunID (sn_RunID sc) m else m in
      t <| t_Metadata := m |>
  end.

Definition summaryTitle (text : string) : string :=
  let text := TrimSpace text in
  if String.length text <=? 80 then text else TrimSpace (String.substring 0 80 text).
Definition taskFromCreateRequest (req : TaskCreateRequest) : Task :=
  let title := TrimSpace (r_Title req) in
  let objective := TrimSpace (r_Objective req) in
  let objective := if decide (title = emp /\ objective = emp) then TrimSpace (r_Instruction req) else objective in
  let title := if decide (title = emp) then summaryTitle objective else title in
  let objective := if decide (objective = emp) then title else objective in
  mkTask (r_ID req) title (TrimSpace (r_Description req)) objective ([] ++ r_AcceptanceCriteria req)
    (cloneArtifacts (r_Inputs req)) (cloneArtifacts (r_Outputs req)) [] ([] ++ r_Scope req) ([] ++ r_Constraints req)
    (r_Status req) (r_Priority req) (r_Assignee req) emp (r_Owner req) (r_WorkspaceID req) (r_ProjectID req)
    (r_WorkflowRef req) None (cloneStep <$> r_SuggestedSteps req) ([] ++ r_Labels req) [] (cloneStringMap (r_Metadata req)) 0 0.

(** The common end of [createTask] and [requestReview]. *)
Definition create_validated (t : Task) (req : TaskCreateRequest) : Act (Outcome Task) :=
  let events := [CreateRequested (t_ID t) req; Created (t_ID t) t] in
  let! r := Create (t_ID t) (payloads events) in
  match r with
  | Err e => Ret (if isAppendConflict e then OutFailed "task_already_exists" "task id already exists"
                  else OutFailed "task_store_append_failed" (ts_text e))
  | Ok _ =>
      let! r := Index false (taskSummary t) in
      match r with
      | Err e => Ret (OutFailed "task_index_append_failed" (ts_text e))
      | Ok _ => let! _ := emit_all events in Ret (OutOK t)
      end
  end.
Definition validated (t : Task) (k : Act (Outcome Task)) : Act (Outcome Task) :=
  match Task_Validate t with
  | Some (Ok _) => k
  | Some (Err e) => Ret (OutFailed "task_invalid" (task_text e))
  | None => Ret (OutFailed "task_invalid" "out of fuel")
  end.

(** [createTask], from the point where the task has an identifier. *)
Definition create_named (scope : option SessionScope) (req : TaskCreateRequest) (t : Task) : Act (Outcome Task) :=
  let t := if decide (t_Status t = emp) then t <| t_Status := StatusReady |> else t in
  let t := attachOriginMetadata scope t in
  validated t
    (create_validated t
       (mkCreateRequest (t_ID t) (r_Kind req) (r_Instruction req) (r_Intent req) (r_Objective req) (r_Title req)
          (r_Description req) (r_AcceptanceCriteria req) (r_Inputs req) (r_Outputs req) (r_Scope req) (r_Constraints req)
          (r_Labels req) (r_Priority req) (r_Assignee req) (r_Owner req) (r_WorkspaceID req) (r_ProjectID req)
          (r_WorkflowRef req) (r_SuggestedSteps req) (if decide (r_Status req = emp) then t_Status t else r_Status req)
          (cloneStringMap (t_Metadata t)))).
Definition createTask (scope : option SessionScope) (req : TaskCreateRequest) : Act (Outcome Task) :=
  let t := taskFromCreateRequest req in
  if decide (t_ID t = emp)
  then let! id := effect (ENewID defaultPrefix) in create_named scope req (t <| t_ID := id |>)
  else create_named scope req t.

Definition review_task (id : string) (req : ReviewRequest) (source : Task) : Task :=
  zero_Task <| t_ID := id |>
    <| t_Title := ("Review: " ++ first_nonblank [t_Title source; t_Objective source; t_ID source])%string |>
    <| t_Objective := ("Review task " ++ t_ID source ++ " against its scope, artifacts, and acceptance criteria.")%string |>
    <| t_Description := TrimSpace (rv_Instruction req) |>
    <| t_Status := if decide (rv_Status req = emp) then StatusReady else rv_Status req |>
    <| t_Assignee := if decide (rv_Reviewer req = emp) then RoleReviewer else rv_Reviewer req |>
    <| t_Owner := t_Owner source |> <| t_WorkspaceID := t_WorkspaceID source |> <| t_ProjectID := t_ProjectID source |>
    <| t_Labels := ["review"; "task-review"]%string ++ rv_Labels req |>
    <| t_Inputs := [mkArtifact "review-subject" "Review subject task" ArtifactReference "Task to review" true VNil
                      ("task:" ++ t_ID source) VNil ∅] |>
    <| t_Outputs := [mkArtifact "review-report" "Review report" "review"
                       "Concrete findings, residual risk, and approval/blocking recommendation." true VNil emp VNil ∅] |>
    <| t_Metadata := {[ "review_subject_task_id"%string := t_ID source ]} |>.
Definition requestReview (scope : option SessionScope) (req : ReviewRequest) : Act (Outcome Task) :=
  let! r := loadTask (rv_TaskID req) in
  match r with
  | OutFailed code message => Ret (OutFailed code message)
  | OutOK source =>
      let! id := effect (ENewID defaultPrefix) in
      let t := attachOriginMetadata scope (review_task id req (st_Task source)) in
      validated t
        (create_validated t
           (mkCreateRequest (t_ID t) "generic" (rv_Instruction req) emp (t_Objective t) (t_Title t) (t_Description t) []
              (t_Inputs t) (t_Outputs t) [] [] (t_Labels t) emp (t_Assignee t) (t_Owner t) (t_WorkspaceID t)
              (t_ProjectID t) emp [] (t_Status t) (cloneStringMap (t_Metadata t))))
  end.

(** *** Running and reading *)

Definition watched_metadata (sc : SessionScope) (m : gmap string string) : gmap string string * bool :=
  let set k v (acc : gmap string string * bool) :=
    if decide (v = emp \/ default emp (acc.1 !! k) = v) then acc else (<[k := v]> acc.1, true) in
  let acc := set MetadataWatchThreadID (sn_ThreadID sc) (m, false) in
  let acc := if decide (sn_BranchID sc <> emp) then set MetadataWatchBranchID (sn_BranchID sc) acc else acc in
  set MetadataWatchRunID (sn_RunID sc) acc.
Inductive WatchError :=
| WErrStore (e : TSError)
| WErrProjected (taskID projected : string)
| WErrChanged (taskID : string).
Fixpoint watch_loop (sc : SessionScope) (taskID : string) (rounds : nat) : Act (Result WatchError unit) :=
  match rounds with
  | O => Ret (Err (WErrChanged taskID))
  | S rounds' =>
      let! r := ProjectWithSequence taskID in
      match r with
      | Err e => Ret (Err (WErrStore e))
      | Ok projected =>
          let t := st_Task (sq_State projected) in
          if decide (t_ID t = emp) then Ret (Ok tt)
          else if decide (t_ID t <> taskID) then Ret (Err (WErrProjected taskID (t_ID t)))
          else
            let '(m, changed) := watched_metadata sc (t_Metadata t) in
            if negb changed then Ret (Ok tt) else
            let t := t <| t_Metadata := m |> in
            let! r := AppendExpected taskID (sq_Sequence projected)
                        (payloads [Revised taskID t "task_run requested execution from this session"]) in
            match r with
            | Err e => if isAppendConflict e then watch_loop sc taskID rounds' else Ret (Err (WErrStore e))
            | Ok _ =>
                let! r := Index false (taskSummary t) in
                Ret (match r with Err e => Err (WErrStore e) | Ok _ => Ok tt end)
            end
      end
  end.
Definition recordTaskRunWatcher (scope : option SessionScope) (taskID : string) : Act (Result WatchError unit) :=
  match scope with
  | None => Ret (Ok tt)
  | Some sc =>
      if decide (taskID = emp \/ sn_ThreadID sc = emp) then Ret (Ok tt) else watch_loop sc taskID taskModifyRetries
  end.

Definition watch_text (e : WatchError) : string :=
  match e with
  | WErrStore e => ts_text e
  | WErrProjected a b => "task " ++ a ++ " projected as " ++ b
  | WErrChanged a => "task " ++ a ++ " changed while recording task_run watcher"
  end%string.
Definition runTask (scope : option SessionScope) (req : ExecutionRequest) : Act (Outcome ExecutionResult) :=
  let id := er_TaskID req in
  if blank id then Ret (OutFailed "task_id_required" "task id is required") else
  let action := if decide (er_Action req = emp) then "run"%string else er_Action req in
  if decide (action <> "run"%string /\ action <> "continue"%string)
  then Ret (OutFailed "task_run_invalid" ("task_run does not support action " ++ action))
  else if er_DryRun req
  then Ret (OutOK (mkRunRes id StatusReady false false false false ("Task " ++ id ++ " would be scheduled.")))
  else
    let! r := recordTaskRunWatcher scope id in
    match r with
    | Err e => Ret (OutFailed "task_run_watch_failed" (watch_text e))
    | Ok _ =>
        let! r := SubmitTask id in
        Ret (match r with
             | Err e => OutFailed "task_run_failed" (s_text e)
             | Ok sub =>
                 OutOK (mkRunRes (sub_TaskID sub) (if sub_Started sub then StatusRunning else sub_Status sub)
                          (sub_Started sub) (sub_Running sub)
                          (negb (sub_Started sub) && negb (sub_Running sub) && bool_decide (sub_Status sub = StatusReady))
                          (sub_Started sub || sub_Running sub) (sub_Summary sub))
             end)
    end.

Definition validateTask (taskID : string) : Act (Outcome TaskValidationResult) :=
  let! r := loadTask taskID in
  Ret (match r with
       | OutFailed code message => OutFailed code message
       | OutOK s => OutOK (validateState s)
       end).
Definition getTask (taskID : string) : Act (Outcome State) := loadTask taskID.
Definition listArtifacts (taskID : string) : Act (Outcome (list ScopedArtifact)) :=
  let! r := loadTask taskID in
  Ret (match r with
       | OutFailed code message => OutFailed code message
       | OutOK s => OutOK (scopedArtifactsSorted s)
       end).
End Ops.
