(* ===== verification/Edits.v ===== *)
(** * What task operations write

    The abstract specification of the events a task modification may produce ([edit]), the proof that
    every modification of [TaskOps] meets it, and what edits preserve of a task's state. *)

From stdpp Require Import sorting.
From S2P Require Import Prelude Event Operation Workflow Task TaskProject Prog TaskStore SchedLocal Completion Scheduler.
From S2P Require Import Service TaskOps.

(** ** Edits *)

Definition step_known (s : State) (sid : string) : Prop := sid ∈ (s_ID <$> t_Steps (st_Task s)).

Inductive edit (tid : string) (s : State) : TaskEvent -> Prop :=
| edit_revised next reason :
    t_ID next = tid -> task_ok next -> t_Status next = t_Status (st_Task s) ->
    t_Artifacts next = t_Artifacts (st_Task s) -> edit tid s (Revised tid next reason)
| edit_step_status xid sid current reason output :
    step_known s sid -> ValidStepStatus current = true -> xid <> emp ->
    edit tid s (StepStatusChanged tid xid sid (previous_status s xid sid) current reason output)
| edit_artifact_added xid sid a :
    a_ID a <> emp -> artifactIDExists s (a_ID a) = false -> (sid <> emp -> xid <> emp /\ step_known s sid) ->
    edit tid s (ArtifactAdded tid xid sid a)
| edit_artifact_updated scoped id a :
    id <> emp -> artifactScopeForID s id = Some scoped -> a_ID a <> emp ->
    (a_ID a = id \/ artifactIDExists s (a_ID a) = false) ->
    edit tid s (ArtifactUpdated tid (sc_ExecutionID scoped) (sc_StepID scoped) id a)
| edit_artifact_removed scoped id reason :
    id <> emp -> artifactScopeForID s id = Some scoped ->
    edit tid s (ArtifactRemoved tid (sc_ExecutionID scoped) (sc_StepID scoped) id reason)
| edit_status current reason :
    ValidStatus current = true ->
    (t_Status (st_Task s) = StatusRunning -> current <> StatusReady /\ current <> StatusDraft) ->
    edit tid s (StatusChanged tid (t_Status (st_Task s)) current reason).

(** Edits one after the other, each tried on the state the earlier ones lead to. *)
Inductive edits (tid : string) : State -> list TaskEvent -> State -> Prop :=
| edits_nil s : edits tid s [] s
| edits_cons s e at_ es s' : edit tid s e -> edits tid (Apply s e at_) es s' -> edits tid s (e :: es) s'.

Lemma edits_app tid s1 es1 s2 es2 s3 : edits tid s1 es1 s2 -> edits tid s2 es2 s3 -> edits tid s1 (es1 ++ es2) s3.
Proof. induction 1; intros; [done|]. simpl. econstructor; eauto. Qed.
Lemma edits_one tid s e at_ : edit tid s e -> edits tid s [e] (Apply s e at_).
Proof. intros He. econstructor; [done|constructor]. Qed.

(** ** Modifications are edits *)

Section Modifications.
Context {P : Type} {CF : CaseFold} (fuel : nat) (tid : string).
Abbreviation returns := (may_return (P := P) sched_responds).
Implicit Types (s : State) (m : TaskModification).

Lemma emit_returns s p r : returns (emit s p) r -> exists now, r = Ok (Apply s p now, [p]).
Proof. intros (now & _ & ->). by exists now. Qed.

Lemma emit_intro s p now : returns (emit s p) (Ok (Apply s p now, [p])).
Proof. exists now. split; [exact I|reflexivity]. Qed.

Lemma emit_edits s p s' es : edit tid s p -> returns (emit s p) (Ok (s', es)) -> edits tid s es s'.
Proof. intros He (now & [= -> ->])%emit_returns. by apply edits_one. Qed.

Lemma revise_edits next reason s s' es :
  t_Status next = t_Status (st_Task s) -> t_Artifacts next = t_Artifacts (st_Task s) ->
  returns (revise tid next reason s) (Ok (s', es)) -> edits tid s es s'.
Proof.
  intros Hst Har. unfold revise. set (next' := if decide (t_ID next = emp) then _ else next).
  assert (Hn : t_Status next' = t_Status next /\ t_Artifacts next' = t_Artifacts next) by (unfold next'; by case_decide).
  destruct Hn as [Hst' Har']. case_decide as Hid; [done|].
  destruct (task_validate_cases next') as (r & -> & Hr). destruct r as [u|e]; [|done].
  apply emit_edits. constructor; [done| |congruence|congruence]. apply Hr. by destruct u.
Qed.

Lemma ensure_returns k s a a' :
  returns (ensureArtifactID k s a) (Ok a') ->
  a_ID a' <> emp /\ (a_ID a <> emp -> a' = a) /\ (a_ID a = emp -> artifactIDExists s (a_ID a') = false).
Proof.
  revert a. induction k as [|k IH]; intros a; cbn [ensureArtifactID]; case_decide as Ha.
  - by intros [= ->].
  - done.
  - by intros [= ->].
  - intros (id & Hid & Hr). cbn in Hid, Hr.
    destruct (artifactIDExists s id) eqn:Ee; apply IH in Hr as (H1 & H2 & H3).
    + split; [done|]. split; [done|]. done.
    + split; [done|]. split; [done|]. intros _. by rewrite (H2 Hid).
Qed.

Lemma add_artifact_edits xid sid a s s' es :
  (sid <> emp -> xid <> emp /\ step_known s sid) ->
  returns (add_artifact fuel tid xid sid a s) (Ok (s', es)) -> edits tid s es s'.
Proof.
  intros Hscope. unfold add_artifact. destruct (validateArtifact a); [|done].
  destruct (bool_decide (a_ID a <> emp) && artifactIDExists s (a_ID a)) eqn:Ee; [done|].
  intros ([a'|e] & Ha & Hr)%may_return_bind; [|done].
  apply ensure_returns in Ha as (Hne & Hsame & Hfresh). apply emit_edits in Hr; [done|].
  constructor; [done| |done]. destruct (decide (a_ID a = emp)) as [He|He]; [by apply Hfresh|].
  rewrite (Hsame He). rewrite bool_decide_eq_true_2 in Ee by done. exact Ee.
Qed.

Lemma step_exists_known s sid : stepExists (t_Steps (st_Task s)) sid = true -> step_known s sid.
Proof.
  unfold stepExists, step_known. intros (st & Hin & Hid%bool_decide_eq_true)%existsb_exists.
  apply list_elem_of_fmap. exists st. split; [done|]. by apply list_elem_of_In.
Qed.

Lemma status_execution_set m s : status_execution m s <> emp.
Proof. unfold status_execution. by repeat case_decide. Qed.

Lemma artifact_scope_spec s m scoped :
  find_artifact m s = Ok scoped -> m_ArtifactID m <> emp /\ artifactScopeForID s (m_ArtifactID m) = Some scoped.
Proof.
  unfold find_artifact. case_decide; [done|]. destruct (artifactScopeForID _ _) as [sc|]; [|done].
  repeat case_decide; try done. by intros [= ->].
Qed.

Lemma active_step_valid status : activeStepStatus status = true -> ValidStepStatus status = true.
Proof.
  unfold activeStepStatus. rewrite bool_decide_eq_true. intros Hin.
  repeat (apply elem_of_cons in Hin as [->|Hin]; [reflexivity|]). by apply elem_of_nil in Hin.
Qed.
Lemma active_task_valid status : activeTaskStatus status = true -> ValidStatus status = true.
Proof.
  unfold activeTaskStatus. rewrite bool_decide_eq_true. intros Hin.
  repeat (apply elem_of_cons in Hin as [->|Hin]; [reflexivity|]). by apply elem_of_nil in Hin.
Qed.

Lemma complete_artifacts_edits l s s1 es1 s' es :
  edits tid s es1 s1 -> returns (complete_artifacts fuel tid l s1 es1) (Ok (s', es)) -> edits tid s es s'.
Proof.
  revert s1 es1. induction l as [|a l IH]; intros s1 es1 He; cbn [complete_artifacts].
  - by intros [= -> ->].
  - intros ([[s2 es2]|e] & Ha & Hr)%may_return_bind; [|done]. eapply IH; [|exact Hr].
    eapply edits_app; [done|]. by eapply add_artifact_edits.
Qed.
End Modifications.

Section Apply.
Context {P : Type} {CF : CaseFold} (fuel : nat) (tid batchReason : string) (m : TaskModification) (s s' : State) (es : list TaskEvent).
Abbreviation returns := (may_return (P := P) sched_responds).

(** A clone of the task with fields a revision may change. *)
Ltac revision := apply revise_edits; rewrite cloneTask_id; reflexivity.

(** Updates of other fields. *)
Definition same_core (t u : Task) : Prop := t_Status u = t_Status t /\ t_Artifacts u = t_Artifacts t.
Lemma same_nonempty v f t u : (forall r, same_core r (f r)) -> same_core t u -> same_core t (set_nonempty v f u).
Proof. intros Hf [H1 H2]. unfold set_nonempty. case_decide; [|done]. destruct (Hf u). split; congruence. Qed.
Lemma same_list {A} (l : list A) f t u : (forall r, same_core r (f r)) -> same_core t u -> same_core t (set_list l f u).
Proof. intros Hf [H1 H2]. unfold set_list. case_decide; [|done]. destruct (Hf u). split; congruence. Qed.
Lemma updated_metadata_same t : same_core t (updated_metadata m t).
Proof.
  unfold updated_metadata. rewrite cloneTask_id. cbv beta zeta.
  match goal with |- same_core _ (?u <| t_Metadata := _ |>) => enough (H : same_core t u) by (destruct H; by split) end.
  repeat first [apply same_nonempty; [by split|] | apply same_list; [by split|]]. by split.
Qed.

Lemma mod_update_metadata_edits reason :
  returns (revise tid (updated_metadata m (st_Task s)) reason s) (Ok (s', es)) -> edits tid s es s'.
Proof. destruct (updated_metadata_same (st_Task s)). by apply revise_edits. Qed.
Lemma mod_add_criterion_edits : returns (mod_add_criterion tid batchReason m s) (Ok (s', es)) -> edits tid s es s'.
Proof. unfold mod_add_criterion. destruct (blank _); [done|revision]. Qed.
Lemma mod_add_output_edits : returns (mod_add_output tid batchReason m s) (Ok (s', es)) -> edits tid s es s'.
Proof.
  unfold mod_add_output. destruct (validateArtifact _); [|done].
  intros (a' & _ & Hr)%may_return_bind. revert Hr. revision.
Qed.
Lemma mod_add_step_edits : returns (mod_add_step tid batchReason m s) (Ok (s', es)) -> edits tid s es s'.
Proof. unfold mod_add_step. destruct (blank _); [done|revision]. Qed.
Lemma mod_update_step_edits : returns (mod_update_step tid batchReason m s) (Ok (s', es)) -> edits tid s es s'.
Proof. unfold mod_update_step. case_decide; [done|]. destruct (replace_step _ _ _); [revision|done]. Qed.
Lemma mod_remove_step_edits : returns (mod_remove_step tid batchReason m s) (Ok (s', es)) -> edits tid s es s'.
Proof.
  unfold mod_remove_step. case_decide; [done|]. destruct (stepHasExecutionState _ _); [done|].
  destruct (negb _); [done|revision].
Qed.
Lemma mod_set_step_status_edits : returns (mod_set_step_status tid batchReason m s) (Ok (s', es)) -> edits tid s es s'.
Proof.
  unfold mod_set_step_status. case_decide; [done|]. destruct (stepExists _ _) eqn:Ee; [|done].
  destruct (bool_decide _ || _) eqn:Ev; [done|]. apply orb_false_iff in Ev as [_ Ev%negb_false_iff].
  destruct (_ && _); [done|]. apply emit_edits.
  constructor; [by apply step_exists_known|done|apply status_execution_set].
Qed.
Lemma mod_reopen_step_edits : returns (mod_reopen_step tid batchReason m s) (Ok (s', es)) -> edits tid s es s'.
Proof.
  unfold mod_reopen_step. case_decide; [done|]. destruct (stepExists _ _) eqn:Ee; [|done].
  destruct (negb (StepTerminal _)); [done|]. destruct (activeStepStatus _) eqn:Ev; [|done].
  apply emit_edits. constructor; [by apply step_exists_known|by apply active_step_valid|apply status_execution_set].
Qed.
Lemma mod_add_artifact_edits : returns (mod_add_artifact fuel tid m s) (Ok (s', es)) -> edits tid s es s'.
Proof.
  unfold mod_add_artifact. destruct (normalizeArtifactScope _ _ _) as [xid sid] eqn:En.
  destruct (_ && _) eqn:Ee; [done|]. apply add_artifact_edits. intros Hs. split.
  - revert En. unfold normalizeArtifactScope. repeat case_decide; intros [= <- <-]; done.
  - rewrite bool_decide_eq_true_2 in Ee by done. by apply step_exists_known, negb_false_iff.
Qed.
Lemma mod_update_artifact_edits : returns (mod_update_artifact tid m s) (Ok (s', es)) -> edits tid s es s'.
Proof.
  unfold mod_update_artifact. destruct (find_artifact m s) as [sc|] eqn:Ef; [|done].
  apply artifact_scope_spec in Ef as [Hne Hsc]. destruct (validateArtifact _); [|done]. case_decide as Ha.
  { apply emit_edits. constructor; [done..|by left]. }
  destruct (_ && _) eqn:Ee; [done|]. apply emit_edits. constructor; [done..|].
  apply andb_false_iff in Ee as [Ee|Ee]; [|by right]. left. by apply bool_decide_eq_false, dec_stable in Ee.
Qed.
Lemma mod_remove_artifact_edits : returns (mod_remove_artifact tid batchReason m s) (Ok (s', es)) -> edits tid s es s'.
Proof.
  unfold mod_remove_artifact. destruct (find_artifact m s) as [sc|] eqn:Ef; [|done].
  apply artifact_scope_spec in Ef as [Hne Hsc]. apply emit_edits. by constructor.
Qed.
Lemma mod_set_status_edits : returns (mod_set_status tid batchReason m s) (Ok (s', es)) -> edits tid s es s'.
Proof.
  unfold mod_set_status. destruct (_ || _) eqn:Ev; [done|]. apply orb_false_iff in Ev as [_ Ev%negb_false_iff].
  case_decide; [intros [= -> ->]; constructor|]. destruct (_ && _); [done|]. case_decide as Hr; [done|]. apply emit_edits.
  constructor; [done|]. intros Hrun. split; intros E; apply Hr; auto.
Qed.
Lemma mod_reopen_edits : returns (mod_reopen tid batchReason m s) (Ok (s', es)) -> edits tid s es s'.
Proof.
  unfold mod_reopen. destruct (Terminal _) eqn:Et; [|done]. destruct (activeTaskStatus _) eqn:Ev; [|done]. apply emit_edits. constructor; [by apply active_task_valid|].
  intros Hrun. exfalso. rewrite Hrun in Et. discriminate.
Qed.
Lemma mod_complete_edits : returns (mod_complete fuel tid batchReason m s) (Ok (s', es)) -> edits tid s es s'.
Proof.
  unfold mod_complete. intros ([[s1 es1]|e] & Hc & Hr)%may_return_bind; [|done].
  apply (complete_artifacts_edits _ _ _ s) in Hc; [|constructor].
  destruct (negb _); [done|]. case_decide; [|by injection Hr as -> ->].
  apply may_return_bind in Hr as ([[s2 es2]|e] & He & Hr); [|done]. injection Hr as -> ->.
  eapply edits_app; [done|]. eapply emit_edits; [|done]. by constructor.
Qed.
Hint Resolve mod_update_metadata_edits mod_add_criterion_edits mod_add_output_edits mod_add_step_edits
  mod_update_step_edits mod_remove_step_edits mod_set_step_status_edits mod_reopen_step_edits mod_add_artifact_edits
  mod_update_artifact_edits mod_remove_artifact_edits mod_set_status_edits mod_reopen_edits mod_complete_edits : edits.

Lemma modification_edits : returns (applyModification fuel tid batchReason m s) (Ok (s', es)) -> edits tid s es s'.
Proof. unfold applyModification. cbn zeta. repeat case_decide; eauto with edits. done. Qed.
End Apply.

(** ** The two completion tests *)

Section Validators.
Context {CF : CaseFold}.
Implicit Types (s : State) (o a : ArtifactSpec).

Lemma sorted_keys_elem {A} (m : gmap string A) k : k ∈ sorted_keys m <-> is_Some (m !! k).
Proof.
  unfold sorted_keys. rewrite merge_sort_Permutation, list_elem_of_fmap. split.
  - intros ([k' x] & -> & Hin%elem_of_map_to_list). by exists x.
  - intros [x Hx]. exists (k, x). split; [done|]. by apply elem_of_map_to_list.
Qed.

Lemma sorted_artifacts_iff s a : (exists sc, sc ∈ scopedArtifactsSorted s /\ sc_Artifact sc = a) <-> has_artifact s a.
Proof.
  unfold scopedArtifactsSorted, execution_artifacts, step_artifacts, has_artifact.
  setoid_rewrite elem_of_app. setoid_rewrite elem_of_flat_map. setoid_rewrite sorted_keys_elem. cbv zeta. split.
  - intros (sc & [Hin|(xid & [x Hx] & Hin)] & <-).
    { apply list_elem_of_fmap in Hin as (a & -> & Ha). by left. }
    right. exists xid, x. split; [done|]. rewrite lookup_total_alt, Hx in Hin. simpl in Hin.
    apply elem_of_app in Hin as [Hin|Hin].
    { apply list_elem_of_fmap in Hin as (a & -> & Ha). by left. }
    right. apply elem_of_flat_map in Hin as (sid & [e He]%sorted_keys_elem & Hin).
    rewrite lookup_total_alt, He in Hin. apply list_elem_of_fmap in Hin as (a & -> & Ha). by exists sid, e.
  - intros [Ha|(xid & x & Hx & Ha)].
    { eexists. split; [left; apply list_elem_of_fmap; by exists a|done]. }
    destruct Ha as [Ha|(sid & e & He & Ha)].
    + exists (mkScoped (t_ID (st_Task s)) xid emp a). split; [|done]. right. exists xid. split; [by exists x|].
      rewrite lookup_total_alt, Hx. apply elem_of_app. left. apply list_elem_of_fmap. by exists a.
    + exists (mkScoped (t_ID (st_Task s)) xid sid a). split; [|done]. right. exists xid. split; [by exists x|].
      rewrite lookup_total_alt, Hx. apply elem_of_app. right. apply elem_of_flat_map. exists sid.
      split; [apply sorted_keys_elem; by exists e|]. simpl. rewrite lookup_total_alt, He.
      apply list_elem_of_fmap. by exists a.
Qed.

Lemma artifact_satisfied_iff s o :
  artifactSatisfied o (scopedArtifactsSorted s) = true <-> exists a, has_artifact s a /\ delivers a o.
Proof.
  unfold artifactSatisfied. rewrite existsb_exists. setoid_rewrite orb_true_iff.
  setoid_rewrite andb_true_iff. setoid_rewrite bool_decide_eq_true. setoid_rewrite <- sorted_artifacts_iff. split.
  - intros (sc & Hin%list_elem_of_In & Hd). exists (sc_Artifact sc). split; [by exists sc|exact Hd].
  - intros (a & (sc & Hin & <-) & Hd). exists sc. split; [by apply list_elem_of_In|exact Hd].
Qed.

Lemma same_satisfied s o : artifactSatisfied o (scopedArtifactsSorted s) = scopedArtifactSatisfied o (scopedArtifacts s).
Proof. apply eq_true_iff_eq. by rewrite artifact_satisfied_iff, scoped_satisfied_iff. Qed.

(** What of a check does not depend on its wording. *)
Definition check_core (c : TaskCheck) : string * bool * string := (c_Code c, c_OK c, c_Target c).
Lemma same_output_checks s (l : list ArtifactSpec) :
  check_core <$> omap (output_check (scopedArtifactsSorted s)) l = check_core <$> omap (required_check (scopedArtifacts s)) l.
Proof.
  induction l as [|o l IH]; [done|]. cbn [omap list_omap]. unfold output_check, required_check.
  destruct (negb (a_Required o)); [exact IH|]. cbn [fmap list_fmap]. rewrite same_satisfied. f_equal. exact IH.
Qed.
Lemma checks_ok_core (l l' : list TaskCheck) : check_core <$> l = check_core <$> l' -> forallb c_OK l = forallb c_OK l'.
Proof.
  revert l'. induction l as [|c l IH]; intros [|c' l'] H; try done. cbn in H. injection H as _ Hc _ Hl.
  cbn [forallb]. by rewrite Hc, (IH l').
Qed.

Lemma completable_same s : v_Completable (validateState s) = v_Completable (validateCompletion s).
Proof. apply checks_ok_core. by rewrite !fmap_app, same_output_checks. Qed.

(** The two completion tests of the repository, that of the task operations and that of the
    scheduler, are equivalent though they collect artifacts in different orders and differ in
    their treatment of blank names: they find the same tasks ready and completable, and without
    acceptance criteria they list the same checks, with the same outcomes. *)
Theorem validators_agree s :
  v_Completable (validateState s) = v_Completable (validateCompletion s) /\
  v_Ready (validateState s) = v_Ready (validateCompletion s) /\
  (t_AcceptanceCriteria (st_Task s) = [] ->
   (fun c => (c_Code c, c_OK c, c_Target c)) <$> v_Checks (validateState s) =
   (fun c => (c_Code c, c_OK c, c_Target c)) <$> v_Checks (validateCompletion s)).
Proof.
  unfold validateState, validateCompletion. cbv zeta. cbn [v_Completable v_Ready v_Checks].
  set (outs := omap (output_check _) _). set (outs' := omap (required_check _) _).
  assert (Hc : check_core <$> outs = check_core <$> outs') by apply same_output_checks.
  set (steps := if decide (0 < length (t_Steps (st_Task s))) then _ else _).
  assert (Hcs : check_core <$> outs ++ steps = check_core <$> outs' ++ steps) by by rewrite !fmap_app, Hc.
  split; [by apply checks_ok_core|]. split; [done|]. intros Ha. rewrite Ha. rewrite (decide_False (P := 0 < length (@nil string))) by (simpl; lia).
  rewrite (app_nil_r steps).
  assert (Hl : length (outs ++ steps) = length (outs' ++ steps)) by (apply (f_equal length) in Hcs; by rewrite !length_fmap in Hcs).
  rewrite Hl. destruct (decide (length (outs' ++ steps) = 0)); [reflexivity|exact Hcs].
Qed.

(** ** Completing by hand *)

Section Complete.
Context {P : Type} (fuel : nat) (tid batchReason : string) (m : TaskModification) (s s' : State) (es : list TaskEvent).

(** A failed check is overridden by its code, given without surrounding blanks. *)
Definition overridden (overrides : list string) (c : TaskCheck) : Prop :=
  c_OK c = true \/ exists code, code ∈ overrides /\ TrimSpace code = c_Code c.

Lemma completion_allowed_spec v overrides :
  completionAllowed v overrides = true -> v_Completable v = true \/ Forall (overridden overrides) (v_Checks v).
Proof.
  unfold completionAllowed. destruct (v_Completable v); [by left|]. cbv zeta.
  destruct (forallb _ _) eqn:Ef; [|done]. intros _. right. apply Forall_forall. intros c Hc%list_elem_of_In.
  rewrite forallb_forall in Ef. specialize (Ef c Hc). apply orb_true_iff in Ef as [Ef|Ef]; [by left|right].
  apply bool_decide_eq_true in Ef. apply elem_of_list_to_set, list_elem_of_fmap in Ef as (code & Heq & Ho). by exists code.
Qed.

Lemma ok_pair {A B} (a a' : A) (b b' : B) : (Ok (a, b) : Result ModError (A * B)) = Ok (a', b') -> a = a' /\ b = b'.
Proof. by intros [= -> ->]. Qed.

(** C35: [complete] completes a task only after adding its artifacts, and only if then every required
    output is delivered and every step terminal, or the caller overrode every check that fails by
    its code. *)
Theorem complete_checked :
  may_return (P := P) sched_responds (mod_complete fuel tid batchReason m s) (Ok (s', es)) ->
  t_Status (st_Task s') = StatusCompleted /\
  exists s1 es1, edits tid s es1 s1 /\ es1 `prefix_of` es /\
    ((outputs_delivered s1 /\ (t_Steps (st_Task s1) <> [] -> AllStepsTerminal s1 = true)) \/
     Forall (overridden (m_ForceOverrides m)) (v_Checks (validateState s1))).
Proof.
  intros Hr. unfold mod_complete in Hr. apply may_return_bind in Hr as ([[s1 es1]|e] & Hc & Hr); [|done].
  apply (complete_artifacts_edits _ _ _ s) in Hc; [|constructor].
  destruct (completionAllowed _ _) eqn:Ea; [|done]. cbn [negb] in Hr.
  assert (Hdone : (outputs_delivered s1 /\ (t_Steps (st_Task s1) <> [] -> AllStepsTerminal s1 = true)) \/
     Forall (overridden (m_ForceOverrides m)) (v_Checks (validateState s1))).
  { apply completion_allowed_spec in Ea as [Ea|Ea]; [left|by right]. apply completable_iff.
    by rewrite <- completable_same. }
  case_decide as Hst.
  - apply may_return_bind in Hr as (r & (now & ->)%emit_returns & Hr).
    apply ok_pair in Hr as [-> ->]. split; [unfold Apply; rewrite cloneState_id; reflexivity|]. exists s1, es1.
    split; [exact Hc|]. split; [eexists; reflexivity|exact Hdone].
  - apply ok_pair in Hr as [-> ->]. split; [exact Hst|]. exists s1, es1.
    split; [exact Hc|]. split; [reflexivity|exact Hdone].
Qed.
End Complete.
End Validators.

(** Completing with one artifact that has a free identifier. *)
Lemma complete_one {P} {CF : CaseFold} fuel tid batchReason m s a status reason now1 now2 :
  artifactList m = [a] -> a_ID a <> emp -> validateArtifact a = Ok tt -> artifactIDExists s (a_ID a) = false ->
  let s1 := Apply s (ArtifactAdded tid emp emp a) now1 in
  completionAllowed (validateState s1) (m_ForceOverrides m) = true ->
  t_Status (st_Task s1) = status -> status <> StatusCompleted -> reason = first_nonblank [m_Reason m; batchReason] ->
  let e2 := StatusChanged tid status StatusCompleted reason in
  may_return (P := P) sched_responds (mod_complete fuel tid batchReason m s)
    (Ok (Apply s1 e2 now2, [ArtifactAdded tid emp emp a; e2])).
Proof.
  intros Hl Hid Hv Hfree s1 Hok Hst Hnc -> e2.
  assert (Ha : ensureArtifactID (P := P) fuel s a = Ret (Ok a)) by (destruct fuel; cbn [ensureArtifactID]; by rewrite decide_True).
  unfold mod_complete. apply may_return_seq with (Ok (s1, [ArtifactAdded tid emp emp a])).
  - rewrite Hl. cbn [complete_artifacts]. apply may_return_seq with (Ok (s1, [ArtifactAdded tid emp emp a])); [|reflexivity].
    unfold add_artifact. rewrite Hv, Hfree, andb_false_r, Ha. apply emit_intro.
  - cbv beta iota. rewrite Hok. cbn [negb]. rewrite Hst. rewrite decide_True by done.
    apply may_return_seq with (Ok (Apply s1 e2 now2, [e2])); [apply emit_intro|reflexivity].
Qed.

Module EditsDemo.
#[local] Existing Instance CompletionDemo.ascii_fold.
Definition report : ArtifactSpec := zero_Artifact <| a_ID := "report" |> <| a_Name := "report" |> <| a_Required := true |>.
Definition state : State :=
  Project [(Created "t1" (zero_Task <| t_ID := "t1" |> <| t_Title := "ship" |> <| t_Status := StatusReady |>
              <| t_Outputs := [report] |>), 1%Z)].
Definition finish : TaskModification :=
  zero_Modification <| m_Op := "complete" |> <| m_Artifacts := [report] |>.
Definition delivered : State := Apply state (ArtifactAdded "t1" emp emp report) 7%Z.
Definition finished : State := Apply delivered (StatusChanged "t1" StatusReady StatusCompleted emp) 8%Z.
Definition finish_events : list TaskEvent :=
  [ArtifactAdded "t1" emp emp report; StatusChanged "t1" StatusReady StatusCompleted emp].
Lemma finish_returns :
  may_return (P := TaskEvent) sched_responds (mod_complete 0 "t1" emp finish state) (Ok (finished, finish_events)).
Proof.
  apply (complete_one _ _ _ _ _ report).
  - reflexivity.
  - discriminate.
  - reflexivity.
  - vm_compute. reflexivity.
  - vm_compute. reflexivity.
  - vm_compute. reflexivity.
  - discriminate.
  - reflexivity.
Qed.
End EditsDemo.

#[local] Existing Instance CompletionDemo.ascii_fold.
Lemma complete_checked_witness :
  t_Status (st_Task EditsDemo.finished) = StatusCompleted /\
  exists s1 es1, edits "t1" EditsDemo.state es1 s1 /\ es1 `prefix_of` EditsDemo.finish_events /\
    ((outputs_delivered s1 /\ (t_Steps (st_Task s1) <> [] -> AllStepsTerminal s1 = true)) \/
     Forall (overridden []) (v_Checks (validateState s1))).
Proof.
  exact (complete_checked (P := TaskEvent) 0 "t1" emp EditsDemo.finish EditsDemo.state
    EditsDemo.finished EditsDemo.finish_events EditsDemo.finish_returns).
Defined.

Lemma validators_agree_witness :
  (fun c => (c_Code c, c_OK c, c_Target c)) <$> v_Checks (validateState EditsDemo.state) =
    [("required_output"%string, false, "report"%string)] /\
  (fun c => (c_Code c, c_OK c, c_Target c)) <$> v_Checks (validateCompletion EditsDemo.state) =
    [("required_output"%string, false, "report"%string)].
Proof.
  assert (H : (fun c => (c_Code c, c_OK c, c_Target c)) <$> v_Checks (validateState EditsDemo.state) =
    [("required_output"%string, false, "report"%string)]) by (vm_compute; reflexivity).
  split; [exact H|]. etransitivity; [|exact H]. symmetry.
  apply (validators_agree EditsDemo.state). reflexivity.
Defined.
