(* ===== verification/Protocol.v ===== *)
(** * The protocol of a task stream

    The abstract state machine the schedulers implement together: which batches of events may be
    appended to a task stream, given the state projected from the stream so far ([allowed]). Every
    scheduler program appends only such batches, under every interleaving with any number of other
    scheduler programs; the properties of the protocol then hold of the streams. *)

From S2P Require Import Prelude Event MemStore Operation Graph Task TaskProject Prog TaskStore.
From S2P Require Import SchedLocal Completion WorkerText Scheduler.

(** ** Allowed batches *)

Definition is_cancel (xid : string) (e : TaskEvent) : Prop :=
  match e with StepCancelled _ xid' _ _ => xid' = xid | _ => False end.
Definition is_artifact (xid sid : string) (e : TaskEvent) : Prop :=
  match e with ArtifactAdded _ xid' sid' _ => xid' = xid /\ sid' = sid | _ => False end.
Definition is_requeue (x : Execution) (e : TaskEvent) : Prop :=
  match e with
  | StepStatusChanged _ xid sid _ current _ _ =>
      xid = x_ID x /\ current = StepStatusWaiting /\
      (step_status x sid = StepStatusRunning \/ step_status x sid = StepStatusBlocked)
  | _ => False
  end.

(** How a claimed execution starts: resumed with the steps it was interrupted with, or new. *)
Definition starts (s : State) (x : Execution) : Prop :=
  (exists y, current_execution s = Some y /\ x_Status y = StatusInterrupted /\ st_Current s <> emp /\
     x_ID x = x_ID y /\ x_Steps x = x_Steps y) \/
  (resumableExecution s = false /\ executionActive s = false /\ x_ID x <> emp /\ x_Steps x = ∅).

Inductive allowed (s : State) : list TaskEvent -> Prop :=
| allowed_start tid x :
    t_Status (st_Task s) = StatusReady -> x_Status x = StatusRunning -> starts s x ->
    allowed s [ExecutionStarted tid (x_ID x) x]
| allowed_dispatch tid xid sid title assignee profile external x :
    running_execution s xid = Some x -> step_status x sid = StepStatusWaiting ->
    allowed s [StepDispatched tid xid sid title assignee profile external]
| allowed_step_completed tid xid sid artifacts output x :
    running_execution s xid = Some x -> step_status x sid = StepStatusRunning ->
    Forall (is_artifact xid sid) artifacts -> allowed s (artifacts ++ [StepCompleted tid xid sid output])
| allowed_step_failed tid xid sid error x :
    running_execution s xid = Some x -> step_status x sid = StepStatusRunning ->
    allowed s [StepFailed tid xid sid error]
| allowed_artifacts xid artifacts x :
    running_execution s xid = Some x -> Forall (is_artifact xid emp) artifacts -> allowed s artifacts
| allowed_cancels xid cancels x :
    running_execution s xid = Some x -> Forall (is_cancel xid) cancels -> allowed s cancels
| allowed_completed tid xid output x :
    running_execution s xid = Some x -> allowed s [ExecutionCompleted tid xid output]
| allowed_failed tid xid error x :
    running_execution s xid = Some x -> allowed s [ExecutionFailed tid xid error]
| allowed_renewed tid xid wid lid expires x :
    running_execution s xid = Some x -> (x_WorkerID x = emp \/ x_WorkerID x = wid) -> lid = x_LeaseID x -> lid <> emp ->
    allowed s [ExecutionLeaseRenewed tid xid wid lid expires]
| allowed_block tid xid reason x :
    running_execution s xid = Some x -> allowed s (blocked_events tid xid reason)
| allowed_block_step tid xid sid reason x :
    running_execution s xid = Some x -> step_status x sid = StepStatusWaiting ->
    allowed s (StepStatusChanged tid xid sid emp StepStatusBlocked reason VNil :: blocked_events tid xid reason)
| allowed_requeue tid xid requeues reason1 reason2 d x :
    running_execution s xid = Some x -> Forall (is_requeue x) requeues ->
    allowed s (requeues ++ [ExecutionInterrupted tid (x_ID x) reason1;
                            StatusChanged tid StatusRunning StatusReady reason2;
                            SchedulerDiagnostic tid (x_ID x) emp d])
| allowed_interrupt tid xid reason1 reason2 d x :
    running_execution s xid = Some x ->
    allowed s [ExecutionInterrupted tid (x_ID x) reason1;
               StatusChanged tid StatusRunning StatusInterrupted reason2;
               SchedulerDiagnostic tid (x_ID x) emp d]
| allowed_diagnostic tid xid sid d :
    allowed s [SchedulerDiagnostic tid xid sid d].

Definition is_diagnostic_batch (l : list TaskEvent) : Prop :=
  exists tid xid sid d, l = [SchedulerDiagnostic tid xid sid d].

Section Guard.
Context {P : Type} {TP : TaskPayload P} {TL : TaskPayloadLaws P}.

(** Every append to a task stream follows the protocol at the exact point it was made. *)
Definition guard (e : Entry P) : Prop :=
  forall tid, tid <> emp -> en_stream e = StreamID tid ->
    allowed (Project (task_view (en_before e))) (events_of (en_out e)).

Lemma guard_index i b o : guard (mkEntry i IndexStreamID b o).
Proof. intros tid _ Hst. by destruct (StreamID_index tid). Qed.
Lemma guard_workers i b o : guard (mkEntry i WorkerStreamID b o).
Proof. intros tid _ Hst. by destruct (StreamID_workers tid). Qed.
Lemma guard_allowed i tid b o :
  allowed (Project (task_view b)) (events_of o) -> guard (mkEntry i (StreamID tid) b o).
Proof. by intros Ha tid' _ _. Qed.

(** Who else writes: the appends a system admits include those of the protocol. *)
Class Admission := { admits : Entry P -> Prop; guard_admits e : guard e -> admits e }.
End Guard.
Arguments Admission P {TP}.
(** Schedulers alone. *)
#[export] Instance schedulers_only {P} {TP : TaskPayload P} : Admission P :=
  { admits := guard; guard_admits e H := H }.

Section Obey.
Context {P : Type} {TP : TaskPayload P} {TL : TaskPayloadLaws P}.
Context {TX : ErrorTexts} {CF : CaseFold} {VJ : ValueJson}.
Context {S : Type} {ES : EventStore S P} {Laws : EventStoreLaws S P}.
Context {AD : Admission P} (self : Sched) (v0 : string -> list (StoredRecord P)) (i : nat).
Abbreviation Act := (Prog P SchedEff).
Abbreviation W := (World P S).
Abbreviation wpi := (wp sched_responds v0 admits i).
Abbreviation laterg := (later v0 admits i).
Implicit Types (w : W).

(** ** Programs by what they add to task streams *)

Definition quiet w w1 : Prop := grows v0 w w1 /\ forall tid, added i (StreamID tid) w w1 = [].
(** No append at all; appends to other streams only; diagnostics only. *)
Definition silent {A} (p : Act A) : Prop :=
  forall w (Q : A -> W -> Prop), world_ok v0 w -> (forall a w1, laterg w w1 -> Q a w1) -> wpi p Q w.
Definition calm {A} (p : Act A) : Prop :=
  forall w (Q : A -> W -> Prop), world_ok v0 w -> (forall a w1, quiet w w1 -> Q a w1) -> wpi p Q w.
Definition noisy w w1 : Prop :=
  grows v0 w w1 /\ forall tid, Forall (fun e => is_diagnostic_batch (events_of (en_out e))) (added i (StreamID tid) w w1).
(** Anything the protocol allows. *)
Definition obeys {A} (p : Act A) : Prop :=
  forall w (Q : A -> W -> Prop), world_ok v0 w -> (forall a w1, grows v0 w w1 -> Q a w1) -> wpi p Q w.

Lemma later_quiet w w1 : laterg w w1 -> quiet w w1.
Proof. intros Hl. split; [by eapply later_grows|]. intros tid. by eapply added_later. Qed.
Lemma quiet_refl w : world_ok v0 w -> quiet w w.
Proof. intros Hw. by apply later_quiet, later_refl. Qed.
Lemma quiet_trans w1 w2 w3 : quiet w1 w2 -> quiet w2 w3 -> quiet w1 w3.
Proof.
  intros [Hg1 H1] [Hg2 H2]. split; [by eapply grows_trans|]. intros tid.
  by rewrite (added_trans v0 i _ _ w2), H1, H2.
Qed.
Lemma quiet_noisy w w1 : quiet w w1 -> noisy w w1.
Proof. intros [Hg H]. split; [done|]. intros tid. rewrite H. constructor. Qed.
Lemma noisy_trans w1 w2 w3 : noisy w1 w2 -> noisy w2 w3 -> noisy w1 w3.
Proof.
  intros [Hg1 H1] [Hg2 H2]. split; [by eapply grows_trans|]. intros tid.
  rewrite (added_trans v0 i _ _ w2) by done. apply Forall_app. done.
Qed.
Lemma grows_ok w w1 : grows v0 w w1 -> world_ok v0 w1.
Proof. by intros [? _]. Qed.

Lemma silent_ret {A} (a : A) : silent (Ret a).
Proof. intros w Q Hw HQ. by apply HQ, later_refl. Qed.
Lemma silent_effect {X} (o : SchedEff X) : silent (effect o).
Proof. intros w Q Hw HQ x w1 Hl _. by apply HQ. Qed.
Lemma silent_bind {A B} (p : Act A) (k : A -> Act B) :
  silent p -> (forall a, silent (k a)) -> silent (bind p k).
Proof.
  intros Hp Hk w Q Hw HQ. apply wp_bind, Hp; [done|]. intros a w1 Hl.
  apply Hk; [by apply Hl|]. intros b w2 Hl2. apply HQ. by eapply later_trans.
Qed.
Lemma silent_calm {A} (p : Act A) : silent p -> calm p.
Proof. intros Hp w Q Hw HQ. apply Hp; [done|]. intros a w1 Hl. by apply HQ, later_quiet. Qed.
Lemma calm_bind {A B} (p : Act A) (k : A -> Act B) : calm p -> (forall a, calm (k a)) -> calm (bind p k).
Proof.
  intros Hp Hk w Q Hw HQ. apply wp_bind, Hp; [done|]. intros a w1 Hq.
  apply Hk; [by eapply grows_ok, Hq|]. intros b w2 Hq2. apply HQ. by eapply quiet_trans.
Qed.
Lemma calm_obeys {A} (p : Act A) : calm p -> obeys p.
Proof. intros Hp w Q Hw HQ. apply Hp; [done|]. intros a w1 [Hg _]. by apply HQ. Qed.
Lemma obeys_bind {A B} (p : Act A) (k : A -> Act B) : obeys p -> (forall a, obeys (k a)) -> obeys (bind p k).
Proof.
  intros Hp Hk w Q Hw HQ. apply wp_bind, Hp; [done|]. intros a w1 Hg.
  apply Hk; [by eapply grows_ok|]. intros b w2 Hg2. apply HQ. by eapply grows_trans.
Qed.
Lemma obeys_ret {A} (a : A) : obeys (Ret a).
Proof. apply calm_obeys, silent_calm, silent_ret. Qed.
Lemma obeys_effect {X} (o : SchedEff X) : obeys (effect o).
Proof. apply calm_obeys, silent_calm, silent_effect. Qed.

Lemma silent_each {A} (f : A -> Act unit) l : (forall a, silent (f a)) -> silent (each f l).
Proof. intros Hf. induction l as [|a l IH]; simpl; [apply silent_ret|]. by apply silent_bind. Qed.
Lemma silent_record code message : silent (record_error (P := P) code message).
Proof. apply silent_bind; [apply silent_effect|intros; apply silent_effect]. Qed.
Lemma silent_publish t events : silent (publishTaskRuntimeEvents (P := P) t events).
Proof.
  unfold publishTaskRuntimeEvents. destruct events; [apply silent_ret|].
  destruct (taskRuntimeDestinations t); [apply silent_ret|].
  apply silent_bind; [apply silent_effect|]. intros b. destruct (negb b); [apply silent_ret|].
  apply silent_each. intros e. apply silent_each. intros d'. apply silent_bind; [apply silent_effect|].
  intros [m|]; [apply silent_record|apply silent_ret].
Qed.

(** Appending to a stream of another kind. *)
Lemma appended_quiet w w1 w2 st out :
  laterg w w1 -> appended v0 i w1 w2 st out -> (forall tid, StreamID tid <> st) -> quiet w w2.
Proof.
  intros Hl [Hw2 Hlog] Hst. apply quiet_trans with w1; [by apply later_quiet|].
  split; [split; [done|by eexists]|]. intros tid. rewrite (added_entry i _ _ _ _ Hlog), decide_False; [done|].
  simpl. intros [_ H]. by apply (Hst tid).
Qed.
Lemma calm_Index bg summary : calm (Index bg summary).
Proof.
  intros w Q Hw HQ. apply wp_Index; [done| |].
  - intros w1 w2 out Hl Ha. split; [apply guard_admits, guard_index|]. apply HQ. eapply appended_quiet; [done..|].
    apply StreamID_index.
  - intros w1 e Hl. by apply HQ, later_quiet.
Qed.
Lemma calm_TaskProject bg tid : calm (TaskProject bg tid).
Proof.
  intros w Q Hw HQ. apply wp_TaskProject; [done|..]; intros; by apply HQ, later_quiet.
Qed.
Lemma calm_index bg tid : calm (index bg tid).
Proof.
  apply calm_bind; [apply calm_TaskProject|]. intros [s|e]; [apply calm_Index|apply silent_calm, silent_ret].
Qed.
Lemma calm_RegisterWorker worker : calm (RegisterWorker worker).
Proof.
  intros w Q Hw HQ. unfold RegisterWorker. case_decide; [by apply HQ, quiet_refl|].
  simpl. intros env w1 Hl _. destruct (Append _ _ _ _ _) as [s' [out|e]].
  - intros Hw2. split; [apply guard_admits, guard_workers|]. apply HQ. eapply appended_quiet; [done|by split|].
    apply StreamID_workers.
  - intros _. by apply HQ, later_quiet.
Qed.
Lemma calm_ListWorkers bg : calm (ListWorkers bg).
Proof. intros w Q Hw HQ c w1 Hl _. by apply HQ, later_quiet. Qed.
Lemma calm_TaskList bg : calm (TaskList bg).
Proof. intros w Q Hw HQ c w1 Hl _. by apply HQ, later_quiet. Qed.

Lemma appended_added w w1 w2 tid out :
  laterg w w1 -> appended v0 i w1 w2 (StreamID tid) out ->
  grows v0 w w2 /\ added i (StreamID tid) w w2 = [mkEntry i (StreamID tid) (task_stream w1 tid) out] /\
  forall tid', StreamID tid' <> StreamID tid -> added i (StreamID tid') w w2 = [].
Proof.
  intros Hl [Hw2 Hlog]. assert (Hg : grows v0 w1 w2) by (split; [done|by eexists]).
  pose proof (later_grows _ _ _ _ _ Hl) as Hg1.
  assert (Ha : forall st, added i st w w2 = if decide (i = i /\ StreamID tid = st)
     then [mkEntry i (StreamID tid) (task_stream w1 tid) out] else []).
  { intros st. rewrite (added_trans v0 i st w w1 w2) by done. rewrite (added_later _ _ _ _ _ _ Hl).
    by rewrite (added_entry i st _ _ _ Hlog). }
  split; [by eapply grows_trans|]. split.
  - by rewrite Ha, decide_True by done.
  - intros tid' Hne. rewrite Ha, decide_False; [done|]. naive_solver.
Qed.

Lemma wp_diagnostic taskID execID stepID code message w (Q : unit -> W -> Prop) :
  world_ok v0 w -> (forall w1, noisy w w1 -> Q tt w1) ->
  wpi (appendSchedulerDiagnostic taskID execID stepID code message) Q w.
Proof.
  intros Hw HQ. unfold appendSchedulerDiagnostic.
  case_decide as Hskip; [by apply HQ, quiet_noisy, quiet_refl|]. apply wp_bind.
  apply wp_TaskAppend; [done|done| |].
  - intros w1 w2 out Hl Hout Ha. split.
    { apply guard_admits, guard_allowed. rewrite Hout. constructor. }
    destruct (appended_added _ _ _ _ _ Hl Ha) as (Hg & Hadd & Hother).
    assert (Hn : noisy w w2).
    { split; [done|]. intros tid. destruct (decide (StreamID tid = StreamID taskID)) as [->|Hne].
      - rewrite Hadd. apply Forall_singleton. simpl. rewrite Hout. by do 4 eexists.
      - rewrite Hother by done. constructor. }
    assert (Hw2 : world_ok v0 w2) by (by eapply grows_ok).
    apply wp_bind, calm_index; [done|]. intros r w3 Hq3. apply wp_bind.
    assert (Hr : silent (match r with
       | Err e => record_error (P := P) "task_scheduler_diagnostic_index_failed" (ts_text e) | Ok _ => Ret tt end)).
    { destruct r; [apply silent_ret|apply silent_record]. }
    apply Hr; [by eapply grows_ok, Hq3|]. intros [] w4 Hl4. apply wp_bind, calm_TaskProject; [by apply Hl4|].
    intros r' w5 Hq5.
    assert (Hn5 : noisy w w5).
    { eapply noisy_trans; [exact Hn|]. apply quiet_noisy. eapply quiet_trans; [exact Hq3|].
      eapply quiet_trans; [by apply later_quiet|done]. }
    destruct r' as [s|e]; [apply silent_publish|apply silent_record]; try (by eapply grows_ok, Hq5);
      intros [] w6 Hl6; apply HQ; (eapply noisy_trans; [exact Hn5|by apply quiet_noisy, later_quiet]).
  - intros w1 e Hl. apply silent_record; [by apply Hl|]. intros [] w2 Hl2.
    apply HQ, quiet_noisy, later_quiet. by eapply later_trans.
Qed.
Lemma obeys_diagnostic taskID execID stepID code message :
  obeys (appendSchedulerDiagnostic taskID execID stepID code message).
Proof. intros w Q Hw HQ. apply wp_diagnostic; [done|]. intros w1 [Hg _]. by apply HQ. Qed.
End Obey.

Section Retry.
Context {P : Type} {TP : TaskPayload P} {TL : TaskPayloadLaws P}.
Context {TX : ErrorTexts} {CF : CaseFold} {VJ : ValueJson}.
Context {S : Type} {ES : EventStore S P} {Laws : EventStoreLaws S P}.
Context {AD : Admission P} (self : Sched) (v0 : string -> list (StoredRecord P)) (i : nat).
Abbreviation Act := (Prog P SchedEff).
Abbreviation W := (World P S).
Abbreviation wpi := (wp sched_responds v0 admits i).
Abbreviation laterg := (later v0 admits i).
Implicit Types (w : W).

(** [B s events]: what the builder may answer on the state [s]; it makes no append itself. *)
Definition builds (build : State -> Act (bool * list TaskEvent)) (B : State -> list TaskEvent -> Prop) : Prop :=
  forall s w (Q : bool * list TaskEvent -> W -> Prop), world_ok v0 w ->
    (forall r w1, laterg w w1 -> (r.1 = true -> B s r.2) -> Q r w1) -> wpi (build s) Q w.

Definition one_entry (B : State -> list TaskEvent -> Prop) tid w w1 : Prop :=
  exists e, added i (StreamID tid) w w1 = [e] /\
    B (Project (task_view (en_before e))) (events_of (en_out e)).

(** What a call promises, by its result. *)
Definition retry_post (B : State -> list TaskEvent -> Prop) tid w (r : Result SError bool) w1 : Prop :=
  grows v0 w w1 /\
  match r with
  | Ok true => one_entry B tid w w1
  | Ok false => added i (StreamID tid) w w1 = []
  | Err (SErrConflict _) =>
      Forall (fun e => is_diagnostic_batch (events_of (en_out e))) (added i (StreamID tid) w w1)
  | Err _ => added i (StreamID tid) w w1 = [] \/ one_entry B tid w w1
  end.

Lemma retry_post_later B tid w w1 r w2 : laterg w w1 -> retry_post B tid w1 r w2 -> retry_post B tid w r w2.
Proof.
  intros Hl [Hg Hr]. pose proof (later_grows _ _ _ _ _ Hl) as Hg1. split; [by eapply grows_trans|].
  unfold one_entry in *. rewrite !(added_trans v0 i _ w w1 w2) by done.
  by rewrite (added_later _ _ _ _ _ _ Hl).
Qed.

Lemma retry_post_quiet_err B tid w w1 e :
  laterg w w1 -> retry_post B tid w (Err e) w1.
Proof.
  intros Hl. pose proof (later_grows _ _ _ _ _ Hl) as Hg. pose proof (added_later v0 admits i (StreamID tid) _ _ Hl) as Ha.
  split; [done|]. destruct e; try (by left). rewrite Ha. constructor.
Qed.

Lemma one_entry_quiet B tid w w1 w2 :
  one_entry B tid w w1 -> grows v0 w w1 -> quiet v0 i w1 w2 -> one_entry B tid w w2.
Proof.
  intros (e & Ha & HB) Hg [Hg2 Hq]. exists e. split; [|done].
  by rewrite (added_trans v0 i _ w w1 w2), Ha, Hq by done.
Qed.

Section Loop.
Context (tid : string) (build : State -> Act (bool * list TaskEvent)) (B : State -> list TaskEvent -> Prop).
Hypothesis build_B : builds build B.
Hypothesis B_allowed : forall s events, B s events -> allowed s events.

(** The rounds from the moment the stream was read, given what follows a conflict. *)
Lemma wp_retry_round attempt rest w v (Q : Result SError bool -> W -> Prop) :
  world_ok v0 w -> snapshot w tid v -> tid <> emp ->
  (forall w1 e, laterg w w1 -> wpi (rest e) Q w1) ->
  (forall r w1, retry_post B tid w r w1 -> Q r w1) ->
  wpi (let! (ok, events) := build (Project (task_view v)) in
       if negb ok || (length events =? 0) then Ret (Ok false) else
       let! r := AppendExpected tid (Z.of_nat (length v)) (payloads events) in
       match r with
       | Err e =>
           if ts_conflict e then
             let! c := effect (ESleep attempt) in
             match c with
             | Some m => Ret (Err (SErrCtx m))
             | None => rest e
             end
           else Ret (Err (SErrStore e))
       | Ok _ =>
           let! r := index false tid in
           match r with
           | Err e => Ret (Err (SErrStore e))
           | Ok _ =>
               let! _ := publishTaskRuntimeEvents (st_Task (Project (task_view v))) events in
               Ret (Ok true)
           end
       end) Q w.
Proof using TL build_B B_allowed.
  intros Hw Hsnap Htid Hrest HQ. apply wp_bind, build_B; [done|]. intros [ok events] w1 Hl HB.
  destruct (negb ok || (length events =? 0)) eqn:Eg.
  { apply HQ. split; [by eapply later_grows|]. by eapply added_later. }
  apply orb_false_iff in Eg as [Hok%negb_false_iff Hne%Nat.eqb_neq]. cbv iota. cbn [fst snd] in HB.
  assert (Hw1 : world_ok v0 w1) by apply Hl.
  apply wp_bind, (wp_AppendExpected _ _ _ _ _ v); [done|by apply (snapshot_later v0 admits i w)|by destruct events| |].
  - intros w2 w3 out Hl2 Hv Hout Ha. subst events v.
    assert (Hlw2 : laterg w w2) by (by eapply later_trans).
    destruct (appended_added v0 i _ _ _ _ _ Hlw2 Ha) as (Hg & Hadd & _).
    assert (Hone : one_entry B tid w w3) by (eexists; split; [exact Hadd|by apply HB]).
    split; [by apply guard_admits, guard_allowed, B_allowed, HB|].
    apply wp_bind, (calm_index v0 i); [by eapply grows_ok|]. intros [u|e] w4 Hq4.
    + apply wp_bind, (silent_publish v0 i); [by eapply grows_ok, Hq4|]. intros [] w5 Hl5.
      assert (Hq5 : quiet v0 i w3 w5) by (eapply quiet_trans; [exact Hq4|by apply later_quiet]).
      apply HQ. split; [by eapply grows_trans, Hq5|]. by eapply one_entry_quiet.
    + apply HQ. split; [by eapply grows_trans, Hq4|]. right. by eapply one_entry_quiet.
  - intros w2 e Hl2. assert (Hlw2 : laterg w w2) by (by eapply later_trans).
    destruct (ts_conflict e); [|by apply HQ, retry_post_quiet_err].
    apply wp_bind, (silent_effect v0 i); [by apply Hl2|]. intros [m|] w3 Hl3.
    + apply HQ, retry_post_quiet_err. by eapply later_trans.
    + apply Hrest. by eapply later_trans.
Qed.

Lemma wp_retry_loop rounds attempt last w (Q : Result SError bool -> W -> Prop) :
  world_ok v0 w -> (forall r w1, retry_post B tid w r w1 -> Q r w1) ->
  wpi (retry_loop tid build rounds attempt last) Q w.
Proof using TL build_B B_allowed.
  revert attempt last w. induction rounds as [|rounds IH]; intros attempt last w Hw HQ; cbn [retry_loop].
  - destruct last as [e|].
    + apply wp_bind, (wp_diagnostic v0 i); [done|]. intros w1 [Hg Hn]. apply HQ. by split.
    + apply HQ. split; [by apply grows_refl|apply added_refl].
  - apply wp_bind, (silent_effect v0 i); [done|]. intros [m|] w1 Hl1; [by apply HQ, retry_post_quiet_err|].
    apply wp_bind, (wp_ProjectWithSequence _ _ _ _); [by apply Hl1| |].
    + intros w2 Hl2 Htid. assert (Hlw2 : laterg w w2) by (by eapply later_trans).
      apply wp_retry_round; [by apply Hl2|exists []; by rewrite app_nil_r|done| |].
      * intros w3 e Hl3. apply IH; [by apply Hl3|]. intros r w4 Hp. apply HQ.
        eapply retry_post_later; [|exact Hp]. by eapply later_trans.
      * intros r w3 Hp. apply HQ. by eapply retry_post_later.
    + intros w2 e Hl2. apply HQ, retry_post_quiet_err. by eapply later_trans.
Qed.
End Loop.

Lemma wp_retry tid build B w (Q : Result SError bool -> W -> Prop) :
  builds build B -> (forall s events, B s events -> allowed s events) ->
  world_ok v0 w -> (forall r w1, retry_post B tid w r w1 -> Q r w1) ->
  wpi (withExpectedRetry tid build) Q w.
Proof. intros. by eapply wp_retry_loop. Qed.

Lemma obeys_retry tid build B :
  builds build B -> (forall s events, B s events -> allowed s events) ->
  obeys v0 i (withExpectedRetry tid build).
Proof. intros HB Ha w Q Hw HQ. eapply wp_retry; [done..|]. intros r w1 [Hg _]. by apply HQ. Qed.

(** A builder without effects. *)
Lemma builds_pure (f : State -> bool * list TaskEvent) (B : State -> list TaskEvent -> Prop) :
  (forall s, (f s).1 = true -> B s (f s).2) -> builds (fun s => Ret (f s)) B.
Proof. intros Hf s w Q Hw HQ. apply HQ; [by apply later_refl|apply Hf]. Qed.
End Retry.

(** ** Automation

    [obey] walks down a program: a bind is split, a test is taken both ways, and what remains is
    one of the programs known to obey. *)

Create HintDb protocol.
#[export] Hint Resolve obeys_ret obeys_effect obeys_diagnostic : protocol.
Lemma obeys_record {P S} {TP : TaskPayload P} {TL : TaskPayloadLaws P} {ES : EventStore S P} {Laws : EventStoreLaws S P}
    {AD : Admission P} (v0 : string -> list (StoredRecord P)) i code m : obeys (S := S) v0 i (record_error code m).
Proof. apply calm_obeys, silent_calm, silent_record. Qed.
Lemma obeys_TaskProject {P S} {TP : TaskPayload P} {TL : TaskPayloadLaws P} {ES : EventStore S P} {Laws : EventStoreLaws S P}
    {AD : Admission P} (v0 : string -> list (StoredRecord P)) i bg tid : obeys (S := S) v0 i (TaskProject bg tid).
Proof. apply calm_obeys, calm_TaskProject. Qed.
Lemma obeys_TaskList {P S} {TP : TaskPayload P} {TL : TaskPayloadLaws P} {ES : EventStore S P} {Laws : EventStoreLaws S P}
    {AD : Admission P} (v0 : string -> list (StoredRecord P)) i bg : obeys (S := S) v0 i (TaskList bg).
Proof. apply calm_obeys, calm_TaskList. Qed.
Lemma obeys_ListWorkers {P S} {TP : TaskPayload P} {TL : TaskPayloadLaws P} {ES : EventStore S P} {Laws : EventStoreLaws S P}
    {AD : Admission P} (v0 : string -> list (StoredRecord P)) i bg : obeys (S := S) v0 i (ListWorkers bg).
Proof. apply calm_obeys, calm_ListWorkers. Qed.
#[export] Hint Resolve obeys_record obeys_TaskProject obeys_TaskList obeys_ListWorkers : protocol.

Ltac obey :=
  cbv zeta;
  match goal with
  | |- obeys _ _ (bind _ _) => apply obeys_bind; [obey|intros; obey]
  | |- obeys _ _ (if ?b then _ else _) => destruct b; obey
  | |- obeys _ _ (match ?x with _ => _ end) => destruct x eqn:?; obey
  | |- _ => solve [eauto with protocol]
  end.

(** ** Every scheduler program obeys the protocol *)

Lemma running_execution_iff s xid x :
  running_execution s xid = Some x <->
  st_Executions s !! xid = Some x /\ t_Status (st_Task s) = StatusRunning /\ st_Current s = xid /\
  x_Status x = StatusRunning.
Proof.
  unfold running_execution. destruct (st_Executions s !! xid) as [y|]; [|naive_solver].
  case_decide; naive_solver.
Qed.

Lemma artifact_events_are tid xid sid l : Forall (is_artifact xid sid) (artifactEvents tid xid sid l).
Proof.
  apply Forall_forall. intros e (a & _ & Ha)%list_elem_of_omap. case_decide; [done|]. by simplify_eq/=.
Qed.
Lemma cancel_events_are before after reason :
  Forall (is_cancel (st_Current after)) (cancel_events before after reason).
Proof.
  apply Forall_forall. intros e (st & _ & Ha)%list_elem_of_omap. case_decide; [|done]. by simplify_eq/=.
Qed.
Lemma retry_events_are tid x : Forall (is_requeue x) (retryStepEvents tid (x_ID x) x).
Proof.
  apply Forall_forall. intros e ([sid se] & Hp%elem_of_map_to_list & Ha)%list_elem_of_omap.
  case_decide as Hst; [|done]. simplify_eq/=. split; [done|]. split; [done|].
  unfold step_status. by rewrite lookup_total_alt, Hp.
Qed.

Section Schedulers.
Context {P : Type} {TP : TaskPayload P} {TL : TaskPayloadLaws P}.
Context {TX : ErrorTexts} {CF : CaseFold} {VJ : ValueJson}.
Context {S : Type} {ES : EventStore S P} {Laws : EventStoreLaws S P}.
Context {AD : Admission P} (self : Sched) (v0 : string -> list (StoredRecord P)) (i : nat).
Abbreviation Act := (Prog P SchedEff).
Abbreviation obeysp := (obeys (S := S) v0 i).
Abbreviation buildsp := (builds (S := S) v0 i).

(** A builder that answers with an allowed batch. *)
Lemma obeys_pure tid (f : State -> bool * list TaskEvent) :
  (forall s, (f s).1 = true -> allowed s (f s).2) -> obeysp (withExpectedRetry tid (fun s => Ret (f s))).
Proof. intros Hf. by eapply obeys_retry; [by apply builds_pure|]. Qed.

Lemma obeys_each_or_stale r taskID execID stepID code message :
  obeysp (or_stale r taskID execID stepID code message).
Proof.
  unfold or_stale. destruct r as [[]|e]; [apply obeys_ret| |apply obeys_ret].
  apply obeys_bind; [apply obeys_diagnostic|intros; apply obeys_ret].
Qed.

Lemma obeys_dispatch tid xid sid tid' title assignee profile external :
  obeysp (appendStepDispatch tid xid sid (StepDispatched tid' xid sid title assignee profile external)).
Proof.
  apply obeys_pure. intros s. destruct (running_execution s xid) eqn:E; [|done]. case_decide; [|done].
  intros _. by eapply allowed_dispatch.
Qed.

Lemma obeys_step_terminal tid xid sid events :
  (forall s x, running_execution s xid = Some x -> step_status x sid = StepStatusRunning -> allowed s events) ->
  obeysp (appendStepTerminal tid xid sid events).
Proof.
  intros Ha. apply obeys_bind; [|intros; apply obeys_each_or_stale].
  apply obeys_pure. intros s. destruct (running_execution s xid) eqn:E; [|done]. case_decide; [|done].
  intros _. by eapply Ha.
Qed.

Lemma obeys_while_running tid xid events :
  (forall s x, running_execution s xid = Some x -> allowed s events) ->
  obeysp (withExpectedRetry tid (build_while_running xid events)).
Proof.
  intros Ha. apply obeys_pure. intros s. destruct (running_execution s xid) eqn:E; [|done].
  intros _. by eapply Ha.
Qed.

Lemma obeys_execution_terminal tid xid events :
  (forall s x, running_execution s xid = Some x -> allowed s events) ->
  obeysp (appendExecutionTerminal tid xid events).
Proof.
  intros Ha. apply obeys_bind; [by apply obeys_while_running|intros; apply obeys_each_or_stale].
Qed.

Lemma obeys_cancel state reason : obeysp (cancelWaitingDependents state reason).
Proof.
  apply obeys_bind; [apply obeys_effect|]. intros now.
  destruct (CancelWaitingDependents state reason now) as [after|]; [|apply obeys_ret].
  pose proof (cancel_events_are state after reason) as Hc.
  destruct (cancel_events state after reason) as [|e l] eqn:E; [apply obeys_ret|]. rewrite <- E in *.
  apply obeys_bind; [|intros; apply obeys_ret]. apply obeys_pure. intros s. case_decide as Hg; [|done]. intros _.
  destruct Hg as (Hs & Hcur & Hx). unfold current_execution in Hx.
  destruct (st_Executions s !! st_Current s) as [x|] eqn:Ex; [|done].
  apply allowed_cancels with (st_Current after) x; [|done].
  apply running_execution_iff. by rewrite <- Hcur.
Qed.

Lemma obeys_blockStep tid xid sid reason : obeysp (blockStep tid xid sid reason).
Proof.
  apply obeys_bind; [|intros; apply obeys_ret]. apply obeys_pure. intros s.
  destruct (running_execution s xid) eqn:E; [|done]. case_decide; [|done]. intros _. by eapply allowed_block_step.
Qed.
Lemma obeys_blockTask tid xid reason : obeysp (blockTask tid xid reason).
Proof.
  apply obeys_bind; [|intros; apply obeys_ret]. apply obeys_while_running. intros s x Hx. by eapply allowed_block.
Qed.

Lemma obeys_registerWorker : obeysp registerWorker.
Proof.
  apply obeys_bind; [apply obeys_effect|]. intros now. apply obeys_bind; [apply obeys_effect|]. intros status.
  apply calm_obeys, calm_RegisterWorker.
Qed.

Lemma obeys_renew tid xid : obeysp (renewExecutionLease self tid xid).
Proof.
  apply obeys_bind; [|intros; apply obeys_ret]. apply (obeys_retry _ _ _ _ allowed); [|done].
  intros s w Q Hw HQ. unfold build_renew.
  destruct (running_execution s xid) as [x|] eqn:E; [|by apply HQ; [apply later_refl|]].
  case_decide as Hwid; [by apply HQ; [apply later_refl|]|].
  case_decide as Hlid; [by apply HQ; [apply later_refl|]|].
  intros now w1 Hl _. apply HQ; [done|]. intros _. eapply allowed_renewed; [done| |done|done].
  destruct (decide (x_WorkerID x = emp)); [by left|right]. destruct (decide (x_WorkerID x = sd_workerID self)); naive_solver.
Qed.

Lemma obeys_reconcile tid : obeysp (reconcileRecoverableExecution self tid).
Proof.
  apply obeys_bind; [apply obeys_effect|]. intros [|]; [apply obeys_ret|].
  apply obeys_bind; [apply calm_obeys, calm_ListWorkers|]. intros [workers|e]; [|apply obeys_ret].
  apply obeys_bind; [|intros; apply obeys_ret]. apply (obeys_retry _ _ _ _ allowed); [|done].
  intros s w Q Hw HQ. unfold build_recover.
  destruct (running_execution s _) as [x|] eqn:E; [|by apply HQ; [apply later_refl|]].
  case_decide; [by apply HQ; [apply later_refl|]|].
  intros now w1 Hl _. simpl. destruct (executionRecoveryReason x workers now) as [[reason code]|]; [|by apply HQ].
  destruct (executionAttempt x <? sd_maxAttempts self)%Z; (apply HQ; [done|]); intros _.
  - eapply allowed_requeue; [done|apply retry_events_are].
  - by eapply allowed_interrupt.
Qed.

(** *** Claiming *)

(** What a claim returning [true] has done. *)
Definition claimed (tid : string) (w : World P S) : Prop :=
  exists e tid' x, e ∈ w_log w /\ en_owner e = i /\ en_stream e = StreamID tid /\
    t_Status (st_Task (Project (task_view (en_before e)))) = StatusReady /\
    events_of (en_out e) = [ExecutionStarted tid' (x_ID x) x] /\ x_Status x = StatusRunning.

Lemma claimed_grows tid w w1 : grows v0 w w1 -> claimed tid w -> claimed tid w1.
Proof. intros Hg (e & tid' & x & He & ?). exists e, tid', x. split; [by eapply grows_entry|done]. Qed.

Lemma wp_claim_append tid v x w (Q : Result SError bool -> World P S -> Prop) :
  world_ok v0 w -> snapshot w tid v ->
  t_Status (st_Task (Project (task_view v))) = StatusReady -> x_Status x = StatusRunning ->
  starts (Project (task_view v)) x ->
  (forall r w1, grows v0 w w1 -> (r = Ok true -> claimed tid w1) -> Q r w1) ->
  wp sched_responds v0 admits i
    (claim_append tid (mkSequenced (Project (task_view v)) (Z.of_nat (length v))) [ExecutionStarted tid (x_ID x) x]) Q w.
Proof.
  intros Hw Hsnap Hready Hx Hst HQ. apply wp_bind, (wp_AppendExpected _ _ _ _ _ v); [done|done|done| |].
  - intros w1 w2 out Hl Hv Hout Ha. split.
    { apply guard_admits, guard_allowed. rewrite Hout. by constructor. }
    destruct (appended_added v0 i _ _ _ _ _ Hl Ha) as (Hg & _).
    assert (Hcl : claimed tid w2).
    { destruct Ha as [_ Hlog]. eexists _, tid, x. split; [rewrite Hlog; apply elem_of_app; right; by left|].
      simpl. split_and!; [done|done| |done|done]. unfold task_stream in Hv. by rewrite Hv. }
    apply wp_bind, (calm_index v0 i); [by eapply grows_ok|]. intros [u|e] w3 [Hg3 _].
    + apply wp_bind, (silent_publish v0 i); [by eapply grows_ok|]. intros [] w4 Hl4%later_grows. apply HQ.
      * eapply grows_trans; [exact Hg|]. by eapply grows_trans.
      * intros _. eapply claimed_grows; [|exact Hcl]. by eapply grows_trans.
    + apply HQ; [by eapply grows_trans|done].
  - intros w1 e Hl. apply HQ; [by eapply later_grows|]. by destruct (ts_conflict e).
Qed.

Lemma resumable_spec s :
  resumableExecution s = true ->
  exists y, current_execution s = Some y /\ x_Status y = StatusInterrupted /\ st_Current s <> emp.
Proof.
  unfold resumableExecution. case_decide; [done|]. destruct (current_execution s) as [y|]; [|done].
  rewrite bool_decide_eq_true. intros. by exists y.
Qed.

Lemma wp_claim tid w (Q : Result SError bool -> World P S -> Prop) :
  world_ok v0 w -> (forall r w1, grows v0 w w1 -> (r = Ok true -> claimed tid w1) -> Q r w1) ->
  wp sched_responds v0 admits i (claim self tid) Q w.
Proof.
  intros Hw HQ. apply wp_bind, (wp_ProjectWithSequence _ _ _ _); [done| |].
  2: { intros w1 e Hl. apply HQ; [by eapply later_grows|done]. }
  intros w1 Hl Htid. cbv iota beta zeta. cbn [sq_State].
  assert (Hsnap : snapshot w1 tid (task_stream w1 tid)) by (exists []; by rewrite app_nil_r).
  assert (Hw1 : world_ok v0 w1) by apply Hl. pose proof (later_grows _ _ _ _ _ Hl) as Hg1.
  revert Hsnap. generalize (task_stream w1 tid). intros v Hsnap.
  case_decide as Hready; [by apply HQ|].
  destruct (resumableExecution _) eqn:Er.
  - apply resumable_spec in Er as (y & Hy & Hst & Hc). rewrite Hy. cbn [default].
    intros now w2 Hl2 _ lease w3 Hl3 _. assert (Hl13 : later v0 admits i w1 w3) by (by eapply later_trans).
    apply (wp_claim_append tid v (resumed_execution self y now lease)); [by apply Hl3|by eapply (snapshot_later v0 admits i w1)|done|done| |].
    + left. by exists y.
    + intros r w4 Hg4 Hr. apply HQ; [|done]. eapply grows_trans; [exact Hg1|].
      eapply grows_trans; [by eapply later_grows|done].
  - destruct (executionActive _) eqn:Ea; [by apply HQ|].
    intros execID w2 Hl2 HexecID now w3 Hl3 _ lease w4 Hl4 _.
    assert (Hl14 : later v0 admits i w1 w4) by (eapply later_trans; [|done]; by eapply later_trans).
    apply (wp_claim_append tid v (new_execution self (st_Task (Project (task_view v))) execID now lease));
      [by apply Hl4|by eapply (snapshot_later v0 admits i w1)|done|done| |].
    + by right.
    + intros r w5 Hg5 Hr. apply HQ; [|done]. eapply grows_trans; [exact Hg1|].
      eapply grows_trans; [by eapply later_grows|done].
Qed.
Lemma obeys_claim tid : obeysp (claim self tid).
Proof. intros w Q Hw HQ. apply wp_claim; [done|]. intros r w1 Hg _. by apply HQ. Qed.

(** *** Running *)

Hint Resolve obeys_each_or_stale obeys_dispatch obeys_cancel obeys_blockStep obeys_blockTask obeys_registerWorker
  obeys_claim : protocol.

Lemma obeys_completed tid xid output : obeysp (appendExecutionTerminal tid xid [ExecutionCompleted tid xid output]).
Proof. apply obeys_execution_terminal. intros s x Hx. by eapply allowed_completed. Qed.
Lemma obeys_worker_failed tid xid code m : obeysp (appendExecutionTerminal tid xid (worker_failed tid xid code m)).
Proof. apply obeys_execution_terminal. intros s x Hx. by eapply allowed_failed. Qed.
Lemma obeys_step_completed tid xid sid artifacts output :
  obeysp (appendStepTerminal tid xid sid (artifactEvents tid xid sid artifacts ++ [StepCompleted tid xid sid output])).
Proof.
  apply obeys_step_terminal. intros s x Hx Hst. eapply allowed_step_completed; [done|done|apply artifact_events_are].
Qed.
Lemma obeys_step_failed tid xid sid e : obeysp (appendStepTerminal tid xid sid [StepFailed tid xid sid e]).
Proof. apply obeys_step_terminal. intros s x Hx Hst. by eapply allowed_step_failed. Qed.
Hint Resolve obeys_completed obeys_worker_failed obeys_step_completed obeys_step_failed : protocol.

Lemma obeys_artifacts tid xid l e rest :
  artifactEvents tid xid emp l = e :: rest ->
  obeysp (withExpectedRetry tid (build_while_running xid (e :: rest))).
Proof. intros <-. apply obeys_while_running. intros s x Hx. eapply allowed_artifacts; [done|apply artifact_events_are]. Qed.
Lemma obeys_final_artifacts tid xid l e rest :
  artifactEvents tid xid emp l = e :: rest ->
  obeysp (withExpectedRetry tid (build_finalize xid (e :: rest))).
Proof.
  intros <-. apply obeys_pure. intros s. destruct (running_execution s _) eqn:Ex; [|done].
  destruct (AllStepsTerminal s); [|done]. intros _. eapply allowed_artifacts; [done|apply artifact_events_are].
Qed.
Hint Resolve obeys_artifacts obeys_final_artifacts : protocol.

Lemma obeys_replace_value v callID : obeysp (replace_value v callID).
Proof. unfold replace_value. obey. Qed.
Hint Resolve obeys_replace_value : protocol.
Lemma obeys_replace_artifacts xid sid k l : obeysp (replace_artifacts xid sid k l).
Proof. revert k. induction l; intros k; cbn [replace_artifacts]; obey. Qed.
Hint Resolve obeys_replace_artifacts : protocol.
Lemma obeys_normalize result outputs xid sid : obeysp (normalize_result result outputs xid sid).
Proof. unfold normalize_result. obey. Qed.
Lemma obeys_resolve t step : obeysp (resolve t step).
Proof. apply obeys_effect. Qed.
Hint Resolve obeys_normalize obeys_resolve : protocol.

Lemma obeys_complete_whole tid xid output : obeysp (complete_whole tid xid output).
Proof. unfold complete_whole, blockCompletion. obey. Qed.
Hint Resolve obeys_complete_whole : protocol.
Lemma obeys_runWholeTask state : obeysp (runWholeTask state).
Proof. unfold runWholeTask. obey. Qed.
Lemma obeys_runStep t xid step : obeysp (runStep t xid step).
Proof. unfold runStep, dispatch_event. obey. Qed.
Lemma obeys_finalize state missing : obeysp (finalizeMissingOutputs state missing).
Proof. unfold finalizeMissingOutputs. obey. Qed.
Hint Resolve obeys_runWholeTask obeys_runStep obeys_finalize : protocol.

Lemma obeys_run_ready t xid ready : obeysp (run_ready t xid ready).
Proof. induction ready; cbn [run_ready]; obey. Qed.
Hint Resolve obeys_run_ready : protocol.
Lemma obeys_runStepDAG fuel tid : obeysp (runStepDAG fuel tid).
Proof. induction fuel; cbn [runStepDAG]; unfold blockCompletion; obey. Qed.
Hint Resolve obeys_runStepDAG : protocol.
Lemma obeys_RunTask fuel tid : obeysp (RunTask self fuel tid).
Proof. unfold RunTask. obey. Qed.
End Schedulers.

#[export] Hint Resolve obeys_registerWorker obeys_reconcile obeys_renew obeys_claim obeys_RunTask : protocol.

(** ** How batches move the abstract state *)

Definition apply_batch (s : State) (rs : list (TaskEvent * Time)) : State :=
  fold_left (fun s r => Apply s r.1 r.2) rs s.

(** The status a step has in an execution; unset when it has no entry. *)
Definition step_of (s : State) (xid sid : string) : StepStatus := se_Status (x_Steps (execution s xid) !!! sid).

Lemma step_of_same s s' xid sid :
  x_Steps (execution s' xid) !! sid = x_Steps (execution s xid) !! sid -> step_of s' xid sid = step_of s xid sid.
Proof. intros H. unfold step_of. by rewrite !lookup_total_alt, H. Qed.

(** Writing the execution [xid] as the current one. *)
Lemma step_of_current s s0 xid y sid :
  st_Executions s0 = st_Executions s -> x_ID y = xid -> step_of (make_current s0 xid y) xid sid = step_status y sid.
Proof.
  intros HE Hx. unfold step_of. rewrite steps_execution. rewrite (make_current_executions s) by done.
  by rewrite lookup_insert_eq.
Qed.
Lemma step_of_set s s0 xid x sid e :
  st_Executions s0 = st_Executions s -> x_ID x = xid ->
  step_of (make_current s0 xid (set_step x sid e)) xid sid = se_Status e.
Proof.
  intros HE Hx. rewrite (step_of_current s) by done. unfold step_status. simpl. by rewrite lookup_total_insert_eq.
Qed.

(** Statuses a step of an execution ends with. *)
Definition settled (status : StepStatus) : Prop :=
  status ∈ [StepStatusCompleted; StepStatusFailed; StepStatusCancelled].
Lemma settled_nonempty status : settled status -> status <> emp.
Proof. unfold settled. rewrite !elem_of_cons, elem_of_nil. intros [->|[->|[->|[]]]]; done. Qed.

Lemma settled_not_running status : settled status -> status <> StepStatusRunning.
Proof. unfold settled. rewrite !elem_of_cons, elem_of_nil. intros [->|[->|[->|[]]]]; discriminate. Qed.

Lemma step_of_running s xid x sid : running_execution s xid = Some x -> step_of s xid sid = step_status x sid.
Proof. intros (Hl & _)%running_execution_iff. unfold step_of. by rewrite execution_spec, Hl. Qed.

Definition is_ready (e : TaskEvent) : Prop :=
  match e with StatusChanged _ _ current _ => current = StatusReady | _ => False end.
#[global] Instance is_ready_dec e : Decision (is_ready e).
Proof. destruct e; simpl; apply _. Defined.
Definition is_start_event (e : TaskEvent) : Prop := match e with ExecutionStarted _ _ _ => True | _ => False end.
Definition is_result (xid sid : string) (e : TaskEvent) : Prop :=
  match e with
  | StepCompleted _ xid' sid' _ | StepFailed _ xid' sid' _ => xid' = xid /\ sid' = sid
  | _ => False
  end.

(** Events the schedulers never write by themselves. *)
Definition is_scheduler_event (s : State) (e : TaskEvent) : Prop :=
  match e with
  | Created _ _ | Revised _ _ _ | StepProgressed _ _ _ _ | ArtifactUpdated _ _ _ _ _ | ArtifactRemoved _ _ _ _ _ => False
  | ExecutionStarted _ xid x => xid = x_ID x /\ known ValidStatus (x_Status x) /\ starts s x
  | StepStatusChanged _ _ _ _ current _ _ => current = StepStatusWaiting \/ current = StepStatusBlocked
  | StatusChanged _ _ current _ => ValidStatus current = true
  | _ => True
  end.

(** The status an event gives the task. *)
Definition status_effect (e : TaskEvent) : option Status :=
  match e with
  | StatusChanged _ _ current _ => Some current
  | ExecutionStarted _ xid x =>
      if decide ((if decide (xid = emp) then x_ID x else xid) = emp) then None else Some StatusRunning
  | ExecutionInterrupted _ _ _ => Some StatusInterrupted
  | ExecutionCompleted _ _ _ => Some StatusCompleted
  | ExecutionFailed _ _ _ => Some StatusFailed
  | ExecutionCancelled _ _ _ => Some StatusCancelled
  | _ => None
  end.

Lemma on_artifacts_status f s xid sid at_ :
  t_Status (st_Task (on_artifacts f s xid sid at_)) = t_Status (st_Task s).
Proof. unfold on_artifacts. case_decide; [reflexivity|]. case_decide; reflexivity. Qed.
Lemma diagnostic_status s tid xid sid d at_ :
  t_Status (st_Task (apply_diagnostic s tid xid sid d at_)) = t_Status (st_Task s).
Proof.
  unfold apply_diagnostic. generalize (if decide (xid = emp) then st_Current (touch (with_task_id s tid) at_) else xid).
  intros id. case_decide; [reflexivity|]. case_decide; reflexivity.
Qed.
Lemma lease_status s tid xid wid lid expires :
  t_Status (st_Task (apply_lease_renewed s tid xid wid lid expires)) = t_Status (st_Task s).
Proof. unfold apply_lease_renewed. destruct (decide (x_Status _ = StatusRunning)); reflexivity. Qed.
Lemma started_status s tid xid x at_ :
  t_Status (st_Task (apply_execution_started s tid xid x at_)) =
  default (t_Status (st_Task s)) (status_effect (ExecutionStarted tid xid x)).
Proof. unfold apply_execution_started, status_effect. case_decide; reflexivity. Qed.

Lemma apply_status s e at_ :
  is_scheduler_event s e ->
  t_Status (st_Task (Apply s e at_)) = default (t_Status (st_Task s)) (status_effect e).
Proof.
  intros He. unfold Apply. rewrite cloneState_id. destruct e; try contradiction; try reflexivity.
  - apply (on_artifacts_status _ (with_task_id s taskID)).
  - apply started_status.
  - apply lease_status.
  - apply diagnostic_status.
Qed.

(** Only a change of status to ready makes a task ready. *)
Lemma apply_not_ready s e at_ :
  is_scheduler_event s e -> t_Status (st_Task s) <> StatusReady ->
  t_Status (st_Task (Apply s e at_)) = StatusReady -> is_ready e.
Proof.
  intros He Hs. rewrite apply_status by done. destruct e; simpl; try contradiction; try discriminate; try done.
  case_decide; [done|discriminate].
Qed.

Lemma start_running s tid xid x at_ :
  xid <> emp -> t_Status (st_Task (Apply s (ExecutionStarted tid xid x) at_)) = StatusRunning.
Proof.
  intros Hx. unfold Apply. rewrite cloneState_id. unfold apply_execution_started.
  rewrite (decide_False (P := xid = emp)) by done. by rewrite (decide_False (P := xid = emp)) by done.
Qed.

Lemma fill_step_settled step e : settled (se_Status e) -> se_Status (fill_step step e) = se_Status e.
Proof. intros Hse%settled_nonempty. unfold fill_step. repeat case_decide; simpl; done. Qed.

Lemma ensure_settled steps m sid :
  settled (se_Status (m !!! sid)) -> se_Status (ensureExecutionSteps steps m !!! sid) = se_Status (m !!! sid).
Proof.
  unfold ensureExecutionSteps. rewrite cloneStepExecutions_id. revert m.
  induction steps as [|step steps IH]; intros m Hm; cbn [fold_left]; [done|].
  assert (Hf : se_Status (<[s_ID step := fill_step step (m !!! s_ID step)]> m !!! sid) = se_Status (m !!! sid)).
  { destruct (decide (s_ID step = sid)) as [<-|Hne].
    - rewrite lookup_total_insert_eq. by apply fill_step_settled.
    - by rewrite lookup_total_insert_ne. }
  rewrite IH; [done|]. by rewrite Hf.
Qed.

Lemma apply_started_spec s tid x at_ :
  x_ID x <> emp ->
  exists s2 x', Apply s (ExecutionStarted tid (x_ID x) x) at_ = make_current s2 (x_ID x) x' /\
    st_Executions s2 = st_Executions s /\ x_ID x' = x_ID x /\
    x_Steps x' = ensureExecutionSteps (t_Steps (st_Task s)) (x_Steps x).
Proof.
  intros Hx. unfold Apply. rewrite cloneState_id. unfold apply_execution_started.
  rewrite (decide_False (P := x_ID x = emp)) by done. rewrite (decide_False (P := x_ID x = emp)) by done.
  rewrite cloneExecution_id.
  match goal with |- exists _ _, make_current ?s2 (x_ID ?x') ?y = _ /\ _ =>
    assert (Hy : x_ID y = x_ID x /\ x_Steps y = ensureExecutionSteps (t_Steps (st_Task s)) (x_Steps x));
    [|exists s2, y] end.
  { repeat case_match; done. }
  destruct Hy as [Hi Hst]. rewrite Hi. done.
Qed.

Lemma step_of_other_execution s s2 x' xid xid' sid :
  xid <> xid' -> st_Executions s2 = st_Executions s -> x_ID x' = xid' ->
  step_of (make_current s2 xid' x') xid sid = step_of s xid sid.
Proof.
  intros Hne HE Hx. unfold step_of. rewrite !steps_execution.
  rewrite (make_current_executions s) by done. by rewrite lookup_insert_ne.
Qed.

(** The status an event gives its step. *)
Definition step_effect (e : TaskEvent) : option StepStatus :=
  match e with
  | StepDispatched _ _ _ _ _ _ _ => Some StepStatusRunning
  | StepStatusChanged _ _ _ _ current _ _ => Some current
  | StepCompleted _ _ _ _ => Some StepStatusCompleted
  | StepFailed _ _ _ _ => Some StepStatusFailed
  | StepCancelled _ _ _ _ => Some StepStatusCancelled
  | _ => None
  end.

Lemma diagnostic_step s tid xid' sid d at_ xid :
  state_ok s -> event_target s (SchedulerDiagnostic tid xid' sid d) = Some xid -> sid <> emp ->
  step_of (apply_diagnostic s tid xid' sid d at_) xid sid = step_of s xid sid.
Proof.
  intros Hs Ht Hsid. cbn [event_target] in Ht.
  unfold apply_diagnostic. change (st_Current (touch (with_task_id s tid) at_)) with (st_Current s).
  revert Ht. generalize (if decide (xid' = emp) then st_Current s else xid'). intros id Ht.
  destruct (decide (id = emp)); [done|]. injection Ht as ->. rewrite decide_True by done.
  unfold step_of at 1. rewrite steps_execution.
  rewrite (setExecution_executions s _ xid); [|done|simpl; by apply with_owner_id]. rewrite lookup_insert_eq.
  assert (Hx : x_Steps (execution (touch (with_task_id s tid) at_) xid) = x_Steps (execution s xid))
    by by rewrite !steps_execution.
  simpl. rewrite lookup_total_insert_eq. cbn [se_Status]. rewrite with_owner_steps.
  unfold step_of. by rewrite <- Hx.
Qed.

(** An event about a step gives it the status of [step_effect] or leaves the one it had. *)
Lemma apply_step_effect s e at_ xid sid :
  state_ok s -> is_scheduler_event s e -> event_target s e = Some xid -> event_step e = Some sid ->
  step_of (Apply s e at_) xid sid = default (step_of s xid sid) (step_effect e).
Proof.
  intros Hs He Ht Hstep. unfold Apply. rewrite cloneState_id.
  destruct e; try contradiction; try discriminate;
    cbn [event_target event_step step_effect is_scheduler_event default] in *.
  - destruct (decide (executionID = emp)); [done|]. destruct (decide (stepID = emp)); [done|]. simplify_eq.
    unfold on_artifacts. rewrite decide_True by done. rewrite (step_of_set s); [|done|].
    { unfold step_of. by rewrite <- (with_task_execution s taskID). }
    apply (execution_id (with_task_id s taskID)). by apply with_task_id_ok.
  - injection Hstep as ->. revert Ht. unfold apply_step_status.
    generalize (if decide (executionID = emp) then st_Current s else executionID). intros id.
    generalize (if decide (id = emp) then "manual"%string else id). intros id' [= ->].
    rewrite (step_of_set s); [|done|by apply with_owner_id, execution_id]. by case_match.
  - simplify_eq. unfold apply_dispatched. rewrite (step_of_current s); [|done|by apply execution_id].
    unfold step_status. simpl. by rewrite lookup_total_insert_eq.
  - simplify_eq. unfold applyStepTerminal. rewrite (step_of_set s); [done|done|by apply execution_id].
  - simplify_eq. unfold applyStepTerminal. rewrite (step_of_set s); [done|done|by apply execution_id].
  - simplify_eq. unfold applyStepTerminal. rewrite (step_of_set s); [done|done|by apply execution_id].
  - destruct (decide (stepID = emp)); [done|]. injection Hstep as ->. by apply diagnostic_step.
Qed.

(** Events that follow a settled step of the current execution: none of them takes it back. *)
Definition keeps_step (xid sid : string) (e : TaskEvent) : Prop :=
  match e with
  | StepDispatched _ xid' sid' _ _ _ _ | StepStatusChanged _ xid' sid' _ _ _ _ => xid' = xid /\ sid' <> sid
  | ArtifactAdded _ xid' _ _ | ExecutionInterrupted _ xid' _ | StepCompleted _ xid' _ _ | StepFailed _ xid' _ _
  | StepCancelled _ xid' _ _ | ExecutionCompleted _ xid' _ | ExecutionFailed _ xid' _
  | ExecutionCancelled _ xid' _ => xid' = xid
  | StatusChanged _ _ _ _ | ExecutionLeaseRenewed _ _ _ _ _ | SchedulerDiagnostic _ _ _ _ => True
  | _ => False
  end.
Definition settled_in (xid sid : string) (s : State) : Prop :=
  st_Current s = xid /\ settled (step_of s xid sid).

Lemma keeps_current xid sid s e at_ :
  xid <> emp -> keeps_step xid sid e -> st_Current s = xid -> st_Current (Apply s e at_) = xid.
Proof.
  intros Hx He Hc. unfold Apply. rewrite cloneState_id. destruct e; try contradiction; cbn [keeps_step] in He;
    try (subst executionID); try exact Hc; try reflexivity.
  - unfold on_artifacts. case_decide; [reflexivity|]. case_decide; [reflexivity|done].
  - destruct He as [-> _]. unfold apply_step_status. rewrite (decide_False (P := xid = emp)) by done.
    by rewrite (decide_False (P := xid = emp)) by done.
  - unfold apply_lease_renewed. destruct (decide (x_Status _ = StatusRunning)); exact Hc.
  - destruct He as [-> _]. reflexivity.
  - unfold apply_diagnostic. generalize (if decide (executionID = emp) then st_Current (touch (with_task_id s taskID) at_) else executionID).
    intros id. case_decide; [exact Hc|]. case_decide; exact Hc.
Qed.

Lemma keeps_settled xid sid s e at_ :
  xid <> emp -> state_ok s -> is_scheduler_event s e -> keeps_step xid sid e -> settled_in xid sid s ->
  settled_in xid sid (Apply s e at_).
Proof.
  intros Hx Hs He Hk [Hc Hst]. split; [by eapply keeps_current|].
  assert (Hrev : is_revision e = false) by by destruct e. assert (Hstart : is_start e = false) by by destruct e.
  destruct (apply_touches s e at_ Hs Hrev Hstart) as [Hother Hsteps].
  destruct (decide (event_step e = Some sid)) as [Hstep|Hstep]; [|by rewrite (step_of_same s) by by apply Hsteps].
  destruct (decide (event_target s e = Some xid)) as [Ht|Ht].
  - rewrite (apply_step_effect s e at_ xid sid) by done.
    assert (He' : step_effect e = None \/ exists st, step_effect e = Some st /\ settled st).
    { destruct e; try contradiction; cbn [step_effect]; try (by left); cbn [keeps_step event_step] in Hk, Hstep;
        [destruct Hk as [_ Hk]; congruence..| | |]; right; eexists; (split; [reflexivity|]); unfold settled.
      - by left.
      - right. by left.
      - right. right. by left. }
    destruct He' as [->|(st & -> & Hst')]; [exact Hst|exact Hst'].
  - rewrite (step_of_same s); [exact Hst|]. rewrite !steps_execution. by rewrite Hother.
Qed.

(** *** Whole batches *)

(** Events that may occur at any state; an execution start is a batch of its own. *)
Definition plain (e : TaskEvent) : Prop := ~ is_start_event e /\ forall s, is_scheduler_event s e.

Lemma plain_all (Q : TaskEvent -> Prop) l : (forall e, Q e -> plain e) -> Forall Q l -> Forall plain l.
Proof. intros H Hl. eapply Forall_impl; [exact Hl|exact H]. Qed.
Ltac plain_event := split; [by intros []|intros; simpl; try done].

Lemma allowed_cases s events :
  allowed s events ->
  (exists tid x, events = [ExecutionStarted tid (x_ID x) x] /\ t_Status (st_Task s) = StatusReady /\
     x_Status x = StatusRunning /\ starts s x) \/ Forall plain events.
Proof.
  destruct 1; [left; by exists tid, x|right..].
  - apply Forall_singleton. plain_event.
  - apply Forall_app. split; [|apply Forall_singleton; plain_event].
    eapply plain_all; [|done]. intros []; try done. plain_event.
  - apply Forall_singleton. plain_event.
  - eapply plain_all; [|done]. intros []; try done. plain_event.
  - eapply plain_all; [|done]. intros []; try done. plain_event.
  - apply Forall_singleton. plain_event.
  - apply Forall_singleton. plain_event.
  - apply Forall_singleton. plain_event.
  - repeat (apply Forall_cons; split; [plain_event|]); apply Forall_nil_2.
  - apply Forall_cons; split; [plain_event; by right|].
    repeat (apply Forall_cons; split; [plain_event|]); apply Forall_nil_2.
  - apply Forall_app. split.
    + eapply plain_all; [|done]. intros []; try done. intros (_ & -> & _). plain_event. by left.
    + repeat (apply Forall_cons; split; [plain_event|]); apply Forall_nil_2.
  - repeat (apply Forall_cons; split; [plain_event|]); apply Forall_nil_2.
  - apply Forall_singleton. plain_event.
Qed.

Lemma scheduler_event_ok s e : state_ok s -> is_scheduler_event s e -> event_ok e.
Proof.
  intros Hs He. destruct e; simpl in *; try done.
  - by apply known_valid.
  - destruct He as [->| ->]; apply known_valid; done.
  - destruct He as (_ & Hst & [(y & Hy & _ & _ & _ & ->)|(_ & _ & _ & ->)]); (split; [done|]).
    + apply (entry_steps _ _ (state_executions _ Hs _ _ Hy)).
    + apply map_Forall_empty.
Qed.

(** An invariant of single events is one of allowed batches. *)
Lemma batch_ind (I : State -> Prop) s rs :
  (forall s e at_, state_ok s -> is_scheduler_event s e -> e ∈ rs.*1 -> I s -> I (Apply s e at_)) ->
  state_ok s -> allowed s rs.*1 -> I s -> state_ok (apply_batch s rs) /\ I (apply_batch s rs).
Proof.
  intros HI Hs Ha. apply allowed_cases in Ha as [(tid & x & E & _ & Hx & Hst)|Hp].
  - destruct rs as [|[e at_] [|]]; try done. injection E as ->. intros Hi.
    assert (He : is_scheduler_event s (ExecutionStarted tid (x_ID x) x)).
    { split; [done|]. split; [rewrite Hx; by apply known_valid|done]. }
    split; [by eapply apply_ok, scheduler_event_ok|]. apply HI; [done|done|by left|done].
  - revert s Hs HI. induction rs as [|[e at_] rs IH]; intros s Hs HI Hi; [done|].
    apply Forall_cons in Hp as [[_ He] Hp]. apply IH; [done| | |].
    + by eapply apply_ok, scheduler_event_ok.
    + intros s' e' at' Hs' He' Hin. apply HI; [done|done|]. by right.
    + apply HI; [done|done|by left|done].
Qed.

Lemma batch_state_ok s rs : state_ok s -> allowed s rs.*1 -> state_ok (apply_batch s rs).
Proof. intros Hs Ha. by apply (batch_ind (fun _ => True)). Qed.

Lemma batch_not_ready s rs :
  state_ok s -> allowed s rs.*1 -> Forall (fun e => ~ is_ready e) rs.*1 ->
  t_Status (st_Task s) <> StatusReady -> t_Status (st_Task (apply_batch s rs)) <> StatusReady.
Proof.
  intros Hs Ha Hnr Hr. apply (batch_ind (fun s => t_Status (st_Task s) <> StatusReady)); [|done..].
  intros s' e at_ Hs' He Hin Hn Hrdy. rewrite Forall_forall in Hnr. apply (Hnr e Hin).
  by eapply apply_not_ready.
Qed.

Lemma start_batch s rs :
  state_ok s -> allowed s rs.*1 -> Exists is_start_event rs.*1 ->
  t_Status (st_Task s) = StatusReady /\ t_Status (st_Task (apply_batch s rs)) = StatusRunning.
Proof.
  intros Hs Ha Hex. apply allowed_cases in Ha as [(tid & x & E & Hrdy & _ & Hst)|Hp].
  - split; [done|]. destruct rs as [|[e at_] [|]]; try done. injection E as ->. apply start_running.
    destruct Hst as [(y & Hy & _ & Hc & -> & _)|(_ & _ & ? & _)]; [|done].
    by rewrite (entry_id _ _ (state_executions _ Hs _ _ Hy)).
  - apply Exists_exists in Hex as (e & He & Hst). rewrite Forall_forall in Hp. by destruct (Hp e He).
Qed.

Lemma plain_state_ok s rs : state_ok s -> Forall plain rs.*1 -> state_ok (apply_batch s rs).
Proof.
  revert s. induction rs as [|[e at_] rs IH]; intros s Hs Hp; [done|].
  apply Forall_cons in Hp as [[_ He] Hp]. apply IH; [|done]. by eapply apply_ok, scheduler_event_ok.
Qed.

Lemma no_event (Q R : TaskEvent -> Prop) l : (forall e, Q e -> ~ R e) -> Forall Q l -> ~ Exists R l.
Proof.
  intros H Hl (e & He & Hr)%Exists_exists. rewrite Forall_forall in Hl. by apply (H e (Hl e He)).
Qed.

(** A batch with the result of a step is the result of a running step, and ends with it. *)
Lemma allowed_result s events xid sid :
  allowed s events -> Exists (is_result xid sid) events ->
  exists x pre e, running_execution s xid = Some x /\ step_status x sid = StepStatusRunning /\
    events = pre ++ [e] /\ is_result xid sid e.
Proof.
  intros Ha Hex. destruct Ha;
    try (exfalso; revert Hex; unfold blocked_events; rewrite ?Exists_app, ?Exists_cons, ?Exists_nil; simpl; tauto).
  - apply Exists_app in Hex as [Hex|Hex].
    { exfalso. revert Hex. eapply no_event; [|done]. intros []; simpl; tauto. }
    apply Exists_cons in Hex as [[-> ->]|Hex]; [|by apply Exists_nil in Hex].
    eexists _, _, _. split; [eassumption|]. split; [eassumption|]. split; [reflexivity|done].
  - apply Exists_cons in Hex as [[-> ->]|Hex]; [|by apply Exists_nil in Hex].
    eexists _, [], _. split; [eassumption|]. split; [eassumption|]. split; [reflexivity|done].
  - exfalso. revert Hex. eapply no_event; [|done]. intros []; simpl; tauto.
  - exfalso. revert Hex. eapply no_event; [|done]. intros []; simpl; tauto.
  - exfalso. revert Hex. rewrite Exists_app, !Exists_cons, Exists_nil. intros [Hex|Hex]; [|simpl in Hex; tauto].
    revert Hex. eapply no_event; [|done]. intros []; simpl; tauto.
Qed.

(** *** Settled steps *)

Lemma status_of_execution s xid :
  x_Status (execution s xid) = default (x_Status zero_Execution) (x_Status <$> st_Executions s !! xid).
Proof. rewrite execution_spec. by destruct (st_Executions s !! xid). Qed.

Lemma diagnostic_execution_status s tid xid' sid d at_ xid :
  state_ok s ->
  x_Status (execution (Apply s (SchedulerDiagnostic tid xid' sid d) at_) xid) = x_Status (execution s xid).
Proof.
  intros Hs. unfold Apply. rewrite cloneState_id. unfold apply_diagnostic.
  generalize (if decide (xid' = emp) then st_Current (touch (with_task_id s tid) at_) else xid'). intros id.
  destruct (decide (id = emp)); [rewrite !status_of_execution; reflexivity|]. rewrite !status_of_execution.
  set (y := execution (touch (with_task_id s tid) at_) id).
  assert (Hy : x_Status y = default (x_Status zero_Execution) (x_Status <$> st_Executions s !! id))
    by apply (status_of_execution (touch (with_task_id s tid) at_) id).
  assert (Hset : forall y', x_ID y' = id -> x_Status y' = x_Status y ->
    default (x_Status zero_Execution)
      (x_Status <$> st_Executions (setExecution (touch (with_task_id s tid) at_) y') !! xid) =
    default (x_Status zero_Execution) (x_Status <$> st_Executions s !! xid)).
  { intros y' Hid Hst. rewrite (setExecution_executions s _ id) by done.
    destruct (decide (id = xid)) as [->|Hne]; [|by rewrite lookup_insert_ne].
    rewrite lookup_insert_eq. simpl. by rewrite Hst, Hy. }
  assert (Hown : x_Status (with_owner (y <| x_ID := id |>) id tid) = x_Status y).
  { unfold with_owner. repeat case_decide; reflexivity. }
  destruct (decide (sid <> emp)); apply Hset; try exact Hown; simpl; by apply with_owner_id.
Qed.

Lemma interrupted_execution_status s tid xid reason at_ :
  x_Status (execution (Apply s (ExecutionInterrupted tid xid reason) at_) xid) = StatusInterrupted.
Proof.
  unfold Apply. rewrite cloneState_id, status_of_execution. unfold apply_interrupted.
  rewrite (make_current_executions s) by done. by rewrite lookup_insert_eq.
Qed.

(** The state after a result: the step is settled, and if the task is ready it is for resuming. *)
Definition result_state (xid sid : string) (s : State) : Prop :=
  settled_in xid sid s /\
  (t_Status (st_Task s) = StatusReady -> x_Status (execution s xid) = StatusInterrupted).

Lemma allowed_keeps s xid sid events :
  state_ok s -> settled_in xid sid s -> allowed s events ->
  (exists tid x, events = [ExecutionStarted tid (x_ID x) x] /\ t_Status (st_Task s) = StatusReady /\
     x_Status x = StatusRunning /\ starts s x) \/ Forall (keeps_step xid sid) events.
Proof.
  intros Hs [Hc Hst] Ha.
  assert (Hrun : forall id x, running_execution s id = Some x -> id = xid /\ x_ID x = xid /\ forall sid',
     ~ settled (step_status x sid') -> sid' <> sid).
  { intros id x Hx. pose proof Hx as (Hl & _ & Hcur & _)%running_execution_iff. rewrite Hc in Hcur. subst id.
    split; [done|]. split; [apply (entry_id _ _ (state_executions _ Hs _ _ Hl))|]. intros sid' Hns ->.
    apply Hns. by rewrite <- (step_of_running _ _ _ _ Hx). }
  assert (Hw : ~ settled StepStatusWaiting /\ ~ settled StepStatusRunning /\ ~ settled StepStatusBlocked).
  { split_and!; intros Hse; repeat (apply elem_of_cons in Hse as [Hse|Hse]; [discriminate Hse|]);
      by apply elem_of_nil in Hse. }
  destruct Hw as (Hw & Hr & Hb).
  destruct Ha; [left; by exists tid, x|right..];
    try (match goal with H : running_execution s _ = Some _ |- _ => destruct (Hrun _ _ H) as (-> & Hid & Hne) end).
  - apply Forall_singleton. split; [done|]. apply Hne. by rewrite H0.
  - apply Forall_app. split; [|by apply Forall_singleton]. eapply Forall_impl; [done|]. by intros [] [].
  - by apply Forall_singleton.
  - eapply Forall_impl; [done|]. by intros [] [].
  - eapply Forall_impl; [done|]. intros []; simpl; done.
  - by apply Forall_singleton.
  - by apply Forall_singleton.
  - by apply Forall_singleton.
  - by repeat apply Forall_cons_2.
  - repeat apply Forall_cons_2; try done. split; [done|]. apply Hne. by rewrite H0.
  - apply Forall_app. split; [|by repeat apply Forall_cons_2]. eapply Forall_impl; [done|].
    intros []; try done. intros (-> & _ & Hs'). split; [done|]. apply Hne. destruct Hs' as [->| ->]; done.
  - by repeat apply Forall_cons_2.
  - by apply Forall_singleton.
Qed.

Lemma keeps_batch xid sid s rs :
  xid <> emp -> state_ok s -> Forall plain rs.*1 -> Forall (keeps_step xid sid) rs.*1 -> settled_in xid sid s ->
  settled_in xid sid (apply_batch s rs).
Proof.
  intros Hx. revert s. induction rs as [|[e at_] rs IH]; intros s Hs Hp Hk Hst; [done|].
  apply Forall_cons in Hp as [[_ He] Hp]. apply Forall_cons in Hk as [Hke Hk].
  apply (IH (Apply s e at_)); [by eapply apply_ok, scheduler_event_ok|done|done|]. by apply keeps_settled.
Qed.

(** A batch that makes a task ready is a requeue. *)
Lemma allowed_ready s events :
  allowed s events -> Exists is_ready events ->
  exists pre tid1 r1 tid2 from r2 tid3 d id,
    events = pre ++ [ExecutionInterrupted tid1 id r1; StatusChanged tid2 from StatusReady r2;
                     SchedulerDiagnostic tid3 id emp d].
Proof.
  intros Ha Hex. destruct Ha;
    try (exfalso; revert Hex; unfold blocked_events; rewrite ?Exists_cons, ?Exists_nil; simpl; intuition discriminate).
  - exfalso. apply Exists_app in Hex as [Hex|Hex].
    + revert Hex. eapply no_event; [|done]. intros []; simpl; tauto.
    + apply Exists_cons in Hex as [[]|Hex%Exists_nil]; done.
  - exfalso. revert Hex. eapply no_event; [|done]. intros []; simpl; tauto.
  - exfalso. revert Hex. eapply no_event; [|done]. intros []; simpl; tauto.
  - by repeat eexists.
Qed.

Lemma allowed_when_ready s events :
  allowed s events -> t_Status (st_Task s) = StatusReady ->
  (exists tid x, events = [ExecutionStarted tid (x_ID x) x]) \/ is_diagnostic_batch events.
Proof.
  intros Ha Hr.
  assert (Hno : forall xid x, running_execution s xid <> Some x).
  { intros xid x Hx. apply running_execution_iff in Hx as (_ & Hn & _). rewrite Hr in Hn. discriminate Hn. }
  destruct Ha; try (by destruct (Hno _ _ ltac:(eassumption))); [left; by eexists _, _|right; by do 4 eexists].
Qed.

Lemma status_changed_executions s tid previous current reason at_ :
  st_Executions (Apply s (StatusChanged tid previous current reason) at_) = st_Executions s.
Proof. unfold Apply. by rewrite cloneState_id. Qed.

(** What the last three events of a requeue leave. *)
Lemma requeue_result s rs xid :
  state_ok s -> Forall plain rs.*1 ->
  forall tid1 r1 a1 tid2 from r2 a2 tid3 d a3,
  x_Status (execution (apply_batch s (rs ++ [(ExecutionInterrupted tid1 xid r1, a1);
     (StatusChanged tid2 from StatusReady r2, a2); (SchedulerDiagnostic tid3 xid emp d, a3)])) xid) = StatusInterrupted.
Proof.
  intros Hs Hp tid1 r1 a1 tid2 from r2 a2 tid3 d a3. unfold apply_batch. rewrite fold_left_app. cbn [fold_left fst snd].
  pose proof (plain_state_ok s rs Hs Hp) as Hs1. unfold apply_batch in Hs1.
  set (s1 := fold_left _ rs s) in *.
  set (s2 := Apply s1 (ExecutionInterrupted tid1 xid r1) a1).
  assert (Hs2 : state_ok s2) by by apply apply_ok.
  rewrite diagnostic_execution_status.
  - rewrite <- (interrupted_execution_status s1 tid1 xid r1 a1). fold s2. rewrite !status_of_execution.
    by rewrite status_changed_executions.
  - apply apply_ok; [done|]. by apply known_valid.
Qed.

Lemma start_result s tid x at_ xid sid :
  xid <> emp -> state_ok s -> starts s x -> result_state xid sid s -> t_Status (st_Task s) = StatusReady ->
  result_state xid sid (Apply s (ExecutionStarted tid (x_ID x) x) at_).
Proof.
  intros Hx Hs Hst [[Hc Hse] Hint] Hr. specialize (Hint Hr). rewrite status_of_execution in Hint.
  destruct (st_Executions s !! xid) as [y|] eqn:Hy; [|done]. cbn in Hint.
  assert (Hcur : current_execution s = Some y) by (unfold current_execution; by rewrite Hc).
  assert (Hres : resumableExecution s = true).
  { unfold resumableExecution. rewrite decide_False by congruence. rewrite Hcur. by apply bool_decide_eq_true. }
  destruct Hst as [(y' & Hy' & _ & _ & Hid & Hsteps)|(Hno & _)]; [|congruence].
  rewrite Hcur in Hy'. injection Hy' as <-. pose proof (entry_id _ _ (state_executions _ Hs _ _ Hy)) as Hyid.
  rewrite Hyid in Hid.
  destruct (apply_started_spec s tid x at_) as (s2 & x' & Happ & HE & Hx' & Hst'); [by rewrite Hid|].
  assert (Hrun : t_Status (st_Task (Apply s (ExecutionStarted tid (x_ID x) x) at_)) = StatusRunning)
    by (apply start_running; by rewrite Hid).
  split; [|by rewrite Hrun]. rewrite Happ. rewrite Hid in *. split; [done|].
  rewrite (step_of_current s) by done. unfold step_of in Hse. rewrite steps_execution, Hy in Hse. cbn in Hse.
  unfold step_status. rewrite Hst', Hsteps. by rewrite ensure_settled.
Qed.

Lemma result_state_batch xid sid s rs :
  xid <> emp -> state_ok s -> allowed s rs.*1 -> result_state xid sid s -> result_state xid sid (apply_batch s rs).
Proof.
  intros Hx Hs Ha [Hst Hint].
  destruct (allowed_keeps s xid sid _ Hs Hst Ha) as [(tid & x & E & Hr & _ & Hstart)|Hk].
  { destruct rs as [|[e at_] [|]]; try done. injection E as ->. by apply start_result. }
  assert (Hp : Forall plain rs.*1).
  { apply allowed_cases in Ha as [(tid & x & E & _)|Hp]; [|done]. rewrite E in Hk. by apply Forall_cons in Hk as [[] _]. }
  split; [by apply keeps_batch|].
  destruct (decide (Exists is_ready rs.*1)) as [Hrdy|Hrdy].
  - intros _. destruct (allowed_ready _ _ Ha Hrdy) as (pre & tid1 & r1 & tid2 & from & r2 & tid3 & d & id & E).
    apply fmap_app_inv in E as (rs1 & rs2 & -> & E2 & ->). symmetry in E2.
    destruct rs2 as [|[e1 a1] [|[e2 a2] [|[e3 a3] [|]]]]; try done. injection E2 as -> -> ->.
    rewrite fmap_app in Hp, Hk. apply Forall_app in Hp as [Hp _]. apply Forall_app in Hk as [_ Hk].
    apply Forall_cons in Hk as [Hk _]. cbn [fst keeps_step] in Hk. subst id. by apply requeue_result.
  - destruct (decide (t_Status (st_Task s) = StatusReady)) as [Hr|Hr].
    + intros _. apply allowed_when_ready in Ha as [Ha|Ha]; [| |done].
      * destruct Ha as (tid & x & E). rewrite E in Hk. by apply Forall_cons in Hk as [[] _].
      * destruct Ha as (tid & id & sid' & d & E). destruct rs as [|[e at_] [|]]; try done. injection E as ->.
        change (x_Status (execution (Apply s (SchedulerDiagnostic tid id sid' d) at_) xid) = StatusInterrupted).
        rewrite diagnostic_execution_status by done. by apply Hint.
    + intros Hr'. exfalso. revert Hr'. apply batch_not_ready; [done|done| |done].
      by apply not_Exists_Forall in Hrdy; [|apply _].
Qed.

(** A batch with a result settles a running step. *)
Lemma result_batch s rs xid sid :
  state_ok s -> allowed s rs.*1 -> Exists (is_result xid sid) rs.*1 ->
  step_of s xid sid = StepStatusRunning /\ result_state xid sid (apply_batch s rs).
Proof.
  intros Hs Ha Hex. destruct (allowed_result _ _ _ _ Ha Hex) as (x & pre & e & Hx & Hst & E & Hr).
  split; [by rewrite (step_of_running _ _ _ _ Hx)|].
  assert (Hp : Forall plain rs.*1).
  { apply allowed_cases in Ha as [(tid & y & E' & _)|Hp]; [|done]. rewrite E' in Hex.
    by apply Exists_cons in Hex as [[]|Hex%Exists_nil]. }
  split.
  - apply fmap_app_inv in E as (rs1 & rs2 & -> & E2 & ->). symmetry in E2.
    destruct rs2 as [|[e' at_] [|]]; try done. injection E2 as ->.
    rewrite fmap_app in Hp. apply Forall_app in Hp as [Hp _].
    pose proof (plain_state_ok s rs1 Hs Hp) as Hs1. unfold apply_batch. rewrite fold_left_app. simpl.
    fold (apply_batch s rs1). unfold Apply. rewrite cloneState_id.
    destruct e; try done; destruct Hr as [-> ->]; unfold applyStepTerminal; (split; [reflexivity|]);
      (rewrite (step_of_set (apply_batch s rs1)); [|done|by apply execution_id]); [by left|right; by left].
  - intros Hrdy. exfalso. revert Hrdy. apply running_execution_iff in Hx as (_ & Hrun & _).
    apply batch_not_ready; [done|done| |by rewrite Hrun].
    apply Forall_forall. intros e' He' Hre.
    assert (Hexr : Exists is_ready rs.*1) by (apply Exists_exists; by exists e').
    destruct (allowed_ready _ _ Ha Hexr) as (pre' & tid1 & r1 & tid2 & from & r2 & tid3 & d & id & E').
    rewrite E' in E. apply (f_equal last) in E. rewrite last_snoc, last_app in E. cbn in E. injection E as <-. done.
Qed.

(** ** Runs of the protocol *)

(** A set of batches as a machine on task states: a run from [s] is a list of batches of events, with
    the times they were stored at, each admitted by [R] in the state the earlier ones lead to. *)
Inductive runs (R : State -> list TaskEvent -> Prop) : State -> list (list (TaskEvent * Time)) -> Prop :=
| runs_nil s : runs R s []
| runs_batch s b rest : R s b.*1 -> runs R (apply_batch s b) rest -> runs R s (b :: rest).
(** The runs of the protocol. *)
Definition follows : State -> list (list (TaskEvent * Time)) -> Prop := runs allowed.

Lemma apply_batch_project l b : apply_batch (Project l) b = Project (l ++ b).
Proof. symmetry. apply project_app. Qed.

Lemma runs_snoc R l batches b :
  runs R (Project l) batches -> R (Project (l ++ concat batches)) b.*1 -> runs R (Project l) (batches ++ [b]).
Proof.
  revert l. induction batches as [|b' batches IH]; intros l Hf Ha; simpl in *.
  - rewrite app_nil_r in Ha. by repeat constructor.
  - inversion_clear Hf as [|? ? ? Hb Hrest]. constructor; [done|]. rewrite apply_batch_project in *.
    apply IH; [done|]. by rewrite <- app_assoc.
Qed.

(** A task nobody is to work on: not released, or done with. *)
Definition idle (s : State) : Prop :=
  t_Status (st_Task s) <> StatusReady /\ t_Status (st_Task s) <> StatusRunning.

Lemma idle_batch s b :
  idle s -> allowed s b.*1 -> idle (apply_batch s b) /\ is_diagnostic_batch b.*1.
Proof.
  intros [Hr Hn] Ha.
  assert (Hno : forall xid x, running_execution s xid <> Some x).
  { intros xid x Hx. apply running_execution_iff in Hx as (_ & ? & _). done. }
  assert (Hd : is_diagnostic_batch b.*1).
  { destruct Ha; try (by destruct (Hno _ _ ltac:(eassumption))); [done|by do 4 eexists]. }
  split; [|done]. destruct Hd as (tid & xid & sid & d & Hd).
  destruct b as [|[e at_] [|]]; try done. injection Hd as ->.
  change (idle (Apply s (SchedulerDiagnostic tid xid sid d) at_)). unfold Apply. rewrite cloneState_id. unfold idle. by rewrite !diagnostic_status.
Qed.
