(* ===== verification/Pool.v ===== *)
(** * Pools of schedulers

    Any number of schedulers, in one process or several, make their calls against one event store at
    the same time. The theorems here hold of every interleaving: each task stream follows the
    protocol of [Protocol], claims of a task exclude each other, a step of an execution has one result,
    and a task that is not released is left alone. *)

From S2P Require Import Prelude Event MemStore Operation Graph Task TaskProject Prog TaskStore.
From S2P Require Import SchedLocal Completion WorkerText Scheduler Service Protocol.

(** ** Calls *)

(** What schedulers do concurrently: the goroutine that runs a task, a claim, the heartbeats of a
    running step (registration and lease), the recovery of abandoned executions, the reconciliation
    loop, submissions and notifications, status reports. *)
Inductive SchedCall :=
| CallRun (fuel : nat) (taskID : string)
| CallRunTask (fuel : nat) (taskID : string)
| CallClaim (taskID : string)
| CallRegister
| CallRenewLease (taskID execID : string)
| CallReconcile (taskID : string)
| CallTick
| CallStart (rounds : nat)
| CallSubmit (taskID : string)
| CallNotify (taskID : string)
| CallStatus.

Section Pool.
Context {P : Type} {TP : TaskPayload P} {TL : TaskPayloadLaws P}.
Context {TX : ErrorTexts} {CF : CaseFold} {VJ : ValueJson}.
Context {S : Type} {ES : EventStore S P} {Laws : EventStoreLaws S P}.

Definition unflag {A} (r : Result SError A) : Result SError bool :=
  match r with Ok _ => Ok false | Err e => Err e end.
Definition ignore {A} (p : Prog P SchedEff A) : Prog P SchedEff (Result SError bool) :=
  let! _ := p in Ret (Ok false).
Definition checked {A} (p : Prog P SchedEff (Result SError A)) : Prog P SchedEff (Result SError bool) :=
  let! r := p in Ret (unflag r).
(** Each call belongs to some scheduler, [c.1]. Only a claim answers [Ok true]. *)
Definition sched_prog (c : Sched * SchedCall) : Prog P SchedEff (Result SError bool) :=
  let self := c.1 in
  match c.2 with
  | CallRun fuel tid => ignore (run_and_release self fuel tid)
  | CallRunTask fuel tid => checked (RunTask self fuel tid)
  | CallClaim tid => claim self tid
  | CallRegister => checked (let! r := registerWorker in Ret (store_error r))
  | CallRenewLease tid xid => checked (renewExecutionLease self tid xid)
  | CallReconcile tid => checked (reconcileRecoverableExecution self tid)
  | CallTick => checked (Tick self)
  | CallStart rounds => ignore (Start self rounds)
  | CallSubmit tid => checked (SubmitTask tid)
  | CallNotify tid => checked (NotifyTaskReady tid)
  | CallStatus => ignore SchedStatus
  end.

Section Obey.
Context {AD : Admission P} (v0 : string -> list (StoredRecord P)) (i : nat).
Abbreviation obeysp := (obeys (S := S) v0 i).

Lemma obeys_in_mutex {X} (f : Sched -> X) : obeysp (in_mutex f).
Proof. apply obeys_effect. Qed.
Lemma obeys_update f : obeysp (update f).
Proof. apply obeys_effect. Qed.
Hint Resolve obeys_in_mutex obeys_update : protocol.

Lemma obeys_unless_canceled code r : obeysp (record_unless_canceled code r).
Proof. unfold record_unless_canceled. obey. Qed.
Hint Resolve obeys_unless_canceled : protocol.

Lemma obeys_tick_loop self summaries : obeysp (tick_loop self summaries).
Proof. induction summaries; cbn [tick_loop]; obey. Qed.
Hint Resolve obeys_tick_loop : protocol.
Lemma obeys_Tick self : obeysp (Tick self).
Proof. unfold Tick. obey. Qed.
Hint Resolve obeys_Tick : protocol.
Lemma obeys_start_loop self rounds : obeysp (start_loop self rounds).
Proof. induction rounds; cbn [start_loop]; obey. Qed.
Hint Resolve obeys_start_loop : protocol.

Lemma obeys_submitTask tid : obeysp (submitTask tid).
Proof. unfold submitTask. obey. Qed.
Hint Resolve obeys_submitTask : protocol.
Lemma obeys_NotifyTaskReady tid : obeysp (NotifyTaskReady tid).
Proof. unfold NotifyTaskReady. obey. Qed.
Hint Resolve obeys_NotifyTaskReady : protocol.

Lemma obeys_durable_loop now summaries queued leases : obeysp (durable_loop now summaries queued leases).
Proof. revert queued leases. induction summaries; intros; cbn [durable_loop]; obey. Qed.
Hint Resolve obeys_durable_loop : protocol.
Lemma obeys_SchedStatus : obeysp SchedStatus.
Proof. unfold SchedStatus, durableSchedulerState. obey. Qed.
Hint Resolve obeys_SchedStatus : protocol.

Lemma obeys_call c : obeysp (sched_prog c).
Proof.
  destruct c as [self c]. destruct c; cbn [sched_prog fst snd]; unfold ignore, checked, run_and_release, Start, SubmitTask; obey.
Qed.
End Obey.

Lemma is_claim_dec (c : SchedCall) : {exists tid, c = CallClaim tid} + {~ exists tid, c = CallClaim tid}.
Proof. destruct c; try (right; intros [? ?]; discriminate). left. by eexists. Qed.

(** What is known of a finished call. *)
Definition call_post (calls : list (Sched * SchedCall)) (i : nat) (r : Result SError bool) (w : World P S) : Prop :=
  forall self tid, calls !! i = Some (self, CallClaim tid) -> r = Ok true -> claimed i tid w.

Lemma pool_obeys {AD : Admission P} (s : S) (calls : list (Sched * SchedCall)) w' ps' :
  store_ok s -> rtc (pool_step sched_responds) (fresh s, sched_prog <$> calls) (w', ps') ->
  world_ok (view s) w' /\ Forall admits (w_log w') /\
  forall i p, ps' !! i = Some p -> wp sched_responds (view s) admits i p (call_post calls i) w'.
Proof.
  intros Hs Hrun. eapply (wp_pool sched_responds (view s) admits (call_post calls)); [|exact Hrun|by apply fresh_ok|constructor|].
  - intros i r w w1 Hl Hq self tid Hc Hr. eapply claimed_grows; [by eapply later_grows|by eapply Hq].
  - intros i p. rewrite list_lookup_fmap. intros ([self c] & Hi & ->)%fmap_Some.
    assert (Hok : world_ok (view s) (fresh s)) by by apply fresh_ok.
    destruct (is_claim_dec c) as [[tid ->]|Hno].
    1: { apply (wp_claim self); [done|]. intros r w1 Hg Hcl self' tid' Hc Hr. simplify_eq. by apply Hcl. }
    apply obeys_call; [done|]. intros r w1 Hg self' tid' Hc Hr. destruct Hno. exists tid'. congruence.
Qed.

(** ** The state of a task along the log

    [R] is what may be appended to the stream of one task; its batches lead from state to state. *)

Section Log.
Context (R : State -> list TaskEvent -> Prop) (v0 : string -> list (StoredRecord P)) (tid : string) (w : World P S).
Hypothesis Hw : world_ok v0 w.
Hypothesis Hguard : forall e, e ∈ w_log w -> en_stream e = StreamID tid ->
  R (Project (task_view (en_before e))) (events_of (en_out e)).

Definition state_at (l : list (Entry P)) : State :=
  Project (task_view (v0 (StreamID tid) ++ outs (entries_for (StreamID tid) l))).

Lemma state_at_snoc l e :
  state_at (l ++ [e]) =
    if decide (en_stream e = StreamID tid) then apply_batch (state_at l) (task_view (en_out e)) else state_at l.
Proof using.
  unfold state_at. rewrite entries_for_app, outs_app. unfold entries_for at 2. rewrite filter_cons, filter_nil.
  case_decide; simpl; rewrite ?app_nil_r; [|done].
  rewrite app_assoc, task_view_app. apply project_app.
Qed.
Lemma state_at_end : state_at (w_log w) = Project (task_view (view (w_store w) (StreamID tid))).
Proof using Hw. unfold state_at. by rewrite (world_views _ _ Hw). Qed.

(** Along the log, the state at an entry of the stream is the one its batch was admitted at. *)
Lemma log_entry l1 e l2 :
  w_log w = l1 ++ e :: l2 -> en_stream e = StreamID tid ->
  Project (task_view (en_before e)) = state_at l1 /\ R (state_at l1) (events_of (en_out e)).
Proof using TL Hw Hguard.
  intros Heq He. pose proof (world_before _ _ Hw _ _ _ Heq) as Hb. rewrite He in Hb.
  assert (HE : Project (task_view (en_before e)) = state_at l1) by by rewrite Hb.
  split; [done|]. rewrite <- HE. apply Hguard; [|done]. rewrite Heq. apply elem_of_app. right. by left.
Qed.

(** What every batch of a stretch of the log preserves holds at its end. *)
Lemma log_invariant (I : State -> Prop) l1 l2 l3 :
  w_log w = l1 ++ l2 ++ l3 ->
  (forall s e, e ∈ l2 -> en_stream e = StreamID tid -> Project (task_view (en_before e)) = s ->
     R s (task_view (en_out e)).*1 -> I s -> I (apply_batch s (task_view (en_out e)))) ->
  I (state_at l1) -> I (state_at (l1 ++ l2)).
Proof using TL Hw Hguard.
  revert l3. induction l2 as [|e l2 IH] using rev_ind; intros l3 Heq HI H1; [by rewrite app_nil_r|].
  rewrite <- app_assoc in Heq. rewrite app_assoc, state_at_snoc.
  assert (H2 : I (state_at (l1 ++ l2))).
  { eapply IH; [exact Heq| |done]. intros s e' He'. apply HI. set_solver. }
  case_decide as He; [|done]. rewrite app_assoc in Heq.
  destruct (log_entry _ _ _ Heq He) as [Hb Ha].
  apply HI; [set_solver|done|done|done|done].
Qed.
Lemma log_always (I : State -> Prop) l1 l2 :
  w_log w = l1 ++ l2 ->
  (forall s e, e ∈ w_log w -> en_stream e = StreamID tid -> R s (task_view (en_out e)).*1 ->
     I s -> I (apply_batch s (task_view (en_out e)))) ->
  I (Project (task_view (v0 (StreamID tid)))) -> I (state_at l1).
Proof using TL Hw Hguard.
  intros Heq HI H0. apply (log_invariant I [] l1 l2); [done| |].
  - intros s e He Hst _. apply HI; [|done]. rewrite Heq. apply elem_of_app. by left.
  - unfold state_at. simpl. by rewrite app_nil_r.
Qed.

(** Where an invariant starts to hold after one entry and fails before a later one, an entry in
    between breaks it. *)
Lemma log_stretch (I : State -> Prop) (keeps : Entry P -> Prop) l1 e1 l2 e2 l3 :
  w_log w = l1 ++ e1 :: l2 ++ e2 :: l3 -> en_stream e1 = StreamID tid ->
  (forall s e, en_stream e = StreamID tid -> keeps e -> Project (task_view (en_before e)) = s ->
     R s (task_view (en_out e)).*1 -> I s -> I (apply_batch s (task_view (en_out e)))) ->
  I (apply_batch (state_at l1) (task_view (en_out e1))) ->
  (forall e, e ∈ l2 -> en_stream e = StreamID tid -> keeps e) ->
  I (state_at ((l1 ++ [e1]) ++ l2)).
Proof using TL Hw Hguard.
  intros Heq H1 HI Hstart Hk. eapply (log_invariant I (l1 ++ [e1]) l2 (e2 :: l3)).
  - by rewrite Heq, <- app_assoc.
  - intros s e He Hst. apply HI; [done|by apply Hk].
  - by rewrite state_at_snoc, decide_True.
Qed.
Lemma log_entry_after l1 e1 l2 e2 l3 :
  w_log w = l1 ++ e1 :: l2 ++ e2 :: l3 -> en_stream e2 = StreamID tid ->
  R (state_at ((l1 ++ [e1]) ++ l2)) (events_of (en_out e2)).
Proof using TL Hw Hguard.
  intros Heq H2. assert (Heq3 : w_log w = ((l1 ++ [e1]) ++ l2) ++ e2 :: l3).
  { by rewrite Heq, <- !app_assoc. }
  by destruct (log_entry _ _ _ Heq3 H2).
Qed.

Lemma log_runs l1 l2 :
  w_log w = l1 ++ l2 ->
  exists batches, task_view (outs (entries_for (StreamID tid) l1)) = concat batches /\
    runs R (Project (task_view (v0 (StreamID tid)))) batches.
Proof using TL Hw Hguard.
  revert l2. induction l1 as [|e l1 IH] using rev_ind; intros l2 Heq.
  { exists []. split; [done|constructor]. }
  rewrite <- app_assoc in Heq. simpl in Heq. destruct (IH _ Heq) as (batches & Hb & Hf).
  rewrite entries_for_app, outs_app, task_view_app, Hb. unfold entries_for. rewrite filter_cons, filter_nil.
  case_decide as He; [|exists batches; simpl; by rewrite app_nil_r].
  exists (batches ++ [task_view (en_out e)]). rewrite outs_single, concat_app. simpl. rewrite app_nil_r.
  split; [done|]. destruct (log_entry _ _ _ Heq He) as [_ Ha]. apply runs_snoc; [done|].
  rewrite <- Hb. unfold state_at in Ha. by rewrite task_view_app in Ha.
Qed.
Lemma log_refines :
  exists batches,
    task_view (view (w_store w) (StreamID tid)) = task_view (v0 (StreamID tid)) ++ concat batches /\
    runs R (Project (task_view (v0 (StreamID tid)))) batches.
Proof using TL Hw Hguard.
  destruct (log_runs (w_log w) []) as (batches & Hb & Hf); [by rewrite app_nil_r|].
  exists batches. split; [|done]. by rewrite (world_views _ _ Hw), task_view_app, Hb.
Qed.
End Log.

(** *** Logs of schedulers *)

Section SchedulerLog.
Context (v0 : string -> list (StoredRecord P)) (tid : string) (w : World P S).
Hypothesis Hw : world_ok v0 w.
Hypothesis Hall : Forall guard (w_log w).
Hypothesis Htid : tid <> emp.
Hypothesis Hinit : Forall event_ok (events_of (v0 (StreamID tid))).
Abbreviation state_at := (state_at v0 tid).

Lemma log_allowed e :
  e ∈ w_log w -> en_stream e = StreamID tid -> allowed (Project (task_view (en_before e))) (events_of (en_out e)).
Proof using TL Hall Htid. rewrite Forall_forall in Hall. intros He Hst. by apply (Hall e He tid). Qed.

Lemma log_state_ok l1 l2 : w_log w = l1 ++ l2 -> state_ok (state_at l1).
Proof using TL Hw Hall Htid Hinit.
  intros Heq. eapply (log_always allowed v0 tid w Hw log_allowed state_ok); [exact Heq| |].
  - intros s e _ _ Ha Hs. by apply batch_state_ok.
  - apply project_ok. unfold events_of in Hinit. by rewrite Forall_fmap in Hinit.
Qed.

Lemma log_result_once l1 e1 l2 xid sid :
  xid <> emp -> w_log w = l1 ++ e1 :: l2 -> en_stream e1 = StreamID tid ->
  Exists (is_result xid sid) (events_of (en_out e1)) ->
  Forall (fun e => en_stream e = StreamID tid -> ~ Exists (is_result xid sid) (events_of (en_out e))) l2.
Proof using TL Hw Hall Htid Hinit.
  intros Hx Heq H1 Hr1. apply Forall_forall. intros e2 (l3 & l4 & ->)%list_elem_of_split H2 Hr2.
  destruct (log_entry allowed v0 tid w Hw log_allowed _ _ _ Heq H1) as [_ Ha1].
  pose proof (log_state_ok _ _ Heq) as Hs1.
  assert (Hn2 : state_ok (state_at ((l1 ++ [e1]) ++ l3)) /\ result_state xid sid (state_at ((l1 ++ [e1]) ++ l3))).
  { eapply (log_stretch allowed v0 tid w Hw log_allowed (fun s => state_ok s /\ result_state xid sid s) (fun _ => True));
      [exact Heq|exact H1| | |done].
    - intros s e _ _ _ Ha [Hs Hr]. split; [by apply batch_state_ok|by apply result_state_batch].
    - split; [by apply batch_state_ok|]. by apply (result_batch (state_at l1) (task_view (en_out e1))). }
  pose proof (log_entry_after allowed v0 tid w Hw log_allowed _ _ _ _ _ Heq H2) as Ha2.
  destruct Hn2 as [Hs2 [[_ Hset] _]].
  destruct (result_batch _ (task_view (en_out e2)) xid sid Hs2 Ha2 Hr2) as [Hr _]. by apply (settled_not_running _ Hset).
Qed.

Lemma log_starts l1 e1 l2 e2 l3 :
  w_log w = l1 ++ e1 :: l2 ++ e2 :: l3 -> en_stream e1 = StreamID tid -> en_stream e2 = StreamID tid ->
  Exists is_start_event (events_of (en_out e1)) -> Exists is_start_event (events_of (en_out e2)) ->
  Exists (fun e => en_stream e = StreamID tid /\ Exists is_ready (events_of (en_out e))) l2.
Proof using TL Hw Hall Htid Hinit.
  intros Heq H1 H2 Hr1 Hr2. apply dec_stable. intros Hno.
  destruct (log_entry allowed v0 tid w Hw log_allowed l1 e1 _ Heq H1) as [_ Ha1].
  pose proof (log_state_ok l1 _ Heq) as Hs1.
  assert (Hn2 : state_ok (state_at ((l1 ++ [e1]) ++ l2)) /\ t_Status (st_Task (state_at ((l1 ++ [e1]) ++ l2))) <> StatusReady).
  { eapply (log_stretch allowed v0 tid w Hw log_allowed (fun s => state_ok s /\ t_Status (st_Task s) <> StatusReady)
      (fun e => ~ Exists is_ready (events_of (en_out e)))); [exact Heq|exact H1| | |].
    - intros s e _ Hk _ Ha [Hs Hn]. split; [by apply batch_state_ok|]. apply batch_not_ready; [done|done| |done].
      apply not_Exists_Forall; [apply _|exact Hk].
    - split; [by apply batch_state_ok|].
      by destruct (start_batch (state_at l1) (task_view (en_out e1)) Hs1 Ha1 Hr1) as [_ ->].
    - intros e He Hst Hex. apply Hno, Exists_exists. by exists e. }
  pose proof (log_entry_after allowed v0 tid w Hw log_allowed _ _ _ _ _ Heq H2) as Ha2.
  destruct Hn2 as [Hs2 Hn2]. by destruct (start_batch _ (task_view (en_out e2)) Hs2 Ha2 Hr2).
Qed.

Lemma log_idle l1 l2 :
  w_log w = l1 ++ l2 -> idle (Project (task_view (v0 (StreamID tid)))) ->
  idle (state_at l1) /\
  Forall (fun e => en_stream e = StreamID tid -> is_diagnostic_batch (events_of (en_out e))) l1.
Proof using TL Hw Hall Htid.
  clear Hinit. revert l2. induction l1 as [|e l1 IH] using rev_ind; intros l2 Heq Hi.
  { split; [|constructor]. unfold Pool.state_at. simpl. by rewrite app_nil_r. }
  rewrite <- app_assoc in Heq. simpl in Heq. destruct (IH _ Heq Hi) as [Hi' Hf].
  rewrite state_at_snoc, Forall_app, Forall_singleton. case_decide as He; [|done].
  destruct (log_entry allowed v0 tid w Hw log_allowed _ _ _ Heq He) as [_ Ha].
  destruct (idle_batch (state_at l1) (task_view (en_out e)) Hi' Ha). done.
Qed.
End SchedulerLog.
End Pool.

(** ** What every interleaving of schedulers satisfies *)

Section Properties.
Context {P : Type} {TP : TaskPayload P} {TL : TaskPayloadLaws P}.
Context {TX : ErrorTexts} {CF : CaseFold} {VJ : ValueJson}.
Context {S : Type} {ES : EventStore S P} {Laws : EventStoreLaws S P}.
Context (s : S) (calls : list (Sched * SchedCall)) (w : World P S)
  (ps : list (Prog P SchedEff (Result SError bool))) (tid : string).

(** C10: The schedulers refine the task protocol: whatever calls any number of them make and however
    their accesses to the store interleave, the events of a task stream are the initial ones
    followed by batches each of which the protocol allows in the state projected so far. *)
Theorem scheduler_refines_protocol :
  store_ok s -> tid <> emp ->
  rtc (pool_step sched_responds) (fresh s, sched_prog <$> calls) (w, ps) ->
  exists batches,
    task_view (view (w_store w) (StreamID tid)) = task_view (view s (StreamID tid)) ++ concat batches /\
    follows (Project (task_view (view s (StreamID tid)))) batches.
Proof using TL Laws.
  intros Hs Htid Hrun. destruct (pool_obeys (AD := schedulers_only) _ _ _ _ Hs Hrun) as (Hw & Hg & _).
  by apply (log_refines allowed), log_allowed.
Qed.

(** Claims of a task exclude each other: if two calls of [claim] on the same task both succeed,
    in whatever schedulers and interleaving, then between the executions they started somebody made
    the task ready again. *)
Theorem claims_separated i j self1 self2 :
  store_ok s -> tid <> emp -> Forall event_ok (events_of (view s (StreamID tid))) ->
  rtc (pool_step sched_responds) (fresh s, sched_prog <$> calls) (w, ps) ->
  calls !! i = Some (self1, CallClaim tid) -> calls !! j = Some (self2, CallClaim tid) -> i <> j ->
  ps !! i = Some (Ret (Ok true)) -> ps !! j = Some (Ret (Ok true)) ->
  exists l1 e1 l2 e2 l3, w_log w = l1 ++ e1 :: l2 ++ e2 :: l3 /\
    ((en_owner e1 = i /\ en_owner e2 = j) \/ (en_owner e1 = j /\ en_owner e2 = i)) /\
    Exists (fun e => en_stream e = StreamID tid /\ Exists is_ready (events_of (en_out e))) l2.
Proof using TL Laws.
  intros Hs Htid Hinit Hrun Hi Hj Hne Hri Hrj. destruct (pool_obeys (AD := schedulers_only) _ _ _ _ Hs Hrun) as (Hw & Hg & Hp).
  pose proof (Hp _ _ Hri self1 tid Hi eq_refl) as (e1 & t1 & x1 & He1 & Ho1 & Hst1 & _ & Hev1 & _).
  pose proof (Hp _ _ Hrj self2 tid Hj eq_refl) as (e2 & t2 & x2 & He2 & Ho2 & Hst2 & _ & Hev2 & _).
  assert (Hdiff : e1 <> e2) by congruence.
  destruct (two_elements _ e1 e2 He1 He2 Hdiff) as (l1 & a & l2 & b & l3 & Heq & Hab).
  assert (Hs1 : Exists is_start_event (events_of (en_out e1))) by (rewrite Hev1; by left).
  assert (Hs2 : Exists is_start_event (events_of (en_out e2))) by (rewrite Hev2; by left).
  exists l1, a, l2, b, l3. split; [done|].
  destruct Hab as [[-> ->]|[-> ->]]; (split; [auto|]); by eapply (log_starts (view s) tid w).
Qed.

(** Exactly-once results: once a result (completed or failed) of a step of an execution is in the
    task stream, no scheduler ever appends another result of that step of that execution, however
    often the execution is interrupted, requeued and resumed by others meanwhile. *)
Theorem step_result_once xid sid l1 e1 l2 :
  store_ok s -> tid <> emp -> Forall event_ok (events_of (view s (StreamID tid))) ->
  rtc (pool_step sched_responds) (fresh s, sched_prog <$> calls) (w, ps) ->
  xid <> emp -> w_log w = l1 ++ e1 :: l2 -> en_stream e1 = StreamID tid ->
  Exists (is_result xid sid) (events_of (en_out e1)) ->
  Forall (fun e => en_stream e = StreamID tid -> ~ Exists (is_result xid sid) (events_of (en_out e))) l2.
Proof using TL Laws.
  intros Hs Htid Hinit Hrun. destruct (pool_obeys (AD := schedulers_only) _ _ _ _ Hs Hrun) as (Hw & Hg & _).
  by apply (log_result_once (view s) tid w).
Qed.

(** A task that is neither ready nor running is left alone: the schedulers add nothing to its
    stream but diagnostics, and it stays neither ready nor running. *)
Theorem idle_task_untouched :
  store_ok s -> tid <> emp -> idle (Project (task_view (view s (StreamID tid)))) ->
  rtc (pool_step sched_responds) (fresh s, sched_prog <$> calls) (w, ps) ->
  idle (Project (task_view (view (w_store w) (StreamID tid)))) /\
  Forall (fun e => en_stream e = StreamID tid -> is_diagnostic_batch (events_of (en_out e))) (w_log w).
Proof using TL Laws.
  intros Hs Htid Hi Hrun. destruct (pool_obeys (AD := schedulers_only) _ _ _ _ Hs Hrun) as (Hw & Hg & _).
  rewrite (world_views _ _ Hw). apply (log_idle (view s) tid w Hw Hg Htid (w_log w) []); [by rewrite app_nil_r|done].
Qed.

(** C11: [withExpectedRetry] is linearizable: alone or among others, when it answers true it has
    appended to the task stream exactly one batch, the one its builder answers on the state projected
    from everything before that batch; when it answers false it has appended nothing; after a last
    conflict it has appended diagnostics only; after any other error, nothing or that one batch. *)
Theorem retry_linearizes {AD : Admission P} v0 i (f : State -> bool * list TaskEvent) w0 :
  world_ok v0 w0 -> (forall s, (f s).1 = true -> allowed s (f s).2) ->
  wp sched_responds v0 admits i (withExpectedRetry tid (fun s => Ret (f s)))
    (retry_post v0 i (fun s events => f s = (true, events)) tid w0) w0.
Proof using TL Laws.
  intros Hw Hf. eapply (wp_retry v0 i); [|intros s' events HB|done|done].
  - apply builds_pure. intros s' Ht. destruct (f s'). simpl in *. by subst.
  - specialize (Hf s'). rewrite HB in Hf. by apply Hf.
Qed.
End Properties.

(** ** The theorems at work on two schedulers *)

Module PoolDemo.
#[local] Instance demo_texts : ErrorTexts := { ts_text _ := "append failed"%string; s_text _ := "failed"%string; s_canceled _ := false }.
#[local] Instance demo_json : ValueJson := { json_text _ := "{}"%string }.
#[local] Existing Instance CompletionDemo.ascii_fold.

(** The clock stands at 100 for the first [pause] calls and then jumps past every lease. *)
Definition handle (pause n : nat) (X : Type) (o : SchedEff X) : X :=
  match o in SchedEff X return X with
  | ENow => if n <? pause then 100%Z else 1000000000000%Z
  | ENewID prefix => (prefix ++ "1")%string
  | ECtxErr => None
  | ESleep _ => None
  | ESched f => (f LocalDemo.sched).2
  | ERunStep _ => Ok (mkRunResult (VString "done") [])
  | EReplace _ _ => None
  | EHasPublisher => false
  | EPublish _ _ => None
  | EOnError _ => tt
  | EGo _ => tt
  | EAwaitTick => false
  | EEmit _ => tt
  end.
Lemma handle_responds pause n X (o : SchedEff X) : sched_responds X o (handle pause n X o).
Proof. destruct o as [|[]| | | | | | | | | | |]; simpl; try done. by eexists. Qed.

Definition self (name : string) : Sched :=
  LocalDemo.sched <| sd_workerID := name |> <| sd_leaseDuration := defaultLeaseDuration |> <| sd_maxAttempts := 3%Z |>.
Definition step : Step := mkStep "a" "first" emp emp [] [] [] [] emp emp [] ∅.
Definition task (status : Status) : Task :=
  zero_Task <| t_ID := "t1" |> <| t_Title := "ship" |> <| t_Status := status |> <| t_Steps := [step] |>.
Definition store (status : Status) : MemoryStore TaskEvent :=
  run_batches NewMemoryStore
    [(demo_env "init", [mkRequest (StreamID "t1") zero_AppendOptions
                          (taskRecords "t1" (payloads [Created "t1" (task status)]))])].
Lemma store_good status : store_ok (store status).
Proof. apply run_batches_wf, new_store_wf. Qed.

(** [turns]: which thread moves, and how many calls it makes. *)
Definition schedule (turns : list (nat * nat)) : list nat := flat_map (fun '(i, n) => replicate n i) turns.
Definition final (pause : nat) (status : Status) (calls : list (Sched * SchedCall)) (turns : list (nat * nat)) :=
  run_pool (handle pause) (fun n => demo_env (pretty n)) (schedule turns) 0
    (fresh (store status), sched_prog <$> calls).
Lemma final_run pause status calls turns :
  rtc (pool_step sched_responds) (fresh (store status), sched_prog <$> calls)
    ((final pause status calls turns).1, (final pause status calls turns).2).
Proof. rewrite <- surjective_pairing. apply run_pool_sound. intros. apply handle_responds. Qed.

(** [A] claims the task, [B] finds the lease expired and requeues the task, [B] claims it. *)
Definition claims : list (Sched * SchedCall) :=
  [(self "A", CallClaim "t1"); (self "B", CallReconcile "t1"); (self "B", CallClaim "t1")].
Definition takeover := final 20 StatusReady claims [(0, 20); (1, 30); (2, 30)].

(** [A] and [B] run the task at the same time, taking turns; [A] wins. *)
Definition runs : list (Sched * SchedCall) := [(self "A", CallRunTask 5 "t1"); (self "B", CallRunTask 5 "t1")].
Definition race := final 10000 StatusReady runs [(0, 3); (1, 5); (0, 60); (1, 60)].
Definition idle_race := final 10000 StatusCompleted runs [(0, 3); (1, 5); (0, 60); (1, 60)].
Lemma store_events status :
  Forall event_ok (events_of (view (store StatusReady) (StreamID "t1"))) /\
  events_of (view (store status) (StreamID "t1")) = [Created "t1" (task status)].
Proof.
  assert (H : forall st, events_of (view (store st) (StreamID "t1")) = [Created "t1" (task st)])
    by (intros st; by vm_compute).
  split; [|apply H]. rewrite H. by repeat constructor.
Qed.
End PoolDemo.
#[local] Existing Instances PoolDemo.demo_texts PoolDemo.demo_json CompletionDemo.ascii_fold.

Lemma scheduler_refines_protocol_witness :
  exists batches,
    task_view (view (w_store PoolDemo.race.1) (StreamID "t1")) =
      task_view (view (PoolDemo.store StatusReady) (StreamID "t1")) ++ concat batches /\
    follows (Project (task_view (view (PoolDemo.store StatusReady) (StreamID "t1")))) batches.
Proof.
  apply (scheduler_refines_protocol (PoolDemo.store StatusReady) PoolDemo.runs PoolDemo.race.1 PoolDemo.race.2 "t1").
  - apply PoolDemo.store_good.
  - done.
  - apply PoolDemo.final_run.
Defined.

Lemma claims_separated_witness :
  PoolDemo.takeover.2 = [Ret (Ok true); Ret (Ok false); Ret (Ok true)] /\
  exists l1 e1 l2 e2 l3, w_log PoolDemo.takeover.1 = l1 ++ e1 :: l2 ++ e2 :: l3 /\
    ((en_owner e1 = 0 /\ en_owner e2 = 2) \/ (en_owner e1 = 2 /\ en_owner e2 = 0)) /\
    Exists (fun e => en_stream e = StreamID "t1" /\ Exists is_ready (events_of (en_out e))) l2.
Proof.
  assert (Hps : PoolDemo.takeover.2 = [Ret (Ok true); Ret (Ok false); Ret (Ok true)]) by (vm_compute; reflexivity).
  split; [exact Hps|].
  refine (claims_separated (PoolDemo.store StatusReady) PoolDemo.claims PoolDemo.takeover.1 PoolDemo.takeover.2 "t1"
           0 2 (PoolDemo.self "A") (PoolDemo.self "B") _ _ _ _ eq_refl eq_refl _ _ _).
  - apply PoolDemo.store_good.
  - discriminate.
  - apply (PoolDemo.store_events StatusReady).
  - apply PoolDemo.final_run.
  - discriminate.
  - by rewrite Hps.
  - by rewrite Hps.
Defined.

(** The result of step [a] is the seventh append of the race; nobody appends another one after it. *)
Lemma step_result_once_witness :
  exists l1 e1 l2, w_log PoolDemo.race.1 = l1 ++ e1 :: l2 /\ length l2 = 3 /\
    Exists (is_result "exec_1" "a") (events_of (en_out e1)) /\
    Forall (fun e => en_stream e = StreamID "t1" -> ~ Exists (is_result "exec_1" "a") (events_of (en_out e))) l2.
Proof.
  assert (He : (fun e => (en_stream e, events_of (en_out e))) <$> w_log PoolDemo.race.1 !! 6 =
    Some (StreamID "t1", [StepCompleted "t1" "exec_1" "a" (VString "done")])) by (vm_compute; reflexivity).
  assert (Hlen : length (drop 7 (w_log PoolDemo.race.1)) = 3) by (vm_compute; reflexivity).
  apply fmap_Some in He as (e1 & Hat & He). symmetry in He. injection He as Hst Hev.
  pose proof (take_drop_middle _ _ _ Hat) as Heq. symmetry in Heq.
  assert (Hres : Exists (is_result "exec_1" "a") (events_of (en_out e1))) by (rewrite Hev; left; split; reflexivity).
  exists (take 6 (w_log PoolDemo.race.1)), e1, (drop 7 (w_log PoolDemo.race.1)).
  split; [exact Heq|]. split; [exact Hlen|]. split; [exact Hres|].
  refine (step_result_once (PoolDemo.store StatusReady) PoolDemo.runs PoolDemo.race.1 PoolDemo.race.2 "t1"
    "exec_1" "a" _ e1 _ _ _ _ _ _ Heq Hst Hres).
  - apply PoolDemo.store_good.
  - discriminate.
  - apply (PoolDemo.store_events StatusReady).
  - apply PoolDemo.final_run.
  - discriminate.
Defined.

Lemma idle_task_untouched_witness :
  PoolDemo.idle_race.2 = [Ret (Ok false); Ret (Ok false)] /\
  idle (Project (task_view (view (w_store PoolDemo.idle_race.1) (StreamID "t1")))).
Proof.
  split; [vm_compute; reflexivity|].
  refine (proj1 (idle_task_untouched (PoolDemo.store StatusCompleted) PoolDemo.runs PoolDemo.idle_race.1
    PoolDemo.idle_race.2 "t1" _ _ _ _)).
  - apply PoolDemo.store_good.
  - done.
  - split; by vm_compute.
  - apply PoolDemo.final_run.
Defined.

(** A dispatch of step [a] of the running execution, retried on conflicts. *)
Lemma retry_linearizes_witness :
  let f s := match running_execution s "exec_1" with
             | Some x => if decide (step_status x "a" = StepStatusWaiting)
                         then (true, [StepDispatched "t1" "exec_1" "a" "first" emp emp emp]) else (false, [])
             | None => (false, [])
             end in
  wp sched_responds (view (PoolDemo.store StatusReady)) admits 0 (withExpectedRetry "t1" (fun s => Ret (f s)))
    (retry_post (view (PoolDemo.store StatusReady)) 0 (fun s events => f s = (true, events)) "t1"
      (fresh (PoolDemo.store StatusReady))) (fresh (PoolDemo.store StatusReady)).
Proof.
  apply retry_linearizes.
  - apply fresh_ok, PoolDemo.store_good.
  - intros s. destruct (running_execution s "exec_1") eqn:E; [|done]. case_decide; [|done].
    intros _. by eapply allowed_dispatch.
Defined.
