(* ===== verification/SystemSpec.v ===== *)
(** * What a system of users and schedulers may append to a task stream

    The scheduler protocol ([Protocol.allowed]) together with the batches of users ([user_batch]), and
    what these batches preserve of the projected state. *)

From S2P Require Import Prelude Event Operation Graph Workflow Task TaskProject Prog TaskStore.
From S2P Require Import SchedLocal Completion WorkerText Scheduler TaskOps Edits Protocol.

(** ** What users write *)

Inductive user_batch (tid : string) (s : State) : list TaskEvent -> Prop :=
| user_creates req t :
    s = zero_State -> task_ok t -> t_ID t = tid -> t_Status t <> emp ->
    user_batch tid s [CreateRequested tid req; Created tid t]
| user_edits es s' : edits tid s es s' -> user_batch tid s es
| user_watches m reason :
    t_ID (st_Task s) = tid -> user_batch tid s [Revised tid ((st_Task s) <| t_Metadata := m |>) reason].

(** What may be appended to the stream of a task. *)
Definition system_batch (tid : string) (s : State) (es : list TaskEvent) : Prop := allowed s es \/ user_batch tid s es.

(** ** Events and well-formed tasks *)

(** An event that neither creates nor revises keeps what [Task.Validate] looks at, but the status. *)
Definition keeps_task (t u : Task) : Prop :=
  t_Title u = t_Title t /\ t_Objective u = t_Objective t /\ t_Priority u = t_Priority t /\ t_Steps u = t_Steps t /\
  t_Workflow u = t_Workflow t /\ (t_ID t <> emp -> t_ID u = t_ID t).
Definition replaces_task (e : TaskEvent) : Prop := match e with Created _ _ | Revised _ _ _ => True | _ => False end.

Lemma keeps_refl t : keeps_task t t.
Proof. done. Qed.
Lemma keeps_trans t u v : keeps_task t u -> keeps_task u v -> keeps_task t v.
Proof. unfold keeps_task. intuition congruence. Qed.
Lemma with_task_id_keeps s tid : keeps_task (st_Task s) (st_Task (with_task_id s tid)).
Proof. split_and!; try done. intros Hne. simpl. unfold firstTaskID. by rewrite decide_True. Qed.
Lemma on_artifacts_keeps f s xid sid at_ : keeps_task (st_Task s) (st_Task (on_artifacts f s xid sid at_)).
Proof. unfold on_artifacts. by repeat case_decide. Qed.
Lemma apply_keeps_task s e at_ : ~ replaces_task e -> keeps_task (st_Task s) (st_Task (Apply s e at_)).
Proof.
  intros He. unfold Apply. rewrite cloneState_id.
  destruct e; try (by destruct He); try (by apply keeps_refl); try (apply with_task_id_keeps);
    try (eapply keeps_trans; [apply with_task_id_keeps|apply on_artifacts_keeps]).
  - unfold apply_execution_started. case_decide; [apply keeps_refl|].
    eapply keeps_trans; [apply (with_task_id_keeps s taskID)|]. by repeat case_match.
  - unfold apply_lease_renewed. by destruct (decide (x_Status _ = StatusRunning)).
  - by split_and!.
  - by split_and!.
  - by split_and!.
  - by split_and!.
  - unfold apply_diagnostic. eapply keeps_trans; [apply (with_task_id_keeps s taskID)|].
    generalize (if decide (executionID = emp) then st_Current (touch (with_task_id s taskID) at_) else executionID).
    intros id. case_decide; [by split_and!|]. case_decide; by split_and!.
Qed.

(** The task of a stream, once there is one, is well formed and has the stream's identifier. *)
Definition titled (t : Task) : Prop := t_Title t <> emp \/ t_Objective t <> emp.
Definition task_inv (tid : string) (s : State) : Prop :=
  state_ok s /\ (titled (st_Task s) -> task_ok (st_Task s) /\ t_ID (st_Task s) = tid).

Lemma keeps_task_ok t u : keeps_task t u -> known ValidStatus (t_Status u) -> task_ok t -> task_ok u.
Proof. intros (H1 & H2 & H3 & H4 & H5 & _) Hst (Ht & _ & Hp & Hs & Hw). unfold task_ok. by rewrite H1, H2, H3, H4, H5. Qed.

Lemma task_inv_keeps tid s e at_ :
  tid <> emp -> event_ok e -> ~ replaces_task e -> task_inv tid s -> task_inv tid (Apply s e at_).
Proof.
  intros Htid He Hr [Hs Ht]. pose proof (apply_keeps_task s e at_ Hr) as Hk.
  assert (Hs' : state_ok (Apply s e at_)) by by apply apply_ok. split; [done|]. intros Hti.
  pose proof Hk as (H1 & H2 & _ & _ & _ & Hid). destruct Ht as [Hok HID].
  { unfold titled in *. by rewrite <- H1, <- H2. }
  split; [|by rewrite Hid, HID by by rewrite HID]. eapply keeps_task_ok; [exact Hk|apply Hs'|exact Hok].
Qed.

Lemma task_ok_fields t u :
  t_Title u = t_Title t -> t_Objective u = t_Objective t -> t_Priority u = t_Priority t -> t_Steps u = t_Steps t ->
  t_Workflow u = t_Workflow t -> known ValidStatus (t_Status u) -> task_ok t -> task_ok u.
Proof. intros H1 H2 H3 H4 H5 Hst (Ht & _ & Hp & Hs & Hw). unfold task_ok. by rewrite H1, H2, H3, H4, H5. Qed.

(** Fields a created or revised task has in the state. *)
Lemma apply_created_task s tid t at_ :
  let u := st_Task (Apply s (Created tid t) at_) in
  t_Title u = t_Title t /\ t_Objective u = t_Objective t /\ t_Priority u = t_Priority t /\ t_Steps u = t_Steps t /\
  t_Workflow u = t_Workflow t /\ (t_ID t <> emp -> t_ID u = t_ID t) /\ (t_Status t <> emp -> t_Status u = t_Status t).
Proof.
  unfold Apply. rewrite cloneState_id. unfold apply_created. rewrite cloneTask_id.
  destruct (decide (t_ID t = emp)), (time_IsZero _); simpl; destruct (decide (t_Status _ = emp)); by split_and!.
Qed.
Lemma apply_revised_task s tid t reason at_ :
  let u := st_Task (Apply s (Revised tid t reason) at_) in
  t_Title u = t_Title t /\ t_Objective u = t_Objective t /\ t_Priority u = t_Priority t /\ t_Steps u = t_Steps t /\
  t_Workflow u = t_Workflow t /\ (t_ID t <> emp -> t_ID u = t_ID t) /\
  t_Status u = (if decide (t_Status t = emp) then t_Status (st_Task s) else t_Status t).
Proof.
  unfold Apply. rewrite cloneState_id. unfold apply_revised. rewrite cloneTask_id.
  destruct (decide (t_ID t = emp)); simpl; destruct (decide (t_Status _ = emp)); simpl; case_match; by split_and!.
Qed.

Lemma watch_status s tid m reason at_ :
  t_Status (st_Task (Apply s (Revised tid ((st_Task s) <| t_Metadata := m |>) reason) at_)) = t_Status (st_Task s).
Proof.
  destruct (apply_revised_task s tid ((st_Task s) <| t_Metadata := m |>) reason at_) as (_ & _ & _ & _ & _ & _ & ->).
  simpl. by case_decide.
Qed.

Lemma task_inv_revised tid s t reason at_ :
  tid <> emp -> t_ID t = tid -> task_ok t -> task_inv tid s -> task_inv tid (Apply s (Revised tid t reason) at_).
Proof.
  intros Htid Hid Ht [Hs _]. assert (He : event_ok (Revised tid t reason)) by apply Ht.
  assert (Hs' : state_ok (Apply s (Revised tid t reason) at_)) by by apply apply_ok. split; [done|]. intros _.
  destruct (apply_revised_task s tid t reason at_) as (H1 & H2 & H3 & H4 & H5 & H6 & _).
  split; [|by rewrite H6; rewrite Hid]. by eapply task_ok_fields; try eassumption; apply Hs'.
Qed.

(** ** Batches of users *)

Lemma edit_event_ok tid s e : edit tid s e -> event_ok e.
Proof.
  destruct 1; simpl; try done; try by apply known_valid.
  match goal with H : task_ok _ |- _ => apply H end.
Qed.

(** The status an event of a user gives the task. *)
Definition user_status (e : TaskEvent) (old : Status) : Status :=
  match e with
  | Revised _ t _ => if decide (t_Status t = emp) then old else t_Status t
  | StatusChanged _ _ current _ => current
  | _ => old
  end.
Lemma edit_status_effect tid s0 s e at_ :
  edit tid s0 e -> t_Status (st_Task (Apply s e at_)) = user_status e (t_Status (st_Task s)).
Proof.
  destruct 1; try (unfold Apply; rewrite cloneState_id; apply (on_artifacts_status _ (with_task_id s tid))); try done.
  - apply apply_revised_task.
  - unfold Apply. by rewrite cloneState_id.
Qed.

(** The stored events are applied at the times they were stored at: the states they lead through
    have the statuses of those the edits were tried on. *)
Lemma edits_ind (I : State -> Prop) tid s0 s0' s rs :
  (forall s0 s e at_, edit tid s0 e -> t_Status (st_Task s) = t_Status (st_Task s0) -> e ∈ rs.*1 ->
     I s -> I (Apply s e at_)) ->
  edits tid s0 rs.*1 s0' -> t_Status (st_Task s) = t_Status (st_Task s0) -> I s -> I (apply_batch s rs).
Proof.
  intros HI He. remember rs.*1 as es eqn:Hes. revert s rs Hes HI. induction He as [s0|s0 e at0 es s0' He _ IH]; intros s rs Hes HI Hst Hs.
  - by destruct rs.
  - destruct rs as [|[e' at_] rs]; [done|]. injection Hes as <- ->. apply (IH (Apply s e at_) rs); [done| | |].
    + intros s1 s2 e2 at2 He2 Hst2 Hin. apply (HI s1); [done|done|by right].
    + rewrite !(edit_status_effect tid s0 _ e) by done. by rewrite Hst.
    + by apply (HI s0); [done|done|left|].
Qed.

Lemma edit_inv tid s0 s e at_ : tid <> emp -> edit tid s0 e -> task_inv tid s -> task_inv tid (Apply s e at_).
Proof.
  intros Htid He. pose proof (edit_event_ok _ _ _ He) as Hok.
  destruct He; try (apply task_inv_keeps; [done|done|by intros []]). by apply task_inv_revised.
Qed.

Lemma scheduler_event_inv tid s e at_ :
  tid <> emp -> is_scheduler_event s e -> task_inv tid s -> task_inv tid (Apply s e at_).
Proof.
  intros Htid He Hi. assert (Hok : event_ok e) by (eapply scheduler_event_ok; [apply Hi|done]).
  apply task_inv_keeps; [done|done| |done]. intros Hr. by destruct e.
Qed.

Lemma watch_inv tid s m reason at_ :
  tid <> emp -> t_ID (st_Task s) = tid -> task_inv tid s ->
  task_inv tid (Apply s (Revised tid ((st_Task s) <| t_Metadata := m |>) reason) at_).
Proof.
  intros Htid Hid [Hs Ht]. set (t := (st_Task s) <| t_Metadata := m |>).
  assert (Hok : event_ok (Revised tid t reason)) by apply Hs.
  split; [by apply apply_ok|]. intros Hti. destruct (apply_revised_task s tid t reason at_) as (H1 & H2 & _).
  assert (Hti' : titled (st_Task s)) by (unfold titled in *; by rewrite H1, H2 in Hti).
  destruct (Ht Hti') as [Htok _]. assert (Htok' : task_ok t) by (by apply (task_ok_fields (st_Task s)); try done; apply Hs).
  apply (task_inv_revised tid s t reason at_ Htid Hid Htok' (conj Hs Ht)). done.
Qed.

Lemma create_inv tid t req at1 at2 :
  task_ok t -> t_ID t = tid -> tid <> emp ->
  task_inv tid (Apply (Apply zero_State (CreateRequested tid req) at1) (Created tid t) at2).
Proof.
  intros Hok Hid Htid. set (s := Apply zero_State _ _). assert (Hs : state_ok s) by (apply apply_ok; [apply state_ok_zero|exact I]).
  assert (He : event_ok (Created tid t)) by apply Hok.
  assert (Hs' : state_ok (Apply s (Created tid t) at2)) by by apply apply_ok. split; [done|]. intros _.
  destruct (apply_created_task s tid t at2) as (H1 & H2 & H3 & H4 & H5 & H6 & _).
  split; [by eapply task_ok_fields; try eassumption; apply Hs'|by rewrite H6; rewrite Hid].
Qed.

Lemma system_batch_inv tid s rs :
  tid <> emp -> system_batch tid s rs.*1 -> task_inv tid s -> task_inv tid (apply_batch s rs).
Proof.
  intros Htid [Ha|Hu] Hi.
  - apply (batch_ind (task_inv tid)); [|apply Hi|done|done]. intros s' e at_ _ He _. by apply scheduler_event_inv.
  - remember rs.*1 as es eqn:Hes. destruct Hu as [req t -> Hok Hid Hst|es s' He|m reason Hid].
    + destruct rs as [|[e1 a1] [|[e2 a2] [|]]]; try done. injection Hes as <- <-. by apply create_inv.
    + subst es. eapply (edits_ind (task_inv tid)); [|exact He|done|exact Hi].
      intros s0 s1 e at_ He1 _ _. by apply edit_inv with s0.
    + destruct rs as [|[e1 a1] [|]]; try done. injection Hes as <-. by apply watch_inv.
Qed.

(** ** What users may undo *)

Lemma edits_forall tid s es s' : edits tid s es s' -> Forall (fun e => exists s0, edit tid s0 e) es.
Proof. induction 1; constructor; [by eexists|done]. Qed.

(** A task that is neither new nor ready stays so until somebody makes it ready. *)
Definition underway (s : State) : Prop :=
  state_ok s /\ t_Status (st_Task s) <> emp /\ t_Status (st_Task s) <> StatusReady.

Lemma valid_nonempty status : ValidStatus status = true -> status <> emp.
Proof. intros H ->. discriminate. Qed.

Lemma scheduler_underway s e at_ :
  is_scheduler_event s e -> ~ is_ready e -> underway s -> underway (Apply s e at_).
Proof.
  intros He Hr (Hs & Hne & Hnr). split; [|split].
  - apply apply_ok; [done|]. by eapply scheduler_event_ok.
  - rewrite apply_status by done. destruct e; simpl in *; try done; try discriminate.
    + by apply valid_nonempty.
    + case_decide; simpl; [done|discriminate].
  - intros H. apply Hr. by eapply apply_not_ready.
Qed.
Lemma edit_underway tid s0 s e at_ :
  edit tid s0 e -> t_Status (st_Task s) = t_Status (st_Task s0) -> ~ is_ready e -> underway s -> underway (Apply s e at_).
Proof.
  intros He Hst Hr (Hs & Hne & Hnr). split; [apply apply_ok; [done|by eapply edit_event_ok]|].
  rewrite (edit_status_effect tid s0) by done. destruct He as [next reason _ _ Hn _| | | | |current reason Hv _]; simpl; try done.
  - rewrite Hn, <- Hst. by case_decide.
  - split; [by apply valid_nonempty|exact Hr].
Qed.

Lemma system_underway tid s rs :
  system_batch tid s rs.*1 -> ~ Exists is_ready rs.*1 -> underway s -> underway (apply_batch s rs).
Proof.
  intros Hb Hr Hu. assert (Hno : forall e, e ∈ rs.*1 -> ~ is_ready e).
  { intros e He Hre. apply Hr, Exists_exists. by exists e. }
  destruct Hb as [Ha|Hb].
  - apply (batch_ind underway); [|apply Hu|done|done]. intros s' e at_ _ He Hin. by apply scheduler_underway; [|apply Hno].
  - remember rs.*1 as es eqn:Hes. destruct Hb as [req t -> _ _ _|es s' He|m reason _].
    + by destruct Hu as (_ & [] & _).
    + subst es. eapply (edits_ind underway); [|exact He|done|exact Hu].
      intros s0 s1 e at_ He1 Hst Hin. by apply edit_underway with tid s0; [..|apply Hno].
    + destruct rs as [|[e1 a1] [|]]; try done. injection Hes as <-. destruct Hu as (Hs & Hne & Hnr).
      change (underway (Apply s (Revised tid ((st_Task s) <| t_Metadata := m |>) reason) a1)).
      split; [apply apply_ok; [done|apply Hs]|]. by rewrite watch_status.
Qed.

Lemma system_start tid s rs :
  state_ok s -> system_batch tid s rs.*1 -> Exists is_start_event rs.*1 ->
  t_Status (st_Task s) = StatusReady /\ underway (apply_batch s rs).
Proof.
  intros Hs [Ha|Hu] Hex.
  - destruct (start_batch s rs Hs Ha Hex) as [Hr Hn]. split; [done|]. split; [by apply batch_state_ok|].
    rewrite Hn. by split.
  - exfalso. remember rs.*1 as es eqn:Hes. clear Hes. destruct Hu as [req t _ _ _ _|es s' Hed|m reason _].
    + by repeat (apply Exists_cons in Hex as [Hex|Hex]; [done|]); apply Exists_nil in Hex.
    + revert Hex. eapply no_event; [|by eapply edits_forall]. intros e [s0 []]; simpl; tauto.
    + by apply Exists_cons in Hex as [[]|Hex%Exists_nil].
Qed.

(** *** Results and their undoing *)

(** Events of users that leave a settled step of the current execution as it is. *)
Definition user_keeps (xid sid : string) (e : TaskEvent) : Prop :=
  match e with
  | Revised _ t _ => sid ∈ s_ID <$> t_Steps t
  | StatusChanged _ _ current _ => current <> StatusReady
  | StepStatusChanged _ xid' sid' _ current _ _ => xid' = xid /\ (sid' = sid -> settled current)
  | ArtifactAdded _ xid' _ _ | ArtifactUpdated _ xid' _ _ _ | ArtifactRemoved _ xid' _ _ _ => xid' = emp \/ xid' = xid
  | _ => True
  end.
(** The others: they remove the step, release the task, change the step or switch executions. *)
Definition undoes (xid sid : string) (e : TaskEvent) : Prop := ~ user_keeps xid sid e.
#[global] Instance user_keeps_dec xid sid e : Decision (user_keeps xid sid e).
Proof. destruct e; simpl; try apply _. Defined.

Lemma reconcile_settled steps m sid :
  sid ∈ s_ID <$> steps -> settled (se_Status (m !!! sid)) ->
  se_Status (reconcileExecutionSteps steps m !!! sid) = se_Status (m !!! sid).
Proof.
  intros Hin Hset. unfold reconcileExecutionSteps.
  assert (Hgen : forall out : gmap string StepExecution,
    se_Status (out !!! sid) = se_Status (m !!! sid) \/ sid ∈ s_ID <$> steps ->
    se_Status (fold_left (fun out step => <[s_ID step := fill_step step (m !!! s_ID step)]> out) steps out !!! sid) =
    se_Status (m !!! sid)).
  { clear Hin. induction steps as [|st steps IH]; intros out Ho; cbn [fold_left].
    - destruct Ho as [Ho|Ho]; [done|by apply elem_of_nil in Ho].
    - apply IH. destruct (decide (s_ID st = sid)) as [<-|Hne].
      + left. rewrite lookup_total_insert_eq. by apply fill_step_settled.
      + rewrite lookup_total_insert_ne by done. destruct Ho as [Ho|Ho]; [by left|].
        apply elem_of_cons in Ho as [Ho|Ho]; [by subst|by right]. }
  apply Hgen. by right.
Qed.

(** A settled step has an entry. *)
Lemma settled_entry xid sid s :
  settled_in xid sid s -> exists x, st_Executions s !! xid = Some x /\ settled (se_Status (x_Steps x !!! sid)).
Proof.
  intros [_ Hs]. unfold step_of in Hs. rewrite steps_execution in Hs.
  destruct (st_Executions s !! xid) as [x|]; [by exists x|]. cbn in Hs. exfalso.
  by apply settled_nonempty in Hs.
Qed.

Lemma result_state_intro xid sid s' x' :
  st_Current s' = xid -> st_Executions s' !! xid = Some x' -> settled (se_Status (x_Steps x' !!! sid)) ->
  (t_Status (st_Task s') = StatusReady -> x_Status x' = StatusInterrupted) -> result_state xid sid s'.
Proof.
  intros Hc Hl Hs Hr. split; [split; [done|]|].
  - unfold step_of. by rewrite steps_execution, Hl.
  - by rewrite status_of_execution, Hl.
Qed.
Lemma result_state_elim xid sid s :
  result_state xid sid s ->
  exists x, st_Current s = xid /\ st_Executions s !! xid = Some x /\ settled (se_Status (x_Steps x !!! sid)) /\
    (t_Status (st_Task s) = StatusReady -> x_Status x = StatusInterrupted).
Proof.
  intros [Hse Hr]. destruct (settled_entry _ _ _ Hse) as (x & Hl & Hx). exists x. destruct Hse as [Hc _].
  split_and!; try done. by rewrite status_of_execution, Hl in Hr.
Qed.

Lemma execution_found s xid x : st_Executions s !! xid = Some x -> execution s xid = x.
Proof. intros Hl. by rewrite execution_spec, Hl. Qed.

(** Writing the current execution, with the step and the execution's status as they were. *)
Lemma result_state_write xid sid s s0 x x' :
  st_Current s = xid -> st_Executions s !! xid = Some x -> st_Executions s0 = st_Executions s -> x_ID x' = xid ->
  settled (se_Status (x_Steps x' !!! sid)) -> x_Status x' = x_Status x ->
  (t_Status (st_Task s0) = StatusReady -> x_Status x = StatusInterrupted) ->
  result_state xid sid (make_current s0 xid x').
Proof.
  intros Hc Hl HE Hid Hset Hst Hr. eapply (result_state_intro _ _ _ x'); [done| |done|by rewrite Hst].
  rewrite (make_current_executions s) by done. by rewrite lookup_insert_eq.
Qed.

Lemma set_step_settled sid sid' x e :
  settled (se_Status (x_Steps x !!! sid)) -> (sid' = sid -> settled (se_Status e)) ->
  settled (se_Status (x_Steps (set_step x sid' e) !!! sid)).
Proof.
  intros Hx He. simpl. destruct (decide (sid' = sid)) as [->|Hne].
  - rewrite lookup_total_insert_eq. by apply He.
  - by rewrite lookup_total_insert_ne.
Qed.

Lemma artifacts_keep_result f xid sid s tid xid' sid' at_ :
  state_ok s -> xid' = emp \/ xid' = xid -> result_state xid sid s ->
  result_state xid sid (on_artifacts f (with_task_id s tid) xid' sid' at_).
Proof.
  intros Hs Hx Hr. apply result_state_elim in Hr as (x & Hc & Hl & Hset & Hr).
  pose proof (entry_id _ _ (state_executions _ Hs _ _ Hl)) as Hid.
  assert (Hex : execution (with_task_id s tid) xid = x) by by apply execution_found.
  unfold on_artifacts. case_decide as H1; [|case_decide as H2].
  - destruct Hx as [->| ->]; [by destruct H1|]. rewrite Hex.
    apply (result_state_write _ _ s _ x); try done. apply set_step_settled; [done|]. by intros ->.
  - destruct Hx as [->| ->]; [done|]. rewrite Hex. by apply (result_state_write _ _ s _ x).
  - by apply (result_state_intro _ _ _ x).
Qed.

Lemma revised_keeps_result xid sid s tid next reason at_ :
  sid ∈ s_ID <$> t_Steps next ->
  t_Status (st_Task (Apply s (Revised tid next reason) at_)) = t_Status (st_Task s) ->
  result_state xid sid s -> result_state xid sid (Apply s (Revised tid next reason) at_).
Proof.
  intros Hin Hst Hr. apply result_state_elim in Hr as (x & Hc & Hl & Hset & Hr).
  destruct (apply_revised_task s tid next reason at_) as (_ & _ & _ & Hsteps & _).
  set (s' := Apply s (Revised tid next reason) at_) in *.
  assert (HE : st_Executions s' = (fun x => x <| x_Steps := reconcileExecutionSteps (t_Steps (st_Task s')) (x_Steps x) |>) <$> st_Executions s).
  { unfold s', Apply. by rewrite cloneState_id. }
  assert (Hcur : st_Current s' = st_Current s) by (unfold s', Apply; by rewrite cloneState_id).
  clearbody s'. apply (result_state_intro _ _ s' (x <| x_Steps := reconcileExecutionSteps (t_Steps next) (x_Steps x) |>)).
  - by rewrite Hcur.
  - by rewrite HE, lookup_fmap, Hl, Hsteps.
  - simpl. by rewrite reconcile_settled.
  - rewrite Hst. exact Hr.
Qed.

Lemma step_status_keeps_result xid sid s tid sid' previous current reason output at_ :
  xid <> emp -> state_ok s -> (sid' = sid -> settled current) -> result_state xid sid s ->
  result_state xid sid (Apply s (StepStatusChanged tid xid sid' previous current reason output) at_).
Proof.
  intros Hx Hs Hset' Hr. apply result_state_elim in Hr as (x & Hc & Hl & Hset & Hr).
  pose proof (entry_id _ _ (state_executions _ Hs _ _ Hl)) as Hid.
  unfold Apply. rewrite cloneState_id. unfold apply_step_status.
  rewrite (decide_False (P := xid = emp)) by done. rewrite (decide_False (P := xid = emp)) by done.
  rewrite (execution_found s xid x) by done.
  assert (Hown : x_Status (with_owner x xid tid) = x_Status x) by (unfold with_owner; by repeat case_decide).
  apply (result_state_write _ _ s _ x); try done.
  - simpl. by apply with_owner_id.
  - apply set_step_settled; [by rewrite with_owner_steps|]. intros Heq. case_match; simpl; by apply Hset'.
Qed.

Lemma edit_keeps_result xid sid tid s0 s e at_ :
  xid <> emp -> edit tid s0 e -> t_Status (st_Task s) = t_Status (st_Task s0) -> user_keeps xid sid e ->
  state_ok s -> result_state xid sid s -> result_state xid sid (Apply s e at_).
Proof.
  intros Hx He Hst Hk Hs Hr. pose proof (edit_status_effect tid s0 s e at_ He) as Heff.
  destruct He as [next reason _ _ Hn _|xid' sid' cur reason output _ _ _|xid' sid' a _ _ _|sc id a _ _ _ _|sc id reason _ _
    |current reason _ _]; cbn [user_keeps user_status] in *.
  - apply revised_keeps_result; [done| |done]. rewrite Heff, Hn, <- Hst. generalize (decide (t_Status (st_Task s) = emp)). intros []; reflexivity.
  - destruct Hk as [-> Hk]. by apply step_status_keeps_result.
  - unfold Apply. rewrite cloneState_id. by apply artifacts_keep_result.
  - unfold Apply. rewrite cloneState_id. by apply artifacts_keep_result.
  - unfold Apply. rewrite cloneState_id. by apply artifacts_keep_result.
  - apply result_state_elim in Hr as (x & Hc & Hl & Hset & _).
    apply (result_state_intro _ _ _ x).
    + unfold Apply. by rewrite cloneState_id.
    + by rewrite status_changed_executions.
    + done.
    + rewrite Heff. intros Hrdy. by destruct Hk.
Qed.

Lemma system_batch_ok tid s rs : system_batch tid s rs.*1 -> state_ok s -> state_ok (apply_batch s rs).
Proof.
  intros [Ha|Hu] Hs; [by apply batch_state_ok|]. remember rs.*1 as es eqn:Hes.
  destruct Hu as [req t -> Hok _ _|es s' He|m reason _].
  - destruct rs as [|[e1 a1] [|[e2 a2] [|]]]; try done. injection Hes as <- <-.
    apply apply_ok; [by apply apply_ok|apply Hok].
  - subst es. eapply (edits_ind state_ok); [|exact He|done|exact Hs].
    intros s0 s1 e at_ He1 _ _ Hs1. apply apply_ok; [done|by eapply edit_event_ok].
  - destruct rs as [|[e1 a1] [|]]; try done. injection Hes as <-. apply apply_ok; [done|apply Hs].
Qed.

(** Both halves of the system keep a result, unless a batch of users undoes it. *)
Definition user_undoes (tid xid sid : string) (s : State) (es : list TaskEvent) : Prop :=
  user_batch tid s es /\ Exists (undoes xid sid) es.

Lemma system_keeps_result tid s rs xid sid :
  xid <> emp -> system_batch tid s rs.*1 -> ~ user_undoes tid xid sid s rs.*1 ->
  state_ok s /\ result_state xid sid s -> state_ok (apply_batch s rs) /\ result_state xid sid (apply_batch s rs).
Proof.
  intros Hx Hb Hno [Hs Hr]. split; [by eapply system_batch_ok|]. destruct Hb as [Ha|Hu]; [by apply result_state_batch|].
  assert (Hk : forall e, e ∈ rs.*1 -> user_keeps xid sid e).
  { intros e He. apply dec_stable. intros Hn. apply Hno. split; [done|]. apply Exists_exists. by exists e. }
  clear Hno. remember rs.*1 as es eqn:Hes. destruct Hu as [req t -> _ _ _|es s' He|m reason _].
  - exfalso. apply result_state_elim in Hr as (x & Hc & _). done.
  - subst es. apply (edits_ind (fun s => state_ok s /\ result_state xid sid s) tid s s'); [|done|done|done].
    intros s0 s1 e at_ He1 Hst Hin [Hs1 Hr1]. split; [apply apply_ok; [done|by eapply edit_event_ok]|].
    by eapply edit_keeps_result; [| | |apply Hk|..].
  - destruct rs as [|[e1 a1] [|]]; try done. injection Hes as <-.
    apply (revised_keeps_result xid sid s tid _ reason a1); [|apply watch_status|done].
    apply (Hk (Revised tid _ reason)), list_elem_of_here.
Qed.

Lemma system_result tid s rs xid sid :
  state_ok s -> system_batch tid s rs.*1 -> Exists (is_result xid sid) rs.*1 ->
  step_of s xid sid = StepStatusRunning /\ result_state xid sid (apply_batch s rs).
Proof.
  intros Hs [Ha|Hu] Hex; [by apply result_batch|]. exfalso. destruct Hu as [req t _ _ _ _|es s' Hed|m reason _].
  - by repeat (apply Exists_cons in Hex as [Hex|Hex]; [done|]); apply Exists_nil in Hex.
  - revert Hex. eapply no_event; [|by eapply edits_forall]. intros e [s0 []]; simpl; tauto.
  - by apply Exists_cons in Hex as [[]|Hex%Exists_nil].
Qed.
