(* ===== verification/System.v ===== *)
(** * Users and schedulers together

    Users create, modify, review and run tasks ([TaskOps]) while schedulers claim and run them
    ([Scheduler], [Service]), all against one event store. A task stream then holds batches the
    scheduler protocol allows and batches users may write ([user_batch]); the theorems of [Pool] carry
    over with what users may undo, and the task of every stream stays well formed. *)

From S2P Require Import Prelude Event MemStore Operation Graph Workflow Task TaskProject Prog TaskStore.
From S2P Require Import SchedLocal Completion WorkerText Scheduler Service TaskOps Edits Protocol SystemSpec Pool.

(** ** Who writes *)

Section Guard.
Context {P : Type} {TP : TaskPayload P}.

Definition system_guard (e : Entry P) : Prop :=
  forall tid, tid <> emp -> en_stream e = StreamID tid ->
    system_batch tid (Project (task_view (en_before e))) (events_of (en_out e)).

Lemma guard_system e : guard e -> system_guard e.
Proof. intros H tid Htid Hst. left. by apply H with tid. Qed.
Lemma user_guard i tid b o :
  tid <> emp -> user_batch tid (Project (task_view b)) (events_of o) -> system_guard (mkEntry i (StreamID tid) b o).
Proof. intros Hne Hb tid' Hne' Hst. simpl in Hst. apply StreamID_inj in Hst as <-; [|done]. by right. Qed.
End Guard.
(** Schedulers and users. *)
Definition with_users {P} {TP : TaskPayload P} : Admission P :=
  {| admits := system_guard; guard_admits := guard_system |}.

(** ** Calls of users *)

Inductive UserCall :=
| CallModify (fuel : nat) (req : TaskModifyRequest)
| CallCreate (scope : option SessionScope) (req : TaskCreateRequest)
| CallReview (scope : option SessionScope) (req : ReviewRequest)
| CallRunOp (scope : option SessionScope) (req : ExecutionRequest)
| CallValidate (taskID : string)
| CallGet (taskID : string)
| CallArtifacts (taskID : string).

Section Users.
Context {P : Type} {TP : TaskPayload P} {TL : TaskPayloadLaws P}.
Context {TX : ErrorTexts} {CF : CaseFold} {MT : ModTexts}.
Context {S : Type} {ES : EventStore S P} {Laws : EventStoreLaws S P}.
Abbreviation Act := (Prog P SchedEff).

(** What calls answer. *)
Inductive Answer :=
| ASched (r : Result SError bool)
| AModify (r : Outcome TaskModifyResult)
| ATask (r : Outcome Task)
| ARun (r : Outcome ExecutionResult)
| AValidation (r : Outcome TaskValidationResult)
| AState (r : Outcome State)
| AArtifacts (r : Outcome (list ScopedArtifact)).

Definition answer {A} (f : A -> Answer) (p : Act A) : Act Answer := let! a := p in Ret (f a).
Definition user_prog (c : UserCall) : Act Answer :=
  match c with
  | CallModify fuel req => answer AModify (modifyTask fuel req)
  | CallCreate scope req => answer ATask (createTask scope req)
  | CallReview scope req => answer ATask (requestReview scope req)
  | CallRunOp scope req => answer ARun (runTask scope req)
  | CallValidate tid => answer AValidation (validateTask tid)
  | CallGet tid => answer AState (getTask tid)
  | CallArtifacts tid => answer AArtifacts (listArtifacts tid)
  end.

Section Obey.
Context (v0 : string -> list (StoredRecord P)) (i : nat).
#[local] Existing Instance with_users.
Abbreviation obeysp := (obeys (S := S) v0 i).
Abbreviation wpi := (wp (S := S) sched_responds v0 admits i).
Abbreviation laterg := (later v0 admits i).
Abbreviation W := (World P S).
Implicit Types (w : W).

Lemma calm_Index_users bg summary : calm (S := S) v0 i (Index bg summary).
Proof. apply calm_Index. Qed.

(** *** Modifications *)

Lemma storeless_revise tid next reason s : storeless (P := P) (revise tid next reason s).
Proof. unfold revise. by repeat case_match. Qed.
Lemma storeless_ensure k s a : storeless (P := P) (ensureArtifactID k s a).
Proof.
  revert a. induction k; intros a; cbn [ensureArtifactID]; case_decide; try done.
  intros x. cbn. by case_match.
Qed.
Lemma storeless_add k tid xid sid a s : storeless (P := P) (add_artifact k tid xid sid a s).
Proof.
  unfold add_artifact. repeat case_match; try done. apply storeless_bind; [apply storeless_ensure|].
  by intros [a'|e].
Qed.
Lemma storeless_complete k tid l s es : storeless (P := P) (complete_artifacts k tid l s es).
Proof.
  revert s es. induction l as [|a l IH]; intros s es; [done|]. cbn [complete_artifacts].
  apply storeless_bind; [apply storeless_add|]. by intros [[s' es']|e].
Qed.
Ltac storeless_cases :=
  cbv zeta;
  match goal with
  | |- storeless (bind _ _) => apply storeless_bind; [storeless_cases|intros; storeless_cases]
  | |- storeless (match ?x with _ => _ end) => destruct x; storeless_cases
  | |- _ => solve [done|by intros x|apply storeless_revise|apply storeless_add|apply storeless_complete]
  end.
Lemma storeless_modification k tid batchReason m s : storeless (P := P) (applyModification k tid batchReason m s).
Proof.
  unfold applyModification. cbv zeta.
  repeat (case_decide; [solve [apply storeless_revise|
    unfold mod_add_criterion, mod_add_output, mod_add_step, mod_update_step, mod_remove_step, mod_set_step_status,
      mod_add_artifact, mod_update_artifact, mod_remove_artifact, mod_set_status, mod_reopen, mod_reopen_step, mod_complete;
    storeless_cases]|]).
  done.
Qed.
Lemma storeless_all k tid batchReason items s events results :
  storeless (P := P) (apply_all k tid batchReason items s events results).
Proof.
  revert s events results. induction items as [|m items IH]; intros s events results; [done|]. cbn [apply_all].
  apply storeless_bind; [apply storeless_modification|]. by intros [[s' es]|e].
Qed.
Lemma apply_all_edits k tid batchReason items s0 s events results s' events' results' :
  edits tid s0 events s ->
  may_return (P := P) sched_responds (apply_all k tid batchReason items s events results) (Ok (s', events', results')) ->
  edits tid s0 events' s'.
Proof.
  revert s events results. induction items as [|m items IH]; intros s events results He; cbn [apply_all].
  - by intros [= -> -> ->].
  - intros ([[s1 es]|e] & Hm & Hr)%may_return_bind; [|done]. eapply IH; [|exact Hr].
    eapply edits_app; [done|]. by eapply modification_edits.
Qed.

(** *** Reads *)

Lemma calm_TaskLoad bg tid : calm (S := S) v0 i (TaskLoad bg tid).
Proof.
  intros w Q Hw HQ. unfold TaskLoad. case_decide; [by apply HQ, quiet_refl|].
  intros c w1 Hl _. by apply HQ, later_quiet.
Qed.
Lemma calm_ret {A} (a : A) : calm (S := S) v0 i (Ret a).
Proof. apply silent_calm, silent_ret. Qed.
Lemma calm_loadTask tid : calm (S := S) v0 i (loadTask tid).
Proof.
  unfold loadTask. destruct (blank tid); [apply calm_ret|]. apply calm_bind; [apply calm_TaskLoad|intros; apply calm_ret].
Qed.
Lemma calm_emit_all es : calm (S := S) v0 i (emit_all es).
Proof. apply silent_calm, silent_each. intros e. apply silent_effect. Qed.

(** *** The atomicity of modifications *)

(** Either nothing was appended, or one batch of edits of the state the stream had. *)
Definition modified_once (tid : string) w w1 : Prop :=
  exists e, added i (StreamID tid) w w1 = [e] /\ exists s', edits tid (Project (task_view (en_before e))) (events_of (en_out e)) s'.
Definition modify_post {A} (tid : string) w (r : Outcome A) w1 : Prop :=
  grows v0 w w1 /\ (forall tid', StreamID tid' <> StreamID tid -> added i (StreamID tid') w w1 = []) /\
  match r with
  | OutOK _ => modified_once tid w w1
  | OutFailed code _ =>
      added i (StreamID tid) w w1 = [] \/
      modified_once tid w w1 /\ (code = "task_index_append_failed" \/ code = "task_store_project_failed")%string
  end.

Lemma modify_post_later {A} tid w w1 (r : Outcome A) w2 : laterg w w1 -> modify_post tid w1 r w2 -> modify_post tid w r w2.
Proof.
  intros Hl (Hg & Ho & Hr). pose proof (later_grows _ _ _ _ _ Hl) as Hg1.
  split; [by eapply grows_trans|]. unfold modified_once in *.
  assert (Ha : forall st, added i st w w2 = added i st w1 w2).
  { intros st. rewrite (added_trans v0 i _ w w1 w2) by done. by rewrite (added_later _ _ _ _ _ _ Hl). }
  rewrite !Ha. split; [|done]. intros tid' Hne. rewrite Ha. by apply Ho.
Qed.
Lemma modify_post_fails {A} tid w w1 code message : laterg w w1 -> modify_post (A := A) tid w (OutFailed code message) w1.
Proof.
  intros Hl. split; [by eapply later_grows|]. split; [|left]; intros; by eapply added_later.
Qed.

Lemma wp_load_sequence tid w (Q : Outcome SequencedState -> W -> Prop) :
  world_ok v0 w ->
  (forall w1, laterg w w1 -> tid <> emp ->
     Q (OutOK (mkSequenced (Project (task_view (task_stream w1 tid))) (Z.of_nat (length (task_stream w1 tid))))) w1) ->
  (forall w1 code message, laterg w w1 -> Q (OutFailed code message) w1) ->
  wpi (loadTaskWithSequence tid) Q w.
Proof.
  intros Hw Hok Herr. unfold loadTaskWithSequence. destruct (blank tid); [by apply Herr, later_refl|].
  apply wp_bind, wp_ProjectWithSequence; [done| |].
  - intros w1 Hl Hne. simpl. case_decide; [by apply Herr|by apply Hok].
  - intros w1 e Hl. by apply Herr.
Qed.

(** After the append nothing more is written to the stream, and only two failures are left. *)
Definition finish_code {A} (r : Outcome A) : Prop :=
  match r with
  | OutOK _ => True
  | OutFailed code _ => code = "task_index_append_failed"%string \/ code = "task_store_project_failed"%string
  end.
Lemma wp_modify_finish tid s es results w (Q : Outcome TaskModifyResult -> W -> Prop) :
  world_ok v0 w -> (forall r w1, quiet v0 i w w1 -> finish_code r -> Q r w1) -> wpi (modify_finish tid s es results) Q w.
Proof.
  intros Hw HQ. unfold modify_finish. apply wp_bind, calm_Index; [done|]. intros [u|e] w1 Hq1.
  2: { apply HQ; [done|by left]. }
  apply wp_bind, calm_emit_all; [by eapply grows_ok, Hq1|]. intros [] w2 Hq2.
  apply wp_bind, calm_TaskProject; [by eapply grows_ok, Hq2|]. intros r w3 Hq3.
  apply HQ; [by eapply quiet_trans, quiet_trans|]. destruct r; [done|by right].
Qed.

Lemma wp_modify_loop k req rounds w (Q : Outcome TaskModifyResult -> W -> Prop) :
  world_ok v0 w -> (forall r w1, modify_post (mr_ID req) w r w1 -> Q r w1) -> wpi (modify_loop k req rounds) Q w.
Proof.
  revert w. induction rounds as [|rounds IH]; intros w Hw HQ; cbn [modify_loop].
  { by apply HQ, modify_post_fails, later_refl. }
  apply wp_bind, wp_load_sequence; [done| |]; last first.
  { intros w1 code message Hl. by apply HQ, modify_post_fails. }
  intros w1 Hl1 Hne. cbn [sq_State sq_Sequence].
  apply wp_bind, wp_storeless; [by apply Hl1|apply storeless_all|]. intros r w2 Hl2 Hr.
  assert (Hlw2 : laterg w w2) by (by eapply later_trans).
  destruct r as [[[s' events] results]|e]; [|by apply HQ, modify_post_fails].
  apply (apply_all_edits _ _ _ _ _ _ _ _ _ _ _ (edits_nil _ _)) in Hr.
  destruct (length events =? 0) eqn:E0; [by apply HQ, modify_post_fails|]. apply Nat.eqb_neq in E0.
  apply wp_bind, (wp_AppendExpected _ _ _ _ _ (task_stream w1 (mr_ID req)));
    [by apply Hl2|eapply snapshot_later; [|exact Hl2|by exists []; rewrite app_nil_r]; by apply Hl1|by destruct events| |].
  - intros w3 w4 out Hl3 Hv Hout Ha. rewrite <- Hv, <- Hout in *.
    assert (Hlw3 : laterg w w3) by (by eapply later_trans).
    destruct (appended_added v0 i _ _ _ _ _ Hlw3 Ha) as (Hg & Hadd & Hother).
    split; [apply user_guard; [done|]; by eapply user_edits|].
    apply wp_modify_finish; [by eapply grows_ok|]. intros r w5 [Hg5 Hq5] Hcode. apply HQ.
    assert (Hall : forall st, added i st w w5 = added i st w w4 ++ added i st w4 w5) by (intros; by apply (added_trans v0)).
    assert (Hone : modified_once (mr_ID req) w w5).
    { eexists. split; [by rewrite Hall, Hadd, Hq5|]. by exists s'. }
    split; [by eapply grows_trans|]. split; [|by destruct r; [|right]].
    intros tid' Hst. by rewrite Hall, Hother, Hq5.
  - intros w3 e Hl3. assert (Hlw3 : laterg w w3) by (by eapply later_trans).
    destruct (isAppendConflict e); [|by apply HQ, modify_post_fails].
    apply IH; [by apply Hl3|]. intros r w4 Hp. apply HQ. by eapply modify_post_later.
Qed.

(** What a finished modification has done stays done. *)
Lemma modify_post_more {A} tid w w1 (r : Outcome A) w2 :
  laterg w1 w2 -> modify_post tid w r w1 -> modify_post tid w r w2.
Proof.
  intros Hl (Hg & Ho & Hr). pose proof (later_grows _ _ _ _ _ Hl) as Hg2.
  assert (Ha : forall st, added i st w w2 = added i st w w1).
  { intros st. rewrite (added_trans v0 i _ w w1 w2) by done. by rewrite (added_later _ _ _ _ _ _ Hl), app_nil_r. }
  split; [by eapply grows_trans|]. unfold modified_once in *. rewrite !Ha. split; [|done].
  intros tid' Hne. rewrite Ha. by apply Ho.
Qed.
Lemma wp_modifyTask k req w (Q : Outcome TaskModifyResult -> W -> Prop) :
  world_ok v0 w -> (forall r w1, modify_post (mr_ID req) w r w1 -> Q r w1) -> wpi (modifyTask k req) Q w.
Proof.
  intros Hw HQ. unfold modifyTask. destruct (mr_Modifications req); [|by apply wp_modify_loop].
  by apply HQ, modify_post_fails, later_refl.
Qed.
Lemma obeys_modify k req : obeysp (modifyTask k req).
Proof. intros w Q Hw HQ. apply wp_modifyTask; [done|]. intros r w1 [Hg _]. by apply HQ. Qed.

(** *** Creation, watching, reading *)

Lemma obeys_appended tid w w1 w2 out : laterg w w1 -> appended v0 i w1 w2 (StreamID tid) out -> grows v0 w w2.
Proof. intros Hl Ha. by apply (appended_added v0 i _ _ _ _ _ Hl Ha). Qed.

Lemma obeys_create t req :
  task_ok t -> t_ID t <> emp -> t_Status t <> emp -> obeysp (create_validated t req).
Proof.
  intros Ht Hid Hst w Q Hw HQ. unfold create_validated. apply wp_bind, wp_Create; [done|done| |].
  - intros w1 w2 out Hl Hv Hout Ha. split.
    { apply user_guard; [done|]. rewrite Hout. by constructor. }
    pose proof (obeys_appended _ _ _ _ _ Hl Ha) as Hg. eapply (obeys_bind v0 i (Index false (taskSummary t))).
    + apply calm_obeys, calm_Index.
    + intros [u|e]; [|apply obeys_ret]. apply obeys_bind; [apply calm_obeys, calm_emit_all|intros; apply obeys_ret].
    + by eapply grows_ok.
    + intros a w3 Hg3. apply HQ. by eapply grows_trans.
  - intros w1 e Hl. apply HQ. by eapply later_grows.
Qed.

Lemma obeys_validated t k : (task_ok t -> obeysp k) -> obeysp (validated t k).
Proof.
  intros Hk. unfold validated. destruct (task_validate_cases t) as (r & -> & Hr).
  destruct r as [[]|e]; [by apply Hk, Hr|apply obeys_ret].
Qed.

Lemma attach_origin_same scope t :
  t_ID (attachOriginMetadata scope t) = t_ID t /\ t_Status (attachOriginMetadata scope t) = t_Status t.
Proof. by destruct scope. Qed.

(** A generated identifier is not empty. *)
Lemma obeys_new_id {A} prefix (k : string -> Act A) :
  (forall id, id <> emp -> obeysp (k id)) -> obeysp (let! id := effect (ENewID prefix) in k id).
Proof.
  intros Hk w Q Hw HQ id w1 Hl Hid. cbn in Hid. eapply Hk; [done|by apply Hl|]. intros a w2 Hg. apply HQ.
  eapply grows_trans; [by eapply later_grows|done].
Qed.

Lemma obeys_create_named scope req t : t_ID t <> emp -> obeysp (create_named scope req t).
Proof.
  intros Hid. unfold create_named. cbv zeta. apply obeys_validated. intros Hok.
  apply obeys_create; [done|..]; rewrite ?(proj1 (attach_origin_same _ _)), ?(proj2 (attach_origin_same _ _));
    by case_decide.
Qed.
Lemma obeys_createTask scope req : obeysp (createTask scope req).
Proof.
  unfold createTask. cbv zeta. case_decide as He; [|by apply obeys_create_named].
  apply obeys_new_id. intros id Hid. by apply obeys_create_named.
Qed.

Lemma obeys_review scope req : obeysp (requestReview scope req).
Proof.
  unfold requestReview. apply obeys_bind; [apply calm_obeys, calm_loadTask|]. intros [s|code message]; [|apply obeys_ret].
  apply obeys_new_id. intros id Hid. cbv zeta. apply obeys_validated. intros Hok.
  destruct (attach_origin_same scope (review_task id req (st_Task s))) as [HI HS].
  apply obeys_create; [done|rewrite HI; exact Hid|rewrite HS; simpl; by case_decide].
Qed.

Lemma obeys_watch sc tid rounds : obeysp (watch_loop sc tid rounds).
Proof.
  induction rounds as [|rounds IH]; cbn [watch_loop]; [apply obeys_ret|]. intros w Q Hw HQ.
  apply wp_bind, wp_ProjectWithSequence; [done| |]; last first.
  { intros w1 e Hl. apply HQ. by eapply later_grows. }
  intros w1 Hl1 Hne. cbn [sq_State sq_Sequence]. pose proof (later_grows _ _ _ _ _ Hl1) as Hg1.
  assert (Hw1 : world_ok v0 w1) by apply Hl1. case_decide; [by apply HQ|]. case_decide as Hid; [by apply HQ|].
  destruct (watched_metadata sc _) as [m changed]. destruct (negb changed); [by apply HQ|].
  apply wp_bind, (wp_AppendExpected _ _ _ _ _ (task_stream w1 tid)); [done|by exists []; rewrite app_nil_r|done| |].
  - intros w2 w3 out Hl2 Hv Hout Ha. split.
    { apply user_guard; [done|]. rewrite Hout. by constructor. }
    pose proof (obeys_appended _ _ _ _ _ Hl2 Ha) as Hg.
    apply wp_bind, calm_Index; [by eapply grows_ok|]. intros r w4 [Hg4 _].
    apply HQ. eapply grows_trans; [done|]. by eapply grows_trans.
  - intros w2 e Hl2. pose proof (later_grows _ _ _ _ _ Hl2) as Hg2. assert (grows v0 w w2) by by eapply grows_trans.
    destruct (isAppendConflict e); [|by apply HQ]. apply IH; [by apply Hl2|]. intros r w3 Hg3. apply HQ.
    by eapply grows_trans.
Qed.

Lemma obeys_runTask scope req : obeysp (runTask scope req).
Proof.
  unfold runTask. cbv zeta. destruct (blank _); [apply obeys_ret|]. destruct (decide (_ /\ _)); [apply obeys_ret|].
  destruct (er_DryRun req); [apply obeys_ret|].
  apply obeys_bind.
  - unfold recordTaskRunWatcher. destruct scope as [sc|]; [|apply obeys_ret].
    destruct (decide (er_TaskID req = emp \/ _)); [apply obeys_ret|apply obeys_watch].
  - intros [u|e]; [|apply obeys_ret]. apply obeys_bind; [|intros; apply obeys_ret].
    unfold SubmitTask. apply obeys_submitTask.
Qed.

Lemma obeys_user c : obeysp (user_prog c).
Proof.
  destruct c; cbn [user_prog]; unfold answer; (apply obeys_bind; [|intros; apply obeys_ret]).
  - apply obeys_modify.
  - apply obeys_createTask.
  - apply obeys_review.
  - apply obeys_runTask.
  - apply calm_obeys, calm_bind; [apply calm_loadTask|intros; apply calm_ret].
  - apply calm_obeys, calm_loadTask.
  - apply calm_obeys, calm_bind; [apply calm_loadTask|intros; apply calm_ret].
Qed.
End Obey.
End Users.

(** ** The system *)

Inductive SysCall :=
| Scheduler (self : Sched) (c : SchedCall)
| User (c : UserCall).

Section System.
Context {P : Type} {TP : TaskPayload P} {TL : TaskPayloadLaws P}.
Context {TX : ErrorTexts} {CF : CaseFold} {VJ : ValueJson} {MT : ModTexts}.
Context {S : Type} {ES : EventStore S P} {Laws : EventStoreLaws S P}.

Definition sys_prog (c : SysCall) : Prog P SchedEff Answer :=
  match c with
  | Scheduler self c => answer ASched (sched_prog (self, c))
  | User c => user_prog c
  end.

(** What is known of a finished call. *)
Definition sys_post (s : S) (calls : list SysCall) (i : nat) (a : Answer) (w : World P S) : Prop :=
  (forall self tid, calls !! i = Some (Scheduler self (CallClaim tid)) -> a = ASched (Ok true) -> claimed i tid w) /\
  (forall k req r, calls !! i = Some (User (CallModify k req)) -> a = AModify r ->
     modify_post (view s) i (mr_ID req) (fresh s) r w).

Lemma system_obeys (s : S) (calls : list SysCall) w' ps' :
  store_ok s -> rtc (pool_step sched_responds) (fresh s, sys_prog <$> calls) (w', ps') ->
  world_ok (view s) w' /\ Forall system_guard (w_log w') /\
  forall i p, ps' !! i = Some p -> wp sched_responds (view s) system_guard i p (sys_post s calls i) w'.
Proof.
  intros Hs Hrun.
  eapply (wp_pool sched_responds (view s) system_guard (sys_post s calls)); [|exact Hrun|by apply fresh_ok|constructor|].
  - intros i a w w1 Hl [Hq1 Hq2]. split.
    + intros self tid Hc Ha. eapply claimed_grows; [by eapply later_grows|by eapply Hq1].
    + intros k req r Hc Ha. eapply modify_post_more; [exact Hl|by eapply Hq2].
  - intros i p. rewrite list_lookup_fmap. intros (c & Hi & ->)%fmap_Some.
    assert (Hok : world_ok (view s) (fresh s)) by by apply fresh_ok.
    destruct c as [self c|c]; cbn [sys_prog].
    + apply wp_bind. destruct (is_claim_dec c) as [[tid ->]|Hno].
      * apply (wp_claim (AD := with_users) self); [done|]. intros r w1 Hg Hcl. split; [|congruence].
        intros self' tid' Hc Hr. simplify_eq. by apply Hcl.
      * apply (obeys_call (AD := with_users)); [done|]. intros r w1 Hg. split; [|congruence].
        intros self' tid' Hc. destruct Hno. exists tid'. congruence.
    + assert (Hother : (forall k req, c <> CallModify k req) -> wp sched_responds (view s) system_guard i (user_prog c) (sys_post s calls i) (fresh s)).
      { intros Hno. apply obeys_user; [done|]. intros a w1 Hg. split; [congruence|].
        intros k req r Hc. destruct (Hno k req). congruence. }
      destruct c as [k req| | | | | |]; try by apply Hother. clear Hother.
      apply wp_bind, wp_modifyTask; [done|]. intros r w1 Hp. split; [congruence|].
      intros k' req' r' Hc Ha. simplify_eq. done.
Qed.
End System.

(** ** What every interleaving of users and schedulers satisfies *)

Section Properties.
Context {P : Type} {TP : TaskPayload P} {TL : TaskPayloadLaws P}.
Context {TX : ErrorTexts} {CF : CaseFold} {VJ : ValueJson} {MT : ModTexts}.
Context {S : Type} {ES : EventStore S P} {Laws : EventStoreLaws S P}.
Context (s : S) (calls : list SysCall) (w : World P S) (ps : list (Prog P SchedEff Answer)) (tid : string).
Hypothesis Hs : store_ok s.
Hypothesis Hrun : rtc (pool_step sched_responds) (fresh s, sys_prog <$> calls) (w, ps).
Hypothesis Htid : tid <> emp.
Abbreviation initial := (task_view (view s (StreamID tid))).

Lemma system_log e :
  e ∈ w_log w -> en_stream e = StreamID tid ->
  system_batch tid (Project (task_view (en_before e))) (events_of (en_out e)).
Proof using TL Laws Hs Hrun Htid.
  destruct (system_obeys _ _ _ _ Hs Hrun) as (_ & Hg & _). rewrite Forall_forall in Hg.
  intros He Hst. by apply (Hg e He tid).
Qed.
Lemma system_world : world_ok (view s) w.
Proof using TL Laws Hs Hrun. by destruct (system_obeys _ _ _ _ Hs Hrun). Qed.

Lemma system_invariant (I : State -> Prop) l1 l2 :
  w_log w = l1 ++ l2 -> (forall s rs, system_batch tid s rs.*1 -> I s -> I (apply_batch s rs)) ->
  I (Project initial) -> I (state_at (view s) tid l1).
Proof using TL Laws Hs Hrun Htid.
  intros Heq HI. eapply (log_always (system_batch tid) (view s) tid w system_world system_log); [exact Heq|].
  intros s' e _ _. apply HI.
Qed.

Lemma system_starts l1 e1 l2 e2 l3 :
  state_ok (Project initial) -> w_log w = l1 ++ e1 :: l2 ++ e2 :: l3 ->
  en_stream e1 = StreamID tid -> en_stream e2 = StreamID tid ->
  Exists is_start_event (events_of (en_out e1)) -> Exists is_start_event (events_of (en_out e2)) ->
  Exists (fun e => en_stream e = StreamID tid /\ Exists is_ready (events_of (en_out e))) l2.
Proof using TL Laws Hs Hrun Htid.
  intros Hinit Heq H1 H2 Hr1 Hr2. apply dec_stable. intros Hno.
  destruct (log_entry (system_batch tid) (view s) tid w system_world system_log l1 e1 _ Heq H1) as [_ Ha1].
  assert (Hs1 : state_ok (state_at (view s) tid l1)).
  { eapply (system_invariant state_ok); [exact Heq| |exact Hinit]. intros s' rs. apply system_batch_ok. }
  destruct (system_start tid _ (task_view (en_out e1)) Hs1 Ha1 Hr1) as [_ Hu1].
  assert (Hu2 : underway (state_at (view s) tid ((l1 ++ [e1]) ++ l2))).
  { eapply (log_stretch (system_batch tid) (view s) tid w system_world system_log underway
      (fun e => ~ Exists is_ready (events_of (en_out e)))); [exact Heq|exact H1| |exact Hu1|].
    - intros s' e _ Hk _ Ha. by apply system_underway with tid.
    - intros e He Hst Hex. apply Hno, Exists_exists. by exists e. }
  pose proof (log_entry_after (system_batch tid) (view s) tid w system_world system_log _ _ _ _ _ Heq H2) as Ha2.
  destruct Hu2 as (Hs2 & _ & Hn2). by destruct (system_start tid _ (task_view (en_out e2)) Hs2 Ha2 Hr2).
Qed.

(** C1: Users and schedulers together refine their abstract specification: however their calls
    interleave, the events of a task stream are the initial ones followed by batches each of which
    either the scheduler protocol allows, or is the creation of the task on the empty stream, edits of
    the task, or the recording of a watcher, in the state projected so far. *)
Theorem system_refines_spec :
  exists batches,
    task_view (view (w_store w) (StreamID tid)) = initial ++ concat batches /\
    runs (system_batch tid) (Project initial) batches.
Proof using TL Laws Hs Hrun Htid. apply log_refines; [exact system_world|exact system_log]. Qed.

(** C2: The task of a stream is always well formed: if the stream was empty (or already so), then
    whatever users and schedulers did to it, in every interleaving, the projected task either has no
    title and no objective yet, or passes [Task.Validate] and has the identifier of its stream; and
    the projected state holds only known statuses and consistent identifiers. *)
Theorem system_tasks_valid : task_inv tid (Project initial) -> task_inv tid (Project (task_view (view (w_store w) (StreamID tid)))).
Proof using TL Laws Hs Hrun Htid.
  intros Hi. rewrite <- (state_at_end (view s) tid w system_world).
  apply (system_invariant (task_inv tid) (w_log w) []); [by rewrite app_nil_r| |done].
  intros s' rs Hb. by apply system_batch_inv.
Qed.

(** C3: Claims of a task exclude each other among users too: between the executions two successful
    claims started, a scheduler requeued the task or a user made it ready. *)
Theorem system_claims_separated i j self1 self2 :
  state_ok (Project initial) ->
  calls !! i = Some (Scheduler self1 (CallClaim tid)) -> calls !! j = Some (Scheduler self2 (CallClaim tid)) -> i <> j ->
  ps !! i = Some (Ret (ASched (Ok true))) -> ps !! j = Some (Ret (ASched (Ok true))) ->
  exists l1 e1 l2 e2 l3, w_log w = l1 ++ e1 :: l2 ++ e2 :: l3 /\
    ((en_owner e1 = i /\ en_owner e2 = j) \/ (en_owner e1 = j /\ en_owner e2 = i)) /\
    Exists (fun e => en_stream e = StreamID tid /\ Exists is_ready (events_of (en_out e))) l2.
Proof using TL Laws Hs Hrun Htid.
  intros Hinit Hi Hj Hne Hri Hrj. destruct (system_obeys _ _ _ _ Hs Hrun) as (_ & _ & Hp).
  destruct (Hp _ _ Hri) as [Hc1 _]. destruct (Hp _ _ Hrj) as [Hc2 _].
  destruct (Hc1 self1 tid Hi eq_refl) as (e1 & t1 & x1 & He1 & Ho1 & Hst1 & _ & Hev1 & _).
  destruct (Hc2 self2 tid Hj eq_refl) as (e2 & t2 & x2 & He2 & Ho2 & Hst2 & _ & Hev2 & _).
  assert (Hdiff : e1 <> e2) by congruence.
  destruct (two_elements _ e1 e2 He1 He2 Hdiff) as (l1 & a & l2 & b & l3 & Heq & Hab).
  assert (Hs1 : Exists is_start_event (events_of (en_out e1))) by (rewrite Hev1; by left).
  assert (Hs2 : Exists is_start_event (events_of (en_out e2))) by (rewrite Hev2; by left).
  exists l1, a, l2, b, l3. split; [done|].
  assert (Hgoal : en_stream a = StreamID tid -> en_stream b = StreamID tid ->
    Exists is_start_event (events_of (en_out a)) -> Exists is_start_event (events_of (en_out b)) ->
    Exists (fun e => en_stream e = StreamID tid /\ Exists is_ready (events_of (en_out e))) l2).
  { intros Ha Hb Hsa Hsb. by apply (system_starts l1 a l2 b l3). }
  destruct Hab as [[-> ->]|[-> ->]]; (split; [auto|]); by apply Hgoal.
Qed.

(** C4: Results are final unless a user undoes them: after the result (completed or failed) of a step
    of an execution, as long as no user removes the step from the task, makes the task ready, sets
    the status of that step back or writes to another execution, no other result of that step of
    that execution is ever appended. *)
Theorem system_result_final xid sid l1 e1 l2 e2 l3 :
  state_ok (Project initial) -> xid <> emp -> w_log w = l1 ++ e1 :: l2 ++ e2 :: l3 ->
  en_stream e1 = StreamID tid -> en_stream e2 = StreamID tid ->
  Exists (is_result xid sid) (events_of (en_out e1)) ->
  (forall e, e ∈ l2 -> en_stream e = StreamID tid ->
     ~ user_undoes tid xid sid (Project (task_view (en_before e))) (events_of (en_out e))) ->
  ~ Exists (is_result xid sid) (events_of (en_out e2)).
Proof using TL Laws Hs Hrun Htid.
  intros Hinit Hx Heq H1 H2 Hr1 Hno Hr2.
  destruct (log_entry (system_batch tid) (view s) tid w system_world system_log l1 e1 _ Heq H1) as [_ Ha1].
  assert (Hs1 : state_ok (state_at (view s) tid l1)).
  { eapply (system_invariant state_ok); [exact Heq| |exact Hinit]. intros s' rs. apply system_batch_ok. }
  destruct (system_result tid _ (task_view (en_out e1)) xid sid Hs1 Ha1 Hr1) as [_ Hset1].
  pose proof (log_entry_after (system_batch tid) (view s) tid w system_world system_log _ _ _ _ _ Heq H2) as Ha2.
  assert (Hu2 : state_ok (state_at (view s) tid ((l1 ++ [e1]) ++ l2)) /\ result_state xid sid (state_at (view s) tid ((l1 ++ [e1]) ++ l2))).
  { eapply (log_stretch (system_batch tid) (view s) tid w system_world system_log
      (fun s => state_ok s /\ result_state xid sid s)
      (fun e => ~ user_undoes tid xid sid (Project (task_view (en_before e))) (events_of (en_out e))));
      [exact Heq|exact H1| |split; [by eapply system_batch_ok|exact Hset1]|].
    - intros s' e _ Hk Hb Ha. apply system_keeps_result with tid; [done|done|]. by rewrite <- Hb.
    - exact Hno. }
  destruct Hu2 as [Hs2 [[_ Hset] _]].
  destruct (system_result tid _ (task_view (en_out e2)) xid sid Hs2 Ha2 Hr2) as [Hr _]. by apply (settled_not_running _ Hset).
Qed.

(** C5: [task_modify] is atomic: when it answers OK it has appended exactly one batch to the stream of
    its task, edits of the state the stream had at that moment, and nothing to other task streams;
    when it fails it has appended nothing, except where the failure is that of the index or of the
    final reading, which come after that one batch. *)
Theorem modify_atomic i fuel req r :
  calls !! i = Some (User (CallModify fuel req)) -> ps !! i = Some (Ret (AModify r)) ->
  modify_post (view s) i (mr_ID req) (fresh s) r w.
Proof using TL Laws Hs Hrun.
  intros Hi Hr. destruct (system_obeys _ _ _ _ Hs Hrun) as (_ & _ & Hp).
  destruct (Hp _ _ Hr) as [_ Hm]. by eapply Hm.
Qed.
End Properties.

Lemma added_fresh {P S} {ES : EventStore S P} (s : S) (w : World P S) i st e :
  e ∈ added i st (fresh s) w -> en_stream e = st /\ e ∈ w_log w.
Proof. intros [[_ Hst] Hin]%list_elem_of_filter. done. Qed.

(** ** The theorems at work *)

Module SystemDemo.
Import PoolDemo.
#[local] Existing Instance PoolDemo.demo_texts.
#[local] Existing Instance PoolDemo.demo_json.
#[local] Existing Instance CompletionDemo.ascii_fold.
#[local] Instance demo_mod_texts : ModTexts := { mod_text _ := "invalid"%string; task_text _ := "invalid"%string }.

Definition create_request : TaskCreateRequest :=
  mkCreateRequest "t1" emp emp emp emp "ship" emp [] [] [] [] [] [] emp emp emp emp emp emp [PoolDemo.step] emp ∅.
Definition create : SysCall := User (CallCreate None create_request).
Definition modify (op : string) : SysCall :=
  User (CallModify 3 (mkModifyRequest "t1" [zero_Modification <| m_Op := op |> <| m_Labels := ["urgent"%string] |>
    <| m_Artifact := zero_Artifact <| a_Name := "notes"%string |> |>] emp)).

Definition start (calls : list SysCall) : World TaskEvent (MemoryStore TaskEvent) * list (Prog TaskEvent SchedEff Answer) :=
  (fresh NewMemoryStore, sys_prog <$> calls).
Definition final (pause : nat) (calls : list SysCall) (turns : list (nat * nat)) :=
  run_pool (PoolDemo.handle pause) (fun n => demo_env (pretty n)) (PoolDemo.schedule turns) 0 (start calls).
Lemma system_demo_run pause calls turns :
  rtc (pool_step sched_responds) (fresh NewMemoryStore, sys_prog <$> calls)
    ((final pause calls turns).1, (final pause calls turns).2).
Proof. rewrite <- surjective_pairing. apply run_pool_sound. intros. apply PoolDemo.handle_responds. Qed.

(** The task is created and run by [A] while a user adds an artifact; another adds a label at the end. *)
Definition worked_calls : list SysCall :=
  [create; Scheduler (PoolDemo.self "A") (CallRunTask 5 "t1"); modify "add_artifact"; modify "update_metadata"].
Definition worked := final 10000 worked_calls [(0, 10); (1, 25); (2, 20); (1, 80); (3, 20)].
(** A user creates the task, [A] claims it, [B] finds the lease expired and requeues it, [B] claims it. *)
Definition taken_calls : list SysCall :=
  [create; Scheduler (PoolDemo.self "A") (CallClaim "t1"); Scheduler (PoolDemo.self "B") (CallReconcile "t1");
   Scheduler (PoolDemo.self "B") (CallClaim "t1")].
Definition taken := final 30 taken_calls [(0, 10); (1, 20); (2, 30); (3, 30)].
Lemma system_store_good : store_ok (NewMemoryStore (P := TaskEvent)).
Proof. apply new_store_wf. Qed.
End SystemDemo.
#[local] Existing Instance PoolDemo.demo_texts.
#[local] Existing Instance PoolDemo.demo_json.
#[local] Existing Instance CompletionDemo.ascii_fold.
#[local] Existing Instance SystemDemo.demo_mod_texts.

Lemma system_refines_spec_witness :
  exists batches,
    task_view (view (w_store SystemDemo.worked.1) (StreamID "t1")) =
      task_view (view (NewMemoryStore (P := TaskEvent)) (StreamID "t1")) ++ concat batches /\
    runs (system_batch "t1") (Project (task_view (view (NewMemoryStore (P := TaskEvent)) (StreamID "t1")))) batches.
Proof.
  apply (system_refines_spec NewMemoryStore SystemDemo.worked_calls SystemDemo.worked.1 SystemDemo.worked.2 "t1").
  - apply SystemDemo.system_store_good.
  - apply SystemDemo.system_demo_run.
  - discriminate.
Defined.

Lemma system_tasks_valid_witness :
  titled (st_Task (Project (task_view (view (w_store SystemDemo.worked.1) (StreamID "t1"))))) /\
  task_inv "t1" (Project (task_view (view (w_store SystemDemo.worked.1) (StreamID "t1")))).
Proof.
  split; [left; vm_compute; discriminate|].
  apply (system_tasks_valid NewMemoryStore SystemDemo.worked_calls SystemDemo.worked.1 SystemDemo.worked.2 "t1").
  - apply SystemDemo.system_store_good.
  - apply SystemDemo.system_demo_run.
  - discriminate.
  - split; [apply state_ok_zero|]. intros [H|H]; by destruct H.
Defined.

Lemma system_claims_separated_witness :
  SystemDemo.taken.2 !! 1 = Some (Ret (ASched (Ok true))) /\
  SystemDemo.taken.2 !! 3 = Some (Ret (ASched (Ok true))) /\
  exists l1 e1 l2 e2 l3, w_log SystemDemo.taken.1 = l1 ++ e1 :: l2 ++ e2 :: l3 /\
    ((en_owner e1 = 1 /\ en_owner e2 = 3) \/ (en_owner e1 = 3 /\ en_owner e2 = 1)) /\
    Exists (fun e => en_stream e = StreamID "t1" /\ Exists is_ready (events_of (en_out e))) l2.
Proof.
  assert (H1 : SystemDemo.taken.2 !! 1 = Some (Ret (ASched (Ok true)))) by (vm_compute; reflexivity).
  assert (H3 : SystemDemo.taken.2 !! 3 = Some (Ret (ASched (Ok true)))) by (vm_compute; reflexivity).
  split; [exact H1|]. split; [exact H3|].
  refine (system_claims_separated NewMemoryStore SystemDemo.taken_calls SystemDemo.taken.1 SystemDemo.taken.2 "t1"
           _ _ _ 1 3 (PoolDemo.self "A") (PoolDemo.self "B") _ eq_refl eq_refl _ H1 H3).
  - apply SystemDemo.system_store_good.
  - apply SystemDemo.system_demo_run.
  - discriminate.
  - apply state_ok_zero.
  - discriminate.
Defined.

(** The result of step [a] is the eighth append; the revision of the task at the end is no other one. *)
Lemma system_result_final_witness :
  exists l1 e1 l2 e2 l3, w_log SystemDemo.worked.1 = l1 ++ e1 :: l2 ++ e2 :: l3 /\ length l2 = 5 /\
    Exists (is_result "exec_1" "a") (events_of (en_out e1)) /\
    ~ Exists (is_result "exec_1" "a") (events_of (en_out e2)).
Proof.
  assert (H1 : (fun e => (en_stream e, events_of (en_out e))) <$> w_log SystemDemo.worked.1 !! 7 =
    Some (StreamID "t1", [StepCompleted "t1" "exec_1" "a" (VString "done")])) by (vm_compute; reflexivity).
  assert (H2 : en_stream <$> drop 8 (w_log SystemDemo.worked.1) !! 5 = Some (StreamID "t1")) by (vm_compute; reflexivity).
  assert (Hk : Forall (fun e => Forall (user_keeps "exec_1" "a") (events_of (en_out e))) (take 5 (drop 8 (w_log SystemDemo.worked.1)))).
  { apply (bool_decide_unpack _). vm_compute. exact I. }
  assert (Hlen : length (take 5 (drop 8 (w_log SystemDemo.worked.1))) = 5) by (vm_compute; reflexivity).
  apply fmap_Some in H1 as (e1 & Hat1 & E1). symmetry in E1. injection E1 as Hst1 Hev1.
  apply fmap_Some in H2 as (e2 & Hat2 & Hst2). symmetry in Hst2.
  pose proof (take_drop_middle _ _ _ Hat1) as Heq. symmetry in Heq.
  rewrite <- (take_drop_middle _ _ _ Hat2) in Heq.
  assert (Hres : Exists (is_result "exec_1" "a") (events_of (en_out e1))) by (rewrite Hev1; left; split; reflexivity).
  exists (take 7 (w_log SystemDemo.worked.1)), e1, (take 5 (drop 8 (w_log SystemDemo.worked.1))), e2,
    (drop 6 (drop 8 (w_log SystemDemo.worked.1))).
  split; [exact Heq|]. split; [exact Hlen|]. split; [exact Hres|].
  refine (system_result_final NewMemoryStore SystemDemo.worked_calls SystemDemo.worked.1 SystemDemo.worked.2 "t1"
           _ _ _ "exec_1" "a" _ e1 _ e2 _ _ _ Heq Hst1 Hst2 Hres _).
  - apply SystemDemo.system_store_good.
  - apply SystemDemo.system_demo_run.
  - discriminate.
  - apply state_ok_zero.
  - discriminate.
  - intros e He _ [_ Hu]. rewrite Forall_forall in Hk. specialize (Hk e He).
    apply Exists_exists in Hu as (ev & Hin & Hun). rewrite Forall_forall in Hk. by apply Hun, Hk.
Defined.

Lemma modify_atomic_witness :
  exists r, SystemDemo.worked.2 !! 2 = Some (Ret (AModify (OutOK r))) /\
    exists e s', en_stream e = StreamID "t1" /\ e ∈ w_log SystemDemo.worked.1 /\
      edits "t1" (Project (task_view (en_before e))) (events_of (en_out e)) s'.
Proof.
  assert (Hok : match SystemDemo.worked.2 !! 2 with Some (Ret (AModify (OutOK _))) => true | _ => false end = true)
    by (vm_compute; reflexivity).
  destruct (SystemDemo.worked.2 !! 2) as [p|] eqn:Hp; [|discriminate Hok].
  destruct p as [a| | | |]; try discriminate Hok. destruct a as [|[r|]| | | | |]; try discriminate Hok.
  exists r. split; [reflexivity|].
  destruct (modify_atomic NewMemoryStore SystemDemo.worked_calls SystemDemo.worked.1 SystemDemo.worked.2
              SystemDemo.system_store_good (SystemDemo.system_demo_run _ _ _) 2 3
              (mkModifyRequest "t1" [zero_Modification <| m_Op := "add_artifact" |> <| m_Labels := ["urgent"%string] |>
                 <| m_Artifact := zero_Artifact <| a_Name := "notes"%string |> |>] emp)
              (OutOK r) eq_refl Hp) as (_ & _ & e & Hadd & s' & He).
  exists e, s'. assert (Hin : e ∈ added 2 (StreamID "t1") (fresh (NewMemoryStore (P := TaskEvent))) SystemDemo.worked.1).
  { cbn [mr_ID] in Hadd. rewrite Hadd. apply list_elem_of_here. }
  apply added_fresh in Hin as [Hst Hin]. split; [exact Hst|]. split; [exact Hin|exact He].
Defined.
