(* ===== verification/Stranding.v ===== *)
(** * Tasks no scheduler will touch again

    A task may be ready or running while the protocol allows nothing but diagnostics on its stream:
    its current execution does not agree with its status. Schedulers alone never get there; two task
    modifications do. *)

From S2P Require Import Prelude Event Operation Graph Workflow Task TaskProject Prog TaskStore.
From S2P Require Import SchedLocal Completion WorkerText Scheduler TaskOps Edits Protocol SystemSpec.

(** The task runs without a running current execution, or is ready while its current execution runs. *)
Definition stranded (s : State) : Prop :=
  (t_Status (st_Task s) = StatusRunning /\ x_Status (execution s (st_Current s)) <> StatusRunning) \/
  (t_Status (st_Task s) = StatusReady /\ st_Current s <> emp /\ x_Status (execution s (st_Current s)) = StatusRunning).

Lemma running_execution_status s xid x :
  running_execution s xid = Some x ->
  t_Status (st_Task s) = StatusRunning /\ st_Current s = xid /\ x_Status (execution s (st_Current s)) = StatusRunning.
Proof. intros (Hl & Ht & Hc & Hx)%running_execution_iff. by rewrite Hc, (execution_found s xid x). Qed.

Lemma stranded_active s : st_Current s <> emp -> x_Status (execution s (st_Current s)) = StatusRunning ->
  executionActive s = true /\ resumableExecution s = false.
Proof.
  intros Hc Hx. rewrite status_of_execution in Hx. unfold executionActive, resumableExecution, current_execution.
  rewrite !decide_False by done. destruct (st_Executions s !! st_Current s) as [x|]; [|done]. simpl in Hx.
  rewrite Hx. split; [by apply bool_decide_eq_true|by apply bool_decide_eq_false].
Qed.

Lemma stranded_diagnostics s es : stranded s -> allowed s es -> is_diagnostic_batch es.
Proof.
  intros Hs Ha.
  assert (Hno : forall xid x, running_execution s xid <> Some x).
  { intros xid x (Ht & _ & Hx)%running_execution_status. destruct Hs as [[_ Hn]|[Hr _]]; [done|].
    rewrite Ht in Hr. discriminate Hr. }
  destruct Ha as [tid x Hr Hx Hst| | | | | | | | | | | | |]; try (by destruct (Hno _ _ ltac:(eassumption))); [|by do 4 eexists].
  exfalso. destruct Hs as [[Ht _]|(_ & Hc & Hact)]; [rewrite Hr in Ht; discriminate Ht|].
  destruct (stranded_active s Hc Hact) as [Ha Hres]. destruct Hst as [(y & Hy & Hint & _)|(_ & Hna & _)].
  - unfold resumableExecution in Hres. rewrite decide_False, Hy in Hres by done. by apply bool_decide_eq_false in Hres.
  - congruence.
Qed.

Lemma stranded_kept s b : state_ok s -> stranded s -> allowed s b.*1 -> stranded (apply_batch s b).
Proof.
  intros Hs Hst Ha. destruct (stranded_diagnostics s _ Hst Ha) as (tid & xid & sid & d & Hd).
  destruct b as [|[e at_] [|]]; try done. injection Hd as ->.
  change (stranded (Apply s (SchedulerDiagnostic tid xid sid d) at_)).
  set (s' := Apply s _ at_).
  assert (Hc : st_Current s' = st_Current s).
  { unfold s', Apply. rewrite cloneState_id. unfold apply_diagnostic.
    generalize (if decide (xid = emp) then st_Current (touch (with_task_id s tid) at_) else xid). intros id.
    case_decide; [reflexivity|]. case_decide; reflexivity. }
  assert (Ht : t_Status (st_Task s') = t_Status (st_Task s)).
  { unfold s', Apply. rewrite cloneState_id. apply diagnostic_status. }
  unfold stranded. rewrite Hc, Ht. unfold s'. by rewrite diagnostic_execution_status.
Qed.

(** Whatever any number of schedulers do, nothing but diagnostics is added to such a task. *)
Lemma stranded_forever s batches :
  state_ok s -> stranded s -> follows s batches -> Forall (fun b => is_diagnostic_batch b.*1) batches.
Proof.
  intros Hs Hst Hf. induction Hf as [s|s b rest Ha _ IH]; constructor.
  - by eapply stranded_diagnostics.
  - apply IH; [by apply batch_state_ok|by apply stranded_kept].
Qed.

(** ** How users get there *)

Section Users.
Context {P : Type} {CF : CaseFold}.
Abbreviation returns := (may_return (P := P) sched_responds).
Implicit Types (s : State) (m : TaskModification).

Lemma artifacts_switch f s xid sid at_ :
  state_ok s -> xid <> emp ->
  st_Current (on_artifacts f s xid sid at_) = xid /\
  x_Status (execution (on_artifacts f s xid sid at_) xid) = x_Status (execution s xid).
Proof.
  intros Hs Hx. pose proof (execution_id s xid Hs) as Hid. unfold on_artifacts. case_decide; [|case_decide; [|done]].
  - split; [done|]. rewrite status_of_execution, (make_current_executions s) by done. by rewrite lookup_insert_eq.
  - split; [done|]. rewrite status_of_execution, (make_current_executions s) by done. by rewrite lookup_insert_eq.
Qed.

(** Updating an artifact of an earlier execution while another execution of the task runs makes
    the earlier one current: the running worker's results, the renewal of its lease and the recovery
    of its execution are refused from then on, and no scheduler writes anything but diagnostics. *)
Theorem artifact_update_strands s s' es tid m sc xid x batches :
  state_ok s -> running_execution s xid = Some x ->
  artifactScopeForID s (m_ArtifactID m) = Some sc -> sc_ExecutionID sc <> emp ->
  x_Status (execution s (sc_ExecutionID sc)) <> StatusRunning ->
  returns (mod_update_artifact tid m s) (Ok (s', es)) ->
  follows s' batches -> stranded s' /\ Forall (fun b => is_diagnostic_batch b.*1) batches.
Proof.
  intros Hs Hx Hsc Hne Hnr Hret Hf.
  assert (Hst : state_ok s' /\ stranded s'); [|by split; [apply Hst|eapply stranded_forever; [apply Hst..|done]]].
  unfold mod_update_artifact in Hret. destruct (find_artifact m s) as [sc'|] eqn:Ef; [|done].
  apply artifact_scope_spec in Ef as [_ Ef]. rewrite Hsc in Ef. injection Ef as <-.
  destruct (validateArtifact _) as [u|]; [|done].
  assert (Hgo : forall a, returns (emit s (ArtifactUpdated tid (sc_ExecutionID sc) (sc_StepID sc) (m_ArtifactID m) a)) (Ok (s', es)) ->
    state_ok s' /\ stranded s').
  { intros a [now He]%emit_returns.
    assert (E : s' = Apply s (ArtifactUpdated tid (sc_ExecutionID sc) (sc_StepID sc) (m_ArtifactID m) a) now) by congruence.
    clear He Hf. rewrite E. split; [by apply apply_ok|]. left. unfold Apply. rewrite cloneState_id. unfold updateScopedArtifact. rewrite on_artifacts_status. split.
    - by apply running_execution_status in Hx as [? _].
    - destruct (artifacts_switch (fun l => updateArtifact l (m_ArtifactID m) a) (with_task_id s tid) (sc_ExecutionID sc)
        (sc_StepID sc) now) as [-> ->]; [by apply with_task_id_ok|done|].
      rewrite status_of_execution in Hnr |- *. exact Hnr. }
  revert Hret. case_decide; [apply Hgo|]. destruct (_ && _); [done|apply Hgo].
Qed.

Definition set_status (status : Status) : TaskModification :=
  zero_Modification <| m_Op := "set_status" |> <| m_Status := status |>.

Lemma set_status_emits fuel tid status s :
  ValidStatus status = true -> t_Status (st_Task s) <> status -> Terminal (t_Status (st_Task s)) = false ->
  (t_Status (st_Task s) = StatusRunning -> status <> StatusReady /\ status <> StatusDraft) ->
  applyModification (P := P) fuel tid emp (set_status status) s =
    emit s (StatusChanged tid (t_Status (st_Task s)) status emp).
Proof.
  intros Hv Hne Hnt Hr.
  change (mod_set_status (P := P) tid emp (set_status status) s = emit s (StatusChanged tid (t_Status (st_Task s)) status emp)).
  unfold mod_set_status. change (m_Status (set_status status)) with status.
  assert (Hb : bool_decide (status = emp) = false) by (apply bool_decide_eq_false; by apply valid_nonempty).
  rewrite Hb, Hv. cbn [orb negb]. rewrite (decide_False (P := t_Status (st_Task s) = status)) by done.
  rewrite Hnt. cbn [andb]. destruct (decide (_ /\ _)) as [[Hrun [H|H]]|_]; [by apply Hr in Hrun as [? _]|by apply Hr in Hrun as [_ ?]|].
  reflexivity.
Qed.

(** [task_modify] refuses to make a running task ready, but blocking it first is accepted, and in
    the same request: the task is then ready while its execution runs, and no scheduler claims it,
    resumes it or writes anything but diagnostics. *)
Theorem status_bypass_strands s fuel tid xid x :
  state_ok s -> running_execution s xid = Some x -> xid <> emp ->
  applyModification (P := P) fuel tid emp (set_status StatusReady) s = Ret (Err (MErrRunning StatusReady)) /\
  forall r, returns (apply_all fuel tid emp [set_status StatusBlocked; set_status StatusReady] s [] []) r ->
    exists s' es rs, r = Ok (s', es, rs) /\ stranded s' /\
      forall batches, follows s' batches -> Forall (fun b => is_diagnostic_batch b.*1) batches.
Proof.
  intros Hs Hx Hne. apply running_execution_status in Hx as (Ht & Hc & Hx). split.
  { change (mod_set_status (P := P) tid emp (set_status StatusReady) s = Ret (Err (MErrRunning StatusReady))).
    unfold mod_set_status. by rewrite Ht. }
  intros r Hr. cbn [apply_all] in Hr. rewrite set_status_emits in Hr by (rewrite ?Ht; first [done|by split]).
  apply may_return_bind in Hr as (r1 & (t1 & ->)%emit_returns & Hr).
  set (e1 := StatusChanged tid (t_Status (st_Task s)) StatusBlocked emp) in *.
  assert (H1 : t_Status (st_Task (Apply s e1 t1)) = StatusBlocked) by (unfold e1, Apply; by rewrite cloneState_id).
  rewrite set_status_emits in Hr by (rewrite ?H1; first [done|by split]).
  apply may_return_bind in Hr as (r2 & (t2 & ->)%emit_returns & Hr). rewrite H1 in Hr.
  set (e2 := StatusChanged tid StatusBlocked StatusReady emp) in *.
  assert (Hs1 : state_ok (Apply s e1 t1)) by (apply apply_ok; [done|by apply known_valid]).
  assert (Hs2 : state_ok (Apply (Apply s e1 t1) e2 t2)) by (apply apply_ok; [done|by apply known_valid]).
  assert (Hst : stranded (Apply (Apply s e1 t1) e2 t2)).
  { right. assert (Hcur : st_Current (Apply (Apply s e1 t1) e2 t2) = st_Current s)
      by (unfold e1, e2, Apply; by rewrite !cloneState_id).
    rewrite Hcur, status_of_execution. unfold e1, e2. rewrite !status_changed_executions.
    rewrite status_of_execution in Hx. split_and!; [|congruence|exact Hx].
    unfold Apply at 1. by rewrite cloneState_id. }
  eexists _, _, _. split; [exact Hr|]. split; [exact Hst|]. intros batches. by apply stranded_forever.
Qed.
End Users.

(** ** On a task that runs for the second time *)

Module StrandingDemo.
#[local] Existing Instance CompletionDemo.ascii_fold.
Definition run (xid : string) : Execution := zero_Execution <| x_ID := xid |> <| x_Status := StatusRunning |>.
Definition report : ArtifactSpec := zero_Artifact <| a_ID := "report" |> <| a_Name := "report" |>.
Definition history : list (TaskEvent * Time) :=
  [(Created "t1" (zero_Task <| t_ID := "t1" |> <| t_Title := "ship" |> <| t_Status := StatusReady |>), 1%Z);
   (ExecutionStarted "t1" "exec_1" (run "exec_1"), 2%Z);
   (ArtifactAdded "t1" "exec_1" emp report, 3%Z);
   (ExecutionCompleted "t1" "exec_1" VNil, 4%Z);
   (StatusChanged "t1" StatusCompleted StatusReady "reopened", 5%Z);
   (ExecutionStarted "t1" "exec_2" (run "exec_2"), 6%Z)].
Definition state : State := Project history.
Lemma state_good : state_ok state.
Proof. apply project_ok. repeat apply Forall_cons_2; try apply Forall_nil_2; simpl; try by right. all: try split; try (by right); try apply map_Forall_empty; try done. Qed.
Definition rename : TaskModification :=
  zero_Modification <| m_Op := "update_artifact" |> <| m_ArtifactID := "report" |>
    <| m_Artifact := report <| a_Name := "final report" |> |>.
Definition edited : State :=
  Apply state (ArtifactUpdated "t1" "exec_1" emp "report" (report <| a_Name := "final report" |>)) 7%Z.
Definition complaint : list (list (TaskEvent * Time)) :=
  [[(SchedulerDiagnostic "t1" "exec_2" emp (mkDiagnostic "code" "message" emp), 8%Z)]].
Lemma complaint_follows s : follows s complaint.
Proof. repeat constructor. Qed.
End StrandingDemo.
#[local] Existing Instance CompletionDemo.ascii_fold.

Lemma artifact_update_strands_witness :
  stranded StrandingDemo.edited /\ Forall (fun b => is_diagnostic_batch b.*1) StrandingDemo.complaint.
Proof.
  assert (Hx : exists x, running_execution StrandingDemo.state "exec_2" = Some x)
    by (vm_compute; eexists; reflexivity).
  destruct Hx as [x Hx].
  refine (artifact_update_strands (P := TaskEvent) StrandingDemo.state StrandingDemo.edited
    [ArtifactUpdated "t1" "exec_1" emp "report" (StrandingDemo.report <| a_Name := "final report" |>)] "t1"
    StrandingDemo.rename (mkScoped "t1" "exec_1" emp StrandingDemo.report) "exec_2" x StrandingDemo.complaint
    StrandingDemo.state_good Hx _ _ _ _ _).
  - vm_compute. reflexivity.
  - discriminate.
  - vm_compute. discriminate.
  - assert (E : mod_update_artifact (P := TaskEvent) "t1" StrandingDemo.rename StrandingDemo.state =
      emit StrandingDemo.state (ArtifactUpdated "t1" "exec_1" emp "report" (StrandingDemo.report <| a_Name := "final report" |>))).
    { unfold mod_update_artifact.
      assert (Ef : find_artifact StrandingDemo.rename StrandingDemo.state = Ok (mkScoped "t1" "exec_1" emp StrandingDemo.report))
        by (vm_compute; reflexivity).
      rewrite Ef. reflexivity. }
    rewrite E. exists 7%Z. split; [exact I|reflexivity].
  - apply StrandingDemo.complaint_follows.
Defined.

Lemma status_bypass_strands_witness :
  exists s' es rs,
    may_return (P := TaskEvent) sched_responds
      (apply_all 0 "t1" emp [set_status StatusBlocked; set_status StatusReady] StrandingDemo.state [] []) (Ok (s', es, rs)) /\
    stranded s' /\ Forall (fun b => is_diagnostic_batch b.*1) StrandingDemo.complaint.
Proof.
  assert (Hx : exists x, running_execution StrandingDemo.state "exec_2" = Some x)
    by (vm_compute; eexists; reflexivity).
  destruct Hx as [x Hx].
  destruct (status_bypass_strands (P := TaskEvent) StrandingDemo.state 0 "t1" "exec_2" x StrandingDemo.state_good Hx)
    as [_ Hall]; [discriminate|].
  set (s1 := Apply StrandingDemo.state (StatusChanged "t1" StatusRunning StatusBlocked emp) 7%Z).
  set (s2 := Apply s1 (StatusChanged "t1" StatusBlocked StatusReady emp) 8%Z).
  assert (Hr : may_return (P := TaskEvent) sched_responds
    (apply_all 0 "t1" emp [set_status StatusBlocked; set_status StatusReady] StrandingDemo.state [] [])
    (Ok (s2, [StatusChanged "t1" StatusRunning StatusBlocked emp; StatusChanged "t1" StatusBlocked StatusReady emp],
         [mkModResult "set_status" true emp; mkModResult "set_status" true emp]))).
  { exists 7%Z. split; [exact I|]. exists 8%Z. split; [exact I|]. reflexivity. }
  destruct (Hall _ Hr) as (s' & es & rs & E & Hst & Hb). rewrite E in Hr.
  exists s', es, rs. split; [exact Hr|]. split; [exact Hst|]. apply Hb, StrandingDemo.complaint_follows.
Defined.
