(* ===== verification/Thread.v ===== *)
(** * Threads: data and projection (src/core/thread and src/runtime/thread/store.go)

    A thread is a stream of records; each carries its branch and node coordinates in its attributes.
    [projectSnapshot] replays the stream; [EventsForBranch] selects what is visible on one branch
    by walking the ancestry of the branch and opening a window of the stream per ancestor. *)

From S2P Require Import Prelude Event.

(** ** Data *)

Definition MainBranch : string := "main".
Record Ref := mkRef { ref_ID : string; ref_BranchID : string }.
Record Source := mkSource { source_Kind : string; source_ID : string; source_SessionID : string }.

(** The payloads of thread streams; a payload of the code may be the struct or a pointer to it, which
    every type switch treats alike. [OtherEvent] is any other payload: it takes the default branch.
    A nil metadata map and an empty one are the same [gmap]. *)
Inductive ThreadEvent (F : Type) :=
| ThreadCreated (ThreadID BranchID : string) (Metadata : gmap string string) (CreatedAt : Time) (src : Source)
| MetadataUpdated (ThreadID : string) (Metadata : gmap string string) (UpdatedAt : Time) (src : Source)
| ThreadArchived (ThreadID : string) (At : Time) (src : Source)
| ThreadUnarchived (ThreadID : string) (At : Time) (src : Source)
| BranchCreated (ThreadID FromBranchID ToBranchID : string) (ForkSequence : Z) (CreatedAt : Time) (src : Source)
| BranchHeadMoved (ThreadID BranchID NodeID : string) (At : Time) (src : Source)
| OtherEvent (name : string) (f : F).
Arguments ThreadCreated {F}. Arguments MetadataUpdated {F}. Arguments ThreadArchived {F}.
Arguments ThreadUnarchived {F}. Arguments BranchCreated {F}. Arguments BranchHeadMoved {F}.
Arguments OtherEvent {F}.

Definition ThreadEventName {F} (e : ThreadEvent F) : string :=
  match e with
  | ThreadCreated _ _ _ _ _ => "thread.created"
  | MetadataUpdated _ _ _ _ => "thread.metadata_updated"
  | ThreadArchived _ _ _ => "thread.archived"
  | ThreadUnarchived _ _ _ => "thread.unarchived"
  | BranchCreated _ _ _ _ _ _ => "branch.created"
  | BranchHeadMoved _ _ _ _ _ => "branch.head_moved"
  | OtherEvent name _ => name
  end.

Record Branch := mkBranch { br_ID : string; br_Parent : string; br_ForkSequence : Z; br_CreatedAt : Time }.
#[global] Instance Branch_eq_dec : EqDecision Branch.
Proof. solve_decision. Defined.

Inductive ThreadError :=
| ErrThreadIDEmpty
| ErrNotFound
| ErrBranchNotFound (branch : string)
| ErrAlreadyExists
| ErrBranchExists (branch : string)
| ErrEvents (e : StoreError)
| ErrWait (msg : string)
| WriteError (Op ThreadID : string) (Attempt Attempts : nat) (err : ThreadError).

Section Snapshot.
Context {F : Type}.
Abbreviation Rec := (EventRecord (ThreadEvent F)).

Record AppendRecord := mkAppendRecord { ar_NodeID : string; ar_ParentNodeID : string; ar_Event : Rec }.

(** [Record] of package thread. *)
Record ThreadRecord := mkThreadRecord {
  tr_ThreadID : string;
  tr_BranchID : string;
  tr_NodeID : string;
  tr_ParentNodeID : string;
  tr_Sequence : Z;
  tr_Event : Rec
}.

Record Snapshot := mkSnapshot {
  sn_ID : string;
  sn_BranchID : string;
  sn_Branches : gmap string Branch;
  sn_Metadata : gmap string string;
  sn_Archived : bool;
  sn_CreatedAt : Time;
  sn_UpdatedAt : Time;
  sn_Events : list ThreadRecord
}.
#[global] Instance rebuild_Snapshot : Rebuild Snapshot := fun s =>
  mkSnapshot s.(sn_ID) s.(sn_BranchID) s.(sn_Branches) s.(sn_Metadata) s.(sn_Archived) s.(sn_CreatedAt)
    s.(sn_UpdatedAt) s.(sn_Events).
Definition zero_Snapshot : Snapshot := mkSnapshot emp emp ∅ ∅ false 0 0 [].

(** ** Projection *)

Definition attrBranchID : string := "thread.branch_id".
Definition attrNodeID : string := "thread.node_id".
Definition attrParentNodeID : string := "thread.parent_node_id".
Definition attrIdempotencyKey : string := "thread.idempotency_key".

(** Reading a string map: the zero string when absent. *)
Definition attribute (m : gmap string string) (key : string) : string := default emp (m !! key).

Definition normalizeBranch (branchID : string) : string :=
  if decide (branchID = emp) then MainBranch else branchID.
Definition cloneAttributes (m : gmap string string) : gmap string string := m.

Definition toThreadRecord (id : string) (sequence : Z) (record : Rec) : ThreadRecord :=
  mkThreadRecord id
    (normalizeBranch (attribute (rec_Attributes record) attrBranchID))
    (attribute (rec_Attributes record) attrNodeID)
    (attribute (rec_Attributes record) attrParentNodeID)
    sequence record.

Definition applyThreadCreated (s : Snapshot) (payloadBranch : string) (metadata : gmap string string)
    (createdAt : Time) (branchID : string) : Snapshot :=
  let branchID := normalizeBranch (if decide (payloadBranch = emp) then branchID else payloadBranch) in
  s <| sn_BranchID := branchID |>
    <| sn_Metadata := cloneAttributes metadata |>
    <| sn_CreatedAt := createdAt |>
    <| sn_UpdatedAt := createdAt |>
    <| sn_Branches := <[branchID := mkBranch branchID emp 0 createdAt]> (sn_Branches s) |>.

Definition applyBranchCreated (s : Snapshot) (from to : string) (fork : Z) (createdAt : Time) : Snapshot :=
  let to := normalizeBranch to in
  s <| sn_Branches := <[to := mkBranch to (normalizeBranch from) fork createdAt]> (sn_Branches s) |>.

(** [for key, value := range metadata]: the entries of [metadata] win. *)
Definition mergeMetadata (s : Snapshot) (metadata : gmap string string) : Snapshot :=
  s <| sn_Metadata := metadata ∪ sn_Metadata s |>.

(** The type switch of [projectSnapshot]. *)
Definition apply_payload (s : Snapshot) (payload : ThreadEvent F) (branchID : string) : Snapshot :=
  match payload with
  | ThreadCreated _ branch metadata createdAt _ => applyThreadCreated s branch metadata createdAt branchID
  | MetadataUpdated _ metadata updatedAt _ =>
      let s := mergeMetadata s metadata in
      if time_IsZero updatedAt then s else s <| sn_UpdatedAt := updatedAt |>
  | ThreadArchived _ at_ _ => s <| sn_Archived := true |> <| sn_UpdatedAt := at_ |>
  | ThreadUnarchived _ at_ _ => s <| sn_Archived := false |> <| sn_UpdatedAt := at_ |>
  | BranchCreated _ from to fork createdAt _ => applyBranchCreated s from to fork createdAt
  | BranchHeadMoved _ _ _ _ _ | OtherEvent _ _ => s
  end.

(** The body of the loop of [projectSnapshot] for the record at index [i]. *)
Definition project_record (id : string) (i : nat) (s : Snapshot) (record : Rec) : Snapshot :=
  let threadRecord := toThreadRecord id (Z.of_nat i + 1) record in
  let s := s <| sn_Events := sn_Events s ++ [threadRecord] |> in
  let s := apply_payload s (rec_Payload record) (tr_BranchID threadRecord) in
  if time_IsZero (sn_UpdatedAt s) || time_After (rec_Time record) (sn_UpdatedAt s)
  then s <| sn_UpdatedAt := rec_Time record |> else s.
Fixpoint project_from (id : string) (i : nat) (s : Snapshot) (records : list Rec) : Snapshot :=
  match records with
  | [] => s
  | record :: rest => project_from id (S i) (project_record id i s record) rest
  end.
Definition initial_snapshot (id : string) : Snapshot :=
  zero_Snapshot <| sn_ID := id |> <| sn_BranchID := MainBranch |>
    <| sn_Branches := {[ MainBranch := mkBranch MainBranch emp 0 0 ]} |>.
Definition projectSnapshot (id : string) (records : list Rec) : Snapshot :=
  project_from id 0 (initial_snapshot id) records.

(** ** Branch views *)

Record branchWindow := mkWindow { win_after : Z; win_until : Z }.

(** The loop [for current := branchID; current != ""]: leaf first. Nothing in the code bounds it;
    [None] is running out of [fuel]. *)
Fixpoint ancestry (fuel : nat) (branches : gmap string Branch) (current : string) (reversed : list Branch)
    : option (Result ThreadError (list Branch)) :=
  match fuel with
  | O => None
  | S fuel' =>
      if decide (current = emp) then Some (Ok reversed) else
      match branches !! current with
      | None => Some (Err (ErrBranchNotFound current))
      | Some branch => ancestry fuel' branches (br_Parent branch) (reversed ++ [branch])
      end
  end.

(** The loop that fills [windows] along a path from the root to the branch. *)
Fixpoint path_windows (path : list Branch) (windows : gmap string branchWindow) : gmap string branchWindow :=
  match path with
  | [] => windows
  | branch :: rest =>
      let until := match rest with next :: _ => br_ForkSequence next | [] => 0%Z end in
      path_windows rest (<[br_ID branch := mkWindow (br_ForkSequence branch) until]> windows)
  end.

Definition branchWindows (fuel : nat) (s : Snapshot) (branchID : string)
    : option (Result ThreadError (gmap string branchWindow)) :=
  if decide (sn_Branches s = ∅) then
    if bool_decide (branchID = MainBranch) || bool_decide (branchID = emp)
    then Some (Ok {[ MainBranch := mkWindow 0 0 ]}) else Some (Err (ErrBranchNotFound branchID))
  else
    match ancestry fuel (sn_Branches s) branchID [] with
    | None => None
    | Some (Err e) => Some (Err e)
    | Some (Ok reversed) => Some (Ok (path_windows (rev reversed) ∅))
    end.

(** The tests of the loop of [EventsForBranch]. *)
Definition window_shows (windows : gmap string branchWindow) (record : ThreadRecord) : bool :=
  match windows !! tr_BranchID record with
  | None => false
  | Some window =>
      if (tr_Sequence record <=? win_after window)%Z then false
      else if (0 <? win_until window)%Z && (win_until window <? tr_Sequence record)%Z then false
      else true
  end.

Definition EventsForBranch (fuel : nat) (s : Snapshot) (branchID : string)
    : option (Result ThreadError (list ThreadRecord)) :=
  let branchID := if decide (branchID = emp) then sn_BranchID s else branchID in
  let branchID := if decide (branchID = emp) then MainBranch else branchID in
  match branchWindows fuel s branchID with
  | None => None
  | Some (Err e) => Some (Err e)
  | Some (Ok windows) => Some (Ok (List.filter (window_shows windows) (sn_Events s)))
  end.

(** One turn of the loop per branch of the snapshot and one to see the empty parent. *)
Definition branch_fuel (s : Snapshot) : nat := S (size (sn_Branches s)).
End Snapshot.
Arguments AppendRecord : clear implicits.
Arguments ThreadRecord : clear implicits.
Arguments Snapshot : clear implicits.
