(* ===== verification/ThreadViews.v ===== *)
(** * Branch views of a thread

    [history] says which streams the thread store writes. For those, the projection is well formed,
    the walk over the ancestry of a branch ends, and what [EventsForBranch] selects by windows is
    what an eager implementation would hold, in which a fork copies the list of its parent
    ([branch_views]). *)

From S2P Require Import Prelude Event Thread.

Section Views.
Context {F : Type}.
Abbreviation Rec := (EventRecord (ThreadEvent F)).
Abbreviation Snap := (Snapshot F).
Implicit Types (r : Rec) (recs : list Rec) (s : Snap) (m : gmap string Branch) (path : list Branch).

(** ** Streams the thread store writes *)

(** Payloads that leave the branches of a thread alone. *)
Definition plain_payload (p : ThreadEvent F) : bool :=
  match p with ThreadCreated _ _ _ _ _ | BranchCreated _ _ _ _ _ _ => false | _ => true end.
Definition record_branch r : string := normalizeBranch (attribute (rec_Attributes r) attrBranchID).

Inductive history (id : string) : list Rec -> Prop :=
| history_nil : history id []
| history_created r branch metadata at_ src :
    branch <> emp -> rec_Payload r = ThreadCreated id branch metadata at_ src -> record_branch r = branch ->
    history id [r]
| history_plain recs r :
    history id recs -> recs <> [] -> plain_payload (rec_Payload r) = true ->
    is_Some (sn_Branches (projectSnapshot id recs) !! record_branch r) -> history id (recs ++ [r])
| history_fork recs r from to at_ src :
    history id recs -> recs <> [] ->
    rec_Payload r = BranchCreated id from to (Z.of_nat (length recs)) at_ src -> record_branch r = to ->
    is_Some (sn_Branches (projectSnapshot id recs) !! from) ->
    sn_Branches (projectSnapshot id recs) !! to = None -> from <> emp -> to <> emp ->
    history id (recs ++ [r]).

(** ** The reference: a list per branch, copied by a fork *)

Definition view_record (id : string) (i : nat) (views : gmap string (list (ThreadRecord F))) r
    : gmap string (list (ThreadRecord F)) :=
  let record := toThreadRecord id (Z.of_nat i + 1) r in
  match rec_Payload r with
  | BranchCreated _ from to _ _ _ => <[to := default [] (views !! from) ++ [record]]> views
  | _ => <[record_branch r := default [] (views !! record_branch r) ++ [record]]> views
  end.
Fixpoint views_from (id : string) (i : nat) (views : gmap string (list (ThreadRecord F))) recs :=
  match recs with
  | [] => views
  | r :: rest => views_from id (S i) (view_record id i views r) rest
  end.
Definition branch_views (id : string) recs : gmap string (list (ThreadRecord F)) :=
  views_from id 0 {[ MainBranch := [] ]} recs.

(** ** Replaying one more record *)

Lemma project_from_snoc id i s recs r :
  project_from id i s (recs ++ [r]) = project_record id (i + length recs) (project_from id i s recs) r.
Proof.
  revert i s. induction recs as [|r' recs IH]; intros i s; cbn; [by rewrite Nat.add_0_r|].
  rewrite IH. f_equal. lia.
Qed.
Lemma projectSnapshot_snoc id recs r :
  projectSnapshot id (recs ++ [r]) = project_record id (length recs) (projectSnapshot id recs) r.
Proof. apply project_from_snoc. Qed.
Lemma views_from_snoc id i views recs r :
  views_from id i views (recs ++ [r]) = view_record id (i + length recs) (views_from id i views recs) r.
Proof.
  revert i views. induction recs as [|r' recs IH]; intros i views; cbn; [by rewrite Nat.add_0_r|].
  rewrite IH. f_equal. lia.
Qed.
Lemma branch_views_snoc id recs r :
  branch_views id (recs ++ [r]) = view_record id (length recs) (branch_views id recs) r.
Proof. apply views_from_snoc. Qed.

Lemma project_record_events id i s r :
  sn_Events (project_record id i s r) = sn_Events s ++ [toThreadRecord id (Z.of_nat i + 1) r].
Proof.
  unfold project_record. cbv zeta.
  set (s' := apply_payload _ _ _). assert (E : sn_Events s' = sn_Events s ++ [toThreadRecord id (Z.of_nat i + 1) r]).
  { unfold s'. destruct (rec_Payload r); try reflexivity. cbn. by destruct (time_IsZero _). }
  destruct (_ || _); [|done]. rewrite <- E. reflexivity.
Qed.

Lemma project_record_branches id i s r :
  sn_Branches (project_record id i s r) =
    match rec_Payload r with
    | ThreadCreated _ branch _ at_ _ =>
        let b := normalizeBranch (if decide (branch = emp) then record_branch r else branch) in
        <[b := mkBranch b emp 0 at_]> (sn_Branches s)
    | BranchCreated _ from to fork at_ _ =>
        <[normalizeBranch to := mkBranch (normalizeBranch to) (normalizeBranch from) fork at_]> (sn_Branches s)
    | _ => sn_Branches s
    end.
Proof.
  unfold project_record. cbv zeta. destruct (_ || _); destruct (rec_Payload r); try reflexivity;
    cbn; by destruct (time_IsZero _).
Qed.

Lemma normalizeBranch_nonempty b : b <> emp -> normalizeBranch b = b.
Proof. intros. unfold normalizeBranch. by rewrite decide_False. Qed.
Lemma normalizeBranch_ne b : normalizeBranch b <> emp.
Proof. unfold normalizeBranch. by case_decide. Qed.

(** ** Ancestries *)

(** The path from a branch to its root. *)
Inductive lineage m : string -> list Branch -> Prop :=
| lineage_root b br : b <> emp -> m !! b = Some br -> br_Parent br = emp -> lineage m b [br]
| lineage_child b br path :
    b <> emp -> m !! b = Some br -> br_Parent br <> emp -> lineage m (br_Parent br) path ->
    lineage m b (br :: path).

Lemma lineage_insert m b path t br : m !! t = None -> lineage m b path -> lineage (<[t := br]> m) b path.
Proof.
  intros Ht. induction 1 as [b br' Hne Hb Hp|b br' path Hne Hb Hp _ IH];
    (assert (t <> b) by (intros ->; congruence));
    [apply lineage_root|apply lineage_child]; rewrite ?lookup_insert_ne by done; done.
Qed.

(** The loop follows the lineage. *)
Lemma ancestry_lineage fuel m b path acc :
  lineage m b path -> length path < fuel -> ancestry fuel m b acc = Some (Ok (acc ++ path)).
Proof.
  intros Hl. revert fuel acc. induction Hl as [b br Hne Hb Hp|b br path Hne Hb Hp _ IH];
    intros [|fuel] acc Hf; cbn in *; try lia; rewrite decide_False, Hb by done.
  - rewrite Hp. destruct fuel; [lia|]. reflexivity.
  - rewrite IH by lia. by rewrite <- app_assoc.
Qed.

(** What a well-formed snapshot promises about its branches: every branch has a lineage, and a fork
    happened after its parent was created and before now. *)
Record branches_ok (n : nat) m : Prop := {
  bo_key b br : m !! b = Some br -> br_ID br = b /\ b <> emp;
  bo_fork b br : m !! b = Some br -> br_Parent br <> emp -> (0 < br_ForkSequence br < Z.of_nat n)%Z;
  bo_root b br : m !! b = Some br -> br_Parent br = emp -> br_ForkSequence br = 0%Z;
  bo_main : is_Some (m !! MainBranch);
  bo_lineage b : is_Some (m !! b) -> exists path, lineage m b path /\ length path <= size m
}.

Lemma branches_ok_le n n' m : n <= n' -> branches_ok n m -> branches_ok n' m.
Proof. intros Hn [H1 H2 H3 H4 H5]. split; try done. intros b br Hb Hp. specialize (H2 b br Hb Hp). lia. Qed.

Lemma branches_ok_fork n m from to at_ :
  branches_ok n m -> 0 < n -> is_Some (m !! from) -> m !! to = None -> from <> emp -> to <> emp ->
  branches_ok (S n) (<[to := mkBranch to from (Z.of_nat n) at_]> m).
Proof.
  intros [H1 H2 H3 H4 H5] Hn Hfrom Hto Hf Ht. split.
  - intros b br [[<- <-]|[_ Hb]]%lookup_insert_Some; [done|by apply H1].
  - intros b br [[<- <-]|[_ Hb]]%lookup_insert_Some Hp; cbn; [lia|]. specialize (H2 b br Hb Hp). lia.
  - intros b br [[<- <-]|[_ Hb]]%lookup_insert_Some Hp; [done|by eapply H3].
  - by apply lookup_insert_is_Some'; right.
  - rewrite map_size_insert_None by done. intros b Hb. destruct (decide (b = to)) as [->|Hne].
    + destruct (H5 _ Hfrom) as (path & Hl & Hlen). eexists (_ :: path). split; [|cbn; lia].
      apply lineage_child; [done|apply lookup_insert_eq|done|]. by apply lineage_insert.
    + rewrite lookup_insert_ne in Hb by done. destruct (H5 _ Hb) as (path & Hl & Hlen).
      exists path. split; [by apply lineage_insert|lia].
Qed.

(** ** Windows *)

(** The windows of a lineage, leaf first: the leaf is open, or ends at [close]; an ancestor ends
    where its child was forked. *)
Fixpoint lineage_windows (close : Z) path : gmap string branchWindow :=
  match path with
  | [] => ∅
  | br :: rest => <[br_ID br := mkWindow (br_ForkSequence br) close]> (lineage_windows (br_ForkSequence br) rest)
  end.

(** [path_windows] with the end of the last window as a parameter. *)
Fixpoint windows_to (close : Z) path (windows : gmap string branchWindow) : gmap string branchWindow :=
  match path with
  | [] => windows
  | br :: rest =>
      let next := match rest with next :: _ => br_ForkSequence next | [] => close end in
      windows_to close rest (<[br_ID br := mkWindow (br_ForkSequence br) next]> windows)
  end.

Lemma windows_to_snoc close path br windows :
  windows_to close (path ++ [br]) windows =
    <[br_ID br := mkWindow (br_ForkSequence br) close]> (windows_to (br_ForkSequence br) path windows).
Proof.
  revert windows. induction path as [|x path IH]; intros windows; [done|]. cbn [windows_to app].
  rewrite IH. do 2 f_equal. by destruct path.
Qed.
Lemma windows_to_rev close path : windows_to close (rev path) ∅ = lineage_windows close path.
Proof.
  revert close. induction path as [|br path IH]; intros close; [done|]. cbn [rev lineage_windows].
  by rewrite windows_to_snoc, IH.
Qed.
Lemma path_windows_rev path : path_windows (rev path) ∅ = lineage_windows 0 path.
Proof. rewrite <- windows_to_rev. generalize (rev path), (∅ : gmap string branchWindow). intros l. induction l; cbn; auto. Qed.

(** The windows of the ancestors are closed. *)
Lemma ancestor_closed n m b path close c w :
  branches_ok n m -> lineage m b path -> (0 < close <= Z.of_nat n)%Z ->
  lineage_windows close path !! c = Some w -> (0 < win_until w <= Z.of_nat n)%Z.
Proof.
  intros Hok Hl. revert close. induction Hl as [b br Hne Hb Hp|b br path Hne Hb Hp _ IH]; intros close Hu; cbn.
  - intros [[_ <-]|[_ H]]%lookup_insert_Some; [done|]. by rewrite lookup_empty in H.
  - intros [[_ <-]|[_ H]]%lookup_insert_Some; [done|]. apply IH in H; [done|].
    pose proof (bo_fork _ _ Hok _ _ Hb Hp). lia.
Qed.

Lemma lineage_known n m b path close c w :
  branches_ok n m -> lineage m b path -> lineage_windows close path !! c = Some w -> is_Some (m !! c).
Proof.
  intros Hok Hl. revert close. induction Hl as [b br Hne Hb Hp|b br path Hne Hb Hp _ IH]; intros close; cbn;
    destruct (bo_key _ _ Hok _ _ Hb) as [-> _].
  - intros [[<- _]|[_ H]]%lookup_insert_Some; [by eexists|]. by rewrite lookup_empty in H.
  - intros [[<- _]|[_ H]]%lookup_insert_Some; [by eexists|]. by eapply IH.
Qed.

(** The window of the branch itself is open, and begins before now. *)
Lemma lineage_head n m b path close :
  branches_ok n m -> lineage m b path -> 0 < n ->
  exists w, lineage_windows close path !! b = Some w /\ win_until w = close /\ (0 <= win_after w < Z.of_nat n)%Z.
Proof.
  intros Hok Hl Hn. destruct Hl as [b br Hne Hb Hp|b br path Hne Hb Hp _]; cbn;
    destruct (bo_key _ _ Hok _ _ Hb) as [-> _]; rewrite lookup_insert_eq; (eexists; split; [done|]); cbn.
  - rewrite (bo_root _ _ Hok _ _ Hb Hp). lia.
  - pose proof (bo_fork _ _ Hok _ _ Hb Hp). lia.
Qed.

(** The next record of a stream shows on its own branch only. *)
Lemma new_record_shows n m b path (tr : ThreadRecord F) :
  branches_ok n m -> lineage m b path -> 0 < n -> tr_Sequence tr = (Z.of_nat n + 1)%Z ->
  window_shows (lineage_windows 0 path) tr = bool_decide (tr_BranchID tr = b).
Proof.
  intros Hok Hl Hn Hseq. unfold window_shows. rewrite Hseq. case_bool_decide as Hb.
  - destruct (lineage_head n m b path 0 Hok Hl Hn) as (w & Hw & Hu & Ha). rewrite Hb, Hw, Hu.
    rewrite (proj2 (Z.leb_gt _ _)) by lia. done.
  - destruct (lineage_windows 0 path !! tr_BranchID tr) as [w|] eqn:Hw; [|done].
    assert (Hu : (0 < win_until w <= Z.of_nat n)%Z).
    { destruct Hl as [b br Hne Hbr Hp|b br path Hne Hbr Hp Hl]; cbn in Hw;
        destruct (bo_key _ _ Hok _ _ Hbr) as [Hk _]; rewrite Hk, lookup_insert_ne in Hw by done.
      - by rewrite lookup_empty in Hw.
      - eapply ancestor_closed; [done..| |exact Hw]. pose proof (bo_fork _ _ Hok _ _ Hbr Hp). lia. }
    destruct (_ <=? _)%Z; [done|]. by rewrite (proj2 (Z.ltb_lt _ _)), (proj2 (Z.ltb_lt _ _)) by lia.
Qed.

(** A branch forked now shows exactly the records its parent shows. *)
Lemma fork_shows n m b path br (tr : ThreadRecord F) :
  branches_ok n m -> lineage m b path -> 0 < n -> (0 < tr_Sequence tr <= Z.of_nat n)%Z ->
  br_ForkSequence br = Z.of_nat n -> tr_BranchID tr <> br_ID br ->
  window_shows (lineage_windows 0 (br :: path)) tr = window_shows (lineage_windows 0 path) tr.
Proof.
  intros Hok Hl Hn Hseq Hfork Hne. unfold window_shows. cbn [lineage_windows].
  rewrite lookup_insert_ne, Hfork by done.
  destruct Hl as [b br' Hneb Hb Hp|b br' path Hneb Hb Hp Hl]; cbn;
    (destruct (decide (br_ID br' = tr_BranchID tr)) as [->|Hd];
      [rewrite !lookup_insert_eq; cbn|by rewrite !lookup_insert_ne by done]);
    destruct (_ <=? _)%Z; (done || by rewrite (proj2 (Z.ltb_lt 0 _)), (proj2 (Z.ltb_ge _ _)) by lia).
Qed.

(** ** The projection of a history *)

(** A well-formed snapshot: its events are the records of the stream, numbered from one, each on a
    branch of the snapshot. *)
Record snapshot_ok (id : string) recs s : Prop := {
  so_id : sn_ID s = id;
  so_events : sn_Events s = imap (fun i r => toThreadRecord id (Z.of_nat i + 1) r) recs;
  so_branches : branches_ok (length recs) (sn_Branches s);
  so_known : Forall (fun tr => is_Some (sn_Branches s !! tr_BranchID tr)) (sn_Events s);
  so_branch : is_Some (sn_Branches s !! sn_BranchID s) /\ sn_BranchID s <> emp
}.

Lemma events_snoc id recs r :
  imap (fun i r => toThreadRecord id (Z.of_nat i + 1) r) (recs ++ [r]) =
    imap (fun i r => toThreadRecord id (Z.of_nat i + 1) r) recs ++ [toThreadRecord id (Z.of_nat (length recs) + 1) r].
Proof. rewrite imap_app. cbn. by rewrite Nat.add_0_r. Qed.

Lemma projectSnapshot_events id recs :
  sn_Events (projectSnapshot id recs) = imap (fun i r => toThreadRecord id (Z.of_nat i + 1) r) recs.
Proof.
  induction recs as [|r recs IH] using rev_ind; [done|].
  by rewrite projectSnapshot_snoc, project_record_events, IH, events_snoc.
Qed.

Lemma events_sequence id recs s tr :
  snapshot_ok id recs s -> tr ∈ sn_Events s -> (0 < tr_Sequence tr <= Z.of_nat (length recs))%Z.
Proof.
  intros Hok. rewrite (so_events _ _ _ Hok), elem_of_lookup_imap. intros (i & r & -> & Hr).
  apply lookup_lt_Some in Hr. cbn. lia.
Qed.

Lemma project_record_id id i s r : sn_ID (project_record id i s r) = sn_ID s.
Proof.
  unfold project_record. cbv zeta. destruct (_ || _); destruct (rec_Payload r); try reflexivity;
    cbn; by destruct (time_IsZero _).
Qed.
Lemma project_record_branch id i s r :
  sn_BranchID (project_record id i s r) =
    match rec_Payload r with
    | ThreadCreated _ branch _ _ _ => normalizeBranch (if decide (branch = emp) then record_branch r else branch)
    | _ => sn_BranchID s
    end.
Proof.
  unfold project_record. cbv zeta. destruct (_ || _); destruct (rec_Payload r); try reflexivity;
    cbn; by destruct (time_IsZero _).
Qed.

Lemma singleton_branches_ok n b at_ :
  b <> emp ->
  branches_ok n (<[b := mkBranch b emp 0 at_]> {[ MainBranch := mkBranch MainBranch emp 0 0 ]}).
Proof.
  intros Hb. set (m := <[b := _]> _).
  assert (Hm : forall c br, m !! c = Some br -> br_ID br = c /\ c <> emp /\ br_Parent br = emp /\ br_ForkSequence br = 0%Z).
  { intros c br [[<- <-]|[_ [<- <-]%lookup_singleton_Some]]%lookup_insert_Some; done. }
  split.
  - intros c br H. by destruct (Hm c br H) as (? & ? & _).
  - intros c br H Hp. by destruct (Hm c br H) as (_ & _ & ? & _).
  - intros c br H _. by destruct (Hm c br H) as (_ & _ & _ & ?).
  - apply lookup_insert_is_Some'. right. rewrite lookup_singleton_eq. by eexists.
  - intros c [br H]. exists [br]. destruct (Hm c br H) as (_ & Hc & Hp & _). split; [by apply lineage_root|].
    cbn. assert (size m <> 0); [|lia]. intros E. apply map_size_empty_inv in E. rewrite E in H. by rewrite lookup_empty in H.
Qed.

Lemma initial_ok id : snapshot_ok id [] (initial_snapshot id).
Proof.
  split; [done|done| |by constructor|].
  - pose proof (singleton_branches_ok 0 MainBranch 0 ltac:(done)) as H. by rewrite insert_singleton_eq in H.
  - split; [by eexists|done].
Qed.

Lemma snapshot_ok_plain id recs r :
  snapshot_ok id recs (projectSnapshot id recs) -> plain_payload (rec_Payload r) = true ->
  is_Some (sn_Branches (projectSnapshot id recs) !! record_branch r) ->
  snapshot_ok id (recs ++ [r]) (projectSnapshot id (recs ++ [r])).
Proof.
  rewrite projectSnapshot_snoc. set (s := projectSnapshot id recs). intros [H1 H2 H3 H4 [H5 H6]] Hp Hb.
  assert (Hbr : sn_Branches (project_record id (length recs) s r) = sn_Branches s).
  { rewrite project_record_branches. by destruct (rec_Payload r). }
  split.
  - by rewrite project_record_id.
  - by rewrite project_record_events, H2, events_snoc.
  - rewrite Hbr, length_app. eapply branches_ok_le; [|done]. lia.
  - rewrite Hbr, project_record_events. apply Forall_app. split; [done|]. by apply Forall_singleton.
  - rewrite Hbr, project_record_branch. by destruct (rec_Payload r).
Qed.

Lemma snapshot_ok_fork id recs r from to at_ src :
  snapshot_ok id recs (projectSnapshot id recs) -> recs <> [] ->
  rec_Payload r = BranchCreated id from to (Z.of_nat (length recs)) at_ src -> record_branch r = to ->
  is_Some (sn_Branches (projectSnapshot id recs) !! from) ->
  sn_Branches (projectSnapshot id recs) !! to = None -> from <> emp -> to <> emp ->
  snapshot_ok id (recs ++ [r]) (projectSnapshot id (recs ++ [r])).
Proof.
  rewrite projectSnapshot_snoc. set (s := projectSnapshot id recs).
  intros [H1 H2 H3 H4 [H5 H6]] Hne Hp Hr Hfrom Hto Hf Ht.
  assert (Hbr : sn_Branches (project_record id (length recs) s r) =
    <[to := mkBranch to from (Z.of_nat (length recs)) at_]> (sn_Branches s)).
  { rewrite project_record_branches, Hp. by rewrite !normalizeBranch_nonempty. }
  assert (0 < length recs) by (destruct recs; cbn; [done|lia]).
  split.
  - by rewrite project_record_id.
  - by rewrite project_record_events, H2, events_snoc.
  - rewrite Hbr, length_app, Nat.add_1_r. by apply branches_ok_fork.
  - rewrite Hbr, project_record_events. apply Forall_app. split.
    + eapply Forall_impl; [done|]. intros tr Htr. apply lookup_insert_is_Some'. by right.
    + apply Forall_singleton. apply lookup_insert_is_Some'. by left.
  - rewrite Hbr, project_record_branch, Hp. split; [|done]. apply lookup_insert_is_Some'. by right.
Qed.

Lemma snapshot_ok_created id r branch metadata at_ src :
  branch <> emp -> rec_Payload r = ThreadCreated id branch metadata at_ src -> record_branch r = branch ->
  snapshot_ok id [r] (projectSnapshot id [r]) /\
  sn_Branches (projectSnapshot id [r]) =
    <[branch := mkBranch branch emp 0 at_]> {[ MainBranch := mkBranch MainBranch emp 0 0 ]}.
Proof.
  intros Hb Hp Hr. assert (Hbr : sn_Branches (projectSnapshot id [r]) =
    <[branch := mkBranch branch emp 0 at_]> {[ MainBranch := mkBranch MainBranch emp 0 0 ]}).
  { unfold projectSnapshot. cbn. rewrite project_record_branches, Hp, decide_False by done.
    cbv zeta. by rewrite normalizeBranch_nonempty. }
  split; [|done]. split.
  - unfold projectSnapshot. cbn. by rewrite project_record_id.
  - unfold projectSnapshot. cbn. by rewrite project_record_events.
  - rewrite Hbr. by apply singleton_branches_ok.
  - rewrite Hbr. unfold projectSnapshot. cbn [project_from]. rewrite project_record_events. apply Forall_singleton.
    cbn. apply lookup_insert_is_Some'. by left.
  - rewrite Hbr. unfold projectSnapshot. cbn [project_from].
    rewrite project_record_branch, Hp, decide_False by done. rewrite normalizeBranch_nonempty by done.
    split; [|done]. apply lookup_insert_is_Some'. by left.
Qed.

Lemma history_snapshot_ok id recs : history id recs -> snapshot_ok id recs (projectSnapshot id recs).
Proof.
  induction 1.
  - apply initial_ok.
  - by eapply snapshot_ok_created.
  - by apply snapshot_ok_plain.
  - by eapply snapshot_ok_fork.
Qed.

(** Records that leave the branches alone, in a row. *)
Lemma plain_branches id recs r :
  plain_payload (rec_Payload r) = true ->
  sn_Branches (projectSnapshot id (recs ++ [r])) = sn_Branches (projectSnapshot id recs).
Proof. intros Hp. rewrite projectSnapshot_snoc, project_record_branches. by destruct (rec_Payload r). Qed.

Lemma history_plain_list id recs rs branch :
  history id recs -> recs <> [] -> is_Some (sn_Branches (projectSnapshot id recs) !! branch) ->
  Forall (fun r => plain_payload (rec_Payload r) = true /\ record_branch r = branch) rs ->
  history id (recs ++ rs).
Proof.
  intros Hh Hne Hb Hrs. revert recs Hh Hne Hb. induction Hrs as [|r rs [Hp Hr] _ IH]; intros recs Hh Hne Hb.
  - by rewrite app_nil_r.
  - rewrite cons_middle, app_assoc. apply IH.
    + apply history_plain; try done. by rewrite Hr.
    + by destruct recs.
    + by rewrite plain_branches.
Qed.

(** ** The windows show the copies *)

Lemma lineage_functional m b path1 path2 : lineage m b path1 -> lineage m b path2 -> path1 = path2.
Proof.
  intros H. revert path2. induction H; intros path2 H'; inversion H'; subst; try congruence.
  f_equal; [congruence|]. apply IHlineage. by simplify_eq.
Qed.

Definition shown s path : list (ThreadRecord F) :=
  List.filter (window_shows (lineage_windows 0 path)) (sn_Events s).

(** The copies of a stream are the windows of its snapshot. *)
Definition views_agree (id : string) recs : Prop :=
  (forall b path, lineage (sn_Branches (projectSnapshot id recs)) b path ->
    branch_views id recs !! b = Some (shown (projectSnapshot id recs) path)) /\
  (forall b, is_Some (branch_views id recs !! b) -> is_Some (sn_Branches (projectSnapshot id recs) !! b)).

Lemma filter_same {A} (f g : A -> bool) (l : list A) :
  (forall x, x ∈ l -> f x = g x) -> List.filter f l = List.filter g l.
Proof.
  induction l as [|x l IH]; intros H; [done|]. cbn. rewrite H by by left. rewrite IH; [done|].
  intros y Hy. apply H. by right.
Qed.

Lemma lineage_some m b path : lineage m b path -> is_Some (m !! b).
Proof. destruct 1; by eexists. Qed.

Lemma views_agree_plain id recs r :
  snapshot_ok id recs (projectSnapshot id recs) -> views_agree id recs -> recs <> [] ->
  plain_payload (rec_Payload r) = true ->
  is_Some (sn_Branches (projectSnapshot id recs) !! record_branch r) -> views_agree id (recs ++ [r]).
Proof.
  intros Hok [Hv Hk] Hne Hp Hb. unfold views_agree. rewrite branch_views_snoc, projectSnapshot_snoc.
  set (s := projectSnapshot id recs) in *. set (tr := toThreadRecord id (Z.of_nat (length recs) + 1) r).
  assert (Hbr : sn_Branches (project_record id (length recs) s r) = sn_Branches s).
  { rewrite project_record_branches. by destruct (rec_Payload r). }
  assert (Hview : view_record id (length recs) (branch_views id recs) r =
    <[record_branch r := default [] (branch_views id recs !! record_branch r) ++ [tr]]> (branch_views id recs)).
  { unfold view_record. by destruct (rec_Payload r). }
  rewrite Hbr, Hview. split.
  - intros b path Hl. unfold shown. rewrite project_record_events, List.filter_app. cbn [List.filter].
    assert (Hn : 0 < length recs) by (destruct recs; cbn; [done|lia]).
    fold tr. rewrite (new_record_shows (length recs) _ b path tr (so_branches _ _ _ Hok) Hl Hn eq_refl).
    fold (shown s path). case_bool_decide as Hd; cbn in Hd; fold (record_branch r) in Hd.
    + subst b. by rewrite lookup_insert_eq, (Hv _ _ Hl).
    + by rewrite lookup_insert_ne, app_nil_r by done; apply Hv.
  - intros b [<-|[_ H]]%lookup_insert_is_Some; [done|by apply Hk].
Qed.

Lemma views_agree_fork id recs r from to at_ src :
  snapshot_ok id recs (projectSnapshot id recs) -> views_agree id recs -> recs <> [] ->
  rec_Payload r = BranchCreated id from to (Z.of_nat (length recs)) at_ src -> record_branch r = to ->
  is_Some (sn_Branches (projectSnapshot id recs) !! from) ->
  sn_Branches (projectSnapshot id recs) !! to = None -> from <> emp -> to <> emp ->
  views_agree id (recs ++ [r]).
Proof.
  intros Hok [Hv Hk] Hne Hp Hr Hfrom Hto Hf Ht. unfold views_agree. rewrite branch_views_snoc, projectSnapshot_snoc.
  set (s := projectSnapshot id recs) in *. set (tr := toThreadRecord id (Z.of_nat (length recs) + 1) r).
  assert (Hn : 0 < length recs) by (destruct recs; cbn; [done|lia]).
  set (br := mkBranch to from (Z.of_nat (length recs)) at_).
  assert (Hbr : sn_Branches (project_record id (length recs) s r) = <[to := br]> (sn_Branches s)).
  { rewrite project_record_branches, Hp. by rewrite !normalizeBranch_nonempty. }
  assert (Hview : view_record id (length recs) (branch_views id recs) r =
    <[to := default [] (branch_views id recs !! from) ++ [tr]]> (branch_views id recs)).
  { unfold view_record. by rewrite Hp. }
  assert (Htr : tr_BranchID tr = to) by (subst tr; cbn; fold (record_branch r); done).
  rewrite Hbr, Hview. unfold shown. rewrite project_record_events. fold tr. split.
  - intros b path Hl. rewrite List.filter_app. cbn [List.filter]. destruct (decide (b = to)) as [->|Hne'].
    + destruct (bo_lineage _ _ (so_branches _ _ _ Hok) from Hfrom) as (pathf & Hlf & _).
      assert (path = br :: pathf) as ->.
      { eapply lineage_functional; [exact Hl|]. apply lineage_child; [done|apply lookup_insert_eq|done|].
        by apply lineage_insert. }
      rewrite lookup_insert_eq, (Hv _ _ Hlf). cbn [default]. f_equal. f_equal.
      * unfold shown. apply filter_same. intros x Hx. symmetry.
        eapply (fork_shows (length recs)); try done; [apply Hok|by eapply events_sequence|].
        intros E. pose proof (so_known _ _ _ Hok) as Hknown. rewrite Forall_forall in Hknown.
        specialize (Hknown x Hx). fold s in Hknown. rewrite E in Hknown. cbn in Hknown. rewrite Hto in Hknown. by destruct Hknown.
      * unfold window_shows. cbn [lineage_windows]. rewrite Htr, lookup_insert_eq. cbn [win_after win_until br_ForkSequence br tr tr_Sequence toThreadRecord].
        rewrite (proj2 (Z.leb_gt _ _)) by lia. done.
    + assert (Hold : is_Some (sn_Branches s !! b)).
      { apply lineage_some in Hl. by rewrite lookup_insert_ne in Hl. }
      destruct (bo_lineage _ _ (so_branches _ _ _ Hok) b Hold) as (pathb & Hlb & _).
      assert (path = pathb) as ->.
      { eapply lineage_functional; [exact Hl|]. by apply lineage_insert. }
      rewrite lookup_insert_ne by done. rewrite (Hv _ _ Hlb). f_equal. unfold window_shows at 2. rewrite Htr.
      destruct (lineage_windows 0 pathb !! to) as [w|] eqn:Hw; [|by rewrite app_nil_r].
      eapply lineage_known in Hw; [|apply Hok|exact Hlb]. rewrite Hto in Hw. by destruct Hw.
  - intros b [<-|[_ H]]%lookup_insert_is_Some; apply lookup_insert_is_Some'; [by left|right; by apply Hk].
Qed.

Lemma views_agree_created id r branch metadata at_ src :
  branch <> emp -> rec_Payload r = ThreadCreated id branch metadata at_ src -> record_branch r = branch ->
  views_agree id [r].
Proof.
  intros Hb Hp Hr. destruct (snapshot_ok_created id r branch metadata at_ src Hb Hp Hr) as [Hok Hbr].
  unfold views_agree, shown, branch_views. rewrite (so_events _ _ _ Hok), Hbr. cbn [views_from imap].
  unfold view_record. rewrite Hp, Hr. set (tr := toThreadRecord id _ r).
  assert (Htr : tr_BranchID tr = branch) by done.
  split.
  - intros b path Hl.
    assert (exists br, path = [br] /\ br_ID br = b /\ br_ForkSequence br = 0%Z) as (br & -> & Hid & Hf).
    { inversion Hl as [? br' ? Hm Hpar|? br' ? ? Hm Hpar]; subst; apply lookup_insert_Some in Hm as [[<- <-]|[_ [<- <-]%lookup_singleton_Some]];
        try done; by eexists. }
    unfold window_shows. cbn [List.filter lineage_windows]. rewrite Htr, Hid, Hf. destruct (decide (b = branch)) as [->|Hne].
    + rewrite !lookup_insert_eq. transitivity (Some ([] ++ [tr])); [do 2 f_equal|reflexivity].
      destruct (decide (branch = MainBranch)) as [->|Hm];
        [by rewrite lookup_singleton_eq|by rewrite lookup_singleton_ne by done].
    + rewrite !lookup_insert_ne, lookup_empty by done. apply lineage_some in Hl.
      rewrite lookup_insert_ne in Hl by done. destruct Hl as [x [<- _]%lookup_singleton_Some].
      by rewrite lookup_singleton_eq.
  - intros b [<-|[_ H]]%lookup_insert_is_Some; apply lookup_insert_is_Some'; [by left|right].
    destruct H as [x [<- _]%lookup_singleton_Some]. rewrite lookup_singleton_eq. by eexists.
Qed.

Lemma history_views_agree id recs : history id recs -> views_agree id recs.
Proof.
  induction 1 as [|r branch metadata at_ src|recs r Hh IH|recs r from to at_ src Hh IH].
  - assert (E : sn_Branches (projectSnapshot (F := F) id []) = {[ MainBranch := mkBranch MainBranch emp 0 0 ]}) by done.
    unfold views_agree, branch_views. cbn [views_from]. rewrite E. split.
    + intros b path [x [<- _]%lookup_singleton_Some]%lineage_some.
      by rewrite lookup_singleton_eq.
    + intros b [x [<- _]%lookup_singleton_Some]. rewrite lookup_singleton_eq. by eexists.
  - by eapply views_agree_created.
  - apply views_agree_plain; try done. by apply history_snapshot_ok.
  - eapply views_agree_fork; try done. by apply history_snapshot_ok.
Qed.

(** ** The properties *)

(** The branch a read without a branch is about. *)
Definition read_branch s (branchID : string) : string :=
  if decide (branchID = emp) then sn_BranchID s else branchID.

Lemma branch_views_same id recs fuel branchID :
  history id recs -> branch_fuel (projectSnapshot id recs) <= fuel ->
  EventsForBranch fuel (projectSnapshot id recs) branchID =
    let b := read_branch (projectSnapshot id recs) branchID in
    Some match branch_views id recs !! b with
         | Some records => Ok records
         | None => Err (ErrBranchNotFound b)
         end.
Proof.
  intros Hh Hfuel. pose proof (history_snapshot_ok _ _ Hh) as Hok. destruct (history_views_agree _ _ Hh) as [Hv Hk].
  set (s := projectSnapshot id recs) in *. unfold EventsForBranch. cbv zeta. fold (read_branch s branchID).
  set (b := read_branch s branchID). assert (Hb : b <> emp).
  { subst b. unfold read_branch. case_decide; [apply (so_branch _ _ _ Hok)|done]. }
  rewrite decide_False by done. unfold branchWindows. rewrite decide_False.
  2: { intros E. destruct (bo_main _ _ (so_branches _ _ _ Hok)) as [x Hx]. by rewrite E in Hx. }
  destruct (sn_Branches s !! b) as [br|] eqn:Hbr.
  - destruct (bo_lineage _ _ (so_branches _ _ _ Hok) b ltac:(by eexists)) as (path & Hl & Hlen).
    rewrite (ancestry_lineage _ _ _ _ [] Hl) by (unfold branch_fuel in Hfuel; lia).
    cbn [app]. by rewrite path_windows_rev, (Hv _ _ Hl).
  - destruct (branch_views id recs !! b) as [l|] eqn:El; [destruct (Hk b) as [? ?]; [by eexists|congruence]|].
    destruct fuel; [unfold branch_fuel in Hfuel; lia|]. cbn. by rewrite decide_False, Hbr by done.
Qed.

(** C14: For every stream that creating, forking, archiving and appending make as long as clients append no
    creation and branch events of their own ([history]; [Append] does not check that, and a stream on which
    [EventsForBranch] does not end is [self_parent_diverges]), [EventsForBranch] ends, and answers for each branch
    the list that would be kept for it if a fork copied the list of its parent and an append went to
    the list of its own branch: branches are isolated from each other after a fork. An unknown branch
    is reported as such. *)
Theorem branch_views_exact id recs fuel branchID :
  history id recs -> branch_fuel (projectSnapshot id recs) <= fuel ->
  EventsForBranch fuel (projectSnapshot id recs) branchID =
    let b := read_branch (projectSnapshot id recs) branchID in
    Some match branch_views id recs !! b with
         | Some records => Ok records
         | None => Err (ErrBranchNotFound b)
         end.
Proof. apply branch_views_same. Qed.

(** C33: The projection of every stream that creating, forking, archiving and appending make as long as clients
    append no creation and branch events of their own ([history]) is well formed: the events are exactly
    the records of the stream, numbered from one; every event is on a branch of the snapshot; every
    branch is rooted, keyed by its own name, and forked at a position of the stream after its parent
    was created. *)
Theorem snapshot_well_formed id recs : history id recs -> snapshot_ok id recs (projectSnapshot id recs).
Proof. apply history_snapshot_ok. Qed.

Lemma ancestry_self fuel m b br acc :
  b <> emp -> m !! b = Some br -> br_Parent br = b -> ancestry fuel m b acc = None.
Proof.
  intros Hb Hm Hp. revert acc. induction fuel as [|fuel IH]; intros acc; cbn; [done|].
  rewrite decide_False, Hm, Hp by done. apply IH.
Qed.

(** A branch record that names its own branch as its parent, which [Append] accepts like any other
    record, makes every later read of that branch loop for ever: no number of turns ends it. *)
Theorem self_parent_diverges id recs r branch fork at_ src fuel :
  branch <> emp -> rec_Payload r = BranchCreated id branch branch fork at_ src ->
  EventsForBranch fuel (projectSnapshot id (recs ++ [r])) branch = None.
Proof.
  intros Hb Hp. rewrite projectSnapshot_snoc. set (s := projectSnapshot id recs).
  assert (Hbr : sn_Branches (project_record id (length recs) s r) !! branch =
    Some (mkBranch branch branch fork at_)).
  { rewrite project_record_branches, Hp, !normalizeBranch_nonempty by done. apply lookup_insert_eq. }
  unfold EventsForBranch. cbv zeta. rewrite !(decide_False (P := branch = emp)) by done.
  unfold branchWindows. rewrite decide_False by (intros E; by rewrite E in Hbr).
  by rewrite (ancestry_self _ _ _ _ [] Hb Hbr).
Qed.
End Views.

(** ** Witnesses: a thread with a fork *)

Module ViewsDemo.
Abbreviation Rec := (EventRecord (ThreadEvent unit)).
Definition no_source : Source := mkSource emp emp emp.
Definition on_branch (branch : string) (p : ThreadEvent unit) : Rec :=
  mkRecord "r" (ThreadEventName p) 5 (mkScope "t" emp emp) p {[ attrBranchID := branch ]}.
Definition created : Rec := on_branch "main" (ThreadCreated "t" "main" ∅ 5 no_source).
Definition said (branch text : string) : Rec := on_branch branch (OtherEvent text tt).
Definition forked : Rec := on_branch "side" (BranchCreated "t" "main" "side" 2 7 no_source).
Definition stream : list Rec :=
  [created] ++ [said "main" "hello"] ++ [forked] ++ [said "main" "later"] ++ [said "side" "aside"].
Lemma stream_history : history "t" stream.
Proof.
  unfold stream. rewrite !app_assoc.
  apply history_plain; [apply history_plain; [apply (history_fork "t" _ forked "main" "side" 7 no_source);
    [apply history_plain; [apply (history_created "t" created "main" ∅ 5 no_source)|..]|..]|..]|..];
    try reflexivity; try discriminate; vm_compute; eauto.
Qed.
Definition knot : Rec := on_branch "main" (BranchCreated "t" "main" "main" 2 7 no_source).
End ViewsDemo.

Lemma branch_views_exact_witness :
  match EventsForBranch 5 (projectSnapshot "t" ViewsDemo.stream) "side" with
  | Some (Ok records) => map tr_Sequence records = [1; 2; 3; 5]%Z
  | _ => False
  end.
Proof.
  rewrite (branch_views_exact "t" ViewsDemo.stream 5 "side").
  - vm_compute. reflexivity.
  - apply ViewsDemo.stream_history.
  - vm_compute. lia.
Defined.

Lemma snapshot_well_formed_witness :
  snapshot_ok "t" ViewsDemo.stream (projectSnapshot "t" ViewsDemo.stream) /\
  size (sn_Branches (projectSnapshot "t" ViewsDemo.stream)) = 2.
Proof. split; [apply snapshot_well_formed, ViewsDemo.stream_history|reflexivity]. Defined.

Lemma self_parent_diverges_witness :
  forall fuel, EventsForBranch fuel (projectSnapshot "t" (ViewsDemo.stream ++ [ViewsDemo.knot])) "main" = None.
Proof.
  intros fuel. apply (self_parent_diverges "t" ViewsDemo.stream ViewsDemo.knot "main" 2 7 ViewsDemo.no_source).
  - discriminate.
  - reflexivity.
Defined.
