(* ===== verification/ThreadIndex.v ===== *)
(** * The listing read model of threads (src/runtime/thread/index.go and list.go)

    [ThreadIndex] projects the records of the index stream into one entry per thread. Its mutex makes
    [Project] and [List] atomic, so they are functions on its state. *)

From S2P Require Import Prelude Event Thread.

Record IndexEntry := mkIndexEntry {
  ie_ID : string;
  ie_BranchID : string;
  ie_Metadata : gmap string string;
  ie_Archived : bool;
  ie_CreatedAt : Time;
  ie_UpdatedAt : Time
}.
#[global] Instance rebuild_IndexEntry : Rebuild IndexEntry := fun e =>
  mkIndexEntry e.(ie_ID) e.(ie_BranchID) e.(ie_Metadata) e.(ie_Archived) e.(ie_CreatedAt) e.(ie_UpdatedAt).
Definition zero_IndexEntry : IndexEntry := mkIndexEntry emp emp ∅ false 0 0.
#[global] Instance IndexEntry_inhabited : Inhabited IndexEntry := populate zero_IndexEntry.

Record ThreadIndex := mkThreadIndex { ix_entries : gmap string IndexEntry; ix_order : list string }.
Definition NewThreadIndex : ThreadIndex := mkThreadIndex ∅ [].

Record ListParams := mkListParams { lp_IncludeArchived : bool; lp_Limit : Z }.

Section Index.
Context {F : Type}.
Abbreviation Rec := (EventRecord (ThreadEvent F)).
Abbreviation SRec := (StoredRecord (ThreadEvent F)).

Definition applyIndexThreadCreated (entry : IndexEntry) (id branch : string) (metadata : gmap string string)
    (createdAt : Time) : IndexEntry :=
  entry <| ie_ID := id |>
        <| ie_BranchID := normalizeBranch branch |>
        <| ie_Metadata := cloneAttributes metadata |>
        <| ie_CreatedAt := createdAt |>
        <| ie_UpdatedAt := createdAt |>.
Definition mergeIndexMetadata (entry : IndexEntry) (metadata : gmap string string) : IndexEntry :=
  entry <| ie_Metadata := metadata ∪ ie_Metadata entry |>.

(** The type switch of [Project]. *)
Definition apply_index_payload (entry : IndexEntry) (payload : ThreadEvent F) : IndexEntry :=
  match payload with
  | ThreadCreated id branch metadata createdAt _ => applyIndexThreadCreated entry id branch metadata createdAt
  | MetadataUpdated _ metadata updatedAt _ =>
      let entry := mergeIndexMetadata entry metadata in
      if time_IsZero updatedAt then entry else entry <| ie_UpdatedAt := updatedAt |>
  | ThreadArchived _ at_ _ =>
      let entry := entry <| ie_Archived := true |> in
      if time_IsZero at_ then entry else entry <| ie_UpdatedAt := at_ |>
  | ThreadUnarchived _ at_ _ =>
      let entry := entry <| ie_Archived := false |> in
      if time_IsZero at_ then entry else entry <| ie_UpdatedAt := at_ |>
  | BranchCreated _ _ _ _ _ _ | BranchHeadMoved _ _ _ _ _ | OtherEvent _ _ => entry
  end.

(** One turn of the loop of [Project]. *)
Definition index_record (i : ThreadIndex) (record : Rec) : ThreadIndex :=
  let id := scope_ThreadID (rec_Scope record) in
  if decide (id = emp) then i else
  let '(entry, order) :=
    match ix_entries i !! id with
    | Some entry => (entry, ix_order i)
    | None => (zero_IndexEntry <| ie_ID := id |>, ix_order i ++ [id])
    end in
  let entry := apply_index_payload entry (rec_Payload record) in
  let entry :=
    if time_IsZero (ie_UpdatedAt entry) || time_After (rec_Time record) (ie_UpdatedAt entry)
    then entry <| ie_UpdatedAt := rec_Time record |> else entry in
  mkThreadIndex (<[id := entry]> (ix_entries i)) order.

Definition index_project (ctx : Ctx) (i : ThreadIndex) (records : list SRec) : Result string ThreadIndex :=
  match ctx with
  | Some m => Err m
  | None => Ok (fold_left (fun i stored => index_record i (st_Record stored)) records i)
  end.

(** The loop of [List]; a positive [Limit] breaks it. *)
Fixpoint index_list_loop (i : ThreadIndex) (params : ListParams) (order : list string) (out : list IndexEntry)
    : list IndexEntry :=
  match order with
  | [] => out
  | id :: rest =>
      let entry := ix_entries i !!! id in
      if ie_Archived entry && negb (lp_IncludeArchived params) then index_list_loop i params rest out else
      let out := out ++ [entry <| ie_Metadata := cloneAttributes (ie_Metadata entry) |>] in
      if (0 <? lp_Limit params)%Z && (lp_Limit params <=? Z.of_nat (length out))%Z then out
      else index_list_loop i params rest out
  end.
Definition index_list (i : ThreadIndex) (params : ListParams) : list IndexEntry :=
  index_list_loop i params (ix_order i) [].

(** [listFromReadIndex]: entries as snapshots without branches and events. *)
Definition entry_snapshot (entry : IndexEntry) : Snapshot F :=
  zero_Snapshot <| sn_ID := ie_ID entry |>
    <| sn_BranchID := ie_BranchID entry |>
    <| sn_Metadata := cloneAttributes (ie_Metadata entry) |>
    <| sn_Archived := ie_Archived entry |>
    <| sn_CreatedAt := ie_CreatedAt entry |>
    <| sn_UpdatedAt := ie_UpdatedAt entry |>.
Definition listFromReadIndex (i : ThreadIndex) (params : ListParams) : list (Snapshot F) :=
  map entry_snapshot (index_list i params).
End Index.
