(* ===== verification/ThreadStore.v ===== *)
(** * The thread store (src/runtime/thread/store.go)

    [Create], [Append], [Fork], [Archive], [Unarchive], [Read] and [List] as programs over the shared
    event store. A thread is a stream of its own; creations, archivals and unarchivals are written in
    one batch to the stream of the thread and to the index stream. Writers expect the sequence they
    have read, and retry a bounded number of times when another writer was first. *)

From S2P Require Import Prelude Event Prog Thread ThreadIndex.

Definition defaultIndexStream : string := "thread.index".
Definition threadWriteRetries : nat := 16.

(** Effects: [newID(prefix)], [time.Now().UTC()] and [sleepThreadWriteRetry(ctx, attempt)] with the
    error of a context that ends during the sleep. *)
Inductive ThreadEff : Type -> Type :=
| NewID (prefix : string) : ThreadEff string
| NowUTC : ThreadEff Time
| SleepRetry (attempt : nat) : ThreadEff (option string).
(** An identifier begins with its prefix, whether drawn from the random source or the clock. *)
Definition thread_responds (X : Type) (o : ThreadEff X) : X -> Prop :=
  match o in ThreadEff X return X -> Prop with
  | NewID prefix => fun id => String.prefix prefix id = true
  | NowUTC => fun _ => True
  | SleepRetry _ => fun _ => True
  end.

(** [threadWriteRetryBase << attempt], at most 50 ms, in nanoseconds. *)
Definition retry_delay (attempt : nat) : Z :=
  let delay := Z.shiftl 1000000 (Z.of_nat attempt) in
  if (50000000 <? delay)%Z then 50000000%Z else delay.

(** [fmt.Sprintf("%#v", payload)]. *)
Class GoSyntax (P : Type) := { go_syntax : P -> string }.

(** ** Errors *)

(** [wrapWriteError] of an error that is not nil. *)
Definition wrapWriteError (op id : string) (attempt : nat) (err : ThreadError) : ThreadError :=
  match err with
  | WriteError op0 id0 attempt0 attempts0 inner =>
      WriteError (if decide (op = emp) then op0 else op) (if decide (id = emp) then id0 else id)
        (if decide (0 < attempt) then attempt else attempt0)
        (if decide (0 < attempt) then threadWriteRetries else attempts0) inner
  | _ => WriteError op id attempt threadWriteRetries err
  end.
(** [errors.Is(err, event.ErrAppendConflict)]. *)
Fixpoint thread_conflict (err : ThreadError) : bool :=
  match err with
  | ErrEvents e => is_append_conflict e
  | WriteError _ _ _ _ inner => thread_conflict inner
  | _ => false
  end.
Fixpoint isAppendConflictOn (err : ThreadError) (stream : string) : bool :=
  match err with
  | ErrEvents (ErrAppendConflict st _ _) => bool_decide (st = stream)
  | WriteError _ _ _ _ inner => isAppendConflictOn inner stream
  | _ => false
  end.

Definition threadRecordID (id operationID streamRole eventName ordinal : string) : string :=
  Join [id; operationID; streamRole; eventName; ordinal] ":".

Definition threadStream (id : string) : string := ("thread:" ++ id)%string.

Record CreateParams := mkCreateParams {
  cp_ID : string; cp_BranchID : string; cp_Metadata : gmap string string; cp_Source : Source; cp_Now : Time }.
Record ForkParams := mkForkParams {
  fp_ID : string; fp_FromBranchID : string; fp_ToBranchID : string; fp_Source : Source; fp_Now : Time }.

Section Store.
Context {F : Type} {GS : GoSyntax (ThreadEvent F)} (index : string).
Abbreviation P := (ThreadEvent F).
Abbreviation Rec := (EventRecord P).
Abbreviation SRec := (StoredRecord P).
Abbreviation Snap := (Snapshot F).
Abbreviation Act := (Prog P ThreadEff).

(** ** Loading *)

Record observedThread := mkObserved { ot_lastSequence : Z; ot_records : list Rec }.
(** The loop of [loadThread]. *)
Definition observe_thread (stored : list SRec) : observedThread :=
  fold_left (fun o r =>
    mkObserved (if (ot_lastSequence o <? st_Sequence r)%Z then st_Sequence r else ot_lastSequence o)
      (ot_records o ++ [st_Record r])) stored (mkObserved 0 []).
Definition loadThread (id : string) : Act (Result ThreadError observedThread) :=
  let! r := load false (threadStream id) zero_LoadOptions in
  Ret match r with Err e => Err (ErrEvents e) | Ok stored => Ok (observe_thread stored) end.

Record observedIndex := mkObservedIndex { oi_lastSequence : Z; oi_seen : gset string; oi_order : list string }.
Definition index_exists (i : observedIndex) (id : string) : bool := bool_decide (id ∈ oi_seen i).
(** One turn of the loop of [loadIndex]. *)
Definition observe_entry (o : observedIndex) (r : SRec) : observedIndex :=
  let last := if (oi_lastSequence o <? st_Sequence r)%Z then st_Sequence r else oi_lastSequence o in
  let id := scope_ThreadID (rec_Scope (st_Record r)) in
  if decide (id = emp) then mkObservedIndex last (oi_seen o) (oi_order o)
  else if decide (id ∈ oi_seen o) then mkObservedIndex last (oi_seen o) (oi_order o)
  else mkObservedIndex last ({[id]} ∪ oi_seen o) (oi_order o ++ [id]).
Definition observe_index (stored : list SRec) : observedIndex :=
  fold_left observe_entry stored (mkObservedIndex 0 ∅ []).
Definition loadIndex : Act (Result ThreadError observedIndex) :=
  let! r := load false index zero_LoadOptions in
  Ret match r with Err e => Err (ErrEvents e) | Ok stored => Ok (observe_index stored) end.

(** ** Read *)

Definition Read (id : string) : Act (Result ThreadError Snap) :=
  if decide (id = emp) then Ret (Err ErrThreadIDEmpty) else
  let! r := loadThread id in
  Ret match r with
      | Err e => Err e
      | Ok observed =>
          match ot_records observed with
          | [] => Err ErrNotFound
          | _ => Ok (projectSnapshot id (ot_records observed))
          end
      end.

(** ** Create *)

Definition created_record (id key : string) (now : Time) (payload : P) (attributes : gmap string string) : Rec :=
  mkRecord key (ThreadEventName payload) now (mkScope id emp emp) payload attributes.

Definition createOnce (params : CreateParams) (operationID : string) : Act (Result ThreadError Snap) :=
  let id := cp_ID params in
  let! i := loadIndex in
  match i with
  | Err e => Ret (Err e)
  | Ok observed =>
      if index_exists observed id then Ret (Err ErrAlreadyExists) else
      let branchID := normalizeBranch (cp_BranchID params) in
      let! now := (if time_IsZero (cp_Now params) then effect NowUTC else Ret (cp_Now params)) in
      let payload := ThreadCreated id branchID (cloneAttributes (cp_Metadata params)) now (cp_Source params) in
      let threadKey := threadRecordID id operationID "thread" (ThreadEventName payload) "0" in
      let indexKey := threadRecordID id operationID "index" (ThreadEventName payload) "0" in
      let! r := append_batch false
        [mkRequest (threadStream id) (ExpectSequence 0)
           [created_record id threadKey now payload
              (<[attrBranchID := branchID]> {[ attrIdempotencyKey := threadKey ]})];
         mkRequest index (ExpectSequence (oi_lastSequence observed))
           [created_record id indexKey now payload {[ attrIdempotencyKey := indexKey ]}]] in
      match r with
      | Err e =>
          if is_duplicate_record e then Read id
          else Ret (Err (wrapWriteError "create" id 1 (ErrEvents e)))
      | Ok _ => Read id
      end
  end.

Definition nil_or {A} (lastConflict : option ThreadError) (zero : A) : Result ThreadError A :=
  match lastConflict with Some e => Err e | None => Ok zero end.

(** The retry loop of [Create]: [left] attempts are left, [attempt] were made. *)
Fixpoint create_loop (left attempt : nat) (params : CreateParams) (operationID : string)
    (lastConflict : option ThreadError) : Act (Result ThreadError Snap) :=
  match left with
  | O => Ret (nil_or lastConflict zero_Snapshot)
  | S left' =>
      let id := cp_ID params in
      let! r := createOnce params operationID in
      match r with
      | Ok snapshot => Ret (Ok snapshot)
      | Err err =>
          if negb (thread_conflict err) then Ret (Err (wrapWriteError "create" id (S attempt) err)) else
          let lastConflict := Some (wrapWriteError "create" id (S attempt) err) in
          if negb (isAppendConflictOn err index) then
            let! o := loadThread id in
            match o with
            | Err e => Ret (Err (wrapWriteError "create load after conflict" id (S attempt) e))
            | Ok observed =>
                match ot_records observed with
                | [] => Ret (Err err)
                | _ => Ret (Err ErrAlreadyExists)
                end
            end
          else
            let! slept := effect (SleepRetry attempt) in
            match slept with
            | Some m => Ret (Err (wrapWriteError "create retry sleep" id (S attempt) (ErrWait m)))
            | None => create_loop left' (S attempt) params operationID lastConflict
            end
      end
  end.

Definition with_ID (params : CreateParams) (id : string) : CreateParams :=
  mkCreateParams id (cp_BranchID params) (cp_Metadata params) (cp_Source params) (cp_Now params).
Definition ThreadCreate (params : CreateParams) : Act (Result ThreadError Snap) :=
  let! id := (if decide (cp_ID params = emp) then effect (NewID "thread_") else Ret (cp_ID params)) in
  let params := with_ID params id in
  let! operationID := effect (NewID "thread_create_") in
  create_loop threadWriteRetries 0 params operationID None.

(** ** Append *)

(** The records with their identifiers and times, fixed before the first attempt. *)
Definition stable_record (id operationID : string) (now : Time) (i : nat) (record : AppendRecord F) : AppendRecord F :=
  let e := ar_Event record in
  let e := if decide (rec_ID e = emp)
           then e <| rec_ID := threadRecordID id operationID "thread" (rec_Name e) (pretty i) |> else e in
  let e := if time_IsZero (rec_Time e) then e <| rec_Time := now |> else e in
  mkAppendRecord (ar_NodeID record) (ar_ParentNodeID record) e.

(** The event record of one append: the position goes into the attributes. *)
Definition positioned (id branchID : string) (record : AppendRecord F) : Rec :=
  let e := ar_Event record in
  let e := e <| rec_Scope := mkScope id (scope_TurnID (rec_Scope e)) (scope_OperationID (rec_Scope e)) |> in
  let attributes := <[attrBranchID := branchID]> (cloneAttributes (rec_Attributes e)) in
  let attributes :=
    if decide (ar_NodeID record = emp) then attributes else <[attrNodeID := ar_NodeID record]> attributes in
  let attributes :=
    if decide (ar_ParentNodeID record = emp) then attributes
    else <[attrParentNodeID := ar_ParentNodeID record]> attributes in
  e <| rec_Attributes := attributes |>.

Definition sameStringMap (a b : gmap string string) : bool :=
  bool_decide (size a = size b) &&
  forallb (fun kv => bool_decide (attribute b kv.1 = kv.2)) (map_to_list a).

Definition sameLogicalRecord (existing retry : Rec) : bool :=
  if negb (bool_decide (rec_ID existing = rec_ID retry)) || negb (bool_decide (rec_Name existing = rec_Name retry))
     || negb (rec_Time existing =? rec_Time retry)%Z then false
  else if negb (bool_decide (rec_Scope existing = rec_Scope retry)) then false
  else if negb (sameStringMap (rec_Attributes existing) (rec_Attributes retry)) then false
  else bool_decide (go_syntax (rec_Payload existing) = go_syntax (rec_Payload retry)).

(** [byID]: the last record with an identifier wins. *)
Definition records_by_id (id : string) (records : list Rec) : gmap string (ThreadRecord F) :=
  fold_left (fun byID r =>
      if decide (rec_ID (tr_Event r) = emp) then byID else <[rec_ID (tr_Event r) := r]> byID)
    (imap (fun i r => toThreadRecord id (Z.of_nat i + 1) r) records) ∅.

Fixpoint match_existing (id : string) (byID : gmap string (ThreadRecord F)) (records : list Rec)
    : Result ThreadError (list (ThreadRecord F)) :=
  match records with
  | [] => Ok []
  | record :: rest =>
      match byID !! rec_ID record with
      | None => Err (ErrEvents (ErrDuplicateRecord (threadStream id) (rec_ID record)))
      | Some existing =>
          if negb (sameLogicalRecord (tr_Event existing) record)
          then Err (ErrEvents (ErrDuplicateRecord (threadStream id) (rec_ID record)))
          else let? out := match_existing id byID rest in Ok (existing :: out)
      end
  end.

Definition recoverDuplicateAppend (id : string) (records : list Rec) : Act (Result ThreadError (list (ThreadRecord F))) :=
  let! o := loadThread id in
  Ret match o with
      | Err e => Err e
      | Ok observed => match_existing id (records_by_id id (ot_records observed)) records
      end.

(** The records as they are stored, in thread coordinates from [next] on. *)
Definition stored_positions (id : string) (next : Z) (stored : list SRec) : list (ThreadRecord F) :=
  imap (fun i r => toThreadRecord id (next + Z.of_nat i) (st_Record r)) stored.

Fixpoint append_loop (left attempt : nat) (ref : Ref) (stable : list (AppendRecord F))
    (lastConflict : option ThreadError) : Act (Result ThreadError (list (ThreadRecord F))) :=
  match left with
  | O => Ret (nil_or lastConflict [])
  | S left' =>
      let id := ref_ID ref in
      let! o := loadThread id in
      match o with
      | Err e => Ret (Err (wrapWriteError "append" id (S attempt) e))
      | Ok observed =>
          match ot_records observed with
          | [] => Ret (Err ErrNotFound)
          | _ =>
              let snapshot := projectSnapshot id (ot_records observed) in
              let branchID := normalizeBranch (ref_BranchID ref) in
              match sn_Branches snapshot !! branchID with
              | None => Ret (Err (ErrBranchNotFound branchID))
              | Some _ =>
                  let eventRecords := map (positioned id branchID) stable in
                  let! r := append false (threadStream id) (ExpectSequence (ot_lastSequence observed)) eventRecords in
                  match r with
                  | Err err =>
                      if is_duplicate_record err then recoverDuplicateAppend id eventRecords
                      else if is_append_conflict err then
                        let lastConflict := Some (wrapWriteError "append" id (S attempt) (ErrEvents err)) in
                        let! slept := effect (SleepRetry attempt) in
                        match slept with
                        | Some m => Ret (Err (wrapWriteError "append retry sleep" id (S attempt) (ErrWait m)))
                        | None => append_loop left' (S attempt) ref stable lastConflict
                        end
                      else Ret (Err (wrapWriteError "append" id (S attempt) (ErrEvents err)))
                  | Ok stored =>
                      Ret (Ok (stored_positions id (Z.of_nat (length (sn_Events snapshot) + 1)) stored))
                  end
              end
          end
      end
  end.

Definition ThreadAppend (ref : Ref) (records : list (AppendRecord F)) : Act (Result ThreadError (list (ThreadRecord F))) :=
  if decide (ref_ID ref = emp) then Ret (Err ErrThreadIDEmpty) else
  match records with
  | [] => Ret (Ok [])
  | _ =>
      let! operationID := effect (NewID "thread_append_") in
      let! appendNow := effect NowUTC in
      append_loop threadWriteRetries 0 ref (imap (stable_record (ref_ID ref) operationID appendNow) records) None
  end.

(** ** Fork *)

Fixpoint fork_loop (left attempt : nat) (params : ForkParams) (to : string) (lastConflict : option ThreadError)
    : Act (Result ThreadError Snap) :=
  match left with
  | O => Ret (nil_or lastConflict zero_Snapshot)
  | S left' =>
      let id := fp_ID params in
      let! o := loadThread id in
      match o with
      | Err e => Ret (Err (wrapWriteError "fork" id (S attempt) e))
      | Ok observed =>
          match ot_records observed with
          | [] => Ret (Err ErrNotFound)
          | _ =>
              let snapshot := projectSnapshot id (ot_records observed) in
              let from := normalizeBranch (fp_FromBranchID params) in
              match sn_Branches snapshot !! from, sn_Branches snapshot !! to with
              | None, _ => Ret (Err (ErrBranchNotFound from))
              | Some _, Some _ => Ret (Err (ErrBranchExists to))
              | Some _, None =>
                  let! now := (if time_IsZero (fp_Now params) then effect NowUTC else Ret (fp_Now params)) in
                  let payload := BranchCreated id from to (Z.of_nat (length (sn_Events snapshot))) now (fp_Source params) in
                  let! r := append false (threadStream id) (ExpectSequence (ot_lastSequence observed))
                    [created_record id emp now payload {[ attrBranchID := to ]}] in
                  match r with
                  | Err err =>
                      if is_append_conflict err then
                        let lastConflict := Some (wrapWriteError "fork" id (S attempt) (ErrEvents err)) in
                        let! slept := effect (SleepRetry attempt) in
                        match slept with
                        | Some m => Ret (Err (wrapWriteError "fork retry sleep" id (S attempt) (ErrWait m)))
                        | None => fork_loop left' (S attempt) params to lastConflict
                        end
                      else Ret (Err (wrapWriteError "fork" id (S attempt) (ErrEvents err)))
                  | Ok _ => Read id
                  end
              end
          end
      end
  end.

Definition ThreadFork (params : ForkParams) : Act (Result ThreadError Snap) :=
  if decide (fp_ID params = emp) then Ret (Err ErrThreadIDEmpty) else
  let! to := (if decide (fp_ToBranchID params = emp) then effect (NewID "branch_") else Ret (fp_ToBranchID params)) in
  fork_loop threadWriteRetries 0 params to None.

(** ** Archive and Unarchive *)

Definition zero_Source : Source := mkSource emp emp emp.
Definition archive_payload (id : string) (archived : bool) (now : Time) : P :=
  if archived then ThreadArchived id now zero_Source else ThreadUnarchived id now zero_Source.

Definition setArchivedOnce (id : string) (archived : bool) : Act (Result ThreadError unit) :=
  let! o := loadThread id in
  match o with
  | Err e => Ret (Err e)
  | Ok observed =>
      match ot_records observed with
      | [] => Ret (Err ErrNotFound)
      | _ =>
          let snapshot := projectSnapshot id (ot_records observed) in
          if Bool.eqb (sn_Archived snapshot) archived then Ret (Ok tt) else
          let! i := loadIndex in
          match i with
          | Err e => Ret (Err e)
          | Ok observedIdx =>
              let! now := effect NowUTC in
              let payload := archive_payload id archived now in
              let! r := append_batch false
                [mkRequest (threadStream id) (ExpectSequence (ot_lastSequence observed))
                   [created_record id emp now payload {[ attrBranchID := MainBranch ]}];
                 mkRequest index (ExpectSequence (oi_lastSequence observedIdx))
                   [created_record id emp now payload ∅]] in
              Ret match r with Err e => Err (ErrEvents e) | Ok _ => Ok tt end
          end
      end
  end.

Fixpoint archive_loop (left attempt : nat) (id : string) (archived : bool) (lastConflict : option ThreadError)
    : Act (Result ThreadError unit) :=
  match left with
  | O => Ret (nil_or lastConflict tt)
  | S left' =>
      let! r := setArchivedOnce id archived in
      match r with
      | Ok _ => Ret (Ok tt)
      | Err err =>
          if negb (thread_conflict err) then Ret (Err err) else
          let! slept := effect (SleepRetry attempt) in
          match slept with
          | Some m => Ret (Err (ErrWait m))
          | None => archive_loop left' (S attempt) id archived (Some err)
          end
      end
  end.
Definition ThreadArchive (id : string) : Act (Result ThreadError unit) :=
  archive_loop threadWriteRetries 0 id true None.
Definition ThreadUnarchive (id : string) : Act (Result ThreadError unit) :=
  archive_loop threadWriteRetries 0 id false None.

(** ** List *)

Fixpoint replay_loop (params : ListParams) (order : list string) (page : list Snap) : Act (Result ThreadError (list Snap)) :=
  match order with
  | [] => Ret (Ok page)
  | id :: rest =>
      let! o := loadThread id in
      match o with
      | Err e => Ret (Err e)
      | Ok observed =>
          match ot_records observed with
          | [] => replay_loop params rest page
          | _ =>
              let snapshot := projectSnapshot id (ot_records observed) in
              if sn_Archived snapshot && negb (lp_IncludeArchived params) then replay_loop params rest page else
              let page := page ++ [snapshot] in
              if (0 <? lp_Limit params)%Z && (lp_Limit params <=? Z.of_nat (length page))%Z then Ret (Ok page)
              else replay_loop params rest page
          end
      end
  end.
Definition listByReplay (params : ListParams) : Act (Result ThreadError (list Snap)) :=
  let! i := loadIndex in
  match i with
  | Err e => Ret (Err e)
  | Ok observed => replay_loop params (oi_order observed) []
  end.
(** A store with a read model lists from it. *)
Definition ThreadList (readIndex : option ThreadIndex) (params : ListParams) : Act (Result ThreadError (list Snap)) :=
  match readIndex with
  | Some i => Ret (Ok (listFromReadIndex i params))
  | None => listByReplay params
  end.
End Store.
Arguments observedThread : clear implicits.
