(* ===== verification/ThreadSystem.v ===== *)
(** * Threads under concurrent writers

    Any number of clients call the thread store at the same time. What each call writes is a step of
    [history] on the stream of the thread, and what it writes to the index stream are exactly the
    creations, archivals and unarchivals of the thread streams, in their order ([threads_ok]). *)

From S2P Require Import Prelude Event MemStore Prog Thread ThreadViews ThreadIndex ThreadStore.

Section System.
Context {F : Type} {GS : GoSyntax (ThreadEvent F)} (index : string).
Context {S : Type} {ES : EventStore S (ThreadEvent F)} {Laws : EventStoreLaws S (ThreadEvent F)}.
Abbreviation P := (ThreadEvent F).
Abbreviation Rec := (EventRecord P).
Abbreviation SRec := (StoredRecord P).
Abbreviation Act := (Prog P ThreadEff).
Abbreviation W := (World P S).

Definition recs_of (stored : list SRec) : list Rec := st_Record <$> stored.
Lemma recs_of_app l1 l2 : recs_of (l1 ++ l2) = recs_of l1 ++ recs_of l2.
Proof. apply fmap_app. Qed.

(** ** What the streams hold *)

Definition is_lifecycle (p : P) : Prop :=
  match p with ThreadCreated _ _ _ _ _ | ThreadArchived _ _ _ | ThreadUnarchived _ _ _ => True | _ => False end.
#[global] Instance is_lifecycle_dec p : Decision (is_lifecycle p).
Proof. destruct p; apply _. Defined.
Definition lifecycle_of (recs : list Rec) : list P := filter is_lifecycle (rec_Payload <$> recs).
Definition about (id : string) (r : Rec) : Prop := scope_ThreadID (rec_Scope r) = id.
#[global] Instance about_dec id r : Decision (about id r).
Proof. unfold about. apply _. Defined.

Record threads_ok (v : string -> list SRec) : Prop := {
  to_history id : history id (recs_of (v (threadStream id)));
  to_unnamed : v (threadStream emp) = [];
  to_scopes : Forall (fun r => ~ about emp r) (recs_of (v index));
  to_index id : rec_Payload <$> filter (about id) (recs_of (v index)) = lifecycle_of (recs_of (v (threadStream id)))
}.

(** What an append on its own and a batch may add. *)
Definition extends (id : string) (before out : list SRec) : Prop :=
  history id (recs_of before) -> history id (recs_of (before ++ out)).
Definition thread_guard (e : Entry P) : Prop :=
  match en_batch e with
  | [r] =>
      exists id, id <> emp /\ res_Stream r = threadStream id /\ extends id (en_before e) (res_Records r) /\
        lifecycle_of (recs_of (res_Records r)) = []
  | [r1; r2] =>
      exists id x1 x2, id <> emp /\ res_Stream r1 = threadStream id /\ res_Stream r2 = index /\
        res_Records r1 = [x1] /\ res_Records r2 = [x2] /\
        is_lifecycle (rec_Payload (st_Record x1)) /\ rec_Payload (st_Record x2) = rec_Payload (st_Record x1) /\
        about id (st_Record x2) /\
        (en_stream e = threadStream id -> extends id (en_before e) [x1])
  | _ => False
  end.

Lemma threadStream_inj id1 id2 : threadStream id1 = threadStream id2 -> id1 = id2.
Proof. unfold threadStream. intros H. by simplify_eq/=. Qed.
Lemma threadStream_nonempty id : threadStream id <> emp.
Proof. done. Qed.

Hypothesis index_free : forall id, index <> threadStream id.
Hypothesis index_named : index <> emp.

Lemma lifecycle_of_app l1 l2 : lifecycle_of (l1 ++ l2) = lifecycle_of l1 ++ lifecycle_of l2.
Proof. unfold lifecycle_of. by rewrite fmap_app, filter_app. Qed.

(** One batch keeps the streams consistent. *)
Lemma threads_ok_batch v g :
  threads_ok v -> whole g -> Forall thread_guard g -> Forall (fun e => en_before e = v (en_stream e)) g ->
  threads_ok (fun st => v st ++ outs (entries_for st g)).
Proof using index_free.
  intros [Hh Hu Hs Hi] [Hnd Hbatch] HG Hb. destruct g as [|e1 g].
  { split; intros; cbn; rewrite ?app_nil_r; auto. }
  apply Forall_cons in Hbatch as [Hb1 _]. apply Forall_cons in HG as [HG1 _]. apply Forall_cons in Hb as [Hbe1 _].
  unfold thread_guard in HG1. rewrite Hb1 in HG1.
  destruct g as [|e2 [|e3 g]]; cbn [fmap list_fmap part_result res_Stream res_Records] in HG1; [| |done].
  - destruct HG1 as (id & Hne & Hst & Hext & Hlife). rewrite Hbe1, Hst in Hext. unfold entries_for. split.
    + intros id'. rewrite filter_cons, filter_nil, Hst. case_decide as Hd.
      * apply threadStream_inj in Hd as <-. rewrite outs_single. by apply Hext.
      * by rewrite app_nil_r.
    + rewrite filter_cons, filter_nil, Hst, decide_False; [by rewrite app_nil_r|].
      by intros ->%threadStream_inj.
    + rewrite filter_cons, filter_nil, Hst, decide_False by done. by rewrite app_nil_r.
    + intros id'. rewrite !filter_cons, !filter_nil, Hst, (decide_False (P := threadStream id = index)) by done.
      rewrite app_nil_r, Hi. case_decide; [|by rewrite app_nil_r].
      by rewrite outs_single, recs_of_app, lifecycle_of_app, Hlife, app_nil_r.
  - destruct HG1 as (id & x1 & x2 & Hne & Hst1 & Hst2 & Ho1 & Ho2 & Hlife & Hp & Ha & Hext).
    specialize (Hext Hst1). rewrite Hbe1, Hst1 in Hext. unfold entries_for.
    assert (Hidx : forall X (a b : X), (if decide (threadStream id = index) then a else b) = b)
      by (intros; by rewrite decide_False).
    assert (Hthr : forall id' X (a b : X), (if decide (index = threadStream id') then a else b) = b)
      by (intros; by rewrite decide_False).
    split.
    + intros id'. rewrite !filter_cons, filter_nil, Hst1, Hst2, Hthr.
      destruct (decide (threadStream id = threadStream id')) as [Hd|Hd].
      * apply threadStream_inj in Hd as <-. rewrite outs_single, Ho1. by apply Hext.
      * by rewrite app_nil_r.
    + rewrite !filter_cons, filter_nil, Hst1, Hst2, Hthr, decide_False; [by rewrite app_nil_r|].
      by intros ->%threadStream_inj.
    + rewrite !filter_cons, filter_nil, Hst1, Hst2, Hidx, decide_True, outs_single, Ho2, recs_of_app by done.
      apply Forall_app. split; [done|]. apply Forall_singleton. unfold about in *. by rewrite Ha.
    + intros id'. rewrite !(filter_cons (fun e => en_stream e = _)), !filter_nil, Hst1, Hst2, Hidx, Hthr,
        (decide_True (P := index = index)), outs_single, Ho2, recs_of_app, filter_app, fmap_app, Hi by done.
      cbn [recs_of fmap list_fmap]. rewrite filter_cons, filter_nil.
      destruct (decide (about id' (st_Record x2))) as [Hd|Hd], (decide (threadStream id = threadStream id')) as [Hd'|Hd'].
      * rewrite outs_single, Ho1, recs_of_app, lifecycle_of_app. f_equal. unfold lifecycle_of.
        cbn [recs_of fmap list_fmap]. by rewrite filter_cons, filter_nil, decide_True, <- Hp.
      * destruct Hd'. f_equal. unfold about in *. congruence.
      * destruct Hd. apply threadStream_inj in Hd'. unfold about in *. congruence.
      * by rewrite !app_nil_r.
Qed.

Lemma threads_ok_ext v v' : (forall st, v st = v' st) -> threads_ok v -> threads_ok v'.
Proof.
  intros E [H1 H2 H3 H4]. split.
  - intros id. rewrite <- E. apply H1.
  - by rewrite <- E.
  - by rewrite <- E.
  - intros id. rewrite <- !E. apply H4.
Qed.
Lemma threads_ok_world v0 (w : W) :
  threads_ok v0 -> world_ok v0 w -> Forall thread_guard (w_log w) -> threads_ok (view (w_store w)).
Proof using index_free.
  intros H0 Hw HG. apply (world_ind v0 thread_guard w threads_ok Hw HG threads_ok_ext H0).
  intros. by apply threads_ok_batch.
Qed.

(** ** Loads *)

Lemma observe_thread_spec (l : list SRec) :
  (forall k r, l !! k = Some r -> st_Sequence r = (Z.of_nat k + 1)%Z) ->
  observe_thread l = mkObserved (Z.of_nat (length l)) (recs_of l).
Proof.
  induction l as [|r l IH] using rev_ind; intros Hn; [done|].
  unfold observe_thread in *. rewrite fold_left_app, IH.
  - cbn. rewrite (Hn (length l) r) by apply lookup_take_snoc. rewrite recs_of_app, length_app. cbn.
    rewrite (proj2 (Z.ltb_lt _ _)) by lia. f_equal. lia.
  - intros k r' Hk. apply Hn. by apply lookup_app_l_Some.
Qed.

Section Calls.
Context (v0 : string -> list SRec) (i : nat).
Abbreviation wpi := (wp thread_responds v0 thread_guard i).
Abbreviation laterg := (later v0 thread_guard i).
Abbreviation stream w id := (view (w_store w) (threadStream id)).
Implicit Types (w : W).

Lemma wp_loadThread id w (Q : Result ThreadError (observedThread F) -> W -> Prop) :
  world_ok v0 w ->
  (forall w1, laterg w w1 -> Q (Ok (mkObserved (Z.of_nat (length (stream w1 id))) (recs_of (stream w1 id)))) w1) ->
  (forall m w1, laterg w w1 -> Q (Err (ErrEvents (ErrCtx m))) w1) ->
  wpi (loadThread id) Q w.
Proof.
  intros Hw Hok Herr [m|] w1 Hl _; cbn.
  - rewrite load_cancelled. by apply Herr.
  - rewrite load_all by done. rewrite observe_thread_spec; [by apply Hok|].
    intros k r Hr. eapply view_numbered; [|done]. apply Hl.
Qed.

Lemma wp_loadIndex w (Q : Result ThreadError observedIndex -> W -> Prop) :
  (forall o w1, laterg w w1 -> Q o w1) -> wpi (loadIndex index) Q w.
Proof. intros HQ c w1 Hl _. cbn. by apply HQ. Qed.

Lemma wp_Read id w (Q : Result ThreadError (Snapshot F) -> W -> Prop) :
  world_ok v0 w -> (forall r w1, laterg w w1 -> Q r w1) -> wpi (Read id) Q w.
Proof.
  intros Hw HQ. unfold Read. case_decide; [by apply HQ, later_refl|]. apply wp_bind, wp_loadThread; [done|..];
    intros; by apply HQ.
Qed.

(** A stream that has not grown has not changed. *)
Lemma same_stream w w1 st :
  world_ok v0 w -> laterg w w1 -> length (view (w_store w1) st) = length (view (w_store w) st) ->
  view (w_store w1) st = view (w_store w) st.
Proof.
  intros Hw Hl Hlen. destruct (grows_view v0 w w1 st Hw (later_grows _ _ _ _ _ Hl)) as (rest & E).
  rewrite E, length_app in Hlen. destruct rest; [by rewrite app_nil_r in E|cbn in Hlen; lia].
Qed.

(** An expectation that, when met, determines the stream. *)
Definition expects (w : W) (id : string) (n : Z) (before : list SRec) : Prop :=
  forall w2, laterg w w2 -> n = Z.of_nat (length (stream w2 id)) -> stream w2 id = before.
Lemma expects_loaded w w1 id :
  world_ok v0 w -> laterg w w1 -> expects w1 id (Z.of_nat (length (stream w id))) (stream w id).
Proof. intros Hw Hl w2 Hl2 Hlen. apply same_stream; [done|by eapply later_trans|lia]. Qed.
Lemma expects_empty w id : expects w id 0 [].
Proof. intros w2 _ Hlen. apply nil_length_inv. lia. Qed.

(** What a single append to a thread stream owes, given that it met the sequence it expected. *)
Lemma wp_append_thread id n before w recs (Q : Result StoreError (list SRec) -> W -> Prop) :
  expects w id n before -> id <> emp ->
  (forall out, Forall2 stored_as recs out -> extends id before out /\ lifecycle_of (recs_of out) = []) ->
  (forall out w2 w3, laterg w w2 -> stream w2 id = before -> Forall2 stored_as recs out ->
     world_ok v0 w3 -> w_log w3 = w_log w2 ++ [mkEntry i (threadStream id) before out] ->
     stream w3 id = before ++ out -> Q (Ok out) w3) ->
  (forall e w2, laterg w w2 -> Q (Err e) w2) ->
  wpi (append false (threadStream id) (ExpectSequence n) recs) Q w.
Proof.
  intros Hexpects Hne Hext Hok Herr env w2 Hl2 _. cbn.
  destruct (Append _ _ _ _ _) as [s' [out|e]] eqn:E.
  - apply append_ok in E as (_ & Hst & _ & Hexp & Hrec); [|apply Hl2]. cbn in Hexp.
    pose proof (Hexpects w2 Hl2 (Hexp eq_refl)) as Hsame. rewrite Hsame in *.
    destruct (Hext out Hrec) as [He Hlife]. intros Hw3. split.
    + unfold thread_guard. cbn. by exists id.
    + apply (Hok out w2); try done.
  - intros ->. destruct w2. by apply Herr.
Qed.

(** The same for a batch of a lifecycle event to the thread and to the index. *)
Lemma wp_batch_lifecycle id n before w rec1 rec2 opts (Q : Result StoreError (list (AppendResult P)) -> W -> Prop) :
  expects w id n before -> id <> emp ->
  is_lifecycle (rec_Payload rec1) -> rec_Payload rec2 = rec_Payload rec1 -> about id rec2 ->
  (forall x1, stored_as rec1 x1 -> extends id before [x1]) ->
  (forall x1 w2 w3 e1 e2, laterg w w2 -> stream w2 id = before -> stored_as rec1 x1 ->
     world_ok v0 w3 -> w_log w3 = w_log w2 ++ [e1; e2] ->
     en_owner e1 = i -> en_owner e2 = i -> en_stream e1 = threadStream id -> en_stream e2 = index ->
     en_before e1 = before -> en_out e1 = [x1] -> stream w3 id = before ++ [x1] ->
     forall rs, Q (Ok rs) w3) ->
  (forall e w2, laterg w w2 -> Q (Err e) w2) ->
  wpi (append_batch false
         [mkRequest (threadStream id) (ExpectSequence n) [rec1]; mkRequest index opts [rec2]]) Q w.
Proof using index_free.
  intros Hexpects Hne Hlife Hp Ha Hext Hok Herr env w2 Hl2 _.
  destruct (AppendBatch _ _ _) as [s' [rs|e]] eqn:E.
  - apply batch_ok in E as (_ & Hst & _ & Hacc); [|apply Hl2].
    apply Forall2_cons_inv_l in Hacc as (r1 & rs1 & (Hs1 & Hexp & Hr1) & Hacc & ->).
    apply Forall2_cons_inv_l in Hacc as (r2 & rs2 & (Hs2 & _ & Hr2) & ->%Forall2_nil_inv_l & ->).
    apply Forall2_cons_inv_l in Hr1 as (x1 & ? & Hx1 & ->%Forall2_nil_inv_l & Hr1).
    apply Forall2_cons_inv_l in Hr2 as (x2 & ? & Hx2 & ->%Forall2_nil_inv_l & Hr2).
    cbn [req_Stream req_Options CheckExpectedSequence ExpectSequence ExpectedSequence] in Hs1, Hs2, Hexp.
    pose proof (Hexpects w2 Hl2 (Hexp eq_refl)) as Hsame.
    intros es Hw3. subst es. split.
    + apply Forall_forall. intros e He. unfold thread_guard, batch_entries in *. cbn in He.
      assert (He' : en_batch e = [r1; r2] /\ (en_stream e = threadStream id -> en_before e = before)).
      { apply elem_of_cons in He as [->|He]; cbn; [by rewrite Hs1, Hsame|].
        apply list_elem_of_singleton in He as ->. cbn. rewrite Hs2. split; [done|]. intros Hi. by destruct (index_free id). }
      destruct He' as [-> Hb]. exists id, x1, x2. rewrite Hr1, Hr2.
      pose proof (proj1 Hx1) as Hx1p. destruct Hx2 as (Hx2p & Hx2s & _). rewrite Hx1p, Hx2p. unfold about. rewrite Hx2s.
      repeat (split; [done|]). intros Hst'. rewrite (Hb Hst'). apply Hext. done.
    + eapply (Hok x1 w2 _ (mkPart i (res_Stream r1) (view (w_store w2) (res_Stream r1)) (res_Records r1) [r1; r2])
                (mkPart i (res_Stream r2) (view (w_store w2) (res_Stream r2)) (res_Records r2) [r1; r2]));
        cbn; try done; try (by rewrite Hs1).
      rewrite Hst, Hsame. unfold records_for. cbn. rewrite Hs1, Hs2, decide_True, decide_False, Hr1 by done. done.
  - intros ->. destruct w2. by apply Herr.
Qed.

(** ** Each call *)

(** Whatever happens, the log only grows. *)
Definition obeys {A} (p : Act A) : Prop :=
  forall w (Q : A -> W -> Prop), world_ok v0 w -> (forall a w1, grows v0 w w1 -> Q a w1) -> wpi p Q w.

Lemma thread_obeys_ret {A} (a : A) : obeys (Ret a).
Proof. intros w Q Hw HQ. by apply HQ, grows_refl. Qed.
Lemma thread_obeys_bind {A B} (p : Act A) (k : A -> Act B) : obeys p -> (forall a, obeys (k a)) -> obeys (bind p k).
Proof.
  intros Hp Hk w Q Hw HQ. apply wp_bind, Hp; [done|]. intros a w1 Hg. apply Hk; [apply Hg|].
  intros b w2 Hg2. apply HQ. by eapply grows_trans.
Qed.
Lemma thread_obeys_effect {X} (o : ThreadEff X) : obeys (effect o).
Proof. intros w Q Hw HQ x w1 Hl _. apply HQ. by eapply later_grows. Qed.
Lemma obeys_loadThread id : obeys (loadThread id).
Proof. intros w Q Hw HQ. apply wp_loadThread; [done|..]; intros; by eapply HQ, later_grows. Qed.
Lemma obeys_loadIndex : obeys (loadIndex index).
Proof. intros w Q Hw HQ. apply wp_loadIndex. intros. by eapply HQ, later_grows. Qed.
Lemma obeys_Read id : obeys (Read id).
Proof. intros w Q Hw HQ. apply wp_Read; [done|]. intros. by eapply HQ, later_grows. Qed.

Lemma grows_appended w1 w2 w3 l : laterg w1 w2 -> world_ok v0 w3 -> w_log w3 = w_log w2 ++ l -> grows v0 w1 w3.
Proof. intros Hl Hw E. eapply grows_trans; [by eapply later_grows|]. split; [done|by eexists]. Qed.

Lemma created_extends id key now payload attributes branch metadata at_ src x1 :
  payload = ThreadCreated id branch metadata at_ src -> branch <> emp ->
  attributes !! attrBranchID = Some branch ->
  stored_as (created_record id key now payload attributes) x1 -> extends id [] [x1].
Proof.
  intros -> Hb Hat (Hp & _ & Ha & _) _. cbn in Hp, Ha. eapply history_created; [exact Hb|exact Hp|].
  unfold record_branch, attribute. rewrite Ha, Hat. by apply normalizeBranch_nonempty.
Qed.

Lemma obeys_createOnce params op : cp_ID params <> emp -> obeys (createOnce index params op).
Proof using index_free.
  intros Hid. apply thread_obeys_bind; [apply obeys_loadIndex|]. intros [o|e]; [|apply thread_obeys_ret].
  destruct (index_exists _ _); [apply thread_obeys_ret|]. apply thread_obeys_bind; [case_match; [apply thread_obeys_effect|apply thread_obeys_ret]|].
  intros now. apply thread_obeys_bind.
  - intros w Q Hw HQ. eapply wp_batch_lifecycle; [apply expects_empty|done|done|done|done|..].
    + intros x1. eapply created_extends; [done|apply normalizeBranch_ne|apply lookup_insert_eq].
    + intros. eapply HQ, grows_appended; done.
    + intros. by eapply HQ, later_grows.
  - intros [rs|e]; [apply obeys_Read|]. destruct (is_duplicate_record e); [apply obeys_Read|apply thread_obeys_ret].
Qed.

Lemma obeys_create_loop left attempt params op last :
  cp_ID params <> emp -> obeys (create_loop index left attempt params op last).
Proof using index_free.
  intros Hid. revert attempt last. induction left as [|left IH]; intros attempt last; [apply thread_obeys_ret|]. cbn [create_loop].
  apply thread_obeys_bind; [by apply obeys_createOnce|]. intros [snap|err]; [apply thread_obeys_ret|].
  destruct (negb (thread_conflict err)); [apply thread_obeys_ret|]. cbv zeta. destruct (negb _).
  - apply thread_obeys_bind; [apply obeys_loadThread|]. intros [o|e]; [|apply thread_obeys_ret]. by destruct (ot_records o); apply thread_obeys_ret.
  - apply thread_obeys_bind; [apply thread_obeys_effect|]. intros [m|]; [apply thread_obeys_ret|apply IH].
Qed.

Lemma prefixed_nonempty p s : p <> emp -> String.prefix p s = true -> s <> emp.
Proof. intros Hp H ->. by destruct p. Qed.

(** A fresh identifier is not empty. *)
Lemma wp_new_id prefix (cur : string) w (Q : string -> W -> Prop) :
  prefix <> emp -> world_ok v0 w -> (forall id w1, laterg w w1 -> id <> emp -> Q id w1) ->
  wpi (if decide (cur = emp) then effect (NewID prefix) else Ret cur) Q w.
Proof.
  intros Hp Hw HQ. case_decide as Hd.
  - intros id w1 Hl Hx. apply HQ; [done|]. by eapply prefixed_nonempty.
  - apply HQ; [by apply later_refl|done].
Qed.

Lemma obeys_ThreadCreate params : obeys (ThreadCreate index params).
Proof using index_free.
  intros w Q Hw HQ. apply wp_bind, wp_new_id; [done|done|]. intros id w1 Hl Hid.
  apply (thread_obeys_bind (effect _) (fun op => create_loop _ _ _ _ op _)).
  - apply thread_obeys_effect.
  - intros op. by apply obeys_create_loop.
  - apply Hl.
  - intros r w2 Hg. apply HQ. eapply grows_trans; [by eapply later_grows|done].
Qed.

(** *** Append *)

(** What clients may append: events of their own, metadata updates, head moves. *)
Definition appendable (p : P) : Prop := plain_payload p = true /\ ~ is_lifecycle p.
Definition append_ok_call (records : list (AppendRecord F)) : Prop :=
  Forall (fun r => appendable (rec_Payload (ar_Event r))) records.

(** The records returned are in the thread, at the positions they say, one for each record passed. *)
Definition in_thread w id (tr : ThreadRecord F) : Prop :=
  tr ∈ sn_Events (projectSnapshot id (recs_of (stream w id))).
Definition answers (id : string) (record : AppendRecord F) (tr : ThreadRecord F) : Prop :=
  tr_ThreadID tr = id /\ go_syntax (rec_Payload (tr_Event tr)) = go_syntax (rec_Payload (ar_Event record)).
Definition appended id (records : list (AppendRecord F)) (r : Result ThreadError (list (ThreadRecord F))) w : Prop :=
  forall out, r = Ok out -> Forall2 (answers id) records out /\ Forall (in_thread w id) out.

Lemma in_thread_later w w1 id tr : world_ok v0 w -> laterg w w1 -> in_thread w id tr -> in_thread w1 id tr.
Proof.
  intros Hw Hl. unfold in_thread. rewrite !projectSnapshot_events.
  destruct (grows_view v0 w w1 (threadStream id) Hw (later_grows _ _ _ _ _ Hl)) as (rest & ->).
  rewrite recs_of_app, imap_app. intros H. apply elem_of_app. by left.
Qed.

Lemma positioned_payload id branch (record : AppendRecord F) : rec_Payload (positioned id branch record) = rec_Payload (ar_Event record).
Proof. reflexivity. Qed.
Lemma positioned_branch id branch (record : AppendRecord F) : branch <> emp -> record_branch (positioned id branch record) = branch.
Proof.
  intros Hb. unfold record_branch, positioned, attribute. cbn [rec_Attributes update_field].
  assert (E : forall (m : gmap string string) a b, (if decide (a = emp) then m else <[attrParentNodeID := b]> m) !! attrBranchID = m !! attrBranchID)
    by (intros; case_decide; [done|by apply lookup_insert_ne]).
  assert (E' : forall (m : gmap string string) a b, (if decide (a = emp) then m else <[attrNodeID := b]> m) !! attrBranchID = m !! attrBranchID)
    by (intros; case_decide; [done|by apply lookup_insert_ne]).
  cbn. rewrite E, E', lookup_insert_eq. by apply normalizeBranch_nonempty.
Qed.

Lemma stored_list_plain id branch records out :
  branch <> emp -> append_ok_call records -> Forall2 stored_as (map (positioned id branch) records) out ->
  Forall (fun r => plain_payload (rec_Payload r) = true /\ record_branch r = branch) (recs_of out) /\
  lifecycle_of (recs_of out) = [].
Proof.
  intros Hb Hok. revert out. induction Hok as [|record records [Hp Hl] _ IH]; intros out Hout.
  - apply Forall2_nil_inv_l in Hout as ->. by split; [constructor|].
  - apply Forall2_cons_inv_l in Hout as (x & out' & (Hxp & _ & Hxa & _) & Hout & ->).
    destruct (IH _ Hout) as [H1 H2]. rewrite positioned_payload in Hxp. split.
    + constructor; [|done]. rewrite Hxp. split; [done|]. unfold record_branch. rewrite Hxa.
      by apply (positioned_branch id branch record).
    + unfold lifecycle_of in *. cbn [recs_of fmap list_fmap]. rewrite filter_cons, decide_False; [done|]. by rewrite Hxp.
Qed.

Lemma stored_positions_in id (before out : list SRec) :
  Forall (fun tr => tr ∈ imap (fun i r => toThreadRecord id (Z.of_nat i + 1) r) (recs_of (before ++ out)))
    (stored_positions id (Z.of_nat (length (recs_of before) + 1)) out).
Proof.
  unfold stored_positions. apply Forall_forall. intros tr (k & x & -> & Hk)%elem_of_lookup_imap.
  apply elem_of_lookup_imap. exists (length before + k), (st_Record x). split.
  - f_equal. unfold recs_of. rewrite length_fmap. lia.
  - unfold recs_of. rewrite list_lookup_fmap, lookup_app_r by lia. by rewrite Nat.add_comm, Nat.add_sub, Hk.
Qed.

Lemma stored_positions_answer id branch next records out :
  Forall2 stored_as (map (positioned id branch) records) out ->
  Forall2 (answers id) records (stored_positions id next out).
Proof.
  unfold stored_positions. revert next out. induction records as [|r records IH]; intros next out Hout.
  - apply Forall2_nil_inv_l in Hout as ->. constructor.
  - apply Forall2_cons_inv_l in Hout as (x & out' & (Hxp & _) & Hout & ->). rewrite imap_cons. constructor.
    + split; [done|]. cbn. by rewrite Hxp.
    + specialize (IH (next + 1)%Z _ Hout). erewrite imap_ext; [exact IH|]. intros. cbn. f_equal. lia.
Qed.

Lemma records_by_id_in id (recs : list Rec) key tr :
  records_by_id id recs !! key = Some tr -> tr ∈ imap (fun i r => toThreadRecord id (Z.of_nat i + 1) r) recs.
Proof.
  unfold records_by_id. set (l := imap _ recs). clearbody l.
  assert (H : forall acc : gmap string (ThreadRecord F), fold_left (fun byID r =>
      if decide (rec_ID (tr_Event r) = emp) then byID else <[rec_ID (tr_Event r) := r]> byID) l acc !! key = Some tr ->
      tr ∈ l \/ acc !! key = Some tr).
  { induction l as [|r l IH]; intros acc; cbn; [by right|]. intros [H|H]%IH; [left; by right|].
    case_decide; [by right|]. apply lookup_insert_Some in H as [[_ <-]|[_ H]]; [left; by left|by right]. }
  intros [?|E]%H; [done|]. by rewrite lookup_empty in E.
Qed.

Lemma match_existing_ok id branch (recs : list Rec) (records : list (AppendRecord F)) out :
  match_existing id (records_by_id id recs) (map (positioned id branch) records) = Ok out ->
  Forall2 (answers id) records out /\
  Forall (fun tr => tr ∈ imap (fun i r => toThreadRecord id (Z.of_nat i + 1) r) recs) out.
Proof.
  revert out. induction records as [|r records IH]; intros out; cbn [map match_existing].
  - intros [= <-]. by split; constructor.
  - destruct (records_by_id _ _ !! _) as [tr|] eqn:E; [|done]. destruct (sameLogicalRecord _ _) eqn:Es; [|done].
    cbn [negb]. intros (out' & Hout & [= <-])%res_bind_ok. destruct (IH _ Hout) as [H1 H2].
    apply records_by_id_in in E. split; constructor; try done. split.
    + apply elem_of_lookup_imap in E as (k & x & -> & _). done.
    + unfold sameLogicalRecord in Es. repeat case_match; try done. by apply bool_decide_eq_true in Es.
Qed.

Lemma recs_of_nonempty (l : list SRec) : recs_of l <> [] -> l <> [].
Proof. by intros H ->. Qed.

(** A program whose answer satisfies a stable postcondition. *)
Definition ends {A} (p : Act A) (R : A -> W -> Prop) : Prop :=
  forall w (Q : A -> W -> Prop), world_ok v0 w -> (forall a w1, grows v0 w w1 -> R a w1 -> Q a w1) -> wpi p Q w.

Lemma ends_append_loop left attempt ref records last :
  ref_ID ref <> emp -> append_ok_call records -> (left = 0 -> last <> None) ->
  ends (append_loop left attempt ref records last) (appended (ref_ID ref) records).
Proof.
  intros Hid Hok. revert attempt last. induction left as [|left IH]; intros attempt last Hlast w Q Hw HQ; cbn [append_loop].
  { destruct last; [|by destruct Hlast]. apply HQ; [by apply grows_refl|by intros ?]. }
  set (id := ref_ID ref) in *.
  assert (Hfail : forall e w1, grows v0 w w1 -> Q (Err e) w1) by (intros; apply HQ; [done|by intros ?]).
  apply wp_bind, wp_loadThread; [done| |intros; by eapply Hfail, later_grows].
  intros w1 Hl. cbn [ot_records ot_lastSequence]. pose proof (later_grows _ _ _ _ _ Hl) as Hg.
  destruct (recs_of (stream w1 id)) as [|r0 rs] eqn:Erecs; [by apply Hfail|]. rewrite <- Erecs.
  set (branch := normalizeBranch (ref_BranchID ref)).
  destruct (sn_Branches _ !! branch) as [br|] eqn:Hbr; [|by apply Hfail].
  apply wp_bind. eapply (wp_append_thread id _ (stream w1 id)); [by apply expects_loaded; [apply Hl|apply later_refl, Hl]|done|..].
  - intros out Hout. destruct (stored_list_plain id branch records out) as [Hplain Hlife];
      [apply normalizeBranch_ne|done|done|]. split; [|done]. intros Hh. rewrite recs_of_app.
    eapply history_plain_list; [done|by rewrite Erecs|by eexists|done].
  - intros out w2 w3 Hl2 Hsame Hout Hw3 Hlog Hview. apply HQ.
    { eapply grows_trans; [done|]. by eapply grows_appended. }
    intros out' [= <-]. split; [by eapply stored_positions_answer|].
    rewrite projectSnapshot_events, length_imap. eapply Forall_impl; [apply stored_positions_in|].
    intros tr. unfold in_thread. by rewrite projectSnapshot_events, Hview.
  - intros e w2 Hl2. assert (Hg2 : grows v0 w w2) by (eapply grows_trans; [done|by eapply later_grows]).
    destruct (is_duplicate_record e).
    + unfold recoverDuplicateAppend. apply wp_bind, wp_loadThread; [apply Hl2| |].
      * intros w3 Hl3. apply HQ; [eapply grows_trans; [done|by eapply later_grows]|].
        intros out Hout%match_existing_ok. destruct Hout as [H1 H2]. split; [done|].
        eapply Forall_impl; [exact H2|]. intros tr. unfold in_thread. by rewrite projectSnapshot_events.
      * intros e' w3 Hl3. apply Hfail. eapply grows_trans; [done|by eapply later_grows].
    + destruct (is_append_conflict e); [|by apply Hfail]. intros slept w3 Hl3 _.
      assert (Hg3 : grows v0 w w3) by (eapply grows_trans; [done|by eapply later_grows]).
      destruct slept as [m|]; [by apply Hfail|]. apply IH; [done|apply Hl3|].
      intros a w4 Hg4. apply HQ. by eapply grows_trans.
Qed.

(** Fixing identifiers and times leaves the payloads alone. *)
Lemma stable_record_payload id op now k (record : AppendRecord F) :
  rec_Payload (ar_Event (stable_record id op now k record)) = rec_Payload (ar_Event record).
Proof. unfold stable_record. by do 2 case_match. Qed.
Lemma stable_records_ok id op now records :
  append_ok_call records -> append_ok_call (imap (stable_record id op now) records).
Proof.
  unfold append_ok_call. rewrite !Forall_forall. intros H r (k & x & -> & Hx)%elem_of_lookup_imap.
  rewrite stable_record_payload. apply H. by eapply list_elem_of_lookup_2.
Qed.
Lemma answers_stable id f (records : list (AppendRecord F)) out :
  (forall k r, rec_Payload (ar_Event (f k r)) = rec_Payload (ar_Event r)) ->
  Forall2 (answers id) (imap f records) out -> Forall2 (answers id) records out.
Proof.
  intros Hf. revert f Hf out. induction records as [|r records IH]; intros f Hf out Hout.
  - by apply Forall2_nil_inv_l in Hout as ->.
  - rewrite imap_cons in Hout. apply Forall2_cons_inv_l in Hout as (x & out' & [H1 H2] & Hout & ->). constructor.
    + split; [done|]. by rewrite H2, Hf.
    + eapply (IH (f ∘ Datatypes.S)); [|done]. intros. apply Hf.
Qed.

Lemma ends_ThreadAppend ref records :
  append_ok_call records -> ends (ThreadAppend ref records) (appended (ref_ID ref) records).
Proof.
  intros Hok w Q Hw HQ. unfold ThreadAppend. case_decide as Hid; [apply HQ; [by apply grows_refl|by intros ?]|].
  destruct records as [|r rs]; [apply HQ; [by apply grows_refl|]; intros out [= <-]; split; constructor|].
  intros op w1 Hl1 _ now w2 Hl2 _. apply ends_append_loop; [done|by apply stable_records_ok|done|apply Hl2|].
  intros a w3 Hg3 Ha. apply HQ.
  - eapply grows_trans; [by eapply later_grows|]. eapply grows_trans; [by eapply later_grows|done].
  - intros out Hout. destruct (Ha out Hout) as [H1 H2]. split; [|done].
    eapply answers_stable; [|exact H1]. intros. apply stable_record_payload.
Qed.

(** *** Fork *)

Lemma fork_extends id before from to now src x1 br :
  recs_of before <> [] -> sn_Branches (projectSnapshot id (recs_of before)) !! from = Some br ->
  sn_Branches (projectSnapshot id (recs_of before)) !! to = None -> from <> emp -> to <> emp ->
  stored_as (created_record id emp now
    (BranchCreated id from to (Z.of_nat (length (sn_Events (projectSnapshot id (recs_of before))))) now src)
    {[ attrBranchID := to ]}) x1 ->
  extends id before [x1] /\ lifecycle_of (recs_of [x1]) = [].
Proof.
  intros Hne Hfrom Hto Hf Ht (Hp & _ & Ha & _). cbn [created_record rec_Payload rec_Attributes] in Hp, Ha. rewrite projectSnapshot_events, length_imap in Hp. split.
  - intros Hh. rewrite recs_of_app. eapply history_fork; [done|done|exact Hp| |by eexists|done|done|done].
    unfold record_branch, attribute. rewrite Ha, lookup_singleton_eq. by apply normalizeBranch_nonempty.
  - unfold lifecycle_of. cbn [recs_of fmap list_fmap]. rewrite filter_cons, filter_nil, decide_False; [done|].
    rewrite Hp. by intros [].
Qed.

Lemma obeys_fork_loop left attempt params to last :
  fp_ID params <> emp -> to <> emp -> obeys (fork_loop left attempt params to last).
Proof.
  intros Hid Hto. revert attempt last. induction left as [|left IH]; intros attempt last; [apply thread_obeys_ret|].
  intros w Q Hw HQ. cbn [fork_loop].
  apply wp_bind, wp_loadThread; [done| |intros; by eapply HQ, later_grows].
  intros w1 Hl. cbn [ot_records ot_lastSequence]. pose proof (later_grows _ _ _ _ _ Hl) as Hg.
  destruct (recs_of (stream w1 (fp_ID params))) as [|r0 rs] eqn:Erecs; [by apply HQ|]. rewrite <- Erecs.
  destruct (sn_Branches _ !! normalizeBranch _) as [br|] eqn:Hfrom; [|by apply HQ].
  destruct (sn_Branches _ !! to) as [br'|] eqn:Hto'; [by apply HQ|].
  apply wp_bind.
  assert (Hnow : forall (Q' : Time -> W -> Prop), (forall now w2, laterg w1 w2 -> Q' now w2) ->
    wpi (if time_IsZero (fp_Now params) then effect NowUTC else Ret (fp_Now params)) Q' w1).
  { intros Q' HQ'. case_match; [intros now w2 Hl2 _; by apply HQ'|apply HQ', later_refl, Hl]. }
  apply Hnow. clear Hnow. intros now w2 Hl2.
  assert (Hg2 : grows v0 w w2) by (eapply grows_trans; [done|by eapply later_grows]).
  apply wp_bind. eapply (wp_append_thread (fp_ID params) _ (stream w1 (fp_ID params)));
    [by apply expects_loaded; [apply Hl|]|done|..].
  - intros out Hout. apply Forall2_cons_inv_l in Hout as (x1 & ? & Hx & ->%Forall2_nil_inv_l & ->).
    eapply fork_extends; [by rewrite Erecs|exact Hfrom|exact Hto'|apply normalizeBranch_ne|done|exact Hx].
  - intros out w3 w4 Hl3 _ _ Hw4 Hlog _. apply obeys_Read; [done|]. intros a w5 Hg5. apply HQ.
    eapply grows_trans; [done|]. eapply grows_trans; [by eapply grows_appended|done].
  - intros e w3 Hl3. assert (Hg3 : grows v0 w w3) by (eapply grows_trans; [done|by eapply later_grows]).
    destruct (is_append_conflict e); [|by apply HQ]. intros slept w4 Hl4 _.
    assert (Hg4 : grows v0 w w4) by (eapply grows_trans; [done|by eapply later_grows]).
    destruct slept as [m|]; [by apply HQ|]. apply IH; [apply Hl4|]. intros a w5 Hg5. apply HQ. by eapply grows_trans.
Qed.

Lemma obeys_ThreadFork params : obeys (ThreadFork params).
Proof.
  intros w Q Hw HQ. unfold ThreadFork. case_decide; [by apply HQ, grows_refl|].
  apply wp_bind, wp_new_id; [done|done|]. intros to w1 Hl Hto. apply obeys_fork_loop; [done|done|apply Hl|].
  intros a w2 Hg. apply HQ. eapply grows_trans; [by eapply later_grows|done].
Qed.

(** *** Archive and Unarchive *)

Lemma archive_extends id before archived now attributes x1 :
  recs_of before <> [] -> attribute attributes attrBranchID = MainBranch ->
  stored_as (created_record id emp now (archive_payload id archived now) attributes) x1 -> extends id before [x1].
Proof.
  intros Hne Hat (Hp & _ & Ha & _) Hh. cbn [created_record rec_Payload rec_Attributes] in Hp, Ha.
  rewrite recs_of_app. apply history_plain; [done|done| |].
  - rewrite Hp. by destruct archived.
  - unfold record_branch. rewrite Ha, Hat. apply (so_branches _ _ _ (history_snapshot_ok _ _ Hh)).
Qed.

Lemma archived_after id recs archived now (r : Rec) :
  rec_Payload r = archive_payload id archived now ->
  sn_Archived (projectSnapshot id (recs ++ [r])) = archived.
Proof.
  intros Hp. rewrite projectSnapshot_snoc. unfold project_record. rewrite Hp. cbv zeta. unfold archive_payload.
  by destruct archived; cbn; destruct (_ || _).
Qed.

Abbreviation archived_at id l := (sn_Archived (projectSnapshot id (recs_of l))).

(** An error means that nothing was written. Success means that the thread was found in the state asked
    for, without a write, or that one record that changes it was written, with its copy in the index. *)
Definition wrote_nothing w w1 id : Prop :=
  added i (threadStream id) w w1 = [] /\ added i index w w1 = [].
Definition found_archived w w1 id (archived : bool) : Prop :=
  wrote_nothing w w1 id /\
  exists p rest, stream w1 id = p ++ rest /\ length (stream w id) <= length p /\ p <> [] /\ archived_at id p = archived.
Definition set_archived w w1 id (archived : bool) : Prop :=
  exists e, added i (threadStream id) w w1 = [e] /\ length (added i index w w1) = 1 /\
    en_before e <> [] /\ archived_at id (en_before e) = negb archived /\
    archived_at id (en_before e ++ en_out e) = archived.
Definition archive_post w id (archived : bool) (r : Result ThreadError unit) w1 : Prop :=
  match r with
  | Err _ => wrote_nothing w w1 id
  | Ok _ => found_archived w w1 id archived \/ set_archived w w1 id archived
  end.

Lemma wrote_nothing_later w w1 id : laterg w w1 -> wrote_nothing w w1 id.
Proof. intros Hl. split; by eapply added_later. Qed.
Lemma wrote_nothing_trans w w1 w2 id :
  grows v0 w w1 -> grows v0 w1 w2 -> wrote_nothing w w1 id -> wrote_nothing w1 w2 id -> wrote_nothing w w2 id.
Proof. intros Hg Hg' [H1 H2] [H3 H4]. split; by rewrite (added_trans v0 i _ w w1 w2), ?H1, ?H2. Qed.

Lemma archive_post_start w w1 w2 id archived r :
  world_ok v0 w -> grows v0 w w1 -> grows v0 w1 w2 -> wrote_nothing w w1 id ->
  archive_post w1 id archived r w2 -> archive_post w id archived r w2.
Proof.
  intros Hw Hg Hg' Hn. destruct r as [u|e]; cbn; [|by apply wrote_nothing_trans].
  intros [[Hn' (p & rest & E & Hlen & Hp)]|(e & He & Hi & H)].
  - left. split; [by eapply wrote_nothing_trans|]. exists p, rest. split; [done|]. split; [|done].
    destruct (grows_view v0 w w1 (threadStream id) Hw Hg) as (rest' & E'). rewrite E', length_app in Hlen. lia.
  - right. exists e. destruct Hn as [H1 H2]. by rewrite !(added_trans v0 i _ w w1 w2), H1, H2.
Qed.

Lemma archive_post_later w w1 w2 id archived r :
  grows v0 w w1 -> laterg w1 w2 -> archive_post w id archived r w1 -> archive_post w id archived r w2.
Proof.
  intros Hg Hl. pose proof (later_grows _ _ _ _ _ Hl) as Hg'.
  assert (Hsame : forall st, added i st w w2 = added i st w w1).
  { intros st. by rewrite (added_trans v0 i _ w w1 w2), (added_later v0 thread_guard i _ w1 w2), app_nil_r. }
  destruct r as [u|e]; cbn; unfold found_archived, set_archived, wrote_nothing; rewrite !Hsame; [|done].
  intros [[Hn (p & rest & E & Hp)]|He]; [left|by right]. split; [done|].
  destruct (grows_view v0 w1 w2 (threadStream id) (proj1 Hg) Hg') as (rest' & E').
  exists p, (rest ++ rest'). by rewrite E', E, <- app_assoc.
Qed.

Lemma added_log st w w1 l :
  w_log w1 = w_log w ++ l -> added i st w w1 = filter (fun e => en_owner e = i /\ en_stream e = st) l.
Proof. intros E. unfold added. by rewrite E, drop_app_length. Qed.

Lemma wp_setArchivedOnce id archived w (Q : Result ThreadError unit -> W -> Prop) :
  id <> emp -> world_ok v0 w ->
  (forall r w1, grows v0 w w1 -> archive_post w id archived r w1 -> Q r w1) ->
  wpi (setArchivedOnce index id archived) Q w.
Proof using index_free.
  intros Hid Hw HQ. unfold setArchivedOnce.
  assert (Hfail : forall e w1, laterg w w1 -> Q (Err e) w1)
    by (intros; apply HQ; [by eapply later_grows|by apply wrote_nothing_later]).
  apply wp_bind, wp_loadThread; [done| |intros m w1 Hl; by apply Hfail]. intros w1 Hl. cbn [ot_records ot_lastSequence].
  destruct (recs_of (stream w1 id)) as [|r0 rs] eqn:Erecs; [by apply Hfail|]. rewrite <- Erecs. case_match eqn:Ea.
  { apply HQ; [by eapply later_grows|]. left. split; [by apply wrote_nothing_later|]. exists (stream w1 id), [].
    rewrite app_nil_r. split; [done|]. split; [|split; [|by apply eqb_prop]].
    - destruct (grows_view v0 w w1 (threadStream id) Hw (later_grows _ _ _ _ _ Hl)) as (rest & ->). rewrite length_app. lia.
    - by intros E; rewrite E in Erecs. }
  apply wp_bind, wp_loadIndex. intros o w2 Hl2. pose proof (later_trans _ _ _ _ _ _ Hl Hl2) as Hl02.
  destruct o as [o|e]; [|by apply Hfail]. apply wp_bind. intros now w3 Hl3 _. cbn [wp]. pose proof (later_trans _ _ _ _ _ _ Hl02 Hl3) as Hl03.
  apply wp_bind. eapply (wp_batch_lifecycle id _ (stream w1 id));
    [apply expects_loaded; [apply Hl|by eapply later_trans]|done|by destruct archived|done|done|..].
  - intros x1. eapply archive_extends; [by rewrite Erecs|done].
  - intros x1 w4 w5 e1 e2 Hl4 _ Hx Hw5 Hlog Ho1 Ho2 Hs1 Hs2 Hb He _ rs'. cbn.
    pose proof (later_trans _ _ _ _ _ _ Hl03 Hl4) as Hl04.
    apply HQ; [by eapply grows_appended|]. right. exists e1.
    assert (Hadd : forall st, added i st w w5 = filter (fun e => en_owner e = i /\ en_stream e = st) [e1; e2]).
    { intros st. rewrite (added_trans v0 i st w w4 w5), (added_later v0 thread_guard i st w w4), (added_log st w4 w5 [e1; e2]);
        [done|done|done|by eapply later_grows|split; [done|by eexists]]. }
    rewrite !Hadd, !filter_cons, !filter_nil, Ho1, Ho2, Hs1, Hs2.
    rewrite decide_True, decide_False, decide_False, decide_True; try done;
      [|by intros [_ E]; destruct (index_free id)|by intros [_ E]; destruct (index_free id)].
    rewrite Hb, He. split; [done|]. split; [done|]. split; [by intros E; rewrite E in Erecs|]. split.
    + apply eqb_false_iff in Ea. by destruct (archived_at id (stream w1 id)), archived.
    + rewrite recs_of_app. eapply archived_after. destruct Hx as [Hp _]. exact Hp.
  - intros e w4 Hl4. apply Hfail. by eapply later_trans.
Qed.

Lemma wp_archive_loop left attempt id archived last w (Q : Result ThreadError unit -> W -> Prop) :
  id <> emp -> (left = 0 -> last <> None) -> world_ok v0 w ->
  (forall r w1, grows v0 w w1 -> archive_post w id archived r w1 -> Q r w1) ->
  wpi (archive_loop index left attempt id archived last) Q w.
Proof using index_free.
  intros Hid. revert attempt last w. induction left as [|left IH]; intros attempt last w Hlast Hw HQ; cbn [archive_loop].
  { destruct last; [|by destruct Hlast]. apply HQ; [by apply grows_refl|]. by apply wrote_nothing_later, later_refl. }
  apply wp_bind, wp_setArchivedOnce; [done|done|]. intros r w1 Hg Hr. destruct r as [u|e]; [by destruct u; apply HQ|].
  destruct (negb _); [by apply HQ|]. intros slept w2 Hl _.
  assert (Hg2 : grows v0 w1 w2) by (by eapply later_grows).
  assert (Hn : wrote_nothing w w2 id) by (eapply wrote_nothing_trans; [done|done|done|by apply wrote_nothing_later]).
  assert (Hg02 : grows v0 w w2) by (by eapply grows_trans).
  destruct slept as [m|]; [by apply HQ|]. apply IH; [done|apply Hl|]. intros r w3 Hg3 Hr3. apply HQ; [by eapply grows_trans|].
  by eapply (archive_post_start w w2).
Qed.


(** The thread without a name does not exist. *)
Lemma wp_archive_unnamed left attempt archived last w (Q : Result ThreadError unit -> W -> Prop) :
  threads_ok v0 -> Forall thread_guard (w_log w) -> (left = 0 -> last <> None) -> world_ok v0 w ->
  (forall e w1, laterg w w1 -> Q (Err e) w1) ->
  wpi (archive_loop index left attempt emp archived last) Q w.
Proof using index_free.
  intros Hok HG Hlast Hw HQ. destruct left as [|left]; cbn [archive_loop].
  { destruct last; [|by destruct Hlast]. by apply HQ, later_refl. }
  apply wp_bind. unfold setArchivedOnce. apply wp_bind, wp_loadThread; [done| |].
  - intros w1 Hl. cbn [ot_records]. assert (E : stream w1 emp = []).
    { apply to_unnamed, (threads_ok_world v0); [done|apply Hl|]. destruct Hl as [_ (l & -> & Hl)].
      apply Forall_app. split; [done|]. eapply Forall_impl; [exact Hl|]. by intros e []. }
    rewrite E. cbn. by apply HQ.
  - intros e w1 Hl. by apply HQ.
Qed.

Lemma obeys_replay_loop params order page : obeys (replay_loop params order page).
Proof.
  revert page. induction order as [|id order IH]; intros page; cbn [replay_loop]; [apply thread_obeys_ret|].
  apply thread_obeys_bind; [apply obeys_loadThread|]. intros [o|e]; [|apply thread_obeys_ret].
  destruct (ot_records o); [apply IH|]. cbv zeta. destruct (_ && _); [apply IH|].
  destruct (_ && _); [apply thread_obeys_ret|apply IH].
Qed.
Lemma obeys_ThreadList readIndex params : obeys (ThreadList index readIndex params).
Proof.
  destruct readIndex; [apply thread_obeys_ret|]. apply thread_obeys_bind; [apply obeys_loadIndex|].
  intros [o|e]; [apply obeys_replay_loop|apply thread_obeys_ret].
Qed.
End Calls.

(** ** Any number of clients *)

Inductive ThreadCall :=
| CallCreate (params : CreateParams)
| CallAppend (ref : Ref) (records : list (AppendRecord F))
| CallFork (params : ForkParams)
| CallArchive (id : string) (archived : bool)
| CallRead (id : string)
| CallList (readIndex : option ThreadIndex) (params : ListParams).
Inductive ThreadAnswer :=
| AnsSnapshot (r : Result ThreadError (Snapshot F))
| AnsRecords (r : Result ThreadError (list (ThreadRecord F)))
| AnsDone (r : Result ThreadError unit)
| AnsPage (r : Result ThreadError (list (Snapshot F))).

Definition thread_prog (c : ThreadCall) : Act ThreadAnswer :=
  match c with
  | CallCreate params => let! r := ThreadCreate index params in Ret (AnsSnapshot r)
  | CallAppend ref records => let! r := ThreadAppend ref records in Ret (AnsRecords r)
  | CallFork params => let! r := ThreadFork params in Ret (AnsSnapshot r)
  | CallArchive id archived =>
      let! r := (if archived then ThreadArchive index id else ThreadUnarchive index id) in Ret (AnsDone r)
  | CallRead id => let! r := Read id in Ret (AnsSnapshot r)
  | CallList readIndex params => let! r := ThreadList index readIndex params in Ret (AnsPage r)
  end.

(** Clients append events of their own, not the events the store itself writes. *)
Definition call_ok (c : ThreadCall) : Prop :=
  match c with CallAppend _ records => append_ok_call records | _ => True end.

(** What an answer promises, in a world that was [w] when the call was made. *)
Definition call_post (i : nat) (w : W) (c : ThreadCall) (a : ThreadAnswer) (w1 : W) : Prop :=
  match c, a with
  | CallAppend ref records, AnsRecords r => appended (ref_ID ref) records r w1
  | CallArchive id archived, AnsDone r => id <> emp -> archive_post i w id archived r w1
  | _, _ => True
  end.

Lemma call_post_later v0 i w c a w1 w2 :
  grows v0 w w1 -> later v0 thread_guard i w1 w2 -> call_post i w c a w1 -> call_post i w c a w2.
Proof.
  intros Hg Hl. destruct c, a; cbn; try done.
  - intros Hp out Hout. destruct (Hp out Hout) as [H1 H2]. split; [done|].
    eapply Forall_impl; [exact H2|]. intros tr. eapply in_thread_later; [apply Hg|done].
  - intros Hp Hid. eapply archive_post_later; [done|done|by apply Hp].
Qed.

Lemma wp_thread_prog v0 i c w :
  threads_ok v0 -> Forall thread_guard (w_log w) -> world_ok v0 w -> call_ok c ->
  wp thread_responds v0 thread_guard i (thread_prog c) (fun a w1 => grows v0 w w1 /\ call_post i w c a w1) w.
Proof using index_free.
  intros H0 HG Hw Hc. destruct c; cbn [thread_prog]; apply wp_bind.
  - apply obeys_ThreadCreate; [done|]. by intros a w1 Hg.
  - apply ends_ThreadAppend; [done|done|]. by intros a w1 Hg Ha.
  - apply obeys_ThreadFork; [done|]. by intros a w1 Hg.
  - assert (E : (if archived then ThreadArchive (F := F) index id else ThreadUnarchive index id) =
      archive_loop index threadWriteRetries 0 id archived None) by by destruct archived.
    rewrite E. destruct (decide (id = emp)) as [->|Hid].
    + apply (wp_archive_unnamed v0); try done. intros e w1 Hl. split; [by eapply later_grows|done].
    + apply wp_archive_loop; [done|done|done|]. intros r w1 Hg Hr. split; [done|by intros _].
  - apply wp_Read; [done|]. intros r w1 Hl. split; [by eapply later_grows|done].
  - apply obeys_ThreadList; [done|]. by intros a w1 Hg.
Qed.

Lemma thread_pool (s : S) calls w' ps' :
  store_ok s -> threads_ok (view s) -> Forall call_ok calls ->
  rtc (pool_step thread_responds) (fresh s, thread_prog <$> calls) (w', ps') ->
  world_ok (view s) w' /\ threads_ok (view (w_store w')) /\
  forall i c a, calls !! i = Some c -> ps' !! i = Some (Ret a) -> call_post i (fresh s) c a w'.
Proof using index_free.
  intros Hs H0 Hcalls Hrun.
  pose proof (fresh_ok s Hs) as Hw0.
  destruct (wp_pool thread_responds (view s) thread_guard
    (fun i a w1 => grows (view s) (fresh s) w1 /\ forall c, calls !! i = Some c -> call_post i (fresh s) c a w1)
    (fresh s) (thread_prog <$> calls) w' ps') as (Hw & HG & Hwp); try done.
  - intros i a w w1 Hl [Hg Hp]. split; [eapply grows_trans; [done|by eapply later_grows]|].
    intros c Hc. eapply call_post_later; [done|done|by apply Hp].
  - intros i p Hp. rewrite list_lookup_fmap in Hp. apply fmap_Some in Hp as (c & Hc & ->).
    eapply wp_mono; [|apply (wp_thread_prog _ i c); [done|constructor|done|by eapply Forall_lookup_1]].
    intros a w [Hg Hp]. split; [done|]. intros c' Hc'. congruence.
  - split; [done|]. split; [by eapply threads_ok_world|]. intros i c a Hc Ha.
    destruct (Hwp i _ Ha) as [_ Hp]. by apply Hp.
Qed.
End System.
