(* ===== verification/Threads.v ===== *)
(** * The thread store: theorems

    What concurrent clients of the thread store can rely on, the agreement of the two listings, the
    coding of positions in attributes, and the comparison of string maps used to recognise a repeated
    append. *)

From S2P Require Import Prelude Event MemStore Prog Thread ThreadViews ThreadIndex ThreadStore ThreadSystem.

(** ** Positions in attributes *)

Section Positions.
Context {F : Type}.

(** An attribute map whose node keys, where the record has no node of its own, are unset. *)
Definition no_stray_position (record : AppendRecord F) : Prop :=
  (ar_NodeID record = emp -> attribute (rec_Attributes (ar_Event record)) attrNodeID = emp) /\
  (ar_ParentNodeID record = emp -> attribute (rec_Attributes (ar_Event record)) attrParentNodeID = emp).

Lemma attribute_set m k v k' : attribute (<[k := v]> m) k' = if decide (k = k') then v else attribute m k'.
Proof.
  unfold attribute. case_decide as Hd; [subst; by rewrite lookup_insert_eq|by rewrite lookup_insert_ne].
Qed.
Lemma attribute_set_if (m : gmap string string) k v k' :
  attribute (if decide (v = emp) then m else <[k := v]> m) k' =
    if decide (v = emp) then attribute m k' else if decide (k = k') then v else attribute m k'.
Proof. case_decide; [done|apply attribute_set]. Qed.

(** The branch and the nodes that [Append] writes into the attributes of a record are what
    [toThreadRecord] reads back from them, for every record whose own attributes do not hold a stray
    position; all other attributes, and the payload, pass through unchanged. *)
Theorem position_roundtrip id branch sequence (record : AppendRecord F) :
  branch <> emp -> no_stray_position record ->
  toThreadRecord id sequence (positioned id branch record) =
    mkThreadRecord id branch (ar_NodeID record) (ar_ParentNodeID record) sequence (positioned id branch record) /\
  rec_Payload (positioned id branch record) = rec_Payload (ar_Event record) /\
  forall key, key ∉ [attrBranchID; attrNodeID; attrParentNodeID] ->
    rec_Attributes (positioned id branch record) !! key = rec_Attributes (ar_Event record) !! key.
Proof.
  intros Hb [Hn Hp]. unfold toThreadRecord. split; [|split; [done|]].
  - unfold positioned. cbn [update_field rec_Attributes rec_Scope]. cbn. rewrite !attribute_set_if, !attribute_set.
    assert (E1 : (if decide (attrNodeID = attrBranchID) then ar_NodeID record else branch) = branch) by done.
    f_equal.
    + repeat case_decide; try done; by apply normalizeBranch_nonempty.
    + destruct (decide (ar_NodeID record = emp)) as [E|E]; destruct (decide (ar_ParentNodeID record = emp)); cbn;
        rewrite ?E; auto.
    + destruct (decide (ar_NodeID record = emp)) as [E|E]; destruct (decide (ar_ParentNodeID record = emp)) as [E'|E']; cbn;
        rewrite ?E'; auto.
  - intros key Hkey. unfold positioned. cbn. assert (key <> attrBranchID /\ key <> attrNodeID /\ key <> attrParentNodeID)
      as (H1 & H2 & H3) by set_solver.
    repeat case_decide; by rewrite ?lookup_insert_ne by done.
Qed.
End Positions.

(** ** Comparing string maps *)

Lemma sameStringMap_spec a b :
  sameStringMap a b = true <-> size a = size b /\ forall k v, a !! k = Some v -> attribute b k = v.
Proof.
  unfold sameStringMap. rewrite andb_true_iff, bool_decide_eq_true, forallb_forall. split; intros [H1 H2]; (split; [done|]).
  - intros k v Hk. specialize (H2 (k, v)). cbn in H2. apply bool_decide_eq_true in H2; [done|].
    by apply list_elem_of_In, elem_of_map_to_list.
  - intros [k v] Hin. cbn. apply bool_decide_eq_true. by apply H2, elem_of_map_to_list, list_elem_of_In.
Qed.

(** [sameStringMap] decides equality of the maps whenever the first has no empty values: its test
    of the sizes and of the entries of one map is then enough. *)
Theorem same_string_map_exact a b :
  (forall k v, a !! k = Some v -> v <> emp) -> sameStringMap a b = true <-> a = b.
Proof.
  intros Hne. rewrite sameStringMap_spec. split.
  - intros [Hsize Hall]. assert (Hsub : a ⊆ b).
    { apply map_subseteq_spec. intros k v Hk. specialize (Hall k v Hk). unfold attribute in Hall.
      destruct (b !! k) as [v'|]; cbn in Hall; [by subst|]. by destruct (Hne k v Hk). }
    apply map_subseteq_size_eq; [done|lia].
  - intros ->. split; [done|]. intros k v Hk. unfold attribute. by rewrite Hk.
Qed.

(** Two different maps with an empty value pass the test. *)
Lemma same_string_map_confuses :
  sameStringMap {[ "x"%string := emp ]} {[ "y"%string := "1"%string ]} = true.
Proof. vm_compute. reflexivity. Qed.

(** ** The two listings *)

Section Listing.
Context {F : Type} (index : string).
Abbreviation P := (ThreadEvent F).
Abbreviation Rec := (EventRecord P).
Abbreviation SRec := (StoredRecord P).

(** What a listing shows of a thread: identity, branch, archived flag and creation time. *)
Definition summary (s : Snapshot F) : string * string * bool * Time :=
  (sn_ID s, sn_BranchID s, sn_Archived s, sn_CreatedAt s).

Definition sum_step (s : string * string * bool * Time) (p : P) : string * string * bool * Time :=
  let '(i, b, a, c) := s in
  match p with
  | ThreadCreated _ branch _ at_ _ => (i, normalizeBranch branch, a, at_)
  | ThreadArchived _ _ _ => (i, b, true, c)
  | ThreadUnarchived _ _ _ => (i, b, false, c)
  | _ => s
  end.

Lemma summary_record id k s r :
  (forall i b m at_ src, rec_Payload r = ThreadCreated i b m at_ src -> b <> emp) ->
  summary (project_record id k s r) = sum_step (summary s) (rec_Payload r).
Proof.
  intros Hb. unfold project_record. cbv zeta. destruct (_ || _); destruct (rec_Payload r) as [i b m at_ src| | | | | |] eqn:E;
    try reflexivity; try (cbn; by destruct (time_IsZero _)); specialize (Hb _ _ _ _ _ eq_refl);
    cbn; unfold applyThreadCreated; by rewrite decide_False.
Qed.

Lemma sum_step_other s p : ~ is_lifecycle p -> sum_step s p = s.
Proof. destruct s as [[[i b] a] c]. by destruct p; cbn; intros H; try done; destruct H. Qed.

(** The lifecycle of a thread: created once, first. *)
Lemma history_lifecycle id (recs : list Rec) :
  history id recs -> recs <> [] ->
  (exists branch m at_ src rest, branch <> emp /\ lifecycle_of recs = ThreadCreated id branch m at_ src :: rest) /\
  summary (projectSnapshot id recs) = fold_left sum_step (lifecycle_of recs) (id, MainBranch, false, 0%Z).
Proof.
  induction 1 as [|r branch m at_ src Hb Hp Hr|recs r Hh IH Hne Hp Hbr|recs r from to at_ src Hh IH Hne Hp Hr Hfrom Hto Hf Ht];
    [done| | |]; intros _.
  - unfold lifecycle_of. cbn. rewrite Hp. cbn. split; [by eexists _, _, _, _, _|].
    unfold projectSnapshot. cbn. rewrite summary_record, Hp; [done|]. intros. congruence.
  - destruct (IH Hne) as [(branch & m & at_ & src & rest & Hb & E) Hsum].
    rewrite lifecycle_of_app, projectSnapshot_snoc, summary_record by (intros; by rewrite H in Hp).
    unfold lifecycle_of at 2 4. cbn [fmap list_fmap]. rewrite filter_cons, filter_nil, Hsum, fold_left_app.
    split; [rewrite E; by eexists _, _, _, _, _|]. case_decide; [done|]. by rewrite sum_step_other.
  - destruct (IH Hne) as [(branch & m & at_' & src' & rest & Hb & E) Hsum].
    rewrite lifecycle_of_app, projectSnapshot_snoc, summary_record by (intros; congruence).
    unfold lifecycle_of at 2 4. cbn [fmap list_fmap]. rewrite filter_cons, filter_nil, Hsum, fold_left_app, Hp.
    split; [rewrite E; by eexists _, _, _, _, _|].
    by rewrite decide_False, sum_step_other by by intros [].
Qed.

(** *** The read model, entry by entry *)

Definition entry_summary (e : IndexEntry) : string * string * bool * Time :=
  (ie_ID e, ie_BranchID e, ie_Archived e, ie_CreatedAt e).
Definition index_step (s : string * string * bool * Time) (p : P) : string * string * bool * Time :=
  match p, s with
  | ThreadCreated id branch _ at_ _, (_, _, a, _) => (id, normalizeBranch branch, a, at_)
  | _, _ => sum_step s p
  end.
Definition payloads_about (id : string) (recs : list Rec) : list P := rec_Payload <$> filter (about id) recs.

Lemma entry_summary_step e p : entry_summary (apply_index_payload e p) = index_step (entry_summary e) p.
Proof. by destruct p; cbn; try reflexivity; case_match. Qed.

Definition project_entries (recs : list Rec) : ThreadIndex := fold_left index_record recs NewThreadIndex.

Lemma index_project_entries (stored : list SRec) :
  index_project None NewThreadIndex stored = Ok (project_entries (recs_of stored)).
Proof.
  unfold index_project, project_entries, recs_of. f_equal. generalize NewThreadIndex.
  induction stored as [|r l IH]; intros i; [done|]. cbn. apply IH.
Qed.

Lemma payloads_about_snoc id recs r :
  payloads_about id (recs ++ [r]) = payloads_about id recs ++ (if decide (about id r) then [rec_Payload r] else []).
Proof.
  unfold payloads_about. rewrite filter_app, fmap_app, filter_cons, filter_nil. by destruct (decide (about id r)).
Qed.

Lemma project_entries_lookup recs id :
  id <> emp ->
  match ix_entries (project_entries recs) !! id with
  | None => payloads_about id recs = []
  | Some e => entry_summary e = fold_left index_step (payloads_about id recs) (id, emp, false, 0%Z)
  end.
Proof.
  intros Hid. unfold project_entries. induction recs as [|r recs IH] using rev_ind; [done|].
  rewrite fold_left_app, payloads_about_snoc. cbn. unfold index_record at 1.
  case_decide as Hemp.
  { rewrite decide_False, app_nil_r; [done|]. unfold about. congruence. }
  set (i := fold_left index_record recs NewThreadIndex) in *. unfold about.
  set (id' := scope_ThreadID (rec_Scope r)) in *.
  destruct (decide (id' = id)) as [->|Hne].
  - rewrite fold_left_app. cbn. destruct (ix_entries i !! id) as [e|] eqn:E; cbn; rewrite lookup_insert_eq.
    + rewrite <- IH, <- entry_summary_step. by case_match.
    + rewrite IH. cbn [fold_left].
      change (id, emp, false, 0%Z) with (entry_summary (zero_IndexEntry <| ie_ID := id |>)).
      rewrite <- entry_summary_step. by case_match.
  - rewrite app_nil_r. by destruct (ix_entries i !! id') as [e|] eqn:E; cbn; rewrite lookup_insert_ne by done.
Qed.

(** Both sides see the threads in the order of their first records. *)
Lemma listing_order (stored : list SRec) :
  let o := observe_index stored in let i := project_entries (recs_of stored) in
  oi_order o = ix_order i /\ (forall id, id ∈ oi_seen o <-> is_Some (ix_entries i !! id)) /\
  (forall id, id ∈ oi_order o -> id <> emp /\ payloads_about id (recs_of stored) <> []).
Proof.
  cbv zeta. unfold observe_index, project_entries, recs_of. induction stored as [|r l IH] using rev_ind.
  { split; [done|]. split; [|set_solver]. intros id. cbn. rewrite lookup_empty, is_Some_alt. set_solver. }
  rewrite fmap_app, !fold_left_app. cbn [fold_left fmap list_fmap]. destruct IH as (Ho & Hs & Hp).
  set (o := fold_left observe_entry l _) in *. set (i := fold_left index_record _ _) in *.
  assert (Hp' : forall id, id ∈ oi_order o -> id <> emp /\ payloads_about id ((st_Record <$> l) ++ [st_Record r]) <> []).
  { intros id [? Hne]%Hp. split; [done|]. rewrite payloads_about_snoc. by intros [? _]%app_eq_nil. }
  unfold observe_entry, index_record. set (id := scope_ThreadID (rec_Scope (st_Record r))).
  destruct (decide (id = emp)) as [E|E]; cbn [oi_order oi_seen]; [done|].
  destruct (decide (id ∈ oi_seen o)) as [Hin|Hin]; cbn [oi_order oi_seen].
  - apply Hs in Hin as Hsome. destruct Hsome as [e He]. rewrite He. cbn [ix_order ix_entries].
    split; [done|]. split; [|done]. intros id'. rewrite Hs, lookup_insert_is_Some'. split; [by right|].
    intros [<-|H]; [by eexists|done].
  - assert (He : ix_entries i !! id = None) by (apply eq_None_not_Some; by rewrite <- Hs). rewrite He. cbn [ix_order ix_entries].
    split; [by rewrite Ho|]. split.
    + intros id'. rewrite elem_of_union, elem_of_singleton, Hs, lookup_insert_is_Some'.
      split; (intros [H|H]; [left; congruence|by right]).
    + intros id' [H|H%list_elem_of_singleton]%elem_of_app; [by apply Hp'|]. subst id'. split; [done|].
      rewrite payloads_about_snoc, decide_True by done. by intros [_ ?]%app_eq_nil.
Qed.

(** The creation a lifecycle starts with is the only one. *)
Definition names_itself (id : string) (p : P) : Prop :=
  match p with ThreadCreated id' _ _ _ _ => id' = id | _ => True end.
Lemma history_names_itself id (recs : list Rec) : history id recs -> Forall (names_itself id) (rec_Payload <$> recs).
Proof.
  induction 1 as [|r branch m at_ src Hb Hp Hr|recs r Hh IH Hne Hp Hbr|recs r from to at_ src Hh IH Hne Hp Hr Hfrom Hto Hf Ht].
  - constructor.
  - apply Forall_singleton. by rewrite Hp.
  - rewrite fmap_app. apply Forall_app. split; [done|]. apply Forall_singleton. by destruct (rec_Payload r).
  - rewrite fmap_app. apply Forall_app. split; [done|]. apply Forall_singleton. by rewrite Hp.
Qed.

Lemma fold_steps id ps b a c :
  Forall (names_itself id) ps -> fold_left index_step ps (id, b, a, c) = fold_left sum_step ps (id, b, a, c).
Proof.
  intros H. revert b a c. induction H as [|p ps Hp _ IH]; intros b a c; [done|]. cbn.
  destruct p; cbn in *; subst; apply IH.
Qed.

Context {S : Type} {ES : EventStore S P} {Laws : EventStoreLaws S P}.

Lemma listed_entry (v : string -> list SRec) id :
  threads_ok index v -> id <> emp -> payloads_about id (recs_of (v index)) <> [] ->
  recs_of (v (threadStream id)) <> [] /\
  summary (projectSnapshot id (recs_of (v (threadStream id)))) =
    entry_summary (ix_entries (project_entries (recs_of (v index))) !!! id).
Proof.
  intros Hok Hid Hne. pose proof (to_index _ _ Hok id) as Hi. fold (payloads_about id (recs_of (v index))) in Hi.
  assert (Hrecs : recs_of (v (threadStream id)) <> []) by (intros E; rewrite E in Hi; by rewrite Hi in Hne).
  split; [done|]. pose proof (to_history _ _ Hok id) as Hh.
  destruct (history_lifecycle id _ Hh Hrecs) as [(branch & m & at_ & src & rest & Hb & E) ->].
  pose proof (project_entries_lookup (recs_of (v index)) id Hid) as He.
  rewrite lookup_total_alt. destruct (ix_entries (project_entries (recs_of (v index))) !! id) as [e|]; [|done].
  change (default inhabitant (Some e)) with e. rewrite He, Hi, E. assert (Hf : Forall (names_itself id) (lifecycle_of (recs_of (v (threadStream id))))).
  { apply Forall_forall. intros p [_ Hp]%list_elem_of_filter. pose proof (history_names_itself id _ Hh) as H.
    rewrite Forall_forall in H. by apply H. }
  rewrite E in Hf. apply Forall_cons in Hf as [_ Hf]. cbn. by rewrite fold_steps.
Qed.

(** *** Listing a store nobody else is using *)

Context (handle : forall X, ThreadEff X -> X) (envs : nat -> CallEnv).
Hypothesis alive : forall n, ce_ctx (envs n) = None.

Lemma run_replay_loop (s : S) n params i order page out :
  store_ok s ->
  (forall id, id ∈ order -> recs_of (view s (threadStream id)) <> [] /\
     summary (projectSnapshot id (recs_of (view s (threadStream id)))) = entry_summary (ix_entries i !!! id)) ->
  summary <$> page = entry_summary <$> out ->
  exists page', run handle envs n s (replay_loop params order page) = (s, Ok page') /\
    summary <$> page' = entry_summary <$> index_list_loop i params order out.
Proof using alive.
  intros Hs. revert n page out. induction order as [|id order IH]; intros n page out Horder Hpage.
  { by exists page. }
  destruct (Horder id) as [Hne Hsum]; [by left|].
  assert (Horder' : forall id, id ∈ order -> recs_of (view s (threadStream id)) <> [] /\
     summary (projectSnapshot id (recs_of (view s (threadStream id)))) = entry_summary (ix_entries i !!! id))
    by (intros; apply Horder; by right).
  cbn [replay_loop index_list_loop]. unfold loadThread. cbn [bind load run]. rewrite alive, load_all by done.
  rewrite observe_thread_spec by (intros k r Hr; by eapply view_numbered). cbn [ot_records].
  destruct (recs_of (view s (threadStream id))) as [|r0 rs] eqn:E; [done|]. rewrite <- E in *.
  assert (Ha : sn_Archived (projectSnapshot id (recs_of (view s (threadStream id)))) = ie_Archived (ix_entries i !!! id))
    by (unfold summary, entry_summary in Hsum; congruence).
  rewrite Ha. destruct (_ && _); [by apply IH|].
  assert (Hpage' : summary <$> (page ++ [projectSnapshot id (recs_of (view s (threadStream id)))]) =
    entry_summary <$> (out ++ [(ix_entries i !!! id) <| ie_Metadata := cloneAttributes (ie_Metadata (ix_entries i !!! id)) |>])).
  { rewrite !fmap_app, Hpage. f_equal. cbn [fmap list_fmap]. by rewrite Hsum. }
  assert (Hlen : length (page ++ [projectSnapshot id (recs_of (view s (threadStream id)))]) =
    length (out ++ [(ix_entries i !!! id) <| ie_Metadata := cloneAttributes (ie_Metadata (ix_entries i !!! id)) |>])).
  { apply (f_equal length) in Hpage'. by rewrite !length_fmap in Hpage'. }
  rewrite Hlen. destruct (_ && _); [by eexists|]. by apply IH.
Qed.

(** On a store whose streams are consistent, and with nobody else writing, the listing that
    replays every thread and the listing of the read model projected from the index stream show the
    same threads in the same order, with the same identity, branch, archived flag and creation time,
    under the same filter and the same limit; and the replay reads without changing anything. *)
Theorem listings_agree (s : S) n params :
  index <> emp -> store_ok s -> threads_ok index (view s) ->
  exists page i,
    run handle envs n s (listByReplay index params) = (s, Ok page) /\
    index_project None NewThreadIndex (view s index) = Ok i /\
    summary <$> page = summary <$> listFromReadIndex (F := F) i params.
Proof using alive.
  intros Hidx Hs Hok. unfold listByReplay, loadIndex. cbn [bind load run]. rewrite alive, load_all by done.
  destruct (listing_order (view s index)) as (Ho & _ & Hp). cbv zeta in Ho, Hp. rewrite Ho in *.
  set (i := project_entries (recs_of (view s index))) in *.
  destruct (run_replay_loop s (Datatypes.S n) params i (ix_order i) [] []) as (page & Hrun & Hpage); [done| |done|].
  - intros id Hid. destruct (Hp id Hid) as [Hne Hpay]. by apply listed_entry.
  - exists page, i. split; [exact Hrun|]. split; [apply index_project_entries|].
    rewrite Hpage. unfold listFromReadIndex, index_list. change (map entry_snapshot) with (fmap (M := list) (entry_snapshot (F := F))).
    rewrite <- list_fmap_compose. apply list_fmap_ext. by intros k [] ?.
Qed.
End Listing.

(** ** Any number of clients at the same time *)

Section Clients.
Context {F : Type} {GS : GoSyntax (ThreadEvent F)} (index : string).
Context {S : Type} {ES : EventStore S (ThreadEvent F)} {Laws : EventStoreLaws S (ThreadEvent F)}.

(** C15: However any number of creations, appends, forks, archivals and reads interleave, as long as the appends are of
    clients' own events and not of those the store writes itself ([call_ok]), every thread
    stream stays a history (created once, forked from known branches at the point the fork was made,
    appended to known branches), and the index stream holds, for every thread, exactly the creations,
    archivals and unarchivals of its stream in their order: a thread exists if and only if it is
    listed. *)
Theorem threads_consistent (s : S) calls w' ps' :
  store_ok s -> (forall id, index <> threadStream id) -> threads_ok index (view s) -> Forall call_ok calls ->
  rtc (pool_step thread_responds) (fresh s, thread_prog index <$> calls) (w', ps') ->
  threads_ok index (view (w_store w')).
Proof. intros Hs Hidx H0 Hc Hrun. by destruct (thread_pool index Hidx s calls w' ps' Hs H0 Hc Hrun) as (_ & ? & _). Qed.

(** When an append succeeds, on its first attempt, after conflicts with other writers, or by
    finding that its records are already stored, it answers one record for each record passed, with
    its payload, and every record answered is in the thread at the position it says, then and after
    whatever the others do. *)
Theorem append_reads_back (s : S) calls w' ps' i ref records out :
  store_ok s -> (forall id, index <> threadStream id) -> threads_ok index (view s) -> Forall call_ok calls ->
  rtc (pool_step thread_responds) (fresh s, thread_prog index <$> calls) (w', ps') ->
  calls !! i = Some (CallAppend ref records) -> ps' !! i = Some (Ret (AnsRecords (Ok out))) ->
  Forall2 (answers (ref_ID ref)) records out /\ Forall (in_thread w' (ref_ID ref)) out.
Proof.
  intros Hs Hidx H0 Hc Hrun Hi Ha. destruct (thread_pool index Hidx s calls w' ps' Hs H0 Hc Hrun) as (_ & _ & Hpost).
  by apply (Hpost i _ _ Hi Ha).
Qed.

(** An archival or unarchival that reports an error has written nothing. One that succeeds either
    found the thread in the state asked for during the call and wrote nothing, or wrote exactly one
    record that changes the state, together with one record of the index; so repeated and concurrent
    archivals are recorded once. *)
Theorem archive_once (s : S) calls w' ps' i id archived r :
  store_ok s -> (forall id, index <> threadStream id) -> threads_ok index (view s) -> Forall call_ok calls ->
  rtc (pool_step thread_responds) (fresh s, thread_prog index <$> calls) (w', ps') ->
  calls !! i = Some (CallArchive id archived) -> ps' !! i = Some (Ret (AnsDone r)) -> id <> emp ->
  archive_post index i (fresh s) id archived r w'.
Proof.
  intros Hs Hidx H0 Hc Hrun Hi Ha Hid. destruct (thread_pool index Hidx s calls w' ps' Hs H0 Hc Hrun) as (_ & _ & Hpost).
  by apply (Hpost i _ _ Hi Ha).
Qed.
End Clients.

(** ** Witnesses: clients of the in-memory store *)

Module ThreadsDemo.
#[export] Instance unit_syntax : GoSyntax (ThreadEvent unit) := { go_syntax p := ThreadEventName p }.
Abbreviation Store := (MemoryStore (ThreadEvent unit)).
Definition handle (n : nat) (X : Type) (o : ThreadEff X) : X :=
  match o with
  | NewID prefix => (prefix ++ pretty n)%string
  | NowUTC => 100%Z
  | SleepRetry _ => None
  end.
Lemma prefix_append p s : String.prefix p (p ++ s)%string = true.
Proof.
  induction p as [|c p IH]; [by destruct s|]. change (String.prefix (String.String c p) (String.String c (p ++ s)) = true).
  cbn. destruct (Ascii.ascii_dec c c); [exact IH|done].
Qed.
Lemma thread_handle_responds n X o : thread_responds X o (handle n X o).
Proof. destruct o; cbn; [apply prefix_append|done|done]. Qed.

Definition calls : list (ThreadCall (F := unit)) :=
  [CallCreate (mkCreateParams "t" emp ∅ zero_Source 5);
   CallAppend (mkRef "t" emp) [mkAppendRecord "n1" emp (mkRecord "m1" "said" 6 zero_Scope (OtherEvent "said" tt) ∅)];
   CallArchive "t" true; CallArchive "t" true; CallFork (mkForkParams "t" emp "side" zero_Source 0)].
(** The thread is created; then the others read, and write one after the other: all but the first of
    them meet a conflict and retry. *)
Definition schedule : list nat :=
  flat_map (fun '(i, n) => replicate n i)
    [(0, 10); (1, 3); (2, 3); (3, 3); (4, 3); (1, 5); (2, 20); (3, 20); (4, 20); (1, 5)].
Definition start : World (ThreadEvent unit) Store * list (Prog (ThreadEvent unit) ThreadEff ThreadAnswer) :=
  (fresh NewMemoryStore, thread_prog defaultIndexStream <$> calls).
Definition final := run_pool handle (fun n => demo_env (pretty n)) schedule 0 start.
Lemma threads_demo_run :
  rtc (pool_step thread_responds) (fresh NewMemoryStore, thread_prog defaultIndexStream <$> calls) (final.1, final.2).
Proof. rewrite <- surjective_pairing. apply run_pool_sound. apply thread_handle_responds. Qed.
Lemma thread_memory_good : store_ok (NewMemoryStore (P := ThreadEvent unit)).
Proof. apply new_store_wf. Qed.
Lemma index_apart id : defaultIndexStream <> threadStream id.
Proof. by destruct id. Qed.
Lemma no_threads : threads_ok defaultIndexStream (view (NewMemoryStore (P := ThreadEvent unit))).
Proof.
  split.
  - intros id. apply history_nil.
  - reflexivity.
  - constructor.
  - reflexivity.
Qed.
Lemma thread_calls_ok : Forall call_ok calls.
Proof. repeat constructor; cbn; auto. Qed.
End ThreadsDemo.
#[local] Existing Instance ThreadsDemo.unit_syntax.

Lemma threads_consistent_witness :
  length (w_log ThreadsDemo.final.1) = 6 /\
  threads_ok defaultIndexStream (view (w_store ThreadsDemo.final.1)).
Proof.
  split; [vm_compute; reflexivity|].
  apply (threads_consistent defaultIndexStream NewMemoryStore ThreadsDemo.calls ThreadsDemo.final.1 ThreadsDemo.final.2).
  - apply ThreadsDemo.thread_memory_good.
  - apply ThreadsDemo.index_apart.
  - apply ThreadsDemo.no_threads.
  - apply ThreadsDemo.thread_calls_ok.
  - apply ThreadsDemo.threads_demo_run.
Defined.

Lemma append_reads_back_witness :
  exists out, ThreadsDemo.final.2 !! 1 = Some (Ret (AnsRecords (Ok out))) /\ length out = 1 /\
    Forall (in_thread ThreadsDemo.final.1 "t") out.
Proof.
  assert (Hok : match ThreadsDemo.final.2 !! 1 with Some (Ret (AnsRecords (Ok out))) => length out =? 1 | _ => false end = true)
    by (vm_compute; reflexivity).
  destruct (ThreadsDemo.final.2 !! 1) as [p|] eqn:Hp; [|discriminate Hok].
  destruct p as [a| | | |]; try discriminate Hok. destruct a as [|[out|]| |]; try discriminate Hok.
  exists out. split; [reflexivity|]. split; [by apply Nat.eqb_eq|].
  refine (proj2 (append_reads_back defaultIndexStream NewMemoryStore ThreadsDemo.calls ThreadsDemo.final.1 ThreadsDemo.final.2
    1 (mkRef "t" emp) [mkAppendRecord "n1" emp (mkRecord "m1" "said" 6 zero_Scope (OtherEvent "said" tt) ∅)] out
    _ _ _ _ _ eq_refl Hp)).
  - apply ThreadsDemo.thread_memory_good.
  - apply ThreadsDemo.index_apart.
  - apply ThreadsDemo.no_threads.
  - apply ThreadsDemo.thread_calls_ok.
  - apply ThreadsDemo.threads_demo_run.
Defined.

(** The second archival finds the work of the first. *)
Lemma archive_once_witness :
  ThreadsDemo.final.2 !! 3 = Some (Ret (AnsDone (Ok tt))) /\
  archive_post defaultIndexStream 3 (fresh NewMemoryStore) "t" true (Ok tt) ThreadsDemo.final.1.
Proof.
  assert (Hp : ThreadsDemo.final.2 !! 3 = Some (Ret (AnsDone (Ok tt)))) by (vm_compute; reflexivity).
  split; [exact Hp|].
  apply (archive_once defaultIndexStream NewMemoryStore ThreadsDemo.calls ThreadsDemo.final.1 ThreadsDemo.final.2
    3 "t" true (Ok tt)).
  - apply ThreadsDemo.thread_memory_good.
  - apply ThreadsDemo.index_apart.
  - apply ThreadsDemo.no_threads.
  - apply ThreadsDemo.thread_calls_ok.
  - apply ThreadsDemo.threads_demo_run.
  - reflexivity.
  - exact Hp.
  - discriminate.
Defined.

(** The store after those calls, listed both ways. *)
Lemma listings_agree_witness :
  exists page, (run (ThreadsDemo.handle 0) (fun n => demo_env (pretty n)) 0 (w_store ThreadsDemo.final.1)
      (listByReplay defaultIndexStream (mkListParams true 0))).2 = Ok page /\
    summary <$> page = [("t", "main", true, 5%Z)]%string.
Proof.
  destruct (listings_agree defaultIndexStream (ThreadsDemo.handle 0) (fun n => demo_env (pretty n)) (fun n => eq_refl)
    (w_store ThreadsDemo.final.1) 0 (mkListParams true 0)) as (page & i & Hrun & Hi & Hsum).
  - discriminate.
  - destruct (thread_pool defaultIndexStream ThreadsDemo.index_apart NewMemoryStore ThreadsDemo.calls ThreadsDemo.final.1
      ThreadsDemo.final.2) as (Hw & _ & _);
      [apply ThreadsDemo.thread_memory_good|apply ThreadsDemo.no_threads|apply ThreadsDemo.thread_calls_ok
      |apply ThreadsDemo.threads_demo_run|apply Hw].
  - destruct (thread_pool defaultIndexStream ThreadsDemo.index_apart NewMemoryStore ThreadsDemo.calls ThreadsDemo.final.1
      ThreadsDemo.final.2) as (_ & Hok & _);
      [apply ThreadsDemo.thread_memory_good|apply ThreadsDemo.no_threads|apply ThreadsDemo.thread_calls_ok
      |apply ThreadsDemo.threads_demo_run|exact Hok].
  - exists page. split; [by rewrite Hrun|]. rewrite Hsum.
    assert (E : index_project None NewThreadIndex (view (w_store ThreadsDemo.final.1) defaultIndexStream) = Ok i ->
      summary (F := unit) <$> listFromReadIndex i (mkListParams true 0) = [("t", "main", true, 5%Z)]%string).
    { intros Hi'. assert (Hc : match index_project None NewThreadIndex (view (w_store ThreadsDemo.final.1) defaultIndexStream) with
        | Ok i => summary (F := unit) <$> listFromReadIndex i (mkListParams true 0) = [("t", "main", true, 5%Z)]%string
        | Err _ => False end) by (vm_compute; reflexivity). by rewrite Hi' in Hc. }
    exact (E Hi).
Defined.

Lemma position_roundtrip_witness :
  tr_NodeID (toThreadRecord "t" 3 (positioned "t" "side"
    (mkAppendRecord "n1" emp (mkRecord "m1" "said" 6 zero_Scope (OtherEvent "said" tt) {[ "tone"%string := "calm"%string ]})))) =
  "n1"%string.
Proof.
  rewrite (proj1 (position_roundtrip "t" "side" 3
    (mkAppendRecord "n1" emp (mkRecord "m1" "said" 6 zero_Scope (OtherEvent "said" tt) {[ "tone"%string := "calm"%string ]}))
    ltac:(discriminate) ltac:(split; reflexivity))).
  reflexivity.
Defined.

Lemma same_string_map_exact_witness :
  sameStringMap {[ "x"%string := "1"%string ]} {[ "y"%string := "1"%string ]} = false.
Proof.
  apply not_true_iff_false. intros H. apply (same_string_map_exact {[ "x"%string := "1"%string ]}) in H.
  - discriminate (f_equal (fun m : gmap string string => m !! "y"%string) H).
  - intros k v [_ <-]%lookup_singleton_Some. discriminate.
Defined.
