(* ===== verification/Conversation.v ===== *)
(** * Conversations: transcript data and projection
    (src/core/conversation/conversation.go and src/runtime/conversation/projector.go)

    The transcript of a model provider is projected from the events of a thread branch. Projection
    filters by provider, restarts at the last compaction, and refuses transcripts in which tool calls
    and tool results do not match up ([ValidateContinuity]). *)

From S2P Require Import Prelude Event Operation Thread ThreadStore Prog.

(** ** Text functions *)

(** [strings.ToLower]. *)
Class LowerCase := { ToLower : string -> string }.
(** [strings.Contains]. *)
Definition Contains (s sub : string) : bool :=
  match String.index 0 sub s with Some _ => true | None => false end.
(** [strings.Cut] on one byte. *)
Fixpoint Cut (s : string) (sep : ascii) : string * string * bool :=
  match s with
  | String.EmptyString => (emp, emp, false)
  | String.String c rest =>
      if Ascii.eqb c sep then (emp, rest, true)
      else let '(before, after, found) := Cut rest sep in (String.String c before, after, found)
  end.

(** ** Provider identities *)

Record ProviderIdentity := mkProvider { pi_Provider : string; pi_API : string; pi_Family : string; pi_Model : string }.
#[global] Instance ProviderIdentity_eq_dec : EqDecision ProviderIdentity.
Proof. solve_decision. Defined.

Definition slash : ascii := ascii_of_nat 47.
Definition NormalizeProviderModel (provider model : string) : string * string :=
  let provider := TrimSpace provider in
  let model := TrimSpace model in
  let '(before, after, ok) := Cut model slash in
  if ok && bool_decide (before = provider) && negb (bool_decide (after = emp)) then (provider, after)
  else (provider, model).

Definition compatibleField (a b : string) : bool :=
  let a := TrimSpace a in let b := TrimSpace b in
  bool_decide (a = emp) || bool_decide (b = emp) || bool_decide (a = b).
Definition isResponsesAPI (api : string) : bool :=
  bool_decide (api = "responses"%string) || HasSuffix api ".responses" || Contains api "responses".
Definition compatibleAPI `{LowerCase} (a b : string) : bool :=
  let a := ToLower (TrimSpace a) in let b := ToLower (TrimSpace b) in
  if bool_decide (a = emp) || bool_decide (b = emp) || bool_decide (a = b) then true
  else isResponsesAPI a && isResponsesAPI b.

Definition Compatible `{LowerCase} (c requested : ProviderIdentity) : bool :=
  let '(recordedProvider, recordedModel) := NormalizeProviderModel (pi_Provider c) (pi_Model c) in
  let '(requestedProvider, requestedModel) := NormalizeProviderModel (pi_Provider requested) (pi_Model requested) in
  let recordedModel' :=
    if bool_decide (recordedProvider = emp) && negb (bool_decide (requestedProvider = emp))
    then snd (NormalizeProviderModel requestedProvider recordedModel) else recordedModel in
  let requestedModel' :=
    if bool_decide (requestedProvider = emp) && negb (bool_decide (recordedProvider = emp))
    then snd (NormalizeProviderModel recordedProvider requestedModel) else requestedModel in
  if negb (compatibleField recordedProvider requestedProvider) then false
  else if negb (compatibleAPI (pi_API c) (pi_API requested)) then false
  else if negb (compatibleAPI (pi_Family c) (pi_Family requested)) then false
  else compatibleField recordedModel' requestedModel'.

(** ** Items *)

Definition ItemInput : string := "input".
Definition ItemOutput : string := "output".
Definition ItemToolResult : string := "tool_result".
Definition ItemReasoning : string := "reasoning".
Definition ItemNative : string := "native".

Record ToolCallRef := mkToolCallRef { tc_CallID : string; tc_Name : string; tc_Type : string; tc_Input : Value }.

(** A nil [Native] message and an empty one are the same string; so are a nil and an empty map. *)
Record Item := mkItem {
  it_Provider : ProviderIdentity;
  it_Kind : string;
  it_Role : string;
  it_Phase : string;
  it_ID : string;
  it_CallID : string;
  it_Name : string;
  it_ToolCalls : list ToolCallRef;
  it_Content : Value;
  it_Native : string;
  it_Metadata : gmap string string
}.
#[global] Instance rebuild_Item : Rebuild Item := fun i =>
  mkItem i.(it_Provider) i.(it_Kind) i.(it_Role) i.(it_Phase) i.(it_ID) i.(it_CallID) i.(it_Name) i.(it_ToolCalls)
    i.(it_Content) i.(it_Native) i.(it_Metadata).

Definition ToolCallRefs (i : Item) : list ToolCallRef :=
  if decide (it_Kind i <> ItemOutput) then [] else
  match it_ToolCalls i with
  | _ :: _ =>
      map (fun call =>
        mkToolCallRef (TrimSpace (tc_CallID call))
          (if decide (tc_Name call = emp) then it_Name i else tc_Name call)
          (if decide (tc_Type call = emp) then TrimSpace (attribute (it_Metadata i) "provider_call_type") else tc_Type call)
          (tc_Input call)) (it_ToolCalls i)
  | [] =>
      let callID := TrimSpace (it_CallID i) in
      if decide (callID = emp) then [] else
      [mkToolCallRef callID (it_Name i) (TrimSpace (attribute (it_Metadata i) "provider_call_type")) VNil]
  end.

Inductive ContinuityReason :=
| RepairArtifact
| OpenBeforeOutput (openedAt : nat)
| CallMissingID
| DuplicateOpen (first : nat)
| ResultMissingID
| ResultWithoutCall
| OpenBeforeNext (openedAt : nat)
| OpenAtEnd.
Inductive ConversationError :=
| ErrItemKindEmpty
| ErrItemEmpty
| ErrRepairArtifact
| ErrItem (index : nat) (e : ConversationError)
| ErrContinuity (reason : ContinuityReason) (CallID : string) (Index : nat)
| ErrCompactionItem (index : nat) (e : ConversationError)
| ErrCompactionContinuity (e : ConversationError)
| ErrThread (e : ThreadError).

Definition ItemValidate (i : Item) : option ConversationError :=
  if decide (it_Kind i = emp) then Some ErrItemKindEmpty
  else if bool_decide (it_Native i = emp) && is_nil (it_Content i) && bool_decide (it_ID i = emp)
          && bool_decide (it_CallID i = emp) && (match it_ToolCalls i with [] => true | _ => false end)
  then Some ErrItemEmpty else None.

(** ** Continuations *)

Definition ContinuationPreviousResponseID : string := "previous_response_id".
Definition TransportWebSocket : string := "websocket".
Definition ProjectionFullReplay : string := "full_replay".
Definition ProjectionNativeContinuation : string := "native_continuation".

Record ContinuationHandle := mkHandle {
  ch_Provider : ProviderIdentity;
  ch_Mode : string;
  ch_Transport : string;
  ch_ResponseID : string;
  ch_SessionID : string;
  ch_BranchID : string;
  ch_RequestHash : string;
  ch_PrefixHash : string;
  ch_Native : gmap string string
}.
Definition SupportsPreviousResponseID (h : ContinuationHandle) : bool :=
  bool_decide (ch_Mode h = ContinuationPreviousResponseID) && negb (bool_decide (ch_Transport h = TransportWebSocket))
  && negb (bool_decide (TrimSpace (ch_ResponseID h) = emp)).

Record Transcript := mkTranscript {
  ts_Provider : ProviderIdentity;
  ts_Items : list Item;
  ts_NewItems : list Item;
  ts_Continuation : option ContinuationHandle;
  ts_Mode : string
}.
#[global] Instance rebuild_Transcript : Rebuild Transcript := fun t =>
  mkTranscript t.(ts_Provider) t.(ts_Items) t.(ts_NewItems) t.(ts_Continuation) t.(ts_Mode).
Definition TranscriptEmpty (t : Transcript) : bool :=
  match ts_Items t, ts_Continuation t with [], None => true | _, _ => false end.

(** ** Events *)

Record CompactionStats := mkStats {
  cs_OriginalItems : Z; cs_CompactedItems : Z; cs_OriginalTokens : Z; cs_CompactedTokens : Z;
  cs_OmittedItems : Z; cs_SummarizedItems : Z; cs_Compacted : bool; cs_CheckpointPersist : bool }.

Inductive ConversationEvent :=
| ItemsAppended (TurnID : string) (Provider : ProviderIdentity) (Items : list Item)
| ContinuationStored (TurnID : string) (Handle : ContinuationHandle)
| CompactionStored (TurnID : string) (Provider : ProviderIdentity) (Items : list Item) (Stats : CompactionStats).
Definition ConversationEventName (e : ConversationEvent) : string :=
  match e with
  | ItemsAppended _ _ _ => "conversation.items.appended"
  | ContinuationStored _ _ => "conversation.continuation.stored"
  | CompactionStored _ _ _ _ => "conversation.compaction.stored"
  end.

(** Conversation events among the other payloads of a thread; a nil pointer is none of them. *)
Class ConversationPayload (F : Type) := {
  conversation_payload : ConversationEvent -> F;
  as_conversation : F -> option ConversationEvent
}.
Class ConversationPayloadLaws (F : Type) `{ConversationPayload F} : Prop := {
  as_conversation_payload e : as_conversation (conversation_payload e) = Some e
}.
#[export] Instance conversation_event_payload : ConversationPayload ConversationEvent :=
  { conversation_payload e := e; as_conversation e := Some e }.
#[export] Instance conversation_event_payload_laws : ConversationPayloadLaws ConversationEvent.
Proof. by split. Qed.

(** ** Continuity *)

(** [callID < earliestID] on strings. *)
Definition string_less (a b : string) : bool :=
  match String.compare a b with Lt => true | _ => false end.

(** One turn of the loop of [earliestOpen]; [None] is [!seeded]. *)
Definition earlier (acc : option (string * nat)) (entry : string * nat) : option (string * nat) :=
  match acc with
  | None => Some entry
  | Some (earliestID, earliestIndex) =>
      if (entry.2 <? earliestIndex) || ((entry.2 =? earliestIndex) && string_less entry.1 earliestID)
      then Some entry else acc
  end.
(** The loop over the entries of a map, in whatever order the runtime visits them. *)
Definition earliest_of (entries : list (string * nat)) : string * nat :=
  default (emp, 0) (fold_left earlier entries None).
Definition earliestOpen (open : gmap string nat) : string * nat := earliest_of (map_to_list open).

Definition ensureItemProvider (item : Item) (provider : ProviderIdentity) : Item :=
  if decide (pi_Provider (it_Provider item) = emp) then item <| it_Provider := provider |> else item.

Definition is_repair (item : Item) : bool := negb (bool_decide (attribute (it_Metadata item) "repair" = emp)).

(** The loop over the calls of one output item at index [i]. *)
Fixpoint open_calls (i : nat) (calls : list ToolCallRef) (open : gmap string nat)
    : Result ConversationError (gmap string nat) :=
  match calls with
  | [] => Ok open
  | call :: rest =>
      let callID := TrimSpace (tc_CallID call) in
      if decide (callID = emp) then Err (ErrContinuity CallMissingID emp i) else
      match open !! callID with
      | Some prior => Err (ErrContinuity (DuplicateOpen prior) callID i)
      | None => open_calls i rest (<[callID := i]> open)
      end
  end.

(** The body of the loop of [ValidateContinuity]. *)
Definition continuity_step (provider : ProviderIdentity) (i : nat) (original : Item) (open : gmap string nat)
    : Result ConversationError (gmap string nat) :=
  let item := ensureItemProvider original provider in
  if is_repair item then Err (ErrContinuity RepairArtifact (it_CallID item) i)
  else if decide (it_Kind item = ItemOutput) then
    let calls := ToolCallRefs item in
    if negb (bool_decide (open = ∅)) && (match calls with [] => true | _ => false end) then
      let '(callID, openedAt) := earliestOpen open in Err (ErrContinuity (OpenBeforeOutput openedAt) callID i)
    else open_calls i calls open
  else if decide (it_Kind item = ItemToolResult) then
    let callID := TrimSpace (it_CallID item) in
    if decide (callID = emp) then Err (ErrContinuity ResultMissingID emp i) else
    match open !! callID with
    | None => Err (ErrContinuity ResultWithoutCall callID i)
    | Some _ => Ok (delete callID open)
    end
  else if decide (open = ∅) then Ok open
  else let '(callID, openedAt) := earliestOpen open in Err (ErrContinuity (OpenBeforeNext openedAt) callID i).

Fixpoint continuity_loop (provider : ProviderIdentity) (i : nat) (items : list Item) (open : gmap string nat)
    : Result ConversationError (gmap string nat) :=
  match items with
  | [] => Ok open
  | item :: rest => let? open := continuity_step provider i item open in continuity_loop provider (S i) rest open
  end.

(** [None] is a nil error. *)
Definition ValidateContinuity (items : list Item) (provider : ProviderIdentity) : option ConversationError :=
  match continuity_loop provider 0 items ∅ with
  | Err e => Some e
  | Ok open =>
      if decide (open = ∅) then None
      else let '(callID, openedAt) := earliestOpen open in Some (ErrContinuity OpenAtEnd callID openedAt)
  end.

(** ** Projection *)

Section Projection.
Context {F : Type} {CP : ConversationPayload F} {LC : LowerCase}.

Definition filterCompatible (items : list Item) (provider : ProviderIdentity) : list Item :=
  List.filter (fun item => Compatible (it_Provider item) provider) items.

(** One turn of the loop of [replay]. *)
Definition replay_record (provider : ProviderIdentity) (acc : list Item * option ContinuationHandle)
    (record : ThreadRecord F) : list Item * option ContinuationHandle :=
  let '(items, head) := acc in
  match rec_Payload (tr_Event record) with
  | OtherEvent _ f =>
      match as_conversation f with
      | Some (ItemsAppended _ p its) =>
          if negb (Compatible p provider) then acc else (items ++ filterCompatible its provider, head)
      | Some (CompactionStored _ p its _) =>
          if negb (Compatible p provider) then acc else (filterCompatible its provider, None)
      | Some (ContinuationStored _ handle) =>
          if Compatible (ch_Provider handle) provider then (items, Some handle) else acc
      | None => acc
      end
  | _ => acc
  end.
(** [None] is a walk over the branches that does not end within the fuel. *)
Definition replay (fuel : nat) (snapshot : Snapshot F) (branchID : string) (provider : ProviderIdentity)
    : option (Result ThreadError (list Item * option ContinuationHandle)) :=
  match EventsForBranch fuel snapshot branchID with
  | None => None
  | Some (Err e) => Some (Err e)
  | Some (Ok records) => Some (Ok (fold_left (replay_record provider) records ([], None)))
  end.

Record ProjectionInput := mkProjectionInput {
  pj_Thread : Snapshot F;
  pj_BranchID : string;
  pj_Provider : ProviderIdentity;
  pj_Pending : list Item;
  pj_PendingCommitted : bool;
  pj_PendingCommittedCount : Z;
  pj_Mode : string;
  pj_AllowEmpty : bool
}.
Record ProjectionResult := mkProjectionResult {
  pr_Items : list Item;
  pr_NewItems : list Item;
  pr_Continuation : option ContinuationHandle;
  pr_Mode : string
}.

(** How many pending items are already in the thread, within bounds. *)
Definition committed_count (input : ProjectionInput) (pending : list Item) : Z :=
  let n := Z.of_nat (length pending) in
  let c := pj_PendingCommittedCount input in
  let c := if pj_PendingCommitted input && (c =? 0)%Z then n else c in
  let c := if (c <? 0)%Z then 0%Z else c in
  if (n <? c)%Z then n else c.

Definition ProjectTranscript (fuel : nat) (input : ProjectionInput) : option (Result ConversationError ProjectionResult) :=
  match replay fuel (pj_Thread input) (pj_BranchID input) (pj_Provider input) with
  | None => None
  | Some (Err e) => Some (Err (ErrThread e))
  | Some (Ok (items, head)) =>
      let pending := filterCompatible (pj_Pending input) (pj_Provider input) in
      let uncommittedPending := drop (Z.to_nat (committed_count input pending)) pending in
      let canonical := items ++ uncommittedPending in
      Some
        match ValidateContinuity canonical (pj_Provider input) with
        | Some e => Err e
        | None =>
            match head with
            | Some h =>
                if bool_decide (pj_Mode input = ProjectionNativeContinuation) && SupportsPreviousResponseID h
                then Ok (mkProjectionResult pending uncommittedPending (Some h) ProjectionNativeContinuation)
                else Ok (mkProjectionResult canonical uncommittedPending None ProjectionFullReplay)
            | None => Ok (mkProjectionResult canonical uncommittedPending None ProjectionFullReplay)
            end
        end
  end.
Definition TranscriptOf (r : ProjectionResult) (provider : ProviderIdentity) : Transcript :=
  mkTranscript provider (pr_Items r) (pr_NewItems r) (pr_Continuation r) (pr_Mode r).

(** ** Writing *)

Definition conversation_record (threadID turnID : string) (e : ConversationEvent) : AppendRecord F :=
  mkAppendRecord emp emp (mkRecord emp (ConversationEventName e) 0 (mkScope threadID turnID emp)
    (OtherEvent (ConversationEventName e) (conversation_payload e)) ∅).

Fixpoint first_item_error (i : nat) (items : list Item) : option ConversationError :=
  match items with
  | [] => None
  | item :: rest =>
      match ItemValidate item with
      | Some e => Some (ErrItem i e)
      | None => if is_repair item then Some (ErrItem i ErrRepairArtifact) else first_item_error (S i) rest
      end
  end.
Definition AppendRecords (turnID : string) (provider : ProviderIdentity) (items : list Item)
    (handles : list ContinuationHandle) : Result ConversationError (list (AppendRecord F)) :=
  let? records :=
    match items with
    | [] => Ok []
    | _ =>
        match first_item_error 0 items with
        | Some e => Err e
        | None => Ok [conversation_record emp turnID (ItemsAppended turnID provider items)]
        end
    end in
  Ok (records ++ map (fun h => conversation_record emp turnID (ContinuationStored turnID h)) handles).

Context {GS : GoSyntax (ThreadEvent F)}.
Abbreviation Act := (Prog (ThreadEvent F) ThreadEff).

Definition thread_answer {A} (r : Result ThreadError A) : Result ConversationError unit :=
  match r with Ok _ => Ok tt | Err e => Err (ErrThread e) end.

(** [Append] of package conversation; the store is never nil here. *)
Definition ConversationAppend (ref : Ref) (turnID : string) (provider : ProviderIdentity) (items : list Item)
    (handles : list ContinuationHandle) : Act (Result ConversationError unit) :=
  if decide (ref_ID ref = emp) then Ret (Ok tt) else
  match AppendRecords turnID provider items handles with
  | Err e => Ret (Err e)
  | Ok [] => Ret (Ok tt)
  | Ok records => let! r := ThreadAppend ref records in Ret (thread_answer r)
  end.

Fixpoint first_compaction_error (i : nat) (items : list Item) : option ConversationError :=
  match items with
  | [] => None
  | item :: rest =>
      match ItemValidate item with
      | Some e => Some (ErrCompactionItem i e)
      | None => first_compaction_error (S i) rest
      end
  end.
Definition AppendCompaction (ref : Ref) (turnID : string) (provider : ProviderIdentity) (items : list Item)
    (stats : CompactionStats) : Act (Result ConversationError unit) :=
  if decide (ref_ID ref = emp) then Ret (Ok tt) else
  match first_compaction_error 0 items with
  | Some e => Ret (Err e)
  | None =>
      match ValidateContinuity items provider with
      | Some e => Ret (Err (ErrCompactionContinuity e))
      | None =>
          let! r := ThreadAppend ref [conversation_record (ref_ID ref) turnID (CompactionStored turnID provider items stats)] in
          Ret (thread_answer r)
      end
  end.
End Projection.
Arguments ProjectionInput : clear implicits.
