(* ===== verification/Continuity.v ===== *)
(** * Continuity of transcripts

    [ValidateContinuity] scans a transcript once with a map of open tool calls. This file proves that
    it accepts exactly the transcripts in which calls and results match by position
    ([well_paired]), and that its answer does not depend on the order in which the runtime visits the
    map. *)

From S2P Require Import Prelude Event Operation Thread ThreadStore Prog Conversation.

(** ** The earliest open call *)

Lemma string_less_irrefl a : string_less a a = false.
Proof.
  unfold string_less. assert (String.compare a a = Eq) as ->; [|done].
  induction a as [|c a IH]; [done|]. cbn. unfold Ascii.compare. by rewrite N.compare_refl.
Qed.

Section Earliest.
(** Entries are ordered by index, then by identifier. *)
Definition entry_before (x y : string * nat) : Prop :=
  x.2 < y.2 \/ (x.2 = y.2 /\ string_less x.1 y.1 = true).

Lemma string_less_trans a b c : string_less a b = true -> string_less b c = true -> string_less a c = true.
Proof.
  unfold string_less. destruct (String.compare a b) eqn:E1; try done. destruct (String.compare b c) eqn:E2; try done.
  intros _ _. revert b c E1 E2. induction a as [|x a IH]; intros [|y b] [|z c]; cbn; try done.
  destruct (Ascii.compare x y) eqn:Exy; try done; destruct (Ascii.compare y z) eqn:Eyz; try done; intros E1 E2.
  - apply Ascii.compare_eq_iff in Exy as ->. rewrite Eyz. by eapply IH.
  - apply Ascii.compare_eq_iff in Exy as ->. by rewrite Eyz.
  - apply Ascii.compare_eq_iff in Eyz as <-. by rewrite Exy.
  - assert (Ascii.compare x z = Lt) as ->; [|done]. unfold Ascii.compare in *. rewrite N.compare_lt_iff in *. lia.
Qed.
Lemma string_less_total a b : a <> b -> string_less a b = true \/ string_less b a = true.
Proof.
  intros Hne. unfold string_less. rewrite (String.compare_antisym a b).
  destruct (String.compare b a) eqn:E; cbn; auto. by apply String.compare_eq_iff in E.
Qed.

Lemma earlier_spec e x :
  earlier (Some e) x = Some (if (x.2 <? e.2) || ((x.2 =? e.2) && string_less x.1 e.1) then x else e).
Proof. destruct e as [id k]. cbn. by destruct (_ || _). Qed.
Lemma earlier_before e x :
  (x.2 <? e.2) || ((x.2 =? e.2) && string_less x.1 e.1) = true <-> entry_before x e.
Proof. unfold entry_before. rewrite orb_true_iff, andb_true_iff, Nat.ltb_lt, Nat.eqb_eq. done. Qed.

(** The result is a least entry. *)
Lemma earliest_least l e0 :
  exists e, fold_left earlier l (Some e0) = Some e /\ e ∈ e0 :: l /\ forall x, x ∈ e0 :: l -> ~ entry_before x e.
Proof.
  assert (Hirr : forall e, ~ entry_before e e).
  { intros e [H|[_ H]]; [lia|]. by rewrite string_less_irrefl in H. }
  revert e0. induction l as [|x l IH]; intros e0; cbn [fold_left].
  { exists e0. split; [done|]. split; [by left|]. intros x ->%list_elem_of_singleton. apply Hirr. }
  rewrite earlier_spec. destruct (_ || _) eqn:E.
  - apply earlier_before in E. destruct (IH x) as (e & He & Hin & Hmin). exists e. split; [done|]. split; [by right|].
    intros y [->|Hy]%elem_of_cons; [|by apply Hmin]. intros H. apply (Hmin x); [by left|].
    destruct E as [E|[E1 E2]], H as [H|[H1 H2]]; unfold entry_before in *; try (left; lia).
    right. split; [lia|]. by eapply string_less_trans.
  - assert (Hnb : ~ entry_before x e0) by (rewrite <- earlier_before; by rewrite E).
    destruct (IH e0) as (e & He & Hin & Hmin). exists e. split; [done|]. split; [set_solver|].
    intros y [->|[->|Hy]%elem_of_cons]%elem_of_cons; [apply Hmin; by left| |apply Hmin; by right].
    intros H. apply elem_of_cons in Hin as [->|Hin]; [done|].
    assert (He0 : ~ entry_before e0 e) by (apply Hmin; by left).
    destruct (decide (x.1 = e0.1)) as [Eid|Hid]; unfold entry_before in *.
    + destruct x as [xi xk], e0 as [ei ek], e as [i k]; cbn in *. subst.
      destruct (decide (xk = ek)) as [->|]; [tauto|]. destruct (decide (ek < xk)); [|lia]. destruct H as [H|[-> H]]; lia.
    + destruct (string_less_total _ _ Hid) as [Hl|Hl].
      * destruct (decide (x.2 <= e0.2)) as [Hle|]; [|lia]. destruct (decide (x.2 = e0.2)); [tauto|lia].
      * destruct (decide (x.2 < e0.2)); [tauto|]. destruct (decide (x.2 = e0.2)) as [E2|].
        -- destruct H as [H|[H1 H2]]; [lia|]. apply He0. right. split; [lia|]. by eapply string_less_trans.
        -- destruct H as [H|[H1 H2]]; lia.
Qed.

Lemma entry_before_total x y : x <> y -> entry_before x y \/ entry_before y x.
Proof.
  destruct x as [i k], y as [j l]. unfold entry_before. cbn. intros Hne.
  destruct (lt_eq_lt_dec k l) as [[H| ->]|H]; [by left; left| |by right; left].
  destruct (string_less_total i j) as [H|H]; [congruence|left; by right|right; by right].
Qed.

(** Whatever order the runtime visits the open calls in, [earliestOpen] answers the same one: the
    call opened first, and among those opened by one item the smallest identifier; so the error of
    [ValidateContinuity] is determined by the transcript. *)
Theorem earliest_open_deterministic l1 l2 : l1 ≡ₚ l2 -> earliest_of l1 = earliest_of l2.
Proof.
  intros Hp. unfold earliest_of. destruct l1 as [|x l1].
  { by apply Permutation_nil in Hp as ->. }
  destruct l2 as [|y l2]; [by apply Permutation_nil_r in Hp|]. cbn [fold_left earlier].
  destruct (earliest_least l1 x) as (e & -> & Hin & Hmin), (earliest_least l2 y) as (e' & -> & Hin' & Hmin').
  cbn. destruct (decide (e = e')) as [->|Hne]; [done|]. exfalso.
  rewrite Hp in Hin. rewrite <- Hp in Hin'.
  destruct (entry_before_total e e' Hne) as [H|H]; [by apply (Hmin' e)|by apply (Hmin e')].
Qed.
End Earliest.

(** ** Matching calls and results by position *)

Definition call_ids (item : Item) : list string := (fun c => TrimSpace (tc_CallID c)) <$> ToolCallRefs item.
Definition answers_call (item : Item) (c : string) : Prop :=
  it_Kind item = ItemToolResult /\ TrimSpace (it_CallID item) = c.
(** Anything that is neither an output with calls nor a tool result. *)
Definition interrupts (item : Item) : Prop := call_ids item = [] /\ it_Kind item <> ItemToolResult.

Section Pairing.
Context (items : list Item).

(** Call [c] of the item at [i] is open before position [n]. *)
Definition pending (i : nat) (c : string) (n : nat) : Prop :=
  (exists item, items !! i = Some item /\ c ∈ call_ids item) /\
  forall k item, i < k < n -> items !! k = Some item ->
    ~ answers_call item c /\ c ∉ call_ids item /\ ~ interrupts item.

Record well_paired : Prop := {
  wpd_item i item : items !! i = Some item ->
    is_repair item = false /\ NoDup (call_ids item) /\ emp ∉ call_ids item /\
    (it_Kind item = ItemToolResult -> TrimSpace (it_CallID item) <> emp);
  wpd_call i item c : items !! i = Some item -> c ∈ call_ids item ->
    exists j item', i < j /\ items !! j = Some item' /\ answers_call item' c /\ pending i c j;
  wpd_result j item c : items !! j = Some item -> answers_call item c ->
    exists i, i < j /\ pending i c j
}.

Lemma pending_unique i i' c n : i < n -> i' < n -> pending i c n -> pending i' c n -> i = i'.
Proof.
  intros Hi Hi' [(it & Hit & Hc) H] [(it' & Hit' & Hc') H'].
  destruct (lt_eq_lt_dec i i') as [[Hlt| ->]|Hlt]; [|done|].
  - destruct (H i' it') as (_ & Hn & _); [lia|done|]. done.
  - destruct (H' i it) as (_ & Hn & _); [lia|done|]. done.
Qed.

Lemma pending_prev i c n : pending i c (S n) -> pending i c n.
Proof. intros [Hc H]. split; [done|]. intros k it Hk. apply H. lia. Qed.
Lemma pending_next i c n item :
  items !! n = Some item -> pending i c n -> i < n -> ~ answers_call item c -> c ∉ call_ids item -> ~ interrupts item ->
  pending i c (S n).
Proof.
  intros Hn [Hc H] Hi Ha Hnc Hni. split; [done|]. intros k it Hk Hit.
  destruct (decide (k = n)) as [->|]; [by simplify_eq|]. apply (H k); [lia|done].
Qed.
Lemma pending_at i c n item :
  items !! n = Some item -> pending i c (S n) -> i < n -> ~ answers_call item c /\ c ∉ call_ids item /\ ~ interrupts item.
Proof. intros Hn [_ H] Hi. apply (H n); [lia|done]. Qed.
Lemma pending_here c n item : items !! n = Some item -> c ∈ call_ids item -> pending n c (S n).
Proof. intros Hn Hc. split; [by exists item|]. intros k it Hk. lia. Qed.

(** ** The scan *)

Definition scan_inv (n : nat) (open : gmap string nat) : Prop :=
  forall c i, open !! c = Some i <-> i < n /\ pending i c n.

Lemma scan_empty n open : scan_inv n open -> open = ∅ <-> forall c i, i < n -> ~ pending i c n.
Proof.
  intros Hinv. split.
  - intros -> c i Hi Hp. assert (H : (∅ : gmap string nat) !! c = Some i) by (apply Hinv; done). by rewrite lookup_empty in H.
  - intros H. apply map_eq. intros c. rewrite lookup_empty. destruct (open !! c) as [i|] eqn:E; [|done].
    apply Hinv in E as [Hi Hp]. by destruct (H c i Hi).
Qed.

Lemma ensure_same item provider :
  ToolCallRefs (ensureItemProvider item provider) = ToolCallRefs item /\
  it_Kind (ensureItemProvider item provider) = it_Kind item /\
  it_CallID (ensureItemProvider item provider) = it_CallID item /\
  is_repair (ensureItemProvider item provider) = is_repair item.
Proof. unfold ensureItemProvider. by case_decide. Qed.

Lemma open_calls_ok i calls open open' :
  open_calls i calls open = Ok open' ->
  let ids := (fun c => TrimSpace (tc_CallID c)) <$> calls in
  emp ∉ ids /\ NoDup ids /\ (forall c, c ∈ ids -> open !! c = None) /\
  forall c, open' !! c = if decide (c ∈ ids) then Some i else open !! c.
Proof.
  cbv zeta. revert open. induction calls as [|call calls IH]; intros open; cbn.
  { intros [= <-]. split; [set_solver|]. split; [constructor|]. split; [set_solver|]. intros c. by rewrite decide_False by set_solver. }
  case_decide as Hne; [done|]. destruct (open !! TrimSpace (tc_CallID call)) as [prior|] eqn:E; [done|].
  intros (H1 & H2 & H3 & H4)%IH. set (id := TrimSpace (tc_CallID call)) in *.
  assert (Hid : id ∉ ((fun c => TrimSpace (tc_CallID c)) <$> calls)).
  { intros Hin. apply H3 in Hin. by rewrite lookup_insert_eq in Hin. }
  split; [set_solver|]. split; [by constructor|]. split.
  - intros c [->|Hc]%elem_of_cons; [done|]. specialize (H3 c Hc). by apply lookup_insert_None in H3 as [? _].
  - intros c. rewrite H4. destruct (decide (c = id)) as [->|Hc].
    + by rewrite decide_False, lookup_insert_eq, decide_True by set_solver.
    + rewrite lookup_insert_ne by done. repeat case_decide; set_solver.
Qed.
Lemma open_calls_total i calls open :
  let ids := (fun c => TrimSpace (tc_CallID c)) <$> calls in
  emp ∉ ids -> NoDup ids -> (forall c, c ∈ ids -> open !! c = None) -> exists open', open_calls i calls open = Ok open'.
Proof.
  cbv zeta. revert open. induction calls as [|call calls IH]; intros open H1 H2 H3; cbn; [by eexists|].
  rewrite fmap_cons in *. apply NoDup_cons in H2 as [Hnin Hnd]. rewrite decide_False by set_solver.
  rewrite H3 by by left. apply IH; [set_solver|done|]. intros c Hc. rewrite lookup_insert_ne by (intros <-; done).
  apply H3. by right.
Qed.

(** What one item owes, given what is open before it. *)
Record item_fits (n : nat) (item : Item) : Prop := {
  fit_repair : is_repair item = false;
  fit_ids : NoDup (call_ids item) /\ emp ∉ call_ids item;
  fit_result : it_Kind item = ItemToolResult -> TrimSpace (it_CallID item) <> emp;
  fit_interrupts c i : interrupts item -> i < n -> ~ pending i c n;
  fit_answers c : answers_call item c -> exists i, i < n /\ pending i c n;
  fit_calls c i : c ∈ call_ids item -> i < n -> ~ pending i c n
}.

Lemma scan_next n item open open' :
  items !! n = Some item -> scan_inv n open ->
  (forall c i, open' !! c = Some i <->
     (i = n /\ c ∈ call_ids item) \/ (open !! c = Some i /\ ~ answers_call item c /\ c ∉ call_ids item /\ ~ interrupts item)) ->
  scan_inv (S n) open'.
Proof.
  intros Hn Hinv Hchar c i. rewrite Hchar. split.
  - intros [[-> Hc]|(Ho & Ha & Hc & Hi)]; [split; [lia|by eapply pending_here]|].
    apply Hinv in Ho as [Hlt Hp]. split; [lia|by eapply pending_next].
  - intros [Hi Hp]. destruct (decide (i = n)) as [->|Hne].
    + left. split; [done|]. destruct Hp as [(it & Hit & Hc) _]. by simplify_eq.
    + right. destruct (pending_at i c n item Hn Hp) as (Ha & Hc & Hni); [lia|].
      split; [|done]. apply Hinv. split; [lia|by apply pending_prev].
Qed.

Lemma call_ids_other item : it_Kind item <> ItemOutput -> call_ids item = [].
Proof. intros H. unfold call_ids, ToolCallRefs. by rewrite decide_True. Qed.

Lemma step_ok provider n item open open' :
  items !! n = Some item -> scan_inv n open -> continuity_step provider n item open = Ok open' ->
  item_fits n item /\ scan_inv (S n) open'.
Proof.
  intros Hn Hinv. unfold continuity_step. destruct (ensure_same item provider) as (Erefs & Ekind & Eid & Erep).
  rewrite Erefs, Ekind, Eid, Erep. destruct (is_repair item) eqn:Hrep; [done|].
  destruct (decide (it_Kind item = ItemOutput)) as [Ho|Ho].
  - assert (Hnr : it_Kind item <> ItemToolResult) by (rewrite Ho; done).
    destruct (negb _ && _) eqn:Hblock; [by destruct (earliestOpen open)|].
    intros Hoc. destruct (open_calls_ok _ _ _ _ Hoc) as (H1 & H2 & H3 & H4). fold (call_ids item) in *.
    assert (Hempty : interrupts item -> open = ∅).
    { intros [Hnil _]. unfold call_ids in Hnil. apply fmap_nil_inv in Hnil. rewrite Hnil, andb_true_r in Hblock.
      by apply negb_false_iff, bool_decide_eq_true in Hblock. }
    split; [split; try done|].
    + intros c i Hint. by apply (proj1 (scan_empty n open Hinv) (Hempty Hint)).
    + intros c [? _]. done.
    + intros c i Hc Hi Hp. apply H3 in Hc. assert (open !! c = Some i) by (by apply Hinv). congruence.
    + eapply scan_next; [done|done|]. intros c i. rewrite H4. destruct (decide (c ∈ call_ids item)) as [Hc|Hc].
      * split; [intros [= <-]; by left|]. intros [[-> _]|(_ & _ & ? & _)]; [done|done].
      * split.
        -- intros Hoi. right. split; [done|]. split; [by intros [? _]|]. split; [done|]. intros Hint.
           by rewrite (Hempty Hint), lookup_empty in Hoi.
        -- by intros [[_ ?]|(? & _)].
  - pose proof (call_ids_other item Ho) as Hids. destruct (decide (it_Kind item = ItemToolResult)) as [Hr|Hr].
    + destruct (decide (TrimSpace (it_CallID item) = emp)) as [|Hid]; [done|].
      destruct (open !! TrimSpace (it_CallID item)) as [k|] eqn:Ek; [|done]. intros [= <-].
      apply Hinv in Ek as Hk. split; [split; try done|].
      * rewrite Hids. split; [constructor|set_solver].
      * by intros c i [_ ?].
      * intros c [_ <-]. by exists k.
      * rewrite Hids. set_solver.
      * eapply scan_next; [done|done|]. intros c i. rewrite Hids, lookup_delete_Some. split.
        -- intros [Hne Hoi]. right. split; [done|]. split; [by intros [_ ?]|]. split; [set_solver|by intros [_ ?]].
        -- intros [[_ ?]|(Hoi & Ha & _)]; [set_solver|]. split; [|done]. intros E. by apply Ha.
    + destruct (decide (open = ∅)) as [->|]; [|by destruct (earliestOpen open)]. intros [= <-].
      split; [split; try done|].
      * rewrite Hids. split; [constructor|set_solver].
      * intros c i _. by apply (proj1 (scan_empty n ∅ Hinv)).
      * by intros c [? _].
      * rewrite Hids. set_solver.
      * eapply scan_next; [done|done|]. intros c i. rewrite Hids, lookup_empty. split; [done|].
        intros [[_ ?]|(? & _)]; [set_solver|done].
Qed.

Lemma step_total provider n item open :
  items !! n = Some item -> scan_inv n open -> item_fits n item ->
  exists open', continuity_step provider n item open = Ok open'.
Proof.
  intros Hn Hinv [Hrep [Hnd Hemp] Hres Hint Hans Hcall]. unfold continuity_step.
  destruct (ensure_same item provider) as (Erefs & Ekind & Eid & Erep). rewrite Erefs, Ekind, Eid, Erep, Hrep.
  destruct (decide (it_Kind item = ItemOutput)) as [Ho|Ho].
  - assert (Hblock : negb (bool_decide (open = ∅)) && (match ToolCallRefs item with [] => true | _ => false end) = false).
    { destruct (ToolCallRefs item) eqn:Er; [|apply andb_false_r]. rewrite andb_true_r. apply negb_false_iff, bool_decide_eq_true.
      apply (proj2 (scan_empty n open Hinv)). intros c i Hi. apply Hint; [|done].
      split; [unfold call_ids; by rewrite Er|by rewrite Ho]. }
    rewrite Hblock. apply open_calls_total; [done|done|]. intros c Hc. destruct (open !! c) as [i|] eqn:E; [|done].
    apply Hinv in E as [Hi Hp]. by destruct (Hcall c i).
  - destruct (decide (it_Kind item = ItemToolResult)) as [Hr|Hr].
    + rewrite decide_False by auto. destruct (Hans (TrimSpace (it_CallID item))) as (i & Hi & Hp); [done|].
      rewrite (proj2 (Hinv _ _) (conj Hi Hp)). by eexists.
    + rewrite decide_True; [by eexists|]. apply (proj2 (scan_empty n open Hinv)). intros c i Hi. apply Hint; [|done].
      split; [by apply call_ids_other|done].
Qed.

(** The loop from position [n] on. *)
Lemma loop_ok provider n open rest :
  (exists before, items = before ++ rest /\ length before = n) -> scan_inv n open ->
  forall final, continuity_loop provider n rest open = Ok final ->
  scan_inv (length items) final /\ forall k item, n <= k -> items !! k = Some item -> item_fits k item.
Proof.
  revert n open. induction rest as [|item rest IH]; intros n open (before & Heq & Hlen) Hinv final; cbn.
  - intros [= <-]. rewrite app_nil_r in Heq. subst before. rewrite Hlen. split; [done|].
    intros k item Hk Hitem. apply lookup_lt_Some in Hitem. lia.
  - intros (open' & Hstep & Hrest)%res_bind_ok.
    assert (Hn : items !! n = Some item) by (rewrite Heq, <- Hlen; by apply list_lookup_middle).
    destruct (step_ok _ _ _ _ _ Hn Hinv Hstep) as [Hfit Hinv'].
    destruct (IH (S n) open') with (final := final) as [Hfin Hall]; [|done|done|].
    { exists (before ++ [item]). rewrite <- app_assoc, length_app. cbn. split; [done|lia]. }
    split; [done|]. intros k it Hk Hit. destruct (decide (k = n)) as [->|]; [by simplify_eq|apply Hall; [lia|done]].
Qed.

Lemma loop_total provider n open rest :
  (exists before, items = before ++ rest /\ length before = n) -> scan_inv n open ->
  (forall k item, n <= k -> items !! k = Some item -> item_fits k item) ->
  exists final, continuity_loop provider n rest open = Ok final /\ scan_inv (length items) final.
Proof.
  revert n open. induction rest as [|item rest IH]; intros n open (before & Heq & Hlen) Hinv Hall; cbn.
  - exists open. rewrite app_nil_r in Heq. subst before. by rewrite Hlen.
  - assert (Hn : items !! n = Some item) by (rewrite Heq, <- Hlen; by apply list_lookup_middle).
    destruct (step_total provider n item open Hn Hinv) as (open' & Hstep); [by apply Hall|].
    destruct (step_ok _ _ _ _ _ Hn Hinv Hstep) as [_ Hinv']. rewrite Hstep. cbn. apply IH; [|done|].
    + exists (before ++ [item]). rewrite <- app_assoc, length_app. cbn. split; [done|lia].
    + intros k it Hk. apply Hall. lia.
Qed.

#[local] Instance answers_call_dec item c : Decision (answers_call item c).
Proof. unfold answers_call. apply _. Defined.

(** A call stays open until it is answered. *)
Lemma answered_or_pending i c m :
  (forall k item, items !! k = Some item -> item_fits k item) -> i < m -> m <= length items ->
  pending i c (S i) ->
  pending i c m \/ exists j item, i < j /\ items !! j = Some item /\ answers_call item c /\ pending i c j.
Proof.
  intros Hfit Hi Hm Hp. induction m as [|m IH]; [lia|].
  destruct (decide (i = m)) as [<-|Hne]; [by left|].
  destruct IH as [Hpm|?]; [lia|lia| |by right].
  destruct (items !! m) as [item|] eqn:Hitem; [|apply lookup_ge_None in Hitem; lia].
  destruct (decide (answers_call item c)) as [Ha|Ha].
  - right. exists m, item. split; [lia|done].
  - left. eapply pending_next; try done; try lia.
    + intros Hc. by eapply (fit_calls _ _ (Hfit m item Hitem) c i); [|lia|].
    + intros Hint. by eapply (fit_interrupts _ _ (Hfit m item Hitem) c i); [|lia|].
Qed.

Lemma fits_well_paired :
  (forall k item, items !! k = Some item -> item_fits k item) ->
  (forall c i, i < length items -> ~ pending i c (length items)) -> well_paired.
Proof.
  intros Hfit Hend. split.
  - intros i item Hi. destruct (Hfit i item Hi) as [? [? ?] ? _ _ _]. done.
  - intros i item c Hi Hc. pose proof (lookup_lt_Some _ _ _ Hi).
    destruct (answered_or_pending i c (length items)) as [Hp|?]; try done; [by eapply pending_here|].
    by destruct (Hend c i).
  - intros j item c Hj Ha. by apply (fit_answers _ _ (Hfit j item Hj)).
Qed.

Lemma well_paired_fits : well_paired -> forall k item, items !! k = Some item -> item_fits k item.
Proof.
  intros [H1 H2 H3] k item Hk. destruct (H1 k item Hk) as (Hrep & Hnd & Hemp & Hres).
  assert (Hopen : forall c i, i < k -> pending i c k -> c ∉ call_ids item /\ ~ interrupts item).
  { intros c i Hi Hp. destruct Hp as [(it & Hit & Hc) Hall]. destruct (H2 i it c Hit Hc) as (j & jt & Hij & Hj & Ha & Hpj).
    destruct (lt_eq_lt_dec j k) as [[Hlt| ->]|Hlt].
    - destruct (Hall j jt) as [Hna _]; [lia|done|]. done.
    - simplify_eq. destruct Ha as [Hkind _]. split; [|by intros [_ ?]]. rewrite call_ids_other; [set_solver|]. by rewrite Hkind.
    - destruct Hpj as [_ Hallj]. destruct (Hallj k item) as (_ & ? & ?); [lia|done|done]. }
  split; try done.
  - intros c i Hint Hi Hp. by destruct (Hopen c i Hi Hp).
  - intros c Ha. by eapply H3.
  - intros c i Hc Hi Hp. by destruct (Hopen c i Hi Hp).
Qed.

Lemma well_paired_end c i : well_paired -> i < length items -> ~ pending i c (length items).
Proof.
  intros [_ H2 _] Hi [(it & Hit & Hc) Hall]. destruct (H2 i it c Hit Hc) as (j & jt & Hij & Hj & Ha & _).
  destruct (Hall j jt) as [Hna _]; [|done|done]. apply lookup_lt_Some in Hj. lia.
Qed.
End Pairing.

Lemma continuity_iff items provider : ValidateContinuity items provider = None <-> well_paired items.
Proof.
  assert (Hinv0 : scan_inv items 0 ∅).
  { intros c i. rewrite lookup_empty. split; [done|]. intros [? _]. lia. }
  assert (Hstart : exists before, items = before ++ items /\ length before = 0) by by exists [].
  unfold ValidateContinuity. split.
  - destruct (continuity_loop provider 0 items ∅) as [open|e] eqn:E; [|done].
    destruct (loop_ok items provider 0 ∅ items Hstart Hinv0 open E) as [Hfin Hfit].
    destruct (decide (open = ∅)) as [->|]; [|by destruct (earliestOpen open)]. intros _.
    apply fits_well_paired; [intros; apply Hfit; [lia|done]|]. by apply (proj1 (scan_empty items _ ∅ Hfin)).
  - intros Hwp. destruct (loop_total items provider 0 ∅ items Hstart Hinv0) as (open & -> & Hfin).
    { intros k item _. by apply well_paired_fits. }
    rewrite decide_True; [done|]. apply (proj2 (scan_empty items _ open Hfin)). intros c i Hi. by apply well_paired_end.
Qed.

(** C16: [ValidateContinuity] accepts a transcript exactly when its calls and results match by
    position: no item is a repair artifact; every call has an identifier, is answered by a later tool
    result with that identifier, and between the two there is neither another call or result with it
    nor any item that is neither an output with calls nor a tool result; and every tool result answers
    such a call. *)
Theorem continuity_exact items provider : ValidateContinuity items provider = None <-> well_paired items.
Proof. apply continuity_iff. Qed.
