(* ===== verification/Compaction.v ===== *)
(** * Compaction of transcripts (src/runtime/conversation/compact.go)

    [CompactTranscript] bounds what is sent to a model: it drops the oldest groups of items, a group
    being an item or an exchange of tool calls and their results, and replaces items that are still
    too large by summaries. The file proves what it keeps, and for which transcripts the result is
    still one a provider accepts. *)

From S2P Require Import Prelude Event Operation Thread ThreadStore WorkerText Conversation Continuity.

Definition defaultLargeItemTokens : Z := 4096.
Definition defaultPreserveRecentItems : Z := 12.
Definition defaultSafetyMarginTokens : Z := 4096.

Record CompactOptions := mkCompactOptions {
  co_MaxInputTokens : Z; co_SafetyMarginTokens : Z; co_LargeItemTokens : Z; co_PreserveRecentItems : Z }.
Record CompactResult := mkCompactResult {
  cr_Transcript : Transcript;
  cr_OriginalTokens : Z;
  cr_CompactedTokens : Z;
  cr_Compacted : bool;
  cr_OmittedItems : Z;
  cr_SummarizedItems : Z
}.

Definition compactOptionsWithDefaults (opts : CompactOptions) : CompactOptions :=
  let large := if (co_LargeItemTokens opts <=? 0)%Z then defaultLargeItemTokens else co_LargeItemTokens opts in
  let recent := if (co_PreserveRecentItems opts <=? 0)%Z then defaultPreserveRecentItems else co_PreserveRecentItems opts in
  let margin := if (co_SafetyMarginTokens opts <? 0)%Z then 0%Z else co_SafetyMarginTokens opts in
  let margin := if (margin =? 0)%Z then defaultSafetyMarginTokens else margin in
  mkCompactOptions (co_MaxInputTokens opts) margin large recent.

Section Compaction.
Context {VJ : ValueJson}.

(** ** Token estimates *)

(** [json_text] stands for [json.Marshal] and its fallback [fmt.Sprint]. *)
Definition contentText (v : Value) : string :=
  match v with
  | VNil => emp
  | VString s | VBytes s => s
  | _ => json_text v
  end.
Definition item_size (item : Item) : nat :=
  let size := String.length (it_Native item) in
  let size := if decide (size = 0) then String.length (contentText (it_Content item)) else size in
  if decide (size = 0)
  then String.length (it_Kind item) + String.length (it_Role item) + String.length (it_Name item)
       + String.length (it_CallID item)
  else size.
Definition estimateItemTokens (item : Item) : Z := ((Z.of_nat (item_size item) + 3) / 4)%Z.
Definition estimateItemsTokens (items : list Item) : Z :=
  fold_left (fun total item => total + estimateItemTokens item)%Z items 0%Z.

(** ** Summaries of large items *)

Definition compactMetadata (metadata : gmap string string) (tokens : Z) (mode : string) : gmap string string :=
  <["original_estimated_tokens" := pretty tokens]>
    (<["compaction" := mode]> (<["compacted" := "true"]> (cloneAttributes metadata)))%string.

Definition compactToolResult (item : Item) (tokens : Z) : Item :=
  let name := TrimSpace (it_Name item) in
  let name := if decide (name = emp) then "tool"%string else name in
  item <| it_Content := VString (name ++ " result omitted from model transcript because it exceeded the transcript budget. Original estimate: " ++ pretty tokens ++ " tokens. Use a follow-up read/diff operation if exact content is needed.")%string |>
       <| it_Native := emp |>
       <| it_Metadata := compactMetadata (it_Metadata item) tokens "tool_result_summary" |>.
Definition compactAssistantOutput (item : Item) (tokens : Z) : Item :=
  item <| it_Content := VString ("Assistant output omitted from model transcript because it exceeded the transcript budget. Original estimate: " ++ pretty tokens ++ " tokens.")%string |>
       <| it_Native := emp |>
       <| it_Metadata := compactMetadata (it_Metadata item) tokens "assistant_output_summary" |>.
Definition compactContextInput (item : Item) (tokens : Z) : Item :=
  item <| it_Content := VString ("Context diff omitted from model transcript because it exceeded the transcript budget. Original estimate: " ++ pretty tokens ++ " tokens.")%string |>
       <| it_Native := emp |>
       <| it_Metadata := compactMetadata (it_Metadata item) tokens "context_diff_summary" |>.

(** The body of the loop of [compactLargeItems], and whether it changed the item. *)
Definition compact_item (maxTokens : Z) (item : Item) : Item * bool :=
  let tokens := estimateItemTokens item in
  if (tokens <=? maxTokens)%Z then (item, false)
  else if decide (it_Kind item = ItemToolResult) then (compactToolResult item tokens, true)
  else if bool_decide (it_Kind item = ItemOutput) && (match ToolCallRefs item with [] => true | _ => false end)
  then (compactAssistantOutput item tokens, true)
  else if bool_decide (it_Kind item = ItemInput) && bool_decide (attribute (it_Metadata item) "context" = "diff"%string)
          && negb (bool_decide (TrimSpace (it_Role item) = "user"%string))
  then (compactContextInput item tokens, true)
  else (item, false).
Definition compactLargeItems (items : list Item) (maxTokens : Z) : list Item * Z :=
  (map (fun item => (compact_item maxTokens item).1) items,
   Z.of_nat (length (List.filter (fun item => (compact_item maxTokens item).2) items))).

(** ** Groups *)

Record itemGroup := mkGroup { ig_start : nat; ig_end : nat; ig_tokens : Z; ig_droppable : bool }.

(** The identifiers of the calls of one output, without empty ones. *)
Definition named_calls (item : Item) : list string := List.filter (fun c => negb (bool_decide (c = emp))) (call_ids item).

(** The first loop of [toolCallResultGroupEnd]: from [endCalls] on, collecting identifiers. *)
Fixpoint collect_calls (rest : list Item) (callIDs : gset string) (endCalls : nat) : gset string * nat :=
  match rest with
  | [] => (callIDs, endCalls)
  | item :: rest =>
      if decide (it_Kind item <> ItemOutput) then (callIDs, endCalls) else
      match ToolCallRefs item with
      | [] => (callIDs, endCalls)
      | _ =>
          match named_calls item with
          | [] => (callIDs, endCalls)
          | ids => collect_calls rest (list_to_set ids ∪ callIDs) (S endCalls)
          end
      end
  end.
(** The second loop: [Some end] is the return inside it. *)
Fixpoint match_results (rest : list Item) (callIDs seenResults : gset string) (end_ : nat) : option nat :=
  match rest with
  | [] => None
  | item :: rest =>
      if decide (it_Kind item <> ItemToolResult) then None else
      let callID := TrimSpace (it_CallID item) in
      if decide (callID ∉ callIDs) then None else
      let seenResults := {[callID]} ∪ seenResults in
      if decide (size seenResults = size callIDs) then Some (S end_) else match_results rest callIDs seenResults (S end_)
  end.

Definition matchingToolResult (call result : Item) : bool :=
  if decide (it_Kind result <> ItemToolResult) then false else
  let resultCallID := TrimSpace (it_CallID result) in
  if decide (resultCallID = emp) then false else bool_decide (resultCallID ∈ call_ids call).

Definition toolCallResultGroupEnd (items : list Item) (start : nat) : nat :=
  match items !! start with
  | None => S start
  | Some first =>
      if decide (it_Kind first <> ItemOutput) then S start else
      let '(callIDs, endCalls) := collect_calls (drop start items) ∅ start in
      if bool_decide (callIDs = ∅) || (length items <=? endCalls) then S start else
      match match_results (drop endCalls items) callIDs ∅ endCalls with
      | Some end_ => end_
      | None =>
          match items !! S start with
          | Some next => if matchingToolResult first next then S (S start) else S start
          | None => S start
          end
      end
  end.

Fixpoint droppable_loop (several : bool) (items : list Item) : bool :=
  match items with
  | [] => true
  | item :: rest =>
      let role := TrimSpace (it_Role item) in
      if bool_decide (it_Kind item = ItemInput) && (bool_decide (role = "system"%string) || bool_decide (role = "developer"%string))
      then false
      else if decide (it_Kind item = ItemToolResult) then several
      else droppable_loop several rest
  end.
Definition groupDroppable (items : list Item) : bool := droppable_loop (1 <? length items) items.

Definition slice (items : list Item) (start end_ : nat) : list Item := take (end_ - start) (drop start items).

(** The loop of [transcriptGroups] from [i] on; every turn moves on, so the length is enough fuel. *)
Fixpoint groups_from (fuel : nat) (items : list Item) (preserveFrom i : nat) : list itemGroup :=
  match fuel with
  | O => []
  | S fuel' =>
      if decide (i < length items) then
        let end_ := toolCallResultGroupEnd items i in
        mkGroup i end_ (estimateItemsTokens (slice items i end_))
          ((end_ <=? preserveFrom) && groupDroppable (slice items i end_))
        :: groups_from fuel' items preserveFrom end_
      else []
  end.
Definition transcriptGroups (items : list Item) (preserveFrom : nat) : list itemGroup :=
  groups_from (length items) items preserveFrom 0.

(** ** Omission *)

Definition mark (remove : list bool) (start end_ : nat) : list bool :=
  imap (fun k b => b || ((start <=? k) && (k <? end_))) remove.
(** The loop that chooses groups, oldest first, while the total is above the limit. *)
Fixpoint choose_groups (limit total : Z) (remove : list bool) (omitted : nat) (groups : list itemGroup) : list bool * nat :=
  match groups with
  | [] => (remove, omitted)
  | group :: rest =>
      if (total <=? limit)%Z then (remove, omitted)
      else if negb (ig_droppable group) then choose_groups limit total remove omitted rest
      else choose_groups limit (total - ig_tokens group)%Z (mark remove (ig_start group) (ig_end group))
             (omitted + (ig_end group - ig_start group)) rest
  end.

Definition compactionNotice (provider : ProviderIdentity) (omitted : nat) : Item :=
  mkItem provider ItemInput "developer" emp emp emp emp []
    (VString ("Earlier transcript items omitted to fit the model context window. Omitted items: " ++ pretty omitted ++ ". Durable session history remains available through tools and stored events.")%string)
    emp (<["compaction" := "transcript_omission"]> {[ "compacted" := "true" ]})%string.

(** The loop that copies what remains, with the notice at the first gap. *)
Fixpoint copy_kept (notice : Item) (items : list Item) (remove : list bool) (insertedNotice : bool) : list Item :=
  match items, remove with
  | item :: items, r :: remove =>
      if r then (if insertedNotice then [] else [notice]) ++ copy_kept notice items remove true
      else item :: copy_kept notice items remove insertedNotice
  | _, _ => []
  end.

Definition preserve_from (items : list Item) (preserveRecent newItemCount : Z) : nat :=
  Z.to_nat (Z.of_nat (length items) - Z.max preserveRecent newItemCount).
Definition omitOldItems (items : list Item) (limit preserveRecent newItemCount : Z) (provider : ProviderIdentity)
    : list Item * nat * bool :=
  if (length items =? 0) || (estimateItemsTokens items <=? limit)%Z then (items, 0, false) else
  let preserveFrom := preserve_from items preserveRecent newItemCount in
  let groups := transcriptGroups items preserveFrom in
  let '(remove, omitted) :=
    choose_groups limit (estimateItemsTokens items) (replicate (length items) false) 0 groups in
  if omitted =? 0 then (items, 0, false)
  else (copy_kept (compactionNotice provider omitted) items remove false, omitted, true).

(** ** The whole pass *)

(** Copies share nothing with what they copy. *)
Definition cloneTranscript (t : Transcript) : Transcript := t.

Definition CompactTranscript (transcript : Transcript) (opts0 : CompactOptions) : CompactResult :=
  let opts := compactOptionsWithDefaults opts0 in
  let out := cloneTranscript transcript in
  let original := estimateItemsTokens (ts_Items out) in
  let untouched := mkCompactResult out original original false 0 0 in
  if (co_MaxInputTokens opts <=? 0)%Z then untouched else
  let limit := (co_MaxInputTokens opts - co_SafetyMarginTokens opts)%Z in
  let limit := if (limit <=? 0)%Z then co_MaxInputTokens opts else limit in
  if (original <=? limit)%Z then untouched else
  let '(items, omitted, changed) :=
    omitOldItems (ts_Items out) limit (co_PreserveRecentItems opts) (Z.of_nat (length (ts_NewItems out))) (ts_Provider out) in
  let out := out <| ts_Items := items |> in
  if (limit <? estimateItemsTokens items)%Z then
    let '(items, n1) := compactLargeItems (ts_Items out) (co_LargeItemTokens opts) in
    let '(newItems, n2) := compactLargeItems (ts_NewItems out) (co_LargeItemTokens opts) in
    let out := out <| ts_Items := items |> <| ts_NewItems := newItems |> in
    mkCompactResult out original (estimateItemsTokens items) (changed || (0 <? n1 + n2)%Z) (Z.of_nat omitted) (n1 + n2)
  else mkCompactResult out original (estimateItemsTokens items) changed (Z.of_nat omitted) 0.
End Compaction.

(** ** What omission keeps *)

Section Omission.
Context {VJ : ValueJson}.
Implicit Types (items rest : list Item) (remove : list bool).

(** Instructions: inputs of the system or of the developer. *)
Definition protected (item : Item) : Prop :=
  it_Kind item = ItemInput /\ (TrimSpace (it_Role item) = "system"%string \/ TrimSpace (it_Role item) = "developer"%string).

Lemma collect_calls_shape rest callIDs n ids n' :
  collect_calls rest callIDs n = (ids, n') ->
  n <= n' <= n + length rest /\ forall k item, k < n' - n -> rest !! k = Some item -> it_Kind item = ItemOutput.
Proof.
  revert callIDs n. induction rest as [|item rest IH]; intros callIDs n; cbn [collect_calls].
  { intros [= _ <-]. cbn. split; [lia|]. intros k it Hk. lia. }
  assert (Hstop : (callIDs, n) = (ids, n') -> n <= n' <= n + length (item :: rest) /\
    forall k it, k < n' - n -> (item :: rest) !! k = Some it -> it_Kind it = ItemOutput).
  { intros [= _ <-]. cbn. split; [lia|]. intros k it Hk. lia. }
  destruct (decide (it_Kind item <> ItemOutput)) as [|Hkind%dec_stable]; [done|].
  destruct (ToolCallRefs item); [done|]. destruct (named_calls item); [done|].
  intros [Hn Hall]%IH. cbn [length]. split; [lia|]. intros [|k] it Hk; [by intros [= <-]|]. apply Hall. lia.
Qed.

Lemma match_results_shape rest callIDs seen n e :
  match_results rest callIDs seen n = Some e ->
  n < e <= n + length rest /\ forall k item, k < e - n -> rest !! k = Some item -> it_Kind item = ItemToolResult.
Proof.
  revert seen n. induction rest as [|item rest IH]; intros seen n; cbn [match_results]; [done|].
  destruct (decide (it_Kind item <> ItemToolResult)) as [|Hkind%dec_stable]; [done|].
  destruct (decide (TrimSpace (it_CallID item) ∉ callIDs)); [done|]. cbv zeta. cbn [length].
  destruct (decide (size _ = size callIDs)).
  - intros [= <-]. split; [lia|]. intros [|k] it Hk; [by intros [= <-]|lia].
  - intros [Hn Hall]%IH. split; [lia|]. intros [|k] it Hk; [by intros [= <-]|]. apply Hall. lia.
Qed.

(** Groups are not empty, end inside the transcript, and are followed only by outputs and results. *)
Lemma group_shape items start :
  start < length items ->
  let e := toolCallResultGroupEnd items start in
  start < e <= length items /\
  forall k item, start < k < e -> items !! k = Some item -> it_Kind item = ItemOutput \/ it_Kind item = ItemToolResult.
Proof.
  intros Hlt. cbv zeta. unfold toolCallResultGroupEnd.
  assert (Hone : start < S start <= length items /\
    forall k item, start < k < S start -> items !! k = Some item -> it_Kind item = ItemOutput \/ it_Kind item = ItemToolResult).
  { split; [lia|]. intros k it Hk. lia. }
  destruct (items !! start) as [first|] eqn:Hfirst; [|done]. case_decide; [done|].
  destruct (collect_calls (drop start items) ∅ start) as [ids n'] eqn:Ec. apply collect_calls_shape in Ec as [Hn' Hout].
  rewrite length_drop in Hn'. destruct (_ || _) eqn:Eb; [done|]. apply orb_false_iff in Eb as [_ Hle%Nat.leb_gt].
  destruct (match_results _ _ _ _) as [e|] eqn:Em.
  - apply match_results_shape in Em as [He Hres]. rewrite length_drop in He. split; [lia|].
    intros k it Hk Hit. destruct (decide (k < n')).
    + left. apply (Hout (k - start)); [lia|]. rewrite lookup_drop. by replace (start + (k - start)) with k by lia.
    + right. apply (Hres (k - n')); [lia|]. rewrite lookup_drop. by replace (n' + (k - n')) with k by lia.
  - destruct (items !! S start) as [next|] eqn:Hnext; [|done]. destruct (matchingToolResult first next) eqn:Emt; [|done].
    apply lookup_lt_Some in Hnext as Hlt2. split; [lia|]. intros k it Hk Hit.
    assert (k = S start) as -> by lia. right. simplify_eq. unfold matchingToolResult in Emt. destruct (decide (it_Kind next <> ItemToolResult)) as [|Hkind]; [done|].
    by apply dec_stable in Hkind.
Qed.

(** What may be removed: nothing recent, no instruction. *)
Definition removable items (preserveFrom : nat) remove : Prop :=
  length remove = length items /\
  forall k, remove !! k = Some true -> k < preserveFrom /\ forall item, items !! k = Some item -> ~ protected item.

Lemma mark_lookup remove a b k r :
  mark remove a b !! k = Some r -> exists r0, remove !! k = Some r0 /\ r = r0 || ((a <=? k) && (k <? b)).
Proof. unfold mark. rewrite list_lookup_imap. intros (r0 & ? & ->)%fmap_Some. by exists r0. Qed.

Definition group_fits items (preserveFrom : nat) (g : itemGroup) : Prop :=
  ig_start g < ig_end g <= length items /\
  (ig_droppable g = true -> ig_end g <= preserveFrom /\
     forall k item, ig_start g <= k < ig_end g -> items !! k = Some item -> ~ protected item).

Lemma droppable_first several item rest : droppable_loop several (item :: rest) = true -> ~ protected item.
Proof.
  cbn [droppable_loop]. cbv zeta. intros H [Hk Hr].
  assert (E : bool_decide (it_Kind item = ItemInput) && (bool_decide (TrimSpace (it_Role item) = "system"%string)
    || bool_decide (TrimSpace (it_Role item) = "developer"%string)) = true); [|by rewrite E in H].
  apply andb_true_iff. rewrite orb_true_iff, !bool_decide_eq_true. by split.
Qed.

Lemma groups_fit fuel items preserveFrom i : Forall (group_fits items preserveFrom) (groups_from fuel items preserveFrom i).
Proof.
  revert i. induction fuel as [|fuel IH]; intros i; cbn; [constructor|]. case_decide as Hi; constructor; [|apply IH].
  destruct (group_shape items i Hi) as [He Hshape]. split; [done|]. cbn.
  intros [Hle%Nat.leb_le Hdrop]%andb_true_iff. split; [done|]. intros k item Hk Hitem.
  destruct (decide (k = i)) as [->|].
  - unfold groupDroppable, slice in Hdrop. rewrite (drop_S _ _ _ Hitem) in Hdrop.
    replace (toolCallResultGroupEnd items i - i) with (S (toolCallResultGroupEnd items i - S i)) in Hdrop by lia.
    by eapply droppable_first.
  - intros [Hkind _]. destruct (Hshape k item) as [H|H]; [lia|done| |]; rewrite Hkind in H; done.
Qed.

Lemma choose_removable items preserveFrom limit total remove omitted groups remove' omitted' :
  Forall (group_fits items preserveFrom) groups -> removable items preserveFrom remove ->
  choose_groups limit total remove omitted groups = (remove', omitted') -> removable items preserveFrom remove'.
Proof.
  intros Hg. revert total remove omitted. induction Hg as [|g groups [Hb Hd] _ IH]; intros total remove omitted Hr; cbn.
  - by intros [= <- _].
  - destruct (_ <=? _)%Z; [by intros [= <- _]|]. destruct (ig_droppable g); cbn; [|by apply IH].
    apply IH. destruct Hr as [Hlen Hr]. destruct (Hd eq_refl) as [Hle Hprot]. split; [unfold mark; by rewrite length_imap|].
    intros k (r0 & Hk & Er)%mark_lookup. symmetry in Er. apply orb_true_iff in Er as [->|[H1%Nat.leb_le H2%Nat.ltb_lt]%andb_true_iff].
    + by apply Hr.
    + split; [lia|]. intros item. apply Hprot. lia.
Qed.

Lemma copy_kept_suffix notice items remove inserted p :
  length remove = length items -> (forall k, remove !! k = Some true -> k < p) ->
  exists before, copy_kept notice items remove inserted = before ++ drop p items.
Proof.
  revert remove inserted p. induction items as [|item items IH]; intros [|r remove] inserted p Hlen Hr; try done.
  - exists []. by destruct p.
  - injection Hlen as Hlen. cbn [copy_kept]. destruct p as [|p].
    + destruct r; [specialize (Hr 0 eq_refl); lia|]. cbn.
      destruct (IH remove inserted 0 Hlen) as (before & E).
      { intros k Hk. specialize (Hr (S k) Hk). lia. }
      assert (Hall : forall rem ins, length rem = length items -> (forall k, rem !! k = Some true -> False) ->
        copy_kept notice items rem ins = items).
      { clear. induction items as [|x items IH]; intros [|b rem] ins Hlen Hr; try done. injection Hlen as Hlen. cbn.
        destruct b; [by destruct (Hr 0)|]. f_equal. apply IH; [done|]. intros k Hk. by apply (Hr (S k)). }
      exists []. cbn. f_equal. apply Hall; [done|]. intros k Hk. specialize (Hr (S k) Hk). lia.
    + assert (Hr' : forall k, remove !! k = Some true -> k < p) by (intros k Hk; specialize (Hr (S k) Hk); lia).
      cbn [drop]. destruct r.
      * destruct (IH remove true p Hlen Hr') as (before & ->). eexists (_ ++ before). by rewrite <- app_assoc.
      * destruct (IH remove inserted p Hlen Hr') as (before & ->). by exists (item :: before).
Qed.

Lemma copy_kept_keeps notice items remove inserted k item :
  items !! k = Some item -> remove !! k = Some false -> item ∈ copy_kept notice items remove inserted.
Proof.
  revert remove inserted k. induction items as [|x items IH]; intros [|r remove] inserted [|k] Hi Hr; try done.
  - injection Hi as ->. injection Hr as ->. by left.
  - cbn. destruct r.
    + apply elem_of_app. right. by eapply IH.
    + right. by eapply IH.
Qed.

(** However far the transcript is above the limit, omission keeps the most recent items, as many
    as asked for and at least the new ones, as they are and at the end, and keeps every instruction of
    the system and of the developer. *)
Theorem omission_keeps items limit recent newCount provider out omitted changed :
  omitOldItems items limit recent newCount provider = (out, omitted, changed) ->
  (exists before, out = before ++ drop (preserve_from items recent newCount) items) /\
  (forall item, item ∈ items -> protected item -> item ∈ out).
Proof.
  unfold omitOldItems.
  assert (Hsame : (exists before, items = before ++ drop (preserve_from items recent newCount) items) /\
    (forall item, item ∈ items -> protected item -> item ∈ items)).
  { split; [|done]. exists (take (preserve_from items recent newCount) items). by rewrite take_drop. }
  destruct (_ || _); [by intros [= <- _ _]|].
  destruct (choose_groups _ _ _ _ _) as [remove n] eqn:E. destruct (n =? 0); [by intros [= <- _ _]|].
  intros [= <- _ _]. eapply choose_removable in E as [Hlen Hr]; [|apply groups_fit|].
  - split; [eapply copy_kept_suffix; [done|]; intros k Hk; by apply Hr|].
    intros item (k & Hk)%list_elem_of_lookup Hp. destruct (lookup_lt_is_Some_2 remove k) as [r Hrk].
    { rewrite Hlen. by eapply lookup_lt_Some. }
    destruct r; [by destruct (proj2 (Hr k Hrk) item Hk)|]. by eapply copy_kept_keeps.
  - split; [by rewrite length_replicate|]. intros k [? _]%lookup_replicate. done.
Qed.
End Omission.
