(* ===== verification/Exchanges.v ===== *)
(** * Compaction and continuity

    [omitOldItems] removes whole groups, so the transcript stays one a provider accepts when each
    group is closed: nothing open before it, nothing open after it. This holds of transcripts made of
    exchanges, outputs with calls followed by a result for each call ([phased]); it fails for others
    that [ValidateContinuity] accepts. *)

From S2P Require Import Prelude Event Operation Thread ThreadStore Prog WorkerText Conversation Continuity Compaction.

(** Outputs with calls, and then one result for each call. *)
Record exchange (outs results : list Item) : Prop := {
  ex_outs : outs <> [];
  ex_out item : item ∈ outs -> is_repair item = false /\ call_ids item <> [];
  ex_ids : NoDup (outs ≫= call_ids) /\ emp ∉ (outs ≫= call_ids);
  ex_result item : item ∈ results -> is_repair item = false /\ it_Kind item = ItemToolResult;
  ex_answers : ((fun item => TrimSpace (it_CallID item)) <$> results) ≡ₚ (outs ≫= call_ids)
}.
Definition segment (s : list Item) : Prop :=
  (exists item, s = [item] /\ is_repair item = false /\ interrupts item) \/
  (exists outs results, s = outs ++ results /\ exchange outs results).
Definition phased (items : list Item) : Prop := exists segs, Forall segment segs /\ items = concat segs.

Lemma call_ids_output item : call_ids item <> [] -> it_Kind item = ItemOutput /\ ToolCallRefs item <> [].
Proof.
  intros H. split.
  - destruct (decide (it_Kind item = ItemOutput)); [done|]. by destruct H; apply call_ids_other.
  - intros E. apply H. unfold call_ids. by rewrite E.
Qed.

Lemma segment_nonempty s : segment s -> s <> [].
Proof. intros [(item & -> & _)|(outs & results & -> & Hex)]; [done|]. intros [H _]%app_eq_nil. by apply (ex_outs _ _ Hex). Qed.

(** ** Phased transcripts are accepted *)

Lemma continuity_loop_app provider n items rest open :
  continuity_loop provider n (items ++ rest) open =
  (let? open' := continuity_loop provider n items open in continuity_loop provider (n + length items) rest open').
Proof.
  revert n open. induction items as [|item items IH]; intros n open; cbn; [by rewrite Nat.add_0_r|].
  destruct (continuity_step provider n item open); cbn; [|done]. rewrite IH. by rewrite Nat.add_succ_r.
Qed.

(** Outputs with new calls open exactly these. *)
Lemma loop_outs provider n outs open :
  (forall item, item ∈ outs -> is_repair item = false /\ call_ids item <> []) ->
  NoDup (outs ≫= call_ids) -> emp ∉ (outs ≫= call_ids) -> (forall c, c ∈ outs ≫= call_ids -> open !! c = None) ->
  exists open', continuity_loop provider n outs open = Ok open' /\
    dom open' = dom open ∪ list_to_set (outs ≫= call_ids).
Proof.
  revert n open. induction outs as [|item outs IH]; intros n open Hout Hnd Hemp Hnew; cbn [continuity_loop].
  { exists open. split; [done|]. cbn. set_solver. }
  cbn [mbind list_bind] in *. apply NoDup_app in Hnd as (Hnd1 & Hdis & Hnd2).
  destruct (Hout item) as [Hrep Hcalls]; [by left|]. destruct (call_ids_output item Hcalls) as [Hkind Hrefs].
  assert (exists open1, continuity_step provider n item open = Ok open1) as [open1 E].
  { unfold continuity_step. destruct (ensure_same item provider) as (-> & -> & -> & ->). rewrite Hrep, decide_True by done.
    destruct (ToolCallRefs item) eqn:Er; [done|]. rewrite andb_false_r. rewrite <- Er. apply open_calls_total; try done.
    - intros Hin. apply Hemp, elem_of_app. by left.
    - intros c Hc. apply Hnew, elem_of_app. by left. }
  rewrite E. cbn [res_bind].
  assert (Hlook : forall c, open1 !! c = if decide (c ∈ call_ids item) then Some n else open !! c).
  { unfold continuity_step in E. destruct (ensure_same item provider) as (Er & Ek & Ei & Ep).
    rewrite Er, Ek, Ei, Ep, Hrep, decide_True in E by done. destruct (negb _ && _); [by destruct (earliestOpen open)|].
    by destruct (open_calls_ok _ _ _ _ E) as (_ & _ & _ & H). }
  destruct (IH (S n) open1) as (open2 & -> & Hdom).
  - intros it Hit. apply Hout. by right.
  - done.
  - intros Hin. apply Hemp, elem_of_app. by right.
  - intros c Hc. rewrite Hlook, decide_False by (intros H; by apply (Hdis c)). apply Hnew, elem_of_app. by right.
  - exists open2. split; [done|]. rewrite Hdom, list_to_set_app_L. rewrite (assoc_L (∪)). f_equal.
    apply set_eq. intros c. rewrite elem_of_union, elem_of_list_to_set, !elem_of_dom, Hlook.
    case_decide as Hc; [split; [by right|by eexists]|]. split; [by left|]. by intros [?|?].
Qed.

(** Results close them. *)
Lemma loop_results provider n results open :
  (forall item, item ∈ results -> is_repair item = false /\ it_Kind item = ItemToolResult) ->
  let ids := (fun item => TrimSpace (it_CallID item)) <$> results in
  NoDup ids -> emp ∉ ids -> list_to_set ids = dom open -> continuity_loop provider n results open = Ok ∅.
Proof.
  cbv zeta. revert n open. induction results as [|item results IH]; intros n open Hres Hnd Hemp Hdom.
  { cbn in *. f_equal. symmetry in Hdom. by apply dom_empty_inv_L in Hdom. }
  rewrite fmap_cons in *. cbn [list_to_set] in Hdom. apply NoDup_cons in Hnd as [Hnin Hnd].
  destruct (Hres item) as [Hrep Hkind]; [by left|]. cbn [continuity_loop].
  assert (Hin : TrimSpace (it_CallID item) ∈ dom open) by (rewrite <- Hdom; set_solver).
  assert (continuity_step provider n item open = Ok (delete (TrimSpace (it_CallID item)) open)) as ->.
  { unfold continuity_step. destruct (ensure_same item provider) as (-> & -> & -> & ->).
    rewrite Hrep, decide_False by (by rewrite Hkind). rewrite decide_True by done.
    rewrite decide_False by (intros E; rewrite E in Hemp; set_solver).
    apply elem_of_dom in Hin as [k ->]. done. }
  cbn [res_bind]. apply IH; [intros; apply Hres; by right|done|set_solver|].
  rewrite dom_delete_L, <- Hdom. apply set_eq. intros c. rewrite elem_of_difference, elem_of_union, !elem_of_singleton, elem_of_list_to_set.
  split; [|tauto]. intros Hc. split; [by right|]. by intros ->.
Qed.

Lemma loop_segment provider n s : segment s -> continuity_loop provider n s ∅ = Ok ∅.
Proof.
  intros [(item & -> & Hrep & Hnil & Hkind)|(outs & results & -> & [_ Hout [Hnd Hemp] Hres Hans])].
  - cbn. unfold continuity_step. destruct (ensure_same item provider) as (-> & -> & -> & ->). rewrite Hrep.
    unfold call_ids in Hnil. apply fmap_nil_inv in Hnil. rewrite Hnil. rewrite bool_decide_true by done. cbn.
    destruct (decide (it_Kind item = ItemOutput)); [done|]. rewrite decide_False by done. by rewrite decide_True.
  - rewrite continuity_loop_app. destruct (loop_outs provider n outs ∅ Hout Hnd Hemp) as (open & -> & Hdom); [done|].
    cbn [res_bind]. apply loop_results; [done| | |].
    + by rewrite Hans.
    + by rewrite Hans.
    + rewrite Hdom, dom_empty_L, (left_id_L ∅ (∪)). by apply set_eq; intros c; rewrite !elem_of_list_to_set, Hans.
Qed.

Lemma loop_phased provider n items : phased items -> continuity_loop provider n items ∅ = Ok ∅.
Proof.
  intros (segs & Hsegs & ->). revert n. induction Hsegs as [|s segs Hs _ IH]; intros n; [done|]. cbn [concat].
  rewrite continuity_loop_app, loop_segment by done. apply IH.
Qed.
Lemma phased_valid provider items : phased items -> ValidateContinuity items provider = None.
Proof. intros H. unfold ValidateContinuity. rewrite loop_phased by done. by rewrite decide_True. Qed.

(** ** Groups are segments *)

Section Groups.
Context {VJ : ValueJson}.

Lemma named_calls_all item : emp ∉ call_ids item -> named_calls item = call_ids item.
Proof.
  unfold named_calls. induction (call_ids item) as [|c l IH]; intros H; [done|]. cbn.
  rewrite bool_decide_false by set_solver. cbn. rewrite IH by set_solver. done.
Qed.

Lemma collect_outs outs rest ids n :
  (forall item, item ∈ outs -> is_repair item = false /\ call_ids item <> []) -> emp ∉ (outs ≫= call_ids) ->
  (forall item, head rest = Some item -> it_Kind item <> ItemOutput) ->
  exists ids', collect_calls (outs ++ rest) ids n = (ids', n + length outs) /\
    ids' = list_to_set (outs ≫= call_ids) ∪ ids.
Proof.
  intros Hout Hemp Hrest. revert ids n. induction outs as [|item outs IH]; intros ids n; cbn [app collect_calls length].
  - exists ids. cbn. rewrite Nat.add_0_r, (left_id_L ∅ (∪)). split; [|done]. destruct rest as [|item rest]; [done|]. cbn.
    rewrite decide_True; [done|]. by apply Hrest.
  - cbn [mbind list_bind] in *. destruct (Hout item) as [_ Hcalls]; [by left|].
    destruct (call_ids_output item Hcalls) as [Hkind Hrefs]. rewrite decide_False by (intros H; by apply H).
    destruct (ToolCallRefs item) eqn:Er; [done|]. rewrite <- Er in *. clear Er.
    rewrite named_calls_all by (intros H; apply Hemp, elem_of_app; by left).
    destruct (call_ids item) as [|c1 ids1] eqn:Ec; [done|]. rewrite <- Ec in *. clear Ec c1 ids1.
    destruct (IH) with (ids := list_to_set (call_ids item) ∪ ids) (n := S n) as (ids' & -> & ->).
    + intros it Hit. apply Hout. by right.
    + intros H. apply Hemp, elem_of_app. by right.
    + eexists. split; [by rewrite Nat.add_succ_r|]. rewrite list_to_set_app_L. apply set_eq. intros x. set_solver.
Qed.

(** The results end the group exactly when the last call is answered. *)
Lemma match_all results rest (ids seen : gset string) n :
  results <> [] ->
  (forall item, item ∈ results -> is_repair item = false /\ it_Kind item = ItemToolResult) ->
  let rids := (fun item => TrimSpace (it_CallID item)) <$> results in
  NoDup rids -> list_to_set rids ## seen -> list_to_set rids ∪ seen = ids ->
  match_results (results ++ rest) ids seen n = Some (n + length results).
Proof.
  cbv zeta. revert seen n. induction results as [|item results IH]; intros seen n Hne Hres Hnd Hdis Hids; [done|].
  rewrite fmap_cons in *. cbn [list_to_set] in *. apply NoDup_cons in Hnd as [Hnin Hnd].
  destruct (Hres item) as [_ Hkind]; [by left|]. cbn [app match_results]. rewrite decide_False by (intros H; by apply H).
  rewrite decide_False by (intros H; apply H; set_solver). cbv zeta. destruct results as [|next results].
  - rewrite decide_True; [cbn; f_equal; lia|]. f_equal. rewrite <- Hids. cbn. set_solver.
  - rewrite decide_False.
    + rewrite IH; [cbn; f_equal; lia|done| |done| |].
      * intros it Hit. apply Hres. by right.
      * clear - Hnin Hdis. set_solver.
      * rewrite <- Hids. set_solver.
    + intros Hsize. assert (Hsub : {[TrimSpace (it_CallID item)]} ∪ seen ⊂ ids).
      { split; [set_solver|]. intros Hsup. cbn [fmap list_fmap list_to_set] in *.
        assert (Hin : TrimSpace (it_CallID next) ∈ {[TrimSpace (it_CallID item)]} ∪ seen) by (apply Hsup; set_solver).
        apply elem_of_union in Hin as [Hin%elem_of_singleton|Hin]; [apply Hnin; rewrite Hin; by left|]. set_solver. }
      apply subset_size in Hsub. lia.
Qed.

Lemma group_segment before s rest :
  segment s -> toolCallResultGroupEnd (before ++ s ++ rest) (length before) = length before + length s.
Proof.
  intros Hs. unfold toolCallResultGroupEnd.
  destruct Hs as [(item & -> & Hrep & Hnil & Hkind)|(outs & results & -> & [Hne Hout [Hnd Hemp] Hres Hans])].
  - cbn [app]. rewrite list_lookup_middle by done. case_decide as Hk; [cbn; lia|].
    rewrite drop_app_length. cbn [collect_calls]. rewrite decide_False by (intros H; by apply H).
    unfold call_ids in Hnil. apply fmap_nil_inv in Hnil. rewrite Hnil, bool_decide_true by done. cbn. lia.
  - destruct outs as [|first outs]; [done|]. rewrite <- app_assoc. cbn [app]. rewrite list_lookup_middle by done.
    destruct (Hout first) as [_ Hcalls]; [by left|]. destruct (call_ids_output first Hcalls) as [Hkind _].
    rewrite decide_False by (intros H; by apply H). rewrite drop_app_length.
    assert (Hrne : results <> []).
    { intros ->. cbn in Hans. symmetry in Hans. apply Permutation_nil_r in Hans. apply app_eq_nil in Hans as [? _]. done. }
    change (first :: outs ++ results ++ rest) with ((first :: outs) ++ results ++ rest) at 1.
    destruct (collect_outs (first :: outs) (results ++ rest) ∅ (length before) Hout Hemp) as (ids & -> & ->).
    { intros item. destruct results as [|r results]; [done|]. intros [= <-]. destruct (Hres r) as [_ ->]; [by left|done]. }
    rewrite (right_id_L ∅ (∪)). rewrite (bool_decide_false (list_to_set _ = ∅)).
    + assert (Hlen : length (before ++ first :: outs ++ results ++ rest) <=? length before + length (first :: outs) = false).
      { apply Nat.leb_gt. rewrite length_app. cbn. rewrite !length_app. destruct results; [done|cbn; lia]. }
      cbn [app]. rewrite Hlen. cbn [orb].
      replace (length before + length (first :: outs)) with (length (before ++ first :: outs)) by by rewrite length_app.
      replace (before ++ first :: outs ++ results ++ rest) with ((before ++ first :: outs) ++ results ++ rest)
        by by rewrite <- app_assoc.
      rewrite drop_app_length. rewrite match_all; [|done|done| | |].
      * rewrite !length_app. cbn. rewrite length_app. lia.
      * by rewrite Hans.
      * set_solver.
      * rewrite (right_id_L ∅ (∪)). apply set_eq. intros c. by rewrite !elem_of_list_to_set, Hans.
    + intros E. destruct (call_ids first) as [|c l] eqn:Ec; [done|].
      assert (c ∈ (list_to_set ((first :: outs) ≫= call_ids) : gset string)); [|by rewrite E in *; set_solver].
      apply elem_of_list_to_set. cbn. rewrite Ec. by left.
Qed.

(** Groups that follow the segments from position [i] on. *)
Fixpoint tiles (i : nat) (groups : list itemGroup) (segs : list (list Item)) : Prop :=
  match groups, segs with
  | [], [] => True
  | g :: groups, s :: segs => ig_start g = i /\ ig_end g = i + length s /\ tiles (i + length s) groups segs
  | _, _ => False
  end.

Lemma groups_tile fuel before segs preserveFrom :
  Forall segment segs -> length (concat segs) <= fuel ->
  tiles (length before) (groups_from fuel (before ++ concat segs) preserveFrom (length before)) segs.
Proof.
  intros Hsegs. revert fuel before. induction Hsegs as [|s segs Hs _ IH]; intros fuel before Hfuel; cbn [concat] in *.
  - destruct fuel; cbn; [done|]. rewrite decide_False; [done|]. rewrite app_nil_r. lia.
  - pose proof (segment_nonempty s Hs). rewrite length_app in Hfuel. destruct fuel as [|fuel]; cbn [groups_from].
    { destruct s; [done|cbn in Hfuel; lia]. }
    rewrite decide_True by (rewrite !length_app; destruct s; [done|cbn; lia]).
    rewrite group_segment by done. cbn. split; [done|]. split; [done|].
    specialize (IH fuel (before ++ s)). rewrite length_app, <- app_assoc in IH. apply IH. destruct s; [done|cbn in *; lia].
Qed.

Definition flagged (flags : list bool) (segs : list (list Item)) : list bool :=
  concat (zip_with (fun f s => replicate (length s) f) flags segs).

Lemma mark_app a s_len c :
  mark (a ++ replicate s_len false ++ c) (length a) (length a + s_len) = a ++ replicate s_len true ++ c.
Proof.
  apply list_eq. intros k. unfold mark. rewrite list_lookup_imap.
  destruct (decide (k < length a)).
  { rewrite !lookup_app_l by done. destruct (a !! k) as [b|]; cbn; [|done]. f_equal.
    assert (length a <=? k = false) as -> by (apply Nat.leb_gt; lia). by rewrite orb_false_r. }
  rewrite !(lookup_app_r a) by lia. destruct (decide (k - length a < s_len)).
  - rewrite !lookup_app_l by by rewrite length_replicate. rewrite !lookup_replicate_2 by done. cbn. f_equal.
    apply andb_true_iff. split; [apply Nat.leb_le; lia|apply Nat.ltb_lt; lia].
  - rewrite !(lookup_app_r (replicate _ _)) by (rewrite length_replicate; lia). rewrite !length_replicate.
    destruct (c !! _) as [b|]; cbn [fmap option_fmap option_map]; [|done]. f_equal.
    replace (k <? length a + s_len) with false by (symmetry; apply Nat.ltb_ge; lia). by rewrite andb_false_r, orb_false_r.
Qed.

Lemma flagged_false segs : flagged (replicate (length segs) false) segs = replicate (length (concat segs)) false.
Proof.
  induction segs as [|s segs IH]; [done|]. cbn. unfold flagged in IH. rewrite IH, length_app. by rewrite <- replicate_add.
Qed.

(** What is removed is a choice of segments. *)
Lemma choose_flags limit total before omitted groups segs remove omitted' :
  tiles (length before) groups segs ->
  choose_groups limit total (before ++ replicate (length (concat segs)) false) omitted groups = (remove, omitted') ->
  exists flags, length flags = length segs /\ remove = before ++ flagged flags segs.
Proof.
  revert before total omitted segs. induction groups as [|g groups IH]; intros before total omitted [|s segs] Ht; cbn in Ht; try done.
  - cbn. intros [= <- _]. by exists [].
  - destruct Ht as (Hs & He & Ht). cbn [choose_groups concat].
    assert (Hnone : exists flags, length flags = length (s :: segs) /\
      before ++ replicate (length (s ++ concat segs)) false = before ++ flagged flags (s :: segs)).
    { exists (replicate (length (s :: segs)) false). rewrite length_replicate, flagged_false. done. }
    destruct (_ <=? _)%Z; [by intros [= <- _]|]. rewrite length_app, replicate_add.
    destruct (ig_droppable g); cbn [negb].
    + rewrite Hs, He, mark_app. intros E. rewrite (app_assoc before) in E. apply IH in E as (flags & Hlen & ->).
      * exists (true :: flags). cbn. split; [by rewrite Hlen|]. by rewrite <- app_assoc.
      * by rewrite length_app, length_replicate.
    + intros E. rewrite (app_assoc before) in E. apply IH in E as (flags & Hlen & ->).
      * exists (false :: flags). cbn. split; [by rewrite Hlen|]. by rewrite <- app_assoc.
      * by rewrite length_app, length_replicate.
Qed.

Lemma copy_removed notice s rest remove inserted :
  s <> [] ->
  copy_kept notice (s ++ rest) (replicate (length s) true ++ remove) inserted =
  (if inserted then [] else [notice]) ++ copy_kept notice rest remove true.
Proof.
  intros Hne. destruct s as [|x s]; [done|]. cbn. f_equal. clear. induction s as [|y s IH]; [done|]. cbn. done.
Qed.
Lemma copy_retained notice s rest remove inserted :
  copy_kept notice (s ++ rest) (replicate (length s) false ++ remove) inserted = s ++ copy_kept notice rest remove inserted.
Proof. induction s as [|x s IH]; [done|]. cbn. by rewrite IH. Qed.

Lemma copy_phased notice flags segs inserted :
  segment [notice] -> Forall segment segs -> length flags = length segs ->
  phased (copy_kept notice (concat segs) (flagged flags segs) inserted).
Proof.
  intros Hn Hsegs. revert flags inserted. induction Hsegs as [|s segs Hs Hsegs IH]; intros [|f flags] inserted Hlen; try done.
  - by exists [].
  - injection Hlen as Hlen. unfold flagged. cbn [zip_with concat]. fold (flagged flags segs). destruct f.
    + rewrite copy_removed by by apply segment_nonempty. destruct (IH flags true Hlen) as (out & Hout & ->).
      destruct inserted; [by exists out|]. exists ([notice] :: out). split; [by constructor|done].
    + rewrite copy_retained. destruct (IH flags inserted Hlen) as (out & Hout & ->).
      exists (s :: out). split; [by constructor|done].
Qed.

Lemma notice_segment provider n : segment [compactionNotice provider n].
Proof. left. exists (compactionNotice provider n). split; [done|]. split; [by vm_compute|]. split; [|by vm_compute]. by apply call_ids_other. Qed.

Lemma omit_phased items limit recent newCount provider out omitted changed :
  phased items -> omitOldItems items limit recent newCount provider = (out, omitted, changed) -> phased out.
Proof.
  intros (segs & Hsegs & ->). assert (Hsame : phased (concat segs)) by by exists segs.
  unfold omitOldItems. destruct (_ || _); [by intros [= <- _ _]|]. cbv zeta.
  destruct (choose_groups _ _ _ _ _) as [remove n] eqn:E. destruct (n =? 0); [by intros [= <- _ _]|]. intros [= <- _ _].
  apply (choose_flags _ _ []) in E as (flags & Hlen & ->).
  - apply copy_phased; [apply notice_segment|done|done].
  - unfold transcriptGroups. by apply (groups_tile _ []).
Qed.

(** ** Summaries keep what continuity looks at *)

Definition same_shape (a b : Item) : Prop :=
  it_Kind a = it_Kind b /\ it_CallID a = it_CallID b /\ call_ids a = call_ids b /\ is_repair a = is_repair b.

Lemma compactMetadata_repair metadata tokens mode :
  attribute (compactMetadata metadata tokens mode) "repair" = attribute metadata "repair".
Proof. unfold attribute, compactMetadata, cloneAttributes. by rewrite !lookup_insert_ne by done. Qed.

Lemma call_ids_same a b :
  it_Kind a = it_Kind b -> it_ToolCalls a = it_ToolCalls b -> it_CallID a = it_CallID b -> call_ids a = call_ids b.
Proof.
  intros Ek Et Ei. unfold call_ids, ToolCallRefs. rewrite Ek, Et, Ei. destruct (decide _); [done|].
  destruct (it_ToolCalls b) as [|call calls]; [by destruct (decide _)|].
  rewrite <- !list_fmap_compose. by apply list_fmap_ext.
Qed.
Lemma compact_shape (a b : Item) tokens mode :
  it_Kind a = it_Kind b -> it_ToolCalls a = it_ToolCalls b -> it_CallID a = it_CallID b ->
  it_Metadata a = compactMetadata (it_Metadata b) tokens mode -> same_shape a b.
Proof.
  intros Ek Et Ei Em. split; [done|]. split; [done|]. split; [by apply call_ids_same|].
  unfold is_repair. by rewrite Em, compactMetadata_repair.
Qed.
Lemma compact_item_shape maxTokens item : same_shape (compact_item maxTokens item).1 item.
Proof.
  unfold compact_item. cbv zeta. destruct (_ <=? _)%Z; [done|].
  destruct (decide _); [by eapply compact_shape|]. destruct (_ && _); [by eapply compact_shape|].
  destruct (_ && _); [by eapply compact_shape|done].
Qed.

Section Mapped.
Context (f : Item -> Item) (Hf : forall item, same_shape (f item) item).

Lemma map_call_ids items : (f <$> items) ≫= call_ids = items ≫= call_ids.
Proof. induction items as [|item items IH]; [done|]. cbn. rewrite IH. by destruct (Hf item) as (_ & _ & -> & _). Qed.

Lemma map_segment s : segment s -> segment (f <$> s).
Proof.
  intros [(item & -> & Hrep & Hnil & Hkind)|(outs & results & -> & [Hne Hout Hids Hres Hans])].
  - left. exists (f item). destruct (Hf item) as (Ek & _ & Ec & Er). unfold interrupts. by rewrite Ek, Ec, Er.
  - right. exists (f <$> outs), (f <$> results). split; [by rewrite fmap_app|]. split.
    + by destruct outs.
    + intros it (item & -> & Hin)%list_elem_of_fmap. destruct (Hf item) as (_ & _ & -> & ->). by apply Hout.
    + by rewrite map_call_ids.
    + intros it (item & -> & Hin)%list_elem_of_fmap. destruct (Hf item) as (-> & _ & _ & ->). by apply Hres.
    + rewrite map_call_ids, <- Hans, <- list_fmap_compose. apply Permutation_refl', list_fmap_ext. intros i item _. cbn.
      by destruct (Hf item) as (_ & -> & _).
Qed.

Lemma map_phased items : phased items -> phased (f <$> items).
Proof.
  intros (segs & Hsegs & ->). exists (list_fmap _ _ (fun s => f <$> s) segs). split.
  - apply Forall_forall. intros s' (s & -> & Hs)%list_elem_of_fmap. apply map_segment. by eapply Forall_forall in Hsegs.
  - induction segs as [|s segs IH]; [done|]. cbn. rewrite fmap_app. inversion Hsegs; subst. by rewrite IH.
Qed.
End Mapped.

(** C17: A transcript in which each run of outputs with calls is followed by a result for each of its
    calls is still accepted by [ValidateContinuity] after [CompactTranscript], whatever the budget and
    the options: groups are omitted whole, the notice goes between exchanges, and summaries leave
    calls, results and their identifiers as they are. *)
Theorem compaction_continuous t opts provider :
  phased (ts_Items t) -> ValidateContinuity (ts_Items (cr_Transcript (CompactTranscript t opts))) provider = None.
Proof.
  intros Ht. apply phased_valid. unfold CompactTranscript, cloneTranscript. cbv zeta.
  destruct (_ <=? 0)%Z; [done|]. destruct (_ <=? _)%Z; [done|].
  destruct (omitOldItems _ _ _ _ _) as [[items omitted] changed] eqn:Eo.
  apply omit_phased in Eo as Hp; [|done].
  destruct (_ <? _)%Z; [|done]. cbn. apply map_phased; [|done]. apply compact_item_shape.
Qed.
End Groups.

(** ** Two transcripts *)

Section Demo.
#[local] Instance demo_values : ValueJson := { json_text _ := "{}"%string }.

Definition demo_provider : ProviderIdentity := mkProvider "openai" "responses" "" "m".
Definition demo_text (n : nat) : Value := VString (String.string_of_list_ascii (replicate n "x"%char)).
Definition demo_out (calls : list string) (size : nat) : Item :=
  mkItem demo_provider ItemOutput "assistant" "" "" "" "tool"
    (map (fun c => mkToolCallRef c "tool" "function" VNil) calls) (demo_text size) emp ∅.
Definition demo_res (call : string) (size : nat) : Item :=
  mkItem demo_provider ItemToolResult "tool" "" "" call "tool" [] (demo_text size) emp ∅.
Definition demo_in (role : string) (size : nat) : Item :=
  mkItem demo_provider ItemInput role "" "" "" "" [] (demo_text size) emp ∅.
Definition demo_transcript (items : list Item) : Transcript := mkTranscript demo_provider items [] None ProjectionFullReplay.
(** At most 290 tokens, of which 10 are kept free. *)
Definition demo_options : CompactOptions := mkCompactOptions 290 10 50 1.

Definition demo_exchange : list Item := [demo_out ["a"%string; "b"%string] 400; demo_res "b" 40; demo_res "a" 400].
Definition demo_phased : list Item := [demo_in "system" 400] ++ demo_exchange ++ [demo_in "user" 40].

Lemma demo_exchange_ok : exchange (take 1 demo_exchange) (drop 1 demo_exchange).
Proof.
  split; [done| | | |].
  - intros item ->%list_elem_of_singleton. split; [by vm_compute|]. by vm_compute.
  - cbn. split; [|set_solver]. repeat constructor; set_solver.
  - intros item Hin. repeat (apply elem_of_cons in Hin as [->|Hin]; [by vm_compute|]). by apply elem_of_nil in Hin.
  - cbn. constructor.
Qed.
Lemma demo_phased_ok : phased demo_phased.
Proof.
  assert (Hone : forall role size, segment [demo_in role size]).
  { intros role size. left. by exists (demo_in role size). }
  exists [[demo_in "system" 400]; demo_exchange; [demo_in "user" 40]]. split; [|done].
  do 2 (constructor; [apply Hone || right|]); [|constructor; [apply Hone|constructor]].
  exists (take 1 demo_exchange), (drop 1 demo_exchange). split; [done|apply demo_exchange_ok].
Qed.

Lemma compaction_continuous_witness :
  phased demo_phased /\
  length (ts_Items (cr_Transcript (CompactTranscript (demo_transcript demo_phased) demo_options))) = 3 /\
  ValidateContinuity (ts_Items (cr_Transcript (CompactTranscript (demo_transcript demo_phased) demo_options))) demo_provider = None.
Proof.
  split; [exact demo_phased_ok|]. split; [by vm_compute|].
  exact (compaction_continuous (demo_transcript demo_phased) demo_options demo_provider demo_phased_ok).
Defined.

(** Call [c] is made while [b] is open. *)
Definition demo_interleaved : list Item :=
  [demo_out ["a"%string; "b"%string] 400; demo_res "a" 400; demo_out ["c"%string] 400; demo_res "b" 400; demo_res "c" 40].

(** A transcript that [ValidateContinuity] accepts, of which [CompactTranscript] makes one that it
    refuses: the first output is dropped together with the first of its two results, and the other
    result stays without its call. *)
Lemma compaction_splits_exchange :
  ValidateContinuity demo_interleaved demo_provider = None /\
  ValidateContinuity (ts_Items (cr_Transcript (CompactTranscript (demo_transcript demo_interleaved) demo_options))) demo_provider
  = Some (ErrContinuity ResultWithoutCall "b" 2).
Proof. split; by vm_compute. Qed.

Lemma omission_keeps_witness :
  omitOldItems demo_phased 280 1 0 demo_provider =
    ([demo_in "system" 400; compactionNotice demo_provider 3; demo_in "user" 40], 3, true) /\
  demo_in "system" 400 ∈ [demo_in "system" 400; compactionNotice demo_provider 3; demo_in "user" 40].
Proof.
  assert (E : omitOldItems demo_phased 280 1 0 demo_provider =
    ([demo_in "system" 400; compactionNotice demo_provider 3; demo_in "user" 40], 3, true)) by by vm_compute.
  split; [exact E|]. apply (omission_keeps _ _ _ _ _ _ _ _ E); [by left|]. split; [done|by left].
Defined.
End Demo.
