(* ===== verification/Projection.v ===== *)
(** * Projection of transcripts

    What [ProjectTranscript] (src/runtime/conversation/projector.go) makes of a branch, stated on the
    whole list of its records: the items since the last compaction, followed by the pending items that
    are not in the thread yet; and what the records written by [AppendRecords] add to it. *)

From S2P Require Import Prelude Event Operation Thread ThreadStore Prog Conversation Continuity.

Section Projection.
Context {F : Type} {CP : ConversationPayload F} {LC : LowerCase}.
Implicit Types (r : ThreadRecord F) (records before after : list (ThreadRecord F)).

(** The conversation event of a record. *)
Definition conversation_of (record : ThreadRecord F) : option ConversationEvent :=
  match rec_Payload (tr_Event record) with OtherEvent _ f => as_conversation f | _ => None end.

(** ** The declarative reading *)

Section Reading.
Context (provider : ProviderIdentity).

(** The items a record restarts the transcript with. *)
Definition restarts (record : ThreadRecord F) : option (list Item) :=
  match conversation_of record with
  | Some (CompactionStored _ p its _) => if Compatible p provider then Some (filterCompatible its provider) else None
  | _ => None
  end.
Definition appends (record : ThreadRecord F) : list Item :=
  match conversation_of record with
  | Some (ItemsAppended _ p its) => if Compatible p provider then filterCompatible its provider else []
  | _ => []
  end.
Definition stores (record : ThreadRecord F) : option ContinuationHandle :=
  match conversation_of record with
  | Some (ContinuationStored _ h) => if Compatible (ch_Provider h) provider then Some h else None
  | _ => None
  end.

(** [after] is what follows the last compaction, whose items are [base]. *)
Inductive since_compaction : list (ThreadRecord F) -> list Item -> list (ThreadRecord F) -> Prop :=
| never_compacted records : Forall (fun record => restarts record = None) records -> since_compaction records [] records
| compacted_at before record base after :
    restarts record = Some base -> Forall (fun record => restarts record = None) after ->
    since_compaction (before ++ record :: after) base after.

Definition appended (records : list (ThreadRecord F)) : list Item := records ≫= appends.
Definition last_handle (records : list (ThreadRecord F)) : option ContinuationHandle := last (omap stores records).

Lemma replay_record_reading items head record :
  replay_record provider (items, head) record =
  match restarts record with
  | Some base => (base, None)
  | None => (items ++ appends record, match stores record with Some h => Some h | None => head end)
  end.
Proof.
  unfold replay_record, restarts, appends, stores, conversation_of.
  destruct (rec_Payload (tr_Event record)); try by rewrite app_nil_r.
  destruct (as_conversation _) as [[turn p its|turn h|turn p its stats]|]; try by rewrite app_nil_r.
  - destruct (Compatible p provider); cbn; by rewrite ?app_nil_r.
  - destruct (Compatible _ provider); cbn; by rewrite ?app_nil_r.
  - destruct (Compatible p provider); cbn; by rewrite ?app_nil_r.
Qed.

Lemma last_cons_default {A} (h : A) (l : list A) (d : option A) :
  match last l with Some x => Some x | None => Some h end = last (h :: l).
Proof. by rewrite last_cons. Qed.

Lemma replay_without_restart records items head :
  Forall (fun record => restarts record = None) records ->
  fold_left (replay_record provider) records (items, head) =
  (items ++ appended records, match last_handle records with Some h => Some h | None => head end).
Proof.
  intros Hnone. revert items head. induction Hnone as [|record records Hr _ IH]; intros items head; cbn [fold_left].
  - unfold appended, last_handle. cbn. by rewrite app_nil_r.
  - rewrite replay_record_reading, Hr, IH. unfold appended, last_handle. cbn [mbind list_bind omap list_omap].
    rewrite app_assoc. f_equal. destruct (stores record) as [h|]; [|done]. rewrite last_cons. by destruct (last _).
Qed.

Lemma since_compaction_exists records : exists base after, since_compaction records base after.
Proof.
  induction records as [|record records IH] using rev_ind; [exists [], []; by constructor|].
  destruct (restarts record) as [base|] eqn:E.
  - exists base, []. change [record] with (record :: []). by constructor.
  - destruct IH as (base & after & [records' Hnone|before compaction base' after' Hc Hnone]).
    + exists [], (records' ++ [record]). constructor. apply Forall_app. by split; [|constructor].
    + exists base', (after' ++ [record]). rewrite <- app_assoc. cbn. constructor; [done|]. apply Forall_app. by split; [|constructor].
Qed.

Lemma replay_since records base after :
  since_compaction records base after ->
  fold_left (replay_record provider) records ([], None) = (base ++ appended after, last_handle after).
Proof.
  intros [records' Hnone|before record base' after' Hr Hnone].
  - rewrite replay_without_restart by done. by destruct (last_handle records').
  - rewrite fold_left_app. cbn [fold_left]. destruct (fold_left _ before _) as [items head].
    rewrite replay_record_reading, Hr, replay_without_restart by done. by destruct (last_handle after').
Qed.
End Reading.

(** ** The projection *)

(** The pending items that are not in the thread yet. *)
Definition uncommitted (input : ProjectionInput F) : list Item :=
  let pending := filterCompatible (pj_Pending input) (pj_Provider input) in
  drop (Z.to_nat (committed_count input pending)) pending.

(** Whether the provider is asked to continue from a response of its own. *)
Definition continues (input : ProjectionInput F) (head : option ContinuationHandle) : option ContinuationHandle :=
  match head with
  | Some h =>
      if bool_decide (pj_Mode input = ProjectionNativeContinuation) && SupportsPreviousResponseID h then Some h else None
  | None => None
  end.

(** C18: A projection that succeeds shows the provider exactly the compatible items of the branch since
    the last compatible compaction, starting with those it kept, and then the pending items that are
    not stored; and they match up call by call. Only when the mode asks for it, and the last
    compatible continuation since then can be used, the pending items go with that continuation
    instead. A projection whose items do not match up fails. *)
Theorem projection_exact fuel input records :
  EventsForBranch fuel (pj_Thread input) (pj_BranchID input) = Some (Ok records) ->
  exists base after, since_compaction (pj_Provider input) records base after /\
  let canonical := base ++ appended (pj_Provider input) after ++ uncommitted input in
  (well_paired canonical ->
   ProjectTranscript fuel input = Some (Ok
     match continues input (last_handle (pj_Provider input) after) with
     | Some h => mkProjectionResult (filterCompatible (pj_Pending input) (pj_Provider input)) (uncommitted input)
                   (Some h) ProjectionNativeContinuation
     | None => mkProjectionResult canonical (uncommitted input) None ProjectionFullReplay
     end)) /\
  (~ well_paired canonical -> exists e, ProjectTranscript fuel input = Some (Err e)).
Proof.
  intros Hrecords. destruct (since_compaction_exists (pj_Provider input) records) as (base & after & Hsince).
  exists base, after. split; [done|]. cbv zeta. unfold ProjectTranscript, replay. rewrite Hrecords, (replay_since _ _ _ _ Hsince).
  cbv zeta. fold (uncommitted input). rewrite <- app_assoc. rewrite <- (continuity_iff _ (pj_Provider input)). split.
  - intros ->. unfold continues. destruct (last_handle _ _); [|done]. by destruct (_ && _).
  - intros Hno. destruct (ValidateContinuity _ _) as [e|]; [by exists e|]. by destruct Hno.
Qed.
End Projection.

(** ** What is written is read back *)

Section Written.
Context {F : Type} {CP : ConversationPayload F} {CPL : ConversationPayloadLaws F} {LC : LowerCase}.

Lemma compatibleField_sym a b : compatibleField a b = compatibleField b a.
Proof. unfold compatibleField. apply eq_iff_eq_true. rewrite !orb_true_iff, !bool_decide_eq_true. intuition congruence. Qed.
Lemma compatibleAPI_sym a b : compatibleAPI a b = compatibleAPI b a.
Proof.
  unfold compatibleAPI. cbv zeta. set (x := ToLower (TrimSpace a)). set (y := ToLower (TrimSpace b)).
  rewrite (andb_comm (isResponsesAPI x)). replace (bool_decide (y = x)) with (bool_decide (x = y)).
  - by rewrite (orb_comm (bool_decide (x = emp))).
  - by apply bool_decide_ext.
Qed.
Lemma compatible_sym a b : Compatible a b = Compatible b a.
Proof.
  unfold Compatible. destruct (NormalizeProviderModel (pi_Provider a) (pi_Model a)) as [p m].
  destruct (NormalizeProviderModel (pi_Provider b) (pi_Model b)) as [p' m'].
  rewrite (compatibleField_sym p), (compatibleAPI_sym (pi_API a)), (compatibleAPI_sym (pi_Family a)).
  by rewrite (compatibleField_sym (if bool_decide (p = emp) && _ then _ else _)).
Qed.
Lemma compatible_refl p : Compatible p p = true.
Proof.
  unfold Compatible. destruct (NormalizeProviderModel (pi_Provider p) (pi_Model p)) as [q m].
  replace (bool_decide (q = emp) && negb (bool_decide (q = emp))) with false by by rewrite andb_negb_r.
  unfold compatibleField, compatibleAPI. cbv zeta. assert (Hx : forall x : string, bool_decide (x = x) = true) by (intros x; by apply bool_decide_true).
  by rewrite !Hx, !orb_true_r.
Qed.

(** What [replay] sees of a record. *)
Definition tr_payload (record : ThreadRecord F) : ThreadEvent F := rec_Payload (tr_Event record).
Definition ar_payload (record : AppendRecord F) : ThreadEvent F := rec_Payload (ar_Event record).

Lemma replay_same provider acc records records' :
  map tr_payload records = map tr_payload records' ->
  fold_left (replay_record provider) records acc = fold_left (replay_record provider) records' acc.
Proof.
  revert acc records'. induction records as [|r records IH]; intros acc [|r' records']; try done. cbn [map fold_left].
  intros [= Hr Hrest]. rewrite (IH _ records') by done. f_equal. unfold replay_record. destruct acc.
  unfold tr_payload in Hr. by rewrite Hr.
Qed.

Lemma replay_handles turn requested (new : list (ThreadRecord F)) handles items head :
  map tr_payload new = map (fun h => OtherEvent (ConversationEventName (ContinuationStored turn h))
    (conversation_payload (ContinuationStored turn h))) handles ->
  fold_left (replay_record requested) new (items, head) =
  (items, match last (List.filter (fun h => Compatible (ch_Provider h) requested) handles) with
          | Some h => Some h | None => head end).
Proof.
  revert items head new. induction handles as [|h handles IH]; intros items head [|r new]; try done. cbn [map fold_left].
  intros [= Hr Hrest]. unfold tr_payload in Hr. unfold replay_record at 2. rewrite Hr, as_conversation_payload.
  cbn [List.filter]. destruct (Compatible (ch_Provider h) requested); rewrite IH by done; [|done].
  rewrite last_cons. by destruct (last _).
Qed.

(** What [AppendRecords] writes for a turn is what a later projection reads: the records add the
    turn's items for the requested provider, in order and after those that were there, and the last
    usable continuation handle becomes the one to continue from. *)
Theorem written_items_project turn provider items handles written requested old new :
  AppendRecords turn provider items handles = Ok written -> map tr_payload new = map ar_payload written ->
  Compatible provider requested = true ->
  let '(before, head) := fold_left (replay_record requested) old ([], None) in
  fold_left (replay_record requested) (old ++ new) ([], None) =
  (before ++ filterCompatible items requested,
   match last (List.filter (fun h => Compatible (ch_Provider h) requested) handles) with Some h => Some h | None => head end).
Proof.
  intros Hw Hnew Hc. rewrite fold_left_app. destruct (fold_left _ old _) as [before head].
  unfold AppendRecords in Hw. apply res_bind_ok in Hw as (recs & Hrecs & [= <-]). destruct items as [|item items].
  - injection Hrecs as <-. cbn [app] in Hnew. rewrite map_map in Hnew. cbn [filterCompatible List.filter]. rewrite app_nil_r.
    by apply (replay_handles turn).
  - destruct (first_item_error _ _); [done|]. injection Hrecs as <-. cbn [app map] in Hnew. rewrite map_map in Hnew.
    destruct new as [|r new]; [done|]. injection Hnew as Hr Hnew. cbn [fold_left]. unfold replay_record at 2.
    unfold tr_payload, ar_payload in Hr. cbn in Hr. rewrite Hr, as_conversation_payload, Hc. cbn [negb].
    by apply (replay_handles turn).
Qed.
End Written.

(** ** A transcript with a compaction *)

Module ProjectionDemo.
#[export] Instance same_case : LowerCase := { ToLower s := s }.
Definition provider : ProviderIdentity := mkProvider "openai" "responses" "" "m".
Definition other : ProviderIdentity := mkProvider "anthropic" "messages" "" "n".
Definition item (p : ProviderIdentity) (kind call text : string) : Item :=
  mkItem p kind "" "" "" call "" [] (VString text) emp ∅.
Definition hello : Item := item provider ItemInput emp "hello".
Definition summary : Item := item provider ItemInput emp "summary".
Definition call_a : Item := item provider ItemOutput "a" "call".
Definition result_a : Item := item provider ItemToolResult "a" "result".
Definition foreign : Item := item other ItemOutput emp "elsewhere".
Definition stored (e : ConversationEvent) : EventRecord (ThreadEvent ConversationEvent) :=
  ar_Event (conversation_record "t" "turn" e).
Definition stats : CompactionStats := mkStats 1 1 9 2 0 0 true true.
Definition handle : ContinuationHandle :=
  mkHandle provider ContinuationPreviousResponseID "http" "resp_1" emp emp emp emp ∅.
Definition created : EventRecord (ThreadEvent ConversationEvent) :=
  mkRecord "r" "thread.created" 5 (mkScope "t" emp emp) (ThreadCreated "t" "main" ∅ 5 zero_Source) ∅.
Definition snapshot : Snapshot ConversationEvent :=
  projectSnapshot "t" ([created] ++ map stored
    [ItemsAppended "turn" provider [hello]; CompactionStored "turn" provider [summary] stats;
     ItemsAppended "turn" other [foreign]; ItemsAppended "turn" provider [call_a; foreign]; ContinuationStored "turn" handle]).
Definition input (mode : string) : ProjectionInput ConversationEvent :=
  mkProjectionInput snapshot "main" provider [call_a; result_a] false 1 mode false.
Definition records : list (ThreadRecord ConversationEvent) :=
  match EventsForBranch 3 snapshot "main" with Some (Ok records) => records | _ => [] end.
End ProjectionDemo.
#[local] Existing Instance ProjectionDemo.same_case.

Lemma projection_exact_witness :
  ProjectTranscript 3 (ProjectionDemo.input ProjectionFullReplay) =
    Some (Ok (mkProjectionResult [ProjectionDemo.summary; ProjectionDemo.call_a; ProjectionDemo.result_a]
                [ProjectionDemo.result_a] None ProjectionFullReplay)) /\
  exists base after, since_compaction ProjectionDemo.provider ProjectionDemo.records base after.
Proof.
  split; [by vm_compute|].
  destruct (projection_exact 3 (ProjectionDemo.input ProjectionFullReplay) ProjectionDemo.records) as (base & after & H & _).
  - by vm_compute.
  - exists base, after. exact H.
Defined.

Lemma written_items_project_witness :
  fold_left (replay_record ProjectionDemo.provider)
    ([] ++ [toThreadRecord "t" 1 (ProjectionDemo.stored (ItemsAppended "turn" ProjectionDemo.provider
      [ProjectionDemo.call_a; ProjectionDemo.foreign]))]) ([], None)
  = ([ProjectionDemo.call_a], None).
Proof.
  refine (written_items_project "turn" ProjectionDemo.provider [ProjectionDemo.call_a; ProjectionDemo.foreign] []
    [conversation_record emp "turn" (ItemsAppended "turn" ProjectionDemo.provider [ProjectionDemo.call_a; ProjectionDemo.foreign])]
    ProjectionDemo.provider [] _ _ _ _).
  - reflexivity.
  - reflexivity.
  - apply compatible_refl.
Defined.
