(* ===== verification/OpModel.v ===== *)
(** * Operations as the runtime sees them
    (src/runtime/operation, over the modules fluxplane-operation and fluxplane-policy)

    Specifications, contexts and operations, the records of policies and approvals, and the
    computations that execute them. A computation may depend on everything that happened before and
    adds to what happened: it is a function of the log so far that returns its answer and the entries
    it adds. Functions given to the runtime (gates, operations, middleware) are arbitrary such
    computations. *)

From S2P Require Import Prelude Operation.

(** ** Data of package operation *)

Record Schema := mkSchema { sc_Format : string; sc_Data : string }.
Record OpType := mkOpType { ty_Name : string; ty_Schema : Schema }.
#[global] Instance rebuild_OpType : Rebuild OpType := fun t => mkOpType t.(ty_Name) t.(ty_Schema).

Inductive RiskLevel := RiskUnset | RiskLow | RiskMedium | RiskHigh | RiskCritical | OtherRisk (level : string).
#[global] Instance RiskLevel_eq_dec : EqDecision RiskLevel.
Proof. solve_decision. Defined.
Inductive Effect :=
| EffectSensitiveData | EffectProcess | EffectDestructive | EffectIrreversible | EffectDelete | OtherEffect (name : string).
#[global] Instance Effect_eq_dec : EqDecision Effect.
Proof. solve_decision. Defined.

Inductive IntentTarget := PathTarget (Path : string) | ProcessTarget (Command : string) | URLTarget (URL : string)
| BrowserTarget (URL : string) | OtherTarget.
Inductive IntentBehavior :=
| IntentFilesystemRead | IntentFilesystemWrite | IntentPersistenceModify | IntentCommandExecution | IntentNetworkFetch
| IntentBrowserAccess | IntentNetworkWrite | OtherBehavior (name : string).
Record Intent := mkIntent { in_Behavior : IntentBehavior; in_Target : IntentTarget }.
Record IntentSet := mkIntentSet { is_Operations : list Intent }.

(** What the module exports on these types. *)
(** Effect sets; [no_effects] is the nil slice. *)
Class OperationTypes := { EffectSet : Type; no_effects : EffectSet }.
Record Semantics `{OperationTypes} := mkSemantics { sem_Risk : RiskLevel; sem_Effects : EffectSet }.
Class OperationModule `{OperationTypes} := {
  Effects_Has : EffectSet -> Effect -> bool;
  Effects_Empty : EffectSet -> bool;
  Semantics_Pure : Semantics -> bool;
  Type_IsZero : OpType -> bool;
  Intents_Empty : IntentSet -> bool;
  risk_text : RiskLevel -> string
}.
Record Spec `{OperationTypes} := mkSpec {
  sp_Ref : OpRef;
  sp_Input : OpType;
  sp_Output : OpType;
  sp_Semantics : Semantics;
  sp_Annotations : gmap string string
}.
#[global] Instance rebuild_Spec `{OperationTypes} : Rebuild Spec := fun s =>
  mkSpec _ s.(sp_Ref) s.(sp_Input) s.(sp_Output) s.(sp_Semantics) s.(sp_Annotations).

(** ** Data of package policy *)

Inductive ResourceKind :=
| NoKind | ResourceOperation | ResourceDatasource | ResourceChannel | ResourceTask | ResourcePath | ResourceProcess
| ResourceNetwork | OtherKind (kind : string).
#[global] Instance ResourceKind_eq_dec : EqDecision ResourceKind.
Proof. solve_decision. Defined.
Record ResourceRef := mkResource { rr_Kind : ResourceKind; rr_Name : string; rr_ID : string; rr_Path : string }.
#[global] Instance ResourceRef_eq_dec : EqDecision ResourceRef.
Proof. solve_decision. Defined.
Definition named_resource (kind : ResourceKind) (name : string) : ResourceRef := mkResource kind name emp emp.
Definition path_resource (path : string) : ResourceRef := mkResource ResourcePath emp emp path.

Inductive PolicyAction :=
| NoAction | ActionOperationInvoke | ActionApprovalGrant | ActionDatasourceSearch | ActionDatasourceRead | ActionChannelSend
| ActionTaskRead | ActionTaskWrite | ActionTaskRun | ActionWorkspaceRead | ActionWorkspaceWrite | ActionProcessExec
| ActionNetworkFetch | ActionNetworkConnect | OtherAction (action : string).
#[global] Instance PolicyAction_eq_dec : EqDecision PolicyAction.
Proof. solve_decision. Defined.
Inductive Decision := NoDecision | DecisionAllow | DecisionDeny | DecisionApprovalRequired | OtherDecision (decision : string).
#[global] Instance Decision_eq_dec : EqDecision Decision.
Proof. solve_decision. Defined.
Record Evaluation := mkEvaluation { ev_Decision : Decision; ev_Reason : string }.

Class PolicyTypes := { SubjectRef : Type; Trust : Type; AuthorizationPolicy : Type }.
Record AuthorizationRequest `{PolicyTypes} := mkAuthRequest {
  aq_Subjects : list SubjectRef; aq_Trust : Trust; aq_Resource : ResourceRef; aq_Action : PolicyAction }.
(** [EvaluateAuthorization] and what the code reads of a policy: the resources of its grants. *)
Class PolicyModule `{PolicyTypes} := {
  Policy_IsZero : AuthorizationPolicy -> bool;
  Policy_Grants : AuthorizationPolicy -> list (list ResourceRef);
  EvaluateAuthorization : AuthorizationPolicy -> AuthorizationRequest -> Evaluation;
  kind_text : ResourceKind -> string;
  action_text : PolicyAction -> string;
  decision_text : Decision -> string
}.
(** [policyauth.AuthorizationContext]. *)
Record AuthorizationContext `{PolicyTypes} := mkAuthContext {
  au_Policy : AuthorizationPolicy; au_Subjects : list SubjectRef; au_Trust : Trust }.

Section Model.
Context `{OT : OperationTypes} `{PT : PolicyTypes}.

(** [operation.Context]: the sink of its events ([None] discards them), and the values it carries. *)
Record OpContext := mkContext {
  cx_Events : option nat;
  cx_CallID : string;
  cx_Auth : option AuthorizationContext
}.

(** ** Risk and approval (safety.go, approval_event.go) *)

Record CommandRisk := mkCommandRisk { cr_Level : RiskLevel; cr_Reason : string; cr_RequiresApproval : bool }.
#[global] Instance rebuild_CommandRisk : Rebuild CommandRisk := fun r =>
  mkCommandRisk r.(cr_Level) r.(cr_Reason) r.(cr_RequiresApproval).
Record ApprovalRequest := mkApprovalRequest {
  apr_Subjects : list SubjectRef;
  apr_Resource : ResourceRef;
  apr_Action : PolicyAction;
  apr_Spec : Spec;
  apr_Input : Value;
  apr_Risk : CommandRisk;
  apr_Reason : string
}.
(** The fields [ApprovalRequested], [ApprovalGranted] and [ApprovalDenied] share. *)
Record ApprovalEvent := mkApprovalEvent {
  ae_Subjects : list SubjectRef;
  ae_Resource : ResourceRef;
  ae_Action : PolicyAction;
  ae_Operation : OpRef;
  ae_Risk : CommandRisk;
  ae_Reason : string
}.

Inductive OpEvent :=
| OperationStarted (CallID : string) (Operation : OpRef)
| OperationCompleted (CallID : string) (Operation : OpRef)
| OperationRejected (CallID : string) (Operation : OpRef) (Error : option OpError)
| OperationCanceled (CallID : string) (Operation : OpRef) (Error : option OpError)
| OperationFailed (CallID : string) (Operation : OpRef) (Error : option OpError)
| ApprovalRequested (e : ApprovalEvent)
| ApprovalGranted (e : ApprovalEvent)
| ApprovalDenied (e : ApprovalEvent) (Error : string)
| AuthorizationDecided (auth : AuthorizationContext) (req : AuthorizationRequest) (evaluation : Evaluation)
| ForeignEvent (name : string).

(** ** Computations *)

(** The gates an execution passes; [GateRisk] is the risk found for it. *)
Inductive Gate :=
| GateACL (spec : Spec) (input : Value)
| GateSecrets (spec : Spec) (input : Value)
| GateRisk (spec : Spec) (input : Value) (risk : CommandRisk)
| GateApproval (req : ApprovalRequest)
| GateSandbox (spec : Spec) (input : Value).

(** The log holds the events, and, for the statement of theorems, the answers of the gates and the
    calls of operations. *)
Inductive Entry :=
| Emitted (sink : option nat) (e : OpEvent)
| Passed (g : Gate)
| Refused (g : Gate)
| Ran (spec : Spec) (input : Value).

Definition Audit (A : Type) : Type := list Entry -> A * list Entry.
Definition ret {A} (a : A) : Audit A := fun _ => (a, []).
Definition audit_bind {A B} (m : Audit A) (k : A -> Audit B) : Audit B := fun log =>
  let '(a, d1) := m log in
  let '(b, d2) := k a (log ++ d1) in
  (b, d1 ++ d2).
Definition tell (e : Entry) : Audit unit := fun _ => (tt, [e]).
Definition Emit (ctx : OpContext) (e : OpEvent) : Audit unit := tell (Emitted (cx_Events ctx) e).

(** ** Errors and operations *)

Record AuthorizationApprovalRequired := mkApprovalRequired {
  ar_Subjects : list SubjectRef; ar_Resource : ResourceRef; ar_Action : PolicyAction; ar_Reason : string }.
(** Go errors: a text, an error wrapped by [fmt.Errorf] with a prefix and [%w], and the error type the
    code looks for with [errors.As]. *)
Inductive GoError :=
| ErrorText (msg : string)
| Wrapped (prefix : string) (e : GoError)
| ApprovalNeeded (a : AuthorizationApprovalRequired).
(** [errors.As(err, &approvalRequired)]. *)
Fixpoint as_approval_required (e : GoError) : option AuthorizationApprovalRequired :=
  match e with
  | ErrorText _ => None
  | Wrapped _ e => as_approval_required e
  | ApprovalNeeded a => Some a
  end.

Record AccessDescriptor := mkAccess { ad_Action : PolicyAction; ad_Resource : ResourceRef; ad_Reason : string }.

(** [operation.Operation] and the optional interfaces: an operation of another package, with the
    methods [Access] and [Intent] when it has them, and the named-instance operation of this one. The
    instances of the latter are never nil: only [NewNamedInstance] and [AggregateNamedInstances] make
    them. *)
Inductive Operation :=
| Plain (spec : Spec) (run : OpContext -> Value -> Audit OpResult)
    (access : option (OpContext -> Value -> Audit (list AccessDescriptor * option GoError)))
    (intent : option (OpContext -> Value -> Audit (IntentSet * option GoError)))
| NamedInstances (kind : string) (instances : list NamedInstance) (forceInstanceInput : bool)
with NamedInstance := mkInstance (Instance : string) (op : Operation).
End Model.

Notation "'let+' x ':=' m 'in' k" := (audit_bind m (fun x => k))
  (at level 10, x pattern, m at level 100, k at level 200) : go_scope.

(** ** A program logic

    [post m Q]: whatever happened before, [Q] holds of the answer and of the entries added. *)

Section Logic.
Context `{OT : OperationTypes} `{PT : PolicyTypes}.

Definition post {A} (m : Audit A) (Q : A -> list Entry -> Prop) : Prop := forall log, Q (m log).1 (m log).2.

Lemma post_ret {A} (a : A) (Q : A -> list Entry -> Prop) : Q a [] -> post (ret a) Q.
Proof. by intros H log. Qed.
Lemma post_tell e (Q : unit -> list Entry -> Prop) : Q tt [e] -> post (tell e) Q.
Proof. by intros H log. Qed.
Lemma post_bind {A B} (m : Audit A) (k : A -> Audit B) (P : A -> list Entry -> Prop) (Q : B -> list Entry -> Prop) :
  post m P -> (forall a d1, P a d1 -> post (k a) (fun b d2 => Q b (d1 ++ d2))) -> post (audit_bind m k) Q.
Proof.
  intros Hm Hk log. unfold audit_bind. specialize (Hm log). destruct (m log) as [a d1]. cbn in Hm.
  specialize (Hk a d1 Hm (log ++ d1)). by destruct (k a (log ++ d1)).
Qed.
Lemma post_weaken {A} (m : Audit A) (P Q : A -> list Entry -> Prop) :
  post m P -> (forall a d, P a d -> Q a d) -> post m Q.
Proof. intros Hm H log. apply H, Hm. Qed.
Lemma post_and {A} (m : Audit A) (P Q : A -> list Entry -> Prop) :
  post m P -> post m Q -> post m (fun a d => P a d /\ Q a d).
Proof. intros HP HQ log. by split. Qed.
End Logic.
