(* ===== verification/NamedInstance.v ===== *)
(** * Named instances (src/runtime/operation/named_instance.go)

    One logical operation in front of several configured instances of a plugin. An input names the
    instance it is for; with a single instance it need not, unless instances were filtered away. *)

From stdpp Require Import sorting.
From S2P Require Import Prelude Operation OpModel.

Definition AnnotationNamedPluginKind : string := "named_plugin.kind".
Definition AnnotationNamedPluginInstance : string := "named_plugin.instance".

(** [json.Marshal] followed by [json.Unmarshal] into a map; the error is a text. *)
Class JsonObjects := { json_object : Value -> Result string (gmap string Value) }.
(** The same on the text of a schema; no schema is the text [null], which the code would unmarshal into
    a nil map. *)
Class SchemaJson := {
  schema_object : string -> option (gmap string Value);
  schema_text : gmap string Value -> option string
}.

(** ** Orders

    [sort.Strings], and [sort.Slice] by a key: where no key repeats there is one sorted arrangement. *)

Definition key_le {A} (key : A -> string) (x y : A) : Prop := String.le (key x) (key y).
#[global] Instance key_le_dec {A} (key : A -> string) : RelDecision (key_le key).
Proof. intros x y. unfold key_le. apply _. Defined.
Definition sort_by {A} (key : A -> string) (l : list A) : list A := merge_sort (key_le key) l.
Definition sort_Strings : list string -> list string := sort_by (fun s => s).

Section Named.
Context `{OT : OperationTypes} {OM : OperationModule} `{PT : PolicyTypes} {OA : OperationApi} {JO : JsonObjects}
  {SJ : SchemaJson} {GF : GoFmt}.

Definition ni_Instance (b : NamedInstance) : string := let 'mkInstance name _ := b in name.
Definition ni_Operation (b : NamedInstance) : Operation := let 'mkInstance _ op := b in op.
Definition instanceNames (instances : list NamedInstance) : list string := sort_Strings (map ni_Instance instances).

(** ** Specifications *)

Definition stringSlice (value : Value) : list string :=
  match value with
  | VList items => omap (fun item => match item with VString s => Some s | _ => None end) items
  | _ => []
  end.
Definition containsString (values : list string) (want : string) : bool := bool_decide (want ∈ values).

(** The schema with a required property [instance]. *)
Definition with_instance_property (root : gmap string Value) (instances : list string) : gmap string Value :=
  let properties := match root !! "properties"%string with Some (VMap m) => m | _ => ∅ end in
  let instance := VMap (<["type" := VString "string"]>
    (<["description" := VString "Configured plugin instance to use."]>
      {[ "enum" := VList (map VString instances) ]}))%string in
  let root := <["properties"%string := VMap (<["instance"%string := instance]> properties)]> root in
  let required := stringSlice (default VNil (root !! "required"%string)) in
  let required := if containsString required "instance" then required else sort_Strings (required ++ ["instance"%string]) in
  <["required"%string := VList (map VString required)]> root.
Definition withInstanceInput (input : OpType) (instances : list string) : OpType :=
  let format := sc_Format (ty_Schema input) in
  if negb (bool_decide (format = emp)) && negb (bool_decide (format = "json-schema"%string)) then input else
  let data := sc_Data (ty_Schema input) in
  let root :=
    match (if decide (data = emp) then None else schema_object data) with
    | Some root => root
    | None => {[ "type"%string := VString "object" ]}
    end in
  match schema_text (with_instance_property root instances) with
  | None => input
  | Some raw => input <| ty_Schema := mkSchema "json-schema" raw |>
  end.

Definition zero_OpType : OpType := mkOpType emp (mkSchema emp emp).
Definition zero_Spec : Spec := mkSpec _ (mkOpRef emp) zero_OpType zero_OpType (mkSemantics _ RiskUnset no_effects) ∅.
(** [op.Spec()]. *)
Fixpoint OpSpec (op : Operation) : Spec :=
  match op with
  | Plain spec _ _ _ => spec
  | NamedInstances _ [] _ => zero_Spec
  | NamedInstances kind ((mkInstance name first :: _) as instances) force =>
      let spec := OpSpec first in
      let annotations := sp_Annotations spec in
      let annotations := if decide (kind = emp) then annotations else <[AnnotationNamedPluginKind := kind]> annotations in
      match instances, force with
      | [_], false => spec <| sp_Annotations := <[AnnotationNamedPluginInstance := name]> annotations |>
      | _, _ =>
          spec <| sp_Annotations := delete AnnotationNamedPluginInstance annotations |>
               <| sp_Input := withInstanceInput (sp_Input spec) (instanceNames instances) |>
      end
  end.

(** ** Selection *)

(** [inputObject]. *)
Definition inputObject (input : Value) : Result string (gmap string Value) :=
  match input with VMap m => Ok m | _ => json_object input end.
(** The part of [selectInstance] before its loop: the name to look for, and what to pass on. *)
Definition instance_name (instances : list NamedInstance) (force : bool) (input : Value) : Result string (string * Value) :=
  match instances, force with
  | [], _ => Err "no instances are available"%string
  | [mkInstance name _], false => Ok (name, input)
  | _, _ =>
      let? values := inputObject input in
      let instance := match values !! "instance"%string with Some (VString s) => TrimSpace s | _ => emp end in
      if decide (instance = emp) then Err "instance is required"%string
      else Ok (instance, VMap (delete "instance"%string values))
  end.
(** The loop of [selectInstance], applied to the first instance with the name. *)
Definition find_instance {A} (f : Operation -> A) : list NamedInstance -> string -> option A :=
  fix go instances name :=
    match instances with
    | [] => None
    | mkInstance n op :: rest => if decide (n = name) then Some (f op) else go rest name
    end.
(** A method that selects an instance and goes on with its operation and the input passed on. *)
Definition on_instance {A} (f : Value -> Operation -> A) (fail : string -> A) (instances : list NamedInstance) (force : bool)
    (input : Value) : A :=
  match instance_name instances force input with
  | Err e => fail e
  | Ok (name, stripped) =>
      match find_instance (f stripped) instances name with
      | Some a => a
      | None => fail ("unknown instance " ++ Quote name)%string
      end
  end.

Definition invalid_input (op : Operation) (e : string) : OpResult :=
  let name := ref_Name (sp_Ref (OpSpec op)) in
  let name := if decide (name = emp) then "named_plugin_operation"%string else name in
  Failed ("invalid_" ++ name ++ "_input") e ∅.
(** [op.Run(ctx, input)]. *)
Fixpoint OpRun (op : Operation) (ctx : OpContext) (input : Value) : Audit OpResult :=
  match op with
  | Plain _ run _ _ => run ctx input
  | NamedInstances _ instances force =>
      on_instance (fun stripped op' => OpRun op' ctx stripped) (fun e => ret (invalid_input op e)) instances force input
  end.
(** [op.(AccessProvider)] and its method; [None] is an operation that has none. *)
Fixpoint Access (op : Operation) : option (OpContext -> Value -> Audit (list AccessDescriptor * option GoError)) :=
  match op with
  | Plain _ _ access _ => access
  | NamedInstances _ instances force =>
      Some (fun ctx input =>
        on_instance (fun stripped op' => match Access op' with Some access => access ctx stripped | None => ret ([], None) end)
          (fun e => ret ([], Some (ErrorText e))) instances force input)
  end.
(** [op.(operation.IntentProvider)] and its method. *)
Fixpoint OpIntent (op : Operation) : option (OpContext -> Value -> Audit (IntentSet * option GoError)) :=
  match op with
  | Plain _ _ _ intent => intent
  | NamedInstances _ instances force =>
      Some (fun ctx input =>
        on_instance (fun stripped op' => match OpIntent op' with Some intent => intent ctx stripped | None => ret (mkIntentSet [], None) end)
          (fun e => ret (mkIntentSet [], Some (ErrorText e))) instances force input)
  end.

(** [AccessFor] (access.go): whether the operation describes its access, and the description. *)
Definition AccessFor (ctx : OpContext) (op : Operation) (input : Value) : Audit (list AccessDescriptor * bool * option GoError) :=
  match Access op with
  | None => ret ([], false, None)
  | Some access => let+ (descriptors, err) := access ctx input in ret (descriptors, true, err)
  end.

(** ** Constructors *)

(** What callers pass: the operation may be nil. *)
Record NamedInstanceBinding := mkBinding { nb_Instance : string; nb_Operation : option Operation }.

Definition namedPluginKind (op : Operation) : string :=
  TrimSpace (default emp (sp_Annotations (OpSpec op) !! AnnotationNamedPluginKind)).
Definition namedPluginInstance (op : Operation) : string :=
  TrimSpace (default emp (sp_Annotations (OpSpec op) !! AnnotationNamedPluginInstance)).

(** The loop of [cleanNamedInstances]. *)
Fixpoint clean_loop (instances : list NamedInstanceBinding) (seen : gset string) : list NamedInstance :=
  match instances with
  | [] => []
  | mkBinding _ None :: rest => clean_loop rest seen
  | mkBinding name (Some op) :: rest =>
      let instance := TrimSpace name in
      let instance := if decide (instance = emp) then namedPluginInstance op else instance in
      if bool_decide (instance = emp) || bool_decide (instance ∈ seen) then clean_loop rest seen
      else mkInstance instance op :: clean_loop rest ({[instance]} ∪ seen)
  end.
Definition cleanNamedInstances (instances : list NamedInstanceBinding) : list NamedInstance :=
  sort_by ni_Instance (clean_loop instances ∅).

Definition NewNamedInstance (kind instance : string) (op : option Operation) : option Operation :=
  match op with
  | None => None
  | Some op =>
      let kind := TrimSpace kind in
      let instance := TrimSpace instance in
      let instance := if decide (instance = emp) then kind else instance in
      Some (NamedInstances kind [mkInstance instance op] false)
  end.
Definition AggregateNamedInstances (kind : string) (instances : list NamedInstanceBinding) : option Operation :=
  match cleanNamedInstances instances with
  | [] => None
  | (mkInstance _ first :: _) as cleaned =>
      let kind := TrimSpace kind in
      let kind := if decide (kind = emp) then namedPluginKind first else kind in
      Some (NamedInstances kind cleaned false)
  end.
(** [FilterNamedInstances]: only the operations of this package provide named instances. *)
Definition FilterNamedInstances (op : Operation) (allowed : gmap string bool) : option Operation :=
  match op with
  | Plain _ _ _ _ => Some op
  | NamedInstances kind instances force =>
      let forceInstanceInput := (1 <? length instances) || force in
      let filtered := List.filter (fun b => default false (allowed !! ni_Instance b)) instances in
      match AggregateNamedInstances kind (map (fun b => mkBinding (ni_Instance b) (Some (ni_Operation b))) filtered) with
      | Some (NamedInstances kind cleaned _) => Some (NamedInstances kind cleaned forceInstanceInput)
      | other => other
      end
  end.
End Named.
