(* ===== verification/Authorization.v ===== *)
(** * Access descriptors and authorization
    (src/runtime/operation/access.go and authorization.go)

    What an operation will touch, and whether the policy of the context allows it. *)

From S2P Require Import Prelude Operation Conversation OpModel NamedInstance.

(** ** Access descriptors (access.go) *)

Record accessConfig := mkAccessConfig { ac_defaultValue : string }.
Definition AccessOption : Type := accessConfig -> accessConfig.
Definition AccessDefault (value : string) : AccessOption := fun _ => mkAccessConfig value.
(** Options may be nil. *)
Definition access_config (fallback : string) (opts : list (option AccessOption)) : accessConfig :=
  fold_left (fun cfg opt => match opt with Some f => f cfg | None => cfg end) opts (mkAccessConfig fallback).

Definition PathDescriptor (path : string) (action : PolicyAction) : AccessDescriptor :=
  let path := TrimSpace path in
  let path := if decide (path = emp) then "**"%string else path in
  mkAccess action (path_resource path) emp.
Definition namedDescriptor (kind : ResourceKind) (name : string) (action : PolicyAction) : AccessDescriptor :=
  let name := TrimSpace name in
  let name := if decide (name = emp) then "*"%string else name in
  mkAccess action (named_resource kind name) emp.
Definition DatasourceDescriptor := namedDescriptor ResourceDatasource.
Definition ProcessDescriptor := namedDescriptor ResourceProcess.
Definition NetworkDescriptor := namedDescriptor ResourceNetwork.
Definition TaskDescriptor (id : string) (action : PolicyAction) : AccessDescriptor :=
  let id := TrimSpace id in
  let id := if decide (id = emp) then "*"%string else id in
  mkAccess action (mkResource ResourceTask emp id emp) emp.

Section Fields.
Context `{OT : OperationTypes} `{PT : PolicyTypes} {I : Type}.

Definition AccessField : Type := OpContext -> I -> Audit (list AccessDescriptor * option GoError).

(** A selector may be nil. *)
Definition selectedValue (input : I) (selector : option (I -> string)) (fallback : string)
    (opts : list (option AccessOption)) : string :=
  let value := match selector with Some f => TrimSpace (f input) | None => emp end in
  if decide (value = emp) then ac_defaultValue (access_config fallback opts) else value.
Definition selectedValues (input : I) (selector : option (I -> list string)) (fallback : string)
    (opts : list (option AccessOption)) : list string :=
  let out :=
    match selector with
    | Some f => List.filter (fun value => negb (bool_decide (value = emp))) (map TrimSpace (f input))
    | None => []
    end in
  match out with [] => [ac_defaultValue (access_config fallback opts)] | _ => out end.

Definition StaticAccess (resource : ResourceRef) (action : PolicyAction) : AccessField :=
  fun _ _ => ret ([mkAccess action resource emp], None).
Definition PathAccess (selector : option (I -> string)) (action : PolicyAction) (opts : list (option AccessOption)) : AccessField :=
  fun _ input => ret ([PathDescriptor (selectedValue input selector "**" opts) action], None).
Definition PathListAccess (selector : option (I -> list string)) (action : PolicyAction)
    (opts : list (option AccessOption)) : AccessField :=
  fun _ input => ret (map (fun value => PathDescriptor value action) (selectedValues input selector "**" opts), None).
Definition namedAccess (selector : option (I -> string)) (kind : ResourceKind) (action : PolicyAction) (fallback : string)
    (opts : list (option AccessOption)) : AccessField :=
  fun _ input => ret ([namedDescriptor kind (selectedValue input selector fallback opts) action], None).
Definition DatasourceAccess selector action opts := namedAccess selector ResourceDatasource action "*" opts.
Definition ProcessAccess selector action opts := namedAccess selector ResourceProcess action "*" opts.
Definition NetworkAccess selector action opts := namedAccess selector ResourceNetwork action "*" opts.
Definition TaskAccess (selector : option (I -> string)) (action : PolicyAction) (opts : list (option AccessOption)) : AccessField :=
  fun _ input => ret ([TaskDescriptor (selectedValue input selector "*" opts) action], None).

(** The loop of [AccessFields]; a nil field is skipped, an error drops what was collected. *)
Fixpoint access_fields (fields : list (option AccessField)) (ctx : OpContext) (input : I) (out : list AccessDescriptor)
    : Audit (list AccessDescriptor * option GoError) :=
  match fields with
  | [] => ret (out, None)
  | None :: rest => access_fields rest ctx input out
  | Some field :: rest =>
      let+ (access, err) := field ctx input in
      match err with
      | Some e => ret ([], Some e)
      | None => access_fields rest ctx input (out ++ access)
      end
  end.
Definition AccessFields (fields : list (option AccessField)) : OpContext -> I -> Audit (list AccessDescriptor * option GoError) :=
  fun ctx input => access_fields fields ctx input [].
End Fields.
Arguments AccessField {_ _} I.

(** ** Authorization (authorization.go) *)

Record authorizationTarget := mkTarget { tg_Resource : ResourceRef; tg_Action : PolicyAction }.

Definition descriptorTargets (descriptors : list AccessDescriptor) : list authorizationTarget :=
  map (fun descriptor => mkTarget (ad_Resource descriptor) (ad_Action descriptor)) descriptors.

Definition wildcardName (value : string) : string :=
  let value := TrimSpace value in if decide (value = emp) then "*"%string else value.

Definition stringField `{JsonObjects} (input : Value) (name : string) : string :=
  if is_nil input then emp else
  match json_object input with
  | Err _ => emp
  | Ok values => match values !! name with Some (VString str) => TrimSpace str | _ => emp end
  end.

Definition datasourceTargets `{OperationTypes} `{JsonObjects} (spec : Spec) (input : Value) : list authorizationTarget :=
  let name := stringField input "datasource" in
  let ref := ref_Name (sp_Ref spec) in
  if decide (ref = "datasource_search"%string)
  then [mkTarget (named_resource ResourceDatasource (wildcardName name)) ActionDatasourceSearch]
  else if decide (ref ∈ ["datasource_get"; "datasource_batch_get"; "datasource_relation"]%string)
  then [mkTarget (named_resource ResourceDatasource (wildcardName name)) ActionDatasourceRead]
  else [].

Definition task_action (name : string) : PolicyAction :=
  if Contains name "run" then ActionTaskRun
  else if Contains name "create" || Contains name "modify" || Contains name "set" || Contains name "validate"
  then ActionTaskWrite else ActionTaskRead.
Definition namedOperationTargets `{OperationTypes} `{JsonObjects} (spec : Spec) (input : Value) : list authorizationTarget :=
  let name := ref_Name (sp_Ref spec) in
  if decide (name = "channel_send"%string)
  then [mkTarget (named_resource ResourceChannel (wildcardName (stringField input "channel"))) ActionChannelSend]
  else if HasPrefix name "task_"
  then [mkTarget (named_resource ResourceTask (wildcardName (stringField input "id"))) (task_action name)]
  else [].

Definition pathResource (target : IntentTarget) : ResourceRef :=
  match target with PathTarget path => path_resource path | _ => path_resource "**" end.
Definition processResource (target : IntentTarget) : ResourceRef :=
  match target with ProcessTarget command => named_resource ResourceProcess command | _ => named_resource ResourceProcess "*" end.
Definition networkResource (target : IntentTarget) : ResourceRef :=
  match target with
  | URLTarget url | BrowserTarget url => named_resource ResourceNetwork url
  | _ => named_resource ResourceNetwork "*"
  end.
(** The switch in the loop of [intentTargets]: other behaviours add nothing. *)
Definition intent_target (intent : Intent) : list authorizationTarget :=
  match in_Behavior intent with
  | IntentFilesystemRead => [mkTarget (pathResource (in_Target intent)) ActionWorkspaceRead]
  | IntentFilesystemWrite | IntentPersistenceModify => [mkTarget (pathResource (in_Target intent)) ActionWorkspaceWrite]
  | IntentCommandExecution => [mkTarget (processResource (in_Target intent)) ActionProcessExec]
  | IntentNetworkFetch | IntentBrowserAccess => [mkTarget (networkResource (in_Target intent)) ActionNetworkFetch]
  | IntentNetworkWrite => [mkTarget (networkResource (in_Target intent)) ActionNetworkConnect]
  | OtherBehavior _ => []
  end.
Definition intentTargets (intents : IntentSet) : list authorizationTarget := is_Operations intents ≫= intent_target.

(** [operation.IntentFor], of the operation module. *)
Class IntentModule `{OperationTypes} `{PolicyTypes} := {
  IntentFor : OpContext -> Operation -> Value -> Audit (IntentSet * bool * option GoError)
}.

Section Authorization.
Context `{OT : OperationTypes} {OM : OperationModule} `{PT : PolicyTypes} {PM : PolicyModule} {JO : JsonObjects} {SJ : SchemaJson}
  {OA : OperationApi} {GF : GoFmt} {IM : IntentModule}.

Definition resourceLabel (resource : ResourceRef) : string :=
  if negb (bool_decide (rr_Path resource = emp)) then (kind_text (rr_Kind resource) ++ ":" ++ rr_Path resource)%string
  else if negb (bool_decide (rr_Name resource = emp)) then (kind_text (rr_Kind resource) ++ ":" ++ rr_Name resource)%string
  else if negb (bool_decide (rr_ID resource = emp)) then (kind_text (rr_Kind resource) ++ ":" ++ rr_ID resource)%string
  else kind_text (rr_Kind resource).

Definition approval_required_text (e : AuthorizationApprovalRequired) : string :=
  let reason := TrimSpace (ar_Reason e) in
  let reason := if decide (reason = emp) then "approval_required"%string else reason in
  (reason ++ ": " ++ action_text (ar_Action e) ++ " " ++ resourceLabel (ar_Resource e))%string.
(** [err.Error()]. *)
Fixpoint error_text (e : GoError) : string :=
  match e with
  | ErrorText msg => msg
  | Wrapped prefix e => (prefix ++ error_text e)%string
  | ApprovalNeeded a => approval_required_text a
  end.

(** The loop of [authorizeAnyDatasource] over the resources of all grants. *)
Fixpoint any_datasource (auth : AuthorizationContext) (action : PolicyAction) (resources : list ResourceRef)
    (approval : Evaluation) : Evaluation :=
  match resources with
  | [] =>
      if decide (ev_Decision approval <> NoDecision) then approval
      else mkEvaluation DecisionDeny "no_matching_grant"
  | resource :: rest =>
      if decide (rr_Kind resource <> ResourceDatasource) then any_datasource auth action rest approval else
      let evaluation :=
        EvaluateAuthorization (au_Policy auth) (mkAuthRequest _ (au_Subjects auth) (au_Trust auth) resource action) in
      if decide (ev_Decision evaluation = DecisionAllow) then evaluation
      else if decide (ev_Decision evaluation = DecisionApprovalRequired) then any_datasource auth action rest evaluation
      else any_datasource auth action rest approval
  end.
Definition authorizeAnyDatasource (auth : AuthorizationContext) (action : PolicyAction) : Evaluation :=
  any_datasource auth action (concat (Policy_Grants (au_Policy auth))) (mkEvaluation NoDecision emp).

(** The loop of [Authorize] over the targets. *)
Fixpoint authorize_targets (ctx : OpContext) (auth : AuthorizationContext) (targets : list authorizationTarget)
    : Audit (option GoError) :=
  match targets with
  | [] => ret None
  | target :: rest =>
      let req := mkAuthRequest _ (au_Subjects auth) (au_Trust auth) (tg_Resource target) (tg_Action target) in
      let evaluation := EvaluateAuthorization (au_Policy auth) req in
      let approval reason := ApprovalNeeded (mkApprovalRequired (au_Subjects auth) (tg_Resource target) (tg_Action target) reason) in
      let decided ev := Emit ctx (AuthorizationDecided auth req ev) in
      let denied :=
        let+ _ := decided evaluation in
        ret (Some (ErrorText (ev_Reason evaluation ++ ": " ++ action_text (tg_Action target) ++ " " ++ resourceLabel (tg_Resource target)))) in
      if decide (ev_Decision evaluation = DecisionAllow) then
        let+ _ := decided evaluation in authorize_targets ctx auth rest
      else if decide (ev_Decision evaluation = DecisionApprovalRequired) then
        let+ _ := decided evaluation in ret (Some (approval (ev_Reason evaluation)))
      else if bool_decide (rr_Kind (tg_Resource target) = ResourceDatasource) && bool_decide (rr_Name (tg_Resource target) = "*"%string) then
        let fallback := authorizeAnyDatasource auth (tg_Action target) in
        let+ _ := decided fallback in
        match ev_Decision fallback with
        | DecisionAllow => authorize_targets ctx auth rest
        | DecisionApprovalRequired => ret (Some (approval (ev_Reason fallback)))
        | _ => denied
        end
      else denied
  end.

(** ** Targets of an operation *)

Definition default_target (spec : Spec) : authorizationTarget :=
  mkTarget (named_resource ResourceOperation (ref_Name (sp_Ref spec))) ActionOperationInvoke.
Definition authorizationTargets (ctx : OpContext) (op : Operation) (input : Value)
    : Audit (list authorizationTarget * option GoError) :=
  let+ (descriptors, ok, err) := AccessFor ctx op input in
  if ok : bool then
    ret match err with Some e => ([], Some e) | None => (descriptorTargets descriptors, None) end
  else
  let spec := OpSpec op in
  match datasourceTargets spec input with
  | (_ :: _) as targets => ret (targets, None)
  | [] =>
      match namedOperationTargets spec input with
      | (_ :: _) as targets => ret (targets, None)
      | [] =>
          let+ (intents, ok, err) := IntentFor ctx op input in
          ret match err with
              | Some e => ([], Some e)
              | None => if ok && negb (Intents_Empty intents) then (intentTargets intents, None) else ([default_target spec], None)
              end
      end
  end.

(** [AuthorizationGate.Authorize]. *)
Definition Authorize (ctx : OpContext) (op : Operation) (input : Value) : Audit (option GoError) :=
  match cx_Auth ctx with
  | None => ret None
  | Some auth =>
      if Policy_IsZero (au_Policy auth) then ret None else
      let+ (targets, err) := authorizationTargets ctx op input in
      match err with
      | Some e => ret (Some (Wrapped "access_descriptor_failed: " e))
      | None => authorize_targets ctx auth targets
      end
  end.
End Authorization.
