(* ===== verification/Safety.v ===== *)
(** * The safety envelope (src/runtime/operation/safety.go)

    The gate in front of operations with side effects: access control, secrets, classification of
    risk, approval and the sandbox, in this order, each refusal ending the check. *)

From S2P Require Import Prelude Operation OpModel NamedInstance Authorization.

Definition riskRank (risk : RiskLevel) : nat :=
  match risk with RiskCritical => 4 | RiskHigh => 3 | RiskMedium => 2 | RiskLow => 1 | _ => 0 end.
Definition riskAllowed (actual max : RiskLevel) : bool := riskRank actual <=? riskRank max.

Section Envelope.
Context `{OT : OperationTypes} {OM : OperationModule} `{PT : PolicyTypes} {PM : PolicyModule} {OA : OperationApi}
  {JO : JsonObjects} {SJ : SchemaJson} {GF : GoFmt} {IM : IntentModule}.

Definition requiresApproval (semantics : Semantics) : bool :=
  bool_decide (sem_Risk semantics = RiskHigh) || bool_decide (sem_Risk semantics = RiskCritical)
  || Effects_Has (sem_Effects semantics) EffectDestructive || Effects_Has (sem_Effects semantics) EffectIrreversible
  || Effects_Has (sem_Effects semantics) EffectDelete.
Definition explicitIntentRequired (semantics : Semantics) : bool := Effects_Has (sem_Effects semantics) EffectProcess.

(** The interfaces of the gates. *)
Definition Sandbox : Type := OpContext -> Spec -> Value -> Audit (option GoError).
Definition AccessController : Type := OpContext -> Operation -> Value -> Audit (option GoError).
Definition CommandRiskClassifier : Type := OpContext -> Spec -> IntentSet -> Audit (CommandRisk * option GoError).
Definition SecretGuard : Type := OpContext -> Spec -> Value -> Audit (option GoError).
Definition ApprovalGate : Type := OpContext -> ApprovalRequest -> Audit (option GoError).

Record SafetyEnvelope := mkEnvelope {
  se_Sandbox : option Sandbox;
  se_ACL : option AccessController;
  se_CommandRisk : option CommandRiskClassifier;
  se_Secrets : option SecretGuard;
  se_Approval : option ApprovalGate;
  se_AllowPure : bool;
  se_MaxCommandRisk : RiskLevel;
  se_ApproveOverMaxCommandRisk : bool
}.

Definition AutoApprover : ApprovalGate := fun _ _ => ret None.

(** The answer of a gate, noted in the log. *)
Definition asked (g : Gate) (m : Audit (option GoError)) : Audit (option GoError) :=
  let+ err := m in
  let+ _ := tell (match err with None => Passed g | Some _ => Refused g end) in
  ret err.
(** [if err := m; err != nil { return err }]. *)
Definition and_then (m k : Audit (option GoError)) : Audit (option GoError) :=
  let+ err := m in match err with Some e => ret (Some e) | None => k end.

(** ** Approval *)

Definition approvalRequiredError (risk : CommandRisk) : GoError :=
  let parts := (if decide (cr_Level risk <> RiskUnset) then [risk_text (cr_Level risk)] else [])
    ++ (if decide (TrimSpace (cr_Reason risk) <> emp) then [cr_Reason risk] else []) in
  match parts with
  | [] => ErrorText "approval_required"
  | _ => ErrorText ("approval_required: " ++ Join parts ": ")
  end.

(** [authorizeApproval]: the authority to approve, by the policy of the context. *)
Definition authorizeApproval (ctx : OpContext) (req : ApprovalRequest) : option GoError :=
  match cx_Auth ctx with
  | None => None
  | Some auth =>
      if Policy_IsZero (au_Policy auth) then None else
      let resource := apr_Resource req in
      let name := ref_Name (sp_Ref (apr_Spec req)) in
      let resource :=
        if bool_decide (rr_Kind resource = NoKind) && negb (bool_decide (name = emp))
        then named_resource ResourceOperation name else resource in
      let evaluation := EvaluateAuthorization (au_Policy auth)
        (mkAuthRequest _ (au_Subjects auth) (au_Trust auth) resource ActionApprovalGrant) in
      if decide (ev_Decision evaluation = DecisionAllow) then None else
      let reason := if decide (ev_Reason evaluation = emp) then decision_text (ev_Decision evaluation) else ev_Reason evaluation in
      Some (ErrorText ("approval_unauthorized: " ++ reason))
  end.

Definition approval_event (req : ApprovalRequest) : ApprovalEvent :=
  mkApprovalEvent (apr_Subjects req) (apr_Resource req) (apr_Action req) (sp_Ref (apr_Spec req)) (apr_Risk req) (apr_Reason req).
Definition deny (ctx : OpContext) (req : ApprovalRequest) (err : GoError) : Audit (option GoError) :=
  let+ _ := Emit ctx (ApprovalDenied (approval_event req) (error_text err)) in
  ret (Some err).
Definition approveRequest (e : SafetyEnvelope) (ctx : OpContext) (req : ApprovalRequest) : Audit (option GoError) :=
  let+ _ := Emit ctx (ApprovalRequested (approval_event req)) in
  match authorizeApproval ctx req with
  | Some err => deny ctx req err
  | None =>
      match se_Approval e with
      | None => deny ctx req (approvalRequiredError (apr_Risk req))
      | Some gate =>
          let+ err := asked (GateApproval req) (gate ctx req) in
          match err with
          | Some err => deny ctx req (Wrapped "approval_denied: " err)
          | None => let+ _ := Emit ctx (ApprovalGranted (approval_event req)) in ret None
          end
      end
  end.
Definition approve (e : SafetyEnvelope) (ctx : OpContext) (spec : Spec) (input : Value) (risk : CommandRisk)
    : Audit (option GoError) :=
  let subjects := match cx_Auth ctx with Some auth => au_Subjects auth | None => [] end in
  approveRequest e ctx (mkApprovalRequest subjects (mkResource NoKind emp emp emp) NoAction spec input risk emp).
Definition approveAuthorization (e : SafetyEnvelope) (ctx : OpContext) (spec : Spec) (input : Value)
    (approval : AuthorizationApprovalRequired) : Audit (option GoError) :=
  approveRequest e ctx
    (mkApprovalRequest (ar_Subjects approval) (ar_Resource approval) (ar_Action approval) spec input
       (mkCommandRisk RiskUnset (error_text (ApprovalNeeded approval)) true) (ar_Reason approval)).

(** ** The check *)

Definition acl_check (e : SafetyEnvelope) (ctx : OpContext) (op : Operation) (input : Value) : Audit (option GoError) :=
  match se_ACL e with
  | None => ret None
  | Some authorize =>
      let+ err := asked (GateACL (OpSpec op) input) (authorize ctx op input) in
      match err with
      | None => ret None
      | Some err =>
          match as_approval_required err with
          | Some approval => approveAuthorization e ctx (OpSpec op) input approval
          | None => ret (Some (Wrapped "acl_denied: " err))
          end
      end
  end.
Definition secrets_check (e : SafetyEnvelope) (ctx : OpContext) (spec : Spec) (input : Value) : Audit (option GoError) :=
  match se_Secrets e with
  | Some guard =>
      let+ err := asked (GateSecrets spec input) (guard ctx spec input) in
      ret match err with Some err => Some (Wrapped "secret_guard_denied: " err) | None => None end
  | None =>
      if Effects_Has (sem_Effects (sp_Semantics spec)) EffectSensitiveData
      then ret (Some (ErrorText "secret_guard_required")) else ret None
  end.

(** The risk of the execution: the classifier's for declared intents, else the declared one. *)
Definition risk_of (classify : CommandRiskClassifier) (ctx : OpContext) (op : Operation) (input : Value)
    : Audit (Result GoError CommandRisk) :=
  let spec := OpSpec op in
  let+ (intents, hasIntent, err) := IntentFor ctx op input in
  match err with
  | Some err => ret (Err (Wrapped "intent_failed: " err))
  | None =>
      if hasIntent && negb (Intents_Empty intents) then
        let+ (risk, err) := classify ctx spec intents in
        ret match err with Some err => Err (Wrapped "cmdrisk_failed: " err) | None => Ok risk end
      else if explicitIntentRequired (sp_Semantics spec) then ret (Err (ErrorText "intent_required"))
      else ret (Ok (mkCommandRisk (sem_Risk (sp_Semantics spec)) "declared operation risk" false))
  end.
Definition risk_denied (risk : CommandRisk) : GoError :=
  if decide (cr_Reason risk <> emp)
  then ErrorText ("cmdrisk_denied: " ++ risk_text (cr_Level risk) ++ ": " ++ cr_Reason risk)
  else ErrorText ("cmdrisk_denied: " ++ risk_text (cr_Level risk)).
(** What is done about a risk: whether it was approved. *)
Definition judge_risk (e : SafetyEnvelope) (ctx : OpContext) (spec : Spec) (input : Value) (risk : CommandRisk)
    : Audit (Result GoError bool) :=
  let approved (risk : CommandRisk) :=
    let+ err := approve e ctx spec input risk in
    ret match err with Some err => Err err | None => Ok true end in
  if cr_RequiresApproval risk then approved risk
  else if negb (bool_decide (se_MaxCommandRisk e = RiskUnset)) && negb (riskAllowed (cr_Level risk) (se_MaxCommandRisk e)) then
    if se_ApproveOverMaxCommandRisk e then approved (risk <| cr_RequiresApproval := true |>)
    else ret (Err (risk_denied risk))
  else ret (Ok false).
Definition risk_check (e : SafetyEnvelope) (ctx : OpContext) (op : Operation) (input : Value) : Audit (Result GoError bool) :=
  let spec := OpSpec op in
  match se_CommandRisk e with
  | Some classify =>
      let+ r := risk_of classify ctx op input in
      match r with
      | Err err => ret (Err err)
      | Ok risk =>
          let+ _ := tell (Passed (GateRisk spec input risk)) in
          judge_risk e ctx spec input risk
      end
  | None =>
      if Effects_Has (sem_Effects (sp_Semantics spec)) EffectProcess
      then ret (Err (ErrorText "cmdrisk_required")) else ret (Ok false)
  end.
Definition approval_check (e : SafetyEnvelope) (ctx : OpContext) (spec : Spec) (input : Value) (approved : bool)
    : Audit (option GoError) :=
  if requiresApproval (sp_Semantics spec) && negb approved then
    approve e ctx spec input
      (mkCommandRisk (sem_Risk (sp_Semantics spec)) "operation semantics require approval" true)
  else ret None.
Definition sandbox_check (e : SafetyEnvelope) (ctx : OpContext) (spec : Spec) (input : Value) : Audit (option GoError) :=
  match se_Sandbox e with
  | Some sandbox =>
      let+ err := asked (GateSandbox spec input) (sandbox ctx spec input) in
      ret match err with Some err => Some (Wrapped "sandbox_denied: " err) | None => None end
  | None =>
      if se_AllowPure e && Semantics_Pure (sp_Semantics spec) then ret None
      else if negb (Effects_Empty (sem_Effects (sp_Semantics spec))) then ret (Some (ErrorText "sandbox_required"))
      else ret None
  end.

(** [SafetyEnvelope.Check]. *)
Definition SafetyCheck (e : SafetyEnvelope) (ctx : OpContext) (op : Operation) (input : Value) : Audit (option GoError) :=
  let spec := OpSpec op in
  and_then (acl_check e ctx op input)
    (and_then (secrets_check e ctx spec input)
       (let+ r := risk_check e ctx op input in
        match r with
        | Err err => ret (Some err)
        | Ok approved => and_then (approval_check e ctx spec input approved) (sandbox_check e ctx spec input)
        end)).
End Envelope.
