(* ===== verification/Executor.v ===== *)
(** * The operation executor (src/runtime/operation/executor.go, middleware.go and validation.go)

    Execution of an operation inside a chain of middleware: events, the safety gate, validation of
    input and output, and the call itself. *)

From S2P Require Import Prelude Operation OpModel NamedInstance Authorization Safety.

(** The other constructor and statuses of [operation.Result] the executor uses. *)
Class OperationStatuses `{OperationApi} := {
  StatusRejected : string;
  StatusCanceled : string;
  Rejected : string -> string -> OpResult
}.

Section Executor.
Context `{OT : OperationTypes} {OM : OperationModule} `{PT : PolicyTypes} {PM : PolicyModule} {OA : OperationApi}
  {OS : OperationStatuses} {JO : JsonObjects} {SJ : SchemaJson} {GF : GoFmt}.

(** ** Middleware (middleware.go) *)

Definition Handler : Type := OpContext -> Value -> Audit OpResult.
Definition Middleware : Type := Handler -> Handler.
(** The loop runs from the last middleware to the first; a nil one is skipped. *)
Definition applyMiddleware (handler : Handler) (middlewares : list (option Middleware)) : Handler :=
  fold_left (fun wrapped middleware => match middleware with Some f => f wrapped | None => wrapped end)
    (rev middlewares) handler.

(** ** Validation (validation.go) *)

Definition Validator : Type := OpType -> Value -> Audit (option GoError).
Definition validationFailed (kind : string) (err : option GoError) : OpResult :=
  match err with
  | None => OpOK VNil
  | Some err => Failed "validation_failed" (kind ++ " validation failed: " ++ error_text err) {[ "kind"%string := VString kind ]}
  end.
Definition ValidatorFunc (f : option Validator) : Validator :=
  fun typ value => match f with None => ret None | Some f => f typ value end.

(** ** Execution *)

(** [SafetyGate], and [SafetyGateFunc]. *)
Definition SafetyGate : Type := OpContext -> Operation -> Value -> Audit (option GoError).
Definition SafetyGateFunc (f : option SafetyGate) : SafetyGate :=
  fun ctx op input => match f with None => ret None | Some f => f ctx op input end.

Record Executor := mkExecutor {
  ex_Validator : option Validator;
  ex_Middleware : list (option Middleware);
  ex_EventSink : option nat;
  ex_Safety : option SafetyGate
}.
#[global] Instance rebuild_Executor : Rebuild Executor := fun e =>
  mkExecutor e.(ex_Validator) e.(ex_Middleware) e.(ex_EventSink) e.(ex_Safety).
Definition ExecutorOption : Type := Executor -> Executor.
Definition WithValidator (validator : option Validator) : ExecutorOption := fun e => e <| ex_Validator := validator |>.
Definition WithMiddleware (middleware : list (option Middleware)) : ExecutorOption :=
  fun e => e <| ex_Middleware := ex_Middleware e ++ middleware |>.
Definition WithEventSink (sink : option nat) : ExecutorOption := fun e => e <| ex_EventSink := sink |>.
Definition WithSafetyGate (gate : option SafetyGate) : ExecutorOption := fun e => e <| ex_Safety := gate |>.
Definition NewExecutor (opts : list (option ExecutorOption)) : Executor :=
  fold_left (fun e opt => match opt with Some f => f e | None => e end) opts (mkExecutor None [] None None).

Definition normalize (result : OpResult) : OpResult :=
  if decide (or_Status result = emp) then result <| or_Status := StatusOK |> else result.

Definition ensureContext (e : Executor) (ctx : option OpContext) : OpContext :=
  match ctx with Some ctx => ctx | None => mkContext (ex_EventSink e) emp None end.

Definition terminal_event (callID : string) (ref : OpRef) (result : OpResult) : OpEvent :=
  if decide (or_Status result = StatusOK) then OperationCompleted callID ref
  else if decide (or_Status result = StatusRejected) then OperationRejected callID ref (or_Error result)
  else if decide (or_Status result = StatusCanceled) then OperationCanceled callID ref (or_Error result)
  else OperationFailed callID ref (or_Error result).
Definition emitTerminalEvent (ctx : OpContext) (callID : string) (ref : OpRef) (result : OpResult) : Audit unit :=
  Emit ctx (terminal_event callID ref result).

Definition validate (e : Executor) (typ : OpType) (value : Value) : Audit (option GoError) :=
  match ex_Validator e with
  | Some validator => if negb (Type_IsZero typ) then validator typ value else ret None
  | None => ret None
  end.
(** [base], the innermost handler. The call of the operation is noted in the log. *)
Definition base_handler (e : Executor) (op : Operation) : Handler := fun ctx input =>
  let spec := OpSpec op in
  let+ err := match ex_Safety e with Some gate => gate ctx op input | None => ret None end in
  match err with
  | Some err => ret (Rejected "operation_safety_denied" (error_text err))
  | None =>
      let+ err := validate e (sp_Input spec) input in
      match err with
      | Some err => ret (validationFailed "input" (Some err))
      | None =>
          let+ _ := tell (Ran spec input) in
          let+ result := OpRun op ctx input in
          let result := normalize result in
          if decide (or_Status result = StatusOK) then
            let+ err := validate e (sp_Output spec) (or_Output result) in
            match err with
            | Some err => ret (validationFailed "output" (Some err))
            | None => ret result
            end
          else ret result
      end
  end.

(** [Execute]; [op] may be nil. *)
Definition Execute (e : Executor) (ctx : option OpContext) (op : option Operation) (input : Value) : Audit OpResult :=
  match op with
  | None => ret (Failed "operation_missing" "operation is nil" ∅)
  | Some op =>
      let ctx := ensureContext e ctx in
      let ref := sp_Ref (OpSpec op) in
      let callID := cx_CallID ctx in
      let+ _ := Emit ctx (OperationStarted callID ref) in
      let+ result := applyMiddleware (base_handler e op) (ex_Middleware e) ctx input in
      let result := normalize result in
      let+ _ := emitTerminalEvent ctx callID ref result in
      ret result
  end.

(** ** Lifecycle *)

(** An execution of an operation emits its start first and one terminal event last, whatever the
    middleware, the gate, the validator and the operation do in between; the result has a status, and
    the terminal event is the one of that status, with the error of the result. *)
Theorem execution_lifecycle e ctx op input log :
  StatusOK <> emp ->
  let sink := cx_Events (ensureContext e ctx) in
  let callID := cx_CallID (ensureContext e ctx) in
  let ref := sp_Ref (OpSpec op) in
  exists result during,
    Execute e ctx (Some op) input log =
      (result, [Emitted sink (OperationStarted callID ref)] ++ during ++ [Emitted sink (terminal_event callID ref result)]) /\
    or_Status result <> emp.
Proof.
  intros Hok. cbv zeta. unfold Execute, Emit, tell, audit_bind. destruct (applyMiddleware _ _ _ _ _) as [r d] eqn:E.
  exists (normalize r), d. cbn. split; [done|]. unfold normalize. by case_decide.
Qed.
End Executor.

(** * Operation modules for the evaluated examples

    Concrete functions in place of the modules the runtime is built on: effect sets are lists, a policy
    is the list of the resources it grants. *)

Export DemoApi.

Module OpDemo.
#[export] Instance types : OperationTypes := { EffectSet := list Effect; no_effects := [] }.
#[export] Instance operations : OperationModule := {
  Effects_Has effects effect := bool_decide (effect ∈ effects);
  Effects_Empty effects := match effects with [] => true | _ => false end;
  Semantics_Pure semantics := match sem_Effects semantics with [] => true | _ => false end;
  Type_IsZero typ := bool_decide (ty_Name typ = emp);
  Intents_Empty intents := match is_Operations intents with [] => true | _ => false end;
  risk_text risk := match risk with RiskHigh => "high" | RiskMedium => "medium" | _ => "risk" end
}.
#[export] Instance policy_types : PolicyTypes := { SubjectRef := string; Trust := unit; AuthorizationPolicy := list ResourceRef }.
#[export] Instance policies : PolicyModule := {
  Policy_IsZero granted := match granted with [] => true | _ => false end;
  Policy_Grants granted := [granted];
  EvaluateAuthorization granted req :=
    if decide (aq_Resource req ∈ granted) then mkEvaluation DecisionAllow emp else mkEvaluation DecisionDeny "no_matching_grant";
  kind_text kind := match kind with ResourceOperation => "operation" | ResourcePath => "path" | _ => "resource" end;
  action_text action := match action with ActionOperationInvoke => "operation.invoke" | _ => "action" end;
  decision_text decision := match decision with DecisionAllow => "allow" | _ => "deny" end
}.
#[export] Instance statuses : OperationStatuses := {
  StatusRejected := "rejected";
  StatusCanceled := "canceled";
  Rejected code msg := mkOpResult "rejected" VNil (Some (mkOpError code msg))
}.
#[export] Instance objects : JsonObjects := { json_object v := match v with VNil => Ok ∅ | _ => Err "not an object"%string end }.
#[export] Instance schemas : SchemaJson := { schema_object _ := None; schema_text _ := Some "{}"%string }.
#[export] Instance quotes : GoFmt := { Quote s := s }.
#[export] Instance intents : IntentModule := {
  IntentFor ctx op input :=
    match OpIntent op with
    | None => ret (mkIntentSet [], false, None)
    | Some intent => let+ (set, err) := intent ctx input in ret (set, true, err)
    end
}.

Definition no_type : OpType := mkOpType emp (mkSchema emp emp).
Definition spec (name : string) (risk : RiskLevel) (effects : list Effect) : Spec :=
  mkSpec _ (mkOpRef name) no_type no_type (mkSemantics _ risk effects) ∅.
Definition echo (ctx : OpContext) (input : Value) : Audit OpResult := ret (OpOK input).
(** Only the operation [echo] is granted, and the right to approve. *)
Definition granted : list ResourceRef := [named_resource ResourceOperation "echo"].
Definition auth : AuthorizationContext := mkAuthContext _ granted ["timo"%string] tt.
Definition ctx : OpContext := mkContext (Some 0) "call" (Some auth).
End OpDemo.
