(* ===== verification/Instances.v ===== *)
(** * Filtering named instances

    [FilterNamedInstances] restricts a logical operation to some of its instances: what it still runs,
    it runs as before, and what it was not left it does not run, not even when one instance remains. *)

From stdpp Require Import sorting.
From S2P Require Import Prelude Operation OpModel NamedInstance Authorization Safety Executor.

(** ** Trimming is idempotent *)

Lemma trim_left_cases l : trim_left l = l \/ exists l', trim_left l = trim_left l' /\ length l' < length l.
Proof.
  destruct l as [|c1 l1]; [by left|]. cbn [trim_left]. destruct (is_space1 c1); [right; exists l1; cbn; split; [done|lia]|].
  destruct l1 as [|c2 l2]; [by left|]. destruct (is_space2 c1 c2); [right; exists l2; cbn; split; [done|lia]|].
  destruct l2 as [|c3 l3]; [by left|]. destruct (is_space3 c1 c2 c3); [right; exists l3; cbn; split; [done|lia]|by left].
Qed.
Lemma trim_left_length l : length (trim_left l) <= length l.
Proof.
  remember (length l) as n eqn:E. revert l E. induction n as [n IH] using lt_wf_ind. intros l ->.
  destruct (trim_left_cases l) as [->|(l' & -> & Hlt)]; [done|]. specialize (IH _ Hlt l' eq_refl). lia.
Qed.
Lemma trim_left_idem l : trim_left (trim_left l) = trim_left l.
Proof.
  remember (length l) as n eqn:E. revert l E. induction n as [n IH] using lt_wf_ind. intros l ->.
  destruct (trim_left_cases l) as [E|(l' & E & Hlt)]; rewrite E; [done|]. by apply (IH _ Hlt).
Qed.
Lemma trim_left_take l k : trim_left l = l -> trim_left (take k l) = take k l.
Proof.
  destruct l as [|c1 l1]; [by destruct k|]. cbn [trim_left]. destruct (is_space1 c1) eqn:E1.
  { intros H. pose proof (trim_left_length l1) as Hl. rewrite H in Hl. cbn in Hl. lia. }
  destruct l1 as [|c2 l2]; [intros _; destruct k as [|[|k]]; cbn; by rewrite ?E1|].
  destruct (is_space2 c1 c2) eqn:E2.
  { intros H. pose proof (trim_left_length l2) as Hl. rewrite H in Hl. cbn in Hl. lia. }
  destruct l2 as [|c3 l3]; [intros _; destruct k as [|[|[|k]]]; cbn; by rewrite ?E1, ?E2|].
  destruct (is_space3 c1 c2 c3) eqn:E3.
  { intros H. pose proof (trim_left_length l3) as Hl. rewrite H in Hl. cbn in Hl. lia. }
  intros _. destruct k as [|[|[|k]]]; cbn [take trim_left]; by rewrite ?E1, ?E2, ?E3.
Qed.

Lemma trim_left_rev_cases l :
  trim_left_rev l = l \/ exists k, 0 < k <= length l /\ trim_left_rev l = trim_left_rev (drop k l).
Proof.
  destruct l as [|c1 l1]; [by left|]. cbn [trim_left_rev]. destruct (is_space1 c1); [right; exists 1; cbn; split; [lia|done]|].
  destruct l1 as [|c2 l2]; [by left|]. destruct (is_space2 c2 c1); [right; exists 2; cbn; split; [lia|done]|].
  destruct l2 as [|c3 l3]; [by left|]. destruct (is_space3 c3 c2 c1); [right; exists 3; cbn; split; [lia|done]|by left].
Qed.
Lemma trim_left_rev_spec l :
  trim_left_rev (trim_left_rev l) = trim_left_rev l /\ exists k, trim_left_rev l = drop k l.
Proof.
  remember (length l) as n eqn:E. revert l E. induction n as [n IH] using lt_wf_ind. intros l ->.
  destruct (trim_left_rev_cases l) as [E|(k & Hk & E)].
  - rewrite !E. split; [done|]. by exists 0.
  - destruct (IH (length (drop k l))) with (l := drop k l) as (H & k' & Hk'); [rewrite length_drop; lia|done|].
    rewrite E. split; [done|]. exists (k + k'). by rewrite Hk', drop_drop.
Qed.

Lemma TrimSpace_idem s : TrimSpace (TrimSpace s) = TrimSpace s.
Proof.
  unfold TrimSpace. rewrite String.list_ascii_of_string_of_list_ascii. set (l := trim_left (String.list_ascii_of_string s)).
  destruct (trim_left_rev_spec (rev l)) as (Hidem & k & Hk).
  assert (Htake : rev (trim_left_rev (rev l)) = take (length l - k) l).
  { rewrite Hk, <- (rev_involutive l) at 1. rewrite rev_involutive. 
    by rewrite skipn_rev, rev_involutive. }
  assert (Hl : trim_left l = l) by apply trim_left_idem.
  rewrite Htake at 1. rewrite (trim_left_take l _ Hl), <- Htake, rev_involutive. by rewrite Hidem.
Qed.

(** ** Arrangements of instances *)

Section Instances.
Context `{OT : OperationTypes} {OM : OperationModule} `{PT : PolicyTypes} {OA : OperationApi} {JO : JsonObjects}
  {SJ : SchemaJson} {GF : GoFmt}.
Implicit Types (instances : list NamedInstance) (name : string).

(** What [cleanNamedInstances] makes: names are trimmed, not empty, different and in order. *)
Record arranged (instances : list NamedInstance) : Prop := {
  arr_names : Forall (fun name => name <> emp /\ TrimSpace name = name) (ni_Instance <$> instances);
  arr_nodup : NoDup (ni_Instance <$> instances);
  arr_sorted : StronglySorted (key_le ni_Instance) instances
}.

Lemma key_le_total : Total (key_le ni_Instance).
Proof. intros x y. apply String.le_total. Qed.
Lemma key_le_trans : Transitive (key_le ni_Instance).
Proof. intros x y z. unfold key_le. apply transitivity. Qed.

Lemma clean_loop_spec bs (seen : gset string) :
  Forall (fun name => name <> emp /\ TrimSpace name = name /\ name ∉ seen) (ni_Instance <$> clean_loop bs seen) /\
  NoDup (ni_Instance <$> clean_loop bs seen).
Proof.
  revert seen. induction bs as [|[name [op|]] bs IH]; intros seen; cbn [clean_loop]; [split; constructor| |apply IH].
  cbv zeta. set (instance := if decide (TrimSpace name = emp) then _ else _).
  destruct (bool_decide (instance = emp)) eqn:E1; [apply IH|]. destruct (bool_decide (instance ∈ seen)) eqn:E2; [apply IH|].
  apply bool_decide_eq_false in E1, E2. cbn [orb]. destruct (IH ({[instance]} ∪ seen)) as [Hall Hnd]. rewrite fmap_cons. split.
  - constructor.
    + split; [done|]. split; [|done]. subst instance. cbn. case_decide; [apply TrimSpace_idem|apply TrimSpace_idem].
    + apply Forall_forall. intros n Hn. eapply Forall_forall in Hall as (? & ? & ?); [|exact Hn]. set_solver.
  - constructor; [|done]. intros Hin. eapply Forall_forall in Hall as (_ & _ & Hnew); [|exact Hin]. apply Hnew. set_solver.
Qed.
Lemma clean_arranged bs : arranged (cleanNamedInstances bs).
Proof.
  destruct (clean_loop_spec bs ∅) as [Hall Hnd]. unfold cleanNamedInstances, sort_by.
  pose proof (merge_sort_Permutation (key_le ni_Instance) (clean_loop bs ∅)) as Hp. split.
  - apply Forall_forall. intros name Hin. rewrite Hp in Hin. eapply Forall_forall in Hall; [|exact Hin]. tauto.
  - by rewrite Hp.
  - apply StronglySorted_merge_sort; [apply key_le_trans|apply key_le_total].
Qed.

(** Cleaning an arrangement again changes nothing. *)
Definition as_bindings (instances : list NamedInstance) : list NamedInstanceBinding :=
  map (fun b => mkBinding (ni_Instance b) (Some (ni_Operation b))) instances.
Lemma clean_loop_same instances (seen : gset string) :
  Forall (fun name => name <> emp /\ TrimSpace name = name /\ name ∉ seen) (ni_Instance <$> instances) ->
  NoDup (ni_Instance <$> instances) -> clean_loop (as_bindings instances) seen = instances.
Proof.
  revert seen. induction instances as [|[name op] instances IH]; intros seen Hall Hnd; [done|].
  rewrite fmap_cons in *. cbn [ni_Instance] in *. apply Forall_cons in Hall as [(Hne & Htrim & Hnew) Hall].
  apply NoDup_cons in Hnd as [Hnin Hnd]. cbn [as_bindings map clean_loop ni_Instance ni_Operation]. cbv zeta. rewrite Htrim.
  rewrite (decide_False (P := name = emp)) by done. rewrite !bool_decide_false by done. cbn [orb]. f_equal. apply IH; [|done].
  apply Forall_forall. intros name' Hin. eapply Forall_forall in Hall as (? & ? & ?); [|exact Hin]. set_solver.
Qed.
Lemma clean_same instances : arranged instances -> cleanNamedInstances (as_bindings instances) = instances.
Proof.
  intros [Hall Hnd Hs]. unfold cleanNamedInstances. rewrite clean_loop_same; [| |done].
  2:{ apply Forall_forall. intros n Hn. eapply Forall_forall in Hall as (? & ?); [|exact Hn]. set_solver. }
  pose proof (merge_sort_Permutation (key_le ni_Instance) instances) as Hp.
  apply (StronglySorted_unique_strong (key_le ni_Instance)); [|apply StronglySorted_merge_sort|done|done].
  - intros x y Hx Hy Hxy Hyx. unfold sort_by in Hx. rewrite Hp in Hx. eapply nodup_fmap_inj; [exact Hnd|done|done|].
    by apply (anti_symm String.le).
  - apply key_le_trans.
  - apply key_le_total.
Qed.

Lemma filter_sorted (p : NamedInstance -> bool) instances :
  StronglySorted (key_le ni_Instance) instances -> StronglySorted (key_le ni_Instance) (List.filter p instances).
Proof.
  induction 1 as [|x l Hs IH Hall]; cbn; [constructor|]. destruct (p x); [|done]. constructor; [done|].
  apply Forall_forall. intros y [Hy _]%list_elem_of_In%filter_In. eapply Forall_forall in Hall; [exact Hall|]. by apply list_elem_of_In.
Qed.
Lemma filter_names (p : string -> bool) instances :
  ni_Instance <$> List.filter (fun b => p (ni_Instance b)) instances = List.filter p (ni_Instance <$> instances).
Proof. induction instances as [|[n o] l IH]; [done|]. cbn. destruct (p n); cbn; by rewrite IH. Qed.
Lemma filter_arranged (p : string -> bool) instances :
  arranged instances -> arranged (List.filter (fun b => p (ni_Instance b)) instances).
Proof.
  intros [Hall Hnd Hs]. split; [| |by apply filter_sorted]; rewrite filter_names.
  - apply Forall_forall. intros n [Hn _]%list_elem_of_In%filter_In. eapply Forall_forall in Hall; [exact Hall|]. by apply list_elem_of_In.
  - apply NoDup_ListNoDup, List.NoDup_filter. by apply NoDup_ListNoDup.
Qed.
Lemma find_filter {A} (f : Operation -> A) (p : string -> bool) instances name :
  find_instance f (List.filter (fun b => p (ni_Instance b)) instances) name = if p name then find_instance f instances name else None.
Proof.
  induction instances as [|[n o] l IH]; cbn; [by destruct (p name)|]. destruct (decide (n = name)) as [->|Hne].
  - destruct (p name) eqn:Ep; cbn; [by rewrite decide_True|]. done.
  - destruct (p n); cbn; rewrite ?decide_False by done; exact IH.
Qed.
Lemma find_some {A} (f : Operation -> A) instances name :
  is_Some (find_instance f instances name) <-> name ∈ ni_Instance <$> instances.
Proof.
  induction instances as [|[n o] l IH]; cbn; [split; [intros [? [=]]|by intros ?%not_elem_of_nil]|].
  destruct (decide (n = name)) as [->|Hne]; [split; [by left|by eexists]|]. rewrite IH, elem_of_cons. cbn. intuition congruence.
Qed.

(** ** Filtering *)

(** The instance an input names, and the input without the name. *)
Definition names_instance (input : Value) (name : string) (rest : Value) : Prop :=
  exists values, inputObject input = Ok values /\ name <> emp /\ rest = VMap (delete "instance"%string values) /\
    name = match values !! "instance"%string with Some (VString s) => TrimSpace s | _ => emp end.

Lemma instance_name_forced instances force input :
  instances <> [] -> 1 < length instances \/ force = true ->
  instance_name instances force input =
  (let? values := inputObject input in
   let instance := match values !! "instance"%string with Some (VString s) => TrimSpace s | _ => emp end in
   if decide (instance = emp) then Err "instance is required"%string
   else Ok (instance, VMap (delete "instance"%string values))).
Proof.
  intros Hne Hf. destruct instances as [|[n o] [|b l]]; [done| |by destruct force].
  destruct Hf as [Hf| ->]; [cbn in Hf; lia|done].
Qed.
Lemma instance_name_exact instances force input :
  instances <> [] -> 1 < length instances \/ force = true ->
  match instance_name instances force input with
  | Ok (name, rest) => names_instance input name rest
  | Err _ => forall name rest, ~ names_instance input name rest
  end.
Proof.
  intros Hne Hf. rewrite instance_name_forced by done. unfold names_instance.
  destruct (inputObject input) as [values|err]; cbn [res_bind].
  - cbv zeta. case_decide as Hemp.
    + intros name rest (v & [= <-] & Hname & _ & ->). done.
    + by exists values.
  - by intros name rest (v & [=] & _).
Qed.

(** Filtering a logical operation of several instances leaves exactly the allowed ones. An input
    that names an allowed instance runs as it did before filtering; any other input, also one that
    names no instance when a single one is left, fails before anything runs. *)
Theorem filtered_instances_exact kind bs allowed k instances force op ctx input :
  AggregateNamedInstances kind bs = Some (NamedInstances k instances force) -> 1 < length instances ->
  FilterNamedInstances (NamedInstances k instances force) allowed = Some op ->
  (forall name rest, names_instance input name rest -> name ∈ ni_Instance <$> instances ->
     allowed !! name = Some true -> OpRun op ctx input = OpRun (NamedInstances k instances force) ctx input) /\
  ((forall name rest, names_instance input name rest -> allowed !! name = Some true -> name ∉ ni_Instance <$> instances) ->
     exists code msg, OpRun op ctx input = ret (Failed code msg ∅)).
Proof.
  intros Hagg Hlen Hfilter. assert (Harr : arranged instances).
  { unfold AggregateNamedInstances in Hagg. pose proof (clean_arranged bs) as H.
    destruct (cleanNamedInstances bs) as [|[n o] l] eqn:E; [done|]. injection Hagg as _ <- _. done. }
  unfold FilterNamedInstances in Hfilter. rewrite (proj2 (Nat.ltb_lt _ _) Hlen) in Hfilter. cbn [orb] in Hfilter.
  set (p := fun name => default false (allowed !! name)). change (map _ (List.filter _ instances)) with (as_bindings (List.filter (fun b => p (ni_Instance b)) instances)) in Hfilter.
  unfold AggregateNamedInstances in Hfilter. rewrite (clean_same _ (filter_arranged p instances Harr)) in Hfilter.
  destruct (List.filter (fun b => p (ni_Instance b)) instances) as [|[n0 o0] left'] eqn:Eleft; [done|]. cbv zeta in Hfilter.
  injection Hfilter as <-. rewrite <- Eleft. clear Hagg.
  assert (Hp : forall name, p name = true <-> allowed !! name = Some true).
  { intros name. unfold p. destruct (allowed !! name) as [[]|]; cbn; split; congruence. }
  pose proof (instance_name_exact (List.filter (fun b => p (ni_Instance b)) instances) true input) as Hname.
  rewrite Eleft in Hname at 1. specialize (Hname ltac:(done) ltac:(by right)).
  cbn [OpRun]. unfold on_instance. rewrite (instance_name_forced instances force) by (try (by left); by destruct instances).
  rewrite (instance_name_forced _ true) in Hname |- * by (try (by right); by rewrite Eleft).
  destruct (inputObject input) as [values|err] eqn:Ev; cbn [res_bind] in *.
  - cbv zeta in *. set (name := match values !! _ with Some (VString s) => TrimSpace s | _ => emp end) in *.
    destruct (decide (name = emp)) as [He|He].
    { split; [intros n r Hn; by destruct (Hname n r)|]. intros _. by eexists _, _. }
    rewrite find_filter. split.
    + intros n r (v & Hv & _ & _ & ->) Hin Hall. rewrite Ev in Hv. injection Hv as <-. fold name in Hin, Hall. rewrite (proj2 (Hp name) Hall).
      destruct (find_instance _ instances name) eqn:Ed; [done|]. apply find_some with (f := fun _ => tt) in Hin.
      exfalso. assert (Hs : is_Some (find_instance (fun op' => OpRun op' ctx (VMap (delete "instance"%string values))) instances name)).
      { by apply find_some, (find_some (fun _ => tt)). }
      rewrite Ed in Hs. by destruct Hs.
    + intros Hno. destruct (p name) eqn:Epn; [|by eexists _, _]. apply Hp in Epn.
      destruct (find_instance _ instances name) eqn:Ed; [|by eexists _, _]. exfalso.
      apply (Hno name _ Hname Epn). eapply find_some. by rewrite Ed.
  - split; [intros n r Hn; by destruct (Hname n r)|]. intros _. by eexists _, _.
Qed.
End Instances.

(** ** Examples *)

Import OpDemo.

Module InstancesDemo.
Definition tool (name : string) : Operation := Plain (spec "tool" RiskLow []) (fun _ _ => ret (OpOK (VString name))) None None.
Definition bindings : list NamedInstanceBinding :=
  [mkBinding "work " (Some (tool "work")); mkBinding "home" (Some (tool "home")); mkBinding "work" None; mkBinding "home" (Some (tool "other"))].
Definition instances : list NamedInstance := [mkInstance "home" (tool "home"); mkInstance "work" (tool "work")].
Definition only_work : gmap string bool := {[ "work" := true ]}.
Definition to (name : string) : Value := VMap {[ "instance" := VString name ]}.
End InstancesDemo.

(** Of two instances one is left: it must still be named, and the other one cannot be. *)
Lemma filtered_instances_exact_witness :
  (OpRun (NamedInstances "k" [mkInstance "work" (InstancesDemo.tool "work")] true) ctx (InstancesDemo.to "work") []).1 = OpOK (VString "work") /\
  OpRun (NamedInstances "k" [mkInstance "work" (InstancesDemo.tool "work")] true) ctx (InstancesDemo.to "work") =
    OpRun (NamedInstances "k" InstancesDemo.instances false) ctx (InstancesDemo.to "work") /\
  exists code msg, OpRun (NamedInstances "k" [mkInstance "work" (InstancesDemo.tool "work")] true) ctx (InstancesDemo.to "home") = ret (Failed code msg ∅).
Proof.
  split; [by vm_compute|]. split.
  - apply (filtered_instances_exact "k" InstancesDemo.bindings InstancesDemo.only_work "k" InstancesDemo.instances false
      (NamedInstances "k" [mkInstance "work" (InstancesDemo.tool "work")] true) ctx (InstancesDemo.to "work")) with (name := "work"%string) (rest := VMap ∅).
    + vm_compute. reflexivity.
    + cbn. lia.
    + vm_compute. reflexivity.
    + exists {[ "instance"%string := VString "work" ]}. split; [reflexivity|]. split; [discriminate|]. split; [reflexivity|by vm_compute].
    + right. left.
    + reflexivity.
  - apply (filtered_instances_exact "k" InstancesDemo.bindings InstancesDemo.only_work "k" InstancesDemo.instances false
      (NamedInstances "k" [mkInstance "work" (InstancesDemo.tool "work")] true) ctx (InstancesDemo.to "home")).
    + vm_compute. reflexivity.
    + cbn. lia.
    + vm_compute. reflexivity.
    + intros name rest (values & [= <-] & _ & _ & ->) Hall. by vm_compute in Hall.
Defined.
