(* ===== verification/Guarded.v ===== *)
(** * No operation runs unguarded

    With the safety envelope installed, whatever the middleware does, every call of the operation is
    preceded by the answers the envelope requires for its specification and input. *)

From S2P Require Import Prelude Operation OpModel NamedInstance Authorization Safety Executor.

Section Guarded.
Context `{OT : OperationTypes} {OM : OperationModule} `{PT : PolicyTypes} {PM : PolicyModule} {OA : OperationApi}
  {OS : OperationStatuses} {JO : JsonObjects} {SJ : SchemaJson} {GF : GoFmt} {IM : IntentModule}.
Context (e : SafetyEnvelope).
Implicit Types (d : list Entry) (spec : Spec) (input : Value).

(** ** What must have happened *)

(** An approval was asked for this execution and given, by someone with the authority. *)
Record approved (spec : Spec) (input : Value) (req : ApprovalRequest) (d : list Entry) : Prop := {
  ap_spec : apr_Spec req = spec;
  ap_input : apr_Input req = input;
  ap_gate : se_Approval e <> None;
  ap_passed : Passed (GateApproval req) ∈ d;
  ap_granted : exists ctx, authorizeApproval ctx req = None /\
    Emitted (cx_Events ctx) (ApprovalRequested (approval_event req)) ∈ d /\
    Emitted (cx_Events ctx) (ApprovalGranted (approval_event req)) ∈ d
}.
(** A risk nobody needs to approve. *)
Definition tolerated (risk : CommandRisk) : Prop :=
  cr_RequiresApproval risk = false /\
  (se_MaxCommandRisk e = RiskUnset \/ riskRank (cr_Level risk) <= riskRank (se_MaxCommandRisk e)).

Record guarded (spec : Spec) (input : Value) (d : list Entry) : Prop := {
  gd_acl : se_ACL e <> None ->
    Passed (GateACL spec input) ∈ d \/ exists req, Refused (GateACL spec input) ∈ d /\ approved spec input req d;
  gd_secrets :
    match se_Secrets e with
    | Some _ => Passed (GateSecrets spec input) ∈ d
    | None => Effects_Has (sem_Effects (sp_Semantics spec)) EffectSensitiveData = false
    end;
  gd_risk :
    match se_CommandRisk e with
    | Some _ => exists risk, Passed (GateRisk spec input risk) ∈ d /\
        (tolerated risk \/
         exists req, approved spec input req d /\ apr_Risk req = mkCommandRisk (cr_Level risk) (cr_Reason risk) true)
    | None => Effects_Has (sem_Effects (sp_Semantics spec)) EffectProcess = false
    end;
  gd_approval : requiresApproval (sp_Semantics spec) = true -> exists req, approved spec input req d;
  gd_sandbox :
    match se_Sandbox e with
    | Some _ => Passed (GateSandbox spec input) ∈ d
    | None => se_AllowPure e && Semantics_Pure (sp_Semantics spec) = true \/ Effects_Empty (sem_Effects (sp_Semantics spec)) = true
    end
}.

Lemma approved_mono spec input req d d' : approved spec input req d -> d ⊆ d' -> approved spec input req d'.
Proof. intros [Hs Hi Hg Hp (ctx & Ha & H1 & H2)] Hsub. split; auto. exists ctx. auto. Qed.
Lemma guarded_mono spec input d d' : guarded spec input d -> d ⊆ d' -> guarded spec input d'.
Proof.
  intros [Hacl Hsec Hrisk Happ Hsb] Hsub. split.
  - intros Hne. destruct (Hacl Hne) as [?|(req & ? & ?)]; [auto|]. right. exists req. eauto using approved_mono.
  - destruct (se_Secrets e); auto.
  - destruct (se_CommandRisk e); [|done]. destruct Hrisk as (risk & Hin & [?|(req & ? & ?)]); exists risk; split; auto.
    right. exists req. eauto using approved_mono.
  - intros Hr. destruct (Happ Hr) as (req & ?). exists req. eauto using approved_mono.
  - destruct (se_Sandbox e); auto.
Qed.

(** ** Computations in which every call is guarded *)

Definition all_guarded (d : list Entry) : Prop :=
  forall before spec input after, d = before ++ Ran spec input :: after -> guarded spec input before.
Definition honest {A} (m : Audit A) : Prop := post m (fun _ d => all_guarded d).

Lemma all_guarded_nil : all_guarded [].
Proof. intros [|] ? ? ? [=]. Qed.
Lemma all_guarded_app d d' : all_guarded d -> all_guarded d' -> all_guarded (d ++ d').
Proof.
  intros H H' before spec input after E. apply app_eq_app in E as (l & [[-> E]|[-> E]]).
  - destruct l as [|x l].
    + cbn in E. subst d'. eapply guarded_mono; [by apply (H' [] spec input after)|set_solver].
    + injection E as <- E. by apply (H _ _ _ l).
  - eapply guarded_mono; [by eapply H'|set_solver].
Qed.
Lemma all_guarded_one x : (forall spec input, x <> Ran spec input) -> all_guarded [x].
Proof. intros Hx [|y [|]] spec input after E; try done. injection E as -> _. by destruct (Hx spec input). Qed.

Lemma honest_ret {A} (a : A) : honest (ret a).
Proof. apply post_ret, all_guarded_nil. Qed.
Lemma honest_bind {A B} (m : Audit A) (k : A -> Audit B) :
  honest m -> (forall a, honest (k a)) -> honest (audit_bind m k).
Proof.
  intros Hm Hk. eapply post_bind; [exact Hm|]. intros a d1 H1. eapply post_weaken; [apply Hk|].
  intros b d2 H2. by apply all_guarded_app.
Qed.
Lemma honest_emit ctx ev : honest (Emit ctx ev).
Proof. apply post_tell, all_guarded_one. done. Qed.
Lemma honest_note (b : bool) g : honest (tell (if b then Passed g else Refused g)).
Proof. apply post_tell, all_guarded_one. by destruct b. Qed.
Lemma honest_passed g : honest (tell (Passed g)).
Proof. exact (honest_note true g). Qed.
Lemma honest_asked g m : honest m -> honest (asked g m).
Proof.
  intros Hm. apply honest_bind; [done|]. intros err. apply honest_bind; [|intros; apply honest_ret].
  destruct err; [apply (honest_note false)|apply (honest_note true)].
Qed.
Lemma honest_and_then m k : honest m -> honest k -> honest (and_then m k).
Proof. intros Hm Hk. apply honest_bind; [done|]. intros []; [apply honest_ret|done]. Qed.
Lemma honest_deny ctx req err : honest (deny ctx req err).
Proof. apply honest_bind; [apply honest_emit|intros; apply honest_ret]. Qed.

(** The functions the envelope asks about this operation call no operation unguarded. *)
Record honest_gates (op : Operation) : Prop := {
  hg_sandbox f ctx spec input : se_Sandbox e = Some f -> honest (f ctx spec input);
  hg_acl f ctx input : se_ACL e = Some f -> honest (f ctx op input);
  hg_risk f ctx spec intents : se_CommandRisk e = Some f -> honest (f ctx spec intents);
  hg_secrets f ctx spec input : se_Secrets e = Some f -> honest (f ctx spec input);
  hg_approval f ctx req : se_Approval e = Some f -> honest (f ctx req);
  hg_intent ctx input : honest (IntentFor ctx op input)
}.

(** ** What each check has seen when it passes *)

Lemma post_trivial {A} (m : Audit A) : post m (fun _ _ => True).
Proof. done. Qed.
Lemma post_asked g m : post (asked g m) (fun err d => (if err then Refused g else Passed g) ∈ d).
Proof.
  eapply post_bind; [apply post_trivial|]. intros err d1 _. eapply post_bind; [apply (post_tell _ (fun _ d => d = [if err then Refused g else Passed g]))|].
  - by destruct err.
  - intros _ d2 ->. apply post_ret. set_solver.
Qed.
Lemma post_and_then m k (P Q : list Entry -> Prop) :
  post m (fun err d => err = None -> P d) -> post k (fun err d => err = None -> Q d) ->
  (forall d d', P d -> d ⊆ d' -> P d') -> (forall d d', Q d -> d ⊆ d' -> Q d') ->
  post (and_then m k) (fun err d => err = None -> P d /\ Q d).
Proof.
  intros Hm Hk HP HQ. eapply post_bind; [exact Hm|]. intros [err|] d1 H1; [by apply post_ret|].
  eapply post_weaken; [exact Hk|]. intros err d2 H2 Herr. split; [eapply HP; [by apply H1|]|eapply HQ; [by apply H2|]]; set_solver.
Qed.

Lemma post_approve_request ctx req :
  post (approveRequest e ctx req) (fun err d => err = None -> approved (apr_Spec req) (apr_Input req) req d).
Proof.
  eapply post_bind; [by apply (post_tell _ (fun _ d => d = [Emitted (cx_Events ctx) (ApprovalRequested (approval_event req))]))|].
  intros _ d1 ->. assert (Hdeny : forall err, post (deny ctx req err) (fun err _ => err <> None)).
  { intros err. eapply post_bind; [apply post_trivial|]. intros _ d _. by apply post_ret. }
  destruct (authorizeApproval ctx req) as [err|] eqn:Ha.
  { eapply post_weaken; [apply Hdeny|]. by intros. }
  destruct (se_Approval e) as [gate|] eqn:Hgate.
  - eapply post_bind; [apply post_asked|]. intros [err|] d2 H2.
    { eapply post_weaken; [apply Hdeny|]. by intros. }
    eapply post_bind; [by apply (post_tell _ (fun _ d => d = [Emitted (cx_Events ctx) (ApprovalGranted (approval_event req))]))|].
    intros _ d3 ->. apply post_ret. intros _. split; [done|done|by rewrite Hgate|set_solver|]. exists ctx. split; [done|]. set_solver.
  - eapply post_weaken; [apply Hdeny|]. by intros.
Qed.
Lemma post_approve ctx spec input risk :
  post (approve e ctx spec input risk) (fun err d => err = None -> exists req, approved spec input req d /\ apr_Risk req = risk).
Proof. eapply post_weaken; [apply post_approve_request|]. intros err d H Herr. eexists. split; [by apply H|done]. Qed.

Lemma post_acl ctx op input :
  post (acl_check e ctx op input) (fun err d => err = None -> se_ACL e <> None ->
    Passed (GateACL (OpSpec op) input) ∈ d \/
    exists req, Refused (GateACL (OpSpec op) input) ∈ d /\ approved (OpSpec op) input req d).
Proof.
  unfold acl_check. destruct (se_ACL e) as [authorize|]; [|by apply post_ret].
  eapply post_bind; [apply post_asked|]. intros [err|] d1 H1.
  - destruct (as_approval_required err) as [approval|]; [|by apply post_ret].
    eapply post_weaken; [apply post_approve_request|]. intros err' d2 H2 Herr _. right. eexists.
    split; [set_solver|]. eapply approved_mono; [by apply H2|set_solver].
  - apply post_ret. intros _ _. left. set_solver.
Qed.
Lemma post_secrets ctx spec input :
  post (secrets_check e ctx spec input) (fun err d => err = None ->
    match se_Secrets e with
    | Some _ => Passed (GateSecrets spec input) ∈ d
    | None => Effects_Has (sem_Effects (sp_Semantics spec)) EffectSensitiveData = false
    end).
Proof.
  unfold secrets_check. destruct (se_Secrets e) as [guard|].
  - eapply post_bind; [apply post_asked|]. intros [err|] d1 H1; apply post_ret; [done|]. intros _. set_solver.
  - destruct (Effects_Has _ _) eqn:E; by apply post_ret.
Qed.
Lemma post_sandbox ctx spec input :
  post (sandbox_check e ctx spec input) (fun err d => err = None ->
    match se_Sandbox e with
    | Some _ => Passed (GateSandbox spec input) ∈ d
    | None => se_AllowPure e && Semantics_Pure (sp_Semantics spec) = true \/ Effects_Empty (sem_Effects (sp_Semantics spec)) = true
    end).
Proof.
  unfold sandbox_check. destruct (se_Sandbox e) as [sandbox|].
  - eapply post_bind; [apply post_asked|]. intros [err|] d1 H1; apply post_ret; [done|]. intros _. set_solver.
  - destruct (_ && _) eqn:E1; [apply post_ret; by left|]. destruct (Effects_Empty _) eqn:E2; apply post_ret; [by right|done].
Qed.

(** The risk found is tolerated, or was approved; in the second case the check says so. *)
Definition risk_settled (spec : Spec) (input : Value) (b : bool) (d : list Entry) : Prop :=
  match se_CommandRisk e with
  | Some _ => exists risk, Passed (GateRisk spec input risk) ∈ d /\
      ((b = false /\ tolerated risk) \/
       (b = true /\ exists req, approved spec input req d /\ apr_Risk req = mkCommandRisk (cr_Level risk) (cr_Reason risk) true))
  | None => b = false /\ Effects_Has (sem_Effects (sp_Semantics spec)) EffectProcess = false
  end.
Lemma post_judge ctx spec input risk :
  post (judge_risk e ctx spec input risk) (fun r d => forall b, r = Ok b ->
    (b = false /\ tolerated risk) \/
    (b = true /\ exists req, approved spec input req d /\ apr_Risk req = mkCommandRisk (cr_Level risk) (cr_Reason risk) true)).
Proof.
  assert (Happrove : forall risk', risk' = mkCommandRisk (cr_Level risk) (cr_Reason risk) true ->
    post (let+ err := approve e ctx spec input risk' in ret match err with Some err => Err err | None => Ok true end)
      (fun r d => forall b, r = Ok b -> (b = false /\ tolerated risk) \/
        (b = true /\ exists req, approved spec input req d /\ apr_Risk req = mkCommandRisk (cr_Level risk) (cr_Reason risk) true))).
  { intros risk' ->. eapply post_bind; [apply post_approve|]. intros [err|] d1 H1; apply post_ret; [done|].
    intros b [= <-]. right. split; [done|]. destruct (H1 eq_refl) as (req & Hreq & Hr). exists req.
    split; [eapply approved_mono; [done|set_solver]|done]. }
  unfold judge_risk. destruct (cr_RequiresApproval risk) eqn:Hreq.
  - apply Happrove. destruct risk. cbn in *. by subst.
  - destruct (_ && _) eqn:E.
    + destruct (se_ApproveOverMaxCommandRisk e); [by apply Happrove|by apply post_ret].
    + apply post_ret. intros b [= <-]. left. split; [done|]. split; [done|].
      apply andb_false_iff in E as [E%negb_false_iff%bool_decide_eq_true|E%negb_false_iff%Nat.leb_le]; auto.
Qed.
Lemma post_risk ctx op input :
  post (risk_check e ctx op input) (fun r d => forall b, r = Ok b -> risk_settled (OpSpec op) input b d).
Proof.
  unfold risk_check, risk_settled. destruct (se_CommandRisk e) as [classify|].
  - eapply post_bind; [apply post_trivial|]. intros [risk|err] d1 _; [|by apply post_ret].
    eapply post_bind; [by apply (post_tell _ (fun _ d => d = [Passed (GateRisk (OpSpec op) input risk)]))|].
    intros _ d2 ->. eapply post_weaken; [apply post_judge|]. intros r d3 H3 b Hb. exists risk. split; [set_solver|].
    destruct (H3 b Hb) as [?|(? & req & ? & ?)]; [by left|right]. split; [done|]. exists req.
    split; [eapply approved_mono; [done|set_solver]|done].
  - destruct (Effects_Has _ _) eqn:E; apply post_ret; [done|]. by intros b [= <-].
Qed.
Lemma post_approval ctx spec input b :
  post (approval_check e ctx spec input b) (fun err d => err = None ->
    requiresApproval (sp_Semantics spec) = true -> b = true \/ exists req, approved spec input req d).
Proof.
  unfold approval_check. destruct (requiresApproval _) eqn:Hr, b; cbn; try (apply post_ret; by auto).
  eapply post_weaken; [apply post_approve|]. intros err d H Herr _. right. destruct (H Herr) as (req & ? & _). by exists req.
Qed.

Lemma risk_settled_mono spec input b d d' : risk_settled spec input b d -> d ⊆ d' -> risk_settled spec input b d'.
Proof.
  unfold risk_settled. intros H Hsub. destruct (se_CommandRisk e); [|done]. destruct H as (risk & ? & H). exists risk.
  split; [auto|]. destruct H as [?|(? & req & ? & ?)]; [by left|right]. eauto 6 using approved_mono.
Qed.

(** The whole check. *)
Lemma post_check ctx op input :
  post (SafetyCheck e ctx op input) (fun err d => err = None -> guarded (OpSpec op) input d).
Proof.
  eapply post_bind; [apply post_acl|]. intros [err|] d1 H1; [by apply post_ret|].
  eapply post_bind; [apply post_secrets|]. intros [err|] d2 H2; [by apply post_ret|].
  eapply post_bind; [apply post_risk|]. intros [b|err] d3 H3; [|by apply post_ret].
  eapply post_bind; [apply post_approval|]. intros [err|] d4 H4; [by apply post_ret|].
  eapply post_weaken; [apply post_sandbox|]. intros err d5 H5 Herr.
  specialize (H3 b eq_refl). split.
  - intros Hne. destruct (H1 eq_refl Hne) as [?|(req & ? & ?)]; [left; set_solver|right]. exists req.
    split; [set_solver|]. eapply approved_mono; [done|set_solver].
  - specialize (H2 eq_refl). destruct (se_Secrets e); [set_solver|done].
  - unfold risk_settled in H3. destruct (se_CommandRisk e); [|by destruct H3]. destruct H3 as (risk & ? & H3). exists risk.
    split; [set_solver|]. destruct H3 as [[_ ?]|(_ & req & ? & ?)]; [by left|right]. exists req.
    split; [eapply approved_mono; [done|set_solver]|done].
  - intros Hr. destruct (H4 eq_refl Hr) as [->|(req & ?)]; [|exists req; eapply approved_mono; [done|set_solver]].
    unfold risk_settled in H3. destruct (se_CommandRisk e); [|by destruct H3].
    destruct H3 as (risk & _ & [[? _]|(_ & req & ? & _)]); [done|]. exists req. eapply approved_mono; [done|set_solver].
  - specialize (H5 Herr). destruct (se_Sandbox e); [set_solver|done].
Qed.

(** ** The executor *)

#[local] Hint Resolve honest_ret honest_emit honest_passed honest_asked honest_deny : audit.
(** Goes through a computation, down to the calls of the functions given. *)
Ltac honest :=
  repeat first
    [ progress auto with audit
    | apply honest_and_then
    | apply honest_bind; [|intros]
    | match goal with |- context [match ?x with _ => _ end] => let E := fresh "E" in destruct x eqn:E end ].

Lemma honest_check ctx op input : honest_gates op -> honest (SafetyCheck e ctx op input).
Proof.
  intros [Hsandbox Hacl Hrisk Hsecrets Happroval Hintent].
  assert (Hreq : forall req, honest (approveRequest e ctx req)) by (intros req; unfold approveRequest; honest).
  assert (Happ : forall spec input risk, honest (approve e ctx spec input risk)) by (intros; apply Hreq).
  unfold SafetyCheck, acl_check, secrets_check, risk_check, risk_of, judge_risk, approval_check, sandbox_check, approveAuthorization.
  honest.
Qed.

(** The authorization gate of this package is such a function. *)
Lemma honest_targets ctx auth targets : honest (authorize_targets ctx auth targets).
Proof.
  induction targets as [|t rest IH]; cbn [authorize_targets]; [apply honest_ret|]. cbv zeta.
  assert (Hdenied : forall ev err, honest (let+ _ := Emit ctx ev in ret (Some err) : Audit (option GoError))) by (intros; honest).
  honest.
Qed.
Lemma honest_authorize ctx op input :
  (forall access, Access op = Some access -> honest (access ctx input)) -> honest (IntentFor ctx op input) ->
  honest (Authorize ctx op input).
Proof.
  intros Haccess Hintent. pose proof honest_targets as Htargets. unfold Authorize, authorizationTargets, AccessFor. honest.
Qed.

(** Handlers that call no operation unguarded, and middleware that reaches operations only through
    the handler it is given. *)
Definition honest_handler (h : Handler) : Prop := forall ctx input, honest (h ctx input).
Definition transparent (f : Middleware) : Prop := forall h, honest_handler h -> honest_handler (f h).

Lemma honest_chain h middlewares :
  honest_handler h -> Forall (fun m => forall f, m = Some f -> transparent f) middlewares ->
  honest_handler (applyMiddleware h middlewares).
Proof.
  intros Hh Hall. unfold applyMiddleware. assert (Hrev : Forall (fun m => forall f, m = Some f -> transparent f) (rev middlewares)).
  { by apply Forall_rev. }
  revert h Hh. induction Hrev as [|m rest Hm _ IH]; intros h Hh; cbn; [done|]. apply IH.
  destruct m as [f|]; [by apply Hm|done].
Qed.

Section Execution.
Context (executor : Executor) (op : Operation).

Lemma honest_validate typ value :
  (forall f, ex_Validator executor = Some f -> forall typ value, honest (f typ value)) -> honest (validate executor typ value).
Proof. intros H. unfold validate. honest. Qed.

Lemma honest_base :
  ex_Safety executor = Some (SafetyCheck e) -> honest_gates op ->
  (forall f, ex_Validator executor = Some f -> forall typ value, honest (f typ value)) ->
  honest_handler (OpRun op) -> honest_handler (base_handler executor op).
Proof.
  intros Hsafety Hgates Hvalid Hrun ctx input. unfold base_handler. rewrite Hsafety.
  eapply post_bind; [apply post_and; [by apply honest_check|apply post_check]|].
  intros [err|] d1 [H1 Hg]; [apply post_ret; by rewrite app_nil_r|].
  eapply post_bind; [by apply honest_validate|]. intros [err|] d2 H2.
  { apply post_ret. rewrite app_nil_r. by apply all_guarded_app. }
  eapply post_bind; [by apply (post_tell _ (fun _ d => d = [Ran (OpSpec op) input]))|]. intros _ d3 ->.
  assert (Hran : all_guarded (d1 ++ d2 ++ [Ran (OpSpec op) input])).
  { intros before spec inp after E. rewrite app_assoc in E. apply app_eq_app in E as (l & [[E1 E2]|[E1 E2]]).
    - destruct l as [|x l].
      + cbn in E2. injection E2 as -> -> _. rewrite app_nil_r in E1. subst before.
        eapply guarded_mono; [by apply Hg|set_solver].
      + injection E2 as <- E2. by apply (all_guarded_app _ _ H1 H2 before spec inp l).
    - destruct l as [|x l]; cbn in E2.
      + injection E2 as <- <- _. rewrite app_nil_r in E1. subst before. eapply guarded_mono; [by apply Hg|set_solver].
      + injection E2 as _ E2. by destruct l. }
  assert (Hrest : honest (let+ result := OpRun op ctx input in
    let result := normalize result in
    if decide (or_Status result = StatusOK) then
      let+ err := validate executor (sp_Output (OpSpec op)) (or_Output result) in
      match err with Some err => ret (validationFailed "output" (Some err)) | None => ret result end
    else ret result)).
  { apply honest_bind; [apply Hrun|]. intros result. cbv zeta. case_decide; [|apply honest_ret].
    apply honest_bind; [by apply honest_validate|]. intros []; apply honest_ret. }
  eapply post_weaken; [apply Hrest|]. intros r d4 H4. rewrite !app_assoc, <- (app_assoc d1 d2). by apply all_guarded_app.
Qed.
End Execution.
End Guarded.

(** C6: Behind the safety envelope no operation runs unguarded. In every execution, whatever the
    middleware makes of inputs and however often it calls on, each call of the operation comes after
    the answers the envelope asks for with that specification and input: the access controller
    allowed it or someone with the authority approved it; the secret guard passed it, or it touches no
    secrets; its risk is within the maximum, or was approved; high and critical risks and destructive,
    irreversible and deleting effects were approved; the sandbox accepted it, or it has no effects, or
    is pure and pure operations are allowed. *)
Theorem no_unguarded_run `{OT : OperationTypes} {OM : OperationModule} `{PT : PolicyTypes} {PM : PolicyModule}
    {OA : OperationApi} {OS : OperationStatuses} {JO : JsonObjects} {SJ : SchemaJson} {GF : GoFmt} {IM : IntentModule}
    (e : SafetyEnvelope) (executor : Executor) ctx (op : Operation) input log :
  ex_Safety executor = Some (SafetyCheck e) -> honest_gates e op ->
  (forall f, ex_Validator executor = Some f -> forall typ value, honest e (f typ value)) ->
  Forall (fun m => forall f, m = Some f -> transparent e f) (ex_Middleware executor) ->
  honest_handler e (OpRun op) ->
  forall before spec inp after,
  (Execute executor ctx (Some op) input log).2 = before ++ Ran spec inp :: after -> guarded e spec inp before.
Proof.
  intros Hsafety Hgates Hvalid Hmw Hrun. assert (H : honest e (Execute executor ctx (Some op) input)).
  { unfold Execute, emitTerminalEvent. apply honest_bind; [apply honest_emit|]. intros _.
    apply honest_bind; [by apply honest_chain; [apply honest_base|]|]. intros result.
    apply honest_bind; [apply honest_emit|]. intros _. apply honest_ret. }
  apply (H log).
Qed.

(** ** Examples *)

Import OpDemo.

Module GuardedDemo.
Definition envelope : SafetyEnvelope :=
  mkEnvelope (Some (fun _ _ _ => ret None)) (Some Authorize) None None (Some AutoApprover) false RiskUnset false.
Definition executor : Executor := NewExecutor [Some (WithSafetyGate (Some (SafetyCheck envelope))); Some (WithMiddleware [None; Some (fun h => h)])].
Definition op : Operation := Plain (spec "echo" RiskHigh [EffectDelete]) echo None None.
Definition log : list Entry := (Execute executor (Some ctx) (Some op) (VString "hi") []).2.
End GuardedDemo.

(** Behind a decision and an approval, the operation runs; the terminal event follows. *)
Lemma no_unguarded_run_witness :
  length GuardedDemo.log = 9 /\ guarded GuardedDemo.envelope (OpSpec GuardedDemo.op) (VString "hi") (take 7 GuardedDemo.log).
Proof.
  split; [by vm_compute|].
  apply (no_unguarded_run GuardedDemo.envelope GuardedDemo.executor (Some ctx) GuardedDemo.op (VString "hi") []) with (after := drop 8 GuardedDemo.log).
  - reflexivity.
  - split.
    + intros f c s i [= <-]. apply honest_ret.
    + intros f c i [= <-]. apply honest_authorize; [done|]. apply honest_ret.
    + done.
    + done.
    + intros f c r [= <-]. apply honest_ret.
    + intros c i. apply honest_ret.
  - done.
  - constructor; [done|]. constructor; [|constructor]. intros f [= <-] h Hh. exact Hh.
  - intros c i. apply honest_ret.
  - vm_compute. reflexivity.
Defined.

Lemma execution_lifecycle_witness :
  exists result during,
    Execute GuardedDemo.executor None (Some GuardedDemo.op) VNil [] =
      (result, [Emitted None (OperationStarted emp (mkOpRef "echo"))] ++ during
        ++ [Emitted None (terminal_event emp (mkOpRef "echo") result)]) /\
    or_Status result <> emp.
Proof. apply (execution_lifecycle GuardedDemo.executor None GuardedDemo.op VNil []). discriminate. Defined.
