(* ===== verification/Authority.v ===== *)
(** * What the authorization gate allows

    [AuthorizationGate.Authorize] (src/runtime/operation/authorization.go) allows an execution exactly
    when the policy allows every target derived from the operation and its input. It allows everything
    when no target is derived, which happens for operations that never said they need nothing. *)

From S2P Require Import Prelude Operation OpModel NamedInstance Authorization Safety Executor.

Section Authority.
Context `{OT : OperationTypes} {OM : OperationModule} `{PT : PolicyTypes} {PM : PolicyModule} {OA : OperationApi}
  {JO : JsonObjects} {SJ : SchemaJson} {GF : GoFmt} {IM : IntentModule}.
Implicit Types (auth : AuthorizationContext) (target : authorizationTarget).

Definition decision (auth : AuthorizationContext) (resource : ResourceRef) (action : PolicyAction) : Decision :=
  ev_Decision (EvaluateAuthorization (au_Policy auth) (mkAuthRequest _ (au_Subjects auth) (au_Trust auth) resource action)).

(** Some datasource named in the policy's grants is allowed. *)
Definition some_datasource_allowed (auth : AuthorizationContext) (action : PolicyAction) : Prop :=
  exists resources resource, resources ∈ Policy_Grants (au_Policy auth) /\ resource ∈ resources /\
    rr_Kind resource = ResourceDatasource /\ decision auth resource action = DecisionAllow.
Definition target_allowed (auth : AuthorizationContext) (target : authorizationTarget) : Prop :=
  let d := decision auth (tg_Resource target) (tg_Action target) in
  d = DecisionAllow \/
  (d <> DecisionApprovalRequired /\ rr_Kind (tg_Resource target) = ResourceDatasource /\
   rr_Name (tg_Resource target) = "*"%string /\ some_datasource_allowed auth (tg_Action target)).

Lemma any_datasource_allow auth action resources approval :
  ev_Decision approval <> DecisionAllow ->
  ev_Decision (any_datasource auth action resources approval) = DecisionAllow <->
  exists resource, resource ∈ resources /\ rr_Kind resource = ResourceDatasource /\ decision auth resource action = DecisionAllow.
Proof.
  revert approval. induction resources as [|r rest IH]; intros approval Ha; cbn [any_datasource].
  { split; [by case_decide|]. by intros (r & ?%not_elem_of_nil & _). }
  assert (Hskip : (exists resource, resource ∈ r :: rest /\ rr_Kind resource = ResourceDatasource /\ decision auth resource action = DecisionAllow) ->
    ~ (rr_Kind r = ResourceDatasource /\ decision auth r action = DecisionAllow) ->
    exists resource, resource ∈ rest /\ rr_Kind resource = ResourceDatasource /\ decision auth resource action = DecisionAllow).
  { intros (x & [->|Hx]%elem_of_cons & H1 & H2) Hno; [by destruct Hno|]. by exists x. }
  assert (Hmore : (exists resource, resource ∈ rest /\ rr_Kind resource = ResourceDatasource /\ decision auth resource action = DecisionAllow) ->
    exists resource, resource ∈ r :: rest /\ rr_Kind resource = ResourceDatasource /\ decision auth resource action = DecisionAllow).
  { intros (x & Hx & H). exists x. split; [by right|done]. }
  destruct (decide (rr_Kind r <> ResourceDatasource)) as [Hk|Hk%dec_stable].
  { rewrite IH by done. split; [done|]. intros H. apply Hskip; [done|tauto]. }
  cbv zeta. fold (decision auth r action). destruct (decide (decision auth r action = DecisionAllow)) as [Hd|Hd].
  { split; [|done]. intros _. exists r. split; [by left|done]. }
  destruct (decide (decision auth r action = DecisionApprovalRequired)) as [Hr|Hr].
  - rewrite IH by (unfold decision in Hr; by rewrite Hr). split; [done|]. intros H. apply Hskip; [done|tauto].
  - rewrite IH by done. split; [done|]. intros H. apply Hskip; [done|tauto].
Qed.
Lemma any_datasource_exact auth action :
  ev_Decision (authorizeAnyDatasource auth action) = DecisionAllow <-> some_datasource_allowed auth action.
Proof.
  unfold authorizeAnyDatasource, some_datasource_allowed. rewrite any_datasource_allow by done. split.
  - intros (r & Hr & H). apply list_elem_of_In, in_concat in Hr as (rs & H1 & H2). exists rs, r. by rewrite !list_elem_of_In.
  - intros (rs & r & H1 & H2 & H). exists r. split; [|done]. apply list_elem_of_In, in_concat. exists rs. by rewrite <- !list_elem_of_In.
Qed.

Lemma bind_fst {A B} (m : Audit A) (k : A -> Audit B) log :
  (audit_bind m k log).1 = (k (m log).1 (log ++ (m log).2)).1.
Proof. unfold audit_bind. destruct (m log) as [a d]. cbn. by destruct (k a (log ++ d)). Qed.

Lemma authorize_targets_exact ctx auth targets log :
  (authorize_targets ctx auth targets log).1 = None <-> Forall (target_allowed auth) targets.
Proof.
  revert log. induction targets as [|t rest IH]; intros log; cbn [authorize_targets]; [split; [constructor|done]|].
  rewrite Forall_cons. cbv zeta. unfold target_allowed at 1. cbv zeta. fold (decision auth (tg_Resource t) (tg_Action t)).
  destruct (decide (decision auth (tg_Resource t) (tg_Action t) = DecisionAllow)) as [Ha|Ha].
  { rewrite bind_fst, IH. tauto. }
  destruct (decide (decision auth (tg_Resource t) (tg_Action t) = DecisionApprovalRequired)) as [Hr|Hr].
  { rewrite bind_fst. split; [done|]. by intros [[?|[? _]] _]. }
  destruct (_ && _) eqn:Es.
  - apply andb_true_iff in Es as [Hk%bool_decide_eq_true Hn%bool_decide_eq_true]. rewrite bind_fst.
    destruct (ev_Decision (authorizeAnyDatasource auth (tg_Action t))) eqn:Ef; rewrite ?bind_fst.
    2:{ rewrite IH. apply any_datasource_exact in Ef. tauto. }
    all: split; [done|]; intros [[?|(_ & _ & _ & Hs%any_datasource_exact)] _]; congruence.
  - rewrite bind_fst. split; [done|]. intros [[?|(_ & Hk & Hn & _)] _]; [done|].
    by rewrite !bool_decide_true in Es by done.
Qed.

Lemma authorize_iff ctx op input log :
  (Authorize ctx op input log).1 = None <->
  match cx_Auth ctx with
  | None => True
  | Some auth => Policy_IsZero (au_Policy auth) = true \/
      exists targets, (authorizationTargets ctx op input log).1 = (targets, None) /\ Forall (target_allowed auth) targets
  end.
Proof.
  unfold Authorize. destruct (cx_Auth ctx) as [auth|]; [|done]. destruct (Policy_IsZero (au_Policy auth)); [split; [by left|done]|].
  rewrite bind_fst. destruct (authorizationTargets ctx op input log) as [[targets err] d]. cbn [fst snd]. destruct err as [e|].
  - split; [done|]. by intros [[=]|(t & [=] & _)].
  - rewrite authorize_targets_exact. split; [intros H; right; by exists targets|]. by intros [[=]|(t & [= ->] & H)].
Qed.

(** C32: The authorization gate allows an execution exactly when no policy applies, or the targets of
    the operation for this input can be derived and the policy allows each of them; any datasource may
    be searched when some datasource is granted and the policy does not ask for approval. *)
Theorem authorize_exact ctx op input log :
  (Authorize ctx op input log).1 = None <->
  match cx_Auth ctx with
  | None => True
  | Some auth => Policy_IsZero (au_Policy auth) = true \/
      exists targets, (authorizationTargets ctx op input log).1 = (targets, None) /\ Forall (target_allowed auth) targets
  end.
Proof. apply authorize_iff. Qed.

(** An operation that does not describe its access is not authorized once it is wrapped as a named
    instance: whatever the policy, the gate allows it, without a decision in the log. Plugin operations
    that come through the bridge are all wrapped this way. *)
Theorem wrapped_operation_unchecked kind name spec run intent op ctx input :
  NewNamedInstance kind name (Some (Plain spec run None intent)) = Some op ->
  sp_Ref (OpSpec op) = sp_Ref spec /\ (forall log, OpRun op ctx input log = run ctx input log) /\
  forall log, Authorize ctx op input log = (None, []).
Proof.
  intros [= <-]. split; [done|]. split.
  - intros log. cbn. unfold on_instance. cbn. by rewrite decide_True.
  - intros log. unfold Authorize. destruct (cx_Auth ctx) as [auth|]; [|done]. destruct (Policy_IsZero _); [done|].
    unfold authorizationTargets, AccessFor. cbn. unfold on_instance. cbn. by rewrite decide_True.
Qed.

(** The same for an operation whose intents have behaviours the gate does not know. *)
Lemma unknown_intents_unchecked ctx spec run intent input intents names log auth :
  cx_Auth ctx = Some auth -> Policy_IsZero (au_Policy auth) = false ->
  datasourceTargets spec input = [] -> namedOperationTargets spec input = [] ->
  (forall log, IntentFor ctx (Plain spec run None intent) input log = ((mkIntentSet intents, true, None), [])) ->
  Intents_Empty (mkIntentSet intents) = false -> in_Behavior <$> intents = OtherBehavior <$> names ->
  (Authorize ctx (Plain spec run None intent) input log).1 = None.
Proof.
  intros Hauth Hzero Hds Hnamed Hintent Hne Hb. apply authorize_iff. rewrite Hauth. right. exists [].
  split; [|constructor]. unfold authorizationTargets, AccessFor. rewrite bind_fst. cbn [Access ret fst OpSpec]. rewrite Hds, Hnamed, bind_fst, Hintent.
  cbn [fst]. rewrite Hne. cbn. unfold intentTargets. cbn.
  assert (intents ≫= intent_target = []) as ->; [|done]. clear - Hb. revert names Hb.
  induction intents as [|[b t] intents IH]; intros [|n names] Hb; try done. cbn in *. injection Hb as -> Hb. cbn. by eapply IH.
Qed.
End Authority.

(** ** Examples *)

Import OpDemo.

(** The bare operation [shell] is refused; the wrapped one is not. *)
Lemma wrapped_operation_unchecked_witness :
  (Authorize ctx (Plain (spec "shell" RiskHigh [EffectProcess]) echo None None) VNil []).1 <> None /\
  Authorize ctx (NamedInstances "tools" [mkInstance "main" (Plain (spec "shell" RiskHigh [EffectProcess]) echo None None)] false) VNil []
    = (None, []).
Proof.
  split; [by vm_compute|].
  apply (wrapped_operation_unchecked "tools" "main" (spec "shell" RiskHigh [EffectProcess]) echo None
    (NamedInstances "tools" [mkInstance "main" (Plain (spec "shell" RiskHigh [EffectProcess]) echo None None)] false) ctx VNil).
  reflexivity.
Defined.

(** * Typed operations (src/runtime/operation/typed.go)

    Adapters that make an operation of a handler on a Go type: the input is bound to the type for the
    handler, and for the functions that describe access and intent. The schemas that reflection
    derives from a type are parameters. *)

(** A Go type [T] as the adapters use it: its zero value, the type assertion [input.(T)], conversion by
    JSON, the value [any(t)] and the contract [TypeOf] derives under a name. *)
Class GoType (T : Type) := {
  zero_value : T;
  assert_type : Value -> option T;
  decode_json : Value -> Result string T;
  to_any : T -> Value;
  TypeOf : string -> OpType
}.

(** [Bind]. *)
Definition Bind {I} `{GoType I} (input : Value) : Result string I :=
  if is_nil input then Ok zero_value else
  match assert_type input with
  | Some typed => Ok typed
  | None => decode_json input
  end.

Section Typed.
Context `{OT : OperationTypes} {OM : OperationModule} `{PT : PolicyTypes} {OA : OperationApi}.
Context {I O : Type} {GI : GoType I} {GO : GoType O}.

Definition TypedHandler : Type := OpContext -> I -> Audit (Result GoError O).
Definition TypedResultHandler : Type := OpContext -> I -> Audit OpResult.
Definition TypedIntentHandler : Type := OpContext -> I -> Audit (IntentSet * option GoError).
Definition TypedAccessHandler : Type := OpContext -> I -> Audit (list AccessDescriptor * option GoError).
Record typedConfig := mkTypedConfig { tc_intent : option TypedIntentHandler; tc_access : option TypedAccessHandler }.
#[global] Instance rebuild_typedConfig : Rebuild typedConfig := fun c => mkTypedConfig c.(tc_intent) c.(tc_access).
Definition TypedOption : Type := typedConfig -> typedConfig.
Definition WithIntent (handler : option TypedIntentHandler) : TypedOption := fun cfg => cfg <| tc_intent := handler |>.
Definition WithAccess (handler : option TypedAccessHandler) : TypedOption := fun cfg => cfg <| tc_access := handler |>.

Definition WithTypedContract (spec : Spec) : Spec :=
  let name := ref_Name (sp_Ref spec) in
  let spec := if Type_IsZero (sp_Input spec) then spec <| sp_Input := TypeOf (T := I) (name ++ "_input")%string |> else spec in
  if Type_IsZero (sp_Output spec) then spec <| sp_Output := TypeOf (T := O) (name ++ "_output")%string |> else spec.

(** The methods of the wrappers around an operation. *)
Definition bound_access (access : TypedAccessHandler) : OpContext -> Value -> Audit (list AccessDescriptor * option GoError) :=
  fun ctx input => match Bind input with Err e => ret ([], Some (ErrorText e)) | Ok in_ => access ctx in_ end.
Definition bound_intent (intent : TypedIntentHandler) : OpContext -> Value -> Audit (IntentSet * option GoError) :=
  fun ctx input => match Bind input with Err e => ret (mkIntentSet [], Some (ErrorText e)) | Ok in_ => intent ctx in_ end.
(** [withTypedOptions] around [operation.New(spec, run)], which has neither method. *)
Definition withTypedOptions (spec : Spec) (run : OpContext -> Value -> Audit OpResult) (opts : list (option TypedOption)) : Operation :=
  let cfg := fold_left (fun cfg opt => match opt with Some f => f cfg | None => cfg end) opts (mkTypedConfig None None) in
  Plain spec run (bound_access <$> tc_access cfg) (bound_intent <$> tc_intent cfg).

Definition invalid_typed (spec : Spec) (e : string) : OpResult :=
  Failed ("invalid_" ++ ref_Name (sp_Ref spec) ++ "_input")%string e ∅.
Definition NewTypedResult (spec : Spec) (handler : option TypedResultHandler) (opts : list (option TypedOption)) : Operation :=
  let spec := WithTypedContract spec in
  withTypedOptions spec
    (fun ctx input =>
       match Bind input with
       | Err e => ret (invalid_typed spec e)
       | Ok in_ => match handler with None => ret (OpOK (to_any (zero_value : O))) | Some h => h ctx in_ end
       end) opts.
End Typed.
Arguments TypedOption {_ _} I.
Arguments TypedHandler {_ _} I O.
Arguments TypedResultHandler {_ _} I.

Section NewTyped.
Context `{OT : OperationTypes} {OM : OperationModule} `{PT : PolicyTypes} {PM : PolicyModule} {OA : OperationApi}
  {JO : JsonObjects} {SJ : SchemaJson} {GF : GoFmt} {IM : IntentModule}.
Context {I O : Type} {GI : GoType I} {GO : GoType O}.

Definition NewTyped (spec : Spec) (handler : option (TypedHandler I O)) (opts : list (option (TypedOption I))) : Operation :=
  let spec := WithTypedContract (I := I) (O := O) spec in
  withTypedOptions spec
    (fun ctx input =>
       match Bind input with
       | Err e => ret (invalid_typed spec e)
       | Ok in_ =>
           match handler with
           | None => ret (OpOK (to_any (zero_value : O)))
           | Some h =>
               let+ r := h ctx in_ in
               ret match r with
                   | Err e => Failed (ref_Name (sp_Ref spec) ++ "_failed") (error_text e) ∅
                   | Ok out => OpOK (to_any out)
                   end
           end
       end) opts.

(** ** Describing access *)

(** A typed operation that describes its access is authorized by exactly that description: the gate
    allows it when the handler answers descriptors that the policy allows, and refuses it when the
    input does not bind or the handler fails, however permissive the policy is. *)
Lemma typed_access_authorized spec handler access ctx auth input log :
  cx_Auth ctx = Some auth -> Policy_IsZero (au_Policy auth) = false ->
  (Authorize ctx (NewTyped spec handler [Some (WithAccess (Some access))]) input log).1 = None <->
  exists in_ descriptors, Bind input = Ok in_ /\ (access ctx in_ log).1 = (descriptors, None) /\
    Forall (target_allowed auth) (descriptorTargets descriptors).
Proof.
  intros Hauth Hzero. rewrite authorize_iff, Hauth, Hzero. unfold authorizationTargets, AccessFor, audit_bind.
  cbn [NewTyped withTypedOptions Access fold_left fmap option_fmap option_map tc_access WithAccess update_field].
  unfold bound_access. cbn. destruct (Bind input) as [in_|e]; cbn.
  - destruct (access ctx in_ log) as [[descriptors err] d] eqn:Ea. cbn. destruct err as [e|]; cbn.
    + split; [by intros [[=]|(t & [=] & _)]|]. intros (x & ds & [= <-] & Hx & _). by rewrite Ea in Hx.
    + split.
      * intros [[=]|(t & [= <-] & H)]. exists in_, descriptors. by rewrite Ea.
      * intros (x & ds & [= <-] & Hx & H). rewrite Ea in Hx. injection Hx as ->. right. by eexists.
  - split; [by intros [[=]|(t & [=] & _)]|]. by intros (x & ds & [=] & _).
Qed.
End NewTyped.
