(* ===== verification/StateLogic.v ===== *)
(** * Computations over a state, and triples

    Code that keeps state in variables its functions share (the event sink of a turn, the transcript
    of an input) and calls out of the program is written as functions of a world: what the variables
    hold and what has been called so far. [triple] is the usual Hoare triple on such functions. *)

From S2P Require Import Prelude.

Definition St (W A : Type) : Type := W -> A * W.
Definition st_ret {W A} (a : A) : St W A := fun w => (a, w).
Definition st_bind {W A B} (m : St W A) (k : A -> St W B) : St W B := fun w => let '(a, w) := m w in k a w.
Definition st_get {W A} (f : W -> A) : St W A := fun w => (f w, w).
Definition st_modify {W} (f : W -> W) : St W unit := fun w => (tt, f w).

Notation "'let@' x ':=' m 'in' k" := (st_bind m (fun x => k))
  (at level 10, x pattern, m at level 100, k at level 200) : go_scope.

Section Logic.
Context {W : Type}.

Definition triple {A} (P : W -> Prop) (m : St W A) (Q : A -> W -> Prop) : Prop := forall w, P w -> Q (m w).1 (m w).2.

Lemma triple_ret {A} (a : A) (P : W -> Prop) (Q : A -> W -> Prop) : (forall w, P w -> Q a w) -> triple P (st_ret a) Q.
Proof. intros H w. apply H. Qed.
Lemma triple_bind {A B} (m : St W A) (k : A -> St W B) P R Q :
  triple P m R -> (forall a, triple (R a) (k a) Q) -> triple P (st_bind m k) Q.
Proof.
  intros Hm Hk w Hw. unfold st_bind. specialize (Hm w Hw). destruct (m w) as [a w'] eqn:E. by apply Hk.
Qed.
Lemma triple_get {A} (f : W -> A) (P : W -> Prop) (Q : A -> W -> Prop) :
  (forall w, P w -> Q (f w) w) -> triple P (st_get f) Q.
Proof. intros H w. apply H. Qed.
Lemma triple_modify (f : W -> W) (P : W -> Prop) (Q : unit -> W -> Prop) :
  (forall w, P w -> Q tt (f w)) -> triple P (st_modify f) Q.
Proof. intros H w. apply H. Qed.
Lemma triple_conseq {A} (m : St W A) (P P' : W -> Prop) (Q Q' : A -> W -> Prop) :
  triple P' m Q' -> (forall w, P w -> P' w) -> (forall a w, Q' a w -> Q a w) -> triple P m Q.
Proof. intros H HP HQ w Hw. apply HQ, H, HP, Hw. Qed.
Lemma triple_post {A} (m : St W A) (P : W -> Prop) (Q Q' : A -> W -> Prop) :
  triple P m Q' -> (forall a w, Q' a w -> Q a w) -> triple P m Q.
Proof. eauto using triple_conseq. Qed.
Lemma triple_pre {A} (m : St W A) (P P' : W -> Prop) (Q : A -> W -> Prop) :
  triple P' m Q -> (forall w, P w -> P' w) -> triple P m Q.
Proof. eauto using triple_conseq. Qed.
Lemma triple_and {A} (m : St W A) (P1 P2 : W -> Prop) (Q1 Q2 : A -> W -> Prop) :
  triple P1 m Q1 -> triple P2 m Q2 -> triple (fun w => P1 w /\ P2 w) m (fun a w => Q1 a w /\ Q2 a w).
Proof. intros H1 H2 w [? ?]. split; auto. Qed.
(** A fact about the state before may be used anywhere. *)
Lemma triple_exists {A X} (m : St W A) (P : X -> W -> Prop) (Q : A -> W -> Prop) :
  (forall x, triple (P x) m Q) -> triple (fun w => exists x, P x w) m Q.
Proof. intros H w [x Hx]. by eapply H. Qed.
Lemma triple_fact {A} (m : St W A) (F : Prop) (P : W -> Prop) (Q : A -> W -> Prop) :
  (F -> triple P m Q) -> triple (fun w => F /\ P w) m Q.
Proof. intros H w [HF HP]. by apply H. Qed.

(** ** What a computation may do to the state, whatever it answers *)

Definition moves {A} (R : W -> W -> Prop) (m : St W A) : Prop := forall w, R w (m w).2.

Lemma moves_ret {A} (R : W -> W -> Prop) (a : A) : Reflexive R -> moves R (st_ret a).
Proof. intros H w. apply H. Qed.
Lemma moves_get {A} (R : W -> W -> Prop) (f : W -> A) : Reflexive R -> moves R (st_get f).
Proof. intros H w. apply H. Qed.
Lemma moves_modify (R : W -> W -> Prop) (f : W -> W) : (forall w, R w (f w)) -> moves R (st_modify f).
Proof. intros H w. apply H. Qed.
Lemma moves_bind {A B} (R : W -> W -> Prop) (m : St W A) (k : A -> St W B) :
  Transitive R -> moves R m -> (forall a, moves R (k a)) -> moves R (st_bind m k).
Proof.
  intros Ht Hm Hk w. unfold st_bind. specialize (Hm w). destruct (m w) as [a w']. cbn in Hm. etransitivity; [exact Hm|apply Hk].
Qed.
Lemma moves_weaken {A} (R R' : W -> W -> Prop) (m : St W A) : moves R m -> (forall w w', R w w' -> R' w w') -> moves R' m.
Proof. intros Hm H w. apply H, Hm. Qed.
(** A property of states that the moves of a computation preserve. *)
Lemma triple_moves {A} (R : W -> W -> Prop) (m : St W A) (P : W -> Prop) :
  moves R m -> (forall w w', P w -> R w w' -> P w') -> triple P m (fun _ => P).
Proof. intros Hm H w Hw. eapply H; [exact Hw|apply Hm]. Qed.
(** What holds of the answer whatever the state. *)
Definition returns {A} (m : St W A) (Q : A -> Prop) : Prop := forall w, Q (m w).1.
Lemma returns_ret {A} (a : A) (Q : A -> Prop) : Q a -> returns (st_ret a) Q.
Proof. by intros H w. Qed.
Lemma returns_bind {A B} (m : St W A) (k : A -> St W B) (P : A -> Prop) (Q : B -> Prop) :
  returns m P -> (forall a, P a -> returns (k a) Q) -> returns (st_bind m k) Q.
Proof. intros Hm Hk w. unfold st_bind. specialize (Hm w). destruct (m w) as [a w']. by apply Hk. Qed.
Lemma returns_true {A} (m : St W A) : returns m (fun _ => True).
Proof. done. Qed.
Lemma triple_returns {A} (m : St W A) (P : W -> Prop) (Q : A -> W -> Prop) (R : A -> Prop) :
  triple P m Q -> returns m R -> triple P m (fun a w => R a /\ Q a w).
Proof. intros H HR w Hw. split; [apply HR|by apply H]. Qed.
End Logic.

Create HintDb moves discriminated.
#[export] Hint Constants Opaque : moves.

(** Takes a computation apart; the calls in it are left to the database. *)
Ltac moves_step :=
  lazymatch goal with
  | |- moves _ (st_ret _) => apply moves_ret, _
  | |- moves _ (st_get _) => apply moves_get, _
  | |- moves _ (st_bind _ _) => apply moves_bind; [apply _| |intros ?]
  | |- moves _ (match ?x with _ => _ end) => destruct x
  | |- moves _ _ => solve [auto with moves]
  end.
Ltac moves_tac := repeat (cbv zeta; moves_step).
