(* ===== verification/AgentModel.v ===== *)
(** * Agents (src/core/agent/agent.go) and the limits of their turns

    The inert description of an agent and its validation, what one step of an agent returns, the tree
    of stop conditions (src/orchestration/sessioncontrol/control.go) and the limits a session derives
    from a description (src/orchestration/session/session.go). *)

From S2P Require Import Prelude Operation Conversation StateLogic.

(** ** Descriptions *)

Inductive StopConditionSpec := mkStopCondition {
  st_Type : string;
  st_Max : Z;
  st_Prompt : string;
  st_Session : string;
  st_Conditions : list StopConditionSpec;
  st_Annotations : gmap string string
}.
Record ContinuationPolicy := mkContinuation {
  cp_MaxContinuations : Z; cp_ContextPolicy : string; cp_StopCondition : StopConditionSpec }.
Record TurnPolicy := mkTurnPolicy { tp_MaxSteps : Z; tp_Continuation : ContinuationPolicy }.
Record DriverSpec := mkDriver { dv_Kind : string; dv_Config : gmap string Value; dv_Annotations : gmap string string }.
Record InferenceSpec := mkInference { nf_Model : string; nf_Annotations : gmap string string }.
Record Objective := mkObjective { ob_Role : string; ob_Instructions : string; ob_Success : string }.
Record AgentSpec := mkAgentSpec {
  as_Name : string;
  as_Objective : Objective;
  as_Driver : DriverSpec;
  as_Inference : InferenceSpec;
  as_Turns : TurnPolicy;
  as_Tools : list string;
  as_Commands : list string;
  as_Datasources : list string;
  as_Skills : list string;
  as_Context : list string;
  as_ActivationSets : list string
}.
Definition zero_StopCondition : StopConditionSpec := mkStopCondition emp 0 emp emp [] ∅.
Definition zero_Continuation : ContinuationPolicy := mkContinuation 0 emp zero_StopCondition.

Inductive AgentSpecError :=
| AgentNameEmpty | MaxStepsNegative | MaxContinuationsNegative | StopConditionRequired
| RefNameEmpty (field : string) (index : nat).

(** The loop over the references of one field. *)
Fixpoint first_blank_ref (field : string) (i : nat) (names : list string) : option AgentSpecError :=
  match names with
  | [] => None
  | name :: rest => if blank name then Some (RefNameEmpty field i) else first_blank_ref field (S i) rest
  end.
(** The first error of a list of checks in order. *)
Fixpoint first_error {E} (checks : list (option E)) : option E :=
  match checks with [] => None | Some e :: _ => Some e | None :: rest => first_error rest end.
(** [Spec.Validate]; [None] is a nil error. *)
Definition AgentSpec_Validate (s : AgentSpec) : option AgentSpecError :=
  let continuation := tp_Continuation (as_Turns s) in
  if blank (as_Name s) then Some AgentNameEmpty
  else if (tp_MaxSteps (as_Turns s) <? 0)%Z then Some MaxStepsNegative
  else if (cp_MaxContinuations continuation <? 0)%Z then Some MaxContinuationsNegative
  else if (0 <? cp_MaxContinuations continuation)%Z && blank (st_Type (cp_StopCondition continuation))
  then Some StopConditionRequired
  else first_error [first_blank_ref "tools" 0 (as_Tools s); first_blank_ref "commands" 0 (as_Commands s);
    first_blank_ref "datasources" 0 (as_Datasources s); first_blank_ref "skills" 0 (as_Skills s);
    first_blank_ref "context" 0 (as_Context s); first_blank_ref "activation_sets" 0 (as_ActivationSets s)].

(** ** Steps *)

Record StateRef := mkStateRef { sr_Kind : string; sr_URI : string; sr_Digest : string }.
Definition zero_StateRef : StateRef := mkStateRef emp emp emp.
Definition stateRefIsZero (r : StateRef) : bool :=
  bool_decide (sr_Kind r = emp) && bool_decide (sr_URI r = emp) && bool_decide (sr_Digest r = emp).
Record StateUpdate := mkStateUpdate { su_Ref : StateRef; su_Summary : string }.

Inductive DecisionKind :=
| DecisionNone | DecisionOperation | DecisionMessage | DecisionComplete | DecisionWait | DecisionDelegate | DecisionReject
| OtherDecisionKind (kind : string).
#[global] Instance DecisionKind_eq_dec : EqDecision DecisionKind.
Proof. solve_decision. Defined.
Record OperationRequest := mkOperationRequest {
  oq_Operation : OpRef; oq_Input : Value; oq_ProviderCallID : string; oq_ProviderCallType : string }.
Record AgentMessage := mkAgentMessage { am_Content : Value; am_Metadata : gmap string Value }.
Record Completion := mkCompletion { co_Output : Value; co_Reason : string }.
Record AgentDecision := mkAgentDecision {
  de_Kind : DecisionKind;
  de_Operations : list OperationRequest;
  de_Message : option AgentMessage;
  de_Complete : option Completion
}.
Inductive AgentStatus := AgentOK | AgentFailed | AgentRejected | AgentCanceled | OtherAgentStatus (status : string).
#[global] Instance AgentStatus_eq_dec : EqDecision AgentStatus.
Proof. solve_decision. Defined.
Record AgentError := mkAgentError { ge_Code : string; ge_Message : string; ge_Details : gmap string Value }.
Record AgentStep := mkAgentStep {
  gs_Status : AgentStatus; gs_Decision : AgentDecision; gs_State : StateUpdate; gs_Error : option AgentError }.
(** The zero [StepResult]: its status is the empty string. *)
Definition zero_AgentStep : AgentStep :=
  mkAgentStep (OtherAgentStatus emp) (mkAgentDecision DecisionNone [] None None) (mkStateUpdate zero_StateRef emp) None.

(** ** Limits of a turn (session.go) *)

Definition defaultLLMMaxSteps : Z := 50.
Definition defaultLLMContinuations : Z := 3.
Definition LLMDriverKind : string := "llmagent".
Definition IsLLMDriverKind (kind : string) : bool := bool_decide (TrimSpace kind = LLMDriverKind).

(** The functions of a session below read only the description of its agent; [None] is a session
    without an agent. *)
Definition maxSteps (agent : option AgentSpec) : Z :=
  match agent with
  | None => defaultLLMMaxSteps
  | Some spec =>
      if (0 <? tp_MaxSteps (as_Turns spec))%Z then tp_MaxSteps (as_Turns spec)
      else if IsLLMDriverKind (dv_Kind (as_Driver spec)) then defaultLLMMaxSteps else 1%Z
  end.
Definition failOnStepLimit (agent : option AgentSpec) : bool :=
  match agent with
  | None => true
  | Some spec => IsLLMDriverKind (dv_Kind (as_Driver spec)) || (0 <? tp_MaxSteps (as_Turns spec))%Z
  end.
Definition maxContinuations (agent : option AgentSpec) : Z :=
  match agent with
  | None => 0%Z
  | Some spec =>
      let max := cp_MaxContinuations (tp_Continuation (as_Turns spec)) in
      if (0 <? max)%Z then max
      else if IsLLMDriverKind (dv_Kind (as_Driver spec)) then defaultLLMContinuations else 0%Z
  end.
Definition maxContinuationsForPolicy (agent : option AgentSpec) (policy : ContinuationPolicy) : Z :=
  if (0 <? cp_MaxContinuations policy)%Z then cp_MaxContinuations policy else maxContinuations agent.

Record InputOptions := mkInputOptions { io_Goal : string; io_MaxContinuations : Z }.
Definition goalStopPrompt (goal : string) : string :=
  "Goal:" ++ String (ascii_of_nat 10) goal ++ String (ascii_of_nat 10) (String (ascii_of_nat 10)
  "Stop only when the goal is reached. Continue when more work is needed, when completion is blocked, or when the current evidence is insufficient; provide the next concrete instruction for the parent agent.").
Definition goal_condition (goal : string) : StopConditionSpec := mkStopCondition "prompt" 0 (goalStopPrompt goal) emp [] ∅.
Definition goal_context_policy (spec : AgentSpec) : string :=
  let policy := TrimSpace (cp_ContextPolicy (tp_Continuation (as_Turns spec))) in
  if decide (policy = "summary"%string \/ policy = "new"%string) then policy else "summary".
Definition continuationPolicyForInput (opts : InputOptions) (spec : AgentSpec) : ContinuationPolicy :=
  let goal := TrimSpace (io_Goal opts) in
  if decide (goal = emp) then tp_Continuation (as_Turns spec)
  else mkContinuation (io_MaxContinuations opts) (goal_context_policy spec) (goal_condition goal).
