(* ===== verification/Goal.v ===== *)
(** * Goals (src/core/goal, src/runtime/goal/projector.go)

    The durable goal of a thread is the projection of the goal events of a branch. *)

From S2P Require Import Prelude Event Operation Thread ThreadViews.

(** ** Reviews (src/core/review/review.go) *)

Inductive ReviewDecision := DecisionAccepted | DecisionRejected | DecisionInconclusive | OtherReviewDecision (decision : string).
#[global] Instance ReviewDecision_eq_dec : EqDecision ReviewDecision.
Proof. solve_decision. Defined.
Record Criterion := mkCriterion { cr_ID : string; cr_Description : string; cr_Required : bool }.
Record CriterionResult := mkCriterionResult { ct_CriterionID : string; ct_Description : string; ct_Status : string; ct_Notes : string }.
Record ReviewEvidence := mkEvidence { rv_Kind : string; rv_Summary : string }.
Record ReviewFinding := mkFinding { fn_Severity : string; fn_Message : string }.
Record Suggestion := mkSuggestion { sg_Text : string; sg_Priority : string }.
Record ReviewResult := mkReviewResult {
  rw_ID : string;
  rw_Decision : ReviewDecision;
  rw_Summary : string;
  rw_CriteriaResults : list CriterionResult;
  rw_Findings : list ReviewFinding;
  rw_Evidence : list ReviewEvidence;
  rw_Suggestions : list Suggestion
}.

Inductive SubjectKind := SubjectText | SubjectThread | SubjectDiff | SubjectGoal | SubjectTask | SubjectResource
| OtherSubject (kind : string).
Record ReviewRef := mkReviewRef { rf_Kind : string; rf_URI : string; rf_Name : string }.
Record ReviewSubject := mkSubject { sj_Kind : SubjectKind; sj_Text : string; sj_Refs : list ReviewRef }.
Record ReviewRequest := mkReviewRequest { rq_ID : string; rq_Subject : ReviewSubject; rq_Criteria : list Criterion }.

Inductive ReviewError :=
| SubjectKindInvalid (kind : string) | SubjectEmpty | CriterionEmpty (index : nat)
| ReviewDecisionInvalid (decision : string) | CriterionStatusInvalid (index : nat) | EvidenceRequired | SuggestionsRequired.

Definition Subject_Validate (s : ReviewSubject) : option ReviewError :=
  match sj_Kind s with
  | OtherSubject kind => Some (SubjectKindInvalid kind)
  | _ => if blank (sj_Text s) && (match sj_Refs s with [] => true | _ => false end) then Some SubjectEmpty else None
  end.
(** The index of the first element that fails a test. *)
Fixpoint first_index {A} (test : A -> bool) (i : nat) (l : list A) : option nat :=
  match l with [] => None | x :: rest => if test x then Some i else first_index test (S i) rest end.
Definition Request_Validate (r : ReviewRequest) : option ReviewError :=
  match Subject_Validate (rq_Subject r) with
  | Some e => Some e
  | None => CriterionEmpty <$> first_index (fun c => blank (cr_Description c)) 0 (rq_Criteria r)
  end.
Definition criterion_status_ok (r : CriterionResult) : bool :=
  bool_decide (TrimSpace (ct_Status r) ∈ ["met"; "unmet"; "unknown"]%string).
Definition ReviewResult_Validate (r : ReviewResult) : option ReviewError :=
  match rw_Decision r with
  | OtherReviewDecision decision => Some (ReviewDecisionInvalid decision)
  | _ =>
      match first_index (fun c => negb (criterion_status_ok c)) 0 (rw_CriteriaResults r) with
      | Some i => Some (CriterionStatusInvalid i)
      | None =>
          if bool_decide (rw_Decision r = DecisionAccepted) && (match rw_Evidence r with [] => true | _ => false end)
          then Some EvidenceRequired
          else if bool_decide (rw_Decision r = DecisionRejected) && (match rw_Suggestions r with [] => true | _ => false end)
          then Some SuggestionsRequired
          else None
      end
  end.

(** ** Goals (goal.go, events.go) *)

Inductive GoalStatus := GoalUnset | GoalActive | GoalPaused | GoalRejected | GoalReached | GoalCleared | GoalArchived.
#[global] Instance GoalStatus_eq_dec : EqDecision GoalStatus.
Proof. solve_decision. Defined.
Record GoalReview := mkGoalReview {
  gr_ReviewID : string; gr_GoalID : string; gr_RunID : string; gr_ReviewerThreadID : string; gr_ReviewerRunID : string;
  gr_Result : ReviewResult }.
Record GoalState := mkGoalState {
  go_ID : string;
  go_ThreadID : string;
  go_Status : GoalStatus;
  go_Text : string;
  go_AcceptanceCriteria : list Criterion;
  go_Revision : Z;
  go_LatestReview : option GoalReview;
  go_ArchivedReason : string;
  go_SupersededBy : string
}.
#[global] Instance rebuild_GoalState : Rebuild GoalState := fun s =>
  mkGoalState s.(go_ID) s.(go_ThreadID) s.(go_Status) s.(go_Text) s.(go_AcceptanceCriteria) s.(go_Revision)
    s.(go_LatestReview) s.(go_ArchivedReason) s.(go_SupersededBy).
Definition zero_GoalState : GoalState := mkGoalState emp emp GoalUnset emp [] 0 None emp emp.

Definition ActiveForContinuation (s : GoalState) : bool :=
  negb (bool_decide (go_ID s = emp)) && (bool_decide (go_Status s = GoalActive) || bool_decide (go_Status s = GoalRejected)).
Definition Visible (s : GoalState) : bool :=
  negb (bool_decide (go_ID s = emp)) && negb (bool_decide (go_Status s = GoalCleared)) && negb (bool_decide (go_Status s = GoalArchived)).
Definition ValidateText (text : string) : bool := negb (blank text).

Inductive GoalEvent :=
| GoalSet (GoalID ThreadID Text RunID : string)
| GoalArchivedEv (GoalID Reason SupersededBy RunID : string)
| AcceptanceCriteriaGenerated (GoalID : string) (Criteria : list Criterion) (Warning RunID : string)
| GoalPausedEv (GoalID Reason RunID : string)
| GoalResumedEv (GoalID RunID : string)
| GoalClearedEv (GoalID RunID : string)
| ReviewRequested (GoalID ReviewID RunID : string)
| GoalReachedEv (GoalID : string) (Review : GoalReview) (RunID : string)
| GoalRejectedEv (GoalID : string) (Review : GoalReview) (RunID : string)
| ReviewFailed (GoalID ReviewID Reason RunID : string).
Definition GoalEventName (e : GoalEvent) : string :=
  match e with
  | GoalSet _ _ _ _ => "goal.set"
  | GoalArchivedEv _ _ _ _ => "goal.archived"
  | AcceptanceCriteriaGenerated _ _ _ _ => "goal.acceptance_criteria_generated"
  | GoalPausedEv _ _ _ => "goal.paused"
  | GoalResumedEv _ _ => "goal.resumed"
  | GoalClearedEv _ _ => "goal.cleared"
  | ReviewRequested _ _ _ => "goal.review_requested"
  | GoalReachedEv _ _ _ => "goal.reached"
  | GoalRejectedEv _ _ _ => "goal.rejected"
  | ReviewFailed _ _ _ _ => "goal.review_failed"
  end.

(** Goal events among the other payloads of a thread. *)
Class GoalPayload (F : Type) := { goal_payload : GoalEvent -> F; as_goal : F -> option GoalEvent }.
Class GoalPayloadLaws (F : Type) `{GoalPayload F} : Prop := { as_goal_payload e : as_goal (goal_payload e) = Some e }.
#[export] Instance goal_event_payload : GoalPayload GoalEvent := { goal_payload e := e; as_goal e := Some e }.
#[export] Instance goal_event_payload_laws : GoalPayloadLaws GoalEvent.
Proof. by split. Qed.

(** ** Projection (projector.go) *)

Definition firstThreadID (value fallback : string) : string := if decide (value = emp) then fallback else value.

(** The type switch of [ProjectThreadRecords]. *)
Definition apply_goal (threadID : string) (state : GoalState) (e : GoalEvent) : GoalState :=
  let mine id (s : GoalState) := if decide (go_ID state = id) then s else state in
  match e with
  | GoalSet id thread text _ =>
      mkGoalState id (firstThreadID thread threadID) GoalActive text [] (go_Revision state) None emp emp
  | GoalArchivedEv id reason by_ _ =>
      mine id (state <| go_Status := GoalArchived |> <| go_ArchivedReason := reason |> <| go_SupersededBy := by_ |>)
  | AcceptanceCriteriaGenerated id criteria _ _ => mine id (state <| go_AcceptanceCriteria := criteria |>)
  | GoalPausedEv id _ _ => mine id (state <| go_Status := GoalPaused |>)
  | GoalResumedEv id _ => mine id (state <| go_Status := GoalActive |>)
  | GoalClearedEv id _ => if decide (id = emp) then state <| go_Status := GoalCleared |> else mine id (state <| go_Status := GoalCleared |>)
  | GoalReachedEv id review _ => mine id (state <| go_Status := GoalReached |> <| go_LatestReview := Some review |>)
  | GoalRejectedEv id review _ => mine id (state <| go_Status := GoalRejected |> <| go_LatestReview := Some review |>)
  | ReviewRequested _ _ _ | ReviewFailed _ _ _ _ => state
  end.

Section Projector.
Context {F : Type} {GP : GoalPayload F}.

Definition goal_of (record : ThreadRecord F) : option GoalEvent :=
  match rec_Payload (tr_Event record) with OtherEvent _ f => as_goal f | _ => None end.
(** The body of the loop of [ProjectThreadRecords]. *)
Definition project_goal_record (threadID : string) (state : GoalState) (record : ThreadRecord F) : GoalState :=
  let state := state <| go_Revision := (go_Revision state + 1)%Z |> in
  match goal_of record with Some e => apply_goal threadID state e | None => state end.
Definition ProjectThreadRecords (threadID : string) (records : list (ThreadRecord F)) : GoalState :=
  fold_left (project_goal_record threadID) records zero_GoalState.
(** [None] is a walk over the branches that does not end within the fuel. *)
Definition ProjectThread (fuel : nat) (snapshot : Snapshot F) : option (Result ThreadError GoalState) :=
  match EventsForBranch fuel snapshot (sn_BranchID snapshot) with
  | None => None
  | Some (Err e) => Some (Err e)
  | Some (Ok records) => Some (Ok (ProjectThreadRecords (sn_ID snapshot) records))
  end.

(** ** The context of a goal (src/runtime/goal/context.go) *)

Definition newline : string := String (ascii_of_nat 10) emp.
Definition goal_status_text (s : GoalStatus) : string :=
  match s with
  | GoalUnset => emp | GoalActive => "active" | GoalPaused => "paused" | GoalRejected => "rejected" | GoalReached => "reached"
  | GoalCleared => "cleared" | GoalArchived => "archived"
  end.
Definition review_decision_text (d : ReviewDecision) : string :=
  match d with
  | DecisionAccepted => "accepted" | DecisionRejected => "rejected" | DecisionInconclusive => "inconclusive"
  | OtherReviewDecision d => d
  end.
(** The lines of a list, each trimmed; blank ones are left out. *)
Definition bullet_lines {A} (text : A -> string) (suffix : A -> string) (items : list A) : string :=
  String.concat emp (map (fun x =>
    if blank (text x) then emp else "- " ++ TrimSpace (text x) ++ suffix x ++ newline)%string items).
Definition review_line (prefix : string) (review : GoalReview) : string :=
  (prefix ++ review_decision_text (rw_Decision (gr_Result review))
   ++ (if blank (rw_Summary (gr_Result review)) then emp else " - " ++ TrimSpace (rw_Summary (gr_Result review))))%string.
Definition RenderContext (s : GoalState) : string :=
  TrimSpace ("Goal status: " ++ goal_status_text (go_Status s) ++ newline ++ "Goal: " ++ go_Text s ++ newline
    ++ (match go_AcceptanceCriteria s with
        | [] => emp
        | criteria => "Acceptance criteria:" ++ newline
            ++ bullet_lines cr_Description (fun c => if cr_Required c then " (required)" else emp) criteria
        end)
    ++ (match go_LatestReview s with
        | None => emp
        | Some review => review_line "Latest review: " review ++ newline
            ++ (match rw_Suggestions (gr_Result review) with
                | [] => emp
                | suggestions => "Reviewer suggestions:" ++ newline ++ bullet_lines sg_Text (fun _ => emp) suggestions
                end)
        end))%string.
Definition ContextProviderName : string := "session_goal".
(** [StateFingerprint] of a state that could be read; the flag is always true. *)
Definition StateFingerprint (s : GoalState) : string :=
  if negb (Visible s) then "absent"
  else (go_ID s ++ ":" ++ goal_status_text (go_Status s) ++ ":" ++ pretty (go_Revision s))%string.
(** [Build]: the content of the one block, when there is a goal. *)
Definition goal_context_block (s : GoalState) : option string :=
  if negb (Visible s) then None else Some (RenderContext s).

(** ** What a projection says

    The events after the last [GoalSet] that name its goal, each field by the last one that has it. *)

Section Reading.
Context (id : string).
Definition names (e : string) : bool := bool_decide (id = e).
Definition status_after (e : GoalEvent) : option GoalStatus :=
  let mine g s := if names g then Some s else None in
  match e with
  | GoalArchivedEv g _ _ _ => mine g GoalArchived
  | GoalPausedEv g _ _ => mine g GoalPaused
  | GoalResumedEv g _ => mine g GoalActive
  | GoalClearedEv g _ => if bool_decide (g = emp) then Some GoalCleared else mine g GoalCleared
  | GoalReachedEv g _ _ => mine g GoalReached
  | GoalRejectedEv g _ _ => mine g GoalRejected
  | _ => None
  end.
Definition criteria_after (e : GoalEvent) : option (list Criterion) :=
  match e with AcceptanceCriteriaGenerated g criteria _ _ => if names g then Some criteria else None | _ => None end.
Definition review_after (e : GoalEvent) : option GoalReview :=
  match e with
  | GoalReachedEv g review _ | GoalRejectedEv g review _ => if names g then Some review else None
  | _ => None
  end.
Definition archive_after (e : GoalEvent) : option (string * string) :=
  match e with GoalArchivedEv g reason by_ _ => if names g then Some (reason, by_) else None | _ => None end.
End Reading.

Definition is_set (e : GoalEvent) : Prop := match e with GoalSet _ _ _ _ => True | _ => False end.
#[global] Instance is_set_dec e : Decision (is_set e).
Proof. destruct e; apply _. Defined.

(** The goal event of a record that is not a new goal; other records have none. *)
Definition quiet (record : ThreadRecord F) : Prop := match goal_of record with Some e => ~ is_set e | None => True end.

(** The state after a goal was set at revision [n] and the events [es] followed. *)
Definition goal_reading (id thread text : string) (n : Z) (es : list GoalEvent) : GoalState :=
  mkGoalState id thread
    (default GoalActive (last (omap (status_after id) es))) text
    (default [] (last (omap (criteria_after id) es))) n
    (last (omap (review_after id) es))
    (default emp (fst <$> last (omap (archive_after id) es)))
    (default emp (snd <$> last (omap (archive_after id) es))).

Lemma last_omap_snoc {A B} (f : A -> option B) (l : list A) (x : A) :
  last (omap f (l ++ [x])) = match f x with Some y => Some y | None => last (omap f l) end.
Proof. rewrite omap_app. cbn. destruct (f x); [by rewrite last_snoc|by rewrite app_nil_r]. Qed.

Lemma apply_goal_reading id thread threadID text n es e :
  ~ is_set e -> apply_goal threadID (goal_reading id thread text n es) e = goal_reading id thread text n (es ++ [e]).
Proof.
  intros Hset. unfold goal_reading. rewrite !last_omap_snoc.
  destruct e; cbn in *; try done; unfold names; repeat (case_decide || case_bool_decide); try done; cbn; congruence.
Qed.
Lemma goal_reading_revision id thread text n m es :
  (goal_reading id thread text n es) <| go_Revision := m |> = goal_reading id thread text m es.
Proof. done. Qed.

Lemma project_quiet threadID id thread text n es records :
  Forall quiet records ->
  fold_left (project_goal_record threadID) records (goal_reading id thread text n es) =
  goal_reading id thread text (n + Z.of_nat (length records)) (es ++ omap goal_of records).
Proof.
  intros H. revert n es. induction H as [|record records Hq Hrest IH]; intros n es; cbn [fold_left omap list_omap length].
  - by rewrite app_nil_r, Z.add_0_r.
  - unfold project_goal_record at 2. rewrite goal_reading_revision. cbn [goal_reading go_Revision]. unfold quiet in Hq.
    cbn. destruct (goal_of record) as [e|]; [rewrite apply_goal_reading by done|]; rewrite IH; f_equal; try lia.
    by rewrite <- app_assoc.
Qed.
Lemma apply_goal_revision threadID s e : go_Revision (apply_goal threadID s e) = go_Revision s.
Proof. destruct e; cbn; repeat case_decide; done. Qed.
Lemma project_revision threadID records :
  go_Revision (ProjectThreadRecords threadID records) = Z.of_nat (length records).
Proof.
  unfold ProjectThreadRecords. induction records as [|record records IH] using rev_ind; [done|].
  rewrite fold_left_app, length_app. cbn [fold_left length]. unfold project_goal_record at 1.
  destruct (goal_of record); rewrite ?apply_goal_revision; cbn [go_Revision update_field]; rewrite IH; lia.
Qed.

(** The projection of a branch is read off the events after the last goal that was set: the status is
    the last change of status that names it, and so are criteria, review and archiving; the revision
    is the number of records. Nothing before the goal was set, and no event of another goal, matters. *)
Theorem goal_projection_exact threadID before set after id thread text run :
  goal_of set = Some (GoalSet id thread text run) -> Forall quiet after ->
  ProjectThreadRecords threadID (before ++ set :: after) =
  goal_reading id (firstThreadID thread threadID) text (Z.of_nat (length (before ++ set :: after))) (omap goal_of after).
Proof.
  intros Hset Hq. unfold ProjectThreadRecords. rewrite fold_left_app. cbn [fold_left].
  unfold project_goal_record at 2. rewrite Hset. cbn [apply_goal].
  pose proof (project_revision threadID before) as Hn. unfold ProjectThreadRecords in Hn.
  assert (Hs : forall n, mkGoalState id (firstThreadID thread threadID) GoalActive text [] n None emp emp
    = goal_reading id (firstThreadID thread threadID) text n []) by done.
  rewrite Hs, project_quiet by done. cbn. rewrite Hn, length_app. cbn. f_equal. lia.
Qed.
End Projector.
