(* ===== verification/GoalOps.v ===== *)
(** * Goal operations (src/contrib/goal/contributions.go)

    The [/goal] command of a session and the operation by which a reviewer records its decision, as
    programs over the thread store. Identifiers drawn from a hash of the clock are [NewID] effects. *)

From S2P Require Import Prelude Event MemStore Operation Prog Thread ThreadViews ThreadStore Conversation Goal.

(** The texts of errors the results carry. *)
Class GoalTexts := { thread_error_text : ThreadError -> string }.

Inductive GoalError := GoalNoThread | GoalThread (e : ThreadError) | NoCurrentGoal | LegacyFlag (key : string) | GoalTextRequired.

(** ** Reading a command *)

Inductive GoalCommand := CommandStatus | CommandSet (text : string) | CommandPause | CommandResume | CommandClear.

Definition legacy_keys : list string := ["max"; "max_continuations"; "max-continuations"].
Definition rejectLegacyFlags (value : Value) : option GoalError :=
  match value with
  | VMap values => LegacyFlag <$> List.find (fun key => bool_decide (is_Some (values !! key))) legacy_keys
  | _ => None
  end.
(** [fmt.Sprint] of an element of an untyped list. *)
Definition structuredCommandInput (sprint : Value -> string) (value : Value) : list string :=
  match value with
  | VMap values =>
      match values !! "goal"%string with
      | Some (VString goal) => [goal]
      | Some (VList items) => map sprint items
      | _ => []
      end
  | _ => []
  end.
Definition validateCommandInput `{LowerCase} (goal : list string) : Result GoalError GoalCommand :=
  let text := TrimSpace (Join goal " ") in
  if decide (text = emp) then Ok CommandStatus else
  let word := match goal with [one] => ToLower (TrimSpace one) | _ => emp end in
  if decide (word = "status"%string) then Ok CommandStatus
  else if decide (word = "pause"%string) then Ok CommandPause
  else if decide (word = "resume"%string) then Ok CommandResume
  else if decide (word = "clear"%string) then Ok CommandClear
  else if ValidateText text then Ok (CommandSet text) else Err GoalTextRequired.

Section Operations.
Context {F : Type} {GP : GoalPayload F} {GS : GoSyntax (ThreadEvent F)}.
Abbreviation Act := (Prog (ThreadEvent F) ThreadEff).

(** ** Reading and writing the thread *)

(** [sessionenv.ThreadAppendRecords] of goal events. *)
Definition goal_record (threadID : string) (e : GoalEvent) : AppendRecord F :=
  mkAppendRecord emp emp
    (mkRecord emp (GoalEventName e) 0%Z (mkScope threadID emp emp) (OtherEvent (GoalEventName e) (goal_payload e)) ∅).

(** [currentState]; the outer [None] is a walk over the branches that does not end. *)
Definition currentState (store : bool) (thread : Ref) : Act (option (Result GoalError GoalState)) :=
  if negb store || bool_decide (ref_ID thread = emp) then Ret (Some (Err GoalNoThread)) else
  let! r := Read (ref_ID thread) in
  Ret match r with
      | Err e => Some (Err (GoalThread e))
      | Ok snapshot =>
          let snapshot := if decide (ref_BranchID thread = emp) then snapshot else snapshot <| sn_BranchID := ref_BranchID thread |> in
          match ProjectThread (branch_fuel snapshot) snapshot with
          | None => None
          | Some (Err e) => Some (Err (GoalThread e))
          | Some (Ok state) => Some (Ok state)
          end
      end.
(** [retryThreadAppend] (session.go) around the append of a thread store; [None] is a nil error. *)
Fixpoint retryThreadAppend (attempts : nat) (last : option ThreadError) (ref : Ref) (records : list (AppendRecord F))
    : Act (option ThreadError) :=
  match attempts with
  | O => Ret last
  | S attempts =>
      let! r := ThreadAppend ref records in
      match r with
      | Ok _ => Ret None
      | Err e => if thread_conflict e then retryThreadAppend attempts (Some e) ref records else Ret (Some e)
      end
  end.
Definition sessionAppendRetries : nat := 8.
Definition AppendThreadEvents (store : bool) (thread : Ref) (events : list GoalEvent) : Act (option ThreadError) :=
  if negb store || bool_decide (ref_ID thread = emp) || (match events with [] => true | _ => false end) then Ret None
  else retryThreadAppend sessionAppendRetries None thread (goal_record (ref_ID thread) <$> events).

(** ** The command *)

(** What each mode answers. *)
Inductive GoalOutput :=
| ShowStatus (s : GoalState)
| GoalSetOutput (s : GoalState)
| GoalPausedOutput (s : GoalState)
| GoalResumedOutput (s : GoalState)
| GoalClearedOutput
| NothingToClear.

Definition goal_criterion (text : string) : Criterion :=
  mkCriterion emp ("The requested goal has been completed: " ++ text) true.
(** [RenderStatus]. *)
Definition RenderStatus (s : GoalState) : string :=
  if negb (Visible s) then "No current goal." else
  ("Goal: " ++ go_Text s ++ newline ++ "Status: " ++ goal_status_text (go_Status s)
   ++ (match go_AcceptanceCriteria s with
       | [] => emp
       | criteria => newline ++ "Acceptance criteria:" ++ String.concat emp (map (fun c =>
           if blank (cr_Description c) then emp else newline ++ "- " ++ TrimSpace (cr_Description c))%string criteria)
       end)
   ++ (match go_LatestReview s with None => emp | Some review => review_line (newline ++ "Latest review: ") review end))%string.
Definition goal_output_text (out : GoalOutput) : string :=
  match out with
  | ShowStatus s => RenderStatus s
  | GoalSetOutput s => "Goal set." ++ newline ++ RenderStatus s
  | GoalPausedOutput s => "Goal paused." ++ newline ++ RenderStatus s
  | GoalResumedOutput s => "Goal resumed." ++ newline ++ RenderStatus s
  | GoalClearedOutput => "Goal cleared."
  | NothingToClear => "No current goal."
  end.
(** The events of [commandSet]. *)
Definition set_events (state : GoalState) (threadID goalID text run : string) : list GoalEvent :=
  (if Visible state then [GoalArchivedEv (go_ID state) "superseded" goalID run] else [])
  ++ [GoalSet goalID threadID text run; AcceptanceCriteriaGenerated goalID [goal_criterion text] emp run].

(** What each mode writes and answers in a state; [goalID] is the fresh identifier of [commandSet]. The
    modes that change an existing goal want a visible one ([requireCurrent]), except [commandClear]. *)
Definition command_plan (action : GoalCommand) (state : GoalState) (threadID goalID run : string)
    : Result GoalError (list GoalEvent * GoalOutput) :=
  let require (r : Result GoalError (list GoalEvent * GoalOutput)) := if Visible state then r else Err NoCurrentGoal in
  match action with
  | CommandStatus => Ok ([], ShowStatus state)
  | CommandSet text =>
      let events := set_events state threadID goalID text run in
      Ok (events, GoalSetOutput (mkGoalState goalID threadID GoalActive text []
            (go_Revision state + Z.of_nat (length events))%Z None emp emp))
  | CommandPause =>
      require (if decide (go_Status state = GoalPaused) then Ok ([], ShowStatus state)
               else Ok ([GoalPausedEv (go_ID state) emp run], GoalPausedOutput (state <| go_Status := GoalPaused |>)))
  | CommandResume => require (Ok ([GoalResumedEv (go_ID state) run], GoalResumedOutput (state <| go_Status := GoalActive |>)))
  | CommandClear =>
      if negb (Visible state) then Ok ([], NothingToClear) else Ok ([GoalClearedEv (go_ID state) run], GoalClearedOutput)
  end.

(** [applyCommand]; appending no events does nothing. *)
Definition applyCommand (store : bool) (thread : Ref) (run : string) (action : GoalCommand)
    : Act (option (Result GoalError GoalOutput)) :=
  let! r := currentState store thread in
  match r with
  | None => Ret None
  | Some (Err e) => Ret (Some (Err e))
  | Some (Ok state) =>
      let! goalID := match action with CommandSet _ => effect (NewID "goal_") | _ => Ret emp end in
      match command_plan action state (ref_ID thread) goalID run with
      | Err e => Ret (Some (Err e))
      | Ok (events, out) =>
          let! err := AppendThreadEvents store thread events in
          Ret (Some match err with Some e => Err (GoalThread e) | None => Ok out end)
      end
  end.

(** ** The decision of a reviewer *)

Record ReviewDecisionInput := mkDecisionInput {
  di_ThreadID : string;
  di_GoalID : string;
  di_ReviewID : string;
  di_RunID : string;
  di_Decision : string;
  di_Summary : string;
  di_Evidence : list ReviewEvidence;
  di_Suggestions : list Suggestion;
  di_Findings : list ReviewFinding
}.
(** The normalisation at the top of the handler. *)
Definition trim_input `{LowerCase} (i : ReviewDecisionInput) : ReviewDecisionInput :=
  mkDecisionInput (TrimSpace (di_ThreadID i)) (TrimSpace (di_GoalID i)) (TrimSpace (di_ReviewID i)) (TrimSpace (di_RunID i))
    (TrimSpace (ToLower (di_Decision i))) (di_Summary i) (di_Evidence i) (di_Suggestions i) (di_Findings i).

(** [reviewFromDecision]; the scope of the operation gives the thread and run of the reviewer. *)
Definition reviewFromDecision (scope : string * string) (goalID : string) (i : ReviewDecisionInput) (result : ReviewResult)
    : GoalReview := mkGoalReview (di_ReviewID i) goalID (di_RunID i) scope.1 scope.2 result.
Definition decision_result (i : ReviewDecisionInput) (decision : ReviewDecision) : ReviewResult :=
  mkReviewResult (di_ReviewID i) decision (TrimSpace (di_Summary i)) [] (di_Findings i) (di_Evidence i) (di_Suggestions i).

(** The event a decision writes, or why it is invalid. *)
Definition decision_event (scope : string * string) (goalID : string) (i : ReviewDecisionInput) : string + GoalEvent :=
  if decide (di_Decision i = "reached"%string) then
    match di_Evidence i with
    | [] => inl "reached decisions require evidence"%string
    | _ => inr (GoalReachedEv goalID (reviewFromDecision scope goalID i (decision_result i DecisionAccepted)) (di_RunID i))
    end
  else if decide (di_Decision i = "rejected"%string) then
    match di_Suggestions i with
    | [] => inl "rejected decisions require suggestions"%string
    | _ => inr (GoalRejectedEv goalID (reviewFromDecision scope goalID i (decision_result i DecisionRejected)) (di_RunID i))
    end
  else inl "decision must be reached or rejected"%string.

Context {OA : OperationApi} {GT : GoalTexts} {LC : LowerCase} {GF : GoFmt}.
Definition goal_error_text (e : GoalError) : string :=
  match e with
  | GoalNoThread => "goal requires an active thread"
  | GoalThread e => thread_error_text e
  | NoCurrentGoal => "no current goal"
  | LegacyFlag key =>
      "/goal no longer accepts " ++ Quote key ++ "; use /goal <goal>, /goal pause, /goal resume, or /goal clear"
  | GoalTextRequired => "goal: text is required"
  end.

(** [appendParentThreadEvent]: no retry, and no expectation on what the goal is by now. *)
Definition appendParentThreadEvent (threadID : string) (payload : GoalEvent) : Act (option ThreadError) :=
  let! r := ThreadAppend (mkRef threadID emp) [goal_record threadID payload] in
  Ret match r with Ok _ => None | Err e => Some e end.

Definition reviewDecisionHandler (store : bool) (scope : string * string) (input : ReviewDecisionInput) : Act (option OpResult) :=
  let i := trim_input input in
  let failed code msg := Ret (Some (Failed code msg ∅)) in
  if negb store then failed "goal_review_unavailable" "goal thread store is unavailable"
  else if bool_decide (di_ThreadID i = emp) || bool_decide (di_GoalID i = emp) || bool_decide (di_ReviewID i = emp)
  then failed "invalid_goal_review_decision" "thread_id, goal_id, and review_id are required" else
  let! r := currentState store (mkRef (di_ThreadID i) emp) in
  match r with
  | None => Ret None
  | Some (Err e) => failed "goal_review_state_failed" (goal_error_text e)
  | Some (Ok state) =>
      if negb (bool_decide (go_ID state = di_GoalID i)) || negb (ActiveForContinuation state)
      then Ret (Some (Failed "goal_review_stale" "goal is not the active review target"
             {[ "goal_id"%string := VString (di_GoalID i); "current_goal"%string := VString (go_ID state) ]}))
      else
        match decision_event scope (go_ID state) i with
        | inl msg => failed "invalid_goal_review_decision" msg
        | inr payload =>
            let! err := appendParentThreadEvent (di_ThreadID i) payload in
            match err with
            | Some e => failed "goal_review_append_failed" (thread_error_text e)
            | None =>
                Ret (Some (OpOK (VMap {[ "goal_id"%string := VString (di_GoalID i); "review_id"%string := VString (di_ReviewID i);
                  "decision"%string := VString (di_Decision i); "status"%string := VString "recorded" ]})))
            end
        end
  end.

(** ** The parent session waits for the decision (session.go, [verifyGoalWithReviewer])

    What it makes of the goal it reads after the reviewer has finished: the review it asked for, or
    nothing. *)
Definition bound_decision (reviewed : GoalState) (reviewID : string) : option GoalState :=
  match go_LatestReview reviewed with
  | Some review => if decide (gr_ReviewID review = reviewID) then Some reviewed else None
  | None => None
  end.
End Operations.

(** ** What a command achieves *)

Section Effect.
Context {F : Type} {GP : GoalPayload F}.

Definition writes (new : list (ThreadRecord F)) (events : list GoalEvent) : Prop :=
  Forall2 (fun record e => goal_of record = Some e) new events.

Lemma project_writes tid records new events :
  writes new events ->
  ProjectThreadRecords tid (records ++ new) =
  fold_left (fun state e => apply_goal tid (state <| go_Revision := (go_Revision state + 1)%Z |>) e) events
    (ProjectThreadRecords tid records).
Proof.
  intros H. unfold ProjectThreadRecords. rewrite fold_left_app. generalize (fold_left (project_goal_record tid) records zero_GoalState).
  induction H as [|record e new events He _ IH]; intros s; [done|]. cbn [fold_left]. rewrite IH. f_equal.
  unfold project_goal_record. by rewrite He.
Qed.

(** The goal after a command, as its answer promises it. *)
Definition keeps_promise (out : GoalOutput) (after : GoalState) : Prop :=
  match out with
  | ShowStatus s => after = s
  | GoalSetOutput s => after = s <| go_AcceptanceCriteria := [goal_criterion (go_Text s)] |>
  | GoalPausedOutput s | GoalResumedOutput s => after = s <| go_Revision := (go_Revision s + 1)%Z |>
  | GoalClearedOutput | NothingToClear => Visible after = false
  end.

(** When nothing else is written in between, a goal command does to the goal of the branch what its
    answer says: setting a goal replaces whatever goal there was by an active one without history,
    pausing and resuming change the status and nothing else, and after clearing there is no goal. *)
Theorem goal_command_effect tid records action thread goalID run events out new :
  ref_ID thread <> emp ->
  command_plan action (ProjectThreadRecords tid records) (ref_ID thread) goalID run = Ok (events, out) ->
  writes new events -> keeps_promise out (ProjectThreadRecords tid (records ++ new)).
Proof.
  intros Hid Hplan Hw. rewrite (project_writes _ _ _ _ Hw). set (s := ProjectThreadRecords tid records) in *. clearbody s.
  destruct action as [|text| | |]; cbn in Hplan.
  - by injection Hplan as <- <-.
  - injection Hplan as <- <-. unfold set_events.
    destruct (Visible s); cbn [app fold_left length apply_goal go_Revision update_field];
      rewrite ?(decide_True (P := goalID = goalID)) by done;
      cbn [keeps_promise]; unfold firstThreadID; rewrite decide_False by done.
    + rewrite decide_True by done. cbn. f_equal. lia.
    + cbn. f_equal. lia.
  - destruct (Visible s); [|done]. case_decide; injection Hplan as <- <-; cbn; [done|]. by rewrite decide_True.
  - destruct (Visible s); [|done]. injection Hplan as <- <-. cbn. by rewrite decide_True.
  - destruct (Visible s) eqn:Hv; injection Hplan as <- <-; cbn; [|done].
    case_decide; [|rewrite decide_True by done]; unfold Visible; cbn; by rewrite andb_false_r.
Qed.
End Effect.
