(* ===== verification/GoalRaces.v ===== *)
(** * Goals and concurrent writers

    A reviewer records its decision in two calls: it reads the goal, then appends. What happens when
    the goal changes in between, and when the session that waits for the decision is on a branch. *)

From S2P Require Import Prelude Event MemStore Operation Prog Thread ThreadViews ThreadStore ThreadSystem Threads Conversation Goal GoalOps.

Section Branches.
Context {F : Type} {GP : GoalPayload F}.
Implicit Types (recs : list (EventRecord (ThreadEvent F))) (s : Snapshot F).

Lemma project_goal_view id recs b fuel :
  history id recs -> branch_fuel (projectSnapshot id recs) <= fuel -> b <> emp ->
  ProjectThread fuel ((projectSnapshot id recs) <| sn_BranchID := b |>) =
  Some match branch_views id recs !! b with
       | Some records => Ok (ProjectThreadRecords (sn_ID (projectSnapshot id recs)) records)
       | None => Err (ErrBranchNotFound b)
       end.
Proof.
  intros Hh Hf Hb. unfold ProjectThread. cbn [sn_BranchID update_field sn_ID].
  assert (E : EventsForBranch fuel ((projectSnapshot id recs) <| sn_BranchID := b |>) b = EventsForBranch fuel (projectSnapshot id recs) b).
  { unfold EventsForBranch. by rewrite !(decide_False (P := b = emp)) by done. }
  cbn [update_field] in E. rewrite E. rewrite (branch_views_same _ _ _ _ Hh Hf). unfold read_branch. rewrite decide_False by done.
  cbv zeta. by destruct (branch_views id recs !! b).
Qed.

(** The reviewer of a goal writes its decision to the main branch of the thread, whatever branch the
    session that asked for it is on: the session, which then reads the goal of its own branch, finds
    the goal it had before and not the decision. *)
Theorem review_misses_branch id recs decision e b fuel reviewID :
  history id recs -> b <> emp -> b <> MainBranch ->
  record_branch decision = MainBranch -> is_Some (sn_Branches (projectSnapshot id recs) !! MainBranch) ->
  rec_Payload decision = OtherEvent (GoalEventName e) (goal_payload e) ->
  is_Some (branch_views id recs !! b) ->
  branch_fuel (projectSnapshot id recs) <= fuel -> branch_fuel (projectSnapshot id (recs ++ [decision])) <= fuel ->
  exists state,
    ProjectThread fuel ((projectSnapshot id recs) <| sn_BranchID := b |>) = Some (Ok state) /\
    ProjectThread fuel ((projectSnapshot id (recs ++ [decision])) <| sn_BranchID := b |>) = Some (Ok state) /\
    (bound_decision state reviewID <> None -> exists review, go_LatestReview state = Some review /\ gr_ReviewID review = reviewID).
Proof.
  intros Hh Hb Hmain Hbranch Hknown Hpay [records Hv] Hf1 Hf2.
  assert (Hh2 : history id (recs ++ [decision])).
  { apply history_plain; [done| |by rewrite Hpay|by rewrite Hbranch]. intros ->.
    change (branch_views id []) with ({[ MainBranch := [] ]} : gmap string (list (ThreadRecord F))) in Hv.
    by apply lookup_singleton_Some in Hv as [E _]. }
  exists (ProjectThreadRecords (sn_ID (projectSnapshot id recs)) records).
  split; [by rewrite (project_goal_view _ _ _ _ Hh Hf1 Hb), Hv|]. split.
  - rewrite (project_goal_view _ _ _ _ Hh2 Hf2 Hb), branch_views_snoc. unfold view_record. rewrite Hpay, Hbranch.
    rewrite lookup_insert_ne by done. rewrite Hv. rewrite projectSnapshot_snoc, project_record_id. done.
  - unfold bound_decision. destruct (go_LatestReview _) as [review|]; [|done]. case_decide; [|done]. eauto.
Qed.
End Branches.

(** ** Runs *)

Module GoalDemo.
#[export] Instance goal_syntax : GoSyntax (ThreadEvent GoalEvent) := { go_syntax p := ThreadEventName p }.
#[export] Instance goal_lower : LowerCase := { ToLower s := s }.
#[export] Instance goal_texts : GoalTexts := { thread_error_text _ := "error"%string }.
#[export] Instance goal_fmt : GoFmt := { Quote s := s }.
Export DemoApi.
Abbreviation Act := (Prog (ThreadEvent GoalEvent) ThreadEff).
Abbreviation Store := (MemoryStore (ThreadEvent GoalEvent)).

Inductive GoalCall := CallThread (branch : string) | CallFork (to : string) | CallGoal (branch : string) (action : GoalCommand)
| CallReview (input : ReviewDecisionInput) | CallState (branch : string).
Inductive GoalAnswer := AnsThread | AnsGoal (r : option (Result GoalError GoalOutput)) | AnsReview (r : option OpResult)
| AnsState (r : option (Result GoalError GoalState)).
Definition goal_prog (c : GoalCall) : Act GoalAnswer :=
  match c with
  | CallThread branch => let! _ := ThreadCreate defaultIndexStream (mkCreateParams "t" branch ∅ zero_Source 5) in Ret AnsThread
  | CallFork to => let! _ := ThreadFork (mkForkParams "t" emp to zero_Source 0) in Ret AnsThread
  | CallGoal branch action => let! r := applyCommand true (mkRef "t" branch) "run" action in Ret (AnsGoal r)
  | CallReview input => let! r := reviewDecisionHandler true ("reviewer"%string, "rr"%string) input in Ret (AnsReview r)
  | CallState branch => let! r := currentState true (mkRef "t" branch) in Ret (AnsState r)
  end.
(** The reviewer rejects the goal, whose identifier is that of the fourth draw. *)
Definition rejects (goalID : string) : ReviewDecisionInput :=
  mkDecisionInput "t" goalID "review" "run" "rejected" "more work" [] [mkSuggestion "go on" emp] [].
Definition start (calls : list GoalCall) := (fresh (NewMemoryStore (P := ThreadEvent GoalEvent)), goal_prog <$> calls).
Definition final (calls : list GoalCall) (turns : list (nat * nat)) :=
  run_pool ThreadsDemo.handle (fun n => demo_env (pretty n)) (flat_map (fun '(i, n) => replicate n i) turns) 0 (start calls).
Lemma goal_run calls turns : rtc (pool_step thread_responds) (start calls) (final calls turns).
Proof. apply run_pool_sound. apply ThreadsDemo.thread_handle_responds. Qed.
Definition answer (calls : list GoalCall) (turns : list (nat * nat)) (i : nat) : option GoalAnswer :=
  match (final calls turns).2 !! i with Some (Ret a) => Some a | _ => None end.

(** A thread, its goal, a reviewer who rejects it, and a user who clears it in between. *)
Definition calls : list GoalCall :=
  [CallThread emp; CallGoal emp (CommandSet "ship it"); CallReview (rejects "goal_11"); CallGoal emp CommandClear].
Definition turns : list (nat * nat) := [(0, 10); (1, 12); (2, 1); (3, 12); (2, 12)].
(** A goal on a branch of its own, and the reviewer of that goal. *)
Definition branch_calls : list GoalCall :=
  [CallThread emp; CallFork "side"; CallGoal "side" (CommandSet "ship it"); CallReview (rejects "goal_22")].
Definition branch_turns : list (nat * nat) := [(0, 10); (1, 10); (2, 12); (3, 12)].

(** The goal of the main branch in a store. *)
Definition goal_now (w : World (ThreadEvent GoalEvent) Store) : option (Result ThreadError GoalState) :=
  let snapshot := projectSnapshot "t" (st_Record <$> view (w_store w) (threadStream "t")) in
  ProjectThread (branch_fuel snapshot) snapshot.

(** The stream of a thread with a goal on the main branch and another branch. *)
Definition on_branch (branch : string) (p : ThreadEvent GoalEvent) : EventRecord (ThreadEvent GoalEvent) :=
  mkRecord "r" (ThreadEventName p) 5 (mkScope "t" emp emp) p {[ attrBranchID := branch ]}.
Definition goal_on (branch : string) (e : GoalEvent) := on_branch branch (OtherEvent (GoalEventName e) (goal_payload e)).
Definition stream : list (EventRecord (ThreadEvent GoalEvent)) :=
  [on_branch "main" (ThreadCreated "t" "main" ∅ 5 zero_Source)] ++ [goal_on "main" (GoalSet "g" emp "ship it" "run")]
  ++ [on_branch "side" (BranchCreated "t" "main" "side" 2 7 zero_Source)].
Lemma goal_stream_history : history "t" stream.
Proof.
  unfold stream. rewrite !app_assoc.
  apply (history_fork "t" _ _ "main" "side" 7 zero_Source); [apply history_plain;
    [apply (history_created "t" _ "main" ∅ 5 zero_Source)|..]|..]; try reflexivity; try discriminate; vm_compute; eauto.
Qed.
Definition review : GoalReview := mkGoalReview "review" "g" "run" "rt" "rr" (mkReviewResult "review" DecisionRejected "no" [] [] [] [mkSuggestion "go on" emp]).
Definition decision := goal_on "main" (GoalRejectedEv "g" review "run").
End GoalDemo.

(** A user clears the goal while a reviewer decides on it: the command answers that the goal is
    cleared, the decision is recorded, everything has finished, and the goal is active again. *)
Theorem cleared_goal_revived :
  exists w ps goal,
    rtc (pool_step thread_responds) (GoalDemo.start GoalDemo.calls) (w, ps) /\
    ps !! 3 = Some (Ret (GoalDemo.AnsGoal (Some (Ok GoalClearedOutput)))) /\
    (exists r, ps !! 2 = Some (Ret (GoalDemo.AnsReview (Some r))) /\ or_Error r = None) /\
    GoalDemo.goal_now w = Some (Ok goal) /\ ActiveForContinuation goal = true.
Proof.
  assert (E : match GoalDemo.goal_now (GoalDemo.final GoalDemo.calls GoalDemo.turns).1 with
              | Some (Ok goal) => ActiveForContinuation goal | _ => false end = true) by (vm_compute; reflexivity).
  destruct (GoalDemo.goal_now _) as [[goal|]|] eqn:Eg; try discriminate E.
  exists (GoalDemo.final GoalDemo.calls GoalDemo.turns).1, (GoalDemo.final GoalDemo.calls GoalDemo.turns).2, goal.
  split; [rewrite <- surjective_pairing; apply GoalDemo.goal_run|]. split; [vm_compute; reflexivity|].
  split; [|by split]. eexists. split; [vm_compute; reflexivity|reflexivity].
Qed.

(** The reviewer of a goal that was set on a branch finds no goal at all. *)
Lemma review_stale_on_branch :
  GoalDemo.answer GoalDemo.branch_calls GoalDemo.branch_turns 2 <> None /\
  exists r, GoalDemo.answer GoalDemo.branch_calls GoalDemo.branch_turns 3 = Some (GoalDemo.AnsReview (Some r)) /\
    or_Error r = Some (mkOpError "goal_review_stale" "goal is not the active review target").
Proof. split; [vm_compute; discriminate|]. eexists. split; [vm_compute; reflexivity|reflexivity]. Qed.

Lemma review_misses_branch_witness :
  exists state,
    ProjectThread 5 ((projectSnapshot "t" (GoalDemo.stream ++ [GoalDemo.decision])) <| sn_BranchID := "side"%string |>) = Some (Ok state) /\
    bound_decision state "review" = None.
Proof.
  destruct (review_misses_branch "t" GoalDemo.stream GoalDemo.decision (GoalRejectedEv "g" GoalDemo.review "run") "side" 5 "review")
    as (state & H1 & H2 & H3).
  - apply GoalDemo.goal_stream_history.
  - discriminate.
  - discriminate.
  - reflexivity.
  - vm_compute. eauto.
  - reflexivity.
  - vm_compute. eauto.
  - vm_compute. lia.
  - vm_compute. lia.
  - exists state. split; [exact H2|]. vm_compute in H1. injection H1 as <-. reflexivity.
Defined.

Lemma goal_projection_exact_witness :
  go_Status (ProjectThreadRecords "t" (toThreadRecord "t" 1 <$> [GoalDemo.goal_on "main" (GoalSet "g" emp "ship it" "run");
    GoalDemo.decision])) = GoalRejected.
Proof.
  rewrite (goal_projection_exact "t" [] (toThreadRecord "t" 1 (GoalDemo.goal_on "main" (GoalSet "g" emp "ship it" "run")))
    [toThreadRecord "t" 1 GoalDemo.decision] "g" emp "ship it" "run"); [reflexivity|reflexivity|].
  repeat constructor. exact id.
Defined.

Lemma goal_command_effect_witness :
  Visible (ProjectThreadRecords "t" (toThreadRecord "t" 1 <$> [GoalDemo.goal_on "main" (GoalSet "g" emp "ship it" "run");
    GoalDemo.goal_on "main" (GoalClearedEv "g" "run")])) = false.
Proof.
  apply (goal_command_effect "t" [toThreadRecord "t" 1 (GoalDemo.goal_on "main" (GoalSet "g" emp "ship it" "run"))]
    CommandClear (mkRef "t" emp) emp "run" [GoalClearedEv "g" "run"] GoalClearedOutput
    [toThreadRecord "t" 1 (GoalDemo.goal_on "main" (GoalClearedEv "g" "run"))]).
  - discriminate.
  - vm_compute. reflexivity.
  - repeat constructor.
Defined.
