(* ===== verification/SessionData.v ===== *)
(** * What a session handles (src/core/channel/channel.go, src/core/environment, src/core/session/event.go,
    src/orchestration/sessionenv/env.go and the result types of src/orchestration/session/session.go)

    Messages and inbound envelopes with their validation, effects of operations, the events a session
    writes to its thread, and the results of an input. *)

From S2P Require Import Prelude Operation Event Thread ThreadStore Conversation AgentModel Goal.

(** ** Messages and envelopes *)

Record ChannelMessage := mkMessage { ms_Content : Value; ms_Metadata : gmap string Value }.
Inductive InboundKind := InboundMessage | InboundCommand | InboundOperation | InboundEvent | InboundTrigger
| OtherInboundKind (kind : string).
#[global] Instance InboundKind_eq_dec : EqDecision InboundKind.
Proof. solve_decision. Defined.
(** A command invocation is inspected by its own [Validate], given with it. *)
Record CommandInvocation := mkInvocation { ci_Path : list string; ci_Args : list string; ci_Input : Value }.
Record OperationInvocation := mkOperationInvocation { oi_Operation : OpRef; oi_Input : Value }.
Record TriggerEvent := mkTrigger { tg_Name : string; tg_Payload : Value }.
(** Callers, trust and actors belong to other modules; they are handed through as one text. *)
Record Inbound := mkInbound {
  ib_ID : string;
  ib_Channel : string;
  ib_Conversation : string;
  ib_Authority : string;
  ib_Kind : InboundKind;
  ib_Message : option ChannelMessage;
  ib_Command : option CommandInvocation;
  ib_CommandLine : string;
  ib_Operation : option OperationInvocation;
  ib_Event : option string;
  ib_Trigger : option TriggerEvent
}.

Inductive InboundError :=
| PayloadNil (expected : InboundKind)
| CommandTwice
| CommandInvalid (e : string)
| OperationNameEmpty
| TriggerNameEmpty
| Extra (expected carried : InboundKind)
| ExtraCommandLine (expected : InboundKind)
| KindInvalid (kind : string).

Definition is_some {A} (o : option A) : bool := match o with Some _ => true | None => false end.
Definition rejectInboundExtras (inbound : Inbound) (expected : InboundKind) : option InboundError :=
  let other kind := negb (bool_decide (expected = kind)) in
  if other InboundMessage && is_some (ib_Message inbound) then Some (Extra expected InboundMessage)
  else if other InboundCommand && is_some (ib_Command inbound) then Some (Extra expected InboundCommand)
  else if other InboundCommand && negb (blank (ib_CommandLine inbound)) then Some (ExtraCommandLine expected)
  else if other InboundOperation && is_some (ib_Operation inbound) then Some (Extra expected InboundOperation)
  else if other InboundEvent && is_some (ib_Event inbound) then Some (Extra expected InboundEvent)
  else if other InboundTrigger && is_some (ib_Trigger inbound) then Some (Extra expected InboundTrigger)
  else None.
(** [Inbound.Validate]; [invalid] is [Invocation.Validate] of package command. *)
Definition Inbound_Validate (invalid : CommandInvocation -> option string) (i : Inbound) : option InboundError :=
  match ib_Kind i with
  | InboundMessage =>
      match ib_Message i with None => Some (PayloadNil InboundMessage) | Some _ => rejectInboundExtras i InboundMessage end
  | InboundCommand =>
      match ib_Command i with
      | None => if blank (ib_CommandLine i) then Some (PayloadNil InboundCommand) else rejectInboundExtras i InboundCommand
      | Some command =>
          if negb (blank (ib_CommandLine i)) then Some CommandTwice else
          match invalid command with Some e => Some (CommandInvalid e) | None => rejectInboundExtras i InboundCommand end
      end
  | InboundOperation =>
      match ib_Operation i with
      | None => Some (PayloadNil InboundOperation)
      | Some operation =>
          if decide (ref_Name (oi_Operation operation) = emp) then Some OperationNameEmpty
          else rejectInboundExtras i InboundOperation
      end
  | InboundEvent =>
      match ib_Event i with None => Some (PayloadNil InboundEvent) | Some _ => rejectInboundExtras i InboundEvent end
  | InboundTrigger =>
      match ib_Trigger i with
      | None => Some (PayloadNil InboundTrigger)
      | Some trigger => if blank (tg_Name trigger) then Some TriggerNameEmpty else rejectInboundExtras i InboundTrigger
      end
  | OtherInboundKind kind => Some (KindInvalid kind)
  end.

(** The kinds of the payloads an envelope carries; a command counts in both its forms. *)
Definition one_kind (b : bool) (kind : InboundKind) : list InboundKind := if b then [kind] else [].
Definition carried (i : Inbound) : list InboundKind :=
  one_kind (is_some (ib_Message i)) InboundMessage ++ one_kind (is_some (ib_Command i)) InboundCommand
    ++ one_kind (negb (blank (ib_CommandLine i))) InboundCommand ++ one_kind (is_some (ib_Operation i)) InboundOperation
    ++ one_kind (is_some (ib_Event i)) InboundEvent ++ one_kind (is_some (ib_Trigger i)) InboundTrigger.
Record payload_fits (invalid : CommandInvocation -> option string) (i : Inbound) : Prop := {
  pf_command c : ib_Command i = Some c -> invalid c = None;
  pf_operation o : ib_Operation i = Some o -> ref_Name (oi_Operation o) <> emp;
  pf_trigger t : ib_Trigger i = Some t -> blank (tg_Name t) = false
}.

Lemma guard_none {E} (b : bool) (e : E) (k : option E) : (if b then Some e else k) = None <-> b = false /\ k = None.
Proof. destruct b; naive_solver. Qed.
Lemma one_kind_only (b : bool) kind expected :
  Forall (fun k => k = expected) (one_kind b kind) <-> negb (bool_decide (expected = kind)) && b = false.
Proof. unfold one_kind. destruct b; [rewrite Forall_singleton; case_bool_decide; naive_solver|rewrite andb_false_r; naive_solver]. Qed.
Lemma reject_none i expected : rejectInboundExtras i expected = None <-> Forall (fun k => k = expected) (carried i).
Proof. unfold rejectInboundExtras, carried. rewrite !guard_none, !Forall_app, !one_kind_only. naive_solver. Qed.

(** The payload [Validate] asks for, before it looks for extras. *)
Definition expects (invalid : CommandInvocation -> option string) (i : Inbound) : Prop :=
  match ib_Kind i with
  | InboundMessage => ib_Message i <> None
  | InboundCommand =>
      match ib_Command i with
      | None => blank (ib_CommandLine i) = false
      | Some c => blank (ib_CommandLine i) = true /\ invalid c = None
      end
  | InboundOperation => exists o, ib_Operation i = Some o /\ ref_Name (oi_Operation o) <> emp
  | InboundEvent => ib_Event i <> None
  | InboundTrigger => exists t, ib_Trigger i = Some t /\ blank (tg_Name t) = false
  | OtherInboundKind _ => False
  end.
Lemma validate_expects invalid i :
  Inbound_Validate invalid i = None <-> expects invalid i /\ rejectInboundExtras i (ib_Kind i) = None.
Proof.
  unfold Inbound_Validate, expects. destruct (ib_Kind i) eqn:Ek.
  - destruct (ib_Message i); naive_solver.
  - destruct (ib_Command i) as [c|]; [destruct (blank _); [destruct (invalid c)|]|destruct (blank _)]; cbn; naive_solver.
  - destruct (ib_Operation i) as [o|]; [case_decide|]; naive_solver.
  - destruct (ib_Event i); naive_solver.
  - destruct (ib_Trigger i) as [t|]; [destruct (blank _) eqn:E|]; naive_solver congruence.
  - naive_solver.
Qed.

(** An envelope is valid exactly when it carries one payload, the one of its kind, well formed. *)
Theorem inbound_validate_exact invalid i :
  Inbound_Validate invalid i = None <-> carried i = [ib_Kind i] /\ payload_fits invalid i.
Proof.
  rewrite validate_expects, reject_none. split.
  - intros [Hx Hr]. unfold carried in *. rewrite !Forall_app, !one_kind_only in Hr. unfold expects in Hx.
    destruct i as [id ch conv auth kind msg cmd line op ev tr]. cbn in *.
    destruct kind; cbn in *; destruct_and?; destruct msg, cmd, (blank line) eqn:?, op, ev, tr; cbn in *;
      try done; destruct_and?; try naive_solver;
      (split; [done|split; cbn; naive_solver]).
  - intros [Hc [F1 F2 F3]]. split; [|rewrite Hc; by constructor]. unfold expects, carried in *.
    destruct i as [id ch conv auth kind msg cmd line op ev tr]. cbn in *.
    destruct kind, msg, cmd, (blank line) eqn:?, op, ev, tr; cbn in *; try discriminate; naive_solver.
Qed.

(** ** Effects and observations *)

(** [Observation.Content] is [any]: the session puts values and results of operations there. *)
Inductive Content := ContentNone | ContentValue (v : Value) | ContentResult (r : OpResult).
Record Observation := mkObservation {
  bs_ID : string; bs_Source : string; bs_Kind : string; bs_Content : Content; bs_Metadata : gmap string Value }.
Record EffectResult := mkEffectResult { ef_Result : OpResult; ef_Observation : Observation }.
Definition with_metadata (effect : EffectResult) (metadata : gmap string Value) : EffectResult :=
  mkEffectResult (ef_Result effect)
    (mkObservation (bs_ID (ef_Observation effect)) (bs_Source (ef_Observation effect)) (bs_Kind (ef_Observation effect))
       (bs_Content (ef_Observation effect)) metadata).
Definition observationsForEffects (effects : list EffectResult) : list Observation :=
  map (fun effect =>
    let obs := ef_Observation effect in
    if bool_decide (bs_ID obs = emp) && bool_decide (bs_Kind obs = emp)
    then mkObservation emp "operation" "operation.result" (ContentResult (ef_Result effect)) ∅ else obs) effects.
Definition lastEffect (effects : list EffectResult) : option EffectResult := last effects.

(** ** Context blocks a turn renders *)

Record ContextBlock := mkBlock { cb_ID : string; cb_Provider : string; cb_Content : string }.
Inductive Placement := PlacementSystem | PlacementDeveloper | PlacementUser.
(** What the context materializer found: the blocks that changed since the records it last rendered, and
    the text of the changes for each placement ([RenderDiff]). *)
Record BuildResult := mkBuildResult {
  bu_TurnID : string;
  bu_Records : bool;
  bu_Added : list ContextBlock;
  bu_Updated : list ContextBlock;
  bu_Removed : list string;
  bu_Diff : Placement -> option string
}.
Definition zero_BuildResult : BuildResult := mkBuildResult emp false [] [] [] (fun _ => None).
Definition EmptyDiff (r : BuildResult) : bool :=
  match bu_Added r, bu_Updated r, bu_Removed r with [], [], [] => true | _, _, _ => false end.

(** ** Events of a session *)

Inductive SessionEvent :=
| InputReceived (RunID : string) (Message : ChannelMessage) (channel conversation authority : string)
| AgentStepCompleted (RunID : string) (result : AgentStep)
| OperationRequested (RunID CallID : string) (op : OpRef) (Input : Value)
| OperationCompleted (RunID CallID : string) (op : OpRef) (result : OpResult)
| OutboundProduced (RunID : string) (Message : ChannelMessage)
| CommandReceived (RunID : string) (Command : CommandInvocation) (channel conversation authority : string)
| CommandRejected (RunID : string) (Command : CommandInvocation) (Reason : string)
| ConversationWritten (e : ConversationEvent)
| GoalWritten (e : GoalEvent)
| BlockRecorded (TurnID : string) (block : ContextBlock)
| BlockRemovedRecorded (TurnID removed : string)
| RenderCommitted (TurnID : string)
| OtherSessionEvent (name : string).
Definition SessionEventName (e : SessionEvent) : string :=
  match e with
  | InputReceived _ _ _ _ _ => "session.input.received"
  | AgentStepCompleted _ _ => "session.agent_step.completed"
  | OperationRequested _ _ _ _ => "session.operation.requested"
  | OperationCompleted _ _ _ _ => "session.operation.completed"
  | OutboundProduced _ _ => "session.outbound.produced"
  | CommandReceived _ _ _ _ _ => "session.command.received"
  | CommandRejected _ _ _ => "session.command.rejected"
  | ConversationWritten e => ConversationEventName e
  | GoalWritten e => GoalEventName e
  | BlockRecorded _ _ => "context.block.recorded"
  | BlockRemovedRecorded _ _ => "context.block.removed"
  | RenderCommitted _ => "context.render.committed"
  | OtherSessionEvent name => name
  end.
#[export] Instance session_conversation : ConversationPayload SessionEvent := {
  conversation_payload := ConversationWritten;
  as_conversation e := match e with ConversationWritten e => Some e | _ => None end
}.
#[export] Instance session_conversation_laws : ConversationPayloadLaws SessionEvent.
Proof. by split. Qed.
#[export] Instance session_goal : GoalPayload SessionEvent := {
  goal_payload := GoalWritten;
  as_goal e := match e with GoalWritten e => Some e | _ => None end
}.
#[export] Instance session_goal_laws : GoalPayloadLaws SessionEvent.
Proof. by split. Qed.

Abbreviation SessionRecord := (AppendRecord SessionEvent).
Definition session_record (threadID : string) (e : SessionEvent) : SessionRecord :=
  mkAppendRecord emp emp
    (mkRecord emp (SessionEventName e) 0%Z (mkScope threadID emp emp) (OtherEvent (SessionEventName e) e) ∅).
(** [sessionenv.ThreadAppendRecords]. *)
Definition ThreadAppendRecords (threadID : string) (events : list SessionEvent) : list SessionRecord :=
  map (session_record threadID) events.

(** ** Results of an input *)

Record CommandError := mkCommandError { ce_Code : string; ce_Message : string; ce_Details : gmap string Value }.
Inductive InputStatus := InputStatusOK | InputStatusFailed | InputStatusUnsupported.
#[global] Instance InputStatus_eq_dec : EqDecision InputStatus.
Proof. solve_decision. Defined.
Record Outbound := mkOutbound { ou_Channel : string; ou_Conversation : string; ou_Message : ChannelMessage }.
Record InputResult := mkInputResult {
  ir_Status : InputStatus;
  ir_Agent : AgentStep;
  ir_Effect : option EffectResult;
  ir_Effects : list EffectResult;
  ir_Outbound : option Outbound;
  ir_Error : option CommandError
}.
Definition inputFailed (code message : string) : InputResult :=
  mkInputResult InputStatusFailed zero_AgentStep None [] None (Some (mkCommandError code message ∅)).
Definition agentError (err : option AgentError) : option CommandError :=
  match err with Some e => Some (mkCommandError (ge_Code e) (ge_Message e) (ge_Details e)) | None => None end.
