(* ===== verification/StopCondition.v ===== *)
(** * Stop conditions (src/orchestration/sessioncontrol/control.go)

    Whether an agent that has answered should continue: a tree of conditions, some of which ask a
    model. The evaluator of those is any computation over the state of the caller. *)

From S2P Require Import Prelude Operation Conversation StateLogic AgentModel SessionData.

Definition StopActionStop : string := "stop".
Definition StopActionContinue : string := "continue".
Record StopEvaluation := mkStopEvaluation { se_Action : string; se_Reason : string; se_ContinueInstruction : string }.
Record StopEvaluationInput := mkStopInput {
  sx_Agent : AgentSpec;
  sx_Condition : StopConditionSpec;
  sx_Inbound : Inbound;
  sx_AgentResult : AgentStep;
  sx_Effects : list EffectResult;
  sx_Completed : Z;
  sx_MaxContinuations : Z
}.
#[global] Instance rebuild_StopEvaluationInput : Rebuild StopEvaluationInput := fun i =>
  mkStopInput i.(sx_Agent) i.(sx_Condition) i.(sx_Inbound) i.(sx_AgentResult) i.(sx_Effects) i.(sx_Completed) i.(sx_MaxContinuations).

Inductive StopError := EvaluatorMissing | AgentConditionUnsupported | ConditionTypeUnsupported (typ : string)
| EvaluatorFailed (msg : string).

Section Conditions.
Context {W : Type}.

Definition stop : StopEvaluation := mkStopEvaluation StopActionStop emp emp.
(** The verdict of one ["max-continuations"] condition. *)
Definition max_continuations_verdict (max completed : Z) : StopEvaluation :=
  if (0 <? max)%Z && (max <=? completed)%Z then mkStopEvaluation StopActionStop "stop condition max reached" emp
  else mkStopEvaluation StopActionContinue "max-continuations stop condition requested another continuation" "Continue.".

Definition Evaluator : Type := StopEvaluationInput -> St W (Result StopError StopEvaluation).

(** The loops over the children of ["or"] and ["and"]. *)
Definition any_child (eval : StopConditionSpec -> St W (Result StopError StopEvaluation))
    : list StopConditionSpec -> St W (Result StopError StopEvaluation) :=
  fix go children :=
    match children with
    | [] => st_ret (Ok stop)
    | child :: rest =>
        let@ r := eval child in
        match r with
        | Err e => st_ret (Err e)
        | Ok evaluation => if decide (se_Action evaluation = StopActionContinue) then st_ret (Ok evaluation) else go rest
        end
    end.
Definition all_children (eval : StopConditionSpec -> St W (Result StopError StopEvaluation))
    : StopEvaluation -> list StopConditionSpec -> St W (Result StopError StopEvaluation) :=
  fix go out children :=
    match children with
    | [] => st_ret (Ok (if decide (se_Action out = emp) then mkStopEvaluation StopActionStop (se_Reason out) (se_ContinueInstruction out) else out))
    | child :: rest =>
        let@ r := eval child in
        match r with
        | Err e => st_ret (Err e)
        | Ok evaluation =>
            if decide (se_Action evaluation = StopActionContinue) then go evaluation rest
            else st_ret (Ok (mkStopEvaluation StopActionStop (se_Reason evaluation) emp))
        end
    end.

Fixpoint EvaluateStopCondition (evaluator : option Evaluator) (input : StopEvaluationInput) (condition : StopConditionSpec)
    : St W (Result StopError StopEvaluation) :=
  let typ := TrimSpace (st_Type condition) in
  let eval := EvaluateStopCondition evaluator input in
  if decide (typ = emp) then st_ret (Ok stop)
  else if decide (typ = "max-continuations"%string) then
    st_ret (Ok (max_continuations_verdict (st_Max condition) (sx_Completed input)))
  else if decide (typ = "prompt"%string) then
    match evaluator with
    | None => st_ret (Err EvaluatorMissing)
    | Some evaluator => evaluator (input <| sx_Condition := condition |>)
    end
  else if decide (typ = "agent"%string) then st_ret (Err AgentConditionUnsupported)
  else
    match condition with
    | mkStopCondition _ _ _ _ children _ =>
        if decide (typ = "or"%string) then any_child eval children
        else if decide (typ = "and"%string) then all_children eval (mkStopEvaluation emp emp emp) children
        else st_ret (Err (ConditionTypeUnsupported (st_Type condition)))
    end.

(** ** The evaluator that asks a model (ModelStopEvaluator) *)

Definition continuationDecisionOperationName : string := "continuation_decision".
Definition normalizeStopEvaluation `{LowerCase} (out : StopEvaluation) : Result StopError StopEvaluation :=
  let action := ToLower (TrimSpace (se_Action out)) in
  if decide (action <> StopActionStop /\ action <> StopActionContinue)
  then Err (EvaluatorFailed "stop evaluation action must be stop or continue")
  else Ok (mkStopEvaluation action (se_Reason out) (se_ContinueInstruction out)).
(** What it makes of the answer of the model: the operations it calls. [bind] decodes the input of an
    operation. *)
Definition decide_continuation `{LowerCase} (bind : Value -> Result string StopEvaluation) (operations : list OperationRequest)
    : Result StopError StopEvaluation :=
  match operations with
  | [request] =>
      if decide (ref_Name (oq_Operation request) = continuationDecisionOperationName) then
        match bind (oq_Input request) with
        | Err e => Err (EvaluatorFailed ("continuation decision failed: " ++ e))
        | Ok out => normalizeStopEvaluation out
        end
      else Err (EvaluatorFailed "stop evaluator called another operation")
  | _ => Err (EvaluatorFailed "stop evaluator must call continuation_decision exactly once")
  end.
(** [model] is the call of the model: [None] is a nil model. *)
Definition ModelStopEvaluator `{LowerCase} (bind : Value -> Result string StopEvaluation)
    (model : option (StopEvaluationInput -> St W (Result string (list OperationRequest)))) : Evaluator := fun input =>
  match model with
  | None => st_ret (Err (EvaluatorFailed "stop evaluator model is nil"))
  | Some model =>
      let@ response := model input in
      st_ret match response with
             | Err e => Err (EvaluatorFailed e)
             | Ok operations => decide_continuation bind operations
             end
  end.

(** ** A tree is a formula *)

Section Formula.
Context (verdict : StopConditionSpec -> bool) (completed : Z).
(** The formula of a condition: the leaves are limits and the verdicts on prompts. *)
Fixpoint wants_more (condition : StopConditionSpec) : bool :=
  let typ := TrimSpace (st_Type condition) in
  if decide (typ = "max-continuations"%string) then negb ((0 <? st_Max condition)%Z && (st_Max condition <=? completed)%Z)
  else if decide (typ = "prompt"%string) then verdict condition
  else
    match condition with
    | mkStopCondition _ _ _ _ children _ =>
        if decide (typ = "or"%string) then existsb wants_more children
        else if decide (typ = "and"%string) then
          match children with [] => false | _ => forallb wants_more children end
        else false
    end.
(** The types a tree may have without an error. *)
Fixpoint supported (condition : StopConditionSpec) : bool :=
  let typ := TrimSpace (st_Type condition) in
  bool_decide (typ ∈ [""; "max-continuations"; "prompt"]%string) ||
  match condition with
  | mkStopCondition _ _ _ _ children _ => bool_decide (typ ∈ ["or"; "and"]%string) && forallb supported children
  end.
End Formula.

(** An evaluator that always answers, and whose answers are the verdicts, spelled as the constants. *)
Definition decides (evaluator : Evaluator) (verdict : StopConditionSpec -> bool) : Prop :=
  forall input w, exists evaluation w',
    evaluator input w = (Ok evaluation, w') /\ (se_Action evaluation = StopActionContinue <-> verdict (sx_Condition input) = true).

(** The induction principle of conditions, through the list of children. *)
Lemma condition_ind' (P : StopConditionSpec -> Prop) :
  (forall t m p s children a, Forall P children -> P (mkStopCondition t m p s children a)) -> forall c, P c.
Proof.
  intros H. fix IH 1. intros [t m p s children a]. apply H.
  induction children as [|c children IHc]; constructor; [apply IH|exact IHc].
Qed.

(** Nothing but the evaluator moves the state. *)
Lemma EvaluateStopCondition_moves (R : W -> W -> Prop) `{!PreOrder R} evaluator input condition :
  (forall f input', evaluator = Some f -> moves R (f input')) -> moves R (EvaluateStopCondition evaluator input condition).
Proof.
  intros Hev. induction condition as [t m p s children a IH] using condition_ind'. cbn -[TrimSpace].
  repeat case_decide; try apply moves_ret, _; [destruct evaluator; [by apply Hev|apply moves_ret, _]|..].
  - induction IH as [|c children Hc _ IH]; [apply moves_ret, _|]. apply moves_bind; [apply _|exact Hc|]. intros [evaluation|e].
    + case_decide; [apply moves_ret, _|exact IH].
    + apply moves_ret, _.
  - generalize (mkStopEvaluation emp emp emp). induction IH as [|c children Hc _ IH]; intros out; [apply moves_ret, _|].
    apply moves_bind; [apply _|exact Hc|]. intros [evaluation|e]; [|apply moves_ret, _]. case_decide; [apply IH|apply moves_ret, _].
Qed.

Definition gives (m : St W (Result StopError StopEvaluation)) (b : bool) : Prop :=
  forall w, exists evaluation w', m w = (Ok evaluation, w') /\ (se_Action evaluation = StopActionContinue <-> b = true).

Lemma gives_ret evaluation b : (se_Action evaluation = StopActionContinue <-> b = true) -> gives (st_ret (Ok evaluation)) b.
Proof. intros H w. by exists evaluation, w. Qed.
Lemma gives_any (eval : StopConditionSpec -> St W (Result StopError StopEvaluation)) (f : StopConditionSpec -> bool) children :
  Forall (fun c => gives (eval c) (f c)) children -> gives (any_child eval children) (existsb f children).
Proof.
  induction 1 as [|c children Hc _ IH]; cbn; [by apply gives_ret|]. intros w. unfold st_bind.
  destruct (Hc w) as (evaluation & w' & -> & Hv). case_decide as Ha.
  - exists evaluation, w'. split; [done|]. rewrite (proj1 Hv Ha). naive_solver.
  - destruct (f c); [naive_solver|]. apply IH.
Qed.
Lemma gives_all (eval : StopConditionSpec -> St W (Result StopError StopEvaluation)) (f : StopConditionSpec -> bool) out children :
  Forall (fun c => gives (eval c) (f c)) children ->
  gives (all_children eval out children)
    (match children with [] => bool_decide (se_Action out = StopActionContinue) | _ => forallb f children end).
Proof.
  intros H. revert out. induction H as [|c children Hc _ IH]; intros out; cbn [all_children forallb].
  - apply gives_ret. rewrite bool_decide_eq_true. case_decide as E; [cbn; rewrite E|]; naive_solver.
  - intros w. unfold st_bind. destruct (Hc w) as (evaluation & w' & -> & Hv). case_decide as Ha.
    + rewrite (proj1 Hv Ha). cbn [andb]. destruct (IH evaluation w') as (ev & w2 & E & Hev). exists ev, w2. split; [exact E|].
      destruct children; [|exact Hev]. rewrite bool_decide_eq_true_2 in Hev by done. exact Hev.
    + destruct (f c) eqn:Ef; [naive_solver|]. eexists _, w'. split; [reflexivity|]. cbn. naive_solver.
Qed.

(** A tree of supported conditions is evaluated without error, and asks to continue exactly when its
    formula holds; an empty ["or"] or ["and"] asks to stop. *)
Theorem stop_condition_formula evaluator verdict input condition :
  decides evaluator verdict -> supported condition = true ->
  gives (EvaluateStopCondition (Some evaluator) input condition) (wants_more verdict (sx_Completed input) condition).
Proof.
  intros Hev Hsup. induction condition as [t m p s children a IH] using condition_ind'. cbn -[TrimSpace] in Hsup |- *.
  apply orb_true_iff in Hsup. rewrite bool_decide_eq_true, !elem_of_cons, elem_of_nil in Hsup.
  destruct (decide (TrimSpace t = emp)) as [E|H0].
  { rewrite E. repeat (rewrite decide_False by done). by apply gives_ret. }
  destruct (decide (TrimSpace t = "max-continuations"%string)) as [E|H1].
  { apply gives_ret. unfold max_continuations_verdict. cbn [st_Max st_Conditions sx_Completed].
    destruct (0 <? m)%Z, (m <=? sx_Completed input)%Z; cbn; split; intros H; first [done|discriminate H]. }
  destruct (decide (TrimSpace t = "prompt"%string)) as [E|H2].
  { intros w. destruct (Hev (input <| sx_Condition := mkStopCondition t m p s children a |>) w) as (ev & w' & E' & Hv). eauto. }
  assert (Hchildren : Forall (fun c => supported c = true) children /\ (TrimSpace t = "or"%string \/ TrimSpace t = "and"%string)).
  { destruct Hsup as [Hin|Hin]; [naive_solver|]. apply andb_true_iff in Hin as [Hin Hall].
    apply bool_decide_eq_true in Hin. rewrite !elem_of_cons, elem_of_nil in Hin. split; [|naive_solver].
    apply Forall_forall. intros c Hc. apply (proj1 (forallb_forall _ _) Hall), list_elem_of_In, Hc. }
  destruct Hchildren as [Hc Hin].
  destruct (decide (TrimSpace t = "agent"%string)) as [E|H3]; [destruct Hin as [Hin|Hin]; rewrite E in Hin; discriminate Hin|].
  assert (IHc : Forall (fun c => gives (EvaluateStopCondition (Some evaluator) input c) (wants_more verdict (sx_Completed input) c)) children).
  { apply (Forall_impl _ _ _ (proj2 (Forall_and _ _) (conj IH Hc))). intros c [H1' H2']. by apply H1'. }
  destruct (decide (TrimSpace t = "or"%string)) as [E|H4]; [by apply gives_any|].
  destruct (decide (TrimSpace t = "and"%string)) as [E|H5]; [|by destruct Hin].
  pose proof (gives_all (EvaluateStopCondition (Some evaluator) input) (wants_more verdict (sx_Completed input))
    (mkStopEvaluation emp emp emp) children IHc) as Hall. by destruct children.
Qed.
End Conditions.
