(* ===== verification/SessionItems.v ===== *)
(** * Transcript items of a turn (src/orchestration/session/session.go)

    The provider a session talks to, the items it adds to a transcript, what is pending at a step, and
    the check that the operations an agent requests are the tool calls it has made. *)

From S2P Require Import Prelude Operation Thread Conversation Continuity Exchanges WorkerText Compaction AgentModel SessionData.

(** ** The provider *)

Record Agent := mkAgent { ag_Identity : option ProviderIdentity; ag_Spec : AgentSpec }.

(** [firstNonEmptyString] and [firstNonEmpty]: the first text that is not blank, trimmed. *)
Fixpoint firstNonEmptyString (values : list string) : string :=
  match values with
  | [] => emp
  | value :: rest => if blank value then firstNonEmptyString rest else TrimSpace value
  end.
Definition stringFromAny (value : Value) : string := match value with VString s => s | _ => emp end.
Definition config_string (config : gmap string Value) (key : string) : string := stringFromAny (default VNil (config !! key)).
Definition knownModelProviderPrefix (value : string) : bool :=
  bool_decide (value ∈ ["openai"; "codex"; "openrouter"; "anthropic"; "claudecode"; "minimax"]%string).
Definition normalizeProviderModel (provider model : string) : string * string :=
  let provider := TrimSpace provider in
  let model := TrimSpace model in
  if decide (provider <> emp) then NormalizeProviderModel provider model else
  let '(before, after, ok) := Cut model slash in
  if ok && negb (bool_decide (before = emp)) && negb (bool_decide (after = emp)) && knownModelProviderPrefix before
  then (before, after) else (provider, model).
Definition zero_Provider : ProviderIdentity := mkProvider emp emp emp emp.
Definition providerIdentity (agent : option Agent) : ProviderIdentity :=
  let identity :=
    match agent with
    | None => zero_Provider
    | Some a =>
        let id := default zero_Provider (ag_Identity a) in
        let spec := ag_Spec a in
        let inference := nf_Annotations (as_Inference spec) in
        let driver := as_Driver spec in
        let pick (own key : string) := firstNonEmptyString [own; attribute inference key; attribute inference ("llm." ++ key);
          attribute (dv_Annotations driver) key; config_string (dv_Config driver) key] in
        mkProvider (pick (pi_Provider id) "provider") (pick (pi_API id) "api") (pick (pi_Family id) "family")
          (firstNonEmptyString [pi_Model id; nf_Model (as_Inference spec)])
    end in
  let '(provider, model) := normalizeProviderModel (pi_Provider identity) (pi_Model identity) in
  mkProvider provider (pi_API identity) (pi_Family identity) model.

(** ** Items *)

Section Items.
Context {VJ : ValueJson} {OA : OperationApi}.

(** What the session asks of operation results: the text for a model of a value that renders itself,
    and the object an error is shown as. *)
Class ModelRenderable := { ModelText : Value -> option Value; error_object : OpError -> Value }.
Context {MR : ModelRenderable}.

Definition inputTranscriptItem (provider : ProviderIdentity) (content : Value) : Item :=
  mkItem provider ItemInput "user" emp emp emp emp [] content emp ∅.
Definition contextTranscriptItem (provider : ProviderIdentity) (role content : string) : Item :=
  mkItem provider ItemInput role emp emp emp emp [] (VString content) emp {[ "context"%string := "diff"%string ]}.
Definition result_content (result : OpResult) : Value :=
  match or_Error result with
  | Some e => if IsError result then error_object e else default (or_Output result) (ModelText (or_Output result))
  | None => default (or_Output result) (ModelText (or_Output result))
  end.
Definition operationResultTranscriptItem (provider : ProviderIdentity) (request : OperationRequest) (result : OpResult) : Item :=
  mkItem provider ItemToolResult emp emp emp (oq_ProviderCallID request) (ref_Name (oq_Operation request)) []
    (result_content result) emp
    (if decide (oq_ProviderCallType request = emp) then ∅
     else {[ "provider_call_type"%string := oq_ProviderCallType request ]}).

(** ** What is pending at a step *)

Record transcriptPending := mkPending { tp_Items : list Item; tp_Committed : bool; tp_CommittedCount : Z }.

Definition normalizedPendingCommittedCount (p : transcriptPending) : Z :=
  let n := Z.of_nat (length (tp_Items p)) in
  let c := tp_CommittedCount p in
  let c := if tp_Committed p && (c =? 0)%Z then n else c in
  if (c <? 0)%Z then 0%Z else if (n <? c)%Z then n else c.

Definition prependContextDiff (diff : string) (content : Value) : string :=
  let body := contentText content in
  if blank body then diff else (TrimSpace diff ++ nl ++ nl ++ body)%string.
(** The loop of [addUserContextDiff]: the first input of the user gets the text, or a new one at the end. *)
Fixpoint addUserContextDiff (provider : ProviderIdentity) (items : list Item) (diff : string) : list Item :=
  match items with
  | [] => [contextTranscriptItem provider "user" diff]
  | item :: rest =>
      if bool_decide (it_Kind item = ItemInput) && bool_decide (TrimSpace (it_Role item) = "user"%string)
      then (item <| it_Content := VString (prependContextDiff diff (it_Content item)) |>
                 <| it_Metadata := <["context"%string := "diff"%string]> (it_Metadata item) |>) :: rest
      else item :: addUserContextDiff provider rest diff
  end.
Definition contextPendingItems (provider : ProviderIdentity) (pending : list Item) (result : BuildResult) (committedCount : Z)
    : list Item :=
  if EmptyDiff result then pending else
  let n := Z.to_nat (if (committedCount <? 0)%Z then 0 else if (Z.of_nat (length pending) <? committedCount)%Z
                     then Z.of_nat (length pending) else committedCount)%Z in
  let out := take n pending in
  let tail := drop n pending in
  let block role placement := match bu_Diff result placement with Some text => [contextTranscriptItem provider role text] | None => [] end in
  let tail := block "system"%string PlacementSystem ++ block "developer"%string PlacementDeveloper ++ tail in
  let tail := match bu_Diff result PlacementUser with Some text => addUserContextDiff provider tail text | None => tail end in
  out ++ tail.

Inductive RenderReason := RenderTurn | RenderToolFollowup | RenderContinuation.
#[global] Instance RenderReason_eq_dec : EqDecision RenderReason.
Proof. solve_decision. Defined.
Definition contextRenderReason (pending : list Item) (observations : list Observation) : RenderReason :=
  if existsb (fun item => bool_decide (it_Kind item = ItemToolResult)) pending then RenderToolFollowup
  else if existsb (fun o => bool_decide (bs_Kind o = "session.continuation"%string)) observations then RenderContinuation
  else RenderTurn.

Definition inboundUserContextMetadataKey : string := "user_context".
Definition oneShotUserContextPending (inbound : Inbound) (pending : list Item) (reason : RenderReason) : list Item :=
  match ib_Message inbound with
  | None => pending
  | Some message =>
      if negb (bool_decide (reason = RenderTurn)) || (match pending with [] => true | _ => false end) then pending else
      match ms_Metadata message !! inboundUserContextMetadataKey with
      | None => pending
      | Some raw =>
          let text := TrimSpace (contentText raw) in
          if decide (text = emp) then pending else addUserContextDiff zero_Provider pending text
      end
  end.

(** ** Requests and calls *)

Inductive RequestError :=
| CallDuplicated (callID : string)
| RequestMissingCallID (index : nat)
| RequestUnknownCall (index : nat) (callID : string)
| RequestDuplicated (index : nat) (callID : string)
| CallUnmatched (name : string).

(** The loops over the items and their calls. *)
Definition note_call (r : Result RequestError (gmap string ToolCallRef)) (call : ToolCallRef)
    : Result RequestError (gmap string ToolCallRef) :=
  let? open := r in
  let callID := TrimSpace (tc_CallID call) in
  if decide (callID = emp) then Ok open else
  match open !! callID with
  | Some existing => if decide (tc_CallID existing = emp) then Ok (<[callID := call]> open) else Err (CallDuplicated callID)
  | None => Ok (<[callID := call]> open)
  end.
Definition note_item (r : Result RequestError (gmap string ToolCallRef)) (item : Item)
    : Result RequestError (gmap string ToolCallRef) :=
  if decide (it_Kind item = ItemOutput) then fold_left note_call (ToolCallRefs item) r
  else if decide (it_Kind item = ItemToolResult) then let? open := r in Ok (delete (TrimSpace (it_CallID item)) open)
  else r.
Definition open_requests (items : list Item) : Result RequestError (gmap string ToolCallRef) :=
  fold_left note_item items (Ok ∅).

(** The loop over the requests: the calls matched so far. *)
Fixpoint match_requests (open : gmap string ToolCallRef) (i : nat) (requests : list OperationRequest) (matched : gset string)
    : Result RequestError (gset string) :=
  match requests with
  | [] => Ok matched
  | request :: rest =>
      let callID := TrimSpace (oq_ProviderCallID request) in
      if decide (callID = emp) then Err (RequestMissingCallID i)
      else match open !! callID with
      | None => Err (RequestUnknownCall i callID)
      | Some _ =>
          if decide (callID ∈ matched) then Err (RequestDuplicated i callID)
          else match_requests open (S i) rest ({[callID]} ∪ matched)
      end
  end.
(** The name in the error of an unmatched call; which one is reported depends on the order of the map. *)
Definition call_name (entry : string * ToolCallRef) : string :=
  if blank (tc_Name entry.2) then entry.1 else TrimSpace (tc_Name entry.2).
Definition validateOperationRequests (items : list Item) (requests : list OperationRequest) : option RequestError :=
  match open_requests items with
  | Err e => Some e
  | Ok open =>
      let hasProviderRequest := negb (bool_decide (open = ∅)) || existsb (fun r => negb (blank (oq_ProviderCallID r))) requests in
      if negb hasProviderRequest then None else
      match match_requests open 0 requests ∅ with
      | Err e => Some e
      | Ok matched =>
          match List.find (fun entry => negb (bool_decide (entry.1 ∈ matched))) (map_to_list open) with
          | Some entry => Some (CallUnmatched (call_name entry))
          | None => None
          end
      end
  end.
End Items.

(** * Requested operations are the open tool calls

    [validateOperationRequests] (src/orchestration/session/session.go) compares the operations a step
    asks for with the tool calls its transcript leaves open; the results of these operations then
    complete the transcript. *)

Section Requests.
Implicit Types (items : list Item) (requests : list OperationRequest) (open : gmap string ToolCallRef).

Definition request_id (r : OperationRequest) : string := TrimSpace (oq_ProviderCallID r).
Definition request_ids requests : list string := request_id <$> requests.
(** The operations that answer a tool call. *)
Definition provider_requests requests : list OperationRequest := filter (fun r => request_id r <> emp) requests.

(** ** The open calls *)

Definition named_refs open : Prop := map_Forall (fun _ call => tc_CallID call <> emp) open.

Lemma note_calls_ok calls open n seen seen' :
  named_refs open -> dom open = dom seen -> open_calls n calls seen = Ok seen' ->
  exists open', fold_left note_call calls (Ok open) = Ok open' /\ named_refs open' /\ dom open' = dom seen'.
Proof.
  revert open seen. induction calls as [|call calls IH]; intros open seen Hn Hd; cbn; [intros [= <-]; eauto|].
  case_decide as He; [done|]. destruct (seen !! _) eqn:Es; [done|]. intros H.
  assert (open !! TrimSpace (tc_CallID call) = None) as ->.
  { apply not_elem_of_dom. rewrite Hd. by apply not_elem_of_dom. }
  apply (IH _ _) with (2 := eq_trans (dom_insert_L _ _ _) (eq_trans (f_equal (fun d => {[TrimSpace (tc_CallID call)]} ∪ d) Hd)
    (eq_sym (dom_insert_L seen _ n)))); [|done].
  apply map_Forall_insert_2; [|done]. intros E. rewrite E in He. done.
Qed.

Lemma note_item_ok provider n item open seen seen' :
  named_refs open -> dom open = dom seen -> continuity_step provider n item seen = Ok seen' ->
  exists open', note_item (Ok open) item = Ok open' /\ named_refs open' /\ dom open' = dom seen'.
Proof.
  intros Hn Hd. unfold continuity_step, note_item. destruct (ensure_same item provider) as (-> & -> & -> & ->).
  destruct (is_repair item); [done|]. case_decide.
  - destruct (_ && _); [by destruct (earliestOpen seen)|]. by apply note_calls_ok.
  - case_decide.
    + case_decide; [done|]. destruct (seen !! _) eqn:Es; [|done]. intros [= <-]. cbn. eexists. split; [done|]. split.
      * by apply map_Forall_delete.
      * by rewrite !dom_delete_L, Hd.
    + case_decide; [|by destruct (earliestOpen seen)]. intros [= <-]. eauto.
Qed.

Lemma open_requests_ok provider items final :
  continuity_loop provider 0 items ∅ = Ok final ->
  exists open, open_requests items = Ok open /\ dom open = dom final.
Proof.
  intros H. cut (exists open, fold_left note_item items (Ok ∅) = Ok open /\ named_refs open /\ dom open = dom final).
  { intros (open & ? & _ & ?). by exists open. }
  assert (Hn : named_refs ∅) by apply map_Forall_empty.
  assert (Hd : dom (∅ : gmap string ToolCallRef) = dom (∅ : gmap string nat)) by by rewrite !dom_empty_L.
  revert H Hn Hd. generalize 0. generalize (∅ : gmap string ToolCallRef). generalize (∅ : gmap string nat).
  induction items as [|item items IH]; intros seen open n; cbn; [intros [= <-]; eauto|].
  intros (seen' & Hstep & Hrest)%res_bind_ok Hn Hd.
  destruct (note_item_ok _ _ _ _ _ _ Hn Hd Hstep) as (open' & -> & Hn' & Hd'). by eapply IH.
Qed.

(** ** Matching *)

Lemma match_requests_ok open i requests matched out :
  match_requests open i requests matched = Ok out <->
  emp ∉ request_ids requests /\ NoDup (request_ids requests) /\ (forall c, c ∈ request_ids requests -> c ∉ matched) /\
  (forall c, c ∈ request_ids requests -> c ∈ dom open) /\ out = list_to_set (request_ids requests) ∪ matched.
Proof.
  revert i matched. induction requests as [|r requests IH]; intros i matched; cbn.
  { split; [intros [= <-]|intros (_ & _ & _ & _ & ->); f_equal; set_solver].
    repeat split; try set_solver; constructor. }
  fold (request_id r). fold (request_ids requests). case_decide as He; [split; [done|intros (H & _); set_solver]|].
  destruct (open !! request_id r) as [call|] eqn:Eo.
  2: { split; [done|]. intros (_ & _ & _ & H & _). apply not_elem_of_dom in Eo. exfalso. apply Eo, H. by left. }
  assert (Hdom : request_id r ∈ dom open) by (apply elem_of_dom; eauto).
  case_decide as Hm; [split; [done|intros (_ & _ & H & _); exfalso; by apply (H (request_id r)); [left|]]|].
  rewrite IH, NoDup_cons. split.
  - intros (H1 & H2 & H3 & H4 & ->). repeat split; try set_solver.
  - intros (H1 & (H2 & H2') & H3 & H4 & ->). repeat split; try set_solver.
Qed.

Lemma find_unmatched open (matched : gset string) :
  List.find (fun entry : string * ToolCallRef => negb (bool_decide (entry.1 ∈ matched))) (map_to_list open) = None <->
  dom open ⊆ matched.
Proof.
  split.
  - intros H c [call Hc]%elem_of_dom. apply elem_of_map_to_list in Hc.
    pose proof (find_none _ _ H (c, call) (proj1 (list_elem_of_In _ _) Hc)) as Hn. cbn in Hn.
    by apply negb_false_iff, bool_decide_eq_true in Hn.
  - intros Hsub. destruct (List.find _ _) as [[c call]|] eqn:E; [|done]. apply find_some in E as [Hin Hn].
    cbn in Hn. apply negb_true_iff, bool_decide_eq_false in Hn. exfalso. apply Hn, Hsub, elem_of_dom.
    exists call. by apply elem_of_map_to_list, list_elem_of_In.
Qed.

Lemma blank_request r : blank (oq_ProviderCallID r) = bool_decide (request_id r = emp).
Proof. done. Qed.

Lemma requests_accepted provider items final requests :
  continuity_loop provider 0 items ∅ = Ok final ->
  validateOperationRequests items requests = None <->
  (emp ∉ request_ids requests /\ NoDup (request_ids requests) /\ list_to_set (request_ids requests) = dom final) \/
  (final = ∅ /\ provider_requests requests = []).
Proof.
  intros Hok. unfold validateOperationRequests. destruct (open_requests_ok _ _ _ Hok) as (open & -> & Hd).
  assert (Hempty : open = ∅ <-> final = ∅).
  { split; intros ->; [apply (dom_empty_inv_L (D := gset string))|apply (dom_empty_inv_L (D := gset string))];
      [rewrite <- Hd|rewrite Hd]; by rewrite dom_empty_L. }
  assert (Hnone : existsb (fun r => negb (blank (oq_ProviderCallID r))) requests = false <-> provider_requests requests = []).
  { unfold provider_requests. clear. induction requests as [|r requests IH]; [done|]. cbn [existsb]. rewrite filter_cons, orb_false_iff, IH, blank_request.
    rewrite negb_false_iff, bool_decide_eq_true. case_decide; naive_solver. }
  destruct (negb (bool_decide (open = ∅)) || existsb _ requests) eqn:Ehas; cbn [negb].
  - assert (Hnot : ~ (final = ∅ /\ provider_requests requests = [])).
    { intros [H1 H2]. apply Hempty in H1. apply Hnone in H2. by rewrite H2, bool_decide_eq_true_2 in Ehas. }
    destruct (match_requests open 0 requests ∅) as [out|e] eqn:Em.
    + apply match_requests_ok in Em as (H1 & H2 & _ & H4 & ->). rewrite union_empty_r_L.
      pose proof (find_unmatched open (list_to_set (request_ids requests))) as Hf.
      split.
      * intros H. left. split; [done|]. split; [done|]. rewrite <- Hd.
        destruct (List.find _ _) eqn:E in H; [discriminate H|]. apply Hf in E. set_solver.
      * intros [(_ & _ & H3)|?]; [|done]. rewrite (proj2 Hf); [done|]. rewrite Hd, H3. done.
    + split; [done|]. intros [(H1 & H2 & H3)|?]; [|done]. exfalso.
      assert (match_requests open 0 requests ∅ = Ok (list_to_set (request_ids requests) ∪ ∅)) as Hx; [|congruence].
      apply match_requests_ok. split_and!; [done|done|set_solver| |done]. intros c Hc. rewrite Hd, <- H3. set_solver.
  - apply orb_false_iff in Ehas as [H1 H2]. apply negb_false_iff, bool_decide_eq_true in H1. apply Hnone in H2.
    split; [|done]. intros _. right. by apply Hempty in H1.
Qed.

(** For a transcript whose tool calls and results match so far, the requests are accepted exactly when
    they answer its open calls one by one, or when there is no open call and none of them answers one. *)
Theorem requests_exact provider items final requests :
  continuity_loop provider 0 items ∅ = Ok final ->
  validateOperationRequests items requests = None <->
  (emp ∉ request_ids requests /\ NoDup (request_ids requests) /\ list_to_set (request_ids requests) = dom final) \/
  (final = ∅ /\ provider_requests requests = []).
Proof. apply requests_accepted. Qed.

(** ** Results complete the transcript *)

Record answers_request (r : OperationRequest) (item : Item) : Prop := {
  ar_kind : it_Kind item = ItemToolResult;
  ar_call : it_CallID item = oq_ProviderCallID r;
  ar_repair : is_repair item = false
}.

(** When requests are accepted, one result for each operation that answers a call completes the
    transcript: it is accepted as a whole, whatever the results say. *)
Theorem results_close_calls provider items final requests results :
  continuity_loop provider 0 items ∅ = Ok final ->
  validateOperationRequests items requests = None ->
  Forall2 answers_request (provider_requests requests) results ->
  ValidateContinuity (items ++ results) provider = None.
Proof.
  intros Hok Hval Hres. unfold ValidateContinuity. rewrite continuity_loop_app, Hok. cbn [res_bind].
  assert (Hids : (fun item => TrimSpace (it_CallID item)) <$> results = request_ids (provider_requests requests)).
  { clear -Hres. induction Hres as [|r item rs its [] _ IH]; cbn; [done|]. by rewrite IH, ar_call0. }
  assert (Hloop : continuity_loop provider (0 + length items) results final = Ok ∅).
  { apply (requests_accepted _ _ _ _ Hok) in Hval as [(H1 & H2 & H3)|[-> H2]].
    - assert (Hall : provider_requests requests = requests).
      { unfold provider_requests. clear -H1. induction requests as [|r requests IH]; [done|]. rewrite filter_cons. cbn in H1.
      rewrite decide_True by set_solver. f_equal. apply IH. set_solver. }
      rewrite Hall in *. apply loop_results; rewrite ?Hids; try done.
      intros item Hin. apply list_elem_of_lookup in Hin as [k Hk].
      destruct (Forall2_lookup_r _ _ _ _ _ Hres Hk) as (r & _ & []). done.
    - rewrite H2 in Hres. by apply Forall2_nil_inv_l in Hres as ->. }
  rewrite Hloop. by rewrite decide_True.
Qed.
End Requests.
