(* ===== verification/SessionTurn.v ===== *)
(** * A turn of a session (src/orchestration/session/session.go)

    From an inbound message to its result: the event sink of the turn, the transcript shown to the
    model, the operations of a step, the loop over steps and the loop over continuations.

    What is outside is called with everything that was called before: the agent, the operations, the
    thread store, the environment phases, reactions, the context materializer, the evaluator of stop
    conditions and the reviewer are arbitrary functions of that history. Events they emit into the
    sink of the turn are part of their answers. *)

From S2P Require Import Prelude Operation Event Thread ThreadViews ThreadStore Conversation WorkerText Compaction StateLogic AgentModel Goal GoalOps SessionData SessionItems StopCondition.

(** The texts of errors. *)
Class SessionTexts := {
  inbound_error_text : InboundError -> string;
  thread_text : ThreadError -> string;
  conversation_text : ConversationError -> string;
  request_text : RequestError -> string;
  stop_error_text : StopError -> string
}.

(** Tools as far as [operationProjected] looks: the operation a tool or a case of its dispatch targets. *)
Record ToolSpec := mkTool { tl_Name : string; tl_Operation : option OpRef; tl_Cases : list (option OpRef) }.
Definition operationProjected (tools : list ToolSpec) (ref : OpRef) : bool :=
  existsb (fun spec => bool_decide (tl_Operation spec = Some ref) || existsb (fun c => bool_decide (c = Some ref)) (tl_Cases spec)) tools.

(** A large result that was replaced by a reference to a file. *)
Record Replacement := mkReplacement { rp_Kind : string; rp_Path : string; rp_SizeBytes : Z; rp_ThresholdBytes : Z }.
Class ResultData := {
  file_edit_data : Value -> option (string * bool);
  replacement_of : OpResult -> option Replacement;
  replacement_value : Replacement -> Value
}.

Inductive Phase := PhaseSessionOpen | PhaseTurn | PhaseLazy | PhaseToolFollowup.

Section Turn.
Context {Assertion Active ReactionRest : Type}.
Context {VJ : ValueJson} {OA : OperationApi} {MR : ModelRenderable} {LC : LowerCase} {ST : SessionTexts} {RD : ResultData}
  {GX : GoalTexts} {GF : GoFmt}.

(** The state reactions carry through a turn; [rs_Active] is what they have activated. *)
Record ReactionState := mkReactions { rs_Active : Active; rs_Rest : ReactionRest }.
Record StepInput := mkStepInput {
  si_Goal : string; si_Observations : list Observation; si_Context : string; si_State : StateRef }.
Record PostEditCheck := mkCheck { pe_Name : string; pe_Operation : OpRef; pe_Input : Value; pe_Fix : bool }.

(** ** What was called *)

Inductive Call :=
| Appended (records : list SessionRecord) (answer : option ThreadError)
| ReadThread (answer : Result ThreadError (Snapshot SessionEvent))
| LiveEvent (e : SessionEvent)
| Stepped (transcript : Transcript) (input : StepInput) (tools : option (list ToolSpec)) (emitted : list SessionEvent) (result : AgentStep)
| Operated (op : OpRef) (input : Value) (callID : string) (emitted : list SessionEvent) (effect : EffectResult)
| Replaced (result : OpResult) (answer : Result string (option OpResult))
| Observed (phase : Phase)
| Reacted (emitted : list SessionEvent)
| BuiltContext (answer : option (Result string BuildResult))
| Evaluated (input : StopEvaluationInput) (answer : Result StopError StopEvaluation)
| Reviewed (reviewID : string) (answer : option string)
| DrawnReviewID (reviewID : string)
| Finished (result : InputResult).

Record Env := mkSessionEnv {
  en_Append : list Call -> list SessionRecord -> option ThreadError;
  en_Read : list Call -> Result ThreadError (Snapshot SessionEvent);
  en_Step : list Call -> Transcript -> StepInput -> option (list ToolSpec) -> list SessionEvent * AgentStep;
  en_Operation : list Call -> OpRef -> Value -> string -> list SessionEvent * EffectResult;
  en_Replace : list Call -> OpResult -> Result string (option OpResult);
  en_Phase : list Call -> Phase -> list Observation -> list Assertion -> list Observation * list Assertion;
  en_React : list Call -> list Assertion -> ReactionState -> list Observation ->
    list SessionEvent * (ReactionState * list Observation * list EffectResult);
  en_Context : list Call -> list Item -> list Observation -> Active -> option (Result string BuildResult);
  en_Stop : option (list Call -> StopEvaluationInput -> Result StopError StopEvaluation);
  en_Review : list Call -> string -> option string;
  en_ReviewID : list Call -> string;
  en_Tools : Active -> option (list ToolSpec);
  en_LazyWanted : Active -> bool;
  en_Activate : OpResult -> Active -> Active;
  en_CheckMatches : PostEditCheck -> string -> bool;
  en_CheckInput : Value -> string -> Value;
  en_AnnotateCheck : PostEditCheck -> string -> OpResult -> OpResult
}.

(** The fields of a session that the turn itself reads. *)
Record Session := mkSession {
  ss_Agent : Agent;
  ss_HasStore : bool;
  ss_Thread : Ref;
  ss_HasReviewer : bool;
  ss_PostEditChecks : list PostEditCheck
}.

(** ** The state of a turn: the log and the variables the closures of the sink share *)

Record Turn := mkTurn {
  tu_Log : list Call;
  tu_Err : option ConversationError;
  tu_Local : list Item;
  tu_LocalHandle : option ContinuationHandle;
  tu_Provider : ProviderIdentity;
  tu_Items : list Item;
  tu_Handles : list ContinuationHandle
}.
#[global] Instance rebuild_Turn : Rebuild Turn := fun t =>
  mkTurn t.(tu_Log) t.(tu_Err) t.(tu_Local) t.(tu_LocalHandle) t.(tu_Provider) t.(tu_Items) t.(tu_Handles).
Abbreviation M := (St Turn).

Definition ask {A} (answer : list Call -> A) (entry : A -> Call) : M A :=
  fun t => let a := answer (tu_Log t) in (a, t <| tu_Log := tu_Log t ++ [entry a] |>).
Definition note (c : Call) : M unit := st_modify (fun t => t <| tu_Log := tu_Log t ++ [c] |>).

Context (env : Env) (s : Session).
Definition spec : AgentSpec := ag_Spec (ss_Agent s).
Definition provider : ProviderIdentity := providerIdentity (Some (ss_Agent s)).
Definition threaded : bool := ss_HasStore s && negb (bool_decide (ref_ID (ss_Thread s) = emp)).

(** ** Appends *)

(** [retryThreadAppend]: the attempts left and the last error. *)
Fixpoint retry_append (attempts : nat) (last : option ThreadError) (records : list SessionRecord) : M (option ThreadError) :=
  match attempts with
  | O => st_ret last
  | S attempts =>
      let@ err := ask (fun log => en_Append env log records) (Appended records) in
      match err with
      | None => st_ret None
      | Some e => if thread_conflict e then retry_append attempts (Some e) records else st_ret (Some e)
      end
  end.
Definition appendThreadRecords (records : list SessionRecord) : M (option ThreadError) :=
  if negb threaded || (match records with [] => true | _ => false end) then st_ret None
  else retry_append sessionAppendRetries None records.
Definition appendThreadEvents (events : list SessionEvent) : M (option ThreadError) :=
  if negb threaded || (match events with [] => true | _ => false end) then st_ret None
  else appendThreadRecords (ThreadAppendRecords (ref_ID (ss_Thread s)) events).
Definition appendConversationAndEvents (turnID : string) (p : ProviderIdentity) (items : list Item)
    (handles : list ContinuationHandle) (events : list SessionEvent) : M (option ConversationError) :=
  match AppendRecords turnID p items handles with
  | Err e => st_ret (Some e)
  | Ok conversationRecords =>
      let@ err := appendThreadRecords (conversationRecords ++ ThreadAppendRecords (ref_ID (ss_Thread s)) events) in
      st_ret (ErrThread <$> err)
  end.

(** ** The sink of the turn (conversationEventSink) *)

Definition emitLive (e : SessionEvent) : M unit := note (LiveEvent e).
(** The type switch of [Emit]; other payloads only go to the live sink. *)
Definition sink_event (thread : Ref) (e : SessionEvent) (t : Turn) : Turn :=
  match e with
  | ConversationWritten (ItemsAppended _ p items) =>
      let p := if decide (pi_Provider p = emp) then tu_Provider t else p in
      t <| tu_Provider := if decide (pi_Provider (tu_Provider t) = emp) then p else tu_Provider t |>
        <| tu_Items := tu_Items t ++ items |>
  | ConversationWritten (ContinuationStored _ h) =>
      let h := if decide (ch_BranchID h = emp)
               then mkHandle (ch_Provider h) (ch_Mode h) (ch_Transport h) (ch_ResponseID h) (ch_SessionID h) (ref_BranchID thread)
                      (ch_RequestHash h) (ch_PrefixHash h) (ch_Native h) else h in
      t <| tu_Provider := if decide (pi_Provider (tu_Provider t) = emp) then ch_Provider h else tu_Provider t |>
        <| tu_Handles := tu_Handles t ++ [h] |>
  | _ => t
  end.
Definition Emit (e : SessionEvent) : M unit :=
  let@ _ := emitLive e in
  st_modify (fun t => match tu_Err t with Some _ => t | None => sink_event (ss_Thread s) e t end).
Fixpoint emit_each (events : list SessionEvent) : M unit :=
  match events with [] => st_ret tt | e :: rest => let@ _ := Emit e in emit_each rest end.
(** A call that answers with the events it has emitted into the sink. *)
Definition ask_emitting {A} (answer : list Call -> list SessionEvent * A) (entry : list SessionEvent -> A -> Call) : M A :=
  let@ (events, a) := ask answer (fun r => entry r.1 r.2) in
  let@ _ := emit_each events in
  st_ret a.

Definition FlushWithTranscriptItems (turnID : string) (extraItems : list Item) (events : list SessionEvent)
    : M (option ConversationError) :=
  let@ t := st_get (fun t => t) in
  match tu_Err t with
  | Some e => st_ret (Some e)
  | None =>
      let items := tu_Items t ++ extraItems in
      let@ err := appendConversationAndEvents turnID (tu_Provider t) items (tu_Handles t) events in
      match err with
      | Some e => let@ _ := st_modify (fun t => t <| tu_Err := Some e |>) in st_ret (Some e)
      | None =>
          let@ _ := st_modify (fun t =>
            t <| tu_Local := tu_Local t ++ items |>
              <| tu_LocalHandle := match last (tu_Handles t) with Some h => Some h | None => tu_LocalHandle t end |>
              <| tu_Items := [] |> <| tu_Handles := [] |>) in
          st_ret None
      end
  end.

(** ** The transcript shown to the model *)

Definition canonical_transcript (p : ProviderIdentity) (canonical newItems : list Item) : Result ConversationError Transcript :=
  match ValidateContinuity canonical p with
  | Some e => Err e
  | None => Ok (mkTranscript p canonical newItems None ProjectionFullReplay)
  end.
(** [None] is a walk over the branches of the thread that does not end. *)
Definition transcriptForPending (pending : transcriptPending) (localItems : list Item) (localHandle : option ContinuationHandle)
    : M (option (Result ConversationError Transcript)) :=
  let committed := Z.to_nat (normalizedPendingCommittedCount pending) in
  let uncommitted := drop committed (tp_Items pending) in
  if negb threaded then
    let all := localItems ++ uncommitted in
    st_ret (Some match ValidateContinuity all provider with
      | Some e => Err e
      | None =>
          match localHandle with
          | Some h =>
              if SupportsPreviousResponseID h
              then Ok (mkTranscript provider (tp_Items pending) uncommitted (Some h) ProjectionNativeContinuation)
              else Ok (mkTranscript provider all uncommitted None ProjectionFullReplay)
          | None => Ok (mkTranscript provider all uncommitted None ProjectionFullReplay)
          end
      end)
  else
    let@ r := ask (en_Read env) ReadThread in
    match r with
    | Err ErrNotFound => st_ret (Some (canonical_transcript provider uncommitted uncommitted))
    | Err e => st_ret (Some (Err (ErrThread e)))
    | Ok snapshot =>
        st_ret match ProjectTranscript (branch_fuel snapshot)
            (mkProjectionInput snapshot (ref_BranchID (ss_Thread s)) provider (tp_Items pending) (tp_Committed pending)
               (tp_CommittedCount pending) ProjectionNativeContinuation false) with
          | None => None
          | Some (Err e) => Some (Err e)
          | Some (Ok projected) => Some (Ok (TranscriptOf projected provider))
          end
    end.

(** ** Context *)

(** [materializeContext]: what was rendered, and the pending items with the context in front. *)
Definition materializeContext (inbound : Inbound) (pending : transcriptPending) (observations : list Observation) (active : Active)
    : M (Result string (BuildResult * transcriptPending)) :=
  let reason := contextRenderReason (tp_Items pending) observations in
  let committed := normalizedPendingCommittedCount pending in
  let@ r := ask (fun log => en_Context env log (tp_Items pending) observations active) BuiltContext in
  st_ret match r with
  | None =>
      Ok (zero_BuildResult,
          mkPending (oneShotUserContextPending inbound (tp_Items pending) reason) (tp_Committed pending) committed)
  | Some (Err e) => Err e
  | Some (Ok result) =>
      let items := contextPendingItems provider (tp_Items pending) result committed in
      Ok (result, mkPending (oneShotUserContextPending inbound items reason) (tp_Committed pending) committed)
  end.
Definition context_events (r : BuildResult) : list SessionEvent :=
  map (BlockRecorded (bu_TurnID r)) (bu_Added r ++ bu_Updated r) ++ map (BlockRemovedRecorded (bu_TurnID r)) (bu_Removed r)
  ++ [RenderCommitted (bu_TurnID r)].
Definition commitContextRender (r : BuildResult) : M (option ThreadError) :=
  if negb (bu_Records r) || EmptyDiff r then st_ret None else appendThreadEvents (context_events r).

(** ** Operations of a step *)

Definition operationCallID (runID : string) (ordinal : nat) : string :=
  let ordinal := if decide (ordinal < 1) then 1 else ordinal in
  if decide (runID = emp) then ("operation:" ++ pretty ordinal)%string
  else (runID ++ ":operation:" ++ pretty ordinal)%string.
Definition operationEffect (result : OpResult) : EffectResult :=
  mkEffectResult result (mkObservation emp "operation" "operation.result" (ContentResult result) ∅).
Definition applyProjectedOperation (tools : option (list ToolSpec)) (ref : OpRef) (input : Value) (callID : string)
    : M EffectResult :=
  match tools with
  | Some tools =>
      if operationProjected tools ref then ask_emitting (fun log => en_Operation env log ref input callID) (Operated ref input callID)
      else st_ret (operationEffect (Failed "operation_not_projected" "operation was not projected for this turn authority"
             {[ "operation"%string := VString (ref_Name ref) ]}))
  | None => ask_emitting (fun log => en_Operation env log ref input callID) (Operated ref input callID)
  end.
(** [replaceOversizedToolResult] and what its callers do with its error. *)
Definition replace_oversized (code : string) (details : gmap string Value) (effect : EffectResult) : M EffectResult :=
  let@ r := ask (fun log => en_Replace env log (ef_Result effect)) (Replaced (ef_Result effect)) in
  st_ret match r with
  | Err msg => with_metadata (operationEffect (Failed code msg details)) details
  | Ok None => effect
  | Ok (Some result) => with_metadata (operationEffect result) (bs_Metadata (ef_Observation effect))
  end.

Definition request_metadata (request : OperationRequest) (callID : string) (effect : EffectResult) : gmap string Value :=
  let m := bs_Metadata (ef_Observation effect) in
  let m := <["operation"%string := VString (ref_Name (oq_Operation request))]> m in
  let m := <["call_id"%string := VString callID]> m in
  let m := if decide (oq_ProviderCallID request = emp) then m
           else <["provider_call_id"%string := VString (oq_ProviderCallID request)]> m in
  if decide (ref_Name (oq_Operation request) = "file_edit"%string) then
    match (if decide (or_Status (ef_Result effect) = StatusOK) then file_edit_data (or_Output (ef_Result effect)) else None) with
    | Some (path, dryRun) =>
        let path := TrimSpace path in
        if decide (path = emp) then m
        else <["edit_dry_run"%string := VBool dryRun]> (<["edited_path"%string := VString path]> m)
    | None => m
    end
  else m.
Definition replaced_metadata (r : Replacement) (m : gmap string string) : gmap string string :=
  <["replacement_threshold_bytes" := pretty (rp_ThresholdBytes r)]> (<["replacement_size_bytes" := pretty (rp_SizeBytes r)]>
    (<["replacement_path" := rp_Path r]> (<["replacement" := rp_Kind r]> (<["replaced" := "true"]> m))))%string.
(** The transcript item of a result, if the request answers a call of the provider. *)
Definition tool_result (request : OperationRequest) (effect : EffectResult) : list Item :=
  if blank (oq_ProviderCallID request) then [] else
  let item := operationResultTranscriptItem provider request (ef_Result effect) in
  [match replacement_of (ef_Result effect) with
   | Some r => item <| it_Metadata := replaced_metadata r (it_Metadata item) |>
   | None => item
   end].
Definition replaced_effect (request : OperationRequest) (effect : EffectResult) : EffectResult :=
  if blank (oq_ProviderCallID request) then effect else
  match replacement_of (ef_Result effect) with
  | Some r => with_metadata effect (<["replacement"%string := replacement_value r]>
                (<["replaced"%string := VBool true]> (bs_Metadata (ef_Observation effect))))
  | None => effect
  end.

Record Batch := mkBatch { ba_Effects : list EffectResult; ba_ToolResults : list Item; ba_Completed : list SessionEvent }.
(** The loop of [applyAgentOperations] from request [i] on; the answer of the append of the request is
    checked before the operation runs. *)
Fixpoint apply_requests (run : string) (tools : option (list ToolSpec)) (startIndex i : nat) (requests : list OperationRequest)
    (active : Active) (batch : Batch) : M (Result ThreadError (Batch * Active)) :=
  match requests with
  | [] => st_ret (Ok (batch, active))
  | request :: rest =>
      let callID := operationCallID run (startIndex + i + 1) in
      let requested := OperationRequested run callID (oq_Operation request) (oq_Input request) in
      let@ err := appendThreadEvents [requested] in
      match err with
      | Some e => st_ret (Err e)
      | None =>
          let@ _ := emitLive requested in
          let@ effect := applyProjectedOperation tools (oq_Operation request) (oq_Input request) callID in
          let effect := with_metadata effect (request_metadata request callID effect) in
          let@ effect := replace_oversized "tool_result_replacement_failed"
            {[ "operation"%string := VString (ref_Name (oq_Operation request)); "call_id"%string := VString callID ]} effect in
          let active := en_Activate env (ef_Result effect) active in
          apply_requests run tools startIndex (S i) rest active
            (mkBatch (ba_Effects batch ++ [replaced_effect request effect]) (ba_ToolResults batch ++ tool_result request effect)
               (ba_Completed batch ++ [OperationCompleted run callID (oq_Operation request) (ef_Result effect)]))
      end
  end.
Definition applyAgentOperations (run : string) (tools : option (list ToolSpec)) (startIndex : nat)
    (requests : list OperationRequest) (active : Active) : M (Result ThreadError (Batch * Active)) :=
  apply_requests run tools startIndex 0 requests active (mkBatch [] [] []).

(** ** Checks after file edits *)

Definition meta_string (m : gmap string Value) (key : string) : string := stringFromAny (default VNil (m !! key)).
Definition meta_bool (m : gmap string Value) (key : string) : bool := match m !! key with Some (VBool b) => b | _ => false end.
(** The path an effect edited, when it is one to check. *)
Definition edited_path (effect : EffectResult) : option string :=
  let m := bs_Metadata (ef_Observation effect) in
  if negb (bool_decide (or_Status (ef_Result effect) = StatusOK)) || negb (bool_decide (meta_string m "operation" = "file_edit"%string))
  then None else
  let found :=
    if decide (meta_string m "edited_path" = emp) then
      match file_edit_data (or_Output (ef_Result effect)) with
      | Some (path, dryRun) => if blank path then None else Some (TrimSpace path, dryRun)
      | None => None
      end
    else Some (meta_string m "edited_path", meta_bool m "edit_dry_run") in
  match found with
  | Some (path, dryRun) => if dryRun || blank path then None else Some (TrimSpace path)
  | None => None
  end.
(** The loop of [postEditPaths]: each path once, in the order of the effects. *)
Fixpoint post_edit_paths (seen : gset string) (effects : list EffectResult) : list string :=
  match effects with
  | [] => []
  | effect :: rest =>
      match edited_path effect with
      | Some path => if decide (path ∈ seen) then post_edit_paths seen rest else path :: post_edit_paths ({[path]} ∪ seen) rest
      | None => post_edit_paths seen rest
      end
  end.
Definition postEditPaths (effects : list EffectResult) : list string := post_edit_paths ∅ effects.

(** The loop over the checks that match, path by path; [effects] are those of the checks that ran. *)
Fixpoint run_checks (run : string) (startIndex : nat) (checks : list (PostEditCheck * string)) (effects : list EffectResult)
    : M (Result ThreadError (list EffectResult)) :=
  match checks with
  | [] => st_ret (Ok effects)
  | (check, path) :: rest =>
      let callID := operationCallID run (startIndex + length effects + 1) in
      let input := en_CheckInput env (pe_Input check) path in
      let requested := OperationRequested run callID (pe_Operation check) input in
      let@ err := appendThreadEvents [requested] in
      match err with
      | Some e => st_ret (Err e)
      | None =>
          let@ _ := emitLive requested in
          let@ effect := ask_emitting (fun log => en_Operation env log (pe_Operation check) input callID) (Operated (pe_Operation check) input callID) in
          let result := en_AnnotateCheck env check path (ef_Result effect) in
          let details : gmap string Value := {[ "operation"%string := VString (ref_Name (pe_Operation check)); "call_id"%string := VString callID;
            "post_edit_check"%string := VString (pe_Name check); "edited_path"%string := VString path ]} in
          let obs := ef_Observation effect in
          let effect := mkEffectResult result (mkObservation (bs_ID obs) (bs_Source obs) (bs_Kind obs) (ContentResult result) (details ∪ bs_Metadata obs)) in
          let@ effect := replace_oversized "post_edit_check_result_replacement_failed" details effect in
          let completed := OperationCompleted run callID (pe_Operation check) (ef_Result effect) in
          let@ err := appendThreadEvents [completed] in
          match err with
          | Some e => st_ret (Err e)
          | None => let@ _ := emitLive completed in run_checks run startIndex rest (effects ++ [effect])
          end
      end
  end.
Definition applyPostEditChecks (run : string) (startIndex : nat) (effects : list EffectResult)
    : M (Result ThreadError (list EffectResult)) :=
  let checks := flat_map (fun path => map (fun check => (check, path))
    (List.filter (fun check => en_CheckMatches env check path) (ss_PostEditChecks s))) (postEditPaths effects) in
  run_checks run startIndex checks [].
End Turn.
