(* ===== verification/SessionLoop.v ===== *)
(** * The loops of a turn (src/orchestration/session/session.go)

    [runInnerTurn]: steps of the agent until it answers, fails or has used its steps;
    [evaluateContinuation] and [executeInboundInput]: turns until the agent may stop. *)

From S2P Require Import Prelude Operation Event Thread ThreadViews ThreadStore Conversation WorkerText Compaction StateLogic AgentModel Goal GoalOps SessionData SessionItems StopCondition SessionTurn.

Section Loop.
Context {Assertion Active ReactionRest : Type}.
Context {VJ : ValueJson} {OA : OperationApi} {MR : ModelRenderable} {LC : LowerCase} {ST : SessionTexts} {RD : ResultData}
  {GX : GoalTexts} {GF : GoFmt}.
Abbreviation Reactions := (ReactionState (Active := Active) (ReactionRest := ReactionRest)).
Abbreviation SEnv := (Env (Assertion := Assertion) (Active := Active) (ReactionRest := ReactionRest)).
Context (env : SEnv) (s : Session).
Abbreviation M := (St Turn).

(** ** The inner loop *)

Record InnerInput := mkInnerInput {
  nn_Inbound : Inbound;
  nn_History : string;
  nn_Pending : transcriptPending;
  nn_Goal : string;
  nn_Observations : list Observation;
  nn_Assertions : list Assertion;
  nn_Reactions : Reactions;
  nn_State : StateRef;
  nn_Effects : list EffectResult;
  nn_MaxSteps : Z;
  nn_FailOnStepLimit : bool
}.
(** [ne_Result] is [None] when the zero result is returned: the outer loop goes on. *)
Record InnerResult := mkInnerResult {
  ne_Result : option InputResult;
  ne_AgentResult : AgentStep;
  ne_State : StateRef;
  ne_Effects : list EffectResult;
  ne_Assertions : list Assertion;
  ne_Reactions : Reactions
}.
(** The variables of the loop. *)
Record LoopState := mkLoopState {
  lp_Pending : transcriptPending;
  lp_Observations : list Observation;
  lp_Assertions : list Assertion;
  lp_Reactions : Reactions;
  lp_State : StateRef;
  lp_Effects : list EffectResult;
  lp_Last : AgentStep;
  lp_LazyPrepared : bool
}.
#[global] Instance rebuild_LoopState : Rebuild LoopState := fun l =>
  mkLoopState l.(lp_Pending) l.(lp_Observations) l.(lp_Assertions) l.(lp_Reactions) l.(lp_State) l.(lp_Effects) l.(lp_Last) l.(lp_LazyPrepared).

(** An environment phase and the reactions to it. *)
Definition phase_and_react (phase : Phase) (l : LoopState) : M LoopState :=
  let@ (observations, assertions) := ask (fun log => en_Phase env log phase (lp_Observations l) (lp_Assertions l)) (fun _ => Observed phase) in
  let@ r := ask_emitting s (fun log => en_React env log assertions (lp_Reactions l) observations) (fun events _ => Reacted events) in
  let '(reactions, observations, effects) := r in
  st_ret (l <| lp_Observations := observations |> <| lp_Assertions := assertions |> <| lp_Reactions := reactions |>
            <| lp_Effects := lp_Effects l ++ effects |>).

Definition leave (l : LoopState) (agent : AgentStep) (result : option InputResult) : InnerResult :=
  mkInnerResult result agent (lp_State l) (lp_Effects l) (lp_Assertions l) (lp_Reactions l).

Definition step_limit_error : CommandError :=
  let max := if (maxSteps (Some (spec s)) <=? 0)%Z then 1%Z else maxSteps (Some (spec s)) in
  mkCommandError "step_limit_exceeded" ("inner loop reached turns.max_steps=" ++ pretty max ++ " model decision calls")
    {[ "loop" := VString "inner"; "limit" := VString "turns.max_steps"; "max_steps" := VInt max; "model_decision_calls" := VInt max ]}%string.
Definition outboundMessageForOperationResult (result : OpResult) : ChannelMessage :=
  mkMessage (match or_Error result with
             | Some e => if IsError result then VString (err_Message e) else default (or_Output result) (ModelText (or_Output result))
             | None => default (or_Output result) (ModelText (or_Output result))
             end) ∅.
Definition operationBoundaryResult (inbound : Inbound) (agent : AgentStep) (effects : list EffectResult) (err : option CommandError)
    : M InputResult :=
  let status := match err with Some _ => InputStatusFailed | None => InputStatusOK end in
  match lastEffect effects with
  | None => st_ret (mkInputResult status agent None [] None err)
  | Some effect =>
      let message := outboundMessageForOperationResult (ef_Result effect) in
      let@ e := appendThreadEvents env s [OutboundProduced (ib_ID inbound) message] in
      st_ret match e with
        | Some e => inputFailed "thread_append_failed" (thread_text e)
        | None => mkInputResult status agent (Some effect) effects (Some (mkOutbound (ib_Channel inbound) (ib_Conversation inbound) message)) err
        end
  end.

(** What a step leaves of an agent that answered: nothing to run, or the operations it requests. *)
Definition answered (inp : InnerInput) (l : LoopState) (agent : AgentStep) (stepItems : list Item) : M (InnerResult + LoopState) :=
  let fail code msg := st_ret (inl (leave l agent (Some (inputFailed code msg)))) in
  match ValidateContinuity stepItems (provider s) with
  | Some e => fail "conversation_continuity_failed" (conversation_text e)
  | None =>
      let@ err := FlushWithTranscriptItems env s (ib_ID (nn_Inbound inp)) [] [AgentStepCompleted (ib_ID (nn_Inbound inp)) agent] in
      match err with
      | Some e => fail "conversation_append_failed" (conversation_text e)
      | None => st_ret (inl (leave l agent None))
      end
  end.

Definition operation_missing (agent : AgentStep) (effects : list EffectResult) : InputResult :=
  mkInputResult InputStatusUnsupported agent (lastEffect effects) effects None
    (Some (mkCommandError "operation_missing" "agent operation decision is empty" ∅)).

Fixpoint emit_live_all (events : list SessionEvent) : M unit :=
  match events with [] => st_ret tt | e :: rest => let@ _ := emitLive e in emit_live_all rest end.

Definition requested (inp : InnerInput) (l : LoopState) (tools : option (list ToolSpec)) (agent : AgentStep) (stepItems : list Item)
    : M (InnerResult + LoopState) :=
  let run := ib_ID (nn_Inbound inp) in
  let fail l code msg := st_ret (inl (leave l agent (Some (inputFailed code msg)))) in
  match de_Operations (gs_Decision agent) with
  | [] => st_ret (inl (leave l agent (Some (operation_missing agent (lp_Effects l)))))
  | requests =>
      let@ r := applyAgentOperations env s run tools (length (lp_Effects l)) requests (rs_Active (lp_Reactions l)) in
      match r with
      | Err e => fail l "thread_append_failed" (thread_text e)
      | Ok (batch, active) =>
          let l := l <| lp_Reactions := mkReactions active (rs_Rest (lp_Reactions l)) |>
                     <| lp_Effects := lp_Effects l ++ ba_Effects batch |> in
          let@ r := applyPostEditChecks env s run (length (lp_Effects l)) (ba_Effects batch) in
          match r with
          | Err e => fail l "thread_append_failed" (thread_text e)
          | Ok checks =>
              match ValidateContinuity (stepItems ++ ba_ToolResults batch) (provider s) with
              | Some e => fail l "conversation_continuity_failed" (conversation_text e)
              | None =>
                  let@ err := FlushWithTranscriptItems env s run (ba_ToolResults batch) (AgentStepCompleted run agent :: ba_Completed batch) in
                  match err with
                  | Some e => fail l "conversation_append_failed" (conversation_text e)
                  | None =>
                      let@ _ := emit_live_all (ba_Completed batch) in
                      let l := l <| lp_Effects := lp_Effects l ++ checks |>
                                 <| lp_Observations := lp_Observations l ++ observationsForEffects (ba_Effects batch ++ checks) |> in
                      let@ l := phase_and_react PhaseToolFollowup l in
                      st_ret (inr (l <| lp_Pending := mkPending (ba_ToolResults batch) true (Z.of_nat (length (ba_ToolResults batch))) |>))
                  end
              end
          end
      end
  end.

(** One turn of the loop below its limit. [None] is a walk over the branches that does not end. *)
Definition turn_step (inp : InnerInput) (l : LoopState) : M (option (InnerResult + LoopState)) :=
  let fail l agent code msg := st_ret (Some (inl (leave l agent (Some (inputFailed code msg))))) in
  let@ l := (if negb (lp_LazyPrepared l) && en_LazyWanted env (rs_Active (lp_Reactions l))
             then let@ l := phase_and_react PhaseLazy l in st_ret (l <| lp_LazyPrepared := true |>) else st_ret l) in
  let active := rs_Active (lp_Reactions l) in
  let@ r := materializeContext env s (nn_Inbound inp) (lp_Pending l) (lp_Observations l) active in
  match r with
  | Err msg => fail l zero_AgentStep "context_render_failed" msg
  | Ok (context, projected) =>
      let@ t := st_get (fun t => t) in
      let@ r := transcriptForPending env s projected (tu_Local t) (tu_LocalHandle t) in
      match r with
      | None => st_ret None
      | Some (Err e) => fail l zero_AgentStep "conversation_projection_failed" (conversation_text e)
      | Some (Ok transcript) =>
          let tools := en_Tools env active in
          let input := mkStepInput (nn_Goal inp) (lp_Observations l) (nn_History inp) (lp_State l) in
          let@ agent := ask_emitting s (fun log => en_Step env log transcript input tools) (Stepped transcript input tools) in
          if decide (gs_Status agent <> AgentOK) then
            st_ret (Some (inl (leave l agent (Some (mkInputResult InputStatusFailed agent (lastEffect (lp_Effects l)) (lp_Effects l) None
              (agentError (gs_Error agent)))))))
          else
            let@ t := st_get (fun t => t) in
            let stepItems := tu_Local t ++ tu_Items t in
            match validateOperationRequests stepItems (de_Operations (gs_Decision agent)) with
            | Some e => fail l agent "conversation_continuity_failed" (request_text e)
            | None =>
                let@ err := commitContextRender env s context in
                match err with
                | Some e => fail l agent "context_commit_failed" (thread_text e)
                | None =>
                    let l := if stateRefIsZero (su_Ref (gs_State agent)) then l else l <| lp_State := su_Ref (gs_State agent) |> in
                    let l := l <| lp_Last := agent |> in
                    let@ r := (if decide (de_Kind (gs_Decision agent) = DecisionOperation)
                               then requested inp l tools agent stepItems else answered inp l agent stepItems) in
                    st_ret (Some r)
                end
            end
      end
  end.

(** The loop with [steps] model calls left. *)
Fixpoint steps_loop (inp : InnerInput) (steps : nat) (l : LoopState) : M (option InnerResult) :=
  match steps with
  | O =>
      if nn_FailOnStepLimit inp then
        let@ result := operationBoundaryResult (nn_Inbound inp) (lp_Last l) (lp_Effects l) (Some step_limit_error) in
        st_ret (Some (leave l (lp_Last l) (Some result)))
      else st_ret (Some (leave l (lp_Last l) None))
  | S steps =>
      let@ r := turn_step inp l in
      match r with
      | None => st_ret None
      | Some (inl result) => st_ret (Some result)
      | Some (inr l) => steps_loop inp steps l
      end
  end.
Definition runInnerTurn (inp : InnerInput) : M (option InnerResult) :=
  let start := mkLoopState (nn_Pending inp) (nn_Observations inp) (nn_Assertions inp) (nn_Reactions inp) (nn_State inp)
    (nn_Effects inp) zero_AgentStep false in
  let@ l := phase_and_react PhaseTurn start in
  let maxSteps := if (nn_MaxSteps inp <=? 0)%Z then 1%Z else nn_MaxSteps inp in
  steps_loop inp (Z.to_nat maxSteps) l.

(** ** Goals of the thread *)

Definition continuationPolicyForGoal (state : GoalState) (spec : AgentSpec) : ContinuationPolicy :=
  if negb (ActiveForContinuation state) then zero_Continuation else
  let max := cp_MaxContinuations (tp_Continuation (as_Turns spec)) in
  mkContinuation (if (max <=? 0)%Z then defaultLLMContinuations else max) (goal_context_policy spec) (goal_condition (go_Text state)).

(** [currentGoalState]; the outer [None] is a walk over the branches that does not end. *)
Definition currentGoalState : M (option (Result GoalError GoalState)) :=
  if negb (threaded s) then st_ret (Some (Err GoalNoThread)) else
  let@ r := ask (en_Read env) ReadThread in
  st_ret match r with
    | Err e => Some (Err (GoalThread e))
    | Ok snapshot =>
        let snapshot := if decide (ref_BranchID (ss_Thread s) = emp) then snapshot else snapshot <| sn_BranchID := ref_BranchID (ss_Thread s) |> in
        match ProjectThread (branch_fuel snapshot) snapshot with
        | None => None
        | Some (Err e) => Some (Err (GoalThread e))
        | Some (Ok state) => Some (Ok state)
        end
    end.
(** The policy of an input: that of the input or the agent, or, when neither has a stop condition, that
    of an active goal, which is returned with it. *)
Definition effective_policy (opts : InputOptions) : M (option (ContinuationPolicy * option GoalState)) :=
  let policy := continuationPolicyForInput opts (spec s) in
  if negb (blank (st_Type (cp_StopCondition policy))) then st_ret (Some (policy, None)) else
  let@ r := currentGoalState in
  st_ret match r with
    | None => None
    | Some (Ok state) => if ActiveForContinuation state then Some (continuationPolicyForGoal state (spec s), Some state) else Some (policy, None)
    | Some (Err _) => Some (policy, None)
    end.
Definition failOnStepLimitForInput (opts : InputOptions) : M (option bool) :=
  let@ r := effective_policy opts in
  st_ret match r with
    | None => None
    | Some (policy, _) => Some (if blank (st_Type (cp_StopCondition policy)) then failOnStepLimit (Some (spec s)) else false)
    end.

(** ** Continuation *)

Inductive ContinuationDecision := Stop | Continue (instruction reason : string) | Conclude (result : InputResult).

Definition limit_details (max : Z) : gmap string Value :=
  {[ "loop" := VString "outer"; "limit" := VString "turns.continuation.max_continuations"; "max_continuations" := VInt max ]}%string.
Definition continuationLimitResult (agent : AgentStep) (effects : list EffectResult) (max : Z) : InputResult :=
  mkInputResult InputStatusFailed agent (lastEffect effects) effects None
    (Some (mkCommandError "continuation_limit_exceeded"
       ("outer continuation reached turns.continuation.max_continuations=" ++ pretty max) (limit_details max))).
Definition continuation_failed (agent : AgentStep) (effects : list EffectResult) (code msg : string) : InputResult :=
  mkInputResult InputStatusFailed agent (lastEffect effects) effects None (Some (mkCommandError code msg ∅)).
Definition goalReviewInstruction (state : GoalState) : string :=
  match go_LatestReview state with
  | None => "Continue working toward the goal."
  | Some review =>
      match List.find (fun x => negb (blank (sg_Text x))) (rw_Suggestions (gr_Result review)) with
      | Some suggestion => TrimSpace (sg_Text suggestion)
      | None => firstNonEmptyString [rw_Summary (gr_Result review); "Continue working toward the goal."%string]
      end
  end.
Definition goalReviewReason (state : GoalState) : string :=
  match go_LatestReview state with
  | None => goal_status_text (go_Status state)
  | Some review => firstNonEmptyString [rw_Summary (gr_Result review); review_decision_text (rw_Decision (gr_Result review));
      goal_status_text (go_Status state)]
  end.

(** [verifyGoalWithReviewer]: an error text or the goal the review was recorded on. *)
Definition verifyGoalWithReviewer (inbound : Inbound) (state : GoalState) : M (option (Result string GoalState)) :=
  let run := ib_ID inbound in
  let failed reviewID reason :=
    let@ _ := appendThreadEvents env s [GoalWritten (ReviewFailed (go_ID state) reviewID reason run)] in
    st_ret (Some (Err reason)) in
  if decide (go_ID state = emp) then st_ret (Some (Err "goal state is empty"%string))
  else if negb (ss_HasReviewer s) then st_ret (Some (Err "goal reviewer session-agent runner is not configured"%string)) else
  let@ reviewID := ask (en_ReviewID env) DrawnReviewID in
  let@ err := appendThreadEvents env s [GoalWritten (ReviewRequested (go_ID state) reviewID run)] in
  match err with
  | Some e => st_ret (Some (Err (thread_text e)))
  | None =>
      let@ err := ask (fun log => en_Review env log reviewID) (Reviewed reviewID) in
      match err with
      | Some msg => failed reviewID msg
      | None =>
          let@ r := currentGoalState in
          match r with
          | None => st_ret None
          | Some (Err e) => st_ret (Some (Err (goal_error_text e)))
          | Some (Ok reviewed) =>
              match bound_decision reviewed reviewID with
              | Some reviewed => st_ret (Some (Ok reviewed))
              | None => failed reviewID "goal reviewer completed without submitting the bound decision"%string
              end
          end
      end
  end.

Definition evaluator : option (Evaluator (W := Turn)) :=
  match en_Stop env with
  | Some f => Some (fun input => ask (fun log => f log input) (Evaluated input))
  | None => None
  end.

Definition goal_decision (agent : AgentStep) (effects : list EffectResult) (completed max : Z) (r : Result string GoalState)
    : ContinuationDecision :=
  match r with
  | Err msg => Conclude (continuation_failed agent effects "goal_verification_failed" msg)
  | Ok reviewed =>
      if decide (go_Status reviewed = GoalReached) then Stop
      else if (max <=? completed)%Z then Conclude (continuationLimitResult agent effects max)
      else if decide (go_Status reviewed = GoalRejected) then Continue (goalReviewInstruction reviewed) (goalReviewReason reviewed)
      else Conclude (continuation_failed agent effects "goal_verifier_no_decision"
             "goal reviewer completed without recording a reached or rejected decision")
  end.
Definition stop_decision (agent : AgentStep) (effects : list EffectResult) (completed max : Z) (r : Result StopError StopEvaluation)
    : ContinuationDecision :=
  match r with
  | Err e => Conclude (continuation_failed agent effects "stop_condition_failed" (stop_error_text e))
  | Ok evaluation =>
      if decide (TrimSpace (ToLower (se_Action evaluation)) = StopActionContinue) then
        if (max <=? completed)%Z then Conclude (continuationLimitResult agent effects max)
        else Continue (se_ContinueInstruction evaluation) (se_Reason evaluation)
      else Stop
  end.
Definition with_continuation (a : AgentSpec) (policy : ContinuationPolicy) : AgentSpec :=
  mkAgentSpec (as_Name a) (as_Objective a) (as_Driver a) (as_Inference a) (mkTurnPolicy (tp_MaxSteps (as_Turns a)) policy)
    (as_Tools a) (as_Commands a) (as_Datasources a) (as_Skills a) (as_Context a) (as_ActivationSets a).
Definition evaluateContinuation (inbound : Inbound) (opts : InputOptions) (completed : Z) (agent : AgentStep) (effects : list EffectResult)
    : M (option ContinuationDecision) :=
  if decide (gs_Status agent <> AgentOK) then st_ret (Some Stop) else
  let@ r := effective_policy opts in
  match r with
  | None => st_ret None
  | Some (policy, goal) =>
      let condition := cp_StopCondition policy in
      if blank (st_Type condition) then st_ret (Some Stop) else
      let max := maxContinuationsForPolicy (Some (spec s)) policy in
      match goal with
      | Some state =>
          let@ r := verifyGoalWithReviewer inbound state in
          st_ret (goal_decision agent effects completed max <$> r)
      | None =>
          let@ r := EvaluateStopCondition evaluator
            (mkStopInput (with_continuation (spec s) policy) condition inbound agent effects completed max) condition in
          st_ret (Some (stop_decision agent effects completed max r))
      end
  end.

(** ** The outer loop *)

Definition outbound_result (inbound : Inbound) (agent : AgentStep) (effects : list EffectResult) (message : ChannelMessage) : M InputResult :=
  let@ err := appendThreadEvents env s [OutboundProduced (ib_ID inbound) message] in
  st_ret match err with
    | Some e => inputFailed "thread_append_failed" (thread_text e)
    | None => mkInputResult InputStatusOK agent (lastEffect effects) effects (Some (mkOutbound (ib_Channel inbound) (ib_Conversation inbound) message)) None
    end.
Definition decision_text (k : DecisionKind) : string :=
  match k with
  | DecisionNone => emp | DecisionOperation => "operation" | DecisionMessage => "message" | DecisionComplete => "complete"
  | DecisionWait => "wait" | DecisionDelegate => "delegate" | DecisionReject => "reject" | OtherDecisionKind k => k
  end.
Definition applyTerminalAgentDecision (inbound : Inbound) (agent : AgentStep) (effects : list EffectResult) : M InputResult :=
  let silent := mkInputResult InputStatusOK agent (lastEffect effects) effects None None in
  match de_Kind (gs_Decision agent) with
  | DecisionMessage =>
      match de_Message (gs_Decision agent) with
      | None => st_ret silent
      | Some m => outbound_result inbound agent effects (mkMessage (am_Content m) (am_Metadata m))
      end
  | DecisionComplete =>
      match de_Complete (gs_Decision agent) with
      | None => st_ret silent
      | Some c => outbound_result inbound agent effects (mkMessage (co_Output c) ∅)
      end
  | DecisionNone | DecisionWait => st_ret silent
  | kind =>
      st_ret (mkInputResult InputStatusUnsupported agent (lastEffect effects) effects None
        (Some (mkCommandError "unsupported_agent_decision" "agent decision is not supported by session input dispatch yet"
           {[ "decision"%string := VString (decision_text kind) ]})))
  end.

(** What [finalizeInputResult] does besides (compaction of the transcript, expiry of the surface) comes
    after everything modelled here; the log keeps that it was reached. *)
Definition finalizeInputResult (result : InputResult) : M (option InputResult) :=
  let@ _ := note (Finished result) in st_ret (Some result).

(** The variables of the outer loop. *)
Record OuterState := mkOuterState {
  os_Pending : transcriptPending;
  os_Observations : list Observation;
  os_Assertions : list Assertion;
  os_Reactions : Reactions;
  os_State : StateRef;
  os_Effects : list EffectResult
}.
Definition continuation_observation (instruction reason : string) (n : Z) : Observation :=
  mkObservation emp "session" "session.continuation" (ContentValue (VString instruction))
    {[ "continuation" := VInt n; "reason" := VString reason ]}%string.

(** The body of the outer loop, with continuation number [continuation]. *)
Definition outer_turn (inbound : Inbound) (opts : InputOptions) (history : string) (continuation : Z) (o : OuterState)
    : M (option (InputResult + OuterState)) :=
  let@ limit := failOnStepLimitForInput opts in
  match limit with
  | None => st_ret None
  | Some failOnStepLimit =>
      let@ r := runInnerTurn (mkInnerInput inbound history (os_Pending o) (TrimSpace (io_Goal opts)) (os_Observations o) (os_Assertions o)
        (os_Reactions o) (os_State o) (os_Effects o) (maxSteps (Some (spec s))) failOnStepLimit) in
      match r with
      | None => st_ret None
      | Some inner =>
          match ne_Result inner with
          | Some result => st_ret (Some (inl result))
          | None =>
              let agent := ne_AgentResult inner in
              let effects := ne_Effects inner in
              let@ decision := evaluateContinuation inbound opts continuation agent effects in
              match decision with
              | None => st_ret None
              | Some (Conclude result) => st_ret (Some (inl result))
              | Some Stop =>
                  let@ result := (if decide (de_Kind (gs_Decision agent) = DecisionOperation)
                                  then operationBoundaryResult inbound agent effects None
                                  else applyTerminalAgentDecision inbound agent effects) in
                  st_ret (Some (inl result))
              | Some (Continue instruction reason) =>
                  let instruction := if blank instruction then "Continue."%string else TrimSpace instruction in
                  st_ret (Some (inr (mkOuterState (mkPending [inputTranscriptItem (provider s) (VString instruction)] false 0)
                    [continuation_observation instruction reason (continuation + 1)] (ne_Assertions inner) (ne_Reactions inner)
                    (ne_State inner) effects)))
              end
          end
      end
  end.
(** [None] when the fuel is used up, or a walk over the branches does not end. *)
Fixpoint outer_loop (fuel : nat) (inbound : Inbound) (opts : InputOptions) (history : string) (continuation : Z) (o : OuterState)
    : M (option InputResult) :=
  match fuel with
  | O => st_ret None
  | S fuel =>
      let@ r := outer_turn inbound opts history continuation o in
      match r with
      | None => st_ret None
      | Some (inl result) => finalizeInputResult result
      | Some (inr o) => outer_loop fuel inbound opts history (continuation + 1) o
      end
  end.

(** [executeInboundInput]. The history text, the state reactions are replayed to and whether this is the
    first input of the thread come from earlier events; errors of reading them are given. *)
Record Replay := mkReplay {
  re_History : Result string string;
  re_Skills : option string;
  re_Reactions : Result string Reactions;
  re_SessionOpen : bool;
  re_StartupObservations : list Observation;
  re_StartupAssertions : list Assertion
}.
Definition message_observation (inbound : Inbound) (message : ChannelMessage) : Observation :=
  mkObservation emp "channel" "channel.message" (ContentValue (ms_Content message)) ∅.
Definition executeInboundInput (invalid : CommandInvocation -> option string) (fuel : nat) (replay : Replay) (inbound : Inbound)
    (opts : InputOptions) : M (option InputResult) :=
  let fail code msg := st_ret (Some (inputFailed code msg)) in
  match Inbound_Validate invalid inbound with
  | Some e => fail "invalid_input_inbound"%string (inbound_error_text e)
  | None =>
      match ib_Kind inbound, ib_Message inbound with
      | InboundMessage, Some message =>
          match re_History replay with
          | Err msg => fail "thread_history_failed"%string msg
          | Ok history =>
              let@ err := appendThreadEvents env s
                [InputReceived (ib_ID inbound) message (ib_Channel inbound) (ib_Conversation inbound) (ib_Authority inbound)] in
              match err with
              | Some e => fail "thread_append_failed"%string (thread_text e)
              | None =>
                  match re_Skills replay with
                  | Some msg => fail "skill_replay_failed"%string msg
                  | None =>
                      match re_Reactions replay with
                      | Err msg => fail "reaction_replay_failed"%string msg
                      | Ok reactions =>
                          let observations := message_observation inbound message :: re_StartupObservations replay in
                          let start := mkLoopState (mkPending [inputTranscriptItem (provider s) (ms_Content message)] false 0) observations
                            (re_StartupAssertions replay) reactions zero_StateRef [] zero_AgentStep false in
                          let@ l := (if re_SessionOpen replay then phase_and_react PhaseSessionOpen start else st_ret start) in
                          outer_loop fuel inbound opts history 0
                            (mkOuterState (lp_Pending l) (lp_Observations l) (lp_Assertions l) (lp_Reactions l) (lp_State l) (lp_Effects l))
                      end
                  end
              end
          end
      | _, _ => fail "invalid_input_inbound"%string "inbound envelope does not contain a message"%string
      end
  end.
(** A turn starts with nothing in its sink. *)
Definition start_turn (log : list Call) : Turn := mkTurn log None [] None (provider s) [] [].
End Loop.
