(* ===== verification/SessionInvariant.v ===== *)
(** * What a turn writes and shows

    The items a turn appends to the conversation are well paired after every append, and so is every
    transcript the model is shown in full; at most so many model calls are made. *)

From S2P Require Import Prelude Operation Event Thread ThreadViews ThreadStore Conversation Continuity Projection WorkerText Compaction StateLogic AgentModel Goal GoalOps SessionData SessionItems StopCondition SessionTurn SessionLoop.

Section Invariant.
Context {Assertion Active ReactionRest : Type}.
Context {VJ : ValueJson} {OA : OperationApi} {MR : ModelRenderable} {LC : LowerCase} {ST : SessionTexts} {RD : ResultData}
  {GX : GoalTexts} {GF : GoFmt}.
Abbreviation SEnv := (Env (Assertion := Assertion) (Active := Active) (ReactionRest := ReactionRest)).
Context (env : SEnv) (s : Session).
Implicit Types (t : Turn) (log : list Call) (records : list SessionRecord).

(** ** What was written and shown *)

Definition event_items (e : SessionEvent) : list Item :=
  match e with ConversationWritten (ItemsAppended _ _ items) => items | _ => [] end.
Definition record_items (r : SessionRecord) : list Item :=
  match rec_Payload (ar_Event r) with OtherEvent _ e => event_items e | _ => [] end.
(** The conversation items of the appends that succeeded. *)
Definition call_items (c : Call) : list Item := match c with Appended records None => records ≫= record_items | _ => [] end.
Definition written log : list Item := log ≫= call_items.

(** A transcript that is shown in full is well paired. *)
Definition shown_ok (tr : Transcript) : Prop :=
  ts_Mode tr = ProjectionFullReplay -> ValidateContinuity (ts_Items tr) (provider s) = None.
Definition call_ok (c : Call) : Prop := match c with Stepped tr _ _ _ _ => shown_ok tr | _ => True end.

Definition paired log : Prop := forall log', log' `prefix_of` log -> ValidateContinuity (written log') (provider s) = None.

(** What the log of calls and the transcript of the input are like. *)
Record log_ok log (local : list Item) : Prop := {
  lo_paired : paired log;
  lo_shown : Forall call_ok log;
  lo_local : ValidateContinuity local (provider s) = None;
  lo_written : threaded s = true -> written log = local
}.
Definition turn_ok t : Prop := log_ok (tu_Log t) (tu_Local t).

Lemma written_app l1 l2 : written (l1 ++ l2) = written l1 ++ written l2.
Proof. apply bind_app. Qed.
Lemma paired_snoc log c :
  paired log -> ValidateContinuity (written (log ++ [c])) (provider s) = None -> paired (log ++ [c]).
Proof.
  intros Hp Hc log' [k Hk]. destruct k as [|x k _] using rev_ind; [rewrite app_nil_r in Hk; by subst|].
  rewrite app_assoc in Hk. apply app_inj_tail in Hk as [-> ->]. apply Hp. by exists k.
Qed.

(** ** Moves that write no items *)

Definition harmless (c : Call) : Prop := call_items c = [] /\ call_ok c.
(** The log grows by harmless calls, and the transcript of the turn stays. *)
Record sink_move t t' : Prop := {
  sm_log : exists l, tu_Log t' = tu_Log t ++ l /\ Forall harmless l;
  sm_local : tu_Local t' = tu_Local t
}.
(** The same, and nothing is emitted into the sink. *)
Record quiet_move t t' : Prop := {
  qm_sink : sink_move t t';
  qm_items : tu_Items t' = tu_Items t
}.

Lemma sink_move_same t t' : tu_Log t' = tu_Log t -> tu_Local t' = tu_Local t -> sink_move t t'.
Proof. intros E1 E2. split; [exists []; by rewrite app_nil_r; split; [|constructor]|done]. Qed.
#[local] Instance sink_move_refl : Reflexive sink_move.
Proof. intros t. by apply sink_move_same. Qed.
#[local] Instance sink_move_trans : Transitive sink_move.
Proof.
  intros t1 t2 t3 [(l1 & E1 & H1) L1] [(l2 & E2 & H2) L2]. split; [|congruence].
  exists (l1 ++ l2). rewrite E2, E1, app_assoc. split; [done|by apply Forall_app].
Qed.
#[local] Instance quiet_move_refl : Reflexive quiet_move.
Proof. intros t. by split. Qed.
#[local] Instance quiet_move_trans : Transitive quiet_move.
Proof. intros t1 t2 t3 [H1 E1] [H2 E2]. split; [by etransitivity|congruence]. Qed.

Lemma log_ok_harmless log local l : log_ok log local -> Forall harmless l -> log_ok (log ++ l) local.
Proof.
  intros [Hp Hs Hl Hw] Hh.
  assert (Hn : written l = []).
  { unfold written. clear -Hh. induction Hh as [|c l' [Hc _] _ IH]; [done|]. cbn. by rewrite Hc, IH. }
  split; rewrite ?written_app, ?Hn, ?app_nil_r; [|by apply Forall_app; split; [|by eapply Forall_impl; [exact Hh|intros c []]]|done|done].
  revert log Hp Hs Hw Hn. induction Hh as [|c l [Hc Hok] Hh IH]; intros log Hp Hs Hw Hn; [by rewrite app_nil_r|].
  rewrite (app_assoc log [c] l : log ++ c :: l = _). unfold written in Hn. cbn in Hn. rewrite Hc in Hn. apply IH; try done.
  - apply paired_snoc; [done|]. rewrite written_app. unfold written at 2. cbn. rewrite Hc, !app_nil_r. by apply Hp.
  - apply Forall_app. auto.
  - intros Ht. rewrite written_app, (Hw Ht). unfold written. cbn. by rewrite Hc, !app_nil_r.
Qed.
Lemma sink_move_ok t t' : turn_ok t -> sink_move t t' -> turn_ok t'.
Proof. intros H [(l & El & Hh) Eloc]. unfold turn_ok. rewrite El, Eloc. by apply log_ok_harmless. Qed.
Lemma quiet_sink {A} (m : St Turn A) : moves quiet_move m -> moves sink_move m.
Proof. intros H. eapply moves_weaken; [exact H|]. by intros w w' []. Qed.
Lemma triple_sink {A} (m : St Turn A) : moves sink_move m -> triple turn_ok m (fun _ => turn_ok).
Proof. intros H. eapply triple_moves; [exact H|apply sink_move_ok]. Qed.

(** ** The calls *)

Lemma note_moves c : harmless c -> moves quiet_move (note c).
Proof. intros H. apply moves_modify. intros t. split; [split; [exists [c]; auto|done]|done]. Qed.
Lemma ask_moves {A} (answer : list Call -> A) (entry : A -> Call) :
  (forall a, harmless (entry a)) -> moves quiet_move (ask answer entry).
Proof. intros H t. split; [split; [eexists; split; [reflexivity|]; by constructor|done]|done]. Qed.
Lemma emitLive_moves e : moves quiet_move (emitLive e).
Proof. by apply note_moves. Qed.

(** Records without conversation items. *)
Lemma append_moves attempts last records :
  records ≫= record_items = [] -> moves quiet_move (retry_append env attempts last records).
Proof.
  intros Hr. revert last. induction attempts as [|n IH]; intros last; cbn; [apply moves_ret, _|].
  apply moves_bind; [apply _|apply ask_moves; intros [e|]; by split|]. intros [e|]; [|apply moves_ret, _].
  destruct (thread_conflict e); [apply IH|apply moves_ret, _].
Qed.
Definition no_items (events : list SessionEvent) : Prop := events ≫= event_items = [].
Lemma session_records_items id events : ThreadAppendRecords id events ≫= record_items = events ≫= event_items.
Proof. unfold ThreadAppendRecords. induction events as [|e events IH]; [done|]. cbn. by f_equal. Qed.
Lemma appendThreadEvents_moves events : no_items events -> moves quiet_move (appendThreadEvents env s events).
Proof.
  intros H. unfold appendThreadEvents. destruct (_ || _); [apply moves_ret, _|]. unfold appendThreadRecords.
  destruct (_ || _); [apply moves_ret, _|]. apply append_moves. by rewrite session_records_items.
Qed.

#[local] Hint Resolve emitLive_moves appendThreadEvents_moves : moves.
#[local] Hint Extern 3 (moves sink_move _) => apply quiet_sink : moves.

Lemma Emit_sink e : moves sink_move (Emit s e).
Proof.
  unfold Emit. apply moves_bind; [apply _|apply quiet_sink, emitLive_moves|]. intros _. apply moves_modify. intros t.
  destruct (tu_Err t); [reflexivity|].
  apply sink_move_same; by destruct e as [| | | | | | |[]| | | | |].
Qed.
Lemma Emit_quiet e : event_items e = [] -> moves quiet_move (Emit s e).
Proof.
  intros H. unfold Emit. apply moves_bind; [apply _|apply emitLive_moves|]. intros _. apply moves_modify. intros t.
  destruct (tu_Err t); [reflexivity|]. destruct e as [| | | | | | |[]| | | | |]; cbn in H |- *; try reflexivity; subst.
  - split; [by apply sink_move_same|]. cbn. by rewrite app_nil_r.
  - split; [by apply sink_move_same|done].
Qed.
Lemma emit_all_sink events : moves sink_move (emit_each s events).
Proof. induction events; cbn; [apply moves_ret, _|]. apply moves_bind; [apply _|apply Emit_sink|done]. Qed.
Lemma emit_all_quiet events : no_items events -> moves quiet_move (emit_each s events).
Proof.
  induction events as [|e events IH]; cbn; [intros; apply moves_ret, _|]. intros [H1 H2]%app_nil.
  apply moves_bind; [apply _|by apply Emit_quiet|]. intros _. by apply IH.
Qed.
Lemma ask_emitting_sink {A} (answer : list Call -> list SessionEvent * A) entry :
  (forall events a, harmless (entry events a)) -> moves sink_move (ask_emitting s answer entry).
Proof.
  intros H. unfold ask_emitting. apply moves_bind; [apply _|apply quiet_sink, ask_moves; intros []; apply H|].
  intros [events a]. apply moves_bind; [apply _|apply emit_all_sink|intros _; apply moves_ret, _].
Qed.
Lemma ask_emitting_quiet {A} (answer : list Call -> list SessionEvent * A) entry :
  (forall events a, harmless (entry events a)) -> (forall log, no_items (answer log).1) -> moves quiet_move (ask_emitting s answer entry).
Proof.
  intros H Ha w. unfold ask_emitting, st_bind. cbn. specialize (Ha (tu_Log w)).
  destruct (answer (tu_Log w)) as [events a] eqn:E. cbn in *.
  pose proof (ask_moves answer (fun r => entry r.1 r.2) (fun r => H r.1 r.2) w) as H1. cbn in H1. rewrite E in H1.
  pose proof (emit_all_quiet events Ha) as H2. match type of H1 with quiet_move _ ?t => specialize (H2 t) end.
  cbn in H1, H2. destruct (emit_each s events _) as [? t'] in H2 |- *. etransitivity; [exact H1|exact H2].
Qed.

(** ** The pieces of a step *)

Lemma commitContextRender_quiet r : moves quiet_move (commitContextRender env s r).
Proof.
  unfold commitContextRender. destruct (_ || _); [apply moves_ret, _|]. apply appendThreadEvents_moves.
  unfold no_items, context_events. rewrite !bind_app. generalize (bu_Added r ++ bu_Updated r). intros l.
  induction l as [|b l IH]; [|done]. cbn. induction (bu_Removed r) as [|b l IH]; [done|done].
Qed.
Lemma materializeContext_quiet inbound pending observations active :
  moves quiet_move (materializeContext env s inbound pending observations active).
Proof.
  unfold materializeContext. apply moves_bind; [apply _|apply ask_moves; by split|]. intros; apply moves_ret, _.
Qed.
Lemma transcriptForPending_quiet pending items handle : moves quiet_move (transcriptForPending env s pending items handle).
Proof.
  unfold transcriptForPending. destruct (negb _); [apply moves_ret, _|]. apply moves_bind; [apply _|apply ask_moves; by split|].
  intros; moves_tac.
Qed.
Definition shown_result (r : option (Result ConversationError Transcript)) : Prop :=
  match r with Some (Ok tr) => shown_ok tr | _ => True end.
Lemma transcriptForPending_shown pending items handle : returns (transcriptForPending env s pending items handle) shown_result.
Proof.
  unfold transcriptForPending. destruct (negb _).
  - apply returns_ret. destruct (ValidateContinuity _ _) eqn:E; [done|]. cbn. 
    destruct handle as [h|]; [destruct (SupportsPreviousResponseID h)|]; intros Hmode; first [discriminate Hmode|exact E].
  - eapply returns_bind; [apply returns_true|]. intros [snapshot|e] _.
    + apply returns_ret. destruct (ProjectTranscript _ _) as [[r|e]|] eqn:E; [|done|done]. cbn. revert E. unfold ProjectTranscript. cbn.
      destruct (replay _ _ _ _) as [[[items' head]|e]|]; [|done|done]. intros [= E].
      destruct (ValidateContinuity _ _) eqn:Ev; [done|]. destruct head as [h|]; [destruct (SupportsPreviousResponseID h)|];
        injection E as <-; intros Hmode; [discriminate Hmode|exact Ev|exact Ev].
    + destruct e; apply returns_ret; try done. unfold canonical_transcript. destruct (ValidateContinuity _ _) eqn:E; [done|]. intros _. exact E.
Qed.

#[local] Hint Resolve commitContextRender_quiet materializeContext_quiet transcriptForPending_quiet : moves.

Lemma replace_oversized_quiet code details effect : moves quiet_move (replace_oversized env code details effect).
Proof. unfold replace_oversized. apply moves_bind; [apply _|apply ask_moves; by split|]. intros; apply moves_ret, _. Qed.
Lemma emit_live_all_quiet events : moves quiet_move (emit_live_all events).
Proof. induction events; cbn; moves_tac. Qed.
Lemma phase_and_react_sink phase l : moves sink_move (phase_and_react env s phase l).
Proof.
  unfold phase_and_react. apply moves_bind; [apply _|apply quiet_sink, ask_moves; by split|]. intros [observations assertions].
  apply moves_bind; [apply _|apply ask_emitting_sink; by split|]. intros [[??]?]. apply moves_ret, _.
Qed.
#[local] Hint Resolve replace_oversized_quiet emit_live_all_quiet phase_and_react_sink : moves.

(** Operations do not write to the conversation: only the agent and reactions do. *)
Definition quiet_operations : Prop := forall log op input callID, no_items (en_Operation env log op input callID).1.

Section Quiet.
Hypothesis Hquiet : quiet_operations.

Lemma operation_quiet op input callID :
  moves quiet_move (ask_emitting s (fun log => en_Operation env log op input callID) (Operated op input callID)).
Proof. apply ask_emitting_quiet; [by split|]. intros log. apply Hquiet. Qed.
Lemma applyProjectedOperation_quiet tools op input callID : moves quiet_move (applyProjectedOperation env s tools op input callID).
Proof. pose proof operation_quiet. unfold applyProjectedOperation. moves_tac. Qed.
#[local] Hint Resolve operation_quiet applyProjectedOperation_quiet : moves.

Lemma apply_requests_quiet run tools start i requests active batch :
  moves quiet_move (apply_requests env s run tools start i requests active batch).
Proof.
  revert i active batch. induction requests as [|r requests IH]; intros i active batch; cbn [apply_requests]; moves_tac.
  by apply appendThreadEvents_moves.
Qed.
Lemma run_checks_quiet run start checks effects : moves quiet_move (run_checks env s run start checks effects).
Proof.
  revert effects. induction checks as [|[check path] checks IH]; intros effects; cbn [run_checks]; moves_tac.
  all: by apply appendThreadEvents_moves.
Qed.

(** ** Writing what the sink holds *)

Lemma log_ok_local log local : log_ok log local -> threaded s = true -> ValidateContinuity (written log) (provider s) = None.
Proof. intros [Hp _ _ _] _. by apply Hp. Qed.
(** The items of an append that succeeds follow those written so far. *)
Lemma log_ok_append log local records items :
  log_ok log local -> ValidateContinuity (local ++ items) (provider s) = None -> records ≫= record_items = items ->
  threaded s = true -> log_ok (log ++ [Appended records None]) (local ++ items).
Proof.
  intros [Hp Hs Hl Hw] Hv Hr Ht.
  assert (Hwr : written (log ++ [Appended records None]) = local ++ items).
  { rewrite written_app, (Hw Ht). unfold written. cbn. by rewrite app_nil_r, Hr. }
  split; [|by apply Forall_app; repeat constructor|done|done]. apply paired_snoc; [done|]. by rewrite Hwr.
Qed.
Definition same_sink (local items : list Item) t : Prop := tu_Local t = local /\ tu_Items t = items.
Lemma retry_append_ok attempts last records local items pending :
  (attempts <> 0 \/ last <> None) -> threaded s = true -> records ≫= record_items = items ->
  ValidateContinuity (local ++ items) (provider s) = None ->
  triple (fun t => log_ok (tu_Log t) local /\ same_sink local pending t) (retry_append env attempts last records)
    (fun err t => log_ok (tu_Log t) (match err with None => local ++ items | Some _ => local end) /\ same_sink local pending t).
Proof.
  intros Hlast Ht Hr Hv. revert last Hlast. induction attempts as [|n IH]; intros last Hlast; cbn [retry_append].
  - apply triple_ret. destruct last; [done|]. by destruct Hlast.
  - eapply triple_bind with (R := fun err t => log_ok (tu_Log t) (match err with None => local ++ items | Some _ => local end) /\ same_sink local pending t).
    + intros t [H Hsame]. cbn. destruct (en_Append env (tu_Log t) records).
      * split; [|done]. apply log_ok_harmless; [done|]. repeat constructor.
      * split; [|done]. by apply log_ok_append.
    + intros [e|]; [|by apply triple_ret]. destruct (thread_conflict e); [|by apply triple_ret]. by apply IH; right.
Qed.
Lemma conversation_records_items turnID p items handles records :
  AppendRecords turnID p items handles = Ok records -> records ≫= record_items = items.
Proof.
  unfold AppendRecords. intros (recs & Hrecs & [= <-])%res_bind_ok. rewrite bind_app.
  assert (map (fun h => conversation_record emp turnID (ContinuationStored turnID h)) handles ≫= record_items = []) as ->.
  { clear. induction handles as [|h handles IH]; [done|]. cbn. exact IH. }
  rewrite app_nil_r. destruct items as [|item items]; [by injection Hrecs as <-|].
  destruct (first_item_error _ _); [done|]. injection Hrecs as <-. cbn. by rewrite app_nil_r.
Qed.
Lemma append_conversation_ok turnID p items handles events local pending :
  no_items events -> ValidateContinuity (local ++ items) (provider s) = None ->
  triple (fun t => log_ok (tu_Log t) local /\ same_sink local pending t) (appendConversationAndEvents env s turnID p items handles events)
    (fun err t => log_ok (tu_Log t) (match err with None => local ++ items | Some _ => local end) /\ same_sink local pending t).
Proof.
  intros He Hv. unfold appendConversationAndEvents. destruct (AppendRecords _ _ _ _) as [records|e] eqn:Er; [|by apply triple_ret].
  apply conversation_records_items in Er.
  assert (Hr : (records ++ ThreadAppendRecords (ref_ID (ss_Thread s)) events) ≫= record_items = items).
  { by rewrite bind_app, session_records_items, He, Er, app_nil_r. }
  eapply triple_bind with (R := fun err t => log_ok (tu_Log t) (match err with None => local ++ items | Some _ => local end) /\ same_sink local pending t).
  - unfold appendThreadRecords. destruct (threaded s) eqn:Ht; cbn [negb orb].
    + destruct (records ++ _); [|apply retry_append_ok; auto].
      cbn in Hr. rewrite <- Hr, app_nil_r. by apply triple_ret.
    + apply triple_ret. intros t [[Hp Hs Hl Hw] Hsame]. split; [|done]. split; [done|done|done|by rewrite Ht].
  - intros err. apply triple_ret. by destruct err.
Qed.
Lemma flush_ok turnID extra events :
  no_items events ->
  triple (fun t => turn_ok t /\ ValidateContinuity ((tu_Local t ++ tu_Items t) ++ extra) (provider s) = None)
    (FlushWithTranscriptItems env s turnID extra events) (fun _ => turn_ok).
Proof.
  intros He t [Ht Hv]. unfold FlushWithTranscriptItems. unfold st_bind at 1, st_get at 1. destruct (tu_Err t) as [e|]; [exact Ht|].
  rewrite <- app_assoc in Hv.
  eapply (triple_bind _ _ (fun t' => log_ok (tu_Log t') (tu_Local t) /\ same_sink (tu_Local t) (tu_Items t) t') _ (fun _ => turn_ok)).
  - by apply append_conversation_ok.
  - intros [e|].
    + eapply triple_bind with (R := fun _ => turn_ok); [|intros; by apply triple_ret].
      apply triple_modify. intros t' [H [El _]]. unfold turn_ok. cbn. by rewrite El.
    + eapply triple_bind with (R := fun _ => turn_ok); [|intros; by apply triple_ret].
      apply triple_modify. intros t' [H [El _]]. unfold turn_ok. cbn. by rewrite El.
  - done.
Qed.

(** ** Steps and loops *)

#[local] Hint Resolve apply_requests_quiet run_checks_quiet : moves.
(** A check of the step's items that nothing quiet invalidates. *)
Definition step_items (items : list Item) t : Prop := turn_ok t /\ tu_Local t ++ tu_Items t = items.
Lemma step_items_quiet {A} (m : St Turn A) items :
  moves quiet_move m -> triple (step_items items) m (fun _ => step_items items).
Proof.
  intros H. eapply triple_moves; [exact H|]. intros w w' [Hok E] [Hs Hi]. split; [by eapply sink_move_ok|].
  by rewrite (sm_local _ _ Hs), Hi.
Qed.
Lemma step_items_flush items turnID extra events :
  no_items events -> ValidateContinuity (items ++ extra) (provider s) = None ->
  triple (step_items items) (FlushWithTranscriptItems env s turnID extra events) (fun _ => turn_ok).
Proof. intros He Hv. eapply triple_pre; [by apply flush_ok|]. intros t [Hok <-]. done. Qed.
Lemma step_items_ok {A} (a : A) items : triple (step_items items) (st_ret a) (fun _ => turn_ok).
Proof. apply triple_ret. by intros w []. Qed.
Lemma completed_no_items l : (forall e, e ∈ l -> event_items e = []) -> no_items l.
Proof. intros H. unfold no_items. induction l as [|e l IH]; [done|]. cbn. rewrite H by set_solver. cbn. apply IH. set_solver. Qed.

Lemma answered_ok inp l agent items : triple (step_items items) (answered env s inp l agent items) (fun _ => turn_ok).
Proof.
  unfold answered. destruct (ValidateContinuity items _) eqn:Ev; [apply step_items_ok|].
  eapply triple_bind; [apply step_items_flush; [done|by rewrite app_nil_r]|]. intros [e|]; by apply triple_ret.
Qed.
Lemma apply_requests_completed run tools start i requests active batch :
  no_items (ba_Completed batch) ->
  returns (apply_requests env s run tools start i requests active batch)
    (fun r => match r with Ok (batch', _) => no_items (ba_Completed batch') | Err _ => True end).
Proof.
  revert i active batch. induction requests as [|r requests IH]; intros i active batch Hb; cbn [apply_requests]; [by apply returns_ret|].
  eapply returns_bind; [apply returns_true|]. intros [e|] _; [by apply returns_ret|].
  eapply returns_bind; [apply returns_true|]. intros _ _. eapply returns_bind; [apply returns_true|]. intros effect _.
  eapply returns_bind; [apply returns_true|]. intros effect' _. apply IH. cbn. unfold no_items in *. by rewrite bind_app, Hb.
Qed.
Lemma requested_ok inp l tools agent items : triple (step_items items) (requested env s inp l tools agent items) (fun _ => turn_ok).
Proof.
  unfold requested. destruct (de_Operations (gs_Decision agent)) as [|r requests]; [apply step_items_ok|].
  eapply triple_bind.
  { apply triple_returns; [apply step_items_quiet, apply_requests_quiet|by apply apply_requests_completed]. }
  intros [[batch active]|e]; apply triple_fact; intros Hb; [|apply step_items_ok]. cbv zeta.
  eapply triple_bind; [apply step_items_quiet, run_checks_quiet|].
  intros [checks|e]; [|apply step_items_ok]. destruct (ValidateContinuity _ _) eqn:Ev; [apply step_items_ok|].
  eapply triple_bind; [by apply step_items_flush|]. intros [e|]; [by apply triple_ret|].
  eapply triple_bind; [apply triple_sink, quiet_sink, emit_live_all_quiet|]. intros ?.
  eapply triple_bind; [apply triple_sink, phase_and_react_sink|]. intros l'. by apply triple_ret.
Qed.

Lemma turn_step_ok inp l : triple turn_ok (turn_step env s inp l) (fun _ => turn_ok).
Proof.
  unfold turn_step. eapply triple_bind with (R := fun _ => turn_ok).
  { apply triple_sink. moves_tac. }
  intros l'. cbv zeta. eapply triple_bind; [apply triple_sink, quiet_sink, materializeContext_quiet|].
  intros [[context pending]|msg]; [|by apply triple_ret].
  eapply triple_bind; [by apply triple_get with (Q := fun _ => turn_ok)|]. intros t.
  eapply triple_bind.
  { apply triple_returns; [apply triple_sink, quiet_sink, transcriptForPending_quiet|apply transcriptForPending_shown]. }
  intros [[transcript|e]|]; apply triple_fact; intros Hshown; [|by apply triple_ret..].
  eapply triple_bind; [apply triple_sink, ask_emitting_sink; by split|]. intros agent.
  case_decide; [by apply triple_ret|].
  eapply triple_bind with (R := fun t' => step_items (tu_Local t' ++ tu_Items t')).
  { by apply triple_get. }
  intros t'. cbv zeta. generalize (tu_Local t' ++ tu_Items t'). intros items.
  destruct (validateOperationRequests _ _); [apply step_items_ok|].
  eapply triple_bind; [apply step_items_quiet, commitContextRender_quiet|]. intros [e|]; [apply step_items_ok|].
  eapply triple_bind with (R := fun _ => turn_ok); [|by intros; apply triple_ret].
  case_decide; [apply requested_ok|apply answered_ok].
Qed.

(** What is only appended and read cannot break it. *)
Ltac ok_step :=
  lazymatch goal with
  | |- triple turn_ok (st_ret _) _ => by apply triple_ret
  | |- triple turn_ok (st_bind _ _) _ => eapply triple_bind with (R := fun _ => turn_ok); [|intros ?]
  | |- triple turn_ok (match ?x with _ => _ end) _ => destruct x
  | |- triple turn_ok _ _ => solve [eauto with moves] || (apply triple_sink; solve [moves_tac])
  end.
Ltac ok_tac := repeat (cbv zeta; ok_step).

Lemma events_ok events : no_items events -> triple turn_ok (appendThreadEvents env s events) (fun _ => turn_ok).
Proof. intros H. by apply triple_sink, quiet_sink, appendThreadEvents_moves. Qed.
#[local] Hint Extern 2 (triple turn_ok (appendThreadEvents _ _ _) _) => (by apply events_ok) : moves.
Lemma ask_ok {A} (answer : list Call -> A) (entry : A -> Call) :
  (forall a, harmless (entry a)) -> triple turn_ok (ask answer entry) (fun _ => turn_ok).
Proof. intros H. by apply triple_sink, quiet_sink, ask_moves. Qed.
#[local] Hint Extern 2 (triple turn_ok (ask _ _) _) => (by apply ask_ok; split) : moves.
#[local] Hint Resolve turn_step_ok : moves.

Lemma operationBoundaryResult_ok inbound agent effects err :
  triple turn_ok (operationBoundaryResult env s inbound agent effects err) (fun _ => turn_ok).
Proof. unfold operationBoundaryResult. ok_tac. Qed.
#[local] Hint Resolve operationBoundaryResult_ok : moves.
Lemma steps_loop_ok inp steps l : triple turn_ok (steps_loop env s inp steps l) (fun _ => turn_ok).
Proof. revert l. induction steps as [|n IH]; intros l; cbn [steps_loop]; ok_tac. Qed.
#[local] Hint Resolve steps_loop_ok : moves.
Lemma runInnerTurn_ok inp : triple turn_ok (runInnerTurn env s inp) (fun _ => turn_ok).
Proof. unfold runInnerTurn. ok_tac. Qed.
#[local] Hint Resolve runInnerTurn_ok : moves.
Lemma currentGoalState_ok : triple turn_ok (currentGoalState env s) (fun _ => turn_ok).
Proof. unfold currentGoalState. ok_tac. Qed.
#[local] Hint Resolve currentGoalState_ok : moves.
Lemma effective_policy_ok opts : triple turn_ok (effective_policy env s opts) (fun _ => turn_ok).
Proof. unfold effective_policy. ok_tac. Qed.
#[local] Hint Resolve effective_policy_ok : moves.
Lemma failOnStepLimitForInput_ok opts : triple turn_ok (failOnStepLimitForInput env s opts) (fun _ => turn_ok).
Proof. unfold failOnStepLimitForInput. ok_tac. Qed.
Lemma verifyGoalWithReviewer_ok inbound state : triple turn_ok (verifyGoalWithReviewer env s inbound state) (fun _ => turn_ok).
Proof. unfold verifyGoalWithReviewer. ok_tac. Qed.
#[local] Hint Resolve failOnStepLimitForInput_ok verifyGoalWithReviewer_ok : moves.
Lemma evaluate_ok input condition :
  triple turn_ok (EvaluateStopCondition (evaluator env) input condition) (fun _ => turn_ok).
Proof.
  apply triple_sink, EvaluateStopCondition_moves; [split; apply _|]. intros f input' Hf. unfold evaluator in Hf.
  destruct (en_Stop env); [injection Hf as <-|done]. apply quiet_sink, ask_moves. by split.
Qed.
#[local] Hint Resolve evaluate_ok : moves.
Lemma evaluateContinuation_ok inbound opts completed agent effects :
  triple turn_ok (evaluateContinuation env s inbound opts completed agent effects) (fun _ => turn_ok).
Proof. unfold evaluateContinuation. ok_tac. Qed.
Lemma applyTerminalAgentDecision_ok inbound agent effects :
  triple turn_ok (applyTerminalAgentDecision env s inbound agent effects) (fun _ => turn_ok).
Proof. unfold applyTerminalAgentDecision, outbound_result. ok_tac. Qed.
#[local] Hint Resolve evaluateContinuation_ok applyTerminalAgentDecision_ok : moves.
Lemma outer_turn_ok inbound opts history continuation o :
  triple turn_ok (outer_turn env s inbound opts history continuation o) (fun _ => turn_ok).
Proof. unfold outer_turn. ok_tac. Qed.
Lemma finalizeInputResult_ok result : triple turn_ok (finalizeInputResult result) (fun _ => turn_ok).
Proof. apply triple_sink. apply moves_bind; [apply _|apply quiet_sink, note_moves; by split|]. intros _. apply moves_ret, _. Qed.
#[local] Hint Resolve outer_turn_ok finalizeInputResult_ok : moves.
Lemma outer_loop_ok fuel inbound opts history continuation o :
  triple turn_ok (outer_loop env s fuel inbound opts history continuation o) (fun _ => turn_ok).
Proof. revert continuation o. induction fuel as [|n IH]; intros continuation o; cbn [outer_loop]; ok_tac. Qed.
#[local] Hint Resolve outer_loop_ok : moves.

Lemma start_turn_ok : turn_ok (start_turn s []).
Proof. split; [|done|done|done]. intros log' [k Hk]. destruct log'; [done|discriminate Hk]. Qed.

(** C7: An inbound message, when the operations of the session emit no conversation events of their own
    ([quiet_operations]; [noisy_operation] shows that the claim fails otherwise), and whatever else the agent, the store, the
    environment, reactions, the evaluator and the reviewer do: at any moment the conversation items of the appends that have succeeded are a
    well-paired sequence (every result answers an open call, no call is left open); every transcript the
    agent is shown in full is well paired; and when the session has a thread, what was written is exactly
    the transcript the session keeps for the rest of the input. *)
Theorem turn_keeps_conversation invalid fuel replay inbound opts :
  turn_ok (executeInboundInput env s invalid fuel replay inbound opts (start_turn s [])).2.
Proof.
  cut (triple turn_ok (executeInboundInput env s invalid fuel replay inbound opts) (fun _ => turn_ok)).
  { intros H. apply H, start_turn_ok. }
  unfold executeInboundInput. ok_tac.
Qed.
End Quiet.
End Invariant.
