(* ===== verification/SessionBounds.v ===== *)
(** * The turns of an input end

    Which calls the parts of a turn make; the loops of an input end, within the limits of the agent's
    policy. *)

From S2P Require Import Prelude Operation Event Thread ThreadViews ThreadStore Conversation Continuity Projection WorkerText Compaction StateLogic AgentModel Goal GoalOps SessionData SessionItems StopCondition SessionTurn SessionLoop.

Section Calls.
Context {Assertion Active ReactionRest : Type}.
Context {VJ : ValueJson} {OA : OperationApi} {MR : ModelRenderable} {LC : LowerCase} {ST : SessionTexts} {RD : ResultData}
  {GX : GoalTexts} {GF : GoFmt}.
Abbreviation SEnv := (Env (Assertion := Assertion) (Active := Active) (ReactionRest := ReactionRest)).
Context (env : SEnv) (s : Session).
Implicit Types (t : Turn) (log : list Call).

(** ** The calls of a computation *)

Definition is_step (c : Call) : bool := match c with Stepped _ _ _ _ _ => true | _ => false end.
Definition is_operation (c : Call) : bool := match c with Operated _ _ _ _ _ => true | _ => false end.
Definition not_step (c : Call) : Prop := is_step c = false.
(** Neither the agent nor an operation runs. *)
Definition plain (c : Call) : Prop := is_step c = false /\ is_operation c = false.

Definition grows (P : Call -> Prop) t t' : Prop := exists l, tu_Log t' = tu_Log t ++ l /\ Forall P l.
#[export] Instance grows_preorder P : PreOrder (grows P).
Proof.
  split.
  - intros t. exists []. by rewrite app_nil_r; split; [|constructor].
  - intros t1 t2 t3 (l1 & E1 & H1) (l2 & E2 & H2). exists (l1 ++ l2). rewrite E2, E1, app_assoc. split; [done|by apply Forall_app].
Qed.
Lemma grows_weaken {A} (P P' : Call -> Prop) (m : St Turn A) :
  (forall c, P c -> P' c) -> moves (grows P) m -> moves (grows P') m.
Proof.
  intros H Hm. eapply moves_weaken; [exact Hm|]. intros w w' (l & E & Hl). exists l. split; [done|]. by eapply Forall_impl; [exact Hl|].
Qed.
Lemma plain_not_step {A} (m : St Turn A) : moves (grows plain) m -> moves (grows not_step) m.
Proof. apply grows_weaken. by intros c []. Qed.

Lemma note_grows (P : Call -> Prop) c : P c -> moves (grows P) (note c).
Proof. intros H. apply moves_modify. intros t. exists [c]. auto. Qed.
Lemma ask_grows (P : Call -> Prop) {A} (answer : list Call -> A) (entry : A -> Call) :
  (forall a, P (entry a)) -> moves (grows P) (ask answer entry).
Proof. intros H t. eexists. split; [reflexivity|]. by constructor. Qed.
Lemma modify_grows (P : Call -> Prop) (f : Turn -> Turn) : (forall t, tu_Log (f t) = tu_Log t) -> moves (grows P) (st_modify f).
Proof. intros H. apply moves_modify. intros t. exists []. rewrite H, app_nil_r. by split; [|constructor]. Qed.
#[local] Hint Extern 1 (moves _ (note _)) => (apply note_grows; by split) : moves.
#[local] Hint Extern 1 (moves _ (emitLive _)) => (apply note_grows; by split) : moves.
#[local] Hint Extern 1 (moves _ (ask _ _)) => (apply ask_grows; by repeat first [intros [] | split]) : moves.
#[local] Hint Extern 1 (moves _ (st_modify _)) => (apply modify_grows; done) : moves.
#[local] Hint Extern 3 (moves (grows not_step) _) => apply plain_not_step : moves.

Lemma Emit_plain e : moves (grows plain) (Emit s e).
Proof.
  unfold Emit. moves_tac. apply modify_grows. intros t. destruct (tu_Err t); [done|]. by destruct e as [| | | | | | |[]| | | | |].
Qed.
#[local] Hint Resolve Emit_plain : moves.
Lemma emit_all_plain events : moves (grows plain) (emit_each s events).
Proof. induction events; cbn; moves_tac. Qed.
#[local] Hint Resolve emit_all_plain : moves.
Lemma emit_live_all_plain events : moves (grows plain) (emit_live_all events).
Proof. induction events; cbn; moves_tac. Qed.
Lemma ask_emitting_grows (P : Call -> Prop) {A} (answer : list Call -> list SessionEvent * A) entry :
  (forall events a, P (entry events a)) -> (forall c, plain c -> P c) -> moves (grows P) (ask_emitting s answer entry).
Proof.
  intros H HP. unfold ask_emitting. apply moves_bind; [apply _|apply ask_grows; intros []; apply H|]. intros [events a].
  apply moves_bind; [apply _|by apply grows_weaken with (2 := emit_all_plain events)|]. intros. apply moves_ret, _.
Qed.
#[local] Hint Extern 2 (moves (grows plain) (ask_emitting _ _ _)) => (apply ask_emitting_grows; [by split|done]) : moves.
#[local] Hint Extern 2 (moves (grows not_step) (ask_emitting _ _ _)) => (apply ask_emitting_grows; [done|by intros c []]) : moves.
#[local] Hint Resolve emit_live_all_plain : moves.

Lemma retry_append_plain attempts last records : moves (grows plain) (retry_append env attempts last records).
Proof. revert last. induction attempts as [|n IH]; intros last; cbn [retry_append]; moves_tac. Qed.
#[local] Hint Resolve retry_append_plain : moves.
Lemma appendThreadRecords_plain records : moves (grows plain) (appendThreadRecords env s records).
Proof. unfold appendThreadRecords. moves_tac. Qed.
#[local] Hint Resolve appendThreadRecords_plain : moves.
Lemma appendThreadEvents_plain events : moves (grows plain) (appendThreadEvents env s events).
Proof. unfold appendThreadEvents. moves_tac. Qed.
#[local] Hint Resolve appendThreadEvents_plain : moves.
Lemma flush_plain turnID extra events : moves (grows plain) (FlushWithTranscriptItems env s turnID extra events).
Proof. unfold FlushWithTranscriptItems, appendConversationAndEvents. moves_tac. Qed.
Lemma transcriptForPending_plain pending items handle : moves (grows plain) (transcriptForPending env s pending items handle).
Proof. unfold transcriptForPending. moves_tac. Qed.
Lemma materializeContext_plain inbound pending observations active :
  moves (grows plain) (materializeContext env s inbound pending observations active).
Proof. unfold materializeContext. moves_tac. Qed.
Lemma commitContextRender_plain r : moves (grows plain) (commitContextRender env s r).
Proof. unfold commitContextRender. moves_tac. Qed.
Lemma replace_oversized_plain code details effect : moves (grows plain) (replace_oversized env code details effect).
Proof. unfold replace_oversized. moves_tac. Qed.
Lemma phase_and_react_plain phase l : moves (grows plain) (phase_and_react env s phase l).
Proof. unfold phase_and_react. moves_tac. Qed.
#[local] Hint Resolve flush_plain transcriptForPending_plain materializeContext_plain commitContextRender_plain replace_oversized_plain
  phase_and_react_plain : moves.
Lemma answered_plain inp l agent items : moves (grows plain) (answered env s inp l agent items).
Proof. unfold answered. moves_tac. Qed.
Lemma operationBoundaryResult_plain inbound agent effects err :
  moves (grows plain) (operationBoundaryResult env s inbound agent effects err).
Proof. unfold operationBoundaryResult. moves_tac. Qed.
Lemma currentGoalState_plain : moves (grows plain) (currentGoalState env s).
Proof. unfold currentGoalState. moves_tac. Qed.
#[local] Hint Resolve answered_plain operationBoundaryResult_plain currentGoalState_plain : moves.
Lemma effective_policy_plain opts : moves (grows plain) (effective_policy env s opts).
Proof. unfold effective_policy. moves_tac. Qed.
#[local] Hint Resolve effective_policy_plain : moves.
Lemma failOnStepLimitForInput_plain opts : moves (grows plain) (failOnStepLimitForInput env s opts).
Proof. unfold failOnStepLimitForInput. moves_tac. Qed.
Lemma verifyGoalWithReviewer_plain inbound state : moves (grows plain) (verifyGoalWithReviewer env s inbound state).
Proof. unfold verifyGoalWithReviewer. moves_tac. Qed.
Lemma evaluate_plain input condition : moves (grows plain) (EvaluateStopCondition (evaluator env) input condition).
Proof.
  apply EvaluateStopCondition_moves; [apply _|]. intros f input' Hf. unfold evaluator in Hf. destruct (en_Stop env); [injection Hf as <-|done].
  moves_tac.
Qed.
#[local] Hint Resolve failOnStepLimitForInput_plain verifyGoalWithReviewer_plain evaluate_plain : moves.
Lemma evaluateContinuation_plain inbound opts completed agent effects :
  moves (grows plain) (evaluateContinuation env s inbound opts completed agent effects).
Proof. unfold evaluateContinuation. moves_tac. Qed.
Lemma applyTerminalAgentDecision_plain inbound agent effects :
  moves (grows plain) (applyTerminalAgentDecision env s inbound agent effects).
Proof. unfold applyTerminalAgentDecision, outbound_result. moves_tac. Qed.
Lemma finalizeInputResult_plain result : moves (grows plain) (finalizeInputResult result).
Proof. unfold finalizeInputResult. moves_tac. Qed.
#[local] Hint Resolve evaluateContinuation_plain applyTerminalAgentDecision_plain finalizeInputResult_plain : moves.

(** Operations run, but not the agent. *)
Lemma applyProjectedOperation_not_step tools op input callID :
  moves (grows not_step) (applyProjectedOperation env s tools op input callID).
Proof. unfold applyProjectedOperation. moves_tac. Qed.
#[local] Hint Resolve applyProjectedOperation_not_step : moves.
Lemma apply_requests_not_step run tools start i requests active batch :
  moves (grows not_step) (apply_requests env s run tools start i requests active batch).
Proof. revert i active batch. induction requests as [|r requests IH]; intros i active batch; cbn [apply_requests]; moves_tac. Qed.
Lemma run_checks_not_step run start checks effects : moves (grows not_step) (run_checks env s run start checks effects).
Proof. revert effects. induction checks as [|[check path] checks IH]; intros effects; cbn [run_checks]; moves_tac. Qed.
#[local] Hint Resolve apply_requests_not_step run_checks_not_step : moves.
Lemma requested_not_step inp l tools agent items : moves (grows not_step) (requested env s inp l tools agent items).
Proof. unfold requested, applyAgentOperations, applyPostEditChecks. moves_tac. Qed.
#[local] Hint Resolve requested_not_step : moves.

(** ** How often the agent is called *)

Definition steps log : nat := length (List.filter is_step log).
Definition spends (n : nat) t t' : Prop := steps (tu_Log t') <= steps (tu_Log t) + n.
Lemma steps_app l1 l2 : steps (l1 ++ l2) = steps l1 + steps l2.
Proof. unfold steps. by rewrite List.filter_app, length_app. Qed.
Lemma spends_bind {A B} n k N (m : St Turn A) (f : A -> St Turn B) :
  moves (spends n) m -> (forall a, moves (spends k) (f a)) -> n + k <= N -> moves (spends N) (st_bind m f).
Proof.
  intros Hm Hf HN w. unfold st_bind. specialize (Hm w). destruct (m w) as [a w']. specialize (Hf a w'). unfold spends in *. cbn in *. lia.
Qed.
Lemma spends_weaken {A} n N (m : St Turn A) : moves (spends n) m -> n <= N -> moves (spends N) m.
Proof. intros H Hn w. specialize (H w). unfold spends in *. lia. Qed.
Lemma spends_none {A} (m : St Turn A) N : moves (grows not_step) m -> moves (spends N) m.
Proof.
  intros H w. destruct (H w) as (l & E & Hl). unfold spends. rewrite E, steps_app.
  assert (steps l = 0) as ->; [|lia]. unfold steps. clear E. induction Hl as [|c l Hc _ IH]; [done|]. cbn. by rewrite Hc, IH.
Qed.
Lemma spends_free {A B} N (m : St Turn A) (f : A -> St Turn B) :
  moves (grows not_step) m -> (forall a, moves (spends N) (f a)) -> moves (spends N) (st_bind m f).
Proof. intros Hm Hf. by eapply spends_bind with (n := 0); [apply spends_none|exact Hf|]. Qed.

Lemma turn_step_spends inp l : moves (spends 1) (turn_step env s inp l).
Proof.
  unfold turn_step. apply spends_free; [moves_tac|]. intros l'. cbv zeta.
  apply spends_free; [moves_tac|]. intros [[context pending]|msg]; [|by apply spends_none, moves_ret, _].
  apply spends_free; [moves_tac|]. intros t. apply spends_free; [moves_tac|].
  intros [[transcript|e]|]; [|apply spends_none; moves_tac..].
  eapply spends_bind with (n := 1) (k := 0); [|intros agent; apply spends_none; moves_tac|done].
  unfold ask_emitting. eapply spends_bind with (n := 1) (k := 0); [|intros [events a]; apply spends_none; moves_tac|done].
  intros w. unfold spends. cbn -[steps]. by rewrite steps_app.
Qed.
Lemma steps_loop_spends inp n l : moves (spends n) (steps_loop env s inp n l).
Proof.
  revert l. induction n as [|n IH]; intros l; cbn [steps_loop]; [apply spends_none; moves_tac|].
  eapply spends_bind with (n := 1) (k := n); [apply turn_step_spends| |lia].
  intros [[r|l']|]; [apply spends_none; moves_tac|apply IH|apply spends_none; moves_tac].
Qed.
(** What the agent's policy allows a turn. *)
Definition turn_steps : nat := Z.to_nat (Z.max 1 (maxSteps (Some (spec s)))).
Lemma runInnerTurn_spends inp :
  nn_MaxSteps inp = maxSteps (Some (spec s)) -> moves (spends turn_steps) (runInnerTurn env s inp).
Proof.
  intros Hn. unfold runInnerTurn. cbv zeta. apply spends_free; [moves_tac|]. intros l.
  eapply spends_weaken; [apply steps_loop_spends|]. rewrite Hn. unfold turn_steps. destruct (_ <=? _)%Z eqn:E; lia.
Qed.
Lemma outer_turn_spends inbound opts history continuation o :
  moves (spends turn_steps) (outer_turn env s inbound opts history continuation o).
Proof.
  unfold outer_turn. apply spends_free; [moves_tac|]. intros [limit|]; [|by apply spends_none, moves_ret, _].
  eapply spends_bind with (k := 0); [by apply runInnerTurn_spends| |lia]. intros [r|]; apply spends_none; moves_tac.
Qed.

(** ** Continuations *)

(** The limits of the input, of the agent and the default one. *)
Definition continuation_bound (opts : InputOptions) : Z :=
  Z.max (io_MaxContinuations opts) (Z.max (cp_MaxContinuations (tp_Continuation (as_Turns (spec s)))) defaultLLMContinuations).

Lemma returns_get {A} (f : Turn -> A) : returns (st_get f) (fun _ => True).
Proof. done. Qed.
Lemma effective_policy_max opts :
  returns (effective_policy env s opts)
    (fun r => match r with Some (policy, _) => (maxContinuationsForPolicy (Some (spec s)) policy <= continuation_bound opts)%Z | None => True end).
Proof.
  unfold effective_policy. cbv zeta.
  assert (Hinput : (maxContinuationsForPolicy (Some (spec s)) (continuationPolicyForInput opts (spec s)) <= continuation_bound opts)%Z).
  { unfold maxContinuationsForPolicy, maxContinuations, continuationPolicyForInput, continuation_bound, defaultLLMContinuations.
    case_decide; cbn; repeat match goal with |- context [if ?b then _ else _] => destruct b end; lia. }
  destruct (negb _); [by apply returns_ret|]. eapply returns_bind; [apply returns_true|].
  intros [[state|e]|] _; apply returns_ret; [|done..]. destruct (ActiveForContinuation state) eqn:Ea; [|done].
  unfold maxContinuationsForPolicy, continuationPolicyForGoal, continuation_bound, defaultLLMContinuations. rewrite Ea. cbn [negb cp_MaxContinuations].
  repeat case_match; lia.
Qed.
Lemma evaluateContinuation_bound inbound opts completed agent effects :
  returns (evaluateContinuation env s inbound opts completed agent effects)
    (fun r => match r with Some (Continue _ _) => (completed < continuation_bound opts)%Z | _ => True end).
Proof.
  unfold evaluateContinuation. case_decide; [by apply returns_ret|].
  eapply returns_bind; [apply effective_policy_max|]. intros [[policy goal]|] Hmax; [|by apply returns_ret].
  cbv zeta. destruct (blank _); [by apply returns_ret|]. destruct goal as [state|].
  - eapply returns_bind; [apply returns_true|]. intros [r|] _; apply returns_ret; [|done]. cbn. unfold goal_decision.
    destruct r as [reviewed|msg]; [|done]. case_decide; [done|]. destruct (_ <=? _)%Z eqn:E; [done|]. case_decide; [lia|done].
  - eapply returns_bind; [apply returns_true|]. intros r _. apply returns_ret. unfold stop_decision.
    destruct r as [evaluation|e]; [|done]. case_decide; [|done]. destruct (_ <=? _)%Z eqn:E; [done|]. lia.
Qed.
Lemma outer_turn_bound inbound opts history continuation o :
  returns (outer_turn env s inbound opts history continuation o)
    (fun r => match r with Some (inr _) => (continuation < continuation_bound opts)%Z | _ => True end).
Proof.
  unfold outer_turn. eapply returns_bind; [apply returns_true|]. intros [limit|] _; [|by apply returns_ret].
  eapply returns_bind; [apply returns_true|]. intros [inner|] _; [|by apply returns_ret].
  destruct (ne_Result inner); [by apply returns_ret|]. cbv zeta.
  eapply returns_bind; [apply evaluateContinuation_bound|]. intros [[| |]|] H; try (by apply returns_ret).
  eapply returns_bind; [apply returns_true|]. intros result _. by apply returns_ret.
Qed.

Lemma spends_bind_returns {A B} n k N (m : St Turn A) (f : A -> St Turn B) (Q : A -> Prop) :
  moves (spends n) m -> returns m Q -> (forall a, Q a -> moves (spends k) (f a)) -> n + k <= N -> moves (spends N) (st_bind m f).
Proof.
  intros Hm HQ Hf HN w. unfold st_bind. specialize (Hm w). specialize (HQ w). destruct (m w) as [a w']. specialize (Hf a HQ w').
  unfold spends in *. cbn in *. lia.
Qed.
Lemma outer_loop_spends fuel inbound opts history continuation o :
  (continuation <= continuation_bound opts)%Z ->
  moves (spends (Z.to_nat (continuation_bound opts - continuation + 1) * turn_steps))
    (outer_loop env s fuel inbound opts history continuation o).
Proof.
  revert continuation o. induction fuel as [|fuel IH]; intros continuation o Hc; cbn [outer_loop]; [apply spends_none; moves_tac|].
  eapply spends_bind_returns with (k := Z.to_nat (continuation_bound opts - continuation) * turn_steps);
    [apply outer_turn_spends|apply outer_turn_bound| |].
  - intros [[result|o']|] H; [apply spends_none; moves_tac| |apply spends_none; moves_tac].
    eapply spends_weaken; [apply IH; lia|]. apply Nat.mul_le_mono_r. lia.
  - replace (Z.to_nat (continuation_bound opts - continuation + 1)) with (S (Z.to_nat (continuation_bound opts - continuation))) by lia. lia.
Qed.

(** ** Ends *)

(** What is read of the thread is what its store keeps: the view of a stream the store wrote, at some
    branch. *)
Definition reads_stored : Prop := forall log snapshot, en_Read env log = Ok snapshot ->
  exists id recs b, history id recs /\ snapshot = (projectSnapshot id recs) <| sn_BranchID := b |>.

Section Ends.
Hypothesis Hreads : reads_stored.
Definition ends {A} (m : St Turn (option A)) : Prop := returns m is_Some.
Lemma ends_some {A} (a : A) : ends (st_ret (Some a)).
Proof. by apply returns_ret. Qed.
Lemma ends_bind {A B} (m : St Turn A) (k : A -> St Turn (option B)) : (forall a, ends (k a)) -> ends (st_bind m k).
Proof. intros H. eapply returns_bind; [apply returns_true|]. intros a _. apply H. Qed.
Lemma ends_option {A B} (m : St Turn (option A)) (k : option A -> St Turn (option B)) :
  ends m -> (forall a, ends (k (Some a))) -> ends (st_bind m k).
Proof. intros Hm H. eapply returns_bind; [exact Hm|]. intros a [x ->]. apply H. Qed.
Lemma read_ends {B} (k : Result ThreadError (Snapshot SessionEvent) -> St Turn (option B)) :
  (forall e, ends (k (Err e))) ->
  (forall id recs b, history id recs -> ends (k (Ok ((projectSnapshot id recs) <| sn_BranchID := b |>)))) ->
  ends (st_bind (ask (en_Read env) ReadThread) k).
Proof.
  intros He Hk w. unfold st_bind, ask. cbn -[update_field]. destruct (en_Read env (tu_Log w)) as [snapshot|e] eqn:E; [|apply He].
  destruct (Hreads _ _ E) as (id & recs & b & Hh & ->). by apply Hk.
Qed.
Lemma stored_view_ends id (recs : list (EventRecord (ThreadEvent SessionEvent))) b b' fuel x :
  history id recs -> fuel = branch_fuel ((projectSnapshot id recs) <| sn_BranchID := b |>) ->
  EventsForBranch fuel ((projectSnapshot id recs) <| sn_BranchID := b' |>) x <> None.
Proof.
  intros Hh ->. set (b2 := if decide ((if decide (x = emp) then b' else x) = emp) then MainBranch else (if decide (x = emp) then b' else x)).
  assert (Hb2 : b2 <> emp) by (subst b2; case_decide; [discriminate|done]).
  assert (E : EventsForBranch (branch_fuel (projectSnapshot id recs)) ((projectSnapshot id recs) <| sn_BranchID := b' |>) x =
              EventsForBranch (branch_fuel (projectSnapshot id recs)) (projectSnapshot id recs) b2).
  { unfold EventsForBranch. rewrite (decide_False (P := b2 = emp)) by done. cbv zeta. rewrite (decide_False (P := b2 = emp)) by done. done. }
  change (branch_fuel ((projectSnapshot id recs) <| sn_BranchID := b |>)) with (branch_fuel (projectSnapshot id recs)).
  rewrite E, (branch_views_same _ _ _ _ Hh (reflexivity _)). done.
Qed.
Lemma transcriptForPending_ends pending items handle : ends (transcriptForPending env s pending items handle).
Proof.
  unfold transcriptForPending. destruct (negb _); [apply ends_some|]. apply read_ends; [intros []; apply ends_some|].
  intros id recs b Hh. apply returns_ret. unfold ProjectTranscript, replay. cbn [pj_Thread pj_BranchID].
  pose proof (stored_view_ends id recs b b _ (ref_BranchID (ss_Thread s)) Hh eq_refl) as He.
  destruct (EventsForBranch _ _ _) as [[records|e]|]; [|by eexists|done]. destruct (fold_left _ _ _).
  cbv zeta. destruct (ValidateContinuity _ _); [by eexists|]. cbn. repeat case_match; by eexists.
Qed.
Lemma currentGoalState_ends : ends (currentGoalState env s).
Proof.
  unfold currentGoalState. destruct (negb _); [apply ends_some|]. apply read_ends; [intros; apply ends_some|].
  intros id recs b Hh. apply returns_ret. cbv zeta. case_decide.
  - pose proof (stored_view_ends id recs b b _ b Hh eq_refl) as He. unfold ProjectThread. cbn [sn_BranchID update_field].
    destruct (EventsForBranch _ _ _) as [[records|e]|]; eauto. done.
  - pose proof (stored_view_ends id recs b (ref_BranchID (ss_Thread s)) _ (ref_BranchID (ss_Thread s)) Hh eq_refl) as He.
    unfold ProjectThread. cbn [sn_BranchID update_field]. unfold branch_fuel in *. cbn [sn_Branches update_field] in *.
    destruct (EventsForBranch _ _ _) as [[records|e]|] in He |- *; eauto. done.
Qed.
#[local] Hint Resolve transcriptForPending_ends currentGoalState_ends : ends.
(** Takes a computation apart: only the calls that may not end are looked at. *)
Ltac ends_step :=
  lazymatch goal with
  | |- ends (st_ret _) => apply returns_ret; repeat case_match; by eexists
  | |- ends (st_bind _ _) => first [apply ends_option; [solve [eauto with ends]|intros ?] | apply ends_bind; intros ?]
  | |- ends (match ?x with _ => _ end) => destruct x
  | |- ends _ => solve [eauto with ends]
  end.
Ltac ends_tac := repeat (cbv zeta; ends_step).

Lemma turn_step_ends inp l : ends (turn_step env s inp l).
Proof. unfold turn_step. ends_tac. Qed.
#[local] Hint Resolve turn_step_ends : ends.
Lemma steps_loop_ends inp n l : ends (steps_loop env s inp n l).
Proof. revert l. induction n as [|n IH]; intros l; cbn [steps_loop]; ends_tac. Qed.
#[local] Hint Resolve steps_loop_ends : ends.
Lemma runInnerTurn_ends inp : ends (runInnerTurn env s inp).
Proof. unfold runInnerTurn. ends_tac. Qed.
Lemma effective_policy_ends opts : ends (effective_policy env s opts).
Proof. unfold effective_policy. ends_tac. Qed.
#[local] Hint Resolve runInnerTurn_ends effective_policy_ends : ends.
Lemma failOnStepLimitForInput_ends opts : ends (failOnStepLimitForInput env s opts).
Proof. unfold failOnStepLimitForInput. ends_tac. Qed.
Lemma verifyGoalWithReviewer_ends inbound state : ends (verifyGoalWithReviewer env s inbound state).
Proof. unfold verifyGoalWithReviewer. ends_tac. Qed.
#[local] Hint Resolve failOnStepLimitForInput_ends verifyGoalWithReviewer_ends : ends.
Lemma evaluateContinuation_ends inbound opts completed agent effects :
  ends (evaluateContinuation env s inbound opts completed agent effects).
Proof. unfold evaluateContinuation. ends_tac. Qed.
#[local] Hint Resolve evaluateContinuation_ends : ends.
Lemma outer_turn_ends inbound opts history continuation o : ends (outer_turn env s inbound opts history continuation o).
Proof. unfold outer_turn. ends_tac. Qed.
Lemma outer_loop_ends fuel inbound opts history continuation o :
  (continuation <= continuation_bound opts < continuation + Z.of_nat fuel)%Z ->
  ends (outer_loop env s fuel inbound opts history continuation o).
Proof.
  revert continuation o. induction fuel as [|fuel IH]; intros continuation o Hc; cbn [outer_loop]; [lia|].
  eapply returns_bind with (P := fun r => is_Some r /\ match r with Some (inr _) => (continuation < continuation_bound opts)%Z | _ => True end).
  { intros w. split; [apply outer_turn_ends|apply outer_turn_bound]. }
  intros a [[[result|o'] ->] H]; [apply ends_bind; intros; apply ends_some|]. apply IH. lia.
Qed.
End Ends.

Lemma input_ends invalid fuel replay inbound opts :
  reads_stored -> (continuation_bound opts < Z.of_nat fuel)%Z -> ends (executeInboundInput env s invalid fuel replay inbound opts).
Proof.
  intros Hreads Hfuel. assert (Hpos : (0 <= continuation_bound opts)%Z) by (unfold continuation_bound, defaultLLMContinuations; lia).
  unfold executeInboundInput. destruct (Inbound_Validate _ _); [apply ends_some|].
  destruct (ib_Kind inbound), (ib_Message inbound) as [message|], (re_History replay) as [history|msg]; try apply ends_some.
  apply ends_bind. intros [e|]; [apply ends_some|]. destruct (re_Skills replay); [apply ends_some|].
  destruct (re_Reactions replay); [|apply ends_some]. cbv zeta. apply ends_bind. intros l. apply outer_loop_ends; [done|lia].
Qed.

(** C9: An inbound message is answered, whatever the agent, operations, reactions, evaluator and reviewer
    do: with more turns of fuel than the continuations its policy allows there is a result, and the agent
    is called at most [max_steps] times in each of these turns. *)
Theorem turn_ends invalid fuel replay inbound opts log :
  reads_stored -> (continuation_bound opts < Z.of_nat fuel)%Z ->
  exists result t', executeInboundInput env s invalid fuel replay inbound opts (start_turn s log) = (Some result, t') /\
    steps (tu_Log t') <= steps log + Z.to_nat (continuation_bound opts + 1) * turn_steps.
Proof.
  intros Hreads Hfuel.
  assert (Hpos : (0 <= continuation_bound opts)%Z) by (unfold continuation_bound, defaultLLMContinuations; lia).
  pose proof (input_ends invalid fuel replay inbound opts Hreads Hfuel) as He.
  assert (Hs : moves (spends (Z.to_nat (continuation_bound opts + 1) * turn_steps)) (executeInboundInput env s invalid fuel replay inbound opts)).
  { unfold executeInboundInput. destruct (Inbound_Validate _ _); [apply spends_none; moves_tac|].
    destruct (ib_Kind inbound), (ib_Message inbound) as [message|], (re_History replay) as [history|msg]; try solve [apply spends_none; moves_tac].
    apply spends_free; [moves_tac|]. intros [e|]; [apply spends_none; moves_tac|]. destruct (re_Skills replay); [apply spends_none; moves_tac|].
    destruct (re_Reactions replay); [|apply spends_none; moves_tac]. cbv zeta. apply spends_free; [moves_tac|]. intros l.
    eapply spends_weaken; [by apply outer_loop_spends|]. by rewrite Z.sub_0_r. }
  destruct (executeInboundInput env s invalid fuel replay inbound opts (start_turn s log)) as [r t'] eqn:E.
  specialize (He (start_turn s log)). specialize (Hs (start_turn s log)). unfold spends in Hs. rewrite E in He, Hs. destruct He as [result Hr]. cbn in Hr. subst r.
  exists result, t'. split; [done|exact Hs].
Qed.
End Calls.

#[export] Hint Extern 1 (moves _ (note _)) => (apply note_grows; by split) : moves.
#[export] Hint Extern 1 (moves _ (emitLive _)) => (apply note_grows; by split) : moves.
#[export] Hint Extern 1 (moves _ (ask _ _)) => (apply ask_grows; by repeat first [intros [] | split]) : moves.
#[export] Hint Extern 1 (moves _ (st_modify _)) => (apply modify_grows; done) : moves.
#[export] Hint Extern 2 (moves (grows plain) (ask_emitting _ _ _)) => (apply ask_emitting_grows; [by split|done]) : moves.
#[export] Hint Resolve emit_live_all_plain appendThreadEvents_plain flush_plain transcriptForPending_plain materializeContext_plain
  commitContextRender_plain replace_oversized_plain phase_and_react_plain answered_plain operationBoundaryResult_plain
  failOnStepLimitForInput_plain evaluateContinuation_plain applyTerminalAgentDecision_plain finalizeInputResult_plain emit_all_plain : moves.
