(* ===== verification/SessionGate.v ===== *)
(** * What an agent may run

    Operations of a turn are recorded in the thread before they run, and are among those projected to
    the step that asked for them. *)

From S2P Require Import Prelude Operation Event Thread ThreadViews ThreadStore Conversation Continuity Projection WorkerText Compaction StateLogic AgentModel Goal GoalOps SessionData SessionItems StopCondition SessionTurn SessionLoop SessionBounds.

Section Gate.
Context {Assertion Active ReactionRest : Type}.
Context {VJ : ValueJson} {OA : OperationApi} {MR : ModelRenderable} {LC : LowerCase} {ST : SessionTexts} {RD : ResultData}
  {GX : GoalTexts} {GF : GoFmt}.
Abbreviation SEnv := (Env (Assertion := Assertion) (Active := Active) (ReactionRest := ReactionRest)).
Context (env : SEnv) (s : Session).
Implicit Types (t : Turn) (log : list Call) (tools : option (list ToolSpec)).

(** The tools the agent was given when it was last called. *)
Definition tools_after (last : option (option (list ToolSpec))) (c : Call) : option (option (list ToolSpec)) :=
  match c with Stepped _ _ tools _ _ => Some tools | _ => last end.
Definition last_tools log : option (option (list ToolSpec)) := fold_left tools_after log None.
Definition may_run tools (op : OpRef) : Prop :=
  match tools with None => True | Some tools => operationProjected tools op = true end \/ op ∈ pe_Operation <$> ss_PostEditChecks s.
(** An append that succeeded has recorded that the operation is to run. *)
Definition recorded log (op : OpRef) (input : Value) (callID : string) : Prop :=
  exists records run, Appended records None ∈ log /\
    session_record (ref_ID (ss_Thread s)) (OperationRequested run callID op input) ∈ records.
Definition run_ok log (c : Call) : Prop :=
  match c with
  | Operated op input callID _ _ =>
      (threaded s = true -> recorded log op input callID) /\ exists tools, last_tools log = Some tools /\ may_run tools op
  | _ => True
  end.
Definition gated log : Prop := forall before c, before ++ [c] `prefix_of` log -> run_ok before c.
Definition gate tools t : Prop := gated (tu_Log t) /\ last_tools (tu_Log t) = Some tools.

Lemma gated_snoc log c : gated log -> run_ok log c -> gated (log ++ [c]).
Proof.
  intros Hg Hc before c' [k Hk]. destruct k as [|x k _] using rev_ind.
  - rewrite app_nil_r in Hk. by apply app_inj_tail in Hk as [-> ->].
  - rewrite app_assoc in Hk. apply app_inj_tail in Hk as [-> _]. apply Hg. by exists k.
Qed.
Lemma gated_plain log l : gated log -> Forall plain l -> gated (log ++ l).
Proof.
  intros Hg Hl. revert log Hg. induction Hl as [|c l [_ Hc] Hl IH]; intros log Hg; [by rewrite app_nil_r|].
  rewrite (app_assoc log [c] l : log ++ c :: l = _). apply IH, gated_snoc; [done|]. by destruct c.
Qed.
Lemma last_tools_plain log l : Forall plain l -> last_tools (log ++ l) = last_tools log.
Proof.
  intros Hl. unfold last_tools. rewrite fold_left_app. generalize (fold_left tools_after log None). intros acc.
  induction Hl as [|c l [Hc _] _ IH]; [done|]. cbn. by destruct c.
Qed.
Lemma gated_moves {A} (m : St Turn A) :
  moves (grows plain) m -> triple (fun t => gated (tu_Log t)) m (fun _ t => gated (tu_Log t)).
Proof. intros H. eapply triple_moves; [exact H|]. intros w w' Hg (l & -> & Hl). by apply gated_plain. Qed.
Lemma gate_moves {A} tools (m : St Turn A) : moves (grows plain) m -> triple (gate tools) m (fun _ => gate tools).
Proof.
  intros H. eapply triple_moves; [exact H|]. intros w w' [Hg Ht] (l & E & Hl). unfold gate. rewrite E, last_tools_plain by done.
  by split; [apply gated_plain|].
Qed.

(** ** Recording, then running *)

Lemma retry_append_records attempts last records tools :
  (attempts <> 0 \/ last <> None) ->
  triple (gate tools) (retry_append env attempts last records)
    (fun err t => gate tools t /\ (err = None -> Appended records None ∈ tu_Log t)).
Proof.
  revert last. induction attempts as [|n IH]; intros last Hlast; cbn [retry_append].
  - apply triple_ret. intros w Hw. split; [done|]. destruct Hlast; [done|done].
  - eapply triple_bind with (R := fun err t => gate tools t /\ (err = None -> Appended records None ∈ tu_Log t)).
    + intros t Ht. split; [apply (gate_moves tools (ask (fun log => en_Append env log records) (Appended records))); [moves_tac|done]|].
      intros E. cbn in E |- *. rewrite E. apply elem_of_app. right. by left.
    + intros [e|]; [|by apply triple_ret]. destruct (thread_conflict e); [|apply triple_ret; by intros w []].
      eapply triple_pre; [apply IH; by right|]. by intros w [].
Qed.
Lemma request_recorded run callID op input tools :
  triple (gate tools) (appendThreadEvents env s [OperationRequested run callID op input])
    (fun err t => gate tools t /\ (err = None -> threaded s = true -> recorded (tu_Log t) op input callID)).
Proof.
  unfold appendThreadEvents, appendThreadRecords. destruct (threaded s); cbn [negb orb ThreadAppendRecords map].
  - eapply triple_post; [apply retry_append_records; by left|]. intros err t [Hg Ha]. split; [done|]. intros Herr _.
    eexists _, run. split; [by apply Ha|]. by left.
  - apply triple_ret. intros w Hw. by split; [|intros _ ?].
Qed.
Lemma recorded_grows {A} (P : Call -> Prop) (m : St Turn A) op input callID :
  moves (grows P) m -> triple (fun t => recorded (tu_Log t) op input callID) m (fun _ t => recorded (tu_Log t) op input callID).
Proof.
  intros H. eapply triple_moves; [exact H|]. intros w w' (records & run & Hin & Hr) (l & E & _). exists records, run.
  rewrite E. split; [apply elem_of_app; by left|done].
Qed.
(** The state in which the operation may run. *)
Definition ready tools (op : OpRef) (input : Value) (callID : string) t : Prop :=
  gate tools t /\ (threaded s = true -> recorded (tu_Log t) op input callID).
Lemma ready_moves {A} tools op input callID (m : St Turn A) :
  moves (grows plain) m -> triple (ready tools op input callID) m (fun _ => ready tools op input callID).
Proof.
  intros H w [Hg Hr]. split; [by apply gate_moves|]. intros Ht. by apply (recorded_grows plain m op input callID H w), Hr.
Qed.
Lemma operation_gated tools op input callID :
  may_run tools op ->
  triple (ready tools op input callID)
    (ask_emitting s (fun log => en_Operation env log op input callID) (Operated op input callID)) (fun _ => gate tools).
Proof.
  intros Hmay. unfold ask_emitting. eapply triple_bind with (R := fun _ => gate tools).
  - intros t [[Hg Ht] Hr]. unfold gate, ask. cbn -[last_tools]. split; [|unfold last_tools in *; by rewrite fold_left_app].
    apply gated_snoc; [done|]. split; [done|]. by exists tools.
  - intros [events a]. apply gate_moves. moves_tac.
Qed.
Lemma applyProjectedOperation_gated tools op input callID :
  triple (ready tools op input callID) (applyProjectedOperation env s tools op input callID) (fun _ => gate tools).
Proof.
  unfold applyProjectedOperation. destruct tools as [ts|] eqn:Et; [|by apply operation_gated; left].
  destruct (operationProjected ts op) eqn:Ep; [apply operation_gated; by left|]. apply triple_ret. by intros w [].
Qed.
Lemma apply_requests_gated run tools start i requests active batch :
  triple (gate tools) (apply_requests env s run tools start i requests active batch) (fun _ => gate tools).
Proof.
  revert i active batch. induction requests as [|r requests IH]; intros i active batch; cbn [apply_requests]; [by apply triple_ret|].
  cbv zeta. eapply triple_bind; [apply request_recorded|]. intros [e|]; [apply triple_ret; by intros w []|].
  eapply triple_bind with (R := fun _ => ready tools (oq_Operation r) (oq_Input r) (operationCallID run (start + i + 1))).
  { eapply triple_pre; [apply ready_moves; moves_tac|]. intros w [Hg Hr]. split; auto. }
  intros _. eapply triple_bind; [apply applyProjectedOperation_gated|]. intros effect.
  eapply triple_bind; [apply gate_moves; moves_tac|]. intros effect'. apply IH.
Qed.
Lemma run_checks_gated run tools start checks effects :
  Forall (fun c : PostEditCheck * string => c.1 ∈ ss_PostEditChecks s) checks ->
  triple (gate tools) (run_checks env s run start checks effects) (fun _ => gate tools).
Proof.
  intros H. revert effects. induction H as [|[check path] checks Hc _ IH]; intros effects; cbn [run_checks]; [by apply triple_ret|].
  cbv zeta. eapply triple_bind; [apply request_recorded|]. intros [e|]; [apply triple_ret; by intros w []|].
  eapply triple_bind with (R := fun _ => ready tools (pe_Operation check) (en_CheckInput env (pe_Input check) path)
    (operationCallID run (start + length effects + 1))).
  { eapply triple_pre; [apply ready_moves; moves_tac|]. intros w [Hg Hr]. split; auto. }
  intros _. eapply triple_bind; [apply operation_gated; right; by apply list_elem_of_fmap_2|]. intros effect.
  eapply triple_bind; [apply gate_moves; moves_tac|]. intros effect'.
  eapply triple_bind; [apply gate_moves; moves_tac|]. intros [e|]; [by apply triple_ret|].
  eapply triple_bind; [apply gate_moves; moves_tac|]. intros ?. apply IH.
Qed.
Lemma post_edit_checks_of effects :
  Forall (fun c : PostEditCheck * string => c.1 ∈ ss_PostEditChecks s)
    (flat_map (fun path => map (fun check => (check, path)) (List.filter (fun check => en_CheckMatches env check path) (ss_PostEditChecks s)))
       (postEditPaths effects)).
Proof.
  apply Forall_forall. intros c Hc%list_elem_of_In. apply in_flat_map in Hc as (path & _ & Hc). apply in_map_iff in Hc as (check & <- & Hc).
  apply filter_In in Hc as [Hc _]. by apply list_elem_of_In.
Qed.
Lemma requested_gated inp l tools agent items : triple (gate tools) (requested env s inp l tools agent items) (fun _ => gate tools).
Proof.
  unfold requested, applyAgentOperations, applyPostEditChecks. destruct (de_Operations (gs_Decision agent)) as [|r requests]; [by apply triple_ret|].
  eapply triple_bind; [apply apply_requests_gated|]. intros [[batch active]|e]; [|by apply triple_ret]. cbv zeta.
  eapply triple_bind; [apply run_checks_gated, post_edit_checks_of|]. intros [checks|e]; [|by apply triple_ret].
  apply gate_moves. moves_tac.
Qed.
Lemma turn_step_gated inp l : triple (fun t => gated (tu_Log t)) (turn_step env s inp l) (fun _ t => gated (tu_Log t)).
Proof.
  unfold turn_step. eapply triple_bind; [apply gated_moves; moves_tac|]. intros l'. cbv zeta.
  eapply triple_bind; [apply gated_moves; moves_tac|]. intros [[context pending]|msg]; [|by apply triple_ret].
  eapply triple_bind; [apply gated_moves; moves_tac|]. intros t. eapply triple_bind; [apply gated_moves; moves_tac|].
  intros [[transcript|e]|]; [|by apply triple_ret..].
  eapply triple_bind with (R := fun _ => gate (en_Tools env (rs_Active (lp_Reactions l')))).
  { unfold ask_emitting. eapply triple_bind with (R := fun _ => gate (en_Tools env (rs_Active (lp_Reactions l')))).
    - intros w Hg. unfold gate, ask. cbn -[last_tools]. split; [by apply gated_snoc|]. unfold last_tools. by rewrite fold_left_app.
    - intros [events a]. apply gate_moves. moves_tac. }
  intros agent. eapply triple_post with (Q' := fun _ => gate (en_Tools env (rs_Active (lp_Reactions l')))); [|by intros ? ? []].
  case_decide; [by apply triple_ret|]. eapply triple_bind; [apply gate_moves; moves_tac|]. intros t'.
  destruct (validateOperationRequests _ _); [by apply triple_ret|]. eapply triple_bind; [apply gate_moves; moves_tac|].
  intros [e|]; [by apply triple_ret|]. cbv zeta. eapply triple_bind with (R := fun _ => gate (en_Tools env (rs_Active (lp_Reactions l')))); [|intros r; by apply triple_ret].
  case_decide; [apply requested_gated|apply gate_moves; moves_tac].
Qed.

Ltac gated_step :=
  lazymatch goal with
  | |- triple _ (st_ret _) _ => by apply triple_ret
  | |- triple _ (st_bind _ _) _ => eapply triple_bind with (R := fun _ t => gated (tu_Log t)); [|intros ?]
  | |- triple _ (match ?x with _ => _ end) _ => destruct x
  | |- triple _ _ _ => solve [eauto with gate] || (apply gated_moves; solve [moves_tac])
  end.
Ltac gated_tac := repeat (cbv zeta; gated_step).
Create HintDb gate discriminated.
#[local] Hint Resolve turn_step_gated : gate.

Lemma steps_loop_gated inp n l : triple (fun t => gated (tu_Log t)) (steps_loop env s inp n l) (fun _ t => gated (tu_Log t)).
Proof. revert l. induction n as [|n IH]; intros l; cbn [steps_loop]; gated_tac. Qed.
#[local] Hint Resolve steps_loop_gated : gate.
Lemma outer_loop_gated fuel inbound opts history continuation o :
  triple (fun t => gated (tu_Log t)) (outer_loop env s fuel inbound opts history continuation o) (fun _ t => gated (tu_Log t)).
Proof.
  revert continuation o. induction fuel as [|fuel IH]; intros continuation o; cbn [outer_loop]; unfold outer_turn, runInnerTurn; gated_tac.
Qed.
#[local] Hint Resolve outer_loop_gated : gate.

(** C8: When an operation runs because the agent asked for it in an input, or as one of the session's own checks of
    edited files: in a session with a thread, an append that succeeded has recorded the operation, its
    input and its call identifier before (a session without a thread records nothing); and an operation the
    agent asked for is projected among the tools it was given when it was last called (any operation is, when it
    was given no list of tools). Operations that reactions run are part of the answers of reactions here, and
    not among the runs this is about. *)
Theorem operations_gated invalid fuel replay inbound opts :
  gated (tu_Log (executeInboundInput env s invalid fuel replay inbound opts (start_turn s [])).2).
Proof.
  cut (triple (fun t => gated (tu_Log t)) (executeInboundInput env s invalid fuel replay inbound opts) (fun _ t => gated (tu_Log t))).
  { intros H. apply H. intros before c [k Hk]. by destruct before. }
  unfold executeInboundInput. gated_tac.
Qed.
End Gate.

(** * A session on concrete inputs

    An agent that calls an operation and then answers, a store that refuses the first append, and what
    the theorems about turns say of it. *)

From S2P Require Import MemStore GoalRaces SessionItems SessionInvariant.

Module SessionDemo.
Export DemoApi GoalDemo.
#[export] Instance demo_json : ValueJson := { json_text _ := "{}"%string }.
#[export] Instance demo_renderable : ModelRenderable := { ModelText _ := None; error_object e := VString (err_Message e) }.
#[export] Instance demo_texts : SessionTexts := { inbound_error_text _ := "inbound"%string; thread_text _ := "thread"%string;
  conversation_text _ := "conversation"%string; request_text _ := "request"%string; stop_error_text _ := "stop"%string }.
#[export] Instance demo_data : ResultData :=
  { file_edit_data _ := None; replacement_of _ := None; replacement_value _ := VNil }.

Abbreviation DemoEnv := (Env (Assertion := unit) (Active := unit) (ReactionRest := unit)).

(** What the store keeps of the appends: the thread, then the records of each append that succeeded. *)
Definition created : EventRecord (ThreadEvent SessionEvent) :=
  mkRecord "r" "thread.created" 5 (mkScope "t" emp emp) (ThreadCreated "t" "main" ∅ 5 zero_Source) {[ attrBranchID := "main"%string ]}.
Definition stored_record (r : SessionRecord) : list (EventRecord (ThreadEvent SessionEvent)) :=
  match rec_Payload (ar_Event r) with
  | OtherEvent name e => [mkRecord "r" name 5 (mkScope "t" emp emp) (OtherEvent name e) {[ attrBranchID := MainBranch ]}]
  | _ => []
  end.
Definition stored_call (c : Call) : list (EventRecord (ThreadEvent SessionEvent)) :=
  match c with Appended records None => records ≫= stored_record | _ => [] end.
Definition stored (log : list Call) : list (EventRecord (ThreadEvent SessionEvent)) := created :: (log ≫= stored_call).
Definition plain_main (r : EventRecord (ThreadEvent SessionEvent)) : Prop :=
  plain_payload (rec_Payload r) = true /\ record_branch r = MainBranch.
Lemma stored_record_plain r : Forall plain_main (stored_record r).
Proof.
  destruct r as [? ? [? ? ? ? payload ?]]. destruct payload; cbn; constructor; [|constructor]. by split.
Qed.
Lemma stored_history log : history "t" (stored log).
Proof.
  unfold stored. assert (Hplain : Forall plain_main (log ≫= stored_call)).
  { apply Forall_bind, Forall_true. intros c. destruct c as [records [e|]| | | | | | | | | | | |]; cbn; try constructor.
    apply Forall_bind, Forall_true, stored_record_plain. }
  revert Hplain. induction (log ≫= stored_call) as [|r recs IH] using rev_ind; intros Hplain.
  - by apply (history_created "t" created "main" ∅ 5%Z zero_Source).
  - apply Forall_app in Hplain as [H1 H2]. apply Forall_cons in H2 as [[Hp Hb] _]. specialize (IH H1).
    rewrite app_comm_cons. apply history_plain; [done|done|done|]. rewrite Hb. exact (bo_main _ _ (so_branches _ _ _ (history_snapshot_ok _ _ IH))).
Qed.

Definition spec : AgentSpec :=
  mkAgentSpec "coder" (mkObjective emp emp emp) (mkDriver LLMDriverKind ∅ ∅) (mkInference "openai/gpt" ∅)
    (mkTurnPolicy 4 zero_Continuation) [] [] [] [] [] [].
Definition session : Session := mkSession (mkAgent None spec) true (mkRef "t" emp) false [].
Definition me : ProviderIdentity := provider session.
Definition run_op : OpRef := mkOpRef "shell".
Definition tool_call : Item :=
  mkItem me ItemOutput "assistant" emp emp emp emp [mkToolCallRef "call_1" "shell" "function" VNil] VNil emp ∅.
Definition reply : Item := mkItem me ItemOutput "assistant" emp emp emp emp [] (VString "done") emp ∅.
Definition question : Item := inputTranscriptItem me (VString "do it").
Definition writes (items : list Item) : SessionEvent := ConversationWritten (ItemsAppended "turn" me items).
Definition agent_ok (decision : AgentDecision) : AgentStep :=
  mkAgentStep AgentOK decision (mkStateUpdate zero_StateRef emp) None.
(** The first step calls the operation, the second one answers. *)
Definition step (log : list Call) : list SessionEvent * AgentStep :=
  match List.filter is_step log with
  | [] => ([writes [question; tool_call]],
           agent_ok (mkAgentDecision DecisionOperation [mkOperationRequest run_op VNil "call_1" "function"] None None))
  | _ => ([writes [reply]], agent_ok (mkAgentDecision DecisionMessage [] (Some (mkAgentMessage (VString "done") ∅)) None))
  end.
(** The first append meets another writer. *)
Definition append (log : list Call) (records : list SessionRecord) : option ThreadError :=
  match log with [] => Some (ErrEvents (ErrAppendConflict "thread:t" 1 2)) | _ => None end.
Definition env_with (operation : list SessionEvent) : DemoEnv := {|
  en_Append := append;
  en_Read log := Ok ((projectSnapshot "t" (stored log)) <| sn_BranchID := MainBranch |>);
  en_Step log _ _ _ := step log;
  en_Operation _ _ _ _ := (operation, operationEffect (OpOK (VString "output")));
  en_Replace _ _ := Ok None;
  en_Phase _ _ observations assertions := (observations, assertions);
  en_React _ _ reactions observations := ([], (reactions, observations, []));
  en_Context _ _ _ _ := None;
  en_Stop := None;
  en_Review _ _ := None;
  en_ReviewID _ := "review"%string;
  en_Tools _ := Some [mkTool "shell" (Some run_op) []];
  en_LazyWanted _ := false;
  en_Activate _ active := active;
  en_CheckMatches _ _ := false;
  en_CheckInput v _ := v;
  en_AnnotateCheck _ _ r := r
|}.
Definition env : DemoEnv := env_with [].
Definition inbound : Inbound :=
  mkInbound "run" "cli" "c" emp InboundMessage (Some (mkMessage (VString "do it") ∅)) None emp None None None.
Definition demo_replay : Replay (Assertion := unit) (Active := unit) (ReactionRest := unit) :=
  mkReplay (Ok emp) None (Ok (mkReactions tt tt)) false [] [].
Definition options : InputOptions := mkInputOptions emp 0.
Definition final (e : DemoEnv) := executeInboundInput e session (fun _ => None) 4 demo_replay inbound options (start_turn session []).

(** The first append is repeated; the agent is called twice, and the conversation has its four items. *)
Example demo_turn :
  (ir_Status <$> (final env).1) = Some InputStatusOK /\ steps (tu_Log (final env).2) = 2 /\
  map it_Kind (written (tu_Log (final env).2)) = [ItemInput; ItemOutput; ItemToolResult; ItemOutput].
Proof. vm_compute. auto. Qed.
(** An operation that writes to the conversation through the sink of the turn: what the session writes is
    not what it has checked, and the conversation is one it refuses from then on. *)
Example noisy_operation :
  ValidateContinuity (written (tu_Log (final (env_with [writes [reply]])).2)) me = Some (ErrContinuity (OpenBeforeOutput 1) "call_1" 2).
Proof. vm_compute. reflexivity. Qed.

Lemma demo_reads : reads_stored env.
Proof. intros log snapshot [= <-]. exists "t"%string, (stored log), MainBranch. split; [apply stored_history|done]. Qed.
Lemma turn_keeps_conversation_witness :
  quiet_operations env /\ turn_ok session (final env).2 /\ length (written (tu_Log (final env).2)) = 4.
Proof. split; [done|]. split; [by apply turn_keeps_conversation|]. vm_compute. reflexivity. Defined.
Lemma turn_ends_witness :
  reads_stored env /\ (continuation_bound session options < Z.of_nat 4)%Z /\
  exists result t', final env = (Some result, t') /\
    steps (tu_Log t') <= 0 + Z.to_nat (continuation_bound session options + 1) * turn_steps session.
Proof. split; [exact demo_reads|]. split; [done|]. apply turn_ends; [exact demo_reads|done]. Defined.

(** ** Requests and stop conditions *)

Definition request : OperationRequest := mkOperationRequest run_op VNil "call_1" "function".
Lemma requests_exact_witness :
  continuity_loop me 0 [question; tool_call] ∅ = Ok {[ "call_1"%string := 1 ]} /\
  (validateOperationRequests [question; tool_call] [request] = None <->
   (emp ∉ request_ids [request] /\ NoDup (request_ids [request]) /\
    list_to_set (request_ids [request]) = dom ({[ "call_1"%string := 1 ]} : gmap string nat)) \/
   (({[ "call_1"%string := 1 ]} : gmap string nat) = ∅ /\ provider_requests [request] = [])).
Proof. split; [reflexivity|]. by apply requests_exact with (provider := me). Defined.
Definition result_item : Item := operationResultTranscriptItem me request (OpOK (VString "output")).
Lemma results_close_calls_witness :
  continuity_loop me 0 [question; tool_call] ∅ = Ok {[ "call_1"%string := 1 ]} /\
  validateOperationRequests [question; tool_call] [request] = None /\
  Forall2 answers_request (provider_requests [request]) [result_item] /\
  ValidateContinuity ([question; tool_call] ++ [result_item]) me = None.
Proof.
  assert (H : Forall2 answers_request (provider_requests [request]) [result_item]) by by repeat constructor.
  split; [reflexivity|]. split; [reflexivity|]. split; [exact H|].
  by apply (results_close_calls me [question; tool_call] {[ "call_1"%string := 1 ]} [request] [result_item]).
Defined.
Definition verdict (c : StopConditionSpec) : bool := bool_decide (st_Prompt c = "tests pass?"%string).
Definition demo_evaluator : Evaluator (W := unit) := fun input =>
  st_ret (Ok (mkStopEvaluation (if verdict (sx_Condition input) then StopActionContinue else StopActionStop) emp emp)).
Definition condition : StopConditionSpec :=
  mkStopCondition "and" 0 emp emp [mkStopCondition "max-continuations" 3 emp emp [] ∅;
    mkStopCondition "or" 0 emp emp [mkStopCondition "prompt" 0 "done?" emp [] ∅; mkStopCondition "prompt" 0 "tests pass?" emp [] ∅] ∅] ∅.
Definition stop_input (completed : Z) : StopEvaluationInput :=
  mkStopInput spec condition inbound zero_AgentStep [] completed 3.
Lemma stop_condition_formula_witness :
  decides demo_evaluator verdict /\ supported condition = true /\
  gives (EvaluateStopCondition (Some demo_evaluator) (stop_input 2) condition) (wants_more verdict 2 condition) /\
  wants_more verdict 2 condition = true.
Proof.
  assert (H : decides demo_evaluator verdict).
  { intros input w. eexists _, w. split; [reflexivity|]. cbn. by destruct (verdict (sx_Condition input)). }
  split; [exact H|]. split; [reflexivity|]. split; [by apply stop_condition_formula|reflexivity].
Defined.
End SessionDemo.
