(* ===== verification/Usage.v ===== *)
(** * Usage records, their costs and their totals
    (src/core/usage, src/core/llm/pricing.go, src/runtime/usage)

    What was consumed is recorded as measurements of a subject; records are priced, and a tracker adds
    them up. Quantities are binary64 numbers, rounded to nearest. *)

From S2P Require Import Prelude NamedInstance.
From Stdlib Require Import SpecFloat.

(** ** Numbers *)

Definition Float64 : Type := spec_float.
Definition float_add : Float64 -> Float64 -> Float64 := SFadd 53 1024.
Definition float_mul : Float64 -> Float64 -> Float64 := SFmul 53 1024.
Definition float_div : Float64 -> Float64 -> Float64 := SFdiv 53 1024.
Definition float_zero : Float64 := S754_zero false.
(** [float64(n)]. *)
Definition of_int64 (n : Z) : Float64 := binary_normalize 53 1024 n 0 false.

(** ** Records (usage.go) *)

Definition SubjectLLM : string := "llm".
Definition SubjectNetwork : string := "network".
Definition UnitToken : string := "token".
Definition UnitByte : string := "byte".
Definition UnitCurrency : string := "currency".
Definition DirectionInput : string := "input".
Definition DirectionOutput : string := "output".
Definition DirectionCached : string := "cached".
Definition DirectionWrite : string := "write".
Definition DirectionUpload : string := "upload".
Definition DirectionDownload : string := "download".
Definition MetricCost : string := "cost".

Record Subject := mkSubject { sj_Kind : string; sj_Provider : string; sj_Name : string; sj_ID : string; sj_Attributes : gmap string string }.
#[global] Instance rebuild_usage_subject : Rebuild Subject := fun s =>
  mkSubject s.(sj_Kind) s.(sj_Provider) s.(sj_Name) s.(sj_ID) s.(sj_Attributes).
Record Measurement := mkMeasurement {
  me_Metric : string; me_Quantity : Float64; me_Unit : string; me_Direction : string; me_Dimensions : gmap string string }.
#[global] Instance rebuild_Measurement : Rebuild Measurement := fun m =>
  mkMeasurement m.(me_Metric) m.(me_Quantity) m.(me_Unit) m.(me_Direction) m.(me_Dimensions).
Record Recorded := mkRecorded { rc_Source : string; rc_Subject : Subject; rc_Measurements : list Measurement }.
#[global] Instance rebuild_Recorded : Rebuild Recorded := fun r => mkRecorded r.(rc_Source) r.(rc_Subject) r.(rc_Measurements).
(** [Recorded.Empty]. *)
Definition recorded_empty (r : Recorded) : bool := match rc_Measurements r with [] => true | _ => false end.

(** ** Prices (pricing.go, evaluator.go) *)

Record PricingSpec := mkPricing {
  pr_Metric : string; pr_Unit : string; pr_Direction : string; pr_Currency : string; pr_Price : Float64; pr_Per : Float64 }.
Inductive PricingError := PricingMetricEmpty | PricingUnitEmpty | PricingCurrencyEmpty | PricingPer | PricingPrice.
Definition Pricing_Validate (s : PricingSpec) : option PricingError :=
  if blank (pr_Metric s) then Some PricingMetricEmpty
  else if blank (pr_Unit s) then Some PricingUnitEmpty
  else if blank (pr_Currency s) then Some PricingCurrencyEmpty
  else if SFleb (pr_Per s) float_zero then Some PricingPer
  else if SFltb (pr_Price s) float_zero then Some PricingPrice
  else None.

Record CostLine := mkCostLine { cl_Subject : Subject; cl_Measurement : Measurement; cl_Pricing : PricingSpec; cl_Amount : Float64 }.
Record Cost := mkCost { co_Currency : string; co_Total : Float64; co_Lines : list CostLine }.
Definition pricingKey : Type := string * string * string.
Definition pricingIndex (prices : list PricingSpec) : gmap pricingKey PricingSpec :=
  fold_left (fun out price => <[(pr_Metric price, pr_Unit price, pr_Direction price) := price]> out) prices ∅.
(** The price of a measurement: of its direction, else of none. *)
Definition find_price (index : gmap pricingKey PricingSpec) (m : Measurement) : option PricingSpec :=
  match index !! (me_Metric m, me_Unit m, me_Direction m) with
  | Some price => Some price
  | None => index !! (me_Metric m, me_Unit m, emp)
  end.
Definition price_measurement (index : gmap pricingKey PricingSpec) (record : Recorded) (out : Cost) (m : Measurement) : Cost :=
  match find_price index m with
  | Some price =>
      if SFleb (pr_Per price) float_zero then out else
      let amount := float_mul (float_div (me_Quantity m) (pr_Per price)) (pr_Price price) in
      mkCost (if decide (co_Currency out = emp) then pr_Currency price else co_Currency out) (float_add (co_Total out) amount)
        (co_Lines out ++ [mkCostLine (rc_Subject record) m price amount])
  | None => out
  end.
Definition Evaluate (records : list Recorded) (prices : list PricingSpec) : Cost :=
  let index := pricingIndex prices in
  fold_left (fun out record => fold_left (price_measurement index record) (rc_Measurements record) out) records (mkCost emp float_zero []).

(** ** Costs (enrich.go) *)

Definition hasCostMeasurement (record : Recorded) : bool :=
  existsb (fun m => bool_decide (me_Metric m = MetricCost)) (rc_Measurements record).
Definition cost_measurement (cost : Cost) : Measurement :=
  mkMeasurement MetricCost (co_Total cost) UnitCurrency emp
    {[ "currency" := (if decide (co_Currency cost = emp) then "USD" else co_Currency cost); "estimated" := "true" ]}%string.
Definition enrich_record (prices : list PricingSpec) (record : Recorded) : Recorded :=
  if hasCostMeasurement record then record else
  let cost := Evaluate [record] prices in
  if SFleb (co_Total cost) float_zero then record
  else record <| rc_Measurements := rc_Measurements record ++ [cost_measurement cost] |>.
Definition EnrichCosts (records : list Recorded) (prices : list PricingSpec) : list Recorded :=
  match prices with [] => records | _ => enrich_record prices <$> records end.

Lemma enrich_twice prices record : enrich_record prices (enrich_record prices record) = enrich_record prices record.
Proof.
  unfold enrich_record at 2 3. destruct (hasCostMeasurement record) eqn:H; [unfold enrich_record; by rewrite H|].
  destruct (SFleb _ _) eqn:Hc; [unfold enrich_record; by rewrite H, Hc|]. unfold enrich_record, hasCostMeasurement. cbn [rc_Measurements update_field].
  rewrite existsb_app. cbn. by rewrite orb_true_r.
Qed.
Lemma enrich_idempotent records prices : EnrichCosts (EnrichCosts records prices) prices = EnrichCosts records prices.
Proof.
  unfold EnrichCosts. destruct prices as [|p ps]; [done|]. rewrite <- list_fmap_compose. apply list_fmap_ext. intros i r _. apply enrich_twice.
Qed.

(** ** The tracker (tracker.go) *)

Definition subjectKey : Type := string * string * string.
Definition newSubjectKey (s : Subject) : subjectKey := (sj_Kind s, TrimSpace (sj_Provider s), TrimSpace (sj_Name s)).
Definition measurementKey : Type := string * string * string * string.
Definition dimensionsKey (dimensions : gmap string string) : string :=
  Join ((fun key => key ++ "=" ++ default emp (dimensions !! key))%string <$> sort_Strings (map fst (map_to_list dimensions)))
    (String (Ascii.ascii_of_nat 0) emp).
Definition newMeasurementKey (m : Measurement) : measurementKey :=
  (me_Metric m, me_Unit m, me_Direction m, dimensionsKey (me_Dimensions m)).

Record TrackedSubject := mkTracked {
  td_Subject : Subject;
  td_Records : list Recorded;
  td_Totals : list Measurement;
  td_totals : gmap measurementKey nat;
  td_order : list measurementKey
}.
#[global] Instance rebuild_TrackedSubject : Rebuild TrackedSubject := fun t =>
  mkTracked t.(td_Subject) t.(td_Records) t.(td_Totals) t.(td_totals) t.(td_order).
Record Tracker := mkTracker { tr_subjects : gmap subjectKey TrackedSubject; tr_order : list subjectKey }.
Definition NewTracker : Tracker := mkTracker ∅ [].

(** One turn of the loop over the measurements. *)
Definition add_measurement (tracked : TrackedSubject) (m : Measurement) : TrackedSubject :=
  if SFeqb (me_Quantity m) float_zero then tracked else
  let mkey := newMeasurementKey m in
  let '(index, tracked) :=
    match td_totals tracked !! mkey with
    | Some index => (index, tracked)
    | None =>
        let index := length (td_Totals tracked) in
        (index, tracked <| td_totals := <[mkey := index]> (td_totals tracked) |> <| td_order := td_order tracked ++ [mkey] |>
                  <| td_Totals := td_Totals tracked ++ [m <| me_Quantity := float_zero |>] |>)
    end in
  tracked <| td_Totals := alter (fun t => t <| me_Quantity := float_add (me_Quantity t) (me_Quantity m) |>) index (td_Totals tracked) |>.
Definition new_tracked (s : Subject) : TrackedSubject := mkTracked (s <| sj_ID := emp |>) [] [] ∅ [].
Definition Add (t : Tracker) (recorded : Recorded) : Tracker :=
  if recorded_empty recorded then t else
  let key := newSubjectKey (rc_Subject recorded) in
  let '(tracked, order) :=
    match tr_subjects t !! key with
    | Some tracked => (tracked, tr_order t)
    | None => (new_tracked (rc_Subject recorded), tr_order t ++ [key])
    end in
  let tracked := tracked <| td_Records := td_Records tracked ++ [recorded] |> in
  mkTracker (<[key := fold_left add_measurement (rc_Measurements recorded) tracked]> (tr_subjects t)) order.

(** A subject of a snapshot. *)
Definition SubjectUsage : Type := Subject * list Recorded * list Measurement.
Definition Snapshot (t : Tracker) : list SubjectUsage :=
  omap (fun key => (fun tracked => (td_Subject tracked, td_Records tracked, td_Totals tracked)) <$> tr_subjects t !! key) (tr_order t).
Definition NewSnapshot (records : list Recorded) : list SubjectUsage := Snapshot (fold_left Add records NewTracker).

(** ** What a tracker shows *)

(** The first occurrences of the elements of a list. *)
Definition note_first {K} `{EqDecision K} (out : list K) (k : K) : list K := if decide (k ∈ out) then out else out ++ [k].
Definition firsts {K} `{EqDecision K} (l : list K) : list K := fold_left note_first l [].
Definition counted (m : Measurement) : Prop := SFeqb (me_Quantity m) float_zero = false.
#[global] Instance counted_dec m : Decision (counted m) := decide (_ = _).
Definition has_key (key : measurementKey) (m : Measurement) : Prop := newMeasurementKey m = key.
#[global] Instance has_key_dec key m : Decision (has_key key m) := decide (newMeasurementKey m = key).
Definition of_subject (key : subjectKey) (r : Recorded) : Prop := newSubjectKey (rc_Subject r) = key.
#[global] Instance of_subject_dec key r : Decision (of_subject key r) := decide (newSubjectKey (rc_Subject r) = key).

(** The measurements of a key, as one with the sum of their quantities, added from the left. *)
Definition total_of (ms : list Measurement) (key : measurementKey) : Measurement :=
  let own := filter (has_key key) ms in
  (hd (mkMeasurement emp float_zero emp emp ∅) own) <| me_Quantity := fold_left float_add (me_Quantity <$> own) float_zero |>.
Definition totals_of (ms : list Measurement) : list Measurement := total_of ms <$> firsts (newMeasurementKey <$> ms).
(** The usage of a subject: the subject of its first record without the id, its records, their totals. *)
Definition usage_of (records : list Recorded) (key : subjectKey) : SubjectUsage :=
  let own := filter (of_subject key) records in
  ((hd (mkSubject emp emp emp emp ∅) (rc_Subject <$> own)) <| sj_ID := emp |>, own, totals_of (filter counted (own ≫= rc_Measurements))).
Definition usage_by_subject (records : list Recorded) : list SubjectUsage :=
  let shown := filter (fun r => recorded_empty r = false) records in usage_of shown <$> firsts ((fun r => newSubjectKey (rc_Subject r)) <$> shown).

Lemma firsts_snoc {K} `{EqDecision K} (l : list K) k : firsts (l ++ [k]) = note_first (firsts l) k.
Proof. apply fold_left_app. Qed.
Lemma elem_of_firsts {K} `{EqDecision K} (l : list K) k : k ∈ firsts l <-> k ∈ l.
Proof.
  induction l as [|x l IH] using rev_ind; [done|]. rewrite firsts_snoc, elem_of_app, list_elem_of_singleton, <- IH. unfold note_first.
  case_decide; [naive_solver|]. by rewrite elem_of_app, list_elem_of_singleton.
Qed.
Lemma firsts_nodup {K} `{EqDecision K} (l : list K) : NoDup (firsts l).
Proof.
  induction l as [|x l IH] using rev_ind; [constructor|]. rewrite firsts_snoc. unfold note_first. case_decide; [done|].
  apply NoDup_app. split; [done|]. split; [|apply NoDup_singleton]. intros k Hk ->%list_elem_of_singleton. done.
Qed.

Lemma filter_none {A} (P : A -> Prop) `{!forall x, Decision (P x)} l : (forall x, x ∈ l -> ~ P x) -> filter P l = [].
Proof.
  induction l as [|x l IH]; intros Hno; [done|]. rewrite filter_cons_False by (apply Hno; by left). apply IH. intros y Hy. apply Hno. by right.
Qed.

(** The totals after one more measurement. *)
Lemma total_snoc ms m key :
  total_of (ms ++ [m]) key =
  if decide (newMeasurementKey m = key) then
    (if decide (key ∈ newMeasurementKey <$> ms) then total_of ms key else m <| me_Quantity := float_zero |>)
      <| me_Quantity := float_add (if decide (key ∈ newMeasurementKey <$> ms) then me_Quantity (total_of ms key) else float_zero) (me_Quantity m) |>
  else total_of ms key.
Proof.
  unfold total_of. rewrite filter_app, fmap_app, fold_left_app. case_decide as Hk.
  - rewrite filter_cons_True by done. rewrite filter_nil. destruct (decide (key ∈ newMeasurementKey <$> ms)) as [Hin|Hin].
    + apply list_elem_of_fmap in Hin as (m' & -> & Hin). assert (Hf : m' ∈ filter (has_key (newMeasurementKey m')) ms) by (by apply list_elem_of_filter).
      destruct (filter _ ms) as [|x xs]; [by apply elem_of_nil in Hf|]. by destruct x.
    + assert (filter (has_key key) ms = []) as ->; [|by destruct m].
      apply filter_none. intros x Hx Hk'. apply Hin. rewrite <- Hk'. by apply list_elem_of_fmap_2.
  - rewrite filter_cons_False by done. by rewrite filter_nil, !app_nil_r.
Qed.

(** ** The state of a tracker *)

(** The totals of a subject are those of its measurements, found by their place among the keys. *)
Record totals_ok (ms : list Measurement) (t : TrackedSubject) : Prop := {
  to_totals : td_Totals t = totals_of ms;
  to_order : td_order t = firsts (newMeasurementKey <$> ms);
  to_index key i : td_totals t !! key = Some i <-> firsts (newMeasurementKey <$> ms) !! i = Some key
}.
Lemma totals_of_snoc ms m :
  totals_of (ms ++ [m]) =
  if decide (newMeasurementKey m ∈ newMeasurementKey <$> ms)
  then (fun key => total_of (ms ++ [m]) key) <$> firsts (newMeasurementKey <$> ms)
  else totals_of ms ++ [m <| me_Quantity := float_add float_zero (me_Quantity m) |>].
Proof.
  unfold totals_of. rewrite fmap_app. cbn [fmap list_fmap]. rewrite firsts_snoc. unfold note_first.
  destruct (decide (newMeasurementKey m ∈ newMeasurementKey <$> ms)) as [Hin|Hin].
  - by rewrite decide_True by (by apply elem_of_firsts).
  - rewrite decide_False by (by rewrite elem_of_firsts). rewrite fmap_app. cbn [fmap list_fmap]. f_equal.
    + apply list_fmap_ext. intros i key Hkey. rewrite total_snoc, decide_False; [done|]. intros <-. apply Hin, elem_of_firsts.
      by apply list_elem_of_lookup_2 with i.
    + rewrite total_snoc, decide_True by done. by rewrite !decide_False by done.
Qed.

Lemma add_measurement_ok ms t m : counted m -> totals_ok ms t -> totals_ok (ms ++ [m]) (add_measurement t m).
Proof.
  intros Hm [H1 H2 H3]. unfold add_measurement. unfold counted in Hm. rewrite Hm. set (mkey := newMeasurementKey m) in *.
  assert (Hf : firsts (newMeasurementKey <$> ms ++ [m]) = note_first (firsts (newMeasurementKey <$> ms)) mkey) by (rewrite fmap_app; apply firsts_snoc).
  destruct (td_totals t !! mkey) as [i|] eqn:E.
  - pose proof (proj1 (H3 _ _) E) as Hi. assert (Hin : mkey ∈ newMeasurementKey <$> ms) by (by apply elem_of_firsts, list_elem_of_lookup_2 with i).
    unfold note_first in Hf. rewrite decide_True in Hf by (by apply elem_of_firsts). split; cbn; [|by rewrite Hf|by rewrite Hf].
    rewrite totals_of_snoc, decide_True, H1 by done. unfold totals_of. apply list_eq. intros j. rewrite list_lookup_alter, !list_lookup_fmap.
    destruct (decide (i = j)) as [<-|Hn].
    + rewrite Hi. cbn. by rewrite total_snoc, !decide_True by done.
    + destruct (firsts _ !! j) as [key|] eqn:Ej; [cbn|done]. rewrite total_snoc, decide_False; [done|]. intros Hk. subst key.
      by apply Hn, (NoDup_lookup (firsts (newMeasurementKey <$> ms)) _ _ mkey), Ej; [apply firsts_nodup|].
  - assert (Hin : mkey ∉ newMeasurementKey <$> ms).
    { rewrite <- elem_of_firsts. intros [i Hi]%list_elem_of_lookup. apply H3 in Hi. by rewrite E in Hi. }
    unfold note_first in Hf. rewrite decide_False in Hf by (by rewrite elem_of_firsts). split; cbn.
    + rewrite totals_of_snoc, decide_False, <- H1 by done. rewrite alter_app_r_alt, Nat.sub_diag by done. done.
    + by rewrite Hf, H2.
    + assert (Hl : length (td_Totals t) = length (firsts (newMeasurementKey <$> ms))) by (rewrite H1; apply length_fmap).
      intros key i. rewrite Hf, Hl. destruct (decide (key = mkey)) as [->|Hn].
      * rewrite lookup_insert_eq. split; [intros [= <-]; by apply list_lookup_middle|]. intros Hi. f_equal.
        apply lookup_app_Some in Hi as [Hi|[Hge Hi]]; [by rewrite <- H3, E in Hi|]. apply list_lookup_singleton_Some in Hi as [? _]. lia.
      * rewrite lookup_insert_ne by done. rewrite H3. split; [intros Hi; by apply lookup_app_l_Some|].
        intros Hi. apply lookup_app_Some in Hi as [Hi|[_ Hi]]; [done|]. apply list_lookup_singleton_Some in Hi as [_ ->]. done.
Qed.
Lemma add_measurements_ok ms news t :
  totals_ok ms t -> totals_ok (ms ++ filter counted news) (fold_left add_measurement news t).
Proof.
  revert ms t. induction news as [|m news IH]; intros ms t H; cbn [fold_left]; [by rewrite filter_nil, app_nil_r|].
  destruct (decide (counted m)) as [Hm|Hm].
  - rewrite filter_cons_True by done. change (ms ++ m :: filter counted news) with (ms ++ [m] ++ filter counted news).
    rewrite app_assoc. by apply IH, add_measurement_ok.
  - rewrite filter_cons_False by done. unfold add_measurement at 2. unfold counted in Hm. apply not_false_iff_true in Hm. rewrite Hm. by apply IH.
Qed.

Lemma measurements_keep news t :
  td_Subject (fold_left add_measurement news t) = td_Subject t /\ td_Records (fold_left add_measurement news t) = td_Records t.
Proof.
  revert t. induction news as [|m news IH]; intros t; [done|]. cbn [fold_left]. destruct (IH (add_measurement t m)) as [-> ->].
  unfold add_measurement. destruct (SFeqb _ _); [done|]. by destruct (td_totals t !! _).
Qed.

(** The subjects a tracker has, in the order they came. *)
Record tracker_ok (records : list Recorded) (t : Tracker) : Prop := {
  tr_ordered : tr_order t = firsts ((fun r => newSubjectKey (rc_Subject r)) <$> records);
  tr_absent key : key ∉ tr_order t -> tr_subjects t !! key = None;
  tr_tracked key : key ∈ tr_order t -> exists tracked, tr_subjects t !! key = Some tracked /\
    (td_Subject tracked, td_Records tracked, td_Totals tracked) = usage_of records key /\
    totals_ok (filter counted (filter (of_subject key) records ≫= rc_Measurements)) tracked
}.
Lemma usage_snoc records r key :
  usage_of (records ++ [r]) key =
  if decide (of_subject key r) then
    ((if decide (key ∈ (fun r => newSubjectKey (rc_Subject r)) <$> records) then (usage_of records key).1.1 else (rc_Subject r) <| sj_ID := emp |>),
     filter (of_subject key) records ++ [r],
     totals_of (filter counted (filter (of_subject key) records ≫= rc_Measurements) ++ filter counted (rc_Measurements r)))
  else usage_of records key.
Proof.
  unfold usage_of. rewrite filter_app. case_decide as Hk; [|by rewrite filter_cons_False, filter_nil, !app_nil_r by done].
  rewrite filter_cons_True, filter_nil by done. rewrite bind_app, filter_app. cbn [mbind list_bind]. rewrite app_nil_r. apply (f_equal2 pair); [|done]. apply (f_equal2 pair); [|done].
  rewrite fmap_app. case_decide as Hin.
  - apply list_elem_of_fmap in Hin as (r' & -> & Hin). assert (Hf : r' ∈ filter (of_subject (newSubjectKey (rc_Subject r'))) records) by (by apply list_elem_of_filter).
    destruct (filter _ records) as [|x xs]; [by apply elem_of_nil in Hf|done].
  - rewrite filter_none; [done|]. intros x Hx Hk'. apply Hin. rewrite <- Hk'. by apply (list_elem_of_fmap_2 (fun r => newSubjectKey (rc_Subject r))).
Qed.

Lemma add_ok records t r : recorded_empty r = false -> tracker_ok records t -> tracker_ok (records ++ [r]) (Add t r).
Proof.
  intros Hr [H1 H2 H3]. unfold Add. rewrite Hr. set (key := newSubjectKey (rc_Subject r)).
  assert (Hkey : key ∈ tr_order t <-> key ∈ (fun r => newSubjectKey (rc_Subject r)) <$> records) by (rewrite H1; apply elem_of_firsts).
  assert (Hord : firsts ((fun r => newSubjectKey (rc_Subject r)) <$> records ++ [r]) = note_first (tr_order t) key) by (rewrite fmap_app, H1; apply firsts_snoc).
  unfold note_first in Hord.
  assert (Hother : forall k, k <> key -> usage_of (records ++ [r]) k = usage_of records k /\ filter (of_subject k) (records ++ [r]) = filter (of_subject k) records).
  { intros k Hk. rewrite usage_snoc, decide_False by (by intros ?; apply Hk). split; [done|]. rewrite filter_app, filter_cons_False, filter_nil, app_nil_r; [done|].
    by intros ?; apply Hk. }
  assert (Hmine : filter counted (filter (of_subject key) (records ++ [r]) ≫= rc_Measurements) =
    filter counted (filter (of_subject key) records ≫= rc_Measurements) ++ filter counted (rc_Measurements r)).
  { rewrite filter_app, filter_cons_True, filter_nil, bind_app, filter_app by done. cbn [mbind list_bind]. by rewrite app_nil_r. }
  pose proof (add_measurements_ok (filter counted (filter (of_subject key) records ≫= rc_Measurements)) (rc_Measurements r)) as Hadd.
  set (add tracked := fold_left add_measurement (rc_Measurements r) (tracked <| td_Records := td_Records tracked ++ [r] |>)).
  assert (Hnew : forall tracked order,
    td_Subject tracked = (if decide (key ∈ tr_order t) then (usage_of records key).1.1 else (rc_Subject r) <| sj_ID := emp |>) ->
    td_Records tracked = filter (of_subject key) records ->
    totals_ok (filter counted (filter (of_subject key) records ≫= rc_Measurements)) tracked ->
    order = note_first (tr_order t) key -> tracker_ok (records ++ [r]) (mkTracker (<[key := add tracked]> (tr_subjects t)) order)).
  { intros tracked order Hs Hrec Hok ->. assert (Hmem : forall k, k ∈ note_first (tr_order t) key <-> k = key \/ k ∈ tr_order t).
    { intros k. unfold note_first. case_decide; [naive_solver|]. rewrite elem_of_app, list_elem_of_singleton. naive_solver. }
    specialize (Hadd (tracked <| td_Records := td_Records tracked ++ [r] |>)). destruct Hadd as [Ht1 Ht2 Ht3]; [by destruct Hok; split|].
    split; cbn; [by rewrite Hord| |].
    - intros k Hk. rewrite Hmem in Hk. rewrite lookup_insert_ne by (intros E; apply Hk; by left). apply H2. tauto.
    - intros k Hk. destruct (decide (k = key)) as [->|Hn].
      + rewrite lookup_insert_eq. eexists. split; [done|]. rewrite Hmine. split; [|by split]. rewrite usage_snoc, decide_True by done.
        unfold add. rewrite Ht1. destruct (measurements_keep (rc_Measurements r) (tracked <| td_Records := td_Records tracked ++ [r] |>)) as [-> ->].
        cbn [td_Subject td_Records update_field]. rewrite Hs, Hrec. do 2 (apply (f_equal2 pair); [|done]). by apply decide_ext.
      + rewrite lookup_insert_ne by done. destruct (Hother k Hn) as [-> ->]. apply H3. apply Hmem in Hk. tauto. }
  destruct (tr_subjects t !! key) as [tracked|] eqn:E.
  - assert (Hin : key ∈ tr_order t) by (destruct (decide (key ∈ tr_order t)) as [|Hn]; [done|]; by rewrite (H2 _ Hn) in E).
    destruct (H3 key Hin) as (tracked' & E' & Hu & Hok). rewrite E in E'. injection E' as <-. unfold usage_of in Hu. injection Hu as Hs Hr' _. apply Hnew; [|done..|].
    + by rewrite decide_True.
    + unfold note_first. by rewrite decide_True.
  - assert (Hin : key ∉ tr_order t) by (intros Hin; destruct (H3 key Hin) as (? & E' & _); by rewrite E in E').
    assert (Hnone : filter (of_subject key) records = []).
    { apply filter_none. intros x Hx Hk. apply Hin, Hkey. rewrite <- Hk. by apply (list_elem_of_fmap_2 (fun r => newSubjectKey (rc_Subject r))). }
    apply Hnew; [|by rewrite Hnone|rewrite Hnone; by split|].
    + by rewrite decide_False.
    + unfold note_first. by rewrite decide_False.
Qed.
Lemma tracker_ok_new : tracker_ok [] NewTracker.
Proof. split; [done|done|]. intros key H. by apply elem_of_nil in H. Qed.
Lemma track_ok records t news : tracker_ok records t ->
  tracker_ok (records ++ filter (fun r => recorded_empty r = false) news) (fold_left Add news t).
Proof.
  revert records t. induction news as [|r news IH]; intros records t H; cbn [fold_left]; [by rewrite filter_nil, app_nil_r|].
  destruct (recorded_empty r) eqn:E.
  - rewrite filter_cons_False by (by rewrite E). unfold Add at 2. rewrite E. by apply IH.
  - rewrite filter_cons_True by done. change (records ++ r :: ?l) with (records ++ [r] ++ l). rewrite app_assoc. by apply IH, add_ok.
Qed.

(** C31: A snapshot has the subjects in the order they were first recorded, each with all its records and, for
    each kind of measurement in the order it first came, the sum of the quantities that were not zero. *)
Theorem tracker_exact records : NewSnapshot records = usage_by_subject records.
Proof.
  unfold NewSnapshot, usage_by_subject, Snapshot. set (shown := filter _ records).
  assert (Hok : tracker_ok shown (fold_left Add records NewTracker)) by exact (track_ok [] NewTracker records tracker_ok_new).
  destruct Hok as [<- _ H3]. revert H3. generalize (fold_left Add records NewTracker) as t. intros t.
  induction (tr_order t) as [|key keys IH]; intros H3; [done|]. cbn [omap list_omap].
  destruct (H3 key) as (tracked & -> & Hu & _); [by left|]. cbn. rewrite Hu. f_equal. apply IH. intros k Hk. apply H3. by right.
Qed.
