(* ===== verification/ModelTools.v ===== *)
(** * Tools of a model and the calls it makes
    (src/core/invocation, src/core/tool, src/adapters/llm/tool.go, assembler.go)

    The projection of operations a model sees, and the assembler that turns the streamed pieces of a
    tool call into a requested operation. *)

From S2P Require Import Prelude Operation OpModel NamedInstance AgentModel.
From stdpp Require Import pretty.

(** ** Targets and tools *)

Inductive TargetKind :=
| NoTarget | TargetOperation | TargetWorkflow | TargetAgent | TargetSession | TargetMessage | TargetPrompt
| OtherTargetKind (kind : string).
#[global] Instance TargetKind_eq_dec : EqDecision TargetKind.
Proof. solve_decision. Defined.
Record Target := mkToolTarget {
  tt_Kind : TargetKind;
  tt_Operation : OpRef;
  tt_Workflow : string;
  tt_Agent : string;
  tt_Session : string;
  tt_Message : string;
  tt_Prompt : string;
  tt_Input : Value
}.
Record ActionCase := mkActionCase { ac_Action : string; ac_Target : Target }.
(** [Dispatch] and [DispatchCase] of a projected tool. *)
Record Dispatch := mkDispatch { dp_ActionField : string; dp_Cases : list ActionCase }.
Record ActionProjection := mkProjection {
  ap_Tool : string;
  ap_Description : string;
  ap_ActionField : string;
  ap_Input : OpType;
  ap_Output : OpType;
  ap_Cases : list ActionCase
}.
Record ToolSet := mkToolSet { sx_Name : string; sx_Description : string; sx_Tools : list string; sx_Action : option ActionProjection }.

(** [tool.Spec]: what a model may call, without the semantics and the policy that describe it. *)
Record CoreTool := mkCoreTool {
  ct_Name : string;
  ct_Description : string;
  ct_Target : Target;
  ct_TargetID : string;
  ct_Input : OpType;
  ct_Output : OpType;
  ct_Dispatch : option Dispatch;
  ct_Annotations : gmap string string
}.
#[global] Instance rebuild_CoreTool : Rebuild CoreTool := fun t =>
  mkCoreTool t.(ct_Name) t.(ct_Description) t.(ct_Target) t.(ct_TargetID) t.(ct_Input) t.(ct_Output) t.(ct_Dispatch)
    t.(ct_Annotations).

Inductive ToolSetError :=
| ToolSetNameEmpty
| ProjectionToolEmpty
| ProjectionFieldEmpty
| ProjectionNoCases
| CaseActionEmpty (i : nat)
| CaseDuplicated (action : string)
| CaseNotOperation (action : string) (kind : TargetKind)
| CaseOperationEmpty (action : string).

(** The loop over the cases, with the actions seen so far. *)
Fixpoint validate_cases (i : nat) (cases : list ActionCase) (seen : gset string) : option ToolSetError :=
  match cases with
  | [] => None
  | c :: rest =>
      let action := TrimSpace (ac_Action c) in
      if decide (action = emp) then Some (CaseActionEmpty i)
      else if decide (action ∈ seen) then Some (CaseDuplicated action)
      else if decide (tt_Kind (ac_Target c) <> TargetOperation) then Some (CaseNotOperation action (tt_Kind (ac_Target c)))
      else if decide (ref_Name (tt_Operation (ac_Target c)) = emp) then Some (CaseOperationEmpty action)
      else validate_cases (S i) rest ({[action]} ∪ seen)
  end.
Definition ActionProjection_Validate (p : ActionProjection) : option ToolSetError :=
  if blank (ap_Tool p) then Some ProjectionToolEmpty
  else if blank (ap_ActionField p) then Some ProjectionFieldEmpty
  else if bool_decide (length (ap_Cases p) = 0) then Some ProjectionNoCases
  else validate_cases 0 (ap_Cases p) ∅.
Definition ToolSet_Validate (s : ToolSet) : option ToolSetError :=
  if blank (sx_Name s) then Some ToolSetNameEmpty
  else match sx_Action s with Some action => ActionProjection_Validate action | None => None end.

Inductive CoreToolError := ToolNameEmpty | ToolTargetEmpty.
Definition CoreTool_Validate (s : CoreTool) : option CoreToolError :=
  if blank (ct_Name s) then Some ToolNameEmpty
  else if decide (tt_Kind (ct_Target s) = NoTarget /\ ct_Dispatch s = None) then Some ToolTargetEmpty
  else None.

(** ** Adapter tools (tool.go) *)

(** [llm.ToolSpec] without its [Source]. *)
Record ModelTool := mkModelTool {
  mt_Name : string;
  mt_Description : string;
  mt_InputSchema : Schema;
  mt_Target : Target;
  mt_TargetID : string;
  mt_Dispatch : option Dispatch
}.
Inductive ToolError :=
| InvalidTool (e : CoreToolError)
| DuplicateTool (name : string)
| UnknownTool (name : string)
| ToolArguments (name : string) (cause : string)
| ToolTarget (name : string) (e : TargetError)
| ToolOperationEmpty (name : string)
with TargetError :=
| TargetNotOperation (kind : TargetKind)
| ActionFieldEmpty
| InputNotObject (field : string)
| ActionRequired (field : string) (available : list string)
| ActionNotOperation (action : string) (kind : TargetKind)
| UnknownAction (action : string) (available : list string).

Definition ToolFromCore (spec : CoreTool) : Result ToolError ModelTool :=
  match CoreTool_Validate spec with
  | Some e => Err (InvalidTool e)
  | None => Ok (mkModelTool (ct_Name spec) (ct_Description spec) (ty_Schema (ct_Input spec)) (ct_Target spec) (ct_TargetID spec)
      (ct_Dispatch spec))
  end.
(** The loop of [ToolsFromCore], with the names seen so far. *)
Fixpoint convert_tools (specs : list CoreTool) (seen : gset string) : Result ToolError (list ModelTool) :=
  match specs with
  | [] => Ok []
  | spec :: rest =>
      let? converted := ToolFromCore spec in
      if decide (mt_Name converted ∈ seen) then Err (DuplicateTool (mt_Name converted))
      else let? out := convert_tools rest ({[mt_Name converted]} ∪ seen) in Ok (converted :: out)
  end.
Definition ToolsFromCore (specs : list CoreTool) : Result ToolError (list ModelTool) := convert_tools specs ∅.

Definition toolByName (tools : list ModelTool) : gmap string ModelTool :=
  fold_left (fun out spec => if blank (mt_Name spec) then out else <[mt_Name spec := spec]> out) tools ∅.

(** ** Targets of a call (assembler.go) *)

(** [json.Unmarshal] into [any]. *)
Class JsonDecode := { decode_any : string -> Result string Value }.

Section Calls.
Context {JD : JsonDecode}.

Definition decodeArguments (raw : string) : Result string Value :=
  if blank raw then Ok (VMap ∅) else decode_any raw.

Definition dispatchActions (dispatch : Dispatch) : list string :=
  sort_Strings (List.filter (fun action => negb (bool_decide (action = emp))) (map ac_Action (dp_Cases dispatch))).

Definition dispatchTarget (dispatch : Dispatch) (input : Value) : Result TargetError Target :=
  let actionField := TrimSpace (dp_ActionField dispatch) in
  if decide (actionField = emp) then Err ActionFieldEmpty else
  match input with
  | VMap inputMap =>
      match inputMap !! actionField with
      | Some (VString action) =>
          let action := TrimSpace action in
          if decide (action = emp) then Err (ActionRequired actionField (dispatchActions dispatch)) else
          match List.find (fun candidate => bool_decide (ac_Action candidate = action)) (dp_Cases dispatch) with
          | Some candidate =>
              if decide (tt_Kind (ac_Target candidate) <> TargetOperation)
              then Err (ActionNotOperation action (tt_Kind (ac_Target candidate)))
              else Ok (ac_Target candidate)
          | None => Err (UnknownAction action (dispatchActions dispatch))
          end
      | _ => Err (ActionRequired actionField (dispatchActions dispatch))
      end
  | _ => Err (InputNotObject actionField)
  end.

Definition operationTarget (spec : ModelTool) (input : Value) : Result TargetError Target :=
  match mt_Dispatch spec with
  | Some dispatch => dispatchTarget dispatch input
  | None =>
      if decide (tt_Kind (mt_Target spec) = TargetOperation) then Ok (mt_Target spec)
      else Err (TargetNotOperation (tt_Kind (mt_Target spec)))
  end.

(** ** The assembler *)

Inductive StreamKind :=
| StreamContentDelta | StreamThinkingDelta | StreamToolCallStart | StreamToolCallDelta | StreamToolCallDone
| StreamRefusal | StreamError.
#[global] Instance StreamKind_eq_dec : EqDecision StreamKind.
Proof. solve_decision. Defined.
(** [policy.Sensitivity]. *)
Inductive Sensitivity :=
| NoSensitivity | SensitivityPublic | SensitivityInternal | SensitivityRestricted | SensitivityConfidential | SensitivitySecret
| OtherSensitivity (level : string).
#[global] Instance Sensitivity_eq_dec : EqDecision Sensitivity.
Proof. solve_decision. Defined.
(** [StreamEvent] without [Visibility] and [Error], which nothing reads. *)
Record StreamEvent := mkStreamEvent {
  se_Kind : StreamKind;
  se_Text : string;
  se_Tool : string;
  se_ToolCallID : string;
  se_CallType : string;
  se_Index : Z;
  se_Arguments : string;
  se_Final : bool;
  se_Sensitivity : Sensitivity;
  se_Redaction : string
}.

Record pendingToolCall := mkPendingCall {
  pc_id : string;
  pc_callType : string;
  pc_index : Z;
  pc_name : string;
  pc_input : string;
  pc_done : bool
}.
#[global] Instance rebuild_pendingToolCall : Rebuild pendingToolCall := fun c =>
  mkPendingCall c.(pc_id) c.(pc_callType) c.(pc_index) c.(pc_name) c.(pc_input) c.(pc_done).
Record ToolCallAssembler := mkAssembler { ax_tools : gmap string ModelTool; ax_calls : gmap string pendingToolCall }.
#[global] Instance rebuild_ToolCallAssembler : Rebuild ToolCallAssembler := fun a => mkAssembler a.(ax_tools) a.(ax_calls).

Definition NewToolCallAssembler (tools : list ModelTool) : ToolCallAssembler := mkAssembler (toolByName tools) ∅.

(** The key of an event's call, and the call it is found or created with. *)
Definition call_key (evt : StreamEvent) : string :=
  if decide (se_ToolCallID evt = emp) then ("index:" ++ pretty (se_Index evt))%string else se_ToolCallID evt.
Definition new_call (evt : StreamEvent) : pendingToolCall := mkPendingCall (call_key evt) emp (se_Index evt) emp emp false.
Definition assembler_call (a : ToolCallAssembler) (evt : StreamEvent) : pendingToolCall :=
  default (new_call evt) (ax_calls a !! call_key evt).

Definition operationRequest (tools : gmap string ModelTool) (call : pendingToolCall) : Result ToolError OperationRequest :=
  match tools !! pc_name call with
  | None => Err (UnknownTool (pc_name call))
  | Some spec =>
      match decodeArguments (pc_input call) with
      | Err e => Err (ToolArguments (pc_name call) e)
      | Ok input =>
          match operationTarget spec input with
          | Err e => Err (ToolTarget (pc_name call) e)
          | Ok target =>
              if decide (ref_Name (tt_Operation target) = emp) then Err (ToolOperationEmpty (pc_name call))
              else Ok (mkOperationRequest (tt_Operation target) input (pc_id call) (pc_callType call))
          end
      end
  end.

(** What an event adds to its call. *)
Definition note_event (call : pendingToolCall) (evt : StreamEvent) : pendingToolCall :=
  match se_Kind evt with
  | StreamToolCallStart => call <| pc_name := se_Tool evt |> <| pc_index := se_Index evt |> <| pc_callType := se_CallType evt |>
  | StreamToolCallDelta | StreamToolCallDone =>
      let call := if decide (se_Tool evt = emp) then call else call <| pc_name := se_Tool evt |> in
      let call := if decide (se_CallType evt = emp) then call else call <| pc_callType := se_CallType evt |> in
      let call := call <| pc_input := (pc_input call ++ se_Arguments evt)%string |> in
      if decide (se_Kind evt = StreamToolCallDone) then call <| pc_done := true |> else call
  | _ => call
  end.
Definition is_tool_event (evt : StreamEvent) : bool :=
  match se_Kind evt with StreamToolCallStart | StreamToolCallDelta | StreamToolCallDone => true | _ => false end.
(** The pointer into the map makes each change of a call a change of the assembler; a call whose request
    fails stays in it. *)
Definition Apply (a : ToolCallAssembler) (evt : StreamEvent) : ToolCallAssembler * Result ToolError (list OperationRequest) :=
  if negb (is_tool_event evt) then (a, Ok []) else
  let call := note_event (assembler_call a evt) evt in
  let a := a <| ax_calls := <[call_key evt := call]> (ax_calls a) |> in
  if decide (se_Kind evt = StreamToolCallDone) then
    match operationRequest (ax_tools a) call with
    | Err e => (a, Err e)
    | Ok req => (a <| ax_calls := delete (pc_id call) (ax_calls a) |>, Ok [req])
    end
  else (a, Ok []).

(** The loop of [Complete] over the sorted ids. *)
Fixpoint complete_calls (a : ToolCallAssembler) (ids : list string) : Result ToolError (list OperationRequest) :=
  match ids with
  | [] => Ok []
  | id :: rest =>
      match ax_calls a !! id with
      | Some call =>
          if pc_done call then
            let? req := operationRequest (ax_tools a) call in
            let? out := complete_calls a rest in Ok (req :: out)
          else complete_calls a rest
      | None => complete_calls a rest
      end
  end.
Definition Complete (a : ToolCallAssembler) : Result ToolError (list OperationRequest) :=
  complete_calls a (sort_Strings (map fst (map_to_list (ax_calls a)))).

(** Applying events one after another, up to the first error, as the loops over streams do. *)
Fixpoint apply_events (a : ToolCallAssembler) (evts : list StreamEvent) : ToolCallAssembler * Result ToolError (list OperationRequest) :=
  match evts with
  | [] => (a, Ok [])
  | evt :: rest =>
      match Apply a evt with
      | (a, Err e) => (a, Err e)
      | (a, Ok reqs) => let '(a, r) := apply_events a rest in (a, (let? out := r in Ok (reqs ++ out)))
      end
  end.
End Calls.

(** * Redacted streams (src/adapters/llm/redactor.go, emitStream of src/runtime/agent/llmagent/agent.go)

    Two gates stand between the pieces of a provider's stream and the events of a session: the redactor
    of the adapter and the stream policy of the agent. *)

(** [policy.NormalizeSensitivity]. *)
Class SensitivityModule := { NormalizeSensitivity : Sensitivity -> Sensitivity }.

Inductive RuntimeKind := RuntimeThinkingDelta | RuntimeContentDelta | RuntimeToolCallDelta.
(** [llmagent.StreamEvent]; its index is a pointer. *)
Record RuntimeStream := mkRuntimeStream {
  ru_Kind : RuntimeKind;
  ru_Text : string;
  ru_Tool : string;
  ru_Index : option Z;
  ru_Final : bool;
  ru_Redaction : string
}.

Record Redactor := mkRedactor { rd_ExposeThinking : bool; rd_ExposeThinkingSummary : bool; rd_ExposeToolArgs : bool }.
Record StreamPolicy := mkStreamPolicy { sy_EmitContent : bool; sy_EmitThinking : bool; sy_EmitToolCall : bool }.

Definition sensitivityRank (s : Sensitivity) : nat :=
  match s with
  | SensitivitySecret => 5 | SensitivityConfidential => 4 | SensitivityRestricted => 3 | SensitivityInternal => 2
  | SensitivityPublic => 1 | _ => 3
  end.

Section Redaction.
Context {SM : SensitivityModule}.

Definition ToRuntimeStream (r : Redactor) (evt : StreamEvent) : option RuntimeStream :=
  match se_Kind evt with
  | StreamContentDelta => Some (mkRuntimeStream RuntimeContentDelta (se_Text evt) emp (Some (se_Index evt)) (se_Final evt) emp)
  | StreamThinkingDelta =>
      let sensitivity := NormalizeSensitivity (se_Sensitivity evt) in
      if negb (rd_ExposeThinking r)
         && (negb (rd_ExposeThinkingSummary r) || negb (bool_decide (sensitivity = SensitivityInternal))) then None else
      let '(text, redaction) :=
        if bool_decide (se_Redaction evt = emp) && negb (rd_ExposeThinking r)
           && negb (bool_decide (sensitivity = SensitivityInternal)) && negb (bool_decide (sensitivity = SensitivityPublic))
        then (emp, "thinking_redacted"%string) else (se_Text evt, se_Redaction evt) in
      Some (mkRuntimeStream RuntimeThinkingDelta text emp (Some (se_Index evt)) (se_Final evt) redaction)
  | StreamToolCallStart | StreamToolCallDelta | StreamToolCallDone =>
      let '(text, redaction) :=
        if negb (rd_ExposeToolArgs r)
           || (sensitivityRank SensitivityConfidential <=? sensitivityRank (NormalizeSensitivity (se_Sensitivity evt)))
        then (emp, if decide (se_Redaction evt = emp) then "tool_arguments_redacted"%string else se_Redaction evt)
        else (se_Arguments evt, se_Redaction evt) in
      Some (mkRuntimeStream RuntimeToolCallDelta text (se_Tool evt) (Some (se_Index evt))
        (bool_decide (se_Kind evt = StreamToolCallDone) || se_Final evt) redaction)
  | _ => None
  end.

(** What [emitStream] lets pass. *)
Definition stream_allowed (p : StreamPolicy) (evt : RuntimeStream) : bool :=
  match ru_Kind evt with
  | RuntimeThinkingDelta => sy_EmitThinking p
  | RuntimeContentDelta => sy_EmitContent p
  | RuntimeToolCallDelta => sy_EmitToolCall p
  end.

(** The events of a session for the pieces of a stream. *)
Definition exposed_stream (r : Redactor) (p : StreamPolicy) (evts : list StreamEvent) : list RuntimeStream :=
  List.filter (stream_allowed p) (omap (ToRuntimeStream r) evts).

(** ** What is exposed *)

(** The text a piece may show: content always, thinking when it is exposed or a summary that is, arguments
    when they are exposed and not confidential. *)
Definition may_show (r : Redactor) (evt : StreamEvent) : option string :=
  let sensitivity := NormalizeSensitivity (se_Sensitivity evt) in
  match se_Kind evt with
  | StreamContentDelta => Some (se_Text evt)
  | StreamThinkingDelta =>
      if rd_ExposeThinking r || (rd_ExposeThinkingSummary r && bool_decide (sensitivity = SensitivityInternal))
      then Some (se_Text evt) else None
  | StreamToolCallStart | StreamToolCallDelta | StreamToolCallDone =>
      if rd_ExposeToolArgs r && negb (bool_decide (sensitivity = SensitivityConfidential))
         && negb (bool_decide (sensitivity = SensitivitySecret)) then Some (se_Arguments evt) else None
  | _ => None
  end.
(** What the agent's policy says of a piece. *)
Definition policy_shows (p : StreamPolicy) (evt : StreamEvent) : bool :=
  match se_Kind evt with
  | StreamContentDelta => sy_EmitContent p
  | StreamThinkingDelta => sy_EmitThinking p
  | StreamToolCallStart | StreamToolCallDelta | StreamToolCallDone => sy_EmitToolCall p
  | _ => false
  end.

(** Arguments that are not shown still announce their tool, with a mark. *)
Definition shown (r : Redactor) (p : StreamPolicy) (evt : StreamEvent) : list string :=
  if policy_shows p evt then
    match may_show r evt with
    | Some text => [text]
    | None => if is_tool_event evt then [emp] else []
    end
  else [].

Lemma secret_rank s :
  (sensitivityRank SensitivityConfidential <=? sensitivityRank s) =
  bool_decide (s = SensitivityConfidential) || bool_decide (s = SensitivitySecret).
Proof. by destruct s. Qed.

Lemma shown_piece r p evt : ru_Text <$> exposed_stream r p [evt] = shown r p evt.
Proof.
  unfold exposed_stream, shown, policy_shows, may_show, is_tool_event. cbn [omap list_omap]. unfold ToRuntimeStream.
  rewrite secret_rank. generalize (NormalizeSensitivity (se_Sensitivity evt)) as s. intros s.
  destruct p as [content thinking call], r as [t u g]. cbn [rd_ExposeThinking rd_ExposeThinkingSummary rd_ExposeToolArgs sy_EmitContent sy_EmitThinking sy_EmitToolCall].
  destruct (se_Kind evt); try done; destruct content, thinking, call, t, u, g; cbn;
    repeat (case_bool_decide; cbn); by try congruence.
Qed.

(** Of the pieces of a stream a session sees, in order, the content, the thinking that is exposed and the
    arguments that are exposed and neither confidential nor secret, as far as its policy emits them; other
    arguments leave an empty text. *)
Theorem exposed_exact r p evts : ru_Text <$> exposed_stream r p evts = evts ≫= shown r p.
Proof.
  induction evts as [|evt evts IH]; [done|]. cbn [mbind list_bind]. rewrite <- IH, <- shown_piece.
  unfold exposed_stream. cbn [omap list_omap]. destruct (ToRuntimeStream r evt); [|done]. cbn [List.filter].
  by destruct (stream_allowed p _).
Qed.
End Redaction.
