(* ===== verification/Assembler.v ===== *)
(** * Assembled calls and redacted streams (src/adapters/llm/assembler.go, redactor.go)

    What a stream of pieces of several calls is assembled to, whatever their interleaving; that an
    assembled request names an operation a projected tool targets; and what the redactor lets through. *)

From S2P Require Import Prelude Operation OpModel NamedInstance AgentModel SessionData StopCondition SessionTurn ModelTools.
From stdpp Require Import pretty.

Section Assembled.
Context {JD : JsonDecode}.
Implicit Types (a : ToolCallAssembler) (evt done : StreamEvent) (evts own before : list StreamEvent) (call : pendingToolCall).

(** ** The reference *)

(** The events of a call since the last time it was done. *)
Definition own_step (k : string) (own : list StreamEvent) (evt : StreamEvent) : list StreamEvent :=
  if is_tool_event evt && bool_decide (call_key evt = k)
  then if decide (se_Kind evt = StreamToolCallDone) then [] else own ++ [evt] else own.
Definition own_events (k : string) (evts : list StreamEvent) : list StreamEvent := fold_left (own_step k) evts [].

(** A field of a call is what its events last said of it: a start always says it, another event when it is
    not empty. Its arguments are those of all its events but the start, one after another. *)
Definition said (field : StreamEvent -> string) (evt : StreamEvent) : option string :=
  match se_Kind evt with
  | StreamToolCallStart => Some (field evt)
  | StreamToolCallDelta | StreamToolCallDone => if decide (field evt = emp) then None else Some (field evt)
  | _ => None
  end.
Definition last_said (field : StreamEvent -> string) (own : list StreamEvent) : string := default emp (last (omap (said field) own)).
Definition own_arguments (evt : StreamEvent) : string :=
  match se_Kind evt with StreamToolCallDelta | StreamToolCallDone => se_Arguments evt | _ => emp end.
Definition all_arguments (own : list StreamEvent) : string := foldr (fun evt rest => (own_arguments evt ++ rest)%string) emp own.
(** The request of a call that is done, from its own events only. *)
Definition request_of (tools : gmap string ModelTool) (before : list StreamEvent) (done : StreamEvent)
    : Result ToolError OperationRequest :=
  let own := own_events (call_key done) before ++ [done] in
  operationRequest tools (mkPendingCall (call_key done) (last_said se_CallType own) 0 (last_said se_Tool own) (all_arguments own) true).
Fixpoint requests_of (tools : gmap string ModelTool) (before evts : list StreamEvent) : Result ToolError (list OperationRequest) :=
  match evts with
  | [] => Ok []
  | evt :: rest =>
      if decide (se_Kind evt = StreamToolCallDone) then
        let? req := request_of tools before evt in
        let? out := requests_of tools (before ++ [evt]) rest in Ok (req :: out)
      else requests_of tools (before ++ [evt]) rest
  end.

(** ** One call *)

(** What a call holds after its own events. *)
Record holds call (own : list StreamEvent) (k : string) (finished : bool) : Prop := {
  ho_id : pc_id call = k;
  ho_type : pc_callType call = last_said se_CallType own;
  ho_name : pc_name call = last_said se_Tool own;
  ho_input : pc_input call = all_arguments own;
  ho_done : pc_done call = finished
}.

Lemma last_said_snoc field own evt :
  last_said field (own ++ [evt]) = match said field evt with Some v => v | None => last_said field own end.
Proof. unfold last_said. rewrite omap_app. cbn. destruct (said field evt); [by rewrite last_snoc|by rewrite app_nil_r]. Qed.
Lemma all_arguments_snoc own evt : all_arguments (own ++ [evt]) = (all_arguments own ++ own_arguments evt)%string.
Proof. unfold all_arguments. induction own as [|e own IH]; cbn; [by rewrite append_nil_r|]. by rewrite IH, append_assoc. Qed.

Lemma note_holds call own k evt :
  is_tool_event evt = true -> holds call own k false ->
  holds (note_event call evt) (own ++ [evt]) k (bool_decide (se_Kind evt = StreamToolCallDone)).
Proof.
  intros Ht [Hid Hty Hna Hin Hdo].
  assert (Hargs := all_arguments_snoc own evt). assert (Hty' := last_said_snoc se_CallType own evt).
  assert (Hna' := last_said_snoc se_Tool own evt). revert Ht Hargs Hty' Hna'.
  unfold is_tool_event, own_arguments, said, note_event. destruct (se_Kind evt); try done; intros _ Hargs Hty' Hna'.
  - rewrite append_nil_r in Hargs. split; cbn; by rewrite ?Hid, ?Hargs, ?Hty', ?Hna'.
  - case_decide; case_decide; split; cbn; try done; by rewrite ?Hargs, ?Hty', ?Hna', ?Hin, ?Hna, ?Hty.
  - case_decide; case_decide; split; cbn; try done; by rewrite ?Hargs, ?Hty', ?Hna', ?Hin, ?Hna, ?Hty.
Qed.

Lemma request_holds tools call own k :
  holds call own k true ->
  operationRequest tools call = operationRequest tools (mkPendingCall k (last_said se_CallType own) 0 (last_said se_Tool own) (all_arguments own) true).
Proof. intros [<- <- <- <- _]. unfold operationRequest. by cbn. Qed.

(** ** All calls *)

(** The calls of the assembler are those with events since they were last done. *)
Definition gathered (calls : gmap string pendingToolCall) before : Prop :=
  forall k, match calls !! k with
            | Some call => own_events k before <> [] /\ holds call (own_events k before) k false
            | None => own_events k before = []
            end.

Lemma own_snoc k before evt : own_events k (before ++ [evt]) = own_step k (own_events k before) evt.
Proof. unfold own_events. by rewrite fold_left_app. Qed.
Lemma own_step_other k own evt : call_key evt <> k -> own_step k own evt = own.
Proof. intros H. unfold own_step. by rewrite bool_decide_eq_false_2, andb_false_r. Qed.
Lemma own_step_same own evt :
  is_tool_event evt = true -> own_step (call_key evt) own evt = if decide (se_Kind evt = StreamToolCallDone) then [] else own ++ [evt].
Proof. intros H. unfold own_step. by rewrite H, bool_decide_eq_true_2. Qed.

Lemma gathered_call a before evt :
  gathered (ax_calls a) before -> is_tool_event evt = true ->
  holds (note_event (assembler_call a evt) evt) (own_events (call_key evt) before ++ [evt]) (call_key evt)
    (bool_decide (se_Kind evt = StreamToolCallDone)).
Proof.
  intros Hg Ht. apply note_holds; [done|]. specialize (Hg (call_key evt)). unfold assembler_call.
  destruct (ax_calls a !! call_key evt); cbn; [by destruct Hg|]. by rewrite Hg.
Qed.

Lemma apply_gathered a before evt :
  gathered (ax_calls a) before ->
  match Apply a evt with
  | (_, Err e) => se_Kind evt = StreamToolCallDone /\ request_of (ax_tools a) before evt = Err e
  | (a', Ok reqs) =>
      gathered (ax_calls a') (before ++ [evt]) /\ ax_tools a' = ax_tools a /\
      if decide (se_Kind evt = StreamToolCallDone) then exists req, reqs = [req] /\ request_of (ax_tools a) before evt = Ok req else reqs = []
  end.
Proof.
  intros Hg. unfold Apply. destruct (is_tool_event evt) eqn:Ht; cbn [negb].
  2: { assert (se_Kind evt <> StreamToolCallDone) by (intros E; unfold is_tool_event in Ht; by rewrite E in Ht).
       rewrite decide_False by done. split; [|done]. intros k. rewrite own_snoc. unfold own_step. rewrite Ht. apply Hg. }
  pose proof (gathered_call a before evt Hg Ht) as Hh. remember (note_event (assembler_call a evt) evt) as call eqn:Ec. clear Ec.
  assert (Hother : forall k c, k <> call_key evt -> <[call_key evt := c]> (ax_calls a) !! k = ax_calls a !! k).
  { intros k c Hk. by rewrite lookup_insert_ne. }
  case_decide as Hd; [rewrite bool_decide_eq_true_2 in Hh by done|rewrite bool_decide_eq_false_2 in Hh by done].
  - cbn. assert (Hr : request_of (ax_tools a) before evt = operationRequest (ax_tools a) call) by (symmetry; by apply request_holds).
    rewrite Hr. destruct (operationRequest (ax_tools a) call) as [req|e]; [|done].
    cbn. rewrite decide_True by done. rewrite (ho_id _ _ _ _ Hh). split_and!; [|done|by exists req].
    intros k. rewrite own_snoc. destruct (decide (call_key evt = k)) as [<-|Hk]; cbn [ax_calls].
    + rewrite lookup_delete_eq, own_step_same, decide_True by done. done.
    + rewrite lookup_delete_ne, Hother, own_step_other by congruence. apply Hg.
  - cbn. rewrite decide_False by done. split_and!; [|done|done]. intros k. rewrite own_snoc.
    destruct (decide (call_key evt = k)) as [<-|Hk]; cbn [ax_calls].
    + rewrite lookup_insert_eq, own_step_same, decide_False by done. split; [by intros []%app_eq_nil|done].
    + rewrite Hother, own_step_other by congruence. apply Hg.
Qed.

Lemma apply_events_gathered a before evts :
  gathered (ax_calls a) before ->
  (apply_events a evts).2 = requests_of (ax_tools a) before evts /\
  forall reqs, (apply_events a evts).2 = Ok reqs -> gathered (ax_calls (apply_events a evts).1) (before ++ evts).
Proof.
  revert a before. induction evts as [|evt evts IH]; intros a before Hg; cbn [apply_events requests_of].
  { by rewrite app_nil_r. }
  pose proof (apply_gathered a before evt Hg) as H. destruct (Apply a evt) as [a' [reqs|e]].
  2: { destruct H as [Hk Hr]. by rewrite decide_True, Hr by done. }
  destruct H as (Hg' & Ht & Hreq). destruct (IH a' _ Hg') as [IH1 IH2]. destruct (apply_events a' evts) as [a2 r]. cbn in *. subst r.
  rewrite Ht, <- app_assoc in *. cbn in *. case_decide.
  - destruct Hreq as (req & -> & ->). cbn. destruct (requests_of _ _ evts); cbn; [|done]. split; [done|]. intros. by eapply IH2.
  - subst reqs. destruct (requests_of _ _ evts); cbn; [|done]. split; [done|]. intros. by eapply IH2.
Qed.

Lemma gathered_new tools : gathered (ax_calls (NewToolCallAssembler tools)) [].
Proof. by intros k. Qed.

(** C23: However the pieces of several calls are interleaved, the requests that come out are one for each call
    that is done, in the order they are done, made of the name, the type and the arguments its own pieces
    gave since it was last done; the first one that cannot be made ends the stream. *)
Theorem assembler_exact tools evts :
  (apply_events (NewToolCallAssembler tools) evts).2 = requests_of (toolByName tools) [] evts.
Proof. exact (proj1 (apply_events_gathered _ [] evts (gathered_new tools))). Qed.

(** After a stream without an error nothing is left to complete. *)
Lemma complete_nothing tools evts a reqs :
  apply_events (NewToolCallAssembler tools) evts = (a, Ok reqs) -> Complete a = Ok [].
Proof.
  intros H. destruct (apply_events_gathered _ [] evts (gathered_new tools)) as [_ Hg]. rewrite H in Hg.
  specialize (Hg reqs eq_refl). cbn in Hg. unfold Complete. induction (sort_Strings _) as [|k ks IH]; cbn; [done|].
  specialize (Hg k). destruct (ax_calls a !! k); [|done]. destruct Hg as [_ [_ _ _ _ ->]]. done.
Qed.

(** ** Requests are projected *)

(** A tool as [operationProjected] of the session sees it. *)
Definition target_operation (t : Target) : option OpRef := if decide (tt_Kind t = TargetOperation) then Some (tt_Operation t) else None.
Definition session_tool (spec : CoreTool) : ToolSpec :=
  mkTool (ct_Name spec) (target_operation (ct_Target spec))
    (match ct_Dispatch spec with Some d => map (fun c => target_operation (ac_Target c)) (dp_Cases d) | None => [] end).

Lemma convert_tools_from specs seen tools :
  convert_tools specs seen = Ok tools -> Forall2 (fun spec t => ToolFromCore spec = Ok t) specs tools.
Proof.
  revert seen tools. induction specs as [|spec specs IH]; intros seen tools; cbn; [intros [= <-]; constructor|].
  intros (t & Ht & H)%res_bind_ok. case_decide; [done|]. apply res_bind_ok in H as (out & Hout & [= <-]).
  constructor; [done|]. by eapply IH.
Qed.

Lemma toolByName_in tools name spec : toolByName tools !! name = Some spec -> spec ∈ tools /\ mt_Name spec = name.
Proof.
  unfold toolByName. cut (forall acc : gmap string ModelTool, fold_left (fun out spec => if blank (mt_Name spec) then out else <[mt_Name spec := spec]> out) tools acc
    !! name = Some spec -> (spec ∈ tools /\ mt_Name spec = name) \/ acc !! name = Some spec).
  { intros H E. by destruct (H ∅ E). }
  induction tools as [|t tools IH]; intros acc; cbn; [by right|]. intros [[Hin Hn]|H]%IH; [left; split; [by right|done]|].
  destruct (blank (mt_Name t)); [by right|]. apply lookup_insert_Some in H as [[<- ->]|[_ H]]; [left; split; [by left|done]|by right].
Qed.

Lemma dispatch_target_case dispatch input target :
  dispatchTarget dispatch input = Ok target ->
  Some (tt_Operation target) ∈ map (fun c => target_operation (ac_Target c)) (dp_Cases dispatch).
Proof.
  unfold dispatchTarget. case_decide; [done|]. destruct input as [| | | | | | |m]; try done.
  destruct (m !! _) as [[]|]; try done. case_decide; [done|]. destruct (List.find _ _) as [c|] eqn:E; [|done].
  case_decide as Hk; [done|]. intros [= <-]. apply find_some in E as [Hin _].
  apply list_elem_of_In, in_map_iff. exists c. split; [|done]. unfold target_operation. rewrite decide_True; [done|].
  by destruct (decide (tt_Kind (ac_Target c) = TargetOperation)).
Qed.

Lemma request_projected specs tools call req :
  ToolsFromCore specs = Ok tools -> operationRequest (toolByName tools) call = Ok req ->
  operationProjected (session_tool <$> specs) (oq_Operation req) = true.
Proof.
  intros Hs. unfold operationRequest. destruct (toolByName tools !! _) as [spec|] eqn:E; [|done].
  apply toolByName_in in E as [Hin _]. destruct (decodeArguments _) as [input|]; [|done].
  destruct (operationTarget spec input) as [target|] eqn:Et; [|done]. case_decide; [done|]. intros [= <-]. cbn.
  apply convert_tools_from in Hs. apply list_elem_of_lookup in Hin as [i Hi].
  destruct (Forall2_lookup_r _ _ _ _ _ Hs Hi) as (core & Hc & Hf).
  unfold operationProjected. apply existsb_exists. exists (session_tool core). split.
  { apply list_elem_of_In, list_elem_of_fmap_2, list_elem_of_lookup. by exists i. }
  unfold ToolFromCore in Hf. destruct (CoreTool_Validate core); [done|]. injection Hf as <-. apply orb_true_iff.
  unfold operationTarget in Et. cbn in Et. unfold session_tool. cbn. destruct (ct_Dispatch core) as [d|].
  - right. apply existsb_exists. exists (Some (tt_Operation target)). split; [|by apply bool_decide_eq_true].
    by apply list_elem_of_In, dispatch_target_case with input.
  - left. case_decide as Hk; [|done]. injection Et as <-. apply bool_decide_eq_true. unfold target_operation. by rewrite decide_True.
Qed.

Lemma requests_from tools before evts reqs :
  requests_of tools before evts = Ok reqs -> Forall (fun req => exists call, operationRequest tools call = Ok req) reqs.
Proof.
  revert before reqs. induction evts as [|evt evts IH]; intros before reqs; cbn; [intros [= <-]; constructor|].
  case_decide; [|apply IH]. intros (req & Hr & (out & Ho & [= <-])%res_bind_ok)%res_bind_ok. constructor; [by eexists|by eapply IH].
Qed.

(** Every operation a stream of tool calls asks for is the target of a tool the model was given, or of a
    case of its dispatch, so the session finds it projected when the turn has the same tools. *)
Theorem requests_projected specs tools evts reqs :
  ToolsFromCore specs = Ok tools -> (apply_events (NewToolCallAssembler tools) evts).2 = Ok reqs ->
  Forall (fun req => operationProjected (session_tool <$> specs) (oq_Operation req) = true) reqs.
Proof.
  intros Hs. rewrite (proj1 (apply_events_gathered _ [] evts (gathered_new tools))). intros H%requests_from.
  eapply Forall_impl; [exact H|]. intros req [call Hc]. by eapply request_projected.
Qed.
End Assembled.
