(* ===== verification/Sse.v ===== *)
(** * Server-sent events (src/adapters/llm/anthropicmessages/sse.go)

    The decoder reads the lines of a [bufio.Scanner] and collects the fields of a frame until a blank
    line. Writing frames the way servers do and reading them back returns them. *)

From S2P Require Import Prelude WorkerText Assembler Conversation.

(** ** The scanner *)

(** [maxTokenSize] of the scanner's buffer. *)
Definition max_line : Z := 4 * 1024 * 1024.
Definition line_feed : ascii := ascii_of_nat 10.
Definition carriage_return : string := String (ascii_of_nat 13) emp.

(** What a reader returns: its bytes, then the end or an error. *)
Record Body := mkBody { bd_Content : string; bd_Error : option string }.
Inductive ScanError := ErrTooLong | ErrRead (cause : string).

(** [bufio.ScanLines]: pieces between line feeds without a trailing carriage return; what follows the last
    line feed is a line unless it is empty. *)
Fixpoint lines_of (pieces : list string) : list string :=
  match pieces with
  | [] => []
  | [last] => if decide (last = emp) then [] else [last]
  | piece :: rest => piece :: lines_of rest
  end.
(** A line that fills the buffer ends the scan. *)
Fixpoint scan_lines (lines : list string) (err : option ScanError) : list string * option ScanError :=
  match lines with
  | [] => ([], err)
  | line :: rest =>
      if (max_line <=? Z.of_nat (String.length line))%Z then ([], Some ErrTooLong)
      else let '(out, e) := scan_lines rest err in (TrimSuffix line carriage_return :: out, e)
  end.
Definition Scan (b : Body) : list string * option ScanError :=
  scan_lines (lines_of (Split (bd_Content b) line_feed)) (ErrRead <$> bd_Error b).

(** ** The decoder *)

Record sseFrame := mkFrame { fr_Event : string; fr_Data : string }.
Record sseDecoder := mkDecoder { sd_lines : list string; sd_err : option ScanError; sd_event : string; sd_data : string }.
Definition newSSEDecoder (b : Body) : sseDecoder := let '(lines, err) := Scan b in mkDecoder lines err emp emp.

Inductive NextError := EOF | NextScan (e : ScanError).
Definition colon : ascii := ascii_of_nat 58.
Definition newline : string := String line_feed emp.

(** One line: the event and the data so far, [None] when the line ends a frame. *)
Definition read_line (line event data : string) : option (string * string) :=
  if decide (line = emp) then
    if negb (bool_decide (event = emp)) || negb (bool_decide (data = emp)) then None else Some (event, data)
  else if HasPrefix line (String colon emp) then Some (event, data)
  else
    let '(field, value, ok) := Cut line colon in
    if negb ok then Some (event, data) else
    let value := TrimPrefix value " " in
    if decide (field = "event"%string) then Some (value, data)
    else if decide (field = "data"%string) then
      Some (event, ((if decide (data = emp) then data else data ++ newline) ++ value)%string)
    else Some (event, data).

Fixpoint next_loop (lines : list string) (err : option ScanError) (event data : string) : sseDecoder * Result NextError sseFrame :=
  match lines with
  | [] =>
      match err with
      | Some e => (mkDecoder [] err event data, Err (NextScan e))
      | None =>
          if negb (bool_decide (event = emp)) || negb (bool_decide (data = emp))
          then (mkDecoder [] err emp emp, Ok (mkFrame event data))
          else (mkDecoder [] err event data, Err EOF)
      end
  | line :: rest =>
      match read_line line event data with
      | None => (mkDecoder rest err emp emp, Ok (mkFrame event data))
      | Some (event, data) => next_loop rest err event data
      end
  end.
Definition Next (d : sseDecoder) : sseDecoder * Result NextError sseFrame := next_loop (sd_lines d) (sd_err d) (sd_event d) (sd_data d).

(** ** Frames as a server writes them *)

Definition data_line (line : string) : string := ("data: " ++ line ++ newline)%string.
Definition encode_frame (f : sseFrame) : string :=
  ((if decide (fr_Event f = emp) then emp else "event: " ++ fr_Event f ++ newline)
   ++ (if decide (fr_Data f = emp) then emp else concat_all (data_line <$> Split (fr_Data f) line_feed)) ++ newline)%string.
Definition encode_frames (fs : list sseFrame) : string := concat_all (encode_frame <$> fs).

(** The frames a decoder returns until it fails: each call reads a line or forgets a frame. *)
Fixpoint decode_frames (fuel : nat) (d : sseDecoder) : option (list sseFrame * NextError) :=
  match fuel with
  | O => None
  | S fuel =>
      match Next d with
      | (_, Err e) => Some ([], e)
      | (d, Ok f) => match decode_frames fuel d with Some (fs, e) => Some (f :: fs, e) | None => None end
      end
  end.

(** ** Lines *)

(** A line without a line feed. *)
Definition one_line (s : string) : Prop := Split s line_feed = [s].

Lemma split_nonempty s c : Split s c <> [].
Proof. induction s as [|x s IH]; cbn; [done|]. destruct (Ascii.eqb x c); [done|]. by destruct (Split s c). Qed.
Lemma split_pieces s : Forall one_line (Split s line_feed).
Proof.
  unfold one_line. induction s as [|x s IH]; cbn [Split]; [by repeat constructor|]. destruct (Ascii.eqb x line_feed) eqn:E; [by constructor|].
  destruct (Split s line_feed) as [|p ps]; [by repeat constructor; cbn; rewrite E|].
  inversion_clear IH as [|? ? Hp Hps]. constructor; [|done]. cbn [Split]. by rewrite E, Hp.
Qed.
Lemma string_app_cons x (a b : string) : (String x a ++ b)%string = String x (a ++ b)%string.
Proof. done. Qed.
Lemma string_app_nil (b : string) : (emp ++ b)%string = b.
Proof. done. Qed.
Lemma split_line (p rest : string) : one_line p -> Split (p ++ newline ++ rest) line_feed = p :: Split rest line_feed.
Proof.
  unfold one_line. induction p as [|x p IH]; cbn [Split]; [done|]. rewrite string_app_cons. cbn [Split].
  destruct (Ascii.eqb x line_feed); [intros H; by destruct p|]. destruct (Split p line_feed) as [|q qs] eqn:E; [by destruct (split_nonempty p line_feed E)|].
  intros [= -> ->]. by rewrite IH.
Qed.
Lemma join_split s : Join (Split s line_feed) newline = s.
Proof.
  induction s as [|x s IH]; cbn [Split]; [done|]. destruct (Ascii.eqb_spec x line_feed) as [->|Hx].
  - pose proof (split_nonempty s line_feed). destruct (Split s line_feed) as [|p ps] eqn:E; [done|].
    change (newline ++ Join (p :: ps) newline = String line_feed s)%string. by rewrite IH.
  - destruct (Split s line_feed) as [|p [|q ps]] eqn:E; [by destruct (split_nonempty s line_feed E)|..].
    + cbn in IH |- *. by rewrite IH.
    + change (String x p ++ newline ++ Join (q :: ps) newline = String x s)%string. rewrite string_app_cons. f_equal. exact IH.
Qed.
Lemma join_cons p ps : Join (p :: ps) newline = (p ++ concat_all ((fun q => newline ++ q)%string <$> ps))%string.
Proof.
  revert p. induction ps as [|q ps IH]; intros p; [cbn; by rewrite append_nil_r|].
  change (p ++ newline ++ Join (q :: ps) newline = p ++ (newline ++ q) ++ concat_all ((fun q => newline ++ q)%string <$> ps))%string.
  by rewrite IH, !append_assoc.
Qed.

Definition with_newline (line : string) : string := (line ++ newline)%string.
Lemma concat_all_app l k : concat_all (l ++ k) = (concat_all l ++ concat_all k)%string.
Proof. unfold concat_all. induction l as [|x l IH]; cbn; [done|]. by rewrite IH, append_assoc. Qed.
Lemma split_lines ls rest : Forall one_line ls -> Split (concat_all (with_newline <$> ls) ++ rest) line_feed = ls ++ Split rest line_feed.
Proof.
  induction 1 as [|l ls Hl _ IH]; [done|]. cbn [fmap list_fmap concat_all foldr].
  change (foldr String.append emp (with_newline <$> ls)) with (concat_all (with_newline <$> ls)).
  unfold with_newline at 1. rewrite !append_assoc, split_line by done. by rewrite IH.
Qed.
Lemma lines_of_snoc ls : lines_of (ls ++ [emp]) = ls.
Proof. induction ls as [|l ls IH]; [done|]. cbn. rewrite IH. by destruct ls. Qed.

(** A line that the scanner returns as it is. *)
Definition plain_line (line : string) : Prop := one_line line /\ TrimSuffix line carriage_return = line /\ (Z.of_nat (String.length line) < max_line)%Z.
Lemma scan_plain ls : Forall plain_line ls -> scan_lines ls None = (ls, None).
Proof.
  induction 1 as [|l ls (_ & Ht & Hl) _ IH]; cbn; [done|]. rewrite (proj2 (Z.leb_gt _ _) Hl). by rewrite IH, Ht.
Qed.
Lemma scan_written ls : Forall plain_line ls -> Scan (mkBody (concat_all (with_newline <$> ls)) None) = (ls, None).
Proof.
  intros H. unfold Scan. cbn. rewrite <- (append_nil_r (concat_all _)), split_lines.
  - cbn. rewrite lines_of_snoc. by apply scan_plain.
  - eapply Forall_impl; [done|]. by intros l [? _].
Qed.

(** ** The lines of a frame *)

Definition frame_lines (f : sseFrame) : list string :=
  (if decide (fr_Event f = emp) then [] else [("event: " ++ fr_Event f)%string])
  ++ (if decide (fr_Data f = emp) then [] else (fun l => "data: " ++ l)%string <$> Split (fr_Data f) line_feed) ++ [emp].
(** Frames that survive: something to send, no line that is cut, and data that do not start with a line feed. *)
Record sendable (f : sseFrame) : Prop := {
  sn_some : fr_Event f <> emp \/ fr_Data f <> emp;
  sn_first : fr_Data f <> emp -> hd emp (Split (fr_Data f) line_feed) <> emp;
  sn_lines : Forall plain_line (frame_lines f)
}.

Lemma encode_lines f : encode_frame f = concat_all (with_newline <$> frame_lines f).
Proof.
  unfold encode_frame, frame_lines. rewrite !fmap_app, !concat_all_app. f_equal; [|f_equal].
  - case_decide; [done|]. cbn. unfold with_newline. by rewrite append_nil_r, !append_assoc.
  - case_decide; [done|]. rewrite <- list_fmap_compose. f_equal.
Qed.

(** ** Reading a frame back *)

Lemma cut_field field value : Forall (fun x => x <> colon) (String.list_ascii_of_string field) ->
  Cut (field ++ String colon value) colon = (field, value, true).
Proof.
  induction field as [|x field IH]; intros H.
  - change (Cut (String colon value) colon = (emp, value, true)). cbn. by rewrite (Ascii.eqb_refl colon).
  - cbn in H. apply Forall_cons in H as [Hx H]. rewrite string_app_cons. cbn [Cut].
    destruct (Ascii.eqb_spec x colon); [done|]. by rewrite IH.
Qed.
Lemma trim_space value : TrimPrefix (String " " value) " " = value.
Proof.
  unfold TrimPrefix. assert (String.prefix " " (String " " value) = true) as -> by (cbn; by destruct value).
  cbn [String.length]. change (String.substring 0 (S (String.length value) - 1) value = value). rewrite Nat.sub_succ, Nat.sub_0_r.
  induction value as [|x value IH]; [done|]. cbn [String.length String.substring]. by rewrite IH.
Qed.

Lemma read_event value event data : read_line ("event: " ++ value) event data = Some (value, data).
Proof.
  unfold read_line. rewrite decide_False by done.
  change (HasPrefix ("event: " ++ value) (String colon emp)) with false.
  change ("event: " ++ value)%string with ("event" ++ String colon (String " " value))%string.
  rewrite cut_field by (by repeat constructor). cbn [negb]. by rewrite trim_space, decide_True.
Qed.
Lemma read_data value event data :
  read_line ("data: " ++ value) event data = Some (event, ((if decide (data = emp) then data else data ++ newline) ++ value)%string).
Proof.
  unfold read_line. rewrite decide_False by done.
  change (HasPrefix ("data: " ++ value) (String colon emp)) with false.
  change ("data: " ++ value)%string with ("data" ++ String colon (String " " value))%string.
  rewrite cut_field by (by repeat constructor). cbn [negb]. by rewrite trim_space, decide_False, decide_True.
Qed.

Lemma next_data ls rest err event data :
  data <> emp -> next_loop (((fun l => "data: " ++ l)%string <$> ls) ++ rest) err event data =
  next_loop rest err event (data ++ concat_all ((fun l => newline ++ l)%string <$> ls))%string.
Proof.
  revert data. induction ls as [|l ls IH]; intros data Hd; cbn [fmap list_fmap app next_loop].
  { cbn. by rewrite append_nil_r. }
  rewrite read_data, decide_False by done. rewrite IH.
  - f_equal. cbn. by rewrite !append_assoc.
  - by destruct data.
Qed.
Lemma next_data_first l ls rest err event :
  l <> emp -> next_loop (((fun l => "data: " ++ l)%string <$> (l :: ls)) ++ rest) err event emp =
  next_loop rest err event (Join (l :: ls) newline).
Proof.
  intros Hl. cbn [fmap list_fmap app next_loop]. rewrite read_data, decide_True by done. rewrite string_app_nil, join_cons. by apply next_data.
Qed.

Lemma next_frame f rest err :
  sendable f -> next_loop (frame_lines f ++ rest) err emp emp = (mkDecoder rest err emp emp, Ok f).
Proof.
  intros [Hsome Hfirst _]. unfold frame_lines. rewrite <- !app_assoc.
  assert (He : forall tl, next_loop ((if decide (fr_Event f = emp) then [] else [("event: " ++ fr_Event f)%string]) ++ tl) err emp emp
    = next_loop tl err (fr_Event f) emp).
  { intros tl. case_decide as E; [by rewrite E|]. cbn [app next_loop]. by rewrite read_event. }
  rewrite He. clear He.
  assert (Hd : forall tl, next_loop ((if decide (fr_Data f = emp) then [] else (fun l => "data: " ++ l)%string <$> Split (fr_Data f) line_feed) ++ tl)
    err (fr_Event f) emp = next_loop tl err (fr_Event f) (fr_Data f)).
  { intros tl. case_decide as E; [by rewrite E|]. rewrite <- (join_split (fr_Data f)) at 2. specialize (Hfirst E).
    destruct (Split (fr_Data f) line_feed) as [|l ls]; [done|]. by apply next_data_first. }
  rewrite Hd. cbn. unfold read_line. rewrite decide_True by done. destruct f as [event data]. cbn in *.
  repeat case_bool_decide; cbn; try done. by destruct Hsome.
Qed.

Lemma decode_lines fs :
  Forall sendable fs -> decode_frames (S (length fs)) (mkDecoder (fs ≫= frame_lines) None emp emp) = Some (fs, EOF).
Proof.
  induction 1 as [|f fs Hf _ IH]; [done|]. cbn [decode_frames length mbind list_bind]. unfold Next at 1. cbn [sd_lines sd_err sd_event sd_data].
  rewrite next_frame by done. cbn [decode_frames length mbind list_bind] in IH. by rewrite IH.
Qed.

(** What is left to read bounds the frames that are left. *)
Definition decoder_size (d : sseDecoder) : nat :=
  length (sd_lines d) + (if bool_decide (sd_event d = emp) && bool_decide (sd_data d = emp) then 0 else 1).
Lemma next_smaller d d' f : Next d = (d', Ok f) -> decoder_size d' < decoder_size d.
Proof.
  destruct d as [lines err event data]. unfold Next, decoder_size. cbn. revert event data.
  induction lines as [|line lines IH]; intros event data; cbn.
  - destruct err; [done|]. do 2 case_bool_decide; cbn; intros [= <- <-]; cbn; rewrite !bool_decide_eq_true_2 by done; cbn; lia.
  - destruct (read_line line event data) as [[event' data']|] eqn:E.
    + intros H%IH. destruct (bool_decide (event' = emp) && bool_decide (data' = emp)); lia.
    + intros [= <- <-]. cbn. rewrite !(bool_decide_eq_true_2 (emp = emp)) by done. cbn. destruct (_ && _); lia.
Qed.
Lemma decode_ends fuel d : decoder_size d < fuel -> exists fs e, decode_frames fuel d = Some (fs, e).
Proof.
  revert d. induction fuel as [|fuel IH]; intros d H; [lia|]. cbn. destruct (Next d) as [d' [f|e]] eqn:E; [|by eexists _, _].
  apply next_smaller in E. destruct (IH d') as (fs & e & ->); [lia|]. by eexists _, _.
Qed.

Lemma encode_all fs : encode_frames fs = concat_all (with_newline <$> (fs ≫= frame_lines)).
Proof.
  unfold encode_frames. induction fs as [|f fs IH]; [done|]. cbn [fmap list_fmap mbind list_bind]. rewrite fmap_app, concat_all_app, <- encode_lines, <- IH. done.
Qed.

Lemma decoder_of_frames fs : Forall sendable fs -> newSSEDecoder (mkBody (encode_frames fs) None) = mkDecoder (fs ≫= frame_lines) None emp emp.
Proof.
  intros H. unfold newSSEDecoder. rewrite encode_all, scan_written; [done|]. apply Forall_bind. eapply Forall_impl; [done|]. by intros f [_ _ ?].
Qed.

(** The frames a server sends are the frames that are read, and then the stream ends, when no line
    of a frame is cut by the scanner and its data do not start with a line feed. *)
Theorem sse_roundtrip fs :
  Forall sendable fs -> decode_frames (S (length fs)) (newSSEDecoder (mkBody (encode_frames fs) None)) = Some (fs, EOF).
Proof. intros H. rewrite decoder_of_frames by done. by apply decode_lines. Qed.

(** A leading line feed of the data is lost. *)
Example leading_newline_lost :
  decode_frames 2 (newSSEDecoder (mkBody (encode_frames [mkFrame "message" (newline ++ "x")]) None))
  = Some ([mkFrame "message" "x"], EOF).
Proof. vm_compute. reflexivity. Qed.
