(* ===== verification/ModelStream.v ===== *)
(** * Responses of a messages provider
    (src/adapters/llm/anthropicmessages: wire.go, stream_state.go, model.go)

    A response arrives whole or as a stream of events about its content blocks. Both ways collect the
    blocks and turn the tool calls among them into requested operations. JSON is decoded by the
    functions of a class; a negative index of a block is the panic of the source. *)

From S2P Require Import Prelude Operation OpModel WorkerText Conversation AgentModel NamedInstance SessionTurn Usage ModelTools Assembler Sse.
From stdpp Require Import pretty.

(** ** Wire data (wire.go) *)

Record contentBlock := mkContentBlock {
  bk_Type : string;
  bk_Text : string;
  bk_ID : string;
  bk_Name : string;
  bk_Input : string;
  bk_ToolUseID : string;
  bk_Content : Value;
  bk_IsError : bool;
  bk_Thinking : string;
  bk_Signature : string;
  bk_CacheControl : option (string * string)
}.
#[global] Instance rebuild_contentBlock : Rebuild contentBlock := fun b =>
  mkContentBlock b.(bk_Type) b.(bk_Text) b.(bk_ID) b.(bk_Name) b.(bk_Input) b.(bk_ToolUseID) b.(bk_Content) b.(bk_IsError)
    b.(bk_Thinking) b.(bk_Signature) b.(bk_CacheControl).
Definition zero_block : contentBlock := mkContentBlock emp emp emp emp emp emp VNil false emp emp None.
Record message := mkMessage { mg_Role : string; mg_Content : list contentBlock }.
Record usageWire := mkUsageWire {
  uw_Input : Z; uw_CacheCreation : Z; uw_CacheRead : Z; uw_Output : Z; uw_Reasoning : Z }.
Definition zero_usageWire : usageWire := mkUsageWire 0 0 0 0 0.
Record messageResponse := mkMessageResponse {
  mr_ID : string; mr_Model : string; mr_Content : list contentBlock; mr_Usage : usageWire }.
Record deltaWire := mkDelta {
  dl_Type : string; dl_Text : string; dl_PartialJSON : string; dl_Thinking : string; dl_Signature : string }.

Definition mergeUsage (a b : usageWire) : usageWire :=
  let pick x y := if (y =? 0)%Z then x else y in
  mkUsageWire (pick (uw_Input a) (uw_Input b)) (pick (uw_CacheCreation a) (uw_CacheCreation b)) (pick (uw_CacheRead a) (uw_CacheRead b))
    (pick (uw_Output a) (uw_Output b)) (pick (uw_Reasoning a) (uw_Reasoning b)).

(** Addition of [int64]. *)
Definition wrap_int64 (z : Z) : Z := (Z.modulo (z + 2 ^ 63) (2 ^ 64) - 2 ^ 63)%Z.

(** ** JSON *)

Class WireJson := {
  decode_type : string -> Result string string;
  decode_message_start : string -> Result string messageResponse;
  decode_block_start : string -> Result string (Z * contentBlock);
  decode_block_delta : string -> Result string (Z * deltaWire);
  decode_block_stop : string -> Result string Z;
  decode_message_delta : string -> Result string (option usageWire);
  decode_error : string -> Result string (string * string);
  encode_message : message -> option string
}.

Section Stream.
Context {JD : JsonDecode} {WJ : WireJson} {SM : SensitivityModule}.

Definition measure (metric : string) (quantity : Z) (unit direction : string) : list Measurement :=
  if (quantity <=? 0)%Z then [] else [mkMeasurement metric (of_int64 quantity) unit direction ∅].
Definition usageFromAnthropic (raw : usageWire) (provider : ProviderIdentity) (id : string) (prices : list PricingSpec) : list Recorded :=
  if (uw_Input raw =? 0)%Z && (uw_CacheRead raw =? 0)%Z && (uw_CacheCreation raw =? 0)%Z && (uw_Output raw =? 0)%Z
     && (uw_Reasoning raw =? 0)%Z then [] else
  let total := wrap_int64 (uw_Input raw + uw_CacheRead raw + uw_CacheCreation raw + uw_Output raw) in
  EnrichCosts [mkRecorded (pi_Provider provider)
    (mkSubject SubjectLLM (pi_Provider provider) (pi_Model provider) id {[ "api" := pi_API provider ]})
    (measure "llm.input_tokens" (uw_Input raw) UnitToken DirectionInput
     ++ measure "llm.cached_input_tokens" (uw_CacheRead raw) UnitToken DirectionCached
     ++ measure "llm.cache_write_input_tokens" (uw_CacheCreation raw) UnitToken DirectionWrite
     ++ measure "llm.output_tokens" (uw_Output raw) UnitToken DirectionOutput
     ++ measure "llm.reasoning_tokens" (uw_Reasoning raw) UnitToken DirectionOutput
     ++ measure "llm.total_tokens" total UnitToken emp)] prices.
(** What a collector counted: the bytes sent and received. *)
Definition httpUsageRecord (provider : ProviderIdentity) (upload download : Z) : list Recorded :=
  if (upload =? 0)%Z && (download =? 0)%Z then [] else
  [mkRecorded (pi_Provider provider ++ ".http")%string
    (mkSubject SubjectNetwork (pi_Provider provider) (pi_Model provider) emp {[ "api" := pi_API provider ]})
    (measure "network.bytes" upload UnitByte DirectionUpload ++ measure "network.bytes" download UnitByte DirectionDownload)].

(** ** Blocks *)

Definition update_block (blocks : list contentBlock) (index : Z) (f : contentBlock -> contentBlock) : list contentBlock :=
  alter f (Z.to_nat index) blocks.
(** [ensureBlock]: blocks up to the index; [None] is the panic on a negative one. *)
Definition ensureBlock (blocks : list contentBlock) (index : Z) : option (list contentBlock) :=
  if (index <? 0)%Z then None
  else Some (blocks ++ replicate (Z.to_nat (index + 1) - length blocks) zero_block).
Definition block_at (blocks : list contentBlock) (index : Z) : contentBlock := default zero_block (blocks !! Z.to_nat index).

Definition blocksText (blocks : list contentBlock) : string :=
  concat_all (map (fun b => if decide (bk_Type b = "text"%string) then bk_Text b else emp) blocks).
Definition compactBlocks (blocks : list contentBlock) : list contentBlock :=
  List.filter (fun b => negb (bool_decide (bk_Type b = emp))) blocks.
Definition toolCallsFromBlocks (blocks : list contentBlock) : list ToolCallRef :=
  omap (fun block =>
    if decide (bk_Type block <> "tool_use"%string \/ TrimSpace (bk_ID block) = emp) then None
    else Some (mkToolCallRef (TrimSpace (bk_ID block)) (bk_Name block) "tool_use" (VBytes (bk_Input block)))) blocks.

(** ** Responses (llmagent.Response) *)

Record Response := mkResponse {
  re_Message : option AgentMessage;
  re_Operations : list OperationRequest;
  re_Completion : option Completion;
  re_State : StateUpdate;
  re_Usage : list Recorded;
  re_Transcript : Transcript
}.
#[global] Instance rebuild_Response : Rebuild Response := fun r =>
  mkResponse r.(re_Message) r.(re_Operations) r.(re_Completion) r.(re_State) r.(re_Usage) r.(re_Transcript).
Definition zero_Transcript : Transcript := mkTranscript (mkProvider emp emp emp emp) [] [] None emp.
Definition zero_Response : Response := mkResponse None [] None (mkStateUpdate zero_StateRef emp) [] zero_Transcript.
Definition MessageResponse (content : Value) : Response := zero_Response <| re_Message := Some (mkAgentMessage content ∅) |>.
Definition OperationResponse (reqs : list OperationRequest) : Response := zero_Response <| re_Operations := reqs |>.

(** ** The state of a response *)

Record responseState := mkResponseState {
  rs_model : string;
  rs_messageID : string;
  rs_blocks : list contentBlock;
  rs_usage : usageWire;
  rs_assembler : ToolCallAssembler;
  rs_operations : list OperationRequest
}.
#[global] Instance rebuild_responseState : Rebuild responseState := fun s =>
  mkResponseState s.(rs_model) s.(rs_messageID) s.(rs_blocks) s.(rs_usage) s.(rs_assembler) s.(rs_operations).

Definition response_transcript (s : responseState) (provider : ProviderIdentity) : Transcript :=
  let raw := default emp (encode_message (mkMessage "assistant" (compactBlocks (rs_blocks s)))) in
  mkTranscript provider
    [mkItem provider ItemOutput "assistant" emp (rs_messageID s) emp emp (toolCallsFromBlocks (rs_blocks s))
       (VString (blocksText (rs_blocks s))) raw ∅] [] None ProjectionFullReplay.
Definition toRuntime (s : responseState) (provider : ProviderIdentity) (prices : list PricingSpec) : Result ToolError Response :=
  let? completed := Complete (rs_assembler s) in
  let operations := rs_operations s ++ completed in
  let recordedUsage := usageFromAnthropic (rs_usage s) provider (rs_messageID s) prices in
  let transcript := response_transcript s provider in
  if negb (bool_decide (length operations = 0)) then
    Ok ((OperationResponse operations) <| re_Usage := recordedUsage |> <| re_Transcript := transcript |>)
  else
    let text := TrimSpace (blocksText (rs_blocks s)) in
    if decide (text <> emp) then Ok ((MessageResponse (VString text)) <| re_Usage := recordedUsage |> <| re_Transcript := transcript |>)
    else Ok (zero_Response <| re_Usage := recordedUsage |> <| re_Transcript := transcript |>).

(** [PartialError]: what was observed before a failure. *)
Inductive ModelError :=
| ErrDecodeResponse (cause : string)
| ErrTool (e : ToolError)
| ErrStreamDecode (e : ScanError)
| ErrFrame (cause : string)
| ErrProvider (kind text : string)
| PartialError (resp : Response) (e : ModelError).

(** The configuration of a model, as far as its identity and its prices. *)
Record ModelConfig := mkModelConfig { mc_provider : string; mc_api : string; mc_pricing : list PricingSpec }.
Definition model_identity (m : ModelConfig) (model : string) : ProviderIdentity :=
  mkProvider (mc_provider m) (mc_api m) "anthropic.messages" model.

(** What was sent before goes first in the transcript; the bytes on the wire are recorded last. *)
Definition with_request (m : ModelConfig) (model : string) (sentItems : list Item) (upload download : Z) (r : Response) : Response :=
  r <| re_Transcript := (re_Transcript r) <| ts_Items := sentItems ++ ts_Items (re_Transcript r) |> |>
    <| re_Usage := re_Usage r ++ httpUsageRecord (model_identity m model) upload download |>.
(** The response of a state that failed. *)
Definition partial_response (m : ModelConfig) (s : responseState) (sentItems : list Item) (upload download : Z) : Response :=
  let provider := model_identity m (rs_model s) in
  with_request m (rs_model s) sentItems upload download
    (zero_Response <| re_Usage := usageFromAnthropic (rs_usage s) provider (rs_messageID s) (mc_pricing m) |>
       <| re_Transcript := response_transcript s provider |>).

(** ** Whole responses *)

Definition done_event (name id : string) (index : Z) (args : string) : StreamEvent :=
  mkStreamEvent StreamToolCallDone emp name id emp index args false NoSensitivity emp.
Definition message_arguments (block : contentBlock) : string :=
  if bool_decide (bk_Input block = emp) || bool_decide (bk_Input block = "null"%string) then "{}"%string else bk_Input block.
(** The loop over the content of a message; the state it failed in with the error. *)
Fixpoint assemble_blocks (s : responseState) (index : Z) (blocks : list contentBlock) : Result (responseState * ToolError) responseState :=
  match blocks with
  | [] => Ok s
  | block :: rest =>
      if decide (bk_Type block <> "tool_use"%string) then assemble_blocks s (index + 1) rest else
      let '(a, r) := Apply (rs_assembler s) (done_event (bk_Name block) (bk_ID block) index (message_arguments block)) in
      let s := s <| rs_assembler := a |> in
      match r with
      | Err e => Err (s, e)
      | Ok reqs => assemble_blocks (s <| rs_operations := rs_operations s ++ reqs |>) (index + 1) rest
      end
  end.
(** A response with the error next to it. *)
Definition Answer : Type := Response * option ModelError.
Definition failed_answer (e : ModelError) : Answer := (zero_Response, Some e).
Definition responseFromMessage (m : ModelConfig) (resp : messageResponse) (tools : list ModelTool) (sentItems : list Item)
    (upload download : Z) : Answer :=
  let state := mkResponseState (mr_Model resp) (mr_ID resp) (mr_Content resp) (mr_Usage resp) (NewToolCallAssembler tools) [] in
  match assemble_blocks state 0 (mr_Content resp) with
  | Err (s, e) => failed_answer (PartialError (partial_response m s sentItems upload download) (ErrTool e))
  | Ok s =>
      match toRuntime s (model_identity m (rs_model s)) (mc_pricing m) with
      | Err e => failed_answer (ErrTool e)
      | Ok out => (with_request m (rs_model s) sentItems upload download out, None)
      end
  end.
(** [PartialResponse]. *)
Definition PartialResponse (e : ModelError) : option Response := match e with PartialError r _ => Some r | _ => None end.
(** [Complete] of the model once the body is there. *)
Definition CompleteMessage (m : ModelConfig) (statusModel : string) (body : Result string messageResponse) (tools : list ModelTool)
    (sentItems : list Item) (upload download : Z) : Answer :=
  match body with
  | Err e => failed_answer (ErrDecodeResponse e)
  | Ok resp =>
      let resp := if decide (mr_Model resp = emp) then mkMessageResponse (mr_ID resp) statusModel (mr_Content resp) (mr_Usage resp) else resp in
      match responseFromMessage m resp tools sentItems upload download with
      | (out, None) => (out, None)
      | (_, Some err) => (default zero_Response (PartialResponse err), Some err)
      end
  end.
End Stream.

(** * Streamed responses (src/adapters/llm/anthropicmessages/stream_state.go, Stream of model.go)

    The state a stream builds from the events about its blocks, and the loop over its frames. *)

(** What a frame says once its data are decoded. [QuietEvent]: the end of a message, a ping, or a type the
    client does not know. *)
Inductive WireEvent :=
| MessageStart (m : messageResponse)
| BlockStart (index : Z) (block : contentBlock)
| BlockDelta (index : Z) (delta : deltaWire)
| BlockStop (index : Z)
| MessageDelta (usage : option usageWire)
| QuietEvent.

Section StreamState.
Context {JD : JsonDecode} {WJ : WireJson} {SM : SensitivityModule}.

(** The maps by index; a missing entry of the first two is the empty string, the builders are pointers. *)
Record streamState := mkStreamState {
  ss_response : responseState;
  ss_toolIDs : gmap Z string;
  ss_toolNames : gmap Z string;
  ss_toolArgs : gmap Z string
}.
#[global] Instance rebuild_streamState : Rebuild streamState := fun s =>
  mkStreamState s.(ss_response) s.(ss_toolIDs) s.(ss_toolNames) s.(ss_toolArgs).
Definition newStreamState (tools : list ModelTool) : streamState :=
  mkStreamState (mkResponseState emp emp [] zero_usageWire (NewToolCallAssembler tools) []) ∅ ∅ ∅.
Definition ss_blocks (s : streamState) : list contentBlock := rs_blocks (ss_response s).
Definition with_blocks (s : streamState) (blocks : list contentBlock) : streamState :=
  s <| ss_response := (ss_response s) <| rs_blocks := blocks |> |>.
Definition tool_id (s : streamState) (index : Z) : string := default emp (ss_toolIDs s !! index).
Definition tool_name (s : streamState) (index : Z) : string := default emp (ss_toolNames s !! index).

(** The decoding of [applyFrame]: the type of the data, or of the frame when they have none. *)
Definition decode_frame (frame : sseFrame) : Result ModelError WireEvent :=
  let wrong {A} (r : Result string A) (k : A -> WireEvent) : Result ModelError WireEvent :=
    match r with Ok v => Ok (k v) | Err e => Err (ErrFrame e) end in
  match decode_type (fr_Data frame) with
  | Err e => Err (ErrFrame e)
  | Ok typ =>
      let eventType := if decide (typ = emp) then fr_Event frame else typ in
      if decide (eventType = "message_start"%string) then wrong (decode_message_start (fr_Data frame)) MessageStart
      else if decide (eventType = "content_block_start"%string)
      then wrong (decode_block_start (fr_Data frame)) (fun e => BlockStart e.1 e.2)
      else if decide (eventType = "content_block_delta"%string)
      then wrong (decode_block_delta (fr_Data frame)) (fun e => BlockDelta e.1 e.2)
      else if decide (eventType = "content_block_stop"%string) then wrong (decode_block_stop (fr_Data frame)) BlockStop
      else if decide (eventType = "message_delta"%string) then wrong (decode_message_delta (fr_Data frame)) MessageDelta
      else if decide (eventType = "error"%string) then
        match decode_error (fr_Data frame) with
        | Ok (kind, text) => Err (ErrProvider kind text)
        | Err e => Err (ErrFrame e)
        end
      else Ok QuietEvent
  end.

Definition delta_event (kind : StreamKind) (text : string) (index : Z) (sensitivity : Sensitivity) : StreamEvent :=
  mkStreamEvent kind text emp emp emp index emp false sensitivity emp.
Definition tool_event (kind : StreamKind) (name id : string) (index : Z) (args : string) (final : bool) : StreamEvent :=
  mkStreamEvent kind emp name id emp index args final NoSensitivity emp.

(** The handlers return [None] where the source panics. *)
Definition contentBlockStart (s : streamState) (index : Z) (block : contentBlock) : option (streamState * list StreamEvent) :=
  blocks ← ensureBlock (ss_blocks s) index;
  let s := with_blocks s (update_block blocks index (fun b => b <| bk_Type := bk_Type block |>)) in
  let s := with_blocks s (update_block (ss_blocks s) index (fun _ => block)) in
  if decide (bk_Type block = "text"%string) then
    Some (s, if decide (bk_Text block = emp) then [] else [delta_event StreamContentDelta (bk_Text block) index NoSensitivity])
  else if decide (bk_Type block = "thinking"%string) then
    Some (s, if decide (bk_Thinking block = emp) then []
             else [delta_event StreamThinkingDelta (bk_Thinking block) index SensitivityInternal])
  else if decide (bk_Type block = "tool_use"%string) then
    let s := s <| ss_toolIDs := <[index := bk_ID block]> (ss_toolIDs s) |> <| ss_toolNames := <[index := bk_Name block]> (ss_toolNames s) |>
               <| ss_toolArgs := <[index := emp]> (ss_toolArgs s) |> in
    let start := tool_event StreamToolCallStart (bk_Name block) (bk_ID block) index emp false in
    if negb (bool_decide (bk_Input block = emp)) && negb (bool_decide (bk_Input block = "null"%string))
       && negb (bool_decide (bk_Input block = "{}"%string))
    then Some (s <| ss_toolArgs := <[index := bk_Input block]> (ss_toolArgs s) |>,
               [start; tool_event StreamToolCallDelta (bk_Name block) (bk_ID block) index (bk_Input block) false])
    else Some (s, [start])
  else Some (s, []).

(** [if id := s.toolIDs[index]; id != "" { block.ID = id }] and the same for the name. *)
Definition name_block (s : streamState) (index : Z) (b : contentBlock) : contentBlock :=
  let b := if decide (tool_id s index = emp) then b else b <| bk_ID := tool_id s index |> in
  if decide (tool_name s index = emp) then b else b <| bk_Name := tool_name s index |>.

Definition contentBlockDelta (s : streamState) (index : Z) (delta : deltaWire) : option (streamState * list StreamEvent) :=
  blocks ← ensureBlock (ss_blocks s) index;
  let s := with_blocks s blocks in
  let update f := with_blocks s (update_block (ss_blocks s) index f) in
  if decide (dl_Type delta = "text_delta"%string) then
    Some (update (fun b => b <| bk_Type := "text"%string |> <| bk_Text := (bk_Text b ++ dl_Text delta)%string |>),
          [delta_event StreamContentDelta (dl_Text delta) index NoSensitivity])
  else if decide (dl_Type delta = "thinking_delta"%string) then
    Some (update (fun b => b <| bk_Type := "thinking"%string |> <| bk_Thinking := (bk_Thinking b ++ dl_Thinking delta)%string |>),
          [delta_event StreamThinkingDelta (dl_Thinking delta) index SensitivityInternal])
  else if decide (dl_Type delta = "signature_delta"%string) then
    Some (update (fun b => b <| bk_Type := "thinking"%string |> <| bk_Signature := dl_Signature delta |>), [])
  else if decide (dl_Type delta = "input_json_delta"%string) then
    let builder := (default emp (ss_toolArgs s !! index) ++ dl_PartialJSON delta)%string in
    let s := s <| ss_toolArgs := <[index := builder]> (ss_toolArgs s) |> in
    Some (with_blocks s (update_block (ss_blocks s) index (fun b =>
            let b := name_block s index (b <| bk_Type := "tool_use"%string |>) in
            if decide (builder = emp) then b else b <| bk_Input := builder |>)),
          [tool_event StreamToolCallDelta (tool_name s index) (tool_id s index) index (dl_PartialJSON delta) false])
  else Some (s, []).

(** The arguments of a block that stops. *)
Definition stop_arguments (block : contentBlock) (builder : string) : string :=
  let args := if bool_decide (bk_Input block = emp) || blank (bk_Input block) || bool_decide (TrimSpace (bk_Input block) = "null"%string)
              then "{}"%string else bk_Input block in
  if decide (builder = emp) then args else builder.
Definition contentBlockStop (s : streamState) (index : Z) : option (streamState * Result ModelError (list StreamEvent)) :=
  blocks ← ensureBlock (ss_blocks s) index;
  let s := with_blocks s blocks in
  let block := block_at (ss_blocks s) index in
  if decide (bk_Type block <> "tool_use"%string) then Some (s, Ok []) else
  let args := stop_arguments block (default emp (ss_toolArgs s !! index)) in
  let block := (name_block s index block) <| bk_Input := args |> in
  let s := with_blocks s (update_block (ss_blocks s) index (fun _ => block)) in
  let s := s <| ss_toolArgs := delete index (ss_toolArgs s) |> in
  let '(a, r) := Apply (rs_assembler (ss_response s)) (done_event (bk_Name block) (bk_ID block) index args) in
  let s := s <| ss_response := (ss_response s) <| rs_assembler := a |> |> in
  match r with
  | Err e => Some (s, Err (ErrTool e))
  | Ok reqs =>
      Some (s <| ss_response := (ss_response s) <| rs_operations := rs_operations (ss_response s) ++ reqs |> |>,
            Ok [tool_event StreamToolCallDone (bk_Name block) (bk_ID block) index emp true])
  end.

Definition apply_wire (s : streamState) (ev : WireEvent) : option (streamState * Result ModelError (list StreamEvent)) :=
  let quiet r := Some (s <| ss_response := r |>, Ok []) in
  let said o := match o with Some (s, events) => Some (s, Ok events) | None => None end in
  match ev with
  | MessageStart m =>
      quiet ((ss_response s) <| rs_messageID := mr_ID m |> <| rs_model := mr_Model m |>
        <| rs_usage := mergeUsage (rs_usage (ss_response s)) (mr_Usage m) |>)
  | BlockStart index block => said (contentBlockStart s index block)
  | BlockDelta index delta => said (contentBlockDelta s index delta)
  | BlockStop index => contentBlockStop s index
  | MessageDelta (Some usage) => quiet ((ss_response s) <| rs_usage := mergeUsage (rs_usage (ss_response s)) usage |>)
  | MessageDelta None | QuietEvent => Some (s, Ok [])
  end.
Definition applyFrame (s : streamState) (frame : sseFrame) : option (streamState * Result ModelError (list StreamEvent)) :=
  match decode_frame frame with
  | Err e => Some (s, Err e)
  | Ok ev => apply_wire s ev
  end.

(** ** The loop of [Stream] *)

(** How the loop ends, with the state and the pieces emitted until then. *)
Inductive LoopEnd := AtEOF | BadBody (e : ScanError) | BadFrame (e : ModelError) | Panicked.
(** [None] is a loop that did not end within the fuel. *)
Fixpoint stream_loop (fuel : nat) (d : sseDecoder) (s : streamState) : option (streamState * list StreamEvent * LoopEnd) :=
  match fuel with
  | O => None
  | S fuel =>
      match Next d with
      | (_, Err EOF) => Some (s, [], AtEOF)
      | (_, Err (NextScan e)) => Some (s, [], BadBody e)
      | (d, Ok frame) =>
          match applyFrame s frame with
          | None => Some (s, [], Panicked)
          | Some (s, Err e) => Some (s, [], BadFrame e)
          | Some (s, Ok events) =>
              match stream_loop fuel d s with
              | Some (s, rest, e) => Some (s, events ++ rest, e)
              | None => None
              end
          end
      end
  end.

Inductive StreamResult := StreamPanic | StreamAnswer (a : Answer).
(** The answer of a state the loop has ended in. *)
Definition stream_answer (m : ModelConfig) (sentItems : list Item) (upload download : Z) (s : streamState) (e : LoopEnd) : StreamResult :=
  match e with
  | Panicked => StreamPanic
  | BadBody e => StreamAnswer (failed_answer (ErrStreamDecode e))
  | BadFrame e =>
      let resp := partial_response m (ss_response s) sentItems upload download in
      StreamAnswer (resp, Some (PartialError resp e))
  | AtEOF =>
      match toRuntime (ss_response s) (model_identity m (rs_model (ss_response s))) (mc_pricing m) with
      | Err e => StreamAnswer (failed_answer (ErrTool e))
      | Ok out => StreamAnswer (with_request m (rs_model (ss_response s)) sentItems upload download out, None)
      end
  end.
(** The fuel is what the decoder has to read, so the loop ends. *)
Definition StreamBody (m : ModelConfig) (redactor : Redactor) (body : Body) (tools : list ModelTool) (sentItems : list Item)
    (upload download : Z) : option (list RuntimeStream * StreamResult) :=
  let d := newSSEDecoder body in
  match stream_loop (S (decoder_size d)) d (newStreamState tools) with
  | None => None
  | Some (s, events, e) => Some (omap (ToRuntimeStream redactor) events, stream_answer m sentItems upload download s e)
  end.

(** A stream always ends. *)
Lemma stream_loop_ends fuel d s : decoder_size d < fuel -> exists out, stream_loop fuel d s = Some out.
Proof.
  revert d s. induction fuel as [|fuel IH]; intros d s H; [lia|]. cbn. destruct (Next d) as [d' [f|[|e]]] eqn:E; [|by eexists..].
  apply next_smaller in E. destruct (applyFrame s f) as [[s' [events|e]]|]; [|by eexists..].
  destruct (IH d' s') as [[[s2 rest] e] ->]; [lia|]. by eexists.
Qed.
Lemma stream_ends m redactor body tools sentItems upload download :
  exists out, StreamBody m redactor body tools sentItems upload download = Some out.
Proof.
  unfold StreamBody. destruct (stream_loop_ends (S (decoder_size (newSSEDecoder body))) (newSSEDecoder body) (newStreamState tools))
    as [[[s events] e] ->]; [lia|]. by eexists.
Qed.
End StreamState.
