(* ===== verification/Streaming.v ===== *)
(** * A streamed response is the whole response

    The events about the blocks of a message, sent in any interleaving that stops the blocks in order,
    give the response that the message gives when it arrives whole. *)

From S2P Require Import Prelude Operation OpModel WorkerText Conversation AgentModel NamedInstance SessionTurn Usage ModelTools Assembler Sse ModelStream.

(** ** The events of a message *)

Definition wire_index (ev : WireEvent) : option Z :=
  match ev with BlockStart i _ | BlockDelta i _ | BlockStop i => Some i | _ => None end.
Definition about (i : Z) (evs : list WireEvent) : list WireEvent := filter (fun ev => wire_index ev = Some i) evs.
Definition started (ev : WireEvent) : option (string * string) :=
  match ev with MessageStart m => Some (mr_ID m, mr_Model m) | _ => None end.
Definition stopped (ev : WireEvent) : option Z := match ev with BlockStop i => Some i | _ => None end.
Definition report (u : usageWire) (ev : WireEvent) : usageWire :=
  match ev with
  | MessageStart m => mergeUsage u (mr_Usage m)
  | MessageDelta (Some v) => mergeUsage u v
  | _ => u
  end.

(** The input a tool block starts with, as far as its builder is concerned. *)
Definition given_input (b : contentBlock) : string :=
  if bool_decide (bk_Input b = emp) || bool_decide (bk_Input b = "null"%string) || bool_decide (bk_Input b = "{}"%string)
  then emp else bk_Input b.
Definition or_object (input : string) : string := if decide (input = emp) then "{}"%string else input.
Definition thought (d : deltaWire) : string := if decide (dl_Type d = "thinking_delta"%string) then dl_Thinking d else emp.
Definition signed (d : deltaWire) : option string := if decide (dl_Type d = "signature_delta"%string) then Some (dl_Signature d) else None.

(** The events that send the block [b] in pieces. *)
Inductive block_script (i : Z) : contentBlock -> list WireEvent -> Prop :=
| text_script b deltas :
    bk_Type b = "text"%string -> Forall (fun d => dl_Type d = "text_delta"%string) deltas ->
    block_script i (b <| bk_Text := (bk_Text b ++ concat_all (dl_Text <$> deltas))%string |>)
      ((BlockStart i b :: (BlockDelta i <$> deltas)) ++ [BlockStop i])
| thinking_script b deltas :
    bk_Type b = "thinking"%string ->
    Forall (fun d => dl_Type d = "thinking_delta"%string \/ dl_Type d = "signature_delta"%string) deltas ->
    block_script i (b <| bk_Thinking := (bk_Thinking b ++ concat_all (thought <$> deltas))%string |>
                      <| bk_Signature := default (bk_Signature b) (last (omap signed deltas)) |>)
      ((BlockStart i b :: (BlockDelta i <$> deltas)) ++ [BlockStop i])
| tool_script b deltas :
    bk_Type b = "tool_use"%string -> Forall (fun d => dl_Type d = "input_json_delta"%string) deltas ->
    (given_input b ++ concat_all (dl_PartialJSON <$> deltas))%string <> "null"%string ->
    block_script i (b <| bk_Input := or_object (given_input b ++ concat_all (dl_PartialJSON <$> deltas)) |>)
      ((BlockStart i b :: (BlockDelta i <$> deltas)) ++ [BlockStop i])
| other_script b :
    bk_Type b ∉ ["text"; "thinking"; "tool_use"]%string -> block_script i b ([BlockStart i b] ++ [BlockStop i]).

Record streamed (m : messageResponse) (evs : list WireEvent) : Prop := {
  sm_started : omap started evs = [(mr_ID m, mr_Model m)];
  sm_usage : fold_left report evs zero_usageWire = mr_Usage m;
  sm_blocks i b : mr_Content m !! i = Some b -> block_script (Z.of_nat i) b (about (Z.of_nat i) evs);
  sm_only ev i : ev ∈ evs -> wire_index ev = Some i -> (0 <= i < Z.of_nat (length (mr_Content m)))%Z;
  sm_stops : omap stopped evs = Z.of_nat <$> seq 0 (length (mr_Content m))
}.

Section Streaming.
Context {JD : JsonDecode} {WJ : WireJson} {SM : SensitivityModule}.

(** ** One block *)

(** What the state holds about one index. *)
Record slot := mkSlot { sl_block : contentBlock; sl_id : option string; sl_name : option string; sl_args : option string }.
Definition zero_slot : slot := mkSlot zero_block None None None.
Definition slot_of (s : streamState) (i : Z) : slot :=
  mkSlot (block_at (ss_blocks s) i) (ss_toolIDs s !! i) (ss_toolNames s !! i) (ss_toolArgs s !! i).

Definition slot_named (sl : slot) (b : contentBlock) : contentBlock :=
  let id := default emp (sl_id sl) in let name := default emp (sl_name sl) in
  let b := if decide (id = emp) then b else b <| bk_ID := id |> in
  if decide (name = emp) then b else b <| bk_Name := name |>.
Definition slot_start (sl : slot) (block : contentBlock) : slot :=
  if decide (bk_Type block = "tool_use"%string)
  then mkSlot block (Some (bk_ID block)) (Some (bk_Name block)) (Some (given_input block))
  else mkSlot block (sl_id sl) (sl_name sl) (sl_args sl).
Definition slot_delta (sl : slot) (d : deltaWire) : slot :=
  let keep b := mkSlot b (sl_id sl) (sl_name sl) (sl_args sl) in
  let b := sl_block sl in
  if decide (dl_Type d = "text_delta"%string) then keep (b <| bk_Type := "text"%string |> <| bk_Text := (bk_Text b ++ dl_Text d)%string |>)
  else if decide (dl_Type d = "thinking_delta"%string)
  then keep (b <| bk_Type := "thinking"%string |> <| bk_Thinking := (bk_Thinking b ++ dl_Thinking d)%string |>)
  else if decide (dl_Type d = "signature_delta"%string)
  then keep (b <| bk_Type := "thinking"%string |> <| bk_Signature := dl_Signature d |>)
  else if decide (dl_Type d = "input_json_delta"%string) then
    let builder := (default emp (sl_args sl) ++ dl_PartialJSON d)%string in
    let b := slot_named sl (b <| bk_Type := "tool_use"%string |>) in
    mkSlot (if decide (builder = emp) then b else b <| bk_Input := builder |>) (sl_id sl) (sl_name sl) (Some builder)
  else sl.
Definition slot_stop (sl : slot) : slot :=
  let b := sl_block sl in
  if decide (bk_Type b <> "tool_use"%string) then sl
  else mkSlot ((slot_named sl b) <| bk_Input := stop_arguments b (default emp (sl_args sl)) |>) (sl_id sl) (sl_name sl) None.
Definition slot_step (sl : slot) (ev : WireEvent) : slot :=
  match ev with
  | BlockStart _ block => slot_start sl block
  | BlockDelta _ d => slot_delta sl d
  | BlockStop _ => slot_stop sl
  | _ => sl
  end.

(** ** A block from its script *)

Lemma script_shape i b evs : block_script i b evs -> exists b0 deltas, evs = (BlockStart i b0 :: (BlockDelta i <$> deltas)) ++ [BlockStop i].
Proof. intros [b0 ds|b0 ds|b0 ds|b0]; [by exists b0, ds..|by exists b0, []]. Qed.

Lemma text_slot b deltas sl :
  bk_Type b = "text"%string -> Forall (fun d => dl_Type d = "text_delta"%string) deltas -> sl_block sl = b ->
  sl_block (fold_left slot_delta deltas sl) = b <| bk_Text := (bk_Text b ++ concat_all (dl_Text <$> deltas))%string |>.
Proof.
  intros Hb Hd. revert b sl Hb. induction Hd as [|d deltas Hd _ IH]; intros b sl Hb Hs; cbn.
  - rewrite append_nil_r, Hs. by destruct b.
  - assert (Hstep : sl_block (slot_delta sl d) = b <| bk_Text := (bk_Text b ++ dl_Text d)%string |>).
    { unfold slot_delta. rewrite decide_True by done. cbn. rewrite Hs. destruct b. cbn in *. by subst. }
    pose proof (fun H => IH _ _ H Hstep) as IH'. rewrite IH' by (by destruct b). cbn. by rewrite append_assoc.
Qed.

Lemma thinking_slot b deltas sl :
  bk_Type b = "thinking"%string ->
  Forall (fun d => dl_Type d = "thinking_delta"%string \/ dl_Type d = "signature_delta"%string) deltas -> sl_block sl = b ->
  sl_block (fold_left slot_delta deltas sl) =
  b <| bk_Thinking := (bk_Thinking b ++ concat_all (thought <$> deltas))%string |>
    <| bk_Signature := default (bk_Signature b) (last (omap signed deltas)) |>.
Proof.
  intros Hb Hd. revert b sl Hb. induction Hd as [|d deltas Hd _ IH]; intros b sl Hb Hs.
  - cbn. rewrite append_nil_r, Hs. by destruct b.
  - cbn [fold_left fmap list_fmap omap list_omap].
    assert (Hstep : sl_block (slot_delta sl d) = b <| bk_Thinking := (bk_Thinking b ++ thought d)%string |>
      <| bk_Signature := default (bk_Signature b) (signed d) |>).
    { unfold slot_delta, thought, signed. destruct Hd as [-> | ->]; cbn; rewrite Hs; destruct b; cbn in *; subst; [done|].
      by rewrite append_nil_r. }
    pose proof (fun H => IH _ _ H Hstep) as IH'. rewrite IH' by (by destruct b). cbn. rewrite append_assoc. destruct (signed d) as [x|]; [|done].
    change (default (bk_Signature b) (last (x :: omap signed deltas))) with (default (bk_Signature b) (last ([x] ++ omap signed deltas))).
    rewrite last_app. by destruct (last (omap signed deltas)).
Qed.

(** After the start of a tool block: its builder, and its input once the builder is not empty. *)
Definition tool_slot (b : contentBlock) (sent : string) : slot :=
  mkSlot (if decide (sent = emp) then b else b <| bk_Input := sent |>) (Some (bk_ID b)) (Some (bk_Name b)) (Some sent).
Lemma tool_slot_start b sl : bk_Type b = "tool_use"%string -> slot_start sl b = tool_slot b (given_input b).
Proof.
  intros Hb. unfold slot_start, tool_slot. rewrite decide_True by done. f_equal. unfold given_input.
  destruct (_ || _ || _); cbn; [done|]. case_decide; [done|]. by destruct b.
Qed.
Lemma tool_slot_delta b sent d :
  bk_Type b = "tool_use"%string -> dl_Type d = "input_json_delta"%string ->
  slot_delta (tool_slot b sent) d = tool_slot b (sent ++ dl_PartialJSON d).
Proof.
  intros Hb Hd. unfold slot_delta. rewrite Hd. cbn. unfold slot_named, tool_slot. cbn.
  destruct b. cbn in *. repeat case_decide; subst; cbn; try congruence; try (by destruct sent).
Qed.
Lemma tool_slot_deltas b sent deltas :
  bk_Type b = "tool_use"%string -> Forall (fun d => dl_Type d = "input_json_delta"%string) deltas ->
  fold_left slot_delta deltas (tool_slot b sent) = tool_slot b (sent ++ concat_all (dl_PartialJSON <$> deltas)).
Proof.
  intros Hb Hd. revert sent. induction Hd as [|d deltas Hd _ IH]; intros sent; cbn; [by rewrite append_nil_r|].
  by rewrite tool_slot_delta, IH, append_assoc by done.
Qed.

(** What the script of a block leaves when it stops. *)
Definition finished (b : contentBlock) (body : list WireEvent) : Prop :=
  let sl := fold_left slot_step body zero_slot in
  if decide (bk_Type b = "tool_use"%string)
  then bk_Type (sl_block sl) = "tool_use"%string /\ sl_block (slot_stop sl) = b /\ bk_Input b <> emp /\ bk_Input b <> "null"%string
  else sl_block sl = b.

Lemma fold_deltas i deltas sl : fold_left slot_step (BlockDelta i <$> deltas) sl = fold_left slot_delta deltas sl.
Proof. revert sl. induction deltas as [|d deltas IH]; intros sl; [done|]. apply IH. Qed.

Lemma slot_start_block sl b : sl_block (slot_start sl b) = b.
Proof. unfold slot_start. by case_decide. Qed.

Lemma given_nil b : given_input b = emp -> bk_Input b = emp \/ bk_Input b = "null"%string \/ bk_Input b = "{}"%string.
Proof. unfold given_input. repeat case_bool_decide; cbn; auto. Qed.

Lemma tool_finished b sent :
  bk_Type b = "tool_use"%string -> sent <> "null"%string -> (sent = emp -> given_input b = emp) ->
  sl_block (slot_stop (tool_slot b sent)) = b <| bk_Input := or_object sent |>.
Proof.
  intros Hb Hn Hg. unfold slot_stop. cbn. rewrite decide_False by (intros H; apply H; by case_decide). cbn.
  unfold slot_named. cbn. unfold stop_arguments, or_object. destruct (decide (sent = emp)) as [->|Hs].
  - destruct (given_nil b (Hg eq_refl)) as [E|[E|E]]; rewrite E; destruct b; cbn in *; subst; by repeat case_decide.
  - destruct b; cbn in *. by repeat case_decide; subst.
Qed.

Lemma script_finished i b evs : block_script i b evs ->
  exists body, evs = body ++ [BlockStop i] /\ Forall (fun ev => stopped ev = None) body /\ finished b body.
Proof.
  assert (Hq : forall ds, Forall (fun ev => stopped ev = None) (BlockDelta i <$> ds)) by (intros ds; by apply Forall_fmap, Forall_true).
  intros H. pose proof H as Hshape. destruct Hshape as [b0 ds Hb Hd|b0 ds Hb Hd|b0 ds Hb Hd Hn|b0 Hb]; (eexists; split; [reflexivity|]);
    (split; [constructor; [done|]; try apply Hq; constructor|]); unfold finished; cbn [fold_left slot_step]; rewrite ?fold_deltas.
  - rewrite decide_False by (destruct b0; cbn in *; by subst). by rewrite text_slot with (b := b0) by (done || apply slot_start_block).
  - rewrite decide_False by (destruct b0; cbn in *; by subst). by rewrite thinking_slot with (b := b0) by (done || apply slot_start_block).
  - rewrite decide_True by (by destruct b0). rewrite tool_slot_start, tool_slot_deltas by done. split_and!.
    + cbn. by case_decide.
    + apply tool_finished; [done..|]. intros E. by destruct (given_input b0).
    + destruct b0; cbn. unfold or_object. by case_decide.
    + destruct b0; cbn. unfold or_object. by case_decide.
  - rewrite decide_False by set_solver. apply slot_start_block.
Qed.

(** ** The state and its slots *)

Lemma alter_at {A} (f : A -> A) (l : list A) i x : l !! i = Some x -> alter f i l = <[i := f x]> l.
Proof. revert i. induction l as [|y l IH]; intros [|i]; cbn; [done..|by intros [= ->]|]. intros H. change (alter f (S i) (y :: l)) with (y :: alter f i l). by rewrite IH. Qed.

Lemma ensure_some blocks index :
  (0 <= index)%Z -> exists blocks', ensureBlock blocks index = Some blocks' /\
    length blocks' = Nat.max (length blocks) (Z.to_nat index + 1) /\ (forall j, block_at blocks' j = block_at blocks j) /\
    blocks' !! Z.to_nat index = Some (block_at blocks index).
Proof.
  intros H. unfold ensureBlock. rewrite (proj2 (Z.ltb_ge _ _) H). eexists. split; [done|].
  assert (Hat : forall k, default zero_block ((blocks ++ replicate (Z.to_nat (index + 1) - length blocks) zero_block) !! k) = default zero_block (blocks !! k)).
  { intros k. destruct (decide (k < length blocks)) as [Hk|Hk]; [by rewrite lookup_app_l|].
    rewrite lookup_app_r, (lookup_ge_None_2 blocks k) by lia.
    destruct (replicate _ _ !! _) as [x|] eqn:E; [|done]. by apply lookup_replicate in E as [-> _]. }
  assert (Hlen : length (blocks ++ replicate (Z.to_nat (index + 1) - length blocks) zero_block) = Nat.max (length blocks) (Z.to_nat index + 1)).
  { rewrite length_app, length_replicate. lia. }
  split; [done|]. split; [by intros j; apply Hat|]. specialize (Hat (Z.to_nat index)).
  destruct (lookup_lt_is_Some_2 (blocks ++ replicate (Z.to_nat (index + 1) - length blocks) zero_block) (Z.to_nat index)) as [x Hx]; [rewrite Hlen; lia|].
  rewrite Hx in Hat |- *. cbn in Hat. by rewrite Hat.
Qed.

(** The state with another slot at an index. *)
Definition put (s : streamState) (i : Z) (sl : slot) : streamState :=
  mkStreamState ((ss_response s) <| rs_blocks := <[Z.to_nat i := sl_block sl]> (default [] (ensureBlock (ss_blocks s) i)) |>)
    (partial_alter (fun _ => sl_id sl) i (ss_toolIDs s)) (partial_alter (fun _ => sl_name sl) i (ss_toolNames s))
    (partial_alter (fun _ => sl_args sl) i (ss_toolArgs s)).

Lemma slot_put s i sl j : (0 <= i)%Z -> (0 <= j)%Z -> slot_of (put s i sl) j = if decide (i = j) then sl else slot_of s j.
Proof.
  intros Hi Hj. destruct (ensure_some (ss_blocks s) i Hi) as (blocks & Hb & Hlen & Hat & _).
  unfold slot_of, put. rewrite Hb. unfold ss_blocks at 1. cbn. unfold block_at in Hat |- *. case_decide as E.
  - subst j. rewrite !lookup_partial_alter_eq. rewrite list_lookup_insert_eq by lia. by destruct sl.
  - rewrite !lookup_partial_alter_ne by done. rewrite list_lookup_insert_ne by lia. f_equal. apply Hat.
Qed.
Lemma put_length s i sl : (0 <= i)%Z -> length (ss_blocks (put s i sl)) = Nat.max (length (ss_blocks s)) (Z.to_nat i + 1).
Proof.
  intros Hi. destruct (ensure_some (ss_blocks s) i Hi) as (blocks & Hb & Hlen & _). unfold put. rewrite Hb. unfold ss_blocks at 1. cbn. by rewrite length_insert.
Qed.

(** The effect of an event about a block is that on its slot. *)
Lemma put_eq s i sl blocks ids names args :
  ensureBlock (ss_blocks s) i = Some blocks ->
  ids = partial_alter (fun _ => sl_id sl) i (ss_toolIDs s) -> names = partial_alter (fun _ => sl_name sl) i (ss_toolNames s) ->
  args = partial_alter (fun _ => sl_args sl) i (ss_toolArgs s) ->
  put s i sl = mkStreamState ((ss_response s) <| rs_blocks := <[Z.to_nat i := sl_block sl]> blocks |>) ids names args.
Proof. intros Hb -> -> ->. unfold put. by rewrite Hb. Qed.
Lemma same_entry {A} (m : gmap Z A) i : m = partial_alter (fun _ => m !! i) i m.
Proof. by rewrite partial_alter_self. Qed.

Lemma blocks_with s blocks : ss_blocks (with_blocks s blocks) = blocks.
Proof. done. Qed.
Lemma with_with s blocks blocks' : with_blocks (with_blocks s blocks) blocks' = with_blocks s blocks'.
Proof. done. Qed.

Lemma start_put s i block : (0 <= i)%Z -> exists events, contentBlockStart s i block = Some (put s i (slot_start (slot_of s i) block), events).
Proof.
  intros Hi. destruct (ensure_some (ss_blocks s) i Hi) as (blocks & Hb & _ & _ & Hl). unfold contentBlockStart. rewrite Hb. cbn [mbind option_bind]. cbv zeta.
  unfold update_block. rewrite (alter_at _ blocks _ _ Hl), blocks_with, with_with.
  erewrite alter_at by (apply list_lookup_insert_eq; by eapply lookup_lt_Some). rewrite list_insert_insert_eq.
  unfold slot_start, given_input.
  destruct (decide (bk_Type block = "text"%string)) as [E|_]; [|destruct (decide (bk_Type block = "thinking"%string)) as [E|_]].
  1,2: eexists; rewrite (decide_False (P := bk_Type block = "tool_use"%string)) by (by rewrite E);
    do 2 f_equal; symmetry; apply put_eq; try done; apply same_entry.
  destruct (decide (bk_Type block = "tool_use"%string)) as [E|E].
  - repeat case_bool_decide; cbn; eexists; do 2 f_equal; symmetry; apply put_eq; try done. cbn. by rewrite insert_insert_eq.
  - eexists; do 2 f_equal; symmetry; apply put_eq; try done; apply same_entry.
Qed.

Lemma name_slot s i b : name_block s i b = slot_named (slot_of s i) b.
Proof. done. Qed.

Lemma delta_put s i d : (0 <= i)%Z -> exists events, contentBlockDelta s i d = Some (put s i (slot_delta (slot_of s i) d), events).
Proof.
  intros Hi. destruct (ensure_some (ss_blocks s) i Hi) as (blocks & Hb & _ & _ & Hl).
  assert (Hput : forall b, with_blocks s (<[Z.to_nat i := b]> blocks) = put s i (mkSlot b (ss_toolIDs s !! i) (ss_toolNames s !! i) (ss_toolArgs s !! i))).
  { intros b. symmetry. apply put_eq; try done; apply same_entry. }
  unfold contentBlockDelta, slot_delta. rewrite Hb. cbn [mbind option_bind]. cbv zeta. unfold update_block.
  rewrite blocks_with, !(alter_at _ blocks _ _ Hl). rewrite !with_with.
  do 3 (case_decide; [eexists; by rewrite Hput|]).
  case_decide; [|eexists; rewrite <- (list_insert_id _ _ _ Hl) at 1; by rewrite Hput].
  eexists. erewrite (put_eq s i) by (exact Hb || apply same_entry || reflexivity). reflexivity.
Qed.

(** A block that stops is done when it calls a tool. *)
Lemma stop_put s i :
  (0 <= i)%Z ->
  contentBlockStop s i =
  let sl := slot_stop (slot_of s i) in
  let s' := put s i sl in
  if decide (bk_Type (sl_block (slot_of s i)) <> "tool_use"%string) then Some (s', Ok []) else
  let block := sl_block sl in
  let '(a, r) := Apply (rs_assembler (ss_response s)) (done_event (bk_Name block) (bk_ID block) i (bk_Input block)) in
  let s' := s' <| ss_response := (ss_response s') <| rs_assembler := a |> |> in
  match r with
  | Err e => Some (s', Err (ErrTool e))
  | Ok reqs =>
      Some (s' <| ss_response := (ss_response s') <| rs_operations := rs_operations (ss_response s') ++ reqs |> |>,
            Ok [tool_event StreamToolCallDone (bk_Name block) (bk_ID block) i emp true])
  end.
Proof.
  intros Hi. destruct (ensure_some (ss_blocks s) i Hi) as (blocks & Hb & _ & Hat & Hl).
  unfold contentBlockStop, slot_stop. rewrite Hb. cbn [mbind option_bind]. cbv zeta. rewrite blocks_with, Hat.
  change (sl_block (slot_of s i)) with (block_at (ss_blocks s) i).
  destruct (decide (bk_Type (block_at (ss_blocks s) i) <> "tool_use"%string)).
  - do 2 f_equal. rewrite <- (list_insert_id _ _ _ Hl) at 1. symmetry. apply put_eq; try done; apply same_entry.
  - erewrite (put_eq s i) by (exact Hb || apply same_entry || reflexivity). cbn [sl_block sl_args].
    unfold update_block. rewrite (alter_at _ blocks _ _ Hl). reflexivity.
Qed.

(** ** The calls of a message *)

Section Message.
Variable tools : list ModelTool.

(** The request of a finished block, as an assembler without open calls makes it. *)
Definition block_request (i : Z) (b : contentBlock) : Result ToolError OperationRequest :=
  operationRequest (toolByName tools)
    (mkPendingCall (call_key (done_event (bk_Name b) (bk_ID b) i (message_arguments b))) emp i (bk_Name b) (message_arguments b) true).
Definition block_requests (i : Z) (b : contentBlock) : Result ToolError (list OperationRequest) :=
  if decide (bk_Type b = "tool_use"%string) then (let? req := block_request i b in Ok [req]) else Ok [].
Fixpoint collect {E A} (l : list (Result E (list A))) : Result E (list A) :=
  match l with
  | [] => Ok []
  | r :: rest => let? x := r in let? y := collect rest in Ok (x ++ y)
  end.
Lemma collect_app {E A} (l k : list (Result E (list A))) : collect (l ++ k) = (let? x := collect l in let? y := collect k in Ok (x ++ y)).
Proof.
  induction l as [|r l IH]; cbn; [by destruct (collect k)|]. destruct r as [x|]; cbn; [|done]. rewrite IH.
  destruct (collect l); cbn; [|done]. destruct (collect k); cbn; [by rewrite app_assoc|done].
Qed.

Lemma apply_done name id i args :
  exists a, Apply (NewToolCallAssembler tools) (done_event name id i args) =
    match operationRequest (toolByName tools) (mkPendingCall (call_key (done_event name id i args)) emp i name args true) with
    | Ok req => (NewToolCallAssembler tools, Ok [req])
    | Err e => (a, Err e)
    end.
Proof.
  unfold Apply. change (is_tool_event (done_event name id i args)) with true. cbn [negb]. cbv zeta.
  set (evt := done_event name id i args). rewrite (decide_True (P := se_Kind evt = StreamToolCallDone)) by done.
  assert (note_event (assembler_call (NewToolCallAssembler tools) evt) evt = mkPendingCall (call_key evt) emp i name args true) as ->.
  { unfold note_event, assembler_call, new_call. cbn. by repeat case_decide; subst. }
  destruct (operationRequest _ _) as [req|e]; [|by eexists]. exists (NewToolCallAssembler tools). cbn. unfold NewToolCallAssembler.
  by rewrite delete_insert_id.
Qed.

(** The whole message. *)
Lemma assemble_exact blocks s n :
  rs_assembler s = NewToolCallAssembler tools ->
  match collect (imap (fun k b => block_requests (n + Z.of_nat k) b) blocks) with
  | Ok reqs => assemble_blocks s n blocks = Ok (s <| rs_operations := rs_operations s ++ reqs |>)
  | Err e => exists s', assemble_blocks s n blocks = Err (s', e)
  end.
Proof.
  intros Ha. revert s n Ha. induction blocks as [|b blocks IH]; intros s n Ha; cbn [imap collect assemble_blocks].
  { rewrite app_nil_r. by destruct s. }
  rewrite Z.add_0_r. assert (Hs : s <| rs_assembler := NewToolCallAssembler tools |> = s) by (destruct s; cbn in *; by subst).
  assert (Himap : imap (fun k c => block_requests (n + Z.of_nat (S k)) c) blocks = imap (fun k c => block_requests (n + 1 + Z.of_nat k) c) blocks).
  { apply imap_ext. intros k c _. f_equal. lia. }
  change (imap ((fun k c => block_requests (n + Z.of_nat k) c) ∘ S) blocks) with (imap (fun k c => block_requests (n + Z.of_nat (S k)) c) blocks).
  rewrite Himap. unfold block_requests at 1. case_decide as Ht.
  - rewrite decide_False by (by intros []).
    rewrite Ha. destruct (apply_done (bk_Name b) (bk_ID b) n (message_arguments b)) as [a ->]. fold (block_request n b).
    destruct (block_request n b) as [req|e]; cbn [res_bind]; [|by eexists]. rewrite Hs.
    match goal with |- context [assemble_blocks ?s' (n + 1) blocks] => specialize (IH s' (n + 1)%Z Ha) end. revert IH.
    destruct (collect (imap _ blocks)) as [out|e]; cbn [res_bind]; [|intros [x Hx]; exists x; exact Hx].
    intros ->. cbn. by rewrite <- app_assoc.
  - rewrite decide_True by done. specialize (IH s (n + 1)%Z Ha). revert IH. cbn [res_bind].
    destruct (collect (imap _ blocks)) as [out|e]; cbn [res_bind]; [done|intros [x Hx]; exists x; exact Hx].
Qed.

(** ** The stream *)

Variable m : messageResponse.
Definition stop_requests (i : Z) : Result ToolError (list OperationRequest) :=
  match mr_Content m !! Z.to_nat i with Some b => block_requests i b | None => Ok [] end.

(** What the state holds after the events [p] of a message. *)
Record progress (p : list WireEvent) (s : streamState) : Prop := {
  pg_slots i : (0 <= i)%Z -> slot_of s i = fold_left slot_step (about i p) zero_slot;
  pg_short : length (ss_blocks s) <= length (mr_Content m);
  pg_long ev i : ev ∈ p -> wire_index ev = Some i -> (i < Z.of_nat (length (ss_blocks s)))%Z;
  pg_started : (rs_messageID (ss_response s), rs_model (ss_response s)) = default (emp, emp) (last (omap started p));
  pg_usage : rs_usage (ss_response s) = fold_left report p zero_usageWire;
  pg_assembler : rs_assembler (ss_response s) = NewToolCallAssembler tools;
  pg_requests : collect (stop_requests <$> omap stopped p) = Ok (rs_operations (ss_response s))
}.

Lemma progress_new : progress [] (newStreamState tools).
Proof. split; try done; cbn; try lia. intros ev i H. by apply elem_of_nil in H. Qed.

Lemma about_snoc i p ev : about i (p ++ [ev]) = about i p ++ (if decide (wire_index ev = Some i) then [ev] else []).
Proof. unfold about. by rewrite filter_app, filter_cons, filter_nil. Qed.

(** An event that is not about a block. *)
Lemma progress_quiet p s ev r :
  progress p s -> wire_index ev = None -> stopped ev = None ->
  rs_blocks r = rs_blocks (ss_response s) -> rs_assembler r = rs_assembler (ss_response s) ->
  rs_operations r = rs_operations (ss_response s) ->
  (rs_messageID r, rs_model r) = default (rs_messageID (ss_response s), rs_model (ss_response s)) (started ev) ->
  rs_usage r = report (rs_usage (ss_response s)) ev ->
  progress (p ++ [ev]) (mkStreamState r (ss_toolIDs s) (ss_toolNames s) (ss_toolArgs s)).
Proof.
  intros [H1 H2 H3 H4 H5 H6 H7] Hw Hst Hb Ha Ho Hid Hu. split; unfold ss_blocks in *; cbn [ss_response]; rewrite ?Hb.
  - intros i Hi. rewrite about_snoc, Hw, decide_False, app_nil_r, <- H1 by done. unfold slot_of, ss_blocks. cbn. by rewrite Hb.
  - done.
  - intros e i [He|He%list_elem_of_singleton]%elem_of_app; [by apply H3|]. subst e. by rewrite Hw.
  - rewrite Hid, omap_app, last_app. cbn. destruct (started ev) as [[id model]|]; cbn; [done|]. by rewrite H4.
  - by rewrite Hu, fold_left_app, H5.
  - by rewrite Ha.
  - rewrite omap_app. cbn. by rewrite Hst, app_nil_r, Ho.
Qed.

(** An event about a block. *)
Lemma progress_block p s s' ev i ops :
  progress p s -> wire_index ev = Some i -> (0 <= i < Z.of_nat (length (mr_Content m)))%Z ->
  let s0 := put s i (slot_step (slot_of s i) ev) in
  s' = mkStreamState ((ss_response s0) <| rs_assembler := NewToolCallAssembler tools |> <| rs_operations := rs_operations (ss_response s) ++ ops |>)
         (ss_toolIDs s0) (ss_toolNames s0) (ss_toolArgs s0) ->
  collect (stop_requests <$> omap stopped [ev]) = Ok ops ->
  progress (p ++ [ev]) s'.
Proof.
  intros [H1 H2 H3 H4 H5 H6 H7] Hw Hi s0 -> Hc.
  assert (Hlen : length (ss_blocks s0) = Nat.max (length (ss_blocks s)) (Z.to_nat i + 1)) by (apply put_length; lia).
  assert (Hst : started ev = None /\ forall u, report u ev = u) by by destruct ev.
  destruct Hst as [Hst Hrep]. split; unfold ss_blocks in Hlen |- *; cbn [ss_response rs_blocks update_field] in *; try rewrite Hlen.
  - intros j Hj. rewrite about_snoc, Hw. change (slot_of s0 j = fold_left slot_step (about j p ++ if decide (Some i = Some j) then [ev] else []) zero_slot).
    unfold s0. rewrite slot_put by lia. rewrite fold_left_app. destruct (decide (i = j)) as [<-|Hn].
    + rewrite decide_True by done. cbn. by rewrite H1.
    + rewrite decide_False by congruence. by apply H1.
  - change (rs_blocks (ss_response s)) with (ss_blocks s). lia.
  - change (rs_blocks (ss_response s)) with (ss_blocks s) in *.
    intros e j [He|He%list_elem_of_singleton]%elem_of_app He'; [specialize (H3 e j He He'); lia|]. subst e. rewrite Hw in He'. injection He' as <-. lia.
  - cbn. rewrite omap_app. cbn. by rewrite Hst, app_nil_r.
  - cbn. rewrite fold_left_app, <- H5. cbn. by rewrite Hrep.
  - done.
  - cbn. rewrite omap_app, fmap_app, collect_app, H7. cbn [res_bind]. by rewrite Hc.
Qed.

Lemma put_shape s i sl p :
  progress p s -> put s i sl =
  mkStreamState ((ss_response (put s i sl)) <| rs_assembler := NewToolCallAssembler tools |> <| rs_operations := rs_operations (ss_response s) ++ [] |>)
    (ss_toolIDs (put s i sl)) (ss_toolNames (put s i sl)) (ss_toolArgs (put s i sl)).
Proof. intros H. unfold put. cbn. by rewrite app_nil_r, <- (pg_assembler _ _ H). Qed.

(** A stop comes last among the events about its block. *)
Lemma stop_body i b p rest :
  block_script i b (about i (p ++ BlockStop i :: rest)) -> finished b (about i p).
Proof.
  intros (body & Hb & Hq & Hf)%script_finished. rewrite (app_assoc p [BlockStop i] rest : p ++ BlockStop i :: rest = _) in Hb.
  unfold about in Hb. rewrite filter_app, filter_app, (filter_cons_True _ (BlockStop i)), filter_nil in Hb by done.
  fold (about i p) in Hb. fold (about i rest) in Hb.
  destruct (about i rest) as [|ev l _] using rev_ind.
  - rewrite app_nil_r in Hb. apply app_inj_2 in Hb as [-> _]; done.
  - exfalso. rewrite app_assoc in Hb. apply app_inj_2 in Hb as [<- _]; [|done].
    apply Forall_app in Hq as [Hq _]. apply Forall_app in Hq as [_ Hq]. by inversion Hq.
Qed.

Lemma stop_at p i rest : streamed m (p ++ BlockStop i :: rest) -> (0 <= i < Z.of_nat (length (mr_Content m)))%Z ->
  exists b, mr_Content m !! Z.to_nat i = Some b /\ finished b (about i p).
Proof.
  intros H Hi. destruct (lookup_lt_is_Some_2 (mr_Content m) (Z.to_nat i)) as [b Hb]; [lia|]. exists b. split; [done|].
  apply (stop_body i b p rest). rewrite <- (Z2Nat.id i) at 1 2 by lia. by apply (sm_blocks _ _ H).
Qed.

(** One event. *)
Lemma progress_step p ev rest s :
  streamed m (p ++ ev :: rest) -> progress p s ->
  match apply_wire s ev with
  | None => False
  | Some (s', Ok _) => progress (p ++ [ev]) s'
  | Some (_, Err e) => exists te, e = ErrTool te /\ collect (stop_requests <$> omap stopped (p ++ [ev])) = Err te
  end.
Proof.
  intros Hm Hp. assert (Hi : forall i, wire_index ev = Some i -> (0 <= i < Z.of_nat (length (mr_Content m)))%Z).
  { intros i. apply (sm_only _ _ Hm). apply elem_of_app. right. by left. }
  destruct ev as [m0|i b|i d|i|[u|]|]; cbn [apply_wire].
  - by apply progress_quiet.
  - specialize (Hi i eq_refl). destruct (start_put s i b) as [events ->]; [lia|].
    eapply progress_block; [done|done|done| |done]. by apply put_shape with p.
  - specialize (Hi i eq_refl). destruct (delta_put s i d) as [events ->]; [lia|].
    eapply progress_block; [done|done|done| |done]. by apply put_shape with p.
  - specialize (Hi i eq_refl). destruct (stop_at p i rest Hm Hi) as (b & Hb & Hf). rewrite stop_put by lia. cbv zeta.
    unfold finished in Hf. rewrite <- (pg_slots _ _ Hp i) in Hf by lia.
    assert (Hreq : stop_requests i = block_requests i b) by (unfold stop_requests; by rewrite Hb). unfold block_requests in Hreq.
    destruct (decide (bk_Type b = "tool_use"%string)) as [Ht|Ht].
    + destruct Hf as (Hty & Hfin & Hinput).
      assert (bk_Input b = message_arguments b) as Hargs by (unfold message_arguments; by rewrite !bool_decide_eq_false_2 by tauto). rewrite decide_False by (by intros []). rewrite Hfin, (pg_assembler _ _ Hp), Hargs.
      destruct (apply_done (bk_Name b) (bk_ID b) i (message_arguments b)) as [a ->]. fold (block_request i b).
      destruct (block_request i b) as [req|e]; cbn [res_bind] in Hreq.
      * eapply progress_block; [done|done|done|reflexivity|]. cbn. by rewrite Hreq.
      * exists e. split; [done|]. rewrite omap_app, fmap_app, collect_app, (pg_requests _ _ Hp). cbn. by rewrite Hreq.
    + rewrite Hf, decide_True by done. eapply progress_block; [done|done|done|by apply put_shape with p|].
      cbn. by rewrite Hreq.
  - by apply progress_quiet.
  - pose proof (progress_quiet p s (MessageDelta None) (ss_response s) Hp) as H. destruct s. by apply H.
  - pose proof (progress_quiet p s QuietEvent (ss_response s) Hp) as H. destruct s. by apply H.
Qed.

(** The events of a stream, up to the first failure. *)
Fixpoint run_events (s : streamState) (evs : list WireEvent) : option (streamState * option ModelError) :=
  match evs with
  | [] => Some (s, None)
  | ev :: rest =>
      match apply_wire s ev with
      | None => None
      | Some (s, Err e) => Some (s, Some e)
      | Some (s, Ok _) => run_events s rest
      end
  end.

Lemma run_progress p evs s :
  streamed m (p ++ evs) -> progress p s ->
  match collect (stop_requests <$> omap stopped (p ++ evs)) with
  | Ok _ => exists s', run_events s evs = Some (s', None) /\ progress (p ++ evs) s'
  | Err e => exists s', run_events s evs = Some (s', Some (ErrTool e))
  end.
Proof.
  revert p s. induction evs as [|ev evs IH]; intros p s Hm Hp.
  { rewrite app_nil_r, (pg_requests _ _ Hp). by exists s. }
  pose proof (progress_step p ev evs s Hm Hp) as H. cbn [run_events].
  rewrite (app_assoc p [ev] evs : p ++ ev :: evs = _) in Hm |- *.
  destruct (apply_wire s ev) as [[s' [events|e]]|]; [|destruct H as (te & -> & H)|done].
  - by apply (IH (p ++ [ev])).
  - rewrite omap_app, fmap_app, collect_app, H. cbn. by exists s'.
Qed.

Lemma stops_collect : collect (stop_requests <$> (Z.of_nat <$> seq 0 (length (mr_Content m)))) = collect (imap (fun k b => block_requests (Z.of_nat k) b) (mr_Content m)).
Proof.
  f_equal. apply list_eq. intros k. rewrite !list_lookup_fmap, list_lookup_imap. destruct (decide (k < length (mr_Content m))) as [Hk|Hk].
  - rewrite lookup_seq_lt by done. cbn. unfold stop_requests. rewrite Nat2Z.id. by destruct (lookup_lt_is_Some_2 _ _ Hk) as [b ->].
  - rewrite lookup_seq_ge, lookup_ge_None_2 by lia. done.
Qed.

(** ** The end of the stream *)

Lemma final_block evs s i b : streamed m evs -> progress evs s -> mr_Content m !! i = Some b -> block_at (ss_blocks s) (Z.of_nat i) = b.
Proof.
  intros H Hp Hb. destruct (script_finished _ _ _ (sm_blocks _ _ H i b Hb)) as (body & Habout & _ & Hf).
  change (block_at (ss_blocks s) (Z.of_nat i)) with (sl_block (slot_of s (Z.of_nat i))).
  rewrite (pg_slots _ _ Hp) by lia. rewrite Habout, fold_left_app. cbn. unfold finished in Hf.
  case_decide as Ht; [tauto|]. unfold slot_stop. by rewrite decide_True by (by rewrite Hf).
Qed.

Lemma final_blocks evs s : streamed m evs -> progress evs s -> ss_blocks s = mr_Content m.
Proof.
  intros H Hp. assert (Hlen : length (ss_blocks s) = length (mr_Content m)).
  { apply Nat.le_antisymm; [apply (pg_short _ _ Hp)|]. destruct (length (mr_Content m)) as [|n] eqn:E; [lia|].
    assert (Hin : Z.of_nat n ∈ omap stopped evs).
    { rewrite (sm_stops _ _ H), E. apply list_elem_of_fmap. exists n. split; [done|]. apply elem_of_seq. lia. }
    apply list_elem_of_omap in Hin as (ev & Hev & Hst). pose proof (pg_long _ _ Hp ev (Z.of_nat n) Hev). destruct ev; try done.
    cbn in *. specialize (H0 Hst). lia. }
  apply list_eq. intros i. destruct (mr_Content m !! i) as [b|] eqn:Hb.
  - pose proof (final_block evs s i b H Hp Hb) as Hf. unfold block_at in Hf. rewrite Nat2Z.id in Hf.
    destruct (lookup_lt_is_Some_2 (ss_blocks s) i) as [x Hx]; [apply lookup_lt_Some in Hb; lia|]. rewrite Hx in Hf |- *. by cbn in Hf; subst.
  - apply lookup_ge_None. apply lookup_ge_None in Hb. lia.
Qed.

Lemma final_state evs s : streamed m evs -> progress evs s ->
  ss_response s = mkResponseState (mr_Model m) (mr_ID m) (mr_Content m) (mr_Usage m) (NewToolCallAssembler tools) (rs_operations (ss_response s)).
Proof.
  intros H Hp. pose proof (final_blocks _ _ H Hp) as Hb. pose proof (pg_started _ _ Hp) as Hs. rewrite (sm_started _ _ H) in Hs.
  pose proof (pg_usage _ _ Hp) as Hu. rewrite (sm_usage _ _ H) in Hu. pose proof (pg_assembler _ _ Hp) as Ha.
  unfold ss_blocks in Hb. destruct (ss_response s). cbn in *. injection Hs as -> ->. by subst.
Qed.

Lemma loop_frames fs evs s fuel :
  Forall sendable fs -> Forall2 (fun f ev => decode_frame f = Ok ev) fs evs -> length fs < fuel ->
  exists events, match run_events s evs with
  | None => exists s', stream_loop fuel (mkDecoder (fs ≫= frame_lines) None emp emp) s = Some (s', events, Panicked)
  | Some (s', r) => stream_loop fuel (mkDecoder (fs ≫= frame_lines) None emp emp) s
      = Some (s', events, match r with Some e => BadFrame e | None => AtEOF end)
  end.
Proof.
  intros Hs Hd. revert s fuel. induction Hd as [|f ev fs evs Hf _ IH]; intros s fuel Hfuel; (destruct fuel as [|fuel]; [cbn in Hfuel; lia|]).
  { by exists []. }
  apply Forall_cons in Hs as [Hs1 Hs2]. rewrite bind_cons. cbn [stream_loop run_events]. unfold Next. cbn [sd_lines sd_err sd_event sd_data].
  rewrite next_frame by done. unfold applyFrame. rewrite Hf. destruct (apply_wire s ev) as [[s' [events|e]]|].
  - destruct (IH Hs2 s' fuel) as [rest Hrest]; [cbn in Hfuel; lia|]. exists (events ++ rest).
    destruct (run_events s' evs) as [[s2 r]|]; [by rewrite Hrest|].
    destruct Hrest as [s2 Hrest]. exists s2. by rewrite Hrest.
  - by exists [].
  - by exists [], s.
Qed.
End Message.

Lemma complete_new tools : Complete (NewToolCallAssembler tools) = Ok [].
Proof. done. Qed.
Lemma frames_size fs : Forall sendable fs -> length fs <= length (fs ≫= frame_lines).
Proof.
  induction 1 as [|f fs _ _ IH]; [done|]. rewrite bind_cons, length_app. unfold frame_lines at 1. rewrite !length_app. cbn [length]. lia.
Qed.

Lemma runtime_ok msg tools ops provider prices :
  exists out, toRuntime (mkResponseState (mr_Model msg) (mr_ID msg) (mr_Content msg) (mr_Usage msg) (NewToolCallAssembler tools) ops) provider prices = Ok out.
Proof.
  unfold toRuntime. cbn [rs_assembler]. rewrite complete_new. cbn [res_bind]. destruct (negb _); [by eexists|]. case_decide; by eexists.
Qed.

(** C19: A message that is streamed, its blocks cut into pieces and the pieces interleaved, gives the response
    of the message when it arrives whole: the same operations, text, usage and transcript. When a tool
    call of it is wrong, both fail with the same error. *)
Theorem streaming_exact cfg redactor msg evs fs tools sentItems upload download :
  streamed msg evs -> Forall sendable fs -> Forall2 (fun f ev => decode_frame f = Ok ev) fs evs ->
  exists events answer,
    StreamBody cfg redactor (mkBody (encode_frames fs) None) tools sentItems upload download = Some (events, StreamAnswer answer) /\
    match responseFromMessage cfg msg tools sentItems upload download with
    | (r, None) => answer = (r, None)
    | (_, Some err) => exists seen whole e, err = PartialError whole e /\ answer = (seen, Some (PartialError seen e))
    end.
Proof.
  intros H Hs Hd. unfold StreamBody. rewrite decoder_of_frames by done.
  pose proof (frames_size fs Hs) as Hsize.
  destruct (loop_frames fs evs (newStreamState tools) (S (decoder_size (mkDecoder (fs ≫= frame_lines) None emp emp))) Hs Hd) as [events Hl].
  { unfold decoder_size. cbn. lia. }
  pose proof (run_progress tools msg [] evs (newStreamState tools) H (progress_new tools msg)) as Hrun. cbn [app] in Hrun.
  rewrite (sm_stops _ _ H), stops_collect in Hrun. unfold responseFromMessage.
  pose proof (assemble_exact tools (mr_Content msg) (mkResponseState (mr_Model msg) (mr_ID msg) (mr_Content msg) (mr_Usage msg)
    (NewToolCallAssembler tools) []) 0 eq_refl) as Hwhole.
  change (fun k b => block_requests tools (0 + Z.of_nat k) b) with (fun k b => block_requests tools (Z.of_nat k) b) in Hwhole.
  destruct (collect (imap (fun k b => block_requests tools (Z.of_nat k) b) (mr_Content msg))) as [reqs|e] eqn:Ec.
  - destruct Hrun as (s' & Hrun & Hp). rewrite Hrun in Hl. rewrite Hl. rewrite Hwhole. cbn [app rs_operations].
    pose proof (final_state tools msg evs s' H Hp) as Hst. pose proof (pg_requests _ _ _ _ Hp) as Hops.
    rewrite (sm_stops _ _ H), stops_collect, Ec in Hops. injection Hops as Hops. rewrite <- Hops in Hst. unfold stream_answer. rewrite Hst.
    cbn [rs_model update_field]. destruct (runtime_ok msg tools reqs (model_identity cfg (mr_Model msg)) (mc_pricing cfg)) as [out Hout].
    rewrite Hout. do 2 eexists. split; [reflexivity|]. cbn. by rewrite Hout.
  - destruct Hrun as (s' & Hrun). rewrite Hrun in Hl. rewrite Hl. destruct Hwhole as [s2 ->]. do 2 eexists. split; [reflexivity|].
    by do 3 eexists.
Qed.
End Streaming.
