(* ===== verification/ModelReplay.v ===== *)
(** * Replayed transcripts (src/adapters/llm/anthropicmessages/transcript.go)

    A transcript becomes the messages of a request. Messages a provider sent are replayed as they were;
    the results that follow a message with tool calls are gathered into one message after it. *)

From S2P Require Import Prelude Operation OpModel WorkerText Conversation AgentModel Usage ModelTools Assembler Sse ModelStream.

(** JSON of what is replayed. *)
Class ReplayJson := {
  unmarshal_message : string -> option message;
  unmarshal_blocks : string -> option (list contentBlock);
  marshal_blocks : list contentBlock -> option string;
  marshal_any : Value -> option string;
  json_valid : string -> bool;
  Sprint : Value -> string
}.

Inductive ReplayError :=
| ReplayRole (role : string)
| ReplayKind (kind : string)
| ReplayCallID
| ReplayItem (index : nat) (e : ReplayError).

Section Replay.
Context {WJ : WireJson} {RJ : ReplayJson}.

(** The messages, the system blocks and the items as they were sent. *)
Record Replayed := mkReplayed { rp_messages : list message; rp_system : list contentBlock; rp_recorded : list Item }.

Definition transcriptContentString (content : Value) : string :=
  match content with
  | VNil => emp
  | VString s => s
  | VBytes s => s
  | _ => match marshal_any content with Some data => data | None => Sprint content end
  end.
Definition itemWithNativeMessage (item : Item) (msg : message) : Item :=
  if decide (it_Native item = emp) then
    match encode_message msg with Some raw => item <| it_Native := raw |> | None => item end
  else item.
Definition raw_or_object (raw : string) : string :=
  if bool_decide (raw = emp) || bool_decide (raw = "null"%string) then "{}"%string else raw.
Definition rawToolInput (input : Value) : string :=
  match input with
  | VNil => "{}"
  | VBytes typed => raw_or_object typed
  | VString typed =>
      let text := TrimSpace typed in
      if decide (text = emp) then "{}"
      else if json_valid text then text
      else default emp (marshal_any (VMap {[ "input"%string := VString typed ]}))
  | _ => match marshal_any input with Some raw => raw_or_object raw | None => "{}" end
  end.

Definition text_block (text : string) : contentBlock := zero_block <| bk_Type := "text"%string |> <| bk_Text := text |>.
Definition toolUseBlocks (msg : message) : list contentBlock :=
  if decide (mg_Role msg <> "assistant"%string) then [] else
  List.filter (fun block => bool_decide (bk_Type block = "tool_use"%string) && negb (blank (bk_ID block))) (mg_Content msg).
Definition toolUseIDKnown (uses : list contentBlock) (id : string) : bool :=
  existsb (fun use => bool_decide (TrimSpace (bk_ID use) = TrimSpace id)) uses.
Definition toolUseBlocksFromItem (item : Item) : list contentBlock :=
  match ToolCallRefs item with
  | [] => []
  | calls =>
      let text := TrimSpace (transcriptContentString (it_Content item)) in
      (if decide (text = emp) then [] else [text_block text])
      ++ map (fun call => zero_block <| bk_Type := "tool_use"%string |> <| bk_ID := TrimSpace (tc_CallID call) |>
                <| bk_Name := tc_Name call |> <| bk_Input := rawToolInput (tc_Input call) |>) calls
  end.
Definition toolResultBlock (provider : ProviderIdentity) (item : Item) : Result ReplayError (contentBlock * Item) :=
  if blank (it_CallID item) then Err ReplayCallID else
  let item := ensureItemProvider item provider in
  let block := zero_block <| bk_Type := "tool_result"%string |> <| bk_ToolUseID := it_CallID item |>
    <| bk_Content := VString (transcriptContentString (it_Content item)) |>
    <| bk_IsError := bool_decide (it_Metadata item !! "is_error"%string = Some "true"%string) |> in
  Ok (block, itemWithNativeMessage item (mkMessage "user" [block])).

(** The message or the system blocks of an item that carries its own. *)
Definition native_replay (item : Item) : option Replayed :=
  if decide (it_Native item = emp) then None else
  match unmarshal_message (it_Native item) with
  | Some msg => if decide (mg_Role msg <> emp) then Some (mkReplayed [msg] [] [item]) else
      match unmarshal_blocks (it_Native item) with
      | Some (b :: bs) => Some (mkReplayed [] (b :: bs) [item])
      | _ => None
      end
  | None =>
      match unmarshal_blocks (it_Native item) with
      | Some (b :: bs) => Some (mkReplayed [] (b :: bs) [item])
      | _ => None
      end
  end.
Definition messageFromTranscriptItem (provider : ProviderIdentity) (item : Item) : Result ReplayError Replayed :=
  match native_replay item with
  | Some r => Ok r
  | None =>
      let item := ensureItemProvider item provider in
      let content := transcriptContentString (it_Content item) in
      if decide (it_Kind item = ItemInput) then
        let role := if decide (TrimSpace (it_Role item) = emp) then "user"%string else TrimSpace (it_Role item) in
        let block := text_block content in
        if decide (role = "system"%string \/ role = "developer"%string)
        then Ok (mkReplayed [] [block] [item <| it_Native := default emp (marshal_blocks [block]) |>])
        else if decide (role <> "user"%string /\ role <> "assistant"%string) then Err (ReplayRole role)
        else let msg := mkMessage role [block] in Ok (mkReplayed [msg] [] [itemWithNativeMessage item msg])
      else if decide (it_Kind item = ItemOutput) then
        let msg := match toolUseBlocksFromItem item with
                   | [] => mkMessage "assistant" [text_block content]
                   | blocks => mkMessage "assistant" blocks
                   end in
        Ok (mkReplayed [msg] [] [itemWithNativeMessage item msg])
      else if decide (it_Kind item = ItemToolResult) then
        let? (block, recorded) := toolResultBlock provider item in
        Ok (mkReplayed [mkMessage "user" [block]] [] [recorded])
      else Err (ReplayKind (it_Kind item))
  end.

(** ** The loop of [messagesFromTranscript] *)

(** The items from position [rp_next] on are left to replay. *)
Record Walk := mkWalk { wk_index : nat; wk_rest : list Item; wk_consumed : gset string; wk_out : Replayed }.
#[global] Instance rebuild_Walk : Rebuild Walk := fun w => mkWalk w.(wk_index) w.(wk_rest) w.(wk_consumed) w.(wk_out).
Definition append_replayed (a b : Replayed) : Replayed :=
  mkReplayed (rp_messages a ++ rp_messages b) (rp_system a ++ rp_system b) (rp_recorded a ++ rp_recorded b).

(** The results that follow a message and answer one of its calls, in one block each. [wk_index] is the
    position of the item before [rest]. *)
Fixpoint gather_results (provider : ProviderIdentity) (uses : list contentBlock) (i : nat) (rest : list Item) (consumed : gset string)
    : Result ReplayError (list contentBlock * list Item * nat * list Item * gset string) :=
  match rest with
  | next :: rest' =>
      if decide (it_Kind next = ItemToolResult) then
        if toolUseIDKnown uses (it_CallID next) then
          match toolResultBlock provider next with
          | Err e => Err (ReplayItem (S i) e)
          | Ok (block, recorded) =>
              let? r := gather_results provider uses (S i) rest' ({[TrimSpace (it_CallID next)]} ∪ consumed) in
              let '(blocks, items, i, rest, consumed) := r in Ok (block :: blocks, recorded :: items, i, rest, consumed)
          end
        else Ok ([], [], i, rest, consumed)
      else Ok ([], [], i, rest, consumed)
  | [] => Ok ([], [], i, rest, consumed)
  end.
(** The loop over the messages of an item. *)
Fixpoint answer_messages (provider : ProviderIdentity) (msgs : list message) (w : Walk) : Result ReplayError Walk :=
  match msgs with
  | [] => Ok w
  | msg :: msgs =>
      match toolUseBlocks msg with
      | [] => answer_messages provider msgs w
      | uses =>
          let? r := gather_results provider uses (wk_index w) (wk_rest w) (wk_consumed w) in
          let '(blocks, recorded, i, rest, consumed) := r in
          let answers := match blocks with [] => [] | _ => [mkMessage "user" blocks] end in
          answer_messages provider msgs (mkWalk i rest consumed (append_replayed (wk_out w) (mkReplayed answers [] recorded)))
      end
  end.
(** One turn of the loop: the item at [wk_index]. *)
Definition replay_item (provider : ProviderIdentity) (item : Item) (w : Walk) : Result ReplayError Walk :=
  if decide (it_Kind item = ItemToolResult /\ TrimSpace (it_CallID item) ∈ wk_consumed w) then Ok w else
  match messageFromTranscriptItem provider item with
  | Err e => Err (ReplayItem (wk_index w) e)
  | Ok r => answer_messages provider (rp_messages r) (w <| wk_out := append_replayed (wk_out w) r |>)
  end.
Fixpoint replay_loop (fuel : nat) (provider : ProviderIdentity) (w : Walk) : option (Result ReplayError Replayed) :=
  match wk_rest w with
  | [] => Some (Ok (wk_out w))
  | item :: rest =>
      match fuel with
      | O => None
      | S fuel =>
          match replay_item provider item (w <| wk_rest := rest |>) with
          | Err e => Some (Err e)
          | Ok w => replay_loop fuel provider (w <| wk_index := S (wk_index w) |>)
          end
      end
  end.
Definition messagesFromTranscript (provider : ProviderIdentity) (items : list Item) : option (Result ReplayError Replayed) :=
  replay_loop (length items) provider (mkWalk 0 items ∅ (mkReplayed [] [] [])).

(** Each turn takes at least one item, so the loop ends. *)
Lemma gather_shorter provider uses i rest consumed blocks recorded i' rest' consumed' :
  gather_results provider uses i rest consumed = Ok (blocks, recorded, i', rest', consumed') -> length rest' <= length rest.
Proof.
  revert i consumed blocks recorded. induction rest as [|next rest IH]; intros i consumed blocks recorded; cbn [gather_results]; [by intros [= _ _ _ <- _]|].
  do 2 (match goal with |- context [if ?b then _ else _] => destruct b end; [|by intros [= _ _ _ <- _]]).
  destruct (toolResultBlock provider next) as [[block item]|]; [|done].
  intros ([[[[bs its] j] r] c] & Hr & [= _ _ -> -> ->])%res_bind_ok. apply IH in Hr. cbn. lia.
Qed.
Lemma answer_shorter provider msgs w w' : answer_messages provider msgs w = Ok w' -> length (wk_rest w') <= length (wk_rest w).
Proof.
  revert w. induction msgs as [|msg msgs IH]; intros w; cbn [answer_messages]; [by intros [= <-]|].
  destruct (toolUseBlocks msg) as [|use uses]; [apply IH|].
  intros ([[[[bs its] j] r] c] & Hr & H%IH)%res_bind_ok. apply gather_shorter in Hr. cbn in H. lia.
Qed.
Lemma replay_total fuel provider w : length (wk_rest w) <= fuel -> exists r, replay_loop fuel provider w = Some r.
Proof.
  revert w. induction fuel as [|fuel IH]; intros w; cbn [replay_loop]; destruct (wk_rest w) as [|item rest] eqn:E; cbn; try (by eexists); [lia|].
  intros H. destruct (replay_item _ _ _) as [w'|e] eqn:Ew; [|by eexists]. apply IH. cbn. unfold replay_item in Ew.
  case_decide; [injection Ew as <-; cbn; lia|]. destruct (messageFromTranscriptItem provider item); [|done].
  apply answer_shorter in Ew. cbn in Ew. lia.
Qed.
Lemma messages_total provider items : exists r, messagesFromTranscript provider items = Some r.
Proof. by apply replay_total. Qed.
End Replay.
