(* ===== verification/ReplayTurns.v ===== *)
(** * A replayed transcript is one the provider accepts

    A messages provider joins messages of the same role into turns, and wants the turn after one with tool
    calls to begin with the results of exactly these calls. Transcripts made of exchanges give such
    turns. *)

From S2P Require Import Prelude Operation OpModel Instances WorkerText Conversation Continuity Compaction Exchanges AgentModel Usage ModelTools Assembler Sse ModelStream ModelReplay.

(** ** Turns *)

Definition is_result (b : contentBlock) : bool := bool_decide (bk_Type b = "tool_result"%string).
Definition use_ids (msg : message) : list string := (fun b => TrimSpace (bk_ID b)) <$> toolUseBlocks msg.
Definition block_result_ids (blocks : list contentBlock) : list string := (fun b => TrimSpace (bk_ToolUseID b)) <$> List.filter is_result blocks.
Definition result_ids (msg : message) : list string := block_result_ids (mg_Content msg).

Definition push (msg : message) (ts : list message) : list message :=
  match ts with
  | t :: rest => if decide (mg_Role msg = mg_Role t) then mkMessage (mg_Role t) (mg_Content msg ++ mg_Content t) :: rest else msg :: ts
  | [] => [msg]
  end.
Definition turns (msgs : list message) : list message := foldr push [] msgs.

(** What the provider asks of the turns: calls are answered at once, results answer calls. *)
Inductive answered : list message -> Prop :=
| answered_nil : answered []
| answered_plain t rest : use_ids t = [] -> result_ids t = [] -> answered rest -> answered (t :: rest)
| answered_exchange t results more rest :
    use_ids t <> [] -> result_ids t = [] ->
    Forall (fun b => is_result b = true) results -> block_result_ids results ≡ₚ use_ids t ->
    Forall (fun b => is_result b = false) more -> answered rest ->
    answered (t :: mkMessage "user" (results ++ more) :: rest).

(** ** Pushing messages *)

Lemma use_ids_assistant msg : use_ids msg <> [] -> mg_Role msg = "assistant"%string.
Proof. unfold use_ids, toolUseBlocks. by case_decide as H; [|destruct (decide (mg_Role msg = "assistant"%string))]. Qed.
Lemma use_ids_other msg : mg_Role msg <> "assistant"%string -> use_ids msg = [].
Proof. intros H. unfold use_ids, toolUseBlocks. by rewrite decide_True. Qed.
Lemma use_ids_app role a b : use_ids (mkMessage role (a ++ b)) = use_ids (mkMessage role a) ++ use_ids (mkMessage role b).
Proof. unfold use_ids, toolUseBlocks. cbn. case_decide; [done|]. by rewrite List.filter_app, fmap_app. Qed.
Lemma block_result_ids_app a b : block_result_ids (a ++ b) = block_result_ids a ++ block_result_ids b.
Proof. unfold block_result_ids. by rewrite List.filter_app, fmap_app. Qed.
Lemma no_result_ids blocks : block_result_ids blocks = [] <-> Forall (fun b => is_result b = false) blocks.
Proof.
  unfold block_result_ids. induction blocks as [|b blocks IH]; cbn; [split; constructor|]. rewrite Forall_cons, <- IH.
  destruct (is_result b); cbn; naive_solver.
Qed.
Lemma message_eta msg : mkMessage (mg_Role msg) (mg_Content msg) = msg.
Proof. by destruct msg. Qed.

Lemma push_plain msg ts : use_ids msg = [] -> result_ids msg = [] -> answered ts -> answered (push msg ts).
Proof.
  intros Hu Hr Hts. destruct Hts as [|t rest Htu Htr Hrest|t results more rest Htu Htr Hres Hids Hmore Hrest]; cbn [push].
  - by repeat constructor.
  - case_decide as E; [|by repeat constructor]. constructor; [| |done].
    + rewrite use_ids_app, <- E, message_eta, Hu, E, message_eta, Htu. done.
    + unfold result_ids in *. cbn [mg_Content]. by rewrite block_result_ids_app, Hr, Htr.
  - case_decide as E; [|apply answered_plain; [done|done|by apply answered_exchange]].
    assert (use_ids (mkMessage (mg_Role t) (mg_Content msg ++ mg_Content t)) = use_ids t) as Huse.
    { by rewrite use_ids_app, <- E, message_eta, Hu, E, message_eta. }
    apply answered_exchange; rewrite ?Huse; try done. unfold result_ids in *. cbn [mg_Content]. by rewrite block_result_ids_app, Hr, Htr.
Qed.

(** Messages of one role in a row, as one. *)
Lemma push_same role msgs ts :
  msgs <> [] -> Forall (fun msg => mg_Role msg = role) msgs ->
  foldr push ts msgs = push (mkMessage role (msgs ≫= mg_Content)) ts.
Proof.
  intros Hne H. induction H as [|msg msgs Hm Hms IH]; [done|]. destruct msgs as [|msg2 msgs].
  { cbn. rewrite app_nil_r, <- Hm. by rewrite message_eta. }
  cbn [foldr]. cbn [foldr] in IH. rewrite IH by done. rewrite (bind_cons _ msg).
  destruct ts as [|t rest]; cbn [push mg_Role mg_Content].
  - by rewrite decide_True by done.
  - case_decide as E; cbn [push mg_Role mg_Content].
    + rewrite decide_True by congruence. by rewrite app_assoc.
    + by rewrite decide_True by done.
Qed.

Lemma push_exchange asks replies ts :
  asks <> [] -> replies <> [] ->
  Forall (fun msg => mg_Role msg = "assistant"%string /\ result_ids msg = []) asks ->
  Forall (fun msg => mg_Role msg = "user"%string /\ Forall (fun b => is_result b = true) (mg_Content msg)) replies ->
  asks ≫= use_ids <> [] -> replies ≫= result_ids ≡ₚ asks ≫= use_ids -> answered ts ->
  answered (foldr push ts (asks ++ replies)).
Proof.
  intros Ha0 Hr0 Hasks Hreplies Hne Hids Hts. rewrite foldr_app.
  rewrite (push_same "user" replies) by (done || by eapply Forall_impl; [exact Hreplies|intros ? []]).
  set (results := replies ≫= mg_Content).
  assert (Hres : Forall (fun b => is_result b = true) results).
  { apply Forall_bind. eapply Forall_impl; [exact Hreplies|]. by intros ? []. }
  assert (Hrids : block_result_ids results = replies ≫= result_ids).
  { unfold results. clear. induction replies as [|r replies IH]; [done|]. rewrite !bind_cons, block_result_ids_app, IH. done. }
  set (ask := mkMessage "assistant" (asks ≫= mg_Content)).
  assert (Hauids : use_ids ask = asks ≫= use_ids).
  { unfold ask. clear -Hasks. induction Hasks as [|a asks [Ha _] _ IH]; [done|]. rewrite !bind_cons, use_ids_app, IH.
    by rewrite <- Ha, message_eta. }
  assert (Harids : result_ids ask = []).
  { unfold ask, result_ids. cbn [mg_Content]. clear -Hasks. induction Hasks as [|a asks [_ Ha] _ IH]; [done|]. rewrite bind_cons, block_result_ids_app, IH.
    unfold result_ids in Ha. by rewrite Ha. }
  assert (exists more rest, push (mkMessage "user" results) ts = mkMessage "user" (results ++ more) :: rest /\
    Forall (fun b => is_result b = false) more /\ answered rest) as (more & rest & -> & Hmore & Hrest).
  { destruct Hts as [|t rest Htu Htr Hrest|t res more rest Htu Htr Hres' Hids' Hmore Hrest]; cbn [push mg_Role mg_Content].
    - exists [], []. rewrite app_nil_r. by repeat constructor.
    - case_decide as E.
      + exists (mg_Content t), rest. rewrite <- E. split; [done|]. split; [by apply no_result_ids|done].
      + exists [], (t :: rest). rewrite app_nil_r. repeat constructor; done.
    - apply use_ids_assistant in Htu as Hrole. rewrite Hrole, decide_False by done. exists [], (t :: mkMessage "user" (res ++ more) :: rest).
      rewrite app_nil_r. split; [done|]. split; [constructor|]. by apply answered_exchange. }
  rewrite (push_same "assistant" asks) by (done || by eapply Forall_impl; [exact Hasks|intros ? []]).
  cbn [push]. fold ask. cbn [mg_Role ask]. rewrite decide_False by done. apply answered_exchange; try done.
  - by rewrite Hauids.
  - by rewrite Hrids, Hauids.
Qed.

(** The messages of one exchange, or of one other item. *)
Inductive good_messages : list message -> Prop :=
| good_none : good_messages []
| good_plain msg : use_ids msg = [] -> result_ids msg = [] -> good_messages [msg]
| good_exchange asks replies :
    asks <> [] -> replies <> [] ->
    Forall (fun msg => mg_Role msg = "assistant"%string /\ result_ids msg = []) asks ->
    Forall (fun msg => mg_Role msg = "user"%string /\ Forall (fun b => is_result b = true) (mg_Content msg)) replies ->
    asks ≫= use_ids <> [] -> replies ≫= result_ids ≡ₚ asks ≫= use_ids -> good_messages (asks ++ replies).
Lemma good_answered parts : Forall good_messages parts -> answered (turns (concat parts)).
Proof.
  unfold turns. induction 1 as [|part parts Hp _ IH]; cbn [concat]; [constructor|]. rewrite foldr_app.
  destruct Hp; [done|by apply push_plain|by apply push_exchange].
Qed.

Section Turns.
Context {WJ : WireJson} {RJ : ReplayJson}.
Variable provider : ProviderIdentity.

(** ** Items *)

Definition result_id (item : Item) : string := TrimSpace (it_CallID item).
(** An item that can be replayed: of a kind and a role the provider has, or with a message of its own that
    makes the calls and gives the results the item stands for. *)
Definition replayable (item : Item) : Prop :=
  match native_replay item with
  | None =>
      it_Kind item = ItemOutput \/ it_Kind item = ItemToolResult \/
      it_Kind item = ItemInput /\ TrimSpace (it_Role item) ∈ [emp; "user"; "assistant"; "system"; "developer"]%string
  | Some r =>
      match rp_messages r with
      | [] => call_ids item = [] /\ it_Kind item <> ItemToolResult
      | [msg] =>
          use_ids msg = call_ids item /\
          if decide (it_Kind item = ItemToolResult)
          then mg_Role msg = "user"%string /\ Forall (fun b => is_result b = true) (mg_Content msg) /\ result_ids msg = [result_id item]
          else result_ids msg = []
      | _ => False
      end
  end.

(** *** What an item stands for in a request

    The blocks of its messages with their roles, and its system blocks, apart from how the code makes them. *)

Definition tagged (msgs : list message) : list (string * contentBlock) := msgs ≫= fun msg => pair (mg_Role msg) <$> mg_Content msg.
Definition call_block (call : ToolCallRef) : contentBlock :=
  zero_block <| bk_Type := "tool_use"%string |> <| bk_ID := TrimSpace (tc_CallID call) |> <| bk_Name := tc_Name call |> <| bk_Input := rawToolInput (tc_Input call) |>.
Definition answer_block (item : Item) : contentBlock :=
  zero_block <| bk_Type := "tool_result"%string |> <| bk_ToolUseID := it_CallID item |> <| bk_Content := VString (transcriptContentString (it_Content item)) |>
    <| bk_IsError := bool_decide (it_Metadata item !! "is_error"%string = Some "true"%string) |>.
(** An item without a message of its own. *)
Inductive written_as (item : Item) (content : string) : list (string * contentBlock) -> list contentBlock -> Prop :=
| as_unnamed : it_Kind item = ItemInput -> TrimSpace (it_Role item) = emp -> written_as item content [("user"%string, text_block content)] []
| as_input : it_Kind item = ItemInput -> TrimSpace (it_Role item) ∈ ["user"; "assistant"]%string ->
    written_as item content [(TrimSpace (it_Role item), text_block content)] []
| as_system : it_Kind item = ItemInput -> TrimSpace (it_Role item) ∈ ["system"; "developer"]%string -> written_as item content [] [text_block content]
| as_output : it_Kind item = ItemOutput -> ToolCallRefs item = [] -> written_as item content [("assistant"%string, text_block content)] []
| as_calls : it_Kind item = ItemOutput -> ToolCallRefs item <> [] -> TrimSpace content = emp ->
    written_as item content (pair "assistant"%string <$> (call_block <$> ToolCallRefs item)) []
| as_text_calls : it_Kind item = ItemOutput -> ToolCallRefs item <> [] -> TrimSpace content <> emp ->
    written_as item content (pair "assistant"%string <$> (text_block (TrimSpace content) :: (call_block <$> ToolCallRefs item))) [].
(** A result that follows the message it answers is written out even if it has a message of its own. *)
Inductive stands_for (item : Item) : list (string * contentBlock) -> list contentBlock -> Prop :=
| stands_native r : native_replay item = Some r -> stands_for item (tagged (rp_messages r)) (rp_system r)
| stands_written blocks system : native_replay item = None -> written_as item (transcriptContentString (it_Content item)) blocks system -> stands_for item blocks system
| stands_result : it_Kind item = ItemToolResult -> stands_for item [("user"%string, answer_block item)] [].

Lemma result_block item block recorded : toolResultBlock provider item = Ok (block, recorded) ->
  is_result block = true /\ block_result_ids [block] = [result_id item].
Proof.
  unfold toolResultBlock. destruct (blank _); [done|]. intros [= <- _]. split; [done|]. cbn.
  unfold result_id, ensureItemProvider. by case_decide.
Qed.
Lemma result_answers item block recorded : toolResultBlock provider item = Ok (block, recorded) -> block = answer_block item.
Proof. unfold toolResultBlock. destruct (blank _); [done|]. intros [= <- _]. unfold ensureItemProvider. by case_decide. Qed.
Lemma result_block_ok item : TrimSpace (it_CallID item) <> emp -> exists p, toolResultBlock provider item = Ok p.
Proof. intros H. unfold toolResultBlock, blank. rewrite bool_decide_eq_false_2 by done. by eexists. Qed.

Lemma text_message role text : use_ids (mkMessage role [text_block text]) = [] /\ result_ids (mkMessage role [text_block text]) = [].
Proof. split; [|done]. unfold use_ids, toolUseBlocks. by case_decide. Qed.

Lemma refs_same item : ToolCallRefs (ensureItemProvider item provider) = ToolCallRefs item.
Proof. unfold ensureItemProvider. by case_decide. Qed.

Lemma item_blocks_ids item : emp ∉ call_ids item ->
  match toolUseBlocksFromItem item with
  | [] => call_ids item = []
  | blocks => use_ids (mkMessage "assistant" blocks) = call_ids item /\ result_ids (mkMessage "assistant" blocks) = []
  end.
Proof.
  unfold toolUseBlocksFromItem, call_ids. destruct (ToolCallRefs item) as [|call calls] eqn:Ecalls; [done|].
  rewrite <- Ecalls. intros Hemp. set (text := TrimSpace _).
  set (blocks := map _ (ToolCallRefs item)).
  assert (Hu : use_ids (mkMessage "assistant" blocks) = (fun c => TrimSpace (tc_CallID c)) <$> ToolCallRefs item).
  { unfold blocks. clear Ecalls. induction (ToolCallRefs item) as [|c cs IH]; [done|]. cbn [map fmap list_fmap].
    rewrite fmap_cons in Hemp. unfold use_ids, toolUseBlocks in *. cbn in IH |- *. rewrite decide_False in IH |- * by (intros H; by apply H).
    assert (blank (TrimSpace (tc_CallID c)) = false) as ->.
    { unfold blank. rewrite TrimSpace_idem, bool_decide_eq_false_2; [done|]. intros E. apply Hemp. rewrite E. by left. }
    rewrite (bool_decide_eq_true_2 ("tool_use"%string = "tool_use"%string)) by done. cbn. f_equal; [exact (TrimSpace_idem (tc_CallID c))|]. apply IH. intros H. apply Hemp. by right. }
  assert (Hr : block_result_ids blocks = []).
  { apply no_result_ids. unfold blocks. apply Forall_forall. intros b (c & -> & _)%list_elem_of_fmap. done. }
  assert (Htext : use_ids (mkMessage "assistant" (if decide (text = emp) then [] else [text_block text])) = []).
  { case_decide; [done|apply text_message]. }
  assert (Htext2 : block_result_ids (if decide (text = emp) then [] else [text_block text]) = []) by by case_decide.
  destruct ((if decide (text = emp) then [] else [text_block text]) ++ blocks) as [|b bs] eqn:E.
  { exfalso. apply app_eq_nil in E as [_ E]. unfold blocks in E. by rewrite Ecalls in E. }
  rewrite <- E. rewrite use_ids_app, Htext, Hu. split; [done|]. unfold result_ids. cbn [mg_Content]. by rewrite block_result_ids_app, Htext2, Hr.
Qed.

(** What an item is replayed as. *)
Definition replays (item : Item) (msgs : list message) : Prop :=
  msgs ≫= use_ids = call_ids item /\
  if decide (it_Kind item = ItemToolResult)
  then exists msg, msgs = [msg] /\ mg_Role msg = "user"%string /\ Forall (fun b => is_result b = true) (mg_Content msg) /\ result_ids msg = [result_id item]
  else (msgs = [] \/ exists msg, msgs = [msg]) /\ msgs ≫= result_ids = [].

Lemma item_replays item :
  replayable item -> emp ∉ call_ids item -> (it_Kind item = ItemToolResult -> result_id item <> emp) ->
  exists r, messageFromTranscriptItem provider item = Ok r /\ replays item (rp_messages r).
Proof.
  unfold replayable, messageFromTranscriptItem. intros Hrep Hemp Hid. destruct (native_replay item) as [r|].
  { exists r. split; [done|]. unfold replays. destruct (rp_messages r) as [|msg [|]]; [|destruct Hrep as [Hu Hrep]|done].
    - destruct Hrep as [-> Hk]. split; [done|]. rewrite decide_False by done. by split; [left|].
    - rewrite bind_cons, app_nil_r. split; [done|]. case_decide; [by exists msg|]. split; [right; by exists msg|]. by rewrite bind_cons, app_nil_r. }
  set (item' := ensureItemProvider item provider). cbv zeta.
  assert (it_Kind item' = it_Kind item) as -> by (unfold item', ensureItemProvider; by case_decide).
  assert (it_Role item' = it_Role item) as -> by (unfold item', ensureItemProvider; by case_decide).
  unfold replays. destruct Hrep as [Hk|[Hk|[Hk Hrole]]]; rewrite Hk; cbn [decide].
  - rewrite (decide_False (P := ItemOutput = ItemInput)), (decide_True (P := ItemOutput = ItemOutput)) by done.
    eexists. split; [done|]. rewrite (decide_False (P := ItemOutput = ItemToolResult)) by done. cbn [rp_messages]. pose proof (item_blocks_ids item') as H. unfold call_ids in H at 1. unfold item' in H at 1. rewrite refs_same in H.
    specialize (H Hemp). assert (Hc : call_ids item' = call_ids item) by (unfold call_ids, item'; by rewrite refs_same). rewrite Hc in H.
    destruct (toolUseBlocksFromItem item') as [|b bs]; rewrite !bind_cons, !app_nil_r.
    + destruct (text_message "assistant" (transcriptContentString (it_Content item'))) as [-> ->]. rewrite H. split; [done|]. split; [right; by eexists|done].
    + destruct H as [-> ->]. split; [done|]. split; [right; by eexists|done].
  - rewrite (decide_False (P := ItemToolResult = ItemInput)), (decide_False (P := ItemToolResult = ItemOutput)), (decide_True (P := ItemToolResult = ItemToolResult)) by done.
    assert (Hid' : result_id item' = result_id item) by (unfold result_id, item', ensureItemProvider; by case_decide).
    destruct (result_block_ok item') as [[block recorded] E]; [change (result_id item' <> emp); rewrite Hid'; by apply Hid|].
    rewrite E. cbn [res_bind]. eexists. split; [done|]. rewrite (decide_True (P := ItemToolResult = ItemToolResult)) by done. cbn [rp_messages]. apply result_block in E as [Hb Hids]. split.
    + rewrite call_ids_other by (rewrite Hk; discriminate). done.
    + eexists. split; [done|]. split; [done|]. split; [by constructor|]. by rewrite <- Hid'.
  - rewrite (decide_True (P := ItemInput = ItemInput)) by done. rewrite (call_ids_other item) by (rewrite Hk; discriminate).
    set (role := if decide (TrimSpace (it_Role item) = emp) then "user"%string else TrimSpace (it_Role item)).
    case_decide as Hsys; [by eexists; split; [done|]; split; [done|]; split; [left|]|].
    rewrite decide_False.
    { eexists. split; [done|]. rewrite (decide_False (P := ItemInput = ItemToolResult)) by done. cbn [rp_messages]. rewrite !bind_cons, !app_nil_r.
      destruct (text_message role (transcriptContentString (it_Content item'))) as [-> ->]. split; [done|]. split; [right; by eexists|done]. }
    intros [H1 H2]. unfold role in *. case_decide; set_solver.
Qed.

Lemma item_calls item : ToolCallRefs item <> [] ->
  toolUseBlocksFromItem item = (if decide (TrimSpace (transcriptContentString (it_Content item)) = emp) then []
    else [text_block (TrimSpace (transcriptContentString (it_Content item)))]) ++ (call_block <$> ToolCallRefs item).
Proof. unfold toolUseBlocksFromItem. by destruct (ToolCallRefs item). Qed.
Lemma item_stands item r : messageFromTranscriptItem provider item = Ok r -> stands_for item (tagged (rp_messages r)) (rp_system r).
Proof.
  unfold messageFromTranscriptItem. destruct (native_replay item) as [r'|] eqn:En; [intros [= <-]; by constructor|]. cbv zeta.
  assert (it_Kind (ensureItemProvider item provider) = it_Kind item) as -> by (unfold ensureItemProvider; by case_decide).
  assert (it_Role (ensureItemProvider item provider) = it_Role item) as -> by (unfold ensureItemProvider; by case_decide).
  assert (Hc : it_Content (ensureItemProvider item provider) = it_Content item) by (unfold ensureItemProvider; by case_decide).
  rewrite Hc. destruct (decide (it_Kind item = ItemInput)) as [Hi|_]; [|destruct (decide (it_Kind item = ItemOutput)) as [Ho|_]; [|destruct (decide (it_Kind item = ItemToolResult)) as [Hr|_]; [|done]]].
  - set (role := if decide (TrimSpace (it_Role item) = emp) then "user"%string else TrimSpace (it_Role item)).
    destruct (decide (role = "system" \/ role = "developer")%string) as [Hsys|_]; [|destruct (decide (role <> "user" /\ role <> "assistant")%string) as [Hother|Hother]; [done|]]; intros [= <-]; apply stands_written; try done; cbn.
    + apply as_system; [done|]. unfold role in Hsys. case_decide; [by destruct Hsys|]. set_solver.
    + unfold role in Hother |- *. case_decide; [by apply as_unnamed|]. apply as_input; [done|]. destruct (decide (TrimSpace (it_Role item) = "user"%string)), (decide (TrimSpace (it_Role item) = "assistant"%string)); [set_solver..|by destruct Hother].
  - intros [= <-]. apply stands_written; [done|]. destruct (decide (ToolCallRefs item = [])) as [Et|Et].
    + unfold toolUseBlocksFromItem. rewrite refs_same, Et. cbn. by apply as_output.
    + assert (Hm : forall d l, l <> [] -> match l with [] => d | b :: bs => mkMessage "assistant" (b :: bs) end = mkMessage "assistant" l) by (by intros d [|]).
      pose proof Et as Et'. rewrite <- (refs_same item) in Et'. pose proof (item_calls _ Et') as Hblocks. rewrite refs_same, Hc in Hblocks.
      rewrite Hm by (rewrite Hblocks; case_decide; [by destruct (ToolCallRefs item)|done]). rewrite Hblocks. unfold tagged. cbn. rewrite app_nil_r.
      destruct (decide (TrimSpace (transcriptContentString (it_Content item)) = emp)); [by apply as_calls|by apply as_text_calls].
  - intros ([block recorded] & E & [= <-])%res_bind_ok. apply result_answers in E as ->. cbn.
    assert (answer_block (ensureItemProvider item provider) = answer_block item) as -> by (unfold ensureItemProvider; by case_decide).
    by constructor.
Qed.

(** ** The loop, item by item *)

(** The loop takes the items [s] and has [w'] then. *)
Inductive walked : Walk -> Walk -> Prop :=
| walked_refl w : walked w w
| walked_step w item rest w1 w' :
    wk_rest w = item :: rest -> replay_item provider item (w <| wk_rest := rest |>) = Ok w1 ->
    walked (w1 <| wk_index := S (wk_index w1) |>) w' -> walked w w'.
Lemma walked_trans w1 w2 w3 : walked w1 w2 -> walked w2 w3 -> walked w1 w3.
Proof. induction 1 as [|w item rest wa wb Hr Hi _ IH]; [done|]. intros H. eapply walked_step; [done..|by apply IH]. Qed.

Lemma replay_item_shorter item w w1 : replay_item provider item w = Ok w1 -> length (wk_rest w1) <= length (wk_rest w).
Proof.
  unfold replay_item. case_decide; [by intros [= <-]|]. destruct (messageFromTranscriptItem provider item); [|done]. intros Ha%answer_shorter. exact Ha.
Qed.
Lemma walked_loop fuel w w' : walked w w' -> wk_rest w' = [] -> length (wk_rest w) <= fuel -> replay_loop fuel provider w = Some (Ok (wk_out w')).
Proof.
  intros H Hend. revert fuel. induction H as [w|w item rest w1 w' Hr Hi _ IH]; intros fuel Hf.
  - destruct fuel; cbn; by rewrite Hend.
  - destruct fuel as [|fuel]; [rewrite Hr in Hf; cbn in Hf; lia|]. cbn [replay_loop]. rewrite Hr, Hi. apply IH; [done|].
    apply replay_item_shorter in Hi. cbn in *. rewrite Hr in Hf. cbn in Hf. lia.
Qed.

(** [w'] has taken [s], the messages [msgs] and the results [ids]. *)
Record took (s rest : list Item) (msgs : list message) (w w' : Walk) : Prop := {
  tk_walked : walked w w';
  tk_rest : wk_rest w' = rest;
  tk_out : rp_messages (wk_out w') = rp_messages (wk_out w) ++ msgs;
  tk_content : exists parts, Forall2 (fun item part => stands_for item part.1 part.2) s parts /\ tagged msgs = parts ≫= fst /\
    rp_system (wk_out w') = rp_system (wk_out w) ++ (parts ≫= snd);
  tk_consumed : wk_consumed w' ⊆ wk_consumed w ∪ list_to_set (result_id <$> filter (fun item => it_Kind item = ItemToolResult) s)
}.
Lemma took_nil rest w : wk_rest w = rest -> took [] rest [] w w.
Proof. intros H. split; [constructor|done|by rewrite app_nil_r| |set_solver]. exists []. by rewrite app_nil_r. Qed.
Lemma took_content s1 s2 msgs1 msgs2 (sys1 sys2 sys : list contentBlock) :
  (exists parts, Forall2 (fun item part => stands_for item part.1 part.2) s1 parts /\ tagged msgs1 = parts ≫= fst /\ sys1 = sys ++ (parts ≫= snd)) ->
  (exists parts, Forall2 (fun item part => stands_for item part.1 part.2) s2 parts /\ tagged msgs2 = parts ≫= fst /\ sys2 = sys1 ++ (parts ≫= snd)) ->
  exists parts, Forall2 (fun item part => stands_for item part.1 part.2) (s1 ++ s2) parts /\ tagged (msgs1 ++ msgs2) = parts ≫= fst /\ sys2 = sys ++ (parts ≫= snd).
Proof.
  intros (p1 & F1 & M1 & E1) (p2 & F2 & M2 & E2). exists (p1 ++ p2). split; [by apply Forall2_app|]. rewrite !bind_app, <- M1, <- M2, E2, E1, app_assoc.
  split; [apply bind_app|done].
Qed.
Lemma item_content item r (sys : list contentBlock) : messageFromTranscriptItem provider item = Ok r ->
  exists parts, Forall2 (fun item part => stands_for item part.1 part.2) [item] parts /\ tagged (rp_messages r) = parts ≫= fst /\
    sys ++ rp_system r = sys ++ (parts ≫= snd).
Proof. intros H%item_stands. exists [(tagged (rp_messages r), rp_system r)]. split; [by apply Forall2_cons|]. cbn. by rewrite !app_nil_r. Qed.
Lemma took_app s1 s2 rest msgs1 msgs2 w w1 w' :
  took s1 (s2 ++ rest) msgs1 w w1 -> took s2 rest msgs2 w1 w' -> took (s1 ++ s2) rest (msgs1 ++ msgs2) w w'.
Proof.
  intros [W1 R1 O1 P1 C1] [W2 R2 O2 P2 C2]. split; [by eapply walked_trans|done|by rewrite O2, O1, app_assoc|by eapply took_content|].
  rewrite filter_app, fmap_app, list_to_set_app_L. set_solver.
Qed.

(** Results gathered after a message: those that answer its calls, up to the first that does not. *)
Definition starts_other (rest : list Item) : Prop := match rest with item :: _ => it_Kind item <> ItemToolResult | [] => True end.
Lemma gather_spec uses i results rest consumed :
  Forall (fun item => it_Kind item = ItemToolResult /\ result_id item <> emp) results -> starts_other rest ->
  exists taken left blocks recorded j consumed',
    results = taken ++ left /\ gather_results provider uses i (results ++ rest) consumed = Ok (blocks, recorded, j, left ++ rest, consumed') /\
    Forall (fun b => is_result b = true) blocks /\ block_result_ids blocks = result_id <$> taken /\
    consumed' = list_to_set (result_id <$> taken) ∪ consumed /\ blocks = answer_block <$> taken /\
    (left = [] \/ exists item, item ∈ left /\ toolUseIDKnown uses (it_CallID item) = false).
Proof.
  intros Hres Hrest. revert i consumed. induction Hres as [|item results [Hk Hid] _ IH]; intros i consumed.
  - exists [], [], [], [], i, consumed. cbn [app]. split; [done|]. split.
    + destruct rest as [|next rest]; cbn [gather_results]; [done|]. by rewrite decide_False.
    + split_and!; [constructor|done|cbn; by rewrite union_empty_l_L|done|by left].
  - cbn [app gather_results]. rewrite decide_True by done. destruct (toolUseIDKnown uses (it_CallID item)) eqn:Eknown.
    + destruct (result_block_ok item Hid) as [[block recorded] E]. rewrite E. apply result_answers in E as Hblock. apply result_block in E as [Hb Hbid].
      destruct (IH (S i) ({[result_id item]} ∪ consumed)) as (taken & left & blocks & recs & j & consumed' & -> & Hg & Hbs & Hids & -> & Hlen & Hleft).
      unfold result_id at 1 in Hg. rewrite Hg. cbn [res_bind].
      exists (item :: taken), left, (block :: blocks), (recorded :: recs), j, (list_to_set (result_id <$> taken) ∪ ({[result_id item]} ∪ consumed)).
      split; [done|]. split; [done|]. split; [by constructor|]. split.
      * change (block :: blocks) with ([block] ++ blocks). by rewrite block_result_ids_app, Hbid, Hids.
      * split; [apply set_eq; set_solver|]. split; [by rewrite fmap_cons, Hblock, Hlen|done].
    + exists [], (item :: results), [], [], i, consumed. split_and!; [done|done|constructor|done|cbn; by rewrite union_empty_l_L|done|].
      right. exists item. split; [by left|done].
Qed.

(** A result that is replayed on its own. *)
Lemma took_result item rest w :
  replayable item -> it_Kind item = ItemToolResult -> result_id item <> emp -> result_id item ∉ wk_consumed w -> wk_rest w = item :: rest ->
  exists msg w', took [item] rest [msg] w w' /\ mg_Role msg = "user"%string /\ Forall (fun b => is_result b = true) (mg_Content msg) /\
    result_ids msg = [result_id item] /\ wk_consumed w' = wk_consumed w.
Proof.
  intros Hrep Hk Hid Hc Hr. assert (Hcalls : call_ids item = []) by (apply call_ids_other; rewrite Hk; discriminate).
  destruct (item_replays item Hrep) as (r & Hm & Hu & Hmsg); [rewrite Hcalls; by apply not_elem_of_nil|done|].
  rewrite decide_True in Hmsg by done. destruct Hmsg as (msg & Hmsgs & Hrole & Hres & Hids). exists msg. eexists. split; [|split; [done|split; [done|split; [done|]]]].
  - split.
    + eapply walked_step; [done| |apply walked_refl]. unfold replay_item. rewrite decide_False by (intros [_ H]; by apply Hc).
      rewrite Hm, Hmsgs. cbn [answer_messages]. unfold toolUseBlocks. rewrite decide_True by (by rewrite Hrole). reflexivity.
    + done.
    + cbn. by rewrite Hmsgs.
    + rewrite <- Hmsgs. by apply item_content.
    + cbn. set_solver.
  - done.
Qed.
Lemma took_results results rest w :
  Forall replayable results -> Forall (fun item => it_Kind item = ItemToolResult /\ result_id item <> emp) results ->
  NoDup (result_id <$> results) -> (forall item, item ∈ results -> result_id item ∉ wk_consumed w) -> wk_rest w = results ++ rest ->
  exists msgs w', took results rest msgs w w' /\
    Forall (fun msg => mg_Role msg = "user"%string /\ Forall (fun b => is_result b = true) (mg_Content msg)) msgs /\
    msgs ≫= result_ids = result_id <$> results.
Proof.
  intros Hrep Hres. revert w Hrep. induction Hres as [|item results [Hk Hid] _ IH]; intros w Hrep Hnd Hc Hr.
  { exists [], w. split; [by apply took_nil|]. by split. }
  apply Forall_cons in Hrep as [Hrep1 Hrep]. rewrite fmap_cons in Hnd. apply NoDup_cons in Hnd as [Hnin Hnd].
  destruct (took_result item (results ++ rest) w Hrep1 Hk Hid) as (msg & w1 & Ht & Hrole & Hb & Hids & Hcons); [apply Hc; by left|done|].
  destruct (IH w1 Hrep Hnd) as (msgs & w' & Ht' & Hall & Hallids).
  - intros it Hit. rewrite Hcons. apply Hc. by right.
  - by apply (tk_rest _ _ _ _ _ Ht).
  - exists ([msg] ++ msgs), w'. split; [by apply (took_app [item] results) with w1|]. split; [by constructor|].
    rewrite bind_app, Hallids. cbn. by rewrite Hids.
Qed.

(** ** Other items *)

Lemma took_other item rest w :
  replayable item -> it_Kind item <> ItemToolResult -> call_ids item = [] -> wk_rest w = item :: rest ->
  exists msgs w', took [item] rest msgs w w' /\ good_messages msgs /\ msgs ≫= use_ids = [] /\ msgs ≫= result_ids = [].
Proof.
  intros Hrep Hk Hc Hr. destruct (item_replays item Hrep) as (r & Hm & Hu & Hmsg); [rewrite Hc; by apply not_elem_of_nil|done|].
  rewrite decide_False in Hmsg by done. destruct Hmsg as [Hshape Hres]. rewrite Hc in Hu.
  assert (Huse : forall msg, msg ∈ rp_messages r -> toolUseBlocks msg = []).
  { intros msg Hin. destruct Hshape as [E|[m E]]; rewrite E in Hin; [by apply elem_of_nil in Hin|]. apply list_elem_of_singleton in Hin as ->.
    rewrite E, bind_cons, app_nil_r in Hu. by apply fmap_nil_inv in Hu. }
  assert (Hgood : good_messages (rp_messages r)).
  { destruct Hshape as [->|[m E]]; [constructor|]. rewrite E in Hu, Hres |- *. rewrite !bind_cons, !app_nil_r in *. by constructor. }
  exists (rp_messages r). eexists. split; [split|done].
  - eapply walked_step; [done| |apply walked_refl]. unfold replay_item. rewrite decide_False by (by intros [? _]). rewrite Hm.
    assert (Hans : forall w0, answer_messages provider (rp_messages r) w0 = Ok w0); [|apply Hans].
    clear -Huse. induction (rp_messages r) as [|m ms IH]; intros w0; cbn [answer_messages]; [done|]. rewrite Huse by (by left).
    apply IH. intros; apply Huse; by right.
  - done.
  - done.
  - by apply item_content.
  - cbn. set_solver.
Qed.

(** An output with calls takes the results that follow it and answer them. *)
Lemma took_call item results rest w :
  replayable item -> call_ids item <> [] -> emp ∉ call_ids item ->
  Forall (fun item => it_Kind item = ItemToolResult /\ result_id item <> emp) results -> starts_other rest -> wk_rest w = item :: results ++ rest ->
  exists ask taken left replies w', results = taken ++ left /\ took (item :: taken) (left ++ rest) (ask :: replies) w w' /\
    mg_Role ask = "assistant"%string /\ result_ids ask = [] /\ use_ids ask = call_ids item /\
    Forall (fun msg => mg_Role msg = "user"%string /\ Forall (fun b => is_result b = true) (mg_Content msg)) replies /\
    replies ≫= result_ids = result_id <$> taken /\ wk_consumed w' = list_to_set (result_id <$> taken) ∪ wk_consumed w /\
    (replies = [] <-> taken = []).
Proof.
  intros Hrep Hcalls Hemp Hres Hrest Hr. destruct (call_ids_output item Hcalls) as [Hk _].
  assert (Hk' : it_Kind item <> ItemToolResult) by (rewrite Hk; discriminate).
  destruct (item_replays item Hrep Hemp) as (r & Hm & Hu & Hmsg); [done|].
  rewrite decide_False in Hmsg by done. destruct Hmsg as [[E|[ask E]] Hrids]; rewrite E in Hu, Hrids; [by destruct Hcalls|].
  rewrite bind_cons, app_nil_r in Hu, Hrids.
  assert (Hrole : mg_Role ask = "assistant"%string) by (apply use_ids_assistant; by rewrite Hu).
  destruct (gather_spec (toolUseBlocks ask) (wk_index w) results rest (wk_consumed w) Hres Hrest)
    as (taken & left & blocks & recorded & j & consumed' & Heqr & Hg & Hbs & Hids & Hcons & Hlen & _).
  set (replies := match blocks with [] => [] | _ => [mkMessage "user" blocks] end).
  assert (Hreplies : Forall (fun msg => mg_Role msg = "user"%string /\ Forall (fun b => is_result b = true) (mg_Content msg)) replies).
  { unfold replies. destruct blocks as [|b bs]; [by apply Forall_nil|]. apply Forall_cons. split; [by split|by apply Forall_nil]. }
  exists ask, taken, left, replies. eexists. split; [done|]. split; [|split_and!; try done].
  - assert (Hstep : replay_item provider item (w <| wk_rest := results ++ rest |>) =
      Ok (mkWalk j (left ++ rest) consumed' (append_replayed (append_replayed (wk_out w) r) (mkReplayed replies [] recorded)))).
    { unfold replay_item. rewrite decide_False by (by intros [? _]). rewrite Hm, E. cbn [answer_messages].
      destruct (toolUseBlocks ask) as [|use uses] eqn:Euses; [exfalso; apply Hcalls; rewrite <- Hu; unfold use_ids; by rewrite Euses|].
      cbn [wk_index wk_rest wk_consumed wk_out update_field]. by rewrite Hg. }
    split; [by eapply walked_step; [done|exact Hstep|apply walked_refl]|done| | |].
    + cbn. by rewrite E, <- app_assoc.
    + apply (took_content [item] taken [ask] replies (rp_system (wk_out w) ++ rp_system r)); [rewrite <- E; by apply item_content|].
      exists ((fun it => ([("user"%string, answer_block it)], [])) <$> taken). split; [|split].
      * clear -Hres Heqr. subst results. apply Forall_app in Hres as [Hres _]. induction Hres as [|x xs [Hx _] _ IH]; cbn; constructor; [by apply stands_result|done].
      * assert (Hblocks : tagged replies = pair "user"%string <$> blocks) by (unfold replies, tagged; destruct blocks; cbn; rewrite ?app_nil_r; done).
        rewrite Hblocks, Hlen. clear. induction taken as [|y l IH]; [done|]. cbn in IH |- *. by rewrite IH.
      * assert (Hnone : ((fun it : Item => ([("user"%string, answer_block it)], [] : list contentBlock)) <$> taken) ≫= snd = []) by (clear; induction taken as [|y l IH]; [done|exact IH]).
        rewrite Hnone. done.
    + cbn [wk_consumed]. rewrite Hcons. rewrite filter_cons_False by done.
      assert (filter (fun it => it_Kind it = ItemToolResult) taken = taken) as ->; [|set_solver].
      subst results. apply Forall_app in Hres as [Hres _]. clear -Hres. induction Hres as [|x xs [Hx _] _ IH]; [done|]. by rewrite filter_cons_True, IH.
  - unfold replies. destruct blocks as [|b bs]; [done|]. cbn [mbind list_bind]. by rewrite app_nil_r.
  - unfold replies. by destruct blocks, taken.
  - unfold replies. by destruct blocks, taken.
Qed.

Lemma took_calls outs rest w :
  Forall replayable outs -> (forall item, item ∈ outs -> call_ids item <> []) -> emp ∉ outs ≫= call_ids ->
  starts_other rest -> wk_rest w = outs ++ rest ->
  exists asks w', took outs rest asks w w' /\
    Forall (fun msg => mg_Role msg = "assistant"%string /\ result_ids msg = []) asks /\ asks ≫= use_ids = outs ≫= call_ids /\
    asks ≫= result_ids = [] /\ length asks = length outs /\ wk_consumed w' = wk_consumed w.
Proof.
  intros Hrep. revert w. induction Hrep as [|item outs Hrep1 Hrep IH]; intros w Hcalls Hemp Hrest Hr.
  { exists [], w. split; [by apply took_nil|]. by repeat split. }
  rewrite bind_cons in Hemp |- *.
  assert (Hother : starts_other (outs ++ rest)).
  { destruct outs as [|o outs]; [done|]. cbn. destruct (call_ids_output o) as [-> _]; [apply Hcalls; by right; left|discriminate]. }
  destruct (took_call item [] (outs ++ rest) w Hrep1) as (ask & taken & left & replies & w1 & Heq & Ht & Hrole & Hrids & Huids & _ & _ & Hcons & Hnone).
  { apply Hcalls. by left. } { set_solver. } { by apply Forall_nil. } { done. } { done. }
  symmetry in Heq. apply app_eq_nil in Heq as [-> ->]. cbn in Hcons. rewrite union_empty_l_L in Hcons. rewrite (proj2 Hnone) in Ht by done.
  destruct (IH w1) as (asks & w' & Ht' & Hall & Huse & Hres & Hlen & Hcons').
  { intros it Hit. apply Hcalls. by right. } { set_solver. } { done. } { apply (tk_rest _ _ _ _ _ Ht). }
  exists ([ask] ++ asks), w'. split; [by apply (took_app [item] outs) with w1|]. split; [by apply Forall_cons|].
  rewrite !bind_app, Huse, Hres. cbn [mbind list_bind app]. rewrite Huids, Hrids, app_nil_r. split_and!; [done|done|cbn; by rewrite Hlen|congruence].
Qed.

(** ** Segments *)

Definition results_of (s : list Item) : list Item := filter (fun item => it_Kind item = ItemToolResult) s.
Record segment_messages (s : list Item) (msgs : list message) : Prop := {
  sg_good : good_messages msgs;
  sg_uses : msgs ≫= use_ids = s ≫= call_ids;
  sg_results : msgs ≫= result_ids = result_id <$> results_of s
}.

Lemma results_all results : (forall item, item ∈ results -> is_repair item = false /\ it_Kind item = ItemToolResult) -> results_of results = results.
Proof.
  unfold results_of. induction results as [|x xs IH]; intros H; [done|]. rewrite filter_cons_True by (apply H; by left). rewrite IH; [done|].
  intros; apply H; by right.
Qed.
Lemma results_none outs : (forall item, item ∈ outs -> call_ids item <> []) -> results_of outs = [].
Proof.
  unfold results_of. induction outs as [|x xs IH]; intros H; [done|]. destruct (call_ids_output x) as [Hk _]; [apply H; by left|].
  rewrite filter_cons_False by (rewrite Hk; discriminate). apply IH. intros; apply H; by right.
Qed.
Lemma results_no_calls results : (forall item, item ∈ results -> is_repair item = false /\ it_Kind item = ItemToolResult) -> results ≫= call_ids = [].
Proof.
  induction results as [|x xs IH]; intros H; [done|]. rewrite bind_cons, IH by (intros; apply H; by right).
  rewrite call_ids_other; [done|]. destruct (H x) as [_ ->]; [by left|discriminate].
Qed.

Lemma took_exchange outs results rest w :
  exchange outs results -> Forall replayable (outs ++ results) -> starts_other rest -> wk_rest w = (outs ++ results) ++ rest ->
  (forall item, item ∈ results -> result_id item ∉ wk_consumed w) ->
  exists msgs w', took (outs ++ results) rest msgs w w' /\ segment_messages (outs ++ results) msgs.
Proof.
  intros [Hne Houts [Hnd Hemp] Hresults Hperm] Hrep Hrest Hr Hfresh. change (result_id <$> results ≡ₚ outs ≫= call_ids) in Hperm.
  apply Forall_app in Hrep as [Hrep1 Hrep2].
  destruct outs as [|o outs _] using rev_ind; [done|].
  assert (Hcalls : forall item, item ∈ outs ++ [o] -> call_ids item <> []) by (intros; by apply Houts).
  rewrite bind_app in Hemp, Hnd, Hperm. cbn [mbind list_bind] in Hemp, Hnd, Hperm. rewrite app_nil_r in Hemp, Hnd, Hperm.
  apply Forall_app in Hrep1 as [Hrep1 Hrepo]. apply Forall_cons in Hrepo as [Hrepo _].
  assert (Hres : Forall (fun item => it_Kind item = ItemToolResult /\ result_id item <> emp) results).
  { apply Forall_forall. intros item Hin. split; [by apply Hresults|]. intros E. apply Hemp. rewrite <- Hperm, <- E. by apply list_elem_of_fmap_2. }
  assert (Hndr : NoDup (result_id <$> results)) by (by rewrite Hperm).
  assert (Ho : starts_other ([o] ++ results ++ rest)).
  { cbn. destruct (call_ids_output o) as [-> _]; [apply Hcalls, elem_of_app; right; by left|discriminate]. }
  destruct (took_calls outs ([o] ++ results ++ rest) w) as (asks & w1 & Ht1 & Hasks & Hu1 & Hr1 & Hl1 & Hc1); try done.
  { intros; apply Hcalls, elem_of_app; by left. } { set_solver. } { by rewrite Hr, <- !app_assoc. }
  destruct (took_call o results rest w1) as (ask & taken & left & replies & w2 & -> & Ht2 & Hrole & Hrids & Huids & Hreplies & Hrr & Hc2 & Hnone); try done.
  { apply Hcalls, elem_of_app; right; by left. } { set_solver. } { apply (tk_rest _ _ _ _ _ Ht1). }
  rewrite fmap_app in Hndr. apply NoDup_app in Hndr as (_ & Hdis & Hndl). apply Forall_app in Hrep2 as [_ Hrepl]. apply Forall_app in Hres as [_ Hresl].
  destruct (took_results left rest w2) as (more & w3 & Ht3 & Hmore & Hmr); try done.
  { intros item Hin. rewrite Hc2, Hc1. apply not_elem_of_union. split.
    - intros H%elem_of_list_to_set. apply (Hdis (result_id item)); [done|by apply list_elem_of_fmap_2].
    - apply Hfresh, elem_of_app. by right. }
  { apply (tk_rest _ _ _ _ _ Ht2). }
  assert (Hassoc : [o] ++ (taken ++ left) ++ rest = ([o] ++ taken) ++ left ++ rest) by (by rewrite <- !app_assoc). rewrite Hassoc in Ht1.
  pose proof (took_app outs ([o] ++ taken) (left ++ rest) asks ([ask] ++ replies) _ _ _ Ht1 Ht2) as Ht12.
  assert (Htook : took ((outs ++ [o]) ++ taken ++ left) rest ((asks ++ [ask]) ++ replies ++ more) w w3).
  { pose proof (took_app (outs ++ [o] ++ taken) left rest _ _ _ _ _ Ht12 Ht3) as H.
    rewrite <- !app_assoc in H |- *. by rewrite <- !app_assoc in H. }
  assert (Hm : (replies ++ more) ≫= result_ids = result_id <$> taken ++ left) by (by rewrite bind_app, Hrr, Hmr, fmap_app).
  assert (Hu : (asks ++ [ask]) ≫= use_ids = (outs ++ [o]) ≫= call_ids).
  { rewrite !bind_app, Hu1. cbn [mbind list_bind]. by rewrite !app_nil_r, Huids. }
  assert (Hr2 : (asks ++ [ask]) ≫= result_ids = []) by (by rewrite bind_app, Hr1, bind_cons, Hrids).
  assert (Hru : (replies ++ more) ≫= use_ids = []).
  { assert (Hall : Forall (fun msg => mg_Role msg = "user"%string /\ Forall (fun b => is_result b = true) (mg_Content msg)) (replies ++ more)) by by apply Forall_app.
    clear -Hall. induction Hall as [|x xs [Hx _] _ IH]; [done|]. rewrite bind_cons, IH, use_ids_other; [done|by rewrite Hx]. }
  eexists _, w3. split; [exact Htook|]. split.
  - apply good_exchange.
    + by intros []%app_eq_nil.
    + intros E. assert (Hnil : result_id <$> taken ++ left = []) by (by rewrite <- Hm, E).
      rewrite Hnil in Hperm. symmetry in Hperm. apply Permutation_nil_r in Hperm. apply app_eq_nil in Hperm as [_ Hperm]. by apply (Hcalls o), Hperm; apply elem_of_app; right; left.
    + apply Forall_app. split; [done|]. by apply Forall_cons.
    + by apply Forall_app.
    + rewrite Hu, bind_app. intros [_ E]%app_eq_nil. cbn in E. rewrite app_nil_r in E. apply (Hcalls o); [apply elem_of_app; right; by left|done].
    + rewrite Hm, Hu, bind_app. cbn [mbind list_bind]. by rewrite app_nil_r.
  - rewrite bind_app, Hu, Hru, app_nil_r, (bind_app call_ids (outs ++ [o])), (results_no_calls (taken ++ left)), app_nil_r by done. done.
  - rewrite bind_app, Hr2, Hm. unfold results_of. rewrite filter_app. fold (results_of (outs ++ [o])) (results_of (taken ++ left)).
    by rewrite results_none, results_all by done.
Qed.

Lemma segment_starts s rest : segment s -> starts_other (s ++ rest).
Proof.
  intros [(item & -> & _ & _ & H)|(outs & results & -> & Hex)]; [done|]. destruct Hex as [Hne Houts _ _ _].
  destruct outs as [|o outs]; [done|]. cbn. destruct (call_ids_output o) as [-> _]; [apply Houts; by left|discriminate].
Qed.
Lemma segments_start segs : Forall segment segs -> starts_other (concat segs).
Proof. intros H. destruct H as [|s segs Hs _]; [done|]. by apply segment_starts. Qed.
Lemma segment_answers s : segment s -> result_id <$> results_of s ≡ₚ s ≫= call_ids.
Proof.
  intros [(item & -> & _ & Hc & Hk)|(outs & results & -> & Hex)].
  - unfold results_of. rewrite filter_cons_False by done. cbn. by rewrite Hc.
  - destruct Hex as [_ Houts _ Hres Hperm]. unfold results_of. rewrite filter_app. fold (results_of outs) (results_of results).
    rewrite results_none by (intros; by apply Houts). rewrite results_all by done. rewrite bind_app, (results_no_calls results), app_nil_r by done. exact Hperm.
Qed.

Lemma took_segment s rest w :
  segment s -> Forall replayable s -> starts_other rest -> wk_rest w = s ++ rest ->
  (forall c, c ∈ s ≫= call_ids -> c ∉ wk_consumed w) ->
  exists msgs w', took s rest msgs w w' /\ segment_messages s msgs.
Proof.
  intros Hs Hrep Hrest Hr Hfresh. pose proof (segment_answers s Hs) as Hans. destruct Hs as [(item & -> & _ & Hc & Hk)|(outs & results & -> & Hex)].
  - apply Forall_cons in Hrep as [Hrep _]. destruct (took_other item rest w Hrep Hk Hc Hr) as (msgs & w' & Ht & Hg & Hu & Hres).
    exists msgs, w'. split; [done|]. split; [done| |].
    + by rewrite Hu, bind_cons, Hc.
    + unfold results_of. by rewrite Hres, filter_cons_False.
  - apply took_exchange; try done. intros item Hin. apply Hfresh. rewrite <- Hans. apply list_elem_of_fmap_2.
    unfold results_of. apply list_elem_of_filter. split; [by apply (ex_result _ _ Hex)|]. apply elem_of_app. by right.
Qed.

Lemma took_segments segs w :
  Forall segment segs -> Forall replayable (concat segs) -> NoDup (concat segs ≫= call_ids) -> wk_rest w = concat segs ->
  (forall c, c ∈ concat segs ≫= call_ids -> c ∉ wk_consumed w) ->
  exists parts w', took (concat segs) [] (concat parts) w w' /\ Forall good_messages parts /\
    concat parts ≫= use_ids = concat segs ≫= call_ids /\ concat parts ≫= result_ids = result_id <$> results_of (concat segs).
Proof.
  intros Hsegs. revert w. induction Hsegs as [|s segs Hs Hsegs IH]; intros w Hrep Hnd Hr Hfresh; cbn [concat] in *.
  { exists [], w. split; [by apply took_nil|]. by repeat split. }
  apply Forall_app in Hrep as [Hrep1 Hrep2]. rewrite bind_app in Hnd, Hfresh |- *. apply NoDup_app in Hnd as (_ & Hdis & Hnd).
  destruct (took_segment s (concat segs) w Hs Hrep1) as (msgs & w1 & Ht & [Hg Hu Hres]); [by apply segments_start|done| |].
  { intros c Hc. apply Hfresh, elem_of_app. by left. }
  destruct (IH w1 Hrep2 Hnd) as (parts & w' & Ht' & Hgs & Hus & Hress); [by apply (tk_rest _ _ _ _ _ Ht)| |].
  { intros c Hc Hin. apply (tk_consumed _ _ _ _ _ Ht), elem_of_union in Hin as [Hin|Hin%elem_of_list_to_set].
    - apply (Hfresh c); [apply elem_of_app; by right|done].
    - apply (Hdis c); [|done]. by rewrite <- (segment_answers s Hs). }
  exists (msgs :: parts), w'. cbn [concat]. split; [|split; [by constructor|]].
  - apply (took_app s (concat segs)) with w1; [by rewrite app_nil_r|done].
  - rewrite !bind_app, Hu, Hus, Hres, Hress. split; [done|]. unfold results_of. by rewrite filter_app, fmap_app.
Qed.

(** C20: A transcript of complete exchanges and other items, whose calls all have different ids, and in which a message
    a provider sent makes the calls and gives the results its item stands for, is replayed whole: the blocks of the messages, with their roles, and
    the system blocks are, in order, those that the items stand for, none left out. In the turns the provider joins
    the messages into, every turn with calls is followed at once by the results of exactly these calls; calls and results
    come in the order of the transcript. *)
Theorem replay_answered items :
  phased items -> NoDup (items ≫= call_ids) -> Forall replayable items ->
  exists r, messagesFromTranscript provider items = Some (Ok r) /\ answered (turns (rp_messages r)) /\
    (exists parts, Forall2 (fun item part => stands_for item part.1 part.2) items parts /\
      tagged (rp_messages r) = parts ≫= fst /\ rp_system r = parts ≫= snd) /\
    rp_messages r ≫= use_ids = items ≫= call_ids /\ rp_messages r ≫= result_ids = result_id <$> results_of items.
Proof.
  intros (segs & Hsegs & ->) Hnd Hrep. set (w := mkWalk 0 (concat segs) ∅ (mkReplayed [] [] [])).
  destruct (took_segments segs w Hsegs Hrep Hnd) as (parts & w' & [Hw Hr Hout Hcontent _] & Hgood & Hu & Hres); [done|intros; apply not_elem_of_empty|].
  exists (wk_out w'). unfold messagesFromTranscript. cbn in Hout, Hcontent. rewrite Hout. split; [|split; [by apply good_answered|done]].
  by apply (walked_loop _ w w').
Qed.
End Turns.
