(* ===== verification/LLMAgent.v ===== *)
(** * Agents that ask a model (src/runtime/agent/llmagent)

    One step of an agent: its context, the request, the call of the model, the events about it and the
    decision made of the response. The model is any function of the request; what it streams passes the
    policy of the agent. *)

From S2P Require Import Prelude Operation OpModel WorkerText Conversation AgentModel SessionData SessionItems Usage ModelTools Sse ModelStream.

Section Agent.

(** The texts of errors of a model. *)
Class ModelTexts := { model_error_text : ModelError -> string }.

(** The driver configuration, as far as it is read here. *)
Record LLMDriver := mkLLMDriver { dr_Instructions : string; dr_Model : string }.
Record LLMRequest := mkLLMRequest {
  lq_Agent : AgentSpec;
  lq_Driver : LLMDriver;
  lq_ConversationKey : string;
  lq_Tools : list CoreTool;
  lq_Goal : string;
  lq_Objective : Objective;
  lq_Observations : list Observation;
  lq_Context : list ContextBlock;
  lq_Transcript : option Transcript;
  lq_State : StateRef
}.
(** [agent.StepInput]. *)
Record LLMInput := mkLLMInput {
  li_Goal : string;
  li_Objective : Objective;
  li_Observations : list Observation;
  li_Context : list ContextBlock;
  li_State : StateRef
}.
(** A context provider; it sees the datasources of the access policy. *)
Record ContextProvider := mkContextProvider {
  cp_Name : string; cp_Build : list string -> list Observation -> Result string (list ContextBlock) }.
(** What the context of a step carries. *)
Record StepContext := mkStepContext {
  sc_Err : option string;
  sc_Materialized : bool;
  sc_Datasources : list string;
  sc_Transcript : option Transcript;
  sc_ConversationKey : string;
  sc_Sink : bool
}.

(** An implementation of [Model]: [Stream] when it has it, else [Complete], which streams nothing; with the
    identity it reports. *)
Record Model := mkModel {
  mo_Identity : option (LLMRequest -> ProviderIdentity);
  mo_Call : LLMRequest -> list RuntimeStream * (Response * option ModelError)
}.
Record LLMAgent := mkLLMAgent {
  la_Spec : AgentSpec;
  la_Driver : LLMDriver;
  la_Model : option Model;
  la_Tools : list CoreTool;
  la_Providers : list (option ContextProvider);
  la_Policy : StreamPolicy
}.

Inductive AgentEvent :=
| ModelRequested (Agent Provider Model : string)
| ModelStreamed (Agent Provider Model : string) (Event : RuntimeStream)
| ModelCompleted (Agent Provider Model : string) (Decision : DecisionKind)
| ModelFailed (Agent Provider Model : string) (Error : string)
| UsageRecorded (recorded : Recorded)
| ConversationEmitted (e : ConversationEvent).

Definition step_failed (code message : string) : AgentStep :=
  mkAgentStep AgentFailed (mkAgentDecision DecisionNone [] None None) (mkStateUpdate zero_StateRef emp) (Some (mkAgentError code message ∅)).

Definition modelName (req : LLMRequest) : string :=
  if decide (dr_Model (lq_Driver req) = emp) then nf_Model (as_Inference (lq_Agent req)) else dr_Model (lq_Driver req).
Definition chooseObjective (requested fallback : Objective) : Objective :=
  if decide (ob_Role requested = emp /\ ob_Instructions requested = emp /\ ob_Success requested = emp) then fallback else requested.
Definition llm_request (a : LLMAgent) (ctx : StepContext) (input : LLMInput) (toolOverride : option (list CoreTool)) : LLMRequest :=
  mkLLMRequest (la_Spec a) (la_Driver a) (sc_ConversationKey ctx) (default (la_Tools a) toolOverride) (li_Goal input)
    (chooseObjective (li_Objective input) (as_Objective (la_Spec a))) (li_Observations input) (li_Context input) (sc_Transcript ctx)
    (li_State input).

(** The loops of [withDatasourceAccess]. *)
Definition add_name (names : list string) (name : string) : list string :=
  if decide (name = emp \/ name ∈ names) then names else names ++ [name].
Definition withDatasourceAccess (a : LLMAgent) (existing : list string) : list string :=
  fold_left add_name (as_Datasources (la_Spec a)) (fold_left add_name existing []).
Fixpoint build_providers (providers : list (option ContextProvider)) (datasources : list string) (observations : list Observation)
    : Result (string * string) (list ContextBlock) :=
  match providers with
  | [] => Ok []
  | None :: rest => build_providers rest datasources observations
  | Some p :: rest =>
      match cp_Build p datasources observations with
      | Err e => Err (cp_Name p, e)
      | Ok blocks => let? out := build_providers rest datasources observations in Ok (blocks ++ out)
      end
  end.
Definition buildContext `{GoFmt} (a : LLMAgent) (ctx : StepContext) (input : LLMInput) : Result string (list ContextBlock) :=
  match build_providers (la_Providers a) (withDatasourceAccess a (sc_Datasources ctx)) (li_Observations input) with
  | Ok blocks => Ok blocks
  | Err (name, e) => Err ("context provider " ++ Quote name ++ ": " ++ e)%string
  end.

Definition provider_name (m : Model) (req : LLMRequest) : string :=
  match mo_Identity m with
  | Some identity => pi_Provider (identity req)
  | None => match lq_Transcript req with Some t => pi_Provider (ts_Provider t) | None => emp end
  end.

Definition emitResponseArtifacts (resp : Response) : list AgentEvent :=
  map UsageRecorded (List.filter (fun r => negb (recorded_empty r)) (re_Usage resp))
  ++ (if TranscriptEmpty (re_Transcript resp) then [] else
      (match ts_Items (re_Transcript resp) with
       | [] => []
       | items => [ConversationEmitted (ItemsAppended emp (ts_Provider (re_Transcript resp)) items)]
       end)
      ++ match ts_Continuation (re_Transcript resp) with
         | Some handle => [ConversationEmitted (ContinuationStored emp handle)]
         | None => []
         end).
Definition resultFromResponse (resp : Response) : AgentStep :=
  let decision :=
    match re_Operations resp, re_Message resp, re_Completion resp with
    | _ :: _, _, _ => mkAgentDecision DecisionOperation (re_Operations resp) None None
    | [], Some message, _ => mkAgentDecision DecisionMessage [] (Some message) None
    | [], None, Some completion => mkAgentDecision DecisionComplete [] None (Some completion)
    | [], None, None => mkAgentDecision DecisionWait [] None None
    end in
  mkAgentStep AgentOK decision (re_State resp) None.

(** [step]: the events for the sink, and the result. *)
Definition llm_step `{GoFmt} `{ModelTexts} (agent : option LLMAgent) (ctx : StepContext) (input : LLMInput)
    (toolOverride : option (list CoreTool)) : list AgentEvent * AgentStep :=
  match agent with
  | None => ([], step_failed "agent_missing" "llmagent: agent is nil")
  | Some a =>
      match la_Model a with
      | None => ([], step_failed "model_missing" "llmagent: model is nil")
      | Some m =>
          match sc_Err ctx with
          | Some e => ([], step_failed "context_canceled" e)
          | None =>
              match (if sc_Materialized ctx then Ok [] else buildContext a ctx input) with
              | Err e => ([], step_failed "context_provider_failed" e)
              | Ok dynamicContext =>
                  let input := mkLLMInput (li_Goal input) (li_Objective input) (li_Observations input)
                                 (dynamicContext ++ li_Context input) (li_State input) in
                  let req := llm_request a ctx input toolOverride in
                  let provider := provider_name m req in
                  let name := as_Name (la_Spec a) in
                  let '(deltas, (resp, err)) := mo_Call m req in
                  let streamed := map (ModelStreamed name provider (modelName req)) (List.filter (stream_allowed (la_Policy a)) deltas) in
                  let requested := ModelRequested name provider (modelName req) :: streamed in
                  let '(events, result) :=
                    match err with
                    | Some err =>
                        let artifacts :=
                          match PartialResponse err with
                          | Some partial => emitResponseArtifacts partial
                          | None =>
                              if negb (TranscriptEmpty (re_Transcript resp)) || (match re_Usage resp with [] => false | _ => true end)
                              then emitResponseArtifacts resp else []
                          end in
                        (requested ++ artifacts ++ [ModelFailed name provider (modelName req) (model_error_text err)],
                         step_failed "model_failed" (model_error_text err))
                    | None =>
                        let result := resultFromResponse resp in
                        let provider := if decide (provider = emp) then pi_Provider (ts_Provider (re_Transcript resp)) else provider in
                        (requested ++ emitResponseArtifacts resp
                           ++ [ModelCompleted name provider (modelName req) (de_Kind (gs_Decision result))], result)
                    end in
                  (if sc_Sink ctx then events else [], result)
              end
          end
      end
  end.

(** The items a step hands to the conversation of its session. *)
Definition appended_items (events : list AgentEvent) : list Item :=
  events ≫= fun e => match e with ConversationEmitted (ItemsAppended _ _ items) => items | _ => [] end.
End Agent.
