(* ===== verification/ModelRequests.v ===== *)
(** * From a message to accepted operations

    The operations an agent decides on and the transcript it hands to its session come from the same
    message; the session, which compares the two, accepts them unless the model used one id twice. *)

From S2P Require Import Prelude Operation OpModel Instances WorkerText Thread Conversation Continuity Exchanges AgentModel SessionData SessionItems SessionTurn Usage ModelTools Assembler Sse ModelStream Streaming LLMAgent.

Section Accepted.
Context {JD : JsonDecode} {WJ : WireJson} {SM : SensitivityModule}.

(** The ids of the tool calls of a message. *)
Definition is_call (b : contentBlock) : bool := bool_decide (bk_Type b = "tool_use"%string).
Definition tool_ids (blocks : list contentBlock) : list string := (fun b => TrimSpace (bk_ID b)) <$> List.filter is_call blocks.
Definition all_named (blocks : list contentBlock) : Prop := emp ∉ tool_ids blocks.

(** ** The calls of a transcript item *)

Lemma note_calls_err calls e : fold_left note_call calls (Err e) = Err e.
Proof. by induction calls. Qed.
Lemma note_calls_nodup calls open open' :
  named_refs open -> emp ∉ (fun c => TrimSpace (tc_CallID c)) <$> calls -> fold_left note_call calls (Ok open) = Ok open' ->
  NoDup ((fun c => TrimSpace (tc_CallID c)) <$> calls) /\ (forall c, c ∈ (fun c => TrimSpace (tc_CallID c)) <$> calls -> open !! c = None).
Proof.
  revert open. induction calls as [|call calls IH]; intros open Hn Hemp; cbn [fold_left fmap list_fmap].
  { intros _. split; [constructor|]. intros c Hc. by apply elem_of_nil in Hc. }
  rewrite fmap_cons in Hemp. unfold note_call at 2. cbn [res_bind]. rewrite decide_False by (intros E; apply Hemp; rewrite <- E; by left).
  destruct (open !! TrimSpace (tc_CallID call)) as [existing|] eqn:Eo.
  { rewrite decide_False by (by apply (Hn _ _ Eo)). by rewrite note_calls_err. }
  intros H. destruct (IH (<[TrimSpace (tc_CallID call) := call]> open)) as [Hnd Hnew].
  - apply map_Forall_insert_2; [|done]. intros E. apply Hemp. rewrite E. by left.
  - intros Hin. apply Hemp. by right.
  - exact H.
  - split.
    + constructor; [|done]. intros Hin. specialize (Hnew _ Hin). by rewrite lookup_insert_eq in Hnew.
    + intros c [->|Hc]%elem_of_cons; [done|]. specialize (Hnew c Hc). by apply lookup_insert_None in Hnew as [? _].
Qed.

(** A transcript without open calls and one more output. *)
Lemma output_accepted provider items out requests :
  continuity_loop provider 0 items ∅ = Ok ∅ -> it_Kind out = ItemOutput -> is_repair out = false ->
  emp ∉ call_ids out -> request_ids requests = call_ids out ->
  validateOperationRequests (items ++ [out]) requests = None <-> NoDup (call_ids out).
Proof.
  intros Hok Hkind Hrep Hemp Hids. split.
  - unfold validateOperationRequests, open_requests. rewrite fold_left_app. destruct (open_requests_ok _ _ _ Hok) as (open & Ho & Hd).
    unfold open_requests in Ho. rewrite Ho. cbn [fold_left]. unfold note_item. rewrite decide_True by done.
    assert (open = ∅) as -> by (apply (dom_empty_inv_L (D := gset string)); by rewrite Hd, dom_empty_L).
    destruct (fold_left note_call (ToolCallRefs out) (Ok ∅)) as [open'|e] eqn:E; [|done]. intros _.
    apply note_calls_nodup in E as [Hnd _]; [done|apply map_Forall_empty|done].
  - intros Hnd. destruct (open_calls_total (0 + length items) (ToolCallRefs out) ∅) as [final Hfinal]; try done.
    assert (Hloop : continuity_loop provider 0 (items ++ [out]) ∅ = Ok final).
    { rewrite continuity_loop_app, Hok. cbn [res_bind continuity_loop]. unfold continuity_step.
      destruct (ensure_same out provider) as (Er & Ek & Ei & Ep). rewrite Er, Ek, Ep, Hrep, decide_True by done.
      rewrite bool_decide_eq_true_2 by done. cbn [negb andb]. by rewrite Hfinal. }
    apply (requests_accepted _ _ _ _ Hloop). left. rewrite Hids. split; [done|]. split; [done|].
    destruct (open_calls_ok _ _ _ _ Hfinal) as (_ & _ & _ & Hlook). apply set_eq. intros c.
    rewrite elem_of_list_to_set, elem_of_dom, Hlook. unfold call_ids. case_decide as Hc; [split; [by eexists|done]|].
    rewrite lookup_empty. split; [done|]. by intros [? ?].
Qed.

(** ** The response of a message *)

Lemma block_request_id tools i b req :
  TrimSpace (bk_ID b) <> emp -> block_request tools i b = Ok req -> request_id req = TrimSpace (bk_ID b).
Proof.
  intros Hid. unfold block_request, operationRequest. destruct (_ !! _) as [spec|]; [|done]. destruct (decodeArguments _); [|done].
  destruct (operationTarget _ _); [|done]. case_decide; [done|]. intros [= <-]. unfold request_id, call_key. cbn.
  rewrite decide_False; [done|]. intros E. rewrite E in Hid. by apply Hid.
Qed.
Lemma collect_ids tools blocks n reqs :
  all_named blocks -> collect (imap (fun k b => block_requests tools (n + Z.of_nat k) b) blocks) = Ok reqs ->
  request_ids reqs = tool_ids blocks.
Proof.
  revert n reqs. induction blocks as [|b blocks IH]; intros n reqs Hn; cbn [imap collect]; [by intros [= <-]|].
  intros (x & Hx & (y & Hy & [= <-])%res_bind_ok)%res_bind_ok.
  assert (Hy' : collect (imap (fun k c => block_requests tools (n + 1 + Z.of_nat k) c) blocks) = Ok y).
  { rewrite <- Hy. f_equal. apply imap_ext. intros k c _. unfold compose. f_equal. lia. }
  unfold all_named, tool_ids, is_call in *. cbn [List.filter] in *. unfold block_requests in Hx.
  case_decide as Ht; [rewrite bool_decide_eq_true_2 in * by done|rewrite bool_decide_eq_false_2 in * by done].
  - rewrite fmap_cons in Hn |- *. apply not_elem_of_cons in Hn as [Hn1 Hn2]. apply res_bind_ok in Hx as (req & Hreq & [= <-]).
    unfold request_ids. cbn. rewrite (block_request_id _ _ _ _ (not_eq_sym Hn1) Hreq). f_equal. by apply IH with (n + 1)%Z.
  - injection Hx as <-. by apply IH with (n + 1)%Z.
Qed.

Lemma refs_ids blocks : (fun c => TrimSpace (TrimSpace (tc_CallID c))) <$> toolCallsFromBlocks blocks
  = List.filter (fun id => negb (bool_decide (id = emp))) (tool_ids blocks).
Proof.
  unfold tool_ids, is_call, toolCallsFromBlocks. induction blocks as [|b blocks IH]; [done|]. cbn [omap list_omap List.filter].
  case_decide as H; case_bool_decide as Ht; cbn [fmap list_fmap List.filter].
  - destruct H as [H|H]; [done|]. rewrite IH. by rewrite H, bool_decide_eq_true_2.
  - exact IH.
  - rewrite bool_decide_eq_false_2 by tauto. cbn [negb tc_CallID]. by rewrite !TrimSpace_idem, IH.
  - exfalso. tauto.
Qed.

(** The item a message becomes. *)
Definition output_of (out : Item) (blocks : list contentBlock) : Prop :=
  it_Kind out = ItemOutput /\ it_Metadata out = ∅ /\ it_CallID out = emp /\ it_ToolCalls out = toolCallsFromBlocks blocks.

Lemma runtime_parts s provider prices r :
  rs_assembler s = NewToolCallAssembler [] \/ Complete (rs_assembler s) = Ok [] -> toRuntime s provider prices = Ok r ->
  re_Operations r = rs_operations s /\ exists out, ts_Items (re_Transcript r) = [out] /\ output_of out (rs_blocks s).
Proof.
  intros Ha. assert (Hc : Complete (rs_assembler s) = Ok []) by (destruct Ha as [->|?]; done). unfold toRuntime. rewrite Hc. cbn [res_bind].
  rewrite app_nil_r. destruct (rs_operations s) as [|req reqs]; cbn [length negb bool_decide].
  - rewrite bool_decide_eq_true_2 by done. cbn [negb]. case_decide; intros [= <-]; (split; [done|]); by eexists.
  - rewrite bool_decide_eq_false_2 by done. cbn [negb]. intros [= <-]. split; [done|]. by eexists.
Qed.

Lemma response_parts cfg msg tools sentItems upload download r :
  responseFromMessage cfg msg tools sentItems upload download = (r, None) ->
  collect (imap (fun k b => block_requests tools (0 + Z.of_nat k) b) (mr_Content msg)) = Ok (re_Operations r) /\
  exists out, ts_Items (re_Transcript r) = sentItems ++ [out] /\ output_of out (mr_Content msg).
Proof.
  unfold responseFromMessage.
  set (s0 := mkResponseState (mr_Model msg) (mr_ID msg) (mr_Content msg) (mr_Usage msg) (NewToolCallAssembler tools) []).
  pose proof (assemble_exact tools (mr_Content msg) s0 0 eq_refl) as H.
  destruct (collect (imap (fun k b => block_requests tools (0 + Z.of_nat k) b) (mr_Content msg))) as [reqs|e]; [rewrite H|by destruct H as [s' ->]].
  destruct (toRuntime _ _) as [out|e] eqn:E; [|done]. intros [= <-]. apply runtime_parts in E; [|right; done].
  destruct E as [Hops (item & Hitems & Hout)]. cbn. rewrite Hops, Hitems. split; [done|]. by exists item.
Qed.

Lemma output_calls out blocks : output_of out blocks -> all_named blocks ->
  is_repair out = false /\ call_ids out = tool_ids blocks.
Proof.
  intros (Hk & Hm & Hc & Ht) Hn. split; [unfold is_repair, attribute; by rewrite Hm|]. pose proof (refs_ids blocks) as H.
  assert (Hall : List.filter (fun id => negb (bool_decide (id = emp))) (tool_ids blocks) = tool_ids blocks).
  { unfold all_named in Hn. clear -Hn. induction (tool_ids blocks) as [|x xs IH]; [done|]. cbn. apply not_elem_of_cons in Hn as [Hx Hn].
    rewrite bool_decide_eq_false_2 by (by intros ->). cbn. by rewrite IH. }
  rewrite Hall in H. rewrite <- H. unfold call_ids, ToolCallRefs. rewrite decide_False by (by intros []). rewrite Ht.
  destruct (toolCallsFromBlocks blocks) as [|c cs]; [by rewrite Hc|]. rewrite <- list_fmap_compose. done.
Qed.

(** ** The step of an agent *)

Context {GF : GoFmt} {MT : ModelTexts}.

Lemma artifacts_items r : ts_Items (re_Transcript r) <> [] -> appended_items (emitResponseArtifacts r) = ts_Items (re_Transcript r).
Proof.
  intros Hne. unfold emitResponseArtifacts, appended_items, TranscriptEmpty. rewrite bind_app.
  assert (H : forall l : list Recorded, map UsageRecorded l ≫= (fun e => match e with ConversationEmitted (ItemsAppended _ _ items) => items | _ => [] end) = [])
    by (intros l; induction l; done).
  rewrite H. destruct (ts_Items (re_Transcript r)) as [|item items]; [done|]. cbn. destruct (ts_Continuation _); cbn; by rewrite ?app_nil_r.
Qed.

Lemma step_parts a m ctx input override r deltas events step :
  la_Model a = Some m -> sc_Sink ctx = true -> (forall req, mo_Call m req = (deltas req, (r, None))) ->
  llm_step (Some a) ctx input override = (events, step) -> gs_Status step = AgentOK ->
  ts_Items (re_Transcript r) <> [] ->
  de_Operations (gs_Decision step) = re_Operations r /\ appended_items events = ts_Items (re_Transcript r).
Proof.
  intros Hm Hsink Hcall. unfold llm_step. rewrite Hm, Hsink. destruct (sc_Err ctx); [by intros [= <- <-]|].
  destruct (if sc_Materialized ctx then _ else _) as [dyn|e]; [|by intros [= <- <-]]. rewrite Hcall. intros [= <- <-] _ Hne. split.
  - unfold resultFromResponse. by destruct (re_Operations r), (re_Message r), (re_Completion r).
  - unfold appended_items. rewrite bind_cons, !bind_app. fold (appended_items (emitResponseArtifacts r)). rewrite artifacts_items by done.
    cbn [mbind list_bind app]. rewrite !app_nil_r.
    assert (H : forall l : list RuntimeStream, map (ModelStreamed (as_Name (la_Spec a))
        (provider_name m (llm_request a ctx (mkLLMInput (li_Goal input) (li_Objective input) (li_Observations input) (dyn ++ li_Context input) (li_State input)) override))
        (modelName (llm_request a ctx (mkLLMInput (li_Goal input) (li_Objective input) (li_Observations input) (dyn ++ li_Context input) (li_State input)) override))) l
      ≫= (fun e => match e with ConversationEmitted (ItemsAppended _ _ items) => items | _ => [] end) = []) by (intros l; induction l; done).
    by rewrite H.
Qed.

(** C21: When a model answers with a message whose tool calls are named, a session without open calls accepts
    the operations the agent decides on, against the items it hands over with them, exactly when no
    two calls of the message have the same id. *)
Theorem step_accepted provider a m ctx input override cfg msg tools sentItems upload download r deltas events step local :
  la_Model a = Some m -> sc_Sink ctx = true ->
  responseFromMessage cfg msg tools sentItems upload download = (r, None) ->
  (forall req, mo_Call m req = (deltas req, (r, None))) ->
  llm_step (Some a) ctx input override = (events, step) -> gs_Status step = AgentOK ->
  continuity_loop provider 0 (local ++ sentItems) ∅ = Ok ∅ -> all_named (mr_Content msg) ->
  validateOperationRequests (local ++ appended_items events) (de_Operations (gs_Decision step)) = None <-> NoDup (tool_ids (mr_Content msg)).
Proof.
  intros Hm Hsink Hresp Hcall Hstep Hok Hloop Hn. destruct (response_parts _ _ _ _ _ _ _ Hresp) as (Hreqs & out & Hitems & Hout).
  destruct (step_parts a m ctx input override r deltas events step Hm Hsink Hcall Hstep Hok) as [-> ->]; [rewrite Hitems; by intros []%app_eq_nil|].
  destruct (output_calls out _ Hout Hn) as [Hrep Hids]. rewrite Hitems, app_assoc, <- Hids.
  apply (output_accepted provider _ _ _ Hloop); [apply Hout|done|by rewrite Hids|]. rewrite Hids. by apply (collect_ids tools _ 0).
Qed.
End Accepted.

(** * Model adapters on concrete inputs

    A message with a text and a tool call, streamed in interleaved pieces and whole; the transcript of its
    exchange replayed; the step of an agent that receives it. JSON is a table of the frames and texts used. *)

From stdpp Require Import pretty.
From S2P Require Import Compaction StopCondition ModelReplay ReplayTurns.

Module ModelDemo.
#[export] Instance wire_fmt : GoFmt := { Quote s := s }.
#[export] Instance wire_any : JsonDecode :=
  { decode_any raw := if decide (raw = "broken"%string) then Err "unexpected end"%string else Ok (VString raw) }.
#[export] Instance wire_sensitivity : SensitivityModule := { NormalizeSensitivity s := s }.
#[export] Instance wire_texts : ModelTexts := { model_error_text _ := "model error"%string }.

(** ** The message *)

Definition usage : usageWire := mkUsageWire 12 0 0 7 0.
Definition text (s : string) : contentBlock := zero_block <| bk_Type := "text"%string |> <| bk_Text := s |>.
Definition tool_use (id name input : string) : contentBlock :=
  zero_block <| bk_Type := "tool_use"%string |> <| bk_ID := id |> <| bk_Name := name |> <| bk_Input := input |>.
Definition msg : messageResponse :=
  mkMessageResponse "msg_1" "claude" [text "Hello"; tool_use "call_1" "shell" "[ls]"; tool_use "call_2" "shell" "[pwd]"] usage.
Definition text_piece (s : string) : deltaWire := mkDelta "text_delta" s emp emp emp.
Definition input_piece (s : string) : deltaWire := mkDelta "input_json_delta" emp s emp emp.

(** The frames: their data name the event. *)
Definition script : list (string * WireEvent) := [
  ("start", MessageStart (mkMessageResponse "msg_1" "claude" [] (mkUsageWire 12 0 0 1 0)));
  ("open-0", BlockStart 0 (text emp)); ("open-1", BlockStart 1 (tool_use "call_1" "shell" "{}"));
  ("piece-0a", BlockDelta 0 (text_piece "Hel")); ("piece-1a", BlockDelta 1 (input_piece "[l")); ("open-2", BlockStart 2 (tool_use "call_2" "shell" "[pw"));
  ("piece-0b", BlockDelta 0 (text_piece "lo")); ("piece-2a", BlockDelta 2 (input_piece "d]")); ("close-0", BlockStop 0);
  ("piece-1b", BlockDelta 1 (input_piece "s]")); ("close-1", BlockStop 1); ("close-2", BlockStop 2);
  ("usage", MessageDelta (Some (mkUsageWire 0 0 0 7 0))); ("stop", QuietEvent) ]%string.
Definition find_event (data : string) : option WireEvent :=
  snd <$> List.find (fun e => bool_decide (e.1 = data)) script.
Definition event_type (ev : WireEvent) : string :=
  match ev with
  | MessageStart _ => "message_start" | BlockStart _ _ => "content_block_start" | BlockDelta _ _ => "content_block_delta"
  | BlockStop _ => "content_block_stop" | MessageDelta _ => "message_delta" | QuietEvent => "message_stop"
  end.
Definition event_of {A} (f : WireEvent -> option A) (data : string) : Result string A :=
  match find_event data ≫= f with Some a => Ok a | None => Err "invalid character"%string end.
Definition frame_of (e : string * WireEvent) : sseFrame := mkFrame (event_type e.2) e.1.

(** A message is kept as the list of the ids of its calls, or of the results it gives, behind its role. *)
#[export] Instance wire_json : WireJson := {
  decode_type := event_of (fun ev => Some (event_type ev));
  decode_message_start := event_of (fun ev => match ev with MessageStart m => Some m | _ => None end);
  decode_block_start := event_of (fun ev => match ev with BlockStart i b => Some (i, b) | _ => None end);
  decode_block_delta := event_of (fun ev => match ev with BlockDelta i d => Some (i, d) | _ => None end);
  decode_block_stop := event_of (fun ev => match ev with BlockStop i => Some i | _ => None end);
  decode_message_delta := event_of (fun ev => match ev with MessageDelta u => Some u | _ => None end);
  decode_error _ := Err "invalid character"%string;
  encode_message m := None
}.
#[export] Instance replay_json : ReplayJson := {
  unmarshal_message _ := None; unmarshal_blocks _ := None; marshal_blocks _ := None; marshal_any _ := None;
  json_valid _ := false; Sprint _ := emp
}.

(** ** Streaming *)

Lemma script_streamed : streamed msg (snd <$> script).
Proof.
  split; [reflexivity..| | |reflexivity].
  - intros i b Hb. destruct i as [|[|[|i]]]; cbn in Hb; [injection Hb as <-..|done].
    + apply (text_script 0 (text emp) [text_piece "Hel"; text_piece "lo"]); by repeat constructor.
    + apply (tool_script 1 (tool_use "call_1" "shell" "{}") [input_piece "[l"; input_piece "s]"]); by repeat constructor.
    + apply (tool_script 2 (tool_use "call_2" "shell" "[pw") [input_piece "d]"]); by repeat constructor.
  - intros ev i Hev Hi. cbn in Hev. repeat (apply elem_of_cons in Hev as [->|Hev]; [by simplify_eq/=|]). by apply elem_of_nil in Hev.
Defined.
Lemma frames_sendable : Forall sendable (frame_of <$> script).
Proof.
  repeat (apply Forall_cons; split; [split; [by left|done|by repeat constructor]|]). constructor.
Defined.

Definition shell_target : Target := mkToolTarget TargetOperation (mkOpRef "shell") emp emp emp emp emp VNil.
Definition shell : CoreTool := mkCoreTool "shell" "runs a command" shell_target emp (mkOpType emp (mkSchema emp emp)) (mkOpType emp (mkSchema emp emp)) None ∅.
Definition model_tools : list ModelTool := match ToolsFromCore [shell] with Ok tools => tools | Err _ => [] end.
(** Three dollars for a million tokens of input. *)
Definition prices : list PricingSpec :=
  [mkPricing "llm.input_tokens" UnitToken DirectionInput "USD" (of_int64 3) (of_int64 1000000)].
Definition cfg : ModelConfig := mkModelConfig "anthropic" "messages" prices.
Definition quiet : Redactor := mkRedactor false false false.

Lemma sse_roundtrip_witness :
  Forall sendable (frame_of <$> script) /\
  decode_frames 15 (newSSEDecoder (mkBody (encode_frames (frame_of <$> script)) None)) = Some (frame_of <$> script, EOF).
Proof. split; [exact frames_sendable|]. exact (sse_roundtrip (frame_of <$> script) frames_sendable). Defined.

Lemma streaming_exact_witness : exists events answer,
  StreamBody cfg quiet (mkBody (encode_frames (frame_of <$> script)) None) model_tools [] 10 20 = Some (events, StreamAnswer answer) /\
  answer = responseFromMessage cfg msg model_tools [] 10 20 /\ length (re_Operations answer.1) = 2.
Proof.
  destruct (streaming_exact cfg quiet msg (snd <$> script) (frame_of <$> script) model_tools [] 10 20 script_streamed frames_sendable) as (events & answer & H & Ha).
  { by repeat constructor. }
  exists events, answer. destruct (responseFromMessage cfg msg model_tools [] 10 20) as [r [err|]] eqn:E.
  - vm_compute in E. discriminate.
  - subst answer. split; [done|]. split; [done|]. cbn [fst]. assert (r = (responseFromMessage cfg msg model_tools [] 10 20).1) as -> by (by rewrite E). reflexivity.
Defined.

Lemma requests_projected_witness : exists reqs,
  (apply_events (NewToolCallAssembler model_tools) [done_event "shell" "call_1" 0 "[ls]"]).2 = Ok reqs /\ length reqs = 1 /\
  Forall (fun req => operationProjected (session_tool <$> [shell]) (oq_Operation req) = true) reqs.
Proof.
  eexists. split; [reflexivity|]. split; [reflexivity|].
  apply (requests_projected [shell] model_tools [done_event "shell" "call_1" 0 "[ls]"]); reflexivity.
Defined.

(** ** Replay *)

Definition me : ProviderIdentity := mkProvider "anthropic" "messages" "anthropic.messages" "claude".
Definition question : Item := mkItem me ItemInput "user" emp emp emp emp [] (VString "list") emp ∅.
Definition asks (ids : list string) : Item :=
  mkItem me ItemOutput "assistant" emp emp emp emp (map (fun id => mkToolCallRef id "shell" "tool_use" (VBytes "[ls]")) ids) (VString "Hello") emp ∅.
Definition result_item (id : string) : Item := mkItem me ItemToolResult "tool" emp emp id emp [] (VString "ok") emp ∅.
Definition answered_items : list Item := [question; asks ["call_1"; "call_2"]%string; result_item "call_2"; result_item "call_1"].

Ltac one_of := repeat match goal with
  | H : _ ∈ [] |- _ => by apply elem_of_nil in H
  | H : _ ∈ _ :: _ |- _ => apply elem_of_cons in H as [->|H]
  end.
Lemma answered_phased : phased answered_items.
Proof.
  exists [[question]; [asks ["call_1"; "call_2"]%string] ++ [result_item "call_2"; result_item "call_1"]]. split; [|done].
  constructor; [|constructor; [|constructor]].
  - left. exists question. by repeat split.
  - right. eexists _, _. split; [done|]. split.
    + done.
    + intros item H. one_of. by split.
    + split; [by apply (bool_decide_unpack _); vm_compute|]. by apply (bool_decide_unpack _); vm_compute.
    + intros item H. one_of; by split.
    + by apply (bool_decide_unpack _); vm_compute.
Defined.
Lemma replay_answered_witness : phased answered_items /\ exists r,
  messagesFromTranscript me answered_items = Some (Ok r) /\ answered (turns (rp_messages r)) /\
  (exists parts, Forall2 (fun item part => stands_for item part.1 part.2) answered_items parts /\
    tagged (rp_messages r) = parts ≫= fst /\ rp_system r = parts ≫= snd) /\
  rp_messages r ≫= use_ids = ["call_1"; "call_2"]%string /\ rp_messages r ≫= result_ids = ["call_2"; "call_1"]%string.
Proof.
  split; [exact answered_phased|]. apply (replay_answered me answered_items answered_phased).
  - by apply (bool_decide_unpack _); vm_compute.
  - repeat (apply Forall_cons; split); [right; right|by left|by right; left..|by apply Forall_nil]. split; [done|]. by apply (bool_decide_unpack _); vm_compute.
Defined.

(** An id used again, after it was answered, by one of two messages that ask before either is answered: its
    result is taken for one that was replayed. The session accepts this transcript. *)
Definition reused_items : list Item :=
  [question; asks ["call_1"%string]; result_item "call_1"; asks ["call_1"%string]; asks ["call_2"%string]; result_item "call_2"; result_item "call_1"].
Example reused_id_loses_result :
  continuity_loop me 0 reused_items ∅ = Ok ∅ /\ exists r,
  messagesFromTranscript me reused_items = Some (Ok r) /\ rp_messages r ≫= use_ids = ["call_1"; "call_1"; "call_2"]%string /\
  rp_messages r ≫= result_ids = ["call_1"; "call_2"]%string.
Proof. split; [by vm_compute|]. eexists. split; [by vm_compute|]. by split; vm_compute. Qed.

(** ** A step *)

Definition agent_spec : AgentSpec :=
  mkAgentSpec "coder" (mkObjective emp emp emp) (mkDriver LLMDriverKind ∅ ∅) (mkInference "anthropic/claude" ∅)
    (mkTurnPolicy 4 zero_Continuation) [] [] [] [] [] [].
Definition whole_response : Response := (responseFromMessage cfg msg model_tools [question] 10 20).1.
Definition demo_model : Model := mkModel None (fun _ => ([], (whole_response, None))).
Definition demo_agent : LLMAgent :=
  mkLLMAgent agent_spec (mkLLMDriver emp "claude") (Some demo_model) [shell] [None] (mkStreamPolicy false false false).
Definition demo_context : StepContext := mkStepContext None false [] None "thread" true.
Definition demo_input : LLMInput := mkLLMInput emp (mkObjective emp emp emp) [] [] zero_StateRef.
Definition demo_step := llm_step (Some demo_agent) demo_context demo_input None.

Lemma step_accepted_witness :
  validateOperationRequests ([] ++ appended_items demo_step.1) (de_Operations (gs_Decision demo_step.2)) = None.
Proof.
  apply (step_accepted me demo_agent demo_model demo_context demo_input None cfg msg model_tools [question] 10 20 whole_response (fun _ => [])
    demo_step.1 demo_step.2 []); try reflexivity; by apply (bool_decide_unpack _); vm_compute.
Defined.
End ModelDemo.
