(* ===== verification/Resource.v ===== *)
(** * Resource identities and their resolution (src/core/resource)

    Contributed resources have an origin, a namespace and a name; references name them by a suffix of
    these. An index finds the resources a reference matches, a policy chooses among them, and a resolver
    remembers what it chose. *)

From S2P Require Import Prelude.

(** ** Identities (identity.go) *)

Definition slash : ascii := ascii_of_nat 47.
Definition colon : ascii := ascii_of_nat 58.
Definition is_nonempty (s : string) : bool := negb (bool_decide (s = emp)).
(** The loop over the pieces of a segment. *)
Definition clean_pieces (s : string) : list string := List.filter is_nonempty (TrimSpace <$> Split s slash).
Definition NewNamespace (segments : list string) : list string := segments ≫= clean_pieces.
Definition Namespace_String (n : list string) : string := Join n (String slash emp).
Definition suffixSliceMatch (full suffix : list string) : bool :=
  if length full <? length suffix then false
  else bool_decide (drop (length full - length suffix) full = suffix).
Definition Namespace_SuffixMatch (n : list string) (suffix : list string) : bool := suffixSliceMatch n suffix.
Definition Namespace_Append (n : list string) (segments : list string) : list string := n ++ NewNamespace segments.

(** A [Namespace] is its segments. *)
Record ResourceID := mkResourceID { ri_Kind : string; ri_Origin : string; ri_Namespace : list string; ri_Name : string }.
#[global] Instance ResourceID_eq_dec : EqDecision ResourceID.
Proof. solve_decision. Defined.
Definition zero_ResourceID : ResourceID := mkResourceID emp emp [] emp.
Definition Address (r : ResourceID) : string :=
  let ns := Namespace_String (ri_Namespace r) in
  if decide (ri_Origin r = emp) then ri_Name r
  else if decide (ns = emp) then (ri_Origin r ++ String colon (ri_Name r))%string
  else (ri_Origin r ++ String colon (ns ++ String colon (ri_Name r)))%string.
Definition ID_IsZero (r : ResourceID) : bool := bool_decide (ri_Origin r = emp) && bool_decide (ri_Name r = emp).

(** [splitRef]: the last part is a name, the others may have slashes. *)
Definition split_part (is_last : bool) (part : string) : list string :=
  let part := TrimSpace part in
  if decide (part = emp) then [] else if is_last then [part] else clean_pieces part.
Fixpoint split_parts (raw : list string) : list string :=
  match raw with
  | [] => []
  | [part] => split_part true part
  | part :: rest => split_part false part ++ split_parts rest
  end.
Definition splitRef (ref : string) : list string := split_parts (Split (TrimSpace ref) colon).

Definition MatchesRef (r : ResourceID) (ref : string) : bool :=
  let parts := splitRef ref in
  match last parts with
  | None => false
  | Some name =>
      if decide (name <> ri_Name r) then false else
      match removelast parts with
      | [] => true
      | (first :: nsSuffix) as qualifier =>
          let full := (if decide (ri_Origin r = emp) then [] else [ri_Origin r]) ++ ri_Namespace r in
          if suffixSliceMatch full qualifier then true
          else if decide (first = ri_Origin r) then
            match nsSuffix with [] => true | _ => Namespace_SuffixMatch (ri_Namespace r) nsSuffix end
          else false
      end
  end.

(** ** The index (index.go) *)

Abbreviation ResourceIndex := (gmap string (list ResourceID)).
Definition index_Add (idx : ResourceIndex) (id : ResourceID) : ResourceIndex :=
  if decide (ri_Name id = emp) then idx else
  let existing := default [] (idx !! ri_Name id) in
  if decide (id ∈ existing) then idx else <[ri_Name id := existing ++ [id]]> idx.
Definition index_Lookup (idx : ResourceIndex) (kind name : string) : list ResourceID :=
  List.filter (fun candidate => bool_decide (kind = emp) || bool_decide (ri_Kind candidate = kind)) (default [] (idx !! name)).
Definition LookupRef (idx : ResourceIndex) (kind ref : string) : list ResourceID :=
  match last (splitRef ref) with
  | None => []
  | Some name => List.filter (fun candidate => MatchesRef candidate ref) (index_Lookup idx kind name)
  end.
(** [All], in some order of the names. *)
Definition index_All (idx : ResourceIndex) : list ResourceID := concat (map snd (map_to_list idx)).

(** ** Policies (resolver.go) *)

Inductive ResolveError := RefEmpty (kind : string) | NoMatch (kind ref : string) | Ambiguous (kind ref : string) (candidates : list string).
Abbreviation ResolverPolicy := (string -> string -> list ResourceID -> Result ResolveError ResourceID).
Definition ambiguityError (kind ref : string) (candidates : list ResourceID) : ResolveError := Ambiguous kind ref (Address <$> candidates).
Definition DefaultPrecedenceOrder : list string := ["explicit"; "local"; "user"; "embedded"]%string.
(** The rank of each origin; a repeated origin has its last place. *)
Definition origin_ranks (order : list string) : gmap string nat :=
  fold_left (fun rank p => <[p.2 := p.1]> rank) (imap (fun i origin => (i, origin)) order) ∅.
Definition rank_of (order : list string) (candidate : ResourceID) : nat :=
  default (length order) (origin_ranks order !! ri_Origin candidate).
Definition note_candidate (order : list string) (acc : option ResourceID * nat * bool) (candidate : ResourceID) : option ResourceID * nat * bool :=
  let '(best, bestRank, tied) := acc in
  let candidateRank := rank_of order candidate in
  if candidateRank <? bestRank then (Some candidate, candidateRank, false)
  else if candidateRank =? bestRank then (best, bestRank, true) else (best, bestRank, tied).
Definition PrecedencePolicy (order : list string) : ResolverPolicy := fun kind ref candidates =>
  let order := match order with [] => DefaultPrecedenceOrder | _ => order end in
  let '(best, _, tied) := fold_left (note_candidate order) candidates (None, length order + 1, false) in
  match best with
  | Some winner => if tied then Err (ambiguityError kind ref candidates) else Ok winner
  | None => Err (ambiguityError kind ref candidates)
  end.
Definition ErrorPolicy : ResolverPolicy := fun kind ref candidates => Err (ambiguityError kind ref candidates).

(** ** The resolver *)

Record Resolver := mkResolver {
  rv_index : ResourceIndex; rv_policy : ResolverPolicy; rv_aliases : gmap string string; rv_resolved : gmap string string }.
#[global] Instance rebuild_Resolver : Rebuild Resolver := fun r =>
  mkResolver r.(rv_index) r.(rv_policy) r.(rv_aliases) r.(rv_resolved).
Definition NewResolver (index : ResourceIndex) (policy : option ResolverPolicy) (aliases : gmap string string) : Resolver :=
  mkResolver index (default (PrecedencePolicy []) policy) aliases ∅.
Definition SetAlias (r : Resolver) (name target : string) : Resolver := r <| rv_aliases := <[name := target]> (rv_aliases r) |>.

(** What the section under the read lock finds: an empty reference, a resolution it remembers, or the
    reference to look up. *)
Inductive Found := Refused (e : ResolveError) | Remembered (ref : string) (id : ResourceID) | Wanted (ref : string).
Definition resolve_cacheKey (kind ref : string) : string := (kind ++ String colon ref)%string.
Definition resolve_read (r : Resolver) (kind ref : string) : Found :=
  let ref := TrimSpace ref in
  if decide (ref = emp) then Refused (RefEmpty kind) else
  let ref := default ref (rv_aliases r !! ref) in
  match rv_resolved r !! resolve_cacheKey kind ref with
  | Some cached => match LookupRef (rv_index r) kind cached with [id] => Remembered ref id | _ => Wanted ref end
  | None => Wanted ref
  end.
(** The lookup outside the lock, and [cacheResolution] of what it found. *)
Definition resolve_lookup (r : Resolver) (kind ref : string) : Result ResolveError ResourceID :=
  match LookupRef (rv_index r) kind ref with
  | [] => Err (NoMatch kind ref)
  | [id] => Ok id
  | candidates => rv_policy r kind ref candidates
  end.
Definition cacheResolution (r : Resolver) (key address : string) : Resolver := r <| rv_resolved := <[key := address]> (rv_resolved r) |>.
Definition resolve_finish (r : Resolver) (kind ref : string) : Resolver * Result ResolveError ResourceID :=
  match resolve_lookup r kind ref with
  | Ok id => (cacheResolution r (resolve_cacheKey kind ref) (Address id), Ok id)
  | Err e => (r, Err e)
  end.
Definition Resolve (r : Resolver) (kind ref : string) : Resolver * Result ResolveError ResourceID :=
  match resolve_read r kind ref with
  | Refused e => (r, Err e)
  | Remembered _ id => (r, Ok id)
  | Wanted ref => resolve_finish r kind ref
  end.
Definition ResolveInScope (r : Resolver) (kind ref : string) (scope : ResourceID) : Resolver * Result ResolveError ResourceID :=
  if (1 <? length (splitRef ref)) || ID_IsZero scope then Resolve r kind ref else
  match List.filter (fun candidate => bool_decide (ri_Origin candidate = ri_Origin scope) && bool_decide (ri_Namespace candidate = ri_Namespace scope))
          (index_Lookup (rv_index r) kind (TrimSpace ref)) with
  | [id] => (r, Ok id)
  | _ => Resolve r kind ref
  end.

(** ** Derived identities (identity.go)

    [filepath.Clean], [filepath.Dir] and [filepath.Base] on slash-separated paths. *)

(** The elements of a cleaned path, last first. *)
Fixpoint clean_elements (rooted : bool) (pieces out : list string) : list string :=
  match pieces with
  | [] => out
  | piece :: rest =>
      if decide (piece = emp \/ piece = "."%string) then clean_elements rooted rest out
      else if decide (piece = ".."%string) then
        match out with
        | top :: below =>
            if decide (top = ".."%string) then clean_elements rooted rest (if rooted then out else piece :: out)
            else clean_elements rooted rest below
        | [] => clean_elements rooted rest (if rooted then [] else [piece])
        end
      else clean_elements rooted rest (piece :: out)
  end.
Definition path_Clean (path : string) : string :=
  let rooted := HasPrefix path (String slash emp) in
  match rooted, rev (clean_elements rooted (Split path slash) []) with
  | true, elements => String slash (Join elements (String slash emp))
  | false, [] => "."
  | false, elements => Join elements (String slash emp)
  end.
Definition path_Dir (path : string) : string :=
  match removelast (Split path slash) with
  | [] => path_Clean emp
  | pieces => path_Clean (Join pieces (String slash emp) ++ String slash emp)
  end.
Definition path_Base (path : string) : string :=
  if decide (path = emp) then "."%string else default (String slash emp) (last (List.filter is_nonempty (Split path slash))).

Inductive ResourceScope := ScopeProject | ScopeUser | ScopeEmbedded | ScopeRemote | ScopeExplicit | OtherScope (scope : string).
Record ResourceSource := mkSource { so_ID : string; so_Ecosystem : string; so_Scope : ResourceScope; so_Location : string; so_Ref : string }.
Definition DeriveOrigin (source : ResourceSource) : string :=
  let ecosystem other := if decide (so_Ecosystem source = emp) then other else so_Ecosystem source in
  match so_Scope source with
  | ScopeProject => "local"
  | ScopeUser => "user"
  | ScopeEmbedded => ecosystem "embedded"%string
  | ScopeRemote => "remote"
  | ScopeExplicit => "explicit"
  | OtherScope _ => ecosystem "unknown"%string
  end.
Definition namespace_fallback (source : ResourceSource) : list string :=
  if decide (so_Ref source <> emp) then NewNamespace [so_Ref source]
  else if decide (so_Location source <> emp) then NewNamespace [so_Location source] else NewNamespace [].
Definition DeriveNamespace (source : ResourceSource) : list string :=
  match so_Scope source with
  | ScopeUser => NewNamespace ["global"%string]
  | ScopeProject =>
      let dir := path_Dir (so_Location source) in
      if decide (so_Location source <> emp /\ dir <> "."%string /\ dir <> String slash emp) then NewNamespace [path_Base dir]
      else namespace_fallback source
  | ScopeEmbedded =>
      if decide (so_Location source <> emp) then NewNamespace [TrimPrefix (TrimPrefix (so_Location source) ".") (String slash emp)]
      else namespace_fallback source
  | _ => namespace_fallback source
  end.
Definition DeriveResourceID (source : ResourceSource) (kind name : string) : ResourceID :=
  mkResourceID kind (DeriveOrigin source) (DeriveNamespace source) (TrimSpace name).
Example derived_address : Address (DeriveResourceID (mkSource emp emp ScopeProject "/home/me/shop/./.agents//x/../app.yaml" emp) "agent" " coder ")
  = "local:.agents:coder"%string.
Proof. vm_compute. reflexivity. Qed.
