(* ===== verification/Resolution.v ===== *)
(** * What references resolve to (src/core/resource)

    A reference resolves to the match of the best origin when there is one such match, whatever the order
    in which resources were indexed, and what a resolver remembers never changes an answer. *)

From S2P Require Import Prelude Instances Resource.

(** ** The index *)

Definition index_of (ids : list ResourceID) : ResourceIndex := fold_left index_Add ids ∅.
Definition indexed (idx : ResourceIndex) (name : string) : list ResourceID := default [] (idx !! name).

Lemma indexed_add idx id name :
  indexed (index_Add idx id) name =
  if decide (ri_Name id <> emp /\ name = ri_Name id /\ id ∉ indexed idx name) then indexed idx name ++ [id] else indexed idx name.
Proof.
  unfold index_Add, indexed. destruct (decide (ri_Name id = emp)); [by rewrite decide_False by tauto|].
  destruct (decide (name = ri_Name id)) as [->|Hn].
  - destruct (decide (id ∈ default [] (idx !! ri_Name id))); [by rewrite decide_False by tauto|].
    rewrite lookup_insert_eq. by rewrite decide_True by done.
  - rewrite (decide_False (P := _ /\ _)) by tauto. case_decide; [done|]. by rewrite lookup_insert_ne by done.
Qed.
Lemma index_of_snoc ids id : index_of (ids ++ [id]) = index_Add (index_of ids) id.
Proof. apply fold_left_app. Qed.
Lemma indexed_nodup ids name : NoDup (indexed (index_of ids) name).
Proof.
  induction ids as [|id ids IH] using rev_ind; [constructor|]. rewrite index_of_snoc, indexed_add. case_decide as H; [|done].
  apply NoDup_app. split; [done|]. split; [|apply NoDup_singleton]. intros c Hc ->%list_elem_of_singleton. tauto.
Qed.
Lemma elem_of_indexed ids name c : c ∈ indexed (index_of ids) name <-> c ∈ ids /\ ri_Name c = name /\ name <> emp.
Proof.
  induction ids as [|id ids IH] using rev_ind; [by split; [intros ?%elem_of_nil|intros [?%elem_of_nil _]]|].
  rewrite index_of_snoc, indexed_add, elem_of_app, list_elem_of_singleton. case_decide as H.
  - rewrite elem_of_app, list_elem_of_singleton, IH. destruct H as (H1 & -> & H2). naive_solver.
  - rewrite IH. split; [naive_solver|]. intros [[?|E] [Hn He]]; [done|]. subst id. subst name.
    destruct (decide (c ∈ indexed (index_of ids) (ri_Name c))) as [Hin|Hin]; [by apply IH in Hin|]. tauto.
Qed.

(** The resources a reference matches. *)
Definition of_kind (kind : string) (c : ResourceID) : Prop := kind = emp \/ ri_Kind c = kind.
Definition matches (ids : list ResourceID) (kind ref : string) (c : ResourceID) : Prop :=
  c ∈ ids /\ ri_Name c <> emp /\ of_kind kind c /\ MatchesRef c ref = true.
Lemma list_elem_of_List_filter {A} (f : A -> bool) l x : x ∈ List.filter f l <-> x ∈ l /\ f x = true.
Proof. rewrite !list_elem_of_In. apply filter_In. Qed.
Lemma NoDup_List_filter {A} (f : A -> bool) (l : list A) : NoDup l -> NoDup (List.filter f l).
Proof.
  induction 1 as [|x l Hx _ IH]; cbn; [constructor|]. destruct (f x); [|done]. constructor; [|done]. intros [H _]%list_elem_of_List_filter. done.
Qed.
Lemma elem_of_LookupRef ids kind ref c : c ∈ LookupRef (index_of ids) kind ref <-> matches ids kind ref c.
Proof.
  unfold LookupRef, matches. destruct (last (splitRef ref)) as [name|] eqn:E.
  - rewrite list_elem_of_List_filter. unfold index_Lookup. fold (indexed (index_of ids) name). rewrite list_elem_of_List_filter, elem_of_indexed, orb_true_iff, !bool_decide_eq_true.
    unfold of_kind. split; [naive_solver|]. intros (Hin & Hne & Hk & Hm). split; [|done]. split; [|done]. split; [done|].
    unfold MatchesRef in Hm. rewrite E in Hm. case_decide as H; [done|]. by subst.
  - split; [intros H; by apply elem_of_nil in H|]. intros (_ & _ & _ & H). unfold MatchesRef in H. by rewrite E in H.
Qed.
Lemma LookupRef_nodup ids kind ref : NoDup (LookupRef (index_of ids) kind ref).
Proof. unfold LookupRef, index_Lookup. destruct (last _); [|constructor]. apply NoDup_List_filter, NoDup_List_filter, indexed_nodup. Qed.

(** ** Precedence *)

Lemma origin_rank_bound order origin i : origin_ranks order !! origin = Some i -> i < length order.
Proof.
  unfold origin_ranks. revert i. induction order as [|x order IH] using rev_ind; intros i; [done|].
  rewrite imap_app, fold_left_app. cbn. rewrite length_app. cbn. destruct (decide (x = origin)) as [->|].
  - rewrite lookup_insert_eq. intros [= <-]. lia.
  - rewrite lookup_insert_ne by done. intros H%IH. lia.
Qed.
Lemma rank_bound order c : rank_of order c <= length order.
Proof. unfold rank_of. destruct (origin_ranks order !! _) eqn:E; cbn; [apply origin_rank_bound in E; lia|done]. Qed.

(** What the loop knows after some candidates. *)
Definition ranked (order : list string) (seen : list ResourceID) (acc : option ResourceID * nat * bool) : Prop :=
  match acc with
  | (None, rank, tied) => seen = [] /\ rank = length order + 1 /\ tied = false
  | (Some best, rank, tied) =>
      best ∈ seen /\ rank = rank_of order best /\ (forall d, d ∈ seen -> rank <= rank_of order d) /\
      (tied = false <-> forall d, d ∈ seen -> d <> best -> rank < rank_of order d)
  end.
Lemma note_candidate_ranked order seen acc c : c ∉ seen -> ranked order seen acc -> ranked order (seen ++ [c]) (note_candidate order acc c).
Proof.
  destruct acc as [[[best|] rank] tied]; unfold note_candidate; intros Hc; cbn [ranked].
  - intros (Hb & -> & Hmin & Htied). destruct (Nat.ltb_spec (rank_of order c) (rank_of order best)) as [Hlt|Hge].
    + cbn [ranked]. split_and!; [apply elem_of_app; right; by left|done| |].
      * intros d [Hd| ->%list_elem_of_singleton]%elem_of_app; [|done]. specialize (Hmin d Hd). lia.
      * split; [|done]. intros _ d [Hd| ->%list_elem_of_singleton]%elem_of_app Hne; [|done]. specialize (Hmin d Hd). lia.
    + destruct (Nat.eqb_spec (rank_of order c) (rank_of order best)) as [He|He]; cbn [ranked]; (split_and!; [apply elem_of_app; by left|done| |]).
      * intros d [Hd| ->%list_elem_of_singleton]%elem_of_app; [by apply Hmin|lia].
      * split; [done|]. intros H. assert (Hne : c <> best) by (by intros ->). specialize (H c). rewrite elem_of_app, list_elem_of_singleton in H.
        specialize (H (or_intror eq_refl) Hne). lia.
      * intros d [Hd| ->%list_elem_of_singleton]%elem_of_app; [by apply Hmin|lia].
      * rewrite Htied. split; [|intros H d Hd; apply H, elem_of_app; by left].
        intros H d [Hd| ->%list_elem_of_singleton]%elem_of_app Hne; [by apply H|lia].
  - intros (-> & -> & ->). pose proof (rank_bound order c). rewrite (proj2 (Nat.ltb_lt _ _)) by lia. cbn [ranked app].
    split_and!; [by left|done|intros d ->%list_elem_of_singleton; done|]. split; [|done]. by intros _ d ->%list_elem_of_singleton.
Qed.
Lemma note_candidates_ranked order candidates :
  NoDup candidates -> ranked order candidates (fold_left (note_candidate order) candidates (None, length order + 1, false)).
Proof.
  induction candidates as [|c candidates IH] using rev_ind; intros Hnd; [done|].
  apply NoDup_app in Hnd as (Hnd & Hdis & _). rewrite fold_left_app. apply note_candidate_ranked; [|by apply IH].
  intros Hc. apply (Hdis c Hc). by left.
Qed.

(** The candidate that comes before all others. *)
Definition winner (order : list string) (candidates : list ResourceID) (c : ResourceID) : Prop :=
  c ∈ candidates /\ forall d, d ∈ candidates -> d <> c -> rank_of order c < rank_of order d.
Definition policy_order (order : list string) : list string := match order with [] => DefaultPrecedenceOrder | _ => order end.
Lemma precedence_winner order kind ref candidates c :
  NoDup candidates -> PrecedencePolicy order kind ref candidates = Ok c <-> winner (policy_order order) candidates c.
Proof.
  intros Hnd. unfold PrecedencePolicy. fold (policy_order order). pose proof (note_candidates_ranked (policy_order order) candidates Hnd) as H.
  destruct (fold_left _ _ _) as [[[best|] rank] tied]; cbn in H.
  - destruct H as (Hb & -> & Hmin & Htied). split.
    + destruct tied; [done|]. intros [= <-]. split; [done|]. by apply Htied.
    + intros [Hc Hw]. assert (c = best) as <-.
      { destruct (decide (best = c)) as [|Hne]; [done|]. specialize (Hw best Hb Hne). specialize (Hmin c Hc). lia. }
      by rewrite (proj2 Htied Hw).
  - destruct H as (-> & _ & _). split; [done|]. intros [Hc _]. by apply elem_of_nil in Hc.
Qed.

(** ** Resolution *)

Definition best_match (order : list string) (ids : list ResourceID) (kind ref : string) (c : ResourceID) : Prop :=
  matches ids kind ref c /\ forall d, matches ids kind ref d -> d <> c -> rank_of order c < rank_of order d.
Lemma lookup_best order ids kind ref aliases resolved c :
  resolve_lookup (mkResolver (index_of ids) (PrecedencePolicy order) aliases resolved) kind ref = Ok c <->
  best_match (policy_order order) ids kind ref c.
Proof.
  assert (Hw : best_match (policy_order order) ids kind ref c <-> winner (policy_order order) (LookupRef (index_of ids) kind ref) c).
  { unfold best_match, winner. rewrite elem_of_LookupRef. split; intros [H1 H2]; (split; [done|]); intros d; specialize (H2 d);
      rewrite elem_of_LookupRef in *; done. }
  rewrite Hw. unfold resolve_lookup. cbn. pose proof (LookupRef_nodup ids kind ref) as Hnd.
  destruct (LookupRef (index_of ids) kind ref) as [|x [|y l]].
  - split; [done|]. intros [H _]. by apply elem_of_nil in H.
  - split; [intros [= <-]|].
    + split; [by left|]. by intros d ->%list_elem_of_singleton.
    + intros [->%list_elem_of_singleton _]. done.
  - by apply precedence_winner.
Qed.

(** ** Addresses *)

Lemma ascii_app (a b : string) : String.list_ascii_of_string (a ++ b) = String.list_ascii_of_string a ++ String.list_ascii_of_string b.
Proof. induction a as [|x a IH]; [done|]. change (x :: String.list_ascii_of_string (a ++ b) = x :: (String.list_ascii_of_string a ++ String.list_ascii_of_string b)). by rewrite IH. Qed.

(** No encoding of a space contains a colon or a slash. *)
Definition separator (c : ascii) : Prop :=
  (forall x, is_space2 x c = false /\ is_space2 c x = false) /\
  (forall x y, is_space3 x y c = false /\ is_space3 x c y = false /\ is_space3 c x y = false).
Lemma colon_separator : separator colon.
Proof. split; intros; unfold is_space2, is_space3, byte_is; cbn; repeat split; by rewrite ?andb_false_r, ?orb_false_r. Qed.
Lemma slash_separator : separator slash.
Proof. split; intros; unfold is_space2, is_space3, byte_is; cbn; repeat split; by rewrite ?andb_false_r, ?orb_false_r. Qed.
Lemma trim_left_fixed c l : trim_left (c :: l) = c :: l ->
  is_space1 c = false /\ match l with [] => True | c2 :: l2 => is_space2 c c2 = false /\ match l2 with [] => True | c3 :: _ => is_space3 c c2 c3 = false end end.
Proof.
  cbn [trim_left]. intros H. destruct (is_space1 c).
  { pose proof (trim_left_length l) as Hl. rewrite H in Hl. cbn in Hl. lia. } split; [done|].
  destruct l as [|c2 l2]; [done|]. destruct (is_space2 c c2).
  { pose proof (trim_left_length l2) as Hl. rewrite H in Hl. cbn in Hl. lia. } split; [done|].
  destruct l2 as [|c3 l3]; [done|]. destruct (is_space3 c c2 c3); [|done].
  pose proof (trim_left_length l3) as Hl. rewrite H in Hl. cbn in Hl. lia.
Qed.
Lemma trim_left_sep s l r : separator s -> l <> [] -> trim_left l = l -> trim_left (l ++ s :: r) = l ++ s :: r.
Proof.
  intros [Hs2 Hs3]. destruct l as [|c l]; [done|]. intros _ (H1 & H2)%trim_left_fixed.
  destruct l as [|c2 [|c3 l]]; cbn [trim_left app]; rewrite H1.
  - rewrite (proj1 (Hs2 c)). destruct r as [|x r]; [done|]. by rewrite (proj1 (proj2 (Hs3 c x))).
  - destruct H2 as [-> _]. by rewrite (proj1 (Hs3 c c2)).
  - by destruct H2 as [-> ->].
Qed.
Lemma trim_left_rev_length l : length (trim_left_rev l) <= length l.
Proof. destruct (trim_left_rev_spec l) as [_ [k ->]]. rewrite length_drop. lia. Qed.
Lemma trim_left_rev_fixed c l : trim_left_rev (c :: l) = c :: l ->
  is_space1 c = false /\ match l with [] => True | c2 :: l2 => is_space2 c2 c = false /\ match l2 with [] => True | c3 :: _ => is_space3 c3 c2 c = false end end.
Proof.
  cbn [trim_left_rev]. intros H. destruct (is_space1 c).
  { pose proof (trim_left_rev_length l) as Hl. rewrite H in Hl. cbn in Hl. lia. } split; [done|].
  destruct l as [|c2 l2]; [done|]. destruct (is_space2 c2 c).
  { pose proof (trim_left_rev_length l2) as Hl. rewrite H in Hl. cbn in Hl. lia. } split; [done|].
  destruct l2 as [|c3 l3]; [done|]. destruct (is_space3 c3 c2 c); [|done].
  pose proof (trim_left_rev_length l3) as Hl. rewrite H in Hl. cbn in Hl. lia.
Qed.
Lemma trim_left_rev_sep s l r : separator s -> l <> [] -> trim_left_rev l = l -> trim_left_rev (l ++ s :: r) = l ++ s :: r.
Proof.
  intros [Hs2 Hs3]. destruct l as [|c l]; [done|]. intros _ (H1 & H2)%trim_left_rev_fixed.
  destruct l as [|c2 [|c3 l]]; cbn [trim_left_rev app]; rewrite H1.
  - rewrite (proj2 (Hs2 c)). destruct r as [|x r]; [done|]. by rewrite (proj1 (proj2 (Hs3 x c))).
  - destruct H2 as [-> _]. by rewrite (proj2 (proj2 (Hs3 c2 c))).
  - by destruct H2 as [-> ->].
Qed.

(** A string without spaces around it. *)
Definition trimmed (s : string) : Prop := s <> emp /\ TrimSpace s = s.
Lemma trimmed_ascii s : trimmed s ->
  String.list_ascii_of_string s <> [] /\ trim_left (String.list_ascii_of_string s) = String.list_ascii_of_string s /\
  trim_left_rev (rev (String.list_ascii_of_string s)) = rev (String.list_ascii_of_string s).
Proof.
  intros [Hne H]. set (l := String.list_ascii_of_string s). assert (Hl : rev (trim_left_rev (rev (trim_left l))) = l).
  { unfold TrimSpace in H. fold l in H. apply (f_equal String.list_ascii_of_string) in H. by rewrite String.list_ascii_of_string_of_list_ascii in H. }
  split; [unfold l; by destruct s|]. assert (E : trim_left l = l).
  { destruct (trim_left_cases l) as [|(l' & E & Hlt)]; [done|]. exfalso. apply (f_equal length) in Hl.
    rewrite length_rev in Hl. pose proof (trim_left_rev_length (rev (trim_left l))) as H1. rewrite length_rev in H1.
    pose proof (trim_left_length l') as H2. rewrite E in H1. rewrite E in Hl. lia. }
  split; [done|]. rewrite E in Hl. apply (f_equal (@rev _)) in Hl. by rewrite rev_involutive in Hl.
Qed.
Lemma trim_parts c s a b r p :
  separator c -> trimmed a -> trimmed b -> s = (a ++ String c r)%string -> s = (p ++ String c b)%string -> TrimSpace s = s.
Proof.
  intros Hc (Ha1 & Ha2 & _)%trimmed_ascii (Hb1 & _ & Hb2)%trimmed_ascii -> Hs. unfold TrimSpace.
  assert (E : trim_left (String.list_ascii_of_string (a ++ String c r)) = String.list_ascii_of_string (a ++ String c r)).
  { rewrite ascii_app. by apply trim_left_sep. }
  rewrite E, Hs, ascii_app. cbn [String.list_ascii_of_string]. set (lb := String.list_ascii_of_string b) in *.
  rewrite rev_app_distr. cbn [rev]. rewrite <- app_assoc. cbn [app]. rewrite trim_left_rev_sep; [|done|by intros H%(f_equal (@rev _)); rewrite rev_involutive in H|done].
  rewrite rev_app_distr. cbn [rev]. rewrite !rev_involutive, <- app_assoc. cbn [app].
  assert (H : String.list_ascii_of_string p ++ c :: lb = String.list_ascii_of_string (p ++ String c b)) by (by rewrite ascii_app).
  rewrite H. apply String.string_of_list_ascii_of_string.
Qed.

(** Splitting what was joined. *)
Definition free_of (c : ascii) (s : string) : Prop := Split s c = [s].
Lemma split_join c p rest : free_of c p -> Split (p ++ String c rest) c = p :: Split rest c.
Proof.
  unfold free_of. induction p as [|x p IH]; intros H.
  - change (Split (String c rest) c = emp :: Split rest c). cbn. by rewrite Ascii.eqb_refl.
  - change (Split (String x (p ++ String c rest)) c = String x p :: Split rest c). cbn [Split] in H |- *.
    destruct (Ascii.eqb x c); [by destruct p|]. destruct (Split p c) as [|q qs] eqn:E; [by destruct p as [|y p]; [|cbn in E; destruct (Ascii.eqb y c), (Split p c)]|].
    injection H as -> ->. by rewrite IH.
Qed.
Lemma split_Join c parts : parts <> [] -> Forall (free_of c) parts -> Split (Join parts (String c emp)) c = parts.
Proof.
  intros Hne H. induction H as [|p parts Hp H IH]; [done|]. destruct parts as [|q parts]; [exact Hp|].
  change (Join (p :: q :: parts) (String c emp)) with (p ++ String c (Join (q :: parts) (String c emp)))%string.
  rewrite split_join by done. by rewrite IH.
Qed.
Lemma free_of_app c (a b : string) : free_of c a -> free_of c b -> free_of c (a ++ b)%string.
Proof.
  unfold free_of. induction a as [|x a IH]; intros Ha Hb; [exact Hb|]. change (Split (String x (a ++ b)) c = [String x (a ++ b)%string]).
  cbn [Split] in Ha |- *. destruct (Ascii.eqb x c); [by destruct a|]. destruct (Split a c) as [|q qs] eqn:E.
  { destruct a as [|y a]; [done|]. cbn in E. by destruct (Ascii.eqb y c), (Split a c). }
  injection Ha as -> ->. by rewrite IH.
Qed.
Lemma free_of_Join c d parts : c <> d -> Forall (free_of c) parts -> free_of c (Join parts (String d emp)).
Proof.
  intros Hne H. induction H as [|p parts Hp H IH]; [done|]. destruct parts as [|q parts]; [exact Hp|].
  change (Join (p :: q :: parts) (String d emp)) with (p ++ String d emp ++ Join (q :: parts) (String d emp))%string.
  repeat apply free_of_app; try done. unfold free_of. cbn. by destruct (Ascii.eqb_spec d c).
Qed.

(** Identities whose address names them: clean parts without separators. *)
Definition plain (s : string) : Prop := trimmed s /\ free_of colon s /\ free_of slash s.
Record addressable (id : ResourceID) : Prop := {
  ad_origin : plain (ri_Origin id);
  ad_namespace : Forall plain (ri_Namespace id);
  ad_name : trimmed (ri_Name id) /\ free_of colon (ri_Name id)
}.
Lemma clean_pieces_plain s : plain s -> clean_pieces s = [s].
Proof.
  intros ([Hne Ht] & _ & Hs). unfold clean_pieces. rewrite Hs. cbn. rewrite Ht. unfold is_nonempty. by rewrite bool_decide_eq_false_2.
Qed.

Lemma join_ends c parts : 2 <= length parts -> exists a b r p, hd emp parts = a /\ last parts = Some b /\
  Join parts (String c emp) = (a ++ String c r)%string /\ Join parts (String c emp) = (p ++ String c b)%string.
Proof.
  destruct parts as [|a parts]; cbn; [lia|]. intros H. exists a. destruct parts as [|b parts]; [cbn in H; lia|]. clear H.
  revert a b. induction parts as [|x parts IH]; intros a b.
  - exists b, b, a. by repeat split.
  - destruct (IH b x) as (b' & r & p & _ & Hl & _ & Hp). exists b', (Join (b :: x :: parts) (String c emp)), (a ++ String c p)%string.
    split; [done|]. split; [done|]. split; [done|].
    etransitivity; [exact (f_equal (fun z => (a ++ String c z)%string) Hp)|]. exact (eq_sym (append_assoc a (String c p) (String c b'))).
Qed.
Lemma Join_trimmed parts : parts <> [] -> Forall plain parts -> trimmed (Join parts (String slash emp)).
Proof.
  intros Hne H. destruct parts as [|a [|b parts]]; [done| |].
  { by apply Forall_cons in H as [[? _] _]. }
  destruct (join_ends slash (a :: b :: parts)) as (a' & b' & r & p & <- & Hl & H1 & H2); [cbn; lia|].
  rewrite Forall_forall in H. assert (Ha : plain a) by (apply H; by left). assert (Hb : plain b').
  { apply H. apply last_Some in Hl as [l ->]. apply elem_of_app. right. by left. }
  split; [rewrite H1; by destruct a|]. apply (trim_parts slash _ a b' r p); [exact slash_separator|apply Ha|apply Hb|done|done].
Qed.
Lemma split_Address id : addressable id -> splitRef (Address id) = ri_Origin id :: ri_Namespace id ++ [ri_Name id].
Proof.
  intros [Ho Hns [Hn Hc]]. unfold Address, Namespace_String. destruct Ho as ([Ho1 Ho2] & Ho3 & Ho4). rewrite decide_False by done.
  assert (Hlast : split_part true (ri_Name id) = [ri_Name id]) by (unfold split_part; by rewrite (proj2 Hn), decide_False by apply Hn).
  assert (Hfirst : split_part false (ri_Origin id) = [ri_Origin id]).
  { unfold split_part. rewrite Ho2, decide_False by done. by apply clean_pieces_plain. }
  destruct (decide (ri_Namespace id = [])) as [E|E].
  - rewrite E. rewrite decide_True by done. unfold splitRef.
    rewrite (trim_parts colon _ (ri_Origin id) (ri_Name id) (ri_Name id) (ri_Origin id)); [|exact colon_separator|by split|done..]. rewrite split_join by done.
    rewrite Hc. cbn [split_parts]. by rewrite Hfirst, Hlast.
  - destruct (Join_trimmed (ri_Namespace id)) as [Hj1 Hj2]; [done..|]. rewrite decide_False by done. set (ns := Join _ _) in *. unfold splitRef.
    assert (Hfree : free_of colon ns) by (apply free_of_Join; [done|]; eapply Forall_impl; [exact Hns|]; by intros s (_ & ? & _)).
    rewrite (trim_parts colon _ (ri_Origin id) (ri_Name id) (ns ++ String colon (ri_Name id))%string (ri_Origin id ++ String colon ns)%string).
    + rewrite !split_join by done. rewrite Hc. cbn [split_parts]. rewrite Hfirst, Hlast. unfold split_part. rewrite Hj2, decide_False by done.
      assert (Hcp : clean_pieces ns = ri_Namespace id); [|by rewrite Hcp].
      unfold clean_pieces, ns. rewrite split_Join; [|done|eapply Forall_impl; [exact Hns|]; by intros s (_ & _ & ?)].
      clear -Hns. induction Hns as [|s l ([H1 H2] & _) _ IH]; [done|]. cbn. rewrite H2. unfold is_nonempty at 1. by rewrite bool_decide_eq_false_2, IH.
    + exact colon_separator.
    + by split.
    + done.
    + done.
    + exact (eq_sym (append_assoc (ri_Origin id) (String colon ns) (String colon (ri_Name id)))).
Qed.

(** The address of a resource matches it. *)
Lemma address_matches id : addressable id -> MatchesRef id (Address id) = true.
Proof.
  intros H. unfold MatchesRef. rewrite (split_Address id H). change (ri_Origin id :: ri_Namespace id ++ [ri_Name id]) with ((ri_Origin id :: ri_Namespace id) ++ [ri_Name id]).
  rewrite last_snoc, removelast_last, decide_False by (by intros []). destruct H as [([Ho _] & _) _ _]. rewrite decide_False by done.
  unfold suffixSliceMatch. cbn [app length]. rewrite Nat.ltb_irrefl, Nat.sub_diag. by rewrite bool_decide_eq_true_2.
Qed.

(** ** What a resolver remembers *)

(** The answer without a memory. *)
Definition fresh (r : Resolver) (kind ref : string) : Result ResolveError ResourceID := resolve_lookup r kind ref.
(** Every memory is of an answer of the lookup. *)
Definition memory_ok (r : Resolver) : Prop :=
  forall key address, rv_resolved r !! key = Some address ->
    exists kind ref id, free_of colon kind /\ key = resolve_cacheKey kind ref /\ address = Address id /\ fresh r kind ref = Ok id.
Lemma cacheKey_inj kind ref kind' ref' : free_of colon kind -> free_of colon kind' ->
  resolve_cacheKey kind ref = resolve_cacheKey kind' ref' -> kind = kind' /\ ref = ref'.
Proof.
  intros H1 H2 E. assert (Hs : kind :: Split ref colon = kind' :: Split ref' colon).
  { rewrite <- !split_join by done. unfold resolve_cacheKey in E. by rewrite E. }
  injection Hs as <- _. split; [done|]. clear -E. unfold resolve_cacheKey in E. induction kind as [|x kind IH]; [by injection E|].
  apply IH. by injection E.
Qed.

(** The resolver while clients use it: the requests between their two sections are waiting. *)
Record Clients := mkClients { cl_resolver : Resolver; cl_waiting : list (string * string) }.
Definition Answered : Type := string * string * Result ResolveError ResourceID.
(** A section of one client; an answer is for the reference that an alias may have replaced. *)
Inductive client_step : Clients -> option Answered -> Clients -> Prop :=
| step_refused r w kind ref e : free_of colon kind -> resolve_read r kind ref = Refused e ->
    client_step (mkClients r w) None (mkClients r w)
| step_remembered r w kind ref target id : free_of colon kind -> resolve_read r kind ref = Remembered target id ->
    client_step (mkClients r w) (Some (kind, target, Ok id)) (mkClients r w)
| step_wanted r w kind ref target : free_of colon kind -> resolve_read r kind ref = Wanted target ->
    client_step (mkClients r w) None (mkClients r ((kind, target) :: w))
| step_finish r w1 w2 kind ref r' answer : resolve_finish r kind ref = (r', answer) ->
    client_step (mkClients r (w1 ++ (kind, ref) :: w2)) (Some (kind, ref, answer)) (mkClients r' (w1 ++ w2))
| step_alias r w name target : client_step (mkClients r w) None (mkClients (SetAlias r name target) w).
Inductive serves : Clients -> list Answered -> Clients -> Prop :=
| serves_nil c : serves c [] c
| serves_step c1 answer c2 answers c3 : client_step c1 answer c2 -> serves c2 answers c3 ->
    serves c1 (option_list answer ++ answers) c3.

(** The parts of a resolver no client changes. *)
Definition same_resources (r r' : Resolver) : Prop := rv_index r' = rv_index r /\ rv_policy r' = rv_policy r.
Lemma fresh_same r r' kind ref : same_resources r r' -> fresh r' kind ref = fresh r kind ref.
Proof. intros [H1 H2]. unfold fresh, resolve_lookup. by rewrite H1, H2. Qed.
Definition serving_ok (c : Clients) : Prop := memory_ok (cl_resolver c) /\ Forall (fun p => free_of colon p.1) (cl_waiting c).

(** Policies choose among what matched. *)
Definition chooses (policy : ResolverPolicy) : Prop :=
  forall kind ref candidates id, policy kind ref candidates = Ok id -> id ∈ candidates.
Lemma default_chooses order : chooses (PrecedencePolicy order).
Proof.
  intros kind ref candidates id. unfold PrecedencePolicy. set (f := note_candidate _).
  assert (H : forall acc best rank tied, fold_left f candidates acc = (Some best, rank, tied) -> acc.1.1 = Some best \/ best ∈ candidates).
  { induction candidates as [|c cs IH]; intros acc best rank tied; cbn [fold_left]; [intros ->; by left|].
    intros [H|H]%IH; [|right; by right]. destruct acc as [[b k] t]. unfold f, note_candidate in H.
    destruct (Nat.ltb _ _); [injection H as <-; right; by left|]. left. by destruct (Nat.eqb _ _). }
  destruct (fold_left f candidates _) as [[[best|] rank] tied] eqn:E; [|done]. destruct tied; [done|]. intros [= <-].
  by destruct (H _ _ _ _ E).
Qed.
Lemma lookup_found r kind ref id : chooses (rv_policy r) -> resolve_lookup r kind ref = Ok id -> id ∈ LookupRef (rv_index r) kind ref.
Proof.
  intros Hp. unfold resolve_lookup. destruct (LookupRef _ _ _) as [|x [|y l]] eqn:E; [done|intros [= <-]; by left|]. apply Hp.
Qed.

(** What is remembered is what the lookup answers: the address of a winner finds it. *)
Lemma remembered_fresh r kind ref target id :
  chooses (rv_policy r) -> (forall kind ref c, c ∈ LookupRef (rv_index r) kind ref -> addressable c /\ of_kind kind c /\
    c ∈ LookupRef (rv_index r) kind (Address c)) ->
  free_of colon kind -> memory_ok r -> resolve_read r kind ref = Remembered target id -> fresh r kind target = Ok id.
Proof.
  intros Hp Hidx Hkind Hmem. unfold resolve_read. case_decide; [done|]. set (ref' := default _ _).
  destruct (rv_resolved r !! _) as [cached|] eqn:E; [|done]. destruct (LookupRef (rv_index r) kind cached) as [|x [|]] eqn:El; [done| |done].
  intros [= <- <-]. destruct (Hmem _ _ E) as (kind' & ref'' & id & Hk' & Hkey & -> & Hfresh).
  apply cacheKey_inj in Hkey as [<- <-]; [|done..]. pose proof (lookup_found _ _ _ _ Hp Hfresh) as Hin.
  destruct (Hidx _ _ _ Hin) as (_ & _ & Haddr). rewrite El in Haddr. apply list_elem_of_singleton in Haddr as <-. done.
Qed.

Lemma finish_memory r kind ref r' answer :
  free_of colon kind -> memory_ok r -> resolve_finish r kind ref = (r', answer) ->
  memory_ok r' /\ same_resources r r' /\ answer = fresh r kind ref.
Proof.
  intros Hkind Hmem. unfold resolve_finish. destruct (resolve_lookup r kind ref) as [id|e] eqn:E; intros [= <- <-]; (split; [|by split]); [|done].
  intros key address. cbn. destruct (decide (resolve_cacheKey kind ref = key)) as [<-|Hn].
  - rewrite lookup_insert_eq. intros [= <-]. by exists kind, ref, id.
  - rewrite lookup_insert_ne by done. intros (k & f & i & H1 & H2 & H3 & H4)%Hmem. by exists k, f, i.
Qed.

Section Serving.
Context (ids : list ResourceID) (policy : ResolverPolicy) (Hids : Forall addressable ids) (Hpolicy : chooses policy).

Lemma index_addresses kind ref c : c ∈ LookupRef (index_of ids) kind ref ->
  addressable c /\ of_kind kind c /\ c ∈ LookupRef (index_of ids) kind (Address c).
Proof.
  rewrite !elem_of_LookupRef. intros (Hin & Hne & Hk & Hm). rewrite Forall_forall in Hids. specialize (Hids c Hin).
  split; [done|]. split; [done|]. split; [done|]. split; [done|]. split; [done|]. by apply address_matches.
Qed.
Definition serving (c : Clients) : Prop :=
  rv_index (cl_resolver c) = index_of ids /\ rv_policy (cl_resolver c) = policy /\ serving_ok c.

Lemma step_serving c answer c' : client_step c answer c' -> serving c ->
  serving c' /\ Forall (fun a => a.2 = fresh (cl_resolver c) a.1.1 a.1.2) (option_list answer).
Proof.
  intros Hstep (Hi & Hp & Hmem & Hw). destruct Hstep as [r w kind ref e Hk Hr|r w kind ref target id Hk Hr|r w kind ref target Hk Hr|r w1 w2 kind ref r' answer Hf|r w name target]; cbn in *.
  - split; [by split|]. constructor.
  - split; [by split|]. constructor; [|constructor]. cbn. symmetry. apply (remembered_fresh r kind ref); [by rewrite Hp| |done..].
    rewrite Hi. apply index_addresses.
  - split; [|constructor]. split; [done|]. split; [done|]. split; [done|]. by constructor.
  - apply Forall_app in Hw as [Hw1 Hw2]. apply Forall_cons in Hw2 as [Hk Hw2].
    destruct (finish_memory _ _ _ _ _ Hk Hmem Hf) as (Hmem' & [Hi' Hp'] & ->). split; [|by repeat constructor].
    split; [cbn; by rewrite Hi'|]. split; [cbn; by rewrite Hp'|]. split; [done|]. by apply Forall_app.
  - split; [by split|]. constructor.
Qed.
Lemma serves_fresh c answers c' r : serves c answers c' -> serving c -> rv_index r = index_of ids -> rv_policy r = policy ->
  Forall (fun a => a.2 = fresh r a.1.1 a.1.2) answers.
Proof.
  intros H Hc Hi Hp. induction H as [|c1 answer c2 answers c3 Hstep _ IH]; [constructor|].
  destruct (step_serving _ _ _ Hstep Hc) as [Hc2 Ha]. apply Forall_app. split; [|by apply IH].
  eapply Forall_impl; [exact Ha|]. intros a ->. symmetry. apply fresh_same. destruct Hc as (H1 & H2 & _). split; congruence.
Qed.
End Serving.

(** C29: However many clients use a resolver, and however their sections and new aliases interleave, every
    answer is the one of a lookup that remembers nothing, when the resources have addresses and kinds have
    no colon. *)
Theorem resolver_transparent ids policy aliases answers c :
  Forall addressable ids -> chooses policy -> serves (mkClients (NewResolver (index_of ids) (Some policy) aliases) []) answers c ->
  Forall (fun a => a.2 = resolve_lookup (NewResolver (index_of ids) (Some policy) aliases) a.1.1 a.1.2) answers.
Proof.
  intros Hids Hp H. eapply (serves_fresh ids policy); [done|done|exact H| |done|done]. split; [done|]. split; [done|]. split; [|constructor].
  intros key address E. done.
Qed.

(** ** Derived identities *)

Lemma free_of_spec c s : free_of c s <-> c ∉ String.list_ascii_of_string s.
Proof.
  unfold free_of. induction s as [|x s IH]; cbn; [split; [intros _; apply not_elem_of_nil|done]|].
  rewrite not_elem_of_cons, <- IH. destruct (Ascii.eqb_spec x c) as [->|Hn].
  - split; [by destruct s|]. by intros [? _].
  - destruct (Split s c) as [|p ps] eqn:E; [by destruct s as [|y s]; [|cbn in E; destruct (Ascii.eqb y c), (Split s c)]|].
    split; [intros [= -> ->]; by split|]. by intros [_ [= -> ->]].
Qed.
Lemma trim_left_elem x l : x ∈ trim_left l -> x ∈ l.
Proof.
  remember (length l) as n eqn:E. revert l E. induction n as [n IH] using lt_wf_ind. intros l ->.
  destruct l as [|c1 l1]; [done|]. cbn [trim_left]. destruct (is_space1 c1).
  { intros H. right. apply (IH (length l1)); [cbn; lia|done|done]. }
  destruct l1 as [|c2 l2]; [done|]. destruct (is_space2 c1 c2).
  { intros H. do 2 right. apply (IH (length l2)); [cbn; lia|done|done]. }
  destruct l2 as [|c3 l3]; [done|]. destruct (is_space3 c1 c2 c3); [|done].
  intros H. do 3 right. apply (IH (length l3)); [cbn; lia|done|done].
Qed.
Lemma free_of_trim c s : free_of c s -> free_of c (TrimSpace s).
Proof.
  rewrite !free_of_spec. intros H Hin. apply H. unfold TrimSpace in Hin. rewrite String.list_ascii_of_string_of_list_ascii in Hin.
  apply list_elem_of_In, in_rev, list_elem_of_In in Hin. destruct (trim_left_rev_spec (rev (trim_left (String.list_ascii_of_string s)))) as [_ [k Hk]].
  rewrite Hk in Hin. apply subseteq_drop in Hin. apply list_elem_of_In, in_rev, list_elem_of_In in Hin.
  by apply trim_left_elem.
Qed.
Lemma free_of_split c d s : free_of c s -> Forall (free_of c) (Split s d).
Proof.
  rewrite free_of_spec. induction s as [|x s IH]; cbn; [by repeat constructor|].
  intros [Hx Hs]%not_elem_of_cons. specialize (IH Hs). destruct (Ascii.eqb x d); [by constructor|].
  assert (Hcons : forall p, free_of c p -> free_of c (String x p)) by (intros p; rewrite !free_of_spec; cbn; rewrite not_elem_of_cons; tauto).
  destruct IH as [|p ps Hp Hps]; constructor; [by apply (Hcons emp)|constructor|by apply Hcons|done].
Qed.
Lemma split_free s d : Forall (free_of d) (Split s d).
Proof.
  induction s as [|x s IH]; cbn; [by repeat constructor|]. destruct (Ascii.eqb x d) eqn:E; [by constructor|].
  assert (Hcons : forall p, free_of d p -> free_of d (String x p)).
  { intros p. rewrite !free_of_spec. cbn. rewrite not_elem_of_cons. intros H. split; [|done]. intros ->. by rewrite Ascii.eqb_refl in E. }
  destruct IH as [|p ps Hp Hps]; constructor; [by apply (Hcons emp)|constructor|by apply Hcons|done].
Qed.
Lemma clean_pieces_ok s : free_of colon s -> Forall plain (clean_pieces s).
Proof.
  intros H. apply Forall_forall. unfold clean_pieces, is_nonempty. intros q [Hq Hne]%list_elem_of_List_filter. apply list_elem_of_fmap in Hq as (p & -> & Hp).
  pose proof (free_of_split colon slash s H) as H1. pose proof (split_free s slash) as H2. rewrite Forall_forall in H1, H2.
  split; [|split; apply free_of_trim; auto]. split; [|apply TrimSpace_idem]. intros E. by rewrite E in Hne.
Qed.
Lemma NewNamespace_ok segments : Forall (free_of colon) segments -> Forall plain (NewNamespace segments).
Proof. intros H. apply Forall_bind. eapply Forall_impl; [exact H|]. intros s. apply clean_pieces_ok. Qed.
Lemma free_of_prefix s p : free_of colon s -> free_of colon (TrimPrefix s p).
Proof.
  unfold TrimPrefix. destruct (String.prefix p s); [|done]. rewrite !free_of_spec. intros H Hin. apply H. clear H.
  revert Hin. generalize (String.length p) as n, (String.length s - String.length p) as m. induction s as [|x s IH]; intros n m; [by destruct n, m|].
  destruct n as [|n]; [|intros Hin; right; by apply (IH n m)]. destruct m as [|m]; [intros Hin; by apply elem_of_nil in Hin|]. cbn [String.substring String.list_ascii_of_string].
  intros [->|Hin]%elem_of_cons; [by left|]. right. by apply (IH 0 m).
Qed.
Lemma clean_elements_free rooted pieces out : Forall (free_of colon) pieces -> Forall (free_of colon) out ->
  Forall (free_of colon) (clean_elements rooted pieces out).
Proof.
  intros H. revert out. induction H as [|p pieces Hp _ IH]; intros out Hout; [done|]. cbn [clean_elements].
  case_decide; [by apply IH|]. case_decide; [|apply IH; by constructor]. destruct out as [|top below]; [apply IH; destruct rooted; by repeat constructor|].
  case_decide; apply IH; [|by inversion Hout]. destruct rooted; [done|]. by constructor.
Qed.
Lemma path_Clean_free path : free_of colon path -> free_of colon (path_Clean path).
Proof.
  intros H. unfold path_Clean. set (rooted := HasPrefix path _).
  assert (He : Forall (free_of colon) (rev (clean_elements rooted (Split path slash) []))) by (apply Forall_rev, clean_elements_free; [by apply free_of_split|constructor]).
  destruct rooted.
  - change (free_of colon (String slash emp ++ Join (rev (clean_elements true (Split path slash) [])) (String slash emp))%string).
    apply free_of_app; [done|]. by apply free_of_Join.
  - destruct (rev _); [done|]. by apply free_of_Join.
Qed.
Lemma path_Dir_free path : free_of colon path -> free_of colon (path_Dir path).
Proof.
  intros H. unfold path_Dir. pose proof (free_of_split colon slash path H) as Hs. destruct (removelast (Split path slash)) as [|p ps] eqn:E; [by apply path_Clean_free|].
  apply path_Clean_free, free_of_app; [|done]. apply free_of_Join; [done|]. rewrite <- E. destruct (Split path slash) as [|q l _] using rev_ind; [done|].
  rewrite removelast_last in E |- *. by apply Forall_app in Hs as [? _].
Qed.
Lemma path_Base_free path : free_of colon path -> free_of colon (path_Base path).
Proof.
  intros H. unfold path_Base. case_decide; [done|]. destruct (last _) as [p|] eqn:E; [|done]. cbn.
  pose proof (free_of_split colon slash path H) as Hs. rewrite Forall_forall in Hs. apply Hs. apply last_Some in E as [l E].
  assert (Hin : p ∈ List.filter is_nonempty (Split path slash)) by (rewrite E; apply elem_of_app; right; by left).
  by apply list_elem_of_List_filter in Hin as [? _].
Qed.

(** A name with a colon is out of reach of every reference. *)
Lemma splitRef_free ref : Forall (free_of colon) (splitRef ref).
Proof.
  assert (Hpart : forall is_last p, free_of colon p -> Forall (free_of colon) (split_part is_last p)).
  { intros is_last p Hp. unfold split_part. case_decide; [constructor|]. apply free_of_trim in Hp. destruct is_last; [by constructor|].
    eapply Forall_impl; [by apply clean_pieces_ok|]. by intros s (_ & ? & _). }
  unfold splitRef. pose proof (split_free (TrimSpace ref) colon) as H. induction H as [|p ps Hp Hps IH]; [constructor|].
  destruct ps as [|q ps]; [by apply Hpart|]. cbn [split_parts]. apply Forall_app. split; [by apply Hpart|exact IH].
Qed.
Lemma colon_name_unreachable id ref : ~ free_of colon (ri_Name id) -> MatchesRef id ref = false.
Proof.
  intros H. unfold MatchesRef. pose proof (splitRef_free ref) as Hf. destruct (last (splitRef ref)) as [name|] eqn:E; [|done].
  apply last_Some in E as [l E]. rewrite E in Hf. apply Forall_app in Hf as [_ [Hn _]%Forall_cons]. rewrite decide_True; [done|]. by intros ->.
Qed.

Lemma namespace_ok source : free_of colon (so_Location source) -> free_of colon (so_Ref source) -> Forall plain (DeriveNamespace source).
Proof.
  intros Hl Hr. assert (Hf : Forall plain (namespace_fallback source)).
  { unfold namespace_fallback. case_decide; [apply NewNamespace_ok; by constructor|]. case_decide; apply NewNamespace_ok; by repeat constructor. }
  unfold DeriveNamespace. destruct (so_Scope source); try done.
  - cbv zeta. case_decide; [|done]. apply NewNamespace_ok. constructor; [|constructor]. by apply path_Base_free, path_Dir_free.
  - apply NewNamespace_ok. by constructor.
  - case_decide; [|done]. apply NewNamespace_ok. constructor; [|constructor]. by apply free_of_prefix, free_of_prefix.
Qed.
(** The address of a derived identity finds it again, as long as its source and name have no colon (and
    the ecosystem, which may be its origin, is clean). *)
Theorem derived_resolvable source kind name ids :
  free_of colon (so_Location source) -> free_of colon (so_Ref source) -> so_Ecosystem source = emp \/ plain (so_Ecosystem source) ->
  free_of colon name -> TrimSpace name <> emp -> DeriveResourceID source kind name ∈ ids ->
  DeriveResourceID source kind name ∈ LookupRef (index_of ids) kind (Address (DeriveResourceID source kind name)).
Proof.
  intros Hl Hr He Hn Hne Hin. apply elem_of_LookupRef. split; [done|]. split; [done|]. split; [by right|]. apply address_matches.
  assert (Hlit : plain "local" /\ plain "user" /\ plain "embedded" /\ plain "remote" /\ plain "explicit" /\ plain "unknown").
  { repeat split; by vm_compute. }
  split; cbn.
  - unfold DeriveOrigin. destruct (so_Scope source); try tauto; (case_decide; [tauto|]; by destruct He).
  - by apply namespace_ok.
  - split; [split; [done|apply TrimSpace_idem]|by apply free_of_trim].
Qed.
