(* ===== verification/ToolProjection.v ===== *)
(** * Projected tools (src/orchestration/toolprojection, operation catalogs of src/orchestration/session)

    Which commands, tool sets and operations a model may call, as tools; and the catalog a session
    resolves the operations of these calls in. *)

From stdpp Require Import pretty.
From S2P Require Import Prelude Operation OpModel NamedInstance Resource ModelTools.

(** What the code reads of package policy about invocations, and of semantics and references of package
    operation. *)
Record Caller := mkCaller { ca_Kind : string; ca_ID : string }.
Record TrustClaim := mkTrustClaim { tm_Kind : string; tm_Level : string }.
Definition TrustInvocation : string := "invocation".
Definition TrustVerified : string := "verified".
Definition CallerAgent : string := "agent".
Class InvocationModule := {
  InvocationPolicy : Type;
  EvaluateInvocation : InvocationPolicy -> Caller -> TrustClaim -> Evaluation
}.
Class OperationNames `{OperationTypes} := {
  Semantics_ReadOnly : Semantics -> bool;
  Ref_String : OpRef -> string
}.
Class ToolSetTexts := { tool_set_error_text : ToolSetError -> string }.

Section Projection.
Context `{OT : OperationTypes} {OM : OperationModule} `{PT : PolicyTypes} {PM : PolicyModule} {OA : OperationApi} {JO : JsonObjects}
  {SJ : SchemaJson} {GF : GoFmt} {IM : InvocationModule} {ON : OperationNames} {TT : ToolSetTexts}.

(** The description in the specification of an operation, which [Spec] leaves out. *)
Class OperationTexts := { Operation_Description : Operation -> string }.
Context {OX : OperationTexts}.

(** ** Catalogs (session.go) *)

Record OperationBinding := mkOperationBinding { ob_ID : ResourceID; ob_Operation : Operation }.
#[global] Instance rebuild_OperationBinding : Rebuild OperationBinding := fun b => mkOperationBinding b.(ob_ID) b.(ob_Operation).
Abbreviation OperationCatalog := (gmap string OperationBinding).
(** The value of a tool set binding, when it is a tool set. *)
Record ToolSetBinding := mkToolSetBinding { sb_ID : ResourceID; sb_Spec : option ToolSet }.
Record CommandSpec := mkCommandSpec {
  cs_Path : list string;
  cs_Description : string;
  cs_Target : Target;
  cs_Input : OpType;
  cs_Output : OpType;
  cs_Policy : InvocationPolicy;
  cs_Annotations : gmap string string
}.
Record CommandBinding := mkCommandBinding { cb_ID : ResourceID; cb_Spec : CommandSpec; cb_TargetID : ResourceID; cb_OperationID : ResourceID }.

Inductive CatalogError := CatalogEmpty | CatalogResolve (e : ResolveError) | CatalogUnbound (address : string).
(** The resolver of one call: the bindings are indexed in the order of the map's iteration. *)
Definition catalog_resolver (bindings : list OperationBinding) : Resolver :=
  NewResolver (fold_left index_Add (ob_ID <$> bindings) ∅) None ∅.
Definition catalog_id (bindings : list OperationBinding) (ref : string) (scope : ResourceID) : Result ResolveError ResourceID :=
  let resolver := catalog_resolver bindings in
  if ID_IsZero scope then (Resolve resolver "operation" ref).2 else (ResolveInScope resolver "operation" ref scope).2.
Definition Catalog_Resolve (c : OperationCatalog) (ref : string) (scope : ResourceID) : Result CatalogError OperationBinding :=
  if decide (size c = 0) then Err CatalogEmpty else
  match catalog_id (map snd (map_to_list c)) ref scope with
  | Err e => Err (CatalogResolve e)
  | Ok id => match c !! Address id with Some binding => Ok binding | None => Err (CatalogUnbound (Address id)) end
  end.
(** [resolveOperation] of a session, which describes the operations an activation adds; the registry of
    operations by reference may be nil. *)
Definition resolveOperation (catalog : OperationCatalog) (registry : option (OpRef -> option Operation)) (ref : OpRef) : option Operation :=
  let registered := match registry with Some get => get ref | None => None end in
  if decide (0 < size catalog) then
    match Catalog_Resolve catalog (Ref_String ref) zero_ResourceID with
    | Ok binding => Some (ob_Operation binding)
    | Err _ => registered
    end
  else registered.

(** The operations of a session's surface come before every other one. *)
Definition surface_names : list string := ["session_focus"; "surface_info"; "surface_prepare"; "surface_call"]%string.
Definition surfaceOperation (surface : string -> Operation) (ref : OpRef) : option Operation :=
  if decide (ref_Name ref ∈ surface_names) then Some (surface (ref_Name ref)) else None.
Inductive RunError := RunUnresolved (e : CatalogError) | RunRegistryMissing | RunNotFound.
(** The operation [applyOperation] executes; a catalog does not fall back to the registry. *)
Definition operation_to_run (surface : string -> Operation) (catalog : OperationCatalog) (registry : option (OpRef -> option Operation)) (ref : OpRef)
    : Result RunError Operation :=
  match surfaceOperation surface ref with
  | Some op => Ok op
  | None =>
      if decide (0 < size catalog) then
        match Catalog_Resolve catalog (Ref_String ref) zero_ResourceID with
        | Ok binding => Ok (ob_Operation binding)
        | Err e => Err (RunUnresolved e)
        end
      else match registry with
           | None => Err RunRegistryMissing
           | Some get => match get ref with Some op => Ok op | None => Err RunNotFound end
           end
  end.

(** ** Configuration and results (projector.go) *)

Record ProjectionConfig := mkProjectionConfig {
  cf_Operations : OperationCatalog;
  cf_Commands : gmap string CommandBinding;
  cf_ToolSets : gmap string ToolSetBinding;
  cf_Caller : Caller;
  cf_Trust : TrustClaim;
  cf_Authorization : AuthorizationContext;
  cf_AllowSideEffects : bool;
  cf_AllowApprovalRequired : bool;
  cf_MaxRisk : RiskLevel;
  cf_IncludeBareOperations : bool;
  cf_PreferCommandProjection : bool;
  cf_NamedPluginInstances : gmap string (gmap string bool)
}.
#[global] Instance rebuild_ProjectionConfig : Rebuild ProjectionConfig := fun c =>
  mkProjectionConfig c.(cf_Operations) c.(cf_Commands) c.(cf_ToolSets) c.(cf_Caller) c.(cf_Trust) c.(cf_Authorization) c.(cf_AllowSideEffects)
    c.(cf_AllowApprovalRequired) c.(cf_MaxRisk) c.(cf_IncludeBareOperations) c.(cf_PreferCommandProjection) c.(cf_NamedPluginInstances).
Record ProjectionDiagnostic := mkProjectionDiagnostic { dg_Resource : ResourceID; dg_Reason : string }.
Record Projected := mkProjected { pj_Tools : list CoreTool; pj_Diagnostics : list ProjectionDiagnostic }.

(** ** Safety and authorization *)

Definition riskRank (risk : RiskLevel) : nat :=
  match risk with RiskCritical => 4 | RiskHigh => 3 | RiskMedium => 2 | RiskLow => 1 | _ => 0 end.
Definition riskAllowed (actual max : RiskLevel) : bool := riskRank actual <=? riskRank max.
Definition requiresApproval (semantics : Semantics) : bool :=
  bool_decide (sem_Risk semantics = RiskHigh) || bool_decide (sem_Risk semantics = RiskCritical)
  || Effects_Has (sem_Effects semantics) EffectDestructive || Effects_Has (sem_Effects semantics) EffectIrreversible.
(** A reason not to project, if there is one. *)
Definition safeToProject (cfg : ProjectionConfig) (semantics : Semantics) : option string :=
  if negb (cf_AllowSideEffects cfg) && negb (Semantics_ReadOnly semantics) then Some "side_effecting_operation"%string
  else if negb (bool_decide (cf_MaxRisk cfg = RiskUnset)) && negb (riskAllowed (sem_Risk semantics) (cf_MaxRisk cfg)) then Some "risk_too_high"%string
  else if requiresApproval semantics && negb (cf_AllowApprovalRequired cfg) then Some "approval_required"%string
  else None.
Definition authorizedToProject (cfg : ProjectionConfig) (spec : Spec) : option string :=
  let auth := cf_Authorization cfg in
  if Policy_IsZero (au_Policy auth) then None else
  let evaluation := EvaluateAuthorization (au_Policy auth)
    (mkAuthRequest _ (au_Subjects auth) (au_Trust auth) (named_resource ResourceOperation (ref_Name (sp_Ref spec))) ActionOperationInvoke) in
  if decide (ev_Decision evaluation = DecisionAllow) then None
  else if decide (ev_Decision evaluation = DecisionApprovalRequired)
  then if cf_AllowApprovalRequired cfg then None else Some (ev_Reason evaluation)
  else Some (ev_Reason evaluation).
Definition checkOperation (cfg : ProjectionConfig) (spec : Spec) : option string :=
  match safeToProject cfg (sp_Semantics spec) with Some reason => Some reason | None => authorizedToProject cfg spec end.

(** ** Named instances *)

Definition filteredNamedPluginOperation (cfg : ProjectionConfig) (op : Operation) : option Operation :=
  match op with
  | Plain _ _ _ _ => Some op
  | NamedInstances kind _ _ =>
      if decide (size (cf_NamedPluginInstances cfg) = 0) then Some op else
      match cf_NamedPluginInstances cfg !! kind with
      | Some allowed => FilterNamedInstances op allowed
      | None => Some op
      end
  end.
Definition FilterOperationCatalog (cfg : ProjectionConfig) (catalog : OperationCatalog) : OperationCatalog :=
  if decide (size catalog = 0 \/ size (cf_NamedPluginInstances cfg) = 0) then catalog else
  omap (fun binding => (fun op => binding <| ob_Operation := op |>) <$> filteredNamedPluginOperation cfg (ob_Operation binding)) catalog.

(** ** Names *)

Definition is_name_byte (c : ascii) : bool :=
  let n := nat_of_ascii c in
  ((48 <=? n) && (n <=? 57)) || ((65 <=? n) && (n <=? 90)) || ((97 <=? n) && (n <=? 122)) || (n =? 95).
(** Runs of other bytes become one underscore. *)
Fixpoint replace_runs (in_run : bool) (s : string) : string :=
  match s with
  | String.EmptyString => emp
  | String.String c rest =>
      if is_name_byte c then String c (replace_runs false rest)
      else if in_run then replace_runs true rest else String "_" (replace_runs true rest)
  end.
Definition toolName (id : ResourceID) : string :=
  let name := if decide (Address id = emp) then ri_Name id else Address id in
  let name := TrimByte (replace_runs false name) "_" in
  if decide (name = emp) then "tool"%string else name.
Definition uniqueName (name : string) (used : gmap string nat) : string * gmap string nat :=
  let base := if decide (name = emp) then "tool"%string else name in
  let count := default 0 (used !! base) in
  (if decide (count = 0) then base else (base ++ "_" ++ pretty (count + 1))%string, <[base := count + 1]> used).

(** ** Projections *)

Definition firstResourceID (a b : ResourceID) : ResourceID :=
  if negb (ID_IsZero a) then a else if negb (ID_IsZero b) then b else zero_ResourceID.
Definition project_cases (cfg : ProjectionConfig) (scope : ResourceID) : list ActionCase -> Result string (list (ActionCase * ResourceID)) :=
  fix go cases :=
    match cases with
    | [] => Ok []
    | c :: rest =>
        let target := ac_Target c in
        if decide (tt_Kind target <> TargetOperation) then Err "tool_set_action_target_not_operation"%string
        else if decide (ref_Name (tt_Operation target) = emp) then Err "tool_set_action_operation_empty"%string
        else match Catalog_Resolve (cf_Operations cfg) (Ref_String (tt_Operation target)) scope with
             | Err _ => Err "operation_not_bound"%string
             | Ok binding =>
                 match checkOperation cfg (OpSpec (ob_Operation binding)) with
                 | Some reason => Err reason
                 | None => let? out := go rest in Ok ((mkActionCase (ac_Action c) target, ob_ID binding) :: out)
                 end
             end
    end.
Definition zero_Target : Target := mkToolTarget NoTarget (mkOpRef emp) emp emp emp emp emp VNil.
(** The tool and the operations it covers. *)
Definition projectToolSet (cfg : ProjectionConfig) (binding : ToolSetBinding) : Result string (CoreTool * list ResourceID) :=
  match sb_Spec binding with
  | None => Err "tool_set_spec_unsupported"%string
  | Some spec =>
      match sx_Action spec with
      | None => Err "tool_set_has_no_action_projection"%string
      | Some action =>
          match ActionProjection_Validate action with
          | Some e => Err (tool_set_error_text e)
          | None =>
              let? cases := project_cases cfg (sb_ID binding) (ap_Cases action) in
              Ok (mkCoreTool (ap_Tool action) (if decide (ap_Description action = emp) then sx_Description spec else ap_Description action)
                    zero_Target (Address (sb_ID binding)) (ap_Input action) (ap_Output action)
                    (Some (mkDispatch (ap_ActionField action) (map fst cases)))
                    (<["projection" := "tool_set_action"]> {[ "tool_set_id" := Address (sb_ID binding) ]})%string,
                  map snd cases)
          end
      end
  end.

Definition projectCommand (cfg : ProjectionConfig) (binding : CommandBinding) : Result string CoreTool :=
  let spec := cb_Spec binding in
  if decide (cs_Annotations spec !! "tool_projection"%string = Some "hidden"%string) then Err "command_tool_projection_hidden"%string else
  let evaluation := EvaluateInvocation (cs_Policy spec) (cf_Caller cfg) (cf_Trust cfg) in
  if decide (ev_Decision evaluation = DecisionDeny) then Err (ev_Reason evaluation)
  else if bool_decide (ev_Decision evaluation = DecisionApprovalRequired) && negb (cf_AllowApprovalRequired cfg) then Err (ev_Reason evaluation) else
  let? _ :=
    if decide (tt_Kind (cs_Target spec) = TargetOperation) then
      let operationID := if ID_IsZero (cb_OperationID binding) then cb_TargetID binding else cb_OperationID binding in
      match cf_Operations cfg !! Address operationID with
      | None => Err "operation_not_bound"%string
      | Some operationBinding =>
          match checkOperation cfg (OpSpec (ob_Operation operationBinding)) with Some reason => Err reason | None => Ok tt end
      end
    else Ok tt in
  let targetID := Address (firstResourceID (cb_TargetID binding) (cb_OperationID binding)) in
  let annotations := (<["projection" := "command"]> {[ "command_id" := Address (cb_ID binding) ]})%string in
  let annotations := if blank targetID then annotations else <["target_id"%string := targetID]> annotations in
  let annotations := if ID_IsZero (cb_OperationID binding) then annotations
                     else <["operation_id"%string := Address (cb_OperationID binding)]> annotations in
  Ok (mkCoreTool (toolName (cb_ID binding)) (cs_Description spec) (cs_Target spec)
        (if blank targetID then Address (cb_ID binding) else targetID) (cs_Input spec) (cs_Output spec) None annotations).

Definition operation_target (ref : OpRef) : Target := mkToolTarget TargetOperation ref emp emp emp emp emp VNil.
Definition projectOperation (cfg : ProjectionConfig) (binding : OperationBinding) : Result string CoreTool :=
  match filteredNamedPluginOperation cfg (ob_Operation binding) with
  | None => Err "named_plugin_instance_unavailable"%string
  | Some op =>
      let spec := OpSpec op in
      match checkOperation cfg spec with
      | Some reason => Err reason
      | None =>
          Ok (mkCoreTool (ref_Name (sp_Ref spec)) (Operation_Description op) (operation_target (sp_Ref spec)) (Address (ob_ID binding)) (sp_Input spec) (sp_Output spec)
                None (<["projection" := "operation"]> {[ "operation_id" := Address (ob_ID binding) ]})%string)
      end
  end.
Definition operationCovered (tools : list CoreTool) (id : ResourceID) : bool :=
  negb (ID_IsZero id) && existsb (fun projected => bool_decide (ct_TargetID projected = Address id)) tools.

(** The three loops of [Project] over sorted keys. *)
Record ProjectState := mkProjectState { ps_Out : Projected; ps_Used : gmap string nat; ps_Covered : gset string }.
Definition skipped (s : ProjectState) (id : ResourceID) (reason : string) : ProjectState :=
  mkProjectState (mkProjected (pj_Tools (ps_Out s)) (pj_Diagnostics (ps_Out s) ++ [mkProjectionDiagnostic id reason])) (ps_Used s) (ps_Covered s).
Definition add_tool (s : ProjectState) (tool : CoreTool) (covered : list ResourceID) : ProjectState :=
  let '(name, used) := uniqueName (ct_Name tool) (ps_Used s) in
  mkProjectState (mkProjected (pj_Tools (ps_Out s) ++ [tool <| ct_Name := name |>]) (pj_Diagnostics (ps_Out s))) used
    (list_to_set (map Address (List.filter (fun id => negb (ID_IsZero id)) covered)) ∪ ps_Covered s).
Definition sorted_values {A} (m : gmap string A) : list A := omap (fun key => m !! key) (sort_Strings (map fst (map_to_list m))).
Definition project_command (cfg : ProjectionConfig) (s : ProjectState) (binding : CommandBinding) : ProjectState :=
  match projectCommand cfg binding with Err reason => skipped s (cb_ID binding) reason | Ok tool => add_tool s tool [] end.
Definition project_tool_set (cfg : ProjectionConfig) (s : ProjectState) (binding : ToolSetBinding) : ProjectState :=
  match projectToolSet cfg binding with Err reason => skipped s (sb_ID binding) reason | Ok (tool, covered) => add_tool s tool covered end.
Definition project_operation (cfg : ProjectionConfig) (s : ProjectState) (binding : OperationBinding) : ProjectState :=
  if cf_PreferCommandProjection cfg && operationCovered (pj_Tools (ps_Out s)) (ob_ID binding) then s
  else if decide (Address (ob_ID binding) ∈ ps_Covered s) then s
  else match projectOperation cfg binding with Err reason => skipped s (ob_ID binding) reason | Ok tool => add_tool s tool [] end.
Definition Project (cfg : ProjectionConfig) : Projected :=
  let cfg := if decide (tm_Kind (cf_Trust cfg) = emp) then cfg <| cf_Trust := mkTrustClaim TrustInvocation (tm_Level (cf_Trust cfg)) |> else cfg in
  let s := mkProjectState (mkProjected [] []) ∅ ∅ in
  let s := fold_left (project_command cfg) (sorted_values (cf_Commands cfg)) s in
  let s := fold_left (project_tool_set cfg) (sorted_values (cf_ToolSets cfg)) s in
  if cf_IncludeBareOperations cfg then ps_Out (fold_left (project_operation cfg) (sorted_values (cf_Operations cfg)) s) else ps_Out s.
Definition ProjectForAgent (cfg : ProjectionConfig) : Projected :=
  let cfg := if decide (ca_Kind (cf_Caller cfg) = emp) then cfg <| cf_Caller := mkCaller CallerAgent emp |> else cfg in
  let trust := cf_Trust cfg in
  Project (cfg <| cf_Trust := mkTrustClaim (if decide (tm_Kind trust = emp) then TrustInvocation else tm_Kind trust)
                                (if decide (tm_Level trust = emp) then TrustVerified else tm_Level trust) |>).
End Projection.

(** * Catalogs of an application (src/orchestration/appresources/resources.go)

    The operations and commands that bundles and plugins contribute, bound to their identities; commands
    are bound to the operation they name. *)

Section Catalogs.
Context `{OT : OperationTypes} {OM : OperationModule} `{PT : PolicyTypes} {PM : PolicyModule} {OA : OperationApi} {JO : JsonObjects}
  {SJ : SchemaJson} {GF : GoFmt} {IM : InvocationModule} {ON : OperationNames}.

Abbreviation OperationCatalog := (gmap string OperationBinding).

Inductive AppError :=
| OperationIDEmpty
| OperationDuplicate (address : string)
| CommandIDEmpty
| CommandDuplicate (address : string)
| CommandTargetEmpty (kind : TargetKind)
| CommandTargetOperation (e : CatalogError)
| CommandTargetResource (kind : string) (e : ResolveError)
| CommandTargetUnsupported (kind : TargetKind)
| CommandPathEmpty
| CommandPathDuplicate (key : string).

Inductive ToolSetsError := InvalidToolSet (e : ToolSetError) | DuplicateToolSet (address : string).

(** ** Operations *)

Definition addOperation (s : OperationCatalog * ResourceIndex) (id : ResourceID) (op : Operation)
    : Result AppError (OperationCatalog * ResourceIndex) :=
  let '(catalog, index) := s in
  if decide (ri_Name id = emp) then Err OperationIDEmpty
  else match catalog !! Address id with
       | Some _ => Err (OperationDuplicate (Address id))
       | None => Ok (<[Address id := mkOperationBinding id op]> catalog, index_Add index id)
       end.
(** The operations an application is given have the explicit scope; those of plugins are aggregated. *)
Definition explicit_source : ResourceSource := mkSource emp emp ScopeExplicit emp emp.
Definition operation_name (op : Operation) : string := ref_Name (sp_Ref (OpSpec op)).
Fixpoint add_operations (ops : list (ResourceSource * Operation)) (s : OperationCatalog * ResourceIndex)
    : Result AppError (OperationCatalog * ResourceIndex) :=
  match ops with
  | [] => Ok s
  | (source, op) :: rest => let? s := addOperation s (DeriveResourceID source "operation" (operation_name op)) op in add_operations rest s
  end.
(** [aggregateNamedPluginOperations]: the operations of a plugin's instances, grouped by kind and name, become one. *)
Definition plugin_kind (op : Operation) : string := TrimSpace (default emp (sp_Annotations (OpSpec op) !! AnnotationNamedPluginKind)).
Definition nul : string := String (ascii_of_nat 0) emp.
Definition group_key (c : ResourceSource * Operation) : string :=
  let kind := plugin_kind c.2 in
  if decide (kind = emp) then (nul ++ so_ID c.1 ++ nul ++ operation_name c.2)%string else (kind ++ nul ++ operation_name c.2)%string.
Definition NamedInstances_of (op : Operation) : option (list NamedInstanceBinding) :=
  match op with
  | NamedInstances _ instances _ => Some (map (fun b => mkBinding (ni_Instance b) (Some (ni_Operation b))) instances)
  | Plain _ _ _ _ => None
  end.
Definition aggregate_group (group : list (ResourceSource * Operation)) : list (ResourceSource * Operation) :=
  match group with
  | [] => []
  | first :: _ =>
      let kind := plugin_kind first.2 in
      if decide (kind = emp) then group else
      let plain := List.filter (fun c => match NamedInstances_of c.2 with Some _ => false | None => true end) group in
      let instances := group ≫= fun c => default [] (NamedInstances_of c.2) in
      plain ++ match AggregateNamedInstances kind instances with
               | Some op => [(mkSource ("plugin:" ++ kind) "embedded" ScopeEmbedded ("plugins/" ++ kind) emp, op)]%string
               | None => []
               end
  end.
Definition note_key (out : list string) (key : string) : list string := if decide (key ∈ out) then out else out ++ [key].
Definition aggregateNamedPluginOperations (ops : list (ResourceSource * Operation)) : list (ResourceSource * Operation) :=
  fold_left note_key (map group_key ops) [] ≫= fun key => aggregate_group (List.filter (fun c => bool_decide (group_key c = key)) ops).

(** The operations with a name of their own are registered. *)
Definition registered_operations (ops : list Operation) : list Operation :=
  List.filter (fun op => length (List.filter (fun other => bool_decide (operation_name other = operation_name op)) ops) =? 1) ops.
Definition collectOperations (index : ResourceIndex) (explicit : list Operation) (plugins : list (ResourceSource * Operation))
    : Result AppError (OperationCatalog * ResourceIndex * list Operation) :=
  let aggregated := aggregateNamedPluginOperations plugins in
  let? s := add_operations (map (fun op => (explicit_source, op)) explicit ++ aggregated) (∅, index) in
  Ok (s, registered_operations (explicit ++ map snd aggregated)).

(** ** Commands *)

Definition commandName (spec : CommandSpec) : string :=
  let name := TrimSpace (default emp (cs_Annotations spec !! "name"%string)) in
  if decide (name <> emp) then name
  else default emp (last (List.filter is_nonempty (TrimSpace <$> cs_Path spec))).
Definition resourceNameParts (name : string) : list string := List.filter is_nonempty (TrimSpace <$> Split (TrimSpace name) colon).
Definition commandResourceID (source : ResourceSource) (spec : CommandSpec) : ResourceID :=
  let name := commandName spec in
  let id := DeriveResourceID source "command" name in
  let parts := resourceNameParts name in
  if length parts <=? 1 then id
  else mkResourceID (ri_Kind id) (ri_Origin id) (Namespace_Append (ri_Namespace id) (removelast parts)) (default emp (last parts)).
Definition addCommand (catalog : gmap string CommandBinding) (id : ResourceID) (binding : CommandBinding) : Result AppError (gmap string CommandBinding) :=
  if decide (ri_Name id = emp) then Err CommandIDEmpty
  else match catalog !! Address id with
       | Some _ => Err (CommandDuplicate (Address id))
       | None => Ok (<[Address id := binding]> catalog)
       end.

(** The target and, for an operation, the operation of a command; a resolver remembers what it resolves. *)
Definition resolve_target (resolver : Resolver) (kind ref : string) (target : TargetKind) (commandID : ResourceID)
    : Resolver * Result AppError (ResourceID * ResourceID) :=
  if blank ref then (resolver, Err (CommandTargetEmpty target)) else
  let '(resolver, r) := ResolveInScope resolver kind ref commandID in
  (resolver, match r with Ok id => Ok (id, zero_ResourceID) | Err e => Err (CommandTargetResource kind e) end).
Definition resolveCommandTarget (resolver : Resolver) (operations : OperationCatalog) (commandID : ResourceID) (spec : CommandSpec)
    : Resolver * Result AppError (ResourceID * ResourceID) :=
  let target := cs_Target spec in
  let no_resource (text : string) := (resolver, if blank text then Err (CommandTargetEmpty (tt_Kind target)) else Ok (zero_ResourceID, zero_ResourceID)) in
  match tt_Kind target with
  | TargetOperation =>
      (resolver,
       if decide (ref_Name (tt_Operation target) = emp) then Err (CommandTargetEmpty TargetOperation) else
       match Catalog_Resolve operations (Ref_String (tt_Operation target)) commandID with
       | Err e => Err (CommandTargetOperation e)
       | Ok binding => Ok (ob_ID binding, ob_ID binding)
       end)
  | TargetWorkflow => resolve_target resolver "workflow" (tt_Workflow target) TargetWorkflow commandID
  | TargetAgent => resolve_target resolver "agent" (tt_Agent target) TargetAgent commandID
  | TargetSession => resolve_target resolver "session" (tt_Session target) TargetSession commandID
  | TargetPrompt => no_resource (tt_Prompt target)
  | TargetMessage => no_resource (tt_Message target)
  | NoTarget => (resolver, Err (CommandTargetEmpty NoTarget))
  | OtherTargetKind _ => (resolver, Err (CommandTargetUnsupported (tt_Kind target)))
  end.

(** [Path.String] and [pathKey] (src/core/command). *)
Definition Path_String (p : list string) : string := match p with [] => emp | _ => String slash (Join p (String slash emp)) end.
Definition pathKey (p : list string) : string := Join p (String (ascii_of_nat 0) emp).
Record CommandState := mkCommandState {
  ct_catalog : gmap string CommandBinding; ct_resolver : Resolver; ct_pathCounts : gmap string nat }.
Fixpoint add_commands (operations : OperationCatalog) (specs : list (ResourceSource * CommandSpec)) (s : CommandState) : Result AppError CommandState :=
  match specs with
  | [] => Ok s
  | (source, spec) :: rest =>
      let id := commandResourceID source spec in
      let resolver := (ct_resolver s) <| rv_index := index_Add (rv_index (ct_resolver s)) id |> in
      let '(resolver, r) := resolveCommandTarget resolver operations id spec in
      let? (targetID, operationID) := r in
      let? catalog := addCommand (ct_catalog s) id (mkCommandBinding id spec targetID operationID) in
      let path := Path_String (cs_Path spec) in
      add_commands operations rest (mkCommandState catalog resolver (<[path := default 0 (ct_pathCounts s !! path) + 1]> (ct_pathCounts s)))
  end.
(** [Register] of the registry of commands. *)
Definition register_command (registry : gmap string CommandSpec) (spec : CommandSpec) : Result AppError (gmap string CommandSpec) :=
  let key := pathKey (cs_Path spec) in
  if decide (key = emp) then Err CommandPathEmpty
  else match registry !! key with Some _ => Err (CommandPathDuplicate key) | None => Ok (<[key := spec]> registry) end.
(** Commands with a path of their own are registered, in the order of the map's iteration. *)
Fixpoint register_commands (counts : gmap string nat) (bindings : list CommandBinding) (registry : gmap string CommandSpec)
    : Result AppError (gmap string CommandSpec) :=
  match bindings with
  | [] => Ok registry
  | binding :: rest =>
      if decide (counts !! Path_String (cs_Path (cb_Spec binding)) = Some 1) then
        let? registry := register_command registry (cb_Spec binding) in register_commands counts rest registry
      else register_commands counts rest registry
  end.
Definition collectCommands (bundles : list (ResourceSource * list CommandSpec)) (resolver : Resolver) (operations : OperationCatalog)
    : Result AppError (gmap string CommandSpec * gmap string CommandBinding * Resolver) :=
  let? s := add_commands operations (bundles ≫= fun b => map (fun spec => (b.1, spec)) b.2) (mkCommandState ∅ resolver ∅) in
  let? registry := register_commands (ct_pathCounts s) (map snd (map_to_list (ct_catalog s))) ∅ in
  Ok (registry, ct_catalog s, ct_resolver s).

(** ** Tool sets *)

Fixpoint collect_tool_sets (specs : list (ResourceSource * ToolSet)) (s : gmap string ToolSetBinding * ResourceIndex)
    : Result ToolSetsError (gmap string ToolSetBinding * ResourceIndex) :=
  match specs with
  | [] => Ok s
  | (source, spec) :: rest =>
      match ToolSet_Validate spec with
      | Some e => Err (InvalidToolSet e)
      | None =>
          let id := DeriveResourceID source "tool_set" (sx_Name spec) in
          match s.1 !! Address id with
          | Some _ => Err (DuplicateToolSet (Address id))
          | None => collect_tool_sets rest (<[Address id := mkToolSetBinding id (Some spec)]> s.1, index_Add s.2 id)
          end
      end
  end.
End Catalogs.
