(* ===== verification/ProjectedTools.v ===== *)
(** * What a model's calls run (src/orchestration/toolprojection, appresources, session.go, src/adapters/llm)

    The operations a model's streamed calls ask for are looked up again by the session that runs them. When
    the operations of a catalog have names of their own, the lookup finds the operation whose safety and
    authorization the projection checked. *)

From S2P Require Import Prelude Operation OpModel NamedInstance Instances AgentModel SessionData StopCondition SessionTurn ModelTools Assembler Resource Resolution ToolProjection.

Section Projected.
Context `{OT : OperationTypes} {OM : OperationModule} `{PT : PolicyTypes} {PM : PolicyModule} {OA : OperationApi} {JO : JsonObjects}
  {SJ : SchemaJson} {GF : GoFmt} {IM : InvocationModule} {ON : OperationNames} {TT : ToolSetTexts} {OX : OperationTexts} {JD : JsonDecode}.
Implicit Types (cfg : ProjectionConfig) (ref : string) (scope id : ResourceID) (binding : OperationBinding) (op : Operation).

Abbreviation OperationCatalog := (gmap string OperationBinding).
Implicit Types (c ops : OperationCatalog).

(** ** Catalogs *)

(** What holds of a catalog of operations: bindings are under their address. *)
Definition keyed c : Prop := map_Forall (fun key binding => key = Address (ob_ID binding)) c.
Definition own_names c : Prop := forall key1 key2 binding1 binding2,
  c !! key1 = Some binding1 -> c !! key2 = Some binding2 -> ri_Name (ob_ID binding1) = ri_Name (ob_ID binding2) -> key1 = key2.
Definition clean_names c : Prop :=
  map_Forall (fun _ binding => trimmed (ri_Name (ob_ID binding)) /\ free_of colon (ri_Name (ob_ID binding))) c.

Definition bindings_of c : list OperationBinding := map snd (map_to_list c).
Definition ids_of c : list ResourceID := ob_ID <$> bindings_of c.
Lemma elem_of_ids c id : id ∈ ids_of c <-> exists key binding, c !! key = Some binding /\ ob_ID binding = id.
Proof.
  unfold ids_of, bindings_of. rewrite list_elem_of_fmap. setoid_rewrite list_elem_of_fmap. split.
  - intros (binding & -> & [key b] & -> & H%elem_of_map_to_list). by exists key, b.
  - intros (key & binding & H & <-). exists binding. split; [done|]. exists (key, binding). split; [done|]. by apply elem_of_map_to_list.
Qed.
Lemma keyed_lookup c id : keyed c -> id ∈ ids_of c -> exists binding, c !! Address id = Some binding /\ ob_ID binding = id.
Proof. intros Hk (key & binding & H & <-)%elem_of_ids. pose proof (Hk _ _ H) as ->. by exists binding. Qed.

(** What an operation reference means without a scope. *)
Definition means c ref id : Prop := matches (ids_of c) "operation" (TrimSpace ref) id.

Lemma catalog_resolver_index c : rv_index (catalog_resolver (bindings_of c)) = index_of (ids_of c).
Proof. done. Qed.
Lemma splitRef_trim ref : splitRef (TrimSpace ref) = splitRef ref.
Proof. unfold splitRef. by rewrite TrimSpace_idem. Qed.
Lemma split_emp : splitRef emp = [].
Proof. reflexivity. Qed.

Lemma split_name name : name <> emp -> TrimSpace name = name -> free_of colon name -> splitRef name = [name].
Proof. intros Hne Ht Hf. unfold splitRef. rewrite Ht, Hf. cbn. unfold split_part. by rewrite Ht, decide_False. Qed.
Lemma resolve_catalog c ref :
  (Resolve (catalog_resolver (bindings_of c)) "operation" ref).2 =
  if decide (TrimSpace ref = emp) then Err (RefEmpty "operation") else resolve_lookup (catalog_resolver (bindings_of c)) "operation" (TrimSpace ref).
Proof.
  unfold Resolve, resolve_read. case_decide; [done|]. cbn. rewrite !lookup_empty. cbn. unfold resolve_finish. by destruct (resolve_lookup _ _ _).
Qed.
Lemma resolve_means c ref id : (Resolve (catalog_resolver (bindings_of c)) "operation" ref).2 = Ok id -> means c ref id.
Proof.
  rewrite resolve_catalog. case_decide as Hne; [done|]. intros H%lookup_found; [|apply default_chooses].
  rewrite catalog_resolver_index in H. by apply elem_of_LookupRef in H.
Qed.
Lemma scope_means c ref scope id : clean_names c ->
  (ResolveInScope (catalog_resolver (bindings_of c)) "operation" ref scope).2 = Ok id -> means c ref id.
Proof.
  intros Hc. unfold ResolveInScope. destruct (_ || _) eqn:Eq; [apply resolve_means|]. apply orb_false_iff in Eq as [_ _].
  destruct (List.filter _ _) as [|x [|]] eqn:E; [apply resolve_means| |apply resolve_means]. cbn. intros [= ->].
  assert (Hin : id ∈ index_Lookup (rv_index (catalog_resolver (bindings_of c))) "operation" (TrimSpace ref)).
  { assert (H : id ∈ [id]) by (by left). rewrite <- E in H. by apply list_elem_of_List_filter in H as [? _]. }
  rewrite catalog_resolver_index in Hin. unfold index_Lookup in Hin. fold (indexed (index_of (ids_of c)) (TrimSpace ref)) in Hin.
  apply list_elem_of_List_filter in Hin as [(Hids & Hname & Hne)%elem_of_indexed Hkind].
  split; [done|]. split; [by rewrite Hname|]. split; [right; by apply orb_true_iff in Hkind as [?%bool_decide_eq_true|?%bool_decide_eq_true]|].
  apply elem_of_ids in Hids as (key & binding & Hl & <-). destruct (Hc _ _ Hl) as [[_ Ht] Hf]. rewrite Hname in Ht, Hf.
  unfold MatchesRef. rewrite split_name by done. cbn. by rewrite decide_False by congruence.
Qed.
Lemma means_nonempty c ref id : means c ref id -> TrimSpace ref <> emp.
Proof. intros (_ & _ & _ & H) E. unfold MatchesRef in H. rewrite E, split_emp in H. done. Qed.
Lemma matches_name ref id1 id2 : MatchesRef id1 ref = true -> MatchesRef id2 ref = true -> ri_Name id1 = ri_Name id2.
Proof.
  unfold MatchesRef. destruct (last (splitRef ref)) as [name|]; [|done].
  destruct (decide (name <> ri_Name id1)) as [|H1]; [done|]. destruct (decide (name <> ri_Name id2)) as [|H2]; [done|]. intros _ _.
  apply dec_stable in H1, H2. congruence.
Qed.

(** A reference that means a resource resolves to it when names are not shared, whatever the catalog's order. *)
Lemma means_resolves c ref id : keyed c -> own_names c -> means c ref id ->
  exists binding, Catalog_Resolve c ref zero_ResourceID = Ok binding /\ ob_ID binding = id /\ c !! Address id = Some binding.
Proof.
  intros Hk Hn H. destruct (keyed_lookup c id Hk) as (binding & Hl & Hid); [by destruct H|]. exists binding. split; [|done].
  unfold Catalog_Resolve. case_decide as Hs; [apply map_size_empty_inv in Hs; by rewrite Hs in Hl|].
  assert (E : (Resolve (catalog_resolver (bindings_of c)) "operation" ref).2 = Ok id).
  { rewrite resolve_catalog, decide_False by (by eapply means_nonempty). unfold resolve_lookup.
    rewrite catalog_resolver_index. assert (Hall : forall d, d ∈ LookupRef (index_of (ids_of c)) "operation" (TrimSpace ref) -> d = id).
    { intros d (Hd & _ & _ & Hm)%elem_of_LookupRef. apply elem_of_ids in Hd as (key2 & binding2 & H2 & <-). pose proof (Hk _ _ H2) as ->.
      rewrite (Hn _ _ _ _ H2 Hl) in H2; [congruence|]. rewrite Hid. eapply matches_name; [exact Hm|]. by destruct H as (_ & _ & _ & ?). }
    pose proof (LookupRef_nodup (ids_of c) "operation" (TrimSpace ref)) as Hnd. apply elem_of_LookupRef in H.
    destruct (LookupRef _ _ _) as [|x [|y l]]; [by apply elem_of_nil in H|by rewrite (Hall x) by (by left)|].
    rewrite (Hall x), (Hall y) in Hnd by (repeat constructor). apply NoDup_cons in Hnd as [Hnd _]. destruct Hnd. by left. }
  unfold catalog_id. fold (bindings_of c). cbn [ID_IsZero zero_ResourceID]. change (ID_IsZero zero_ResourceID) with true. cbv iota. by rewrite E, Hl.
Qed.
Lemma resolved_means c ref scope binding : keyed c -> clean_names c -> Catalog_Resolve c ref scope = Ok binding ->
  means c ref (ob_ID binding) /\ c !! Address (ob_ID binding) = Some binding.
Proof.
  intros Hk Hc. unfold Catalog_Resolve. case_decide; [done|]. fold (bindings_of c). destruct (catalog_id (bindings_of c) ref scope) as [id|] eqn:E; [|done].
  destruct (c !! Address id) as [b|] eqn:El; [|done]. intros [= ->].
  assert (Hm : means c ref id).
  { unfold catalog_id in E. destruct (ID_IsZero scope); [by apply resolve_means|by eapply scope_means]. }
  destruct (keyed_lookup c id Hk) as (b & Hb & <-); [by destruct Hm|]. rewrite El in Hb. injection Hb as <-. done.
Qed.

(** C30: Without a scope a reference resolves to the operation it matches in the origin of the best
    precedence, when there is one such match, whatever order the catalog is iterated in. *)
Theorem catalog_resolution_exact c ref binding : keyed c ->
  Catalog_Resolve c ref zero_ResourceID = Ok binding <->
  c !! Address (ob_ID binding) = Some binding /\
  best_match DefaultPrecedenceOrder (ids_of c) "operation" (TrimSpace ref) (ob_ID binding).
Proof.
  intros Hk. pose proof (fun id => lookup_best [] (ids_of c) "operation" (TrimSpace ref) ∅ ∅ id) as Hbest. cbn [policy_order] in Hbest.
  assert (Hr : forall id, (Resolve (catalog_resolver (bindings_of c)) "operation" ref).2 = Ok id <-> best_match DefaultPrecedenceOrder (ids_of c) "operation" (TrimSpace ref) id).
  { intros id. rewrite resolve_catalog, <- Hbest. case_decide as He; [|done]. rewrite Hbest. split; [done|].
    intros [Hm%means_nonempty _]. done. }
  unfold Catalog_Resolve. fold (bindings_of c). unfold catalog_id. change (ID_IsZero zero_ResourceID) with true. cbv iota. split.
  - case_decide; [done|]. destruct (Resolve _ _ _).2 as [id|]; [|done]. pose proof (proj1 (Hr id) eq_refl) as E. destruct (c !! Address id) as [b|] eqn:El; [|done].
    intros ->%Ok_inj. destruct (keyed_lookup c id Hk) as (b & Hb & <-); [by destruct E as [[? _] _]|]. by rewrite El in Hb; injection Hb as <-.
  - intros [Hl Hm]. case_decide as Hs; [apply map_size_empty_inv in Hs; by rewrite Hs in Hl|]. apply Hr in Hm. by rewrite Hm, Hl.
Qed.

(** ** Filtered catalogs *)

(** An operation as its constructors make it. *)
Definition named_ok op : Prop :=
  match op with
  | Plain _ _ _ _ => True
  | NamedInstances kind instances _ => kind <> emp /\ TrimSpace kind = kind /\ arranged instances
  end.
Lemma aggregate_ok kind bs op : TrimSpace kind <> emp -> AggregateNamedInstances kind bs = Some op -> named_ok op.
Proof.
  intros Hk. unfold AggregateNamedInstances. pose proof (clean_arranged bs) as H. destruct (cleanNamedInstances bs) as [|[n o] l]; [done|].
  rewrite decide_False by done. intros [= <-]. split; [done|]. split; [apply TrimSpace_idem|done].
Qed.
Lemma filtered_fixed cfg op op' : named_ok op ->
  filteredNamedPluginOperation cfg op = Some op' -> filteredNamedPluginOperation cfg op' = Some op'.
Proof.
  destruct op as [|kind instances force]; [by intros _ [= <-]|]. intros (Hne & Ht & Ha). unfold filteredNamedPluginOperation at 1.
  case_decide as Hs; [intros [= <-]; cbn [filteredNamedPluginOperation]; by rewrite decide_True|].
  destruct (cf_NamedPluginInstances cfg !! kind) as [allowed|] eqn:E; [|intros [= <-]; cbn [filteredNamedPluginOperation]; by rewrite decide_False, E].
  set (p := fun name => default false (allowed !! name)). set (kept := List.filter (fun b => p (ni_Instance b)) instances).
  assert (Hkept : arranged kept) by (by apply (filter_arranged p)).
  assert (Htwice : List.filter (fun b => p (ni_Instance b)) kept = kept).
  { apply forallb_filter_id, forallb_forall. by intros b [_ Hb]%filter_In. }
  unfold FilterNamedInstances, AggregateNamedInstances. fold kept. rewrite (clean_same kept Hkept), Ht.
  destruct kept as [|[n o] l] eqn:Ek; [done|]. rewrite decide_False by done. intros [= <-].
  cbn [filteredNamedPluginOperation]. rewrite decide_False, E by done. unfold FilterNamedInstances, AggregateNamedInstances.
  change (fun b => default false (allowed !! ni_Instance b)) with (fun b => p (ni_Instance b)). rewrite Htwice.
  change (map _ (mkInstance n o :: l)) with (as_bindings (mkInstance n o :: l)). rewrite (clean_same _ Hkept), Ht, decide_False by done.
  assert (Hl : length (mkInstance n o :: l) <= length instances) by (rewrite <- Ek; apply List.filter_length_le).
  do 2 f_equal. destruct (Nat.ltb_spec 1 (length (mkInstance n o :: l))); [|done]. by rewrite (proj2 (Nat.ltb_lt 1 (length instances))) by lia.
Qed.

Lemma filter_lookup cfg ops key binding' :
  FilterOperationCatalog cfg ops !! key = Some binding' ->
  exists binding, ops !! key = Some binding /\ ob_ID binding' = ob_ID binding /\
    filteredNamedPluginOperation cfg (ob_Operation binding) = Some (ob_Operation binding').
Proof.
  unfold FilterOperationCatalog. case_decide as Hs.
  - intros H. exists binding'. split; [done|]. split; [done|]. unfold filteredNamedPluginOperation. destruct (ob_Operation binding'); [done|].
    destruct Hs as [Hs|Hs]; [apply map_size_empty_inv in Hs; by rewrite Hs in H|]. by rewrite decide_True.
  - rewrite lookup_omap. intros (binding & H & (op & Hop & ->)%fmap_Some)%bind_Some. by exists binding.
Qed.

(** What a service starts from: the operations of an application, of which it keeps the allowed instances. *)
Record catalog_ok ops : Prop := {
  co_keyed : keyed ops; co_own : own_names ops; co_clean : clean_names ops;
  co_named : map_Forall (fun _ binding => named_ok (ob_Operation binding)) ops
}.
Lemma filter_ok cfg ops : catalog_ok ops -> keyed (FilterOperationCatalog cfg ops) /\ own_names (FilterOperationCatalog cfg ops).
Proof.
  intros [Hk Ho _ _]. split.
  - intros key binding (b & Hb & -> & _)%filter_lookup. by apply (Hk _ _ Hb).
  - intros key1 key2 binding1 binding2 (b1 & H1 & -> & _)%filter_lookup (b2 & H2 & -> & _)%filter_lookup. by apply (Ho _ _ _ _ H1 H2).
Qed.
Lemma filter_means cfg ops ref id : catalog_ok ops -> means ops ref id ->
  is_Some (FilterOperationCatalog cfg ops !! Address id) -> means (FilterOperationCatalog cfg ops) ref id.
Proof.
  intros [Hk _ _ _] (Hin & Hrest) [b' Hb']. split; [|done]. apply elem_of_ids. exists (Address id), b'. split; [done|].
  destruct (filter_lookup _ _ _ _ Hb') as (b & Hb & -> & _). destruct (keyed_lookup ops id Hk Hin) as (b2 & H2 & <-). congruence.
Qed.

(** ** Collected catalogs *)

Definition bound_operation (p : ResourceSource * Operation) : OperationBinding :=
  mkOperationBinding (DeriveResourceID p.1 "operation" (operation_name p.2)) p.2.
Definition by_address (bindings : list OperationBinding) : list (string * OperationBinding) := (fun b => (Address (ob_ID b), b)) <$> bindings.
Lemma add_operations_exact pairs c index : 
  let bindings := bound_operation <$> pairs in
  match add_operations pairs (c, index) with
  | Ok (c', index') =>
      NoDup (by_address bindings).*1 /\ Forall (fun b => ri_Name (ob_ID b) <> emp /\ c !! Address (ob_ID b) = None) bindings /\
      c' = list_to_map (by_address bindings) ∪ c /\ index' = fold_left index_Add (ob_ID <$> bindings) index
  | Err _ => ~ (NoDup (by_address bindings).*1 /\ Forall (fun b => ri_Name (ob_ID b) <> emp /\ c !! Address (ob_ID b) = None) bindings)
  end.
Proof.
  revert c index. induction pairs as [|[source op] pairs IH]; intros c index; cbn [add_operations].
  { split; [constructor|]. split; [constructor|]. split; [|done]. cbn. by rewrite (left_id_L ∅ (∪)). }
  set (b := bound_operation (source, op)). change (DeriveResourceID source "operation" (operation_name op)) with (ob_ID b). unfold addOperation.
  cbn [fmap list_fmap]. fold b. cbn [by_address fmap list_fmap fst].
  case_decide as Hne; [cbn; intros [_ [[? _] _]%Forall_cons]; done|].
  destruct (c !! Address (ob_ID b)) eqn:El; [cbn; intros [_ [[_ ?] _]%Forall_cons]; congruence|]. cbn [res_bind].
  change (mkOperationBinding (ob_ID b) op) with b. specialize (IH (<[Address (ob_ID b) := b]> c) (index_Add index (ob_ID b))). cbv zeta in IH.
  assert (Hiff : forall l, Address (ob_ID b) ∉ (by_address l).*1 ->
    Forall (fun x => ri_Name (ob_ID x) <> emp /\ c !! Address (ob_ID x) = None) l -> Forall (fun x => ri_Name (ob_ID x) <> emp /\ <[Address (ob_ID b) := b]> c !! Address (ob_ID x) = None) l).
  { intros l Hnin H. rewrite Forall_forall in H |- *. intros x Hx. destruct (H x Hx). split; [done|]. rewrite lookup_insert_ne; [done|]. intros E. apply Hnin.
    rewrite E. unfold by_address. rewrite <- list_fmap_compose. by apply (list_elem_of_fmap_2 (fun b => Address (ob_ID b))). }
  destruct (add_operations pairs _) as [[c' index']|e].
  - destruct IH as (Hnd & Hall & -> & ->). assert (Hnin : Address (ob_ID b) ∉ (by_address (bound_operation <$> pairs)).*1).
    { unfold by_address. rewrite <- list_fmap_compose. intros (x & E & Hx)%list_elem_of_fmap. rewrite Forall_forall in Hall. destruct (Hall x Hx) as [_ Hn].
      cbn in E. rewrite <- E, lookup_insert_eq in Hn. done. }
    split; [by constructor|]. split; [constructor; [done|]|].
    + eapply Forall_impl; [exact Hall|]. intros x [? [? _]%lookup_insert_None]. done.
    + split; [|done]. cbn. rewrite <- insert_union_l. rewrite insert_union_r; [done|]. by apply not_elem_of_list_to_map_1.
  - intros [[Hnin Hnd]%NoDup_cons [_ Hall]%Forall_cons]. apply IH. split; [done|]. by apply Hiff.
Qed.

Definition contributed (explicit : list Operation) (plugins : list (ResourceSource * Operation)) : list OperationBinding :=
  bound_operation <$> (map (fun op => (explicit_source, op)) explicit ++ aggregateNamedPluginOperations plugins).
Lemma by_address_lookup bindings key binding : NoDup (by_address bindings).*1 ->
  (list_to_map (by_address bindings) : OperationCatalog) !! key = Some binding <-> binding ∈ bindings /\ key = Address (ob_ID binding).
Proof.
  intros Hnd. rewrite <- elem_of_list_to_map by done. unfold by_address. rewrite list_elem_of_fmap. split.
  - by intros (b & [= -> ->] & Hb).
  - intros [Hb ->]. by exists binding.
Qed.

(** An application's catalog has exactly the operations it was given and those of its plugins, with the
    instances of a plugin's operation as one, each under the address of the identity derived for it; it is
    refused when a name is empty or two of them have the same address, and only then. *)
Theorem collected_operations_exact index explicit plugins :
  let addresses_own := NoDup ((fun b => Address (ob_ID b)) <$> contributed explicit plugins) /\
    Forall (fun b => ri_Name (ob_ID b) <> emp) (contributed explicit plugins) in
  match collectOperations index explicit plugins with
  | Ok (catalog, index', _) => addresses_own /\ index' = fold_left index_Add (ob_ID <$> contributed explicit plugins) index /\
      forall key binding, catalog !! key = Some binding <-> binding ∈ contributed explicit plugins /\ key = Address (ob_ID binding)
  | Err _ => ~ addresses_own
  end.
Proof.
  cbv zeta. unfold collectOperations. pose proof (add_operations_exact (map (fun op => (explicit_source, op)) explicit ++ aggregateNamedPluginOperations plugins) ∅ index) as H.
  cbv zeta in H. fold (contributed explicit plugins) in H. assert (E : (by_address (contributed explicit plugins)).*1 = (fun b => Address (ob_ID b)) <$> contributed explicit plugins).
  { unfold by_address. by rewrite <- list_fmap_compose. }
  destruct (add_operations _ _) as [[catalog index']|e]; cbn [res_bind]; rewrite E in H.
  - destruct H as (Hnd & Hall & -> & ->). split; [split; [done|]|].
    + eapply Forall_impl; [exact Hall|]. by intros b [? _].
    + split; [done|]. intros key binding. rewrite (right_id_L ∅ (∪)). apply by_address_lookup. by rewrite E.
  - intros [Hnd Hall]. apply H. split; [done|]. eapply Forall_impl; [exact Hall|]. done.
Qed.

(** Operations stay as constructors make them when instances are aggregated. *)
Lemma group_ok group : Forall (fun p => named_ok p.2) group -> Forall (fun p => named_ok p.2) (aggregate_group group).
Proof.
  intros Hg. unfold aggregate_group. destruct group as [|first group]; [constructor|]. cbv zeta. case_decide as Hk; [done|]. apply Forall_app. split.
  - rewrite Forall_forall in Hg |- *. intros p [Hin _]%list_elem_of_List_filter. by apply Hg.
  - destruct (AggregateNamedInstances _ _) as [op|] eqn:E; [|constructor]. constructor; [|constructor]. cbn. eapply aggregate_ok; [|exact E].
    unfold plugin_kind in *. by rewrite TrimSpace_idem.
Qed.
Lemma aggregated_ok plugins : Forall (fun p => named_ok p.2) plugins -> Forall (fun p => named_ok p.2) (aggregateNamedPluginOperations plugins).
Proof.
  intros Hp. unfold aggregateNamedPluginOperations. apply Forall_bind, Forall_forall. intros key _. apply group_ok.
  rewrite Forall_forall in Hp |- *. intros p [Hin _]%list_elem_of_List_filter. by apply Hp.
Qed.
Lemma collected_catalog_ok index explicit plugins catalog index' registered :
  collectOperations index explicit plugins = Ok (catalog, index', registered) -> Forall named_ok explicit -> Forall (fun p => named_ok p.2) plugins ->
  Forall (fun b => free_of colon (operation_name (ob_Operation b))) (contributed explicit plugins) -> own_names catalog -> catalog_ok catalog.
Proof.
  unfold collectOperations. intros ([c i] & H & [= <- _ _])%res_bind_ok He Hp Hcolon Hown.
  pose proof (add_operations_exact (map (fun op => (explicit_source, op)) explicit ++ aggregateNamedPluginOperations plugins) ∅ index) as Hx.
  cbv zeta in Hx. rewrite H in Hx. fold (contributed explicit plugins) in Hx. destruct Hx as (Hnd & Hall & -> & _).
  assert (Hb : forall key b, (list_to_map (by_address (contributed explicit plugins)) ∪ ∅ : OperationCatalog) !! key = Some b -> b ∈ contributed explicit plugins /\ key = Address (ob_ID b)).
  { intros key b. rewrite (right_id_L ∅ (∪)). by apply by_address_lookup. }
  assert (Hpairs : forall b, b ∈ contributed explicit plugins -> exists p, b = bound_operation p /\ named_ok p.2).
  { unfold contributed. intros b (p & -> & Hin)%list_elem_of_fmap. exists p. split; [done|]. apply elem_of_app in Hin as [Hin|Hin].
    - apply list_elem_of_In, in_map_iff in Hin as (op & <- & Hin%list_elem_of_In). rewrite Forall_forall in He. by apply He.
    - pose proof (aggregated_ok plugins Hp) as Ha. rewrite Forall_forall in Ha. by apply Ha. }
  rewrite Forall_forall in Hall, Hcolon. split; [|done| |].
  - by intros key b [_ ?]%Hb.
  - intros key b [Hin _]%Hb. destruct (Hall _ Hin) as [Hne _]. specialize (Hcolon _ Hin). destruct (Hpairs _ Hin) as (p & -> & _).
    split; [split; [done|apply TrimSpace_idem]|by apply free_of_trim].
  - intros key b [Hin _]%Hb. by destruct (Hpairs _ Hin) as (p & -> & ?).
Qed.

(** ** Tools *)

Definition projectable cfg op : Prop := checkOperation cfg (OpSpec op) = None.
(** The session runs a checked operation for a reference. *)
Definition runs_checked cfg (surface : string -> Operation) (registry : option (OpRef -> option Operation)) (ref : OpRef) : Prop :=
  exists op, operation_to_run surface (cf_Operations cfg) registry ref = Ok op /\ projectable cfg op.
(** No operation of a catalog is meant by the name of an operation of the session's surface. *)
Definition no_surface_names c : Prop := forall (ref : OpRef) id, means c (Ref_String ref) id -> ref_Name ref ∉ surface_names.
(** The operations a tool may ask for. *)
Definition tool_targets (tool : CoreTool) : list (option OpRef) :=
  target_operation (ct_Target tool) :: match ct_Dispatch tool with Some d => map (fun x => target_operation (ac_Target x)) (dp_Cases d) | None => [] end.
Definition tool_checked cfg surface registry (tool : CoreTool) : Prop := forall ref : OpRef, Some ref ∈ tool_targets tool -> runs_checked cfg surface registry ref.

Lemma bound_runs cfg surface registry (ref : OpRef) id binding :
  keyed (cf_Operations cfg) -> own_names (cf_Operations cfg) -> no_surface_names (cf_Operations cfg) -> means (cf_Operations cfg) (Ref_String ref) id ->
  cf_Operations cfg !! Address id = Some binding -> projectable cfg (ob_Operation binding) -> runs_checked cfg surface registry ref.
Proof.
  intros Hk Ho Hs Hm Hl Hp. destruct (means_resolves _ _ _ Hk Ho Hm) as (b & Hr & <- & Hb). assert (b = binding) as -> by congruence.
  exists (ob_Operation binding). split; [|done]. unfold operation_to_run, surfaceOperation. rewrite decide_False by (by eapply Hs).
  rewrite Hr, decide_True; [done|].
  assert (size (cf_Operations cfg) <> 0); [|lia]. intros E%map_size_empty_inv. by rewrite E in Hl.
Qed.

Section Tools.
Context (cfg : ProjectionConfig) (surface : string -> Operation) (registry : option (OpRef -> option Operation)) (ops : OperationCatalog)
  (Hops : catalog_ok ops) (Hsurface : no_surface_names ops) (Hcfg : cf_Operations cfg = FilterOperationCatalog cfg ops).

Lemma cfg_keyed : keyed (cf_Operations cfg).
Proof. rewrite Hcfg. by apply filter_ok. Qed.
Lemma cfg_own : own_names (cf_Operations cfg).
Proof. rewrite Hcfg. by apply filter_ok. Qed.
Lemma cfg_clean : clean_names (cf_Operations cfg).
Proof. intros key binding. rewrite Hcfg. intros (b & Hb & -> & _)%filter_lookup. by apply (co_clean _ Hops _ _ Hb). Qed.

Lemma cfg_surface : no_surface_names (cf_Operations cfg).
Proof.
  intros ref id (Hin & Hrest). apply (Hsurface ref id). split; [|done]. rewrite Hcfg in Hin. apply elem_of_ids in Hin as (key & b' & Hb & <-).
  apply filter_lookup in Hb as (b & Hb & -> & _). apply elem_of_ids. by exists key, b.
Qed.

Lemma cases_checked scope cases out :
  project_cases cfg scope cases = Ok out -> Forall (fun x => forall ref : OpRef, target_operation (ac_Target x) = Some ref -> runs_checked cfg surface registry ref) (map fst out).
Proof.
  revert out. induction cases as [|x cases IH]; intros out; cbn [project_cases]; [intros [= <-]; constructor|].
  destruct (decide (tt_Kind (ac_Target x) <> TargetOperation)) as [|Hkind]; [done|]. case_decide; [done|].
  destruct (Catalog_Resolve _ _ scope) as [binding|] eqn:E; [|done]. destruct (checkOperation cfg _) eqn:Ec; [done|].
  intros (rest & Hr & [= <-])%res_bind_ok. constructor; [|by apply IH]. cbn. intros ref. unfold target_operation. case_decide; [|done]. intros [= <-].
  apply resolved_means in E as [Hm Hl]; [|exact cfg_keyed|exact cfg_clean]. by eapply bound_runs; [exact cfg_keyed|exact cfg_own|exact cfg_surface|exact Hm|exact Hl|].
Qed.
Lemma tool_set_checked (binding : ToolSetBinding) tool covered : projectToolSet cfg binding = Ok (tool, covered) -> tool_checked cfg surface registry tool.
Proof.
  unfold projectToolSet. destruct (sb_Spec binding) as [spec|]; [|done]. destruct (sx_Action spec) as [action|]; [|done].
  destruct (ActionProjection_Validate action); [done|]. intros (cases & Hc & [= <- <-])%res_bind_ok ref. unfold tool_targets. cbn.
  intros [[=]|Hin]%elem_of_cons. apply cases_checked in Hc. apply list_elem_of_fmap in Hin as (x & E & Hin). rewrite Forall_forall in Hc. by apply (Hc x Hin).
Qed.
Lemma operation_checked key binding tool :
  cf_Operations cfg !! key = Some binding -> ri_Kind (ob_ID binding) = "operation"%string ->
  ri_Name (ob_ID binding) = Ref_String (sp_Ref (OpSpec (ob_Operation binding))) ->
  projectOperation cfg binding = Ok tool -> tool_checked cfg surface registry tool.
Proof.
  intros Hl Hkind Hname. pose proof (cfg_keyed _ _ Hl) as Hkey. destruct (cfg_clean _ _ Hl) as [[Hne Ht] Hf]. unfold projectOperation.
  assert (E : filteredNamedPluginOperation cfg (ob_Operation binding) = Some (ob_Operation binding)).
  { rewrite Hcfg in Hl. apply filter_lookup in Hl as (b & Hb & _ & Hop). eapply filtered_fixed; [|exact Hop]. by apply (co_named _ Hops _ _ Hb). }
  rewrite E. destruct (checkOperation cfg _) eqn:Ec; [done|]. intros [= <-] ref. unfold tool_targets. cbn. intros [[= ->]|Hin]%elem_of_cons; [|by apply elem_of_nil in Hin].
  eapply bound_runs; [exact cfg_keyed|exact cfg_own|exact cfg_surface| |by rewrite Hkey in Hl|exact Ec]. rewrite <- Hname.
  unfold means, matches. rewrite Ht. split; [apply elem_of_ids; by exists key, binding|]. split; [done|]. split; [by right|].
  unfold MatchesRef. rewrite split_name by done. cbn [last removelast]. by rewrite decide_False by (by intros []).
Qed.
(** A command as it was bound in the catalog of the application. *)
Definition command_bound (binding : CommandBinding) : Prop := exists resolver,
  (resolveCommandTarget resolver ops (cb_ID binding) (cb_Spec binding)).2 = Ok (cb_TargetID binding, cb_OperationID binding).
Lemma command_checked (binding : CommandBinding) tool : command_bound binding -> projectCommand cfg binding = Ok tool -> tool_checked cfg surface registry tool.
Proof.
  intros [resolver Hb]. unfold projectCommand. case_decide; [done|]. case_decide; [done|]. destruct (_ && _); [done|].
  intros (u & Hcheck & [= <-])%res_bind_ok ref. unfold tool_targets. cbn. intros [Href|Hin]%elem_of_cons; [|by apply elem_of_nil in Hin].
  unfold target_operation in Href. case_decide as Hk; [|done]. injection Href as ->. unfold resolveCommandTarget in Hb. rewrite Hk in Hb. cbn in Hb.
  case_decide; [done|]. destruct (Catalog_Resolve ops _ _) as [ob|] eqn:E; [|done]. injection Hb as Ht Ho.
  apply resolved_means in E as [Hm Hl]; [|apply Hops..]. rewrite <- Ho, <- Ht in Hcheck.
  replace (if ID_IsZero (ob_ID ob) then ob_ID ob else ob_ID ob) with (ob_ID ob) in Hcheck by (by destruct (ID_IsZero _)).
  destruct (cf_Operations cfg !! Address (ob_ID ob)) as [b|] eqn:Eb; [|done]. destruct (checkOperation cfg _) eqn:Ec; [done|].
  eapply bound_runs; [exact cfg_keyed|exact cfg_own|exact cfg_surface| |exact Eb|exact Ec]. rewrite Hcfg. apply filter_means; [done|done|]. rewrite <- Hcfg. by eexists.
Qed.

(** The loops of the projection keep what holds of every tool, whatever its name becomes. *)
Definition tools_checked (s : ProjectState) : Prop := Forall (tool_checked cfg surface registry) (pj_Tools (ps_Out s)).
Lemma add_checked s tool covered : tools_checked s -> tool_checked cfg surface registry tool -> tools_checked (add_tool s tool covered).
Proof.
  unfold tools_checked, add_tool. destruct (uniqueName _ _) as [name used]. cbn. intros Hs Ht. apply Forall_app. split; [done|].
  constructor; [exact Ht|constructor].
Qed.
Lemma fold_checked {A} (f : ProjectState -> A -> ProjectState) l s :
  (forall s x, x ∈ l -> tools_checked s -> tools_checked (f s x)) -> tools_checked s -> tools_checked (fold_left f l s).
Proof.
  revert s. induction l as [|x l IH]; intros s Hf Hs; [done|]. cbn. apply IH; [|by apply Hf; [left|]]. intros s' y Hy. apply Hf. by right.
Qed.
Lemma elem_of_sorted {A} (m : gmap string A) x : x ∈ sorted_values m -> exists key, m !! key = Some x.
Proof. unfold sorted_values. intros (key & _ & H)%list_elem_of_omap. by exists key. Qed.

(** Operations are named by their references. *)
Definition named_by_refs (c : OperationCatalog) : Prop := map_Forall (fun _ binding =>
  ri_Kind (ob_ID binding) = "operation"%string /\ ri_Name (ob_ID binding) = Ref_String (sp_Ref (OpSpec (ob_Operation binding)))) c.
Lemma project_checked : named_by_refs (cf_Operations cfg) -> map_Forall (fun _ => command_bound) (cf_Commands cfg) ->
  tm_Kind (cf_Trust cfg) <> emp -> Forall (tool_checked cfg surface registry) (pj_Tools (Project cfg)).
Proof.
  intros Hrefs Hcommands Htrust. unfold Project. rewrite decide_False by done. set (s0 := mkProjectState _ ∅ ∅).
  assert (H1 : tools_checked (fold_left (project_command cfg) (sorted_values (cf_Commands cfg)) s0)).
  { apply fold_checked; [|by constructor]. intros s x (key & Hx)%elem_of_sorted Hs. unfold project_command.
    destruct (projectCommand cfg x) as [tool|] eqn:E; [|exact Hs]. apply add_checked; [done|]. eapply command_checked; [by apply (Hcommands _ _ Hx)|done]. }
  assert (H2 : tools_checked (fold_left (project_tool_set cfg) (sorted_values (cf_ToolSets cfg)) (fold_left (project_command cfg) (sorted_values (cf_Commands cfg)) s0))).
  { apply fold_checked; [|done]. intros s x _ Hs. unfold project_tool_set.
    destruct (projectToolSet cfg x) as [[tool covered]|] eqn:E; [|exact Hs]. apply add_checked; [done|]. by eapply tool_set_checked. }
  destruct (cf_IncludeBareOperations cfg); [|exact H2]. apply fold_checked; [|exact H2]. intros s x (key & Hx)%elem_of_sorted Hs. unfold project_operation.
  destruct (_ && _); [done|]. case_decide; [done|]. destruct (projectOperation cfg x) as [tool|] eqn:E; [|exact Hs].
  destruct (Hrefs _ _ Hx). apply add_checked; [done|]. by eapply operation_checked.
Qed.
End Tools.

(** ** Bound commands *)

Lemma add_commands_bound ops specs s s' :
  add_commands ops specs s = Ok s' -> map_Forall (fun _ => command_bound ops) (ct_catalog s) -> map_Forall (fun _ => command_bound ops) (ct_catalog s').
Proof.
  revert s. induction specs as [|[source spec] specs IH]; intros s; cbn [add_commands]; [by intros [= <-]|]. set (id := commandResourceID source spec).
  set (resolver := _ <| rv_index := _ |>). destruct (resolveCommandTarget resolver ops id spec) as [resolver' [[targetID operationID]|]] eqn:Er; [|done].
  cbn [res_bind]. intros (catalog & Hc & H)%res_bind_ok Hs. apply (IH _ H). cbn. unfold addCommand in Hc. case_decide; [done|].
  destruct (ct_catalog s !! Address id); [done|]. apply Ok_inj in Hc as <-. apply map_Forall_insert_2; [|done]. exists resolver. cbn. by rewrite Er.
Qed.
Lemma collected_bound bundles resolver ops registry commands resolver' :
  collectCommands bundles resolver ops = Ok (registry, commands, resolver') -> map_Forall (fun _ => command_bound ops) commands.
Proof.
  unfold collectCommands. intros (s & Hs & (r & _ & [= _ <- _])%res_bind_ok)%res_bind_ok. by eapply add_commands_bound.
Qed.

(** ** Requests *)

Lemma projected_target specs (ref : OpRef) : operationProjected (session_tool <$> specs) ref = true -> exists tool, tool ∈ specs /\ Some ref ∈ tool_targets tool.
Proof.
  unfold operationProjected. intros (t & Hin & H)%existsb_exists. apply list_elem_of_In, list_elem_of_fmap in Hin as (tool & -> & Hin).
  exists tool. split; [done|]. unfold tool_targets. apply orb_true_iff in H as [H|H].
  - apply bool_decide_eq_true in H. cbn in H. rewrite H. by left.
  - right. cbn in H. apply existsb_exists in H as (target & Ht & H). apply bool_decide_eq_true in H as ->. by apply list_elem_of_In.
Qed.

(** C22: Whatever a model streams, each operation its calls ask for is looked up again by the session to an
    operation that the projection found safe and authorized, when the operations of the catalog have names
    of their own, which are not those of the session's surface: the catalog is the one the service filters,
    and its commands are those the application bound. *)
Theorem projected_requests_checked cfg ops surface registry bundles resolver specs resolver' tools evts reqs :
  catalog_ok ops -> no_surface_names ops -> cf_Operations cfg = FilterOperationCatalog cfg ops -> named_by_refs (cf_Operations cfg) ->
  collectCommands bundles resolver ops = Ok (specs, cf_Commands cfg, resolver') ->
  ToolsFromCore (pj_Tools (ProjectForAgent cfg)) = Ok tools -> (apply_events (NewToolCallAssembler tools) evts).2 = Ok reqs ->
  Forall (fun req => runs_checked cfg surface registry (oq_Operation req)) reqs.
Proof.
  intros Hops Hsurface Hcfg Hrefs Hc%collected_bound Htools. rewrite (proj1 (apply_events_gathered _ [] evts (gathered_new tools))). intros Hreqs%requests_from.
  eapply Forall_impl; [exact Hreqs|]. intros req [call Hcall]. eapply request_projected in Hcall; [|exact Htools].
  apply projected_target in Hcall as (tool & Hin & Ht). unfold ProjectForAgent in Hin. cbv zeta in Hin. revert Hin.
  set (cfg1 := if decide (ca_Kind (cf_Caller cfg) = emp) then _ else _). set (cfg2 := cfg1 <| cf_Trust := _ |>). intros Hin.
  assert (E : cf_Operations cfg2 = cf_Operations cfg /\ FilterOperationCatalog cfg2 ops = FilterOperationCatalog cfg ops /\
    cf_Commands cfg2 = cf_Commands cfg /\ tm_Kind (cf_Trust cfg2) <> emp).
  { unfold cfg2, cfg1. destruct (decide (ca_Kind _ = emp)); cbn; (split; [done|]; split; [done|]; split; [done|]); by case_decide. }
  destruct E as (E1 & E2 & E3 & E4). pose proof (project_checked cfg2 surface registry ops Hops Hsurface) as H. rewrite E1, E2, E3 in H. specialize (H Hcfg Hrefs Hc E4).
  rewrite Forall_forall in H. destruct (H tool Hin _ Ht) as (op & Hr & Hp). exists op. split; [by rewrite <- E1|].
  revert Hp. unfold cfg2, cfg1. by destruct (decide (ca_Kind _ = emp)).
Qed.
End Projected.

(** * An application's catalog on concrete inputs

    An operation of the host, one that two instances of a plugin contribute, a command bound to the first
    and a tool set over both; what a model may call of them, and two catalogs that surprise. *)

From stdpp Require Import pretty.
From S2P Require Import Executor ModelStream.
Import OpDemo.

(** Names of their own, decided on the list of names. *)
Lemma own_names_nodup `{OT : OperationTypes} `{PT : PolicyTypes} {OA : OperationApi} (c : gmap string OperationBinding) :
  NoDup (ri_Name <$> ids_of c) -> own_names c.
Proof.
  unfold ids_of, bindings_of. intros H key1 key2 b1 b2 H1%elem_of_map_to_list H2%elem_of_map_to_list Hn.
  rewrite <- !list_fmap_compose in H. pose proof (nodup_fmap_inj _ _ _ _ H H1 H2 Hn) as E. congruence.
Qed.

Module CatalogDemo.
(** A policy of invocations is its decision; operations without effects read only. *)
#[export] Instance invocations : InvocationModule := {
  InvocationPolicy := OpModel.Decision;
  EvaluateInvocation decision caller trust := mkEvaluation decision "policy"
}.
#[export] Instance names : OperationNames := {
  Semantics_ReadOnly semantics := match sem_Effects semantics with [] => true | _ => false end;
  Ref_String := ref_Name
}.
#[export] Instance tool_set_texts : ToolSetTexts := { tool_set_error_text _ := "invalid tool set"%string }.
#[export] Instance operation_texts : OperationTexts := { Operation_Description _ := emp }.
(** The arguments of a call are the action they name. *)
#[export] Instance arguments : JsonDecode := { decode_any raw := Ok (VMap {[ "action"%string := VString raw ]}) }.

Definition plain_op (name : string) (risk : RiskLevel) (effects : list Effect) : Operation := Plain (spec name risk effects) echo None None.
Definition instance_op (kind instance : string) (op : Operation) : Operation := default op (NewNamedInstance kind instance (Some op)).
Definition explicit : list Operation := [plain_op "echo" RiskLow []].
Definition jira (instance : string) : ResourceSource * Operation :=
  (mkSource ("plugin:jira:" ++ instance) "embedded" ScopeEmbedded "plugins/jira" emp, instance_op "jira" instance (plain_op "search" RiskLow []))%string.
Definition plugins : list (ResourceSource * Operation) := [jira "work"; jira "home"]%string.
Definition collected := collectOperations ∅ explicit plugins.
Definition operations : gmap string OperationBinding := match collected with Ok (c, _, _) => c | Err _ => ∅ end.
Definition project_source : ResourceSource := mkSource "app" emp ScopeProject "/srv/shop/app.yaml" emp.
Definition target (name : string) : Target := operation_target (mkOpRef name).
Definition say : CommandSpec := mkCommandSpec ["fs"; "say"]%string "says" (target "echo") no_type no_type DecisionAllow ∅.
Definition resolver : Resolver := NewResolver ∅ None ∅.
Definition commands : gmap string CommandBinding :=
  match collectCommands [(project_source, [say])] resolver operations with Ok (_, c, _) => c | Err _ => ∅ end.
Definition files : ToolSet := mkToolSet "files" "reads" []
  (Some (mkProjection "files" emp "action" no_type no_type [mkActionCase "say" (target "echo"); mkActionCase "find" (target "search")]))%string.
Definition tool_sets : gmap string ToolSetBinding := match collect_tool_sets [(project_source, files)] (∅, ∅) with Ok (c, _) => c | Err _ => ∅ end.

(** Only the instance [work] is allowed, and only the operations of the policy. *)
Definition base : ProjectionConfig := mkProjectionConfig ∅ commands tool_sets (mkCaller emp emp) (mkTrustClaim emp emp)
  (mkAuthContext _ [named_resource ResourceOperation "echo"; named_resource ResourceOperation "search"] [] tt)
  false false RiskUnset true true {[ "jira" := {[ "work" := true ]} ]}%string.
Definition shop : ProjectionConfig := base <| cf_Operations := FilterOperationCatalog base operations |>.
Definition tools : list ModelTool := match ToolsFromCore (pj_Tools (ProjectForAgent shop)) with Ok tools => tools | Err _ => [] end.

Example tool_names : ct_Name <$> pj_Tools (ProjectForAgent shop) = ["local_shop_say"; "files"]%string.
Proof. vm_compute. reflexivity. Qed.

(** ** The catalog *)

Lemma plain_named kind instance op : kind <> emp -> TrimSpace kind = kind -> instance <> emp -> TrimSpace instance = instance ->
  named_ok (instance_op kind instance op).
Proof.
  intros Hk Hkt Hi Hit. unfold instance_op, NewNamedInstance. rewrite Hkt, Hit, decide_False by done. cbn. split; [done|]. split; [done|].
  split; [by repeat constructor|apply NoDup_singleton|by repeat constructor].
Qed.
Lemma collected_ok : catalog_ok operations.
Proof.
  destruct collected as [[[c i] registered]|e] eqn:E; [|vm_compute in E; discriminate].
  unfold operations. rewrite E. apply (collected_catalog_ok ∅ explicit plugins c i registered E).
  - by repeat constructor.
  - repeat (apply Forall_cons; split; [by apply plain_named|]). constructor.
  - repeat (apply Forall_cons; split; [by vm_compute|]). constructor.
  - apply own_names_nodup. assert (c = operations) as -> by (unfold operations; by rewrite E).
    apply (bool_decide_unpack _). vm_compute. exact I.
Qed.
Lemma shop_named : named_by_refs (cf_Operations shop).
Proof. apply (bool_decide_unpack _). vm_compute. exact I. Qed.

Definition no_surface (name : string) : Operation := plain_op name RiskLow [].
Lemma shop_surface : no_surface_names operations.
Proof.
  intros [name] id (Hin & _ & _ & Hm) Hs. cbn [ref_Name Ref_String names] in Hm, Hs.
  assert (H : forallb (fun name => forallb (fun id => negb (MatchesRef id (TrimSpace name))) (ids_of operations)) surface_names = true) by (vm_compute; reflexivity).
  rewrite forallb_forall in H. apply list_elem_of_In in Hin, Hs. specialize (H _ Hs). rewrite forallb_forall in H. specialize (H _ Hin). by rewrite Hm in H.
Qed.

Definition calls : list StreamEvent := [done_event "local_shop_say" "call_1" 0 "hi"; done_event "files" "call_2" 1 "find"]%string.
(** A call of the command's tool and one of the tool set's action both run what was checked. *)
Lemma projected_requests_checked_witness : exists reqs,
  (apply_events (NewToolCallAssembler tools) calls).2 = Ok reqs /\ length reqs = 2 /\
  Forall (fun req => runs_checked shop no_surface None (oq_Operation req)) reqs.
Proof.
  destruct (apply_events (NewToolCallAssembler tools) calls).2 as [reqs|e] eqn:E; [|vm_compute in E; discriminate].
  exists reqs. split; [done|]. split.
  - assert (H : match (apply_events (NewToolCallAssembler tools) calls).2 with Ok reqs => length reqs = 2 | Err _ => False end) by (vm_compute; reflexivity).
    by rewrite E in H.
  - destruct (collectCommands [(project_source, [say])] resolver operations) as [[[registry c] r]|e] eqn:Ec; [|vm_compute in Ec; discriminate].
    apply (projected_requests_checked shop operations no_surface None [(project_source, [say])] resolver registry r tools calls reqs).
    + exact collected_ok.
    + exact shop_surface.
    + reflexivity.
    + exact shop_named.
    + assert (H : cf_Commands shop = c); [|by rewrite H]. change (commands = c). unfold commands. by rewrite Ec.
    + unfold tools. destruct (ToolsFromCore _) eqn:Et; [done|]. vm_compute in Et. discriminate.
    + exact E.
Defined.

Lemma catalog_resolution_exact_witness : exists binding,
  Catalog_Resolve operations " search" zero_ResourceID = Ok binding /\ Address (ob_ID binding) = "embedded:plugins/jira:search"%string /\
  best_match DefaultPrecedenceOrder (ids_of operations) "operation" (TrimSpace " search") (ob_ID binding).
Proof.
  destruct (Catalog_Resolve operations " search" zero_ResourceID) as [binding|e] eqn:E; [|vm_compute in E; discriminate].
  exists binding. split; [done|]. split.
  - assert (H : match Catalog_Resolve operations " search" zero_ResourceID with Ok b => Address (ob_ID b) = "embedded:plugins/jira:search"%string | Err _ => False end) by (vm_compute; reflexivity).
    by rewrite E in H.
  - apply (catalog_resolution_exact operations " search" binding); [apply collected_ok|exact E].
Defined.

(** ** Identities *)

Definition app_id : ResourceID := DeriveResourceID project_source "agent" " coder ".
Lemma derived_resolvable_witness : Address app_id = "local:shop:coder"%string /\ app_id ∈ LookupRef (index_of [app_id]) "agent" (Address app_id).
Proof.
  split; [vm_compute; reflexivity|]. apply (derived_resolvable project_source "agent" " coder " [app_id]); try by vm_compute.
  - by left.
  - by left.
Defined.

Definition known : list ResourceID := [app_id; mkResourceID "agent" "embedded" ["plugins"; "shop"] "coder"]%string.
Lemma known_addressable : Forall addressable known.
Proof. repeat (apply Forall_cons; split; [split; [by vm_compute|by repeat (apply Forall_cons; split; [by vm_compute|])|by vm_compute]|]). constructor. Qed.
Definition served : Resolver := NewResolver (index_of known) (Some (PrecedencePolicy [])) {[ "main" := "coder" ]}%string.
(** Two clients ask for the same agent by an alias and by name; a third answer is remembered. *)
Lemma resolver_transparent_witness : exists answers c,
  serves (mkClients served []) answers c /\ length answers = 3 /\ Forall (fun a => a.2 = resolve_lookup served a.1.1 a.1.2) answers.
Proof.
  eexists _, _. assert (H : serves (mkClients served [])
    ([("agent", "coder", Ok app_id); ("agent", "coder", Ok app_id); ("agent", "coder", Ok app_id)]%string)
    (mkClients (resolve_finish (resolve_finish served "agent" "coder").1 "agent" "coder").1 [])).
  { apply (serves_step _ None (mkClients served [("agent", "coder")]) [_; _; _]); [apply (step_wanted _ _ "agent" "main"); by vm_compute|].
    apply (serves_step _ None (mkClients served [("agent", "coder"); ("agent", "coder")]) [_; _; _]); [apply (step_wanted _ _ "agent" " coder"); by vm_compute|].
    eapply (serves_step _ (Some _) _ [_; _]); [apply (step_finish served [] [("agent", "coder")]); by vm_compute|]. cbn [app].
    eapply (serves_step _ (Some _) _ [_]); [apply (step_finish _ [] []); by vm_compute|]. cbn [app].
    eapply (serves_step _ (Some _) _ []); [|constructor]. apply (step_remembered _ _ "agent" "coder"); by vm_compute. }
  split; [exact H|]. split; [done|].
  exact (resolver_transparent known (PrecedencePolicy []) {[ "main" := "coder" ]}%string _ _ known_addressable (default_chooses []) H).
Defined.

(** ** Two catalogs that surprise *)

(** A plugin's own [read] is safe, the host's writes. *)
Definition plugin_read : OperationBinding := mkOperationBinding (mkResourceID "operation" "embedded" ["plugins"; "a"] "read")%string (plain_op "read" RiskLow []).
Definition host_read : OperationBinding := mkOperationBinding (mkResourceID "operation" "explicit" [] "read")%string (plain_op "read" RiskHigh [EffectDestructive]).
Definition shared : gmap string OperationBinding :=
  {[ Address (ob_ID plugin_read) := plugin_read; Address (ob_ID host_read) := host_read ]}.
Definition reader : ToolSet := mkToolSet "reader" "reads" [] (Some (mkProjection "reader" emp "action" no_type no_type [mkActionCase "read" (target "read")]))%string.
Definition reader_binding : ToolSetBinding := mkToolSetBinding (mkResourceID "tool_set" "embedded" ["plugins"; "a"] "reader")%string (Some reader).
Definition shared_cfg : ProjectionConfig := mkProjectionConfig shared ∅ {[ "reader"%string := reader_binding ]} (mkCaller emp emp) (mkTrustClaim emp emp)
  (mkAuthContext _ [] [] tt) false false RiskUnset false false ∅.
Definition shared_tools : list ModelTool := match ToolsFromCore (pj_Tools (Project shared_cfg)) with Ok tools => tools | Err _ => [] end.
Definition outcome : option (string * option string) :=
  match (apply_events (NewToolCallAssembler shared_tools) [done_event "reader" "call" 0 "read"]).2 with
  | Ok [req] =>
      match operation_to_run no_surface (cf_Operations shared_cfg) None (oq_Operation req) with
      | Ok op => Some (risk_text (sem_Risk (sp_Semantics (OpSpec op))), checkOperation shared_cfg (OpSpec op))
      | Err _ => None
      end
  | _ => None
  end.
(** The tool set is projected for the plugin's operation; a call of it is refused by no one and runs the host's. *)
Lemma scope_confusion : ct_Name <$> pj_Tools (Project shared_cfg) = ["reader"%string] /\ pj_Diagnostics (Project shared_cfg) = [] /\
  outcome = Some ("high"%string, Some "side_effecting_operation"%string).
Proof. vm_compute. done. Qed.

(** An instance the policy does not allow is not in the catalog of a session but in its registry: an activated
    operation of it is described to the model, and each call of it fails. *)
Definition unfiltered (ref : OpRef) : option Operation := if decide (ref_Name ref = "archive"%string) then Some (plain_op "archive" RiskLow []) else None.
Lemma described_never_runs :
  resolveOperation (cf_Operations shop) (Some unfiltered) (mkOpRef "archive") = Some (plain_op "archive" RiskLow []) /\
  operation_to_run no_surface (cf_Operations shop) (Some unfiltered) (mkOpRef "archive") = Err (RunUnresolved (CatalogResolve (NoMatch "operation" "archive"))).
Proof. vm_compute. done. Qed.

(** Names made unique are not always: the third tool takes the name the second was given. *)
Definition named_tool (name : string) : CoreTool := mkCoreTool name emp (target name) emp no_type no_type None ∅.
Definition no_tools : ProjectState := mkProjectState (mkProjected [] []) ∅ ∅.
Lemma name_collision :
  let s := fold_left (fun s name => add_tool s (named_tool name) []) ["fetch"; "fetch"; "fetch_2"]%string no_tools in
  ct_Name <$> pj_Tools (ps_Out s) = ["fetch"; "fetch_2"; "fetch_2"]%string /\
  ToolsFromCore (pj_Tools (ps_Out s)) = Err (DuplicateTool "fetch_2").
Proof. vm_compute. done. Qed.

(** An action is validated without the spaces around it and looked up with them. *)
Lemma padded_action :
  let action := mkProjection "reader" emp "action" no_type no_type [mkActionCase " read " (target "read")] in
  ActionProjection_Validate action = None /\
  dispatchTarget (mkDispatch "action" (ap_Cases action)) (VMap {[ "action" := VString " read " ]}) = Err (UnknownAction "read" [" read "])%string.
Proof. vm_compute. done. Qed.
End CatalogDemo.
