(* ===== verification/Materializer.v ===== *)
(** * Context materializer (src/runtime/context)

    Providers render blocks of context; what a model is shown of them are the differences to the blocks
    that were rendered before. *)

From stdpp Require Import sorting pretty.
From S2P Require Import Prelude NamedInstance.

(** ** Data (types.go)

    [ProviderName], [Placement] and the other names of package fluxplane-context are strings. *)

Record Block := mkContextBlock {
  bl_ID : string;
  bl_Provider : string;
  bl_Kind : string;
  bl_Placement : string;
  bl_Title : string;
  bl_Content : string;
  bl_MediaType : string;
  bl_URI : string;
  bl_Sensitivity : string;
  bl_Freshness : string;
  bl_Metadata : gmap string string
}.
#[global] Instance rebuild_Block : Rebuild Block := fun b =>
  mkContextBlock b.(bl_ID) b.(bl_Provider) b.(bl_Kind) b.(bl_Placement) b.(bl_Title) b.(bl_Content) b.(bl_MediaType) b.(bl_URI) b.(bl_Sensitivity) b.(bl_Freshness) b.(bl_Metadata).
Record ProviderSpec := mkProviderSpec { ps_Name : string; ps_DefaultPlacement : string }.
Record RenderedBlockRecord := mkRendered { rb_ID : string; rb_Fingerprint : string; rb_Block : Block; rb_Removed : bool }.
Record ProviderRenderRecord := mkRenderRecord { pr_Provider : string; pr_Fingerprint : string; pr_Blocks : gmap string RenderedBlockRecord }.
Abbreviation RenderRecords := (gmap string ProviderRenderRecord).
Record BlockRemoved := mkBlockRemoved { rm_Provider : string; rm_ID : string; rm_Placement : string; rm_PreviousFingerprint : string }.
Record ProviderDiff := mkProviderDiff {
  pd_Provider : string; pd_Added : list Block; pd_Updated : list Block; pd_Removed : list BlockRemoved;
  pd_Record : ProviderRenderRecord; pd_Skipped : bool }.
(** [BuildResult] of this package; [BuildResult] of SessionData.v is what a session reads of it. *)
Record ContextBuild := mkContextBuild {
  bt_TurnID : string;
  bt_Reason : string;
  bt_Providers : list ProviderDiff;
  bt_Added : list Block;
  bt_Updated : list Block;
  bt_Removed : list BlockRemoved;
  bt_Active : list Block;
  bt_Records : RenderRecords
}.
Definition Build_EmptyDiff (r : ContextBuild) : bool :=
  match bt_Added r, bt_Updated r, bt_Removed r with [], [], [] => true | _, _, _ => false end.

(** Package fluxplane-context: the default placement and the validation of a specification; the JSON of a
    block, SHA-256 in hexadecimal, and [xml.EscapeText]. *)
Class ContextModule := {
  NormalizePlacement : string -> string;
  ProviderSpec_Validate : ProviderSpec -> option string;
  block_json : Block -> string;
  sha256_hex : string -> string;
  EscapeText : string -> string
}.

Section Materializing.
Context {CM : ContextModule} {Observation : Type}.

Record BuildRequest := mkBuildRequest {
  br_ThreadID : string; br_BranchID : string; br_TurnID : string; br_Reason : string; br_InputText : string; br_RecentContext : string;
  br_Scope : gmap string string; br_Observations : list Observation; br_BudgetTokens : Z; br_Previous : option RenderRecords }.
Record ProviderRequest := mkProviderRequest {
  rq_ThreadID : string; rq_BranchID : string; rq_TurnID : string; rq_Reason : string; rq_InputText : string; rq_RecentContext : string;
  rq_Scope : gmap string string; rq_Observations : list Observation; rq_BudgetTokens : Z; rq_Previous : option ProviderRenderRecord }.
(** A provider, with the optional method of a [FingerprintingProvider]; the answer [false] is not valid. *)
Record Provider := mkContextProvider {
  pv_Spec : ProviderSpec;
  pv_StateFingerprint : option (ProviderRequest -> Result string (string * bool));
  pv_Build : ProviderRequest -> Result string (list Block)
}.
Definition pv_Name (p : Provider) : string := ps_Name (pv_Spec p).

Inductive BlockError := BlockDuplicate (id : string) | BlockProviderEmpty (ordinal : nat).
Inductive ContextError :=
| ProviderSpecInvalid (e : string)
| ProviderFingerprintFailed (name e : string)
| ProviderBuildFailed (name e : string)
| ProviderBlocksInvalid (name : string) (e : BlockError).

(** ** Fingerprints *)

Definition BlockFingerprint (block : Block) : string := ("sha256:" ++ sha256_hex (block_json block))%string.
Definition nul_byte : string := String (ascii_of_nat 0) emp.
Definition ProviderFingerprint (blocks : list Block) : string :=
  let parts := sort_Strings (map (fun block => bl_ID block ++ nul_byte ++ BlockFingerprint block)%string blocks) in
  ("sha256:" ++ sha256_hex (Join parts nul_byte))%string.
Definition activeBlocks (record : ProviderRenderRecord) : list Block :=
  let ids := sort_Strings (omap (fun e => if rb_Removed e.2 then None else Some e.1) (map_to_list (pr_Blocks record))) in
  omap (fun id => rb_Block <$> pr_Blocks record !! id) ids.

(** ** Blocks *)

(** The part of the loop before the checks: the block with its defaults. *)
Definition block_defaults (provider defaultPlacement : string) (count : nat) (block : Block) : Block :=
  let block := if decide (bl_Provider block = emp) then block <| bl_Provider := provider |> else block in
  let block := if decide (bl_ID block = emp) then block <| bl_ID := (provider ++ "/" ++ pretty (count + 1))%string |> else block in
  let block := if decide (bl_Placement block = emp) then block <| bl_Placement := defaultPlacement |> else block in
  block <| bl_Placement := NormalizePlacement (bl_Placement block) |>.
Fixpoint normalize_loop (provider defaultPlacement : string) (i : nat) (blocks out : list Block) (seen : gset string)
    : Result BlockError (list Block) :=
  match blocks with
  | [] => Ok out
  | block :: rest =>
      if blank (bl_Content block) && blank (bl_URI block) then normalize_loop provider defaultPlacement (S i) rest out seen else
      let block := block_defaults provider defaultPlacement (length out) block in
      if decide (bl_ID block ∈ seen) then Err (BlockDuplicate (bl_ID block))
      else if blank (bl_Provider block) then Err (BlockProviderEmpty (i + 1))
      else normalize_loop provider defaultPlacement (S i) rest (out ++ [block]) ({[bl_ID block]} ∪ seen)
  end.
Definition normalizeBlocks (provider defaultPlacement : string) (blocks : list Block) : Result BlockError (list Block) :=
  let? out := normalize_loop provider defaultPlacement 0 blocks [] ∅ in Ok (sort_by bl_ID out).

(** ** The record of a provider *)

Definition rendered (block : Block) : RenderedBlockRecord := mkRendered (bl_ID block) (BlockFingerprint block) block false.
Definition is_added (previous : gmap string RenderedBlockRecord) (block : Block) : bool :=
  match previous !! bl_ID block with None => true | Some prev => rb_Removed prev end.
Definition is_updated (previous : gmap string RenderedBlockRecord) (block : Block) : bool :=
  match previous !! bl_ID block with
  | None => false
  | Some prev => negb (rb_Removed prev) && negb (bool_decide (rb_Fingerprint prev = BlockFingerprint block))
  end.
(** The blocks that were active and are not any more, in some order. *)
Definition gone (previous now : gmap string RenderedBlockRecord) : list (string * RenderedBlockRecord) :=
  List.filter (fun e => negb (rb_Removed e.2) && bool_decide (now !! e.1 = None)) (map_to_list previous).
Definition removed_record (e : string * RenderedBlockRecord) : string * RenderedBlockRecord :=
  (e.1, mkRendered e.1 (rb_Fingerprint e.2) (rb_Block e.2) true).
Definition block_removed (name : string) (e : string * RenderedBlockRecord) : BlockRemoved :=
  mkBlockRemoved name e.1 (NormalizePlacement (bl_Placement (rb_Block e.2))) (rb_Fingerprint e.2).
Definition zero_RenderRecord : ProviderRenderRecord := mkRenderRecord emp emp ∅.
Definition buildProviderRecord (name defaultPlacement : string) (previous : ProviderRenderRecord) (blocks : list Block)
    : Result BlockError (ProviderRenderRecord * ProviderDiff) :=
  let? normalized := normalizeBlocks name defaultPlacement blocks in
  let now := list_to_map (map (fun block => (bl_ID block, rendered block)) normalized) : gmap string RenderedBlockRecord in
  let removed := gone (pr_Blocks previous) now in
  let blocks := now ∪ list_to_map (map removed_record removed) in
  let record := mkRenderRecord name (ProviderFingerprint (activeBlocks (mkRenderRecord name emp blocks))) blocks in
  Ok (record, mkProviderDiff name (List.filter (is_added (pr_Blocks previous)) normalized)
                (List.filter (is_updated (pr_Blocks previous)) normalized) (map (block_removed name) removed) record false).

(** ** Building (materializer.go) *)

Record Materializer := mkMaterializer { mz_providers : list Provider; mz_records : RenderRecords }.
(** Stable sort by name. *)
Definition NewMaterializer (providers : list Provider) (previous : RenderRecords) : Materializer :=
  mkMaterializer (sort_by pv_Name providers) previous.
Definition provider_request (req : BuildRequest) (previous : option ProviderRenderRecord) : ProviderRequest :=
  mkProviderRequest (br_ThreadID req) (br_BranchID req) (br_TurnID req) (br_Reason req) (br_InputText req) (br_RecentContext req)
    (br_Scope req) (br_Observations req) (br_BudgetTokens req) previous.
(** The state of a provider that says it did not change. *)
Definition unchanged (p : Provider) (req : BuildRequest) (previous : option ProviderRenderRecord) : Result ContextError (option ProviderRenderRecord) :=
  match pv_StateFingerprint p, previous with
  | Some state, Some prev =>
      match state (provider_request req previous) with
      | Err e => Err (ProviderFingerprintFailed (pv_Name p) e)
      | Ok (fingerprint, valid) =>
          Ok (if valid && negb (bool_decide (fingerprint = emp)) && bool_decide (fingerprint = pr_Fingerprint prev) then Some prev else None)
      end
  | _, _ => Ok None
  end.
Definition render_provider (p : Provider) (req : BuildRequest) (previous : option ProviderRenderRecord)
    : Result ContextError (ProviderRenderRecord * ProviderDiff) :=
  match pv_Build p (provider_request req previous) with
  | Err e => Err (ProviderBuildFailed (pv_Name p) e)
  | Ok blocks =>
      match buildProviderRecord (pv_Name p) (ps_DefaultPlacement (pv_Spec p)) (default zero_RenderRecord previous) blocks with
      | Err e => Err (ProviderBlocksInvalid (pv_Name p) e)
      | Ok r => Ok r
      end
  end.
Definition add_diff (result : ContextBuild) (diff : ProviderDiff) (record : ProviderRenderRecord) : ContextBuild :=
  mkContextBuild (bt_TurnID result) (bt_Reason result) (bt_Providers result ++ [diff]) (bt_Added result ++ pd_Added diff)
    (bt_Updated result ++ pd_Updated diff) (bt_Removed result ++ pd_Removed diff) (bt_Active result ++ activeBlocks record)
    (<[pd_Provider diff := record]> (bt_Records result)).
(** One turn of the loop; [bt_Records] is [next]. *)
Definition build_provider (previous : RenderRecords) (req : BuildRequest) (result : ContextBuild) (p : Provider) : Result ContextError ContextBuild :=
  match ProviderSpec_Validate (pv_Spec p) with
  | Some e => Err (ProviderSpecInvalid e)
  | None =>
      let? same := unchanged p req (previous !! pv_Name p) in
      match same with
      | Some record => Ok (add_diff result (mkProviderDiff (pv_Name p) [] [] [] record true) record)
      | None => let? (record, diff) := render_provider p req (previous !! pv_Name p) in Ok (add_diff result diff record)
      end
  end.
Fixpoint build_providers (previous : RenderRecords) (req : BuildRequest) (result : ContextBuild) (providers : list Provider)
    : Result ContextError ContextBuild :=
  match providers with
  | [] => Ok result
  | p :: rest => let? result := build_provider previous req result p in build_providers previous req result rest
  end.
Definition Build (m : Materializer) (req : BuildRequest) : Materializer * Result ContextError ContextBuild :=
  let previous := default (mz_records m) (br_Previous req) in
  match build_providers previous req (mkContextBuild (br_TurnID req) (br_Reason req) [] [] [] [] [] previous) (mz_providers m) with
  | Err e => (m, Err e)
  | Ok result => (mkMaterializer (mz_providers m) (bt_Records result), Ok result)
  end.

(** ** Rendered differences (render.go) *)

Definition filterBlocks (blocks : list Block) (placement : string) : list Block :=
  List.filter (fun block => bool_decide (NormalizePlacement (bl_Placement block) = placement)) blocks.
Definition filterRemoved (blocks : list BlockRemoved) (placement : string) : list BlockRemoved :=
  List.filter (fun block => bool_decide (NormalizePlacement (rm_Placement block) = placement)) blocks.
Definition newline : string := String (ascii_of_nat 10) emp.
Definition quote : string := String (ascii_of_nat 34) emp.
Fixpoint indentation (indent : nat) : string := match indent with 0 => emp | S n => ("  " ++ indentation n)%string end.
(** Attributes in the order of their names, without the blank ones. *)
Definition write_attributes (attrs : list (string * string)) : string :=
  Join (map (fun a => " " ++ a.1 ++ "=" ++ quote ++ EscapeText a.2 ++ quote)%string
    (sort_by fst (List.filter (fun a => negb (blank a.2)) attrs))) emp.
Definition writeXMLStart (tag : string) (attrs : list (string * string)) (indent : nat) : string :=
  (indentation indent ++ "<" ++ tag ++ write_attributes attrs ++ ">" ++ newline)%string.
Definition writeXMLEnd (tag : string) (indent : nat) : string := (indentation indent ++ "</" ++ tag ++ ">" ++ newline)%string.
Definition writeXMLText (text : string) (indent : nat) : string := (indentation indent ++ EscapeText text ++ newline)%string.
Definition writeBlockDiff (tag : string) (block : Block) (indent : nat) : string :=
  let attrs := [("block", bl_ID block); ("provider", bl_Provider block); ("kind", bl_Kind block); ("placement", NormalizePlacement (bl_Placement block));
    ("sensitivity", bl_Sensitivity block); ("freshness", bl_Freshness block); ("fingerprint", BlockFingerprint block)]%string in
  let content := TrimSpace (bl_Content block) in
  (writeXMLStart tag attrs indent ++ (if decide (content = emp) then emp else writeXMLText content (indent + 1)) ++ writeXMLEnd tag indent)%string.
Definition writeRemoved (removed : BlockRemoved) (indent : nat) : string :=
  (writeXMLStart "removed" [("block", rm_ID removed); ("provider", rm_Provider removed); ("placement", NormalizePlacement (rm_Placement removed));
    ("previous_fingerprint", rm_PreviousFingerprint removed)] indent ++ writeXMLEnd "removed" indent)%string.
Definition render_provider_diff (placement : string) (d : ProviderDiff) : option string :=
  let added := filterBlocks (pd_Added d) placement in
  let updated := filterBlocks (pd_Updated d) placement in
  let removed := filterRemoved (pd_Removed d) placement in
  match added, updated, removed with
  | [], [], [] => None
  | _, _, _ =>
      Some (writeXMLStart "provider" [("key"%string, pd_Provider d)] 1
        ++ Join (map (fun block => writeBlockDiff "added" block 2) added) emp
        ++ Join (map (fun block => writeBlockDiff "updated" block 2) updated) emp
        ++ Join (map (fun block => writeRemoved block 2) removed) emp ++ writeXMLEnd "provider" 1)%string
  end.
Definition RenderDiff (result : ContextBuild) (placement : string) : option string :=
  let placement := NormalizePlacement placement in
  match omap (render_provider_diff placement) (bt_Providers result) with
  | [] => None
  | texts => Some ("<system-context>" ++ newline ++ Join texts emp ++ "</system-context>")%string
  end.
End Materializing.
