(* ===== verification/ContextView.v ===== *)
(** * What a model has been shown (src/runtime/context)

    A model sees only the differences of successive renders. Applied one after another they show exactly the
    blocks the records hold as active, and of every provider that was rebuilt exactly the blocks it gave. *)

From stdpp Require Import sorting pretty.
From S2P Require Import Prelude NamedInstance Materializer.

Section View.
Context {CM : ContextModule} {Observation : Type}.
Implicit Types (records next : RenderRecords) (name id : string) (block : Block) (p : Provider (Observation := Observation)).

(** ** The reader of differences *)

(** Blocks by the provider and the identifier they are shown under. *)
Abbreviation Shown := (gmap (string * string) Block).
Implicit Types v : Shown.
Definition show_block (name : string) (v : Shown) (block : Block) : Shown := <[(name, bl_ID block) := block]> v.
Definition read_diff (v : Shown) (d : ProviderDiff) : Shown :=
  let v := fold_left (show_block (pd_Provider d)) (pd_Added d ++ pd_Updated d) v in
  fold_left (fun v removed => delete (pd_Provider d, rm_ID removed) v) (pd_Removed d) v.
Definition read_build (v : Shown) (result : ContextBuild) : Shown := fold_left read_diff (bt_Providers result) v.

(** The fingerprint of an active block of a record, and of the records. *)
Definition record_print (blocks : gmap string RenderedBlockRecord) (id : string) : option string :=
  match blocks !! id with Some b => if rb_Removed b then None else Some (BlockFingerprint (rb_Block b)) | None => None end.
Definition active_print (records : RenderRecords) (k : string * string) : option string :=
  match records !! k.1 with Some record => record_print (pr_Blocks record) k.2 | None => None end.
(** What is shown is what is active. *)
Definition in_view (v : Shown) (records : RenderRecords) : Prop := forall k, BlockFingerprint <$> v !! k = active_print records k.

Record block_ok (id : string) (b : RenderedBlockRecord) : Prop := {
  bk_id : bl_ID (rb_Block b) = id;
  bk_print : rb_Fingerprint b = BlockFingerprint (rb_Block b)
}.
Definition blocks_ok (blocks : gmap string RenderedBlockRecord) : Prop := map_Forall block_ok blocks.
Definition records_ok (records : RenderRecords) : Prop := map_Forall (fun _ record => blocks_ok (pr_Blocks record)) records.

(** ** Normalized blocks *)

Lemma normalize_loop_nodup name dp i blocks out (seen : gset string) l :
  normalize_loop name dp i blocks out seen = Ok l ->
  NoDup (bl_ID <$> out) -> (forall id, id ∈ bl_ID <$> out -> id ∈ seen) -> NoDup (bl_ID <$> l).
Proof.
  revert i out seen. induction blocks as [|b blocks IH]; intros i out seen; cbn [normalize_loop]; [by intros [= <-]|].
  destruct (_ && _); [apply IH|]. set (b' := block_defaults _ _ _ b). case_decide as Hs; [done|]. destruct (blank _); [done|].
  intros H Hnd Hseen. apply (IH _ _ _ H).
  - rewrite fmap_app. apply NoDup_app. split; [done|]. split; [|apply NoDup_singleton]. intros id Hin ->%list_elem_of_singleton. by apply Hs, Hseen.
  - intros id. rewrite fmap_app, elem_of_app. cbn. rewrite list_elem_of_singleton. set_solver.
Qed.
Lemma normalized_nodup name dp blocks l : normalizeBlocks name dp blocks = Ok l -> NoDup (bl_ID <$> l).
Proof.
  unfold normalizeBlocks. intros (out & Ho & [= <-])%res_bind_ok. unfold sort_by. rewrite merge_sort_Permutation.
  eapply normalize_loop_nodup; [exact Ho|constructor|]. intros id H. by apply elem_of_nil in H.
Qed.

(** The block with an identifier. *)
Definition block_of (blocks : list Block) (id : string) : option Block := List.find (fun b => bool_decide (bl_ID b = id)) blocks.
Lemma block_of_some blocks id block : NoDup (bl_ID <$> blocks) -> block_of blocks id = Some block <-> block ∈ blocks /\ bl_ID block = id.
Proof.
  intros Hnd. unfold block_of. split.
  - intros [Hin H%bool_decide_eq_true]%find_some. by apply list_elem_of_In in Hin.
  - intros [Hin Hid]. destruct (List.find _ _) as [b|] eqn:E.
    + apply find_some in E as [Hb H%bool_decide_eq_true]. apply list_elem_of_In in Hb. f_equal. eapply nodup_fmap_inj; [exact Hnd|done|done|congruence].
    + apply list_elem_of_In in Hin. eapply find_none in E; [|exact Hin]. by apply bool_decide_eq_false in E.
Qed.

(** ** One provider *)

Lemma show_blocks name blocks v k : NoDup (bl_ID <$> blocks) ->
  fold_left (show_block name) blocks v !! k = if decide (k.1 = name) then match block_of blocks k.2 with Some b => Some b | None => v !! k end else v !! k.
Proof.
  revert v. induction blocks as [|b blocks IH]; intros v Hnd; cbn [fold_left]; [by case_decide|]. apply NoDup_cons in Hnd as [Hnin Hnd].
  rewrite IH by done. unfold block_of. cbn [List.find]. fold (block_of blocks k.2). unfold show_block. destruct k as [n id]; cbn.
  clear IH. destruct (decide (n = name)) as [Hn|Hn]; [subst name|rewrite lookup_insert_ne; [done|]; intros [= E _]; by rewrite E in Hn]. case_bool_decide as Hid.
  - subst id. destruct (block_of blocks (bl_ID b)) eqn:E; [|by rewrite lookup_insert_eq].
    apply block_of_some in E as [Hin Hid]; [|done]. exfalso. apply Hnin. rewrite <- Hid. by apply list_elem_of_fmap_2.
  - destruct (block_of blocks id); [done|]. rewrite lookup_insert_ne; [done|]. congruence.
Qed.
Lemma hide_blocks name (removed : list BlockRemoved) v k :
  fold_left (fun v r => delete (name, rm_ID r) v) removed v !! k = if decide (k.1 = name /\ k.2 ∈ rm_ID <$> removed) then None else v !! k.
Proof.
  revert v. induction removed as [|r removed IH]; intros v; cbn [fold_left]; [case_decide as H; [by destruct H as [_ H%elem_of_nil]|done]|].
  rewrite IH, fmap_cons. clear IH. destruct k as [n id]. cbn [fst snd].
  destruct (decide (n = name)) as [->|Hn].
  2:{ rewrite !(decide_False (P := n = name /\ _)) by tauto. rewrite lookup_delete_ne; [done|]. by intros [= <-]. }
  destruct (decide (id = rm_ID r)) as [->|Hid].
  - rewrite lookup_delete_eq, (decide_True (P := name = name /\ rm_ID r ∈ rm_ID r :: _)) by (split; [done|by left]). by destruct (decide _).
  - rewrite lookup_delete_ne by congruence. destruct (decide (name = name /\ id ∈ rm_ID <$> removed)) as [[? ?]|Hn].
    + rewrite decide_True; [done|]. split; [done|by right].
    + rewrite decide_False; [done|]. intros [_ [->|?]%elem_of_cons]; [done|]. by apply Hn.
Qed.

Lemma filter_nodup (f : Block -> bool) blocks : NoDup (bl_ID <$> blocks) -> NoDup (bl_ID <$> List.filter f blocks).
Proof.
  induction blocks as [|b blocks IH]; cbn; [done|]. intros [Hnin Hnd]%NoDup_cons. destruct (f b); [|by apply IH]. cbn. apply NoDup_cons. split; [|by apply IH].
  intros (x & E & [Hx _]%list_elem_of_In%filter_In)%list_elem_of_fmap. apply Hnin. rewrite E. apply list_elem_of_fmap_2. by apply list_elem_of_In.
Qed.
Lemma block_of_filter (f : Block -> bool) blocks id : NoDup (bl_ID <$> blocks) ->
  block_of (List.filter f blocks) id = match block_of blocks id with Some b => if f b then Some b else None | None => None end.
Proof.
  intros Hnd. apply option_eq. intros b. rewrite block_of_some by (by apply filter_nodup). rewrite list_elem_of_In, filter_In, <- list_elem_of_In. split.
  - intros [[Hin Hf] Hid]. rewrite (proj2 (block_of_some blocks id b Hnd)) by done. by rewrite Hf.
  - destruct (block_of blocks id) as [b'|] eqn:E; [|done]. apply block_of_some in E as [Hin Hid]; [|done]. destruct (f b') eqn:Ef; [|done]. by intros [= <-].
Qed.
Lemma now_lookup normalized id : NoDup (bl_ID <$> normalized) ->
  (list_to_map (map (fun block => (bl_ID block, rendered block)) normalized) : gmap string RenderedBlockRecord) !! id = rendered <$> block_of normalized id.
Proof.
  intros Hnd. induction normalized as [|b l IH]; [done|]. cbn. apply NoDup_cons in Hnd as [Hnin Hnd]. unfold block_of. cbn [List.find]. case_bool_decide as Hid.
  - by rewrite Hid, lookup_insert_eq.
  - rewrite lookup_insert_ne by done. by apply IH.
Qed.
Lemma elem_of_gone (previous now : gmap string RenderedBlockRecord) id e : (id, e) ∈ gone previous now <-> previous !! id = Some e /\ rb_Removed e = false /\ now !! id = None.
Proof.
  unfold gone. rewrite list_elem_of_In, filter_In, <- list_elem_of_In, elem_of_map_to_list, andb_true_iff, negb_true_iff, bool_decide_eq_true. done.
Qed.
Lemma gone_nodup (previous now : gmap string RenderedBlockRecord) : NoDup (gone previous now).*1.
Proof.
  unfold gone. pose proof (NoDup_fst_map_to_list previous) as H. induction (map_to_list previous) as [|e l IH]; cbn; [constructor|]. cbn in H. apply NoDup_cons in H as [Hn H].
  destruct (_ && _); [|by apply IH]. cbn. apply NoDup_cons. split; [|by apply IH]. intros (x & E & [Hx _]%list_elem_of_In%filter_In)%list_elem_of_fmap.
  apply Hn. rewrite E. apply list_elem_of_fmap_2. by apply list_elem_of_In.
Qed.
Lemma removed_lookup (previous now : gmap string RenderedBlockRecord) id e :
  (list_to_map (map removed_record (gone previous now)) : gmap string RenderedBlockRecord) !! id = Some e <->
  exists prev, previous !! id = Some prev /\ rb_Removed prev = false /\ now !! id = None /\ e = mkRendered id (rb_Fingerprint prev) (rb_Block prev) true.
Proof.
  rewrite <- elem_of_list_to_map.
  - rewrite list_elem_of_In, in_map_iff. split.
    + intros ([i prev] & [= -> <-] & Hin%list_elem_of_In). apply elem_of_gone in Hin as (? & ? & ?). by exists prev.
    + intros (prev & H1 & H2 & H3 & ->). exists (id, prev). split; [done|]. apply list_elem_of_In. by apply elem_of_gone.
  - rewrite <- list_fmap_compose. exact (gone_nodup previous now).
Qed.

(** What the record of a provider and the difference are, from the blocks it gave. *)
Lemma record_exact name dp previous blocks record diff :
  buildProviderRecord name dp previous blocks = Ok (record, diff) -> blocks_ok (pr_Blocks previous) ->
  exists normalized, normalizeBlocks name dp blocks = Ok normalized /\ pd_Provider diff = name /\ blocks_ok (pr_Blocks record) /\
    (forall id, match block_of normalized id with
                | Some b => pr_Blocks record !! id = Some (rendered b)
                | None => forall e, pr_Blocks record !! id = Some e -> rb_Removed e = true
                end) /\
    pd_Added diff = List.filter (is_added (pr_Blocks previous)) normalized /\ pd_Updated diff = List.filter (is_updated (pr_Blocks previous)) normalized /\
    (forall id, id ∈ rm_ID <$> pd_Removed diff <-> block_of normalized id = None /\ exists prev, pr_Blocks previous !! id = Some prev /\ rb_Removed prev = false).
Proof.
  unfold buildProviderRecord. intros (normalized & Hn & [= <- <-])%res_bind_ok Hok. exists normalized. cbn. pose proof (normalized_nodup _ _ _ _ Hn) as Hnd.
  assert (Hnow := fun id => now_lookup normalized id Hnd). set (now := list_to_map _ : gmap string RenderedBlockRecord) in *.
  split; [done|]. split; [done|]. split; [|split; [|split; [done|split; [done|]]]].
  - intros id e. rewrite lookup_union_Some_raw. intros [H|[_ H]].
    + rewrite Hnow in H. apply fmap_Some in H as (b & Hb & ->). by apply block_of_some in Hb as [_ <-].
    + apply removed_lookup in H as (prev & Hp & _ & _ & ->). destruct (Hok _ _ Hp). by split.
  - intros id. destruct (block_of normalized id) as [b|] eqn:E.
    + apply lookup_union_Some_l. by rewrite Hnow, E.
    + intros e. rewrite lookup_union_Some_raw. intros [H|[_ H]]; [by rewrite Hnow, E in H|]. by apply removed_lookup in H as (prev & _ & _ & _ & ->).
  - intros id. rewrite list_elem_of_fmap. split.
    + intros (r & -> & Hr). apply list_elem_of_In, in_map_iff in Hr as ([i prev] & <- & Hin%list_elem_of_In). apply elem_of_gone in Hin as (H1 & H2 & H3). cbn.
      rewrite Hnow in H3. split; [by destruct (block_of normalized i)|]. by exists prev.
    + intros (Hb & prev & H1 & H2). exists (block_removed name (id, prev)). split; [done|]. apply list_elem_of_In, in_map_iff. exists (id, prev). split; [done|].
      apply list_elem_of_In, elem_of_gone. split; [done|]. split; [done|]. by rewrite Hnow, Hb.
Qed.

Lemma read_diff_exact name dp previous blocks record diff v :
  buildProviderRecord name dp previous blocks = Ok (record, diff) -> blocks_ok (pr_Blocks previous) ->
  (forall id, BlockFingerprint <$> v !! (name, id) = record_print (pr_Blocks previous) id) ->
  exists normalized, normalizeBlocks name dp blocks = Ok normalized /\ pd_Provider diff = name /\ blocks_ok (pr_Blocks record) /\
    (forall id, record_print (pr_Blocks record) id = BlockFingerprint <$> block_of normalized id) /\
    forall k, BlockFingerprint <$> read_diff v diff !! k = BlockFingerprint <$> if decide (k.1 = name) then block_of normalized k.2 else v !! k.
Proof.
  intros Hb Hok Hv. destruct (record_exact _ _ _ _ _ _ Hb Hok) as (normalized & Hn & Hname & Hrok & Hrec & Ha & Hu & Hr).
  pose proof (normalized_nodup _ _ _ _ Hn) as Hnd. exists normalized. split; [done|]. split; [done|]. split; [done|]. split.
  { intros id. unfold record_print. specialize (Hrec id). destruct (block_of normalized id) as [b|]; [by rewrite Hrec|].
    destruct (pr_Blocks record !! id) as [e|]; [|done]. by rewrite (Hrec e eq_refl). }
  intros [n id]. unfold read_diff. rewrite hide_blocks, Hname, fold_left_app, Ha, Hu. cbn [fst snd].
  rewrite !show_blocks, !block_of_filter by (try apply filter_nodup; done). cbn [fst snd].
  destruct (decide (n = name)) as [->|Hne]; [|by rewrite decide_False by tauto].
  specialize (Hr id). specialize (Hv id). destruct (block_of normalized id) as [b|] eqn:E.
  - rewrite decide_False by (intros [_ H%Hr]; by destruct H). apply block_of_some in E as [Hin Hid]; [|done]. unfold is_updated, is_added, record_print in *.
    rewrite Hid. destruct (pr_Blocks previous !! id) as [prev|] eqn:Ep; [|done]. destruct (rb_Removed prev); [done|]. cbn [negb andb].
    case_bool_decide as Hf; [|done]. cbn. rewrite Hv. destruct (Hok _ _ Ep) as [_ Hp]. by rewrite <- Hf, Hp.
  - case_decide as Hd; [done|]. rewrite Hv. unfold record_print. destruct (pr_Blocks previous !! id) as [prev|] eqn:Ep; [|done].
    destruct (rb_Removed prev) eqn:Er; [done|]. exfalso. apply Hd. split; [done|]. apply Hr. split; [done|]. by exists prev.
Qed.

(** ** A build *)

(** What a build asks a provider for. *)
Definition gives (previous : RenderRecords) (req : BuildRequest) p (l : list Block) : Prop :=
  exists blocks, pv_Build p (provider_request req (previous !! pv_Name p)) = Ok blocks /\
    normalizeBlocks (pv_Name p) (ps_DefaultPlacement (pv_Spec p)) blocks = Ok l.
(** A provider is shown as it is: as it was when it says that it did not change, and otherwise what it gives. *)
Definition shown_current (previous : RenderRecords) (req : BuildRequest) (v : Shown) p : Prop :=
  match unchanged p req (previous !! pv_Name p) with
  | Ok (Some record) => previous !! pv_Name p = Some record /\ forall id, BlockFingerprint <$> v !! (pv_Name p, id) = record_print (pr_Blocks record) id
  | Ok None => exists l, gives previous req p l /\ forall id, BlockFingerprint <$> v !! (pv_Name p, id) = BlockFingerprint <$> block_of l id
  | Err _ => False
  end.

Lemma add_diff_providers result diff record : bt_Providers (add_diff result diff record) = bt_Providers result ++ [diff].
Proof. done. Qed.
Lemma unchanged_record p req (previous : option ProviderRenderRecord) record : unchanged p req previous = Ok (Some record) -> previous = Some record.
Proof.
  unfold unchanged. destruct (pv_StateFingerprint p) as [state|]; [|done]. destruct previous as [prev|]; [|done].
  destruct (state _) as [[f valid]|]; [|done]. destruct (_ && _); [|done]. by intros [= ->].
Qed.

Lemma build_provider_exact previous req result p result' v0 :
  build_provider previous req result p = Ok result' -> records_ok previous -> records_ok (bt_Records result) ->
  bt_Records result !! pv_Name p = previous !! pv_Name p -> in_view (read_build v0 result) (bt_Records result) ->
  records_ok (bt_Records result') /\ in_view (read_build v0 result') (bt_Records result') /\
  shown_current previous req (read_build v0 result') p /\
  forall name, name <> pv_Name p -> bt_Records result' !! name = bt_Records result !! name /\
    forall id, BlockFingerprint <$> read_build v0 result' !! (name, id) = BlockFingerprint <$> read_build v0 result !! (name, id).
Proof.
  unfold build_provider. intros H Hprev Hok Hsame Hv. destruct (ProviderSpec_Validate _); [done|]. apply res_bind_ok in H as (same & Hs & H).
  unfold shown_current. rewrite Hs. destruct same as [record|].
  - pose proof (unchanged_record _ _ _ _ Hs) as Hrec. injection H as <-. rewrite Hrec in Hsame.
    assert (E : read_build v0 (add_diff result (mkProviderDiff (pv_Name p) [] [] [] record true) record) = read_build v0 result).
    { unfold read_build. rewrite add_diff_providers, fold_left_app. done. }
    rewrite E. cbn [bt_Records add_diff pd_Provider]. rewrite insert_id by done. split; [done|]. split; [done|]. split; [|done]. split; [done|]. intros id. rewrite (Hv (pv_Name p, id)).
    unfold active_print. cbn. by rewrite Hsame.
  - apply res_bind_ok in H as ([record diff] & Hr & [= <-]). unfold render_provider in Hr. destruct (pv_Build p _) as [blocks|] eqn:Eb; [|done].
    destruct (buildProviderRecord _ _ _ blocks) as [rd|] eqn:Er; [|done]. apply Ok_inj in Hr as ->.
    set (prev := default zero_RenderRecord (previous !! pv_Name p)) in *.
    assert (Hpok : blocks_ok (pr_Blocks prev)).
    { unfold prev. destruct (previous !! pv_Name p) eqn:Ep; [by apply (Hprev _ _ Ep)|]. apply map_Forall_empty. }
    assert (Hpv : forall id, BlockFingerprint <$> read_build v0 result !! (pv_Name p, id) = record_print (pr_Blocks prev) id).
    { intros id. rewrite (Hv (pv_Name p, id)). unfold active_print, prev. cbn. rewrite Hsame. destruct (previous !! pv_Name p); [done|].
      unfold record_print. cbn. by rewrite lookup_empty. }
    destruct (read_diff_exact _ _ _ _ _ _ _ Er Hpok Hpv) as (l & Hl & Hname & Hrok & Hprint & Hread).
    assert (E : read_build v0 (add_diff result diff record) = read_diff (read_build v0 result) diff).
    { unfold read_build. rewrite add_diff_providers, fold_left_app. done. }
    rewrite E. cbn [bt_Records add_diff]. rewrite Hname. split; [by apply map_Forall_insert_2|]. split; [|split].
    + intros k. rewrite Hread. destruct k as [n id]. unfold active_print. cbn [fst snd]. case_decide as Hn; [subst n|].
      * rewrite lookup_insert_eq. by rewrite Hprint.
      * rewrite lookup_insert_ne by done. by rewrite (Hv (n, id)).
    + exists l. split; [by exists blocks|]. intros id. rewrite Hread. cbn [fst snd]. by rewrite decide_True.
    + intros n Hn. split; [by rewrite lookup_insert_ne|]. intros id. rewrite Hread. cbn [fst snd]. by rewrite decide_False.
Qed.

Lemma shown_current_ext previous req v v' p :
  (forall id, BlockFingerprint <$> v' !! (pv_Name p, id) = BlockFingerprint <$> v !! (pv_Name p, id)) ->
  shown_current previous req v p -> shown_current previous req v' p.
Proof.
  intros Hv. unfold shown_current. destruct (unchanged _ _ _) as [[record|]|]; [|intros (l & Hl & H); exists l|done].
  - intros [? H]. split; [done|]. intros id. by rewrite Hv.
  - split; [done|]. intros id. by rewrite Hv.
Qed.
Lemma build_providers_exact previous req providers result result' v0 :
  build_providers previous req result providers = Ok result' -> NoDup (pv_Name <$> providers) ->
  records_ok previous -> records_ok (bt_Records result) -> in_view (read_build v0 result) (bt_Records result) ->
  (forall p, p ∈ providers -> bt_Records result !! pv_Name p = previous !! pv_Name p) ->
  records_ok (bt_Records result') /\ in_view (read_build v0 result') (bt_Records result') /\
  (forall p, p ∈ providers -> shown_current previous req (read_build v0 result') p) /\
  forall name, name ∉ pv_Name <$> providers -> bt_Records result' !! name = bt_Records result !! name /\
    forall id, BlockFingerprint <$> read_build v0 result' !! (name, id) = BlockFingerprint <$> read_build v0 result !! (name, id).
Proof.
  revert result. induction providers as [|p providers IH]; intros result; cbn [build_providers].
  { intros [= <-] _ _ Hok Hv _. split; [done|]. split; [done|]. split; [intros p H; by apply elem_of_nil in H|done]. }
  intros (mid & Hp & Hrest)%res_bind_ok Hnd Hprev Hok Hv Hsame. rewrite fmap_cons in Hnd. apply NoDup_cons in Hnd as [Hnin Hnd].
  destruct (build_provider_exact _ _ _ _ _ v0 Hp Hprev Hok (Hsame p ltac:(by left)) Hv) as (Hok1 & Hv1 & Hcur & Hother).
  assert (Hsame' : forall q, q ∈ providers -> bt_Records mid !! pv_Name q = previous !! pv_Name q).
  { intros q Hq. rewrite <- Hsame by (by right). apply Hother. intros E. apply Hnin. rewrite <- E. by apply list_elem_of_fmap_2. }
  destruct (IH mid Hrest Hnd Hprev Hok1 Hv1 Hsame') as (Hok2 & Hv2 & Hcur2 & Hother2). split; [done|]. split; [done|]. split.
  - intros q [->|Hq]%elem_of_cons; [|by apply Hcur2]. eapply shown_current_ext; [|exact Hcur]. by apply Hother2.
  - intros name Hname. rewrite fmap_cons, not_elem_of_cons in Hname. destruct Hname as [Hn1 Hn2]. destruct (Hother name Hn1), (Hother2 name Hn2).
    split; [congruence|]. intros id. congruence.
Qed.

(** ** Successive builds

    Each build may have other providers; a session passes the records of the last one ([BuildContext]). A build
    that fails shows nothing and leaves the records. *)

Definition with_previous (records : RenderRecords) (req : BuildRequest (Observation := Observation)) : BuildRequest :=
  mkBuildRequest (br_ThreadID req) (br_BranchID req) (br_TurnID req) (br_Reason req) (br_InputText req) (br_RecentContext req)
    (br_Scope req) (br_Observations req) (br_BudgetTokens req) (Some records).
Definition BuildContext (providers : list Provider) (records : RenderRecords) (req : BuildRequest) : Result ContextError ContextBuild :=
  (Build (NewMaterializer providers records) (with_previous records req)).2.
Definition render (s : RenderRecords * Shown) (b : list Provider * BuildRequest) : RenderRecords * Shown :=
  match BuildContext b.1 s.1 b.2 with
  | Ok result => (bt_Records result, read_build s.2 result)
  | Err _ => s
  end.
Definition renders (builds : list (list Provider * BuildRequest)) : RenderRecords * Shown := fold_left render builds (∅, ∅).
Definition own_provider_names (b : list (Provider (Observation := Observation)) * BuildRequest (Observation := Observation)) : Prop := NoDup (pv_Name <$> b.1).

Lemma BuildContext_exact providers records req result v :
  BuildContext providers records req = Ok result -> NoDup (pv_Name <$> providers) -> records_ok records -> in_view v records ->
  records_ok (bt_Records result) /\ in_view (read_build v result) (bt_Records result) /\
  Forall (shown_current records req (read_build v result)) providers.
Proof.
  unfold BuildContext, Build, NewMaterializer. cbn [mz_providers mz_records br_Previous with_previous default]. intros H Hnd Hok Hv.
  pose proof (merge_sort_Permutation (key_le pv_Name) providers) as Hp. fold (sort_by pv_Name providers) in Hp.
  destruct (build_providers _ _ _ _) as [r|] eqn:E; [|done]. cbn in H. apply Ok_inj in H as ->.
  destruct (build_providers_exact _ _ _ _ _ v E) as (H1 & H2 & H3 & _); [by rewrite Hp|done..|].
  split; [done|]. split; [done|]. apply Forall_forall. intros p Hin. apply (H3 p). by rewrite Hp.
Qed.
Lemma renders_ok builds : Forall own_provider_names builds -> records_ok (renders builds).1 /\ in_view (renders builds).2 (renders builds).1.
Proof.
  unfold renders. intros H. induction builds as [|b builds IH] using rev_ind; cbn.
  - split; [apply map_Forall_empty|]. intros k. unfold active_print. by rewrite !lookup_empty.
  - apply Forall_app in H as [Hb H]. apply Forall_cons in H as [Hnd _]. rewrite fold_left_app. cbn [fold_left]. destruct (IH Hb) as [Hok Hv].
    set (s := fold_left render builds (∅, ∅)) in *. unfold render. destruct (BuildContext b.1 s.1 b.2) as [result|] eqn:E; [|done].
    by destruct (BuildContext_exact _ _ _ _ _ E Hnd Hok Hv) as (H1 & H2 & _).
Qed.

(** C24: Whatever providers render in successive builds, some of which may fail, a reader of the differences is
    shown exactly the blocks that the records hold as active; and of every provider of the last build it is
    shown the blocks that the provider gives now, or had given when it says that it did not change. Blocks
    are the same here when their fingerprints are, and providers of a build have names of their own. *)
Theorem context_view_exact builds providers req result :
  Forall own_provider_names builds -> NoDup (pv_Name <$> providers) ->
  BuildContext providers (renders builds).1 req = Ok result ->
  in_view (read_build (renders builds).2 result) (bt_Records result) /\
  Forall (shown_current (renders builds).1 req (read_build (renders builds).2 result)) providers.
Proof.
  intros Hb Hnd H. destruct (renders_ok builds Hb) as [Hok Hv]. destruct (BuildContext_exact _ _ _ _ _ H Hnd Hok Hv) as (_ & H1 & H2). done.
Qed.
End View.

(** * Context on concrete inputs

    Fingerprints are the texts they are of. Providers that change, fail and say that they did not change; and
    what the reader of differences is not told. *)

From stdpp Require Import pretty.
From S2P Require Import Operation WorkerText Conversation Compaction SessionData SessionItems.

Module ContextDemo.
#[export] Instance context : ContextModule := {
  NormalizePlacement placement := if decide (placement = emp) then "user"%string else placement;
  ProviderSpec_Validate spec := if blank (ps_Name spec) then Some "name is empty"%string else None;
  block_json block := (bl_ID block ++ "|" ++ bl_Placement block ++ "|" ++ bl_Content block)%string;
  sha256_hex text := text;
  EscapeText text := text
}.
#[export] Instance texts : ValueJson := { json_text _ := "{}"%string }.
Definition block (id content : string) : Block := mkContextBlock id emp "text" emp emp content emp emp emp emp ∅.
Definition gives_blocks (name placement : string) (blocks : list Block) : Provider (Observation := unit) :=
  mkContextProvider (mkProviderSpec name placement) None (fun _ => Ok blocks).
Definition quiet (name placement fingerprint : string) : Provider (Observation := unit) :=
  mkContextProvider (mkProviderSpec name placement) (Some (fun _ => Ok (fingerprint, true))) (fun _ => Err "not asked"%string).
Definition broken (name : string) : Provider (Observation := unit) :=
  mkContextProvider (mkProviderSpec name emp) None (fun _ => Err "unreachable"%string).
Definition turn (id : string) : BuildRequest (Observation := unit) := mkBuildRequest "thread" "main" id "turn" emp emp ∅ [] 0 None.

Definition files : Provider := gives_blocks "files" "system" [block "readme" "Read me"; block emp "An unnamed block"; block "blank" "  "].
Definition files_later : Provider := gives_blocks "files" "system" [block "readme" "Read me again"].
Definition clock : Provider := gives_blocks "clock" emp [block "now" "12:00"].
Definition builds : list (list (Provider (Observation := unit)) * BuildRequest) :=
  [([files; clock], turn "t1"); ([files; broken "clock"], turn "t2"); ([clock; files_later], turn "t3")].
Definition clock_print : string := match (renders builds).1 !! "clock"%string with Some r => pr_Fingerprint r | None => emp end.
Definition last_providers : list Provider := [quiet "clock" emp clock_print; files_later; gives_blocks "notes" "developer" [block "n" "Be brief"]].

Example shown_after : map_to_list (bl_Content <$> (renders builds).2) = [(("clock", "now"), "12:00"); (("files", "readme"), "Read me again")]%string.
Proof. vm_compute. reflexivity. Qed.

Lemma context_view_exact_witness : exists result,
  BuildContext last_providers (renders builds).1 (turn "t4") = Ok result /\ map pd_Skipped (bt_Providers result) = [true; false; false] /\
  in_view (read_build (renders builds).2 result) (bt_Records result) /\
  Forall (shown_current (renders builds).1 (turn "t4") (read_build (renders builds).2 result)) last_providers.
Proof.
  destruct (BuildContext last_providers (renders builds).1 (turn "t4")) as [result|e] eqn:E; [|vm_compute in E; discriminate].
  exists result. split; [done|]. split.
  - assert (H : match BuildContext last_providers (renders builds).1 (turn "t4") with Ok r => map pd_Skipped (bt_Providers r) = [true; false; false] | Err _ => False end)
      by (vm_compute; reflexivity). by rewrite E in H.
  - apply (context_view_exact builds last_providers (turn "t4") result); [| |exact E].
    + repeat (apply Forall_cons; split; [apply (bool_decide_unpack _); by vm_compute|]). constructor.
    + apply (bool_decide_unpack _). by vm_compute.
Defined.

(** ** What a reader is not told *)

(** A provider that is not asked any more leaves its blocks in the view and in the records. *)
Definition without_clock : option (RenderRecords * gmap (string * string) Block * list Block) :=
  match BuildContext [files_later] (renders builds).1 (turn "t4") with
  | Ok r => Some (bt_Records r, read_build (renders builds).2 r, bt_Active r)
  | Err _ => None
  end.
Lemma retired_provider_kept : match without_clock with
  | Some (records, v, active) => is_Some (records !! "clock"%string) /\ bl_Content <$> v !! ("clock", "now")%string = Some "12:00"%string /\
      bl_ID <$> active = ["readme"%string]
  | None => False
  end.
Proof. vm_compute. split; [by eexists|done]. Qed.

(** Two providers of one name: the second replaces the record of the first, whose block is shown and never taken back. *)
Definition twins : list (list (Provider (Observation := unit)) * BuildRequest) :=
  [([gives_blocks "p" emp [block "a" "first"]; gives_blocks "p" emp [block "b" "second"]], turn "t1")].
Lemma same_name_confused : bl_Content <$> (renders twins).2 !! ("p", "a")%string = Some "first"%string /\
  active_print (renders twins).1 ("p", "a")%string = None.
Proof. vm_compute. done. Qed.

(** ** Compaction *)

Definition provider : ProviderIdentity := mkProvider "p" "a" "f" "m".
Definition shown_text (result : ContextBuild) : string := default emp (RenderDiff result "system").
Definition first_build : option ContextBuild := match BuildContext [files] ∅ (turn "t1") with Ok r => Some r | Err _ => None end.
Definition diff_item : Item := contextTranscriptItem provider "system" (match first_build with Some r => shown_text r | None => emp end).
Definition compacted : list Item :=
  ts_Items (cr_Transcript (CompactTranscript
    (mkTranscript provider [diff_item; mkItem provider ItemInput "user" emp emp emp emp [] (VString "hello") emp ∅] [] None ProjectionFullReplay)
    (mkCompactOptions 80 10 20 1))).
Definition rebuilt : option bool :=
  match first_build with
  | Some r => match BuildContext [files] (bt_Records r) (turn "t2") with Ok r' => Some (Build_EmptyDiff r') | Err _ => None end
  | None => None
  end.
(** A difference that compaction summarizes is not in the transcript any more, and no later build shows it again. *)
Lemma compaction_forgets_context :
  map (fun item => it_Metadata item !! "compaction"%string) compacted = [Some "context_diff_summary"%string; None] /\
  existsb (fun item => bool_decide (it_Content item = it_Content diff_item)) compacted = false /\ rebuilt = Some true.
Proof. vm_compute. done. Qed.
End ContextDemo.
