(* ===== verification/Skill.v ===== *)
(** * Skills of a session (src/runtime/skill, src/contrib/skills/operation.go)

    The catalog of skills, what a session has activated of it, the events it emits when that changes, and
    the context that shows it to a model. *)

From stdpp Require Import sorting.
From S2P Require Import Prelude Operation NamedInstance Materializer.

(** ** Data of package fluxplane-skill *)

Record ReferenceSpec := mkReferenceSpec { rf_Path : string; rf_Body : string; rf_Triggers : list string; rf_Metadata : gmap string string }.
Record SkillSpec := mkSkillSpec {
  sk_Name : string;
  sk_Description : string;
  sk_Body : string;
  sk_SourceURI : string;
  sk_Triggers : list string;
  sk_References : list ReferenceSpec;
  sk_Metadata : gmap string string
}.
Definition zero_SkillSpec : SkillSpec := mkSkillSpec emp emp emp emp [] [] ∅.
Inductive SkillEvent := SkillActivated (Skill : string) | SkillReferenceActivated (Skill Path : string).
Class SkillModule := { SkillSpec_Validate : SkillSpec -> option string; ValidReferencePath : string -> bool }.

Section Skills.
Context {SM : SkillModule}.

(** ** Repository (repository.go) *)

Record Repository := mkRepository { rp_skills : gmap string SkillSpec; rp_order : list string }.
Fixpoint add_skills (specs : list SkillSpec) (skills : gmap string SkillSpec) (order : list string) : Result string (gmap string SkillSpec * list string) :=
  match specs with
  | [] => Ok (skills, order)
  | spec :: rest =>
      match SkillSpec_Validate spec with
      | Some e => Err e
      | None =>
          let name := TrimSpace (sk_Name spec) in
          if decide (name = emp \/ is_Some (skills !! name)) then add_skills rest skills order
          else add_skills rest (<[name := spec]> skills) (order ++ [name])
      end
  end.
Definition NewRepository (specs : list SkillSpec) : Result string Repository :=
  let? p := add_skills specs ∅ [] in Ok (mkRepository p.1 (sort_Strings p.2)).
Definition Repository_List (r : Repository) : list SkillSpec := map (fun name => default zero_SkillSpec (rp_skills r !! name)) (rp_order r).
Definition Repository_Get (r : Repository) (name : string) : option SkillSpec := rp_skills r !! TrimSpace name.
(** [strings.ReplaceAll] of a byte by a byte, and the paths of references. *)
Fixpoint replace_byte (from to : ascii) (s : string) : string :=
  match s with String.EmptyString => emp | String.String c rest => String (if Ascii.eqb c from then to else c) (replace_byte from to rest) end.
Definition backslash : ascii := "\"%char.
Definition slash_byte : ascii := "/"%char.
Definition reference_path (path : string) : string := TrimSpace (replace_byte backslash slash_byte path).
Definition GetReference (r : Repository) (name path : string) : option ReferenceSpec :=
  match Repository_Get r name with
  | None => None
  | Some spec => List.find (fun ref => bool_decide (rf_Path ref = reference_path path)) (sk_References spec)
  end.

(** ** Activation (activation.go) *)

Inductive SkillStatus := StatusInactive | StatusBase | StatusDynamic.
#[global] Instance SkillStatus_eq_dec : EqDecision SkillStatus.
Proof. solve_decision. Defined.
(** The keys the maps hold with [true]; a reference is under its skill and its path. *)
Record ActivationState := mkActivation {
  as_repo : Repository;
  as_base : gset string;
  as_dynamic : gset string;
  as_references : gset (string * string)
}.
#[global] Instance rebuild_ActivationState : Rebuild ActivationState := fun s => mkActivation s.(as_repo) s.(as_base) s.(as_dynamic) s.(as_references).
Inductive SkillError :=
| SkillNotFound (name : string)
| SkillNameRequired
| SkillInactive (name : string)
| InvalidReferencePath (raw : string)
| ReferenceNotFound (path skill : string).
#[global] Instance SkillError_eq_dec : EqDecision SkillError.
Proof. solve_decision. Defined.

Definition NewActivationState (repo : Repository) (baseSkills : list string) : Result SkillError ActivationState :=
  (fix go names s :=
    match names with
    | [] => Ok s
    | ref :: rest =>
        let name := TrimSpace ref in
        if decide (name = emp) then go rest s else
        match Repository_Get repo name with
        | None => Err (SkillNotFound name)
        | Some _ => go rest (s <| as_base := {[name]} ∪ as_base s |>)
        end
    end) baseSkills (mkActivation repo ∅ ∅ ∅).
Definition Skill_Status (s : ActivationState) (name : string) : SkillStatus :=
  let name := TrimSpace name in
  if decide (name ∈ as_base s) then StatusBase else if decide (name ∈ as_dynamic s) then StatusDynamic else StatusInactive.
Definition IsActive (s : ActivationState) (name : string) : bool := negb (bool_decide (Skill_Status s name = StatusInactive)).
(** The status and whether it changed. *)
Definition ActivateSkill (name : string) (s : ActivationState) : ActivationState * Result SkillError (SkillStatus * bool) :=
  let name := TrimSpace name in
  if decide (name = emp) then (s, Err SkillNameRequired) else
  match Repository_Get (as_repo s) name with
  | None => (s, Err (SkillNotFound name))
  | Some _ =>
      let before := Skill_Status s name in
      if decide (before <> StatusInactive) then (s, Ok (before, false))
      else (s <| as_dynamic := {[name]} ∪ as_dynamic s |>, Ok (StatusDynamic, true))
  end.

(** The references asked for, once each; and those of them that were not active. *)
Fixpoint requested_references (repo : Repository) (skill : string) (paths : list string) (seen : gset string) (requested : list string)
    : Result SkillError (list string) :=
  match paths with
  | [] => Ok requested
  | raw :: rest =>
      let path := reference_path raw in
      if decide (path = emp \/ path ∈ seen) then requested_references repo skill rest seen requested
      else if negb (ValidReferencePath path) then Err (InvalidReferencePath raw)
      else match GetReference repo skill path with
           | None => Err (ReferenceNotFound path skill)
           | Some _ => requested_references repo skill rest ({[path]} ∪ seen) (requested ++ [path])
           end
  end.
Definition activate_reference (skill : string) (p : gset (string * string) * list string) (path : string) : gset (string * string) * list string :=
  if decide ((skill, path) ∈ p.1) then p else ({[(skill, path)]} ∪ p.1, p.2 ++ [path]).
Definition ActivateReferences (skillName : string) (paths : list string) (s : ActivationState) : ActivationState * Result SkillError (list string) :=
  let skill := TrimSpace skillName in
  if negb (IsActive s skill) then (s, Err (SkillInactive skill)) else
  match requested_references (as_repo s) skill paths ∅ [] with
  | Err e => (s, Err e)
  | Ok requested =>
      let '(references, activated) := fold_left (activate_reference skill) requested (as_references s, []) in
      (s <| as_references := references |>, Ok (sort_Strings activated))
  end.

Definition ActiveSkills (s : ActivationState) : list SkillSpec := List.filter (fun spec => IsActive s (sk_Name spec)) (Repository_List (as_repo s)).
Definition ActiveSkillNames (s : ActivationState) : list string := map sk_Name (ActiveSkills s).
Definition ActiveReferences (s : ActivationState) (skillName : string) : list ReferenceSpec :=
  match Repository_Get (as_repo s) skillName with
  | None => []
  | Some spec => sort_by rf_Path (List.filter (fun ref => bool_decide ((TrimSpace skillName, rf_Path ref) ∈ as_references s)) (sk_References spec))
  end.

(** ** Events *)

(** A payload of a record: an event or a pointer to one, which may be nil, the decoded object, or another value. *)
Inductive SkillPayload := TypedPayload (e : SkillEvent) | NilPayload | MapPayload (skill path : string) | OtherPayload.
Definition result_error {A} (r : ActivationState * Result SkillError A) : ActivationState * option SkillError :=
  (r.1, match r.2 with Ok _ => None | Err e => Some e end).
Definition ApplyEvent (payload : SkillPayload) (s : ActivationState) : ActivationState * option SkillError :=
  match payload with
  | TypedPayload (SkillActivated skill) => result_error (ActivateSkill skill s)
  | TypedPayload (SkillReferenceActivated skill path) => result_error (ActivateReferences skill [path] s)
  | MapPayload skill path =>
      if decide (path <> emp) then result_error (ActivateReferences skill [path] s) else result_error (ActivateSkill skill s)
  | NilPayload | OtherPayload => (s, None)
  end.
(** [skill_event]: the name is that of one of the two events. *)
Definition ApplyNamedEvent (skill_event : bool) (payload : SkillPayload) (s : ActivationState) : ActivationState * option SkillError :=
  if skill_event then ApplyEvent payload s else (s, None).
(** [ReplaySkillEvents] over the emitted events of the records of a branch (sessionenv/env.go). *)
Fixpoint replay_skills (records : list (bool * SkillPayload)) (s : ActivationState) : ActivationState * option SkillError :=
  match records with
  | [] => (s, None)
  | (skill_event, payload) :: rest =>
      let '(s, e) := ApplyNamedEvent skill_event payload s in
      match e with Some e => (s, Some e) | None => replay_skills rest s end
  end.

(** ** What activates skills

    The session's surface and its reactions activate a skill, or a reference with its skill; the operation
    of the skills plugin takes a list of actions. Each returns the state, what it emits and its outcome. *)

Definition activateSurfaceSkill (name : string) (s : ActivationState) : ActivationState * list SkillEvent * option SkillError :=
  let '(s, r) := ActivateSkill name s in
  match r with
  | Err e => (s, [], Some e)
  | Ok (_, changed) => (s, if changed then [SkillActivated name] else [], None)
  end.
Definition activateSurfaceReference (skill path : string) (s : ActivationState) : ActivationState * list SkillEvent * option SkillError :=
  let '(s, evts, e) := activateSurfaceSkill skill s in
  match e with
  | Some e => (s, evts, Some e)
  | None =>
      let '(s, r) := ActivateReferences skill [path] s in
      match r with
      | Err e => (s, evts, Some e)
      | Ok activated => (s, evts ++ map (SkillReferenceActivated skill) activated, None)
      end
  end.

Record SkillAction := mkSkillAction { sa_Action : string; sa_Skill : string; sa_References : list string }.
Inductive SkillActionError := UnsupportedAction (action : string) | ActionSkillRequired | ActionSkillInactive (skill : string) | ActionFailed (e : SkillError).
Record SkillActionResult := mkSkillActionResult {
  sr_Action : string; sr_Skill : string; sr_SkillStatus : string; sr_ActivatedRefs : list string; sr_AlreadyActiveRefs : list string;
  sr_Error : option SkillActionError }.
#[global] Instance rebuild_SkillActionResult : Rebuild SkillActionResult := fun r =>
  mkSkillActionResult r.(sr_Action) r.(sr_Skill) r.(sr_SkillStatus) r.(sr_ActivatedRefs) r.(sr_AlreadyActiveRefs) r.(sr_Error).
Definition status_text (status : SkillStatus) : string :=
  match status with StatusInactive => "inactive" | StatusBase => "base" | StatusDynamic => "dynamic" end%string.
Definition alreadyActiveRefs (before : list string) (requested activated : list string) : list string :=
  sort_Strings ((fix go refs (seen : gset string) :=
    match refs with
    | [] => []
    | ref :: rest =>
        let path := reference_path ref in
        if decide (path = emp \/ path ∈ seen) then go rest seen
        else if decide (path ∈ before /\ path ∉ activated) then path :: go rest ({[path]} ∪ seen) else go rest ({[path]} ∪ seen)
    end) requested ∅).
Definition applyActivate (item : SkillAction) (result : SkillActionResult) (s : ActivationState) : ActivationState * list SkillEvent * SkillActionResult :=
  let skill := sr_Skill result in
  if decide (skill = emp) then (s, [], result <| sr_Error := Some ActionSkillRequired |>) else
  let before := Skill_Status s skill in
  if decide (sa_References item <> [] /\ before = StatusInactive) then (s, [], result <| sr_Error := Some (ActionSkillInactive skill) |>) else
  let '(s, r) := ActivateSkill skill s in
  match r with
  | Err e => (s, [], result <| sr_Error := Some (ActionFailed e) |>)
  | Ok (status, changed) =>
      let text := if changed then "activated"%string else if decide (before <> StatusInactive) then "already_active"%string else status_text status in
      let evts := if changed then [SkillActivated skill] else [] in
      let result := result <| sr_SkillStatus := text |> in
      if decide (sa_References item = []) then (s, evts, result) else
      let beforeRefs := map rf_Path (ActiveReferences s skill) in
      let '(s, r) := ActivateReferences skill (sa_References item) s in
      match r with
      | Err e => (s, evts, result <| sr_Error := Some (ActionFailed e) |>)
      | Ok activated =>
          (s, evts ++ map (SkillReferenceActivated skill) activated,
           result <| sr_ActivatedRefs := activated |> <| sr_AlreadyActiveRefs := alreadyActiveRefs beforeRefs (sa_References item) activated |>)
      end
  end.
Definition run_action (item : SkillAction) (s : ActivationState) : ActivationState * list SkillEvent * SkillActionResult :=
  let result := mkSkillActionResult (TrimSpace (sa_Action item)) (TrimSpace (sa_Skill item)) emp [] [] None in
  if decide (sr_Action result = "activate"%string) then applyActivate item result s
  else (s, [], result <| sr_Error := Some (UnsupportedAction (sa_Action item)) |>).
Inductive SkillOutcome := InvalidSkillInput | SkillStateMissing | SkillOutput (results : list SkillActionResult) (active : list string).
Fixpoint run_actions (items : list SkillAction) (s : ActivationState) : ActivationState * list SkillEvent * list SkillActionResult :=
  match items with
  | [] => (s, [], [])
  | item :: rest =>
      let '(s, evts, result) := run_action item s in
      let '(s, evts', results) := run_actions rest s in (s, evts ++ evts', result :: results)
  end.
(** The state may be missing from the context. *)
Definition runSkillOperation (items : list SkillAction) (state : option ActivationState) : option ActivationState * list SkillEvent * SkillOutcome :=
  if decide (items = []) then (state, [], InvalidSkillInput) else
  match state with
  | None => (None, [], SkillStateMissing)
  | Some s => let '(s, evts, results) := run_actions items s in (Some s, evts, SkillOutput results (ActiveSkillNames s))
  end.

(** ** Context (context.go) *)

Definition write_line (text key value : string) : string :=
  let value := TrimSpace value in
  if decide (value = emp) then text
  else ((if decide (text = emp) then emp else text ++ newline) ++ key ++ ": " ++ value)%string.
Definition write_map (text : string) (values : gmap string string) : string :=
  fold_left (fun text key => write_line text key (default emp (values !! key))) (sort_Strings (map fst (map_to_list values))) text.
Definition renderSkillMetadata (spec : SkillSpec) (status : SkillStatus) : string :=
  let text := write_line emp "skill" (sk_Name spec) in
  let text := write_line text "description" (sk_Description spec) in
  let text := write_line text "source" (sk_SourceURI spec) in
  let text := write_line text "status" (status_text status) in
  let text := write_line text "triggers" (Join (sk_Triggers spec) ", ") in
  let text := write_map text (sk_Metadata spec) in
  let text := if decide (sk_References spec = []) then text else write_line text "references" (Join (sort_Strings (map rf_Path (sk_References spec))) ", ") in
  TrimSpace text.
Definition renderReference (spec : SkillSpec) (ref : ReferenceSpec) : string :=
  let text := write_line emp "skill" (sk_Name spec) in
  let text := write_line text "path" (rf_Path ref) in
  let text := write_line text "triggers" (Join (rf_Triggers ref) ", ") in
  let text := write_map text (rf_Metadata ref) in
  let text := if blank (rf_Body ref) then text else (text ++ newline ++ TrimSpace (rf_Body ref))%string in
  TrimSpace text.
Definition sanitize (value : string) : string :=
  let value := TrimByte (TrimSpace (replace_byte backslash slash_byte value)) slash_byte in
  let value := replace_byte " " "_" (replace_byte slash_byte "_" value) in
  if decide (value = emp) then "unknown"%string else value.
Definition ContextProviderName : string := "skills".
Definition skill_block (id title content : string) (metadata : gmap string string) : Block :=
  mkContextBlock id ContextProviderName "text" emp title content emp emp emp "dynamic" metadata.
Definition spec_blocks (state : option ActivationState) (spec : SkillSpec) : list Block :=
  let status := match state with Some s => Skill_Status s (sk_Name spec) | None => StatusInactive end in
  let content := renderSkillMetadata spec status in
  let content := if decide (status <> StatusInactive /\ blank (sk_Body spec) = false)
                 then (content ++ newline ++ newline ++ TrimSpace (sk_Body spec))%string else content in
  skill_block ("skills/catalog/" ++ sanitize (sk_Name spec))%string ("Skill " ++ sk_Name spec)%string content
    (<["skill"%string := sk_Name spec]> {[ "status"%string := status_text status ]}) ::
  match state with
  | None => []
  | Some s =>
      map (fun ref => skill_block ("skills/references/" ++ sanitize (sk_Name spec) ++ "/" ++ sanitize (rf_Path ref))%string
                        (sk_Name spec ++ " " ++ rf_Path ref)%string (renderReference spec ref)
                        (<["skill"%string := sk_Name spec]> {[ "reference"%string := rf_Path ref ]}))
        (ActiveReferences s (sk_Name spec))
  end.
Definition skill_blocks (repo : option Repository) (state : option ActivationState) : list Block :=
  match repo, state with
  | Some r, _ => flat_map (spec_blocks state) (Repository_List r)
  | None, Some s => flat_map (spec_blocks state) (Repository_List (as_repo s))
  | None, None => []
  end.
Definition skill_provider {Observation} (repo : option Repository) (state : option ActivationState) : Provider (Observation := Observation) :=
  mkContextProvider (mkProviderSpec ContextProviderName emp) None (fun _ => Ok (skill_blocks repo state)).
End Skills.
