(* ===== verification/SkillReplay.v ===== *)
(** * Skills survive a restart (src/runtime/skill, ReplaySkillEvents of src/orchestration/sessionenv)

    Whatever a session's surface, its reactions and the operation of the plugin activate, the events they
    emit restore: replayed on the state a session starts from, or again on any later one. *)

From stdpp Require Import sorting.
From S2P Require Import Prelude Operation NamedInstance Instances Resource Resolution Materializer Skill.

Section Replay.
Context {SM : SkillModule}.
Implicit Types (s t : ActivationState) (evts : list SkillEvent) (skill path : string).

(** ** States that grow *)

Record extends t s : Prop := {
  ex_repo : as_repo t = as_repo s; ex_base : as_base t = as_base s;
  ex_dynamic : as_dynamic t ⊆ as_dynamic s; ex_references : as_references t ⊆ as_references s
}.
#[export] Instance extends_preorder : PreOrder extends.
Proof. split; [by intros s|]. intros s t u [? ? ? ?] [? ? ? ?]. split; [congruence|congruence|set_solver|set_solver]. Qed.
Lemma extends_antisym s t : extends s t -> extends t s -> s = t.
Proof. destruct s, t. intros [? ? ? ?] [? ? ? ?]; cbn in *. f_equal; [done|done|set_solver|set_solver]. Qed.

Definition grow (e : SkillEvent) s : ActivationState :=
  match e with
  | SkillActivated skill => s <| as_dynamic := {[TrimSpace skill]} ∪ as_dynamic s |>
  | SkillReferenceActivated skill path => s <| as_references := {[(TrimSpace skill, reference_path path)]} ∪ as_references s |>
  end.
Definition grow_all evts s : ActivationState := fold_left (fun s e => grow e s) evts s.
(** An event that replays without an error. *)
Definition enabled (e : SkillEvent) s : Prop :=
  match e with
  | SkillActivated skill => TrimSpace skill <> emp /\ is_Some (Repository_Get (as_repo s) (TrimSpace skill)) /\ TrimSpace skill ∉ as_base s
  | SkillReferenceActivated skill path =>
      IsActive s (TrimSpace skill) = true /\ reference_path path <> emp /\ ValidReferencePath (reference_path path) = true /\
      is_Some (GetReference (as_repo s) (TrimSpace skill) (reference_path path))
  end.
Fixpoint enabled_all evts s : Prop := match evts with [] => True | e :: rest => enabled e s /\ enabled_all rest (grow e s) end.
Definition grown s evts t : Prop := t = grow_all evts s /\ enabled_all evts s.

Lemma extends_grow e s : extends s (grow e s).
Proof. destruct s, e; split; cbn; set_solver. Qed.
Lemma grow_mono e s t : extends s t -> extends (grow e s) (grow e t).
Proof. destruct s, t, e; intros [? ? ? ?]; split; cbn in *; set_solver. Qed.
Lemma extends_grow_all evts s : extends s (grow_all evts s).
Proof. revert s. induction evts as [|e evts IH]; intros s; [done|]. cbn. etrans; [apply extends_grow|apply IH]. Qed.
Lemma grown_refl s : grown s [] s.
Proof. by split. Qed.
Lemma grown_app s t u evts1 evts2 : grown s evts1 t -> grown t evts2 u -> grown s (evts1 ++ evts2) u.
Proof.
  intros [-> H1] [-> H2]. split; [unfold grow_all; by rewrite fold_left_app|]. revert s H1 H2.
  induction evts1 as [|e evts1 IH]; intros s; cbn; [done|]. intros [? ?] ?. split; [done|]. by apply IH.
Qed.
Lemma Status_trim s skill : Skill_Status s (TrimSpace skill) = Skill_Status s skill.
Proof. unfold Skill_Status. by rewrite TrimSpace_idem. Qed.
Lemma active_mono s t skill : extends s t -> IsActive s skill = true -> IsActive t skill = true.
Proof.
  unfold IsActive, Skill_Status. intros [_ -> Hd _]. rewrite !negb_true_iff, !bool_decide_eq_false.
  repeat case_decide; try done; set_solver.
Qed.
Lemma enabled_mono e s t : extends s t -> enabled e s -> enabled e t.
Proof.
  intros H. pose proof H as [Hr Hb _ _]. destruct e; cbn; rewrite <- Hr; [by rewrite <- Hb|]. intros (Ha & ?). split; [by eapply active_mono|done].
Qed.

(** ** Paths *)

Lemma replace_idem (s : string) : replace_byte backslash slash_byte (replace_byte backslash slash_byte s) = replace_byte backslash slash_byte s.
Proof. induction s as [|c s IH]; cbn; [done|]. rewrite IH. by destruct (Ascii.eqb c backslash) eqn:E; rewrite ?E. Qed.
Lemma replace_free (s : string) : free_of backslash s -> replace_byte backslash slash_byte s = s.
Proof.
  rewrite free_of_spec. induction s as [|c s IH]; cbn; [done|]. intros [Hc Hs]%not_elem_of_cons. rewrite IH by done.
  by destruct (Ascii.eqb_spec c backslash).
Qed.
Lemma replaced_free (s : string) : free_of backslash (replace_byte backslash slash_byte s).
Proof.
  rewrite free_of_spec. induction s as [|c s IH]; cbn; [by apply not_elem_of_nil|]. apply not_elem_of_cons. split; [|done].
  by destruct (Ascii.eqb_spec c backslash) as [->|].
Qed.
Lemma reference_path_idem path : reference_path (reference_path path) = reference_path path.
Proof. unfold reference_path at 1. rewrite replace_free; [apply TrimSpace_idem|apply free_of_trim, replaced_free]. Qed.

(** ** Activations grow by what they emit *)

Lemma ActivateSkill_grown skill s t r : ActivateSkill skill s = (t, r) ->
  grown s (match r with Ok (_, true) => [SkillActivated skill] | _ => [] end) t.
Proof.
  unfold ActivateSkill. case_decide as Hne; [intros [= <- <-]; apply grown_refl|].
  destruct (Repository_Get _ _) as [spec|] eqn:E; [|intros [= <- <-]; apply grown_refl].
  case_decide as Hs; intros [= <- <-]; [apply grown_refl|]. split; [done|]. cbn. split; [|done].
  split; [done|]. split; [by rewrite E|]. unfold Skill_Status in Hs. rewrite TrimSpace_idem in Hs. by case_decide.
Qed.
Lemma requested_spec repo skill paths seen requested out : requested_references repo skill paths seen requested = Ok out ->
  exists rest, out = requested ++ rest /\
    Forall (fun path => reference_path path = path /\ path <> emp /\ ValidReferencePath path = true /\ is_Some (GetReference repo skill path)) rest.
Proof.
  revert seen requested. induction paths as [|raw paths IH]; intros seen requested; cbn [requested_references].
  { intros [= <-]. exists []. by rewrite app_nil_r. }
  case_decide as Hs; [apply IH|]. assert (Hne : reference_path raw <> emp) by tauto. destruct (ValidReferencePath _) eqn:Ev; cbn [negb]; [|done].
  destruct (GetReference _ _ _) as [ref|] eqn:Er; [|done]. intros (rest & -> & Hrest)%IH. exists (reference_path raw :: rest).
  split; [by rewrite <- app_assoc|]. constructor; [|done]. rewrite reference_path_idem. split; [done|]. split; [done|]. split; [done|]. by rewrite Er.
Qed.
Lemma activate_fold skill paths refs out refs' out' : fold_left (activate_reference skill) paths (refs, out) = (refs', out') ->
  exists new, out' = out ++ new /\ new ⊆ paths /\ refs' = list_to_set (pair skill <$> new) ∪ refs.
Proof.
  revert refs out. induction paths as [|path paths IH]; intros refs out; cbn [fold_left].
  { intros [= <- <-]. exists []. rewrite app_nil_r. split; [done|]. split; [done|]. cbn. set_solver. }
  unfold activate_reference at 2. cbn [fst snd]. case_decide as Hin; intros (new & -> & Hsub & ->)%IH.
  - exists new. split; [done|]. split; [set_solver|done].
  - exists (path :: new). split; [by rewrite <- app_assoc|]. split; [set_solver|]. cbn. set_solver.
Qed.
Lemma references_grown skill paths s :
  IsActive s (TrimSpace skill) = true ->
  Forall (fun path => reference_path path = path /\ path <> emp /\ ValidReferencePath path = true /\ is_Some (GetReference (as_repo s) (TrimSpace skill) path)) paths ->
  grown s (map (SkillReferenceActivated skill) paths) (s <| as_references := list_to_set (pair (TrimSpace skill) <$> paths) ∪ as_references s |>).
Proof.
  revert s. induction paths as [|path paths IH]; intros s Ha Hp.
  { cbn. destruct s as [repo base dynamic references]. unfold grown. cbn. split; [|done]. f_equal. set_solver. }
  apply Forall_cons in Hp as [(Hid & Hne & Hv & Hr) Hp]. cbn [map]. pose (e := SkillReferenceActivated skill path).
  apply (grown_app s (grow e s) _ [e]); [split; [done|]; cbn; rewrite Hid; done|].
  replace (s <| as_references := _ |>) with ((grow e s) <| as_references := list_to_set (pair (TrimSpace skill) <$> paths) ∪ as_references (grow e s) |>).
  - apply (IH (grow e s)); [eapply active_mono; [apply (extends_grow e)|done]|done].
  - destruct s. unfold e. cbn. rewrite Hid. f_equal. set_solver.
Qed.
Lemma ActivateReferences_grown skill paths s t r : ActivateReferences skill paths s = (t, r) ->
  grown s (match r with Ok activated => map (SkillReferenceActivated skill) activated | Err _ => [] end) t.
Proof.
  unfold ActivateReferences. destruct (IsActive s (TrimSpace skill)) eqn:Ha; cbn [negb]; [|intros [= <- <-]; apply grown_refl].
  destruct (requested_references _ _ _ _ _) as [requested|e] eqn:Er; [|intros [= <- <-]; apply grown_refl].
  apply requested_spec in Er as (rest & -> & Hrest). cbn [app]. destruct (fold_left _ _ _) as [refs activated] eqn:Ef. intros [= <- <-].
  apply activate_fold in Ef as (new & -> & Hsub & ->). cbn [app]. pose proof (merge_sort_Permutation (key_le (fun x : string => x)) new) as Hperm.
  replace (list_to_set (pair (TrimSpace skill) <$> new)) with (list_to_set (C := gset (string * string)) (pair (TrimSpace skill) <$> sort_Strings new)).
  - apply references_grown; [done|]. rewrite Forall_forall in Hrest |- *. intros path Hin. apply Hrest, Hsub. unfold sort_Strings, sort_by in Hin. by rewrite Hperm in Hin.
  - apply set_eq. intros x. rewrite !elem_of_list_to_set. unfold sort_Strings, sort_by. by rewrite Hperm.
Qed.

(** ** Steps of a session *)

Inductive skill_step : ActivationState -> list SkillEvent -> ActivationState -> Prop :=
| step_surface_skill skill s s' evts e : activateSurfaceSkill skill s = (s', evts, e) -> skill_step s evts s'
| step_surface_reference skill path s s' evts e : activateSurfaceReference skill path s = (s', evts, e) -> skill_step s evts s'
| step_operation items s s' evts out : runSkillOperation items (Some s) = (Some s', evts, out) -> skill_step s evts s'.
Inductive skill_run : ActivationState -> list SkillEvent -> ActivationState -> Prop :=
| run_nil s : skill_run s [] s
| run_step s t u evts1 evts2 : skill_step s evts1 t -> skill_run t evts2 u -> skill_run s (evts1 ++ evts2) u.

Lemma surface_skill_grown skill s t evts e : activateSurfaceSkill skill s = (t, evts, e) -> grown s evts t.
Proof.
  unfold activateSurfaceSkill. destruct (ActivateSkill skill s) as [u r] eqn:E. apply ActivateSkill_grown in E.
  destruct r as [[status []]|]; intros [= <- <- _]; exact E.
Qed.
Lemma surface_reference_grown skill path s t evts e : activateSurfaceReference skill path s = (t, evts, e) -> grown s evts t.
Proof.
  unfold activateSurfaceReference. destruct (activateSurfaceSkill skill s) as [[u evts1] e1] eqn:E. apply surface_skill_grown in E.
  destruct e1; [intros [= <- <- _]; exact E|]. destruct (ActivateReferences skill [path] u) as [v r] eqn:Er. apply ActivateReferences_grown in Er.
  destruct r; intros [= <- <- _]; [by eapply grown_app|]. rewrite <- (app_nil_r evts1). by eapply grown_app.
Qed.
Lemma action_grown item s t evts result : run_action item s = (t, evts, result) -> grown s evts t.
Proof.
  unfold run_action. case_decide; [|intros [= <- <- _]; apply grown_refl]. unfold applyActivate. cbn [sr_Skill].
  case_decide; [intros [= <- <- _]; apply grown_refl|]. case_decide; [intros [= <- <- _]; apply grown_refl|].
  destruct (ActivateSkill _ s) as [u r] eqn:E. apply ActivateSkill_grown in E.
  destruct r as [[status changed]|e]; [|intros [= <- <- _]; exact E].
  assert (Hu : grown s (if changed then [SkillActivated (TrimSpace (sa_Skill item))] else []) u) by (by destruct changed).
  case_decide; [intros [= <- <- _]; exact Hu|]. destruct (ActivateReferences _ _ u) as [v r] eqn:Er. apply ActivateReferences_grown in Er.
  destruct r; intros [= <- <- _]; [by eapply grown_app|]. rewrite <- (app_nil_r (if changed then _ else _)). by eapply grown_app.
Qed.
Lemma actions_grown items s t evts results : run_actions items s = (t, evts, results) -> grown s evts t.
Proof.
  revert s evts results. induction items as [|item items IH]; intros s evts results; cbn [run_actions]; [intros [= <- <- _]; apply grown_refl|].
  destruct (run_action item s) as [[u evts1] result] eqn:E. apply action_grown in E.
  destruct (run_actions items u) as [[v evts2] results2] eqn:Er. intros [= <- <- _]. eapply grown_app; [exact E|by eapply IH].
Qed.
Lemma step_grown s evts t : skill_step s evts t -> grown s evts t.
Proof.
  intros [? ? ? ? ? H|? ? ? ? ? ? H|items s1 s2 evts1 out H]; [by eapply surface_skill_grown|by eapply surface_reference_grown|].
  unfold runSkillOperation in H. case_decide; [injection H as <- <- _; apply grown_refl|].
  destruct (run_actions items s1) as [[u evts2] results] eqn:E. injection H as <- <- _. by eapply actions_grown.
Qed.
Lemma run_grown s evts t : skill_run s evts t -> grown s evts t.
Proof. induction 1 as [s|s t u evts1 evts2 H _ IH]; [apply grown_refl|]. eapply grown_app; [by apply step_grown|done]. Qed.

(** ** Replay *)

(** A record carries an event as it was emitted, by reference, or decoded; other records do not count. *)
Inductive carries : SkillPayload -> SkillEvent -> Prop :=
| carries_typed e : carries (TypedPayload e) e
| carries_skill skill : carries (MapPayload skill emp) (SkillActivated skill)
| carries_reference skill path : carries (MapPayload skill path) (SkillReferenceActivated skill path).
Inductive logged : list (bool * SkillPayload) -> list SkillEvent -> Prop :=
| logged_nil : logged [] []
| logged_event payload e records evts : carries payload e -> logged records evts -> logged ((true, payload) :: records) (e :: evts)
| logged_other payload records evts : logged records evts -> logged ((false, payload) :: records) evts.

Lemma apply_typed e s : enabled e s -> ApplyEvent (TypedPayload e) s = (grow e s, None).
Proof.
  destruct e as [skill|skill path]; cbn [enabled ApplyEvent grow]; unfold result_error.
  - intros (Hne & [spec Hg] & Hb). unfold ActivateSkill. rewrite decide_False by done. rewrite Hg. rewrite Status_trim.
    assert (Hs : Skill_Status s skill = if decide (TrimSpace skill ∈ as_dynamic s) then StatusDynamic else StatusInactive)
      by (unfold Skill_Status; by rewrite decide_False by done).
    rewrite Hs. destruct (decide (TrimSpace skill ∈ as_dynamic s)) as [Hd|].
    + rewrite decide_True by done. cbn. f_equal. destruct s. cbn in *. f_equal. set_solver.
    + by rewrite decide_False by (by intros []).
  - intros (Ha & Hne & Hv & [ref Hr]). unfold ActivateReferences. rewrite Ha. cbn [negb requested_references].
    rewrite decide_False by (intros [?|?]; [done|set_solver]). rewrite Hv, Hr. cbn [negb app fold_left].
    unfold activate_reference. cbn [fst snd]. case_decide as Hin; cbn; [|done]. f_equal. destruct s. cbn in *. f_equal. set_solver.
Qed.
Lemma apply_carried payload e s : carries payload e -> enabled e s -> ApplyEvent payload s = (grow e s, None).
Proof.
  intros Hc He. rewrite <- (apply_typed e s He). destruct Hc as [e|skill|skill path]; [done|cbn; by rewrite decide_False by (by intros [])|]. cbn. rewrite decide_True; [done|].
  destruct He as (_ & Hne & _). intros ->. by vm_compute in Hne.
Qed.
Lemma replay_between s t u evts records : logged records evts -> grown s evts u -> extends s t -> extends t u -> replay_skills records t = (u, None).
Proof.
  intros Hl. revert s t. induction Hl as [|payload e records evts Hc Hl IH|payload records evts Hl IH]; intros s t [Hu He] Hst Htu.
  - cbn in Hu. subst u. cbn. f_equal. by apply extends_antisym.
  - cbn in He. destruct He as [He Hrest]. cbn [replay_skills ApplyNamedEvent].
    rewrite (apply_carried payload e t Hc) by (by eapply enabled_mono). apply (IH (grow e s)); [by split|by apply grow_mono|].
    assert (Hs : extends (grow e s) u) by (rewrite Hu; apply (extends_grow_all evts)).
    destruct Hs as [? ? ? ?], Htu as [? ? ? ?]. destruct t, u, e; split; cbn in *; set_solver.
  - cbn. by apply (IH s).
Qed.

(** C25: The events emitted on the way from one activation state to another restore the second: replayed from
    the first, or again from any state in between, as each input of a session does. *)
Theorem skills_restored s t u evts records :
  skill_run s evts u -> logged records evts -> extends s t -> extends t u -> replay_skills records t = (u, None).
Proof. intros H%run_grown Hl. by apply (replay_between s t u evts). Qed.
End Replay.

(** * Skills on concrete inputs

    A repository of two skills, a run of the plugin's operation and of the surface, its replay; and what the
    context and a repository that changed make of it. *)

Module SkillDemo.
(** A path of a reference is valid under the directory of references. *)
#[export] Instance skills : SkillModule := {
  SkillSpec_Validate spec := if blank (sk_Name spec) then Some "skill name is empty"%string else None;
  ValidReferencePath path := HasPrefix path "references/"
}.
#[export] Instance context : ContextModule := {
  NormalizePlacement placement := if decide (placement = emp) then "user"%string else placement;
  ProviderSpec_Validate spec := None;
  block_json block := bl_Content block;
  sha256_hex text := text;
  EscapeText text := text
}.
Definition reference (path : string) : ReferenceSpec := mkReferenceSpec path "Read this." [] ∅.
Definition specs : list SkillSpec :=
  [mkSkillSpec "go" "Go code" "Use gofmt." emp ["golang"] [reference "references/style_guide.md"; reference "references/style/guide.md"] ∅;
   mkSkillSpec "review" "Reviews" "Be kind." emp [] [] ∅]%string.
Definition repo : Repository := match NewRepository specs with Ok r => r | Err _ => mkRepository ∅ [] end.
Definition start : ActivationState := match NewActivationState repo ["review"%string] with Ok s => s | Err _ => mkActivation repo ∅ ∅ ∅ end.

Definition actions : list SkillAction :=
  [mkSkillAction "activate" " go " []; mkSkillAction "activate" "go" ["references\style_guide.md"]; mkSkillAction "activate" "rust" []]%string.
Definition later : ActivationState := (activateSurfaceReference "go" "references/style/guide.md"
  (match runSkillOperation actions (Some start) with (Some s, _, _) => s | _ => start end)).1.1.
Definition events : list SkillEvent :=
  [SkillActivated "go"; SkillReferenceActivated "go" "references/style_guide.md"; SkillReferenceActivated "go" "references/style/guide.md"]%string.
Lemma ran : skill_run start events later.
Proof.
  apply (run_step start (match runSkillOperation actions (Some start) with (Some s, _, _) => s | _ => start end) later (take 2 events) (drop 2 events)).
  - eapply (step_operation actions). vm_compute. reflexivity.
  - apply (run_step _ later later (drop 2 events) []); [|constructor]. apply (step_surface_reference "go" "references/style/guide.md" _ _ _ None). vm_compute. reflexivity.
Qed.
Definition records : list (bool * SkillPayload) :=
  [(true, TypedPayload (SkillActivated "go")); (false, OtherPayload); (true, MapPayload "go" "references/style_guide.md");
   (true, TypedPayload (SkillReferenceActivated "go" "references/style/guide.md"))]%string.
Lemma skills_restored_witness :
  replay_skills records start = (later, None) /\ replay_skills records later = (later, None) /\
  ActiveSkillNames later = ["go"; "review"]%string.
Proof.
  assert (Hl : logged records events) by (repeat constructor).
  assert (He : extends start later) by (destruct (run_grown _ _ _ ran) as [-> _]; apply extends_grow_all).
  split; [|split; [|vm_compute; reflexivity]].
  - exact (skills_restored start start later events records ran Hl (extends_grow_all [] start) He).
  - exact (skills_restored start later later events records ran Hl He (extends_grow_all [] later)).
Defined.

(** ** What can go wrong *)

(** A skill that is no longer in the repository stops the replay, which each input begins with. *)
Definition later_repo : Repository := match NewRepository (drop 1 specs) with Ok r => r | Err _ => repo end.
Lemma removed_skill_fails : (replay_skills records (mkActivation later_repo {["review"%string]} ∅ ∅)).2 = Some (SkillNotFound "go").
Proof. vm_compute. reflexivity. Qed.
(** Two paths of one skill have the same identifier in its context: with both active no context is built. *)
Lemma reference_blocks_collide :
  bl_ID <$> skill_blocks None (Some later) =
    ["skills/catalog/go"; "skills/references/go/references_style_guide.md"; "skills/references/go/references_style_guide.md"; "skills/catalog/review"]%string /\
  match (Build (Observation := unit) (NewMaterializer [skill_provider (Some repo) (Some later)] ∅) (mkBuildRequest "thread" "main" "turn" "turn" emp emp ∅ [] 0 None)).2 with
  | Err (ProviderBlocksInvalid "skills" (BlockDuplicate _)) => True
  | _ => False
  end.
Proof. vm_compute. done. Qed.
End SkillDemo.
