(* ===== verification/Surface.v ===== *)
(** * The surface of a session (src/core/activation, ActiveState of src/orchestration/sessionenv/reactions.go)

    What may be prepared for a session to use, the events that tell of it, the read model of these events,
    and the state of a turn that holds what is active. *)

From stdpp Require Import sorting pretty.
From S2P Require Import Prelude Operation NamedInstance Resource Materializer.

(** References to operations, of package fluxplane-operation. *)
Class RefModule := {
  Ref : Type;
  Ref_eq_dec :: EqDecision Ref;
  Ref_countable :: Countable Ref;
  Ref_Name : Ref -> string;
  Ref_text : Ref -> string;
  Ref_IsZero : Ref -> bool;
  mkRef : string -> string -> Ref;
  Ref_Matches : Ref -> Ref -> bool
}.
(** [ValidReferencePath] of package fluxplane-skill, and the quotation of texts. *)
Class ActivationTexts := { ValidSkillPath : string -> bool; quoted : string -> string }.

Section Surface.
Context {RM : RefModule} {AT : ActivationTexts}.

(** ** Sets and targets (activation.go)

    References to skills, datasources and context providers are their names. *)

Inductive ActTarget :=
| ActOperation | ActOperationSet | ActCommand | ActWorkflow | ActSkill | ActReference | ActContextProvider | ActDatasource | ActResource
| ActInlineContext | ActOther (kind : string).
#[global] Instance ActTarget_eq_dec : EqDecision ActTarget.
Proof. solve_decision. Defined.
Definition target_text (kind : ActTarget) : string :=
  match kind with
  | ActOperation => "operation" | ActOperationSet => "operation_set" | ActCommand => "command" | ActWorkflow => "workflow"
  | ActSkill => "skill" | ActReference => "reference" | ActContextProvider => "context_provider" | ActDatasource => "datasource"
  | ActResource => "resource" | ActInlineContext => "inline_context" | ActOther kind => kind
  end%string.
Record ReferenceTarget := mkReferenceTarget { rt_Skill : string; rt_Path : string }.
#[global] Instance ReferenceTarget_eq_dec : EqDecision ReferenceTarget.
Proof. solve_decision. Defined.
Record ContextTarget := mkContextTarget {
  ctx_ID : string; ctx_Title : string; ctx_Content : string; ctx_Template : string; ctx_Placement : string; ctx_MediaType : string;
  ctx_Annotations : gmap string string }.
Record ActivationTarget := mkActivationTarget {
  tg_Kind : ActTarget;
  tg_Operation : Ref;
  tg_OperationSet : string;
  tg_Command : list string;
  tg_Workflow : string;
  tg_Skill : string;
  tg_Reference : ReferenceTarget;
  tg_ContextProvider : string;
  tg_Datasource : string;
  tg_ResourceAddr : string;
  tg_InlineContext : option ContextTarget
}.
Record ActivationSet := mkActivationSet { set_Name : string; set_Aliases : list string; set_Targets : list ActivationTarget }.

Inductive ActivationError :=
| SetNameEmpty
| AliasEmpty (i : nat)
| AliasIsName (i : nat)
| AliasDuplicated (alias : string)
| SetNoTargets
| TargetInvalid (i : nat) (e : ActivationError)
| KindInvalid
| RefsPopulated (n : nat)
| WrongRef (expected got : string)
| NameEmpty (what : string)
| PathInvalid (path : string)
| ContentEmpty
| PlacementInvalid (placement : string).
Definition validKind (kind : ActTarget) : bool := match kind with ActOther _ => false | _ => true end.
Definition validCommandPath (path : list string) : bool := forallb (fun part => negb (blank part)) path && negb (bool_decide (path = [])).
Definition ReferenceTarget_IsZero (t : ReferenceTarget) : bool := blank (rt_Skill t) && blank (rt_Path t).
Definition ReferenceTarget_Validate (t : ReferenceTarget) : option ActivationError :=
  if blank (rt_Skill t) then Some (NameEmpty "reference skill") else if negb (ValidSkillPath (rt_Path t)) then Some (PathInvalid (rt_Path t)) else None.
Definition placements : list string := [emp; "user"; "system"; "developer"]%string.
Definition ContextTarget_Validate (t : option ContextTarget) : option ActivationError :=
  match t with
  | None => Some (NameEmpty "inline_context")
  | Some t =>
      if blank (ctx_ID t) then Some (NameEmpty "inline_context id")
      else if blank (ctx_Content t) && blank (ctx_Template t) then Some ContentEmpty
      else if decide (ctx_Placement t ∈ placements) then None else Some (PlacementInvalid (ctx_Placement t))
  end.
Definition populatedRefs (t : ActivationTarget) : list string :=
  (if Ref_IsZero (tg_Operation t) then [] else [target_text ActOperation]) ++
  (if blank (tg_OperationSet t) then [] else [target_text ActOperationSet]) ++
  (if validCommandPath (tg_Command t) then [target_text ActCommand] else []) ++
  (if blank (tg_Workflow t) then [] else [target_text ActWorkflow]) ++
  (if blank (tg_Skill t) then [] else [target_text ActSkill]) ++
  (if ReferenceTarget_IsZero (tg_Reference t) then [] else [target_text ActReference]) ++
  (if blank (tg_ContextProvider t) then [] else [target_text ActContextProvider]) ++
  (if blank (tg_Datasource t) then [] else [target_text ActDatasource]) ++
  (if blank (tg_ResourceAddr t) then [] else [target_text ActResource]) ++
  (match tg_InlineContext t with None => [] | Some _ => [target_text ActInlineContext] end).
Definition Target_Validate (t : ActivationTarget) : option ActivationError :=
  if negb (validKind (tg_Kind t)) then Some KindInvalid else
  match populatedRefs t with
  | [ref] =>
      if decide (ref <> target_text (tg_Kind t)) then Some (WrongRef (target_text (tg_Kind t)) ref) else
      match tg_Kind t with
      | ActOperation => if blank (Ref_Name (tg_Operation t)) then Some (NameEmpty "operation") else None
      | ActOperationSet => if blank (tg_OperationSet t) then Some (NameEmpty "operation_set") else None
      | ActCommand => if validCommandPath (tg_Command t) then None else Some (NameEmpty "command path")
      | ActWorkflow => if blank (tg_Workflow t) then Some (NameEmpty "workflow") else None
      | ActSkill => if blank (tg_Skill t) then Some (NameEmpty "skill") else None
      | ActReference => ReferenceTarget_Validate (tg_Reference t)
      | ActContextProvider => if blank (tg_ContextProvider t) then Some (NameEmpty "context_provider") else None
      | ActDatasource => if blank (tg_Datasource t) then Some (NameEmpty "datasource") else None
      | ActResource => if blank (tg_ResourceAddr t) then Some (NameEmpty "resource address") else None
      | ActInlineContext => ContextTarget_Validate (tg_InlineContext t)
      | ActOther _ => None
      end
  | refs => Some (RefsPopulated (length refs))
  end.
Fixpoint check_aliases (name : string) (i : nat) (aliases : list string) (seen : gset string) : option ActivationError :=
  match aliases with
  | [] => None
  | alias :: rest =>
      let alias := TrimSpace alias in
      if decide (alias = emp) then Some (AliasEmpty i)
      else if decide (alias = name) then Some (AliasIsName i)
      else if decide (alias ∈ seen) then Some (AliasDuplicated alias)
      else check_aliases name (S i) rest ({[alias]} ∪ seen)
  end.
Fixpoint check_targets (i : nat) (targets : list ActivationTarget) : option ActivationError :=
  match targets with
  | [] => None
  | t :: rest => match Target_Validate t with Some e => Some (TargetInvalid i e) | None => check_targets (S i) rest end
  end.
Definition Set_Validate (s : ActivationSet) : option ActivationError :=
  let name := TrimSpace (set_Name s) in
  if decide (name = emp) then Some SetNameEmpty else
  match check_aliases name 0 (set_Aliases s) ∅ with
  | Some e => Some e
  | None => if decide (length (set_Targets s) = 0) then Some SetNoTargets else check_targets 0 (set_Targets s)
  end.

(** ** Events (events.go) *)

Inductive Lifetime := NoLifetime | LifetimeTurn | LifetimeRun | LifetimeSession | OtherLifetime (text : string).
#[global] Instance Lifetime_eq_dec : EqDecision Lifetime.
Proof. solve_decision. Defined.
Record SurfaceDiagnostic := mkSurfaceDiagnostic { sd_Term : string; sd_Target : string; sd_Reason : string; sd_Message : string }.
Record ResolvedResource := mkResolvedResource { rr_Kind : ActTarget; rr_Name : string; rr_Address : string; rr_Alias : string }.
(** The focus a session works on; subjects are a name and an identifier, and the confidence is only copied. *)
Record Focus := mkFocus {
  fc_Objective : string; fc_Intents : list string; fc_Subjects : list (string * string); fc_Sources : list (string * string);
  fc_Source : string; fc_Confidence : Z }.
Record ResolvedEvent := mkResolvedEvent {
  re_ActivationSets : list string; re_Resources : list ResolvedResource; re_UnmatchedTerms : list string;
  re_Skipped : list SurfaceDiagnostic; re_Diagnostics : list SurfaceDiagnostic }.
#[global] Instance rebuild_ResolvedEvent : Rebuild ResolvedEvent := fun e =>
  mkResolvedEvent e.(re_ActivationSets) e.(re_Resources) e.(re_UnmatchedTerms) e.(re_Skipped) e.(re_Diagnostics).
(** The resources of a surface: those that are prepared, active or expired. *)
Record SurfaceItems := mkSurfaceItems {
  su_ActivationSets : list string;
  su_Operations : list Ref;
  su_OperationSets : list string;
  su_ContextProviders : list string;
  su_Datasources : list string;
  su_Skills : list string;
  su_References : list ReferenceTarget;
  su_InlineContexts : list string
}.
#[global] Instance rebuild_SurfaceItems : Rebuild SurfaceItems := fun s =>
  mkSurfaceItems s.(su_ActivationSets) s.(su_Operations) s.(su_OperationSets) s.(su_ContextProviders) s.(su_Datasources) s.(su_Skills)
    s.(su_References) s.(su_InlineContexts).
#[global] Instance SurfaceItems_eq_dec : EqDecision SurfaceItems.
Proof. solve_decision. Defined.
Definition no_items : SurfaceItems := mkSurfaceItems [] [] [] [] [] [] [] [].
Record PreparedEvent := mkPreparedEvent { pe_Items : SurfaceItems; pe_Lifetime : Lifetime; pe_Source : string; pe_Diagnostics : list SurfaceDiagnostic }.
#[global] Instance rebuild_PreparedEvent : Rebuild PreparedEvent := fun e => mkPreparedEvent e.(pe_Items) e.(pe_Lifetime) e.(pe_Source) e.(pe_Diagnostics).
Record SkippedEvent := mkSkippedEvent { se_ActivationSet : string; se_Resource : string; se_Reason : string; se_Source : string; se_Diagnostic : SurfaceDiagnostic }.
Record ExpiredEvent := mkExpiredEvent { xe_Items : SurfaceItems; xe_Lifetime : Lifetime; xe_Reason : string }.
Inductive SurfaceEvent :=
| FocusDetected (f : Focus)
| SurfacePrepareRequested (terms : list string) (objective : string) (lifetime : Lifetime) (source : string)
| SurfaceResolved (e : ResolvedEvent)
| SurfacePrepared (e : PreparedEvent)
| SurfacePrepareSkipped (e : SkippedEvent)
| SurfaceExpired (e : ExpiredEvent).
Inductive EventKind := KFocusDetected | KPrepareRequested | KResolved | KPrepared | KSkipped | KExpired.

(** ** Read model (readmodel.go) *)

Record FocusSummary := mkFocusSummary {
  fs_Objective : string; fs_Intents : list string; fs_Subjects : list string; fs_Sources : list (string * string); fs_Source : string; fs_Confidence : Z }.
Record TraceEntry := mkTraceEntry { te_Event : EventKind; te_Summary : string; te_Source : string }.
(** [ActiveSurface] and [ReadModel]. *)
Record ReadModel := mkReadModel {
  rm_Focus : option FocusSummary;
  rm_Items : SurfaceItems;
  rm_Lifetime : Lifetime;
  rm_Recent : list TraceEntry;
  rm_Diagnostics : list SurfaceDiagnostic
}.
#[global] Instance rebuild_ReadModel : Rebuild ReadModel := fun m => mkReadModel m.(rm_Focus) m.(rm_Items) m.(rm_Lifetime) m.(rm_Recent) m.(rm_Diagnostics).
Definition zero_ReadModel : ReadModel := mkReadModel None no_items NoLifetime [] [].

Definition joinNonEmpty (values : list string) : string := Join (List.filter is_nonempty (map TrimSpace values)) " ".
Definition firstNonEmpty (values : list string) : string := default emp (List.find is_nonempty (map TrimSpace values)).
Definition maxTrace : nat := 32.
Definition appendTrace (kind : EventKind) (summary source : string) (m : ReadModel) : ReadModel :=
  let recent := rm_Recent m ++ [mkTraceEntry kind summary source] in
  m <| rm_Recent := if decide (maxTrace < length recent) then drop (length recent - maxTrace) recent else recent |>.
Definition count_part (name : string) (n : nat) : list string := if decide (n = 0) then [] else [(name ++ "=" ++ pretty n)%string].
Definition preparedSummary (e : PreparedEvent) : string :=
  let items := pe_Items e in
  Join ((if decide (su_ActivationSets items = []) then [] else [Join (su_ActivationSets items) ", "]) ++
        count_part "operation_sets" (length (su_OperationSets items)) ++ count_part "operations" (length (su_Operations items)) ++
        count_part "context" (length (su_ContextProviders items)) ++ count_part "datasources" (length (su_Datasources items)) ++
        count_part "skills" (length (su_Skills items))) " ".
Definition resourcesSummary (resources : list ResolvedResource) : string :=
  Join (sort_Strings (omap (fun r =>
    let label := firstNonEmpty [rr_Alias r; rr_Name r; rr_Address r] in
    if decide (label = emp) then None else Some (target_text (rr_Kind r) ++ ":" ++ label)%string) resources)) ", ".

(** Values by their keys, the later ones winning; the values of a map in the order of their texts. *)
Section Merge.
Context {A : Type} (key order : A -> string) (keep : A -> bool).
Definition add_value (m : gmap string A) (v : A) : gmap string A := if keep v then <[key v := v]> m else m.
Definition sorted_map (m : gmap string A) : list A := sort_by order (map snd (map_to_list m)).
Definition merge_values (base add : list A) : list A := sorted_map (fold_left add_value (base ++ add) ∅).
Definition remove_values (base remove : list A) : list A :=
  merge_values [] (List.filter (fun v => keep v && negb (bool_decide (key v ∈ map key remove))) base).
End Merge.
Definition mergeStrings (base add : list string) : list string :=
  merge_values (fun s => s) (fun s => s) is_nonempty (map TrimSpace base) (map TrimSpace add).
(** Strings stay as often as they are in the list. *)
Definition removeStrings (base remove : list string) : list string :=
  sort_Strings (List.filter (fun s => is_nonempty s && negb (bool_decide (s ∈ map TrimSpace remove))) (map TrimSpace base)).
Definition named (name : string) : bool := negb (blank name).
Definition mergeContextProviderRefs : list string -> list string -> list string := merge_values TrimSpace (fun s => s) named.
Definition removeContextProviderRefs : list string -> list string -> list string := remove_values TrimSpace (fun s => s) named.
Definition mergeDatasourceRefs : list string -> list string -> list string := merge_values TrimSpace (fun s => s) named.
Definition removeDatasourceRefs : list string -> list string -> list string := remove_values TrimSpace (fun s => s) named.
Definition mergeSkillRefs : list string -> list string -> list string := merge_values TrimSpace (fun s => s) named.
Definition removeSkillRefs : list string -> list string -> list string := remove_values TrimSpace (fun s => s) named.
Definition has_text (ref : Ref) : bool := is_nonempty (Ref_text ref).
Definition mergeOperationRefs : list Ref -> list Ref -> list Ref := merge_values Ref_text Ref_text has_text.
Definition removeOperationRefs : list Ref -> list Ref -> list Ref := remove_values Ref_text Ref_text has_text.
Definition reference_key (t : ReferenceTarget) : string := (rt_Skill t ++ nul_byte ++ rt_Path t)%string.
Definition is_reference (t : ReferenceTarget) : bool := negb (bool_decide (TrimSpace (reference_key t) = nul_byte)).
Definition mergeReferenceTargets : list ReferenceTarget -> list ReferenceTarget -> list ReferenceTarget := merge_values reference_key reference_key is_reference.
Definition removeReferenceTargets : list ReferenceTarget -> list ReferenceTarget -> list ReferenceTarget :=
  fun base remove => mergeReferenceTargets [] (List.filter (fun t => negb (bool_decide (reference_key t ∈ map reference_key remove))) base).

Definition merge_items (base add : SurfaceItems) : SurfaceItems :=
  mkSurfaceItems (mergeStrings (su_ActivationSets base) (su_ActivationSets add)) (mergeOperationRefs (su_Operations base) (su_Operations add))
    (mergeStrings (su_OperationSets base) (su_OperationSets add)) (mergeContextProviderRefs (su_ContextProviders base) (su_ContextProviders add))
    (mergeDatasourceRefs (su_Datasources base) (su_Datasources add)) (mergeSkillRefs (su_Skills base) (su_Skills add))
    (mergeReferenceTargets (su_References base) (su_References add)) (mergeStrings (su_InlineContexts base) (su_InlineContexts add)).
Definition remove_items (base remove : SurfaceItems) : SurfaceItems :=
  mkSurfaceItems (removeStrings (su_ActivationSets base) (su_ActivationSets remove)) (removeOperationRefs (su_Operations base) (su_Operations remove))
    (removeStrings (su_OperationSets base) (su_OperationSets remove)) (removeContextProviderRefs (su_ContextProviders base) (su_ContextProviders remove))
    (removeDatasourceRefs (su_Datasources base) (su_Datasources remove)) (removeSkillRefs (su_Skills base) (su_Skills remove))
    (removeReferenceTargets (su_References base) (su_References remove)) (removeStrings (su_InlineContexts base) (su_InlineContexts remove)).
Definition subject_label (subject : string * string) : option string :=
  let label := if decide (TrimSpace subject.1 = emp) then TrimSpace subject.2 else TrimSpace subject.1 in
  if decide (label = emp) then None else Some label.
Definition applyFocusDetected (f : Focus) (m : ReadModel) : ReadModel :=
  appendTrace KFocusDetected (joinNonEmpty [fc_Objective f; Join (fc_Intents f) ", "]) (fc_Source f)
    (m <| rm_Focus := Some (mkFocusSummary (fc_Objective f) (fc_Intents f) (omap subject_label (fc_Subjects f)) (fc_Sources f) (fc_Source f) (fc_Confidence f)) |>).
Definition applyPrepared (e : PreparedEvent) (m : ReadModel) : ReadModel :=
  let m := m <| rm_Items := merge_items (rm_Items m) (pe_Items e) |> in
  let m := if decide (pe_Lifetime e = NoLifetime) then m else m <| rm_Lifetime := pe_Lifetime e |> in
  appendTrace KPrepared (preparedSummary e) (pe_Source e) (m <| rm_Diagnostics := rm_Diagnostics m ++ pe_Diagnostics e |>).
Definition applyExpired (e : ExpiredEvent) (m : ReadModel) : ReadModel :=
  let m := m <| rm_Items := remove_items (rm_Items m) (xe_Items e) |> in
  let m := if decide (xe_Lifetime e <> NoLifetime /\ rm_Lifetime m = xe_Lifetime e) then m <| rm_Lifetime := NoLifetime |> else m in
  appendTrace KExpired (joinNonEmpty [Join (su_ActivationSets (xe_Items e)) ", "; xe_Reason e]) emp m.
Definition surface_apply (e : SurfaceEvent) (m : ReadModel) : ReadModel :=
  match e with
  | FocusDetected f => applyFocusDetected f m
  | SurfacePrepareRequested terms objective _ source => appendTrace KPrepareRequested (joinNonEmpty [objective; Join terms " "]) source m
  | SurfaceResolved e =>
      let m := m <| rm_Diagnostics := rm_Diagnostics m ++ re_Diagnostics e ++ re_Skipped e |> in
      let summary := joinNonEmpty [Join (re_ActivationSets e) ", "; resourcesSummary (re_Resources e)] in
      let summary := if decide (summary = emp /\ re_UnmatchedTerms e <> []) then ("unmatched: " ++ Join (re_UnmatchedTerms e) ", ")%string else summary in
      appendTrace KResolved summary emp m
  | SurfacePrepared e => applyPrepared e m
  | SurfacePrepareSkipped e =>
      let d := se_Diagnostic e in
      let m := if decide (sd_Message d <> emp \/ sd_Reason d <> emp) then m <| rm_Diagnostics := rm_Diagnostics m ++ [d] |> else m in
      appendTrace KSkipped (joinNonEmpty [se_ActivationSet e; se_Resource e; se_Reason e]) (se_Source e) m
  | SurfaceExpired e => applyExpired e m
  end.
(** An emitted event: of another name, or with a payload that decodes or does not. *)
Definition ApplyNamed (ev : option (Result string SurfaceEvent)) (m : ReadModel) : ReadModel * option string :=
  match ev with
  | None => (m, None)
  | Some (Err e) => (m, Some e)
  | Some (Ok e) => (surface_apply e m, None)
  end.
(** [surfaceReadModel] over the emitted events of the records of a branch (session.go). *)
Fixpoint read_surface (records : list (option (Result string SurfaceEvent))) (m : ReadModel) : ReadModel * option string :=
  match records with
  | [] => (m, None)
  | ev :: rest =>
      let '(m, e) := ApplyNamed ev m in
      match e with Some e => (m, Some e) | None => read_surface rest m end
  end.

(** What the end of an input emits (expireRunSurface of session/activation.go). *)
Definition expireRunSurface (m : ReadModel) : option SurfaceEvent :=
  if decide (rm_Lifetime m <> LifetimeRun \/ rm_Items m = no_items) then None
  else Some (SurfaceExpired (mkExpiredEvent (rm_Items m) LifetimeRun "run_complete")).

(** ** Active state (reactions.go)

    The keys the maps hold with [true]. *)

Record ActiveState := mkActiveState {
  at_ActivationSets : gset string;
  at_Operations : gset Ref;
  at_OperationSets : gset string;
  at_Datasources : gset string;
  at_ContextProviders : gset string;
  at_InlineContexts : gmap string Block
}.
#[global] Instance rebuild_ActiveState : Rebuild ActiveState := fun s =>
  mkActiveState s.(at_ActivationSets) s.(at_Operations) s.(at_OperationSets) s.(at_Datasources) s.(at_ContextProviders) s.(at_InlineContexts).
Definition zero_ActiveState : ActiveState := mkActiveState ∅ ∅ ∅ ∅ ∅ ∅.
Definition EnableActivationSet (name : string) (s : ActiveState) : ActiveState * bool :=
  let name := TrimSpace name in
  if decide (name = emp \/ name ∈ at_ActivationSets s) then (s, false) else (s <| at_ActivationSets := {[name]} ∪ at_ActivationSets s |>, true).
Definition EnableOperation (ref : Ref) (s : ActiveState) : ActiveState * bool :=
  if decide (blank (Ref_Name ref) \/ ref ∈ at_Operations s) then (s, false) else (s <| at_Operations := {[ref]} ∪ at_Operations s |>, true).
Definition EnableOperationSet (name : string) (s : ActiveState) : ActiveState * bool :=
  let name := TrimSpace name in
  if decide (name = emp \/ name ∈ at_OperationSets s) then (s, false) else (s <| at_OperationSets := {[name]} ∪ at_OperationSets s |>, true).
Definition EnableDatasource (name : string) (s : ActiveState) : ActiveState * bool :=
  if decide (blank name \/ name ∈ at_Datasources s) then (s, false) else (s <| at_Datasources := {[name]} ∪ at_Datasources s |>, true).
Definition EnableContextProvider (name : string) (s : ActiveState) : ActiveState * bool :=
  if decide (blank name \/ name ∈ at_ContextProviders s) then (s, false) else (s <| at_ContextProviders := {[name]} ∪ at_ContextProviders s |>, true).
Definition EnableInlineContext (block : Block) (s : ActiveState) : ActiveState * bool :=
  let id := TrimSpace (bl_ID block) in
  if decide (id = emp \/ is_Some (at_InlineContexts s !! id)) then (s, false) else (s <| at_InlineContexts := <[id := block]> (at_InlineContexts s) |>, true).
Definition enable_all {A} (enable : A -> ActiveState -> ActiveState * bool) (values : list A) (s : ActiveState) : ActiveState :=
  fold_left (fun s v => (enable v s).1) values s.

Definition sorted_names (names : gset string) : list string := sort_Strings (List.filter named (elements names)).
(** [ActiveSurface] of an active state: it knows no skills and no references. *)
Definition ActiveSurface (s : ActiveState) : SurfaceItems :=
  mkSurfaceItems (sorted_names (at_ActivationSets s)) (sort_by Ref_text (List.filter (fun ref => named (Ref_Name ref)) (elements (at_Operations s))))
    (sorted_names (at_OperationSets s)) (sorted_names (at_ContextProviders s)) (sorted_names (at_Datasources s)) [] []
    (sort_Strings (List.filter named (map fst (map_to_list (at_InlineContexts s))))).
Definition mergeActiveState (left right : ActiveState) : ActiveState :=
  let s := enable_all EnableActivationSet (elements (at_ActivationSets right)) left in
  let s := enable_all EnableOperation (elements (at_Operations right)) s in
  let s := enable_all EnableOperationSet (elements (at_OperationSets right)) s in
  let s := enable_all EnableContextProvider (elements (at_ContextProviders right)) s in
  let s := enable_all EnableDatasource (elements (at_Datasources right)) s in
  enable_all EnableInlineContext (map snd (map_to_list (at_InlineContexts right))) s.
End Surface.
