(* ===== verification/SurfaceModel.v ===== *)
(** * What the read model of a surface shows (src/core/activation/readmodel.go)

    The active surface lists, in order, exactly what was prepared and has not expired since; a surface of
    the lifetime of a run is gone after the run. *)

From stdpp Require Import sorting pretty.
From S2P Require Import Prelude Operation NamedInstance Instances Resource Materializer Surface.

(** ** Sorted values of a map *)

Section Values.
Context {A : Type} (key order : A -> string) (keep : A -> bool) (Hord : forall x y, order x = order y -> key x = key y).
Implicit Types (m : gmap string A) (l : list A) (v : A) (k : string).

Definition content l : gmap string A := fold_left (add_value key keep) l ∅.
Definition canonical m : Prop := map_Forall (fun k v => key v = k /\ keep v = true) m.
Definition without (keys : list string) m : gmap string A := filter (fun e => e.1 ∉ keys) m.

Lemma add_value_union m v : add_value key keep m v = add_value key keep ∅ v ∪ m.
Proof. unfold add_value. destruct (keep v); [by rewrite <- insert_union_l, (left_id_L ∅ (∪))|by rewrite (left_id_L ∅ (∪))]. Qed.
Lemma content_from l m : fold_left (add_value key keep) l m = content l ∪ m.
Proof.
  unfold content. revert m. induction l as [|v l IH]; intros m; cbn; [by rewrite (left_id_L ∅ (∪))|].
  rewrite IH, (IH (add_value _ _ ∅ v)), (add_value_union m), (assoc_L (∪)). done.
Qed.
Lemma content_app l1 l2 : content (l1 ++ l2) = content l2 ∪ content l1.
Proof. unfold content at 1. by rewrite fold_left_app, content_from. Qed.
Lemma content_canonical l : canonical (content l).
Proof.
  induction l as [|v l IH] using rev_ind; [done|]. rewrite content_app. apply map_Forall_union_2; [|done].
  unfold content, add_value. cbn. destruct (keep v) eqn:E; [|done]. rewrite insert_empty. by apply map_Forall_singleton.
Qed.
Lemma content_lookup l k v : NoDup (key <$> l) -> content l !! k = Some v <-> v ∈ l /\ key v = k /\ keep v = true.
Proof.
  induction l as [|x l IH] using rev_ind; intros Hnd.
  { unfold content. cbn. rewrite lookup_empty. split; [done|]. by intros [?%elem_of_nil _]. }
  rewrite fmap_app in Hnd. apply NoDup_app in Hnd as (Hnd & Hx & _). rewrite content_app.
  assert (Hkey : forall y, y ∈ l -> key y <> key x).
  { intros y Hy E. apply (Hx (key y)); [by apply list_elem_of_fmap_2|]. rewrite E. by left. }
  unfold content at 1, add_value. cbn. rewrite elem_of_app, list_elem_of_singleton. destruct (keep x) eqn:Ex.
  - rewrite insert_empty. destruct (decide (key x = k)) as [<-|Hne].
    + rewrite lookup_union_l' by (by rewrite lookup_singleton_eq). rewrite lookup_singleton_eq. split; [intros [= ->]; tauto|].
      intros [[Hv| ->] [E _]]; [by destruct (Hkey v Hv)|done].
    + rewrite lookup_union_r by (by rewrite lookup_singleton_ne). rewrite IH by done. split; [tauto|]. intros [[?| ->] [? ?]]; [tauto|done].
  - rewrite (left_id_L ∅ (∪)), IH by done. split; [tauto|]. intros [[?| ->] [? Hk]]; [tauto|]. by rewrite Ex in Hk.
Qed.

Lemma sorted_map_perm m : sorted_map order m ≡ₚ map snd (map_to_list m).
Proof. unfold sorted_map, sort_by. by rewrite merge_sort_Permutation. Qed.
Lemma elem_of_sorted_map m v : canonical m -> v ∈ sorted_map order m <-> m !! key v = Some v.
Proof.
  intros Hm. rewrite sorted_map_perm, list_elem_of_In, in_map_iff. split.
  - intros ([k x] & <- & Hin%list_elem_of_In%elem_of_map_to_list). cbn. by destruct (Hm _ _ Hin) as [-> _].
  - intros H. exists (key v, v). split; [done|]. by apply list_elem_of_In, elem_of_map_to_list.
Qed.
Lemma sorted_map_keys m : canonical m -> NoDup (key <$> sorted_map order m).
Proof.
  intros Hm. rewrite sorted_map_perm. assert (E : key <$> map snd (map_to_list m) = (map_to_list m).*1); [|rewrite E; apply NoDup_fst_map_to_list].
  change (map snd ?l) with (snd <$> l). rewrite <- list_fmap_compose. apply list_fmap_ext. intros i [k v] Hl. cbn.
  apply list_elem_of_lookup_2, elem_of_map_to_list in Hl. by destruct (Hm _ _ Hl).
Qed.
Lemma content_sorted m : canonical m -> content (sorted_map order m) = m.
Proof.
  intros Hm. apply map_eq. intros k. apply option_eq. intros v. rewrite content_lookup by (by apply sorted_map_keys). rewrite elem_of_sorted_map by done.
  split; [by intros (H & <- & _)|]. intros H. by destruct (Hm _ _ H) as [<- ?].
Qed.
(** Two lists of the same values sort to the same list. *)
Lemma sort_unique l1 l2 : NoDup (key <$> l1) -> l1 ≡ₚ l2 -> sort_by order l1 = sort_by order l2.
Proof.
  intros Hnd Hp. assert (Htrans : Transitive (key_le order)) by (intros x y z; unfold key_le; apply transitivity).
  assert (Htotal : Total (key_le order)) by (intros x y; unfold key_le; apply total, _).
  unfold sort_by. apply (StronglySorted_unique_strong (key_le order)).
  - intros x y Hx Hy Hle1 Hle2. rewrite merge_sort_Permutation in Hx. rewrite merge_sort_Permutation, <- Hp in Hy.
    apply (nodup_fmap_inj key l1); [done..|]. by apply Hord, (anti_symm String.le).
  - by apply StronglySorted_merge_sort.
  - by apply StronglySorted_merge_sort.
  - by rewrite !merge_sort_Permutation.
Qed.
Lemma sort_sorted l m : canonical m -> (forall v, v ∈ l <-> m !! key v = Some v) -> NoDup (key <$> l) -> sort_by order l = sorted_map order m.
Proof.
  intros Hm Hl Hnd. unfold sorted_map. apply sort_unique; [done|]. apply NoDup_Permutation.
  - by apply NoDup_fmap_1 in Hnd.
  - pose proof (sorted_map_keys m Hm) as H. apply NoDup_fmap_1 in H. by rewrite sorted_map_perm in H.
  - intros v. rewrite Hl, <- elem_of_sorted_map by done. by rewrite sorted_map_perm.
Qed.

Lemma merge_sorted m add : canonical m -> merge_values key order keep (sorted_map order m) add = sorted_map order (content add ∪ m).
Proof. intros Hm. unfold merge_values. f_equal. fold (content (sorted_map order m ++ add)). by rewrite content_app, content_sorted. Qed.
Lemma union_canonical m1 m2 : canonical m1 -> canonical m2 -> canonical (m1 ∪ m2).
Proof. apply map_Forall_union_2. Qed.
Lemma without_canonical keys m : canonical m -> canonical (without keys m).
Proof. intros Hm k v [H _]%map_lookup_filter_Some. by apply Hm. Qed.
(** The listed values without those of some keys, by any test that says so. *)
Lemma filtered_values (p : A -> bool) keys m : canonical m -> (forall v, m !! key v = Some v -> p v = true <-> key v ∉ keys) ->
  let l := List.filter p (sorted_map order m) in
  NoDup (key <$> l) /\ (forall v, v ∈ l <-> without keys m !! key v = Some v).
Proof.
  intros Hm Hp l. split.
  - unfold l. pose proof (sorted_map_keys m Hm) as Hnd. induction (sorted_map order m) as [|x xs IH]; [done|]. cbn in Hnd |- *.
    apply NoDup_cons in Hnd as [Hx Hnd]. destruct (p x); [|by apply IH]. cbn. constructor; [|by apply IH].
    intros (y & E & Hy)%list_elem_of_fmap. apply list_elem_of_In, filter_In in Hy as [Hy _]. apply Hx. rewrite E. apply list_elem_of_fmap_2. by apply list_elem_of_In.
  - intros v. unfold l, without. rewrite list_elem_of_In, filter_In, <- list_elem_of_In, elem_of_sorted_map, map_lookup_filter_Some by done. cbn.
    split; intros [H1 H2]; (split; [done|]); by apply (Hp v H1).
Qed.
Lemma merge_filtered (p : A -> bool) keys m : canonical m -> (forall v, m !! key v = Some v -> p v = true <-> key v ∉ keys) ->
  merge_values key order keep [] (List.filter p (sorted_map order m)) = sorted_map order (without keys m).
Proof.
  intros Hm Hp. unfold merge_values. cbn [app]. f_equal. fold (content (List.filter p (sorted_map order m))).
  destruct (filtered_values p keys m Hm Hp) as [Hnd Hin]. apply map_eq. intros k. apply option_eq. intros v. rewrite content_lookup, Hin by done.
  split; [by intros (H & <- & _)|]. intros H. by destruct (without_canonical _ _ Hm _ _ H) as [<- ?].
Qed.
Lemma remove_sorted m remove : canonical m -> remove_values key order keep (sorted_map order m) remove = sorted_map order (without (map key remove) m).
Proof.
  intros Hm. apply merge_filtered; [done|]. intros v H. destruct (Hm _ _ H) as [_ ->]. cbn. by rewrite negb_true_iff, bool_decide_eq_false.
Qed.
Lemma content_in l v : (forall x, x ∈ l -> key x = key v -> x = v) -> v ∈ l -> keep v = true -> content l !! key v = Some v.
Proof using Type.
  clear Hord order. intros Hinj Hin Hk. induction l as [|x l IH] using rev_ind; [by apply elem_of_nil in Hin|]. rewrite content_app.
  destruct (decide (keep x = true /\ key x = key v)) as [[Hx E]|Hne].
  - assert (x = v) as -> by (apply Hinj; [set_solver|done]). unfold content at 1, add_value. cbn. rewrite Hk, insert_empty.
    by rewrite lookup_union_l' by (by rewrite lookup_singleton_eq); rewrite lookup_singleton_eq.
  - rewrite lookup_union_r.
    + apply IH; [set_solver|]. apply elem_of_app in Hin as [Hin|Hin%list_elem_of_singleton]; [done|]. subst. by destruct Hne.
    + unfold content, add_value. cbn. destruct (keep x) eqn:Ex; [|apply lookup_empty]. rewrite insert_empty. apply lookup_singleton_ne. naive_solver.
Qed.
Lemma content_elem l k v : content l !! k = Some v -> v ∈ l.
Proof.
  induction l as [|x l IH] using rev_ind; [done|]. rewrite content_app, elem_of_app, list_elem_of_singleton. intros [H|[_ H]]%lookup_union_Some_raw; [|by left; apply IH].
  right. unfold content, add_value in H. cbn in H. destruct (keep x); [|done]. rewrite insert_empty in H. by apply lookup_singleton_Some in H as [_ ->].
Qed.
Lemma without_all m : canonical m -> without (map key (sorted_map order m)) m = ∅.
Proof.
  intros Hm. apply map_empty. intros k. destruct (without _ m !! k) as [v|] eqn:E; [|done]. apply map_lookup_filter_Some in E as [E Hk]. cbn in Hk.
  destruct Hk. destruct (Hm _ _ E) as [<- _]. apply list_elem_of_In, in_map, list_elem_of_In. by apply elem_of_sorted_map.
Qed.
End Values.

Section Model.
Context {RM : RefModule} {AT : ActivationTexts}.

(** ** Views

    For each kind of resource the values by their keys. *)

Abbreviation names_content := (content TrimSpace named).
Abbreviation strings_content := (fun l => content (fun s => s) is_nonempty (map TrimSpace l)).
Abbreviation refs_content := (content Ref_text has_text).
Abbreviation references_content := (content reference_key is_reference).
Record View := mkView {
  vw_ActivationSets : gmap string string; vw_Operations : gmap string Ref; vw_OperationSets : gmap string string; vw_ContextProviders : gmap string string;
  vw_Datasources : gmap string string; vw_Skills : gmap string string; vw_References : gmap string ReferenceTarget; vw_InlineContexts : gmap string string
}.
Definition no_view : View := mkView ∅ ∅ ∅ ∅ ∅ ∅ ∅ ∅.
(** What is prepared comes to the view, what expires leaves it. *)
Definition view_add (i : SurfaceItems) (v : View) : View :=
  mkView (strings_content (su_ActivationSets i) ∪ vw_ActivationSets v) (refs_content (su_Operations i) ∪ vw_Operations v)
    (strings_content (su_OperationSets i) ∪ vw_OperationSets v) (names_content (su_ContextProviders i) ∪ vw_ContextProviders v)
    (names_content (su_Datasources i) ∪ vw_Datasources v) (names_content (su_Skills i) ∪ vw_Skills v)
    (references_content (su_References i) ∪ vw_References v) (strings_content (su_InlineContexts i) ∪ vw_InlineContexts v).
Definition view_drop (i : SurfaceItems) (v : View) : View :=
  mkView (without (map TrimSpace (su_ActivationSets i)) (vw_ActivationSets v)) (without (map Ref_text (su_Operations i)) (vw_Operations v))
    (without (map TrimSpace (su_OperationSets i)) (vw_OperationSets v)) (without (map TrimSpace (su_ContextProviders i)) (vw_ContextProviders v))
    (without (map TrimSpace (su_Datasources i)) (vw_Datasources v)) (without (map TrimSpace (su_Skills i)) (vw_Skills v))
    (without (map reference_key (su_References i)) (vw_References v)) (without (map TrimSpace (su_InlineContexts i)) (vw_InlineContexts v)).
Definition view_step (v : View) (e : SurfaceEvent) : View :=
  match e with SurfacePrepared e => view_add (pe_Items e) v | SurfaceExpired e => view_drop (xe_Items e) v | _ => v end.
(** The items of a view, each kind in its order. *)
Definition items_of (v : View) : SurfaceItems :=
  mkSurfaceItems (sorted_map (fun s => s) (vw_ActivationSets v)) (sorted_map Ref_text (vw_Operations v)) (sorted_map (fun s => s) (vw_OperationSets v))
    (sorted_map (fun s => s) (vw_ContextProviders v)) (sorted_map (fun s => s) (vw_Datasources v)) (sorted_map (fun s => s) (vw_Skills v))
    (sorted_map reference_key (vw_References v)) (sorted_map (fun s => s) (vw_InlineContexts v)).

(** Strings of a view are trimmed. *)
Definition trimmed_strings (m : gmap string string) : Prop := canonical (fun s => s) is_nonempty m /\ map_Forall (fun _ s => TrimSpace s = s) m.
Record view_ok (v : View) : Prop := {
  vo_sets : trimmed_strings (vw_ActivationSets v); vo_operations : canonical Ref_text has_text (vw_Operations v);
  vo_operation_sets : trimmed_strings (vw_OperationSets v); vo_providers : canonical TrimSpace named (vw_ContextProviders v);
  vo_datasources : canonical TrimSpace named (vw_Datasources v); vo_skills : canonical TrimSpace named (vw_Skills v);
  vo_references : canonical reference_key is_reference (vw_References v); vo_inline : trimmed_strings (vw_InlineContexts v)
}.

Lemma trimmed_map m : trimmed_strings m -> map TrimSpace (sorted_map (fun s => s) m) = sorted_map (fun s => s) m.
Proof.
  intros [Hm Ht]. rewrite <- (map_id (sorted_map (fun s => s) m)) at 2. apply map_ext_in. intros s Hin%list_elem_of_In.
  apply (elem_of_sorted_map (fun s => s) (fun s => s) is_nonempty) in Hin; [|done]. by apply (Ht _ _ Hin).
Qed.
Lemma strings_content_ok l : trimmed_strings (strings_content l).
Proof.
  split; [apply content_canonical|]. intros k s Hc%content_elem%list_elem_of_In. apply in_map_iff in Hc as (x & <- & _). apply TrimSpace_idem.
Qed.
Lemma trimmed_union m1 m2 : trimmed_strings m1 -> trimmed_strings m2 -> trimmed_strings (m1 ∪ m2).
Proof. intros [? ?] [? ?]. split; by apply map_Forall_union_2. Qed.
Lemma trimmed_without keys m : trimmed_strings m -> trimmed_strings (without keys m).
Proof. intros [Hc Ht]. split; [by apply without_canonical|]. intros k s [Hl _]%map_lookup_filter_Some. by apply (Ht _ _ Hl). Qed.
Lemma strings_merge m add : trimmed_strings m -> mergeStrings (sorted_map (fun s => s) m) add = sorted_map (fun s => s) (strings_content add ∪ m).
Proof. intros Hm. unfold mergeStrings. rewrite trimmed_map by done. apply merge_sorted. by destruct Hm. Qed.
Lemma strings_remove m remove : trimmed_strings m ->
  removeStrings (sorted_map (fun s => s) m) remove = sorted_map (fun s => s) (without (map TrimSpace remove) m).
Proof.
  intros Hm. unfold removeStrings. rewrite trimmed_map by done. destruct Hm as [Hm Ht].
  destruct (filtered_values (fun s => s) (fun s => s) is_nonempty (fun s => is_nonempty s && negb (bool_decide (s ∈ map TrimSpace remove))) (map TrimSpace remove) m Hm) as [Hnd Hin].
  { intros s H. destruct (Hm _ _ H) as [_ ->]. cbn. by rewrite negb_true_iff, bool_decide_eq_false. }
  eapply (sort_sorted (fun s => s) (fun s => s) is_nonempty); [done|by apply without_canonical|exact Hin|exact Hnd].
Qed.

Lemma view_add_ok i v : view_ok v -> view_ok (view_add i v).
Proof. intros []. split; cbn; (apply trimmed_union || apply union_canonical); (apply strings_content_ok || apply content_canonical || done). Qed.
Lemma view_drop_ok i v : view_ok v -> view_ok (view_drop i v).
Proof. intros []. split; cbn; by (apply trimmed_without || apply without_canonical). Qed.
Lemma merge_items_of i v : view_ok v -> merge_items (items_of v) i = items_of (view_add i v).
Proof.
  intros []. unfold merge_items, items_of. cbn [su_ActivationSets su_Operations su_OperationSets su_ContextProviders su_Datasources su_Skills su_References su_InlineContexts].
  unfold mergeOperationRefs, mergeContextProviderRefs, mergeDatasourceRefs, mergeSkillRefs, mergeReferenceTargets.
  rewrite !strings_merge, !merge_sorted by (done || by intros ? ? ->). done.
Qed.
Lemma remove_items_of i v : view_ok v -> remove_items (items_of v) i = items_of (view_drop i v).
Proof.
  intros []. unfold remove_items, items_of. cbn [su_ActivationSets su_Operations su_OperationSets su_ContextProviders su_Datasources su_Skills su_References su_InlineContexts].
  unfold removeOperationRefs, removeContextProviderRefs, removeDatasourceRefs, removeSkillRefs, removeReferenceTargets, mergeReferenceTargets.
  rewrite !strings_remove, !remove_sorted by (done || by intros ? ? ->). f_equal.
  apply merge_filtered; [done|]. intros t _. by rewrite negb_true_iff, bool_decide_eq_false.
Qed.
Lemma apply_items e m : rm_Items (surface_apply e m) =
  match e with SurfacePrepared e => merge_items (rm_Items m) (pe_Items e) | SurfaceExpired e => remove_items (rm_Items m) (xe_Items e) | _ => rm_Items m end.
Proof. destruct e; cbn; unfold applyPrepared, applyExpired; repeat case_decide; done. Qed.
Lemma view_step_ok e v : view_ok v -> view_ok (view_step v e).
Proof. destruct e; cbn; auto using view_add_ok, view_drop_ok. Qed.
Lemma apply_view e m v : view_ok v -> rm_Items m = items_of v -> rm_Items (surface_apply e m) = items_of (view_step v e).
Proof. intros Hv Hm. rewrite apply_items, Hm. destruct e; cbn; auto using merge_items_of, remove_items_of. Qed.

(** The events of the records of a branch, and the view they leave. *)
Abbreviation Records := (list (option (Result string SurfaceEvent))).
Definition surface_events (records : Records) : list SurfaceEvent := omap (fun r => match r with Some (Ok e) => Some e | _ => None end) records.
Definition surface_view (records : Records) : View := fold_left view_step (surface_events records) no_view.
Lemma no_view_ok : view_ok no_view.
Proof. by split. Qed.
Lemma read_view records m m' v : view_ok v -> rm_Items m = items_of v -> read_surface records m = (m', None) ->
  rm_Items m' = items_of (fold_left view_step (surface_events records) v) /\ view_ok (fold_left view_step (surface_events records) v).
Proof.
  revert m v. induction records as [|[[e|e]|] records IH]; intros m v Hv Hm; cbn; [by intros [= <-]| |done|by apply IH].
  apply IH; [by apply view_step_ok|by apply apply_view].
Qed.

(** C26: The read model of the records of a branch lists, of each kind and in its order, exactly the resources
    that were prepared and did not expire after that. *)
Theorem surface_model_exact records m : read_surface records zero_ReadModel = (m, None) -> rm_Items m = items_of (surface_view records).
Proof. intros H. by apply (read_view records zero_ReadModel m no_view no_view_ok). Qed.

Lemma strings_without_all m : trimmed_strings m -> without (map TrimSpace (sorted_map (fun s => s) m)) m = ∅.
Proof.
  intros Hm. rewrite trimmed_map by done. destruct Hm as [Hm _]. pose proof (without_all (fun s => s) (fun s => s) is_nonempty m Hm) as H. by rewrite map_id in H.
Qed.
Lemma view_drop_all v : view_ok v -> view_drop (items_of v) v = no_view.
Proof.
  intros []. unfold view_drop, items_of, no_view. cbn [su_ActivationSets su_Operations su_OperationSets su_ContextProviders su_Datasources su_Skills su_References su_InlineContexts].
  f_equal; ((by apply strings_without_all) || (eapply without_all; eassumption)).
Qed.

Definition emitted (e : option SurfaceEvent) : Records := match e with Some e => [Some (Ok e)] | None => [] end.
Lemma read_app records1 records2 m m' : read_surface records1 m = (m', None) -> read_surface (records1 ++ records2) m = read_surface records2 m'.
Proof.
  revert m. induction records1 as [|[[e|e]|] records1 IH]; intros m; cbn; [by intros [= ->]|apply IH|done|apply IH].
Qed.

(** When the surface has the lifetime of a run, nothing of it is left after the run: the event the end of
    an input emits takes everything that the records prepared out of the read model. *)
Theorem run_surface_gone records m :
  read_surface records zero_ReadModel = (m, None) -> rm_Lifetime m = LifetimeRun ->
  exists m', read_surface (records ++ emitted (expireRunSurface m)) zero_ReadModel = (m', None) /\ rm_Items m' = no_items.
Proof.
  intros Hr Hl. rewrite (read_app _ _ _ m Hr). destruct (read_view records zero_ReadModel m no_view no_view_ok) as [Hm Hv]; [done..|].
  unfold expireRunSurface. case_decide as Hd; cbn.
  - exists m. split; [done|]. by destruct Hd.
  - eexists. split; [done|].
    change (rm_Items (surface_apply (SurfaceExpired (mkExpiredEvent (rm_Items m) LifetimeRun "run_complete")) m) = no_items).
    rewrite apply_items. cbn [xe_Items]. rewrite Hm, remove_items_of, view_drop_all by done. reflexivity.
Qed.
End Model.
