(* ===== verification/SurfaceSession.v ===== *)
(** * Preparing and using the surface of a session (src/orchestration/session/activation.go, surface_tools.go)

    The terms a user, a reaction or a model asks for, the resources they mean, what becomes active of them,
    the tools a turn gets and the operations [surface_call] may call. *)

From stdpp Require Import sorting.
From S2P Require Import Prelude Operation NamedInstance Resource Materializer Skill Surface.

(** The operations of a session; [Op_Ref] is the reference of a specification. *)
Class SessionOps `{RefModule} := { Op : Type; Op_Ref : Op -> Ref; HasSelectorMeta : Ref -> bool }.

Section Session.
Context {RM : RefModule} {AT : ActivationTexts} {SO : SessionOps} {SM : SkillModule} {CM : ContextModule}.

(** A tool as far as [toolProjected] looks. *)
Record TurnTool := mkTurnTool { tn_Name : string; tn_Operation : option Ref }.
Record OperationSetSpec := mkOperationSet { os_Name : string; os_Operations : list Ref }.
(** The catalog resolves a reference without a scope, when it has operations; both lists are sorted as
    [matchingOperations] sorts them, and none of their operations is nil. A provider may be nil. *)
Record SurfaceSession := mkSurfaceSession {
  sn_ActivationSets : list ActivationSet;
  sn_OperationSets : list OperationSetSpec;
  sn_ContextProviders : list (option string);
  sn_Datasources : list string;
  sn_AgentDatasources : list string;
  sn_Catalog : option (string -> option Op);
  sn_CatalogOps : list Op;
  sn_Registry : option (Ref -> option Op);
  sn_RegistryOps : list Op;
  sn_TurnTools : option (list TurnTool);
  sn_BlocksOnly : bool
}.

(** ** What a session has *)

Definition registered (sn : SurfaceSession) (ref : Ref) : option Op := match sn_Registry sn with Some get => get ref | None => None end.
Definition operationExists (sn : SurfaceSession) (ref : Ref) : bool :=
  if decide (Ref_Name ref = emp) then false else
  match sn_Catalog sn with
  | Some resolve => bool_decide (is_Some (resolve (Ref_text ref)))
  | None => bool_decide (is_Some (registered sn ref))
  end.
(** [resolveOperation], which falls back to the registry, and what [applyOperation] runs, which does not. *)
Definition session_resolve (sn : SurfaceSession) (ref : Ref) : option Op :=
  match sn_Catalog sn with
  | Some resolve => match resolve (Ref_text ref) with Some op => Some op | None => registered sn ref end
  | None => registered sn ref
  end.
Definition session_run (sn : SurfaceSession) (ref : Ref) : option Op :=
  match sn_Catalog sn with Some resolve => resolve (Ref_text ref) | None => registered sn ref end.
Definition operationSetExists (sn : SurfaceSession) (name : string) : bool :=
  existsb (fun set => bool_decide (TrimSpace (os_Name set) = TrimSpace name)) (sn_OperationSets sn).
Definition contextProviderExists (sn : SurfaceSession) (name : string) : bool := existsb (fun provider => bool_decide (provider = Some name)) (sn_ContextProviders sn).
Definition datasourceExists (sn : SurfaceSession) (name : string) : bool :=
  bool_decide (name ∈ sn_AgentDatasources sn) || bool_decide (name ∈ sn_Datasources sn).
Definition skillExists (state : option ActivationState) (name : string) : bool :=
  match state with Some s => bool_decide (is_Some (Repository_Get (as_repo s) name)) | None => false end.

(** ** Terms *)

(** Each part of a value once. *)
Definition comma : ascii := ",".
Definition clean_part (p : list string * gset string) (part : string) : list string * gset string :=
  let part := TrimSpace part in if decide (part = emp \/ part ∈ p.2) then p else (p.1 ++ [part], {[part]} ∪ p.2).
Definition cleanTerms (values : list string) : list string := (fold_left clean_part (flat_map (fun value => Split value comma) values) ([], ∅)).1.

Record TermTables := mkTermTables {
  tb_Sets : gset string; tb_Aliases : gmap string string; tb_OperationSets : gset string; tb_ContextProviders : gset string; tb_Datasources : gset string }.
Definition trimmed_set (names : list string) : gset string := list_to_set (List.filter is_nonempty (map TrimSpace names)).
Definition set_aliases (aliases : gmap string string) (set : ActivationSet) : gmap string string :=
  let name := TrimSpace (set_Name set) in
  if decide (name = emp) then aliases
  else fold_left (fun aliases alias => if decide (TrimSpace alias = emp) then aliases else <[TrimSpace alias := name]> aliases) (set_Aliases set) aliases.
Definition term_tables (sn : SurfaceSession) : TermTables :=
  mkTermTables (trimmed_set (map set_Name (sn_ActivationSets sn))) (fold_left set_aliases (sn_ActivationSets sn) ∅)
    (trimmed_set (map os_Name (sn_OperationSets sn))) (trimmed_set (omap (fun p => p) (sn_ContextProviders sn)))
    (trimmed_set (sn_Datasources sn ++ sn_AgentDatasources sn)).
Definition resolveActivationSetTerm (tb : TermTables) (term : string) : string :=
  if decide (term ∈ tb_Sets tb) then term else default emp (tb_Aliases tb !! term).

Inductive PhraseKind := PhraseSurface | PhraseOperationSet | PhraseContextProvider | PhraseDatasource | PhraseOperation | PhraseSkill.
#[global] Instance PhraseKind_eq_dec : EqDecision PhraseKind.
Proof. solve_decision. Defined.
(** [operationExists] of a name without a version. *)
Definition name_ref (name : string) : Ref := mkRef name emp.
Definition resource (kind : ActTarget) (name : string) : option ResolvedResource := Some (mkResolvedResource kind name emp emp).
Definition resolveResourceSurfaceTerm (sn : SurfaceSession) (state : option ActivationState) (tb : TermTables) (term : string) (hint : option PhraseKind)
    : option ResolvedResource :=
  let operation_set := if decide (term ∈ tb_OperationSets tb) then resource ActOperationSet term else None in
  let context_provider := if decide (term ∈ tb_ContextProviders tb) then resource ActContextProvider term else None in
  let datasource := if decide (term ∈ tb_Datasources tb) then resource ActDatasource term else None in
  let operation := if operationExists sn (name_ref term) then resource ActOperation term else None in
  let skill := if skillExists state term then resource ActSkill term else None in
  let first := head (omap (fun r => r) [operation_set; context_provider; datasource; operation; skill]) in
  match hint with
  | Some PhraseOperationSet => operation_set
  | Some PhraseContextProvider => context_provider
  | Some PhraseDatasource => datasource
  | Some PhraseOperation => operation
  | Some PhraseSkill => skill
  | Some PhraseSurface | None => first
  end.
Definition phrase_prefixes : list (string * PhraseKind) :=
  [("activation set:", PhraseSurface); ("activation-set:", PhraseSurface); ("surface:", PhraseSurface); ("operation set:", PhraseOperationSet);
   ("operation-set:", PhraseOperationSet); ("op set:", PhraseOperationSet); ("context provider:", PhraseContextProvider);
   ("context-provider:", PhraseContextProvider); ("datasource:", PhraseDatasource); ("data source:", PhraseDatasource);
   ("operation:", PhraseOperation); ("tool:", PhraseOperation); ("skill:", PhraseSkill)]%string.
Definition phrase_suffixes : list (string * PhraseKind) :=
  [(" activation set", PhraseSurface); (" activation-set", PhraseSurface); (" surface", PhraseSurface); (" operation set", PhraseOperationSet);
   (" operation-set", PhraseOperationSet); (" op set", PhraseOperationSet); (" context provider", PhraseContextProvider);
   (" context-provider", PhraseContextProvider); (" datasource", PhraseDatasource); (" data source", PhraseDatasource);
   (" operation", PhraseOperation); (" tool", PhraseOperation); (" skill", PhraseSkill)]%string.
Definition phrase (has : string -> string -> bool) (cut : string -> string -> string) (term : string) (p : string * PhraseKind) : option (string * PhraseKind) :=
  if has term p.1 then (let name := TrimSpace (cut term p.1) in if decide (name = emp) then None else Some (name, p.2)) else None.
Definition surfaceTypedTermPhrases (term : string) : list (string * PhraseKind) :=
  let term := TrimSpace term in
  if decide (term = emp) then [] else
  omap (phrase HasPrefix TrimPrefix term) phrase_prefixes ++ omap (phrase HasSuffix TrimSuffix term) phrase_suffixes.
Inductive ResolvedTerm := TermUnmatched | TermSet (name : string) | TermResource (r : ResolvedResource).
Definition resolve_phrase (sn : SurfaceSession) (state : option ActivationState) (tb : TermTables) (p : string * PhraseKind) : option ResolvedTerm :=
  let name := resolveActivationSetTerm tb p.1 in
  if decide (name <> emp /\ p.2 = PhraseSurface) then Some (TermSet name)
  else TermResource <$> resolveResourceSurfaceTerm sn state tb p.1 (Some p.2).
Definition resolveSurfaceTerm (sn : SurfaceSession) (state : option ActivationState) (tb : TermTables) (term : string) : ResolvedTerm :=
  let name := resolveActivationSetTerm tb term in
  if decide (name <> emp) then TermSet name else
  match resolveResourceSurfaceTerm sn state tb term None with
  | Some r => TermResource r
  | None => default TermUnmatched (head (omap (resolve_phrase sn state tb) (surfaceTypedTermPhrases term)))
  end.

Definition no_resolved : ResolvedEvent := mkResolvedEvent [] [] [] [] [].
Definition resource_key (r : ResolvedResource) : string := (target_text (rr_Kind r) ++ ":" ++ rr_Name r)%string.
Definition resolve_step (sn : SurfaceSession) (state : option ActivationState) (tb : TermTables) (resolved : ResolvedEvent) (term : string) : ResolvedEvent :=
  match resolveSurfaceTerm sn state tb term with
  | TermSet name => if decide (name ∈ re_ActivationSets resolved) then resolved else resolved <| re_ActivationSets := re_ActivationSets resolved ++ [name] |>
  | TermResource r =>
      if decide (resource_key r ∈ map resource_key (re_Resources resolved)) then resolved else resolved <| re_Resources := re_Resources resolved ++ [r] |>
  | TermUnmatched =>
      (resolved <| re_UnmatchedTerms := re_UnmatchedTerms resolved ++ [term] |>)
        <| re_Diagnostics := re_Diagnostics resolved ++
             [mkSurfaceDiagnostic term emp "not_selected" ("no selected activation set or resource matched " ++ quoted term)%string] |>
  end.
(** Resources by kind and name. *)
Definition resource_le (r1 r2 : ResolvedResource) : Prop :=
  if decide (rr_Kind r1 = rr_Kind r2) then String.le (rr_Name r1) (rr_Name r2) else String.le (target_text (rr_Kind r1)) (target_text (rr_Kind r2)).
#[global] Instance resource_le_dec : RelDecision resource_le.
Proof. intros r1 r2. unfold resource_le. case_decide; apply _. Defined.
Definition resolveSurfaceTerms (sn : SurfaceSession) (state : option ActivationState) (terms : list string) : ResolvedEvent :=
  let resolved := fold_left (resolve_step sn state (term_tables sn)) terms no_resolved in
  (resolved <| re_ActivationSets := sort_Strings (re_ActivationSets resolved) |>) <| re_Resources := merge_sort resource_le (re_Resources resolved) |>.

(** ** Targets *)

Definition resource_target (r : ResolvedResource) : option ActivationTarget :=
  let name := rr_Name r in
  match rr_Kind r with
  | ActOperation => Some (mkActivationTarget ActOperation (name_ref name) emp [] emp emp (mkReferenceTarget emp emp) emp emp emp None)
  | ActOperationSet => Some (mkActivationTarget ActOperationSet (name_ref emp) name [] emp emp (mkReferenceTarget emp emp) emp emp emp None)
  | ActContextProvider => Some (mkActivationTarget ActContextProvider (name_ref emp) emp [] emp emp (mkReferenceTarget emp emp) name emp emp None)
  | ActDatasource => Some (mkActivationTarget ActDatasource (name_ref emp) emp [] emp emp (mkReferenceTarget emp emp) emp name emp None)
  | ActSkill => Some (mkActivationTarget ActSkill (name_ref emp) emp [] emp name (mkReferenceTarget emp emp) emp emp emp None)
  | _ => None
  end.
(** The last set of a name. *)
Definition set_targets (sets : list ActivationSet) (name : string) : list ActivationTarget :=
  match last (List.filter (fun set => bool_decide (TrimSpace (set_Name set) = name)) sets) with Some set => set_Targets set | None => [] end.
Definition resolvedTargetList (resolved : ResolvedEvent) (sets : list ActivationSet) : list ActivationTarget :=
  flat_map (set_targets sets) (re_ActivationSets resolved) ++ omap resource_target (re_Resources resolved).
Definition inlineContextBlock (target : option ContextTarget) : Result string Block :=
  match target with
  | None => Err "inline context is empty"%string
  | Some t =>
      let content := if blank (ctx_Content t) then TrimSpace (ctx_Template t) else TrimSpace (ctx_Content t) in
      if decide (content = emp) then Err "inline context content is empty"%string
      else Ok (mkContextBlock (TrimSpace (ctx_ID t)) "surface.inline" "text" (NormalizePlacement (ctx_Placement t)) (ctx_Title t) content (ctx_MediaType t)
                 emp emp emp (ctx_Annotations t))
  end.
Definition activationTargetLabel (t : ActivationTarget) : string :=
  match tg_Kind t with
  | ActOperation => Ref_text (tg_Operation t)
  | ActOperationSet => tg_OperationSet t
  | ActContextProvider => tg_ContextProvider t
  | ActDatasource => tg_Datasource t
  | ActSkill => tg_Skill t
  | ActReference => (rt_Skill (tg_Reference t) ++ ":" ++ rt_Path (tg_Reference t))%string
  | ActInlineContext => match tg_InlineContext t with Some c => ctx_ID c | None => target_text (tg_Kind t) end
  | kind => target_text kind
  end.
Definition activationDiagnostic (t : ActivationTarget) (reason message : string) : SurfaceDiagnostic :=
  mkSurfaceDiagnostic emp (activationTargetLabel t) reason message.
(** What an error of the skills reads like is left to the texts. *)
Class SkillTexts := { skill_error_text : SkillError -> string }.
Context {ST : SkillTexts}.

Inductive SessionEmit := EmitSurface (e : SurfaceEvent) | EmitSkill (e : SkillEvent).
Record Applying := mkApplying { ap_Active : ActiveState; ap_Prepared : SurfaceItems; ap_Skills : option ActivationState; ap_Emitted : list SessionEmit }.
#[global] Instance rebuild_Applying : Rebuild Applying := fun a => mkApplying a.(ap_Active) a.(ap_Prepared) a.(ap_Skills) a.(ap_Emitted).
(** An activation of a skill or a reference in the state of the agent, if it has one. *)
Definition activate_skills (f : ActivationState -> ActivationState * list SkillEvent * option SkillError) (a : Applying) : Applying * option string :=
  match ap_Skills a with
  | None => (a, Some "skill activation state is unavailable"%string)
  | Some s =>
      let '(s, evts, e) := f s in
      ((a <| ap_Skills := Some s |>) <| ap_Emitted := ap_Emitted a ++ map EmitSkill evts |>, skill_error_text <$> e)
  end.
Definition enabled_item {A} (enable : A -> ActiveState -> ActiveState * bool) (add : A -> SurfaceItems -> SurfaceItems) (v : A) (a : Applying) : Applying :=
  let '(active, changed) := enable v (ap_Active a) in
  if changed then (a <| ap_Active := active |>) <| ap_Prepared := add v (ap_Prepared a) |> else a <| ap_Active := active |>.
Definition add_operation (ref : Ref) (i : SurfaceItems) : SurfaceItems := i <| su_Operations := su_Operations i ++ [ref] |>.
Definition add_operation_set (name : string) (i : SurfaceItems) : SurfaceItems := i <| su_OperationSets := su_OperationSets i ++ [name] |>.
Definition add_context_provider (name : string) (i : SurfaceItems) : SurfaceItems := i <| su_ContextProviders := su_ContextProviders i ++ [name] |>.
Definition add_datasource (name : string) (i : SurfaceItems) : SurfaceItems := i <| su_Datasources := su_Datasources i ++ [name] |>.
Definition add_inline (block : Block) (i : SurfaceItems) : SurfaceItems := i <| su_InlineContexts := su_InlineContexts i ++ [bl_ID block] |>.
Definition applyActivationTarget (sn : SurfaceSession) (t : ActivationTarget) (a : Applying) : Applying * option SurfaceDiagnostic :=
  let not_selected what := (a, Some (activationDiagnostic t "not_selected" (what ++ " is not selected")%string)) in
  match tg_Kind t with
  | ActOperation =>
      if operationExists sn (tg_Operation t) then (enabled_item EnableOperation add_operation (tg_Operation t) a, None) else not_selected "operation"%string
  | ActOperationSet =>
      if operationSetExists sn (tg_OperationSet t) then (enabled_item EnableOperationSet add_operation_set (tg_OperationSet t) a, None)
      else not_selected "operation set"%string
  | ActContextProvider =>
      if contextProviderExists sn (tg_ContextProvider t) then (enabled_item EnableContextProvider add_context_provider (tg_ContextProvider t) a, None)
      else not_selected "context provider"%string
  | ActDatasource =>
      if datasourceExists sn (tg_Datasource t) then (enabled_item EnableDatasource add_datasource (tg_Datasource t) a, None) else not_selected "datasource"%string
  | ActSkill =>
      let '(a, e) := activate_skills (activateSurfaceSkill (tg_Skill t)) a in
      match e with
      | Some e => (a, Some (activationDiagnostic t "unavailable" e))
      | None => (a <| ap_Prepared := (ap_Prepared a) <| su_Skills := su_Skills (ap_Prepared a) ++ [tg_Skill t] |> |>, None)
      end
  | ActReference =>
      let r := tg_Reference t in
      let '(a, e) := activate_skills (activateSurfaceReference (rt_Skill r) (rt_Path r)) a in
      match e with
      | Some e => (a, Some (activationDiagnostic t "unavailable" e))
      | None => (a <| ap_Prepared := (ap_Prepared a) <| su_References := su_References (ap_Prepared a) ++ [r] |> |>, None)
      end
  | ActInlineContext =>
      match inlineContextBlock (tg_InlineContext t) with
      | Err e => (a, Some (activationDiagnostic t "invalid" e))
      | Ok block => (enabled_item EnableInlineContext add_inline block a, None)
      end
  | ActCommand | ActWorkflow | ActResource =>
      (a, Some (activationDiagnostic t "unsupported_target_kind" ("target kind " ++ quoted (target_text (tg_Kind t)) ++ " is not supported for preparation yet")%string))
  | ActOther kind => (a, Some (activationDiagnostic t "unsupported_target_kind" ("target kind " ++ quoted kind ++ " is not supported")%string))
  end.
(** The loop over the targets: the diagnostics, and a skip emitted for each. *)
Definition target_step (sn : SurfaceSession) (source : string) (p : Applying * list SurfaceDiagnostic) (t : ActivationTarget) : Applying * list SurfaceDiagnostic :=
  let '(a, diagnostics) := p in
  let '(a, diag) := applyActivationTarget sn t a in
  match diag with
  | None => (a, diagnostics)
  | Some d => (a <| ap_Emitted := ap_Emitted a ++ [EmitSurface (SurfacePrepareSkipped (mkSkippedEvent emp emp (sd_Reason d) source d))] |>, diagnostics ++ [d])
  end.
Definition sortSurfacePrepared (i : SurfaceItems) : SurfaceItems :=
  mkSurfaceItems (sort_Strings (su_ActivationSets i)) (sort_by Ref_text (su_Operations i)) (sort_Strings (su_OperationSets i)) (sort_Strings (su_ContextProviders i))
    (sort_Strings (su_Datasources i)) (sort_Strings (su_Skills i)) (sort_by reference_key (su_References i)) (sort_Strings (su_InlineContexts i)).

(** ** Preparation *)

Record Preparation := mkPreparation {
  sp_Resolved : ResolvedEvent; sp_Prepared : PreparedEvent; sp_Skipped : list SurfaceDiagnostic; sp_Active : SurfaceItems; sp_Diagnostics : list SurfaceDiagnostic }.
Definition prepareSurfaceWithEmit (sn : SurfaceSession) (terms : list string) (lifetime : Lifetime) (source : string) (state : option ActivationState)
    : option ActivationState * list SessionEmit * Preparation :=
  let lifetime := if decide (lifetime = NoLifetime) then LifetimeRun else lifetime in
  let terms := cleanTerms terms in
  let resolved := resolveSurfaceTerms sn state terms in
  let a := mkApplying (enable_all EnableActivationSet (re_ActivationSets resolved) zero_ActiveState)
    (no_items <| su_ActivationSets := re_ActivationSets resolved |>) state
    [EmitSurface (SurfacePrepareRequested terms emp lifetime source); EmitSurface (SurfaceResolved resolved)] in
  let '(a, skipped) := fold_left (target_step sn source) (resolvedTargetList resolved (sn_ActivationSets sn)) (a, []) in
  let diagnostics := re_Diagnostics resolved ++ re_Skipped resolved ++ skipped in
  let prepared := mkPreparedEvent (sortSurfacePrepared (ap_Prepared a)) lifetime source diagnostics in
  (ap_Skills a, ap_Emitted a ++ [EmitSurface (SurfacePrepared prepared)], mkPreparation resolved prepared skipped (ActiveSurface (ap_Active a)) diagnostics).
Definition normalizeSurfaceLifetime (lifetime : Lifetime) : Lifetime :=
  match lifetime with LifetimeTurn | LifetimeRun | LifetimeSession => lifetime | _ => LifetimeRun end.
Definition surfacePrepare (sn : SurfaceSession) (terms : list string) (lifetime : Lifetime) (state : option ActivationState)
    : option (option ActivationState * list SessionEmit * Preparation) :=
  let terms := cleanTerms terms in
  if decide (terms = []) then None else Some (prepareSurfaceWithEmit sn terms (normalizeSurfaceLifetime lifetime) "model_prepare" state).

(** The active state of a listed surface: the targets of its sets come without a check. *)
Definition applyActiveTargetSilent (t : ActivationTarget) (s : ActiveState) : ActiveState :=
  match tg_Kind t with
  | ActOperation => (EnableOperation (tg_Operation t) s).1
  | ActOperationSet => (EnableOperationSet (tg_OperationSet t) s).1
  | ActContextProvider => (EnableContextProvider (tg_ContextProvider t) s).1
  | ActDatasource => (EnableDatasource (tg_Datasource t) s).1
  | ActInlineContext => match inlineContextBlock (tg_InlineContext t) with Ok block => (EnableInlineContext block s).1 | Err _ => s end
  | _ => s
  end.
Definition enable_set (sn : SurfaceSession) (s : ActiveState) (name : string) : ActiveState :=
  let s := (EnableActivationSet name s).1 in
  fold_left (fun s set => if decide (TrimSpace (set_Name set) = name) then fold_left (fun s t => applyActiveTargetSilent t s) (set_Targets set) s else s)
    (sn_ActivationSets sn) s.
Definition activeStateFromSurface (sn : SurfaceSession) (i : SurfaceItems) : ActiveState :=
  let s := fold_left (enable_set sn) (su_ActivationSets i) zero_ActiveState in
  let s := enable_all EnableOperation (su_Operations i) s in
  let s := enable_all EnableOperationSet (su_OperationSets i) s in
  let s := enable_all EnableContextProvider (su_ContextProviders i) s in
  enable_all EnableDatasource (su_Datasources i) s.

(** What is active when an input starts: what reactions replayed, and the surface the records show, if it can be read and has a lifetime. *)
Definition restored_active (sn : SurfaceSession) (surface : ReadModel * option string) (replayed : ActiveState) : ActiveState :=
  match surface with
  | (m, None) => if decide (rm_Lifetime m <> NoLifetime) then mergeActiveState replayed (activeStateFromSurface sn (rm_Items m)) else replayed
  | (_, Some _) => replayed
  end.

(** ** The operation [surface_call] *)

Definition reserved_names : list string := ["session_focus"; "surface_info"; "surface_prepare"; "surface_call"]%string.
Definition isSurfaceOperationRef (ref : Ref) : bool := bool_decide (Ref_Name ref ∈ reserved_names).
Definition at_sign : ascii := "@".
Definition parseSurfaceCallOperationRef (value : string) : Ref :=
  let value := TrimSpace value in
  match Split value at_sign with
  | name :: (_ :: _) as rest => mkRef (TrimSpace name) (TrimSpace (Join (tail rest) (String at_sign emp)))
  | _ => mkRef value emp
  end.
Definition set_allows (sn : SurfaceSession) (name : string) (ref : Ref) : bool :=
  existsb (fun set => bool_decide (TrimSpace (os_Name set) = name) && existsb (fun selector => Ref_Matches selector ref) (os_Operations set)) (sn_OperationSets sn).
Definition surfaceOperationActive (sn : SurfaceSession) (active : ActiveState) (ref : Ref) : bool :=
  bool_decide (ref ∈ at_Operations active) || existsb (fun name => set_allows sn name ref) (elements (at_OperationSets active)).
Inductive SurfaceCall := CallEmpty | CallReserved (ref : Ref) | CallInactive (ref : Ref) | CallUnresolved (ref : Ref) | CallRuns (ref : Ref) (op : Op).
(** The active state may be missing from the context of the call. *)
Definition surface_call (sn : SurfaceSession) (active : option ActiveState) (operation : string) : SurfaceCall :=
  let ref := parseSurfaceCallOperationRef operation in
  if Ref_IsZero ref then CallEmpty
  else if isSurfaceOperationRef ref then CallReserved ref
  else match active with
       | Some s =>
           if surfaceOperationActive sn s ref
           then match session_run sn ref with Some op => CallRuns ref op | None => CallUnresolved ref end
           else CallInactive ref
       | None => CallInactive ref
       end.

(** ** The tools of a turn *)

Definition toolProjected (tools : list TurnTool) (candidate : TurnTool) : bool :=
  existsb (fun existing => bool_decide (tn_Name existing <> emp /\ tn_Name existing = tn_Name candidate)
                        || bool_decide (is_Some (tn_Operation existing) /\ tn_Operation existing = tn_Operation candidate)) tools.
Definition project_tool (tools : list TurnTool) (candidate : TurnTool) : list TurnTool := if toolProjected tools candidate then tools else tools ++ [candidate].
Definition operationToolFromSpec (op : Op) : TurnTool := mkTurnTool (Ref_Name (Op_Ref op)) (Some (Op_Ref op)).
Definition operationTool (sn : SurfaceSession) (ref : Ref) : option TurnTool := operationToolFromSpec <$> session_resolve sn ref.
Definition matchingOperations (sn : SurfaceSession) (selector : Ref) : list Op :=
  List.filter (fun op => Ref_Matches selector (Op_Ref op))
    ((match sn_Catalog sn with Some _ => sn_CatalogOps sn | None => [] end) ++ (match sn_Registry sn with Some _ => sn_RegistryOps sn | None => [] end)).
Definition first_named (p : list TurnTool * gset string) (op : Op) : list TurnTool * gset string :=
  let name := Ref_Name (Op_Ref op) in if decide (name ∈ p.2) then p else (p.1 ++ [operationToolFromSpec op], {[name]} ∪ p.2).
Definition operationTools (sn : SurfaceSession) (ref : Ref) : list TurnTool :=
  if HasSelectorMeta ref then (fold_left first_named (matchingOperations sn ref) ([], ∅)).1
  else match operationTool sn ref with Some tool => [tool] | None => [] end.
Definition surfaceToolSpecs : list TurnTool := map (fun name => mkTurnTool name (Some (name_ref name))) reserved_names.
Definition shouldProjectSurfaceTools (sn : SurfaceSession) (active : ActiveState) : bool :=
  negb (bool_decide (sn_ActivationSets sn = [] /\ at_ActivationSets active = ∅ /\ at_Operations active = ∅ /\ at_OperationSets active = ∅ /\
    at_ContextProviders active = ∅ /\ at_Datasources active = ∅ /\ at_InlineContexts active = ∅)).
Definition project_all (tools candidates : list TurnTool) : list TurnTool := fold_left project_tool candidates tools.
Definition activeOperationTools (sn : SurfaceSession) (active : ActiveState) : list TurnTool :=
  project_all [] (flat_map (operationTools sn) (sort_by Ref_text (List.filter (fun ref => named (Ref_Name ref)) (elements (at_Operations active))))).
(** The sets by their names as they are, the last of a name; [names] is the order of the map's iteration. *)
Definition named_set (sn : SurfaceSession) (name : string) : option OperationSetSpec :=
  last (List.filter (fun set => named (os_Name set) && bool_decide (os_Name set = name)) (sn_OperationSets sn)).
Definition activeOperationSetTools (sn : SurfaceSession) (names : list string) : list TurnTool :=
  project_all [] (flat_map (operationTools sn) (flat_map os_Operations (omap (named_set sn) names))).
Definition turnTools (sn : SurfaceSession) (active : ActiveState) (names : list string) : option (list TurnTool) :=
  let out := default [] (sn_TurnTools sn) in
  let out := if shouldProjectSurfaceTools sn active then project_all out surfaceToolSpecs else out in
  let out := if sn_BlocksOnly sn then out else project_all (project_all out (activeOperationTools sn active)) (activeOperationSetTools sn names) in
  if decide (out = [] /\ sn_TurnTools sn = None) then None else Some out.
End Session.
