(* ===== verification/SurfaceUse.v ===== *)
(** * What a preparation makes active, and for how long (src/orchestration/session)

    A preparation activates exactly the selected resources its terms resolve to; the next input starts with
    what was prepared; the tools a turn gets beyond its own are new ones. *)

From stdpp Require Import sorting.
From S2P Require Import Prelude Operation NamedInstance Instances Resource Materializer Skill Surface SurfaceModel SurfaceSession.

Section Use.
Context {RM : RefModule} {AT : ActivationTexts} {SO : SessionOps} {SM : SkillModule} {CM : ContextModule} {ST : SkillTexts}.
Implicit Types (sn : SurfaceSession) (t : ActivationTarget) (a : Applying) (s : ActiveState) (ref : Ref) (name : string).

(** ** Targets

    What one target adds to what is active, of each kind. *)

Definition adds_operation sn t ref : Prop := tg_Kind t = ActOperation /\ tg_Operation t = ref /\ operationExists sn ref = true /\ blank (Ref_Name ref) = false.
Definition adds_operation_set sn t name : Prop :=
  tg_Kind t = ActOperationSet /\ TrimSpace (tg_OperationSet t) = name /\ operationSetExists sn name = true /\ name <> emp.
Definition adds_provider sn t name : Prop :=
  tg_Kind t = ActContextProvider /\ tg_ContextProvider t = name /\ contextProviderExists sn name = true /\ blank name = false.
Definition adds_datasource sn t name : Prop := tg_Kind t = ActDatasource /\ tg_Datasource t = name /\ datasourceExists sn name = true /\ blank name = false.
Definition adds_inline t id : Prop :=
  tg_Kind t = ActInlineContext /\ exists block, inlineContextBlock (tg_InlineContext t) = Ok block /\ TrimSpace (bl_ID block) = id /\ id <> emp.

Lemma set_exists_trim sn name : operationSetExists sn (TrimSpace name) = operationSetExists sn name.
Proof. unfold operationSetExists. by rewrite TrimSpace_idem. Qed.
Lemma activate_skills_active f a : ap_Active (activate_skills f a).1 = ap_Active a /\ ap_Prepared (activate_skills f a).1 = ap_Prepared a.
Proof. unfold activate_skills. destruct (ap_Skills a) as [k|]; [|done]. by destruct (f k) as [[? ?] ?]. Qed.

(** What is active and what is listed as prepared go together. *)
Record listed a : Prop := {
  ls_sets : forall name, name ∈ at_ActivationSets (ap_Active a) <-> name <> emp /\ name ∈ map TrimSpace (su_ActivationSets (ap_Prepared a));
  ls_operations : forall ref, ref ∈ su_Operations (ap_Prepared a) <-> ref ∈ at_Operations (ap_Active a);
  ls_operation_sets : forall name, name ∈ map TrimSpace (su_OperationSets (ap_Prepared a)) <-> name ∈ at_OperationSets (ap_Active a);
  ls_providers : forall name, name ∈ su_ContextProviders (ap_Prepared a) <-> name ∈ at_ContextProviders (ap_Active a);
  ls_datasources : forall name, name ∈ su_Datasources (ap_Prepared a) <-> name ∈ at_Datasources (ap_Active a)
}.
(** Inline contexts are kept under their identifiers. *)
Definition inline_keyed s : Prop := map_Forall (fun id block => id = TrimSpace (bl_ID block) /\ id <> emp) (at_InlineContexts s).
(** The second state has what the first has and what the predicates say. *)
Record adds (O : string -> Prop) (P : Ref -> Prop) (Q R S T : string -> Prop) s s' : Prop := {
  sa_sets : forall name, name ∈ at_ActivationSets s' <-> O name \/ name ∈ at_ActivationSets s;
  sa_operations : forall ref, ref ∈ at_Operations s' <-> P ref \/ ref ∈ at_Operations s;
  sa_operation_sets : forall name, name ∈ at_OperationSets s' <-> Q name \/ name ∈ at_OperationSets s;
  sa_providers : forall name, name ∈ at_ContextProviders s' <-> R name \/ name ∈ at_ContextProviders s;
  sa_datasources : forall name, name ∈ at_Datasources s' <-> S name \/ name ∈ at_Datasources s;
  sa_inline : forall id, is_Some (at_InlineContexts s' !! id) <-> T id \/ is_Some (at_InlineContexts s !! id);
  sa_keyed : inline_keyed s -> inline_keyed s'
}.
Abbreviation nothing := (fun _ => False).
Lemma adds_iff (P P' : Ref -> Prop) (O O' Q Q' R R' S S' T T' : string -> Prop) s s' :
  (forall x, O x <-> O' x) -> (forall x, P x <-> P' x) -> (forall x, Q x <-> Q' x) -> (forall x, R x <-> R' x) -> (forall x, S x <-> S' x) ->
  (forall x, T x <-> T' x) -> adds O P Q R S T s s' -> adds O' P' Q' R' S' T' s s'.
Proof.
  intros HO HP HQ HR HS HT []. split; [intros x..|done]; [rewrite <- HO|rewrite <- HP|rewrite <- HQ|rewrite <- HR|rewrite <- HS|rewrite <- HT]; done.
Qed.
Lemma adds_nothing s : adds nothing nothing nothing nothing nothing nothing s s.
Proof. split; intros; tauto. Qed.
Lemma adds_trans {P P' : Ref -> Prop} {O O' Q Q' R R' S S' T T' : string -> Prop} {s1 s2 s3} : adds O P Q R S T s1 s2 -> adds O' P' Q' R' S' T' s2 s3 ->
  adds (fun x => O x \/ O' x) (fun x => P x \/ P' x) (fun x => Q x \/ Q' x) (fun x => R x \/ R' x) (fun x => S x \/ S' x) (fun x => T x \/ T' x) s1 s3.
Proof.
  intros [H1 H2 H3 H4 H5 H6 H7] [H1' H2' H3' H4' H5' H6' H7'].
  split; [intros x..|auto]; [rewrite H1', H1|rewrite H2', H2|rewrite H3', H3|rewrite H4', H4|rewrite H5', H5|rewrite H6', H6]; tauto.
Qed.
(** What the steps of a loop add, its loop adds. *)
Definition some {A B} (P : A -> B -> Prop) (l : list A) (x : B) : Prop := exists v : A, v ∈ l /\ P v x.
Lemma adds_fold {A} (f : ActiveState -> A -> ActiveState) (P : A -> Ref -> Prop) (O Q R S T : A -> string -> Prop) l s :
  (forall (x : A) s, adds (O x) (P x) (Q x) (R x) (S x) (T x) s (f s x)) ->
  adds (some O l) (some P l) (some Q l) (some R l) (some S l) (some T l) s (fold_left f l s).
Proof.
  intros Hf. revert s. induction l as [|x l IH]; intros s; cbn.
  { eapply adds_iff; [..|apply adds_nothing]; intros y; (split; [done|]); intros (z & Hin & _); by apply elem_of_nil in Hin. }
  pose proof (adds_trans (Hf x s) (IH (f s x))) as H.
  eapply adds_iff; [..|exact H]; intros y; unfold some; setoid_rewrite elem_of_cons; naive_solver.
Qed.
Lemma blank_true name : Is_true (blank name) <-> blank name = true.
Proof. destruct (blank name); cbn; split; done. Qed.
Ltac enables := let Hd := fresh "Hd" in case_decide as Hd; rewrite ?blank_true in Hd; split; let x := fresh "x" in intros x; cbn; rewrite <- ?not_true_iff_false; set_unfold; naive_solver congruence.
Lemma EnableActivationSet_adds name s : adds (fun x => x = TrimSpace name /\ x <> emp) nothing nothing nothing nothing nothing s (EnableActivationSet name s).1.
Proof. unfold EnableActivationSet. enables. Qed.
Lemma EnableOperation_adds ref s : adds nothing (fun x => x = ref /\ blank (Ref_Name ref) = false) nothing nothing nothing nothing s (EnableOperation ref s).1.
Proof. unfold EnableOperation. enables. Qed.
Lemma EnableOperationSet_adds name s : adds nothing nothing (fun x => x = TrimSpace name /\ x <> emp) nothing nothing nothing s (EnableOperationSet name s).1.
Proof. unfold EnableOperationSet. enables. Qed.
Lemma EnableContextProvider_adds name s : adds nothing nothing nothing (fun x => x = name /\ blank name = false) nothing nothing s (EnableContextProvider name s).1.
Proof. unfold EnableContextProvider. enables. Qed.
Lemma EnableDatasource_adds name s : adds nothing nothing nothing nothing (fun x => x = name /\ blank name = false) nothing s (EnableDatasource name s).1.
Proof. unfold EnableDatasource. enables. Qed.
Lemma EnableInlineContext_adds block s : adds nothing nothing nothing nothing nothing (fun id => id = TrimSpace (bl_ID block) /\ id <> emp) s (EnableInlineContext block s).1.
Proof.
  unfold EnableInlineContext. case_decide as Hd.
  - split; try (intros x; tauto). intros id. split; [by right|]. intros [[-> Hne]|H]; [by destruct Hd|done].
  - apply Decidable.not_or in Hd as [Hne Hnew]. split; try (intros x; cbn; tauto).
    + intros id. cbn. rewrite lookup_insert_is_Some. split; [intros [<-|[_ H]]; [by left|by right]|].
      intros [[-> _]|H]; [by left|]. destruct (decide (TrimSpace (bl_ID block) = id)); [by left|by right].
    + intros Hk. by apply map_Forall_insert_2.
Qed.

Lemma enabled_active {A} (enable : A -> ActiveState -> ActiveState * bool) add v a : ap_Active (enabled_item enable add v a) = (enable v (ap_Active a)).1.
Proof. unfold enabled_item. by destruct (enable v (ap_Active a)) as [s []]. Qed.
(** An item that changes nothing changes nothing; one that does is listed. *)
Lemma listed_unchanged a : listed a -> listed (a <| ap_Active := ap_Active a |>).
Proof. by destruct a. Qed.
Ltac lists := case_decide; [by apply listed_unchanged|]; (split; cbn; intros x; rewrite ?map_app, ?elem_of_app; set_solver).
Lemma listed_operation ref a : listed a -> listed (enabled_item EnableOperation add_operation ref a).
Proof. intros Hl. unfold enabled_item, EnableOperation. destruct Hl as [Hs Ho Hos Hp Hd] eqn:E. clear E. lists. Qed.
Lemma listed_operation_set name a : listed a -> listed (enabled_item EnableOperationSet add_operation_set name a).
Proof. intros []. unfold enabled_item, EnableOperationSet. lists. Qed.
Lemma listed_provider name a : listed a -> listed (enabled_item EnableContextProvider add_context_provider name a).
Proof. intros []. unfold enabled_item, EnableContextProvider. lists. Qed.
Lemma listed_datasource name a : listed a -> listed (enabled_item EnableDatasource add_datasource name a).
Proof. intros []. unfold enabled_item, EnableDatasource. lists. Qed.
Lemma listed_inline block a : listed a -> listed (enabled_item EnableInlineContext add_inline block a).
Proof. intros []. unfold enabled_item, EnableInlineContext. lists. Qed.
Lemma listed_same a a' : ap_Active a' = ap_Active a -> ap_Prepared a' = ap_Prepared a -> listed a -> listed a'.
Proof. intros E1 E2 []. split; intros x; rewrite E1, E2; done. Qed.

Abbreviation target_adds sn t := (adds nothing (adds_operation sn t) (adds_operation_set sn t) (adds_provider sn t) (adds_datasource sn t) (adds_inline t)).
Ltac by_kind Hk := intros ?; unfold adds_operation, adds_operation_set, adds_provider, adds_datasource, adds_inline; rewrite ?Hk; naive_solver congruence.
Lemma target_nothing sn t s :
  (forall x, ~ adds_operation sn t x) -> (forall x, ~ adds_operation_set sn t x) -> (forall x, ~ adds_provider sn t x) -> (forall x, ~ adds_datasource sn t x) ->
  (forall x, ~ adds_inline t x) -> target_adds sn t s s.
Proof. intros ? ? ? ? ?. eapply adds_iff; [..|apply adds_nothing]; naive_solver. Qed.
Lemma target_active sn t a : target_adds sn t (ap_Active a) (ap_Active (applyActivationTarget sn t a).1).
Proof.
  unfold applyActivationTarget. destruct (tg_Kind t) eqn:Hk; try (cbn [fst]; apply target_nothing; by_kind Hk).
  - destruct (operationExists _ _) eqn:E; cbn [fst]; [|apply target_nothing; by_kind Hk].
    rewrite enabled_active. eapply adds_iff; [..|apply EnableOperation_adds]; by_kind Hk.
  - destruct (operationSetExists _ _) eqn:E; cbn [fst]; rewrite <- set_exists_trim in E; [|apply target_nothing; by_kind Hk].
    rewrite enabled_active. eapply adds_iff; [..|apply EnableOperationSet_adds]; by_kind Hk.
  - destruct (activate_skills_active (activateSurfaceSkill (tg_Skill t)) a) as [Ha _]. destruct (activate_skills _ a) as [a' [e|]]; cbn in *; rewrite Ha; apply target_nothing; by_kind Hk.
  - destruct (activate_skills_active (activateSurfaceReference (rt_Skill (tg_Reference t)) (rt_Path (tg_Reference t))) a) as [Ha _].
    destruct (activate_skills _ a) as [a' [e|]]; cbn in *; rewrite Ha; apply target_nothing; by_kind Hk.
  - destruct (contextProviderExists _ _) eqn:E; cbn [fst]; [|apply target_nothing; by_kind Hk].
    rewrite enabled_active. eapply adds_iff; [..|apply EnableContextProvider_adds]; by_kind Hk.
  - destruct (datasourceExists _ _) eqn:E; cbn [fst]; [|apply target_nothing; by_kind Hk].
    rewrite enabled_active. eapply adds_iff; [..|apply EnableDatasource_adds]; by_kind Hk.
  - destruct (inlineContextBlock _) eqn:E; cbn [fst]; [|apply target_nothing; by_kind Hk].
    rewrite enabled_active. eapply adds_iff; [..|apply EnableInlineContext_adds]; by_kind Hk.
Qed.
Lemma target_listed sn t a : listed a -> listed (applyActivationTarget sn t a).1.
Proof.
  intros Hl. unfold applyActivationTarget. destruct (tg_Kind t); try exact Hl.
  - case_match; [by apply listed_operation|done].
  - case_match; [by apply listed_operation_set|done].
  - pose proof (activate_skills_active (activateSurfaceSkill (tg_Skill t)) a) as [Ha Hp]. destruct (activate_skills _ a) as [a' [e|]]; cbn in *; [by apply (listed_same a)|].
    destruct Hl. split; intros x; cbn; rewrite Ha, Hp; done.
  - pose proof (activate_skills_active (activateSurfaceReference (rt_Skill (tg_Reference t)) (rt_Path (tg_Reference t))) a) as [Ha Hp].
    destruct (activate_skills _ a) as [a' [e|]]; cbn in *; [by apply (listed_same a)|]. destruct Hl. split; intros x; cbn; rewrite Ha, Hp; done.
  - case_match; [by apply listed_provider|done].
  - case_match; [by apply listed_datasource|done].
  - case_match; [by apply listed_inline|done].
Qed.

(** ** Preparations *)

Lemma step_active sn source p t : ap_Active (target_step sn source p t).1 = ap_Active (applyActivationTarget sn t p.1).1 /\
  ap_Prepared (target_step sn source p t).1 = ap_Prepared (applyActivationTarget sn t p.1).1.
Proof. unfold target_step. destruct p as [a ds]. cbn. by destruct (applyActivationTarget sn t a) as [a' [d|]]. Qed.
Abbreviation targets_add sn targets :=
  (adds nothing (some (adds_operation sn) targets) (some (adds_operation_set sn) targets) (some (adds_provider sn) targets) (some (adds_datasource sn) targets)
    (some adds_inline targets)).
Lemma targets_active sn source targets p :
  let p' := fold_left (target_step sn source) targets p in targets_add sn targets (ap_Active p.1) (ap_Active p'.1) /\ (listed p.1 -> listed p'.1).
Proof.
  revert p. induction targets as [|t targets IH]; intros p; cbn.
  { split; [|done]. eapply adds_iff; [..|apply adds_nothing]; intros x; try done; (split; [done|]); intros (t & Hin & _); by apply elem_of_nil in Hin. }
  destruct (step_active sn source p t) as [Ha Hp]. destruct (IH (target_step sn source p t)) as [H1 H2]. split.
  - rewrite Ha in H1. pose proof (target_active sn t p.1) as H0. pose proof (adds_trans H0 H1) as H.
    eapply adds_iff; [..|exact H]; intros x; unfold some; try setoid_rewrite elem_of_cons; naive_solver.
  - intros Hl. apply H2. eapply listed_same; [done..|]. by apply target_listed.
Qed.

Lemma enable_all_adds {B} (enable : B -> ActiveState -> ActiveState * bool) (P : B -> Ref -> Prop) (O Q R S T : B -> string -> Prop) (l : list B) s :
  (forall x s, adds (O x) (P x) (Q x) (R x) (S x) (T x) s (enable x s).1) ->
  adds (some O l) (some P l) (some Q l) (some R l) (some S l) (some T l) s (enable_all enable l s).
Proof. intros H. apply adds_fold. apply H. Qed.
Lemma elem_of_trim (l : list string) x : x ∈ map TrimSpace l <-> exists raw, raw ∈ l /\ x = TrimSpace raw.
Proof. change (map TrimSpace l) with (TrimSpace <$> l). rewrite list_elem_of_fmap. naive_solver. Qed.
Lemma listed_start names state emits : listed (mkApplying (enable_all EnableActivationSet names zero_ActiveState) (no_items <| su_ActivationSets := names |>) state emits).
Proof.
  destruct (enable_all_adds EnableActivationSet _ _ _ _ _ _ names zero_ActiveState EnableActivationSet_adds) as [H1 H2 H3 H4 H5 _ _].
  split; intros x; cbn [ap_Active ap_Prepared].
  - rewrite H1, elem_of_trim. unfold some. cbn. set_solver.
  - rewrite H2. unfold some. cbn. set_solver.
  - rewrite H3. unfold some. cbn. set_solver.
  - rewrite H4. unfold some. cbn. set_solver.
  - rewrite H5. unfold some. cbn. set_solver.
Qed.

(** Until the end of a preparation nothing that is emitted changes the surface. *)
Definition quiet (e : SessionEmit) : Prop := match e with EmitSurface (SurfacePrepared _) | EmitSurface (SurfaceExpired _) => False | _ => True end.
Lemma target_quiet sn t a : exists new, ap_Emitted (applyActivationTarget sn t a).1 = ap_Emitted a ++ new /\ Forall quiet new.
Proof.
  assert (H0 : exists new, ap_Emitted a = ap_Emitted a ++ new /\ Forall quiet new) by (exists []; by rewrite app_nil_r).
  assert (He : forall B (enable : B -> ActiveState -> ActiveState * bool) add v, ap_Emitted (enabled_item enable add v a) = ap_Emitted a).
  { intros B enable add v. unfold enabled_item. by destruct (enable v (ap_Active a)) as [? []]. }
  assert (Hs : forall f, exists new, ap_Emitted (activate_skills f a).1 = ap_Emitted a ++ new /\ Forall quiet new).
  { intros f. unfold activate_skills. destruct (ap_Skills a) as [k|]; [|done]. destruct (f k) as [[k' evts] e]. exists (map EmitSkill evts). split; [done|].
    apply Forall_map. by apply Forall_true. }
  unfold applyActivationTarget. destruct (tg_Kind t); try done; try (case_match; cbn [fst]; rewrite ?He; done).
  - specialize (Hs (activateSurfaceSkill (tg_Skill t))). by destruct (activate_skills _ a) as [a' [e|]].
  - specialize (Hs (activateSurfaceReference (rt_Skill (tg_Reference t)) (rt_Path (tg_Reference t)))). by destruct (activate_skills _ a) as [a' [e|]].
Qed.
Lemma targets_quiet sn source targets p : exists new, ap_Emitted (fold_left (target_step sn source) targets p).1 = ap_Emitted p.1 ++ new /\ Forall quiet new.
Proof.
  revert p. induction targets as [|t targets IH]; intros p; cbn; [exists []; by rewrite app_nil_r|].
  destruct (IH (target_step sn source p t)) as (new & -> & Hn). destruct (target_quiet sn t p.1) as (new1 & E & Hn1).
  unfold target_step. destruct p as [a ds]. cbn [fst] in E |- *. destruct (applyActivationTarget sn t a) as [a' [d|]]; cbn [fst] in E |- *; cbn; rewrite E.
  - eexists. rewrite <- !app_assoc. split; [done|]. repeat (apply Forall_app; split); try done. by repeat constructor.
  - eexists. rewrite <- !app_assoc. split; [done|]. by apply Forall_app.
Qed.

Lemma prepare_run sn terms lifetime source state :
  let '(_, evts, prep) := prepareSurfaceWithEmit sn terms lifetime source state in
  exists a before, listed a /\ sp_Active prep = ActiveSurface (ap_Active a) /\ pe_Items (sp_Prepared prep) = sortSurfacePrepared (ap_Prepared a) /\
    targets_add sn (resolvedTargetList (sp_Resolved prep) (sn_ActivationSets sn))
      (enable_all EnableActivationSet (re_ActivationSets (sp_Resolved prep)) zero_ActiveState) (ap_Active a) /\
    evts = before ++ [EmitSurface (SurfacePrepared (sp_Prepared prep))] /\ Forall quiet before.
Proof.
  unfold prepareSurfaceWithEmit. set (lt := if decide _ then _ else _). set (ts := cleanTerms terms). set (resolved := resolveSurfaceTerms sn state ts).
  set (start := mkApplying _ _ _ _). set (targets := resolvedTargetList _ _).
  destruct (targets_active sn source targets (start, [])) as [H1 H2]. destruct (targets_quiet sn source targets (start, [])) as (new & Hq & Hn).
  destruct (fold_left _ targets (start, [])) as [a skipped]. cbn in H1, H2, Hq. exists a, (ap_Emitted a).
  split; [apply H2, listed_start|]. split; [done|]. split; [done|]. split; [exact H1|]. split; [done|]. rewrite Hq. apply Forall_cons. split; [done|].
  apply Forall_cons. by split.
Qed.

Lemma elem_of_sort {B} (key : B -> string) (l : list B) x : x ∈ sort_by key l <-> x ∈ l.
Proof. unfold sort_by. by rewrite merge_sort_Permutation. Qed.
Lemma named_true name : named name = true <-> blank name = false.
Proof. apply negb_true_iff. Qed.
Lemma elem_of_sorted_names (names : gset string) name : name ∈ sorted_names names <-> name ∈ names /\ blank name = false.
Proof. unfold sorted_names, sort_Strings. by rewrite elem_of_sort, list_elem_of_In, filter_In, <- list_elem_of_In, elem_of_elements, named_true. Qed.
Lemma elem_of_active_operations s ref : ref ∈ su_Operations (ActiveSurface s) <-> ref ∈ at_Operations s /\ blank (Ref_Name ref) = false.
Proof. cbn. by rewrite elem_of_sort, list_elem_of_In, filter_In, <- list_elem_of_In, elem_of_elements, named_true. Qed.
Lemma blank_trim name : blank (TrimSpace name) = blank name.
Proof. unfold blank. by rewrite TrimSpace_idem. Qed.
Lemma trim_blank name : TrimSpace name <> emp <-> blank name = false.
Proof. unfold blank. by rewrite bool_decide_eq_false. Qed.

(** ** What is listed, and what becomes active *)

Definition silent_operation t ref : Prop := tg_Kind t = ActOperation /\ ref = tg_Operation t /\ blank (Ref_Name (tg_Operation t)) = false.
Definition silent_operation_set t name : Prop := tg_Kind t = ActOperationSet /\ name = TrimSpace (tg_OperationSet t) /\ name <> emp.
Definition silent_provider t name : Prop := tg_Kind t = ActContextProvider /\ name = tg_ContextProvider t /\ blank (tg_ContextProvider t) = false.
Definition silent_datasource t name : Prop := tg_Kind t = ActDatasource /\ name = tg_Datasource t /\ blank (tg_Datasource t) = false.
Lemma silent_adds t s : adds nothing (silent_operation t) (silent_operation_set t) (silent_provider t) (silent_datasource t) (adds_inline t) s (applyActiveTargetSilent t s).
Proof.
  unfold applyActiveTargetSilent.
  destruct (tg_Kind t) eqn:Hk; try destruct (inlineContextBlock _) eqn:Eb; (eapply adds_iff; [..|first [apply EnableOperation_adds|apply EnableOperationSet_adds
    |apply EnableContextProvider_adds|apply EnableDatasource_adds|apply EnableInlineContext_adds|apply adds_nothing]]);
    intros x; unfold silent_operation, silent_operation_set, silent_provider, silent_datasource, adds_inline; rewrite ?Hk; naive_solver congruence.
Qed.
(** What the targets of the sets of a name add. *)
Definition of_sets {B} sn (P : ActivationTarget -> B -> Prop) name (x : B) : Prop :=
  some (fun set x => TrimSpace (set_Name set) = name /\ some P (set_Targets set) x) (sn_ActivationSets sn) x.
Lemma enable_set_adds sn name s :
  adds (fun x => x = TrimSpace name /\ x <> emp) (of_sets sn silent_operation name) (of_sets sn silent_operation_set name) (of_sets sn silent_provider name)
    (of_sets sn silent_datasource name) (of_sets sn adds_inline name) s (enable_set sn s name).
Proof.
  unfold enable_set. pose proof (EnableActivationSet_adds name s) as H0.
  set (f := fun s set => if decide (TrimSpace (set_Name set) = name) then fold_left (fun s t => applyActiveTargetSilent t s) (set_Targets set) s else s).
  assert (Hf : forall set s, adds nothing (fun x => TrimSpace (set_Name set) = name /\ some silent_operation (set_Targets set) x)
    (fun x => TrimSpace (set_Name set) = name /\ some silent_operation_set (set_Targets set) x) (fun x => TrimSpace (set_Name set) = name /\ some silent_provider (set_Targets set) x)
    (fun x => TrimSpace (set_Name set) = name /\ some silent_datasource (set_Targets set) x)
    (fun x => TrimSpace (set_Name set) = name /\ some adds_inline (set_Targets set) x) s (f s set)).
  { intros set s1. unfold f. case_decide as Hn; [|eapply adds_iff; [..|apply adds_nothing]; naive_solver].
    pose proof (adds_fold (fun s t => applyActiveTargetSilent t s) _ _ _ _ _ _ (set_Targets set) s1 silent_adds) as H.
    eapply adds_iff; [..|exact H]; intros x; unfold some; naive_solver. }
  pose proof (adds_fold f _ (fun _ => nothing) _ _ _ _ (sn_ActivationSets sn) (EnableActivationSet name s).1 Hf) as H1.
  pose proof (adds_trans H0 H1) as H. eapply adds_iff; [..|exact H]; intros x; unfold of_sets, some; naive_solver.
Qed.
Definition named_as {B} (is_blank : B -> bool) (v x : B) : Prop := x = v /\ is_blank v = false.
Lemma active_from_adds sn (i : SurfaceItems) :
  adds (some (fun name x => x = TrimSpace name /\ x <> emp) (su_ActivationSets i))
    (fun x => some (of_sets sn silent_operation) (su_ActivationSets i) x \/ some (named_as (fun ref => blank (Ref_Name ref))) (su_Operations i) x)
    (fun x => some (of_sets sn silent_operation_set) (su_ActivationSets i) x \/ some (fun name x => x = TrimSpace name /\ x <> emp) (su_OperationSets i) x)
    (fun x => some (of_sets sn silent_provider) (su_ActivationSets i) x \/ some (named_as blank) (su_ContextProviders i) x)
    (fun x => some (of_sets sn silent_datasource) (su_ActivationSets i) x \/ some (named_as blank) (su_Datasources i) x)
    (some (of_sets sn adds_inline) (su_ActivationSets i)) zero_ActiveState (activeStateFromSurface sn i).
Proof.
  unfold activeStateFromSurface.
  pose proof (adds_fold (enable_set sn) _ _ _ _ _ _ (su_ActivationSets i) zero_ActiveState (enable_set_adds sn)) as H0.
  set (s0 := fold_left _ _ _) in *. pose proof (enable_all_adds EnableOperation _ _ _ _ _ _ (su_Operations i) s0 EnableOperation_adds) as H1. set (s1 := enable_all _ _ s0) in *.
  pose proof (enable_all_adds EnableOperationSet _ _ _ _ _ _ (su_OperationSets i) s1 EnableOperationSet_adds) as H2. set (s2 := enable_all _ _ s1) in *.
  pose proof (enable_all_adds EnableContextProvider _ _ _ _ _ _ (su_ContextProviders i) s2 EnableContextProvider_adds) as H3. set (s3 := enable_all _ _ s2) in *.
  pose proof (enable_all_adds EnableDatasource _ _ _ _ _ _ (su_Datasources i) s3 EnableDatasource_adds) as H4.
  pose proof (adds_trans (adds_trans (adds_trans (adds_trans H0 H1) H2) H3) H4) as H.
  eapply adds_iff; [..|exact H]; intros x; unfold some, named_as; naive_solver.
Qed.

(** What a preparation lists as active: the sets it resolved, and of the targets of these sets and of the
    resources it resolved those that were selected for the session. *)
Definition resolved_set (prep : Preparation) name : Prop := name <> emp /\ name ∈ map TrimSpace (re_ActivationSets (sp_Resolved prep)).
Definition resolved_target sn (prep : Preparation) : list ActivationTarget := resolvedTargetList (sp_Resolved prep) (sn_ActivationSets sn).
Record lists sn (prep : Preparation) : Prop := {
  li_sets : forall name, name ∈ su_ActivationSets (sp_Active prep) <-> resolved_set prep name;
  li_operations : forall ref, ref ∈ su_Operations (sp_Active prep) <-> some (adds_operation sn) (resolved_target sn prep) ref;
  li_operation_sets : forall name, name ∈ su_OperationSets (sp_Active prep) <-> some (adds_operation_set sn) (resolved_target sn prep) name;
  li_providers : forall name, name ∈ su_ContextProviders (sp_Active prep) <-> some (adds_provider sn) (resolved_target sn prep) name;
  li_datasources : forall name, name ∈ su_Datasources (sp_Active prep) <-> some (adds_datasource sn) (resolved_target sn prep) name;
  li_inline : forall id, id ∈ su_InlineContexts (sp_Active prep) <-> some adds_inline (resolved_target sn prep) id
}.
(** What the session then makes active: besides what is listed every target of a set of a resolved name, whether it
    was selected or not; inline contexts only so. *)
Definition with_set {B} sn prep (P : ActivationTarget -> B -> Prop) (x : B) : Prop := exists name, resolved_set prep name /\ of_sets sn P name x.
Record activates sn (prep : Preparation) s : Prop := {
  ac_sets : forall name, name ∈ at_ActivationSets s <-> resolved_set prep name;
  ac_operations : forall ref, ref ∈ at_Operations s <-> some (adds_operation sn) (resolved_target sn prep) ref \/ with_set sn prep silent_operation ref;
  ac_operation_sets : forall name, name ∈ at_OperationSets s <->
    some (adds_operation_set sn) (resolved_target sn prep) name \/ with_set sn prep silent_operation_set name;
  ac_providers : forall name, name ∈ at_ContextProviders s <-> some (adds_provider sn) (resolved_target sn prep) name \/ with_set sn prep silent_provider name;
  ac_datasources : forall name, name ∈ at_Datasources s <-> some (adds_datasource sn) (resolved_target sn prep) name \/ with_set sn prep silent_datasource name;
  ac_inline : forall id, is_Some (at_InlineContexts s !! id) <-> with_set sn prep adds_inline id
}.
Lemma elem_of_listed_inline s id : id ∈ su_InlineContexts (ActiveSurface s) <-> is_Some (at_InlineContexts s !! id) /\ blank id = false.
Proof.
  cbn. unfold sort_Strings. rewrite elem_of_sort, list_elem_of_In, filter_In, <- list_elem_of_In, named_true. apply and_iff_compat_r.
  change (map fst (map_to_list (at_InlineContexts s))) with ((map_to_list (at_InlineContexts s)).*1). rewrite list_elem_of_fmap. split.
  - intros ([id' block] & -> & H%elem_of_map_to_list). by exists block.
  - intros [block H]. exists (id, block). split; [done|]. by apply elem_of_map_to_list.
Qed.
Lemma prepare_lists sn terms lifetime source state : lists sn (prepareSurfaceWithEmit sn terms lifetime source state).2.
Proof.
  pose proof (prepare_run sn terms lifetime source state) as H. destruct (prepareSurfaceWithEmit sn terms lifetime source state) as [[state' evts] prep].
  cbn [snd]. destruct H as (a & before & _ & Hact & _ & Ha & _).
  destruct (enable_all_adds EnableActivationSet _ _ _ _ _ _ (re_ActivationSets (sp_Resolved prep)) zero_ActiveState EnableActivationSet_adds) as [E1 E2 E3 E4 E5 E6 _].
  destruct Ha as [H1 H2 H3 H4 H5 H6 _]. unfold resolved_target. set (targets := resolvedTargetList _ _) in *.
  assert (Hempty : forall B (l : list B) (x : B) (P : Prop), (some (fun (_ : string) _ => False) (re_ActivationSets (sp_Resolved prep)) x \/ P) <-> P).
  { intros B l x P. unfold some. naive_solver. }
  split; intros x; rewrite Hact.
  - cbn [ActiveSurface su_ActivationSets]. unfold resolved_set. rewrite elem_of_sorted_names, H1, E1, elem_of_trim. unfold some. split.
    + intros [[[]|[(raw & Hin & -> & Hne)|Hin]] _]; [by split; [|exists raw]|]. by apply not_elem_of_empty in Hin.
    + intros [Hne (raw & Hin & ->)]. split; [|by rewrite blank_trim; apply trim_blank]. right. left. by exists raw.
  - rewrite elem_of_active_operations, H2, E2, (Hempty _ []). split; [intros [[?|Hin] _]; [done|by apply not_elem_of_empty in Hin]|].
    intros (t & Hin & Ht). split; [left; by exists t|]. by destruct Ht as (_ & _ & _ & ?).
  - cbn [ActiveSurface su_OperationSets]. rewrite elem_of_sorted_names, H3, E3, (Hempty _ []). split; [intros [[?|Hin] _]; [done|by apply not_elem_of_empty in Hin]|].
    intros (t & Hin & Ht). split; [left; by exists t|]. destruct Ht as (_ & <- & _ & Hne). rewrite blank_trim. by apply trim_blank.
  - cbn [ActiveSurface su_ContextProviders]. rewrite elem_of_sorted_names, H4, E4, (Hempty _ []). split; [intros [[?|Hin] _]; [done|by apply not_elem_of_empty in Hin]|].
    intros (t & Hin & Ht). split; [left; by exists t|]. by destruct Ht as (_ & _ & _ & ?).
  - cbn [ActiveSurface su_Datasources]. rewrite elem_of_sorted_names, H5, E5, (Hempty _ []). split; [intros [[?|Hin] _]; [done|by apply not_elem_of_empty in Hin]|].
    intros (t & Hin & Ht). split; [left; by exists t|]. by destruct Ht as (_ & _ & _ & ?).
  - rewrite elem_of_listed_inline, H6, E6, (Hempty _ []). split; [intros [[?|[block Hin]] _]; [done|by cbn in Hin; rewrite lookup_empty in Hin]|].
    intros (t & Hin & Ht). split; [left; by exists t|]. destruct Ht as (_ & block & _ & <- & Hne). rewrite blank_trim. by apply trim_blank.
Qed.
Lemma some_listed {B C} (P : B -> C -> Prop) (Q : B -> Prop) (l : list B) x : (forall v, v ∈ l <-> Q v) -> some P l x <-> exists v, Q v /\ P v x.
Proof. intros H. unfold some. split; intros (v & Hv & Hx); exists v; (split; [by apply H|done]). Qed.
Lemma resolved_trimmed prep name : resolved_set prep name -> TrimSpace name = name.
Proof. intros [_ Hin]. apply elem_of_trim in Hin as (raw & _ & ->). apply TrimSpace_idem. Qed.

(** C27: A preparation lists as active exactly the sets its terms resolve to, and of the targets of these sets and
    of the resources its terms resolve to those that were selected for the session, and valid inline contexts.
    What the session makes active of the list is that and more: every target of a listed set, also those that were refused
    as not selected; of inline contexts only those of the sets. *)
Theorem prepare_exact sn terms lifetime source state :
  let prep := (prepareSurfaceWithEmit sn terms lifetime source state).2 in
  lists sn prep /\ activates sn prep (activeStateFromSurface sn (sp_Active prep)).
Proof.
  cbv zeta. pose proof (prepare_lists sn terms lifetime source state) as Hl. set (prep := (prepareSurfaceWithEmit _ _ _ _ _).2) in *. split; [done|].
  destruct Hl as [L1 L2 L3 L4 L5 _], (active_from_adds sn (sp_Active prep)) as [H1 H2 H3 H4 H5 H6 _].
  assert (Hsets : forall B (P : ActivationTarget -> B -> Prop) x, some (of_sets sn P) (su_ActivationSets (sp_Active prep)) x <-> with_set sn prep P x).
  { intros B P x. by apply some_listed. }
  assert (Hnone : forall x : string, x ∉ (∅ : gset string)) by apply not_elem_of_empty.
  split; intros x; rewrite ?H1, ?H2, ?H3, ?H4, ?H5, ?H6, ?Hsets; rewrite ?(some_listed _ _ _ _ L1), ?(some_listed _ _ _ _ L2), ?(some_listed _ _ _ _ L3),
    ?(some_listed _ _ _ _ L4), ?(some_listed _ _ _ _ L5).
  - split; [intros [(name & Hn & -> & _)|Hin]; [by rewrite (resolved_trimmed prep)|by apply Hnone in Hin]|].
    intros Hn. left. exists x. split; [done|]. split; [by rewrite (resolved_trimmed prep)|apply Hn].
  - unfold named_as. split; [intros [[H|(ref & Hr & -> & _)]|Hin]; [by right|by left|by apply not_elem_of_empty in Hin]|].
    intros [H|H]; left; [right|by left]. exists x. split; [done|]. split; [done|]. by destruct H as (t & _ & _ & _ & _ & ?).
  - split; [intros [[H|(name & Hn & -> & _)]|Hin]; [by right| |by apply not_elem_of_empty in Hin]|].
    + left. destruct Hn as (t & Ht & Hk & <- & He & Hne). exists t. split; [done|]. split; [done|]. rewrite TrimSpace_idem. done.
    + intros [H|H]; left; [right|by left]. exists x. split; [done|]. destruct H as (t & _ & _ & <- & _ & Hne). by rewrite TrimSpace_idem.
  - unfold named_as. split; [intros [[H|(ref & Hr & -> & _)]|Hin]; [by right|by left|by apply not_elem_of_empty in Hin]|].
    intros [H|H]; left; [right|by left]. exists x. split; [done|]. split; [done|]. by destruct H as (t & _ & _ & _ & _ & ?).
  - unfold named_as. split; [intros [[H|(ref & Hr & -> & _)]|Hin]; [by right|by left|by apply not_elem_of_empty in Hin]|].
    intros [H|H]; left; [right|by left]. exists x. split; [done|]. split; [done|]. by destruct H as (t & _ & _ & _ & _ & ?).
  - split; [|by left]. intros [H|[block H]]; [done|]. cbn in H. by rewrite lookup_empty in H.
Qed.

(** ** The next input *)

(** What is active in the first state is active in the second. *)
Record within s s' : Prop := {
  wi_sets : at_ActivationSets s ⊆ at_ActivationSets s'; wi_operations : at_Operations s ⊆ at_Operations s';
  wi_operation_sets : at_OperationSets s ⊆ at_OperationSets s'; wi_providers : at_ContextProviders s ⊆ at_ContextProviders s';
  wi_datasources : at_Datasources s ⊆ at_Datasources s'; wi_inline : forall id, is_Some (at_InlineContexts s !! id) -> is_Some (at_InlineContexts s' !! id)
}.
Record items_within (i i' : SurfaceItems) : Prop := {
  iw_sets : su_ActivationSets i ⊆ su_ActivationSets i'; iw_operations : su_Operations i ⊆ su_Operations i';
  iw_operation_sets : su_OperationSets i ⊆ su_OperationSets i'; iw_providers : su_ContextProviders i ⊆ su_ContextProviders i';
  iw_datasources : su_Datasources i ⊆ su_Datasources i'
}.
Lemma some_mono {B C} (P : B -> C -> Prop) (l l' : list B) x : l ⊆ l' -> some P l x -> some P l' x.
Proof. intros Hl (v & Hin & Hv). exists v. split; [by apply Hl|done]. Qed.
Lemma active_from_mono sn i i' : items_within i i' -> within (activeStateFromSurface sn i) (activeStateFromSurface sn i').
Proof.
  intros [I1 I2 I3 I4 I5]. destruct (active_from_adds sn i) as [H1 H2 H3 H4 H5 H6 _], (active_from_adds sn i') as [H1' H2' H3' H4' H5' H6' _].
  split; intros x; [rewrite H1, H1'|rewrite H2, H2'|rewrite H3, H3'|rewrite H4, H4'|rewrite H5, H5'|rewrite H6, H6'];
    intros [Hx|Hx]; try (by right).
  all: left; try (destruct Hx as [Hx|Hx]; [left|right]); by eapply some_mono.
Qed.

Lemma within_trans s1 s2 s3 : within s1 s2 -> within s2 s3 -> within s1 s3.
Proof. intros [] []. split; try set_solver; auto. Qed.

(** A state in which everything has a name, as the code makes it; its merge with another one has all of it. *)
Record tidy s : Prop := {
  ti_sets : forall name, name ∈ at_ActivationSets s -> TrimSpace name = name /\ name <> emp;
  ti_operations : forall ref, ref ∈ at_Operations s -> blank (Ref_Name ref) = false;
  ti_operation_sets : forall name, name ∈ at_OperationSets s -> TrimSpace name = name /\ name <> emp;
  ti_providers : forall name, name ∈ at_ContextProviders s -> blank name = false;
  ti_datasources : forall name, name ∈ at_Datasources s -> blank name = false;
  ti_inline : inline_keyed s
}.
Lemma active_from_tidy sn i : tidy (activeStateFromSurface sn i).
Proof.
  destruct (active_from_adds sn i) as [H1 H2 H3 H4 H5 _ H7]. split; [..|by apply H7, map_Forall_empty]; intros x; [rewrite H1|rewrite H2|rewrite H3|rewrite H4|rewrite H5].
  - intros [(name & _ & -> & Hne)|[]%not_elem_of_empty]. by rewrite TrimSpace_idem.
  - intros [[(name & _ & set & _ & _ & t & _ & _ & -> & Hb)|(ref & _ & -> & Hb)]|[]%not_elem_of_empty]; done.
  - intros [[(name & _ & set & _ & _ & t & _ & _ & -> & Hb)|(name & _ & -> & Hne)]|[]%not_elem_of_empty]; by rewrite TrimSpace_idem.
  - intros [[(name & _ & set & _ & _ & t & _ & _ & -> & Hb)|(name & _ & -> & Hb)]|[]%not_elem_of_empty]; done.
  - intros [[(name & _ & set & _ & _ & t & _ & _ & -> & Hb)|(name & _ & -> & Hb)]|[]%not_elem_of_empty]; done.
Qed.
Lemma merge_within left right : tidy right -> within right (mergeActiveState left right).
Proof.
  intros [T1 T2 T3 T4 T5 T6]. unfold mergeActiveState.
  pose proof (enable_all_adds EnableActivationSet _ _ _ _ _ _ (elements (at_ActivationSets right)) left EnableActivationSet_adds) as H1. set (s1 := enable_all _ _ left) in *.
  pose proof (enable_all_adds EnableOperation _ _ _ _ _ _ (elements (at_Operations right)) s1 EnableOperation_adds) as H2. set (s2 := enable_all _ _ s1) in *.
  pose proof (enable_all_adds EnableOperationSet _ _ _ _ _ _ (elements (at_OperationSets right)) s2 EnableOperationSet_adds) as H3. set (s3 := enable_all _ _ s2) in *.
  pose proof (enable_all_adds EnableContextProvider _ _ _ _ _ _ (elements (at_ContextProviders right)) s3 EnableContextProvider_adds) as H4. set (s4 := enable_all _ _ s3) in *.
  pose proof (enable_all_adds EnableDatasource _ _ _ _ _ _ (elements (at_Datasources right)) s4 EnableDatasource_adds) as H5. set (s5 := enable_all _ _ s4) in *.
  pose proof (enable_all_adds EnableInlineContext _ _ _ _ _ _ (map snd (map_to_list (at_InlineContexts right))) s5 EnableInlineContext_adds) as H6.
  pose proof (adds_trans (adds_trans (adds_trans (adds_trans (adds_trans H1 H2) H3) H4) H5) H6) as [A1 A2 A3 A4 A5 A6 _]. clear H1 H2 H3 H4 H5 H6.
  split; intros x; [rewrite A1|rewrite A2|rewrite A3|rewrite A4|rewrite A5|rewrite A6]; cbv beta; intros Hx; left.
  - assert (some (fun name x => x = TrimSpace name /\ x <> emp) (elements (at_ActivationSets right)) x); [|tauto]. exists x. destruct (T1 x Hx). by rewrite elem_of_elements.
  - assert (some (fun ref x => x = ref /\ blank (Ref_Name ref) = false) (elements (at_Operations right)) x); [|tauto]. exists x. rewrite elem_of_elements. auto.
  - assert (some (fun name x => x = TrimSpace name /\ x <> emp) (elements (at_OperationSets right)) x); [|tauto]. exists x. destruct (T3 x Hx). by rewrite elem_of_elements.
  - assert (some (fun name x => x = name /\ blank name = false) (elements (at_ContextProviders right)) x); [|tauto]. exists x. rewrite elem_of_elements. auto.
  - assert (some (fun name x => x = name /\ blank name = false) (elements (at_Datasources right)) x); [|tauto]. exists x. rewrite elem_of_elements. auto.
  - right. destruct Hx as [block Hx]. pose proof (T6 x block Hx) as [-> Hne]. exists block. split; [|done].
    change (map snd (map_to_list (at_InlineContexts right))) with ((map_to_list (at_InlineContexts right)).*2). apply list_elem_of_fmap.
    by exists (TrimSpace (bl_ID block), block); split; [|apply elem_of_map_to_list].
Qed.
Lemma merge_zero left : mergeActiveState left zero_ActiveState = left.
Proof. unfold mergeActiveState. cbn. rewrite !elements_empty, map_to_list_empty. done. Qed.

(** The operations of targets are told apart by their texts; a reference with a name has a text, and the names
    of a session are trimmed. *)
Definition texts_apart (targets : list ActivationTarget) : Prop := forall t1 t2, t1 ∈ targets -> t2 ∈ targets ->
  Ref_text (tg_Operation t1) = Ref_text (tg_Operation t2) -> tg_Operation t1 = tg_Operation t2.
Record plain_names sn : Prop := {
  pn_text : forall ref, blank (Ref_Name ref) = false -> Ref_text ref <> emp;
  pn_providers : Forall (fun provider => from_option (fun name => TrimSpace name = name) True provider) (sn_ContextProviders sn);
  pn_datasources : Forall (fun name => TrimSpace name = name) (sn_Datasources sn ++ sn_AgentDatasources sn)
}.
Lemma listed_string (l : list string) (m : gmap string string) name : trimmed_strings m -> name <> emp -> name ∈ map TrimSpace l ->
  name ∈ sorted_map (fun x => x) (content (fun x => x) is_nonempty (map TrimSpace l) ∪ m).
Proof.
  intros Hm Hne Hin. assert (Hk : is_nonempty name = true) by (unfold is_nonempty; by rewrite bool_decide_eq_false_2).
  pose proof (trimmed_union _ _ (strings_content_ok l) Hm) as [Hc _].
  apply (elem_of_sorted_map (fun x => x) (fun x => x) is_nonempty); [done|].
  rewrite lookup_union_l' by (rewrite (content_in (fun x => x) is_nonempty (map TrimSpace l) name); [done|by intros|done|done]).
  by rewrite (content_in (fun x => x) is_nonempty (map TrimSpace l) name) by (done || by intros).
Qed.
Lemma listed_value {B} (key order : B -> string) (keep : B -> bool) (l : list B) (m : gmap string B) v : canonical key keep m ->
  (forall x, x ∈ l -> key x = key v -> x = v) -> keep v = true -> v ∈ l -> v ∈ sorted_map order (content key keep l ∪ m).
Proof.
  intros Hm Hinj Hk Hin. pose proof (union_canonical _ _ _ _ (content_canonical key keep l) Hm) as Hc.
  apply (elem_of_sorted_map key order keep); [done|]. by rewrite lookup_union_l'; rewrite (content_in key keep l v).
Qed.
Lemma has_text_named sn ref : plain_names sn -> blank (Ref_Name ref) = false -> has_text ref = true.
Proof. intros Hp Hb. unfold has_text, is_nonempty. rewrite bool_decide_eq_false_2; [done|]. by apply (pn_text _ Hp). Qed.
Lemma provider_trimmed sn name : plain_names sn -> contextProviderExists sn name = true -> TrimSpace name = name.
Proof.
  intros Hp (provider & Hin & E%bool_decide_eq_true)%existsb_exists. subst. pose proof (pn_providers _ Hp) as H. rewrite Forall_forall in H.
  by apply (H (Some name)), list_elem_of_In.
Qed.
Lemma datasource_trimmed sn name : plain_names sn -> datasourceExists sn name = true -> TrimSpace name = name.
Proof.
  intros Hp [E|E]%orb_true_iff; apply bool_decide_eq_true in E; pose proof (pn_datasources _ Hp) as H; rewrite Forall_forall in H; apply H, elem_of_app; tauto.
Qed.
Lemma prepared_within sn a targets names v : plain_names sn -> texts_apart targets -> view_ok v -> listed a ->
  targets_add sn targets (enable_all EnableActivationSet names zero_ActiveState) (ap_Active a) ->
  items_within (ActiveSurface (ap_Active a)) (items_of (view_add (sortSurfacePrepared (ap_Prepared a)) v)).
Proof.
  intros Hp Htexts [V1 V2 V3 V4 V5 _ _ _] [L1 L2 L3 L4 L5] Ha.
  destruct (enable_all_adds EnableActivationSet _ _ _ _ _ _ names zero_ActiveState EnableActivationSet_adds) as [_ E2 _ E4 E5]. destruct Ha as [_ H2 _ H4 H5].
  split; intros x; cbn [su_ActivationSets su_Operations su_OperationSets su_ContextProviders su_Datasources items_of view_add sortSurfacePrepared
    vw_ActivationSets vw_Operations vw_OperationSets vw_ContextProviders vw_Datasources].
  - cbn [ActiveSurface su_ActivationSets]. intros [[Hne Hin]%L1 _]%elem_of_sorted_names. apply listed_string; [done..|].
    revert Hin. rewrite !elem_of_trim. unfold sort_Strings. by setoid_rewrite elem_of_sort.
  - intros [Hin%L2 Hb]%elem_of_active_operations. apply (listed_value Ref_text); [done| |by eapply has_text_named|by apply elem_of_sort].
    assert (Hall : forall y, y ∈ su_Operations (ap_Prepared a) -> exists t, t ∈ targets /\ tg_Operation t = y).
    { intros y [(t & Ht & _ & Hy & _)|[(? & _ & [])|Hy]]%L2%H2%(or_iff_compat_l _ (E2 y)); [by exists t|by apply not_elem_of_empty in Hy]. }
    intros y Hy%elem_of_sort E. destruct (Hall y Hy) as (t1 & Ht1 & <-), (Hall x Hin) as (t2 & Ht2 & <-). by apply Htexts.
  - cbn [ActiveSurface su_OperationSets]. intros [Hin%L3 Hb]%elem_of_sorted_names. apply listed_string; [done|by intros ->|].
    revert Hin. rewrite !elem_of_trim. unfold sort_Strings. by setoid_rewrite elem_of_sort.
  - cbn [ActiveSurface su_ContextProviders]. intros [Hin Hb]%elem_of_sorted_names. apply (listed_value TrimSpace); [done| |by apply named_true|by apply elem_of_sort, L4].
    assert (Hall : forall y, y ∈ su_ContextProviders (ap_Prepared a) -> TrimSpace y = y).
    { intros y [(t & _ & _ & _ & Hy & _)|[(? & _ & [])|Hy]]%L4%H4%(or_iff_compat_l _ (E4 y)); [by eapply provider_trimmed|by apply not_elem_of_empty in Hy]. }
    intros y Hy%elem_of_sort E. rewrite (Hall y Hy), (Hall x) in E; [done|by apply L4].
  - cbn [ActiveSurface su_Datasources]. intros [Hin Hb]%elem_of_sorted_names. apply (listed_value TrimSpace); [done| |by apply named_true|by apply elem_of_sort, L5].
    assert (Hall : forall y, y ∈ su_Datasources (ap_Prepared a) -> TrimSpace y = y).
    { intros y [(t & _ & _ & _ & Hy & _)|[(? & _ & [])|Hy]]%L5%H5%(or_iff_compat_l _ (E5 y)); [by eapply datasource_trimmed|by apply not_elem_of_empty in Hy]. }
    intros y Hy%elem_of_sort E. rewrite (Hall y Hy), (Hall x) in E; [done|by apply L5].
Qed.

(** The records of what a preparation emits, when all of it is written to the branch. *)
Definition emit_record (e : SessionEmit) : option (Result string SurfaceEvent) := match e with EmitSurface e => Some (Ok e) | EmitSkill _ => None end.
Lemma quiet_view before v : Forall quiet before -> fold_left view_step (surface_events (map emit_record before)) v = v.
Proof. intros Hq. revert v. induction Hq as [|e before He Hq IH]; intros v; [done|]. destruct e as [[]|]; cbn in *; done || apply IH. Qed.
Lemma emitted_reads evts m : exists m', read_surface (map emit_record evts) m = (m', None).
Proof. revert m. induction evts as [|[e|e] evts IH]; intros m; cbn; [by eexists|apply IH|apply IH]. Qed.

(** The read model after a preparation. *)
Lemma prepared_read sn a before prep records m0 :
  plain_names sn -> read_surface records zero_ReadModel = (m0, None) -> texts_apart (resolved_target sn prep) ->
  listed a -> sp_Active prep = ActiveSurface (ap_Active a) -> pe_Items (sp_Prepared prep) = sortSurfacePrepared (ap_Prepared a) ->
  targets_add sn (resolved_target sn prep) (enable_all EnableActivationSet (re_ActivationSets (sp_Resolved prep)) zero_ActiveState) (ap_Active a) ->
  Forall quiet before -> pe_Lifetime (sp_Prepared prep) <> NoLifetime ->
  exists m, read_surface (records ++ map emit_record (before ++ [EmitSurface (SurfacePrepared (sp_Prepared prep))])) zero_ReadModel = (m, None) /\
    rm_Lifetime m = pe_Lifetime (sp_Prepared prep) /\ within (activeStateFromSurface sn (sp_Active prep)) (activeStateFromSurface sn (rm_Items m)).
Proof.
  intros Hp Hr Htexts Hlist HA HP Ha Hq Hl. destruct (read_view records zero_ReadModel m0 no_view no_view_ok eq_refl Hr) as [Hm0 Hv0].
  set (v0 := fold_left view_step (surface_events records) no_view) in *. rewrite (read_app _ _ _ m0 Hr), map_app.
  destruct (emitted_reads before m0) as [m1 H1]. rewrite (read_app _ _ _ m1 H1).
  destruct (read_view _ _ _ _ Hv0 Hm0 H1) as [Hm1 Hv1]. rewrite quiet_view in Hm1, Hv1 by done.
  eexists. split; [reflexivity|]. split.
  - cbn. unfold applyPrepared. by rewrite decide_False.
  - change (rm_Items _) with (rm_Items (surface_apply (SurfacePrepared (sp_Prepared prep)) m1)).
    rewrite (apply_view _ _ _ Hv1 Hm1). cbn [view_step]. rewrite HP, HA. apply active_from_mono. by eapply prepared_within.
Qed.

(** C28: What an input prepares and nothing prepares or takes back after it: for a turn or for the session, all of it
    is active when the next input starts, which reads it from the records of the branch after the first input has ended; for a run, which is the
    default, nothing of the surface is. The session's providers and datasources have trimmed names, named
    operations have texts, and the texts of the operations that are resolved tell them apart. *)
Theorem preparation_survives sn terms lifetime source state records m0 replayed :
  plain_names sn -> read_surface records zero_ReadModel = (m0, None) ->
  let '(_, evts, prep) := prepareSurfaceWithEmit sn terms lifetime source state in
  texts_apart (resolved_target sn prep) ->
  exists m, read_surface (records ++ map emit_record evts) zero_ReadModel = (m, None) /\
    let next := restored_active sn (read_surface (records ++ map emit_record evts ++ emitted (expireRunSurface m)) zero_ReadModel) replayed in
    if decide (lifetime = NoLifetime \/ lifetime = LifetimeRun) then next = replayed
    else within (activeStateFromSurface sn (sp_Active prep)) next.
Proof.
  intros Hp Hr. pose proof (prepare_run sn terms lifetime source state) as H.
  assert (Hl : pe_Lifetime (sp_Prepared (prepareSurfaceWithEmit sn terms lifetime source state).2) = if decide (lifetime = NoLifetime) then LifetimeRun else lifetime).
  { unfold prepareSurfaceWithEmit. by destruct (fold_left _ _ _) as [a skipped]. }
  destruct (prepareSurfaceWithEmit sn terms lifetime source state) as [[state' evts] prep]. cbn [snd] in Hl. intros Htexts.
  destruct H as (a & before & Hlist & HA & HP & Ha & -> & Hq).
  destruct (prepared_read sn a before prep records m0) as (m & Hm & Hlife & Hw); try done; [rewrite Hl; by case_decide|].
  exists m. split; [done|]. cbv zeta. rewrite app_assoc. destruct (decide (lifetime = NoLifetime \/ lifetime = LifetimeRun)) as [Hd|Hd].
  - assert (Hrun : rm_Lifetime m = LifetimeRun) by (rewrite Hlife, Hl; by destruct Hd as [-> | ->]).
    destruct (run_surface_gone _ m Hm Hrun) as (m' & -> & Hgone). unfold restored_active. destruct (decide (rm_Lifetime m' <> NoLifetime)); [|done]. rewrite Hgone. apply merge_zero.
  - apply Decidable.not_or in Hd as [Hn Hrun]. rewrite decide_False in Hl by done. unfold expireRunSurface. rewrite decide_True by (left; congruence). cbn [emitted]. rewrite app_nil_r, Hm.
    cbn [restored_active]. rewrite decide_True by congruence. eapply within_trans; [exact Hw|]. apply merge_within, active_from_tidy.
Qed.

(** ** The tools of a turn *)

(** Tools that were added are none of the tools before them. *)
Definition adds_new (base tools : list TurnTool) : Prop :=
  exists added, tools = base ++ added /\ forall before tool after, added = before ++ tool :: after -> toolProjected (base ++ before) tool = false.
Lemma adds_new_refl tools : adds_new tools tools.
Proof. exists []. rewrite app_nil_r. split; [done|]. by intros [|] ? ? [=]. Qed.
Lemma adds_new_trans tools1 tools2 tools3 : adds_new tools1 tools2 -> adds_new tools2 tools3 -> adds_new tools1 tools3.
Proof.
  intros (added1 & -> & H1) (added2 & -> & H2). exists (added1 ++ added2). split; [by rewrite <- app_assoc|].
  intros before tool after E. destruct (app_eq_inv _ _ _ _ E) as [(k & -> & Ek)|(k & -> & Ek)].
  - destruct k as [|x k]; cbn in Ek; [|injection Ek as <- _; by apply (H1 before tool k)].
    rewrite !app_nil_r in H2. rewrite <- (app_nil_r (tools1 ++ before)). by apply (H2 [] tool after).
  - rewrite app_assoc. by apply (H2 k tool after).
Qed.
Lemma project_tool_new tools candidate : adds_new tools (project_tool tools candidate).
Proof.
  unfold project_tool. destruct (toolProjected tools candidate) eqn:E; [apply adds_new_refl|]. exists [candidate]. split; [done|].
  intros before tool after Eq. destruct before as [|? [|]]; [|done..]. injection Eq as <- _. by rewrite app_nil_r.
Qed.
Lemma project_all_new tools candidates : adds_new tools (project_all tools candidates).
Proof.
  unfold project_all. revert tools. induction candidates as [|c candidates IH]; intros tools; [apply adds_new_refl|].
  eapply adds_new_trans; [apply project_tool_new|apply IH].
Qed.
(** The tools of a turn begin with those the session was given; each tool that the surface and what is
    active add has another name and another operation than every tool before it. *)
Theorem turn_tools_new sn active names tools : turnTools sn active names = Some tools -> adds_new (default [] (sn_TurnTools sn)) tools.
Proof.
  unfold turnTools. set (out1 := if shouldProjectSurfaceTools sn active then _ else _).
  assert (H1 : adds_new (default [] (sn_TurnTools sn)) out1) by (unfold out1; destruct (shouldProjectSurfaceTools _ _); [apply project_all_new|apply adds_new_refl]).
  destruct (sn_BlocksOnly sn); case_decide; intros [= <-]; [done|]. eapply adds_new_trans; [exact H1|]. eapply adds_new_trans; apply project_all_new.
Qed.
(** Tools that are kept out of a turn keep its list the same. *)
Lemma blocks_only_stable sn active active' names names' : sn_BlocksOnly sn = true -> sn_ActivationSets sn <> [] -> turnTools sn active names = turnTools sn active' names'.
Proof.
  intros Hb Hs. unfold turnTools, shouldProjectSurfaceTools. rewrite Hb, !bool_decide_eq_false_2 by (by intros [? _]). done.
Qed.
End Use.

(** * The surface of a session on concrete inputs

    A session with an activation set, what preparing it makes active now and in the next input, the tools of
    a turn; and lifetimes and targets that are not what they seem. *)

From S2P Require Import SkillReplay.
Import SkillDemo.

Module SurfaceDemo.
(** A reference is a name and a version. *)
#[export] Instance refs : RefModule := {
  Ref := string * string;
  Ref_Name := fst;
  Ref_text ref := if decide (ref.2 = emp) then ref.1 else (ref.1 ++ "@" ++ ref.2)%string;
  Ref_IsZero ref := bool_decide (ref = (emp, emp));
  mkRef name version := (name, version);
  Ref_Matches selector ref := bool_decide (selector = ref)
}.
#[export] Instance activation_texts : ActivationTexts := { ValidSkillPath path := HasPrefix path "references/"; quoted text := text }.
#[export] Instance operations : SessionOps := { Op := string * string; Op_Ref ref := ref; HasSelectorMeta _ := false }.
#[export] Instance skill_texts : SkillTexts := { skill_error_text _ := "unavailable"%string }.

Definition no_reference : ReferenceTarget := mkReferenceTarget emp emp.
Definition op_target (name : string) : ActivationTarget := mkActivationTarget ActOperation (name, emp) emp [] emp emp no_reference emp emp emp None.
Definition set_target (name : string) : ActivationTarget := mkActivationTarget ActOperationSet (emp, emp) name [] emp emp no_reference emp emp emp None.
Definition datasource_target (name : string) : ActivationTarget := mkActivationTarget ActDatasource (emp, emp) emp [] emp emp no_reference emp name emp None.
Definition skill_target (name : string) : ActivationTarget := mkActivationTarget ActSkill (emp, emp) emp [] emp name no_reference emp emp emp None.
Definition incident : ActivationSet :=
  mkActivationSet "incident" ["inc"] [op_target "shell"; op_target "deploy"; set_target " logs "; datasource_target "jira"; skill_target "go"]%string.
Definition catalog (text : string) : option (string * string) := if decide (text ∈ ["shell"; "grep"]%string) then Some (text, emp) else None.
Definition desk : SurfaceSession := mkSurfaceSession [incident] [mkOperationSet "logs" [("grep", emp)]]%string [Some "notes"%string; None] ["jira"%string] []
  (Some catalog) [("grep", emp); ("shell", emp)]%string None [] (Some [mkTurnTool "shell" (Some ("shell", emp))])%string false.

Definition prepared := prepareSurfaceWithEmit desk ["inc, rust"; " notes context provider"]%string NoLifetime "model_prepare" (Some start).
Example prepared_active : sp_Active prepared.2 = mkSurfaceItems ["incident"] [("shell", emp)] ["logs"] ["notes"] ["jira"] [] [] []%string.
Proof. vm_compute. reflexivity. Qed.
Example prepared_diagnostics : sd_Message <$> sp_Diagnostics prepared.2 =
  ["no selected activation set or resource matched rust"; "operation is not selected"]%string.
Proof. vm_compute. reflexivity. Qed.

Definition event (items : SurfaceItems) (lifetime : Lifetime) : option (Result string SurfaceEvent) :=
  Some (Ok (SurfacePrepared (mkPreparedEvent items lifetime "user_command" []))).
Definition one_set (name : string) : SurfaceItems := mkSurfaceItems [name] [] [] [] [] [] [] [].
Definition before : list (option (Result string SurfaceEvent)) := [event (one_set " triage ") LifetimeSession; None].
Definition model (records : list (option (Result string SurfaceEvent))) : ReadModel := (read_surface records zero_ReadModel).1.
Definition records : list (option (Result string SurfaceEvent)) := before ++ map emit_record prepared.1.2.

Lemma surface_model_exact_witness :
  rm_Items (model records) = items_of (surface_view records) /\ su_ActivationSets (rm_Items (model records)) = ["incident"; "triage"]%string.
Proof. split; [apply surface_model_exact; vm_compute; reflexivity|vm_compute; reflexivity]. Defined.
Lemma run_surface_gone_witness : exists m',
  read_surface (records ++ emitted (expireRunSurface (model records))) zero_ReadModel = (m', None) /\ rm_Items m' = no_items.
Proof. apply (run_surface_gone records (model records)); vm_compute; reflexivity. Defined.
(** The same for the session: it is active at the next start. *)
Definition kept := prepareSurfaceWithEmit desk ["inc, rust"; " notes context provider"]%string LifetimeSession "model_prepare" (Some start).
Lemma preparation_survives_witness : exists m,
  read_surface (before ++ map emit_record kept.1.2) zero_ReadModel = (m, None) /\
  within (activeStateFromSurface desk (sp_Active kept.2))
    (restored_active desk (read_surface (before ++ map emit_record kept.1.2 ++ emitted (expireRunSurface m)) zero_ReadModel) zero_ActiveState).
Proof.
  pose proof (preparation_survives desk ["inc, rust"; " notes context provider"]%string LifetimeSession "model_prepare" (Some start) before (model before) zero_ActiveState) as H.
  fold kept in H. destruct kept as [[state evts] prep] eqn:E. cbn [fst snd]. apply H; clear H.
  - split.
    + intros [name version]. cbn. intros Hb. case_decide; [|by destruct name]. cbn. intros ->. by vm_compute in Hb.
    + by repeat constructor.
    + by repeat constructor.
  - vm_compute. reflexivity.
  - unfold resolved_target.
    assert (Ht : resolvedTargetList (sp_Resolved prep) (sn_ActivationSets desk) = resolvedTargetList (sp_Resolved kept.2) (sn_ActivationSets desk)) by (by rewrite E).
    rewrite Ht. clear E Ht. intros t1 t2 H1%(list_elem_of_fmap_2 tg_Operation) H2%(list_elem_of_fmap_2 tg_Operation) Hx.
    assert (Hall : forall r1 r2, r1 ∈ tg_Operation <$> resolvedTargetList (sp_Resolved kept.2) (sn_ActivationSets desk) ->
      r2 ∈ tg_Operation <$> resolvedTargetList (sp_Resolved kept.2) (sn_ActivationSets desk) -> Ref_text r1 = Ref_text r2 -> r1 = r2); [|by apply Hall].
    vm_compute. intros r1 r2 Hr1 Hr2. repeat (apply elem_of_cons in Hr1 as [->|Hr1]); repeat (apply elem_of_cons in Hr2 as [->|Hr2]); try done;
      by apply elem_of_nil in Hr1 || by apply elem_of_nil in Hr2.
Defined.

Definition active : ActiveState := activeStateFromSurface desk (sp_Active prepared.2).
Lemma turn_tools_new_witness : exists tools,
  turnTools desk active ["logs"%string] = Some tools /\ adds_new (default [] (sn_TurnTools desk)) tools /\
  tn_Name <$> tools = ["shell"; "session_focus"; "surface_info"; "surface_prepare"; "surface_call"; "grep"]%string.
Proof.
  eexists. assert (H : turnTools desk active ["logs"%string] = Some (default [] (turnTools desk active ["logs"%string]))) by (vm_compute; reflexivity).
  split; [exact H|]. split; [exact (turn_tools_new desk active ["logs"%string] _ H)|]. vm_compute. reflexivity.
Defined.

(** ** Lifetimes

    The surface has one lifetime, that of the last preparation. *)

(** A preparation for one run takes what was prepared for the session with it. *)
Lemma session_surface_lost :
  let records := [event (one_set "triage") LifetimeSession; event (one_set "incident") LifetimeRun] in
  su_ActivationSets (rm_Items (model records)) = ["incident"; "triage"]%string /\ rm_Items (model (records ++ emitted (expireRunSurface (model records)))) = no_items.
Proof. vm_compute. done. Qed.
(** One for the session keeps what was prepared for a run. *)
Lemma run_surface_stays :
  expireRunSurface (model [event (one_set "incident") LifetimeRun; event (one_set "triage") LifetimeSession]) = None.
Proof. vm_compute. reflexivity. Qed.
(** What is prepared for a turn is never taken back. *)
Lemma turn_surface_stays : expireRunSurface (model [event (one_set "incident") LifetimeTurn]) = None.
Proof. vm_compute. reflexivity. Qed.

(** ** Targets

    A target that was refused as not selected becomes active with its set. *)
Lemma refused_becomes_active :
  ("deploy", emp)%string ∉ su_Operations (sp_Active prepared.2) /\ ("deploy", emp)%string ∈ at_Operations active /\
  surface_call desk (Some active) "deploy" = CallUnresolved ("deploy", emp)%string.
Proof. split; [|split]; [by apply (bool_decide_unpack _); vm_compute..|vm_compute; reflexivity]. Qed.
(** A set with spaces around its name may be called from but adds no tools. *)
Definition padded : SurfaceSession := mkSurfaceSession [] [mkOperationSet " logs " [("grep", emp)]]%string [] [] [] (Some catalog) [] None [] (Some []) false.
Lemma padded_set_hidden :
  let active := activeStateFromSurface padded (sp_Active (prepareSurfaceWithEmit padded ["logs"%string] LifetimeRun "model_prepare" None).2) in
  surface_call padded (Some active) "grep" = CallRuns ("grep", emp)%string ("grep", emp)%string /\
  tn_Name <$> default [] (turnTools padded active (elements (at_OperationSets active))) = reserved_names.
Proof. vm_compute. done. Qed.
End SurfaceDemo.
