(* ===== verification/Command.v ===== *)
(** * Commands (src/core/command)

    A line that starts with a slash is split into words like in a shell, and the words are a path, flags and
    arguments: which invocations a line can stand for, and a line for each of them. A command's typed input is a
    struct whose fields carry tags: the arguments and the flags of an invocation are parsed into them.

    Lines are valid UTF-8: all characters the code looks at are ASCII, so bytes are as good as runes. *)

From stdpp Require Import pretty.
From S2P Require Import Prelude Operation Event Thread ThreadStore Conversation SessionData Resource Resolution.

(** * Typed inputs (bind.go) *)

(** ** Types of fields and their values

    The kinds [setFieldValue] and [setScalarValue] distinguish; [FieldText] is a type, neither a pointer nor a slice,
    whose pointer implements [encoding.TextUnmarshaler]. *)

Inductive FieldKind :=
| FieldString
| FieldBool
| FieldInt (bits : Z)
| FieldText (unmarshal : string -> Result string Value)
| FieldPointer (elem : FieldKind)
| FieldSlice (elem : FieldKind)
| FieldOther.
Inductive FieldValue :=
| BoundString (s : string)
| BoundBool (b : bool)
| BoundInt (z : Z)
| BoundText (v : Value)
| BoundPointer (v : FieldValue)
| BoundSlice (l : list FieldValue).
(** A field of a struct: [fd_Exported] is an empty [PkgPath], [fd_Tag] what [Tag.Get("command")] answers. *)
Record Field := mkField { fd_Exported : bool; fd_Tag : string; fd_Kind : FieldKind }.
(** A struct, a pointer to one, or another type. *)
Inductive BoundType := StructType (fields : list Field) | StructPointer (fields : list Field) | OtherPointer | OtherType.

Inductive BindError :=
| MalformedTag (tag : string)
| UnsupportedSource (source : string)
| BadBool (value : string)
| BadInt (value : string)
| BadText (message : string)
| UnsupportedField
| BindField (source name : string) (e : BindError)
| NotStruct | PointerNotStruct.

(** ** Tags *)

Record Binding := mkBinding {
  bg_source : string; bg_name : string; bg_defaultValue : string; bg_hasDefault : bool }.
#[global] Instance rebuild_Binding : Rebuild Binding := fun b => mkBinding b.(bg_source) b.(bg_name) b.(bg_defaultValue) b.(bg_hasDefault).
Definition comma : ascii := ascii_of_nat 44.
Definition equals : ascii := ascii_of_nat 61.
(** One turn of the loop over the parts. *)
Definition tag_part (tag : string) (i : nat) (part : string) (binding : Binding) : Result BindError Binding :=
  let part := TrimSpace part in
  if decide (part = emp) then Err (MalformedTag tag) else
  let '(key, value, found) := Cut part equals in
  let key := TrimSpace key in
  let value := TrimSpace value in
  if negb found then
    if decide (i = 0 /\ part = "arg"%string) then Ok (binding <| bg_source := "arg"%string |>) else Err (MalformedTag tag)
  else if decide (key = emp \/ value = emp) then Err (MalformedTag tag)
  else if decide (key = "default"%string) then Ok (binding <| bg_defaultValue := value |> <| bg_hasDefault := true |>)
  else if decide (i <> 0 \/ bg_source binding <> emp) then Err (MalformedTag tag)
  else Ok (binding <| bg_source := key |> <| bg_name := value |>).
Fixpoint tag_parts (tag : string) (i : nat) (parts : list string) (binding : Binding) : Result BindError Binding :=
  match parts with
  | [] => Ok binding
  | part :: rest => let? binding := tag_part tag i part binding in tag_parts tag (S i) rest binding
  end.
(** [None] is a field that is not bound. *)
Definition parseCommandBindingTag (tag : string) : Result BindError (option Binding) :=
  let tag := TrimSpace tag in
  if decide (tag = emp \/ tag = "-"%string) then Ok None else
  let? binding := tag_parts tag 0 (Split tag comma) (mkBinding emp emp emp false) in
  if decide (bg_source binding = emp /\ bg_hasDefault binding = false) then Err (MalformedTag tag) else Ok (Some binding).

Definition flag_name (field : Field) : list string :=
  if negb (fd_Exported field) then [] else
  match parseCommandBindingTag (fd_Tag field) with
  | Ok (Some binding) => if decide (bg_source binding = "flag"%string /\ bg_name binding <> emp) then [bg_name binding] else []
  | _ => []
  end.
Definition FlagNamesFor (t : BoundType) : list string :=
  match t with StructType fields | StructPointer fields => fields ≫= flag_name | _ => [] end.

(** ** Scalars: [strconv.ParseBool] and [strconv.ParseInt] in base 10 *)

Definition ParseBool (s : string) : option bool :=
  if decide (s ∈ ["1"; "t"; "T"; "TRUE"; "true"; "True"]%string) then Some true
  else if decide (s ∈ ["0"; "f"; "F"; "FALSE"; "false"; "False"]%string) then Some false
  else None.
Definition digit_value (c : ascii) : option Z :=
  let n := nat_of_ascii c in if (48 <=? n) && (n <=? 57) then Some (Z.of_nat n - 48)%Z else None.
Fixpoint digits_value (acc : Z) (s : string) : option Z :=
  match s with
  | String.EmptyString => Some acc
  | String.String c rest => match digit_value c with Some d => digits_value (acc * 10 + d) rest | None => None end
  end.
Definition ParseUint (s : string) : option Z := if decide (s = emp) then None else digits_value 0 s.
Definition int_fits (bits z : Z) : bool := (- 2 ^ (bits - 1) <=? z)%Z && (z <? 2 ^ (bits - 1))%Z.
Definition ParseInt (s : string) (bits : Z) : option Z :=
  let checked (z : option Z) := match z with Some z => if int_fits bits z then Some z else None | None => None end in
  match s with
  | String.String c rest =>
      if Ascii.eqb c (ascii_of_nat 45) then checked (Z.opp <$> ParseUint rest)
      else if Ascii.eqb c (ascii_of_nat 43) then checked (ParseUint rest)
      else checked (ParseUint s)
  | String.EmptyString => None
  end.

Definition setScalarValue (kind : FieldKind) (value : string) : Result BindError FieldValue :=
  match kind with
  | FieldText unmarshal => match unmarshal value with Ok v => Ok (BoundText v) | Err message => Err (BadText message) end
  | FieldString => Ok (BoundString value)
  | FieldBool => match ParseBool value with Some b => Ok (BoundBool b) | None => Err (BadBool value) end
  | FieldInt bits => match ParseInt value bits with Some z => Ok (BoundInt z) | None => Err (BadInt value) end
  | FieldPointer _ | FieldSlice _ | FieldOther => Err UnsupportedField
  end.
Fixpoint set_elements (elem : FieldKind) (values : list string) : Result BindError (list FieldValue) :=
  match values with
  | [] => Ok []
  | raw :: rest => let? v := setScalarValue elem raw in let? l := set_elements elem rest in Ok (v :: l)
  end.
Fixpoint setFieldValue (kind : FieldKind) (values : list string) : Result BindError FieldValue :=
  match kind with
  | FieldPointer elem => let? v := setFieldValue elem values in Ok (BoundPointer v)
  | FieldSlice elem => let? l := set_elements elem values in Ok (BoundSlice l)
  | _ => setScalarValue kind (Join values " ")
  end.

(** ** Structs *)

(** [fmt.Sprint] of a value that is neither a string nor a bool. *)
Class SprintModule := { SprintAny : Value -> string }.

Section BindInput.
Context {SP : SprintModule}.

Definition flagInput (input : Value) (name : string) : option string :=
  match input with
  | VMap values =>
      match values !! name with
      | Some (VString s) => Some s
      | Some (VBool b) => Some (if b then "true" else "false")%string
      | Some v => Some (SprintAny v)
      | None => None
      end
  | _ => None
  end.
(** The words a binding takes from an invocation. *)
Definition source_values (binding : Binding) (inv : CommandInvocation) : Result BindError (list string) :=
  if decide (bg_source binding = emp) then Ok []
  else if decide (bg_source binding = "arg"%string) then Ok (ci_Args inv)
  else if decide (bg_source binding = "flag"%string) then Ok (option_list (flagInput (ci_Input inv) (bg_name binding)))
  else Err (UnsupportedSource (bg_source binding)).
Definition field_values (binding : Binding) (inv : CommandInvocation) : Result BindError (list string) :=
  let? values := source_values binding inv in
  Ok match values with [] => if bg_hasDefault binding then [bg_defaultValue binding] else [] | _ => values end.
(** [None]: the field keeps its zero value. *)
Definition bind_field (inv : CommandInvocation) (field : Field) : Result BindError (option FieldValue) :=
  if negb (fd_Exported field) then Ok None else
  let? binding := parseCommandBindingTag (fd_Tag field) in
  match binding with
  | None => Ok None
  | Some binding =>
      let? values := field_values binding inv in
      match values with
      | [] => Ok None
      | _ => match setFieldValue (fd_Kind field) values with
             | Ok v => Ok (Some v)
             | Err e => Err (BindField (bg_source binding) (bg_name binding) e)
             end
      end
  end.
Fixpoint bindStruct (fields : list Field) (inv : CommandInvocation) : Result BindError (list (option FieldValue)) :=
  match fields with
  | [] => Ok []
  | field :: rest => let? v := bind_field inv field in let? l := bindStruct rest inv in Ok (v :: l)
  end.
Definition BindInput (t : BoundType) (inv : CommandInvocation) : Result BindError (list (option FieldValue)) :=
  match t with
  | StructType fields | StructPointer fields => bindStruct fields inv
  | OtherPointer => Err PointerNotStruct
  | OtherType => Err NotStruct
  end.
End BindInput.

(** ** What is bound has the type of its field *)

Fixpoint has_kind (kind : FieldKind) (v : FieldValue) : Prop :=
  match kind, v with
  | FieldString, BoundString _ | FieldBool, BoundBool _ => True
  | FieldInt bits, BoundInt z => (- 2 ^ (bits - 1) <= z < 2 ^ (bits - 1))%Z
  | FieldText unmarshal, BoundText v => exists text, unmarshal text = Ok v
  | FieldPointer elem, BoundPointer v => has_kind elem v
  | FieldSlice elem, BoundSlice l => Forall (has_kind elem) l
  | _, _ => False
  end.
Definition fields_of (t : BoundType) : list Field := match t with StructType fields | StructPointer fields => fields | _ => [] end.
Definition field_has (field : Field) (v : option FieldValue) : Prop := match v with Some v => has_kind (fd_Kind field) v | None => True end.

Lemma int_fits_spec bits z : int_fits bits z = true <-> (- 2 ^ (bits - 1) <= z < 2 ^ (bits - 1))%Z.
Proof. unfold int_fits. rewrite andb_true_iff, Z.leb_le, Z.ltb_lt. done. Qed.
Lemma ParseInt_fits s bits z : ParseInt s bits = Some z -> (- 2 ^ (bits - 1) <= z < 2 ^ (bits - 1))%Z.
Proof.
  rewrite <- int_fits_spec. unfold ParseInt. destruct s as [|c rest]; [done|].
  assert (H : forall u, (match u with Some z => if int_fits bits z then Some z else None | None => None end) = Some z -> int_fits bits z = true).
  { intros [u|]; [|done]. destruct (int_fits bits u) eqn:E; naive_solver. }
  destruct (Ascii.eqb c _); [apply H|]. destruct (Ascii.eqb c _); apply H.
Qed.
Lemma scalar_kind kind value v : setScalarValue kind value = Ok v -> has_kind kind v.
Proof.
  destruct kind; cbn; try done; repeat case_match; intros [= <-]; try done; cbn; [by eapply ParseInt_fits|by eexists].
Qed.
Lemma elements_kind elem values l : set_elements elem values = Ok l -> Forall (has_kind elem) l.
Proof.
  revert l. induction values as [|raw rest IH]; intros l; cbn; [by intros [= <-]|].
  intros (v & Hv & (l' & Hl & [= <-])%res_bind_ok)%res_bind_ok. constructor; [by eapply scalar_kind|by apply IH].
Qed.
Lemma field_value_kind kind values v : setFieldValue kind values = Ok v -> has_kind kind v.
Proof.
  revert v. induction kind as [| | | |elem IH|elem _|]; intros v; try apply scalar_kind; cbn [setFieldValue].
  - intros (w & Hw & [= <-])%res_bind_ok. by apply IH.
  - intros (l & Hl & [= <-])%res_bind_ok. by eapply elements_kind.
Qed.

(** ** A decimal is read back *)

Lemma digit_char n : (n < 10)%N -> digit_value (pretty_N_char n) = Some (Z.of_N n).
Proof.
  intros H. assert (n ∈ [0; 1; 2; 3; 4; 5; 6; 7; 8; 9]%N) as Hin.
  { destruct (decide (n ∈ [0; 1; 2; 3; 4; 5; 6; 7; 8; 9]%N)) as [|Hn]; [done|]. exfalso. rewrite !not_elem_of_cons in Hn. lia. }
  rewrite !elem_of_cons in Hin. by repeat destruct Hin as [->|Hin]; [..|apply not_elem_of_nil in Hin].
Qed.
Lemma digits_pretty (x : N) s : digits_value 0 (pretty_N_go x s) = digits_value (Z.of_N x) s.
Proof.
  revert s. induction (N.lt_wf_0 x) as [x _ IH]; intros s. destruct (decide (x = 0%N)) as [->|Hx].
  { by rewrite pretty_N_go_0. }
  rewrite pretty_N_go_step by lia. rewrite IH by (apply N.div_lt; lia). cbn [digits_value].
  rewrite digit_char by (apply N.mod_lt; lia). f_equal. pose proof (N.div_mod x 10 ltac:(done)). lia.
Qed.
Lemma digits_nonempty (n : N) : pretty n <> emp.
Proof.
  unfold pretty, pretty_N. case_decide as H; [done|]. revert H. cut (forall s, n <> 0%N -> pretty_N_go n s <> emp); [auto|].
  induction (N.lt_wf_0 n) as [n _ IH]; intros s H.
  rewrite pretty_N_go_step by lia. destruct (decide (n `div` 10 = 0)%N) as [->|E]; [by rewrite pretty_N_go_0|]. apply IH; [apply N.div_lt; lia|done].
Qed.
Lemma ParseUint_pretty (n : N) : ParseUint (pretty n) = Some (Z.of_N n).
Proof.
  unfold ParseUint. rewrite decide_False by apply digits_nonempty. unfold pretty, pretty_N. case_decide as H; [by subst|]. by rewrite digits_pretty.
Qed.
(** A decimal starts with a digit. *)
Lemma pretty_head (n : N) : exists c rest, pretty n = String c rest /\ digit_value c <> None.
Proof.
  pose proof (ParseUint_pretty n) as H. unfold ParseUint in H. case_decide; [done|].
  destruct (pretty n) as [|c rest]; [done|]. exists c, rest. split; [done|]. intros E. cbn in H. by rewrite E in H.
Qed.
Lemma ParseInt_pretty (z bits : Z) : ParseInt (pretty z) bits = if int_fits bits z then Some z else None.
Proof.
  unfold ParseInt. destruct z as [|p|p].
  - done.
  - change (pretty (Z.pos p)) with (pretty (N.pos p)). destruct (pretty_head (N.pos p)) as (c & rest & E & Hc).
    pose proof (ParseUint_pretty (N.pos p)) as H. rewrite E in H |- *.
    destruct (Ascii.eqb_spec c (ascii_of_nat 45)) as [->|_]; [done|]. destruct (Ascii.eqb_spec c (ascii_of_nat 43)) as [->|_]; [done|].
    by rewrite H.
  - change (pretty (Z.neg p)) with (String (ascii_of_nat 45) (pretty (N.pos p))). cbn [Ascii.eqb]. by rewrite ParseUint_pretty.
Qed.
Lemma scalar_int (z bits : Z) : setScalarValue (FieldInt bits) (pretty z) = if int_fits bits z then Ok (BoundInt z) else Err (BadInt (pretty z)).
Proof. cbn. rewrite ParseInt_pretty. by destruct (int_fits bits z). Qed.

Section BindTheorems.
Context {SP : SprintModule}.

Lemma bind_field_kind inv field v : bind_field inv field = Ok v -> field_has field v.
Proof.
  unfold bind_field. destruct (negb _); [by intros [= <-]|]. intros ([binding|] & _ & H)%res_bind_ok; [|by injection H as <-].
  apply res_bind_ok in H as (values & _ & H). destruct values; [by injection H as <-|].
  destruct (setFieldValue _ _) eqn:E; [|done]. injection H as <-. by eapply field_value_kind.
Qed.

(** Whatever was bound has the type of its field: an integer is within its width, a text was accepted, elements and
    targets have the types of the slice or pointer. *)
Lemma bind_typed t inv values : BindInput t inv = Ok values -> Forall2 field_has (fields_of t) values.
Proof.
  destruct t as [fields|fields| |]; cbn [BindInput fields_of]; try done; revert values.
  all: induction fields as [|f fields IH]; intros values; cbn; [by intros [= <-]|].
  all: intros (v & Hv & (l & Hl & [= <-])%res_bind_ok)%res_bind_ok; constructor; [by eapply bind_field_kind|by apply IH].
Qed.
End BindTheorems.

(** ** What binding promises

    A relation between a struct, an invocation and the values of the fields, which says where the words of a
    field come from and what they are read as, apart from how the code goes about it. *)


Definition assigns (part key value : string) : Prop :=
  exists k v, Cut (TrimSpace part) equals = (k, v, true) /\ TrimSpace k = key /\ TrimSpace v = value /\ key <> emp /\ value <> emp.

Section Bound.
Context {SP : SprintModule}.
Variable inv : CommandInvocation.

End Bound.

(** ** Decimals are what is parsed *)


(** ** Values *)


(** ** Tags *)


Lemma assigns_not_found part key value k v : Cut (TrimSpace part) equals = (k, v, false) -> ~ assigns part key value.
Proof. intros E (k' & v' & E' & _). rewrite E in E'. done. Qed.



(** ** Structs *)

Section BindExact.
Context {SP : SprintModule}.


End BindExact.

(** * Command lines (parse.go, command.go) *)

Inductive LineError :=
| UnterminatedQuote
| PathEmpty
| SegmentEmpty
| SegmentSlash (segment : string)
| FlagNameEmpty
| FlagValueEmpty (name : string)
| FlagSyntax (token : string).

(** ** Words *)

Definition single_quote : ascii := ascii_of_nat 39.
Definition double_quote : ascii := ascii_of_nat 34.
Definition backslash : ascii := ascii_of_nat 92.
Definition is_blank (c : ascii) : bool := byte_is c 32 || byte_is c 9 || byte_is c 10 || byte_is c 13.

(** The variables of [tokenize]; no quote is the zero rune. *)
Record Tokenizer := mkTokenizer { tk_tokens : list string; tk_cur : string; tk_quote : option ascii; tk_escaped : bool }.
#[global] Instance rebuild_Tokenizer : Rebuild Tokenizer := fun t => mkTokenizer t.(tk_tokens) t.(tk_cur) t.(tk_quote) t.(tk_escaped).
Definition flush_word (t : Tokenizer) : Tokenizer :=
  if decide (tk_cur t = emp) then t else t <| tk_tokens := tk_tokens t ++ [tk_cur t] |> <| tk_cur := emp |>.
Definition write_rune (c : ascii) (t : Tokenizer) : Tokenizer := t <| tk_cur := (tk_cur t ++ String c emp)%string |>.
Definition tokenize_rune (t : Tokenizer) (c : ascii) : Tokenizer :=
  if tk_escaped t then write_rune c t <| tk_escaped := false |>
  else if Ascii.eqb c backslash && negb (bool_decide (tk_quote t = Some single_quote)) then t <| tk_escaped := true |>
  else match tk_quote t with
       | Some q => if Ascii.eqb c q then t <| tk_quote := None |> else write_rune c t
       | None =>
           if Ascii.eqb c single_quote || Ascii.eqb c double_quote then t <| tk_quote := Some c |>
           else if is_blank c then flush_word t
           else write_rune c t
       end.
Definition tokenize (input : string) : Result LineError (list string) :=
  let t := fold_left tokenize_rune (String.list_ascii_of_string input) (mkTokenizer [] emp None false) in
  let t := if tk_escaped t then write_rune backslash t else t in
  match tk_quote t with
  | Some _ => Err UnterminatedQuote
  | None => Ok (tk_tokens (flush_word t))
  end.

(** ** Invocations *)

Definition has_byte (c : ascii) (s : string) : bool := existsb (Ascii.eqb c) (String.list_ascii_of_string s).
Definition validateSlashPathSegment (segment : string) : option LineError :=
  if decide (segment = emp) then Some SegmentEmpty
  else if has_byte slash segment then Some (SegmentSlash segment)
  else None.
Definition isSlashPathSegment (token : string) : bool :=
  if decide (token = emp) then false
  else negb (existsb (fun c => is_blank c || Ascii.eqb c slash) (String.list_ascii_of_string token)).

(** The variables of the loop over the words. *)
Record Parsing := mkParsing { ps_path : list string; ps_args : list string; ps_inputMap : gmap string Value; ps_seenFlag : bool }.
#[global] Instance rebuild_Parsing : Rebuild Parsing := fun p => mkParsing p.(ps_path) p.(ps_args) p.(ps_inputMap) p.(ps_seenFlag).
Definition set_flag (name : string) (v : Value) (p : Parsing) : Parsing :=
  p <| ps_inputMap := <[name := v]> (ps_inputMap p) |> <| ps_seenFlag := true |>.
Fixpoint parse_tokens (tokens : list string) (p : Parsing) : Result LineError Parsing :=
  match tokens with
  | [] => Ok p
  | token :: rest =>
      if HasPrefix token "--" then
        let nameValue := TrimPrefix token "--" in
        if decide (nameValue = emp) then Err FlagNameEmpty else
        let '(name, value, hasValue) := Cut nameValue equals in
        if decide (name = emp) then Err FlagNameEmpty
        else if hasValue then
          if decide (value = emp) then Err (FlagValueEmpty name) else parse_tokens rest (set_flag name (VString value) p)
        else match rest with
             | next :: rest' =>
                 if HasPrefix next "-" then parse_tokens rest (set_flag name (VBool true) p)
                 else parse_tokens rest' (set_flag name (VString next) p)
             | [] => parse_tokens rest (set_flag name (VBool true) p)
             end
      else if HasPrefix token "-" then Err (FlagSyntax token)
      else if ps_seenFlag p || negb (isSlashPathSegment token)
      then parse_tokens rest (p <| ps_args := ps_args p ++ [token] |> <| ps_seenFlag := true |>)
      else match validateSlashPathSegment token with
           | Some e => Err e
           | None => parse_tokens rest (p <| ps_path := ps_path p ++ [token] |>)
           end
  end.
Definition command_input (m : gmap string Value) : Value := if decide (m = ∅) then VNil else VMap m.
Definition invocation_of (p : Parsing) : CommandInvocation := mkInvocation (ps_path p) (ps_args p) (command_input (ps_inputMap p)).
(** [Ok None] is input that is no command. *)
Definition ParseSlash (input : string) : Result LineError (option CommandInvocation) :=
  let input := TrimSpace input in
  if decide (input = emp) then Ok None
  else if negb (HasPrefix input "/") then Ok None else
  let? tokens := tokenize input in
  match tokens with
  | [] => Ok None
  | first :: rest =>
      if decide (first = "/"%string) then Err PathEmpty
      else if HasPrefix first "//" then Err SegmentEmpty
      else
        let root := TrimPrefix first "/" in
        match validateSlashPathSegment root with
        | Some e => Err e
        | None => let? p := parse_tokens rest (mkParsing [root] [] ∅ false) in Ok (Some (invocation_of p))
        end
  end.

(** ** A line for an invocation

    Every word is written in double quotes. The flags come twice: with a value before the arguments, which
    keeps these from being read as a path; and those that are only set once more at the end. *)

Fixpoint escape (s : string) : string :=
  match s with
  | String.EmptyString => emp
  | String.String c rest =>
      if Ascii.eqb c double_quote || Ascii.eqb c backslash then String backslash (String c (escape rest)) else String c (escape rest)
  end.
Definition quote_word (word : string) : string := String double_quote (escape word ++ String double_quote emp).
Definition flag_text (v : Value) : string := match v with VString s => s | _ => "true" end.
Definition flag_word (flag : string * Value) : string := ("--" ++ flag.1 ++ String equals (flag_text flag.2))%string.
Definition set_words (flag : string * Value) : list string := match flag.2 with VBool _ => ["--" ++ flag.1]%string | _ => [] end.
Definition flags_of (input : Value) : gmap string Value := match input with VMap m => m | _ => ∅ end.
Definition later_words (inv : CommandInvocation) : list string :=
  let flags := map_to_list (flags_of (ci_Input inv)) in
  tail (ci_Path inv) ++ map flag_word flags ++ ci_Args inv ++ flags ≫= set_words.
Definition print_slash (inv : CommandInvocation) : string :=
  String slash (Join (map quote_word (default emp (head (ci_Path inv)) :: later_words inv)) " ").

(** ** The invocations lines stand for *)

Definition bare (word : string) : Prop := word <> emp /\ HasPrefix word "-" = false.
Definition good_flag (name : string) (v : Value) : Prop :=
  name <> emp /\ free_of equals name /\ (v = VBool true \/ exists s, v = VString s /\ s <> emp).
Record expressible (inv : CommandInvocation) : Prop := {
  ex_root : exists root segments, ci_Path inv = root :: segments /\ root <> emp /\ has_byte slash root = false
    /\ Forall (fun s => isSlashPathSegment s = true /\ HasPrefix s "-" = false) segments;
  ex_args : Forall bare (ci_Args inv);
  ex_flags : map_Forall good_flag (flags_of (ci_Input inv));
  ex_input : ci_Input inv = command_input (flags_of (ci_Input inv));
  ex_first : flags_of (ci_Input inv) = ∅ -> forall first, head (ci_Args inv) = Some first -> isSlashPathSegment first = false
}.

(** ** Strings *)

Lemma append_nil_l (s : string) : (emp ++ s)%string = s.
Proof. done. Qed.
Lemma substring_all (s : string) : String.substring 0 (String.length s) s = s.
Proof. induction s as [|c s IH]; [done|]. cbn. by rewrite IH. Qed.
Lemma HasPrefix_app (p s : string) : HasPrefix (p ++ s) p = true.
Proof.
  unfold HasPrefix. induction p as [|c p IH]; [by destruct s|]. change (String.prefix (String c p) (String c (p ++ s)) = true). cbn.
  by destruct (ascii_dec c c).
Qed.
Lemma TrimPrefix_app (p s : string) : TrimPrefix (p ++ s) p = s.
Proof.
  unfold TrimPrefix. pose proof (HasPrefix_app p s) as H. unfold HasPrefix in H. rewrite H. clear H. induction p as [|c p IH].
  - change (String.substring 0 (String.length s - 0) s = s). by rewrite Nat.sub_0_r, substring_all.
  - exact IH.
Qed.
Lemma dash_dashes s : HasPrefix s "-" = false -> HasPrefix s "--" = false.
Proof.
  unfold HasPrefix. destruct s as [|c s]; [done|].
  cbn [String.prefix]. destruct (ascii_dec "-" c); [by destruct s|done].
Qed.
Lemma Cut_app name value : free_of equals name -> Cut (name ++ String equals value) equals = (name, value, true).
Proof.
  unfold free_of. induction name as [|c name IH]; [done|]. change (String c name ++ String equals value)%string with (String c (name ++ String equals value)).
  cbn [Cut Split]. destruct (Ascii.eqb c equals); [by destruct name|]. intros H. rewrite IH; [done|].
  destruct (Split name equals) as [|q qs] eqn:E; [by destruct name as [|y n]; [|cbn in E; destruct (Ascii.eqb y equals), (Split n equals)]|]. by injection H as -> ->.
Qed.
Lemma Cut_none name : free_of equals name -> Cut name equals = (name, emp, false).
Proof.
  unfold free_of. induction name as [|c name IH]; [done|]. cbn [Cut Split]. destruct (Ascii.eqb c equals); [by destruct name|]. intros H.
  rewrite IH; [done|]. destruct (Split name equals) as [|q qs] eqn:E; [by destruct name as [|y n]; [|cbn in E; destruct (Ascii.eqb y equals), (Split n equals)]|]. by injection H as -> ->.
Qed.
Lemma Cut_free s name value found : Cut s equals = (name, value, found) -> free_of equals name.
Proof.
  unfold free_of. revert name value found. induction s as [|c s IH]; intros name value found; cbn [Cut]; [by intros [= <- <- <-]|].
  destruct (Ascii.eqb c equals) eqn:Ec; [by intros [= <- <- <-]|]. destruct (Cut s equals) as [[b a] f] eqn:E. intros [= <- <- <-].
  cbn [Split]. by rewrite Ec, (IH _ _ _ eq_refl).
Qed.

(** ** Quoted words are read as they are *)

Lemma tokenize_escaped word tokens cur :
  fold_left tokenize_rune (String.list_ascii_of_string (escape word)) (mkTokenizer tokens cur (Some double_quote) false)
  = mkTokenizer tokens (cur ++ word) (Some double_quote) false.
Proof.
  revert cur. induction word as [|c word IH]; intros cur; [by rewrite append_nil_r|]. cbn [escape].
  destruct (Ascii.eqb c double_quote || Ascii.eqb c backslash) eqn:E.
  - cbn [String.list_ascii_of_string fold_left]. change (tokenize_rune (mkTokenizer tokens cur (Some double_quote) false) backslash) with (mkTokenizer tokens cur (Some double_quote) true).
    change (tokenize_rune (mkTokenizer tokens cur (Some double_quote) true) c) with (mkTokenizer tokens (cur ++ String c emp) (Some double_quote) false).
    by rewrite IH, append_assoc.
  - apply orb_false_iff in E as [E1 E2]. cbn [String.list_ascii_of_string fold_left].
    assert (tokenize_rune (mkTokenizer tokens cur (Some double_quote) false) c = mkTokenizer tokens (cur ++ String c emp) (Some double_quote) false) as ->.
    { unfold tokenize_rune. cbn [tk_escaped tk_quote]. by rewrite E1, E2. }
    by rewrite IH, append_assoc.
Qed.
Lemma tokenize_quoted word tokens cur :
  fold_left tokenize_rune (String.list_ascii_of_string (quote_word word)) (mkTokenizer tokens cur None false) = mkTokenizer tokens (cur ++ word) None false.
Proof.
  unfold quote_word. cbn [String.list_ascii_of_string]. rewrite ascii_app. cbn [fold_left]. rewrite fold_left_app.
  change (tokenize_rune (mkTokenizer tokens cur None false) double_quote) with (mkTokenizer tokens cur (Some double_quote) false).
  by rewrite tokenize_escaped.
Qed.
Lemma tokenize_words first words tokens cur : (cur ++ first)%string <> emp -> Forall (fun w => w <> emp) words ->
  exists t, fold_left tokenize_rune (String.list_ascii_of_string (Join (map quote_word (first :: words)) " ")) (mkTokenizer tokens cur None false) = t
    /\ tk_escaped t = false /\ tk_quote t = None /\ tk_tokens (flush_word t) = tokens ++ (cur ++ first)%string :: words.
Proof.
  intros Hne H. revert first tokens cur Hne. induction H as [|w words Hw H IH]; intros first tokens cur Hne.
  - eexists. split; [done|]. cbn [map Join]. rewrite tokenize_quoted. split_and!; [done|done|]. unfold flush_word. cbn [tk_cur]. by rewrite decide_False.
  - change (Join (map quote_word (first :: w :: words)) " ") with (quote_word first ++ String " " (Join (map quote_word (w :: words)) " "))%string.
    rewrite ascii_app, fold_left_app, tokenize_quoted. cbn [String.list_ascii_of_string fold_left].
    assert (tokenize_rune (mkTokenizer tokens (cur ++ first) None false) " " = mkTokenizer (tokens ++ [(cur ++ first)%string]) emp None false) as ->.
    { unfold tokenize_rune, flush_word. cbn -[String.append]. by rewrite decide_False. }
    destruct (IH w (tokens ++ [(cur ++ first)%string]) emp) as (t & Et & ? & ? & Ht); [by rewrite append_nil_l|].
    exists t. split_and!; [exact Et|done|done|]. rewrite Ht. by rewrite <- app_assoc, append_nil_l.
Qed.

(** ** What the loop makes of printed words *)

Lemma parse_segments segments words path m :
  Forall (fun s => isSlashPathSegment s = true /\ HasPrefix s "-" = false) segments ->
  parse_tokens (segments ++ words) (mkParsing path [] m false) = parse_tokens words (mkParsing (path ++ segments) [] m false).
Proof.
  intros H. revert path. induction H as [|s segments [Hs Hd] H IH]; intros path; [by rewrite app_nil_r|].
  cbn [app parse_tokens]. rewrite dash_dashes, Hd, Hs by done. cbn [ps_seenFlag orb negb].
  assert (validateSlashPathSegment s = None) as ->.
  { unfold isSlashPathSegment, validateSlashPathSegment, has_byte in *. case_decide; [done|]. apply negb_true_iff in Hs.
    destruct (existsb (Ascii.eqb slash) _) eqn:E; [|done]. apply existsb_exists in E as (c & Hc & Es).
    exfalso. apply not_true_iff_false in Hs. apply Hs, existsb_exists. exists c. split; [done|]. by rewrite Ascii.eqb_sym, Es, orb_true_r. }
  transitivity (parse_tokens (segments ++ words) (mkParsing (path ++ [s]) [] m false)); [done|].
  by rewrite IH, <- app_assoc.
Qed.
Definition with_flags (g : Value -> option Value) (l : list (string * Value)) (m : gmap string Value) : gmap string Value :=
  fold_left (fun m f => match g f.2 with Some v => <[f.1 := v]> m | None => m end) l m.
Definition valued (v : Value) : option Value := Some (VString (flag_text v)).
Definition merely_set (v : Value) : option Value := match v with VBool _ => Some (VBool true) | _ => None end.

Lemma parse_flag_words flags words p : Forall (fun f => good_flag f.1 f.2) flags ->
  parse_tokens (map flag_word flags ++ words) p =
  parse_tokens words (mkParsing (ps_path p) (ps_args p) (with_flags valued flags (ps_inputMap p)) (ps_seenFlag p || negb (bool_decide (flags = [])))).
Proof.
  intros H. revert p. induction H as [|[name v] flags (Hn & Hf & Hv) H IH]; intros p; [destruct p; cbn; by rewrite orb_false_r|].
  cbn [fst snd] in Hn, Hf, Hv. assert (flag_text v <> emp) by (destruct Hv as [->|(s & -> & Hs)]; done).
  cbn [app map parse_tokens]. change (flag_word (name, v)) with ("--" ++ (name ++ String equals (flag_text v)))%string.
  rewrite HasPrefix_app, TrimPrefix_app, Cut_app by done. rewrite decide_False by (by destruct name).
  rewrite !decide_False by done. rewrite IH. unfold set_flag. cbn. by rewrite orb_true_r.
Qed.
Lemma parse_args args words path a m : Forall bare args ->
  parse_tokens (args ++ words) (mkParsing path a m true) = parse_tokens words (mkParsing path (a ++ args) m true).
Proof.
  intros H. revert a. induction H as [|w args [Hw Hd] H IH]; intros a; [by rewrite app_nil_r|].
  cbn [app parse_tokens]. rewrite dash_dashes, Hd by done. cbn [ps_seenFlag orb].
  transitivity (parse_tokens (args ++ words) (mkParsing path (a ++ [w]) m true)); [done|].
  by rewrite IH, <- app_assoc.
Qed.
Lemma parse_set_words flags p : Forall (fun f => good_flag f.1 f.2) flags ->
  exists seen, parse_tokens (flags ≫= set_words) p = Ok (mkParsing (ps_path p) (ps_args p) (with_flags merely_set flags (ps_inputMap p)) seen).
Proof.
  intros H. revert p. induction H as [|[name v] flags (Hn & Hf & Hv) H IH]; intros p; [destruct p; by eexists|].
  cbn [fst snd] in Hn, Hf, Hv. cbn [mbind list_bind set_words snd fst]. destruct Hv as [->|(s & -> & Hs)].
  2: { destruct (IH p) as [seen E]. exists seen. exact E. }
  destruct (IH (set_flag name (VBool true) p)) as [seen E]. exists seen.
  change (set_words (name, VBool true)) with [("--" ++ name)%string]. cbn [app parse_tokens].
  rewrite HasPrefix_app, TrimPrefix_app, Cut_none by done. rewrite !decide_False by (by destruct name).
  etransitivity; [|exact E]. clear -H. fold (mbind set_words flags). destruct (flags ≫= set_words) as [|next rest] eqn:E; [done|].
  assert (HasPrefix next "-" = true) as ->; [|done].
  assert (Hin : next ∈ flags ≫= set_words) by (rewrite E; by left). apply list_elem_of_bind in Hin as ([n v] & Hin & _).
  unfold set_words in Hin. destruct v; cbn in Hin; try by apply not_elem_of_nil in Hin. apply list_elem_of_singleton in Hin as ->.
  exact (HasPrefix_app "-" ("-" ++ n)).
Qed.
Lemma with_flags_lookup g flags m k : NoDup flags.*1 ->
  with_flags g flags m !! k = match (list_to_map flags : gmap string Value) !! k ≫= g with Some v => Some v | None => m !! k end.
Proof.
  revert m. induction flags as [|[n v] flags IH]; intros m; [done|]. intros [Hn Hnd]%NoDup_cons. cbn [with_flags fold_left fst snd].
  change (fold_left _ flags ?m) with (with_flags g flags m). rewrite IH by done. cbn [list_to_map foldr fst snd].
  destruct (decide (k = n)) as [->|Hk].
  - rewrite lookup_insert_eq, not_elem_of_list_to_map_1 by done. cbn. destruct (g v); [by rewrite lookup_insert_eq|done].
  - rewrite lookup_insert_ne by done. destruct (_ ≫= g); [done|]. destruct (g v); [by rewrite lookup_insert_ne|done].
Qed.
(** Set twice, the flags are what they were. *)
Lemma flags_restored m : map_Forall good_flag m -> with_flags merely_set (map_to_list m) (with_flags valued (map_to_list m) ∅) = m.
Proof.
  intros H. apply map_eq. intros k. rewrite !with_flags_lookup, list_to_map_to_list by apply NoDup_fst_map_to_list.
  destruct (m !! k) as [v|] eqn:E; cbn; [|by rewrite lookup_empty]. destruct (H k v E) as (_ & _ & [->|(s & -> & _)]); done.
Qed.

(** ** A printed invocation is read back *)

Lemma trim_slashed s : TrimSpace (String slash (s ++ String double_quote emp)) = String slash (s ++ String double_quote emp).
Proof.
  unfold TrimSpace. rewrite <- (String.string_of_list_ascii_of_string (String slash _)) at 2. f_equal.
  cbn [String.list_ascii_of_string]. rewrite ascii_app. set (l := String.list_ascii_of_string s). cbn [String.list_ascii_of_string].
  assert (trim_left (slash :: l ++ [double_quote]) = slash :: l ++ [double_quote]) as ->.
  { cbn. destruct (l ++ [double_quote]) as [|c2 [|c3 r]]; done. }
  change (slash :: l ++ [double_quote]) with ((slash :: l) ++ [double_quote]). rewrite rev_app_distr. cbn [rev app].
  assert (trim_left_rev (double_quote :: rev l ++ [slash]) = double_quote :: rev l ++ [slash]) as ->.
  { cbn. destruct (rev l ++ [slash]) as [|c2 [|c3 r]]; [done|..]; unfold is_space2, is_space3; cbn; by rewrite ?andb_false_r. }
  cbn [rev]. by rewrite rev_app_distr, rev_involutive.
Qed.
Lemma quoted_end words : words <> [] -> exists s, Join (map quote_word words) " " = (s ++ String double_quote emp)%string.
Proof.
  induction words as [|w [|w' words] IH]; [done|intros _; by exists (String double_quote (escape w))|]. intros _.
  destruct IH as [s E]; [done|]. exists (quote_word w ++ String " " s)%string.
  change (Join (map quote_word (w :: w' :: words)) " ") with (quote_word w ++ String " " (Join (map quote_word (w' :: words)) " "))%string.
  rewrite E. by rewrite append_assoc.
Qed.
Lemma tokenize_printed root words : root <> emp -> Forall (fun w => w <> emp) words ->
  tokenize (String slash (Join (map quote_word (root :: words)) " ")) = Ok (String slash root :: words).
Proof.
  intros Hr Hw. destruct (tokenize_words root words [] (String slash emp) ltac:(done) Hw) as (t & Et & Ee & Eq & Etk).
  unfold tokenize. cbn [String.list_ascii_of_string fold_left].
  change (tokenize_rune (mkTokenizer [] emp None false) slash) with (mkTokenizer [] (String slash emp) None false). rewrite Et, Ee, Eq, Etk. done.
Qed.
Lemma bare_words l : Forall bare l -> Forall (fun w => w <> emp) l.
Proof. intros H. eapply Forall_impl; [exact H|]. by intros w []. Qed.
Lemma later_nonempty inv : expressible inv -> Forall (fun w => w <> emp) (later_words inv).
Proof.
  intros [(root & segments & Ep & _ & _ & Hs) Ha _ _ _]. unfold later_words. rewrite Ep. cbn [tail]. apply Forall_app; split.
  - eapply Forall_impl; [exact Hs|]. intros s [H _] ->. done.
  - apply Forall_app. split; [apply Forall_forall; intros w (f & -> & _)%list_elem_of_fmap; done|].
    apply Forall_app. split; [by apply bare_words|]. apply Forall_forall. intros w (f & Hw & _)%list_elem_of_bind. unfold set_words in Hw.
    destruct (f.2); try by apply not_elem_of_nil in Hw. by apply list_elem_of_singleton in Hw as ->.
Qed.
Lemma first_slash root : has_byte slash root = false -> HasPrefix (String slash root) "//" = false.
Proof.
  unfold has_byte, HasPrefix. destruct root as [|c root]; [done|]. cbn -[slash ascii_dec]. intros [H _]%orb_false_iff.
  destruct (ascii_dec "/" slash); [|done]. destruct (ascii_dec "/" c) as [<-|]; [done|done].
Qed.
Lemma parse_later inv root segments seen' : expressible inv -> ci_Path inv = root :: segments -> seen' = false ->
  exists seen, parse_tokens (later_words inv) (mkParsing [root] [] ∅ seen') = Ok (mkParsing (ci_Path inv) (ci_Args inv) (flags_of (ci_Input inv)) seen).
Proof.
  intros [(root' & segments' & Ep & _ & _ & Hs) Ha Hf _ Hh] Ep' ->. rewrite Ep in Ep'. injection Ep' as -> ->. unfold later_words. rewrite Ep. cbn [tail].
  set (m := flags_of (ci_Input inv)) in *. assert (Hl : Forall (fun f => good_flag f.1 f.2) (map_to_list m)).
  { apply Forall_forall. intros [k v] Hk%elem_of_map_to_list. by apply Hf. }
  rewrite parse_segments, parse_flag_words by done. cbn [ps_path ps_args ps_inputMap ps_seenFlag orb].
  assert (forall seen, (seen = true \/ forall first, head (ci_Args inv) = Some first -> isSlashPathSegment first = false) ->
    exists seen', parse_tokens (ci_Args inv ++ map_to_list m ≫= set_words) (mkParsing ([root] ++ segments) [] (with_flags valued (map_to_list m) ∅) seen)
      = Ok (mkParsing (root :: segments) (ci_Args inv) m seen')) as H.
  { intros seen Hseen. destruct (ci_Args inv) as [|first args] eqn:Ea; cbn [app].
    { destruct (parse_set_words (map_to_list m) (mkParsing (root :: segments) [] (with_flags valued (map_to_list m) ∅) seen) Hl) as [seen' E].
      exists seen'. cbn in E. by rewrite flags_restored in E. }
    apply Forall_cons in Ha as [[Hne Hd] Ha]. cbn [parse_tokens]. rewrite dash_dashes, Hd by done. cbn [ps_seenFlag].
    assert (seen || negb (isSlashPathSegment first) = true) as -> by (destruct Hseen as [->|Hseen]; [done|]; rewrite (Hseen first) by done; by rewrite orb_true_r).
    destruct (parse_set_words (map_to_list m) (mkParsing (root :: segments) (first :: args) (with_flags valued (map_to_list m) ∅) true) Hl) as [seen' E].
    exists seen'. cbn in E. rewrite flags_restored in E by done. rewrite <- E. by apply (parse_args args (map_to_list m ≫= set_words) (root :: segments) [first]). }
  apply H. destruct (decide (m = ∅)) as [Em|Em]; [right; by apply Hh|left].
  rewrite bool_decide_eq_false_2; [done|]. by intros ?%map_to_list_empty_iff.
Qed.
Lemma printed_parses inv : expressible inv -> ParseSlash (print_slash inv) = Ok (Some inv).
Proof.
  intros H. pose proof H as [(root & segments & Ep & Hr & Hb & _) _ _ Hin _]. unfold ParseSlash, print_slash. rewrite Ep. change (default emp (head (root :: segments))) with root.
  destruct (quoted_end (root :: later_words inv)) as [s Es]; [done|]. rewrite Es, trim_slashed, decide_False by done.
  change (negb (HasPrefix (String slash (s ++ String double_quote emp)) "/")) with (negb (HasPrefix ("/" ++ (s ++ String double_quote emp))%string "/")).
  rewrite HasPrefix_app. cbn [negb]. rewrite <- Es, tokenize_printed by (done || by apply later_nonempty). cbn [res_bind].
  rewrite decide_False by (intros E; injection E as E; done). rewrite first_slash by done.
  change (TrimPrefix (String slash root) "/") with (TrimPrefix ("/" ++ root) "/"). rewrite TrimPrefix_app. unfold validateSlashPathSegment.
  rewrite decide_False, Hb by done. destruct (parse_later inv root segments false H Ep eq_refl) as [seen E]. rewrite E. cbn [res_bind].
  unfold invocation_of. cbn. rewrite <- Hin. by destruct inv.
Qed.

(** ** What a line is read as can be printed *)

Record sound (p : Parsing) : Prop := {
  so_root : exists root segments, ps_path p = root :: segments /\ root <> emp /\ has_byte slash root = false
    /\ Forall (fun s => isSlashPathSegment s = true /\ HasPrefix s "-" = false) segments;
  so_args : Forall bare (ps_args p);
  so_flags : map_Forall good_flag (ps_inputMap p);
  so_first : ps_inputMap p = ∅ -> forall first, head (ps_args p) = Some first -> isSlashPathSegment first = false;
  so_unseen : ps_seenFlag p = false -> ps_args p = [];
  so_seen : ps_seenFlag p = true -> ps_args p <> [] \/ ps_inputMap p <> ∅
}.
Lemma sound_flag name v p : good_flag name v -> sound p -> sound (set_flag name v p).
Proof.
  intros Hv [Hr Ha Hf _ _ _]. split; cbn; [done|done|by apply map_Forall_insert_2| |done|right; apply insert_non_empty].
  intros H. by apply insert_non_empty in H.
Qed.
Lemma sound_arg token p : bare token -> (ps_seenFlag p = true \/ isSlashPathSegment token = false) -> sound p ->
  sound (p <| ps_args := ps_args p ++ [token] |> <| ps_seenFlag := true |>).
Proof.
  intros Hb Ht [Hr Ha Hf Hh Hu Hs]. split; cbn; [done|apply Forall_app; auto|done| |done|left; by destruct (ps_args p)].
  intros Hm first. destruct (ps_args p) as [|a args] eqn:Ea; [|by apply (Hh Hm)]. cbn. intros [= <-].
  destruct Ht as [Ht|Ht]; [|done]. by destruct (Hs Ht).
Qed.
Lemma sound_segment token p : isSlashPathSegment token = true -> HasPrefix token "-" = false -> ps_seenFlag p = false -> sound p ->
  sound (p <| ps_path := ps_path p ++ [token] |>).
Proof.
  intros Ht Hd Hp [(root & segments & Ep & Hr & Hb & Hs) Ha Hf Hh Hu Hse]. split; cbn; try done.
  exists root, (segments ++ [token]). rewrite Ep. split_and!; try done. apply Forall_app. auto.
Qed.
Lemma good_text name s rest : Cut s equals = rest -> rest.1.1 = name -> name <> emp -> forall v, v <> emp -> good_flag name (VString v).
Proof. intros E <- Hn v Hv. destruct rest as [[n x] f]. split_and!; [done|by eapply Cut_free|right; by exists v]. Qed.
Lemma good_set name s rest : Cut s equals = rest -> rest.1.1 = name -> name <> emp -> good_flag name (VBool true).
Proof. intros E <- Hn. destruct rest as [[n x] f]. split_and!; [done|by eapply Cut_free|by left]. Qed.

Lemma parse_sound n tokens p p' : length tokens <= n -> Forall (fun w => w <> emp) tokens -> sound p -> parse_tokens tokens p = Ok p' -> sound p'.
Proof.
  revert tokens p. induction n as [|n IH]; intros [|token rest] p Hn Hw Hp; cbn [parse_tokens]; try by intros [= <-]. { cbn in Hn. lia. }
  apply Forall_cons in Hw as [Ht Hw]. cbn in Hn. assert (Hl : length rest <= n) by lia.
  destruct (HasPrefix token "--").
  { case_decide; [done|]. destruct (Cut (TrimPrefix token "--") equals) as [[name value] hasValue] eqn:Ec. case_decide as Hname; [done|].
    pose proof (good_set name _ _ Ec eq_refl Hname) as Hset. pose proof (good_text name _ _ Ec eq_refl Hname) as Htext.
    destruct hasValue; [case_decide; [done|]; apply IH; try done; by apply sound_flag, Hp; apply Htext|].
    destruct rest as [|next rest]; [apply IH; try done; by apply sound_flag|].
    destruct (HasPrefix next "-"); [apply IH; try done; by apply sound_flag|]. apply Forall_cons in Hw as [Hnext Hw].
    cbn in Hl. apply IH; [lia|done|]. apply sound_flag; [by apply Htext|done]. }
  destruct (HasPrefix token "-") eqn:Ed; [done|]. destruct (ps_seenFlag p || negb (isSlashPathSegment token)) eqn:Es.
  { apply IH; try done. apply sound_arg; [done| |done]. apply orb_true_iff in Es as [Es|Es]; [by left|right; by apply negb_true_iff]. }
  apply orb_false_iff in Es as [Es Et%negb_false_iff]. destruct (validateSlashPathSegment token); [done|]. apply IH; try done. by apply sound_segment.
Qed.
Lemma flush_nonempty t : Forall (fun w => w <> emp) (tk_tokens t) -> Forall (fun w => w <> emp) (tk_tokens (flush_word t)).
Proof. intros H. unfold flush_word. case_decide; [done|]. cbn. apply Forall_app. auto. Qed.
Lemma tokens_nonempty input tokens : tokenize input = Ok tokens -> Forall (fun w => w <> emp) tokens.
Proof.
  unfold tokenize. assert (H : forall l t, Forall (fun w => w <> emp) (tk_tokens t) -> Forall (fun w => w <> emp) (tk_tokens (fold_left tokenize_rune l t))).
  { intros l. induction l as [|c l IH]; intros t Ht; [done|]. cbn. apply IH. unfold tokenize_rune.
    repeat case_match; try exact Ht. by apply flush_nonempty. }
  set (t := fold_left _ _ _). assert (Forall (fun w => w <> emp) (tk_tokens t)) as Ht by (by apply H).
  destruct (tk_quote _); [done|]. intros [= <-]. apply flush_nonempty. by destruct (tk_escaped t).
Qed.
Lemma parsed_expressible line inv : ParseSlash line = Ok (Some inv) -> expressible inv.
Proof.
  unfold ParseSlash. case_decide as He; [done|]. destruct (negb _); [done|]. intros ([|first rest] & Et & H)%res_bind_ok; [done|].
  apply tokens_nonempty, Forall_cons in Et as [_ Hw]. case_decide as Hfst; [done|]. destruct (HasPrefix first "//"); [done|].
  unfold validateSlashPathSegment in H. case_decide as Hr; [done|]. destruct (has_byte slash _) eqn:Hb; [done|].
  apply res_bind_ok in H as (p & Hp & H). injection H as <-.
  assert (Hs : sound p).
  { eapply parse_sound; [done|exact Hw| |exact Hp]. split; cbn; try done. by eexists _, []. }
  destruct Hs as [? Ha Hf Hh _ _]. unfold invocation_of, command_input. case_decide as Em; [rewrite Em in Hh|]; split; cbn; try done; auto.
  unfold command_input. by rewrite decide_False.
Qed.

(** C38: The invocations a command line can stand for are exactly those with a root, path segments that look like
    such, flags with names and values, and arguments none of which begins with a dash and the first of which, when there
    are no flags, does not look like a segment of the path; and every one of them has a line that is read as it,
    whatever characters its words have. *)
Theorem slash_lines_exact inv :
  ((exists line, ParseSlash line = Ok (Some inv)) <-> expressible inv) /\ (expressible inv -> ParseSlash (print_slash inv) = Ok (Some inv)).
Proof.
  split; [|apply printed_parses]. split; [by intros [line H%parsed_expressible]|]. intros H. eexists. by apply printed_parses.
Qed.
