(* ===== verification/SessionCommands.v ===== *)
(** * The commands of a session (src/orchestration/session: available_commands.go, and the resolution of
    commands in session.go; built-in commands of src/orchestration/sessioncontrol/control.go)

    Which commands a session offers, how a line is cut into the path of one and its arguments, and what a path is
    resolved to. *)

From stdpp Require Import sorting pretty.
From S2P Require Import Prelude Operation OpModel NamedInstance Event Thread ThreadStore Conversation SessionData Resource Resolution ModelTools ToolProjection Materializer Surface Command.

(** ** Built-in commands *)

Inductive SessionHandler :=
| ExecuteContext | ExecuteEnvExplain | ExecuteSurface | ExecuteActivate | ExecuteCompact | ExecuteWhoami
| Contributed (name : string).
(** The policies of built-in commands: users and the system, verified or not; and the types of inputs. *)
Class BuiltInModule `{InvocationModule} := {
  VerifiedPolicy : InvocationPolicy;
  UntrustedPolicy : InvocationPolicy;
  TypeOf : string -> BoundType -> OpType
}.

Section Commands.
Context `{OT : OperationTypes} {OM : OperationModule} `{PT : PolicyTypes} {PM : PolicyModule} {IM : InvocationModule} {BM : BuiltInModule}.

Record SessionCommandBinding := mkSessionCommand { sc_Spec : CommandSpec; sc_Handler : SessionHandler }.
Definition session_target : Target := mkToolTarget TargetSession (mkOpRef emp) emp emp emp emp emp VNil.
Definition built_in (path : list string) (description : string) (policy : InvocationPolicy) : CommandSpec :=
  mkCommandSpec path description session_target zero_OpType zero_OpType policy ∅.
Definition ContextCommandSpec : CommandSpec := built_in ["context"]%string "Preview context that would be sent to the LLM." VerifiedPolicy.
Definition EnvExplainCommandSpec : CommandSpec := built_in ["env"; "explain"]%string
  "Explain configured environment observers, assertion derivers, reaction rules, and active reaction state." VerifiedPolicy.
Definition SurfaceCommandSpec : CommandSpec := built_in ["surface"]%string
  "Show the current prepared surface and recent focus/surface trace." VerifiedPolicy.
Definition ActivateCommandSpec : CommandSpec := built_in ["activate"]%string
  "Prepare selected resources for the current work surface." VerifiedPolicy.
Definition CompactCommandSpec : CommandSpec := built_in ["compact"]%string
  "Compact provider transcript replay for the current thread." VerifiedPolicy.
Definition WhoamiCommandSpec : CommandSpec := built_in ["whoami"]%string
  "Show the resolved caller identity and authorization subjects for the current turn." UntrustedPolicy.
Definition builtInSessionCommands : gmap string SessionCommandBinding := list_to_map
  (map (fun b => (Path_String (cs_Path (sc_Spec b)), b))
     [mkSessionCommand ContextCommandSpec ExecuteContext; mkSessionCommand EnvExplainCommandSpec ExecuteEnvExplain;
      mkSessionCommand SurfaceCommandSpec ExecuteSurface; mkSessionCommand ActivateCommandSpec ExecuteActivate;
      mkSessionCommand CompactCommandSpec ExecuteCompact; mkSessionCommand WhoamiCommandSpec ExecuteWhoami]).

(** The inputs of built-in commands. *)
Definition activateCommandInput : BoundType := StructType
  [mkField true "arg" (FieldSlice FieldString); mkField true "flag=duration,default=run" FieldString].
Definition contextPreviewInput : BoundType := StructType [mkField true "flag=fresh" FieldBool; mkField true "flag=key" FieldString].
Definition surfaceCommandInput : BoundType := StructType [mkField true "flag=json" FieldBool].
Definition compactCommandInput : BoundType := StructType [mkField true "flag=dry-run" FieldBool].

(** ** What a session offers *)

Definition CompletionFlagsAnnotation : string := "completion.flags".
Definition commandCompletionAnnotations (base : gmap string string) (flags : list string) : gmap string string :=
  match flags with [] => base | _ => <[CompletionFlagsAnnotation := Join flags ","]> base end.
Definition complete_with (name : string) (input : BoundType) (spec : CommandSpec) : CommandSpec :=
  mkCommandSpec (cs_Path spec) (cs_Description spec) (cs_Target spec) (TypeOf name input) (cs_Output spec) (cs_Policy spec)
    (commandCompletionAnnotations (cs_Annotations spec) (FlagNamesFor input)).
Definition completeBuiltInCommandSpec (spec : CommandSpec) : CommandSpec :=
  let path := Path_String (cs_Path spec) in
  if decide (path = "/activate"%string) then complete_with "activate_input" activateCommandInput spec
  else if decide (path = "/context"%string) then complete_with "context_input" contextPreviewInput spec
  else if decide (path = "/compact"%string) then complete_with "compact_input" compactCommandInput spec
  else if decide (path = "/surface"%string) then complete_with "surface_input" surfaceCommandInput spec
  else spec.

(** The commands of a session; a nil registry or resolver is [None]. Maps are iterated in some order. *)
Record CommandSources := mkCommandSources {
  cu_Registry : option (gmap string CommandSpec);
  cu_Resolver : option Resolver;
  cu_Catalog : gmap string CommandBinding;
  cu_SessionCommands : gmap string SessionCommandBinding
}.
Implicit Types u : CommandSources.
Definition map_values {A} (m : gmap string A) : list A := map snd (map_to_list m).
(** One call of [add]. *)
Definition add_spec (seen : gmap string CommandSpec) (spec : CommandSpec) : gmap string CommandSpec :=
  let key := Path_String (cs_Path spec) in
  if decide (key = emp) then seen else match seen !! key with Some _ => seen | None => <[key := spec]> seen end.
Definition offered_specs u : list CommandSpec :=
  map (fun b => completeBuiltInCommandSpec (sc_Spec b)) (map_values builtInSessionCommands)
  ++ map (fun b => completeBuiltInCommandSpec (sc_Spec b)) (map_values (cu_SessionCommands u))
  ++ map cb_Spec (map_values (cu_Catalog u)) ++ default [] (map_values <$> cu_Registry u).
Definition AvailableCommandSpecs u : list CommandSpec :=
  sort_by (fun spec => Path_String (cs_Path spec)) (map_values (fold_left add_spec (offered_specs u) ∅)).

(** ** Command lines *)

Definition knownCommandPath (path : list string) (specs : list CommandSpec) : bool :=
  let key := Path_String path in
  if decide (key = emp) then false else existsb (fun spec => bool_decide (Path_String (cs_Path spec) = key)) specs.
(** The loop over shorter and shorter prefixes. *)
Fixpoint cut_path (n : nat) (specs : list CommandSpec) (invocation : CommandInvocation) : CommandInvocation :=
  match n with
  | O => invocation
  | S n' =>
      let prefix := take n (ci_Path invocation) in
      if knownCommandPath prefix specs then mkInvocation prefix (drop n (ci_Path invocation) ++ ci_Args invocation) (ci_Input invocation)
      else cut_path n' specs invocation
  end.
Definition preferResolvableCommand (invocation : CommandInvocation) (specs : list CommandSpec) : CommandInvocation :=
  if bool_decide (specs = []) || (length (ci_Path invocation) <=? 1) || knownCommandPath (ci_Path invocation) specs then invocation
  else cut_path (length (ci_Path invocation) - 1) specs invocation.
Inductive CommandLineError := BadLine (e : LineError) | NotACommand.
Definition ParseCommandLine (line : string) u : Result CommandLineError CommandInvocation :=
  match ParseSlash line with
  | Err e => Err (BadLine e)
  | Ok None => Err NotACommand
  | Ok (Some invocation) => Ok (preferResolvableCommand invocation (AvailableCommandSpecs u))
  end.
(** [Invocation.Validate]. *)
Definition Invocation_Validate (i : CommandInvocation) : option string :=
  if decide (pathKey (ci_Path i) = emp) then Some "command: invocation path is empty"%string else None.

(** ** Resolution *)

Record resolvedCommand := mkResolved { rc_Binding : CommandBinding; rc_SessionHandler : option SessionHandler }.
Definition spec_binding (spec : CommandSpec) : CommandBinding := mkCommandBinding zero_ResourceID spec zero_ResourceID zero_ResourceID.
(** Empty parts are left out; the parts are joined as references are. *)
Definition commandPathRef (path : list string) : string := Join (List.filter is_nonempty path) (String colon emp).
(** What the resolver remembers does not change its answer; the answer is all that matters here. *)
Definition resolveCommandBinding (path : list string) u : Result ResolveError (option CommandBinding) :=
  match cu_Resolver u with
  | None => Ok None
  | Some resolver =>
      if decide (cu_Catalog u = ∅) then Ok None else
      let? id := (Resolve resolver "command" (commandPathRef path)).2 in
      Ok (cu_Catalog u !! Address id)
  end.
Definition session_command (b : SessionCommandBinding) : resolvedCommand := mkResolved (spec_binding (sc_Spec b)) (Some (sc_Handler b)).
Definition resolveCommand (path : list string) u : Result ResolveError (option resolvedCommand) :=
  match builtInSessionCommands !! Path_String path with
  | Some b => Ok (Some (session_command b))
  | None =>
      match cu_SessionCommands u !! Path_String path with
      | Some b => Ok (Some (session_command b))
      | None =>
          let? binding := resolveCommandBinding path u in
          match binding with
          | Some binding => Ok (Some (mkResolved binding None))
          | None => Ok ((fun spec => mkResolved (spec_binding spec) None) <$> (cu_Registry u ≫= fun registry => registry !! pathKey path))
          end
      end
  end.
(** [CommandTargetsSession]. *)
Definition TargetsKind (kind : TargetKind) (spec : CommandSpec) : bool := bool_decide (tt_Kind (cs_Target spec) = kind).
Definition CommandTargetsSession (path : list string) u : Result ResolveError bool :=
  let? r := resolveCommand path u in
  Ok match r with
     | Some r => TargetsKind TargetSession (cb_Spec (rc_Binding r)) || TargetsKind TargetPrompt (cb_Spec (rc_Binding r))
     | None => false
     end.
Definition commandPathAllowed (allowed : list (list string)) (path : list string) : bool :=
  let key := Path_String path in
  if decide (key = emp) then false else existsb (fun candidate => bool_decide (Path_String candidate = key)) allowed.

(** ** What is offered *)

(** The keys of the specifications any map holds, whatever the order of its iteration. *)
Definition offered u (path : list string) : Prop :=
  Path_String path <> emp /\ exists spec, spec ∈ offered_specs u /\ Path_String (cs_Path spec) = Path_String path.

Lemma add_spec_keys seen spec k :
  is_Some (add_spec seen spec !! k) <-> is_Some (seen !! k) \/ (k <> emp /\ Path_String (cs_Path spec) = k).
Proof.
  unfold add_spec. destruct (decide (Path_String (cs_Path spec) = emp)) as [He|He]; [naive_solver|].
  destruct (seen !! Path_String (cs_Path spec)) as [s|] eqn:E.
  - split; [by left|]. intros [H|[_ <-]]; [done|]. by rewrite E.
  - destruct (decide (Path_String (cs_Path spec) = k)) as [<-|Hk]; [rewrite lookup_insert_eq; naive_solver|].
    rewrite lookup_insert_ne by done. naive_solver.
Qed.
Lemma fold_spec_keys specs seen k :
  is_Some (fold_left add_spec specs seen !! k) <-> is_Some (seen !! k) \/ (k <> emp /\ exists spec, spec ∈ specs /\ Path_String (cs_Path spec) = k).
Proof.
  revert seen. induction specs as [|spec specs IH]; intros seen; cbn [fold_left].
  - split; [by left|]. intros [H|(_ & s & Hs & _)]; [done|]. by apply not_elem_of_nil in Hs.
  - rewrite IH, add_spec_keys. setoid_rewrite elem_of_cons. naive_solver.
Qed.
Definition keyed (seen : gmap string CommandSpec) : Prop := map_Forall (fun k spec => Path_String (cs_Path spec) = k /\ k <> emp) seen.
Lemma fold_spec_keyed specs seen : keyed seen -> keyed (fold_left add_spec specs seen).
Proof.
  revert seen. induction specs as [|spec specs IH]; intros seen H; cbn [fold_left]; [done|]. apply IH. unfold add_spec.
  case_decide; [done|]. destruct (seen !! _); [done|]. by apply map_Forall_insert_2.
Qed.
Lemma known_spec path specs : knownCommandPath path specs = true <->
  Path_String path <> emp /\ exists spec, spec ∈ specs /\ Path_String (cs_Path spec) = Path_String path.
Proof.
  unfold knownCommandPath. case_decide as H; [naive_solver|]. rewrite existsb_exists. split.
  - intros (spec & Hs & E%bool_decide_eq_true). split; [done|]. exists spec. by rewrite list_elem_of_In.
  - intros (_ & spec & Hs & E). exists spec. rewrite <- list_elem_of_In. by rewrite bool_decide_eq_true.
Qed.
Lemma elem_of_map_values {A} (m : gmap string A) v : v ∈ map_values m <-> exists k, m !! k = Some v.
Proof.
  unfold map_values. rewrite list_elem_of_In, in_map_iff. split.
  - intros ([k x] & <- & Hin%list_elem_of_In%elem_of_map_to_list). by exists k.
  - intros [k Hk]. exists (k, v). split; [done|]. by apply list_elem_of_In, elem_of_map_to_list.
Qed.
Lemma elem_of_available u spec : spec ∈ AvailableCommandSpecs u <-> fold_left add_spec (offered_specs u) ∅ !! Path_String (cs_Path spec) = Some spec.
Proof.
  unfold AvailableCommandSpecs, sort_by. rewrite merge_sort_Permutation, elem_of_map_values.
  pose proof (fold_spec_keyed (offered_specs u) ∅ (map_Forall_empty _)) as Hk. split; [|by eexists].
  intros [k Hs]. by destruct (Hk _ _ Hs) as [-> _].
Qed.
Lemma available_known u path : knownCommandPath path (AvailableCommandSpecs u) = true <-> offered u path.
Proof.
  rewrite known_spec. pose proof (fold_spec_keyed (offered_specs u) ∅ (map_Forall_empty _)) as Hk.
  pose proof (fold_spec_keys (offered_specs u) ∅ (Path_String path)) as Hd.
  split; intros [Hne (spec & Hs & E)]; (split; [exact Hne|]).
  - apply elem_of_available in Hs. rewrite E in Hs. apply proj1 in Hd. destruct Hd as [H|(_ & H)]; [by eexists|rewrite lookup_empty in H; by destruct H|exact H].
  - apply proj2 in Hd. destruct Hd as [spec' Hs']; [right; split; [exact Hne|by exists spec]|].
    destruct (Hk _ _ Hs') as [E' _]. exists spec'. split; [|exact E']. apply elem_of_available. rewrite E'. exact Hs'.
Qed.

(** ** Where a line is cut *)

(** [cut] is [parsed] with the longest prefix of its path that satisfies [known] as path, and the other words before its
    arguments; or it is [parsed] itself when there is no such prefix. *)
Record longest_known (known : list string -> Prop) (parsed cut : CommandInvocation) : Prop := {
  lk_words : ci_Path cut ++ ci_Args cut = ci_Path parsed ++ ci_Args parsed;
  lk_input : ci_Input cut = ci_Input parsed;
  lk_prefix : ci_Path cut = take (length (ci_Path cut)) (ci_Path parsed);
  lk_known : known (ci_Path cut) \/ cut = parsed /\ forall n, ~ known (take n (ci_Path parsed));
  lk_longest : forall n, length (ci_Path cut) < n <= length (ci_Path parsed) -> ~ known (take n (ci_Path parsed))
}.
Lemma longest_same known inv : known (ci_Path inv) \/ (forall n, ~ known (take n (ci_Path inv))) -> longest_known known inv inv.
Proof. intros H. split; [done|done|by rewrite firstn_all|destruct H; auto|lia]. Qed.
Lemma cut_path_longest n specs inv : n < length (ci_Path inv) ->
  (forall k, n < k -> knownCommandPath (take k (ci_Path inv)) specs = false) ->
  longest_known (fun path => knownCommandPath path specs = true) inv (cut_path n specs inv).
Proof.
  revert inv. induction n as [|n IH]; intros inv Hn Hk; cbn [cut_path].
  - apply longest_same. right. intros [|k]; [done|]. rewrite Hk by lia. done.
  - destruct (knownCommandPath (take (S n) (ci_Path inv)) specs) eqn:E.
    + assert (Hl : length (take (S n) (ci_Path inv)) = S n) by (rewrite length_take; lia). split; cbn [ci_Path ci_Args ci_Input]; rewrite ?Hl.
      * by rewrite app_assoc, take_drop.
      * done.
      * done.
      * by left.
      * intros k Hlt. rewrite Hk by lia. done.
    + apply IH; [lia|]. intros k Hlt. destruct (decide (k = S n)) as [->|]; [done|]. apply Hk. lia.
Qed.
Lemma prefer_longest specs inv : longest_known (fun path => knownCommandPath path specs = true) inv (preferResolvableCommand inv specs).
Proof.
  unfold preferResolvableCommand. destruct (knownCommandPath (ci_Path inv) specs) eqn:Ek.
  { rewrite orb_true_r. apply longest_same. by left. }
  rewrite orb_false_r. assert (Hall : forall k, length (ci_Path inv) <= k -> knownCommandPath (take k (ci_Path inv)) specs = false).
  { intros k Hk. by rewrite take_ge. }
  destruct (bool_decide (specs = [])) eqn:Es; cbn [orb].
  { apply bool_decide_eq_true in Es as ->. apply longest_same. right. intros n. unfold knownCommandPath. by case_decide. }
  destruct (length (ci_Path inv) <=? 1) eqn:El.
  { apply Nat.leb_le in El. apply longest_same. right. intros [|n]; [done|]. by rewrite Hall by lia. }
  apply Nat.leb_gt in El. apply cut_path_longest; [lia|]. intros k Hlt. apply Hall. lia.
Qed.
Lemma longest_iff (known known' : list string -> Prop) parsed cut :
  (forall path, known path <-> known' path) -> longest_known known parsed cut -> longest_known known' parsed cut.
Proof.
  intros H [? ? ? Hk Hl]. split; [done|done|done|setoid_rewrite <- H; exact Hk|]. intros n Hn. rewrite <- H. by apply Hl.
Qed.

(** C39: A command line runs the longest command it names: of the words that look like a path, the longest prefix some
    command of the session is offered under becomes the path, whatever order the maps of commands are iterated in; the
    words after it come before the arguments, in order, and nothing is lost; a line that names no command is left as it
    was parsed. *)
Theorem command_line_exact line u inv : ParseCommandLine line u = Ok inv ->
  exists parsed, ParseSlash line = Ok (Some parsed) /\ longest_known (offered u) parsed inv.
Proof.
  unfold ParseCommandLine. destruct (ParseSlash line) as [[parsed|]|e]; [|discriminate..].
  intros <-%Ok_inj. exists parsed. split; [reflexivity|].
  apply (longest_iff _ _ _ _ (available_known u)), prefer_longest.
Qed.
(** The printed line of an invocation of a command that is offered is read as it. *)
Lemma printed_command u inv : expressible inv -> offered u (ci_Path inv) -> ParseCommandLine (print_slash inv) u = Ok inv.
Proof.
  intros He Ho%available_known. unfold ParseCommandLine. rewrite printed_parses by exact He. unfold preferResolvableCommand.
  rewrite Ho, orb_true_r. reflexivity.
Qed.
End Commands.
