(* ===== verification/CommandDispatch.v ===== *)
(** * Running a command (ExecuteInboundCommand and ExecuteInboundOperation of src/orchestration/session/session.go)

    From an envelope to a result: the command is parsed, resolved, checked against the profile and its policy, recorded,
    and handed to what it targets. Session handlers, workflows and session agents answer as they like; operations and
    prompts run as in a turn. *)

From stdpp Require Import pretty.
From S2P Require Import Prelude Operation OpModel NamedInstance Event Thread ThreadViews ThreadStore Conversation Continuity WorkerText Compaction StateLogic AgentModel Goal GoalOps SessionData SessionItems StopCondition SessionTurn SessionLoop SessionBounds SessionGate Resource Resolution ModelTools ToolProjection Command SessionCommands.

Class CommandTexts := {
  command_line_text : CommandLineError -> string;
  resolve_text : ResolveError -> string;
  catalog_text : CatalogError -> string
}.
(** The caller and the trust of an envelope; its authority is their text. *)
Class InboundAuthority := { caller_of : string -> Caller; trust_of : string -> TrustClaim }.
(** [json.Marshal], [json.MarshalIndent], and package text/template: the path, the arguments, their join and the input are
    the data of a template. *)
Record PromptData := mkPromptData { pd_Path : string; pd_Args : list string; pd_Argument : string; pd_Input : Value }.
Class PromptModule := {
  Marshal : Value -> option string;
  MarshalIndent : Value -> option string;
  render_template : string -> PromptData -> Result string string
}.

Section Dispatch.
Context {Assertion Active ReactionRest : Type}.
Context {VJ : ValueJson} {OA : OperationApi} {MR : ModelRenderable} {LC : LowerCase} {ST : SessionTexts} {RD : ResultData}
  {GX : GoalTexts} {GF : GoFmt}.
Context `{OT : OperationTypes} {OM : OperationModule} `{PT : PolicyTypes} {PM : PolicyModule} {IM : InvocationModule} {ON : OperationNames}
  {BM : BuiltInModule} {SP : SprintModule} {CT : CommandTexts} {IA : InboundAuthority} {PR : PromptModule}.
Abbreviation SEnv := (Env (Assertion := Assertion) (Active := Active) (ReactionRest := ReactionRest)).
Implicit Types (inbound : Inbound) (command : CommandInvocation) (cmd_spec : CommandSpec).

(** ** Results *)

Inductive CommandStatus := CommandStatusOK | CommandStatusFailed | CommandStatusRejected | CommandStatusApprovalRequired | CommandStatusUnsupported
| OtherCommandStatus (status : string).
(** A failed command has no specification and no evaluation. *)
Record CommandResult := mkCommandResult {
  cr_Status : CommandStatus;
  cr_Spec : option CommandSpec;
  cr_Policy : option Evaluation;
  cr_Effect : option EffectResult;
  cr_Output : Value;
  cr_Error : option CommandError
}.
Definition commandFailed (code message : string) (details : gmap string Value) : CommandResult :=
  mkCommandResult CommandStatusFailed None None None VNil (Some (mkCommandError code message details)).
Record OperationOutcome := mkOperationOutcome {
  oo_Failed : bool; oo_Operation : option OpRef; oo_Effect : option EffectResult; oo_Error : option CommandError }.
Definition operationFailed (code message : string) : OperationOutcome :=
  mkOperationOutcome true None None (Some (mkCommandError code message ∅)).

(** ** What is called *)

(** [Task] of a [Created] event, as far as [sessionTargetCreatedOutput] looks. *)
Record CreatedTask := mkCreatedTask { kt_EventTaskID : string; kt_ID : string; kt_Title : string; kt_Objective : string; kt_Status : string }.
(** What a workflow answers: a status, an output and an error. *)
Record WorkflowAnswer := mkWorkflowAnswer { wa_Status : CommandStatus; wa_Text : string; wa_Output : Value; wa_Error : option CommandError }.
Inductive CommandCall :=
| InSession (c : Call)
| HandlerRan (handler : SessionHandler) (result : CommandResult)
| OperationRan (op : Operation) (input : Value) (callID : string) (emitted : list SessionEvent) (result : OpResult)
| AgentRan (target task : string) (answer : Result string string)
| WorkflowRan (input : Value) (target : ResourceID) (answer : WorkflowAnswer).
Definition session_call (c : CommandCall) : option Call := match c with InSession c => Some c | _ => None end.

Record CommandEnv := mkCommandEnv {
  cv_Session : SEnv;
  cv_Handler : list CommandCall -> SessionHandler -> Inbound -> CommandSpec -> Evaluation -> CommandResult;
  cv_Operation : list CommandCall -> Operation -> Value -> string -> list SessionEvent * OpResult;
  (** The output and the tasks created while the agent ran, or an error. *)
  cv_Agent : list CommandCall -> string -> string -> Result string (string * list CreatedTask);
  cv_Workflow : list CommandCall -> Value -> ResourceID -> CommandSpec -> WorkflowAnswer
}.
(** The fields of a session that commands read. *)
Record CommandSession := mkCommandSession {
  cx_Session : Session;
  cx_Sources : CommandSources;
  cx_Allowed : option (list (list string));
  cx_Operations : option (OpRef -> option Operation);
  cx_OperationCatalog : gmap string OperationBinding;
  cx_Surface : string -> Operation;
  cx_HasAgents : bool
}.

Abbreviation W := (list CommandCall).
Context (ce : CommandEnv) (cs : CommandSession).
Definition session_calls (w : W) : list Call := omap session_call w.
(** A part of a turn, which starts with nothing in its sink. *)
Definition in_session {A} (m : St Turn A) : St W A := fun w =>
  let calls := session_calls w in
  let '(a, t) := m (start_turn (cx_Session cs) calls) in (a, w ++ map InSession (drop (length calls) (tu_Log t))).
Definition ask_command {A} (answer : W -> A) (entry : A -> CommandCall) : St W A := fun w => let a := answer w in (a, w ++ [entry a]).
Definition append_events (events : list SessionEvent) : St W (option ThreadError) := in_session (appendThreadEvents (cv_Session ce) (cx_Session cs) events).
Definition emit_live (e : SessionEvent) : St W unit := in_session (emitLive e).
(** Events of an operation outside a turn only go to the session's sink. *)
Fixpoint emit_live_each (events : list SessionEvent) : St W unit :=
  match events with [] => st_ret tt | e :: rest => let@ _ := emit_live e in emit_live_each rest end.

(** ** Operations *)

Definition executeOperation (op : Operation) (input : Value) (callID : string) : St W EffectResult :=
  let@ (emitted, result) := ask_command (fun w => cv_Operation ce w op input callID) (fun r => OperationRan op input callID r.1 r.2) in
  let@ _ := emit_live_each emitted in
  st_ret (operationEffect result).
Definition silent_effect (result : OpResult) : EffectResult := mkEffectResult result (mkObservation emp emp emp (ContentValue VNil) ∅).
Definition applyOperation (ref : OpRef) (input : Value) (callID : string) : St W EffectResult :=
  match operation_to_run (cx_Surface cs) (cx_OperationCatalog cs) (cx_Operations cs) ref with
  | Ok op => executeOperation op input callID
  | Err (RunUnresolved e) => st_ret (operationEffect (Failed "operation_resolution_failed" (catalog_text e) {[ "operation"%string := VString (Ref_String ref) ]}))
  | Err RunRegistryMissing => st_ret (silent_effect (Failed "operation_registry_missing" "operation registry is nil" ∅))
  | Err RunNotFound => st_ret (silent_effect (Failed "operation_not_found" "operation not found" {[ "operation"%string := VString (Ref_String ref) ]}))
  end.
Definition applyBoundOperation (binding : CommandBinding) (fallback : OpRef) (input : Value) (callID : string) : St W EffectResult :=
  if negb (ID_IsZero (cb_OperationID binding)) && bool_decide (cx_OperationCatalog cs <> ∅) then
    match cx_OperationCatalog cs !! Address (cb_OperationID binding) with
    | Some bound => executeOperation (ob_Operation bound) input callID
    | None => st_ret (operationEffect (Failed "operation_not_bound" "command target operation is not bound to an implementation"
        {[ "operation" := VString (Ref_String fallback); "resource_id" := VString (Address (cb_OperationID binding)) ]}%string))
    end
  else applyOperation fallback input callID.
Definition no_operations : bool := match cx_Operations cs with None => bool_decide (cx_OperationCatalog cs = ∅) | Some _ => false end.
(** What commands and direct operations share: the request is recorded, the operation runs, its completion is recorded. *)
Definition run_operation (inbound : Inbound) (ref : OpRef) (input : Value) (apply : string -> St W EffectResult) : St W (Result ThreadError EffectResult) :=
  let callID := operationCallID (ib_ID inbound) 1 in
  let requested := OperationRequested (ib_ID inbound) callID ref input in
  let@ err := append_events [requested] in
  match err with
  | Some e => st_ret (Err e)
  | None =>
      let@ _ := emit_live requested in
      let@ effect := apply callID in
      let completed := OperationCompleted (ib_ID inbound) callID ref (ef_Result effect) in
      let@ err := append_events [completed; OutboundProduced (ib_ID inbound) (outboundMessageForOperationResult (ef_Result effect))] in
      match err with
      | Some e => st_ret (Err e)
      | None => let@ _ := emit_live completed in st_ret (Ok effect)
      end
  end.
Definition ExecuteInboundOperation (inbound : Inbound) : St W OperationOutcome :=
  let fail code msg := st_ret (operationFailed code msg) in
  match Inbound_Validate Invocation_Validate inbound with
  | Some e => fail "invalid_operation_inbound"%string (inbound_error_text e)
  | None =>
      match ib_Kind inbound, ib_Operation inbound with
      | InboundOperation, Some request =>
          if no_operations then fail "operation_registry_missing"%string "operation registry is nil"%string else
          let@ r := run_operation inbound (oi_Operation request) (oi_Input request) (applyOperation (oi_Operation request) (oi_Input request)) in
          st_ret match r with
          | Err e => operationFailed "thread_append_failed" (thread_text e)
          | Ok effect => mkOperationOutcome (IsError (ef_Result effect)) (Some (oi_Operation request)) (Some effect) None
          end
      | _, _ => fail "invalid_operation_inbound"%string "inbound envelope does not contain an operation"%string
      end
  end.

(** ** Targets of commands *)

Definition path_details cmd_spec : gmap string Value := {[ "path"%string := VString (Path_String (cs_Path cmd_spec)) ]}.
Definition done_result cmd_spec (evaluation : Evaluation) (output : Value) : CommandResult :=
  mkCommandResult CommandStatusOK (Some cmd_spec) (Some evaluation) None output None.
Definition renderSessionTargetInput cmd_spec command : string :=
  let path := Path_String (cs_Path cmd_spec) in
  let rest := match ci_Args command with
              | [] => match ci_Input command with VNil => path | input => default path (Marshal input) end
              | args => TrimSpace (Join args " ")
              end in
  match ci_Input command with VString text => if blank text then rest else TrimSpace text | _ => rest end.
Definition sessionTargetCreatedOutput (created : list CreatedTask) : string :=
  match last created with
  | None => emp
  | Some task =>
      let id := if decide (kt_ID task = emp) then kt_EventTaskID task else kt_ID task in
      let title := if blank (kt_Title task) then (if blank (kt_Objective task) then "task"%string else TrimSpace (kt_Objective task)) else TrimSpace (kt_Title task) in
      let status := if decide (kt_Status task = emp) then "draft"%string else kt_Status task in
      ("Created task " ++ id ++ ": " ++ title ++ " (status: " ++ status ++ ")")%string
  end.
Definition executeTargetSessionCommand inbound command cmd_spec (evaluation : Evaluation) : St W CommandResult :=
  let target := TrimSpace (tt_Session (cs_Target cmd_spec)) in
  if negb (cx_HasAgents cs) then
    st_ret (commandFailed "session_target_unavailable" "session-targeted command requires a session-agent runner" (path_details cmd_spec))
  else if decide (target = emp) then
    st_ret (commandFailed "session_target_empty" "session-targeted command target is empty" (path_details cmd_spec))
  else
    let task := renderSessionTargetInput cmd_spec command in
    let@ answer := ask_command (fun w => cv_Agent ce w target task)
      (fun r => AgentRan target task (match r with Ok a => Ok a.1 | Err e => Err e end)) in
    match answer with
    | Err e => st_ret (commandFailed "session_target_run_failed" e (<["session"%string := VString target]> (path_details cmd_spec)))
    | Ok (text, created) =>
        let output := if blank text then sessionTargetCreatedOutput created else TrimSpace text in
        let@ err := append_events [OutboundProduced (ib_ID inbound) (mkMessage (VString output) ∅)] in
        st_ret match err with
        | Some e => commandFailed "thread_append_failed" (thread_text e) ∅
        | None => done_result cmd_spec evaluation (VString output)
        end
    end.
Definition workflowCommandMessage (answer : WorkflowAnswer) : ChannelMessage :=
  mkMessage (if is_nil (wa_Output answer) then match wa_Error answer with Some e => VString (ce_Message e) | None => VString (wa_Text answer) end
             else wa_Output answer) ∅.
Definition executeWorkflowCommand inbound command (binding : CommandBinding) cmd_spec (evaluation : Evaluation) : St W CommandResult :=
  let@ answer := ask_command (fun w => cv_Workflow ce w (ci_Input command) (cb_TargetID binding) cmd_spec)
    (WorkflowRan (ci_Input command) (cb_TargetID binding)) in
  let@ err := append_events [OutboundProduced (ib_ID inbound) (workflowCommandMessage answer)] in
  st_ret match err with
  | Some e => commandFailed "thread_append_failed" (thread_text e) ∅
  | None => mkCommandResult (wa_Status answer) (Some cmd_spec) (Some evaluation) None (wa_Output answer) (wa_Error answer)
  end.
Definition promptCommandInputString (input : Value) : string :=
  match input with VString text => text | _ => default (SprintAny input) (MarshalIndent input) end.
Definition has_template (prompt : string) : bool := existsb (fun k => HasPrefix (String.substring k (String.length prompt - k) prompt) "{{") (seq 0 (String.length prompt)).
Definition line_break : string := String (ascii_of_nat 10) emp.
Definition renderPromptCommand cmd_spec command : Result string string :=
  let prompt := TrimSpace (tt_Prompt (cs_Target cmd_spec)) in
  let argument := Join (ci_Args command) " " in
  if decide (prompt = emp) then Err "prompt command target is empty"%string
  else if has_template prompt then
    match render_template prompt (mkPromptData (Path_String (cs_Path cmd_spec)) (ci_Args command) argument (ci_Input command)) with
    | Ok text => Ok (TrimSpace text)
    | Err e => Err e
    end
  else match ci_Args command, ci_Input command with
       | [], VNil => Ok prompt
       | args, input =>
           let with_args := match args with [] => prompt | _ => (prompt ++ line_break ++ line_break ++ "Arguments:" ++ line_break ++ argument)%string end in
           let with_input := match input with
                             | VNil => with_args
                             | _ => (with_args ++ line_break ++ line_break ++ "Input:" ++ line_break ++ promptCommandInputString input)%string
                             end in
           Ok (TrimSpace with_input)
       end.
Definition commandStatusForInput (result : InputResult) : CommandStatus :=
  match ir_Status result with
  | InputStatusOK => CommandStatusOK
  | InputStatusUnsupported => CommandStatusUnsupported
  | InputStatusFailed => CommandStatusFailed
  end.
Definition promptCommandOutput (result : InputResult) : Value :=
  match ir_Outbound result with
  | Some outbound => ms_Content (ou_Message outbound)
  | None => match de_Message (gs_Decision (ir_Agent result)) with Some message => am_Content message | None => VNil end
  end.
(** The envelope of the message a prompt becomes. *)
Definition prompt_inbound inbound cmd_spec (content : string) : Inbound :=
  mkInbound (ib_ID inbound) (ib_Channel inbound) (ib_Conversation inbound) (ib_Authority inbound) InboundMessage
    (Some (mkMessage (VString content) {[ "command" := VString (Path_String (cs_Path cmd_spec)); "target" := VString "prompt" ]}%string))
    None (ib_CommandLine inbound) (ib_Operation inbound) (ib_Event inbound) (ib_Trigger inbound).

Context (fuel : nat) (replay : Replay (Active := Active) (ReactionRest := ReactionRest) (Assertion := Assertion)).
(** [None]: the fuel of the turn is used up. *)
Definition executePromptCommand inbound command cmd_spec (evaluation : Evaluation) : St W (option CommandResult) :=
  match renderPromptCommand cmd_spec command with
  | Err e => st_ret (Some (commandFailed "prompt_command_render_failed" e (path_details cmd_spec)))
  | Ok content =>
      let@ r := in_session (executeInboundInput (cv_Session ce) (cx_Session cs) Invocation_Validate fuel replay
                  (prompt_inbound inbound cmd_spec content) (mkInputOptions emp 0)) in
      st_ret ((fun result => mkCommandResult (commandStatusForInput result) (Some cmd_spec) (Some evaluation) None (promptCommandOutput result) (ir_Error result)) <$> r)
  end.

(** ** Commands *)

Definition target_text (kind : TargetKind) : string :=
  match kind with
  | NoTarget => emp | TargetOperation => "operation" | TargetWorkflow => "workflow" | TargetAgent => "agent" | TargetSession => "session"
  | TargetMessage => "message" | TargetPrompt => "prompt" | OtherTargetKind kind => kind
  end.
(** A command that was accepted, with its specification as the result shows it. *)
Definition dispatch_target inbound command (r : resolvedCommand) cmd_spec (evaluation : Evaluation) : St W (option CommandResult) :=
  let ran (m : St W CommandResult) : St W (option CommandResult) := let@ result := m in st_ret (Some result) in
  match tt_Kind (cs_Target cmd_spec) with
  | TargetSession =>
      match rc_SessionHandler r with
      | None => ran (executeTargetSessionCommand inbound command cmd_spec evaluation)
      | Some handler => ran (ask_command (fun w => cv_Handler ce w handler inbound cmd_spec evaluation) (HandlerRan handler))
      end
  | TargetWorkflow => ran (executeWorkflowCommand inbound command (rc_Binding r) cmd_spec evaluation)
  | TargetPrompt => executePromptCommand inbound command cmd_spec evaluation
  | TargetOperation =>
      if no_operations then st_ret (Some (commandFailed "command_registry_missing" "command registry is nil" ∅)) else
      let ref := tt_Operation (cs_Target cmd_spec) in
      let@ answer := run_operation inbound ref (ci_Input command) (applyBoundOperation (rc_Binding r) ref (ci_Input command)) in
      st_ret (Some match answer with
      | Err e => commandFailed "thread_append_failed" (thread_text e) ∅
      | Ok effect => mkCommandResult (if IsError (ef_Result effect) then CommandStatusFailed else CommandStatusOK) (Some cmd_spec) (Some evaluation)
                       (Some effect) VNil None
      end)
  | kind =>
      st_ret (Some (mkCommandResult CommandStatusUnsupported (Some cmd_spec) (Some evaluation) None VNil
        (Some (mkCommandError "unsupported_command_target" "command target is not supported by session command dispatch yet"
                 {[ "target"%string := VString (target_text kind) ]}))))
  end.
Definition with_path cmd_spec command : CommandSpec :=
  if decide (Path_String (cs_Path cmd_spec) = emp)
  then mkCommandSpec (ci_Path command) (cs_Description cmd_spec) (cs_Target cmd_spec) (cs_Input cmd_spec) (cs_Output cmd_spec)
         (cs_Policy cmd_spec) (cs_Annotations cmd_spec)
  else cmd_spec.
Definition evaluate inbound cmd_spec : Evaluation :=
  EvaluateInvocation (cs_Policy cmd_spec) (caller_of (ib_Authority inbound)) (trust_of (ib_Authority inbound)).
Definition refused (status : CommandStatus) inbound command cmd_spec (evaluation : Evaluation) : St W (option CommandResult) :=
  let@ _ := append_events [CommandRejected (ib_ID inbound) command (ev_Reason evaluation)] in
  st_ret (Some (mkCommandResult status (Some cmd_spec) (Some evaluation) None VNil None)).
(** The profile of the session hides the command. *)
Definition hidden command (r : option resolvedCommand) : bool :=
  match cx_Allowed cs with
  | None => false
  | Some allowed => negb (match r with Some r => is_some (rc_SessionHandler r) | None => false end) && negb (commandPathAllowed allowed (ci_Path command))
  end.
Definition command_details command : gmap string Value := {[ "path"%string := VString (Path_String (ci_Path command)) ]}.
Definition not_found command : CommandResult :=
  commandFailed "command_not_found" ("command " ++ Path_String (ci_Path command) ++ " not found")%string (command_details command).
Definition run_command inbound command : St W (option CommandResult) :=
  let fail result := st_ret (Some result) in
  match resolveCommand (ci_Path command) (cx_Sources cs) with
  | Err e => fail (commandFailed "command_resolution_failed" (resolve_text e) (command_details command))
  | Ok r =>
      if hidden command r then fail (not_found command) else
      let@ err := append_events [CommandReceived (ib_ID inbound) command (ib_Channel inbound) (ib_Conversation inbound) (ib_Authority inbound)] in
      match err with
      | Some e => fail (commandFailed "thread_append_failed" (thread_text e) ∅)
      | None =>
          match r with
          | None =>
              if negb (is_some (cu_Registry (cx_Sources cs))) && bool_decide (cu_Catalog (cx_Sources cs) = ∅)
              then fail (commandFailed "command_registry_missing" "command registry is nil" ∅) else fail (not_found command)
          | Some r =>
              let cmd_spec := with_path (cb_Spec (rc_Binding r)) command in
              let evaluation := evaluate inbound cmd_spec in
              match ev_Decision evaluation with
              | DecisionDeny => refused CommandStatusRejected inbound command cmd_spec evaluation
              | DecisionApprovalRequired => refused CommandStatusApprovalRequired inbound command cmd_spec evaluation
              | _ => dispatch_target inbound command r cmd_spec evaluation
              end
          end
      end
  end.
(** The line of the envelope stays. *)
Definition with_command inbound command : Inbound :=
  mkInbound (ib_ID inbound) (ib_Channel inbound) (ib_Conversation inbound) (ib_Authority inbound) (ib_Kind inbound) (ib_Message inbound)
    (Some command) (ib_CommandLine inbound) (ib_Operation inbound) (ib_Event inbound) (ib_Trigger inbound).
Definition ExecuteInboundCommand inbound : St W (option CommandResult) :=
  let fail code msg details := st_ret (Some (commandFailed code msg details)) in
  match Inbound_Validate Invocation_Validate inbound with
  | Some e => fail "invalid_command_inbound"%string (inbound_error_text e) ∅
  | None =>
      if negb (bool_decide (ib_Kind inbound = InboundCommand))
      then fail "invalid_command_inbound"%string "inbound envelope does not contain a command"%string ∅ else
      match ib_Command inbound with
      | Some command => run_command inbound command
      | None =>
          match ParseCommandLine (ib_CommandLine inbound) (cx_Sources cs) with
          | Err e => fail "invalid_command_line"%string (command_line_text e) {[ "line"%string := VString (ib_CommandLine inbound) ]}
          | Ok command => run_command (with_command inbound command) command
          end
      end
  end.

(** ** What a command runs *)

(** Appends and live events; everything else is the work of a command. *)
Definition quiet (c : Call) : Prop := match c with Appended _ _ | LiveEvent _ => True | _ => False end.
Definition idle (c : CommandCall) : Prop := match c with InSession c => quiet c | _ => False end.
Definition any (c : Call) : Prop := True.
Abbreviation thread_id := (ref_ID (ss_Thread (cx_Session cs))).
(** With a thread, an append that succeeded has written the event. *)
Definition written (e : SessionEvent) (before : W) : Prop := threaded (cx_Session cs) = true ->
  exists records, InSession (Appended records None) ∈ before /\ session_record thread_id e ∈ records.
(** The command was asked for, is one the session has and shows, and its policy lets the caller run it. *)
Record accepted inbound command (r : resolvedCommand) : Prop := {
  ac_valid : Inbound_Validate Invocation_Validate inbound = None /\ ib_Kind inbound = InboundCommand;
  ac_asked : ib_Command inbound = Some command \/ ib_Command inbound = None /\ ParseCommandLine (ib_CommandLine inbound) (cx_Sources cs) = Ok command;
  ac_resolved : resolveCommand (ci_Path command) (cx_Sources cs) = Ok (Some r);
  ac_shown : forall allowed, cx_Allowed cs = Some allowed ->
    rc_SessionHandler r <> None \/ exists candidate, candidate ∈ allowed /\ Path_String candidate = Path_String (ci_Path command);
  ac_policy : let decision := ev_Decision (evaluate inbound (cb_Spec (rc_Binding r))) in decision <> DecisionDeny /\ decision <> DecisionApprovalRequired
}.
(** The operation the application has bound the command to, or what its reference means in the session. *)
Definition target_operation (r : resolvedCommand) (op : Operation) : Prop :=
  (exists bound, cx_OperationCatalog cs !! Address (cb_OperationID (rc_Binding r)) = Some bound /\ ob_Operation bound = op) \/
  operation_to_run (cx_Surface cs) (cx_OperationCatalog cs) (cx_Operations cs) (tt_Operation (cs_Target (cb_Spec (rc_Binding r)))) = Ok op.
Definition ran_for inbound command (r : resolvedCommand) (before : W) (c : CommandCall) : Prop :=
  match c with
  | HandlerRan handler _ => rc_SessionHandler r = Some handler
  | OperationRan op input callID _ _ => target_operation r op /\ input = ci_Input command /\
      written (OperationRequested (ib_ID inbound) callID (tt_Operation (cs_Target (cb_Spec (rc_Binding r)))) input) before
  | AgentRan target task _ => target = TrimSpace (tt_Session (cs_Target (cb_Spec (rc_Binding r))))
  | WorkflowRan input target _ => input = ci_Input command /\ target = cb_TargetID (rc_Binding r)
  | InSession _ => tt_Kind (cs_Target (cb_Spec (rc_Binding r))) = TargetPrompt
  end.
Definition received inbound command : SessionEvent :=
  CommandReceived (ib_ID inbound) command (ib_Channel inbound) (ib_Conversation inbound) (ib_Authority inbound).
Definition guarded inbound command (r : resolvedCommand) (w : W) : Prop := forall before c after, w = before ++ c :: after -> ~ idle c ->
  written (received inbound command) before /\ ran_for inbound command r before c.
(** The state in which an accepted command is carried out. *)
Definition carried_out inbound command (r : resolvedCommand) (w : W) : Prop := written (received inbound command) w /\ guarded inbound command r w.

Lemma written_longer e w l : written e w -> written e (w ++ l).
Proof. intros H Ht. destruct (H Ht) as (records & Hin & Hr). exists records. split; [|done]. apply elem_of_app. by left. Qed.
Lemma guarded_snoc inbound command r w c : guarded inbound command r w ->
  (~ idle c -> written (received inbound command) w /\ ran_for inbound command r w c) -> guarded inbound command r (w ++ [c]).
Proof.
  intros Hg Hc before c' after E Hi. destruct after as [|x after _] using rev_ind.
  - apply app_inj_tail in E as [-> ->]. by apply Hc.
  - rewrite app_comm_cons, app_assoc in E. apply app_inj_tail in E as [-> _]. by eapply Hg.
Qed.
Lemma guarded_app inbound command r w l : carried_out inbound command r w ->
  Forall (fun c => ~ idle c -> forall before, ran_for inbound command r before c) l -> carried_out inbound command r (w ++ l).
Proof.
  intros Hw H. revert w Hw. induction H as [|c l Hc H IH]; intros w [Hr Hg]; [by rewrite app_nil_r|].
  rewrite (app_assoc w [c] l : w ++ c :: l = _). apply IH. split; [by apply written_longer|]. apply guarded_snoc; auto.
Qed.

(** ** Parts of a turn *)

Lemma in_session_log {A} (P : Call -> Prop) (m : St Turn A) w : moves (grows P) m ->
  exists l, (in_session m w).2 = w ++ map InSession l /\ Forall P l.
Proof.
  intros H. unfold in_session. specialize (H (start_turn (cx_Session cs) (session_calls w))). destruct (m _) as [a t].
  destruct H as (l & E & Hl). cbn in E. exists l. split; [|done]. cbn [snd]. by rewrite E, drop_app_length.
Qed.
Lemma in_session_carried {A} (P : Call -> Prop) (m : St Turn A) inbound command r : moves (grows P) m ->
  (forall c, P c -> ~ quiet c -> tt_Kind (cs_Target (cb_Spec (rc_Binding r))) = TargetPrompt) ->
  triple (carried_out inbound command r) (in_session m) (fun _ => carried_out inbound command r).
Proof.
  intros Hm HP w Hw. destruct (in_session_log P m w Hm) as (l & -> & Hl). apply guarded_app; [done|].
  apply Forall_forall. intros c (c' & -> & Hc')%list_elem_of_fmap Hi before. rewrite Forall_forall in Hl. by apply (HP c' (Hl _ Hc')).
Qed.
#[local] Hint Extern 1 (moves (grows quiet) (emitLive _)) => (apply note_grows; done) : moves.
Lemma retry_quiet attempts last records : moves (grows quiet) (retry_append (cv_Session ce) attempts last records).
Proof.
  revert last. induction attempts as [|n IH]; intros last; cbn [retry_append]; [apply moves_ret, _|].
  apply moves_bind; [apply _|by apply ask_grows|]. intros [e|]; [|apply moves_ret, _]. destruct (thread_conflict e); [apply IH|apply moves_ret, _].
Qed.
Lemma append_quiet events : moves (grows quiet) (appendThreadEvents (cv_Session ce) (cx_Session cs) events).
Proof.
  unfold appendThreadEvents, appendThreadRecords. destruct (_ || _); [apply moves_ret, _|]. destruct (_ || _); [apply moves_ret, _|apply retry_quiet].
Qed.
Lemma retry_written attempts last records : (attempts <> 0 \/ last <> None) ->
  triple (fun _ => True) (retry_append (cv_Session ce) attempts last records) (fun err t => err = None -> Appended records None ∈ tu_Log t).
Proof.
  revert last. induction attempts as [|n IH]; intros last Hl; cbn [retry_append]; [apply triple_ret; intros w _ ->; naive_solver|].
  eapply triple_bind with (R := fun err t => err = None -> Appended records None ∈ tu_Log t).
  { intros t _ E. cbn in E |- *. rewrite E. apply elem_of_app. right. by left. }
  intros [e|]; [|apply triple_ret; auto]. destruct (thread_conflict e); [|by apply triple_ret].
  eapply triple_pre; [apply IH; by right|done].
Qed.
Lemma append_written events w : (append_events events w).1 = None -> Forall (fun e => written e (append_events events w).2) events.
Proof.
  intros Hn. apply Forall_forall. intros e He Ht. unfold append_events, in_session in *.
  assert (H : triple (fun _ => True) (appendThreadEvents (cv_Session ce) (cx_Session cs) events)
    (fun err t => err = None -> Appended (ThreadAppendRecords thread_id events) None ∈ tu_Log t)).
  { unfold appendThreadEvents, appendThreadRecords. rewrite Ht. destruct events; [by apply not_elem_of_nil in He|]. cbn [negb orb ThreadAppendRecords map].
    apply retry_written. by left. }
  specialize (H (start_turn (cx_Session cs) (session_calls w)) I). pose proof (append_quiet events (start_turn (cx_Session cs) (session_calls w))) as Hq.
  destruct (appendThreadEvents _ _ _ _) as [err t]. cbn [fst snd] in *. specialize (H Hn). destruct Hq as (l & E & _). cbn in E.
  exists (ThreadAppendRecords thread_id events). rewrite E in H |- *. rewrite drop_app_length. split; [|by apply list_elem_of_fmap_2].
  apply elem_of_app in H as [H|H]; apply elem_of_app; [left|right; by apply list_elem_of_fmap_2].
  unfold session_calls in H. apply list_elem_of_omap in H as (c & Hc & Ec). by destruct c; [injection Ec as ->|..].
Qed.

(** ** The steps of a command *)

Lemma append_carried events inbound command r : triple (carried_out inbound command r) (append_events events) (fun _ => carried_out inbound command r).
Proof. apply (in_session_carried quiet); [apply append_quiet|by intros c Hc []]. Qed.
Lemma live_carried e inbound command r : triple (carried_out inbound command r) (emit_live e) (fun _ => carried_out inbound command r).
Proof. apply (in_session_carried quiet); [by apply note_grows|by intros c Hc []]. Qed.
Lemma all_live_carried events inbound command r : triple (carried_out inbound command r) (emit_live_each events) (fun _ => carried_out inbound command r).
Proof. induction events as [|e events IH]; cbn [emit_live_each]; [by apply triple_ret|]. eapply triple_bind; [apply live_carried|]. intros ?. exact IH. Qed.
(** A call that a command may make where it has come to. *)
Lemma ask_carried {A} (answer : W -> A) (entry : A -> CommandCall) inbound command r (P : W -> Prop) :
  (forall w a, carried_out inbound command r w -> P w -> ran_for inbound command r w (entry a)) ->
  triple (fun w => carried_out inbound command r w /\ P w) (ask_command answer entry) (fun _ => carried_out inbound command r).
Proof.
  intros H w [[Hr Hg] Hp]. unfold ask_command. cbn. split; [by apply written_longer|]. apply guarded_snoc; [done|]. intros _. split; [done|]. by apply H.
Qed.
Lemma ask_carried_always {A} (answer : W -> A) (entry : A -> CommandCall) inbound command r :
  (forall w a, ran_for inbound command r w (entry a)) ->
  triple (carried_out inbound command r) (ask_command answer entry) (fun _ => carried_out inbound command r).
Proof. intros H. eapply triple_pre; [apply (ask_carried answer entry inbound command r (fun _ => True)); auto|]. done. Qed.

Section Accepted.
Context (inbound : Inbound) (command : CommandInvocation) (r : resolvedCommand).
Abbreviation carried := (carried_out inbound command r).
Abbreviation target := (cs_Target (cb_Spec (rc_Binding r))).
Definition request_written (callID : string) (w : W) : Prop :=
  written (OperationRequested (ib_ID inbound) callID (tt_Operation target) (ci_Input command)) w.

Lemma executeOperation_carried op callID : target_operation r op ->
  triple (fun w => carried w /\ request_written callID w) (executeOperation op (ci_Input command) callID) (fun _ => carried).
Proof.
  intros Hop. unfold executeOperation. eapply triple_bind; [apply ask_carried; intros w a Hc Hq; by split_and!|].
  intros [emitted result]. eapply triple_bind; [apply all_live_carried|]. intros ?. by apply triple_ret.
Qed.
Lemma applyOperation_carried callID :
  triple (fun w => carried w /\ request_written callID w) (applyOperation (tt_Operation target) (ci_Input command) callID) (fun _ => carried).
Proof.
  unfold applyOperation. destruct (operation_to_run _ _ _ _) as [op|[e| |]] eqn:E; [|by apply triple_ret; intros w []..].
  apply executeOperation_carried. by right.
Qed.
Lemma applyBoundOperation_carried callID :
  triple (fun w => carried w /\ request_written callID w) (applyBoundOperation (rc_Binding r) (tt_Operation target) (ci_Input command) callID) (fun _ => carried).
Proof.
  unfold applyBoundOperation. destruct (_ && _); [|apply applyOperation_carried].
  destruct (cx_OperationCatalog cs !! _) as [bound|] eqn:E; [|by apply triple_ret; intros w []].
  apply executeOperation_carried. left. by exists bound.
Qed.
Lemma run_operation_carried apply :
  (forall callID, triple (fun w => carried w /\ request_written callID w) (apply callID) (fun _ => carried)) ->
  triple carried (run_operation inbound (tt_Operation target) (ci_Input command) apply) (fun _ => carried).
Proof.
  intros H. unfold run_operation. cbv zeta.
  eapply triple_bind with (R := fun err w => carried w /\ (err = None -> request_written (operationCallID (ib_ID inbound) 1) w)).
  { intros w Hw. split; [by apply append_carried|]. intros Hn. by apply append_written, Forall_cons in Hn as [Hn _]. }
  intros [e|]; [apply triple_ret; by intros w []|].
  eapply triple_bind with (R := fun _ w => carried w /\ request_written (operationCallID (ib_ID inbound) 1) w).
  { intros w [Hw Hq]. split; [by apply live_carried|]. unfold emit_live.
    match goal with |- context [emitLive ?e] => destruct (in_session_log quiet (emitLive e) w) as (l & -> & _); [by apply note_grows|] end.
    apply written_longer. by apply Hq. }
  intros ?. eapply triple_bind; [apply H|]. intros effect. eapply triple_bind; [apply append_carried|]. intros [e|]; [by apply triple_ret|].
  eapply triple_bind; [apply live_carried|]. intros ?. by apply triple_ret.
Qed.

Context (cmd_spec : CommandSpec) (evaluation : Evaluation) (Hspec : cs_Target cmd_spec = target).
Lemma target_session_carried : triple carried (executeTargetSessionCommand inbound command cmd_spec evaluation) (fun _ => carried).
Proof.
  unfold executeTargetSessionCommand. destruct (negb _); [by apply triple_ret|]. case_decide; [by apply triple_ret|].
  eapply triple_bind; [apply ask_carried_always; intros w a; cbn; by rewrite Hspec|]. intros [[text created]|e]; [|by apply triple_ret].
  eapply triple_bind; [apply append_carried|]. intros err. by apply triple_ret.
Qed.
Lemma workflow_carried : triple carried (executeWorkflowCommand inbound command (rc_Binding r) cmd_spec evaluation) (fun _ => carried).
Proof.
  unfold executeWorkflowCommand. eapply triple_bind; [by apply ask_carried_always|]. intros answer.
  eapply triple_bind; [apply append_carried|]. intros err. by apply triple_ret.
Qed.
(** A turn only calls what a turn calls. *)
Lemma any_grows {A} (m : St Turn A) : moves (grows SessionBounds.plain) m -> moves (grows any) m.
Proof. by apply grows_weaken. Qed.
#[local] Hint Extern 2 (moves (grows any) (ask_emitting _ _ _)) => (apply ask_emitting_grows; done) : moves.
#[local] Hint Extern 3 (moves (grows any) _) => apply any_grows : moves.
Lemma apply_requests_any run tools start i requests active batch :
  moves (grows any) (apply_requests (cv_Session ce) (cx_Session cs) run tools start i requests active batch).
Proof. revert i active batch. induction requests as [|q requests IH]; intros i active batch; cbn [apply_requests]; unfold applyProjectedOperation; moves_tac. Qed.
Lemma run_checks_any run start checks effects : moves (grows any) (run_checks (cv_Session ce) (cx_Session cs) run start checks effects).
Proof. revert effects. induction checks as [|[c p] checks IH]; intros effects; cbn [run_checks]; moves_tac. Qed.
#[local] Hint Resolve apply_requests_any run_checks_any : moves.
Lemma turn_step_any inp l : moves (grows any) (turn_step (cv_Session ce) (cx_Session cs) inp l).
Proof. unfold turn_step, SessionLoop.requested, applyAgentOperations, applyPostEditChecks. moves_tac. Qed.
#[local] Hint Resolve turn_step_any : moves.
Lemma steps_loop_any inp n l : moves (grows any) (steps_loop (cv_Session ce) (cx_Session cs) inp n l).
Proof. revert l. induction n as [|n IH]; intros l; cbn [steps_loop]; moves_tac. Qed.
#[local] Hint Resolve steps_loop_any : moves.
Lemma outer_loop_any fuel' i opts history continuation o : moves (grows any) (outer_loop (cv_Session ce) (cx_Session cs) fuel' i opts history continuation o).
Proof. revert continuation o. induction fuel' as [|n IH]; intros continuation o; cbn [outer_loop]; unfold outer_turn, runInnerTurn; moves_tac. Qed.
#[local] Hint Resolve outer_loop_any : moves.
Lemma input_any invalid i opts : moves (grows any) (executeInboundInput (cv_Session ce) (cx_Session cs) invalid fuel replay i opts).
Proof. unfold executeInboundInput. moves_tac. Qed.
Lemma prompt_carried : tt_Kind target = TargetPrompt -> triple carried (executePromptCommand inbound command cmd_spec evaluation) (fun _ => carried).
Proof.
  intros Hk. unfold executePromptCommand. destruct (renderPromptCommand _ _) as [content|e]; [|by apply triple_ret].
  eapply triple_bind; [apply (in_session_carried any); [apply input_any|done]|]. intros result. by apply triple_ret.
Qed.
Lemma dispatch_carried : triple carried (dispatch_target inbound command r cmd_spec evaluation) (fun _ => carried).
Proof.
  unfold dispatch_target. cbv zeta. rewrite Hspec. destruct (tt_Kind target) eqn:Ek; try by apply triple_ret.
  - destruct no_operations; [by apply triple_ret|]. eapply triple_bind; [apply run_operation_carried, applyBoundOperation_carried|].
    intros answer. by apply triple_ret.
  - eapply triple_bind; [apply workflow_carried|]. intros result. by apply triple_ret.
  - destruct (rc_SessionHandler r) as [handler|] eqn:Eh.
    + eapply triple_bind; [by apply ask_carried_always|]. intros result. by apply triple_ret.
    + eapply triple_bind; [apply target_session_carried|]. intros result. by apply triple_ret.
  - by apply prompt_carried.
Qed.
End Accepted.

(** ** Commands *)

Lemma append_idle events w : Forall idle w -> Forall idle (append_events events w).2.
Proof.
  intros Hw. unfold append_events. destruct (in_session_log quiet _ w (append_quiet events)) as (l & -> & Hl).
  apply Forall_app. split; [done|]. apply Forall_forall. intros c (c' & -> & Hc)%list_elem_of_fmap. rewrite Forall_forall in Hl. by apply Hl.
Qed.
Lemma idle_guarded inbound command r w : Forall idle w -> guarded inbound command r w.
Proof. intros Hw before c after -> Hi. apply Forall_app in Hw as [_ Hw]. by apply Forall_cons in Hw as [Hc _]. Qed.
Lemma hidden_shown command r : hidden command (Some r) = false -> forall allowed, cx_Allowed cs = Some allowed ->
  rc_SessionHandler r <> None \/ exists candidate, candidate ∈ allowed /\ Path_String candidate = Path_String (ci_Path command).
Proof.
  unfold hidden. intros H allowed E. rewrite E in H. destruct (rc_SessionHandler r) as [handler|]; [by left|right]. cbn in H.
  apply negb_false_iff in H. unfold commandPathAllowed in H. case_decide; [done|]. apply existsb_exists in H as (candidate & Hin & Ec%bool_decide_eq_true).
  exists candidate. by rewrite list_elem_of_In.
Qed.
(** Nothing has run, or an accepted command is carried out. *)
Definition outcome inbound (w : W) : Prop := Forall idle w \/ exists command r, accepted inbound command r /\ carried_out inbound command r w.
Lemma refused_idle status inbound command cmd_spec evaluation w : Forall idle w -> Forall idle (refused status inbound command cmd_spec evaluation w).2.
Proof.
  intros Hw. unfold refused, st_bind. pose proof (append_idle [CommandRejected (ib_ID inbound) command (ev_Reason evaluation)] w Hw) as H.
  by destruct (append_events _ w).
Qed.
Lemma with_path_same cmd_spec command : cs_Target (with_path cmd_spec command) = cs_Target cmd_spec /\ cs_Policy (with_path cmd_spec command) = cs_Policy cmd_spec.
Proof. unfold with_path. by case_decide. Qed.
Lemma run_command_outcome inbound full command :
  Inbound_Validate Invocation_Validate inbound = None -> ib_Kind inbound = InboundCommand ->
  (ib_Command inbound = Some command \/ ib_Command inbound = None /\ ParseCommandLine (ib_CommandLine inbound) (cx_Sources cs) = Ok command) ->
  full = inbound \/ full = with_command inbound command -> outcome inbound (run_command full command []).2.
Proof.
  intros Hv Hk Ha Hfull. assert (Hrec : received full command = received inbound command) by (by destruct Hfull as [->| ->]).
  assert (Hout : forall r w, carried_out full command r w -> carried_out inbound command r w) by (intros r w; by destruct Hfull as [->| ->]).
  unfold run_command. destruct (resolveCommand _ _) as [r|e] eqn:Er; [|by left]. destruct (hidden command r) eqn:Eh; [by left|]. cbv zeta.
  fold (received full command). unfold st_bind at 1. pose proof (append_idle [received full command] [] (Forall_nil_2 _)) as Hi.
  pose proof (append_written [received full command] []) as Hw. destruct (append_events _ []) as [[e|] w]; [by left|]. cbn [fst snd] in Hi, Hw.
  destruct r as [r|]; [|by destruct (_ && _); left]. destruct (with_path_same (cb_Spec (rc_Binding r)) command) as [Ht Hp].
  assert (He : evaluate full (with_path (cb_Spec (rc_Binding r)) command) = evaluate inbound (cb_Spec (rc_Binding r))).
  { unfold evaluate. rewrite Hp. by destruct Hfull as [->| ->]. }
  assert (Hd : ev_Decision (evaluate inbound (cb_Spec (rc_Binding r))) <> DecisionDeny /\ ev_Decision (evaluate inbound (cb_Spec (rc_Binding r))) <> DecisionApprovalRequired ->
    outcome inbound (dispatch_target full command r (with_path (cb_Spec (rc_Binding r)) command) (evaluate full (with_path (cb_Spec (rc_Binding r)) command)) w).2).
  { intros Hd. right. exists command, r. split; [split; auto using hidden_shown|]. apply Hout. apply dispatch_carried; [done|]. split; [|by apply idle_guarded].
    specialize (Hw eq_refl). by apply Forall_cons in Hw as [? _]. }
  rewrite He. destruct (ev_Decision (evaluate inbound (cb_Spec (rc_Binding r)))) eqn:Ed; try (left; by apply refused_idle); rewrite <- He; by apply Hd.
Qed.

(** C37: Whatever a command's envelope, the catalogs of the session and everything it calls: when anything runs in the
    course of a command - a handler of the session, an operation, a workflow, a session agent, a turn of the agent - then
    the envelope is valid, the command it names or its line stands for is one the session has and its profile shows, the
    policy of the command neither denied it nor wanted an approval, the command was recorded in the thread before, and
    what runs is the target of the command; an operation runs on the input of the command after its request was recorded. *)
Theorem commands_gated inbound before c after :
  (ExecuteInboundCommand inbound []).2 = before ++ c :: after -> ~ idle c ->
  exists command r, accepted inbound command r /\ written (received inbound command) before /\ ran_for inbound command r before c.
Proof.
  intros E Hi. assert (H : outcome inbound (ExecuteInboundCommand inbound []).2).
  { unfold ExecuteInboundCommand. destruct (Inbound_Validate _ _) eqn:Ev; [by left|].
    destruct (bool_decide (ib_Kind inbound = InboundCommand)) eqn:Ek; [|by left]. apply bool_decide_eq_true in Ek. cbn [negb].
    destruct (ib_Command inbound) as [command|] eqn:Ec; [apply run_command_outcome; auto|].
    destruct (ParseCommandLine _ _) as [command|e] eqn:Ep; [|by left]. apply run_command_outcome; auto. }
  rewrite E in H. destruct H as [H|(command & r & Ha & _ & Hg)].
  - apply Forall_app in H as [_ H]. by apply Forall_cons in H as [Hc _].
  - exists command, r. split; [done|]. by apply (Hg before c after).
Qed.

(** ** Commands end *)

Lemma ends_st {A B} (m : St W A) (k : A -> St W (option B)) : (forall a, returns (k a) is_Some) -> returns (st_bind m k) is_Some.
Proof. intros H. eapply returns_bind; [apply returns_true|]. intros a _. apply H. Qed.
Lemma some_st {A} (a : A) : returns (st_ret (W := W) (Some a)) is_Some.
Proof. apply returns_ret. by eexists. Qed.
(** With more fuel than the continuations an agent is allowed, every command has a result. *)
Lemma command_ends inbound : reads_stored (cv_Session ce) -> (continuation_bound (cx_Session cs) (mkInputOptions emp 0) < Z.of_nat fuel)%Z ->
  returns (ExecuteInboundCommand inbound) is_Some.
Proof.
  intros Hreads Hfuel.
  assert (Hd : forall i command r cmd_spec evaluation, returns (dispatch_target i command r cmd_spec evaluation) is_Some).
  { intros i command r cmd_spec evaluation. unfold dispatch_target. destruct (tt_Kind _); try apply some_st.
    - destruct no_operations; [apply some_st|]. apply ends_st. intros a. apply some_st.
    - apply ends_st. intros a. apply some_st.
    - destruct (rc_SessionHandler r); apply ends_st; intros a; apply some_st.
    - unfold executePromptCommand. destruct (renderPromptCommand _ _) as [content|e]; [|apply some_st].
      eapply returns_bind with (P := is_Some); [|intros a [result ->]; apply some_st].
      intros w. unfold in_session. pose proof (input_ends (cv_Session ce) (cx_Session cs) Invocation_Validate fuel replay
        (prompt_inbound i cmd_spec content) (mkInputOptions emp 0) Hreads Hfuel (start_turn (cx_Session cs) (session_calls w))) as H.
      by destruct (executeInboundInput _ _ _ _ _ _ _ _) as [a t]. }
  assert (Hr : forall i command, returns (run_command i command) is_Some).
  { intros i command. unfold run_command. destruct (resolveCommand _ _) as [r|e]; [|apply some_st]. destruct (hidden _ _); [apply some_st|].
    apply ends_st. intros [e|]; [apply some_st|]. destruct r as [r|]; [|destruct (_ && _); apply some_st].
    destruct (ev_Decision _); try apply Hd; apply ends_st; intros a; apply some_st. }
  unfold ExecuteInboundCommand. destruct (Inbound_Validate _ _); [apply some_st|]. destruct (negb _); [apply some_st|].
  destruct (ib_Command inbound); [apply Hr|]. destruct (ParseCommandLine _ _); [apply Hr|apply some_st].
Qed.
End Dispatch.

(** * Commands on concrete inputs

    An application with commands for an operation, a path of two segments and a prompt; lines and envelopes, and what
    becomes of them. *)

From S2P Require Import Executor MemStore GoalRaces Threads ProjectedTools.

Module CommandDemo.
Import OpDemo.
Export DemoApi.
#[export] Existing Instances CatalogDemo.invocations CatalogDemo.names.
#[export] Existing Instances SessionDemo.demo_json SessionDemo.demo_renderable SessionDemo.demo_texts SessionDemo.demo_data.
#[export] Existing Instances GoalDemo.goal_lower GoalDemo.goal_texts.
#[export] Instance built_ins : BuiltInModule := { VerifiedPolicy := DecisionAllow; UntrustedPolicy := DecisionAllow; TypeOf name _ := mkOpType name (mkSchema emp emp) }.
#[export] Instance sprint : SprintModule := { SprintAny _ := "value"%string }.
#[export] Instance command_texts : CommandTexts := { command_line_text _ := "line"%string; resolve_text _ := "resolution"%string; catalog_text _ := "catalog"%string }.
#[export] Instance authority : InboundAuthority := { caller_of text := mkCaller "user" text; trust_of _ := mkTrustClaim "invocation" "verified" }.
#[export] Instance prompts : PromptModule := { Marshal _ := None; MarshalIndent _ := None; render_template text _ := Ok text }.

(** ** The application *)

Definition allow : InvocationPolicy := DecisionAllow.
Definition echo_command (path : list string) (decision : InvocationPolicy) : CommandSpec :=
  mkCommandSpec path "returns its input" (CatalogDemo.target "echo") no_type no_type decision ∅.
Definition review : CommandSpec :=
  mkCommandSpec ["review"]%string "reviews" (mkToolTarget TargetPrompt (mkOpRef emp) emp emp emp emp "Review the changes." VNil) no_type no_type allow ∅.
Definition contributed : list CommandSpec := [echo_command ["echo"] allow; echo_command ["fs"; "say"] allow; echo_command ["secret"] DecisionDeny; review]%string.
Definition collected := collectCommands [(CatalogDemo.project_source, contributed)] (NewResolver ∅ None ∅) CatalogDemo.operations.
Definition sources : CommandSources :=
  match collected with
  | Ok (registry, catalog, resolver) => mkCommandSources (Some registry) (Some resolver) catalog ∅
  | Err _ => mkCommandSources None None ∅ ∅
  end.
Definition command_session (allowed : option (list (list string))) : CommandSession :=
  mkCommandSession SessionDemo.session sources allowed None CatalogDemo.operations CatalogDemo.no_surface false.
Definition command_env : CommandEnv (Assertion := unit) (Active := unit) (ReactionRest := unit) := {|
  cv_Session := SessionDemo.env;
  cv_Handler _ _ _ spec evaluation := done_result spec evaluation (VString "handled");
  cv_Operation _ _ input _ := ([], OpOK input);
  cv_Agent _ _ _ := Err "no agents"%string;
  cv_Workflow _ _ _ _ := mkWorkflowAnswer CommandStatusOK "ok" VNil None
|}.
Definition line_inbound (line : string) : Inbound := mkInbound "run" "cli" "c" "timo" InboundCommand None None line None None None.
Definition command_inbound (command : CommandInvocation) : Inbound := mkInbound "run" "cli" "c" "timo" InboundCommand None (Some command) emp None None None.
Definition execute (inbound : Inbound) := ExecuteInboundCommand command_env (command_session None) 4 SessionDemo.demo_replay inbound [].
(** The status and the code of a result. *)
Definition answer (inbound : Inbound) : option (CommandStatus * option string) :=
  (fun r => (cr_Status r, ce_Code <$> cr_Error r)) <$> (execute inbound).1.
(** The inputs operations ran on. *)
Definition inputs (w : list CommandCall) : list Value := w ≫= fun c => match c with OperationRan _ input _ _ _ => [input] | _ => [] end.

Example command_answers :
  answer (line_inbound "/echo --text=hello") = Some (CommandStatusOK, None) /\
  answer (line_inbound "/secret") = Some (CommandStatusRejected, None) /\
  answer (line_inbound "/whoami now") = Some (CommandStatusOK, None) /\
  answer (line_inbound "echo") = Some (CommandStatusFailed, Some "invalid_command_line"%string).
Proof. vm_compute. done. Qed.

(** ** Witnesses *)

(** The command is accepted and its operation runs on the flags, once both records are written. *)
Lemma commands_gated_witness : exists before c after,
  (execute (line_inbound "/echo --text=hello")).2 = before ++ c :: after /\ ~ idle c /\
  exists command r, accepted (command_session None) (line_inbound "/echo --text=hello") command r /\
    written (command_session None) (received (line_inbound "/echo --text=hello") command) before /\
    ran_for (command_session None) (line_inbound "/echo --text=hello") command r before c.
Proof.
  destruct ((execute (line_inbound "/echo --text=hello")).2) as [|c0 [|c1 [|c2 [|c3 [|c after]]]]] eqn:E; [vm_compute in E; discriminate..|].
  exists [c0; c1; c2; c3], c, after. split; [reflexivity|].
  assert (Hi : ~ idle c).
  { assert (H : match (execute (line_inbound "/echo --text=hello")).2 with _ :: _ :: _ :: _ :: OperationRan _ _ _ _ _ :: _ => True | _ => False end) by (vm_compute; exact I).
    rewrite E in H. clear E. destruct c; [destruct H|intros []..]. }
  split; [exact Hi|].
  unfold execute in E. refine (commands_gated command_env (command_session None) 4 SessionDemo.demo_replay (line_inbound "/echo --text=hello") [c0; c1; c2; c3] c after _ Hi).
  rewrite E. reflexivity.
Defined.
Lemma command_line_exact_witness :
  ParseCommandLine "/env explain now --all" sources = Ok (mkInvocation ["env"; "explain"] ["now"] (VMap {[ "all" := VBool true ]}))%string /\
  exists parsed, ParseSlash "/env explain now --all" = Ok (Some parsed) /\
    longest_known (offered sources) parsed (mkInvocation ["env"; "explain"] ["now"] (VMap {[ "all" := VBool true ]}))%string.
Proof.
  assert (E : ParseCommandLine "/env explain now --all" sources = Ok (mkInvocation ["env"; "explain"] ["now"] (VMap {[ "all" := VBool true ]}))%string) by (vm_compute; reflexivity).
  split; [exact E|]. exact (command_line_exact "/env explain now --all" sources _ E).
Defined.
Definition activation : CommandInvocation := mkInvocation ["activate"]%string ["editing"; "web search"]%string (VMap {[ "duration"%string := VString "turn" ]}).
Lemma activation_bound : exists values,
  BindInput activateCommandInput activation = Ok values /\ values = [Some (BoundSlice [BoundString "editing"; BoundString "web search"]); Some (BoundString "turn")]%string /\
  Forall2 field_has (fields_of activateCommandInput) values.
Proof.
  eexists. assert (E : BindInput activateCommandInput activation = Ok [Some (BoundSlice [BoundString "editing"; BoundString "web search"]); Some (BoundString "turn")]%string)
    by (vm_compute; reflexivity).
  split; [exact E|]. split; [reflexivity|]. exact (bind_typed _ _ _ E).
Defined.
(** Quotes, spaces and flags survive printing. *)
Definition odd_invocation : CommandInvocation :=
  mkInvocation ["goal"; "set"]%string ["fix"; "a b"; String double_quote "c\d"]%string (VMap {[ "max" := VString "4 0"; "dry-run" := VBool true ]}%string).
Example odd_invocation_printed : ParseSlash (print_slash odd_invocation) = Ok (Some odd_invocation).
Proof. vm_compute. reflexivity. Qed.

(** ** Commands that surprise *)

(** The command is offered under its path, but resolving the path fails: the resolver looks for the last segment in the
    namespace the others name, and its error hides the registry. *)
Lemma offered_unreachable :
  knownCommandPath ["fs"; "say"]%string (AvailableCommandSpecs sources) = true /\
  is_some (cu_Registry sources ≫= fun registry => registry !! pathKey ["fs"; "say"]%string) = true /\
  resolveCommand ["fs"; "say"]%string sources = Err (NoMatch "command" "fs:say") /\
  answer (line_inbound "/fs say") = Some (CommandStatusFailed, Some "command_resolution_failed"%string).
Proof. vm_compute. done. Qed.
(** The arguments of a command for an operation are dropped: the operation runs on nothing. *)
Lemma arguments_dropped :
  ci_Args <$> (match ParseCommandLine "/echo hello there" sources with Ok c => Some c | Err _ => None end) = Some ["hello"; "there"]%string /\
  answer (line_inbound "/echo hello there") = Some (CommandStatusOK, None) /\
  inputs (execute (line_inbound "/echo hello there")).2 = [VNil].
Proof. vm_compute. done. Qed.
(** A prompt that is asked for by a line fails, because its message still carries the line; by an invocation it runs. *)
Lemma typed_prompt_fails :
  answer (line_inbound "/review") = Some (CommandStatusFailed, Some "invalid_input_inbound"%string) /\
  answer (command_inbound (mkInvocation ["review"] [] VNil)%string) = Some (CommandStatusOK, None).
Proof. vm_compute. done. Qed.
(** The profile allows one path, and its text is that of another one, which the registry keeps apart. *)
Lemma path_text_confused : commandPathAllowed [["fs"; "say"]]%string ["fs/say"]%string = true /\ pathKey ["fs"; "say"]%string <> pathKey ["fs/say"]%string.
Proof. split; [vm_compute; reflexivity|]. intros H. vm_compute in H. discriminate. Qed.
(** A flag takes the next word, whatever type it has. *)
Lemma flag_takes_word :
  ParseSlash "/context --fresh docs" = Ok (Some (mkInvocation ["context"] [] (VMap {[ "fresh" := VString "docs" ]})))%string /\
  BindInput contextPreviewInput (mkInvocation ["context"] [] (VMap {[ "fresh" := VString "docs" ]}))%string = Err (BindField "flag" "fresh" (BadBool "docs")).
Proof. split; vm_compute; reflexivity. Qed.
End CommandDemo.
